(* ===== verification/_CoqProject ===== *)
-Q . S2P
Prelude.v
Bits.v
Timestamp.v
TsSet.v
Transaction.v
VersionStore.v
TapirStore.v
Serial.v
TapirSerial.v
LockServer.v
KVStore.v
TrueTime.v
TxnStore.v
OccStore.v
OccSerial.v
LockStore.v
LockSerial.v
Codec.v
StrongServer.v
Quorum.v
IRRecord.v
AppReplica.v
IRReplica.v
IRMerge.v
IRSafety.v
Promise.v
LockService.v
LockServiceProps.v
VRLog.v
VRReplica.v
VRSafety.v
VRNet.v
VRNormal.v
VRClient.v
IRClient.v
IRClientProps.v
TapirServer.v
Frontend.v
FrontendProps.v
TapirShard.v
TapirShardProps.v
TapirGroup.v
TapirClient.v
TapirClientProps.v
TapirSystem.v
TimeServer.v
ConfigFile.v
StrongShard.v
StrongClient.v
StrongClientProps.v
WeakStore.v
WeakStoreProps.v
CalvinTxn.v
CalvinQueue.v
CalvinLocks.v
CalvinLocksProps.v
CalvinSystem.v
CalvinSerial.v
CalvinInv.v
CalvinEvents.v
CalvinProps.v
CalvinMicro.v
AriaHelper.v
AriaWire.v
AriaReader.v
AriaTxn.v
AriaSystem.v
AriaFlight.v
AriaPhase.v
AriaExec.v
AriaCheck.v
AriaRead.v
AriaReadPhase.v
AriaCommit.v
AriaCommitPhase.v
AriaSerial.v
AriaBarrier.v
AriaTyped.v
AriaPartition.v
AriaYCSB.v
