(* ===== verification/Prelude.v ===== *)
(** * TAPIR, Aria and Calvin: a verification development

    The repository compares distributed databases.  This library is about three
    of them: TAPIR (src/tapir), with all the stores and replication protocols it
    ships with, Aria (src/aria) and Calvin (src/calvin/src_calvin).

    ** The programs

    TAPIR is a transactional key-value store.  A client library runs two-phase
    commit over shards; the client of a shard turns prepares, commits and aborts
    into operations of inconsistent replication (IR), whose replicas keep an
    unordered record of operations and drive the TAPIR store; a view change merges
    the records.  The strong store is the classic design beside it: viewstamped
    replication (VR) under a two-phase-locking or an optimistic store, with a
    timestamp server or Spanner's commit wait.  The lock service is a second
    application of IR, and the weak store a store without transactions.

    Aria runs transactions in batches.  All nodes execute a batch on the database
    as it was, reserve the rows in words with the smallest transaction ids (read
    phase), and after a barrier of the managers decide from the words alone which
    transactions commit and install their writes (commit phase).

    Calvin agrees on the order of the transactions before it executes them.  The
    sequencer of a node collects its clients' transactions in numbered batches and
    sends each node its part; the scheduler of a node takes the batches in order,
    lets a lock manager queue the transactions at their keys and gives those that
    have all their locks to workers; a worker reads the local objects, sends them
    to the other nodes that write, waits for theirs and executes the whole
    transaction.  There is no commit protocol: all nodes compute the same.

    ** Conventions

    Each file names the sources it models.  Pure code is a function; code that can
    fail an assertion returns an [outcome] ([Panic]); code that can also wait
    returns a [blocking] ([Blocks], [Crash]).  Objects are records, and a method is
    a function from the record (and a message) to its results and the new record;
    VR's methods use a monad that also collects the messages sent.  Threads,
    networks and timers are steps: the theorems about systems quantify over all
    sequences of steps, that is over all interleavings, delays, duplicates and
    losses unless the statement says otherwise.  Integers are [Z] with the
    wrap-around of their width written out ([u64], [i64], [uint n]).  A hash table
    whose iteration order matters is iterated in an arbitrary order, the class
    [IterOrder]; protocol buffers are a [Codec], of which only the round trip is
    assumed; the clock, random numbers, SHA-1 and the bytes a socket returns are
    arguments.  Aria is built with NDEBUG, so that DCHECK is nothing and CHECK
    stops the process; TAPIR and Calvin are built with their assertions.

    ** Shared files

    - Prelude.v (this file): the monads, machine integers, iteration orders, tactics
      and lemmas on lists and maps; Bits.v: packed words.
    - Codec.v: serialized messages.  Serial.v: serial execution on a plain database,
      the specification of the stores.

    ** TAPIR: stores

    - Timestamp.v, TsSet.v, Transaction.v (store/common): timestamps, the ordered
      sets [std::set] gives, read and write sets and their messages.
    - VersionStore.v, KVStore.v, LockServer.v, TxnStore.v (store/common/backend): the
      versioned and the plain store, the locks with their queues of waiters, and
      the interface of the strong stores with its laws ([TxnStore], [StrongStore]).
    - TapirStore.v, TapirSerial.v (store/tapirstore/store.cc): [Prepare], [Commit],
      [Abort]; a vote of OK prepares and changes nothing else, the store is
      serializable in linearizable mode and has write skew in the other.
    - OccStore.v, OccSerial.v, LockStore.v, LockSerial.v (store/strongstore): both
      strong stores refine serial execution; both implement [StrongStore].
    - StrongServer.v (server.cc): a replicated vote is a promise, for both stores.
    - TrueTime.v, Promise.v, TimeServer.v: clocks and sharding, promises, and the
      timestamp server with its decimal numbers.
    - WeakStore.v, WeakStoreProps.v (store/weakstore): where nothing is lost or timed
      out a client sees a map; after a timeout a put can be reported that no
      replica received.

    ** TAPIR: replication

    - Quorum.v, ConfigFile.v (lib/configuration, replication/common/quorumset.h): sizes
      of quorums and their intersection; configuration files are read as what
      they say.
    - AppReplica.v (replication/common/replica): the interface of applications.
    - IRRecord.v, IRReplica.v, IRMerge.v, IRSafety.v (replication/ir): every handler of
      the replica; the merge of records loses nothing and keeps results of the
      fast path; views are durable and an operation is executed once per view.
    - IRClient.v, IRClientProps.v (replication/ir/client.cc): what the client tells the
      application is backed by quorums, at most once, and it makes progress.
    - VRLog.v, VRReplica.v, VRSafety.v, VRNormal.v, VRNet.v, VRClient.v (replication/vr,
      replication/common/log): log transfer, execution in order, agreement while no
      view change starts, and a run in which the view change breaks agreement.
    - LockService.v, LockServiceProps.v (lockserver): mutual exclusion with three
      replicas, and where the service breaks.

    ** TAPIR: clients and the whole stack

    - Frontend.v, FrontendProps.v (store/common/frontend): the interface [TxnClient] and
      the buffer of a transaction at a shard.
    - TapirServer.v, TapirShard.v, TapirShardProps.v, TapirClient.v, TapirClientProps.v
      (store/tapirstore): round trips through serialization, two-phase commit for
      every implementation of [TxnClient], and that it returns.
    - TapirGroup.v: replicas of IR with TAPIR stores; any two prepared transactions
      were checked against each other.  TapirSystem.v: the stack end to end, with a
      run in which a committed write is nowhere.
    - StrongShard.v, StrongClient.v, StrongClientProps.v (store/strongstore): the same
      for the strong store, with the commit wait.

    ** Aria

    - AriaHelper.v (AriaHelper.h): concurrent reservations leave the same words as
      sequential ones; what happens when the epoch overflows.
    - AriaWire.v, AriaReader.v (common, AriaMessage.h): messages come back as they were
      sent, and a stream is cut into its messages however it arrives.
    - AriaTxn.v, AriaSystem.v (AriaTransaction.h, AriaExecutor.h, AriaManager.h,
      core/Manager.h, core/Dispatcher.h): all threads of all nodes as a step function.
    - AriaTyped.v: the types of words, ids, tasks and messages in every reachable state.
    - AriaFlight.v, AriaPhase.v, AriaExec.v, AriaCheck.v: messages on their way, runs of
      a phase, the passes of a transaction and the analysis of its conflicts.
    - AriaRead.v, AriaReadPhase.v, AriaCommit.v, AriaCommitPhase.v: the invariants of the
      two phases and what holds at their ends.
    - AriaSerial.v: a batch is serializable, is executed on a snapshot and crashes
      nothing, if the barrier hands over with no message of the phase left.
      AriaBarrier.v: a run in which the actual barrier does not.
    - AriaPartition.v (core/Partitioner.h), AriaYCSB.v (benchmark/ycsb): the partitioners
      and the workload meet what the theorems assume.

    ** Calvin

    - CalvinTxn.v (proto/txn.proto, common/configuration.cc, applications): transactions,
      partitions, and an application as a program over the objects of its storage
      manager, the class [Application].
    - CalvinQueue.v (common/utils.h): the queue between threads, with calls that
      overlap, is a first-in-first-out queue.  In the system a queue is a list.
    - CalvinLocks.v, CalvinLocksProps.v (scheduler/deterministic_lock_manager.cc): the
      hash table of queues implements an abstract lock manager in which a
      transaction waits exactly for the conflicting ones before it.
    - CalvinSystem.v (sequencer, scheduler/deterministic_scheduler.cc, backend,
      common/connection.cc): sequencer, scheduler, workers and multiplexer of all
      nodes as one step function.  A pointer into the storage and a copy made from a
      message are different ([cell]), since a worker assigns through the pointers.
    - CalvinSerial.v: the agreed sequence, its serial execution, and what the theorems
      assume ([planned]): distinct ids, keys without duplicates (as lock_manager.h
      requires), objects that exist, and applications that stay in their key sets.
    - CalvinInv.v, CalvinEvents.v: the invariant, in which each transaction is at a
      stage at each node, and that every step keeps it, does not crash, and
      decreases a measure of the work left if it changes anything.
    - CalvinProps.v: any run executes the agreed sequence, ends, and ends only when all
      is done; except at a node that only reads for a transaction with keys at other
      nodes, where the transaction never ends.
    - CalvinMicro.v (applications/microbenchmark.cc, deployment/main.cc): the benchmark's
      transactions meet [planned], and its records end as they should.

    ** Bounds and fuel

    Loops over data are structural.  [pieces_from] and [cleanup_loop] have the number
    of bytes and the size of the batch as fuel, and each round uses at least one.
    The two-phase commits make [COMMIT_RETRIES] rounds, as the code does.
    [wait_loop] makes as many readings of the clock as the environment grants and
    has no result if the wait is not over by then.  [run_shard] delivers messages
    until none is left, at most [system_fuel] of them; it only occurs in runs that
    are evaluated.  The rejection loops of the YCSB generator need not end (theorem
    [ycsb_few_keys_hang]); what is proved of their results holds for any fuel.
    The scheduler of Calvin locks at most 100 transactions in a round, as the code
    does; the random numbers of its client are a list, and a loop that has used it
    up has no result.  The offsets of the queue are 32 bits wide, so that what is
    proved is for up to 2^29 calls; the microbenchmark's keys, ids and records
    have to fit an int ([sized]).  The counters of the scheduler and the numbers of
    batches are unbounded integers.

    ** Not modelled

    - Transports, libevent, threads, files, command lines, logging and latency
      measurement of TAPIR: input and output, which the steps abstract from.  Of
      the persistent register only its content is modelled.
    - Benchmark drivers, scripts and bindings (store/benchmark, store/tools, libtapir,
      ycsb-t) and the TLA+ text (proof).
    - Aria's other protocols (AriaFB, Bohm, Calvin, Pwv, TwoPL), TPC-C beyond the shape
      of its transactions, sockets, worker statistics and the memory model: atomics
      are sequentially consistent, which is their default in C++, and the accesses
      to rows are single steps of the phase that makes them.
    - Of Calvin: TPC-C with the objects it inserts and deletes, ZooKeeper, the storages
      with prefetching and versions, the serial scheduler, the opening of channels,
      throughput reports, and the variants of the system beside src_calvin.
    - The other systems of the comparison (H2, HERD, Cicada, DrTM, GAM, Janus,
      MICA, Silo, STAR): separate programs. *)

From stdpp Require Export base gmap strings list sorting numbers fin_maps.
From Stdlib Require Export ZArith Lia.

#[export] Set Default Goal Selector "!".

Declare Scope tapir_scope.
Delimit Scope tapir_scope with tapir.
Open Scope tapir_scope.
Open Scope Z_scope.

(** ** Outcomes

    [ASSERT] and [Panic] end the process, so code that can reach one returns
    an [outcome]. *)

Inductive outcome (A : Type) : Type :=
| Ret (a : A)
| Panic.
Arguments Ret {A} a.
Arguments Panic {A}.

#[global] Instance outcome_ret : MRet outcome := @Ret.
#[global] Instance outcome_bind : MBind outcome :=
  λ A B f c, match c with Ret a => f a | Panic => Panic end.
#[global] Instance outcome_fmap : FMap outcome :=
  λ A B f c, match c with Ret a => Ret (f a) | Panic => Panic end.

(** [ASSERT(x)] of lib/assert.h: [Panic] when the predicate is false. *)
Definition ASSERT (b : bool) : outcome unit :=
  if b then Ret tt else Panic.

Notation "'ASSERT!' b ; k" := (ASSERT b ≫= λ _, k)
  (at level 100, b at level 90, k at level 200, right associativity,
   format "'[v' 'ASSERT!'  b ; '/' k ']'") : tapir_scope.

(** ** Calls that wait *)

(** The thread may wait for ever, or the process may stop. *)
Inductive blocking (X : Type) := Done (x : X) | Blocks | Crash.
Arguments Done {X} x.
Arguments Blocks {X}.
Arguments Crash {X}.

#[global] Instance blocking_ret : MRet blocking := @Done.
#[global] Instance blocking_bind : MBind blocking :=
  λ X Y k m, match m with Done x => k x | Blocks => Blocks | Crash => Crash end.

(** ** Machine integers *)

(** Conversion to [uint64_t]. *)
Definition u64 (z : Z) : Z := z mod 2 ^ 64.

(** Conversion to [int64_t] (two's complement). *)
Definition i64 (z : Z) : Z := (z + 2 ^ 63) mod 2 ^ 64 - 2 ^ 63.

(** Conversion to [unsigned int] and [int]. *)
Definition u32 (z : Z) : Z := z mod 2 ^ 32.
Definition i32 (z : Z) : Z := (z + 2 ^ 31) mod 2 ^ 32 - 2 ^ 31.

(** [z] is a value of type [uint64_t]. *)
Definition is_u64 (z : Z) : Prop := 0 ≤ z < 2 ^ 64.

(** ** Iteration over hash tables

    The order in which a range-for visits a [std::unordered_map] is not
    specified.  Code that iterates takes an [IterOrder]: some enumeration of
    the table's entries.  A theorem that quantifies over it holds for every
    order an implementation may use. *)
Class IterOrder := {
  umap_iter : ∀ {K V} `{Countable K}, gmap K V → list (K * V);
  umap_iter_perm : ∀ {K V} `{Countable K} (m : gmap K V),
    umap_iter m ≡ₚ map_to_list m
}.

(** An order that exists: the one of stdpp's [map_to_list]. *)
Definition canonical_order : IterOrder :=
  {| umap_iter := λ K V _ _ m, map_to_list m;
     umap_iter_perm := λ K V _ _ m, Permutation_refl (map_to_list m) |}.

(** A range-for over a [std::map], which visits the keys in order. *)
Definition omap_iter {K V} `{Countable K} (le : relation K)
    `{∀ x y, Decision (le x y)} (m : gmap K V) : list (K * V) :=
  merge_sort (λ p q, le p.1 q.1) (map_to_list m).

(** ** Time

    [struct timeval]; a call of [gettimeofday] is an argument of the model. *)
Record timeval := mkTV { tv_sec : Z; tv_usec : Z }.

(** ** Loops

    A loop whose body either goes on ([None]) or returns from the enclosing
    function ([Some r]). *)
Fixpoint for_first {A R} (body : A → option R) (l : list A) : option R :=
  match l with
  | [] => None
  | x :: l' => match body x with Some r => Some r | None => for_first body l' end
  end.

(** A loop that updates a state and may panic. *)
Fixpoint for_each {A S} (body : S → A → outcome S) (s : S) (l : list A) : outcome S :=
  match l with
  | [] => Ret s
  | x :: l' => s' ← body s x; for_each body s' l'
  end.

(** ** Lemmas on outcomes *)

Lemma bind_Ret_inv {A B} (c : outcome A) (f : A → outcome B) (b : B) :
  c ≫= f = Ret b ↔ ∃ a, c = Ret a ∧ f a = Ret b.
Proof. destruct c; simpl; naive_solver. Qed.

Lemma ASSERT_Ret (b : bool) (u : unit) : ASSERT b = Ret u ↔ b = true.
Proof. destruct b, u; simpl; naive_solver. Qed.

Lemma ASSERT_bind {A} (b : bool) (c : outcome A) (a : A) :
  (ASSERT! b; c) = Ret a ↔ b = true ∧ c = Ret a.
Proof. destruct b; simpl; naive_solver. Qed.

Lemma bind_Done {X Y} (m : blocking X) (k : X → blocking Y) y :
  m ≫= k = Done y ↔ ∃ x, m = Done x ∧ k x = Done y.
Proof. destruct m; simpl; naive_solver. Qed.

(** ** Lemmas on machine integers *)

Lemma u64_range z : is_u64 (u64 z).
Proof. unfold u64, is_u64. apply Z.mod_pos_bound. lia. Qed.

Lemma u64_id z : is_u64 z → u64 z = z.
Proof. unfold u64, is_u64. apply Z.mod_small. Qed.

Lemma i64_id z : - 2 ^ 63 ≤ z < 2 ^ 63 → i64 z = z.
Proof. intros ?. unfold i64. rewrite Z.mod_small; lia. Qed.

Lemma i32_id z : - 2 ^ 31 ≤ z < 2 ^ 31 → i32 z = z.
Proof. intros ?. unfold i32. rewrite Z.mod_small; lia. Qed.

Lemma i64_u64 z : i64 (u64 z) = i64 z.
Proof. unfold i64, u64. by rewrite Zplus_mod_idemp_l. Qed.

(** ** Lemmas on iteration *)

Lemma elem_of_umap_iter `{IterOrder} {K V} `{Countable K} (m : gmap K V) k v :
  (k, v) ∈ umap_iter m ↔ m !! k = Some v.
Proof. by rewrite umap_iter_perm, elem_of_map_to_list. Qed.

Lemma elem_of_umap_keys `{IterOrder} {K V} `{Countable K} (m : gmap K V) k :
  k ∈ (umap_iter m).*1 ↔ is_Some (m !! k).
Proof.
  rewrite list_elem_of_fmap. split.
  - intros ([k' v] & -> & Hin%elem_of_umap_iter). by exists v.
  - intros [v Hv]. exists (k, v). by rewrite elem_of_umap_iter.
Qed.

Lemma umap_iter_NoDup `{IterOrder} {K V} `{Countable K} (m : gmap K V) :
  NoDup (umap_iter m).*1.
Proof. rewrite umap_iter_perm. apply NoDup_fst_map_to_list. Qed.

Lemma umap_iter_empty `{IterOrder} {K V} `{Countable K} :
  umap_iter (∅ : gmap K V) = [].
Proof.
  apply Permutation_nil. by rewrite umap_iter_perm, map_to_list_empty.
Qed.

Lemma omap_iter_perm {K V} `{Countable K} (le : relation K)
    `{∀ x y, Decision (le x y)} (m : gmap K V) :
  omap_iter le m ≡ₚ map_to_list m.
Proof. apply merge_sort_Permutation. Qed.

Lemma elem_of_omap_iter {K V} `{Countable K} (le : relation K)
    `{∀ x y, Decision (le x y)} (m : gmap K V) k v :
  (k, v) ∈ omap_iter le m ↔ m !! k = Some v.
Proof. by rewrite omap_iter_perm, elem_of_map_to_list. Qed.

(** ** Lemmas on loops *)

Lemma for_first_None {A R} (body : A → option R) l :
  for_first body l = None ↔ ∀ x, x ∈ l → body x = None.
Proof.
  induction l as [|x l IH]; simpl.
  - split; [|done]. intros _ x Hx. by apply elem_of_nil in Hx.
  - destruct (body x) eqn:E; [split; [done|] |].
    + intros Hall. specialize (Hall x (list_elem_of_here _ _)). congruence.
    + rewrite IH. split; intros Hall y.
      * intros [->|Hy]%elem_of_cons; auto.
      * intros Hy. apply Hall. by apply elem_of_cons; right.
Qed.

Lemma for_first_Some {A R} (body : A → option R) l r :
  for_first body l = Some r → ∃ x, x ∈ l ∧ body x = Some r.
Proof.
  induction l as [|x l IH]; simpl; [done|].
  destruct (body x) eqn:E; intros Hr.
  - simplify_eq. exists x. split; [apply list_elem_of_here | done].
  - destruct (IH Hr) as (y & Hy & ?). exists y. split; [|done].
    by apply elem_of_cons; right.
Qed.

(** An invariant of the body is an invariant of the loop. *)
Lemma for_each_inv {A S} (body : S → A → outcome S) (P : S → Prop) l s s' :
  (∀ s x s', x ∈ l → P s → body s x = Ret s' → P s') →
  P s → for_each body s l = Ret s' → P s'.
Proof.
  revert s. induction l as [|x l IH]; simpl; intros s Hstep Hs Heq.
  - by simplify_eq.
  - apply bind_Ret_inv in Heq as (s1 & H1 & H2).
    eapply IH; [| |exact H2].
    + intros s2 y s3 Hy. apply Hstep. by apply elem_of_cons; right.
    + eapply Hstep; [|exact Hs|exact H1]. apply list_elem_of_here.
Qed.

Lemma for_each_snoc {A S} (body : S → A → outcome S) s l x :
  for_each body s (l ++ [x]) = (s' ← for_each body s l; body s' x).
Proof.
  revert s. induction l as [|y l IH]; intros s; simpl.
  - by destruct (body s x).
  - destruct (body s y); simpl; [apply IH|done].
Qed.

(** A loop that succeeds, with an invariant on the elements visited so far. *)
Lemma for_each_total {A S} (body : S → A → outcome S) (I : list A → S → Prop) P l s :
  (∀ Q x s, Q ++ [x] `prefix_of` P ++ l → I Q s → ∃ s', body s x = Ret s' ∧ I (Q ++ [x]) s') →
  I P s → ∃ s', for_each body s l = Ret s' ∧ I (P ++ l) s'.
Proof.
  revert P s. induction l as [|x l IH]; intros P s Hb Hs; simpl.
  { exists s. by rewrite app_nil_r. }
  destruct (Hb P x s) as (s1 & -> & Hs1); [exists l; by rewrite <- app_assoc|done|]. simpl.
  destruct (IH (P ++ [x]) s1) as (s2 & -> & Hs2); [|done|].
  - intros Q y s' Hp. apply Hb. by rewrite <- app_assoc in Hp.
  - exists s2. split; [done|]. by rewrite <- app_assoc in Hs2.
Qed.

(** ** Lemmas on lists *)

(** A split of a filtered list comes from a position of the list. *)
Lemma filter_split_inv {A} (P : A → Prop) `{∀ x, Decision (P x)} (l l1 l2 : list A) x :
  filter P l = l1 ++ x :: l2 →
  ∃ j, l !! j = Some x ∧ P x ∧ l1 = filter P (take j l) ∧ l2 = filter P (drop (S j) l).
Proof.
  revert l1. induction l as [|y l IH]; intros l1 Heq.
  { rewrite filter_nil in Heq. by destruct l1. }
  rewrite filter_cons in Heq. destruct (decide (P y)) as [Hy|Hy].
  - destruct l1 as [|z l1]; simplify_eq/=; [by exists 0%nat|].
    destruct (IH l1) as (j & Hj & Hx & -> & ->); [done|].
    exists (S j). simpl. by rewrite filter_cons, decide_True by done.
  - destruct (IH l1) as (j & Hj & Hx & -> & ->); [done|].
    exists (S j). simpl. by rewrite filter_cons, decide_False by done.
Qed.

Lemma Forall_filter {X} (P Q : X → Prop) `{∀ x, Decision (Q x)} (l : list X) : Forall P l → Forall P (filter Q l).
Proof. rewrite !Forall_forall. intros Hl x [_ Hx]%list_elem_of_filter. by apply Hl. Qed.

Lemma filter_all {A} (P : A → Prop) `{∀ x, Decision (P x)} (l : list A) : Forall P l → filter P l = l.
Proof. induction 1 as [|x l Hx _ IH]; [done|]. by rewrite filter_cons_True, IH. Qed.

Lemma filter_none {A} (P : A → Prop) `{∀ x, Decision (P x)} (l : list A) :
  Forall (λ x, ¬ P x) l → filter P l = [].
Proof. induction 1 as [|x l Hx _ IH]; [done|]. by rewrite filter_cons_False. Qed.

(** The last element with a decidable property. *)
Lemma last_with {A} (P : A → Prop) `{∀ x, Decision (P x)} (l : list A) :
  (∀ x, x ∈ l → ¬ P x) ∨
  ∃ l1 x l2, l = l1 ++ x :: l2 ∧ P x ∧ ∀ y, y ∈ l2 → ¬ P y.
Proof.
  induction l as [|x l IH]; [left; by intros ? ?%elem_of_nil|].
  destruct IH as [Hno|(l1 & y & l2 & -> & Hy & Hno)].
  - destruct (decide (P x)) as [Hx|Hx].
    + right. by exists [], x, l.
    + left. intros y [->|?]%elem_of_cons; auto.
  - right. exists (x :: l1), y, l2. auto.
Qed.

(** Splitting a prefix at one of its positions. *)
Lemma take_split {A} (l : list A) i j x :
  (i < j)%nat → l !! i = Some x →
  take j l = take i l ++ x :: take (j - S i) (drop (S i) l).
Proof.
  intros Hij Hx. rewrite <- (take_drop_middle l i x Hx) at 1.
  pose proof (lookup_lt_Some _ _ _ Hx).
  rewrite take_app_ge; rewrite length_take_le by lia; [|lia].
  f_equal. replace (j - i)%nat with (S (j - S i)) by lia. done.
Qed.

Lemma elem_of_take_lookup {A} (l : list A) j x :
  x ∈ take j l → ∃ i, (i < j)%nat ∧ l !! i = Some x.
Proof. intros [i Hi]%list_elem_of_lookup. exists i. by apply lookup_take_Some in Hi as [??]. Qed.

Lemma elem_of_take_drop_lookup {A} (l : list A) i n x :
  x ∈ take n (drop i l) → ∃ i', (i ≤ i' < i + n)%nat ∧ l !! i' = Some x.
Proof.
  intros (m & Hm & Hx)%elem_of_take_lookup. rewrite lookup_drop in Hx.
  exists (i + m)%nat. split; [lia|done].
Qed.

(** ** Automation *)

Create HintDb tapir.
#[export] Hint Resolve u64_range : tapir.
#[export] Hint Rewrite @bind_Ret_inv @ASSERT_Ret : tapir.

(** Case analysis on every [match] and [if] of the goal, closing the
    contradictory branches. *)
Ltac cases_goal :=
  repeat (case_match; simplify_eq/=; try done).
