(* ===== verification/Bits.v ===== *)
(** * Bit fields of machine words

    The accessors of packed words all have the same form: a field is read by
    shifting and masking, cleared by masking with the complement, and set by
    clearing it and or-ing the shifted value.  [field_get] and [field_set] are
    that form; the lemmas say that the fields of a word are independent. *)

From S2P Require Import Prelude.

(** Conversion to an unsigned integer of [n] bits. *)
Definition uint (n z : Z) : Z := z mod 2 ^ n.

(** [(v >> off) & mask]. *)
Definition field_get (off mask v : Z) : Z := Z.land (Z.shiftr v off) mask.

(** [v & ~(mask << off)] in a word of [n] bits. *)
Definition field_clear (n off mask v : Z) : Z := Z.land v (uint n (Z.lnot (uint n (Z.shiftl mask off)))).

(** [(v & ~(mask << off)) | (x << off)] in a word of [n] bits. *)
Definition field_set (n off mask v x : Z) : Z :=
  Z.lor (field_clear n off mask v) (uint n (Z.shiftl x off)).

Lemma uint_testbit n z i : 0 ≤ n → 0 ≤ i → Z.testbit (uint n z) i = (i <? n) && Z.testbit z i.
Proof.
  intros Hn Hi. unfold uint. destruct (Z.ltb_spec i n).
  - by rewrite Z.mod_pow2_bits_low.
  - by rewrite Z.mod_pow2_bits_high by lia.
Qed.

Lemma uint_range n z : 0 ≤ n → 0 ≤ uint n z < 2 ^ n.
Proof. intros. apply Z.mod_pos_bound. lia. Qed.

Lemma uint_id n z : 0 ≤ z < 2 ^ n → uint n z = z.
Proof. apply Z.mod_small. Qed.

Lemma u64_uint z : u64 z = uint 64 z.
Proof. done. Qed.

(** A value of [n] bits has no bits from [n] on. *)
Lemma testbit_high n z i : 0 ≤ z < 2 ^ n → n ≤ i → Z.testbit z i = false.
Proof.
  intros Hz Hi. destruct (decide (z = 0)) as [->|]; [apply Z.bits_0|].
  apply Z.bits_above_log2; [lia|]. apply Z.lt_le_trans with n; [|done]. apply Z.log2_lt_pow2; lia.
Qed.

Lemma range_testbit n z : 0 ≤ n → 0 ≤ z → (∀ i, n ≤ i → Z.testbit z i = false) → z < 2 ^ n.
Proof.
  intros Hn Hz Hb. destruct (decide (z = 0)) as [->|]; [lia|].
  apply Z.log2_lt_pow2; [lia|]. destruct (Z.le_gt_cases n (Z.log2 z)) as [Hle|]; [|done].
  specialize (Hb _ Hle). rewrite Z.bit_log2 in Hb; [done|lia].
Qed.

Section field.
Context (n off w : Z) (Hoff : 0 ≤ off) (Hw : 0 ≤ w) (Hn : off + w ≤ n).

Lemma field_get_testbit v i : 0 ≤ i →
  Z.testbit (field_get off (Z.ones w) v) i = (i <? w) && Z.testbit v (i + off).
Proof using Hoff Hw.
  intros Hi. unfold field_get. rewrite Z.land_spec, Z.shiftr_spec, Z.testbit_ones_nonneg by lia.
  by rewrite andb_comm.
Qed.

Lemma field_get_range v : 0 ≤ field_get off (Z.ones w) v < 2 ^ w.
Proof using Hw. unfold field_get. rewrite Z.land_ones by done. apply Z.mod_pos_bound. lia. Qed.

Lemma field_set_testbit v x i : 0 ≤ x < 2 ^ w → 0 ≤ v < 2 ^ n → 0 ≤ i →
  Z.testbit (field_set n off (Z.ones w) v x) i =
  if (off <=? i) && (i <? off + w) then Z.testbit x (i - off) else Z.testbit v i.
Proof using Hoff Hw Hn.
  intros Hx Hv Hi. unfold field_set, field_clear.
  rewrite Z.lor_spec, Z.land_spec, !uint_testbit, Z.lnot_spec, uint_testbit, !Z.shiftl_spec by lia.
  destruct (Z.ltb_spec i n) as [Hin|Hin]; simpl.
  - destruct (Z.leb_spec off i) as [Ho|Ho]; simpl.
    + rewrite Z.testbit_ones_nonneg by lia. destruct (Z.ltb_spec (i - off) w), (Z.ltb_spec i (off + w)); try lia; simpl.
      * by rewrite andb_false_r.
      * rewrite (testbit_high w x), orb_false_r by (done || lia). by rewrite andb_true_r.
    + rewrite !(Z.testbit_neg_r _ (i - off)) by lia. simpl. by rewrite andb_true_r, orb_false_r.
  - rewrite andb_false_r. destruct (Z.ltb_spec i (off + w)); [lia|].
    rewrite andb_false_r. symmetry. by apply (testbit_high n).
Qed.

Lemma field_set_range v x : 0 ≤ v < 2 ^ n → 0 ≤ field_set n off (Z.ones w) v x < 2 ^ n.
Proof using Hoff Hw Hn.
  intros Hv. unfold field_set, field_clear. assert (0 ≤ n) as Hn0 by lia.
  pose proof (uint_range n (Z.shiftl x off) Hn0).
  pose proof (uint_range n (Z.lnot (uint n (Z.shiftl (Z.ones w) off))) Hn0).
  split; [apply Z.lor_nonneg; split; [apply Z.land_nonneg; lia|lia]|].
  apply range_testbit; [done| apply Z.lor_nonneg; split; [apply Z.land_nonneg; lia|lia]|].
  intros i Hi. rewrite Z.lor_spec, Z.land_spec, (testbit_high n v) by lia. simpl. apply (testbit_high n); lia.
Qed.

Lemma field_get_set v x : 0 ≤ x < 2 ^ w → 0 ≤ v < 2 ^ n →
  field_get off (Z.ones w) (field_set n off (Z.ones w) v x) = x.
Proof using Hoff Hw Hn.
  intros Hx Hv. apply Z.bits_inj'. intros i Hi.
  rewrite field_get_testbit, field_set_testbit by lia.
  destruct (Z.ltb_spec i w) as [Hiw|Hiw]; simpl; [|symmetry; by apply (testbit_high w)].
  destruct (Z.leb_spec off (i + off)), (Z.ltb_spec (i + off) (off + w)); try lia. simpl. f_equal. lia.
Qed.

(** Setting a field leaves a disjoint one as it is. *)
Lemma field_get_set_ne off' w' v x : 0 ≤ x < 2 ^ w → 0 ≤ v < 2 ^ n →
  0 ≤ off' → 0 ≤ w' → off' + w' ≤ off ∨ off + w ≤ off' →
  field_get off' (Z.ones w') (field_set n off (Z.ones w) v x) = field_get off' (Z.ones w') v.
Proof using Hoff Hw Hn.
  intros Hx Hv Ho' Hw' Hd. apply Z.bits_inj'. intros i Hi. unfold field_get.
  rewrite !Z.land_spec, !Z.shiftr_spec, !Z.testbit_ones_nonneg, field_set_testbit by lia.
  destruct (Z.ltb_spec i w'); [|by rewrite !andb_false_r].
  destruct (Z.leb_spec off (i + off')), (Z.ltb_spec (i + off') (off + w)); try lia; done.
Qed.

End field.

(** Two words with the same bits are equal; used with fields that cover them. *)
Lemma field_ext n (v v' : Z) : 0 ≤ v < 2 ^ n → 0 ≤ v' < 2 ^ n →
  (∀ i, 0 ≤ i < n → Z.testbit v i = Z.testbit v' i) → v = v'.
Proof.
  intros Hv Hv' Hb. apply Z.bits_inj'. intros i Hi. destruct (Z.lt_ge_cases i n); [by apply Hb|].
  by rewrite !(testbit_high n).
Qed.
