(* ===== verification/Timestamp.v ===== *)
(** * Timestamps (store/common/timestamp.{h,cc})

    A transaction timestamp is a clock value and the id of the client that
    chose it.  The comparison operators are the source's, as boolean
    functions; they form a strict total order. *)

From S2P Require Import Prelude.

Record Timestamp := mkTS { timestamp : Z; tid : Z }.

#[global] Instance Timestamp_eq_dec : EqDecision Timestamp.
Proof. solve_decision. Defined.

#[global] Instance Timestamp_countable : Countable Timestamp :=
  inj_countable' (λ t, (timestamp t, tid t)) (λ p, mkTS p.1 p.2)
    ltac:(by intros []).

(** [Timestamp()] *)
Notation ts0 := (mkTS 0 0) (only parsing).

(** [Timestamp(uint64_t t)] *)
Notation ts_of t := (mkTS t 0) (only parsing).

(** [operator==], [!=], [>], [<], [>=], [<=] *)
Definition ts_eq (a b : Timestamp) : bool :=
  (timestamp a =? timestamp b) && (tid a =? tid b).

Definition ts_ne (a b : Timestamp) : bool :=
  negb (timestamp a =? timestamp b) || negb (tid a =? tid b).

Definition ts_gt (a b : Timestamp) : bool :=
  if timestamp a =? timestamp b then tid a >? tid b
  else timestamp a >? timestamp b.

Definition ts_lt (a b : Timestamp) : bool :=
  if timestamp a =? timestamp b then tid a <? tid b
  else timestamp a <? timestamp b.

Definition ts_ge (a b : Timestamp) : bool :=
  if timestamp a =? timestamp b then tid a >=? tid b
  else timestamp a >=? timestamp b.

Definition ts_le (a b : Timestamp) : bool :=
  if timestamp a =? timestamp b then tid a <=? tid b
  else timestamp a <=? timestamp b.

(** [isValid] *)
Definition isValid (a : Timestamp) : bool := (timestamp a >? 0) && (tid a >? 0).

Notation getTimestamp := timestamp (only parsing).
Notation setTimestamp t a := (mkTS t (tid a)) (only parsing).

(** [TimestampMessage] of common-proto.proto and [serialize]. *)
Record TimestampMessage := mkTSMsg { tsm_id : Z; tsm_timestamp : Z }.

#[global] Instance TimestampMessage_eq_dec : EqDecision TimestampMessage.
Proof. solve_decision. Defined.
#[global] Instance TimestampMessage_countable : Countable TimestampMessage :=
  inj_countable' (λ m, (tsm_id m, tsm_timestamp m)) (λ p, mkTSMsg p.1 p.2)
    (λ m, match m with mkTSMsg _ _ => eq_refl end).

Definition ts_of_msg (m : TimestampMessage) : Timestamp :=
  mkTS (tsm_timestamp m) (tsm_id m).

Definition ts_serialize (a : Timestamp) : TimestampMessage :=
  {| tsm_timestamp := timestamp a; tsm_id := tid a |}.

(** ** The order *)

Lemma ts_eq_iff (a b : Timestamp) :
  a = b ↔ timestamp a = timestamp b ∧ tid a = tid b.
Proof. destruct a, b; simpl; naive_solver. Qed.

Lemma ts_eq_spec a b : ts_eq a b = true ↔ a = b.
Proof. rewrite ts_eq_iff. unfold ts_eq. lia. Qed.

Lemma ts_lt_spec a b :
  ts_lt a b = true ↔
  timestamp a < timestamp b ∨ timestamp a = timestamp b ∧ tid a < tid b.
Proof. unfold ts_lt. case_match; lia. Qed.

Lemma ts_le_spec a b :
  ts_le a b = true ↔
  timestamp a < timestamp b ∨ timestamp a = timestamp b ∧ tid a ≤ tid b.
Proof. unfold ts_le. case_match; lia. Qed.

Lemma ts_ne_negb a b : ts_ne a b = negb (ts_eq a b).
Proof. unfold ts_ne, ts_eq. by rewrite negb_andb. Qed.

Lemma ts_gt_flip a b : ts_gt a b = ts_lt b a.
Proof. unfold ts_gt, ts_lt. rewrite (Z.eqb_sym (timestamp b)). case_match; lia. Qed.

Lemma ts_ge_flip a b : ts_ge a b = ts_le b a.
Proof. unfold ts_ge, ts_le. rewrite (Z.eqb_sym (timestamp b)). case_match; lia. Qed.

Lemma ts_le_negb_lt a b : ts_le a b = negb (ts_lt b a).
Proof. unfold ts_le, ts_lt. rewrite (Z.eqb_sym (timestamp b)). case_match; lia. Qed.

#[export] Hint Rewrite ts_ne_negb ts_gt_flip ts_ge_flip : tapir.

(** [ts_order] decides facts about the order: every comparison becomes
    arithmetic on the fields. *)
Ltac ts_norm :=
  repeat match goal with
  | H : context [ts_ne _ _] |- _ => rewrite ts_ne_negb in H
  | |- context [ts_ne _ _] => rewrite ts_ne_negb
  | H : context [ts_gt _ _] |- _ => rewrite ts_gt_flip in H
  | |- context [ts_gt _ _] => rewrite ts_gt_flip
  | H : context [ts_ge _ _] |- _ => rewrite ts_ge_flip in H
  | |- context [ts_ge _ _] => rewrite ts_ge_flip
  | H : negb _ = true |- _ => apply negb_true_iff in H
  | H : negb _ = false |- _ => apply negb_false_iff in H
  | |- negb _ = true => apply negb_true_iff
  | |- negb _ = false => apply negb_false_iff
  end.
Ltac ts_order :=
  ts_norm;
  repeat match goal with
  | H : _ = false |- _ => apply not_true_iff_false in H
  | |- _ = false => apply not_true_iff_false
  end;
  rewrite ?ts_eq_spec, ?ts_lt_spec, ?ts_le_spec in *;
  repeat match goal with
  | H : ?a = ?b :> Timestamp |- _ => rewrite ts_eq_iff in H
  | H : ¬ (?a = ?b :> Timestamp) |- _ => rewrite ts_eq_iff in H
  | |- ?a = ?b :> Timestamp => rewrite ts_eq_iff
  | |- ¬ (?a = ?b :> Timestamp) => rewrite ts_eq_iff
  end; unfold isValid in *; simpl in *; lia.

(** The comparison operators of [Timestamp] form a strict total order
    (exactly one of [<], [==], [>] holds, [<] is transitive) and agree with
    each other: [<=], [>=] and [!=] are the negations of [>], [<] and [==]. *)
Theorem ts_strict_total_order (a b c : Timestamp) :
  (ts_lt a b = true ∧ ts_eq a b = false ∧ ts_gt a b = false ∨
   ts_lt a b = false ∧ ts_eq a b = true ∧ ts_gt a b = false ∨
   ts_lt a b = false ∧ ts_eq a b = false ∧ ts_gt a b = true) ∧
  (ts_lt a b = true → ts_lt b c = true → ts_lt a c = true) ∧
  ts_le a b = negb (ts_gt a b) ∧ ts_ge a b = negb (ts_lt a b) ∧
  ts_ne a b = negb (ts_eq a b).
Proof.
  rewrite ts_ge_flip, ts_gt_flip, !ts_le_negb_lt, ts_ne_negb.
  split; [|split; [intros; ts_order | done]].
  destruct (ts_lt a b) eqn:?, (ts_lt b a) eqn:?, (ts_eq a b) eqn:?;
    first [ by auto 10 | exfalso; ts_order ].
Qed.
