(* ===== verification/TsSet.v ===== *)
(** * [std::set] ordered by timestamps

    The stores keep ordered sets whose elements are compared by a timestamp
    ([std::set<VersionedValue>], [std::set<Timestamp>]).  A set is the list of
    its elements in increasing order; an iterator is an index, [end()] being
    the length.  [insert] leaves a set that already holds an equivalent element
    unchanged, as the library specifies. *)

From S2P Require Import Prelude Timestamp.

Section ts_set.
Context {A : Type} (key : A → Timestamp).

(** [s.insert(x)] *)
Fixpoint set_insert (x : A) (l : list A) : list A :=
  match l with
  | [] => [x]
  | y :: l' =>
      if ts_lt (key x) (key y) then x :: l
      else if ts_lt (key y) (key x) then y :: set_insert x l'
      else l
  end.

(** [s.upper_bound(t)]: the first element greater than [t]. *)
Fixpoint upper_bound (t : Timestamp) (l : list A) : nat :=
  match l with
  | [] => 0
  | y :: l' => if ts_lt t (key y) then 0 else S (upper_bound t l')
  end.

(** The library's invariant: strictly increasing keys. *)
Definition set_wf (l : list A) : Prop :=
  StronglySorted (λ x y, ts_lt (key x) (key y) = true) l.

(** ** Lemmas *)

Lemma set_wf_nil : set_wf [].
Proof. constructor. Qed.

Lemma elem_of_set_insert_weak x y l :
  y ∈ set_insert x l → y = x ∨ y ∈ l.
Proof.
  induction l as [|z l IH]; simpl; [rewrite list_elem_of_singleton; auto|].
  repeat case_match; rewrite !elem_of_cons; naive_solver.
Qed.

Lemma set_insert_mono x y l : y ∈ l → y ∈ set_insert x l.
Proof.
  induction l as [|z l IH]; simpl; [by intros ?%elem_of_nil|].
  repeat case_match; rewrite ?elem_of_cons; naive_solver.
Qed.

Lemma set_insert_wf x l : set_wf l → set_wf (set_insert x l).
Proof.
  unfold set_wf. induction 1 as [|y l Hl IH Hy]; simpl.
  { repeat constructor. }
  destruct (ts_lt (key x) (key y)) eqn:Hxy;
    [|destruct (ts_lt (key y) (key x)) eqn:Hyx].
  - constructor; [by constructor|].
    constructor; [done|]. eapply Forall_impl; [exact Hy|]. simpl. intros. ts_order.
  - constructor; [done|]. apply Forall_forall. intros z Hz.
    apply elem_of_set_insert_weak in Hz as [->|Hz]; [done|].
    by apply (proj1 (Forall_forall _ _) Hy).
  - by constructor.
Qed.

(** Inserting under a fresh key adds exactly the new element. *)
Lemma elem_of_set_insert x y l :
  (∀ z, z ∈ l → key z ≠ key x) → y ∈ set_insert x l ↔ y = x ∨ y ∈ l.
Proof.
  intros Hfresh. split; [apply elem_of_set_insert_weak|].
  intros [->|Hy]; [|by apply set_insert_mono].
  induction l as [|z l IH]; simpl; [by apply list_elem_of_singleton|].
  destruct (ts_lt (key x) (key z)) eqn:?; [apply list_elem_of_here|].
  destruct (ts_lt (key z) (key x)) eqn:?.
  - apply elem_of_cons; right. apply IH. intros w ?. apply Hfresh.
    by apply elem_of_cons; right.
  - destruct (Hfresh z); [apply list_elem_of_here|]. ts_order.
Qed.

(** Inserting under a key that is present does nothing. *)
Lemma set_insert_dup x z l :
  set_wf l → z ∈ l → key z = key x → set_insert x l = l.
Proof.
  unfold set_wf. induction 1 as [|y l Hl IH Hy]; simpl; [by intros ?%elem_of_nil|].
  intros [->|Hz]%elem_of_cons Hk.
  - rewrite Hk. by destruct (ts_lt (key x) (key x)) eqn:?; [exfalso; ts_order|].
  - pose proof (proj1 (Forall_forall _ _) Hy z Hz) as Hlt. simpl in Hlt.
    rewrite Hk in Hlt. rewrite Hlt.
    destruct (ts_lt (key x) (key y)) eqn:?; [exfalso; ts_order|].
    by rewrite IH.
Qed.

(** An element with the new key is present after the insertion. *)
Lemma set_insert_has_key x l : ∃ z, z ∈ set_insert x l ∧ key z = key x.
Proof.
  induction l as [|y l IH]; simpl.
  - exists x. by rewrite list_elem_of_singleton.
  - destruct (ts_lt (key x) (key y)) eqn:?;
      [exists x; split; [apply list_elem_of_here|done]|].
    destruct (ts_lt (key y) (key x)) eqn:?.
    + destruct IH as (z & ? & ?). exists z. rewrite elem_of_cons. auto.
    + exists y. split; [apply list_elem_of_here|ts_order].
Qed.

Lemma set_wf_key_inj l x y : set_wf l → x ∈ l → y ∈ l → key x = key y → x = y.
Proof.
  unfold set_wf. induction 1 as [|z l Hl IH Hz]; [by intros ?%elem_of_nil|].
  rewrite Forall_forall in Hz.
  intros [->|Hx]%elem_of_cons [->|Hy]%elem_of_cons Heq; [done| | |by auto].
  - specialize (Hz y Hy). simpl in Hz. rewrite Heq in Hz. exfalso. ts_order.
  - specialize (Hz x Hx). simpl in Hz. rewrite Heq in Hz. exfalso. ts_order.
Qed.

Lemma set_wf_lookup_lt l i j x y :
  set_wf l → l !! i = Some x → l !! j = Some y → (i < j)%nat →
  ts_lt (key x) (key y) = true.
Proof.
  unfold set_wf. intros Hl. revert i j. induction Hl as [|z l Hl IH Hz]; intros i j.
  { by rewrite lookup_nil. }
  destruct i as [|i], j as [|j]; simpl; intros Hi Hj Hlt; try lia.
  - simplify_eq. apply (proj1 (Forall_forall _ _) Hz). by eapply list_elem_of_lookup_2.
  - eapply IH; eauto with lia.
Qed.

Lemma upper_bound_le_length t l : (upper_bound t l ≤ length l)%nat.
Proof. induction l; simpl; [done|]. case_match; lia. Qed.

(** The elements before [upper_bound t] are those with key at most [t]. *)
Lemma upper_bound_spec t l i x :
  set_wf l → l !! i = Some x →
  (i < upper_bound t l)%nat ↔ ts_lt t (key x) = false.
Proof.
  intros Hl. revert i. induction Hl as [|y l Hl IH Hy]; intros i; simpl.
  { by rewrite lookup_nil. }
  destruct i as [|i]; simpl; intros Hx.
  - simplify_eq. destruct (ts_lt t (key x)) eqn:?; split; intros; lia || done.
  - destruct (ts_lt t (key y)) eqn:Hty.
    + assert (ts_lt (key y) (key x) = true) as Hyx.
      { apply (proj1 (Forall_forall _ _) Hy). by eapply list_elem_of_lookup_2. }
      split; [lia|]. intros. exfalso. ts_order.
    + rewrite <- IH by done. lia.
Qed.

Lemma upper_bound_not_begin t l :
  set_wf l → upper_bound t l ≠ 0%nat ↔ ∃ x, x ∈ l ∧ ts_lt t (key x) = false.
Proof.
  intros Hl. split.
  - destruct l as [|y l]; simpl; [done|]. destruct (ts_lt t (key y)) eqn:?; [done|].
    intros _. exists y. split; [apply list_elem_of_here|done].
  - intros (x & Hx & Hlt). apply list_elem_of_lookup in Hx as [i Hi].
    apply (upper_bound_spec _ _ _ _ Hl Hi) in Hlt. lia.
Qed.

Lemma upper_bound_not_end t l :
  set_wf l → upper_bound t l ≠ length l ↔ ∃ x, x ∈ l ∧ ts_lt t (key x) = true.
Proof.
  intros Hl. split.
  - intros Hne. pose proof (upper_bound_le_length t l).
    destruct (lookup_lt_is_Some_2 l (upper_bound t l)) as [x Hx]; [lia|].
    exists x. split; [by eapply list_elem_of_lookup_2|].
    apply not_false_iff_true. rewrite <- (upper_bound_spec t l _ _ Hl Hx). lia.
  - intros (x & Hx & Hlt) Heq. apply list_elem_of_lookup in Hx as [i Hi].
    assert (i < upper_bound t l)%nat as Hlt'
      by (rewrite Heq; by eapply lookup_lt_Some).
    apply (upper_bound_spec _ _ _ _ Hl Hi) in Hlt'. congruence.
Qed.

(** [*upper_bound(t)] is the least element greater than [t]. *)
Lemma upper_bound_least t l x y :
  set_wf l → l !! upper_bound t l = Some x → y ∈ l → ts_lt t (key y) = true →
  ts_le (key x) (key y) = true.
Proof.
  intros Hl Hx Hy Hlt. apply list_elem_of_lookup in Hy as [j Hj].
  destruct (decide (upper_bound t l < j)%nat).
  - assert (ts_lt (key x) (key y) = true) by (by eapply set_wf_lookup_lt).
    ts_order.
  - destruct (decide (j = upper_bound t l)) as [->|]; [simplify_eq; ts_order|].
    assert (j < upper_bound t l)%nat as Hj' by lia.
    apply (upper_bound_spec _ _ _ _ Hl Hj) in Hj'. congruence.
Qed.

Lemma upper_bound_lookup t l x :
  set_wf l → l !! upper_bound t l = Some x → ts_lt t (key x) = true.
Proof.
  intros Hl Hx. apply not_false_iff_true.
  rewrite <- (upper_bound_spec t l _ _ Hl Hx). lia.
Qed.

(** [*rbegin()] is the greatest element. *)
Lemma set_last_greatest l x y :
  set_wf l → last l = Some x → y ∈ l → ts_le (key y) (key x) = true.
Proof.
  intros Hl Hx Hy. rewrite last_lookup in Hx.
  apply list_elem_of_lookup in Hy as [j Hj].
  pose proof (lookup_lt_Some _ _ _ Hj).
  destruct (decide (j = Nat.pred (length l))) as [->|]; [simplify_eq; ts_order|].
  assert (ts_lt (key y) (key x) = true) by (eapply set_wf_lookup_lt; eauto; lia).
  ts_order.
Qed.

End ts_set.

#[export] Hint Resolve set_wf_nil set_insert_wf set_insert_mono : tapir.
