(* ===== verification/Transaction.v ===== *)
(** * Transactions (store/common/transaction.{h,cc})

    The read set maps a key to the timestamp of the version read, the write
    set maps a key to the value written.  Both are [std::unordered_map]s, so
    serialization visits them in an [IterOrder]. *)

From S2P Require Import Prelude Timestamp.

(** Reply types. *)
Notation REPLY_OK := (0)%Z (only parsing).
Notation REPLY_FAIL := (1)%Z (only parsing).
Notation REPLY_RETRY := (2)%Z (only parsing).
Notation REPLY_ABSTAIN := (3)%Z (only parsing).
Definition REPLY_TIMEOUT : Z := 4.
Definition REPLY_NETWORK_FAILURE : Z := 5.

Record Transaction := mkTxn {
  readSet : gmap string Timestamp;
  writeSet : gmap string string
}.

(** [Transaction()] *)
Notation empty_txn := (mkTxn ∅ ∅) (only parsing).

Definition addReadSet (key : string) (readTime : Timestamp) (t : Transaction) :
    Transaction :=
  mkTxn (<[key := readTime]> (readSet t)) (writeSet t).

Definition addWriteSet (key value : string) (t : Transaction) : Transaction :=
  mkTxn (readSet t) (<[key := value]> (writeSet t)).

(** The messages of common-proto.proto. *)
Record ReadMessage := mkRead { rm_key : string; rm_readtime : TimestampMessage }.
Record WriteMessage := mkWrite { wm_key : string; wm_value : string }.
Record TransactionMessage := mkTxnMsg {
  tm_readset : list ReadMessage;
  tm_writeset : list WriteMessage
}.

#[global] Instance ReadMessage_eq_dec : EqDecision ReadMessage.
Proof. solve_decision. Defined.
#[global] Instance ReadMessage_countable : Countable ReadMessage :=
  inj_countable' (λ m, (rm_key m, rm_readtime m)) (λ p, mkRead p.1 p.2)
    (λ m, match m with mkRead _ _ => eq_refl end).
#[global] Instance WriteMessage_eq_dec : EqDecision WriteMessage.
Proof. solve_decision. Defined.
#[global] Instance WriteMessage_countable : Countable WriteMessage :=
  inj_countable' (λ m, (wm_key m, wm_value m)) (λ p, mkWrite p.1 p.2)
    (λ m, match m with mkWrite _ _ => eq_refl end).
#[global] Instance TransactionMessage_eq_dec : EqDecision TransactionMessage.
Proof. solve_decision. Defined.
#[global] Instance TransactionMessage_countable : Countable TransactionMessage :=
  inj_countable' (λ m, (tm_readset m, tm_writeset m)) (λ p, mkTxnMsg p.1 p.2)
    (λ m, match m with mkTxnMsg _ _ => eq_refl end).

(** [Transaction(const TransactionMessage &)] *)
Definition txn_of_msg (msg : TransactionMessage) : Transaction :=
  mkTxn
    (foldl (λ m r, <[rm_key r := ts_of_msg (rm_readtime r)]> m) ∅ (tm_readset msg))
    (foldl (λ m w, <[wm_key w := wm_value w]> m) ∅ (tm_writeset msg)).

(** [serialize] *)
Definition txn_serialize `{IterOrder} (t : Transaction) : TransactionMessage :=
  {| tm_readset :=
       (λ p, {| rm_key := p.1; rm_readtime := ts_serialize p.2 |}) <$> umap_iter (readSet t);
     tm_writeset :=
       (λ p, {| wm_key := p.1; wm_value := p.2 |}) <$> umap_iter (writeSet t) |}.

(** ** Lemmas *)

Lemma foldl_fmap {A B C} (f : C → B → C) (g : A → B) (l : list A) (c : C) :
  foldl f c (g <$> l) = foldl (λ c x, f c (g x)) c l.
Proof. revert c. induction l; simpl; auto. Qed.

Lemma ts_of_msg_serialize t : ts_of_msg (ts_serialize t) = t.
Proof. by destruct t. Qed.

(** Inserting the entries of a map one by one rebuilds it, in any order. *)
Lemma foldl_insert_entries {K V} `{Countable K} (l : list (K * V)) (m : gmap K V) :
  NoDup l.*1 → foldl (λ m p, <[p.1 := p.2]> m) m l = list_to_map l ∪ m.
Proof.
  revert m. induction l as [|[k v] l IH]; intros m; simpl.
  - by rewrite map_empty_union.
  - intros [Hk Hl]%NoDup_cons. rewrite IH by done.
    rewrite <- insert_union_r by (by apply not_elem_of_list_to_map).
    by rewrite insert_union_l.
Qed.

Lemma rebuild_umap `{IterOrder} {K V} `{Countable K} (m : gmap K V) :
  foldl (λ m p, <[p.1 := p.2]> m) ∅ (umap_iter m) = m.
Proof.
  rewrite foldl_insert_entries by apply umap_iter_NoDup.
  rewrite map_union_empty. symmetry. apply list_to_map_flip. by rewrite umap_iter_perm.
Qed.

(** A transaction survives the wire: parsing its serialized form gives
    the same read and write sets, whatever the iteration order of the sender's
    hash tables. *)
Theorem txn_roundtrip `{IterOrder} (t : Transaction) :
  txn_of_msg (txn_serialize t) = t.
Proof.
  destruct t as [r w]. unfold txn_of_msg, txn_serialize; simpl. f_equal.
  - rewrite foldl_fmap; simpl. rewrite <- (rebuild_umap r) at 2.
    generalize (∅ : gmap string Timestamp), (umap_iter r). intros m l.
    revert m. induction l; simpl; [done|]. intros m. rewrite ts_of_msg_serialize. auto.
  - rewrite foldl_fmap. apply rebuild_umap.
Qed.
