(* ===== verification/VersionStore.v ===== *)
(** * Versioned key-value store (store/common/backend/versionstore.{h,cc})

    [store] maps a key to the ordered set of its versions; [lastReads] maps a
    key and a version to the timestamp of the latest transaction that read it.
    A C++ method that returns [bool] and fills an out-parameter returns an
    [option], or the pair of both where a caller may see the parameter
    unchanged. *)

From S2P Require Import Prelude Timestamp TsSet.

Record VersionedValue := { write : Timestamp; value : string }.

#[global] Instance VersionedValue_eq_dec : EqDecision VersionedValue.
Proof. solve_decision. Defined.

Record VersionedKVStore := {
  store : gmap string (list VersionedValue);
  lastReads : gmap string (gmap Timestamp Timestamp)
}.

Notation empty_store := ({| store := ∅; lastReads := ∅ |}) (only parsing).

(** [store[key]], an empty set when the key is new. *)
Definition versions (s : VersionedKVStore) (key : string) : list VersionedValue :=
  default [] (store s !! key).

Definition inStore (s : VersionedKVStore) (key : string) : bool :=
  match store s !! key with
  | Some l => (0 <? length l)%nat
  | None => false
  end.

(** The iterator [getValue] leaves in [it]; [length] is [end()]. *)
Definition getValue (s : VersionedKVStore) (key : string) (t : Timestamp) : nat :=
  let l := versions s key in
  let it := upper_bound write t l in
  if (it =? 0)%nat then length l else (it - 1)%nat.

(** [get(key, value)] *)
Definition get (s : VersionedKVStore) (key : string) : option (Timestamp * string) :=
  if inStore s key then
    match last (versions s key) with
    | Some v => Some (write v, value v)
    | None => None
    end
  else None.

(** [get(key, t, value)] *)
Definition get_at (s : VersionedKVStore) (key : string) (t : Timestamp) :
    option (Timestamp * string) :=
  if inStore s key then
    match versions s key !! getValue s key t with
    | Some v => Some (write v, value v)
    | None => None
    end
  else None.

(** [getRange(key, t, range)]: the flag returned and the range left. *)
Definition getRange (s : VersionedKVStore) (key : string) (t : Timestamp)
    (range : Timestamp * Timestamp) : bool * (Timestamp * Timestamp) :=
  if inStore s key then
    let it := getValue s key t in
    match versions s key !! it with
    | Some v =>
        match versions s key !! S it with
        | Some v' => (true, (write v, write v'))
        | None => (true, (write v, range.2))
        end
    | None => (false, range)
    end
  else (false, range).

Definition put (s : VersionedKVStore) (key val : string) (t : Timestamp) :
    VersionedKVStore :=
  {| store := <[key := set_insert write {| write := t; value := val |}
                         (versions s key)]> (store s);
     lastReads := lastReads s |}.

Definition commitGet (s : VersionedKVStore) (key : string)
    (readTime commit : Timestamp) : VersionedKVStore :=
  if inStore s key then
    match versions s key !! getValue s key readTime with
    | Some v =>
        match lastReads s !! key with
        | Some reads =>
            match reads !! write v with
            | Some r =>
                if ts_lt r commit then
                  {| store := store s;
                     lastReads := <[key := <[write v := commit]> reads]> (lastReads s) |}
                else s
            | None => s
            end
        | None => s
        end
    | None => s
    end
  else s.

(** [lastReads[key].find(w)] *)
Definition lookupRead (s : VersionedKVStore) (key : string) (w : Timestamp) :
    option Timestamp :=
  lastReads s !! key ≫= λ reads, reads !! w.

(** [getLastRead(key, lastRead)] *)
Definition getLastRead (s : VersionedKVStore) (key : string) : option Timestamp :=
  if inStore s key then
    last (versions s key) ≫= λ v, lookupRead s key (write v)
  else None.

(** [getLastRead(key, t, lastRead)]; the iterator is asserted valid. *)
Definition getLastRead_at (s : VersionedKVStore) (key : string) (t : Timestamp) :
    outcome (option Timestamp) :=
  if inStore s key then
    match versions s key !! getValue s key t with
    | Some v => Ret (lookupRead s key (write v))
    | None => Panic
    end
  else Ret None.

(** ** Specification

    [has_version s k w v]: key [k] has the version written at [w] with value
    [v].  The store is correct when every set is ordered ([vs_wf]), which all
    operations preserve. *)
Definition has_version (s : VersionedKVStore) (k : string) (w : Timestamp)
    (v : string) : Prop :=
  {| write := w; value := v |} ∈ versions s k.

Definition vs_wf (s : VersionedKVStore) : Prop :=
  ∀ k, set_wf write (versions s k).

(** The mutators a store can undergo. *)
Inductive vs_step : VersionedKVStore → VersionedKVStore → Prop :=
| vs_step_put s k v t : vs_step s (put s k v t)
| vs_step_commitGet s k r c : vs_step s (commitGet s k r c).

Definition vs_reachable (s : VersionedKVStore) : Prop := rtc vs_step empty_store s.

(** ** Well-formedness *)

Lemma versions_put s k k' v t :
  versions (put s k v t) k' =
  if decide (k = k') then set_insert write {| write := t; value := v |} (versions s k)
  else versions s k'.
Proof. unfold versions at 1, put; simpl. rewrite lookup_insert. by case_decide. Qed.

Lemma store_commitGet s k r c : store (commitGet s k r c) = store s.
Proof. unfold commitGet. cases_goal. Qed.

Lemma versions_commitGet s k r c k' : versions (commitGet s k r c) k' = versions s k'.
Proof. unfold versions. by rewrite store_commitGet. Qed.

Lemma vs_wf_empty : vs_wf empty_store.
Proof. intros k. unfold versions; simpl. rewrite lookup_empty. constructor. Qed.

Lemma vs_wf_put s k v t : vs_wf s → vs_wf (put s k v t).
Proof. intros Hs k'. rewrite versions_put. case_decide; auto using set_insert_wf. Qed.

Lemma vs_wf_commitGet s k r c : vs_wf s → vs_wf (commitGet s k r c).
Proof. intros Hs k'. rewrite versions_commitGet. apply Hs. Qed.

#[export] Hint Resolve vs_wf_empty vs_wf_put vs_wf_commitGet : tapir.

Lemma vs_reachable_wf s : vs_reachable s → vs_wf s.
Proof.
  unfold vs_reachable. revert s. apply rtc_ind_r; [eauto with tapir|].
  intros s s' _ [] ?; eauto with tapir.
Qed.

Lemma inStore_spec s k : inStore s k = true ↔ versions s k ≠ [].
Proof.
  unfold inStore, versions. destruct (store s !! k) as [[|x l]|]; simpl; naive_solver.
Qed.

(** ** Lookup *)

Lemma versions_nil_no_version s k w v : versions s k = [] → ¬ has_version s k w v.
Proof. unfold has_version. intros ->. apply not_elem_of_nil. Qed.

Lemma has_version_inj s k w v v' :
  vs_wf s → has_version s k w v → has_version s k w v' → v = v'.
Proof.
  intros Hs H1 H2. pose proof (set_wf_key_inj write _ _ _ (Hs k) H1 H2 eq_refl). congruence.
Qed.

(** What the iterator of [getValue] points to. *)
Lemma getValue_lookup s k t :
  match versions s k !! getValue s k t with
  | Some v => ∃ i, getValue s k t = i ∧ upper_bound write t (versions s k) = S i
  | None => upper_bound write t (versions s k) = 0%nat
  end.
Proof.
  unfold getValue. pose proof (upper_bound_le_length write t (versions s k)) as Hle.
  destruct (Nat.eqb_spec (upper_bound write t (versions s k)) 0) as [E|E].
  - rewrite (lookup_ge_None_2 (versions s k)) by done. exact E.
  - destruct (lookup_lt_is_Some_2 (versions s k)
                (upper_bound write t (versions s k) - 1)) as [v ->]; [lia|].
    eexists. split; [done|lia].
Qed.

Lemma elem_of_versions s k v : v ∈ versions s k ↔ has_version s k (write v) (value v).
Proof. unfold has_version. by destruct v. Qed.

(** The version [getValue] finds is the greatest one not after [t]. *)
Lemma getValue_Some s k t v :
  vs_wf s → versions s k !! getValue s k t = Some v →
  has_version s k (write v) (value v) ∧ ts_le (write v) t = true ∧
  ∀ w u, has_version s k w u → ts_le w t = true → ts_le w (write v) = true.
Proof.
  intros Hs Hv. pose proof (getValue_lookup s k t) as H. rewrite Hv in H.
  destruct H as (i & Hi & Hub). rewrite Hi in Hv.
  split; [|split].
  - apply (proj1 (elem_of_versions _ _ _)). eapply list_elem_of_lookup_2, Hv.
  - assert (i < upper_bound write t (versions s k))%nat as Hlt by lia.
    apply (upper_bound_spec write _ _ _ _ (Hs k) Hv) in Hlt. by rewrite ts_le_negb_lt, Hlt.
  - intros w u Hw Hle. apply list_elem_of_lookup in Hw as [j Hj].
    assert (j < upper_bound write t (versions s k))%nat.
    { apply (upper_bound_spec write _ _ _ _ (Hs k) Hj). simpl. ts_order. }
    destruct (decide (j = i)) as [->|]; [simplify_eq; simpl; ts_order|].
    assert (ts_lt w (write v) = true).
    { by eapply (set_wf_lookup_lt write _ j i _ _ (Hs k) Hj Hv); lia. }
    ts_order.
Qed.

Lemma getValue_None s k t :
  vs_wf s → versions s k !! getValue s k t = None →
  ∀ w u, has_version s k w u → ts_lt t w = true.
Proof.
  intros Hs Hn w u Hw. pose proof (getValue_lookup s k t) as H. rewrite Hn in H.
  apply not_false_iff_true. intros Hf.
  apply (proj2 (upper_bound_not_begin write t _ (Hs k))); [|done]. by eexists.
Qed.

Lemma get_at_unfold s k t :
  get_at s k t =
  (λ v, (write v, value v)) <$> versions s k !! getValue s k t.
Proof.
  unfold get_at. destruct (inStore s k) eqn:Hin; [by destruct (_ !! _)|].
  destruct (decide (versions s k = [])) as [->|Hne]; [done|].
  apply inStore_spec in Hne. congruence.
Qed.

Lemma get_unfold s k : get s k = (λ v, (write v, value v)) <$> last (versions s k).
Proof.
  unfold get. destruct (inStore s k) eqn:Hin; [by destruct (last _)|].
  destruct (decide (versions s k = [])) as [->|Hne]; [done|].
  apply inStore_spec in Hne. congruence.
Qed.

(** [get] returns the latest version of the key. *)
Lemma get_latest s k w v :
  vs_wf s → get s k = Some (w, v) →
  has_version s k w v ∧ ∀ w' v', has_version s k w' v' → ts_le w' w = true.
Proof.
  intros Hs. rewrite get_unfold. intros (u & Hu & ?)%fmap_Some. simplify_eq.
  split.
  - apply (proj1 (elem_of_versions _ _ _)). rewrite last_lookup in Hu. eapply list_elem_of_lookup_2, Hu.
  - intros w' v' Hw. by apply (set_last_greatest write _ _ _ (Hs k) Hu Hw).
Qed.

Lemma get_intro s k w v :
  vs_wf s → has_version s k w v →
  (∀ w' v', has_version s k w' v' → ts_le w' w = true) → get s k = Some (w, v).
Proof.
  intros Hs Hv Hmax. destruct (get s k) as [[w0 v0]|] eqn:Hg.
  - apply get_latest in Hg as [H0 Hmax0]; [|done].
    assert (w0 = w) as -> by (specialize (Hmax _ _ H0); specialize (Hmax0 _ _ Hv); ts_order).
    by rewrite (has_version_inj s k w v0 v Hs H0 Hv).
  - rewrite get_unfold, fmap_None, last_None in Hg.
    by destruct (versions_nil_no_version s k w v Hg).
Qed.

Lemma get_None s k : get s k = None ↔ versions s k = [].
Proof. rewrite get_unfold, fmap_None. apply last_None. Qed.

(** The range and the version a read at [t] sees. *)
Lemma getRange_cases s k t r1 r2 :
  vs_wf s →
  match getRange s k t (r1, r2) with
  | (true, (w1, w2)) =>
      (∃ v, get_at s k t = Some (w1, v)) ∧
      ((∃ v, has_version s k w2 v ∧ ts_lt t w2 = true ∧
         ∀ w' v', has_version s k w' v' → ts_lt t w' = true → ts_le w2 w' = true) ∨
       (w2 = r2 ∧ ∀ w' v', has_version s k w' v' → ts_le w' t = true))
  | (false, r) => r = (r1, r2) ∧ get_at s k t = None
  end.
Proof.
  intros Hs. unfold getRange. rewrite get_at_unfold.
  pose proof (getValue_lookup s k t) as Hit.
  destruct (inStore s k) eqn:Hin; cycle 1.
  { destruct (decide (versions s k = [])) as [->|Hne]; [done|].
    apply inStore_spec in Hne. congruence. }
  destruct (versions s k !! getValue s k t) as [v|] eqn:Hv; [|done].
  destruct Hit as (i & Hi & Hub). rewrite Hi, <- Hub.
  destruct (versions s k !! upper_bound write t (versions s k)) as [v'|] eqn:Hv'; simpl.
  - split; [by exists (value v)|]. left. exists (value v'). split_and!.
    + apply (proj1 (elem_of_versions _ _ _)). eapply list_elem_of_lookup_2, Hv'.
    + by eapply (upper_bound_lookup write), Hv'.
    + intros w' u' Hw' Hlt. by apply (upper_bound_least write t _ v' _ (Hs k) Hv' Hw').
  - split; [by exists (value v)|]. right. split; [done|]. intros w' u' Hw'.
    rewrite ts_le_negb_lt, negb_true_iff. apply not_true_iff_false. intros Hlt.
    apply (proj2 (upper_bound_not_end write t _ (Hs k))); [by eexists|].
    apply lookup_ge_None in Hv'. pose proof (upper_bound_le_length write t (versions s k)). lia.
Qed.

(** Reading at the timestamp of a version the store has. *)
Lemma get_at_version s k w v :
  vs_wf s → has_version s k w v → get_at s k w = Some (w, v).
Proof.
  intros Hs Hv. rewrite get_at_unfold.
  destruct (versions s k !! getValue s k w) as [x|] eqn:Hx; simpl.
  - apply getValue_Some in Hx as (H1 & H2 & H3); [|done].
    assert (write x = w) as Hxw by (specialize (H3 w v Hv); ts_order).
    rewrite Hxw in *. by rewrite (has_version_inj s k w _ v Hs H1 Hv).
  - exfalso. assert (ts_lt w w = true); [|ts_order].
    by apply (getValue_None s k w Hs Hx w v).
Qed.

Lemma getRange_of_version s k w v r1 r2 :
  vs_wf s → has_version s k w v →
  ∃ w2, getRange s k w (r1, r2) = (true, (w, w2)) ∧
    ((∃ v2, has_version s k w2 v2 ∧ ts_lt w w2 = true) ∨
     (w2 = r2 ∧ ∀ w' v', has_version s k w' v' → ts_le w' w = true)).
Proof.
  intros Hs Hv. pose proof (getRange_cases s k w r1 r2 Hs) as H.
  rewrite (get_at_version s k w v Hs Hv) in H.
  destruct (getRange s k w (r1, r2)) as [[] [w1 w2]]; [|by destruct H].
  destruct H as [(? & ?) H]; simplify_eq. exists w2. split; [done|].
  destruct H as [(v2 & ? & ? & _)|?]; [left; by exists v2|by right].
Qed.

(** ** [put] *)

Lemma has_version_put s k v t k' w u :
  vs_wf s →
  has_version (put s k v t) k' w u ↔
  has_version s k' w u ∨
  (k' = k ∧ w = t ∧ u = v ∧ ∀ v', ¬ has_version s k t v').
Proof.
  intros Hs. unfold has_version at 1. rewrite versions_put.
  case_decide as Hk; [subst k' | naive_solver].
  destruct (decide (Exists (λ x, write x = t) (versions s k))) as [Hex|Hex].
  - apply Exists_exists in Hex as (x & Hx & Heq).
    rewrite (set_insert_dup write _ x) by auto.
    split; [by left|]. intros [?|(_ & _ & _ & Hno)]; [done|].
    exfalso. apply (Hno (value x)). rewrite <- Heq. by apply (elem_of_versions s k x).
  - assert (∀ z, z ∈ versions s k → write z ≠ t) as Hfresh.
    { intros z Hz Heq. apply Hex, Exists_exists. by exists z. }
    rewrite elem_of_set_insert by (simpl; auto). split.
    + intros [?|?]; [simplify_eq; right|by left].
      split_and!; [done..|]. intros v' Hv'. by apply (Hfresh _ Hv').
    + intros [?|(_ & -> & -> & _)]; auto.
Qed.

Lemma put_version_mono s k v t k' w u :
  has_version s k' w u → has_version (put s k v t) k' w u.
Proof.
  unfold has_version. rewrite versions_put. case_decide; subst; auto using set_insert_mono.
Qed.

Lemma has_version_commitGet s k r c k' w u :
  has_version (commitGet s k r c) k' w u ↔ has_version s k' w u.
Proof. unfold has_version. by rewrite versions_commitGet. Qed.

(** Puts of several keys at one timestamp. *)
Lemma foldl_put_wf l x ts :
  vs_wf x → vs_wf (foldl (λ x (w : string * string), put x w.1 w.2 ts) x l).
Proof. revert x. induction l; simpl; auto with tapir. Qed.

Lemma foldl_put_versions l x ts k w u :
  vs_wf x → NoDup l.*1 →
  has_version (foldl (λ x (w : string * string), put x w.1 w.2 ts) x l) k w u ↔
  has_version x k w u ∨ (w = ts ∧ (k, u) ∈ l ∧ ∀ v, ¬ has_version x k ts v).
Proof.
  revert x. induction l as [|[k0 v0] l IH]; intros x Hx Hnd; simpl.
  { setoid_rewrite elem_of_nil. tauto. }
  apply NoDup_cons in Hnd as [Hk0 Hnd]. rewrite IH by auto with tapir.
  rewrite elem_of_cons. setoid_rewrite has_version_put; [|done..].
  assert (∀ u, (k0, u) ∉ l) as Hnin.
  { intros u' Hu. apply Hk0, list_elem_of_fmap. by exists (k0, u'). }
  split.
  - intros [[?|(-> & -> & -> & ?)]|(-> & Hin & Hno)]; [by left|right; auto|].
    right. split_and!; [done|by right|]. intros v Hv. apply (Hno v). by left.
  - intros [?|(-> & [[= -> ->]|Hin] & Hno)]; [by left; left|left; right; auto|].
    right. split_and!; [done..|]. intros v [?|(-> & _)]; [by eapply Hno|by eapply Hnin].
Qed.

(** ** [lastReads] *)

Lemma lastReads_commitGet s k r c :
  lastReads s = ∅ → commitGet s k r c = s.
Proof.
  intros Hs. unfold commitGet. rewrite Hs, lookup_empty. cases_goal.
Qed.

Lemma lastReads_reachable s : vs_reachable s → lastReads s = ∅.
Proof.
  unfold vs_reachable. revert s. apply rtc_ind_r; [done|].
  intros s s' _ [] Hs; [done|]. by rewrite lastReads_commitGet.
Qed.

(** ** Properties *)

(** A timestamped read returns the greatest version not after the
    timestamp, and fails only when every version is after it. *)
Theorem get_at_greatest_version s k t :
  vs_wf s →
  match get_at s k t with
  | Some (w, v) =>
      has_version s k w v ∧ ts_le w t = true ∧
      ∀ w' v', has_version s k w' v' → ts_le w' t = true → ts_le w' w = true
  | None => ∀ w v, has_version s k w v → ts_lt t w = true
  end.
Proof.
  intros Hs. rewrite get_at_unfold.
  destruct (versions s k !! getValue s k t) as [v|] eqn:Hv; simpl.
  - by apply getValue_Some.
  - by apply getValue_None.
Qed.

(** [getRange] returns the validity interval of the version a read at [t]
    sees: its first bound is that version, and its second bound is the next
    version, the least one after [t]; when no version is after [t] the second
    bound is left as the caller passed it. *)
Theorem getRange_validity s k t r1 r2 :
  vs_wf s →
  match getRange s k t (r1, r2) with
  | (true, (w1, w2)) =>
      (∃ v, get_at s k t = Some (w1, v)) ∧
      ((∃ v, has_version s k w2 v ∧ ts_lt t w2 = true ∧
         ∀ w' v', has_version s k w' v' → ts_lt t w' = true → ts_le w2 w' = true) ∨
       (w2 = r2 ∧ ∀ w' v', has_version s k w' v' → ts_le w' t = true))
  | (false, r) => r = (r1, r2) ∧ get_at s k t = None
  end.
Proof. apply getRange_cases. Qed.

(** A read right after a write at a fresh timestamp returns it; a write at
    a timestamp that already has a version changes nothing: the first write
    wins.  Versions of other timestamps and keys are never affected. *)
Theorem put_then_get s k v t :
  vs_wf s →
  ((∀ v', ¬ has_version s k t v') → get_at (put s k v t) k t = Some (t, v)) ∧
  (∀ v', has_version s k t v' →
     get_at (put s k v t) k t = Some (t, v') ∧
     ∀ k' w u, has_version (put s k v t) k' w u ↔ has_version s k' w u) ∧
  (∀ k' w u, (k', w) ≠ (k, t) →
     has_version (put s k v t) k' w u ↔ has_version s k' w u).
Proof.
  intros Hs.
  assert (∀ u, has_version (put s k v t) k t u → get_at (put s k v t) k t = Some (t, u))
    as Hget.
  { intros u. apply get_at_version. auto with tapir. }
  split_and!.
  - intros Hno. apply Hget, has_version_put; auto 10.
  - intros v' Hv'. split.
    + apply Hget, has_version_put; auto.
    + intros k' w u. rewrite has_version_put by done. naive_solver.
  - intros k' w u Hne. rewrite has_version_put by done. naive_solver.
Qed.

(** The table of latest reads is never filled: [commitGet] only updates an
    entry that is already present, so in every state the store can reach both
    forms of [getLastRead] report that no transaction has read the key. *)
Theorem lastReads_never_recorded s k :
  vs_reachable s →
  lastReads s = ∅ ∧ getLastRead s k = None ∧
  ∀ t, getLastRead_at s k t = Ret None ∨ getLastRead_at s k t = Panic.
Proof.
  intros Hs. pose proof (lastReads_reachable s Hs) as Hl.
  split; [done|]. unfold getLastRead, getLastRead_at, lookupRead. rewrite Hl, lookup_empty.
  split; [by case_match; [destruct (last _)|]|]. intros t. cases_goal; auto.
Qed.

(** ** Witnesses *)

Definition demo_store : VersionedKVStore :=
  put (put empty_store "x" "a" ts0) "x" "b" (mkTS 5 1).

Lemma demo_store_wf : vs_wf demo_store.
Proof. unfold demo_store. auto with tapir. Qed.

Lemma demo_store_reachable : vs_reachable demo_store.
Proof. unfold demo_store. repeat (eapply rtc_r; [|constructor]). apply rtc_refl. Qed.

Lemma get_at_greatest_version_witness :
  has_version demo_store "x" ts0 "a" ∧ ts_le ts0 (mkTS 3 1) = true ∧
  ∀ w' v', has_version demo_store "x" w' v' → ts_le w' (mkTS 3 1) = true →
           ts_le w' ts0 = true.
Proof. apply (get_at_greatest_version demo_store "x" (mkTS 3 1)). apply demo_store_wf. Defined.

Lemma getRange_validity_witness :
  getRange demo_store "x" (mkTS 3 1) (ts0, ts0) = (true, (ts0, mkTS 5 1)) ∧
  ∃ v, get_at demo_store "x" (mkTS 3 1) = Some (ts0, v).
Proof.
  split; [vm_compute; reflexivity|].
  apply (getRange_validity demo_store "x" (mkTS 3 1) ts0 ts0). apply demo_store_wf.
Defined.

Lemma put_then_get_witness :
  get_at (put demo_store "x" "c" ts0) "x" ts0 = Some (ts0, "a").
Proof.
  apply (put_then_get demo_store "x" "c" ts0 demo_store_wf).
  apply list_elem_of_here.
Defined.

Lemma lastReads_never_recorded_witness :
  getLastRead (commitGet demo_store "x" (mkTS 5 1) (mkTS 9 2)) "x" = None.
Proof.
  apply (lastReads_never_recorded (commitGet demo_store "x" (mkTS 5 1) (mkTS 9 2)) "x").
  eapply rtc_r; [apply demo_store_reachable | constructor].
Defined.
