(* ===== verification/TapirStore.v ===== *)
(** * The TAPIR transactional store (store/tapirstore/store.{h,cc})

    A replica validates transactions optimistically: [Prepare] checks a
    transaction's read and write sets against the committed versions and the
    other prepared transactions and votes; [Commit] installs the writes of a
    prepared transaction; [Abort] forgets it.  Loops over hash tables take an
    [IterOrder]; a failed [ASSERT] is [Panic]. *)

From S2P Require Import Prelude Timestamp TsSet Transaction VersionStore.

Record Store := mkStore {
  linearizable : bool;
  kv : VersionedKVStore;
  prepared : gmap Z (Timestamp * Transaction)
}.

Definition with_kv (s : Store) (x : VersionedKVStore) : Store :=
  mkStore (linearizable s) x (prepared s).
Definition with_prepared (s : Store) (p : gmap Z (Timestamp * Transaction)) : Store :=
  mkStore (linearizable s) (kv s) p.

(** [Store(bool linearizable)] *)
Notation new_store lin := (mkStore lin empty_store ∅) (only parsing).

(** The comparator of [std::set<Timestamp>]. *)
Definition ts_key (t : Timestamp) : Timestamp := t.

(** [m[key].insert(t)] *)
Definition add_ts (key : string) (t : Timestamp) (m : gmap string (list Timestamp)) :
    gmap string (list Timestamp) :=
  <[key := set_insert ts_key t (default [] (m !! key))]> m.

Section with_order.
Context `{IO : IterOrder}.

Definition GetPreparedWrites (s : Store) : gmap string (list Timestamp) :=
  foldl (λ writes t,
    foldl (λ writes w, add_ts w.1 t.2.1 writes) writes (umap_iter (writeSet t.2.2)))
    ∅ (umap_iter (prepared s)).

Definition GetPreparedReads (s : Store) : gmap string (list Timestamp) :=
  foldl (λ reads t,
    foldl (λ reads r, add_ts r.1 t.2.1 reads) reads (umap_iter (readSet t.2.2)))
    ∅ (umap_iter (prepared s)).

(** [Get(id, key, value)] *)
Definition Get (s : Store) (id : Z) (key : string) : Z * option (Timestamp * string) :=
  match get (kv s) key with
  | Some v => (REPLY_OK, Some v)
  | None => (REPLY_FAIL, None)
  end.

(** [Get(id, key, timestamp, value)] *)
Definition Get_at (s : Store) (id : Z) (key : string) (t : Timestamp) :
    Z * option (Timestamp * string) :=
  match get_at (kv s) key t with
  | Some v => (REPLY_OK, Some v)
  | None => (REPLY_FAIL, None)
  end.

(** A vote: the reply code and the value left in [proposedTimestamp]. *)
Notation vote := (Z * Timestamp)%type.

(** Body of the loop over the read set: [None] goes on to the next read,
    [Some] returns from [Prepare]. *)
Definition check_read (s : Store) (pWrites : gmap string (list Timestamp))
    (ts proposed : Timestamp) (read : string * Timestamp) : option (outcome vote) :=
  let '(ret, range) := getRange (kv s) read.1 read.2 (ts0, ts0) in
  if negb ret then None
  else if ts_ne range.1 read.2 then None
  else if negb (isValid range.2) then
    match pWrites !! read.1 with
    | Some ws =>
        if linearizable s || negb (upper_bound ts_key ts ws =? 0)%nat
        then Some (Ret (REPLY_ABSTAIN, proposed))
        else None
    | None => None
    end
  else if linearizable s || ts_gt ts range.2 then
    Some (ASSERT! ts_gt ts range.1; Ret (REPLY_FAIL, proposed))
  else
    match pWrites !! read.1 with
    | Some ws =>
        for_first (λ writeTime,
          if ts_gt writeTime range.1 && ts_lt writeTime ts
          then Some (Ret (REPLY_ABSTAIN, proposed))
          else None) ws
    | None => None
    end.

(** The part of the write loop that looks at the committed versions. *)
Definition check_write_committed (s : Store) (ts : Timestamp) (key : string) :
    option (outcome vote) :=
  match get (kv s) key with
  | Some val =>
      if linearizable s && ts_gt val.1 ts then Some (Ret (REPLY_RETRY, val.1))
      else
        match (if linearizable s then Ret (getLastRead (kv s) key)
               else getLastRead_at (kv s) key ts) with
        | Ret (Some lastRead) =>
            if ts_gt lastRead ts then Some (Ret (REPLY_RETRY, lastRead)) else None
        | Ret None => None
        | Panic => Some Panic
        end
  | None => None
  end.

(** Body of the loop over the write set. *)
Definition check_write (s : Store) (pWrites pReads : gmap string (list Timestamp))
    (ts proposed : Timestamp) (w : string * string) : option (outcome vote) :=
  match check_write_committed s ts w.1 with
  | Some r => Some r
  | None =>
      match (if linearizable s then pWrites !! w.1 else None)
              ≫= λ ws, ws !! upper_bound ts_key ts ws with
      | Some t => Some (Ret (REPLY_RETRY, t))
      | None =>
          match pReads !! w.1 with
          | Some rs =>
              if negb (upper_bound ts_key ts rs =? length rs)%nat
              then Some (Ret (REPLY_ABSTAIN, proposed))
              else None
          | None => None
          end
      end
  end.

(** The OCC checks and, if none objects, the insertion into [prepared]. *)
Definition run_checks (s : Store) (id : Z) (txn : Transaction)
    (ts proposed : Timestamp) : outcome (vote * Store) :=
  let pWrites := GetPreparedWrites s in
  let pReads := GetPreparedReads s in
  match for_first (check_read s pWrites ts proposed) (umap_iter (readSet txn)) with
  | Some r => v ← r; Ret (v, s)
  | None =>
      match for_first (check_write s pWrites pReads ts proposed)
              (umap_iter (writeSet txn)) with
      | Some r => v ← r; Ret (v, s)
      | None =>
          Ret ((REPLY_OK, proposed),
               with_prepared s (<[id := (ts, txn)]> (prepared s)))
      end
  end.

Definition Prepare (s : Store) (id : Z) (txn : Transaction)
    (ts proposed : Timestamp) : outcome (vote * Store) :=
  match prepared s !! id with
  | Some p =>
      if ts_eq p.1 ts then Ret ((REPLY_OK, proposed), s)
      else run_checks (with_prepared s (delete id (prepared s))) id txn ts proposed
  | None => run_checks s id txn ts proposed
  end.

(** [Commit(const Timestamp &, const Transaction &)] *)
Definition Commit_txn (x : VersionedKVStore) (ts : Timestamp) (txn : Transaction) :
    VersionedKVStore :=
  foldl (λ x w, put x w.1 w.2 ts)
    (foldl (λ x r, commitGet x r.1 r.2 ts) x (umap_iter (readSet txn)))
    (umap_iter (writeSet txn)).

(** [Commit(uint64_t id, uint64_t timestamp)]: [prepared[id]] is a default
    pair when the id is not prepared. *)
Definition Commit (s : Store) (id : Z) : Store :=
  let p := default (ts0, empty_txn) (prepared s !! id) in
  mkStore (linearizable s) (Commit_txn (kv s) p.1 p.2) (delete id (prepared s)).

Definition Abort (s : Store) (id : Z) : Store :=
  match prepared s !! id with
  | Some _ => with_prepared s (delete id (prepared s))
  | None => s
  end.

Definition Load (s : Store) (key value : string) (ts : Timestamp) : Store :=
  with_kv s (put (kv s) key value ts).

End with_order.

(** ** The prepared reads and writes *)

Section gather.
Context `{IO : IterOrder}.

Definition pset (m : gmap string (list Timestamp)) (k : string) : list Timestamp :=
  default [] (m !! k).

Lemma pset_add k t m k' :
  pset (add_ts k t m) k' =
  if decide (k = k') then set_insert ts_key t (pset m k) else pset m k'.
Proof. unfold pset, add_ts. rewrite lookup_insert. by case_decide. Qed.

Lemma elem_of_pset_add k t m k' t' :
  (∀ k, set_wf ts_key (pset m k)) →
  t' ∈ pset (add_ts k t m) k' ↔ t' ∈ pset m k' ∨ (k' = k ∧ t' = t).
Proof.
  intros Hwf. rewrite pset_add. case_decide as Hk; [subst k'|naive_solver].
  split.
  - intros [->|?]%elem_of_set_insert_weak; auto.
  - intros [?|[_ ->]]; [by apply set_insert_mono|].
    destruct (set_insert_has_key ts_key t (pset m k)) as (z & Hz & Hkz).
    unfold ts_key in Hkz. by subst.
Qed.

Lemma pset_add_wf k t m :
  (∀ k, set_wf ts_key (pset m k)) → ∀ k', set_wf ts_key (pset (add_ts k t m) k').
Proof. intros Hwf k'. rewrite pset_add. case_decide; auto using set_insert_wf. Qed.

(** A [gather] table: the sets are ordered, no set is empty, and [R] says what
    they contain. *)
Definition gathered (m : gmap string (list Timestamp))
    (R : string → Timestamp → Prop) : Prop :=
  (∀ k, set_wf ts_key (pset m k)) ∧ (∀ k, m !! k ≠ Some []) ∧
  (∀ k t, t ∈ pset m k ↔ R k t).

Lemma gathered_add k t m R :
  gathered m R → gathered (add_ts k t m) (λ k' t', R k' t' ∨ (k' = k ∧ t' = t)).
Proof.
  intros (Hwf & Hne & HR). split_and!.
  - by apply pset_add_wf.
  - intros k'. unfold add_ts. rewrite lookup_insert. case_decide; [|done].
    intros [=Hnil]. destruct (set_insert_has_key ts_key t (default [] (m !! k))) as (z & Hz & _).
    rewrite Hnil in Hz. by apply elem_of_nil in Hz.
  - intros k' t'. by rewrite elem_of_pset_add, HR.
Qed.

Lemma gathered_proper m R R' :
  (∀ k t, R k t ↔ R' k t) → gathered m R → gathered m R'.
Proof. intros HRR (? & ? & HR). split_and!; auto. intros k t. by rewrite HR. Qed.

Lemma gathered_add_all {V} (t : Timestamp) (l : list (string * V)) m R :
  gathered m R →
  gathered (foldl (λ m w, add_ts w.1 t m) m l) (λ k' t', R k' t' ∨ (k' ∈ l.*1 ∧ t' = t)).
Proof.
  revert m R. induction l as [|[k v] l IH]; intros m R Hm; simpl.
  - eapply gathered_proper; [|exact Hm]. intros k t'. rewrite elem_of_nil. tauto.
  - eapply gathered_proper; [|apply IH, gathered_add, Hm].
    intros k' t'. rewrite elem_of_cons. simpl. tauto.
Qed.

Lemma gathered_txns {V} (sel : Transaction → gmap string V)
    (l : list (Z * (Timestamp * Transaction))) m R :
  gathered m R →
  gathered (foldl (λ m t, foldl (λ m w, add_ts w.1 t.2.1 m) m (umap_iter (sel t.2.2))) m l)
    (λ k t, R k t ∨ ∃ id txn, (id, (t, txn)) ∈ l ∧ is_Some (sel txn !! k)).
Proof.
  revert m R. induction l as [|[id [t0 x]] l IH]; intros m R Hm; simpl.
  - eapply gathered_proper; [|exact Hm]. intros k t. setoid_rewrite elem_of_nil. naive_solver.
  - eapply gathered_proper; [|apply IH, gathered_add_all, Hm]. intros k t. simpl.
    rewrite elem_of_umap_keys. setoid_rewrite elem_of_cons. split.
    + intros [[?|[? ->]]|(i & y & ? & ?)]; [by left| |].
      * right. exists id, x. auto.
      * right. exists i, y. auto.
    + intros [?|(i & y & [[=-> -> ->]|?] & ?)]; [by left; left|by left; right|].
      right. exists i, y. auto.
Qed.

Lemma gathered_empty : gathered ∅ (λ _ _, False).
Proof.
  split_and!; intros k; unfold pset; rewrite lookup_empty; simpl; [constructor|done|].
  intros t. by rewrite elem_of_nil.
Qed.

Lemma GetPreparedWrites_spec s :
  gathered (GetPreparedWrites s)
    (λ k t, ∃ id txn, prepared s !! id = Some (t, txn) ∧ is_Some (writeSet txn !! k)).
Proof.
  eapply gathered_proper; [|apply (gathered_txns writeSet), gathered_empty].
  intros k t. setoid_rewrite elem_of_umap_iter. naive_solver.
Qed.

Lemma GetPreparedReads_spec s :
  gathered (GetPreparedReads s)
    (λ k t, ∃ id txn, prepared s !! id = Some (t, txn) ∧ is_Some (readSet txn !! k)).
Proof.
  eapply gathered_proper; [|apply (gathered_txns readSet), gathered_empty].
  intros k t. setoid_rewrite elem_of_umap_iter. naive_solver.
Qed.

End gather.

(** ** What a passed check means

    Versions are either loaded at the null timestamp or written by a client,
    whose timestamps are valid. *)
Definition versions_valid (x : VersionedKVStore) : Prop :=
  ∀ k w v, has_version x k w v → w = ts0 ∨ isValid w = true.

Section checks.
Context `{IO : IterOrder}.

(** In linearizable mode a read of a version the replica has passes only if
    that version is the latest and no prepared transaction writes the key. *)
Lemma check_read_pass s pW ts prop k w v :
  linearizable s = true → vs_wf (kv s) → versions_valid (kv s) →
  check_read s pW ts prop (k, w) = None → has_version (kv s) k w v →
  (∀ w' v', has_version (kv s) k w' v' → ts_le w' w = true) ∧ pW !! k = None.
Proof.
  intros Hlin Hwf Hval Hc Hv.
  destruct (getRange_of_version (kv s) k w v ts0 ts0 Hwf Hv) as (w2 & Hr & Hcase).
  unfold check_read in Hc. simpl in Hc. rewrite Hr, Hlin in Hc. simpl in Hc.
  assert (ts_ne w w = false) as Hne by ts_order. rewrite Hne in Hc.
  destruct Hcase as [(v2 & Hv2 & Hlt)|[-> Hmax]].
  - assert (isValid w2 = true) as Hw2.
    { destruct (Hval _ _ _ Hv) as [->|?], (Hval _ _ _ Hv2) as [->|?]; try done;
        exfalso; ts_order. }
    by rewrite Hw2 in Hc.
  - simpl in Hc. split; [done|]. by destruct (pW !! k).
Qed.

(** In linearizable mode a write passes only at a timestamp not before the
    committed versions and the prepared writes and reads of the key. *)
Lemma check_write_pass s pW pR ts prop k v :
  linearizable s = true → vs_wf (kv s) →
  (∀ k, set_wf ts_key (pset pW k)) → (∀ k, set_wf ts_key (pset pR k)) →
  check_write s pW pR ts prop (k, v) = None →
  (∀ w u, has_version (kv s) k w u → ts_le w ts = true) ∧
  (∀ t, t ∈ pset pW k → ts_le t ts = true) ∧
  (∀ t, t ∈ pset pR k → ts_le t ts = true).
Proof.
  intros Hlin Hwf HW HR Hc. unfold check_write, check_write_committed in Hc.
  simpl in Hc. rewrite Hlin in Hc.
  assert (∀ l, set_wf ts_key l → upper_bound ts_key ts l = length l →
               ∀ t, t ∈ l → ts_le t ts = true) as Hend.
  { intros l Hl Hub t Ht. rewrite ts_le_negb_lt, negb_true_iff. apply not_true_iff_false.
    intros Hlt. apply (proj2 (upper_bound_not_end ts_key ts l Hl)); [by exists t|done]. }
  split_and!.
  - intros w u Hw. destruct (get (kv s) k) as [[w0 u0]|] eqn:Hg; simpl in Hc.
    + apply get_latest in Hg as [_ Hmax]; [|done]. specialize (Hmax w u Hw).
      destruct (ts_gt w0 ts) eqn:Hgt; [done|]. clear Hc. ts_order.
    + apply get_None in Hg. by destruct (versions_nil_no_version _ _ w u Hg).
  - intros t Ht. specialize (HW k). unfold pset in *.
    case_match; [done|]. destruct (pW !! k) as [ws|]; simpl in *; [|by apply elem_of_nil in Ht].
    destruct (ws !! upper_bound ts_key ts ws) eqn:Hub; [done|].
    apply Hend with ws; [done| |done]. apply lookup_ge_None in Hub.
    pose proof (upper_bound_le_length ts_key ts ws). lia.
  - intros t Ht. specialize (HR k). unfold pset in *.
    case_match; [done|]. case_match; [done|].
    destruct (pR !! k) as [rs|]; simpl in *; [|by apply elem_of_nil in Ht].
    destruct (Nat.eqb_spec (upper_bound ts_key ts rs) (length rs)); [|done].
    by apply Hend with rs.
Qed.

(** The votes the loops can return with. *)
Lemma check_read_vote s pW ts prop r o :
  check_read s pW ts prop r = Some o →
  o = Panic ∨ o = Ret (REPLY_ABSTAIN, prop) ∨ o = Ret (REPLY_FAIL, prop).
Proof.
  unfold check_read. destruct (getRange _ _ _ _) as [[] range]; simpl; [|done].
  destruct (ts_ne _ _); [done|]. destruct (isValid _); simpl.
  - destruct (_ || _); [intros [= <-]; destruct (ts_gt _ _); auto|].
    destruct (pW !! _); [|done]. intros (x & _ & Hx)%for_first_Some.
    case_match; simplify_eq; auto.
  - destruct (pW !! _); [|done]. case_match; intros ?; simplify_eq; auto.
Qed.

Lemma check_write_vote s pW pR ts prop w o :
  check_write s pW pR ts prop w = Some o →
  o = Panic ∨ o = Ret (REPLY_ABSTAIN, prop) ∨ ∃ t, o = Ret (REPLY_RETRY, t).
Proof.
  unfold check_write, check_write_committed.
  repeat case_match; intros; simplify_eq; eauto.
Qed.

(** The shape of an accepting run of the checks. *)
Lemma run_checks_OK s id txn ts prop prop' s' :
  run_checks s id txn ts prop = Ret ((REPLY_OK, prop'), s') →
  s' = with_prepared s (<[id := (ts, txn)]> (prepared s)) ∧
  (∀ k w, readSet txn !! k = Some w →
     check_read s (GetPreparedWrites s) ts prop (k, w) = None) ∧
  (∀ k v, writeSet txn !! k = Some v →
     check_write s (GetPreparedWrites s) (GetPreparedReads s) ts prop (k, v) = None).
Proof.
  unfold run_checks. intros H.
  destruct (for_first (check_read _ _ _ _) _) as [o|] eqn:Hrd.
  { apply for_first_Some in Hrd as (x & _ & [->|[->| ->]]%check_read_vote); simplify_eq/=. }
  destruct (for_first (check_write _ _ _ _ _) _) as [o|] eqn:Hwr.
  { apply for_first_Some in Hwr as (x & _ & [->|[->|[? ->]]]%check_write_vote); simplify_eq/=. }
  simplify_eq. split; [done|].
  rewrite for_first_None in Hrd. rewrite for_first_None in Hwr.
  split; intros k v Hk.
  - by apply Hrd, elem_of_umap_iter.
  - by apply Hwr, elem_of_umap_iter.
Qed.

(** The store the checks of [Prepare] run on: [id] is not prepared in it. *)
Definition unprepared (s : Store) (id : Z) : Store :=
  with_prepared s (delete id (prepared s)).

(** The shape of an accepting [Prepare]: the transaction was prepared before
    at this timestamp, or all checks passed and it is prepared now. *)
Lemma Prepare_OK_inv s id txn ts prop prop' s' :
  Prepare s id txn ts prop = Ret ((REPLY_OK, prop'), s') →
  (∃ x, prepared s !! id = Some (ts, x) ∧ s' = s) ∨
  ((∀ x, prepared s !! id ≠ Some (ts, x)) ∧
   s' = with_prepared s (<[id := (ts, txn)]> (prepared s)) ∧
   (∀ k w, readSet txn !! k = Some w →
      check_read (unprepared s id) (GetPreparedWrites (unprepared s id)) ts prop (k, w) = None) ∧
   (∀ k v, writeSet txn !! k = Some v →
      check_write (unprepared s id) (GetPreparedWrites (unprepared s id))
        (GetPreparedReads (unprepared s id)) ts prop (k, v) = None)).
Proof.
  unfold Prepare. destruct (prepared s !! id) as [[t x]|] eqn:Hid; simpl.
  - destruct (ts_eq t ts) eqn:Ht.
    + intros [= <- <-]. left. exists x. apply ts_eq_spec in Ht. by subst.
    + intros (-> & ? & ?)%run_checks_OK. right. split_and!; [|by simpl; rewrite insert_delete_eq|done..].
      intros y [= ->]. ts_order.
  - intros (-> & ? & ?)%run_checks_OK. right.
    assert (unprepared s id = s) as ->.
    { unfold unprepared, with_prepared. rewrite delete_id by done. by destruct s. }
    by split_and!.
Qed.

(** A [Prepare] that does not accept only forgets an older preparation. *)
Lemma Prepare_reject_inv s id txn ts prop r prop' s' :
  Prepare s id txn ts prop = Ret ((r, prop'), s') → r ≠ REPLY_OK →
  s' = unprepared s id.
Proof.
  assert (∀ s, run_checks s id txn ts prop = Ret ((r, prop'), s') → r ≠ REPLY_OK → s' = s)
    as Hrun.
  { clear s. intros s. unfold run_checks. intros H Hr.
    repeat case_match; simplify_eq; try done; by destruct (_ : outcome _); simplify_eq/=. }
  unfold Prepare. destruct (prepared s !! id) as [[t x]|] eqn:Hid; simpl.
  - case_match; [by intros [= <- <- <-]|]. intros ? ?. by apply Hrun.
  - intros H Hr. rewrite (Hrun _ H Hr). unfold unprepared, with_prepared.
    rewrite delete_id by done. by destruct s.
Qed.

End checks.

(** ** Installing writes *)

Section commit.
Context `{IO : IterOrder}.

Lemma foldl_commitGet_versions l x ts k :
  versions (foldl (λ x (r : string * Timestamp), commitGet x r.1 r.2 ts) x l) k = versions x k.
Proof. revert x. induction l; intros; simpl; [done|]. by rewrite IHl, versions_commitGet. Qed.

Lemma Commit_txn_wf x ts txn : vs_wf x → vs_wf (Commit_txn x ts txn).
Proof.
  intros Hx. apply foldl_put_wf. intros k. rewrite foldl_commitGet_versions. apply Hx.
Qed.

Lemma Commit_txn_versions x ts txn k w u :
  vs_wf x →
  has_version (Commit_txn x ts txn) k w u ↔
  has_version x k w u ∨
  (w = ts ∧ writeSet txn !! k = Some u ∧ ∀ v, ¬ has_version x k ts v).
Proof.
  intros Hx. unfold Commit_txn. rewrite foldl_put_versions; cycle 1.
  - intros k'. rewrite foldl_commitGet_versions. apply Hx.
  - apply umap_iter_NoDup.
  - rewrite elem_of_umap_iter. unfold has_version.
    by setoid_rewrite foldl_commitGet_versions.
Qed.

End commit.

(** ** Votes *)

Section votes.
Context `{IO : IterOrder}.

Lemma check_write_committed_retry s ts k t :
  check_write_committed s ts k = Some (Ret (REPLY_RETRY, t)) → ts_gt t ts = true.
Proof.
  unfold check_write_committed. destruct (get (kv s) k) as [v|]; [|done].
  destruct (linearizable s); simpl.
  - destruct (ts_gt v.1 ts) eqn:Hv; [by intros [= <-]|].
    destruct (getLastRead (kv s) k); [|done]. by case_match; intros; simplify_eq.
  - destruct (getLastRead_at (kv s) k ts) as [[]|]; [|done..].
    by case_match; intros; simplify_eq.
Qed.

Lemma check_write_retry s pW pR ts prop w t :
  (∀ k, set_wf ts_key (pset pW k)) →
  check_write s pW pR ts prop w = Some (Ret (REPLY_RETRY, t)) → ts_lt ts t = true.
Proof.
  intros HW. specialize (HW w.1). unfold pset in HW. unfold check_write.
  destruct (check_write_committed s ts w.1) eqn:Hc.
  { intros [= ->]. apply check_write_committed_retry in Hc. ts_order. }
  destruct (linearizable s); simpl; [destruct (pW !! w.1) as [ws|]; simpl in *|].
  - destruct (ws !! _) eqn:Ht; [intros [= <-]; by apply (upper_bound_lookup ts_key ts ws)|].
    by repeat case_match.
  - by repeat case_match.
  - by repeat case_match.
Qed.

Lemma run_checks_retry s id txn ts prop t s' :
  run_checks s id txn ts prop = Ret ((REPLY_RETRY, t), s') → ts_lt ts t = true.
Proof.
  unfold run_checks. intros H.
  destruct (for_first (check_read _ _ _ _) _) as [o|] eqn:Hrd.
  { apply for_first_Some in Hrd as (x & _ & [->|[->| ->]]%check_read_vote); simplify_eq/=. }
  destruct (for_first (check_write _ _ _ _ _) _) as [o|] eqn:Hwr; [|simplify_eq/=].
  apply for_first_Some in Hwr as (x & _ & Hx).
  destruct o as [[r t']|]; simplify_eq/=. eapply check_write_retry, Hx.
  apply GetPreparedWrites_spec.
Qed.

(** In linearizable mode only the assertion of the read loop can fail, and
    it does not if the transaction runs after the versions it read. *)
Lemma run_checks_total s id txn ts prop :
  linearizable s = true →
  (∀ k w, readSet txn !! k = Some w → ts_lt w ts = true) →
  ∃ v s', run_checks s id txn ts prop = Ret (v, s').
Proof.
  intros Hlin Hrd. unfold run_checks.
  destruct (for_first (check_read _ _ _ _) _) as [o|] eqn:Hr.
  { apply for_first_Some in Hr as ([k w] & Hin & Hc). apply elem_of_umap_iter, Hrd in Hin.
    assert (o ≠ Panic); [|destruct o as [v|]; [by exists v, s|done]].
    intros ->. revert Hc. unfold check_read. rewrite Hlin. simpl.
    destruct (getRange _ _ _ _) as [b range].
    repeat case_match; intros; simplify_eq/=.
    match goal with H : ASSERT _ ≫= _ = Panic |- _ => revert H end.
    unfold ASSERT. case_match; [done|]. intros _. ts_order. }
  destruct (for_first (check_write _ _ _ _ _) _) as [o|] eqn:Hw; [|by do 2 eexists].
  apply for_first_Some in Hw as ([k w] & _ & Hc).
  assert (o ≠ Panic); [|destruct o as [v|]; [by exists v, s|done]].
  intros ->. revert Hc. unfold check_write, check_write_committed. rewrite Hlin.
  repeat case_match; intros; simplify_eq/=.
Qed.

(** C35. Votes of [Prepare].  A transaction that runs after every version it
    read gets an answer in linearizable mode; on any answer but OK the
    transaction is not prepared and nothing else changes; on OK it is prepared
    at the timestamp (or was before); a RETRY answer proposes a timestamp after
    the one that was refused. *)
Theorem Prepare_votes s id txn ts prop :
  linearizable s = true →
  (∀ k w, readSet txn !! k = Some w → ts_lt w ts = true) →
  ∃ r t s', Prepare s id txn ts prop = Ret ((r, t), s') ∧
    kv s' = kv s ∧
    (∀ id', id' ≠ id → prepared s' !! id' = prepared s !! id') ∧
    (r = REPLY_OK → ∃ x, prepared s' !! id = Some (ts, x) ∧
                     (x = txn ∨ prepared s !! id = Some (ts, x))) ∧
    (r ≠ REPLY_OK → prepared s' !! id = None) ∧
    (r = REPLY_RETRY → ts_lt ts t = true).
Proof.
  intros Hlin Hrd.
  assert (∃ v s', Prepare s id txn ts prop = Ret (v, s')) as ([r t] & s' & Hp).
  { unfold Prepare. repeat case_match; [by do 2 eexists|by apply run_checks_total..]. }
  exists r, t, s'. split; [done|]. destruct (decide (r = REPLY_OK)) as [->|Hr].
  - pose proof Hp as [(x & Hx & ->)|(_ & -> & _)]%Prepare_OK_inv; split_and!; try done; simpl.
    + exists x. auto.
    + intros id' Hid'. by rewrite lookup_insert_ne.
    + exists txn. rewrite lookup_insert_eq. auto.
  - rewrite (Prepare_reject_inv _ _ _ _ _ _ _ _ Hp Hr). simpl. split_and!; try done.
    + intros id' Hid'. by rewrite lookup_delete_ne.
    + intros _. apply lookup_delete_eq.
    + intros ->. revert Hp. unfold Prepare.
      repeat case_match; [done|apply run_checks_retry..].
Qed.

(** A replica crashes on a read from its future.  If a transaction read a
    version that is not before its own timestamp and a later version of the
    key has been committed since, the assertion in the read loop fails, for
    every iteration order and whatever else is prepared. *)
Theorem Prepare_panics s id k w w2 v v2 txn ts prop :
  linearizable s = true → vs_wf (kv s) → versions_valid (kv s) →
  prepared s !! id = None → readSet txn = {[k := w]} →
  has_version (kv s) k w v → has_version (kv s) k w2 v2 → ts_lt w w2 = true →
  ts_le ts w = true → Prepare s id txn ts prop = Panic.
Proof.
  intros Hlin Hwf Hval Hid Hrs Hv Hv2 Hlt Hts.
  unfold Prepare. rewrite Hid. unfold run_checks.
  assert (umap_iter (readSet txn) = [(k, w)]) as ->.
  { apply Permutation_singleton_r. rewrite umap_iter_perm, Hrs. by rewrite map_to_list_singleton. }
  simpl. destruct (getRange_of_version (kv s) k w v ts0 ts0 Hwf Hv) as (w3 & Hr & Hcase).
  unfold check_read. simpl. rewrite Hr, Hlin. simpl.
  assert (ts_ne w w = false) as -> by ts_order.
  destruct Hcase as [(v3 & Hv3 & Hlt3)|[-> Hmax]].
  - assert (isValid w3 = true) as ->
      by (destruct (Hval _ _ _ Hv) as [->|?], (Hval _ _ _ Hv3) as [->|?]; try done;
          exfalso; ts_order).
    simpl. assert (ts_gt ts w = false) as -> by ts_order. done.
  - specialize (Hmax _ _ Hv2). exfalso. ts_order.
Qed.

End votes.

Definition demo_replica : Store :=
  mkStore true (put (put empty_store "x" "a" (mkTS 10 1)) "x" "b" (mkTS 20 2)) ∅.

Lemma Prepare_votes_witness :
  ∃ r t s', @Prepare canonical_order demo_replica 7
    (addReadSet "x" (mkTS 10 1) empty_txn) (mkTS 30 3) ts0 = Ret ((r, t), s') ∧
    (r ≠ REPLY_OK → prepared s' !! 7 = None).
Proof.
  destruct (@Prepare_votes canonical_order demo_replica 7
    (addReadSet "x" (mkTS 10 1) empty_txn) (mkTS 30 3) ts0) as (r & t & s' & H & _ & _ & _ & Hn & _).
  - reflexivity.
  - intros k w. unfold addReadSet. simpl. rewrite lookup_insert_Some, lookup_empty.
    intros [[_ <-]|[_ ?]]; done.
  - by exists r, t, s'.
Defined.

Lemma Prepare_panics_witness :
  @Prepare canonical_order demo_replica 7
    (addReadSet "x" (mkTS 10 1) empty_txn) (mkTS 5 3) ts0 = Panic.
Proof.
  apply (@Prepare_panics canonical_order demo_replica 7 "x" (mkTS 10 1) (mkTS 20 2) "a" "b").
  - reflexivity.
  - unfold demo_replica. simpl. auto with tapir.
  - intros k w v. unfold demo_replica. simpl.
    rewrite has_version_put by auto with tapir. rewrite has_version_put by auto with tapir.
    intros [[[]%elem_of_nil|(_ & -> & _)]|(_ & -> & _)]; by right.
  - reflexivity.
  - reflexivity.
  - apply list_elem_of_here.
  - apply list_elem_of_further, list_elem_of_here.
  - reflexivity.
  - reflexivity.
Defined.
