(* ===== verification/Serial.v ===== *)
(** * Serial execution of transactions

    The specification the stores are compared with: transactions executed one
    after the other on a plain database from keys to the current version and
    value.  An [entry] is a transaction of a history together with the reads a
    store validated. *)

From S2P Require Import Prelude Timestamp TsSet Transaction VersionStore.

Inductive txn_status := Prepared | Committed | Aborted.

#[global] Instance txn_status_eq_dec : EqDecision txn_status.
Proof. solve_decision. Defined.

Record entry := mkEntry {
  e_id : Z;
  e_ts : Timestamp;
  e_txn : Transaction;
  (* the reads of versions the replica had when it accepted *)
  e_held : gmap string Timestamp;
  e_status : txn_status
}.

Definition held_reads (x : VersionedKVStore) (txn : Transaction) : gmap string Timestamp :=
  filter (λ p, Exists (λ v, write v = p.2) (versions x p.1)) (readSet txn).

Notation writes e k := (is_Some (writeSet (e_txn e) !! k)).

(** Serial execution on a plain database. *)
Definition database := string → option (Timestamp * string).

Definition serial_step (db : database) (e : entry) : database :=
  λ k, match writeSet (e_txn e) !! k with
       | Some v => Some (e_ts e, v)
       | None => db k
       end.

Definition serial (db : database) (es : list entry) : database := foldl serial_step db es.

(** Executed serially in this order, every transaction reads the versions the
    replica validated. *)
Definition reads_explained (db : database) (es : list entry) : Prop :=
  ∀ C1 e C2 k w, es = C1 ++ e :: C2 → e_held e !! k = Some w →
    fst <$> serial db C1 k = Some w.

Lemma serial_app db l1 l2 : serial db (l1 ++ l2) = serial (serial db l1) l2.
Proof. apply foldl_app. Qed.

Lemma serial_frame db es k :
  (∀ e, e ∈ es → ¬ writes e k) → serial db es k = db k.
Proof.
  revert db. induction es as [|e es IH]; intros db Hno; [done|].
  change (serial (serial_step db e) es k = db k). rewrite IH.
  - unfold serial_step. destruct (writeSet (e_txn e) !! k) eqn:He; [|done].
    destruct (Hno e (list_elem_of_here _ _)). by rewrite He.
  - intros e' He'. apply Hno. by apply elem_of_cons; right.
Qed.

Lemma serial_last_writer db l1 e l2 k v :
  writeSet (e_txn e) !! k = Some v → (∀ e', e' ∈ l2 → ¬ writes e' k) →
  serial db (l1 ++ e :: l2) k = Some (e_ts e, v).
Proof.
  intros Hv Hno. rewrite serial_app.
  change (serial (serial_step (serial db l1) e) l2 k = Some (e_ts e, v)).
  rewrite serial_frame by done. unfold serial_step. by rewrite Hv.
Qed.


Lemma reads_explained_snoc db es e :
  reads_explained db es →
  (∀ k w, e_held e !! k = Some w → fst <$> serial db es k = Some w) →
  reads_explained db (es ++ [e]).
Proof.
  intros Hes He C1 e' C2 k w Heq Hk.
  destruct C2 as [|x C2 _] using rev_ind.
  - apply app_inj_2 in Heq as [-> [= ->]]; [|done]. by apply He.
  - rewrite app_comm_cons, app_assoc in Heq. apply app_inj_2 in Heq as [-> _]; [|done].
    by eapply Hes.
Qed.

Lemma held_reads_lookup x txn k w :
  held_reads x txn !! k = Some w ↔
  readSet txn !! k = Some w ∧ ∃ v, has_version x k w v.
Proof.
  unfold held_reads. rewrite map_lookup_filter_Some, Exists_exists. simpl.
  split; (intros [H1 H2]; split; [done|]).
  - destruct H2 as ([w' v] & Hv & Hw). simpl in Hw. subst. by exists v.
  - destruct H2 as [v Hv]. by exists {| write := w; value := v |}.
Qed.
