(* ===== verification/TapirSerial.v ===== *)
(** * Serializability of the TAPIR store in linearizable mode

    A history variable records every transaction a replica accepted, in the
    order it accepted them, and how each ended.  The theorem: the committed
    transactions, executed one after the other in that order on a plain
    key-value database, read the versions the replica validated and leave the
    database the replica has. *)

From S2P Require Import Prelude Timestamp TsSet Transaction VersionStore TapirStore Serial.

Record history := mkHist { st : Store; log : list entry }.

(** The outcome of transaction [id] becomes known. *)
Definition resolve (id : Z) (to : txn_status) (e : entry) : entry :=
  if decide (e_id e = id ∧ e_status e = Prepared)
  then mkEntry (e_id e) (e_ts e) (e_txn e) (e_held e) to
  else e.

(** Operations of a replica.  Each may see its own iteration order.  Clients
    prepare at valid timestamps (the clock and a nonzero client id are
    positive), and a timestamp belongs to one attempt: no transaction in the
    history that is not aborted has the same one. *)
Inductive tstep : history → history → Prop :=
| step_again (IO : IterOrder) g id txn ts prop v s' x :
    prepared (st g) !! id = Some (ts, x) →
    Prepare (st g) id txn ts prop = Ret (v, s') →
    tstep g (mkHist s' (log g))
| step_accept (IO : IterOrder) g id txn ts prop prop' s' :
    (∀ x, prepared (st g) !! id ≠ Some (ts, x)) →
    isValid ts = true →
    (∀ e, e ∈ log g → e_ts e = ts → e_status e = Aborted) →
    Prepare (st g) id txn ts prop = Ret ((REPLY_OK, prop'), s') →
    tstep g (mkHist s' ((resolve id Aborted <$> log g) ++
      [mkEntry id ts txn (held_reads (kv (st g)) txn) Prepared]))
| step_reject (IO : IterOrder) g id txn ts prop r prop' s' :
    Prepare (st g) id txn ts prop = Ret ((r, prop'), s') → r ≠ REPLY_OK →
    tstep g (mkHist s' (resolve id Aborted <$> log g))
| step_commit (IO : IterOrder) g id :
    tstep g (mkHist (Commit (st g) id) (resolve id Committed <$> log g))
| step_abort g id :
    tstep g (mkHist (Abort (st g) id) (resolve id Aborted <$> log g)).

(** A store loaded with initial values, all at the null timestamp. *)
Definition loaded (x : VersionedKVStore) : Prop :=
  vs_wf x ∧ ∀ k w v, has_version x k w v → w = ts0.

Definition start_in (lin : bool) (x : VersionedKVStore) : history :=
  mkHist (mkStore lin x ∅) [].
Notation start := (start_in true).

Definition committed (g : history) : list entry :=
  filter (λ e, e_status e = Committed) (log g).

(** ** The invariant *)

Notation live e := (e_status e ≠ Aborted).

Record tinv (x0 : VersionedKVStore) (g : history) : Prop := {
  i_lin : linearizable (st g) = true;
  i_wf : vs_wf (kv (st g));
  i_prep id ts txn :
    prepared (st g) !! id = Some (ts, txn) ↔
    ∃ e, e ∈ log g ∧ e_status e = Prepared ∧ e_id e = id ∧ e_ts e = ts ∧ e_txn e = txn;
  i_vers k w u :
    has_version (kv (st g)) k w u ↔
    has_version x0 k w u ∨
    ∃ e, e ∈ log g ∧ e_status e = Committed ∧ e_ts e = w ∧ writeSet (e_txn e) !! k = Some u;
  i_ts e : e ∈ log g → isValid (e_ts e) = true;
  i_uniq a b : a ∈ log g → b ∈ log g → live a → live b → e_ts a = e_ts b → a = b;
  i_ww i j a b k :
    (i < j)%nat → log g !! i = Some a → log g !! j = Some b → live a → live b →
    writes a k → writes b k → ts_lt (e_ts a) (e_ts b) = true;
  i_rd j b k w :
    log g !! j = Some b → e_held b !! k = Some w →
    (∃ v, has_version x0 k w v) ∧
      (∀ i a, (i < j)%nat → log g !! i = Some a → live a → ¬ writes a k) ∨
    (∃ i a, (i < j)%nat ∧ log g !! i = Some a ∧ e_status a = Committed ∧
       e_ts a = w ∧ writes a k ∧
       ∀ i' a', (i < i' < j)%nat → log g !! i' = Some a' → live a' → ¬ writes a' k)
}.

(** ** Resolving transactions *)

Lemma resolve_cases id to e :
  resolve id to e = e ∧ ¬ (e_id e = id ∧ e_status e = Prepared) ∨
  e_id e = id ∧ e_status e = Prepared ∧ e_status (resolve id to e) = to.
Proof. unfold resolve. case_decide; naive_solver. Qed.

Lemma resolve_ts id to e : e_ts (resolve id to e) = e_ts e.
Proof. unfold resolve. by case_decide. Qed.
Lemma resolve_id id to e : e_id (resolve id to e) = e_id e.
Proof. unfold resolve. by case_decide. Qed.
Lemma resolve_txn id to e : e_txn (resolve id to e) = e_txn e.
Proof. unfold resolve. by case_decide. Qed.
Lemma resolve_held id to e : e_held (resolve id to e) = e_held e.
Proof. unfold resolve. by case_decide. Qed.

#[local] Hint Rewrite resolve_ts resolve_id resolve_txn resolve_held : resolve.

Lemma resolve_committed id to e :
  e_status e = Committed → resolve id to e = e.
Proof. intros Hc. unfold resolve. case_decide as H; [destruct H; congruence|done]. Qed.

Lemma resolve_live id to e : live (resolve id to e) → live e.
Proof. destruct (resolve_cases id to e) as [[-> _]|(_ & -> & _)]; done. Qed.

Lemma elem_of_resolve id to (l : list entry) e :
  e ∈ resolve id to <$> l ↔ ∃ e0, e0 ∈ l ∧ e = resolve id to e0.
Proof. rewrite list_elem_of_fmap. naive_solver. Qed.

Lemma lookup_resolve id to (l : list entry) i e :
  (resolve id to <$> l) !! i = Some e ↔ ∃ e0, l !! i = Some e0 ∧ e = resolve id to e0.
Proof. rewrite list_lookup_fmap_Some. naive_solver. Qed.

Lemma prepared_resolve id to (l : list entry) e :
  to ≠ Prepared →
  (e ∈ resolve id to <$> l ∧ e_status e = Prepared) ↔
  (e ∈ l ∧ e_status e = Prepared ∧ e_id e ≠ id).
Proof.
  intros Hto. rewrite elem_of_resolve. split.
  - intros [(e0 & He0 & ->) Hp].
    destruct (resolve_cases id to e0) as [[Heq Hn]|(? & ? & ?)]; [|congruence].
    rewrite Heq in *. naive_solver.
  - intros (He & Hp & Hid). split; [|done]. exists e. split; [done|].
    unfold resolve. rewrite decide_False; naive_solver.
Qed.

(** The parts of the invariant that speak of the log only survive a
    resolution: it only removes live transactions. *)
Lemma resolve_order x0 g id to s' :
  tinv x0 g → to ≠ Prepared →
  linearizable s' = true → vs_wf (kv s') →
  (∀ i ts txn, prepared s' !! i = Some (ts, txn) ↔
     i ≠ id ∧ prepared (st g) !! i = Some (ts, txn)) →
  (∀ k w u, has_version (kv s') k w u ↔
     has_version (kv (st g)) k w u ∨
     to = Committed ∧ ∃ txn, prepared (st g) !! id = Some (w, txn) ∧ writeSet txn !! k = Some u) →
  tinv x0 (mkHist s' (resolve id to <$> log g)).
Proof.
  intros Hg Hto Hlin Hwf Hprep Hvers. split; simpl; [done|done|..].
  - intros i ts txn. rewrite Hprep, (i_prep _ _ Hg). split.
    + intros (Hi & e & He & Hp & <- & <- & <-). exists e.
      destruct (proj2 (prepared_resolve id to (log g) e Hto)) as [? ?]; auto.
    + intros (e & He & Hp & <- & <- & <-).
      destruct (proj1 (prepared_resolve id to (log g) e Hto)) as (? & ? & ?); eauto 10.
  - intros k w u. rewrite Hvers, (i_vers _ _ Hg). split.
    + intros [[?|(e & He & Hc & <- & Hu)]|(-> & txn & Hp & Hu)]; [by left|right|right].
      * exists e. rewrite elem_of_resolve. split; [|done]. exists e.
        by rewrite resolve_committed.
      * apply (i_prep _ _ Hg) in Hp as (e & He & Hpr & <- & <- & <-).
        exists (resolve (e_id e) Committed e). rewrite elem_of_resolve.
        autorewrite with resolve. split_and!; [by exists e| |done..].
        unfold resolve. by rewrite decide_True.
    + intros [?|(e & (e0 & He0 & ->)%elem_of_resolve & Hc & <- & Hu)]; [by left; left|].
      autorewrite with resolve in *.
      destruct (resolve_cases id to e0) as [[Heq _]|(<- & Hp & Hst)].
      * rewrite Heq in *. left; right. by exists e0.
      * right. split; [congruence|]. exists (e_txn e0). split; [|done].
        apply (i_prep _ _ Hg). by exists e0.
  - intros e (e0 & He0 & ->)%elem_of_resolve. autorewrite with resolve.
    by apply (i_ts _ _ Hg).
  - intros a b (a0 & Ha & ->)%elem_of_resolve (b0 & Hb & ->)%elem_of_resolve La Lb.
    autorewrite with resolve. intros Hab. f_equal.
    apply (i_uniq _ _ Hg); eauto using resolve_live.
  - intros i j a b k Hij (a0 & Ha & ->)%lookup_resolve (b0 & Hb & ->)%lookup_resolve La Lb.
    autorewrite with resolve. apply (i_ww _ _ Hg i j); eauto using resolve_live.
  - intros j b k w (b0 & Hb & ->)%lookup_resolve. autorewrite with resolve. intros Hk.
    destruct (i_rd _ _ Hg j b0 k w Hb Hk) as [[? Hno]|(i & a & Hij & Ha & Hc & <- & Hwr & Hno)].
    + left. split; [done|]. intros i a Hi (a0 & Ha & ->)%lookup_resolve La.
      autorewrite with resolve. eauto using resolve_live.
    + right. exists i, a. rewrite lookup_resolve. split_and!; try done.
      { exists a. by rewrite resolve_committed. }
      intros i' a' Hi' (a0 & Ha0 & ->)%lookup_resolve La.
      autorewrite with resolve. eauto using resolve_live.
Qed.

(** ** Accepting a transaction *)

Lemma tinv_versions_valid x0 g : loaded x0 → tinv x0 g → versions_valid (kv (st g)).
Proof.
  intros [_ Hx0] Hg k w v [?|(e & He & _ & <- & _)]%(i_vers _ _ Hg).
  - left. by eapply Hx0.
  - right. by apply (i_ts _ _ Hg).
Qed.

(** Two live transactions of an extended log: both old, or the second new. *)
Lemma lookup_snoc_lt {A} (l : list A) (x a b : A) i j :
  (i < j)%nat → (l ++ [x]) !! i = Some a → (l ++ [x]) !! j = Some b →
  l !! i = Some a ∧ (l !! j = Some b ∨ j = length l ∧ b = x).
Proof.
  intros Hij Ha Hb. apply lookup_app_Some in Hb as [Hb|[Hge Hb]].
  - pose proof (lookup_lt_Some _ _ _ Hb). rewrite lookup_app_l in Ha by lia. auto.
  - apply list_lookup_singleton_Some in Hb as [Hj ->].
    rewrite lookup_app_l in Ha by lia. split; [done|]. right. split; [lia|done].
Qed.

Section accept.
Context `{IO : IterOrder} (x0 : VersionedKVStore) (g : history).
Context (id : Z) (ts prop : Timestamp) (txn : Transaction).
Hypothesis Hx0 : loaded x0.
Hypothesis Hg : tinv x0 g.
Hypothesis Hid : prepared (st g) !! id = None.
Hypothesis Hts : isValid ts = true.
Hypothesis Hfresh : ∀ e, e ∈ log g → live e → e_ts e ≠ ts.
Hypothesis Hrd : ∀ k w, readSet txn !! k = Some w →
  check_read (st g) (GetPreparedWrites (st g)) ts prop (k, w) = None.
Hypothesis Hwr : ∀ k v, writeSet txn !! k = Some v →
  check_write (st g) (GetPreparedWrites (st g)) (GetPreparedReads (st g)) ts prop (k, v) = None.

(** A write is accepted only after every live writer of the key. *)
Lemma accept_ww i a k :
  log g !! i = Some a → live a → writes a k → is_Some (writeSet txn !! k) →
  ts_lt (e_ts a) ts = true.
Proof.
  intros Ha La [va Hva] [v Hv]. pose proof (list_elem_of_lookup_2 _ _ _ Ha) as Hin.
  destruct (GetPreparedWrites_spec (st g)) as (HW & _ & HWs).
  destruct (GetPreparedReads_spec (st g)) as (HR & _ & _).
  destruct (check_write_pass _ _ _ _ _ _ _ (i_lin _ _ Hg) (i_wf _ _ Hg) HW HR (Hwr k v Hv))
    as (Hc & Hp & _).
  pose proof (Hfresh a Hin La) as Hne.
  assert (ts_le (e_ts a) ts = true) as Hle; [|ts_order].
  destruct (e_status a) eqn:Hst; [| |done].
  - apply Hp, HWs. exists (e_id a), (e_txn a). split; [|by exists va].
    apply (i_prep _ _ Hg). by exists a.
  - apply (Hc _ va). apply (i_vers _ _ Hg). right. by exists a.
Qed.

(** A read of a version the replica has is accepted only if no live
    transaction has overwritten it. *)
Lemma accept_rd k w :
  held_reads (kv (st g)) txn !! k = Some w →
  (∃ v, has_version x0 k w v) ∧
    (∀ i a, log g !! i = Some a → live a → ¬ writes a k) ∨
  (∃ i a, log g !! i = Some a ∧ e_status a = Committed ∧ e_ts a = w ∧ writes a k ∧
     ∀ i' a', (i < i')%nat → log g !! i' = Some a' → live a' → ¬ writes a' k).
Proof.
  intros [Hk Hex]%map_lookup_filter_Some. simpl in Hex.
  apply Exists_exists in Hex as (x & Hx & Hxw). simpl in Hxw.
  apply elem_of_versions in Hx. rewrite Hxw in Hx.
  destruct (check_read_pass _ _ _ _ _ _ _ (i_lin _ _ Hg) (i_wf _ _ Hg)
              (tinv_versions_valid _ _ Hx0 Hg) (Hrd k w Hk) Hx) as [Hmax Hnone].
  destruct (GetPreparedWrites_spec (st g)) as (_ & _ & HWs).
  (* live writers of [k] are committed, at timestamps not after [w] *)
  assert (∀ a, a ∈ log g → live a → writes a k →
            e_status a = Committed ∧ ts_le (e_ts a) w = true) as Hlw.
  { intros a Ha La [va Hva]. destruct (e_status a) eqn:Hst; [| |done].
    - exfalso. assert (e_ts a ∈ pset (GetPreparedWrites (st g)) k) as Hin.
      { apply HWs. exists (e_id a), (e_txn a). split; [|by exists va].
        apply (i_prep _ _ Hg). by exists a. }
      unfold pset in Hin. rewrite Hnone in Hin. by apply elem_of_nil in Hin.
    - split; [done|]. apply (Hmax _ va). apply (i_vers _ _ Hg). right. by exists a. }
  apply (i_vers _ _ Hg) in Hx as [Hv|(a & Ha & Hc & Haw & Hva)].
  - left. split; [by eexists|]. intros i a Hi%list_elem_of_lookup_2 La Hw.
    destruct (Hlw a Hi La Hw) as [_ Hle]. destruct Hx0 as [_ H0].
    rewrite (H0 _ _ _ Hv) in Hle. pose proof (i_ts _ _ Hg a Hi). ts_order.
  - right. apply list_elem_of_lookup in Ha as [i Hi]. exists i, a. split_and!; try done.
    intros i' a' Hii' Hi' La' Hw'.
    destruct (Hlw a' (list_elem_of_lookup_2 _ _ _ Hi') La' Hw') as [_ Hle].
    assert (ts_lt (e_ts a) (e_ts a') = true); [|ts_order].
    apply (i_ww _ _ Hg i i' a a' k); auto; congruence.
Qed.

Lemma accept_inv :
  tinv x0 (mkHist (with_prepared (st g) (<[id := (ts, txn)]> (prepared (st g))))
             (log g ++ [mkEntry id ts txn (held_reads (kv (st g)) txn) Prepared])).
Proof.
  split; simpl; [apply (i_lin _ _ Hg)|apply (i_wf _ _ Hg)|..].
  - intros i t x. setoid_rewrite elem_of_app. setoid_rewrite list_elem_of_singleton.
    rewrite lookup_insert_Some, (i_prep _ _ Hg). split.
    + intros [[<- [= <- <-]]|(Hi & e & He & ?)]; [eexists; by split; [right|]|].
      exists e. auto.
    + intros (e & [He|He] & Hp & <- & <- & <-); [right|left; by subst].
      split; [|by exists e]. intros Heq.
      assert (prepared (st g) !! id = Some (e_ts e, e_txn e)); [|congruence].
      apply (i_prep _ _ Hg). by exists e.
  - intros k w u. rewrite (i_vers _ _ Hg). setoid_rewrite elem_of_app.
    setoid_rewrite list_elem_of_singleton. split.
    + intros [?|(e & He & ?)]; [by left|right; exists e; auto].
    + intros [?|(e & [He|He] & Hc & ?)]; [by left|right; by exists e|by subst].
  - intros e [?|He%list_elem_of_singleton]%elem_of_app; [by apply (i_ts _ _ Hg)|by subst].
  - intros a b [Ha|Ha%list_elem_of_singleton]%elem_of_app [Hb|Hb%list_elem_of_singleton]%elem_of_app
      La Lb Hab; subst; [by apply (i_uniq _ _ Hg)| | |done].
    + by destruct (Hfresh a Ha La).
    + by destruct (Hfresh b Hb Lb).
  - intros i j a b k Hij Ha Hb La Lb Wa Wb.
    destruct (lookup_snoc_lt _ _ _ _ _ _ Hij Ha Hb) as [Ha' [Hb'|[_ ->]]].
    + by apply (i_ww _ _ Hg i j a b k).
    + by apply (accept_ww i a k).
  - intros j b k w Hb Hk.
    assert (∀ i a, (i < j)%nat → (log g ++ [mkEntry id ts txn (held_reads (kv (st g)) txn)
              Prepared]) !! i = Some a ↔ log g !! i = Some a) as Hold.
    { intros i a Hij. apply lookup_lt_Some in Hb. rewrite length_app in Hb. simpl in Hb.
      by rewrite lookup_app_l by lia. }
    assert ((∃ v, has_version x0 k w v) ∧
        (∀ i a, (i < j)%nat → log g !! i = Some a → live a → ¬ writes a k) ∨
      (∃ i a, (i < j)%nat ∧ log g !! i = Some a ∧ e_status a = Committed ∧
         e_ts a = w ∧ writes a k ∧
         ∀ i' a', (i < i' < j)%nat → log g !! i' = Some a' → live a' → ¬ writes a' k)) as Hc.
    { apply lookup_app_Some in Hb as [Hb|[Hge Hb]]; [by apply (i_rd _ _ Hg j b)|].
      apply list_lookup_singleton_Some in Hb as [Hj <-].
      destruct (accept_rd k w Hk) as [[? Hno]|(i & a & Ha & ? & ? & ? & Hno)];
        [left; eauto|right].
      exists i, a. split_and!; try done; [apply lookup_lt_Some in Ha; lia|].
      intros i' a' [? ?]. by apply Hno. }
    destruct Hc as [[? Hno]|(i & a & Hij & Ha & ? & ? & ? & Hno)].
    + left. split; [done|]. intros i a Hij. rewrite Hold by done. by apply Hno.
    + right. exists i, a. rewrite Hold by done. split_and!; try done.
      intros i' a' Hi'. rewrite Hold by lia. by apply Hno.
Qed.

End accept.

(** ** Every step preserves the invariant *)

Lemma start_inv x0 : loaded x0 → tinv x0 (start x0).
Proof.
  intros [Hwf _]. split; simpl; try done; try (by intros; simplify_map_eq).
  - intros. rewrite lookup_empty. setoid_rewrite elem_of_nil. naive_solver.
  - intros. setoid_rewrite elem_of_nil. naive_solver.
  - by intros e ?%elem_of_nil.
  - by intros a b ?%elem_of_nil.
Qed.

Lemma unprepared_inv x0 g id :
  tinv x0 g → tinv x0 (mkHist (unprepared (st g) id) (resolve id Aborted <$> log g)).
Proof.
  intros Hg. apply resolve_order; simpl; try done.
  - apply (i_lin _ _ Hg).
  - apply (i_wf _ _ Hg).
  - intros i ts txn. rewrite lookup_delete_Some. naive_solver.
  - naive_solver.
Qed.

Lemma commit_inv `{IO : IterOrder} x0 g id :
  loaded x0 → tinv x0 g →
  tinv x0 (mkHist (Commit (st g) id) (resolve id Committed <$> log g)).
Proof.
  intros Hx0 Hg. apply resolve_order; simpl; try done.
  - apply (i_lin _ _ Hg).
  - apply Commit_txn_wf, (i_wf _ _ Hg).
  - intros i ts txn. rewrite lookup_delete_Some. naive_solver.
  - intros k w u. rewrite Commit_txn_versions by apply (i_wf _ _ Hg).
    destruct (prepared (st g) !! id) as [[t x]|] eqn:Hid; simpl; [|naive_solver].
    split; [naive_solver|]. intros [?|(_ & y & [= <- <-] & Hu)]; [by left|].
    right. split_and!; [done..|].
    (* no version of [k] has the timestamp of a prepared transaction *)
    apply (i_prep _ _ Hg) in Hid as (e & He & Hp & <- & <- & <-).
    intros v [Hv|(e' & He' & Hc & Hts & _)]%(i_vers _ _ Hg).
    + destruct Hx0 as [_ H0]. pose proof (i_ts _ _ Hg e He) as Hval.
      by rewrite (H0 _ _ _ Hv) in Hval.
    + assert (e' = e) by (apply (i_uniq _ _ Hg); auto; congruence). congruence.
Qed.

Lemma tstep_inv x0 g g' : loaded x0 → tinv x0 g → tstep g g' → tinv x0 g'.
Proof.
  intros Hx0 Hg Hstep. destruct Hstep as
    [IO g id txn ts prop v s' x Hid Hp | IO g id txn ts prop prop' s' Hid Hts Hfresh Hp
    | IO g id txn ts prop r prop' s' Hp Hr | IO g id | g id].
  - unfold Prepare in Hp. rewrite Hid in Hp. simpl in Hp.
    assert (ts_eq ts ts = true) as Heq by ts_order. rewrite Heq in Hp. simplify_eq.
    by destruct g.
  - apply Prepare_OK_inv in Hp as [(x & Hx & _)|(_ & -> & Hrd & Hwr)]; [by destruct (Hid x)|].
    replace (with_prepared (st g) (<[id := (ts, txn)]> (prepared (st g))))
      with (with_prepared (unprepared (st g) id) (<[id := (ts, txn)]> (delete id (prepared (st g)))))
      by (unfold with_prepared; simpl; by rewrite insert_delete_eq).
    pose (g0 := mkHist (unprepared (st g) id) (resolve id Aborted <$> log g)).
    apply (accept_inv x0 g0 id ts prop txn); try done; simpl.
    + by apply unprepared_inv.
    + apply lookup_delete_eq.
    + intros e (e0 & He0 & ->)%elem_of_resolve Hl%resolve_live. rewrite resolve_ts.
      intros Heq. by apply Hl, Hfresh.
  - rewrite (Prepare_reject_inv _ _ _ _ _ _ _ _ Hp Hr). by apply unprepared_inv.
  - by apply commit_inv.
  - replace (Abort (st g) id) with (unprepared (st g) id); [by apply unprepared_inv|].
    unfold Abort, unprepared. destruct (prepared (st g) !! id) eqn:Hid; [done|].
    unfold with_prepared. rewrite delete_id by done. by destruct (st g).
Qed.

Lemma reachable_inv x0 g : loaded x0 → rtc tstep (start x0) g → tinv x0 g.
Proof.
  intros Hx0. revert g. apply rtc_ind_r; [by apply start_inv|].
  intros g g' _ Hstep Hg. by eapply tstep_inv.
Qed.

(** ** Serial execution *)

(** The reads of the transaction at position [j] see the serial state. *)
Lemma serial_reads x0 g j e k w :
  loaded x0 → tinv x0 g → log g !! j = Some e → e_held e !! k = Some w →
  fst <$> serial (get x0) (filter (λ e, e_status e = Committed) (take j (log g))) k = Some w.
Proof.
  intros [Hwf0 H0] Hg Hj Hk.
  destruct (i_rd _ _ Hg j e k w Hj Hk) as [[[v Hv] Hno]|(i & a & Hij & Ha & Hc & <- & [v Hv] & Hno)].
  - rewrite serial_frame.
    + rewrite (get_intro x0 k w v Hwf0 Hv); [done|]. intros w' v' Hv'.
      rewrite (H0 _ _ _ Hv), (H0 _ _ _ Hv'). ts_order.
    + intros a [Hc (i & Hij & Ha)%elem_of_take_lookup]%list_elem_of_filter.
      apply (Hno i a); congruence.
  - rewrite (take_split _ i j a Hij Ha), filter_app, filter_cons, decide_True by done.
    rewrite (serial_last_writer _ _ _ _ _ v Hv); [done|].
    intros a' [Hc' (i' & Hi' & Ha')%elem_of_take_drop_lookup]%list_elem_of_filter.
    apply (Hno i' a'); [lia|done|congruence].
Qed.

(** The replica's latest versions are the serial state. *)
Lemma serial_final x0 g k :
  loaded x0 → tinv x0 g → get (kv (st g)) k = serial (get x0) (committed g) k.
Proof.
  intros [Hwf0 H0] Hg. unfold committed.
  destruct (last_with (λ e, writes e k) (filter (λ e, e_status e = Committed) (log g)))
    as [Hno|(l1 & e & l2 & Hsplit & [v Hv] & Hno)].
  - rewrite serial_frame by done.
    assert (∀ w v, has_version (kv (st g)) k w v ↔ has_version x0 k w v) as Hsame.
    { intros w v. rewrite (i_vers _ _ Hg). split; [|by left].
      intros [?|(e & He & Hc & _ & Hv)]; [done|].
      destruct (Hno e); [by apply list_elem_of_filter|by eexists]. }
    destruct (get x0 k) as [[w v]|] eqn:Hg0.
    + apply get_latest in Hg0 as [Hv Hmax]; [|done].
      apply get_intro; [apply (i_wf _ _ Hg)|by apply Hsame|].
      intros w' v' Hv'. by eapply Hmax, Hsame.
    + apply get_None. apply get_None in Hg0.
      destruct (versions (kv (st g)) k) as [|[w v] l] eqn:Hl; [done|]. exfalso.
      apply (versions_nil_no_version x0 k w v Hg0), Hsame. unfold has_version.
      rewrite Hl. apply list_elem_of_here.
  - rewrite Hsplit, (serial_last_writer _ _ _ _ _ v Hv) by done.
    apply filter_split_inv in Hsplit as (j & Hj & Hc & -> & ->).
    apply get_intro; [apply (i_wf _ _ Hg)| |].
    { apply (i_vers _ _ Hg). right. exists e. split_and!; try done.
      by eapply list_elem_of_lookup_2. }
    intros w' v' [Hv'|(e' & He' & Hc' & <- & Hv')]%(i_vers _ _ Hg).
    + rewrite (H0 _ _ _ Hv'). pose proof (i_ts _ _ Hg e (list_elem_of_lookup_2 _ _ _ Hj)). ts_order.
    + apply list_elem_of_lookup in He' as [i Hi].
      destruct (lt_eq_lt_dec i j) as [[Hij| ->]|Hij]; [|simplify_eq; ts_order|].
      * assert (ts_lt (e_ts e') (e_ts e) = true); [|ts_order].
        apply (i_ww _ _ Hg i j e' e k); auto; congruence || by eexists.
      * exfalso. apply (Hno e'); [|by eexists]. apply list_elem_of_filter. split; [done|].
        apply list_elem_of_lookup. exists (i - S j)%nat. rewrite lookup_drop.
        by replace (S j + (i - S j))%nat with i by lia.
Qed.

(** C4. Serializability in prepare order.  In linearizable mode the
    transactions a replica committed, executed serially in the order the
    replica accepted them, (a) find at every read of a version the replica
    held exactly that version, and (b) produce exactly the latest version and
    value the replica stores for every key.  This holds for every interleaving
    of prepares (accepted, repeated, rejected), commits and aborts, and every
    iteration order of the hash tables. *)
Theorem linearizable_serializable x0 g :
  loaded x0 → rtc tstep (start x0) g →
  reads_explained (get x0) (committed g) ∧
  (∀ k, get (kv (st g)) k = serial (get x0) (committed g) k).
Proof.
  intros Hx0 Hr. pose proof (reachable_inv x0 g Hx0 Hr) as Hg. split.
  - intros C1 e C2 k w (j & Hj & Hc & -> & _)%filter_split_inv Hk.
    by apply (serial_reads x0 g j e k w).
  - intros k. by apply serial_final.
Qed.

(** ** A concrete run

    Transaction 1 reads [x] and [y] and writes [y], transaction 2 reads [y]
    and writes [x]. *)
Definition demo_x0 : VersionedKVStore :=
  put (put empty_store "x" "0" ts0) "y" "0" ts0.

Definition demo_t1 : Transaction := addWriteSet "y" "1" (addReadSet "x" ts0 empty_txn).
Definition demo_t2 (w : Timestamp) : Transaction :=
  addWriteSet "x" "2" (addReadSet "y" w empty_txn).

Definition prepare_demo (g : history) (id : Z) (txn : Transaction) (ts : Timestamp) : history :=
  match @Prepare canonical_order (st g) id txn ts ts0 with
  | Ret (_, s') =>
      mkHist s' ((resolve id Aborted <$> log g) ++
        [mkEntry id ts txn (held_reads (kv (st g)) txn) Prepared])
  | Panic => g
  end.

Definition commit_demo (g : history) (id : Z) : history :=
  mkHist (@Commit canonical_order (st g) id) (resolve id Committed <$> log g).

Lemma prepare_demo_step g id txn ts :
  prepared (st g) !! id = None → isValid ts = true →
  Forall (λ e, e_ts e ≠ ts) (log g) →
  (match @Prepare canonical_order (st g) id txn ts ts0 with
   | Ret ((0, _), _) => true | _ => false end) = true →
  tstep g (prepare_demo g id txn ts).
Proof.
  intros Hid Hts Hlog Hok. unfold prepare_demo.
  destruct (@Prepare canonical_order (st g) id txn ts ts0) as [[[r p] s']|] eqn:Hp; [|done].
  destruct r; try done. eapply (step_accept canonical_order); [|done| |exact Hp].
  - congruence.
  - intros e He Heq. rewrite Forall_forall in Hlog. by destruct (Hlog e He).
Qed.

Lemma demo_loaded : loaded demo_x0.
Proof.
  split; [unfold demo_x0; auto with tapir|].
  intros k w v. unfold demo_x0. rewrite has_version_put by auto with tapir.
  rewrite has_version_put by auto with tapir.
  intros [[[]%elem_of_nil|(_ & -> & _)]|(_ & -> & _)]; done.
Qed.

Definition demo_run (lin : bool) (w ts : Timestamp) : history :=
  let g1 := prepare_demo (start_in lin demo_x0) 1 demo_t1 (mkTS 10 1) in
  let g2 := commit_demo g1 1 in
  commit_demo (prepare_demo g2 2 (demo_t2 w) ts) 2.

Ltac demo_step :=
  first
    [ apply rtc_refl
    | eapply rtc_r; [|apply (step_commit canonical_order)]; demo_step
    | eapply rtc_r;
      [|apply prepare_demo_step; vm_compute; repeat constructor; discriminate]; demo_step ].

Lemma linearizable_serializable_witness :
  reads_explained (get demo_x0) (committed (demo_run true (mkTS 10 1) (mkTS 11 2))) ∧
  length (committed (demo_run true (mkTS 10 1) (mkTS 11 2))) = 2%nat.
Proof.
  split; [|by vm_compute].
  apply (linearizable_serializable demo_x0 _ demo_loaded). demo_step.
Defined.

(** Write skew in serializable mode.  Without [linearizable] the store
    relies on the last-read timestamps of committed versions, which
    [commitGet] never records: a transaction that writes [x] at timestamp 5 is
    accepted after a transaction that read the initial version of [x] at
    timestamp 10 committed, although it also read the key the other one wrote.
    No serial order of the two committed transactions explains their reads. *)
Theorem serializable_write_skew :
  ∃ g, rtc tstep (start_in false demo_x0) g ∧ length (committed g) = 2%nat ∧
    ∀ C, C ≡ₚ committed g → ¬ reads_explained (get demo_x0) C.
Proof.
  exists (demo_run false ts0 (mkTS 5 2)). split; [demo_step|]. split; [by vm_compute|].
  assert (∃ a b, committed (demo_run false ts0 (mkTS 5 2)) = [a; b] ∧
    e_held a !! "x" = Some ts0 ∧ e_held b !! "y" = Some ts0 ∧
    fst <$> serial (get demo_x0) [a] "y" = Some (mkTS 10 1) ∧
    fst <$> serial (get demo_x0) [b] "x" = Some (mkTS 5 2))
    as (a & b & -> & Ha & Hb & Hy & Hx).
  { vm_compute. do 2 eexists. split_and!; reflexivity. }
  intros C HC Hexp. symmetry in HC. apply Permutation_length_2_inv in HC as [-> | ->].
  - specialize (Hexp [a] b [] "y" ts0 eq_refl Hb). by rewrite Hy in Hexp.
  - specialize (Hexp [b] a [] "x" ts0 eq_refl Ha). by rewrite Hx in Hexp.
Qed.
