(* ===== verification/LockServer.v ===== *)
(** * The lock server (store/common/backend/lockserver.{h,cc})

    A multi-reader, single-writer lock per key with a queue of waiters whose
    requests expire.  A request reads the clock at most twice: [now] when the
    queue is pruned, [wt] when the requester is put in the queue; both are
    arguments.  [ASSERT] failures are [Panic], as is reading the uninitialised
    time of a default waiter. *)

From S2P Require Import Prelude.

Notation LOCK_WAIT_TIMEOUT := (5000)%Z (only parsing).

Inductive LockState :=
  UNLOCKED | LOCKED_FOR_READ | LOCKED_FOR_WRITE | LOCKED_FOR_READ_WRITE.

#[global] Instance LockState_eq_dec : EqDecision LockState.
Proof. solve_decision. Defined.

Record Waiter := mkWaiter { w_write : bool; waitTime : timeval }.

Record Lock := mkLock {
  state : LockState;
  holders : gset Z;
  waitQ : list Z;
  waiters : gmap Z Waiter
}.

Record LockServer := mkLS {
  locks : gmap string Lock;
  readers : Z;
  writers : Z
}.

Notation new_lock := (mkLock UNLOCKED ∅ [] ∅) (only parsing).

Notation new_lockserver := (mkLS ∅ 0 0) (only parsing).

Definition checkTimeout (x : Waiter) (now : timeval) : outcome bool :=
  if (tv_sec (waitTime x) <? tv_sec now)%Z then Ret true
  else
    ASSERT! (tv_usec (waitTime x) <? tv_usec now)%Z && (tv_sec now =? tv_sec (waitTime x))%Z;
    Ret (LOCK_WAIT_TIMEOUT <? tv_usec now - tv_usec (waitTime x))%Z.

Definition waitForLock (l : Lock) (requester : Z) (write : bool) (wt : timeval) : Lock :=
  match waiters l !! requester with
  | Some _ => l
  | None =>
      mkLock (state l) (holders l) (waitQ l ++ [requester])
        (<[requester := mkWaiter write wt]> (waiters l))
  end.

(** The loop that drops expired requests from the head of the queue. *)
Fixpoint prune (now : timeval) (q : list Z) (ws : gmap Z Waiter) :
    outcome (list Z * gmap Z Waiter) :=
  match q with
  | [] => Ret ([], ws)
  | w :: q' =>
      match ws !! w with
      | None => Panic
      | Some x =>
          old ← checkTimeout x now;
          if old : bool then prune now q' (delete w ws) else Ret (q, ws)
      end
  end.

Definition tryAcquireLock (l : Lock) (requester : Z) (write : bool) (now wt : timeval) :
    outcome (bool * Lock) :=
  match waitQ l with
  | [] => Ret (true, l)
  | _ =>
      r ← prune now (waitQ l) (waiters l);
      let l' := mkLock (state l) (holders l) r.1 r.2 in
      match r.1 with
      | [] => Ret (true, l')
      | front :: q =>
          if decide (front = requester) then
            match r.2 !! requester with
            | None => Panic
            | Some x =>
                ASSERT! Bool.eqb (w_write x) write;
                Ret (true, mkLock (state l) (holders l) q (delete requester r.2))
            end
          else Ret (false, waitForLock l' requester write wt)
      end
  end.

Definition isWriteNext (l : Lock) (now : timeval) : outcome (bool * Lock) :=
  match waitQ l with
  | [] => Ret (false, l)
  | _ =>
      r ← prune now (waitQ l) (waiters l);
      let l' := mkLock (state l) (holders l) r.1 r.2 in
      match r.1 with
      | [] => Ret (false, l')
      | front :: _ =>
          match r.2 !! front with
          | None => Panic
          | Some x => Ret (w_write x, l')
          end
      end
  end.

(** [locks[lock]] *)
Definition get_lock (s : LockServer) (lock : string) : Lock :=
  default new_lock (locks s !! lock).

Definition set_lock (s : LockServer) (lock : string) (l : Lock) (dr dw : Z) : LockServer :=
  mkLS (<[lock := l]> (locks s)) (u64 (readers s + dr)) (u64 (writers s + dw)).

Definition lockForRead (s : LockServer) (t : timeval * timeval) (lock : string)
    (requester : Z) : outcome (bool * LockServer) :=
  let l := get_lock s lock in
  match state l with
  | UNLOCKED =>
      r ← tryAcquireLock l requester false t.1 t.2;
      if r.1 : bool then
        ASSERT! (size (holders r.2) =? 0)%nat;
        Ret (true, set_lock s lock
          (mkLock LOCKED_FOR_READ ({[requester]} ∪ holders r.2) (waitQ r.2) (waiters r.2)) 1 0)
      else Ret (false, set_lock s lock r.2 0 0)
  | LOCKED_FOR_READ =>
      if decide (requester ∈ holders l) then Ret (true, set_lock s lock l 0 0)
      else
        r ← isWriteNext l t.1;
        if r.1 : bool then Ret (false, set_lock s lock (waitForLock r.2 requester false t.2) 0 0)
        else
          Ret (true, set_lock s lock
            (mkLock (state r.2) ({[requester]} ∪ holders r.2) (waitQ r.2) (waiters r.2)) 1 0)
  | LOCKED_FOR_WRITE | LOCKED_FOR_READ_WRITE =>
      if decide (requester ∈ holders l) then
        Ret (true, set_lock s lock
          (mkLock LOCKED_FOR_READ_WRITE (holders l) (waitQ l) (waiters l)) 1 0)
      else
        ASSERT! (size (holders l) =? 1)%nat;
        Ret (false, set_lock s lock (waitForLock l requester false t.2) 0 0)
  end.

Definition lockForWrite (s : LockServer) (t : timeval * timeval) (lock : string)
    (requester : Z) : outcome (bool * LockServer) :=
  let l := get_lock s lock in
  match state l with
  | UNLOCKED =>
      r ← tryAcquireLock l requester true t.1 t.2;
      if r.1 : bool then
        ASSERT! (size (holders r.2) =? 0)%nat;
        Ret (true, set_lock s lock
          (mkLock LOCKED_FOR_WRITE ({[requester]} ∪ holders r.2) (waitQ r.2) (waiters r.2)) 0 1)
      else Ret (false, set_lock s lock r.2 0 0)
  | LOCKED_FOR_READ =>
      if (size (holders l) =? 1)%nat && bool_decide (requester ∈ holders l) then
        Ret (true, set_lock s lock
          (mkLock LOCKED_FOR_READ_WRITE (holders l) (waitQ l) (waiters l)) 0 1)
      else Ret (false, set_lock s lock (waitForLock l requester true t.2) 0 0)
  | LOCKED_FOR_WRITE | LOCKED_FOR_READ_WRITE =>
      ASSERT! (size (holders l) =? 1)%nat;
      if decide (requester ∈ holders l) then Ret (true, set_lock s lock l 0 0)
      else Ret (false, set_lock s lock (waitForLock l requester true t.2) 0 0)
  end.

Definition releaseForRead (s : LockServer) (lock : string) (holder : Z) : LockServer :=
  match locks s !! lock with
  | None => s
  | Some l =>
      if decide (holder ∈ holders l) then
        match state l with
        | UNLOCKED | LOCKED_FOR_WRITE => s
        | LOCKED_FOR_READ =>
            let hs := holders l ∖ {[holder]} in
            set_lock s lock
              (mkLock (if decide (hs = ∅) then UNLOCKED else LOCKED_FOR_READ) hs
                 (waitQ l) (waiters l)) (-1) 0
        | LOCKED_FOR_READ_WRITE =>
            set_lock s lock (mkLock LOCKED_FOR_WRITE (holders l) (waitQ l) (waiters l)) (-1) 0
        end
      else s
  end.

Definition releaseForWrite (s : LockServer) (lock : string) (holder : Z) : outcome LockServer :=
  match locks s !! lock with
  | None => Ret s
  | Some l =>
      if decide (holder ∈ holders l) then
        match state l with
        | UNLOCKED | LOCKED_FOR_READ => Ret s
        | LOCKED_FOR_WRITE =>
            let hs := holders l ∖ {[holder]} in
            ASSERT! (size hs =? 0)%nat;
            Ret (set_lock s lock (mkLock UNLOCKED hs (waitQ l) (waiters l)) 0 (-1))
        | LOCKED_FOR_READ_WRITE =>
            ASSERT! (size (holders l) =? 1)%nat;
            Ret (set_lock s lock
              (mkLock LOCKED_FOR_READ (holders l) (waitQ l) (waiters l)) 0 (-1))
        end
      else Ret s
  end.

(** ** Specification

    What a requester may do with a key. *)
Definition l_can_read (l : Lock) (r : Z) : Prop :=
  r ∈ holders l ∧ (state l = LOCKED_FOR_READ ∨ state l = LOCKED_FOR_READ_WRITE).
Definition l_can_write (l : Lock) (r : Z) : Prop :=
  r ∈ holders l ∧ (state l = LOCKED_FOR_WRITE ∨ state l = LOCKED_FOR_READ_WRITE).

Definition can_read (s : LockServer) (k : string) (r : Z) : Prop :=
  l_can_read (get_lock s k) r.
Definition can_write (s : LockServer) (k : string) (r : Z) : Prop :=
  l_can_write (get_lock s k) r.

(** The queue has no duplicates and its members are the waiters; the state
    agrees with the number of holders. *)
Record lock_wf (l : Lock) : Prop := {
  wf_nodup : NoDup (waitQ l);
  wf_queue r : r ∈ waitQ l ↔ is_Some (waiters l !! r);
  wf_free : state l = UNLOCKED ↔ holders l = ∅;
  wf_write : state l = LOCKED_FOR_WRITE ∨ state l = LOCKED_FOR_READ_WRITE →
             size (holders l) = 1%nat
}.

Definition ls_wf (s : LockServer) : Prop := ∀ k, lock_wf (get_lock s k).

(** An operation of [r] leaves the permissions of the others alone. *)
Definition others_keep (r : Z) (s s' : LockServer) : Prop :=
  ∀ k r', r' ≠ r →
    (can_read s' k r' ↔ can_read s k r') ∧ (can_write s' k r' ↔ can_write s k r').

(** ** The queue *)

Definition queue_ok (q : list Z) (ws : gmap Z Waiter) : Prop :=
  NoDup q ∧ ∀ r, r ∈ q ↔ is_Some (ws !! r).

Lemma queue_ok_pop w q ws : queue_ok (w :: q) ws → queue_ok q (delete w ws).
Proof.
  intros [[Hw Hq]%NoDup_cons Hin]. split; [done|]. intros r.
  rewrite lookup_delete_is_Some. rewrite <- Hin, elem_of_cons. naive_solver.
Qed.

Lemma queue_ok_push r x q ws :
  queue_ok q ws → ws !! r = None → queue_ok (q ++ [r]) (<[r := x]> ws).
Proof.
  intros [Hq Hin] Hr. split.
  - apply NoDup_app. split_and!; [done| |apply NoDup_singleton].
    intros y [v Hy]%Hin ->%list_elem_of_singleton. congruence.
  - intros y. rewrite elem_of_app, list_elem_of_singleton, lookup_insert_is_Some, Hin.
    destruct (decide (r = y)); naive_solver.
Qed.

(** The loop removes a prefix of expired requests and nothing else. *)
Lemma prune_spec now q ws q' ws' :
  queue_ok q ws → prune now q ws = Ret (q', ws') →
  queue_ok q' ws' ∧
  (∃ old, q = old ++ q' ∧
     ∀ w, w ∈ old → ∃ x, ws !! w = Some x ∧ checkTimeout x now = Ret true) ∧
  (∀ r, r ∈ q' → ws' !! r = ws !! r).
Proof.
  revert ws. induction q as [|w q IH]; intros ws Hq; simpl.
  { intros [= <- <-]. split_and!; [done| |done]. exists []. split; [done|]. by intros ? ?%elem_of_nil. }
  destruct (ws !! w) as [x|] eqn:Hw; [|done]. destruct (checkTimeout x now) as [[]|] eqn:Hx; simpl; [| |done].
  - intros Hp. pose proof (queue_ok_pop _ _ _ Hq) as Hq'.
    destruct (IH _ Hq' Hp) as (Hok & (old & -> & Hold) & Hsame). split_and!; [done| |].
    + exists (w :: old). split; [done|]. intros y [->|Hy]%elem_of_cons; [eauto|].
      destruct (Hold y Hy) as (z & Hz & Ht). exists z. by apply lookup_delete_Some in Hz as [_ Hz].
    + intros r Hr. rewrite Hsame by done. rewrite lookup_delete_ne; [done|].
      intros <-. destruct Hq as [[Hn _]%NoDup_cons _]. apply Hn, elem_of_app. by right.
  - intros [= <- <-]. split_and!; [done| |done]. exists []. split; [done|]. by intros ? ?%elem_of_nil.
Qed.

(** A request is refused or granted; either way state and holders stay and the
    queue stays consistent. *)
Definition requeued (l l' : Lock) : Prop :=
  state l' = state l ∧ holders l' = holders l ∧
  (queue_ok (waitQ l) (waiters l) → queue_ok (waitQ l') (waiters l')).

Lemma waitForLock_requeued l r w wt : requeued l (waitForLock l r w wt).
Proof.
  unfold waitForLock. destruct (waiters l !! r) eqn:Hr; split_and!; try done; simpl.
  intros Hq. by apply queue_ok_push.
Qed.

Lemma tryAcquireLock_requeued l r w now wt b l' :
  queue_ok (waitQ l) (waiters l) →
  tryAcquireLock l r w now wt = Ret (b, l') → requeued l l'.
Proof.
  intros Hq. unfold tryAcquireLock. destruct (waitQ l) as [|q0 q] eqn:Hwq; [by intros [= _ <-]|].
  rewrite <- Hwq in *. clear Hwq.
  destruct (prune _ _ _) as [[q1 ws1]|] eqn:Hp; simpl; [|done].
  apply prune_spec in Hp as (Hok & _); [|done].
  destruct q1 as [|front q1]; [by intros [= _ <-]|]. case_decide as Hf.
  - subst. destruct (ws1 !! r); [|done]. simpl. unfold ASSERT. case_match; [|done].
    intros [= _ <-]. split_and!; try done. intros _. by apply (queue_ok_pop r).
  - intros [= _ <-]. destruct (waitForLock_requeued (mkLock (state l) (holders l) (front :: q1) ws1)
      r w wt) as (? & ? & ?). split_and!; auto.
Qed.

Lemma isWriteNext_requeued l now b l' :
  queue_ok (waitQ l) (waiters l) → isWriteNext l now = Ret (b, l') → requeued l l'.
Proof.
  intros Hq. unfold isWriteNext. destruct (waitQ l) as [|q0 q] eqn:Hwq; [by intros [= _ <-]|].
  rewrite <- Hwq in *. clear Hwq.
  destruct (prune _ _ _) as [[q1 ws1]|] eqn:Hp; simpl; [|done].
  apply prune_spec in Hp as (Hok & _); [|done].
  destruct q1; [|destruct (ws1 !! _); [|done]]; by intros [= _ <-].
Qed.

(** ** Locks *)

Lemma get_lock_set s k l dr dw k' :
  get_lock (set_lock s k l dr dw) k' = if decide (k = k') then l else get_lock s k'.
Proof. unfold get_lock, set_lock; simpl. rewrite lookup_insert. by case_decide. Qed.

Lemma lock_wf_queue l : lock_wf l → queue_ok (waitQ l) (waiters l).
Proof. intros Hl. split; apply Hl. Qed.

Lemma lock_wf_requeued l l' : lock_wf l → requeued l l' → lock_wf l'.
Proof.
  intros Hl (Hs & Hh & Hq). destruct (Hq (lock_wf_queue _ Hl)).
  split; try done; rewrite ?Hs, ?Hh; apply Hl.
Qed.

Lemma lock_wf_change l st hs :
  lock_wf l → (st = UNLOCKED ↔ hs = ∅) →
  (st = LOCKED_FOR_WRITE ∨ st = LOCKED_FOR_READ_WRITE → size hs = 1%nat) →
  lock_wf (mkLock st hs (waitQ l) (waiters l)).
Proof. intros Hl ??. split; simpl; try done; apply Hl. Qed.

Lemma new_lock_wf : lock_wf new_lock.
Proof.
  split; simpl; [constructor| |done|naive_solver].
  intros r. rewrite lookup_empty, elem_of_nil. split; [done|by intros [? ?]].
Qed.

Lemma new_lockserver_wf : ls_wf new_lockserver.
Proof. intros k. apply new_lock_wf. Qed.

Lemma set_lock_wf s k l dr dw : ls_wf s → lock_wf l → ls_wf (set_lock s k l dr dw).
Proof. intros Hs Hl k'. rewrite get_lock_set. by case_decide. Qed.

#[export] Hint Resolve set_lock_wf new_lock_wf lock_wf_queue : tapir.

Lemma others_keep_set r s k l dr dw :
  (∀ r', r' ≠ r → (l_can_read l r' ↔ l_can_read (get_lock s k) r') ∧
                  (l_can_write l r' ↔ l_can_write (get_lock s k) r')) →
  others_keep r s (set_lock s k l dr dw).
Proof.
  intros Hl k' r' Hr. unfold can_read, can_write. rewrite get_lock_set.
  case_decide; [subst; by apply Hl|done].
Qed.

(** The sole holder of a write lock. *)
Lemma sole_holder (hs : gset Z) r r' : size hs = 1%nat → r ∈ hs → r' ∈ hs → r = r'.
Proof. intros (x & Hx)%size_1_elem_of. set_solver. Qed.

(** ** The operations *)

(** A step on lock [k] by [r]. *)
Record lock_step (k : string) (r : Z) (s s' : LockServer) : Prop := {
  step_wf : ls_wf s';
  step_others : others_keep r s s';
  step_frame k' : k' ≠ k → get_lock s' k' = get_lock s k'
}.

Lemma lock_step_set s k r l dr dw :
  ls_wf s → lock_wf l →
  (∀ r', r' ≠ r → (l_can_read l r' ↔ l_can_read (get_lock s k) r') ∧
                  (l_can_write l r' ↔ l_can_write (get_lock s k) r')) →
  lock_step k r s (set_lock s k l dr dw).
Proof.
  intros Hs Hl Hr. split; [by apply set_lock_wf|by apply others_keep_set|].
  intros k' Hk. rewrite get_lock_set. by case_decide.
Qed.

Lemma lock_step_refl s k r : ls_wf s → lock_step k r s s.
Proof. intros Hs. split; [done| |done]. by intros k' r' _. Qed.

(** The requester waits, or keeps what it has. *)
Lemma lock_step_requeued s k r l :
  ls_wf s → requeued (get_lock s k) l → lock_step k r s (set_lock s k l 0 0).
Proof.
  intros Hs Hq. apply lock_step_set; [done|by eapply lock_wf_requeued|].
  intros r' _. unfold l_can_read, l_can_write. destruct Hq as (-> & -> & _). done.
Qed.

Lemma requeued_perms s k r l :
  requeued (get_lock s k) l →
  (can_read (set_lock s k l 0 0) k r ↔ can_read s k r) ∧
  (can_write (set_lock s k l 0 0) k r ↔ can_write s k r).
Proof.
  intros (Hs & Hh & _). unfold can_read, can_write, l_can_read, l_can_write. rewrite get_lock_set, decide_True by done.
  by rewrite Hs, Hh.
Qed.

Lemma requeued_refl l : requeued l l.
Proof. done. Qed.

Lemma requeued_trans l1 l2 l3 : requeued l1 l2 → requeued l2 l3 → requeued l1 l3.
Proof. intros (? & ? & ?) (? & ? & ?). split_and!; [congruence..|auto]. Qed.

#[export] Hint Resolve lock_step_refl lock_step_requeued requeued_refl requeued_trans
  waitForLock_requeued tryAcquireLock_requeued isWriteNext_requeued : tapir.

(** The state [st] that [r] may be granted on lock [l]. *)
Definition grantable (l : Lock) (r : Z) (st : LockState) : Prop :=
  st = LOCKED_FOR_READ ∧ (state l = UNLOCKED ∨ state l = LOCKED_FOR_READ) ∨
  st = LOCKED_FOR_WRITE ∧ state l = UNLOCKED ∨
  st = LOCKED_FOR_READ_WRITE ∧ holders l = {[r]}.

Lemma grant_wf l r st :
  lock_wf l → grantable l r st →
  lock_wf (mkLock st ({[r]} ∪ holders l) (waitQ l) (waiters l)).
Proof.
  intros Hl Hst. pose proof (wf_free _ Hl) as Hfree. apply lock_wf_change; [done| |].
  - destruct Hst as [[-> _]|[[-> _]|[-> _]]]; set_solver.
  - intros Hw. destruct Hst as [[-> _]|[[-> Hu]|[-> Hu]]]; [naive_solver| |].
    + apply Hfree in Hu. by rewrite Hu, union_empty_r_L, size_singleton.
    + by rewrite Hu, union_idemp_L, size_singleton.
Qed.

Lemma grant_perms l r st r' :
  lock_wf l → grantable l r st →
  let l' := mkLock st ({[r]} ∪ holders l) (waitQ l) (waiters l) in
  (l_can_read l r' → l_can_read l' r') ∧ (l_can_write l r' → l_can_write l' r') ∧
  (r' ≠ r → (l_can_read l' r' → l_can_read l r') ∧ (l_can_write l' r' → l_can_write l r')).
Proof.
  intros Hl Hst. pose proof (wf_free _ Hl) as Hfree. unfold l_can_read, l_can_write; simpl.
  destruct Hst as [[-> [Hu|Hu]]|[[-> Hu]|[-> Hu]]]; rewrite ?Hu; try apply Hfree in Hu;
    rewrite ?Hu; set_solver.
Qed.

(** What a request for permission [can] by [r] on [k] does: [b] tells whether
    [r] has the permission afterwards; no permission is lost. *)
Record requested (can : LockServer → string → Z → Prop) (s : LockServer) (k : string)
    (r : Z) (b : bool) (s' : LockServer) : Prop := {
  rq_step : lock_step k r s s';
  rq_read : can_read s k r → can_read s' k r;
  rq_write : can_write s k r → can_write s' k r;
  rq_true : b = true → can s' k r;
  rq_false : b = false → ¬ can s' k r
}.

Lemma can_set_eq s k l dr dw r :
  (can_read (set_lock s k l dr dw) k r ↔ l_can_read l r) ∧
  (can_write (set_lock s k l dr dw) k r ↔ l_can_write l r).
Proof. unfold can_read, can_write. by rewrite get_lock_set, decide_True by done. Qed.

Lemma granted can s k r l st dr dw :
  can = can_read ∧ (st = LOCKED_FOR_READ ∨ st = LOCKED_FOR_READ_WRITE) ∨
  can = can_write ∧ (st = LOCKED_FOR_WRITE ∨ st = LOCKED_FOR_READ_WRITE) →
  ls_wf s → requeued (get_lock s k) l → grantable (get_lock s k) r st →
  requested can s k r true
    (set_lock s k (mkLock st ({[r]} ∪ holders l) (waitQ l) (waiters l)) dr dw).
Proof.
  intros Hcan Hs Hq Hst.
  assert (lock_wf l) as Hl by (eapply lock_wf_requeued; eauto).
  assert (grantable l r st) as Hst' by (unfold grantable; destruct Hq as (-> & -> & _); done).
  assert (∀ r', (l_can_read l r' ↔ can_read s k r') ∧ (l_can_write l r' ↔ can_write s k r')) as Heq
    by (intros; unfold can_read, can_write, l_can_read, l_can_write; by destruct Hq as (-> & -> & _)).
  split.
  - apply lock_step_set; [done|by apply grant_wf|]. intros r' Hr'.
    destruct (grant_perms l r st r' Hl Hst') as (H1 & H2 & H3). destruct (Heq r').
    unfold can_read, can_write in *. tauto.
  - intros H. apply can_set_eq, grant_perms; [done..|]. by apply Heq.
  - intros H. apply can_set_eq, grant_perms; [done..|]. by apply Heq.
  - intros _. destruct Hcan as [[-> ?]|[-> ?]]; apply can_set_eq; (split; [set_solver|done]).
  - done.
Qed.

(** A refused request, or one that finds the permission. *)
Lemma not_granted can s k r l b :
  can = can_read ∨ can = can_write →
  ls_wf s → requeued (get_lock s k) l → (b = true ↔ can s k r) →
  requested can s k r b (set_lock s k l 0 0).
Proof.
  intros Hcan Hs Hq Hb. destruct (requeued_perms s k r l Hq) as [Hr Hw].
  split; [auto with tapir|naive_solver..| |].
  - intros ->. destruct Hcan as [-> | ->]; naive_solver.
  - intros ->. destruct Hcan as [-> | ->]; naive_solver.
Qed.

Lemma size1_holder (hs : gset Z) r : size hs = 1%nat → r ∈ hs → hs = {[r]}.
Proof. intros Hs Hr. apply set_eq. intros x. pose proof (sole_holder hs x r Hs). set_solver. Qed.

Lemma lockForRead_spec s t k r b s' :
  ls_wf s → lockForRead s t k r = Ret (b, s') → requested can_read s k r b s'.
Proof.
  intros Hs. unfold lockForRead. pose proof (wf_write _ (Hs k)) as Hwr.
  pose proof (wf_free _ (Hs k)) as Hfree.
  destruct (state (get_lock s k)) eqn:Hst.
  - destruct (tryAcquireLock _ _ _ _ _) as [[[] l]|] eqn:Ht; simpl; [| |done];
      apply tryAcquireLock_requeued in Ht; auto with tapir.
    + rewrite ASSERT_bind. intros [_ [= <- <-]].
      apply granted; auto. left; auto.
    + intros [= <- <-]. apply not_granted; auto. unfold can_read, l_can_read. rewrite Hst. naive_solver.
  - case_decide as Hh.
    { intros [= <- <-]. apply not_granted; auto with tapir. unfold can_read, l_can_read. naive_solver. }
    destruct (isWriteNext _ _) as [[[] l]|] eqn:Hn; simpl; [| |done];
      apply isWriteNext_requeued in Hn; auto with tapir; intros [= <- <-].
    + apply not_granted; eauto with tapir. unfold can_read, l_can_read. naive_solver.
    + pose proof Hn as (-> & _). rewrite Hst. apply granted; auto. left; auto.
  - case_decide as Hh.
    { intros [= <- <-]. pose proof (size1_holder _ r (Hwr (or_introl eq_refl)) Hh) as Hr.
      replace (holders (get_lock s k)) with ({[r]} ∪ holders (get_lock s k)) by set_solver.
      apply granted; [by auto|done|done|by right; right]. }
    rewrite ASSERT_bind. intros [_ [= <- <-]].
    apply not_granted; eauto with tapir. unfold can_read, l_can_read. naive_solver.
  - case_decide as Hh.
    { intros [= <- <-]. pose proof (size1_holder _ r (Hwr (or_intror eq_refl)) Hh) as Hr.
      replace (holders (get_lock s k)) with ({[r]} ∪ holders (get_lock s k)) by set_solver.
      apply granted; [by auto|done|done|by right; right]. }
    rewrite ASSERT_bind. intros [_ [= <- <-]].
    apply not_granted; eauto with tapir. unfold can_read, l_can_read. naive_solver.
Qed.

Lemma lockForWrite_spec s t k r b s' :
  ls_wf s → lockForWrite s t k r = Ret (b, s') → requested can_write s k r b s'.
Proof.
  intros Hs. unfold lockForWrite. pose proof (wf_write _ (Hs k)) as Hwr.
  pose proof (wf_free _ (Hs k)) as Hfree.
  destruct (state (get_lock s k)) eqn:Hst.
  - destruct (tryAcquireLock _ _ _ _ _) as [[[] l]|] eqn:Ht; simpl; [| |done];
      apply tryAcquireLock_requeued in Ht; auto with tapir.
    + rewrite ASSERT_bind. intros [_ [= <- <-]].
      apply granted; auto. right; left; auto.
    + intros [= <- <-]. apply not_granted; auto. unfold can_write, l_can_write. rewrite Hst. naive_solver.
  - destruct (Nat.eqb_spec (size (holders (get_lock s k))) 1) as [H1|H1]; simpl.
    + case_bool_decide as Hh; intros [= <- <-].
      * pose proof (size1_holder _ r H1 Hh) as Hr.
        replace (holders (get_lock s k)) with ({[r]} ∪ holders (get_lock s k)) by set_solver.
        apply granted; [by auto|done|done|by right; right].
      * apply not_granted; eauto with tapir. unfold can_write, l_can_write. naive_solver.
    + intros [= <- <-]. apply not_granted; eauto with tapir. unfold can_write, l_can_write.
      rewrite Hst. naive_solver.
  - rewrite ASSERT_bind. intros [_ H]. revert H. case_decide as Hh; intros [= <- <-];
      apply not_granted; eauto with tapir; unfold can_write, l_can_write; naive_solver.
  - rewrite ASSERT_bind. intros [_ H]. revert H. case_decide as Hh; intros [= <- <-];
      apply not_granted; eauto with tapir; unfold can_write, l_can_write; naive_solver.
Qed.

Lemma get_lock_Some s k l : locks s !! k = Some l → get_lock s k = l.
Proof. unfold get_lock. by intros ->. Qed.

Lemma get_lock_None s k : locks s !! k = None → get_lock s k = new_lock.
Proof. unfold get_lock. by intros ->. Qed.

Lemma releaseForRead_spec s k r :
  ls_wf s →
  lock_step k r s (releaseForRead s k r) ∧ ¬ can_read (releaseForRead s k r) k r ∧
  (can_write s k r → can_write (releaseForRead s k r) k r).
Proof.
  intros Hs. unfold releaseForRead. destruct (locks s !! k) as [l|] eqn:Hk.
  2: { split; [auto with tapir|]. unfold can_read. rewrite (get_lock_None _ _ Hk). by split; [intros []|]. }
  apply get_lock_Some in Hk. pose proof (Hs k) as Hl. rewrite Hk in Hl.
  case_decide as Hr; [|split; [auto with tapir|]; unfold can_read; rewrite Hk; by split; [intros []|]].
  destruct (state l) eqn:Hst.
  1,3: split; [auto with tapir|]; unfold can_read, l_can_read; rewrite Hk, Hst; naive_solver.
  - split; [apply lock_step_set; [done| |]|].
    + apply lock_wf_change; [done|by case_decide|case_decide; naive_solver].
    + intros r' Hr'. rewrite Hk. unfold l_can_read, l_can_write; simpl. rewrite Hst.
      case_decide; set_solver.
    + split; [rewrite (proj1 (can_set_eq _ _ _ _ _ _))|rewrite (proj2 (can_set_eq _ _ _ _ _ _))].
      * unfold l_can_read; simpl. set_solver.
      * unfold can_write, l_can_write. rewrite Hk, Hst. naive_solver.
  - pose proof (wf_write _ Hl (or_intror Hst)) as H1.
    split; [apply lock_step_set; [done| |]|].
    + apply lock_wf_change; [done| |done]. split; [done|]. intros He. by rewrite He, size_empty in H1.
    + intros r' Hr'. rewrite Hk. unfold l_can_read, l_can_write; simpl. rewrite Hst.
      pose proof (sole_holder _ r r' H1 Hr). naive_solver.
    + split; [rewrite (proj1 (can_set_eq _ _ _ _ _ _))|rewrite (proj2 (can_set_eq _ _ _ _ _ _))];
        unfold can_write, l_can_write, l_can_read; simpl; [|rewrite Hk]; naive_solver.
Qed.

Lemma releaseForWrite_spec s k r :
  ls_wf s →
  ∃ s', releaseForWrite s k r = Ret s' ∧ lock_step k r s s' ∧ ¬ can_write s' k r ∧
    (can_read s k r → can_read s' k r).
Proof.
  intros Hs. unfold releaseForWrite. destruct (locks s !! k) as [l|] eqn:Hk.
  2: { exists s. split_and!; auto with tapir. unfold can_write. rewrite (get_lock_None _ _ Hk). by intros []. }
  apply get_lock_Some in Hk. pose proof (Hs k) as Hl. rewrite Hk in Hl.
  case_decide as Hr.
  2: { exists s. split_and!; auto with tapir. unfold can_write. rewrite Hk. by intros []. }
  destruct (state l) eqn:Hst.
  1,2: exists s; split_and!; auto with tapir; unfold can_write, l_can_write; rewrite Hk, Hst; naive_solver.
  - pose proof (wf_write _ Hl (or_introl Hst)) as H1.
    assert (holders l ∖ {[r]} = ∅) as Hemp by (rewrite (size1_holder _ r H1 Hr); set_solver).
    eexists. split; [rewrite Hemp, size_empty; done|]. split; [apply lock_step_set; [done| |]|].
    + by apply lock_wf_change; [|simpl|intros []].
    + intros r' Hr'. rewrite Hk. unfold l_can_read, l_can_write; simpl. rewrite Hst.
      pose proof (sole_holder _ r r' H1 Hr). naive_solver.
    + split; [rewrite (proj2 (can_set_eq _ _ _ _ _ _))|rewrite (proj1 (can_set_eq _ _ _ _ _ _))].
      * unfold l_can_write; simpl. naive_solver.
      * unfold can_read, l_can_read. rewrite Hk, Hst. naive_solver.
  - pose proof (wf_write _ Hl (or_intror Hst)) as H1. rewrite H1. simpl.
    eexists. split; [done|]. split; [apply lock_step_set; [done| |]|].
    + apply lock_wf_change; [done| |naive_solver]. split; [done|]. intros He. by rewrite He, size_empty in H1.
    + intros r' Hr'. rewrite Hk. unfold l_can_read, l_can_write; simpl. rewrite Hst.
      pose proof (sole_holder _ r r' H1 Hr). naive_solver.
    + split; [rewrite (proj2 (can_set_eq _ _ _ _ _ _))|rewrite (proj1 (can_set_eq _ _ _ _ _ _))];
        unfold can_read, l_can_write, l_can_read; simpl; [|rewrite Hk]; naive_solver.
Qed.

(** ** Reachable states *)

Inductive ls_op (r : Z) (s : LockServer) : LockServer → Prop :=
| op_lockForRead t k b s' : lockForRead s t k r = Ret (b, s') → ls_op r s s'
| op_lockForWrite t k b s' : lockForWrite s t k r = Ret (b, s') → ls_op r s s'
| op_releaseForRead k : ls_op r s (releaseForRead s k r)
| op_releaseForWrite k s' : releaseForWrite s k r = Ret s' → ls_op r s s'.

Definition ls_reachable (s : LockServer) : Prop :=
  rtc (λ s s', ∃ r, ls_op r s s') new_lockserver s.

Lemma ls_op_step r s s' : ls_wf s → ls_op r s s' → ∃ k, lock_step k r s s'.
Proof.
  intros Hs [t k b s1 H|t k b s1 H|k|k s1 H].
  - exists k. by eapply rq_step, lockForRead_spec.
  - exists k. by eapply rq_step, lockForWrite_spec.
  - exists k. by apply releaseForRead_spec.
  - exists k. destruct (releaseForWrite_spec s k r Hs) as (s2 & H2 & Hstep & _). rewrite H in H2. by injection H2 as ->.
Qed.

Lemma ls_reachable_wf s : ls_reachable s → ls_wf s.
Proof.
  unfold ls_reachable. revert s. apply rtc_ind_r; [apply new_lockserver_wf|].
  intros s s' _ [r Hop] Hs. destruct (ls_op_step r s s' Hs Hop) as [k Hk]. apply Hk.
Qed.

Lemma exclusion s k r r' :
  ls_wf s → can_write s k r → can_read s k r' ∨ can_write s k r' → r = r'.
Proof.
  intros Hs [Hr Hst] Hr'. apply (sole_holder (holders (get_lock s k))); [|done|].
  - by apply (wf_write _ (Hs k)).
  - by destruct Hr' as [[? _]|[? _]].
Qed.

(** Mutual exclusion.  In every state the lock server can reach through
    requests and releases by any clients at any clock readings, a client that
    may write a key is the only one that may read or write it; no operation of
    one client changes a permission of another; and releases never fail. *)
Theorem lockserver_mutual_exclusion s :
  ls_reachable s →
  (∀ k r r', can_write s k r → can_read s k r' ∨ can_write s k r' → r = r') ∧
  (∀ r s', ls_op r s s' → others_keep r s s') ∧
  (∀ k r, ∃ s', releaseForWrite s k r = Ret s' ∧ ¬ can_write s' k r).
Proof.
  intros Hs%ls_reachable_wf. split_and!.
  - intros k r r'. by apply exclusion.
  - intros r s' Hop. destruct (ls_op_step r s s' Hs Hop) as [k Hk]. apply Hk.
  - intros k r. destruct (releaseForWrite_spec s k r Hs) as (s' & ? & _ & ? & _). eauto.
Qed.

Definition demo_locks : LockServer :=
  match lockForWrite new_lockserver (mkTV 1 0, mkTV 1 0) "x" 1 with
  | Ret (_, s) =>
      match lockForWrite s (mkTV 1 5, mkTV 1 6) "x" 2 with
      | Ret (_, s') => s'
      | Panic => s
      end
  | Panic => new_lockserver
  end.

Lemma demo_locks_reachable : ls_reachable demo_locks.
Proof.
  eapply rtc_l; [exists 1; by eapply (op_lockForWrite _ _ (mkTV 1 0, mkTV 1 0) "x")|].
  eapply rtc_l; [exists 2; by eapply (op_lockForWrite _ _ (mkTV 1 5, mkTV 1 6) "x")|].
  apply rtc_refl.
Qed.

Lemma lockserver_mutual_exclusion_witness :
  can_write demo_locks "x" 1 ∧ ∀ r', can_read demo_locks "x" r' ∨ can_write demo_locks "x" r' → 1 = r'.
Proof.
  assert (can_write demo_locks "x" 1) as H1.
  { split; [|left; vm_compute; reflexivity].
    apply (bool_decide_unpack _). vm_compute. exact I. }
  split; [exact H1|]. intros r'.
  apply (lockserver_mutual_exclusion demo_locks demo_locks_reachable). exact H1.
Defined.

(** What a request answers.  A request returns true exactly when its
    client holds the permission afterwards, whatever it had before stays, and
    the locks of other keys do not change. *)
Theorem lock_requests s t k r b s' :
  ls_wf s →
  (lockForRead s t k r = Ret (b, s') →
     (b = true ↔ can_read s' k r) ∧ (can_read s k r → b = true) ∧
     (can_write s k r → can_write s' k r) ∧
     (∀ k', k' ≠ k → get_lock s' k' = get_lock s k')) ∧
  (lockForWrite s t k r = Ret (b, s') →
     (b = true ↔ can_write s' k r) ∧ (can_write s k r → b = true) ∧
     (can_read s k r → can_read s' k r) ∧
     (∀ k', k' ≠ k → get_lock s' k' = get_lock s k')).
Proof.
  intros Hs. split; [intros H%lockForRead_spec|intros H%lockForWrite_spec]; try done.
  - pose proof (rq_read _ _ _ _ _ _ H). pose proof (rq_true _ _ _ _ _ _ H).
    pose proof (rq_false _ _ _ _ _ _ H).
    split; [destruct b; naive_solver|]. split; [destruct b; naive_solver|].
    split; [apply (rq_write _ _ _ _ _ _ H)|apply (step_frame _ _ _ _ (rq_step _ _ _ _ _ _ H))].
  - pose proof (rq_write _ _ _ _ _ _ H). pose proof (rq_true _ _ _ _ _ _ H).
    pose proof (rq_false _ _ _ _ _ _ H).
    split; [destruct b; naive_solver|]. split; [destruct b; naive_solver|].
    split; [apply (rq_read _ _ _ _ _ _ H)|apply (step_frame _ _ _ _ (rq_step _ _ _ _ _ _ H))].
Qed.

Lemma lock_requests_witness :
  ∃ s', lockForRead demo_locks (mkTV 1 7, mkTV 1 8) "x" 1 = Ret (true, s') ∧ can_read s' "x" 1.
Proof.
  destruct (lockForRead demo_locks (mkTV 1 7, mkTV 1 8) "x" 1) as [[b s']|] eqn:H;
    [|vm_compute in H; discriminate].
  assert (b = true) as -> by (vm_compute in H; by injection H).
  exists s'. split; [reflexivity|].
  destruct (lock_requests demo_locks (mkTV 1 7, mkTV 1 8) "x" 1 true s') as [Hr _].
  { apply ls_reachable_wf, demo_locks_reachable. }
  destruct (Hr H) as [Hb _]. apply Hb. reflexivity.
Defined.

(** ** The queue is first come, first served *)

(** [now] is after the time [x] started to wait. *)
Definition later (now : timeval) (x : Waiter) : Prop :=
  tv_sec (waitTime x) < tv_sec now ∨
  tv_sec (waitTime x) = tv_sec now ∧ tv_usec (waitTime x) < tv_usec now.

Lemma checkTimeout_total x now : later now x → ∃ b, checkTimeout x now = Ret b.
Proof.
  intros Hl. unfold checkTimeout. destruct (Z.ltb_spec (tv_sec (waitTime x)) (tv_sec now)); [eauto|].
  destruct Hl as [?|[Hs Hu]]; [lia|]. rewrite Hs, Z.eqb_refl.
  destruct (Z.ltb_spec (tv_usec (waitTime x)) (tv_usec now)); [|lia]. by eexists.
Qed.

Lemma prune_total now q ws :
  queue_ok q ws → (∀ r x, ws !! r = Some x → later now x) → ∃ q' ws', prune now q ws = Ret (q', ws').
Proof.
  revert ws. induction q as [|w q IH]; intros ws Hq Hl; simpl; [eauto|].
  destruct (proj1 (proj2 Hq w)) as [x Hx]; [apply list_elem_of_here|]. rewrite Hx.
  destruct (checkTimeout_total x now) as [[] ->]; [by eapply Hl| |]; simpl; [|eauto].
  apply IH; [by apply queue_ok_pop|]. intros r y [_ Hy]%lookup_delete_Some. eauto.
Qed.

Lemma checkTimeout_Panic x now : ¬ later now x → checkTimeout x now = Panic.
Proof.
  unfold later, checkTimeout. intros Hl.
  destruct (Z.ltb_spec (tv_sec (waitTime x)) (tv_sec now)); [tauto|].
  destruct (Z.ltb_spec (tv_usec (waitTime x)) (tv_usec now)); [|done].
  destruct (Z.eqb_spec (tv_sec now) (tv_sec (waitTime x))); [|done]. destruct Hl. auto.
Qed.

Lemma tryAcquireLock_prune l r w now wt q ws :
  prune now (waitQ l) (waiters l) = Ret (q, ws) → q ≠ [] →
  tryAcquireLock l r w now wt =
    match q with
    | [] => Panic
    | front :: q' =>
        if decide (front = r) then
          match ws !! r with
          | None => Panic
          | Some x =>
              ASSERT! Bool.eqb (w_write x) w;
              Ret (true, mkLock (state l) (holders l) q' (delete r ws))
          end
        else Ret (false, waitForLock (mkLock (state l) (holders l) q ws) r w wt)
    end.
Proof.
  intros Hp Hq. unfold tryAcquireLock. rewrite Hp. simpl. destruct q as [|front q']; [done|].
  destruct (waitQ l); [|done]. simpl in Hp. congruence.
Qed.

(** The queue after a request that found [h :: q] waiting. *)
Definition queue_after (r h : Z) (q : list Z) : list Z :=
  if decide (r = h) then q else if decide (r ∈ q) then h :: q else h :: q ++ [r].

Lemma tryAcquireLock_head l r w now wt h q ws b l' :
  queue_ok (waitQ l) (waiters l) → prune now (waitQ l) (waiters l) = Ret (h :: q, ws) →
  tryAcquireLock l r w now wt = Ret (b, l') →
  (b = true ↔ r = h) ∧ waitQ l' = queue_after r h q.
Proof.
  intros Hok Hp. rewrite (tryAcquireLock_prune _ _ _ _ _ _ _ Hp) by done.
  apply prune_spec in Hp as ((_ & Hin) & _); [|done]. unfold queue_after.
  case_decide as Hh; [subst h|].
  - destruct (ws !! r); [|done]. rewrite ASSERT_bind. intros [_ [= <- <-]].
    by rewrite decide_True by done.
  - intros [= <- <-]. rewrite decide_False by congruence. split; [by split|].
    unfold waitForLock; simpl. specialize (Hin r). rewrite elem_of_cons in Hin.
    destruct (ws !! r) eqn:Hr; case_decide as Hq; simpl; try done.
    + destruct (proj2 Hin) as [?|?]; [by eexists|congruence|done].
    + destruct (proj1 Hin) as [y Hy]; [by right|done].
Qed.

(** First come, first served.  When the lock is free and, after expired
    requests are dropped, [h] is first in the queue, a read or write request is
    granted exactly to [h]; any other requester keeps its place in the queue or
    is put at its end. *)
Theorem lock_queue_fifo s t k r h q ws b s' :
  ls_wf s → state (get_lock s k) = UNLOCKED →
  prune t.1 (waitQ (get_lock s k)) (waiters (get_lock s k)) = Ret (h :: q, ws) →
  lockForRead s t k r = Ret (b, s') ∨ lockForWrite s t k r = Ret (b, s') →
  (b = true ↔ r = h) ∧ waitQ (get_lock s' k) = queue_after r h q.
Proof.
  intros Hs Hst Hp Hop. unfold lockForRead, lockForWrite in Hop. rewrite Hst in Hop.
  pose proof (lock_wf_queue _ (Hs k)) as Hq.
  destruct Hop as [Hop|Hop]; apply bind_Ret_inv in Hop as ([a l] & Ht & Hr); simpl in Hr.
  - pose proof (tryAcquireLock_head _ _ _ _ _ _ _ _ _ _ Hq Hp Ht) as [Ha Hl].
    destruct a; [apply ASSERT_bind in Hr as [_ Hr]|]; injection Hr as <- <-;
      rewrite get_lock_set, decide_True by done; simpl; tauto.
  - pose proof (tryAcquireLock_head _ _ _ _ _ _ _ _ _ _ Hq Hp Ht) as [Ha Hl].
    destruct a; [apply ASSERT_bind in Hr as [_ Hr]|]; injection Hr as <- <-;
      rewrite get_lock_set, decide_True by done; simpl; tauto.
Qed.

(** Client 1 released the lock client 2 waits for. *)
Definition demo_free : LockServer :=
  match releaseForWrite demo_locks "x" 1 with Ret s => s | Panic => demo_locks end.

Lemma demo_free_wf : ls_wf demo_free.
Proof.
  unfold demo_free. pose proof (ls_reachable_wf _ demo_locks_reachable) as Hwf.
  destruct (releaseForWrite_spec demo_locks "x" 1 Hwf) as (s' & -> & Hstep & _). apply Hstep.
Qed.

Lemma lock_queue_fifo_witness :
  ∃ s', lockForRead demo_free (mkTV 1 9, mkTV 1 9) "x" 3 = Ret (false, s') ∧
    waitQ (get_lock s' "x") = [2; 3].
Proof.
  destruct (lockForRead demo_free (mkTV 1 9, mkTV 1 9) "x" 3) as [[b s']|] eqn:H;
    [|vm_compute in H; discriminate].
  assert (b = false) as -> by (vm_compute in H; by injection H).
  exists s'. split; [reflexivity|].
  apply (lock_queue_fifo demo_free (mkTV 1 9, mkTV 1 9) "x" 3 2 []
           {[2 := mkWaiter true (mkTV 1 6)]} false s').
  - apply demo_free_wf.
  - vm_compute. reflexivity.
  - vm_compute. reflexivity.
  - left. exact H.
Defined.

(** ** When a request answers at all *)

Lemma tryAcquireLock_total l r w now wt :
  queue_ok (waitQ l) (waiters l) →
  (∀ r x, waiters l !! r = Some x → later now x) →
  (∀ x, waiters l !! r = Some x → w_write x = w) →
  ∃ b l', tryAcquireLock l r w now wt = Ret (b, l') .
Proof.
  intros Hq Hl Hw. destruct (prune_total now _ _ Hq Hl) as (q & ws & Hp).
  destruct q as [|h q].
  { unfold tryAcquireLock. rewrite Hp. simpl. destruct (waitQ l); eauto. }
  rewrite (tryAcquireLock_prune _ _ _ _ _ _ _ Hp) by done.
  apply prune_spec in Hp as ((_ & Hin) & _ & Hsame); [|done].
  case_decide as Hh; [subst h|eauto].
  destruct (proj1 (Hin r)) as [x Hx]; [apply list_elem_of_here|]. rewrite Hx.
  rewrite Hsame in Hx by apply list_elem_of_here. rewrite (Hw x Hx), eqb_reflx. simpl. eauto.
Qed.

Lemma isWriteNext_total l now :
  queue_ok (waitQ l) (waiters l) → (∀ r x, waiters l !! r = Some x → later now x) →
  ∃ b l', isWriteNext l now = Ret (b, l').
Proof.
  intros Hq Hl. destruct (prune_total now _ _ Hq Hl) as (q & ws & Hp).
  unfold isWriteNext. rewrite Hp. simpl. apply prune_spec in Hp as ((_ & Hin) & _); [|done].
  destruct (waitQ l); [eauto|]. destruct q as [|h q]; [eauto|].
  destruct (proj1 (Hin h)) as [x ->]; [apply list_elem_of_here|]. eauto.
Qed.

(** Requests answer.  If the clock is past the time every waiter of the
    lock joined the queue, and the requester is not waiting for the other kind
    of lock, then a request returns. *)
Theorem lock_requests_total s t k r :
  ls_wf s → (∀ r' x, waiters (get_lock s k) !! r' = Some x → later t.1 x) →
  ((∀ x, waiters (get_lock s k) !! r = Some x → w_write x = false) →
     ∃ b s', lockForRead s t k r = Ret (b, s')) ∧
  ((∀ x, waiters (get_lock s k) !! r = Some x → w_write x = true) →
     ∃ b s', lockForWrite s t k r = Ret (b, s')).
Proof.
  intros Hs Hl. pose proof (lock_wf_queue _ (Hs k)) as Hq.
  pose proof (wf_write _ (Hs k)) as Hwr. pose proof (wf_free _ (Hs k)) as Hfree.
  assert (∀ w b l, state (get_lock s k) = UNLOCKED →
            tryAcquireLock (get_lock s k) r w t.1 t.2 = Ret (b, l) → size (holders l) = 0%nat) as H0.
  { intros w b l Hu (_ & -> & _)%tryAcquireLock_requeued; [|done].
    apply Hfree in Hu. by rewrite Hu, size_empty. }
  split; intros Hw; unfold lockForRead, lockForWrite;
    destruct (state (get_lock s k)) eqn:Hst;
    rewrite ?Hwr by auto; simpl; try (case_decide; eauto; fail).
  - destruct (tryAcquireLock_total (get_lock s k) r false t.1 t.2) as (b & l & Ht); [done..|].
    rewrite Ht. simpl. rewrite (H0 _ _ _ eq_refl Ht). destruct b; simpl; eauto.
  - case_decide; [eauto|]. destruct (isWriteNext_total (get_lock s k) t.1) as (b & l & ->); [done..|].
    simpl. destruct b; eauto.
  - destruct (tryAcquireLock_total (get_lock s k) r true t.1 t.2) as (b & l & Ht); [done..|].
    rewrite Ht. simpl. rewrite (H0 _ _ _ eq_refl Ht). destruct b; simpl; eauto.
  - case_match; eauto.
Qed.

Lemma lock_requests_total_witness :
  ∃ b s', lockForWrite demo_locks (mkTV 1 7, mkTV 1 8) "x" 3 = Ret (b, s').
Proof.
  apply (lock_requests_total demo_locks (mkTV 1 7, mkTV 1 8) "x" 3).
  - apply ls_reachable_wf, demo_locks_reachable.
  - intros r x. replace (waiters (get_lock demo_locks "x"))
      with ({[2 := mkWaiter true (mkTV 1 6)]} : gmap Z Waiter) by (vm_compute; reflexivity).
    rewrite lookup_singleton_Some. intros [_ <-]. right. simpl. lia.
  - intros x. replace (waiters (get_lock demo_locks "x"))
      with ({[2 := mkWaiter true (mkTV 1 6)]} : gmap Z Waiter) by (vm_compute; reflexivity).
    rewrite lookup_singleton_Some. intros [? _]. discriminate.
Defined.

(** Requests that crash the server.  On a free lock, a client whose write
    request is first in the queue crashes the server by asking to read; and a
    request in the microsecond in which the first waiter joined the queue
    crashes it too. *)
Theorem lock_requests_crash s t k r h q ws x :
  state (get_lock s k) = UNLOCKED →
  (prune t.1 (waitQ (get_lock s k)) (waiters (get_lock s k)) = Ret (r :: q, ws) →
   ws !! r = Some x → w_write x = true → lockForRead s t k r = Panic) ∧
  (waitQ (get_lock s k) = h :: q → waiters (get_lock s k) !! h = Some x →
   waitTime x = t.1 → lockForRead s t k r = Panic ∧ lockForWrite s t k r = Panic).
Proof.
  intros Hst. unfold lockForRead, lockForWrite. rewrite Hst. split.
  - intros Hp Hx Hw. rewrite (tryAcquireLock_prune _ _ _ _ _ _ _ Hp) by done.
    by rewrite decide_True, Hx, Hw by done.
  - intros Hq Hx Ht. assert (∀ w, tryAcquireLock (get_lock s k) r w t.1 t.2 = Panic) as Hc.
    { intros w. unfold tryAcquireLock. rewrite Hq. simpl. rewrite Hx.
      rewrite checkTimeout_Panic; [done|]. unfold later. rewrite Ht. lia. }
    by rewrite !Hc.
Qed.

Lemma lock_requests_crash_witness :
  lockForRead demo_free (mkTV 1 7, mkTV 1 8) "x" 2 = Panic ∧
  lockForWrite demo_free (mkTV 1 6, mkTV 1 6) "x" 2 = Panic.
Proof.
  split.
  - refine (proj1 (lock_requests_crash demo_free (mkTV 1 7, mkTV 1 8) "x" 2 2 []
      {[2 := mkWaiter true (mkTV 1 6)]} (mkWaiter true (mkTV 1 6)) _) _ _ _);
      vm_compute; reflexivity.
  - refine (proj2 (proj2 (lock_requests_crash demo_free (mkTV 1 6, mkTV 1 6) "x" 2 2 []
      ∅ (mkWaiter true (mkTV 1 6)) _) _ _ _)); vm_compute; reflexivity.
Defined.
