(* ===== verification/KVStore.v ===== *)
(** * The single-version key-value store (store/common/backend/kvstore.{h,cc})

    A hash table from keys to the list of values put so far, the last one
    being current. *)

From S2P Require Import Prelude.

Record KVStore := mkKV { kvs : gmap string (list string) }.

Notation new_kvstore := (mkKV ∅) (only parsing).

(** [store[key]] *)
Definition values (s : KVStore) (key : string) : list string := default [] (kvs s !! key).

Definition kv_get (s : KVStore) (key : string) : option string :=
  match kvs s !! key with
  | None | Some [] => None
  | Some _ => last (values s key)
  end.

Definition kv_put (s : KVStore) (key value : string) : KVStore :=
  mkKV (<[key := values s key ++ [value]]> (kvs s)).

(** [remove] drops the last value; its out-parameter is never assigned. *)
Definition kv_remove (s : KVStore) (key : string) : bool * KVStore :=
  match kvs s !! key with
  | None | Some [] => (false, s)
  | Some _ => (true, mkKV (<[key := take (length (values s key) - 1) (values s key)]> (kvs s)))
  end.

Lemma kv_get_last s k : kv_get s k = last (values s k).
Proof. unfold kv_get, values. by destruct (kvs s !! k) as [[]|]. Qed.

Lemma values_put s k v k' :
  values (kv_put s k v) k' = if decide (k = k') then values s k ++ [v] else values s k'.
Proof. unfold values at 1, kv_put; simpl. rewrite lookup_insert. by case_decide. Qed.

Lemma kv_get_put s k v k' :
  kv_get (kv_put s k v) k' = if decide (k = k') then Some v else kv_get s k'.
Proof. rewrite !kv_get_last, values_put. case_decide; [apply last_snoc|done]. Qed.

(** Putting the writes of a transaction. *)
Lemma foldl_kv_put (l : list (string * string)) s k :
  NoDup l.*1 →
  kv_get (foldl (λ s (w : string * string), kv_put s w.1 w.2) s l) k =
  match (list_to_map l : gmap string string) !! k with Some v => Some v | None => kv_get s k end.
Proof.
  revert s. induction l as [|[k0 v0] l IH]; intros s Hnd; simpl; [by rewrite lookup_empty|].
  apply NoDup_cons in Hnd as [Hk0 Hnd]. rewrite IH by done. rewrite lookup_insert, kv_get_put.
  case_decide as Hk; [subst|done]. by rewrite not_elem_of_list_to_map_1.
Qed.

(** The store is a stack of versions per key: a put is seen by the next
    get of that key only, and removing it uncovers what the key had before. *)
Theorem kv_put_get_remove s k v :
  (∀ k', kv_get (kv_put s k v) k' = if decide (k = k') then Some v else kv_get s k') ∧
  ∃ s', kv_remove (kv_put s k v) k = (true, s') ∧ ∀ k', kv_get s' k' = kv_get s k'.
Proof.
  split; [intros k'; apply kv_get_put|].
  unfold kv_remove. rewrite values_put, decide_True by done. simpl. rewrite lookup_insert_eq.
  destruct (values s k ++ [v]) eqn:He; [by destruct (values s k)|]. rewrite <- He.
  eexists. split; [done|]. intros k'. rewrite !kv_get_last. unfold values at 1; simpl.
  rewrite insert_insert_eq, length_app. simpl. rewrite take_app_le by lia.
  replace (length (values s k) + 1 - 1)%nat with (length (values s k)) by lia.
  rewrite lookup_insert. case_decide; [subst; simpl; by rewrite take_ge by lia|done].
Qed.
