(* ===== verification/TrueTime.v ===== *)
(** * Clocks and sharding (store/common/truetime.{h,cc},
    store/common/frontend/client.h)

    The simulated TrueTime service turns a clock reading and a configured skew
    into a 64-bit timestamp; [key_to_shard] spreads keys over shards, and the
    servers load the keys of their shard with the same hash. *)

From Stdlib Require Import Ascii.
From S2P Require Import Prelude.

Record TrueTime := mkTT { simError : Z; simSkew : Z }.

Notation new_truetime := (mkTT 0 0) (only parsing).

(** [TrueTime(skew, errorBound)]; [r] is what [rand()] returned. *)
Definition truetime_with (skew errorBound r : Z) : TrueTime :=
  if (skew =? 0)%Z then mkTT errorBound 0
  else mkTT errorBound (u64 (r mod skew - skew / 2)).

(** [GetTime]; [now] is what [gettimeofday] returned.  The addition of the
    unsigned skew to the signed [tv_usec] wraps at 64 bits. *)
Definition GetTime (t : TrueTime) (now : timeval) : Z :=
  let usec := i64 (tv_usec now + simSkew t) in
  let '(sec, usec) :=
    if (999999 <? usec)%Z then (tv_sec now + 1, usec - 1000000)
    else if (usec <? 0)%Z then (tv_sec now - 1, usec + 1000000)
    else (tv_sec now, usec) in
  Z.lor (u64 (Z.shiftl (u64 sec) 32)) (u64 usec).

Lemma GetTime_nonneg t now : 0 ≤ GetTime t now.
Proof.
  unfold GetTime. case_match. apply Z.lor_nonneg. split; apply u64_range.
Qed.

Definition GetTimeAndError (t : TrueTime) (now : timeval) : Z * Z :=
  (GetTime t now, simError t).

(** The skew as the signed number of microseconds it stands for. *)
Definition skew_of (t : TrueTime) : Z := i64 (simSkew t).

Definition micros (now : timeval) : Z := tv_sec now * 1000000 + tv_usec now.

(** The time a timestamp encodes. *)
Definition time_of (ts : Z) : Z := Z.shiftr ts 32 * 1000000 + ts mod 2 ^ 32.

Definition valid_now (now : timeval) : Prop :=
  1 ≤ tv_sec now < 2 ^ 32 - 1 ∧ 0 ≤ tv_usec now < 1000000.

Lemma i64_add_i64 a b : i64 (a + i64 b) = i64 (a + b).
Proof.
  unfold i64. f_equal.
  replace (a + ((b + 2 ^ 63) mod 2 ^ 64 - 2 ^ 63) + 2 ^ 63)
    with ((b + 2 ^ 63) mod 2 ^ 64 + a) by lia.
  rewrite Zplus_mod_idemp_l. f_equal. lia.
Qed.

(** Packing seconds and microseconds. *)
Lemma pack_spec s u :
  0 ≤ s < 2 ^ 32 → 0 ≤ u < 2 ^ 32 →
  Z.lor (u64 (Z.shiftl (u64 s) 32)) (u64 u) = s * 2 ^ 32 + u.
Proof.
  intros Hs Hu. rewrite (u64_id s), (u64_id u) by (unfold is_u64; lia).
  rewrite Z.shiftl_mul_pow2 by lia. rewrite u64_id by (unfold is_u64; lia).
  assert (Z.land (s * 2 ^ 32) u = 0) as Hland.
  { apply Z.bits_inj'. intros n Hn. rewrite Z.land_spec, Z.bits_0.
    destruct (Z.ltb_spec n 32); [by rewrite Z.mul_pow2_bits_low by lia|].
    rewrite andb_false_iff. right. destruct (decide (u = 0)) as [->|]; [apply Z.bits_0|].
    apply Z.bits_above_log2; [lia|]. assert (Z.log2 u < 32); [|lia]. apply Z.log2_lt_pow2; lia. }
  rewrite <- Z.lxor_lor by done. symmetry. by apply Z.add_nocarry_lxor.
Qed.

Lemma time_of_pack s u : 0 ≤ u < 2 ^ 32 → time_of (s * 2 ^ 32 + u) = s * 1000000 + u.
Proof.
  intros Hu. unfold time_of. rewrite Z.shiftr_div_pow2 by lia.
  rewrite Z.div_add_l, Z.div_small by lia. rewrite (Z.add_comm (s * 2 ^ 32)), Z.mod_add, Z.mod_small by lia. lia.
Qed.

Lemma usec_skewed t now :
  valid_now now → -1000000 ≤ skew_of t ≤ 1000000 →
  i64 (tv_usec now + simSkew t) = tv_usec now + skew_of t.
Proof.
  intros Hn Hs. rewrite <- i64_add_i64. apply i64_id. unfold skew_of, valid_now in *. lia.
Qed.

(** The seconds and microseconds [GetTime] packs. *)
Lemma GetTime_pack t now :
  valid_now now → -1000000 ≤ skew_of t ≤ 1000000 →
  ∃ s u, GetTime t now = s * 2 ^ 32 + u ∧ 0 ≤ s < 2 ^ 32 ∧ 0 ≤ u < 1000000 ∧
         s * 1000000 + u = micros now + skew_of t.
Proof.
  intros Hn Hs. unfold GetTime. rewrite (usec_skewed t now Hn Hs). unfold micros.
  destruct Hn as [Hsec Hus]. cbv zeta.
  destruct (Z.ltb_spec 999999 (tv_usec now + skew_of t)); [|
    destruct (Z.ltb_spec (tv_usec now + skew_of t) 0)]; rewrite pack_spec by lia;
    do 2 eexists; (split; [reflexivity|lia]).
Qed.

(** Timestamps.  With a skew of at most one second the timestamp of
    [GetTime] encodes exactly the skewed clock, in normal form, and is strictly
    increasing in the clock. *)
Theorem GetTime_clock t :
  -1000000 ≤ skew_of t ≤ 1000000 →
  (∀ now, valid_now now →
     time_of (GetTime t now) = micros now + skew_of t ∧ GetTime t now mod 2 ^ 32 < 1000000 ∧
     is_u64 (GetTime t now)) ∧
  (∀ now1 now2, valid_now now1 → valid_now now2 → micros now1 < micros now2 →
     GetTime t now1 < GetTime t now2).
Proof.
  intros Hs. split.
  - intros now Hn. destruct (GetTime_pack t now Hn Hs) as (s & u & -> & ? & ? & <-).
    rewrite time_of_pack by lia. split; [done|].
    rewrite (Z.add_comm (s * 2 ^ 32)), Z.mod_add, Z.mod_small by lia. unfold is_u64. lia.
  - intros now1 now2 H1 H2 Hlt.
    destruct (GetTime_pack t now1 H1 Hs) as (s1 & u1 & -> & ? & ? & ?).
    destruct (GetTime_pack t now2 H2 Hs) as (s2 & u2 & -> & ? & ? & ?). nia.
Qed.

Lemma GetTime_clock_witness :
  time_of (GetTime (truetime_with 1000 0 0) (mkTV 10 100)) = 9999600.
Proof.
  destruct (GetTime_clock (truetime_with 1000 0 0)) as [H _].
  { vm_compute. split; discriminate. }
  destruct (H (mkTV 10 100)) as [-> _]; [unfold valid_now; simpl; lia|]. vm_compute. reflexivity.
Defined.

(** ** Sharding *)

(** [char] is signed, so the conversion [(uint64_t)str[i]] sign-extends. *)
Fixpoint hash_loop (hash : Z) (key : string) : Z :=
  match key with
  | EmptyString => hash
  | String c key' =>
      let b := Z.of_nat (nat_of_ascii c) in
      hash_loop (u64 (u64 (u64 (Z.shiftl hash 5) + hash) + u64 (if (b <? 128)%Z then b else b - 256))) key'
  end.

Definition key_to_shard (key : string) (nshards : Z) : Z :=
  hash_loop 5381 key mod nshards.

(** The loop of the servers' [main] over the lines of the key file. *)
Definition load_keys {S} (load : S → string → S) (maxShard myShard : Z)
    (s : S) (lines : list string) : S :=
  foldl (λ s key,
    let hash := hash_loop 5381 key in
    if (hash mod maxShard =? myShard)%Z then load s key else s) s lines.

Lemma load_keys_filter {S} (load : S → string → S) maxShard myShard s lines :
  load_keys load maxShard myShard s lines =
  foldl load s (filter (λ key, key_to_shard key maxShard = myShard) lines).
Proof.
  revert s. induction lines as [|key lines IH]; intros s; [done|].
  change (load_keys load maxShard myShard
    (if (key_to_shard key maxShard =? myShard)%Z then load s key else s) lines =
    foldl load s (filter (λ key, key_to_shard key maxShard = myShard) (key :: lines))).
  rewrite IH, filter_cons. destruct (Z.eqb_spec (key_to_shard key maxShard) myShard).
  - by rewrite decide_True.
  - by rewrite decide_False.
Qed.

(** Sharding.  Clients send a key to a shard that exists, and of all
    shards exactly that one loaded the key from the key file. *)
Theorem shard_of_key {S} (load : S → string → S) (s : S) lines key nshards :
  0 < nshards → key ∈ lines →
  0 ≤ key_to_shard key nshards < nshards ∧
  ∀ i, ∃ loaded, load_keys load nshards i s lines = foldl load s loaded ∧
       (key ∈ loaded ↔ i = key_to_shard key nshards).
Proof.
  intros Hn Hkey. split; [by apply Z.mod_pos_bound|]. intros i. eexists.
  split; [apply load_keys_filter|]. rewrite list_elem_of_filter. naive_solver.
Qed.

Lemma shard_of_key_witness : 0 ≤ key_to_shard "user1" 4 < 4.
Proof.
  apply (shard_of_key (λ (n : nat) (_ : string), S n) 0%nat ["user1"]); [lia|].
  apply list_elem_of_here.
Defined.
