(* ===== verification/TxnStore.v ===== *)
(** * The interface of transactional stores (store/common/backend/txnstore.{h,cc})

    The virtual methods of [TxnStore] as a class, the base class's bodies
    (every one panics), and the laws the strong stores promise to their
    server: which transactions are prepared, that those do not conflict, and
    when a commit can fail. *)

From S2P Require Import Prelude Timestamp Transaction.

(** The clock readings of the lock requests an operation makes: by kind
    (write or not) and key. *)
Definition clock : Type := bool → string → timeval * timeval.

Notation reply := (Z * option (Timestamp * string))%type.

Class TxnStore (S : Type) := {
  txn_Get : S → clock → Z → string → outcome (reply * S);
  txn_Get_at : S → clock → Z → string → Timestamp → outcome (reply * S);
  txn_Put : S → Z → string → string → outcome (Z * S);
  txn_Prepare : S → clock → Z → Transaction → outcome (Z * S);
  txn_Prepare_at : S → Z → Transaction → Timestamp → Timestamp → outcome ((Z * Timestamp) * S);
  txn_Commit : S → Z → Z → outcome S;
  txn_Abort : S → Z → Transaction → outcome S;
  txn_Load : S → string → string → Timestamp → outcome S
}.

(** The bodies of the base class. *)
Definition base_store {S : Type} : TxnStore S := {|
  txn_Get := λ _ _ _ _, Panic;
  txn_Get_at := λ _ _ _ _ _, Panic;
  txn_Put := λ _ _ _ _, Panic;
  txn_Prepare := λ _ _ _ _, Panic;
  txn_Prepare_at := λ _ _ _ _ _, Panic;
  txn_Commit := λ _ _ _, Panic;
  txn_Abort := λ _ _ _, Panic;
  txn_Load := λ _ _ _ _, Panic
|}.

(** ** What the strong stores promise *)

(** Transaction [t] writes a key that [u] writes, or reads although the key
    is in the store. *)
Definition conflict (present : string → Prop) (t u : Transaction) : Prop :=
  ∃ k, is_Some (writeSet t !! k) ∧
       (is_Some (writeSet u !! k) ∨ is_Some (readSet u !! k) ∧ present k).

Class StrongStore (S : Type) `{TxnStore S} := {
  store_ok : S → Prop;
  prepared_txns : S → gmap Z Transaction;
  present : S → string → Prop;
  (* prepared transactions do not conflict *)
  ok_disjoint s i j t u :
    store_ok s → prepared_txns s !! i = Some t → prepared_txns s !! j = Some u → i ≠ j →
    ¬ conflict (present s) t u;
  get_ok s c id key r s' :
    store_ok s → txn_Get s c id key = Ret (r, s') →
    store_ok s' ∧ prepared_txns s' = prepared_txns s;
  get_at_ok s c id key t r s' :
    store_ok s → txn_Get_at s c id key t = Ret (r, s') →
    store_ok s' ∧ prepared_txns s' = prepared_txns s;
  (* a vote is OK exactly when the transaction is prepared afterwards *)
  prepare_ok s c id txn r s' :
    store_ok s → txn_Prepare s c id txn = Ret (r, s') →
    store_ok s' ∧
    prepared_txns s' = (if decide (r = REPLY_OK ∧ prepared_txns s !! id = None)
                        then <[id := txn]> (prepared_txns s) else prepared_txns s) ∧
    (is_Some (prepared_txns s !! id) → r = REPLY_OK);
  (* a commit fails exactly when the transaction is not prepared *)
  commit_ok s id ts :
    store_ok s → is_Some (prepared_txns s !! id) →
    ∃ s', txn_Commit s id ts = Ret s' ∧ store_ok s' ∧
          prepared_txns s' = delete id (prepared_txns s);
  commit_fails s id ts :
    prepared_txns s !! id = None → txn_Commit s id ts = Panic;
  abort_ok s id txn :
    store_ok s →
    ∃ s', txn_Abort s id txn = Ret s' ∧ store_ok s' ∧
          prepared_txns s' = delete id (prepared_txns s)
}.
