(* ===== verification/OccStore.v ===== *)
(** * The optimistic store of strongstore (store/strongstore/occstore.{h,cc})

    Validation against the latest versions and the transactions prepared at
    the same replica; the commit timestamp comes from the coordinator. *)

From S2P Require Import Prelude Timestamp TsSet Transaction VersionStore Serial TxnStore.

Record OCCStore := mkOCC {
  o_store : VersionedKVStore;
  o_prepared : gmap Z Transaction
}.

Notation new_occstore := (mkOCC empty_store ∅) (only parsing).

Definition occ_Get (s : OCCStore) (id : Z) (key : string) : reply :=
  match get (o_store s) key with
  | Some v => (REPLY_OK, Some v)
  | None => (REPLY_FAIL, None)
  end.

Definition occ_Get_at (s : OCCStore) (id : Z) (key : string) (t : Timestamp) : reply :=
  match get_at (o_store s) key t with
  | Some v => (REPLY_OK, Some v)
  | None => (REPLY_FAIL, None)
  end.

Definition occ_Abort (s : OCCStore) (id : Z) (txn : Transaction) : OCCStore :=
  mkOCC (o_store s) (delete id (o_prepared s)).

Definition occ_Load (s : OCCStore) (key value : string) (t : Timestamp) : OCCStore :=
  mkOCC (put (o_store s) key value t) (o_prepared s).

Section occ.
Context `{IO : IterOrder}.

Definition getPreparedWrites (s : OCCStore) : gset string :=
  foldl (λ writes t,
    foldl (λ writes w, {[w.1]} ∪ writes) writes (umap_iter (writeSet t.2)))
    ∅ (omap_iter Z.le (o_prepared s)).

Definition getPreparedReadWrites (s : OCCStore) : gset string :=
  foldl (λ readwrites t,
    foldl (λ readwrites r, {[r.1]} ∪ readwrites)
      (foldl (λ readwrites w, {[w.1]} ∪ readwrites) readwrites (umap_iter (writeSet t.2)))
      (umap_iter (readSet t.2)))
    ∅ (omap_iter Z.le (o_prepared s)).

(** The body of the read loop: [Some r] returns [r]. *)
Definition occ_check_read (s : OCCStore) (pWrites : gset string)
    (read : string * Timestamp) : option Z :=
  match get (o_store s) read.1 with
  | None => None
  | Some cur =>
      if ts_gt cur.1 read.2 then Some REPLY_FAIL
      else if decide (read.1 ∈ pWrites) then Some REPLY_FAIL
      else None
  end.

Definition occ_check_write (pRW : gset string) (write : string * string) : option Z :=
  if decide (write.1 ∈ pRW) then Some REPLY_FAIL else None.

Definition occ_Prepare (s : OCCStore) (id : Z) (txn : Transaction) : Z * OCCStore :=
  match o_prepared s !! id with
  | Some _ => (REPLY_OK, s)
  | None =>
      let pWrites := getPreparedWrites s in
      let pRW := getPreparedReadWrites s in
      match for_first (occ_check_read s pWrites) (umap_iter (readSet txn)) with
      | Some r => (r, occ_Abort s id empty_txn)
      | None =>
          match for_first (occ_check_write pRW) (umap_iter (writeSet txn)) with
          | Some r => (r, occ_Abort s id empty_txn)
          | None => (REPLY_OK, mkOCC (o_store s) (<[id := txn]> (o_prepared s)))
          end
      end
  end.

Definition occ_Commit (s : OCCStore) (id timestamp : Z) : outcome OCCStore :=
  match o_prepared s !! id with
  | None => Panic
  | Some txn =>
      Ret (mkOCC
        (foldl (λ x w, put x w.1 w.2 (ts_of timestamp)) (o_store s) (umap_iter (writeSet txn)))
        (delete id (o_prepared s)))
  end.

#[global] Instance occ_txnstore : TxnStore OCCStore := {
  txn_Get s _ id key := Ret (occ_Get s id key, s);
  txn_Get_at s _ id key t := Ret (occ_Get_at s id key t, s);
  txn_Put := @txn_Put _ base_store;
  txn_Prepare s _ id txn := Ret (occ_Prepare s id txn);
  txn_Prepare_at := @txn_Prepare_at _ base_store;
  txn_Commit s id timestamp := occ_Commit s id timestamp;
  txn_Abort s id txn := Ret (occ_Abort s id txn);
  txn_Load s key value t := Ret (occ_Load s key value t)
}.

End occ.

(** ** The prepared keys *)

Section prepared_keys.
Context `{IO : IterOrder}.

Lemma foldl_keys {V} (l : list (string * V)) (X : gset string) k :
  k ∈ foldl (λ X p, {[p.1]} ∪ X) X l ↔ k ∈ X ∨ k ∈ l.*1.
Proof.
  revert X. induction l as [|[k0 v0] l IH]; intros X; simpl; [set_solver|].
  rewrite IH, elem_of_cons. set_solver.
Qed.

Lemma getPreparedWrites_spec s k :
  k ∈ getPreparedWrites s ↔
  ∃ id t, o_prepared s !! id = Some t ∧ is_Some (writeSet t !! k).
Proof.
  unfold getPreparedWrites. setoid_rewrite <- (elem_of_omap_iter Z.le).
  assert (∀ (l : list (Z * Transaction)) (X : gset string),
    k ∈ foldl (λ writes t, foldl (λ writes w, {[w.1]} ∪ writes) writes (umap_iter (writeSet t.2))) X l ↔
    k ∈ X ∨ ∃ id t, (id, t) ∈ l ∧ is_Some (writeSet t !! k)) as Hgen.
  { induction l as [|[i t] l IH]; intros X; simpl.
    - setoid_rewrite elem_of_nil. naive_solver.
    - rewrite IH, foldl_keys, elem_of_umap_keys. setoid_rewrite elem_of_cons. naive_solver. }
  rewrite Hgen. set_solver.
Qed.

Lemma getPreparedReadWrites_spec s k :
  k ∈ getPreparedReadWrites s ↔
  ∃ id t, o_prepared s !! id = Some t ∧ (is_Some (writeSet t !! k) ∨ is_Some (readSet t !! k)).
Proof.
  unfold getPreparedReadWrites. setoid_rewrite <- (elem_of_omap_iter Z.le).
  assert (∀ (l : list (Z * Transaction)) (X : gset string),
    k ∈ foldl (λ rw t,
      foldl (λ rw r, {[r.1]} ∪ rw)
        (foldl (λ rw w, {[w.1]} ∪ rw) rw (umap_iter (writeSet t.2))) (umap_iter (readSet t.2))) X l ↔
    k ∈ X ∨ ∃ id t, (id, t) ∈ l ∧ (is_Some (writeSet t !! k) ∨ is_Some (readSet t !! k))) as Hgen.
  { induction l as [|[i t] l IH]; intros X; simpl.
    - setoid_rewrite elem_of_nil. naive_solver.
    - rewrite IH, !foldl_keys, !elem_of_umap_keys. setoid_rewrite elem_of_cons. naive_solver. }
  rewrite Hgen. set_solver.
Qed.

End prepared_keys.

(** ** Conflict freedom *)

Definition occ_present (s : OCCStore) (k : string) : Prop :=
  ∃ w v, has_version (o_store s) k w v.

Record occ_ok (s : OCCStore) : Prop := {
  occ_wf : vs_wf (o_store s);
  occ_disjoint i j t u :
    o_prepared s !! i = Some t → o_prepared s !! j = Some u → i ≠ j →
    ¬ conflict (occ_present s) t u
}.

Section occ_ops.
Context `{IO : IterOrder}.

Lemma get_present x k : vs_wf x → get x k = None → ∀ w v, ¬ has_version x k w v.
Proof. intros _ Hg%get_None w v. by apply versions_nil_no_version. Qed.

(** The shape of a [Prepare] of a transaction that is not prepared. *)
Lemma occ_Prepare_cases s id txn :
  o_prepared s !! id = None →
  (occ_Prepare s id txn = (REPLY_FAIL, s)) ∨
  (occ_Prepare s id txn = (REPLY_OK, mkOCC (o_store s) (<[id := txn]> (o_prepared s))) ∧
   (∀ k w, readSet txn !! k = Some w → ∀ cur, get (o_store s) k = Some cur →
      ts_gt cur.1 w = false ∧ k ∉ getPreparedWrites s) ∧
   (∀ k v, writeSet txn !! k = Some v → k ∉ getPreparedReadWrites s)).
Proof.
  intros Hid. unfold occ_Prepare. rewrite Hid.
  assert (occ_Abort s id empty_txn = s) as ->.
  { unfold occ_Abort. rewrite delete_id by done. by destruct s. }
  destruct (for_first (occ_check_read _ _) _) as [r|] eqn:Hr.
  { left. apply for_first_Some in Hr as (x & _ & Hx). unfold occ_check_read in Hx.
    repeat case_match; simplify_eq; done. }
  destruct (for_first (occ_check_write _) _) as [r|] eqn:Hw.
  { left. apply for_first_Some in Hw as (x & _ & Hx). unfold occ_check_write in Hx.
    case_match; simplify_eq; done. }
  right. split; [done|]. rewrite for_first_None in Hr. rewrite for_first_None in Hw. split.
  - intros k w Hk cur Hcur. specialize (Hr (k, w) (proj2 (elem_of_umap_iter _ _ _) Hk)).
    unfold occ_check_read in Hr; simpl in Hr. rewrite Hcur in Hr.
    destruct (ts_gt cur.1 w); [done|]. split; [done|]. by case_decide.
  - intros k v Hk. specialize (Hw (k, v) (proj2 (elem_of_umap_iter _ _ _) Hk)).
    unfold occ_check_write in Hw; simpl in Hw. by case_decide.
Qed.

Lemma occ_Prepare_ok s id txn r s' :
  occ_ok s → occ_Prepare s id txn = (r, s') → occ_ok s'.
Proof.
  intros Hs Hp. destruct (o_prepared s !! id) as [t0|] eqn:Hid.
  { unfold occ_Prepare in Hp. rewrite Hid in Hp. by simplify_eq. }
  destruct (occ_Prepare_cases s id txn Hid) as [Heq|(Heq & Hrd & Hwr)]; rewrite Heq in Hp;
    simplify_eq; [done|].
  split; [apply Hs|]. simpl. intros i j t u.
  rewrite !lookup_insert_Some. intros [[<- <-]|[Hi Ht]] [[<- <-]|[Hj Hu]] Hij (k & [v Hv] & Hc); try done.
  - apply (Hwr k v Hv), getPreparedReadWrites_spec. exists j, u. naive_solver.
  - destruct Hc as [[v' Hv']|([w Hw] & (w' & v' & Hpres))].
    + apply (Hwr k v' Hv'), getPreparedReadWrites_spec. exists i, t. split; [done|]. left. by eexists.
    + destruct (get (o_store s) k) as [cur|] eqn:Hg.
      * apply (Hrd k w Hw cur Hg), getPreparedWrites_spec. exists i, t. split; [done|]. by eexists.
      * by apply (get_present _ _ (occ_wf _ Hs) Hg w' v').
  - apply (occ_disjoint _ Hs i j t u); [done..|]. exists k. split; [by eexists|]. naive_solver.
Qed.

Lemma occ_Commit_ok s id ts txn :
  occ_ok s → o_prepared s !! id = Some txn →
  ∃ s', occ_Commit s id ts = Ret s' ∧ occ_ok s' ∧ o_prepared s' = delete id (o_prepared s) ∧
    ∀ k w u, has_version (o_store s') k w u ↔
      has_version (o_store s) k w u ∨
      (w = ts_of ts ∧ writeSet txn !! k = Some u ∧ ∀ v, ¬ has_version (o_store s) k (ts_of ts) v).
Proof.
  intros Hs Hid. unfold occ_Commit. rewrite Hid. eexists. split; [done|]. simpl.
  assert (∀ k w u, has_version (foldl (λ x w, put x w.1 w.2 (ts_of ts)) (o_store s)
      (umap_iter (writeSet txn))) k w u ↔ has_version (o_store s) k w u ∨
      (w = ts_of ts ∧ writeSet txn !! k = Some u ∧ ∀ v, ¬ has_version (o_store s) k (ts_of ts) v))
    as Hv.
  { intros k w u. rewrite foldl_put_versions by (apply Hs || apply umap_iter_NoDup).
    by rewrite elem_of_umap_iter. }
  split_and!; [|done..]. split; simpl; [apply foldl_put_wf, Hs|].
  intros i j t u [Hi Ht]%lookup_delete_Some [Hj Hu]%lookup_delete_Some Hij (k & Hk & Hc).
  destruct Hc as [?|[Hr (w & v & Hw)]]; [apply (occ_disjoint _ Hs i j t u); [done..|]; by exists k; auto|].
  apply Hv in Hw as [Hw|(_ & Hw & _)]; simpl in Hw.
  - apply (occ_disjoint _ Hs i j t u); [done..|]. exists k. split; [done|]. right. split; [done|]. by do 2 eexists.
  - apply (occ_disjoint _ Hs i id t txn); [done..|]. exists k. split; [done|]. left. by eexists.
Qed.

Lemma occ_Abort_ok s id txn : occ_ok s → occ_ok (occ_Abort s id txn).
Proof.
  intros Hs. split; [apply Hs|]. simpl.
  intros i j t u [_ ?]%lookup_delete_Some [_ ?]%lookup_delete_Some. by apply Hs.
Qed.

#[global] Instance occ_strong : StrongStore OCCStore.
Proof.
  refine {| store_ok := occ_ok; prepared_txns := o_prepared; present := occ_present |}; simpl.
  - intros s i j t u Hs. apply (occ_disjoint _ Hs).
  - intros s c id key r s' Hs [= _ <-]. done.
  - intros s c id key t r s' Hs [= _ <-]. done.
  - intros s c id txn r s' Hs [=Hp]. pose proof (occ_Prepare_ok _ _ _ _ _ Hs Hp).
    split; [done|]. destruct (o_prepared s !! id) as [t0|] eqn:Hid.
    { unfold occ_Prepare in Hp. rewrite Hid in Hp. simplify_eq. rewrite decide_False by naive_solver. done. }
    split; [|by intros []].
    destruct (occ_Prepare_cases s id txn Hid) as [Heq|(Heq & _)]; rewrite Heq in Hp; simplify_eq.
    + by rewrite decide_False by naive_solver.
    + by rewrite decide_True.
  - intros s id ts Hs [txn Hid]. destruct (occ_Commit_ok s id ts txn Hs Hid) as (s' & ? & ? & ? & _).
    by exists s'.
  - intros s id ts Hid. unfold occ_Commit. by rewrite Hid.
  - intros s id txn Hs. eexists. split_and!; [done| |done]. by apply occ_Abort_ok.
Defined.

End occ_ops.
