(* ===== verification/OccSerial.v ===== *)
(** * Serializability of the optimistic store of strongstore

    A history records the transactions a replica committed, in commit order,
    with the reads it validated.  The coordinator's timestamp of a commit must
    be after the versions the transaction overwrites; then the serial execution
    in commit order explains all reads and the replica's versions. *)

From S2P Require Import Prelude Timestamp TsSet Transaction VersionStore Serial TxnStore OccStore.

Record ohist := mkOH {
  oh_st : OCCStore;
  oh_held : gmap Z (gmap string Timestamp);
  oh_log : list entry
}.

(** The timestamp of a commit is after the versions it overwrites. *)
Definition overwrites_older (x : VersionedKVStore) (txn : Transaction) (t : Timestamp) : Prop :=
  ∀ k w v, is_Some (writeSet txn !! k) → has_version x k w v → ts_lt w t = true.

Inductive ostep : ohist → ohist → Prop :=
| ostep_accept (IO : IterOrder) g id txn s' :
    o_prepared (oh_st g) !! id = None →
    occ_Prepare (oh_st g) id txn = (REPLY_OK, s') →
    ostep g (mkOH s' (<[id := held_reads (o_store (oh_st g)) txn]> (oh_held g)) (oh_log g))
| ostep_again (IO : IterOrder) g id txn r s' :
    r ≠ REPLY_OK ∨ is_Some (o_prepared (oh_st g) !! id) →
    occ_Prepare (oh_st g) id txn = (r, s') →
    ostep g (mkOH s' (oh_held g) (oh_log g))
| ostep_commit (IO : IterOrder) g id txn ts s' :
    o_prepared (oh_st g) !! id = Some txn →
    overwrites_older (o_store (oh_st g)) txn (ts_of ts) →
    occ_Commit (oh_st g) id ts = Ret s' →
    ostep g (mkOH s' (oh_held g)
      (oh_log g ++ [mkEntry id (ts_of ts) txn (default ∅ (oh_held g !! id)) Committed]))
| ostep_abort g id txn :
    ostep g (mkOH (occ_Abort (oh_st g) id txn) (oh_held g) (oh_log g)).

Definition ostart (x : VersionedKVStore) : ohist := mkOH (mkOCC x ∅) ∅ [].

Record oinv (x0 : VersionedKVStore) (g : ohist) : Prop := {
  oi_ok : occ_ok (oh_st g);
  oi_db k : get (o_store (oh_st g)) k = serial (get x0) (oh_log g) k;
  oi_reads : reads_explained (get x0) (oh_log g);
  oi_held id txn k w :
    o_prepared (oh_st g) !! id = Some txn → default ∅ (oh_held g !! id) !! k = Some w →
    readSet txn !! k = Some w ∧ fst <$> get (o_store (oh_st g)) k = Some w
}.

Lemma ostart_inv x0 : vs_wf x0 → oinv x0 (ostart x0).
Proof.
  intros Hwf. split; simpl; [split; [done|]|done| |]; simpl; try by intros; simplify_map_eq.
  intros C1 e C2 k w Heq. by destruct C1.
Qed.

Lemma accept_oinv `{IO : IterOrder} x0 g id txn s' :
  oinv x0 g → o_prepared (oh_st g) !! id = None →
  occ_Prepare (oh_st g) id txn = (REPLY_OK, s') →
  oinv x0 (mkOH s' (<[id := held_reads (o_store (oh_st g)) txn]> (oh_held g)) (oh_log g)).
Proof.
  intros Hg Hid Hp. pose proof (occ_Prepare_ok _ _ _ _ _ (oi_ok _ _ Hg) Hp) as Hok.
  destruct (occ_Prepare_cases (oh_st g) id txn Hid) as [Heq|(Heq & Hrd & _)];
    rewrite Heq in Hp; simplify_eq/=.
  split; simpl; [done|apply (oi_db _ _ Hg)|apply (oi_reads _ _ Hg)|].
  intros i t k w. rewrite lookup_insert_Some. intros [[<- <-]|[Hne Hi]].
  - rewrite lookup_insert_eq. simpl. rewrite held_reads_lookup. intros [Hk [v Hv]]. split; [done|].
    pose proof (occ_wf _ (oi_ok _ _ Hg)) as Hwf.
    destruct (get (o_store (oh_st g)) k) as [[cw cv]|] eqn:Hcur;
      [|by destruct (get_present _ _ Hwf Hcur w v)].
    destruct (Hrd k w Hk _ Hcur) as [Hle _]. apply get_latest in Hcur as [_ Hmax]; [|done].
    specialize (Hmax w v Hv). simpl in *. f_equal. ts_order.
  - rewrite lookup_insert_ne by done. by apply (oi_held _ _ Hg).
Qed.

(** The keys a committed transaction does not write keep their version; those
    it writes get the new one. *)
Lemma commit_get `{IO : IterOrder} s id txn ts s' k :
  occ_ok s → o_prepared s !! id = Some txn → overwrites_older (o_store s) txn (ts_of ts) →
  occ_Commit s id ts = Ret s' →
  get (o_store s') k =
    match writeSet txn !! k with Some v => Some (ts_of ts, v) | None => get (o_store s) k end.
Proof.
  intros Hs Hid Hnew Hc.
  destruct (occ_Commit_ok s id ts txn Hs Hid) as (s1 & Hc1 & Hs1 & _ & Hv).
  rewrite Hc in Hc1. injection Hc1 as <-.
  destruct (writeSet txn !! k) as [v|] eqn:Hk.
  - apply get_intro; [apply Hs1| |].
    + apply Hv. right. split_and!; [done..|]. intros u Hu.
      pose proof (Hnew k _ _ ltac:(by eexists) Hu). ts_order.
    + intros w u [Hw|(-> & _)]%Hv; [|ts_order].
      pose proof (Hnew k _ _ ltac:(by eexists) Hw). ts_order.
  - destruct (get (o_store s) k) as [[w u]|] eqn:Hg.
    + apply get_latest in Hg as [Hw Hmax]; [|apply Hs].
      apply get_intro; [apply Hs1|apply Hv; by left|].
      intros w' u' [?|(_ & ? & _)]%Hv; [by eapply Hmax|congruence].
    + apply get_None. destruct (versions (o_store s') k) as [|[w u] l] eqn:Hl; [done|]. exfalso.
      assert (has_version (o_store s') k w u) as [Hw|(_ & ? & _)]%Hv; [| |congruence].
      * unfold has_version. rewrite Hl. apply list_elem_of_here.
      * by apply (get_present _ _ (occ_wf _ Hs) Hg w u).
Qed.

Lemma commit_oinv `{IO : IterOrder} x0 g id txn ts s' :
  oinv x0 g → o_prepared (oh_st g) !! id = Some txn →
  overwrites_older (o_store (oh_st g)) txn (ts_of ts) →
  occ_Commit (oh_st g) id ts = Ret s' →
  oinv x0 (mkOH s' (oh_held g)
    (oh_log g ++ [mkEntry id (ts_of ts) txn (default ∅ (oh_held g !! id)) Committed])).
Proof.
  intros Hg Hid Hnew Hc. pose proof (oi_ok _ _ Hg) as Hok.
  pose proof (λ k, commit_get _ _ _ _ _ k Hok Hid Hnew Hc) as Hget.
  destruct (occ_Commit_ok _ id ts txn Hok Hid) as (s1 & Hc1 & Hs1 & Hp1 & _).
  rewrite Hc in Hc1. injection Hc1 as <-. split; simpl; [done| | |].
  - intros k. rewrite serial_app. unfold serial at 1; simpl. unfold serial_step; simpl.
    rewrite Hget. case_match; [done|apply (oi_db _ _ Hg)].
  - apply reads_explained_snoc; [apply (oi_reads _ _ Hg)|]. simpl. intros k w Hk.
    rewrite <- (oi_db _ _ Hg). by apply (oi_held _ _ Hg id txn).
  - intros i t k w. rewrite Hp1. intros [Hne Hi]%lookup_delete_Some Hk.
    destruct (oi_held _ _ Hg i t k w Hi Hk) as [Hr Hcur]. split; [done|].
    rewrite Hget. destruct (writeSet txn !! k) as [v|] eqn:Hv; [|done]. exfalso.
    apply (occ_disjoint _ Hok id i txn t Hid Hi Hne). exists k. split; [by eexists|].
    right. split; [by eexists|]. apply fmap_Some in Hcur as ([w' u] & Hg' & ->).
    apply get_latest in Hg' as [Hv' _]; [|apply Hok]. by do 2 eexists.
Qed.

Lemma ostep_inv x0 g g' : oinv x0 g → ostep g g' → oinv x0 g'.
Proof.
  intros Hg Hstep. destruct Hstep as
    [IO g id txn s' Hid Hp|IO g id txn r s' Hr Hp|IO g id txn ts s' Hid Hnew Hc|g id txn].
  - by apply accept_oinv.
  - pose proof (occ_Prepare_ok _ _ _ _ _ (oi_ok _ _ Hg) Hp).
    assert (s' = oh_st g) as ->; [|by destruct g].
    destruct (o_prepared (oh_st g) !! id) as [t|] eqn:Hid.
    + unfold occ_Prepare in Hp. rewrite Hid in Hp. by simplify_eq.
    + destruct (occ_Prepare_cases (oh_st g) id txn Hid) as [Heq|(Heq & _)]; rewrite Heq in Hp;
        simplify_eq; [done|]. destruct Hr as [?|[? ?]]; congruence.
  - by eapply commit_oinv.
  - split; simpl; [apply occ_Abort_ok, Hg|apply (oi_db _ _ Hg)|apply (oi_reads _ _ Hg)|].
    intros i t k w [_ Hi]%lookup_delete_Some. by apply (oi_held _ _ Hg).
Qed.

(** C6. Serializability of OCCStore in commit order.  For every interleaving
    of prepares, commits and aborts in which commit timestamps are after the
    versions they overwrite, executing the committed transactions serially in
    commit order explains every validated read and gives exactly the latest
    version of every key. *)
Theorem occ_serializable x0 g :
  vs_wf x0 → rtc ostep (ostart x0) g →
  reads_explained (get x0) (oh_log g) ∧
  ∀ k, get (o_store (oh_st g)) k = serial (get x0) (oh_log g) k.
Proof.
  intros Hx0 Hr. assert (oinv x0 g) as Hg; [|split; apply Hg].
  revert g Hr. apply rtc_ind_r; [by apply ostart_inv|].
  intros g g' _ Hstep Hg. by eapply ostep_inv.
Qed.

(** A run: transaction 1 reads and overwrites [x]. *)
Definition demo_occ_txn : Transaction := addWriteSet "x" "1" (addReadSet "x" ts0 empty_txn).
Definition demo_occ_x0 : VersionedKVStore := put empty_store "x" "0" ts0.

Definition demo_og1 : ohist :=
  mkOH (@occ_Prepare canonical_order (mkOCC demo_occ_x0 ∅) 1 demo_occ_txn).2
    (<[1 := held_reads demo_occ_x0 demo_occ_txn]> ∅) [].

Definition demo_og2 : ohist :=
  mkOH (match @occ_Commit canonical_order (oh_st demo_og1) 1 7 with
        | Ret s => s | Panic => oh_st demo_og1 end)
    (oh_held demo_og1)
    (oh_log demo_og1 ++
     [mkEntry 1 (ts_of 7) demo_occ_txn (default ∅ (oh_held demo_og1 !! 1)) Committed]).

Lemma demo_occ_run : rtc ostep (ostart demo_occ_x0) demo_og2.
Proof.
  apply (rtc_l _ _ demo_og1).
  { apply (ostep_accept canonical_order (ostart demo_occ_x0) 1 demo_occ_txn);
      vm_compute; reflexivity. }
  apply rtc_once. apply (ostep_commit canonical_order demo_og1 1 demo_occ_txn 7).
  - vm_compute. reflexivity.
  - intros k w v _. change (o_store (oh_st demo_og1)) with demo_occ_x0.
    unfold demo_occ_x0. rewrite has_version_put by auto with tapir.
    intros [[]%elem_of_nil|(_ & -> & _)]. reflexivity.
  - vm_compute. reflexivity.
Qed.

Lemma occ_serializable_witness :
  get (o_store (oh_st demo_og2)) "x" = serial (get demo_occ_x0) (oh_log demo_og2) "x" ∧
  length (oh_log demo_og2) = 1%nat.
Proof.
  split; [|reflexivity].
  apply (occ_serializable demo_occ_x0 demo_og2); [|exact demo_occ_run].
  unfold demo_occ_x0. auto with tapir.
Defined.
