(* ===== verification/LockStore.v ===== *)
(** * The locking store of strongstore (store/strongstore/lockstore.{h,cc})

    Strict two-phase locking over [KVStore] and [LockServer]. *)

From S2P Require Import Prelude Timestamp Transaction KVStore LockServer TxnStore.

Record LockStore := mkLockStore {
  l_store : KVStore;
  l_locks : LockServer;
  l_prepared : gmap Z Transaction
}.

Notation new_lockstore := (mkLockStore new_kvstore new_lockserver ∅) (only parsing).

Definition with_locks (s : LockStore) (x : LockServer) : LockStore :=
  mkLockStore (l_store s) x (l_prepared s).

Definition lock_Get (s : LockStore) (c : clock) (id : Z) (key : string) :
    outcome (reply * LockStore) :=
  match kv_get (l_store s) key with
  | None => Ret ((REPLY_FAIL, None), s)
  | Some val =>
      r ← lockForRead (l_locks s) (c false key) key id;
      if r.1 : bool then Ret ((REPLY_OK, Some (ts0, val)), with_locks s r.2)
      else Ret ((REPLY_RETRY, None), with_locks s r.2)
  end.

Definition lock_Get_at (s : LockStore) (c : clock) (id : Z) (key : string) (t : Timestamp) :
    outcome (reply * LockStore) := lock_Get s c id key.

Definition lock_Load (s : LockStore) (key value : string) (t : Timestamp) : LockStore :=
  mkLockStore (kv_put (l_store s) key value) (l_locks s) (l_prepared s).

Section lockstore.
Context `{IO : IterOrder}.

Definition getLocks (x : LockServer) (c : clock) (id : Z) (txn : Transaction) :
    outcome (bool * LockServer) :=
  r ← for_each (λ a (read : string * Timestamp),
        b ← lockForRead a.2 (c false read.1) read.1 id;
        Ret (if b.1 : bool then a.1 else false, b.2)) (true, x) (umap_iter (readSet txn));
  for_each (λ a (write : string * string),
        b ← lockForWrite a.2 (c true write.1) write.1 id;
        Ret (if b.1 : bool then a.1 else false, b.2)) r (umap_iter (writeSet txn)).

Definition dropLocks (x : LockServer) (id : Z) (txn : Transaction) : outcome LockServer :=
  x' ← for_each (λ x (write : string * string), releaseForWrite x write.1 id)
         x (umap_iter (writeSet txn));
  for_each (λ x (read : string * Timestamp), Ret (releaseForRead x read.1 id))
    x' (umap_iter (readSet txn)).

Definition lock_Prepare (s : LockStore) (c : clock) (id : Z) (txn : Transaction) :
    outcome (Z * LockStore) :=
  match l_prepared s !! id with
  | Some _ => Ret (REPLY_OK, s)
  | None =>
      r ← getLocks (l_locks s) c id txn;
      if r.1 : bool then
        Ret (REPLY_OK, mkLockStore (l_store s) r.2 (<[id := txn]> (l_prepared s)))
      else Ret (REPLY_RETRY, with_locks s r.2)
  end.

Definition lock_Commit (s : LockStore) (id timestamp : Z) : outcome LockStore :=
  match l_prepared s !! id with
  | None => Panic
  | Some txn =>
      let store' := foldl (λ x (w : string * string), kv_put x w.1 w.2)
                      (l_store s) (umap_iter (writeSet txn)) in
      x ← dropLocks (l_locks s) id txn;
      Ret (mkLockStore store' x (delete id (l_prepared s)))
  end.

Definition lock_Abort (s : LockStore) (id : Z) (txn : Transaction) : outcome LockStore :=
  x ← dropLocks (l_locks s) id txn;
  Ret (mkLockStore (l_store s) x (delete id (l_prepared s))).

#[global] Instance lock_txnstore : TxnStore LockStore := {
  txn_Get := lock_Get;
  txn_Get_at := lock_Get_at;
  txn_Put := @txn_Put _ base_store;
  txn_Prepare := lock_Prepare;
  txn_Prepare_at := @txn_Prepare_at _ base_store;
  txn_Commit := lock_Commit;
  txn_Abort := lock_Abort;
  txn_Load s key value t := Ret (lock_Load s key value t)
}.

End lockstore.

(** ** Acquiring and dropping locks *)

(** Permissions only grow on [id]'s side and stay on the others'. *)
Record acquired (id : Z) (x x' : LockServer) : Prop := {
  aq_wf : ls_wf x';
  aq_others : others_keep id x x';
  aq_read k : can_read x k id → can_read x' k id;
  aq_write k : can_write x k id → can_write x' k id
}.

Lemma others_keep_trans r x y z : others_keep r x y → others_keep r y z → others_keep r x z.
Proof.
  intros H1 H2 k r' Hr. destruct (H1 k r' Hr), (H2 k r' Hr). tauto.
Qed.

Lemma acquired_refl id x : ls_wf x → acquired id x x.
Proof. intros Hx. split; [done|by intros k r' _|done|done]. Qed.

Lemma acquired_trans id x y z : acquired id x y → acquired id y z → acquired id x z.
Proof.
  intros H1 H2. split; [apply H2|eapply others_keep_trans; [apply H1|apply H2]| |].
  - intros k Hk. by apply (aq_read _ _ _ H2), (aq_read _ _ _ H1).
  - intros k Hk. by apply (aq_write _ _ _ H2), (aq_write _ _ _ H1).
Qed.

Lemma requested_acquired can x k id b x' : requested can x k id b x' → acquired id x x'.
Proof.
  intros H. pose proof (rq_step _ _ _ _ _ _ H) as Hst. split.
  - apply Hst.
  - apply Hst.
  - intros k' Hk'. destruct (decide (k' = k)) as [->|Hne]; [by apply (rq_read _ _ _ _ _ _ H)|].
    unfold can_read. by rewrite (step_frame _ _ _ _ Hst k' Hne).
  - intros k' Hk'. destruct (decide (k' = k)) as [->|Hne]; [by apply (rq_write _ _ _ _ _ _ H)|].
    unfold can_write. by rewrite (step_frame _ _ _ _ Hst k' Hne).
Qed.

(** A loop of requests for permission [can]. *)
Lemma acquire_loop {V} can
    (req : LockServer → timeval * timeval → string → Z → outcome (bool * LockServer))
    (t : string → timeval * timeval) id (l : list (string * V)) b0 x b x' :
  can = can_read ∨ can = can_write →
  (∀ x t k b x', ls_wf x → req x t k id = Ret (b, x') → requested can x k id b x') →
  ls_wf x →
  for_each (λ a p, r ← req a.2 (t p.1) p.1 id; Ret (if r.1 : bool then a.1 else false, r.2))
    (b0, x) l = Ret (b, x') →
  acquired id x x' ∧ (b = true → b0 = true ∧ ∀ k, k ∈ l.*1 → can x' k id).
Proof.
  intros Hcan Hreq. revert b0 x. induction l as [|[k v] l IH]; intros b0 x Hx; simpl.
  { intros [= <- <-]. split; [by apply acquired_refl|]. intros ->. split; [done|].
    by intros k ?%elem_of_nil. }
  destruct (req x (t k) k id) as [[b1 x1]|] eqn:Hr; simpl; [|done]. intros Hl.
  pose proof (Hreq _ _ _ _ _ Hx Hr) as Hrq. pose proof (requested_acquired _ _ _ _ _ _ Hrq) as Ha.
  destruct (IH _ _ (aq_wf _ _ _ Ha) Hl) as [Ha' Hb]. split; [by eapply acquired_trans|].
  intros Hbt. destruct (Hb Hbt) as [Hb0 Hall]. destruct b1; [|done]. split; [done|].
  intros k' [->|Hk']%elem_of_cons; [|by apply Hall].
  pose proof (rq_true _ _ _ _ _ _ Hrq eq_refl) as Hc. destruct Hcan as [-> | ->].
  - by apply (aq_read _ _ _ Ha').
  - by apply (aq_write _ _ _ Ha').
Qed.

(** What a transaction holds when all its locks were granted. *)
Definition holds_locks (x : LockServer) (id : Z) (txn : Transaction) : Prop :=
  (∀ k, is_Some (readSet txn !! k) → can_read x k id) ∧
  (∀ k, is_Some (writeSet txn !! k) → can_write x k id).

Lemma holds_locks_acquired id x x' txn :
  acquired id x x' → holds_locks x id txn → holds_locks x' id txn.
Proof. intros Ha [Hr Hw]. split; intros k Hk; [by apply (aq_read _ _ _ Ha), Hr|by apply (aq_write _ _ _ Ha), Hw]. Qed.

Lemma holds_locks_others id x x' i txn :
  i ≠ id → others_keep id x x' → holds_locks x i txn → holds_locks x' i txn.
Proof.
  intros Hi Ho [Hr Hw]. split; intros k Hk; destruct (Ho k i Hi) as [Hor How];
    [by apply Hor, Hr|by apply How, Hw].
Qed.

Section locking.
Context `{IO : IterOrder}.

Lemma getLocks_spec x c id txn b x' :
  ls_wf x → getLocks x c id txn = Ret (b, x') →
  acquired id x x' ∧ (b = true → holds_locks x' id txn).
Proof.
  intros Hx. unfold getLocks. rewrite bind_Ret_inv. intros ([b1 x1] & Hrd & Hwr).
  apply (acquire_loop can_read lockForRead (c false)) in Hrd as [Ha1 Hb1];
    [|by left|by intros; eapply lockForRead_spec|done].
  apply (acquire_loop can_write lockForWrite (c true)) in Hwr as [Ha2 Hb2];
    [|by right|by intros; eapply lockForWrite_spec|apply Ha1].
  split; [by eapply acquired_trans|]. intros Hb. destruct (Hb2 Hb) as [Hb' Hw].
  destruct (Hb1 Hb') as [_ Hr]. split; intros k Hk%elem_of_umap_keys; [|by apply Hw].
  by apply (aq_read _ _ _ Ha2), Hr.
Qed.

Lemma dropLocks_spec x id txn :
  ls_wf x → ∃ x', dropLocks x id txn = Ret x' ∧ ls_wf x' ∧ others_keep id x x'.
Proof.
  intros Hx. unfold dropLocks.
  assert (∀ (l : list (string * string)) x, ls_wf x → ∃ x',
    for_each (λ x write, releaseForWrite x write.1 id) x l = Ret x' ∧ ls_wf x' ∧ others_keep id x x') as Hw.
  { clear x Hx. induction l as [|[k v] l IH]; intros x Hx; simpl; [by exists x|].
    destruct (releaseForWrite_spec x k id Hx) as (x1 & -> & Hst & _). simpl.
    destruct (IH x1 (step_wf _ _ _ _ Hst)) as (x2 & ? & ? & ?). exists x2.
    split_and!; [done..|]. by eapply others_keep_trans; [apply Hst|]. }
  assert (∀ (l : list (string * Timestamp)) x, ls_wf x → ∃ x',
    for_each (λ x read, Ret (releaseForRead x read.1 id)) x l = Ret x' ∧ ls_wf x' ∧ others_keep id x x') as Hr.
  { clear x Hx. induction l as [|[k v] l IH]; intros x Hx; simpl; [by exists x|].
    destruct (releaseForRead_spec x k id Hx) as (Hst & _).
    destruct (IH _ (step_wf _ _ _ _ Hst)) as (x2 & ? & ? & ?). exists x2.
    split_and!; [done..|]. by eapply others_keep_trans; [apply Hst|]. }
  destruct (Hw (umap_iter (writeSet txn)) x Hx) as (x1 & -> & Hx1 & Ho1). simpl.
  destruct (Hr (umap_iter (readSet txn)) x1 Hx1) as (x2 & -> & Hx2 & Ho2).
  exists x2. split_and!; [done..|]. by eapply others_keep_trans.
Qed.

(** ** Prepared transactions hold their locks *)

Record lockstore_ok (s : LockStore) : Prop := {
  lo_wf : ls_wf (l_locks s);
  lo_hold id txn : l_prepared s !! id = Some txn → holds_locks (l_locks s) id txn
}.

Lemma lockstore_disjoint s i j t u :
  lockstore_ok s → l_prepared s !! i = Some t → l_prepared s !! j = Some u → i ≠ j →
  ¬ conflict (λ _, True) t u.
Proof.
  intros Hs Hi Hj Hij (k & Hk & Hc). apply Hij.
  apply (exclusion (l_locks s) k i j); [apply Hs|by apply (lo_hold _ Hs _ _ Hi)|].
  destruct (lo_hold _ Hs _ _ Hj) as [Hr Hw]. destruct Hc as [?|[? _]]; auto.
Qed.

Lemma acquired_ok s id x' :
  lockstore_ok s → acquired id (l_locks s) x' → lockstore_ok (with_locks s x').
Proof.
  intros Hs Ha. split; simpl; [apply Ha|]. intros i t Hi%(lo_hold _ Hs).
  destruct (decide (i = id)) as [->|Hne]; [by eapply holds_locks_acquired|].
  eapply holds_locks_others; [done|apply Ha|done].
Qed.

Lemma lock_Get_ok s c id key r s' :
  lockstore_ok s → lock_Get s c id key = Ret (r, s') →
  lockstore_ok s' ∧ l_prepared s' = l_prepared s ∧ l_store s' = l_store s ∧
  acquired id (l_locks s) (l_locks s').
Proof.
  intros Hs. unfold lock_Get. destruct (kv_get (l_store s) key) as [v|].
  - rewrite bind_Ret_inv. intros ([b x] & Hl & Hr).
    apply lockForRead_spec in Hl; [|apply Hs]. apply requested_acquired in Hl.
    pose proof (acquired_ok s id x Hs Hl). destruct b; injection Hr as _ <-; done.
  - intros [= _ <-]. split_and!; try done. apply acquired_refl, Hs.
Qed.

Lemma lock_Prepare_ok s c id txn r s' :
  lockstore_ok s → lock_Prepare s c id txn = Ret (r, s') →
  lockstore_ok s' ∧ l_store s' = l_store s ∧ acquired id (l_locks s) (l_locks s') ∧
  l_prepared s' = (if decide (r = REPLY_OK ∧ l_prepared s !! id = None)
                   then <[id := txn]> (l_prepared s) else l_prepared s) ∧
  (is_Some (l_prepared s !! id) → r = REPLY_OK).
Proof.
  intros Hs. unfold lock_Prepare. destruct (l_prepared s !! id) as [t|] eqn:Hid.
  { intros [= <- <-]. rewrite decide_False by naive_solver. split_and!; try done.
    apply acquired_refl, Hs. }
  rewrite bind_Ret_inv. intros ([b x] & Hl & Hr).
  apply getLocks_spec in Hl as [Ha Hb]; [|apply Hs].
  pose proof (acquired_ok s id x Hs Ha) as Hok.
  destruct b; injection Hr as <- <-.
  - rewrite decide_True by done. split_and!; try done.
    split; simpl; [apply Ha|]. intros i t [[<- <-]|[Hne Hi]]%lookup_insert_Some; [by apply Hb|].
    by apply (lo_hold _ Hok).
  - by rewrite decide_False by naive_solver.
Qed.

Lemma dropped_ok s id x store' :
  lockstore_ok s → ls_wf x → others_keep id (l_locks s) x →
  lockstore_ok (mkLockStore store' x (delete id (l_prepared s))).
Proof.
  intros Hs Hx Ho. split; simpl; [done|]. intros i t [Hne Hi]%lookup_delete_Some.
  eapply holds_locks_others; [|done|by apply (lo_hold _ Hs)]. congruence.
Qed.

Lemma lock_Commit_ok s id ts txn :
  lockstore_ok s → l_prepared s !! id = Some txn →
  ∃ s', lock_Commit s id ts = Ret s' ∧ lockstore_ok s' ∧
    l_prepared s' = delete id (l_prepared s) ∧ others_keep id (l_locks s) (l_locks s') ∧
    ∀ k, kv_get (l_store s') k =
         match writeSet txn !! k with Some v => Some v | None => kv_get (l_store s) k end.
Proof.
  intros Hs Hid. unfold lock_Commit. rewrite Hid.
  destruct (dropLocks_spec (l_locks s) id txn (lo_wf _ Hs)) as (x & -> & Hx & Ho). simpl.
  eexists. split_and!; [done|by apply dropped_ok|done|done|]. simpl. intros k.
  rewrite foldl_kv_put by apply umap_iter_NoDup.
  rewrite (list_to_map_proper _ _ (umap_iter_NoDup _) (umap_iter_perm _)).
  by rewrite list_to_map_to_list.
Qed.

Lemma lock_Abort_ok s id txn :
  lockstore_ok s →
  ∃ s', lock_Abort s id txn = Ret s' ∧ lockstore_ok s' ∧
    l_prepared s' = delete id (l_prepared s) ∧ others_keep id (l_locks s) (l_locks s') ∧
    l_store s' = l_store s.
Proof.
  intros Hs. unfold lock_Abort.
  destruct (dropLocks_spec (l_locks s) id txn (lo_wf _ Hs)) as (x & -> & Hx & Ho). simpl.
  eexists. split_and!; try done. by apply dropped_ok.
Qed.

#[global] Instance lock_strong : StrongStore LockStore.
Proof.
  refine {| store_ok := lockstore_ok; prepared_txns := l_prepared; present := λ _ _, True |}; simpl.
  - apply lockstore_disjoint.
  - intros s c id key r s' Hs Hg. by destruct (lock_Get_ok _ _ _ _ _ _ Hs Hg) as (? & ? & _).
  - intros s c id key t r s' Hs Hg. by destruct (lock_Get_ok _ _ _ _ _ _ Hs Hg) as (? & ? & _).
  - intros s c id txn r s' Hs Hp. by destruct (lock_Prepare_ok _ _ _ _ _ _ Hs Hp) as (? & _ & _ & ?).
  - intros s id ts Hs [txn Hid]. destruct (lock_Commit_ok s id ts txn Hs Hid) as (s' & ? & ? & ? & _).
    by exists s'.
  - intros s id ts Hid. unfold lock_Commit. by rewrite Hid.
  - intros s id txn Hs. destruct (lock_Abort_ok s id txn Hs) as (s' & ? & ? & ? & _). by exists s'.
Defined.

End locking.
