(* ===== verification/LockSerial.v ===== *)
(** * Serializability of the locking store, and a lock leak

    A history records what each transaction read under a lock and, in commit
    order, the committed transactions.  The last part follows the abort message
    of the client library: it names no keys, so the locks stay. *)

From S2P Require Import Prelude Timestamp Transaction KVStore LockServer TxnStore LockStore.

Record lhist := mkLH {
  lh_st : LockStore;
  (* the values a running transaction read *)
  lh_reads : gmap Z (gmap string string);
  lh_log : list (Transaction * gmap string string)
}.

Definition reads_of (g : lhist) (id : Z) : gmap string string := default ∅ (lh_reads g !! id).

Inductive lstep : lhist → lhist → Prop :=
| lstep_read g c id key t v s' :
    lock_Get (lh_st g) c id key = Ret ((REPLY_OK, Some (t, v)), s') →
    lstep g (mkLH s' (<[id := <[key := v]> (reads_of g id)]> (lh_reads g)) (lh_log g))
| lstep_no_read g c id key r s' :
    lock_Get (lh_st g) c id key = Ret (r, s') → r.1 ≠ REPLY_OK →
    lstep g (mkLH s' (lh_reads g) (lh_log g))
| lstep_prepare (IO : IterOrder) g c id txn r s' :
    lock_Prepare (lh_st g) c id txn = Ret (r, s') →
    lstep g (mkLH s' (lh_reads g) (lh_log g))
| lstep_commit (IO : IterOrder) g id txn ts s' :
    l_prepared (lh_st g) !! id = Some txn →
    lock_Commit (lh_st g) id ts = Ret s' →
    lstep g (mkLH s' (delete id (lh_reads g)) (lh_log g ++ [(txn, reads_of g id)]))
| lstep_abort (IO : IterOrder) g id txn s' :
    lock_Abort (lh_st g) id txn = Ret s' →
    lstep g (mkLH s' (delete id (lh_reads g)) (lh_log g)).

Definition lstart (x : KVStore) : lhist := mkLH (mkLockStore x new_lockserver ∅) ∅ [].

(** Serial execution on a database of values. *)
Definition exec (db : string → option string) (p : Transaction * gmap string string) :
    string → option string :=
  λ k, match writeSet p.1 !! k with Some v => Some v | None => db k end.

(** Every transaction of the log reads the value the ones before it left. *)
Fixpoint serial_reads_ok (db : string → option string)
    (log : list (Transaction * gmap string string)) : Prop :=
  match log with
  | [] => True
  | p :: log' => (∀ k v, p.2 !! k = Some v → db k = Some v) ∧ serial_reads_ok (exec db p) log'
  end.

Lemma serial_reads_snoc db log p :
  serial_reads_ok db log → (∀ k v, p.2 !! k = Some v → foldl exec db log k = Some v) →
  serial_reads_ok db (log ++ [p]).
Proof.
  revert db. induction log as [|q log IH]; intros db; simpl; [done|].
  intros [Hq Hlog] Hp. split; [done|]. by apply IH.
Qed.

Record linv (x0 : KVStore) (g : lhist) : Prop := {
  li_ok : lockstore_ok (lh_st g);
  li_db k : kv_get (l_store (lh_st g)) k = foldl exec (kv_get x0) (lh_log g) k;
  li_reads : serial_reads_ok (kv_get x0) (lh_log g);
  li_held id k v :
    reads_of g id !! k = Some v →
    can_read (l_locks (lh_st g)) k id ∧ kv_get (l_store (lh_st g)) k = Some v
}.

Lemma lstart_inv x0 : linv x0 (lstart x0).
Proof.
  split; [|done|done|]; simpl.
  - split; [apply new_lockserver_wf|]. simpl. intros id txn. by rewrite lookup_empty.
  - intros id k v. unfold reads_of; simpl. by rewrite lookup_empty.
Qed.

(** Steps that only acquire locks. *)
Lemma acquire_inv x0 g s' reads' id :
  linv x0 g → lockstore_ok s' → l_store s' = l_store (lh_st g) →
  acquired id (l_locks (lh_st g)) (l_locks s') →
  (∀ i k v, default ∅ (reads' !! i) !! k = Some v →
     reads_of g i !! k = Some v ∨
     can_read (l_locks s') k i ∧ kv_get (l_store s') k = Some v) →
  linv x0 (mkLH s' reads' (lh_log g)).
Proof.
  intros Hg Hs Hst Ha Hreads. split; simpl; [done| |apply (li_reads _ _ Hg)|].
  - intros k. rewrite Hst. apply (li_db _ _ Hg).
  - intros i k v [Hr|?]%Hreads; [|done]. apply (li_held _ _ Hg) in Hr as [Hc Hv].
    rewrite Hst. split; [|done]. destruct (decide (i = id)) as [->|Hne].
    + by apply (aq_read _ _ _ Ha).
    + by apply (aq_others _ _ _ Ha k i Hne).
Qed.

Lemma reads_of_delete g s' log id i k v :
  reads_of (mkLH s' (delete id (lh_reads g)) log) i !! k = Some v →
  i ≠ id ∧ reads_of g i !! k = Some v.
Proof.
  unfold reads_of; simpl. destruct (decide (i = id)) as [->|Hne].
  - by rewrite lookup_delete_eq.
  - by rewrite lookup_delete_ne.
Qed.

Lemma commit_linv `{IO : IterOrder} x0 g id txn ts s' :
  linv x0 g → l_prepared (lh_st g) !! id = Some txn → lock_Commit (lh_st g) id ts = Ret s' →
  linv x0 (mkLH s' (delete id (lh_reads g)) (lh_log g ++ [(txn, reads_of g id)])).
Proof.
  intros Hg Hid Hc. pose proof (li_ok _ _ Hg) as Hok.
  destruct (lock_Commit_ok (lh_st g) id ts txn Hok Hid) as (s1 & Hc1 & Hs1 & _ & Ho & Hkv).
  rewrite Hc in Hc1. injection Hc1 as <-. split; simpl; [done| | |].
  - intros k. rewrite Hkv, foldl_app. simpl. unfold exec at 1; simpl.
    case_match; [done|apply (li_db _ _ Hg)].
  - apply serial_reads_snoc; [apply (li_reads _ _ Hg)|]. simpl. intros k v Hk.
    rewrite <- (li_db _ _ Hg). by apply (li_held _ _ Hg id).
  - intros i k v [Hne Hr]%reads_of_delete. apply (li_held _ _ Hg) in Hr as [Hcr Hv].
    split; [by apply (Ho k i Hne)|]. rewrite Hkv.
    destruct (writeSet txn !! k) as [u|] eqn:Hw; [|done]. exfalso. apply Hne. symmetry.
    apply (exclusion (l_locks (lh_st g)) k id i); [apply Hok| |by left].
    apply (lo_hold _ Hok _ _ Hid). by eexists.
Qed.

Lemma lstep_inv x0 g g' : linv x0 g → lstep g g' → linv x0 g'.
Proof.
  intros Hg Hstep. pose proof (li_ok _ _ Hg) as Hok. destruct Hstep as
    [g c id key t v s' H|g c id key r s' H Hr|IO g c id txn r s' H|IO g id txn ts s' Hid H|IO g id txn s' H].
  - destruct (lock_Get_ok _ _ _ _ _ _ Hok H) as (Hs' & _ & Hst & Ha).
    apply (acquire_inv x0 g s' _ id Hg Hs' Hst Ha). intros i k u.
    destruct (decide (i = id)) as [->|Hne]; [|rewrite lookup_insert_ne by done; by left].
    rewrite lookup_insert_eq. simpl. rewrite lookup_insert_Some. intros [[<- <-]|[_ ?]]; [right|by left].
    unfold lock_Get in H. destruct (kv_get (l_store (lh_st g)) key) as [w|] eqn:Hk; [|done].
    apply bind_Ret_inv in H as ([b x] & Hl & Hb). destruct b; [|done]. injection Hb as _ <- <-.
    simpl. split; [|done]. eapply rq_true; [|done]. eapply lockForRead_spec; [apply Hok|done].
  - destruct (lock_Get_ok _ _ _ _ _ _ Hok H) as (Hs' & _ & Hst & Ha).
    apply (acquire_inv x0 g s' _ id Hg Hs' Hst Ha). by left.
  - destruct (lock_Prepare_ok _ _ _ _ _ _ Hok H) as (Hs' & Hst & Ha & _).
    apply (acquire_inv x0 g s' _ id Hg Hs' Hst Ha). by left.
  - by eapply commit_linv.
  - destruct (lock_Abort_ok (lh_st g) id txn Hok) as (s1 & H1 & Hs1 & _ & Ho & Hst).
    rewrite H in H1. injection H1 as <-. split; simpl; [done| |apply (li_reads _ _ Hg)|].
    + intros k. rewrite Hst. apply (li_db _ _ Hg).
    + intros i k v [Hne Hr]%reads_of_delete. apply (li_held _ _ Hg) in Hr as [Hcr Hv].
      rewrite Hst. split; [|done]. by apply (Ho k i Hne).
Qed.

(** C7. Two-phase locking is serializable.  For every interleaving of reads,
    prepares, commits and aborts of any transactions, the committed
    transactions executed serially in commit order read the values the store
    returned to them and leave exactly the store's values. *)
Theorem lockstore_serializable x0 g :
  rtc lstep (lstart x0) g →
  serial_reads_ok (kv_get x0) (lh_log g) ∧
  ∀ k, kv_get (l_store (lh_st g)) k = foldl exec (kv_get x0) (lh_log g) k.
Proof.
  intros Hr. assert (linv x0 g) as Hg; [|split; apply Hg].
  revert g Hr. apply rtc_ind_r; [by apply lstart_inv|].
  intros g g' _ Hstep Hg. by eapply lstep_inv.
Qed.

Definition demo_lock_txn : Transaction := addWriteSet "x" "1" (addReadSet "x" ts0 empty_txn).
Definition demo_clock : clock := λ _ _, (mkTV 1 0, mkTV 1 0).
Definition demo_kv : KVStore := kv_put new_kvstore "x" "0".

(** Transaction 1 reads [x], prepares and commits. *)
Definition demo_lg1 : lhist :=
  mkLH (match lock_Get (lh_st (lstart demo_kv)) demo_clock 1 "x" with
        | Ret (_, s) => s | Panic => new_lockstore end)
    (<[1 := <["x" := "0"]> ∅]> ∅) [].
Definition demo_lg2 : lhist :=
  mkLH (match @lock_Prepare canonical_order (lh_st demo_lg1) demo_clock 1 demo_lock_txn with
        | Ret (_, s) => s | Panic => new_lockstore end) (lh_reads demo_lg1) [].
Definition demo_lg3 : lhist :=
  mkLH (match @lock_Commit canonical_order (lh_st demo_lg2) 1 0 with
        | Ret s => s | Panic => new_lockstore end)
    (delete 1 (lh_reads demo_lg2)) [(demo_lock_txn, reads_of demo_lg2 1)].

Lemma demo_lock_run2 : rtc lstep (lstart demo_kv) demo_lg2.
Proof.
  apply (rtc_l _ _ demo_lg1).
  { apply (lstep_read (lstart demo_kv) demo_clock 1 "x" ts0 "0"). vm_compute. reflexivity. }
  apply rtc_once.
  apply (lstep_prepare canonical_order demo_lg1 demo_clock 1 demo_lock_txn REPLY_OK).
  vm_compute. reflexivity.
Qed.

Lemma lockstore_serializable_witness :
  serial_reads_ok (kv_get demo_kv) (lh_log demo_lg3) ∧ kv_get (l_store (lh_st demo_lg3)) "x" = Some "1".
Proof.
  split; [|vm_compute; reflexivity].
  apply (lockstore_serializable demo_kv demo_lg3).
  eapply rtc_r; [exact demo_lock_run2|].
  apply (lstep_commit canonical_order demo_lg2 1 demo_lock_txn 0); vm_compute; reflexivity.
Defined.

(** An abort without a transaction leaks locks.  The client library sends
    an empty transaction with an abort; [dropLocks] releases the locks of that
    transaction, so every lock the aborted one has stays, and nobody else is
    granted a lock on a key it could write. *)
Theorem abort_leaks_locks `{IO : IterOrder} s id k :
  lockstore_ok s → can_write (l_locks s) k id →
  ∃ s', lock_Abort s id empty_txn = Ret s' ∧ l_prepared s' !! id = None ∧
    l_locks s' = l_locks s ∧
    ∀ r t b x, r ≠ id →
      lockForRead (l_locks s') t k r = Ret (b, x) ∨ lockForWrite (l_locks s') t k r = Ret (b, x) →
      b = false.
Proof.
  intros Hs Hk. unfold lock_Abort, dropLocks. simpl. rewrite !umap_iter_empty. simpl.
  eexists. split_and!; [done|apply lookup_delete_eq|done|]. simpl.
  intros r t b x Hr Hop. destruct b; [|done]. exfalso. apply Hr.
  pose proof (lo_wf _ Hs) as Hwf. destruct Hop as [Hop|Hop].
  - apply lockForRead_spec in Hop; [|done]. symmetry. pose proof (rq_step _ _ _ _ _ _ Hop) as Hst.
    apply (exclusion x k id r); [apply Hst|by apply (step_others _ _ _ _ Hst k id (not_eq_sym Hr))|].
    left. by apply (rq_true _ _ _ _ _ _ Hop).
  - apply lockForWrite_spec in Hop; [|done]. symmetry. pose proof (rq_step _ _ _ _ _ _ Hop) as Hst.
    apply (exclusion x k id r); [apply Hst|by apply (step_others _ _ _ _ Hst k id (not_eq_sym Hr))|].
    right. by apply (rq_true _ _ _ _ _ _ Hop).
Qed.

Lemma abort_leaks_locks_witness :
  ∃ s', @lock_Abort canonical_order (lh_st demo_lg2) 1 empty_txn = Ret s' ∧
    ∀ r t b x, r ≠ 1 → lockForRead (l_locks s') t "x" r = Ret (b, x) ∨
                        lockForWrite (l_locks s') t "x" r = Ret (b, x) → b = false.
Proof.
  destruct (@abort_leaks_locks canonical_order (lh_st demo_lg2) 1 "x") as (s' & Ha & _ & _ & Hno).
  - assert (linv demo_kv demo_lg2) as Hinv; [|apply Hinv].
    eapply lstep_inv; [eapply lstep_inv; [apply lstart_inv|]|].
    + apply (lstep_read (lstart demo_kv) demo_clock 1 "x" ts0 "0"). vm_compute. reflexivity.
    + apply (lstep_prepare canonical_order demo_lg1 demo_clock 1 demo_lock_txn REPLY_OK).
      vm_compute. reflexivity.
  - split; [|right; vm_compute; reflexivity]. apply (bool_decide_unpack _). vm_compute. exact I.
  - by exists s'.
Defined.
