(* ===== verification/Codec.v ===== *)
(** * Serialized messages

    Protocol buffers are generated code outside the sources; what the programs
    rely on is that parsing what was serialized gives the message back.  A
    [Codec] is a serialization with that property; [bits_codec] shows that one
    exists for every countable type of messages. *)

From Stdlib Require Import Ascii.
From S2P Require Import Prelude.

Class Codec (M : Type) := {
  ser : M → string;                 (* SerializeToString *)
  parse : string → M;               (* ParseFromString *)
  parse_ser : ∀ m, parse (ser m) = m
}.

Lemma ser_inj {M} `{Codec M} (m1 m2 : M) : ser m1 = ser m2 → m1 = m2.
Proof. intros Heq. rewrite <- (parse_ser m1), <- (parse_ser m2). by rewrite Heq. Qed.

(** ** A codec for countable types: the bits of the code number *)

Fixpoint bits_to_string (p : positive) : string :=
  match p with
  | xH => ""
  | xO p => String "0" (bits_to_string p)
  | xI p => String "1" (bits_to_string p)
  end.

Fixpoint string_to_bits (s : string) : positive :=
  match s with
  | EmptyString => xH
  | String c s => if (c =? "0")%char then xO (string_to_bits s) else xI (string_to_bits s)
  end.

Lemma string_to_bits_to_string p : string_to_bits (bits_to_string p) = p.
Proof. induction p as [p IH|p IH|]; simpl; [by rewrite IH..|done]. Qed.

Definition bits_codec (M : Type) `{Countable M} `{Inhabited M} : Codec M.
Proof.
  refine {| ser m := bits_to_string (encode (Some m));
            parse s := default inhabitant (mjoin (decode (string_to_bits s))) |}.
  intros m. by rewrite string_to_bits_to_string, decode_encode.
Defined.

(** Parsing the empty string leaves every field at its default. *)
Lemma bits_codec_empty (M : Type) `{Countable M} `{Inhabited M} :
  @parse M (bits_codec M) "" = inhabitant.
Proof. reflexivity. Qed.
