(* ===== verification/StrongServer.v ===== *)
(** * The server of strongstore (store/strongstore/server.{h,cc},
    store/strongstore/strong-proto.proto)

    The application above the viewstamped-replication log: the leader votes on
    a prepare before it is replicated, all replicas execute the replicated
    requests.  The server is written against the [TxnStore] interface and its
    theorems against the laws of [StrongStore]; the mode selects the store. *)

From S2P Require Import Prelude Timestamp Transaction VersionStore TxnStore TrueTime Codec KVStore LockServer OccStore LockStore.

Inductive Mode := MODE_UNKNOWN | MODE_OCC | MODE_LOCK | MODE_SPAN_OCC | MODE_SPAN_LOCK.

#[global] Instance Mode_eq_dec : EqDecision Mode.
Proof. solve_decision. Defined.

(** ** Messages *)

Inductive Operation := GET | PREPARE | COMMIT | ABORT.

#[global] Instance Operation_eq_dec : EqDecision Operation.
Proof. solve_decision. Defined.

Record GetMessage := mkGet { gm_key : string; gm_timestamp : option TimestampMessage }.
Record PrepareMessage := mkPrepare { pm_txn : TransactionMessage; pm_timestamp : option Z }.

Record Request := mkRequest {
  rq_op : Operation;
  rq_txnid : Z;
  rq_get : option GetMessage;
  rq_prepare : option PrepareMessage;
  rq_commit : option Z;                    (* CommitMessage.timestamp *)
  rq_abort : option TransactionMessage     (* AbortMessage.txn *)
}.

Record Reply := mkReply {
  rp_status : Z;
  rp_value : option string;
  rp_timestamp : option Z
}.

#[global] Instance Operation_countable : Countable Operation :=
  inj_countable'
    (λ o, match o with GET => 0 | PREPARE => 1 | COMMIT => 2 | ABORT => 3 end)
    (λ n, match n with 0 => GET | 1 => PREPARE | 2 => COMMIT | _ => ABORT end)
    (λ o, match o with GET | PREPARE | COMMIT | ABORT => eq_refl end).
#[global] Instance GetMessage_eq_dec : EqDecision GetMessage.
Proof. solve_decision. Defined.
#[global] Instance GetMessage_countable : Countable GetMessage :=
  inj_countable' (λ m, (gm_key m, gm_timestamp m)) (λ p, mkGet p.1 p.2)
    (λ m, match m with mkGet _ _ => eq_refl end).
#[global] Instance PrepareMessage_eq_dec : EqDecision PrepareMessage.
Proof. solve_decision. Defined.
#[global] Instance PrepareMessage_countable : Countable PrepareMessage :=
  inj_countable' (λ m, (pm_txn m, pm_timestamp m)) (λ p, mkPrepare p.1 p.2)
    (λ m, match m with mkPrepare _ _ => eq_refl end).
#[global] Instance Request_eq_dec : EqDecision Request.
Proof. solve_decision. Defined.
#[global] Instance Request_countable : Countable Request :=
  inj_countable'
    (λ r, (rq_op r, rq_txnid r, rq_get r, (rq_prepare r, rq_commit r, rq_abort r)))
    (λ p, mkRequest p.1.1.1 p.1.1.2 p.1.2 p.2.1.1 p.2.1.2 p.2.2)
    (λ r, match r with mkRequest _ _ _ _ _ _ => eq_refl end).
#[global] Instance Reply_eq_dec : EqDecision Reply.
Proof. solve_decision. Defined.
#[global] Instance Reply_countable : Countable Reply :=
  inj_countable' (λ r, (rp_status r, rp_value r, rp_timestamp r))
    (λ p, mkReply p.1.1 p.1.2 p.2)
    (λ r, match r with mkReply _ _ _ => eq_refl end).
#[global] Instance Request_inhabited : Inhabited Request :=
  populate (mkRequest GET 0 None None None None).
#[global] Instance Reply_inhabited : Inhabited Reply := populate (mkReply 0 None None).

(** An unset submessage reads as its default instance. *)
Definition req_get (r : Request) : GetMessage := default (mkGet "" None) (rq_get r).
Definition req_prepare (r : Request) : PrepareMessage :=
  default (mkPrepare (mkTxnMsg [] []) None) (rq_prepare r).
Definition req_commit (r : Request) : Z := default 0 (rq_commit r).
Definition req_abort (r : Request) : TransactionMessage := default (mkTxnMsg [] []) (rq_abort r).

(** ** The server *)

Record Server (S : Type) := mkServer { mode : Mode; store : S; timeServer : TrueTime }.
Arguments mkServer {S} mode store timeServer.
Arguments mode {S} s.
Arguments store {S} s.
Arguments timeServer {S} s.

Definition with_store {S} (s : Server S) (x : S) : Server S :=
  mkServer (mode s) x (timeServer s).

Definition spanner (m : Mode) : bool :=
  match m with MODE_SPAN_LOCK | MODE_SPAN_OCC => true | _ => false end.

Section server.
Context {S : Type} `{TxnStore S} `{Codec Request} `{Codec Reply}.

(** The GET case, shared by [LeaderUpcall] and [UnloggedUpcall]. *)
Definition handle_get (s : Server S) (c : clock) (request : Request) :
    outcome (Reply * Server S) :=
  match gm_timestamp (req_get request) with
  | Some t =>
      r ← txn_Get_at (store s) c (rq_txnid request) (gm_key (req_get request)) (ts_of_msg t);
      Ret (mkReply r.1.1
             (if (r.1.1 =? 0)%Z then snd <$> r.1.2 else None) None,
           with_store s r.2)
  | None =>
      r ← txn_Get (store s) c (rq_txnid request) (gm_key (req_get request));
      Ret (mkReply r.1.1
             (if (r.1.1 =? 0)%Z then snd <$> r.1.2 else None)
             (if (r.1.1 =? 0)%Z then (λ v, getTimestamp v.1) <$> r.1.2 else None),
           with_store s r.2)
  end.

(** [request.mutable_prepare()->set_timestamp(t)] *)
Definition set_prepare_timestamp (request : Request) (t : Z) : Request :=
  mkRequest (rq_op request) (rq_txnid request) (rq_get request)
    (Some (mkPrepare (pm_txn (req_prepare request)) (Some t)))
    (rq_commit request) (rq_abort request).

(** [LeaderUpcall]: returns [replicate] and [str2].  [now] is the clock of
    [timeServer]. *)
Definition LeaderUpcall (s : Server S) (c : clock) (now : timeval) (opnum : Z) (str1 : string) :
    outcome ((bool * string) * Server S) :=
  let request := parse str1 in
  match rq_op request with
  | GET =>
      r ← handle_get s c request;
      Ret ((false, ser r.1), r.2)
  | PREPARE =>
      r ← txn_Prepare (store s) c (rq_txnid request) (txn_of_msg (pm_txn (req_prepare request)));
      if (r.1 =? 0)%Z then
        let request :=
          if spanner (mode s)
          then set_prepare_timestamp request (GetTime (timeServer s) now) else request in
        Ret ((true, ser request), with_store s r.2)
      else Ret ((false, ser (mkReply r.1 None None)), with_store s r.2)
  | COMMIT => Ret ((true, str1), s)
  | ABORT => Ret ((true, str1), s)
  end.

(** [ReplicaUpcall]: [str2] stays as it was ([None]) for a GET. *)
Definition ReplicaUpcall (s : Server S) (c : clock) (opnum : Z) (str1 : string) :
    outcome (option string * Server S) :=
  let request := parse str1 in
  match rq_op request with
  | GET => Ret (None, s)
  | PREPARE =>
      r ← txn_Prepare (store s) c (rq_txnid request) (txn_of_msg (pm_txn (req_prepare request)));
      Ret (Some (ser (mkReply 0 None
             (if spanner (mode s)
              then Some (default 0 (pm_timestamp (req_prepare request))) else None))),
           with_store s r.2)
  | COMMIT =>
      x ← txn_Commit (store s) (rq_txnid request) (req_commit request);
      Ret (Some (ser (mkReply 0 None None)), with_store s x)
  | ABORT =>
      x ← txn_Abort (store s) (rq_txnid request) (txn_of_msg (req_abort request));
      Ret (Some (ser (mkReply 0 None None)), with_store s x)
  end.

Definition UnloggedUpcall (s : Server S) (c : clock) (str1 : string) :
    outcome (string * Server S) :=
  let request := parse str1 in
  ASSERT! bool_decide (rq_op request = GET);
  r ← handle_get s c request;
  Ret (ser r.1, r.2).

Definition server_Load (s : Server S) (key value : string) (t : Timestamp) :
    outcome (Server S) :=
  x ← txn_Load (store s) key value t;
  Ret (with_store s x).

End server.

(** ** The store the constructor selects *)

(** [TxnStore *store]: calls go to the class of the object. *)
Section dispatch.
Context `{IO : IterOrder}.

#[global] Instance any_txnstore : TxnStore (LockStore + OCCStore) := {
  txn_Get s c id key :=
    match s with
    | inl x => r ← txn_Get x c id key; Ret (r.1, inl r.2)
    | inr x => r ← txn_Get x c id key; Ret (r.1, inr r.2)
    end;
  txn_Get_at s c id key t :=
    match s with
    | inl x => r ← txn_Get_at x c id key t; Ret (r.1, inl r.2)
    | inr x => r ← txn_Get_at x c id key t; Ret (r.1, inr r.2)
    end;
  txn_Put := @txn_Put _ base_store;
  txn_Prepare s c id txn :=
    match s with
    | inl x => r ← txn_Prepare x c id txn; Ret (r.1, inl r.2)
    | inr x => r ← txn_Prepare x c id txn; Ret (r.1, inr r.2)
    end;
  txn_Prepare_at := @txn_Prepare_at _ base_store;
  txn_Commit s id timestamp :=
    match s with
    | inl x => r ← txn_Commit x id timestamp; Ret (inl r)
    | inr x => r ← txn_Commit x id timestamp; Ret (inr r)
    end;
  txn_Abort s id txn :=
    match s with
    | inl x => r ← txn_Abort x id txn; Ret (inl r)
    | inr x => r ← txn_Abort x id txn; Ret (inr r)
    end;
  txn_Load s key value t :=
    match s with
    | inl x => r ← txn_Load x key value t; Ret (inl r)
    | inr x => r ← txn_Load x key value t; Ret (inr r)
    end
}.

#[global] Instance any_strong : StrongStore (LockStore + OCCStore).
Proof.
  refine {|
    store_ok s := match s with inl x => store_ok x | inr x => store_ok x end;
    prepared_txns s := match s with inl x => prepared_txns x | inr x => prepared_txns x end;
    present s := match s with inl x => present x | inr x => present x end |}.
  - intros [x|x] i j t u; apply ok_disjoint.
  - intros [x|x] c id key r s' Hs ([r' x'] & Hg & [= <- <-])%bind_Ret_inv; by eapply get_ok in Hg.
  - intros [x|x] c id key t r s' Hs ([r' x'] & Hg & [= <- <-])%bind_Ret_inv; by eapply get_at_ok in Hg.
  - intros [x|x] c id txn r s' Hs ([r' x'] & Hg & [= <- <-])%bind_Ret_inv; by eapply prepare_ok in Hg.
  - intros [x|x] id ts Hs Hid; destruct (commit_ok x id ts Hs Hid) as (x' & Hc & ? & ?).
    + exists (inl x'). split; [|done]. exact (f_equal (mbind (λ r, Ret (inl r))) Hc).
    + exists (inr x'). split; [|done]. exact (f_equal (mbind (λ r, Ret (inr r))) Hc).
  - intros [x|x] id ts Hid; pose proof (commit_fails x id ts Hid) as Hc.
    + exact (f_equal (mbind (λ r, Ret (inl r))) Hc).
    + exact (f_equal (mbind (λ r, Ret (inr r))) Hc).
  - intros [x|x] id txn Hs; destruct (abort_ok x id txn Hs) as (x' & Hc & ? & ?).
    + exists (inl x'). split; [|done]. exact (f_equal (mbind (λ r, Ret (inl r))) Hc).
    + exists (inr x'). split; [|done]. exact (f_equal (mbind (λ r, Ret (inr r))) Hc).
Defined.

End dispatch.

(** [Server(mode, skew, error)]; [r] is the random number of the skew. *)
Definition new_server (m : Mode) (skew error r : Z) : outcome (Server (LockStore + OCCStore)) :=
  match m with
  | MODE_LOCK | MODE_SPAN_LOCK =>
      Ret (mkServer m (inl new_lockstore) (truetime_with skew error r))
  | MODE_OCC | MODE_SPAN_OCC =>
      Ret (mkServer m (inr new_occstore) (truetime_with skew error r))
  | MODE_UNKNOWN => Panic
  end.

(** ** Votes and commits, for every strong store *)

Section laws.
Context {S : Type} `{StrongStore S} `{Codec Request} `{Codec Reply}.

(** Any upcall except the execution of a commit or abort of [id]. *)
Inductive other_upcall (id : Z) (s : Server S) : Server S → Prop :=
| up_leader c now op str1 r s' :
    LeaderUpcall s c now op str1 = Ret (r, s') → other_upcall id s s'
| up_unlogged c str1 r s' :
    UnloggedUpcall s c str1 = Ret (r, s') → other_upcall id s s'
| up_replica c op str1 r s' :
    ReplicaUpcall s c op str1 = Ret (r, s') →
    (rq_op (parse str1 : Request) = COMMIT ∨ rq_op (parse str1 : Request) = ABORT →
     rq_txnid (parse str1 : Request) ≠ id) →
    other_upcall id s s'.

Lemma handle_get_ok s c request r s' :
  store_ok (store s) → handle_get s c request = Ret (r, s') →
  store_ok (store s') ∧ prepared_txns (store s') = prepared_txns (store s).
Proof.
  intros Hs. unfold handle_get. case_match; rewrite bind_Ret_inv;
    intros ([r' x'] & Hg & [= _ <-]); simpl; [by eapply get_at_ok|by eapply get_ok].
Qed.

(** A prepare does not undo another one. *)
Lemma prepare_keeps s c id txn r s' i t :
  store_ok s → txn_Prepare s c id txn = Ret (r, s') →
  prepared_txns s !! i = Some t → prepared_txns s' !! i = Some t.
Proof.
  intros Hs Hp Hi. apply prepare_ok in Hp as (_ & -> & _); [|done].
  case_decide as Hd; [|done]. rewrite lookup_insert_ne; [done|]. intros <-. naive_solver.
Qed.

Lemma other_upcall_ok id s s' t :
  store_ok (store s) → prepared_txns (store s) !! id = Some t → other_upcall id s s' →
  store_ok (store s') ∧ prepared_txns (store s') !! id = Some t.
Proof.
  intros Hs Hid [c now op str1 r s1 Hu|c str1 r s1 Hu|c op str1 r s1 Hu Hne].
  - unfold LeaderUpcall in Hu. destruct (rq_op (parse str1)).
    + apply bind_Ret_inv in Hu as ([r' x'] & Hg & [= _ <-]).
      apply handle_get_ok in Hg as [? Hp]; [|done]. simpl. by rewrite Hp.
    + apply bind_Ret_inv in Hu as ([v x'] & Hp & Hr).
      assert (s1 = with_store s x') as -> by (case_match; by simplify_eq/=).
      split; [by eapply prepare_ok in Hp as [? _]|by eapply prepare_keeps].
    + by simplify_eq.
    + by simplify_eq.
  - unfold UnloggedUpcall in Hu. apply ASSERT_bind in Hu as [_ Hu].
    apply bind_Ret_inv in Hu as ([r' x'] & Hg & [= _ <-]).
    apply handle_get_ok in Hg as [? Hp]; [|done]. simpl. by rewrite Hp.
  - unfold ReplicaUpcall in Hu. destruct (rq_op (parse str1)).
    + by simplify_eq.
    + apply bind_Ret_inv in Hu as ([v x'] & Hp & [= _ <-]).
      split; [by eapply prepare_ok in Hp as [? _]|by eapply prepare_keeps].
    + apply bind_Ret_inv in Hu as (x' & Hc & [= _ <-]). simpl.
      destruct (prepared_txns (store s) !! rq_txnid (parse str1)) as [u|] eqn:Hu.
      * destruct (commit_ok (store s) (rq_txnid (parse str1)) (req_commit (parse str1)) Hs)
          as (x1 & Hc1 & ? & Hp); [by eexists|]. rewrite Hc in Hc1. injection Hc1 as <-.
        split; [done|]. rewrite Hp, lookup_delete_ne by (apply Hne; auto). done.
      * by rewrite commit_fails in Hc.
    + apply bind_Ret_inv in Hu as (x' & Hc & [= _ <-]). simpl.
      destruct (abort_ok (store s) (rq_txnid (parse str1)) (txn_of_msg (req_abort (parse str1))) Hs)
        as (x1 & Hc1 & ? & Hp). rewrite Hc in Hc1. injection Hc1 as <-. split; [done|].
      rewrite Hp, lookup_delete_ne by (apply Hne; auto). done.
Qed.

(** C36. A vote is a promise.  If the leader replicates a prepare of [id], the
    replicated request names the same transaction, and after any further
    upcalls other than a commit or abort of [id], in any order, executing the
    commit of [id] succeeds with status OK; meanwhile no prepared transaction
    conflicts with it. *)
Theorem strong_vote_is_promise s c now op req str2 s1 s2 c' op' ts :
  store_ok (store s) → rq_op req = PREPARE →
  LeaderUpcall s c now op (ser req) = Ret ((true, str2), s1) →
  rtc (other_upcall (rq_txnid req)) s1 s2 →
  rq_txnid (parse str2) = rq_txnid req ∧
  pm_txn (req_prepare (parse str2)) = pm_txn (req_prepare req) ∧
  (∃ t, prepared_txns (store s2) !! rq_txnid req = Some t ∧
     ∀ i u, i ≠ rq_txnid req → prepared_txns (store s2) !! i = Some u →
       ¬ conflict (present (store s2)) t u) ∧
  ∃ s3, ReplicaUpcall s2 c' op'
          (ser (mkRequest COMMIT (rq_txnid req) None None (Some ts) None)) =
        Ret (Some (ser (mkReply 0 None None)), s3) ∧
        prepared_txns (store s3) !! rq_txnid req = None.
Proof.
  intros Hs Hop Hl Hsteps. unfold LeaderUpcall in Hl. rewrite parse_ser, Hop in Hl.
  apply bind_Ret_inv in Hl as ([v x] & Hp & Hr). simpl in Hr.
  destruct (Z.eqb_spec v 0) as [->|]; [|done]. injection Hr as <- <-.
  split; [rewrite parse_ser; by destruct (spanner (mode s))|].
  split; [rewrite parse_ser; by destruct (spanner (mode s))|].
  assert (store_ok x ∧ ∃ t, prepared_txns x !! rq_txnid req = Some t) as (Hx & t & Ht).
  { apply prepare_ok in Hp as (Hx & Heq & _); [|done]. split; [done|]. rewrite Heq. case_decide as Hd.
    - rewrite lookup_insert_eq. eauto.
    - destruct (prepared_txns (store s) !! rq_txnid req); [eauto|]. destruct Hd. done. }
  assert (store_ok (store s2) ∧ prepared_txns (store s2) !! rq_txnid req = Some t) as [Hs2 Ht2].
  { revert s2 Hsteps. apply rtc_ind_r; [done|]. intros s' s'' _ Hstep [??].
    by eapply other_upcall_ok. }
  split; [exists t; split; [done|]; intros i u Hi Hu; by eapply ok_disjoint|].
  unfold ReplicaUpcall. rewrite parse_ser. simpl.
  destruct (commit_ok (store s2) (rq_txnid req) ts Hs2) as (x3 & Hc & _ & Hp3); [by eexists|].
  unfold req_commit; simpl. rewrite Hc. simpl. eexists. split; [done|]. simpl.
  by rewrite Hp3, lookup_delete_eq.
Qed.

End laws.

(** ** An example: a blind write is voted on and committed *)

Definition demo_request : Request :=
  mkRequest PREPARE 7 None (Some (mkPrepare (mkTxnMsg [] [mkWrite "x" "1"]) None)) None None.

Definition demo_server : Server (LockStore + OCCStore) :=
  mkServer MODE_SPAN_OCC (inr new_occstore) new_truetime.

Definition demo_clk : clock := λ _ _, (mkTV 0 0, mkTV 0 0).

Lemma new_occstore_ok :
  @store_ok _ _ (@any_strong canonical_order) (inr new_occstore).
Proof.
  split; [apply vs_wf_empty|]. simpl. intros i j t u Hi. by rewrite lookup_empty in Hi.
Qed.

Lemma strong_vote_is_promise_witness :
  ∃ str2 s1 s3,
    @LeaderUpcall _ (@any_txnstore canonical_order) (bits_codec Request) (bits_codec Reply)
      demo_server demo_clk (mkTV 5 6) 1 (@ser _ (bits_codec Request) demo_request)
      = Ret ((true, str2), s1) ∧
    @ReplicaUpcall _ (@any_txnstore canonical_order) (bits_codec Request) (bits_codec Reply)
      s1 demo_clk 2 (@ser _ (bits_codec Request) (mkRequest COMMIT 7 None None (Some 9) None))
      = Ret (Some (@ser _ (bits_codec Reply) (mkReply 0 None None)), s3).
Proof.
  destruct (@LeaderUpcall _ (@any_txnstore canonical_order) (bits_codec Request) (bits_codec Reply)
      demo_server demo_clk (mkTV 5 6) 1 (@ser _ (bits_codec Request) demo_request))
    as [[[b str2] s1]|] eqn:Hl; [|vm_compute in Hl; discriminate].
  assert (b = true) as -> by (vm_compute in Hl; by injection Hl).
  destruct (@strong_vote_is_promise _ (@any_txnstore canonical_order) (@any_strong canonical_order)
    (bits_codec Request) (bits_codec Reply)
    demo_server demo_clk (mkTV 5 6) 1 demo_request str2 s1 s1 demo_clk 2 9)
    as (_ & _ & _ & s3 & Hr & _).
  - apply new_occstore_ok.
  - reflexivity.
  - exact Hl.
  - apply rtc_refl.
  - exists str2, s1, s3. split; [reflexivity|exact Hr].
Defined.
