(* ===== verification/Quorum.v ===== *)
(** * Configurations and quorums (lib/configuration.{h,cc},
    replication/common/quorumset.h, replication/common/viewstamp.h)

    The sizes of quorums, why they intersect, and the structure that collects
    messages until there are enough senders. *)

From S2P Require Import Prelude.

(** ** Configuration *)

Record ReplicaAddress := mkAddr { host : string; port : string }.

#[global] Instance ReplicaAddress_eq_dec : EqDecision ReplicaAddress.
Proof. solve_decision. Defined.

Record Configuration := mkConfig {
  n : Z;
  f : Z;
  replicas : list ReplicaAddress;
  multicastAddress : option ReplicaAddress   (* set iff hasMulticast *)
}.

Definition GetLeaderIndex (c : Configuration) (view : Z) : Z := view mod n c.

Definition QuorumSize (c : Configuration) : Z := f c + 1.

Definition FastQuorumSize (c : Configuration) : Z := f c + Z.quot (f c + 1) 2 + 1.

(** [replica(idx)]; an index outside the vector is undefined behaviour. *)
Definition replica (c : Configuration) (idx : Z) : option ReplicaAddress :=
  replicas c !! Z.to_nat idx.

Definition multicast (c : Configuration) : option ReplicaAddress := multicastAddress c.

Definition addr_eq (a b : ReplicaAddress) : bool :=
  (host a =? host b)%string && (port a =? port b)%string.

(** [operator==] of [Configuration] *)
Definition config_eq (a b : Configuration) : bool :=
  if negb (n a =? n b)%Z || negb (f a =? f b)%Z ||
     negb (bool_decide (replicas a = replicas b)) ||
     negb (Bool.eqb (bool_decide (is_Some (multicastAddress a)))
                    (bool_decide (is_Some (multicastAddress b))))
  then false
  else
    match multicastAddress a, multicastAddress b with
    | Some x, Some y => addr_eq x y
    | _, _ => true
    end.

(** A configuration that tolerates [f] failures. *)
Definition config_ok (c : Configuration) : Prop := 0 ≤ f c ∧ n c = 2 * f c + 1.

(** The replicas of a configuration. *)
Definition all_replicas (c : Configuration) : gset Z := list_to_set (seqZ 0 (n c)).

Lemma all_replicas_size c : config_ok c → Z.of_nat (size (all_replicas c)) = n c.
Proof.
  intros [Hf Hn]. unfold all_replicas. rewrite size_list_to_set by apply NoDup_seqZ.
  rewrite length_seqZ. lia.
Qed.

(** Two sets of replicas whose sizes add up to more than [n + k - 1] share
    [k] replicas. *)
Lemma overlap c (X Y : gset Z) :
  config_ok c → X ⊆ all_replicas c → Y ⊆ all_replicas c →
  Z.of_nat (size X) + Z.of_nat (size Y) - n c ≤ Z.of_nat (size (X ∩ Y)).
Proof.
  intros Hc HX HY. rewrite <- (all_replicas_size c Hc).
  pose proof (size_union_alt X Y) as Hu. pose proof (subseteq_size (X ∪ Y) (all_replicas c)) as Hs.
  assert (size (Y ∖ X) + size (X ∩ Y) = size Y)%nat as Hd.
  { rewrite <- (size_union (Y ∖ X) (X ∩ Y)) by set_solver. f_equal. apply set_eq. intros x.
    destruct (decide (x ∈ X)); set_solver. }
  assert (X ∪ Y ⊆ all_replicas c) as Hsub by set_solver. specialize (Hs Hsub). lia.
Qed.

Lemma fast_quorum_half c : 0 ≤ f c → Z.quot (f c + 1) 2 = (f c + 1) / 2.
Proof. intros. apply Z.quot_div_nonneg; lia. Qed.

(** Quorums intersect.  With [n = 2f+1] any two quorums share a replica;
    a quorum contains more than half (at least ceil(f/2)+1) of its members from
    any fast quorum; and any two fast quorums and a quorum share a replica. *)
Theorem quorum_intersection c (X Y F : gset Z) :
  config_ok c → X ⊆ all_replicas c → Y ⊆ all_replicas c → F ⊆ all_replicas c →
  QuorumSize c ≤ Z.of_nat (size X) → QuorumSize c ≤ Z.of_nat (size Y) →
  FastQuorumSize c ≤ Z.of_nat (size F) →
  (∃ r, r ∈ X ∩ Y) ∧
  (f c + 1) / 2 + 1 ≤ Z.of_nat (size (X ∩ F)) ∧
  (∀ G, G ⊆ all_replicas c → FastQuorumSize c ≤ Z.of_nat (size G) → ∃ r, r ∈ X ∩ F ∩ G).
Proof.
  intros Hc HX HY HF HsX HsY HsF. pose proof Hc as [Hf Hn].
  unfold QuorumSize, FastQuorumSize in *. rewrite fast_quorum_half in * by lia.
  assert (∀ Z0 : gset Z, 0 < Z.of_nat (size Z0) → ∃ r, r ∈ Z0) as Hne.
  { intros Z0 Hs. apply set_choose_L. intros ->. rewrite size_empty in Hs. lia. }
  split_and!.
  - apply Hne. pose proof (overlap c X Y Hc HX HY). lia.
  - pose proof (overlap c X F Hc HX HF). lia.
  - intros G HG HsG. apply Hne.
    pose proof (overlap c F G Hc HF HG). assert (F ∩ G ⊆ all_replicas c) as HFG by set_solver.
    pose proof (overlap c X (F ∩ G) Hc HX HFG) as Ho.
    replace (X ∩ F ∩ G) with (X ∩ (F ∩ G)) by set_solver.
    pose proof (Z.div_mod (f c + 1) 2). pose proof (Z.mod_pos_bound (f c + 1) 2). lia.
Qed.

Definition demo_config : Configuration := mkConfig 3 1 [] None.

Lemma quorum_intersection_witness :
  (f demo_config + 1) / 2 + 1 ≤ Z.of_nat (size (({[0; 1]} : gset Z) ∩ {[0; 1; 2]})).
Proof.
  apply (quorum_intersection demo_config {[0; 1]} {[1; 2]} {[0; 1; 2]}).
  - unfold config_ok. simpl. lia.
  - apply (bool_decide_unpack _). vm_compute. exact I.
  - apply (bool_decide_unpack _). vm_compute. exact I.
  - apply (bool_decide_unpack _). vm_compute. exact I.
  - vm_compute. discriminate.
  - vm_compute. discriminate.
  - vm_compute. discriminate.
Defined.

(** ** Viewstamps *)

Record viewstamp := mkVS { vs_view : Z; vs_opnum : Z }.

#[global] Instance viewstamp_eq_dec : EqDecision viewstamp.
Proof. solve_decision. Defined.
#[global] Instance viewstamp_countable : Countable viewstamp :=
  inj_countable' (λ v, (vs_view v, vs_opnum v)) (λ p, mkVS p.1 p.2)
    (λ v, match v with mkVS _ _ => eq_refl end).

(** ** Quorum sets *)

Section quorumset.
Context {ID MSG : Type} `{Countable ID}.

Record QuorumSet := mkQS { numRequired : Z; messages : gmap ID (gmap Z MSG) }.

Definition new_quorumset (num : Z) : QuorumSet := mkQS num ∅.

(** [messages[vs]] *)
Definition messages_of (q : QuorumSet) (vs : ID) : gmap Z MSG := default ∅ (messages q !! vs).

Definition set_messages (q : QuorumSet) (vs : ID) (m : gmap Z MSG) : QuorumSet :=
  mkQS (numRequired q) (<[vs := m]> (messages q)).

Definition qs_Clear (q : QuorumSet) : QuorumSet := mkQS (numRequired q) ∅.

Definition qs_Clear_at (q : QuorumSet) (vs : ID) : QuorumSet := set_messages q vs ∅.

Definition GetMessages (q : QuorumSet) (vs : ID) : gmap Z MSG * QuorumSet :=
  (messages_of q vs, set_messages q vs (messages_of q vs)).

Definition CheckForQuorum (q : QuorumSet) (vs : ID) : option (gmap Z MSG) * QuorumSet :=
  let vsmessages := messages_of q vs in
  let q' := set_messages q vs vsmessages in
  if (numRequired q <=? Z.of_nat (size vsmessages))%Z then (Some vsmessages, q') else (None, q').

(** [CheckForQuorum()] over all ids, in the order [le] of the [std::map]. *)
Definition CheckForQuorum_any (le : relation ID) `{∀ x y, Decision (le x y)} (q : QuorumSet) :
    option (gmap Z MSG) :=
  for_first (λ p, (CheckForQuorum q p.1).1) (omap_iter le (messages q)).

Definition AddAndCheckForQuorum (q : QuorumSet) (vs : ID) (replicaIdx : Z) (msg : MSG) :
    option (gmap Z MSG) * QuorumSet :=
  CheckForQuorum (set_messages q vs (<[replicaIdx := msg]> (messages_of q vs))) vs.

Definition qs_Add (q : QuorumSet) (vs : ID) (replicaIdx : Z) (msg : MSG) : QuorumSet :=
  (AddAndCheckForQuorum q vs replicaIdx msg).2.

Lemma messages_of_set q vs m vs' :
  messages_of (set_messages q vs m) vs' = if decide (vs = vs') then m else messages_of q vs'.
Proof. unfold messages_of, set_messages; simpl. rewrite lookup_insert. by case_decide. Qed.

Lemma CheckForQuorum_spec q vs :
  (CheckForQuorum q vs).1 =
    (if (numRequired q <=? Z.of_nat (size (messages_of q vs)))%Z
     then Some (messages_of q vs) else None) ∧
  (∀ vs', messages_of (CheckForQuorum q vs).2 vs' = messages_of q vs') ∧
  numRequired (CheckForQuorum q vs).2 = numRequired q.
Proof.
  unfold CheckForQuorum. destruct (_ <=? _)%Z; simpl; (split; [done|]); (split; [|done]);
    intros vs'; rewrite messages_of_set; by case_decide; subst.
Qed.

Lemma AddAndCheck_spec q vs r m :
  let mm := <[r := m]> (messages_of q vs) in
  (AddAndCheckForQuorum q vs r m).1 =
    (if (numRequired q <=? Z.of_nat (size mm))%Z then Some mm else None) ∧
  (∀ vs', messages_of (AddAndCheckForQuorum q vs r m).2 vs' =
          if decide (vs = vs') then mm else messages_of q vs') ∧
  numRequired (AddAndCheckForQuorum q vs r m).2 = numRequired q.
Proof.
  unfold AddAndCheckForQuorum.
  destruct (CheckForQuorum_spec (set_messages q vs (<[r := m]> (messages_of q vs))) vs)
    as (H1 & H2 & H3). rewrite messages_of_set, decide_True in H1 by done.
  split_and!; [done| |done]. intros vs'. by rewrite H2, messages_of_set.
Qed.

(** Messages that arrived, oldest first: id, sender, message. *)
Notation arrivals := (list (ID * Z * MSG)).

Definition qs_adds (num : Z) (l : arrivals) : QuorumSet :=
  foldl (λ q a, qs_Add q a.1.1 a.1.2 a.2) (new_quorumset num) l.

(** The senders of messages for [vs]. *)
Definition senders (vs : ID) (l : arrivals) : gset Z :=
  list_to_set ((λ a, a.1.2) <$> filter (λ a, a.1.1 = vs) l).

Definition latest_from (vs : ID) (r : Z) (l : arrivals) : option MSG :=
  snd <$> last (filter (λ a, a.1 = (vs, r)) l).

Lemma qs_adds_spec num l vs :
  numRequired (qs_adds num l) = num ∧
  (∀ r, messages_of (qs_adds num l) vs !! r = latest_from vs r l) ∧
  dom (messages_of (qs_adds num l) vs) = senders vs l.
Proof.
  induction l as [|[[v r] m] l IH] using rev_ind.
  { unfold messages_of, qs_adds; simpl. rewrite lookup_empty. simpl.
    split; [done|]. split; [|by rewrite dom_empty_L]. intros r. by rewrite lookup_empty. }
  unfold qs_adds. rewrite foldl_app. simpl. fold (qs_adds num l). unfold qs_Add.
  destruct (AddAndCheck_spec (qs_adds num l) v r m) as (_ & Hm & Hn). destruct IH as (IHn & IHl & IHd).
  split; [by rewrite Hn|]. unfold latest_from, senders. rewrite Hm.
  split; [intros r'|]; rewrite filter_app, filter_cons, filter_nil; simpl.
  - destruct (decide (v = vs)) as [->|Hv].
    + destruct (decide (r = r')) as [->|Hr].
      * rewrite lookup_insert_eq, decide_True by done. by rewrite last_snoc.
      * rewrite lookup_insert_ne, decide_False by congruence. rewrite app_nil_r. apply IHl.
    + rewrite decide_False by congruence. rewrite app_nil_r. apply IHl.
  - destruct (decide (v = vs)) as [->|Hv].
    + rewrite dom_insert_L, IHd, fmap_app, list_to_set_app_L. simpl. set_solver.
    + by rewrite app_nil_r, IHd.
Qed.

(** A quorum set counts senders.  After any arrivals, the check for an id
    succeeds exactly when the number of different replicas that sent a message
    for it reaches the required number, and then returns the latest message of
    each of them; duplicates never count twice. *)
Theorem quorumset_counts_senders num (l : arrivals) vs :
  (is_Some (CheckForQuorum (qs_adds num l) vs).1 ↔ num ≤ Z.of_nat (size (senders vs l))) ∧
  (∀ m, (CheckForQuorum (qs_adds num l) vs).1 = Some m → ∀ r, m !! r = latest_from vs r l).
Proof.
  destruct (qs_adds_spec num l vs) as (Hn & Hl & Hd).
  destruct (CheckForQuorum_spec (qs_adds num l) vs) as (Hc & _). rewrite Hc, Hn.
  assert (size (messages_of (qs_adds num l) vs) = size (senders vs l)) as ->
    by (rewrite <- Hd; symmetry; apply size_dom).
  destruct (Z.leb_spec num (Z.of_nat (size (senders vs l)))); split.
  - by split.
  - intros m [= <-] r. apply Hl.
  - split; [by intros []|lia].
  - done.
Qed.

End quorumset.
Arguments QuorumSet ID MSG {_ _}.
