(* ===== verification/IRRecord.v ===== *)
(** * The record of an IR replica (replication/ir/record.{h,cc},
    replication/ir/ir-proto.proto, replication/common/request.proto)

    Inconsistent replication keeps, instead of an ordered log, a record: a map
    from operation ids to entries. *)

From S2P Require Import Prelude.

(** [std::pair<uint64_t, uint64_t>]: client id and request id. *)
Notation opid_t := (Z * Z)%type.

(** The order of [std::pair]. *)
Definition opid_le (a b : opid_t) : Prop := a.1 < b.1 ∨ a.1 = b.1 ∧ a.2 ≤ b.2.

#[global] Instance opid_le_dec a b : Decision (opid_le a b).
Proof. unfold opid_le. apply _. Defined.

Inductive RecordEntryState := RECORD_STATE_TENTATIVE | RECORD_STATE_FINALIZED.
Inductive RecordEntryType := RECORD_TYPE_INCONSISTENT | RECORD_TYPE_CONSENSUS.

#[global] Instance RecordEntryState_eq_dec : EqDecision RecordEntryState.
Proof. solve_decision. Defined.
#[global] Instance RecordEntryType_eq_dec : EqDecision RecordEntryType.
Proof. solve_decision. Defined.

(** [Request] of request.proto. *)
Record Request := mkReq { req_op : string; req_clientid : Z; req_clientreqid : Z }.

Record RecordEntry := mkEnt {
  ent_view : Z;
  ent_opid : opid_t;
  ent_state : RecordEntryState;
  ent_type : RecordEntryType;
  ent_request : Request;
  ent_result : string
}.

#[global] Instance Request_eq_dec : EqDecision Request.
Proof. solve_decision. Defined.
#[global] Instance RecordEntry_eq_dec : EqDecision RecordEntry.
Proof. solve_decision. Defined.

(** The class [Record]: [std::map<opid_t, RecordEntry> entries]. *)
Notation IRRecord := (gmap opid_t RecordEntry).

Definition with_state (e : RecordEntry) (x : RecordEntryState) : RecordEntry :=
  mkEnt (ent_view e) (ent_opid e) x (ent_type e) (ent_request e) (ent_result e).
Definition with_result (e : RecordEntry) (x : string) : RecordEntry :=
  mkEnt (ent_view e) (ent_opid e) (ent_state e) (ent_type e) (ent_request e) x.
Definition with_request (e : RecordEntry) (x : Request) : RecordEntry :=
  mkEnt (ent_view e) (ent_opid e) (ent_state e) (ent_type e) x (ent_result e).

(** [Add(const RecordEntry &)] *)
Definition Add_entry (r : IRRecord) (e : RecordEntry) : outcome IRRecord :=
  ASSERT! bool_decide (r !! ent_opid e = None);
  Ret (<[ent_opid e := e]> r).

(** [Add(view, opid, request, state, type)] *)
Definition Add (r : IRRecord) (view : Z) (opid : opid_t) (request : Request)
    (state : RecordEntryState) (type : RecordEntryType) : outcome IRRecord :=
  Add_entry r (mkEnt view opid state type request "").

(** [Add(view, opid, request, state, type, result)]: the entry added by the
    overload above gets the result. *)
Definition Add_result (r : IRRecord) (view : Z) (opid : opid_t) (request : Request)
    (state : RecordEntryState) (type : RecordEntryType) (result : string) : outcome IRRecord :=
  r' ← Add r view opid request state type;
  Ret (alter (λ e, with_result e result) opid r').

Definition Find (r : IRRecord) (opid : opid_t) : outcome (option RecordEntry) :=
  match r !! opid with
  | None => Ret None
  | Some e => ASSERT! bool_decide (ent_opid e = opid); Ret (Some e)
  end.

Definition SetStatus (r : IRRecord) (op : opid_t) (state : RecordEntryState) :
    outcome (bool * IRRecord) :=
  e ← Find r op;
  match e with
  | None => Ret (false, r)
  | Some e => Ret (true, <[op := with_state e state]> r)
  end.

Definition SetResult (r : IRRecord) (op : opid_t) (result : string) : outcome (bool * IRRecord) :=
  e ← Find r op;
  match e with
  | None => Ret (false, r)
  | Some e => Ret (true, <[op := with_result e result]> r)
  end.

Definition SetRequest (r : IRRecord) (op : opid_t) (req : Request) : outcome (bool * IRRecord) :=
  e ← Find r op;
  match e with
  | None => Ret (false, r)
  | Some e => Ret (true, <[op := with_request e req]> r)
  end.

Definition Remove (r : IRRecord) (opid : opid_t) : IRRecord := delete opid r.

Definition Empty (r : IRRecord) : bool := bool_decide (r = ∅).

(** ** The message form *)

Record RecordEntryProto := mkEntP {
  ep_view : Z;
  ep_opid : opid_t;
  ep_state : RecordEntryState;
  ep_type : RecordEntryType;
  ep_op : string;
  ep_result : string
}.

(** [ToProto]: entries in the order of the map. *)
Definition ToProto (r : IRRecord) : list RecordEntryProto :=
  (λ p : opid_t * RecordEntry,
     mkEntP (ent_view p.2) (ent_opid p.2) (ent_state p.2) (ent_type p.2)
       (req_op (ent_request p.2)) (ent_result p.2)) <$> omap_iter opid_le r.

(** [Record(const proto::RecordProto &)] *)
Definition record_of_proto (m : list RecordEntryProto) : outcome IRRecord :=
  for_each (λ r p,
    let opid := ep_opid p in
    let request := mkReq (ep_op p) opid.1 opid.2 in
    Add_result r (ep_view p) opid request (ep_state p) (ep_type p) (ep_result p)) ∅ m.

(** ** Well-formed records

    Entries are stored under their operation id, which is that of the request
    they carry. *)
Definition entry_at (k : opid_t) (e : RecordEntry) : Prop :=
  ent_opid e = k ∧ (req_clientid (ent_request e), req_clientreqid (ent_request e)) = k.

Definition rec_wf (r : IRRecord) : Prop := ∀ k e, r !! k = Some e → entry_at k e.

Lemma rec_wf_empty : rec_wf ∅.
Proof. intros k e. by rewrite lookup_empty. Qed.

Lemma rec_wf_insert r k e : rec_wf r → entry_at k e → rec_wf (<[k := e]> r).
Proof. intros Hr He k' e'. rewrite lookup_insert_Some. intros [[<- <-]|[_ ?]]; auto. Qed.

Lemma rec_wf_delete r k : rec_wf r → rec_wf (Remove r k).
Proof. unfold Remove. intros Hr k' e' [_ ?]%lookup_delete_Some. auto. Qed.

#[export] Hint Resolve rec_wf_empty rec_wf_insert rec_wf_delete : tapir.

Lemma Find_wf r opid : rec_wf r → Find r opid = Ret (r !! opid).
Proof.
  intros Hr. unfold Find. destruct (r !! opid) as [e|] eqn:He; [|done].
  destruct (Hr _ _ He) as [-> _]. by rewrite bool_decide_eq_true_2.
Qed.

Lemma Add_fresh r view opid req state type :
  r !! opid = None →
  Add r view opid req state type = Ret (<[opid := mkEnt view opid state type req ""]> r).
Proof.
  intros Hr. unfold Add, Add_entry. simpl. by rewrite bool_decide_eq_true_2.
Qed.

Lemma Add_result_fresh r view opid req state type result :
  r !! opid = None →
  Add_result r view opid req state type result =
    Ret (<[opid := mkEnt view opid state type req result]> r).
Proof.
  intros Hr. unfold Add_result. rewrite Add_fresh by done. simpl. by rewrite alter_insert_eq.
Qed.

Lemma Add_result_dup r view opid req state type result e :
  r !! opid = Some e → Add_result r view opid req state type result = Panic.
Proof.
  intros Hr. unfold Add_result, Add, Add_entry. simpl. rewrite Hr.
  by rewrite bool_decide_eq_false_2.
Qed.

Lemma SetStatus_wf r op e state :
  rec_wf r → r !! op = Some e → SetStatus r op state = Ret (true, <[op := with_state e state]> r).
Proof. intros Hr He. unfold SetStatus. rewrite Find_wf by done. simpl. by rewrite He. Qed.

Lemma entry_at_state k e x : entry_at k e → entry_at k (with_state e x).
Proof. done. Qed.
Lemma entry_at_result k e x : entry_at k e → entry_at k (with_result e x).
Proof. done. Qed.
Lemma entry_at_new v state type req res :
  entry_at (req_clientid req, req_clientreqid req)
    (mkEnt v (req_clientid req, req_clientreqid req) state type req res).
Proof. done. Qed.
#[export] Hint Resolve entry_at_state entry_at_result entry_at_new : tapir.

(** Adding the entries of a list without duplicates. *)
Lemma record_of_proto_list (l : list (opid_t * RecordEntry)) r :
  NoDup l.*1 → (∀ k, k ∈ l.*1 → r !! k = None) → Forall (λ p, entry_at p.1 p.2) l →
  for_each (λ r p,
    let opid := ep_opid p in
    let request := mkReq (ep_op p) opid.1 opid.2 in
    Add_result r (ep_view p) opid request (ep_state p) (ep_type p) (ep_result p)) r
    ((λ p : opid_t * RecordEntry,
       mkEntP (ent_view p.2) (ent_opid p.2) (ent_state p.2) (ent_type p.2)
         (req_op (ent_request p.2)) (ent_result p.2)) <$> l) =
  Ret (list_to_map l ∪ r).
Proof.
  revert r. induction l as [|[k e] l IH]; intros r Hnd Hfr Hwf; simpl.
  { by rewrite left_id_L by apply _. }
  apply NoDup_cons in Hnd as [Hk Hnd]. apply Forall_cons in Hwf as [[He1 He2] Hwf]. simpl in *.
  rewrite Add_result_fresh by (rewrite He1; apply Hfr; apply list_elem_of_here). simpl.
  rewrite IH; [|done| |done].
  - f_equal. rewrite He1, <- insert_union_l, <- insert_union_r.
    + destruct e as [v o s t [op c q] res]; simpl in *. by simplify_eq/=.
    + by apply not_elem_of_list_to_map_1.
  - intros k' Hk'. rewrite lookup_insert_ne; [apply Hfr; by apply list_elem_of_further|].
    rewrite He1. by intros ->.
Qed.

Lemma record_of_proto_ToProto r :
  rec_wf r → record_of_proto (ToProto r) = Ret r.
Proof.
  intros Hr. unfold record_of_proto, ToProto.
  pose proof (omap_iter_perm opid_le r) as Hp. rewrite record_of_proto_list.
  - rewrite right_id_L by apply _. f_equal.
    rewrite (list_to_map_proper _ (map_to_list r)); [apply list_to_map_to_list| |done].
    rewrite Hp. apply NoDup_fst_map_to_list.
  - rewrite Hp. apply NoDup_fst_map_to_list.
  - intros k _. apply lookup_empty.
  - rewrite Hp. apply Forall_forall. intros [k e] Hin%elem_of_map_to_list. by apply Hr.
Qed.

(** A parsed record is well-formed. *)
Lemma record_of_proto_wf m r : record_of_proto m = Ret r → rec_wf r.
Proof.
  unfold record_of_proto. assert (rec_wf ∅) as H0 by apply rec_wf_empty. revert H0.
  generalize (∅ : IRRecord) as r0. induction m as [|p m IH]; intros r0 H0; simpl; [by intros [= <-]|].
  destruct (r0 !! ep_opid p) as [e|] eqn:He.
  - by rewrite (Add_result_dup _ _ _ _ _ _ _ _ He).
  - rewrite Add_result_fresh by done. simpl. apply IH. apply rec_wf_insert; [done|].
    split; [done|]. simpl. by destruct (ep_opid p).
Qed.

(** A replica's record survives the trip to another replica: encoding it in
    a message and rebuilding it there gives the same record exactly when it is
    well-formed, that is every entry is stored under the operation id of its
    own request. *)
Theorem record_roundtrip r :
  record_of_proto (ToProto r) = Ret r ↔ rec_wf r.
Proof. split; [apply record_of_proto_wf|apply record_of_proto_ToProto]. Qed.
