(* ===== verification/AppReplica.v ===== *)
(** * The base class of replicas (replication/common/replica.{h,cc}, replica-inl.h)

    The status of a replica and the interface of the application that viewstamped
    replication drives: [AppReplica].  An upcall may stop the program. *)

From S2P Require Import Prelude IRRecord.

Inductive ReplicaStatus := STATUS_NORMAL | STATUS_VIEW_CHANGE | STATUS_RECOVERING.

#[global] Instance ReplicaStatus_eq_dec : EqDecision ReplicaStatus.
Proof. solve_decision. Defined.

(** The out-parameters are results: [replicate] and [str2]; [str2] is empty
    before the call. *)
Class AppReplica (A : Type) := {
  LeaderUpcall : A → Z → string → outcome ((bool * string) * A);
  ReplicaUpcall : A → Z → string → outcome (string * A);
  UnloggedUpcall : A → string → outcome (string * A)
}.

(** The default methods of the class. *)
Definition base_app : AppReplica unit := {|
  LeaderUpcall a _ str1 := Ret ((true, str1), a);
  ReplicaUpcall a _ _ := Ret ("", a);
  UnloggedUpcall a _ := Ret ("", a)
|}.

Section execute.
Context {A : Type} `{AppReplica A}.

(** The reply's [reply] field. *)
Definition Execute (a : A) (opnum : Z) (msg : Request) : outcome (string * A) :=
  ReplicaUpcall a opnum (req_op msg).
Definition ExecuteUnlogged (a : A) (msg : Request) : outcome (string * A) :=
  UnloggedUpcall a (req_op msg).

End execute.
