(* ===== verification/IRReplica.v ===== *)
(** * The replica of inconsistent replication (replication/ir/replica.{h,cc})

    Handlers are functions from the replica's state and a message to the
    messages it sends and its new state; the application is a parameter, the
    class [IRApp] of its upcalls.  [PersistentRegister] is the content of its
    file. *)

From S2P Require Import Prelude Codec Quorum IRRecord AppReplica.

(** ** The application: [IRAppReplica] *)

Notation entries_by := (gmap opid_t (list RecordEntry)).

Class IRApp (A : Type) := {
  ExecInconsistentUpcall : A → string → outcome A;
  ExecConsensusUpcall : A → string → outcome (string * A);
  app_UnloggedUpcall : A → string → outcome (string * A);
  app_Sync : A → IRRecord → outcome A;
  app_Merge : A → entries_by → entries_by → gmap opid_t string →
              outcome (gmap opid_t string * A)
}.

(** ** Messages *)

Record DoViewChangeMessage := mkDVC {
  dvc_replicaidx : Z;
  dvc_record : option (list RecordEntryProto);
  dvc_new_view : Z;
  dvc_latest_normal_view : Z
}.

Record StartViewMessage := mkSV {
  sv_record : list RecordEntryProto;
  sv_new_view : Z
}.

(** What a replica receives. *)
Inductive ir_request :=
| ProposeInconsistent (req : Request)
| FinalizeInconsistent (opid : opid_t)
| ProposeConsensus (req : Request)
| FinalizeConsensus (opid : opid_t) (result : string)
| UnloggedRequest (req : Request)
| DoViewChange (msg : DoViewChangeMessage)
| StartView (msg : StartViewMessage).

(** What it sends. *)
Inductive ir_reply :=
| ReplyInconsistent (view replicaIdx : Z) (opid : opid_t) (finalized : bool)
| Confirm (view replicaIdx : Z) (opid : opid_t)
| ReplyConsensus (view replicaIdx : Z) (opid : opid_t) (result : string) (finalized : bool)
| UnloggedReply (reply : string) (clientreqid : Z)
| SendDoViewChange (msg : DoViewChangeMessage)
| SendStartView (msg : StartViewMessage).

Inductive action :=
| Reply (m : ir_reply)                     (* to the sender of the request *)
| SendToReplica (i : Z) (m : ir_reply)
| SendToAll (m : ir_reply)
| ResetViewChangeTimeout
| StartViewChangeTimeout.

(** ** State *)

Record PersistedViewInfo := mkPVI { pv_view : Z; pv_latest_normal_view : Z }.

#[global] Instance PersistedViewInfo_eq_dec : EqDecision PersistedViewInfo.
Proof. solve_decision. Defined.
#[global] Instance PersistedViewInfo_countable : Countable PersistedViewInfo :=
  inj_countable' (λ v, (pv_view v, pv_latest_normal_view v)) (λ p, mkPVI p.1 p.2)
    (λ v, match v with mkPVI _ _ => eq_refl end).
#[global] Instance PersistedViewInfo_inhabited : Inhabited PersistedViewInfo := populate (mkPVI 0 0).

Record IRReplica (A : Type) := mkIR {
  config : Configuration;
  myIdx : Z;
  app : A;
  status : ReplicaStatus;
  view : Z;
  latest_normal_view : Z;
  persistent_view_info : option string;
  record : IRRecord;
  do_view_change_quorum : QuorumSet Z DoViewChangeMessage
}.
Arguments mkIR {A}.
Arguments config {A}. Arguments myIdx {A}. Arguments app {A}. Arguments status {A}.
Arguments view {A}. Arguments latest_normal_view {A}. Arguments persistent_view_info {A}.
Arguments record {A}. Arguments do_view_change_quorum {A}.

Section updates.
Context {A : Type}.
Implicit Types r : IRReplica A.

Definition set_app r (x : A) : IRReplica A := mkIR (config r) (myIdx r) x (status r) (view r)
  (latest_normal_view r) (persistent_view_info r) (record r) (do_view_change_quorum r).
Definition set_status r (x : ReplicaStatus) : IRReplica A := mkIR (config r) (myIdx r) (app r) x (view r)
  (latest_normal_view r) (persistent_view_info r) (record r) (do_view_change_quorum r).
Definition set_view r (x : Z) : IRReplica A := mkIR (config r) (myIdx r) (app r) (status r) x
  (latest_normal_view r) (persistent_view_info r) (record r) (do_view_change_quorum r).
Definition set_lnv r (x : Z) : IRReplica A := mkIR (config r) (myIdx r) (app r) (status r) (view r)
  x (persistent_view_info r) (record r) (do_view_change_quorum r).
Definition set_disk r (x : option string) : IRReplica A := mkIR (config r) (myIdx r) (app r) (status r) (view r)
  (latest_normal_view r) x (record r) (do_view_change_quorum r).
Definition set_record r (x : IRRecord) : IRReplica A := mkIR (config r) (myIdx r) (app r) (status r) (view r)
  (latest_normal_view r) (persistent_view_info r) x (do_view_change_quorum r).
Definition set_quorum r (x : QuorumSet Z DoViewChangeMessage) : IRReplica A := mkIR (config r) (myIdx r) (app r) (status r) (view r)
  (latest_normal_view r) (persistent_view_info r) (record r) x.

End updates.

(** ** IrMergeRecords *)

(** [ceil(0.5 * config.f) + 1] *)
Notation d_threshold c := ((f c + 1) / 2 + 1) (only parsing).

Section merge.
Context {A : Type} `{IRApp A}.

(** The largest [latest_normal_view] of the messages and this replica. *)
Definition max_latest_normal_view (lnv : Z) (records : gmap Z DoViewChangeMessage) : Z :=
  foldl (λ m p, Z.max m (dvc_latest_normal_view p.2)) lnv (omap_iter Z.le records).

(** The records of the messages with that view, then our own. *)
Definition collect_latest (r : IRReplica A) (records : gmap Z DoViewChangeMessage) (max : Z) :
    outcome (list IRRecord) :=
  rs ← for_each (λ acc (p : Z * DoViewChangeMessage),
         if (dvc_latest_normal_view p.2 =? max)%Z then
           match dvc_record p.2 with
           | None => Panic
           | Some m => x ← record_of_proto m; Ret (acc ++ [x])
           end
         else Ret acc) [] (omap_iter Z.le records);
  Ret (if (latest_normal_view r =? max)%Z then rs ++ [record r] else rs).

(** The body of the grouping loop: [R] and [entries_by_opid]. *)
Definition group_entry (st : IRRecord * entries_by) (p : opid_t * RecordEntry) :
    outcome (IRRecord * entries_by) :=
  let '(R, es) := st in
  let '(opid, entry) := p in
  ASSERT! bool_decide (opid = ent_opid entry);
  match ent_type entry, ent_state entry with
  | RECORD_TYPE_INCONSISTENT, _ =>
      x ← Find R opid;
      match x with
      | None => R' ← Add_entry R entry; Ret (R', es)
      | Some _ => Ret (R, es)
      end
  | _, RECORD_STATE_FINALIZED =>
      x ← Find R opid;
      match x with
      | None => R' ← Add_entry R entry; Ret (R', delete opid es)
      | Some _ => Ret (R, delete opid es)
      end
  | RECORD_TYPE_CONSENSUS, RECORD_STATE_TENTATIVE =>
      match R !! ent_opid entry with
      | None => Ret (R, <[ent_opid entry := default [] (es !! ent_opid entry) ++ [entry]]> es)
      | Some _ => Ret (R, es)
      end
  end.

Definition group_entries (latest_records : list IRRecord) : outcome (IRRecord * entries_by) :=
  for_each (λ st rec, for_each group_entry st (omap_iter opid_le rec)) (∅, ∅) latest_records.

(** The frequency of each result. *)
Definition result_counts (entries : list RecordEntry) : gmap string nat :=
  foldl (λ m e, <[ent_result e := S (default 0%nat (m !! ent_result e))]> m) ∅ entries.

(** The order of [std::string]. *)
Definition string_le (a b : string) : Prop := String.leb a b = true.
#[global] Instance string_le_dec a b : Decision (string_le a b).
Proof. unfold string_le. apply _. Defined.

(** The first result that occurs often enough. *)
Definition majority_result (c : Configuration) (entries : list RecordEntry) : option string :=
  for_first (λ p, if (d_threshold c <=? Z.of_nat p.2)%Z then Some p.1 else None)
    (omap_iter string_le (result_counts entries)).

(** [d], [u] and [majority_results_in_d] *)
Definition d_u_step (c : Configuration) (acc : entries_by * entries_by * gmap opid_t string)
    (p : opid_t * list RecordEntry) : entries_by * entries_by * gmap opid_t string :=
  let '(d, u, maj) := acc in
  match majority_result c p.2 with
  | Some res => (<[p.1 := p.2]> d, u, <[p.1 := res]> maj)
  | None => (d, <[p.1 := p.2]> u, maj)
  end.

Definition build_d_u (c : Configuration) (es : entries_by) :
    entries_by * entries_by * gmap opid_t string :=
  foldl (d_u_step c) (∅, ∅, ∅) (omap_iter opid_le es).

Definition IrMergeRecords (r : IRReplica A) (records : gmap Z DoViewChangeMessage) :
    outcome (IRRecord * A) :=
  let max := max_latest_normal_view (latest_normal_view r) records in
  latest_records ← collect_latest r records max;
  g ← group_entries latest_records;
  let '(R, es) := g in
  let '(d, u, maj) := build_d_u (config r) es in
  a ← app_Sync (app r) R;
  m ← app_Merge a d u maj;
  let '(results_by_opid, a') := m in
  ASSERT! (size results_by_opid =? size d + size u)%nat;
  ASSERT! forallb (λ p : opid_t * string,
      xorb (bool_decide (is_Some (d !! p.1))) (bool_decide (is_Some (u !! p.1))))
    (omap_iter opid_le results_by_opid);
  merged ← for_each (λ acc (p : opid_t * string),
      ASSERT! (0 <? size records)%nat;
      match default [] (es !! p.1) with
      | [] => Panic
      | entry :: _ =>
          Add_result acc (view r) p.1 (ent_request entry) RECORD_STATE_FINALIZED
            (ent_type entry) p.2
      end) ∅ (omap_iter opid_le results_by_opid);
  R' ← for_each (λ acc (p : opid_t * RecordEntry), Add_entry acc p.2) R (omap_iter opid_le merged);
  Ret (R', a').

End merge.

(** ** Handlers *)

Section handlers.
Context {A : Type} `{IRApp A} `{Codec PersistedViewInfo}.
Implicit Types r : IRReplica A.

Definition PersistViewInfo r : IRReplica A :=
  set_disk r (Some (ser (mkPVI (view r) (latest_normal_view r)))).

Definition RecoverViewInfo r : IRReplica A :=
  let view_info := parse (default "" (persistent_view_info r)) in
  set_lnv (set_view r (pv_view view_info)) (pv_latest_normal_view view_info).

(** The messages without our record, then the one to the leader with it. *)
Definition BroadcastDoViewChangeMessages r : list action :=
  let msg := mkDVC (myIdx r) None (view r) (latest_normal_view r) in
  let leader_idx := GetLeaderIndex (config r) (view r) in
  ((λ i, SendToReplica i (SendDoViewChange msg)) <$>
     filter (λ i, ¬ (i = myIdx r ∨ i = leader_idx)) (seqZ 0 (n (config r)))) ++
  (if (leader_idx =? myIdx r)%Z then []
   else [SendToReplica leader_idx (SendDoViewChange
           (mkDVC (myIdx r) (Some (ToProto (record r))) (view r) (latest_normal_view r)))]).

Definition HandleProposeInconsistent r (req : Request) : outcome (list action * IRReplica A) :=
  let opid := (req_clientid req, req_clientreqid req) in
  entry ← Find (record r) opid;
  match entry with
  | Some e =>
      Ret ([Reply (ReplyInconsistent (ent_view e) (myIdx r) opid
              (bool_decide (ent_state e = RECORD_STATE_FINALIZED)))], r)
  | None =>
      rec ← Add (record r) (view r) opid req RECORD_STATE_TENTATIVE RECORD_TYPE_INCONSISTENT;
      Ret ([Reply (ReplyInconsistent (view r) (myIdx r) opid false)], set_record r rec)
  end.

Definition HandleFinalizeInconsistent r (opid : opid_t) : outcome (list action * IRReplica A) :=
  entry ← Find (record r) opid;
  match entry with
  | Some e =>
      match ent_state e with
      | RECORD_STATE_TENTATIVE =>
          rec ← SetStatus (record r) opid RECORD_STATE_FINALIZED;
          a ← ExecInconsistentUpcall (app r) (req_op (ent_request e));
          Ret ([Reply (Confirm (view r) (myIdx r) opid)], set_app (set_record r rec.2) a)
      | RECORD_STATE_FINALIZED => Ret ([], r)
      end
  | None => Ret ([], r)
  end.

Definition HandleProposeConsensus r (req : Request) : outcome (list action * IRReplica A) :=
  let opid := (req_clientid req, req_clientreqid req) in
  entry ← Find (record r) opid;
  match entry with
  | Some e =>
      Ret ([Reply (ReplyConsensus (ent_view e) (myIdx r) opid (ent_result e)
              (bool_decide (ent_state e = RECORD_STATE_FINALIZED)))], r)
  | None =>
      x ← ExecConsensusUpcall (app r) (req_op req);
      rec ← Add_result (record r) (view r) opid req RECORD_STATE_TENTATIVE
              RECORD_TYPE_CONSENSUS x.1;
      Ret ([Reply (ReplyConsensus (view r) (myIdx r) opid x.1 false)],
           set_app (set_record r rec) x.2)
  end.

Definition HandleFinalizeConsensus r (opid : opid_t) (result : string) :
    outcome (list action * IRReplica A) :=
  entry ← Find (record r) opid;
  match entry with
  | Some e =>
      rec ← SetStatus (record r) opid RECORD_STATE_FINALIZED;
      let rec' :=
        if decide (result = ent_result e) then rec.2
        else alter (λ e, with_result e result) opid rec.2 in
      Ret ([Reply (Confirm (view r) (myIdx r) opid)], set_record r rec')
  | None => Ret ([], r)
  end.

Definition HandleUnlogged r (req : Request) : outcome (list action * IRReplica A) :=
  x ← app_UnloggedUpcall (app r) (req_op req);
  Ret ([Reply (UnloggedReply x.1 (req_clientreqid req))], set_app r x.2).

Definition HandleViewChangeTimeout r : list action * IRReplica A :=
  let r1 := if decide (status r = STATUS_NORMAL) then set_status r STATUS_VIEW_CHANGE else r in
  let r2 := PersistViewInfo (set_view r1 (u64 (view r1 + 1))) in
  (BroadcastDoViewChangeMessages r2, r2).

(** The part of [HandleDoViewChange] after the view is agreed: the leader
    collects records and, with a quorum, starts the view. *)
Definition lead_view_change r (acts : list action) (msg : DoViewChangeMessage) :
    outcome (list action * IRReplica A) :=
  ASSERT! (dvc_new_view msg =? view r)%Z;
  if negb (myIdx r =? GetLeaderIndex (config r) (view r))%Z then Ret (acts, r)
  else
    ASSERT! bool_decide (is_Some (dvc_record msg));
    let '(quorum, q) := AddAndCheckForQuorum (do_view_change_quorum r)
                          (dvc_new_view msg) (dvc_replicaidx msg) msg in
    let r1 := set_quorum r q in
    match quorum with
    | None => Ret (acts, r1)
    | Some ms =>
        x ← IrMergeRecords r1 ms;
        let r2 := set_app (set_record r1 x.1) x.2 in
        let r3 := set_lnv (set_view (set_status r2 STATUS_NORMAL) (dvc_new_view msg))
                    (dvc_new_view msg) in
        let r4 := PersistViewInfo r3 in
        Ret (acts ++ [SendToAll (SendStartView (mkSV (ToProto (record r4)) (view r4)))], r4)
    end.

Definition HandleDoViewChange r (msg : DoViewChangeMessage) : outcome (list action * IRReplica A) :=
  if (dvc_new_view msg <? view r)%Z then Ret ([], r)
  else if (dvc_new_view msg =? view r)%Z then
    if decide (status r = STATUS_NORMAL) then Ret ([], r)
    else if decide (status r = STATUS_NORMAL) then Ret ([], r)
    else lead_view_change r [] msg
  else
    ASSERT! (view r <? dvc_new_view msg)%Z;
    let r1 := PersistViewInfo (set_view r (dvc_new_view msg)) in
    let r2 := if decide (status r1 = STATUS_NORMAL) then set_status r1 STATUS_VIEW_CHANGE else r1 in
    lead_view_change r2 (BroadcastDoViewChangeMessages r2 ++ [ResetViewChangeTimeout]) msg.

Definition HandleStartView r (msg : StartViewMessage) : outcome (list action * IRReplica A) :=
  ASSERT! negb (myIdx r =? GetLeaderIndex (config r) (sv_new_view msg))%Z;
  if (sv_new_view msg <? view r)%Z then Ret ([], r)
  else if (sv_new_view msg =? view r)%Z && bool_decide (status r = STATUS_NORMAL) then Ret ([], r)
  else
    ASSERT! (view r <=? sv_new_view msg)%Z ||
            ((sv_new_view msg =? view r)%Z && negb (bool_decide (status r = STATUS_NORMAL)));
    rec ← record_of_proto (sv_record msg);
    a ← app_Sync (app r) rec;
    let r1 := set_app (set_record r rec) a in
    let r2 := set_lnv (set_view (set_status r1 STATUS_NORMAL) (sv_new_view msg))
                (sv_new_view msg) in
    Ret ([], PersistViewInfo r2).

(** [HandleMessage] *)
Definition HandleMessage r (m : ir_request) : outcome (list action * IRReplica A) :=
  match m with
  | ProposeInconsistent req => HandleProposeInconsistent r req
  | FinalizeInconsistent opid => HandleFinalizeInconsistent r opid
  | ProposeConsensus req => HandleProposeConsensus r req
  | FinalizeConsensus opid result => HandleFinalizeConsensus r opid result
  | DoViewChange msg => HandleDoViewChange r msg
  | StartView msg => HandleStartView r msg
  | UnloggedRequest req => HandleUnlogged r req
  end.

(** The constructor; [disk] is the content of the register's file, if the
    replica ran before. *)
Definition new_replica (c : Configuration) (idx : Z) (a : A) (disk : option string) :
    list action * IRReplica A :=
  let r0 := mkIR c idx a STATUS_NORMAL 0 0 disk ∅ (new_quorumset (f c)) in
  match disk with
  | Some _ =>
      let r1 := RecoverViewInfo (set_status r0 STATUS_RECOVERING) in
      let r2 := set_view r1 (u64 (view r1 + 1)) in
      let r3 := if (myIdx r2 =? GetLeaderIndex c (view r2))%Z
                then set_view r2 (u64 (view r2 + 1)) else r2 in
      let r4 := PersistViewInfo r3 in
      (BroadcastDoViewChangeMessages r4 ++ [StartViewChangeTimeout], r4)
  | None => ([StartViewChangeTimeout], PersistViewInfo r0)
  end.

End handlers.
