(* ===== verification/IRMerge.v ===== *)
(** * View changes keep what clients were told (replication/ir/replica.cc,
    IrMergeRecords)

    The leader of a new view merges the records of a quorum.  The theorems:
    the merge never fails on records that agree on the types of operations, it
    keeps every inconsistent and every finalized operation, it invents nothing,
    and a result that a fast quorum of replicas recorded is the result of the
    merged record. *)

From S2P Require Import Prelude Codec Quorum IRRecord AppReplica IRReplica.

(** ** Counting results *)

Definition count (res : string) (l : list RecordEntry) : nat :=
  length (filter (λ e, ent_result e = res) l).

Lemma count_snoc res l e :
  count res (l ++ [e]) = (count res l + if decide (ent_result e = res) then 1 else 0)%nat.
Proof.
  unfold count. rewrite filter_app, length_app, filter_cons, filter_nil. by case_decide.
Qed.

Lemma result_counts_lookup l res :
  result_counts l !! res = if decide (count res l = 0%nat) then None else Some (count res l).
Proof.
  induction l as [|e l IH] using rev_ind; [by rewrite decide_True|].
  unfold result_counts. rewrite foldl_app. simpl. fold (result_counts l).
  rewrite count_snoc, lookup_insert. destruct (decide (ent_result e = res)) as [He|He].
  - rewrite He, IH, Nat.add_1_r. rewrite (decide_False (P := S _ = 0%nat)) by lia.
    by destruct (decide (count res l = 0%nat)) as [->|].
  - by rewrite Nat.add_0_r.
Qed.

(** At most one result is frequent among [f + 1] entries. *)
Lemma count_disjoint res res' l :
  res ≠ res' → (count res l + count res' l ≤ length l)%nat.
Proof.
  intros Hne. induction l as [|e l IH] using rev_ind; [done|].
  rewrite !count_snoc, length_app. simpl. do 2 case_decide; subst; simpl; lia || congruence.
Qed.

Lemma majority_result_Some c l res :
  majority_result c l = Some res → d_threshold c ≤ Z.of_nat (count res l).
Proof.
  unfold majority_result. intros ([res' cnt] & Hin & Hc)%for_first_Some. simpl in Hc.
  destruct (Z.leb_spec (d_threshold c) (Z.of_nat cnt)); [|done]. injection Hc as ->.
  apply elem_of_omap_iter in Hin. rewrite result_counts_lookup in Hin.
  case_decide; [done|]. by injection Hin as ->.
Qed.

Lemma majority_result_exists c l res :
  0 ≤ f c → d_threshold c ≤ Z.of_nat (count res l) → is_Some (majority_result c l).
Proof.
  intros Hf Hc. destruct (majority_result c l) eqn:Hm; [by eexists|]. exfalso.
  unfold majority_result in Hm. rewrite for_first_None in Hm.
  specialize (Hm (res, count res l)). simpl in Hm.
  destruct (Z.leb_spec (d_threshold c) (Z.of_nat (count res l))); [|lia].
  assert (Some res = None); [|done]. apply Hm, elem_of_omap_iter. rewrite result_counts_lookup.
  rewrite decide_False; [done|]. intros Hz. rewrite Hz in Hc.
  pose proof (Z.div_pos (f c + 1) 2). lia.
Qed.

Lemma majority_result_unique c l res :
  0 ≤ f c → Z.of_nat (length l) ≤ f c + 1 → d_threshold c ≤ Z.of_nat (count res l) →
  majority_result c l = Some res.
Proof.
  intros Hf Hl Hc. destruct (majority_result_exists c l res Hf Hc) as [res' Hm]. rewrite Hm.
  destruct (decide (res' = res)) as [->|Hne]; [done|]. exfalso.
  apply majority_result_Some in Hm. pose proof (count_disjoint res' res l Hne).
  pose proof (Z.div_mod (f c + 1) 2).
  pose proof (Z.mod_pos_bound (f c + 1) 2). lia.
Qed.

(** ** Grouping *)

(** The entries recorded for [k], in the order of the loop. *)
Definition ents (k : opid_t) (P : list (opid_t * RecordEntry)) : list RecordEntry :=
  snd <$> filter (λ p, p.1 = k) P.

Lemma ents_snoc k P k' e :
  ents k (P ++ [(k', e)]) = ents k P ++ if decide (k' = k) then [e] else [].
Proof.
  unfold ents. rewrite filter_app, fmap_app, filter_cons, filter_nil. simpl. by case_decide.
Qed.

Lemma elem_of_ents k P e : e ∈ ents k P ↔ (k, e) ∈ P.
Proof.
  unfold ents. rewrite list_elem_of_fmap. split.
  - intros ([k' e'] & -> & [Hk Hin]%list_elem_of_filter). simpl in *. by subst.
  - intros Hin. exists (k, e). split; [done|]. by apply list_elem_of_filter.
Qed.

(** Entries that go into [R] as they are. *)
Definition settled (e : RecordEntry) : Prop :=
  ent_type e = RECORD_TYPE_INCONSISTENT ∨ ent_state e = RECORD_STATE_FINALIZED.

#[global] Instance settled_dec e : Decision (settled e).
Proof. unfold settled. apply _. Defined.

Record grouped (P : list (opid_t * RecordEntry)) (R : IRRecord) (es : entries_by) : Prop := {
  gr_wf : rec_wf R;
  gr_from k e : R !! k = Some e → (k, e) ∈ P ∧ settled e;
  gr_settled k e : (k, e) ∈ P → settled e → is_Some (R !! k);
  gr_open k : R !! k = None → es !! k = if decide (ents k P = []) then None else Some (ents k P);
  gr_closed k : is_Some (R !! k) → es !! k = None
}.

Definition typed (ty : opid_t → RecordEntryType) (P : list (opid_t * RecordEntry)) : Prop :=
  ∀ k e, (k, e) ∈ P → ent_type e = ty k ∧ entry_at k e.

Lemma grouped_nil : grouped [] ∅ ∅.
Proof.
  split.
  - apply rec_wf_empty.
  - intros k e. by rewrite lookup_empty.
  - intros k e ?%elem_of_nil. done.
  - intros k _. by rewrite lookup_empty.
  - intros k. rewrite lookup_empty. by intros [].
Qed.

(** A settled entry. *)
Lemma grouped_settled P R es k e R' :
  grouped P R es → entry_at k e → settled e →
  (∀ e', (k, e') ∈ P → ent_type e = RECORD_TYPE_INCONSISTENT → settled e') →
  R' = (if decide (R !! k = None) then <[k := e]> R else R) →
  grouped (P ++ [(k, e)]) R'
    (if decide (ent_type e = RECORD_TYPE_INCONSISTENT) then es else delete k es).
Proof.
  intros [Hwf Hfrom Hset Hopen Hclosed] Hat Hs Hinc ->. split.
  - case_decide; auto with tapir.
  - intros k' e'. rewrite elem_of_app, list_elem_of_singleton. case_decide; [|naive_solver].
    rewrite lookup_insert_Some. naive_solver.
  - intros k' e'. rewrite elem_of_app, list_elem_of_singleton.
    intros [Hin|[= -> ->]] Hs'; case_decide as Hk.
    + rewrite lookup_insert_is_Some. destruct (decide (k = k')); [by left|right; eauto].
    + eauto.
    + rewrite lookup_insert_eq. eauto.
    + by apply not_eq_None_Some.
  - intros k' Hk'. rewrite ents_snoc. assert (k ≠ k') as Hne.
    { intros ->. case_decide as Hk; [by rewrite lookup_insert_eq in Hk'|done]. }
    rewrite (decide_False (P := k = k')), app_nil_r by done.
    rewrite <- Hopen by (case_decide; [by rewrite lookup_insert_ne in Hk'|done]).
    destruct (decide (ent_type e = _)); [done|]. by rewrite lookup_delete_ne.
  - intros k' Hk'. destruct (decide (k = k')) as [<-|Hne].
    + destruct (decide (ent_type e = _)) as [Ht|Ht]; [|apply lookup_delete_eq].
      destruct (R !! k) eqn:HR; [apply Hclosed; by rewrite HR|].
      rewrite Hopen by done. destruct (decide (ents k P = [])) as [He|He]; [done|]. exfalso.
      apply He. destruct (ents k P) as [|x l] eqn:Hx; [done|]. exfalso.
      assert ((k, x) ∈ P) as Hin by (apply elem_of_ents; rewrite Hx; apply list_elem_of_here).
      destruct (Hset k x Hin) as [? ?]; [by apply Hinc|congruence].
    + assert (es !! k' = None) as He'.
      { apply Hclosed. case_decide; [by rewrite lookup_insert_ne in Hk'|done]. }
      destruct (decide (ent_type e = _)); [done|]. by rewrite lookup_delete_ne.
Qed.

(** A tentative consensus entry. *)
Lemma grouped_tentative P R es k e es' :
  grouped P R es → ¬ settled e →
  es' = (if decide (R !! k = None) then <[k := default [] (es !! k) ++ [e]]> es else es) →
  grouped (P ++ [(k, e)]) R es'.
Proof.
  intros [Hwf Hfrom Hset Hopen Hclosed] Hs ->. split; [done| | | |].
  - intros k' e' HR%Hfrom. rewrite elem_of_app. naive_solver.
  - intros k' e'. rewrite elem_of_app, list_elem_of_singleton. naive_solver.
  - intros k' Hk'. rewrite ents_snoc. destruct (decide (k = k')) as [<-|Hne].
    + rewrite decide_True by done. rewrite lookup_insert_eq, Hopen by done.
      rewrite (decide_False (P := _ ++ [e] = [])) by (by destruct (ents k P)).
      by destruct (decide (ents k P = [])) as [->|].
    + rewrite app_nil_r, <- Hopen by done.
      destruct (decide (R !! k = None)); [|done]. by rewrite lookup_insert_ne.
  - intros k' Hk'. destruct (decide (R !! k = None)) as [HR|HR]; [|by apply Hclosed].
    rewrite lookup_insert_ne; [by apply Hclosed|]. intros ->. rewrite HR in Hk'. by destruct Hk'.
Qed.

Lemma group_entry_spec ty P R es k e :
  typed ty (P ++ [(k, e)]) → grouped P R es →
  ∃ st, group_entry (R, es) (k, e) = Ret st ∧ grouped (P ++ [(k, e)]) st.1 st.2.
Proof.
  intros Hty Hg. pose proof (gr_wf _ _ _ Hg) as Hwf.
  destruct (Hty k e) as [Ht [Hk Hreq]]; [apply elem_of_app; right; apply list_elem_of_here|].
  assert (∀ e', (k, e') ∈ P → ent_type e = RECORD_TYPE_INCONSISTENT → settled e') as Hinc.
  { intros e' Hin Hi. left. destruct (Hty k e') as [-> _]; [apply elem_of_app; by left|].
    by rewrite <- Ht. }
  assert (settled e → grouped (P ++ [(k, e)]) (if decide (R !! k = None) then <[k := e]> R else R)
    (if decide (ent_type e = RECORD_TYPE_INCONSISTENT) then es else delete k es)) as Hs
    by (intros; by eapply grouped_settled).
  assert (R !! k = None → Add_entry R e = Ret (<[k := e]> R)) as Hadd.
  { intros HR. unfold Add_entry. rewrite Hk, HR. by rewrite bool_decide_eq_true_2. }
  unfold group_entry. rewrite Hk, bool_decide_eq_true_2 by done. cbn [mbind outcome_bind ASSERT].
  destruct (ent_type e) eqn:Hte.
  - rewrite Find_wf by done. cbn [mbind outcome_bind]. destruct (R !! k) eqn:HR.
    + eexists. split; [done|]. apply Hs. by left.
    + rewrite Hadd by done. eexists. split; [done|]. apply Hs. by left.
  - destruct (ent_state e) eqn:Hse.
    + assert (¬ settled e) as Hns by (intros [?|?]; congruence).
      destruct (R !! k) eqn:HR; (eexists; split; [done|]); simpl;
        (eapply grouped_tentative; [done|done|by rewrite HR]).
    + rewrite Find_wf by done. cbn [mbind outcome_bind]. destruct (R !! k) eqn:HR.
      * eexists. split; [done|]. apply Hs. by right.
      * rewrite Hadd by done. eexists. split; [done|]. apply Hs. by right.
Qed.

(** All entries, in the order the loops visit them. *)
Definition flatten (latest : list IRRecord) : list (opid_t * RecordEntry) :=
  concat (omap_iter opid_le <$> latest).

Lemma group_entries_spec ty latest :
  typed ty (flatten latest) →
  ∃ R es, group_entries latest = Ret (R, es) ∧ grouped (flatten latest) R es.
Proof.
  intros Hty. unfold group_entries.
  destruct (for_each_total
    (λ st rec, for_each group_entry st (omap_iter opid_le rec))
    (λ Q st, grouped (flatten Q) st.1 st.2) [] latest (∅, ∅)) as ([R es] & Hr & Hg).
  - intros Q rec [R es] Hpre Hg. simpl in *.
    unfold flatten. rewrite fmap_app, concat_app. simpl. rewrite app_nil_r.
    apply (for_each_total group_entry (λ Q st, grouped Q st.1 st.2)); [|done].
    intros Q' [k e] [R' es'] Hpre' Hg'. apply (group_entry_spec ty); [|done].
    intros k' e' Hin. apply Hty. destruct Hpre as [tl ->], Hpre' as [tl' Heq].
    unfold flatten. rewrite !fmap_app, !concat_app. apply elem_of_app. left.
    simpl. rewrite app_nil_r. fold (flatten Q). unfold flatten. rewrite Heq. apply elem_of_app. by left.
  - apply grouped_nil.
  - by exists R, es.
Qed.

(** ** The sets [d] and [u] *)

(** [d], [u] and the majority results, as functions of the grouped entries. *)
Definition split_by (c : Configuration) (es : entries_by)
    (acc : entries_by * entries_by * gmap opid_t string) : Prop :=
  ∀ k, acc.1.1 !! k = (es !! k ≫= λ l, if majority_result c l then Some l else None) ∧
       acc.1.2 !! k = (es !! k ≫= λ l, if majority_result c l then None else Some l) ∧
       acc.2 !! k = (es !! k ≫= majority_result c).

Lemma d_u_step_spec c es acc k l :
  es !! k = None → split_by c es acc → split_by c (<[k := l]> es) (d_u_step c acc (k, l)).
Proof.
  intros Hk Hacc k'. destruct acc as [[d u] maj]. unfold d_u_step; simpl.
  destruct (Hacc k') as (Hd & Hu & Hm). simpl in *. rewrite (lookup_insert es).
  destruct (decide (k = k')) as [<-|Hne].
  - rewrite Hk in Hd, Hu, Hm. simpl in *.
    destruct (majority_result c l) eqn:Hr; simpl; rewrite ?lookup_insert_eq, ?Hr; done.
  - destruct (majority_result c l); simpl; rewrite ?lookup_insert_ne by done; done.
Qed.

Lemma build_d_u_spec c es : split_by c es (build_d_u c es).
Proof.
  unfold build_d_u. pose proof (omap_iter_perm opid_le es) as Hp.
  assert (NoDup (omap_iter opid_le es).*1) as Hnd by (rewrite Hp; apply NoDup_fst_map_to_list).
  assert (es = list_to_map (omap_iter opid_le es)) as Hes.
  { rewrite (list_to_map_proper _ (map_to_list es)) by done. by rewrite list_to_map_to_list. }
  rewrite Hes at 1. clear Hes Hp. revert Hnd. generalize (omap_iter opid_le es) as l.
  induction l as [|[k x] l IH] using rev_ind; intros Hnd.
  - intros k. simpl. by rewrite !lookup_empty.
  - rewrite fmap_app in Hnd. apply NoDup_app in Hnd as (Hnd & Hk & _).
    assert (k ∉ l.*1) as Hkl by (intros Hin; apply (Hk k Hin); apply list_elem_of_here).
    rewrite foldl_app, list_to_map_snoc by done. simpl.
    apply d_u_step_spec; [by apply not_elem_of_list_to_map_1|by apply IH].
Qed.

(** ** The merged record *)

(** What the code relies on: the application's [Merge] answers every operation
    of [d] and [u], and keeps the majority result of those in [d]. *)
Class IRAppLaws (A : Type) `{IRApp A} := {
  sync_total a R : ∃ a', app_Sync a R = Ret a';
  merge_total a d u maj : dom d ## dom u → dom maj = dom d →
    ∃ res a', app_Merge a d u maj = Ret (res, a') ∧
      dom res = dom d ∪ dom u ∧
      ∀ k v, maj !! k = Some v → res !! k = Some v
}.

(** The entry the merge makes of the result [v] of [k]. *)
Definition merged_entry (vw : Z) (es : entries_by) (k : opid_t) (v : string) : option RecordEntry :=
  match default [] (es !! k) with
  | [] => None
  | e :: _ => Some (mkEnt vw k RECORD_STATE_FINALIZED (ent_type e) (ent_request e) v)
  end.

Lemma split_by_disjoint c es d u maj :
  split_by c es (d, u, maj) → dom d ## dom u ∧ dom d ∪ dom u = dom es ∧ dom maj = dom d.
Proof.
  intros Hs. split_and!.
  - intros k. rewrite !elem_of_dom. destruct (Hs k) as (Hd & Hu & _). simpl in *. rewrite Hd, Hu.
    destruct (es !! k) as [l|]; simpl; [|by intros []].
    destruct (majority_result c l); [by intros _ []|by intros []].
  - apply set_eq. intros k. rewrite elem_of_union, !elem_of_dom.
    destruct (Hs k) as (Hd & Hu & _). simpl in *. rewrite Hd, Hu.
    destruct (es !! k) as [l|]; simpl; [|naive_solver].
    destruct (majority_result c l); naive_solver.
  - apply set_eq. intros k. rewrite !elem_of_dom.
    destruct (Hs k) as (Hd & _ & Hm). simpl in *. rewrite Hd, Hm.
    destruct (es !! k) as [l|]; simpl; [|done]. destruct (majority_result c l); naive_solver.
Qed.

Lemma merged_loop (vw : Z) (es : entries_by) (ms : gmap Z DoViewChangeMessage)
    (l : list (opid_t * string)) :
  (0 < size ms)%nat → NoDup l.*1 → (∀ k, k ∈ l.*1 → ∃ e tl, es !! k = Some (e :: tl)) →
  ∃ m, for_each (λ acc (p : opid_t * string),
      ASSERT! (0 <? size ms)%nat;
      match default [] (es !! p.1) with
      | [] => Panic
      | entry :: _ =>
          Add_result acc vw p.1 (ent_request entry) RECORD_STATE_FINALIZED (ent_type entry) p.2
      end) ∅ l = Ret m ∧
    ∀ k, m !! k = ((list_to_map l : gmap opid_t string) !! k ≫= merged_entry vw es k).
Proof.
  intros Hms. induction l as [|[k v] l IH] using rev_ind; intros Hnd Hes.
  { exists ∅. split; [done|]. intros k. by rewrite !lookup_empty. }
  rewrite fmap_app in Hnd, Hes. apply NoDup_app in Hnd as (Hnd & Hk & _).
  assert (k ∉ l.*1) as Hkl by (intros Hin; apply (Hk k Hin); apply list_elem_of_here).
  destruct IH as (m & Hm & Hlook); [done|intros; apply Hes, elem_of_app; by left|].
  destruct (Hes k) as (e & tl & Hek); [apply elem_of_app; right; apply list_elem_of_here|].
  rewrite for_each_snoc, Hm. cbn [mbind outcome_bind fst snd].
  destruct (Nat.ltb_spec 0 (size ms)); [|lia]. cbn [mbind outcome_bind ASSERT].
  assert (m !! k = None) as Hmk.
  { rewrite Hlook, not_elem_of_list_to_map_1 by done. done. }
  rewrite Hek. simpl. rewrite Add_result_fresh by done. eexists. split; [done|].
  intros k'. rewrite list_to_map_snoc, !lookup_insert by done. case_decide; [subst k'|apply Hlook].
  simpl. unfold merged_entry. by rewrite Hek.
Qed.

Lemma union_loop (R : IRRecord) (l : list (opid_t * RecordEntry)) :
  NoDup l.*1 → Forall (λ p, ent_opid p.2 = p.1 ∧ R !! p.1 = None) l →
  for_each (λ acc (p : opid_t * RecordEntry), Add_entry acc p.2) R l = Ret (list_to_map l ∪ R).
Proof.
  induction l as [|[k e] l IH] using rev_ind; intros Hnd Hall; simpl.
  { by rewrite left_id_L by apply _. }
  rewrite fmap_app in Hnd. apply NoDup_app in Hnd as (Hnd & Hk & _).
  assert (k ∉ l.*1) as Hkl by (intros Hin; apply (Hk k Hin); apply list_elem_of_here).
  apply Forall_app in Hall as [Hall [[Hek HRk] _]%Forall_cons]. simpl in *.
  rewrite for_each_snoc, IH by done. simpl. unfold Add_entry. rewrite Hek.
  rewrite bool_decide_eq_true_2.
  - simpl. by rewrite list_to_map_snoc, insert_union_l by done.
  - rewrite lookup_union_r by (by apply not_elem_of_list_to_map_1). done.
Qed.

(** The checks of the results of [Merge] pass. *)
Lemma merge_asserts (d u : entries_by) (res : gmap opid_t string) :
  dom d ## dom u → dom res = dom d ∪ dom u →
  (size res =? size d + size u)%nat = true ∧
  forallb (λ p : opid_t * string,
      xorb (bool_decide (is_Some (d !! p.1))) (bool_decide (is_Some (u !! p.1))))
    (omap_iter opid_le res) = true.
Proof.
  intros Hdisj Hres. split.
  - apply Nat.eqb_eq. rewrite <- !(size_dom (D := gset opid_t)), Hres. by apply size_union.
  - apply forallb_forall. intros [k v] Hin%list_elem_of_In%elem_of_omap_iter. simpl.
    assert (k ∈ dom d ∪ dom u) as Hk by (rewrite <- Hres; apply elem_of_dom; by eexists).
    apply elem_of_union in Hk. specialize (Hdisj k). rewrite !elem_of_dom in Hk, Hdisj.
    destruct (d !! k), (u !! k); try done; [by destruct Hdisj|by destruct Hk as [[]|[]]].
Qed.

Lemma grouped_nonempty P R es :
  grouped P R es → ∀ k l, es !! k = Some l → R !! k = None ∧ ∃ e tl, l = e :: tl.
Proof.
  intros Hg k l Hk. destruct (R !! k) eqn:HR.
  { rewrite (gr_closed _ _ _ Hg) in Hk; [done|by rewrite HR]. }
  split; [done|]. rewrite (gr_open _ _ _ Hg) in Hk by done. case_decide; [done|].
  injection Hk as <-. destruct (ents k P); [done|eauto].
Qed.

Section merged.
Context {A : Type} `{IRAppLaws A}.

(** What [IrMergeRecords] returns, from the grouped entries. *)
Lemma IrMergeRecords_spec (r : IRReplica A) ms latest ty :
  (0 < size ms)%nat →
  collect_latest r ms (max_latest_normal_view (latest_normal_view r) ms) = Ret latest →
  typed ty (flatten latest) →
  ∃ R es (res : gmap opid_t string) R' a', grouped (flatten latest) R es ∧
    IrMergeRecords r ms = Ret (R', a') ∧ dom res = dom es ∧
    (∀ k v, (es !! k ≫= majority_result (config r)) = Some v → res !! k = Some v) ∧
    (∀ k, R' !! k = match R !! k with
                    | Some e => Some e
                    | None => res !! k ≫= merged_entry (view r) es k
                    end).
Proof.
  intros Hms Hc Hty. destruct (group_entries_spec ty latest Hty) as (R & es & Hgr & Hg).
  unfold IrMergeRecords. rewrite Hc. cbn [mbind outcome_bind]. rewrite Hgr. cbn [mbind outcome_bind].
  pose proof (build_d_u_spec (config r) es) as Hdu.
  destruct (build_d_u (config r) es) as [[d u] maj].
  destruct (split_by_disjoint _ _ _ _ _ Hdu) as (Hdisj & Hdom & Hdm).
  destruct (sync_total (app r) R) as [a ->]. cbn [mbind outcome_bind].
  destruct (merge_total a d u maj Hdisj Hdm) as (res & a' & -> & Hres & Hmaj). cbn [mbind outcome_bind].
  exists R, es, res.
  destruct (merge_asserts d u res Hdisj Hres) as [-> ->].
  cbn [mbind outcome_bind ASSERT]. pose proof (omap_iter_perm opid_le res) as Hp.
  assert (NoDup (omap_iter opid_le res).*1) as Hnd by (rewrite Hp; apply NoDup_fst_map_to_list).
  assert (list_to_map (omap_iter opid_le res) = res) as Hmap.
  { rewrite (list_to_map_proper _ (map_to_list res)) by done. apply list_to_map_to_list. }
  pose proof (grouped_nonempty _ _ _ Hg) as Hes.
  destruct (merged_loop (view r) es ms (omap_iter opid_le res) Hms Hnd) as (m & -> & Hm).
  { intros k Hk. assert (k ∈ dom es) as [l Hl]%elem_of_dom.
    { rewrite <- Hdom, <- Hres. apply list_elem_of_fmap in Hk as ([k' v] & -> & Hin%elem_of_omap_iter).
      apply elem_of_dom. by eexists. }
    destruct (Hes k l Hl) as (_ & e & tl & ->). eauto. }
  rewrite Hmap in Hm. cbn [mbind outcome_bind].
  assert (∀ k e, m !! k = Some e → ent_opid e = k ∧ R !! k = None) as Hme.
  { intros k e. rewrite Hm. destruct (res !! k) as [v|]; [|done]. simpl. unfold merged_entry.
    destruct (es !! k) as [l|] eqn:Hl; simpl; [|done]. destruct (Hes k l Hl) as (HR & e0 & tl & ->).
    by intros [= <-]. }
  pose proof (omap_iter_perm opid_le m) as Hpm. rewrite union_loop.
  - cbn [mbind outcome_bind]. eexists _, a'. split; [exact Hg|]. split; [reflexivity|].
    split; [by rewrite Hres, Hdom|]. split.
    { intros k v Hk. apply Hmaj. destruct (Hdu k) as (_ & _ & Hmj). simpl in Hmj. by rewrite Hmj. }
    intros k. rewrite (list_to_map_proper _ (map_to_list m)), list_to_map_to_list;
      [|rewrite Hpm; apply NoDup_fst_map_to_list|done].
    rewrite <- Hm. destruct (m !! k) as [e|] eqn:Hk.
    + destruct (Hme k e Hk) as [_ HR]. rewrite HR. by apply lookup_union_Some_l.
    + rewrite lookup_union_r by done. by destruct (R !! k).
  - rewrite Hpm. apply NoDup_fst_map_to_list.
  - rewrite Hpm. apply Forall_forall. intros [k e] Hin%elem_of_map_to_list. by apply Hme.
Qed.

End merged.

(** ** Records of a quorum *)

Lemma omap_perm {B C} (g : B → option C) (l l' : list B) : l ≡ₚ l' → omap g l ≡ₚ omap g l'.
Proof.
  induction 1 as [|x l l' _ IH|x y l|l l' l'' _ IH1 _ IH2]; simpl.
  - done.
  - destruct (g x); [by constructor|done].
  - destruct (g x), (g y); try done. apply perm_swap.
  - by transitivity (omap g l').
Qed.

Lemma count_perm res l l' : l ≡ₚ l' → count res l = count res l'.
Proof. intros Hp. unfold count. by rewrite Hp. Qed.

(** A record has at most one entry for an operation. *)
Lemma ents_record (k : opid_t) (rec : IRRecord) :
  ents k (omap_iter opid_le rec) = match rec !! k with Some e => [e] | None => [] end.
Proof.
  assert (ents k (omap_iter opid_le rec) ≡ₚ match rec !! k with Some e => [e] | None => [] end) as Hp.
  { unfold ents. rewrite omap_iter_perm. induction rec as [|i x m Hi IH] using map_ind.
    - by rewrite map_to_list_empty, lookup_empty.
    - rewrite map_to_list_insert by done. rewrite filter_cons, lookup_insert. simpl.
      destruct (decide (i = k)) as [->|]; [|exact IH].
      rewrite fmap_cons. simpl. by rewrite IH, Hi. }
  destruct (rec !! k); [by apply Permutation_singleton_r in Hp|by apply Permutation_nil_r in Hp].
Qed.

Lemma ents_flatten (k : opid_t) (latest : list IRRecord) :
  ents k (flatten latest) = omap (λ rec : IRRecord, rec !! k) latest.
Proof.
  induction latest as [|rec latest IH]; [done|].
  change (flatten (rec :: latest)) with (omap_iter opid_le rec ++ flatten latest).
  unfold ents. rewrite filter_app, fmap_app. fold (ents k (flatten latest)).
  fold (ents k (omap_iter opid_le rec)). rewrite IH, ents_record. simpl. by destruct (rec !! k).
Qed.

Lemma elem_of_flatten (k : opid_t) (e : RecordEntry) (latest : list IRRecord) :
  (k, e) ∈ flatten latest ↔ ∃ rec, rec ∈ latest ∧ rec !! k = Some e.
Proof. rewrite <- elem_of_ents, ents_flatten, list_elem_of_omap. naive_solver. Qed.

Lemma omap_cons_match {B C} (g : B → option C) x l :
  omap g (x :: l) = match g x with Some y => y :: omap g l | None => omap g l end.
Proof. done. Qed.

Lemma omap_length_le {B C} (g : B → option C) (l : list B) : (length (omap g l) ≤ length l)%nat.
Proof.
  induction l as [|x l IH]; [done|]. rewrite omap_cons_match.
  destruct (g x); rewrite !length_cons; lia.
Qed.

Lemma omap_ext_in {B C} (g h : B → option C) (l : list B) :
  (∀ x, x ∈ l → g x = h x) → omap g l = omap h l.
Proof.
  intros Hgh. induction l as [|x l IH]; [done|]. rewrite !omap_cons_match.
  rewrite Hgh by apply list_elem_of_here. rewrite IH; [done|].
  intros y Hy. apply Hgh. by apply list_elem_of_further.
Qed.

(** Looking up the keys of one map in another with the same keys. *)
Lemma omap_lookup_perm {V W} (ms : gmap Z V) (R : gmap Z W) :
  dom R = dom ms → omap (λ p, R !! p.1) (map_to_list ms) ≡ₚ (map_to_list R).*2.
Proof.
  revert R. induction ms as [|i m ms Hi IH] using map_ind; intros R Hdom.
  { rewrite dom_empty_L in Hdom. apply dom_empty_inv_L in Hdom. subst.
    by rewrite !map_to_list_empty. }
  assert (is_Some (R !! i)) as [x Hx] by (apply elem_of_dom; rewrite Hdom; set_solver).
  rewrite <- (insert_delete_id R i x Hx) at 1.
  rewrite !map_to_list_insert by (done || apply lookup_delete_eq).
  simpl. rewrite Hx. constructor.
  rewrite (omap_ext_in _ (λ p, delete i R !! p.1)).
  - apply IH. rewrite dom_delete_L, Hdom, dom_insert_L. apply not_elem_of_dom in Hi. set_solver.
  - intros [j m'] Hj%elem_of_map_to_list. simpl. rewrite lookup_delete_ne; [done|].
    intros <-. congruence.
Qed.

(** The records that take part: those of the messages [ms] and our own, all
    from the same normal view. *)
Record quorum_records {A} (r : IRReplica A) (ms : gmap Z DoViewChangeMessage)
    (recs : gmap Z IRRecord) : Prop := {
  qr_dom : dom recs = dom ms ∪ {[myIdx r]};
  qr_me : myIdx r ∉ dom ms;
  qr_own : recs !! myIdx r = Some (record r);
  qr_msg i m : ms !! i = Some m →
    dvc_latest_normal_view m = latest_normal_view r ∧
    ∃ rec, recs !! i = Some rec ∧ dvc_record m = Some (ToProto rec);
  qr_wf i rec : recs !! i = Some rec → rec_wf rec
}.

Lemma collect_quorum {A} (r : IRReplica A) ms recs :
  quorum_records r ms recs →
  ∃ latest, collect_latest r ms (max_latest_normal_view (latest_normal_view r) ms) = Ret latest ∧
            latest ≡ₚ (map_to_list recs).*2.
Proof.
  intros [Hdom Hme Hown Hmsg Hwf].
  assert (max_latest_normal_view (latest_normal_view r) ms = latest_normal_view r) as ->.
  { unfold max_latest_normal_view.
    assert (∀ p, p ∈ omap_iter Z.le ms → dvc_latest_normal_view p.2 = latest_normal_view r) as Hall.
    { intros [i m] Hin%elem_of_omap_iter. by apply (Hmsg i). }
    induction (omap_iter Z.le ms) as [|p l IH]; [done|]. simpl.
    rewrite Hall, Z.max_id by apply list_elem_of_here. apply IH. intros. apply Hall.
    by apply list_elem_of_further. }
  unfold collect_latest. rewrite Z.eqb_refl.
  destruct (for_each_total (λ acc (p : Z * DoViewChangeMessage),
      if (dvc_latest_normal_view p.2 =? latest_normal_view r)%Z then
        match dvc_record p.2 with
        | None => Panic
        | Some m => x ← record_of_proto m; Ret (acc ++ [x])
        end
      else Ret acc) (λ Q acc, acc = omap (λ p, recs !! p.1) Q) [] (omap_iter Z.le ms) [])
    as (acc & -> & Hacc).
  - intros Q [i m] acc [tl Hpre] ->. simpl.
    assert (ms !! i = Some m) as Hi.
    { apply (elem_of_omap_iter Z.le). simpl in Hpre. rewrite Hpre. apply elem_of_app; left.
      apply elem_of_app; right. apply list_elem_of_here. }
    destruct (Hmsg i m Hi) as (Hl & rec & Hrec & Hp). rewrite Hl, Z.eqb_refl, Hp.
    rewrite record_of_proto_ToProto by (by eapply Hwf). eexists. split; [done|].
    rewrite omap_app. simpl. by rewrite Hrec.
  - done.
  - simpl in *. exists (acc ++ [record r]). split; [done|]. rewrite Hacc.
    rewrite (omap_perm _ _ _ (omap_iter_perm Z.le ms)).
    assert (recs = <[myIdx r := record r]> (delete (myIdx r) recs)) as Heq
      by (by rewrite insert_delete_id).
    rewrite Heq at 1. rewrite map_to_list_insert by apply lookup_delete_eq. simpl.
    rewrite Permutation_app_comm. simpl. constructor.
    rewrite (omap_ext_in _ (λ p, delete (myIdx r) recs !! p.1)).
    + apply omap_lookup_perm. rewrite dom_delete_L, Hdom. set_solver.
    + intros [j m] Hj%elem_of_map_to_list. simpl. rewrite lookup_delete_ne; [done|].
      intros <-. apply Hme, elem_of_dom. by eexists.
Qed.

(** A set of replicas that recorded a result, counted in their entries. *)
Lemma count_recorded (recs : gmap Z IRRecord) (X : gset Z) (k : opid_t) res :
  (∀ i rec, i ∈ X → recs !! i = Some rec → ∃ e, rec !! k = Some e ∧ ent_result e = res) →
  X ⊆ dom recs →
  (size X ≤ count res (omap (λ rec : IRRecord, rec !! k) (map_to_list recs).*2))%nat.
Proof.
  revert X. induction recs as [|i rec recs Hi IH] using map_ind; intros X HX Hsub.
  { rewrite dom_empty_L in Hsub. assert (X = ∅) as -> by set_solver. rewrite size_empty. apply Nat.le_0_l. }
  rewrite (count_perm _ _ _ (omap_perm _ _ _ (fmap_Permutation snd _ _ (map_to_list_insert recs i rec Hi)))).
  assert (size (X ∖ {[i]}) ≤ count res (omap (λ rec : IRRecord, rec !! k) (map_to_list recs).*2))%nat as IHX.
  { apply IH; [|rewrite dom_insert_L in Hsub; set_solver]. intros j rec' Hj Hrec'.
    apply (HX j rec'); [set_solver|]. rewrite lookup_insert_ne by set_solver. done. }
  assert (size X ≤ size (X ∖ {[i]}) + if decide (i ∈ X) then 1 else 0)%nat as Hsz.
  { case_decide; [|rewrite difference_disjoint_L by set_solver; lia].
    rewrite <- (size_singleton (C := gset Z) i), <- size_union by set_solver.
    apply subseteq_size. intros y Hy. destruct (decide (y = i)); set_solver. }
  cbn [fmap list_fmap snd]. revert Hsz. destruct (decide (i ∈ X)) as [HiX|HiX]; intros Hsz.
  - destruct (HX i rec HiX) as (e & He & Hres); [apply lookup_insert_eq|].
    rewrite omap_cons_match, He. unfold count in *. rewrite filter_cons, decide_True by done.
    rewrite length_cons. lia.
  - rewrite omap_cons_match. destruct (rec !! k) as [e|]; [|lia]. unfold count in *.
    rewrite filter_cons. case_decide; rewrite ?length_cons; lia.
Qed.

Section safety.
Context {A : Type} `{IRAppLaws A}.

(** The merge of a quorum's records, in terms of those records. *)
Lemma quorum_merge (r : IRReplica A) ms recs ty :
  quorum_records r ms recs → (0 < size ms)%nat →
  (∀ i rec k e, recs !! i = Some rec → rec !! k = Some e → ent_type e = ty k) →
  ∃ latest R es (res : gmap opid_t string) R' a',
    latest ≡ₚ (map_to_list recs).*2 ∧ typed ty (flatten latest) ∧
    (∀ k e, (k, e) ∈ flatten latest ↔ ∃ i rec, recs !! i = Some rec ∧ rec !! k = Some e) ∧
    grouped (flatten latest) R es ∧ IrMergeRecords r ms = Ret (R', a') ∧ dom res = dom es ∧
    (∀ k v, (es !! k ≫= majority_result (config r)) = Some v → res !! k = Some v) ∧
    (∀ k, R' !! k = match R !! k with
                    | Some e => Some e
                    | None => res !! k ≫= merged_entry (view r) es k
                    end).
Proof.
  intros Hq Hms Hty. destruct (collect_quorum r ms recs Hq) as (latest & Hc & Hl).
  assert (∀ k e, (k, e) ∈ flatten latest ↔ ∃ i rec, recs !! i = Some rec ∧ rec !! k = Some e) as Hin.
  { intros k e. rewrite elem_of_flatten. setoid_rewrite Hl. setoid_rewrite list_elem_of_fmap.
    setoid_rewrite <- elem_of_map_to_list. split.
    - intros (rec & ([i rec'] & -> & ?) & ?). eauto.
    - intros (i & rec & ? & ?). exists rec. split; [by exists (i, rec)|done]. }
  assert (typed ty (flatten latest)) as Htyped.
  { intros k e (i & rec & Hi & He)%Hin. split; [by eapply Hty|by eapply (qr_wf _ _ _ Hq)]. }
  destruct (IrMergeRecords_spec r ms latest ty Hms Hc Htyped)
    as (R & es & res & R' & a' & Hg & Hm & Hdom & Hmaj & HR').
  by exists latest, R, es, res, R', a'.
Qed.

(** Where an entry of the merged record comes from. *)
Lemma merged_cases (vw : Z) (P : list (opid_t * RecordEntry)) (R : IRRecord) (es : entries_by) (res : gmap opid_t string)
    (R' : IRRecord) (k : opid_t) (e : RecordEntry) :
  grouped P R es →
  (∀ k, R' !! k = match R !! k with
                  | Some e => Some e | None => res !! k ≫= merged_entry vw es k end) →
  R' !! k = Some e →
  R !! k = Some e ∨
  R !! k = None ∧ ∃ e0 v, (k, e0) ∈ P ∧
    e = mkEnt vw k RECORD_STATE_FINALIZED (ent_type e0) (ent_request e0) v.
Proof.
  intros Hg HR'. rewrite HR'. destruct (R !! k) eqn:HRk; [by left|]. intros Hv. right. split; [done|].
  apply bind_Some in Hv as (v & _ & He). unfold merged_entry in He.
  rewrite (gr_open _ _ _ Hg) in He by done. case_decide; [done|]. simpl in He.
  destruct (ents k P) as [|e0 tl] eqn:Hx; [done|]. injection He as <-. exists e0, v.
  split; [|done]. apply elem_of_ents. rewrite Hx. apply list_elem_of_here.
Qed.

(** Every operation gets an entry. *)
Lemma merged_complete (vw : Z) (P : list (opid_t * RecordEntry)) (R : IRRecord) (es : entries_by) (res : gmap opid_t string)
    (R' : IRRecord) (k : opid_t) (e : RecordEntry) :
  grouped P R es → dom res = dom es →
  (∀ k, R' !! k = match R !! k with
                  | Some e => Some e | None => res !! k ≫= merged_entry vw es k end) →
  (k, e) ∈ P → is_Some (R' !! k).
Proof.
  intros Hg Hdom HR' He%elem_of_ents. rewrite HR'. destruct (R !! k) eqn:HRk; [by eexists|].
  assert (ents k P ≠ []) as Hne by (intros Hx; rewrite Hx in He; by apply elem_of_nil in He).
  pose proof (gr_open _ _ _ Hg k HRk) as Hes. rewrite decide_False in Hes by done.
  assert (k ∈ dom res) as [v Hv]%elem_of_dom by (rewrite Hdom; apply elem_of_dom; by rewrite Hes).
  rewrite Hv. simpl. unfold merged_entry. rewrite Hes. simpl. by destruct (ents k P).
Qed.


(** The replicas of a fast quorum among [f + 1] records make a majority. *)
Lemma fast_quorum_majority (c : Configuration) (recs : gmap Z IRRecord) (latest : list IRRecord)
    (F : gset Z) (k : opid_t) (res : string) :
  config_ok c → Z.of_nat (size recs) = f c + 1 → dom recs ⊆ all_replicas c →
  latest ≡ₚ (map_to_list recs).*2 →
  F ⊆ all_replicas c → FastQuorumSize c ≤ Z.of_nat (size F) →
  (∀ i rec, i ∈ F → recs !! i = Some rec → ∃ e, rec !! k = Some e ∧ ent_result e = res) →
  majority_result c (ents k (flatten latest)) = Some res.
Proof.
  intros Hc Hsize Hsub Hl HF HFs HFrec. rewrite ents_flatten.
  apply majority_result_unique; [apply Hc| |].
  - pose proof (omap_length_le (λ rec : IRRecord, rec !! k) latest) as Hlen.
    apply Permutation_length in Hl. rewrite length_fmap, length_map_to_list in Hl. lia.
  - rewrite (count_perm _ _ _ (omap_perm _ _ _ Hl)).
    pose proof (overlap c (dom recs) F Hc Hsub HF) as Hov. rewrite size_dom in Hov.
    pose proof (count_recorded recs (dom recs ∩ F) k res) as Hcnt. destruct Hc as [Hf0 Hn].
    unfold FastQuorumSize in *. rewrite fast_quorum_half in HFs by lia.
    etransitivity; [|apply inj_le, Hcnt; [|set_solver]]; [lia|].
    intros i rec [_ Hi]%elem_of_intersection Hr. by apply (HFrec i).
Qed.


End safety.

(** ** An example: two of three replicas recorded a result, the third did not *)

(** An application that keeps majority results. *)
#[global] Instance keep_app : IRApp unit := {
  ExecInconsistentUpcall a _ := Ret a;
  ExecConsensusUpcall a op := Ret (op, a);
  app_UnloggedUpcall a op := Ret (op, a);
  app_Sync a _ := Ret a;
  app_Merge a d u maj := Ret (maj ∪ ((λ _, "") <$> u), a)
}.

#[global] Instance keep_app_laws : IRAppLaws unit.
Proof.
  split; [by eexists|]. intros a d u maj Hdisj Hdm. do 2 eexists. split; [done|]. split.
  - by rewrite dom_union_L, dom_fmap_L, Hdm.
  - intros k v Hk. by apply lookup_union_Some_l.
Qed.

Definition demo_record : IRRecord :=
  {[ (1, 1) := mkEnt 0 (1, 1) RECORD_STATE_TENTATIVE RECORD_TYPE_CONSENSUS (mkReq "op" 1 1) "res" ]}.

Definition demo_leader : IRReplica unit :=
  mkIR demo_config 1 tt STATUS_VIEW_CHANGE 1 0 None demo_record (new_quorumset 1).

Definition demo_ms : gmap Z DoViewChangeMessage :=
  {[ 0 := mkDVC 0 (Some (ToProto demo_record)) 1 0 ]}.

Definition demo_recs : gmap Z IRRecord := {[ 0 := demo_record; 1 := demo_record ]}.

Lemma demo_record_wf : rec_wf demo_record.
Proof.
  intros k e. unfold demo_record. rewrite lookup_singleton_Some. by intros [<- <-].
Qed.

Lemma demo_recs_lookup i rec : demo_recs !! i = Some rec → rec = demo_record.
Proof.
  unfold demo_recs. rewrite lookup_insert_Some, lookup_singleton_Some. naive_solver.
Qed.

Lemma demo_quorum : quorum_records demo_leader demo_ms demo_recs.
Proof.
  split.
  - apply (bool_decide_unpack _). vm_compute. exact I.
  - apply (bool_decide_unpack _). vm_compute. exact I.
  - reflexivity.
  - intros i m. unfold demo_ms. rewrite lookup_singleton_Some. intros [<- <-].
    split; [done|]. by exists demo_record.
  - intros i rec ->%demo_recs_lookup. apply demo_record_wf.
Qed.

Lemma demo_typed i rec k e :
  demo_recs !! i = Some rec → rec !! k = Some e → ent_type e = RECORD_TYPE_CONSENSUS.
Proof.
  intros ->%demo_recs_lookup. unfold demo_record. rewrite lookup_singleton_Some. by intros [_ <-].
Qed.


