(* ===== verification/IRSafety.v ===== *)
(** * Invariants of an IR replica

    Across any messages, timeouts and crashes the view never goes back and what
    is on disk is what the replica acts on; within a view every operation is
    executed exactly once.  A view change can make an operation execute twice. *)

From S2P Require Import Prelude Codec Quorum IRRecord AppReplica IRReplica IRMerge.

(** ** Views and durability *)

Section views.
Context {A : Type} `{IRApp A} `{Codec PersistedViewInfo}.
Implicit Types r : IRReplica A.

Record ir_inv r : Prop := {
  inv_wf : rec_wf (record r);
  inv_views : 0 ≤ latest_normal_view r ≤ view r;
  inv_normal : status r = STATUS_NORMAL → latest_normal_view r = view r;
  inv_disk : persistent_view_info r = Some (ser (mkPVI (view r) (latest_normal_view r)))
}.

(** A step: a message, the view change timeout, or a crash and restart with
    the register's content.  View numbers stay below 2^64. *)
Inductive ir_step r : IRReplica A → Prop :=
| ir_message m acts r' : HandleMessage r m = Ret (acts, r') → ir_step r r'
| ir_timeout : view r + 1 < 2 ^ 64 → ir_step r (HandleViewChangeTimeout r).2
| ir_restart a : view r + 2 < 2 ^ 64 →
    ir_step r (new_replica (config r) (myIdx r) a (persistent_view_info r)).2.

(** What every step guarantees. *)
Definition ir_progress r r' : Prop :=
  ir_inv r' ∧ view r ≤ view r' ∧ latest_normal_view r ≤ latest_normal_view r' ∧
  config r' = config r ∧ myIdx r' = myIdx r.

Lemma ir_progress_refl r : ir_inv r → ir_progress r r.
Proof. intros Hr. split_and!; done || lia. Qed.

(** Steps that change only the record and the application. *)
Lemma ir_progress_record r rec a :
  ir_inv r → rec_wf rec → ir_progress r (set_app (set_record r rec) a).
Proof. intros [? ? ? ?] Hrec. split_and!; try done; simpl; lia. Qed.

Lemma ir_progress_app r a : ir_inv r → ir_progress r (set_app r a).
Proof. intros [? ? ? ?]. split_and!; try done; simpl; lia. Qed.

Lemma ir_progress_just_record r rec :
  ir_inv r → rec_wf rec → ir_progress r (set_record r rec).
Proof. intros [? ? ? ?] Hrec. split_and!; try done; simpl; lia. Qed.

Lemma rec_wf_alter (rec : IRRecord) k x : rec_wf rec → rec_wf (alter (λ e, with_result e x) k rec).
Proof.
  intros Hr k' e'. rewrite lookup_alter_Some. intros [(<- & e & He & ->)|[_ He]]; auto with tapir.
Qed.

Lemma client_handlers_progress r m acts r' :
  ir_inv r → (∀ msg, m ≠ DoViewChange msg) → (∀ msg, m ≠ StartView msg) →
  HandleMessage r m = Ret (acts, r') → ir_progress r r'.
Proof.
  intros Hr Hd Hs. pose proof (inv_wf _ Hr) as Hwf.
  destruct m as [req|opid|req|opid res|req|msg|msg]; simpl; [..|by destruct (Hd msg)|by destruct (Hs msg)].
  - unfold HandleProposeInconsistent. rewrite Find_wf by done. simpl.
    destruct (record r !! _) eqn:He; [intros [= _ <-]; by apply ir_progress_refl|].
    rewrite Add_fresh by done. intros [= _ <-]. apply ir_progress_just_record; auto with tapir.
  - unfold HandleFinalizeInconsistent. rewrite Find_wf by done. simpl.
    destruct (record r !! opid) as [e|] eqn:He; [|intros [= _ <-]; by apply ir_progress_refl].
    destruct (ent_state e); [|intros [= _ <-]; by apply ir_progress_refl].
    rewrite (SetStatus_wf _ _ _ _ Hwf He). simpl. rewrite bind_Ret_inv. intros (a & _ & [= _ <-]).
    apply ir_progress_record; auto with tapir.
  - unfold HandleProposeConsensus. rewrite Find_wf by done. simpl.
    destruct (record r !! _) eqn:He; [intros [= _ <-]; by apply ir_progress_refl|].
    rewrite bind_Ret_inv. intros ([res a] & _ & Hrest). rewrite Add_result_fresh in Hrest by done.
    injection Hrest as _ <-. apply ir_progress_record; auto with tapir.
  - unfold HandleFinalizeConsensus. rewrite Find_wf by done. simpl.
    destruct (record r !! opid) as [e|] eqn:He; [|intros [= _ <-]; by apply ir_progress_refl].
    rewrite (SetStatus_wf _ _ _ _ Hwf He). simpl. intros [= _ <-]. apply ir_progress_just_record; [done|].
    case_decide; [|apply rec_wf_alter]; auto with tapir.
  - unfold HandleUnlogged. rewrite bind_Ret_inv. intros (x & _ & [= _ <-]). by apply ir_progress_app.
Qed.

(** ** Merged records are well-formed *)

Lemma Add_entry_wf (rec : IRRecord) e rec' :
  rec_wf rec → entry_at (ent_opid e) e → Add_entry rec e = Ret rec' → rec_wf rec'.
Proof. intros Hr He [_ [= <-]]%ASSERT_bind. auto with tapir. Qed.

Lemma Add_result_wf (rec : IRRecord) v k req st ty res rec' :
  rec_wf rec → (req_clientid req, req_clientreqid req) = k →
  Add_result rec v k req st ty res = Ret rec' → rec_wf rec'.
Proof.
  intros Hr Hk. destruct (rec !! k) eqn:Hl; [by rewrite (Add_result_dup _ _ _ _ _ _ _ _ Hl)|].
  rewrite Add_result_fresh by done. intros [= <-]. by apply rec_wf_insert.
Qed.

Lemma collect_latest_wf r ms max latest :
  rec_wf (record r) → collect_latest r ms max = Ret latest → Forall rec_wf latest.
Proof.
  intros Hr. unfold collect_latest. rewrite bind_Ret_inv. intros (rs & Hrs & [= <-]).
  assert (Forall rec_wf rs) as Hall.
  { revert Hrs. apply (for_each_inv _ (Forall rec_wf)); [|constructor].
    intros acc [i m] acc' _ Hacc. simpl. destruct (_ =? _)%Z; [|by intros [= <-]].
    destruct (dvc_record m) as [p|]; [|done]. rewrite bind_Ret_inv. intros (x & Hx & [= <-]).
    apply Forall_app. split; [done|]. constructor; [by eapply record_of_proto_wf|constructor]. }
  destruct (_ =? _)%Z; [|done]. apply Forall_app. split; [done|]. by constructor.
Qed.

Definition grouped_wf (st : IRRecord * entries_by) : Prop :=
  rec_wf st.1 ∧ ∀ k l e, st.2 !! k = Some l → e ∈ l → entry_at k e.

Lemma group_entry_wf st p st' :
  grouped_wf st → entry_at p.1 p.2 → group_entry st p = Ret st' → grouped_wf st'.
Proof.
  destruct st as [R es], p as [k e]. intros [HR Hes] He. simpl in He, HR, Hes.
  assert (entry_at (ent_opid e) e) as He' by (by rewrite (proj1 He)).
  unfold group_entry. rewrite ASSERT_bind. intros [Hk Hg]. apply bool_decide_eq_true in Hk.
  destruct (ent_type e), (ent_state e); simpl in Hg;
    try (rewrite Find_wf in Hg by done; simpl in Hg; destruct (R !! k); simpl in Hg;
         [injection Hg as <-|apply bind_Ret_inv in Hg as (R1 & H1 & [= <-])]);
    try (split; simpl; [eauto using Add_entry_wf|]; try done;
         intros k' l e' [_ ?]%lookup_delete_Some; by apply Hes).
  destruct (R !! ent_opid e); injection Hg as <-; [done|]. split; [done|]. simpl.
  intros k' l e'. rewrite lookup_insert_Some. intros [[<- <-]|[_ ?]]; [|by apply Hes].
  rewrite elem_of_app, list_elem_of_singleton. intros [Hin| ->]; [|done].
  destruct (es !! ent_opid e) eqn:Hl; [by eapply Hes|by apply elem_of_nil in Hin].
Qed.

Lemma group_entries_wf latest st :
  Forall rec_wf latest → group_entries latest = Ret st → grouped_wf st.
Proof.
  intros Hall. unfold group_entries. apply (for_each_inv _ grouped_wf).
  - intros st1 rec st2 Hin Hst1. apply (for_each_inv _ grouped_wf); [|done].
    intros st3 [k e] st4 Hk%elem_of_omap_iter Hst3. apply group_entry_wf; [done|].
    rewrite Forall_forall in Hall. by apply (Hall rec).
  - split; [apply rec_wf_empty|]. simpl. intros k l e. by rewrite lookup_empty.
Qed.

Lemma IrMergeRecords_wf r ms R a :
  rec_wf (record r) → IrMergeRecords r ms = Ret (R, a) → rec_wf R.
Proof.
  intros Hr. unfold IrMergeRecords. rewrite bind_Ret_inv. intros (latest & Hl & H1).
  apply bind_Ret_inv in H1 as ([R1 es] & Hg & H1).
  apply group_entries_wf in Hg as [HR1 Hes]; [|by eapply collect_latest_wf]. simpl in *.
  destruct (build_d_u (config r) es) as [[d u] maj].
  apply bind_Ret_inv in H1 as (a1 & _ & H1). apply bind_Ret_inv in H1 as ([res a2] & _ & H1).
  apply ASSERT_bind in H1 as [_ H1]. apply ASSERT_bind in H1 as [_ H1].
  apply bind_Ret_inv in H1 as (merged & Hm & H1). apply bind_Ret_inv in H1 as (R2 & HR2 & [= <- <-]).
  assert (rec_wf merged) as Hmw.
  { revert Hm. apply (for_each_inv _ rec_wf); [|apply rec_wf_empty].
    intros rec [k v] rec' _ Hrec [_ Ha]%ASSERT_bind. simpl in Ha.
    destruct (es !! k) as [[|e l]|] eqn:Hek; simpl in Ha; try done.
    eapply Add_result_wf; [done| |exact Ha]. apply (Hes k (e :: l) e Hek), list_elem_of_here. }
  revert HR2. apply (for_each_inv _ rec_wf); [|done].
  intros rec [k e] rec' Hk%elem_of_omap_iter Hrec. apply Add_entry_wf; [done|].
  destruct (Hmw k e Hk) as [<- ?]. by split.
Qed.

(** ** The handlers of the view change *)

Lemma ir_inv_persist r :
  rec_wf (record r) → 0 ≤ latest_normal_view r ≤ view r →
  (status r = STATUS_NORMAL → latest_normal_view r = view r) → ir_inv (PersistViewInfo r).
Proof. by split. Qed.

Lemma lead_view_change_progress r acts msg acts' r' :
  ir_inv r → lead_view_change r acts msg = Ret (acts', r') → ir_progress r r'.
Proof.
  intros Hr. unfold lead_view_change. rewrite ASSERT_bind. intros [Hv Hl].
  apply Z.eqb_eq in Hv. destruct (negb _); [injection Hl as _ <-; by apply ir_progress_refl|].
  apply ASSERT_bind in Hl as [_ Hl].
  destruct (AddAndCheckForQuorum _ _ _ _) as [[ms|] q].
  - apply bind_Ret_inv in Hl as ([R a] & Hm & [= _ <-]).
    apply IrMergeRecords_wf in Hm; [|apply Hr]. pose proof (inv_views _ Hr).
    split; [apply ir_inv_persist; simpl; [done|lia|done]|]. simpl. split_and!; done || lia.
  - injection Hl as _ <-. destruct Hr. split_and!; done || lia.
Qed.

Lemma HandleMessage_progress r m acts r' :
  ir_inv r → HandleMessage r m = Ret (acts, r') → ir_progress r r'.
Proof.
  intros Hr Hm. pose proof (inv_views _ Hr) as Hviews.
  destruct m as [| | | | |msg|msg]; 
    try (by eapply client_handlers_progress; [exact Hr| | |exact Hm]); simpl in Hm.
  - unfold HandleDoViewChange in Hm.
    destruct (Z.ltb_spec (dvc_new_view msg) (view r)); [injection Hm as _ <-; by apply ir_progress_refl|].
    destruct (Z.eqb_spec (dvc_new_view msg) (view r)).
    + case_decide; [injection Hm as _ <-; by apply ir_progress_refl|].
      by eapply lead_view_change_progress.
    + apply ASSERT_bind in Hm as [_ Hm].
      apply lead_view_change_progress in Hm as (Hinv & Hv & Hl & Hc & Hi).
      * revert Hv Hl Hc Hi. case_decide; simpl; intros; split_and!; done || lia.
      * case_decide as Hst; simpl in Hst;
          (split; simpl; [apply Hr|lia|done || congruence|done]).
  - unfold HandleStartView in Hm. apply ASSERT_bind in Hm as [_ Hm].
    destruct (Z.ltb_spec (sv_new_view msg) (view r)); [injection Hm as _ <-; by apply ir_progress_refl|].
    destruct (_ && _); [injection Hm as _ <-; by apply ir_progress_refl|].
    apply ASSERT_bind in Hm as [_ Hm]. apply bind_Ret_inv in Hm as (rec & Hrec & Hm).
    apply bind_Ret_inv in Hm as (a & _ & [= _ <-]). apply record_of_proto_wf in Hrec.
    split; [apply ir_inv_persist; simpl; [done|lia|done]|]. simpl. split_and!; done || lia.
Qed.

Lemma ir_step_progress r r' : ir_inv r → ir_step r r' → ir_progress r r'.
Proof.
  intros Hr [m acts r1 Hm|Hv|a Hv].
  - by eapply HandleMessage_progress.
  - pose proof (inv_views _ Hr). unfold HandleViewChangeTimeout. simpl.
    assert (u64 (view r + 1) = view r + 1) as Hu by (apply u64_id; unfold is_u64; lia).
    case_decide as Hst; simpl; rewrite Hu;
      (split; [apply ir_inv_persist; simpl; [apply Hr|lia|done]|]; simpl; split_and!; done || lia).
  - pose proof (inv_views _ Hr). unfold new_replica, RecoverViewInfo.
    rewrite (inv_disk _ Hr). simpl. rewrite parse_ser. simpl.
    assert (u64 (view r + 1) = view r + 1) as Hu by (apply u64_id; unfold is_u64; lia).
    rewrite Hu. assert (u64 (view r + 1 + 1) = view r + 2) as Hu2
      by (rewrite u64_id; unfold is_u64; lia).
    destruct (_ =? _)%Z; simpl; rewrite ?Hu2;
      (split; [apply ir_inv_persist; simpl; [apply rec_wf_empty|lia|done]|]; simpl; split_and!; done || lia).
Qed.

(** C18. Views are durable and never go back.  Starting from a new replica,
    after any messages, timeouts and crashes with restart from disk: the record
    is well-formed, a normal replica's latest normal view is its view, the
    register holds exactly the view and the latest normal view; no step lowers
    either; and a restarted replica is not the leader of the view it enters. *)
Theorem ir_views_durable c idx a0 r :
  rtc ir_step (new_replica c idx a0 None).2 r →
  ir_inv r ∧
  (∀ r', ir_step r r' →
     view r ≤ view r' ∧ latest_normal_view r ≤ latest_normal_view r' ∧
     persistent_view_info r' = Some (ser (mkPVI (view r') (latest_normal_view r')))) ∧
  (∀ a : A, view r + 2 < 2 ^ 64 → 1 < n (config r) →
     let r' := (new_replica (config r) (myIdx r) a (persistent_view_info r)).2 in
     view r < view r' ∧ latest_normal_view r' = latest_normal_view r ∧
     status r' = STATUS_RECOVERING ∧ GetLeaderIndex (config r) (view r') ≠ myIdx r).
Proof.
  intros Hreach. assert (ir_inv r) as Hr.
  { revert r Hreach. apply rtc_ind_r; [by apply ir_inv_persist; simpl; [apply rec_wf_empty|lia|]|].
    intros r r' _ Hstep Hr. by apply (ir_step_progress r r'). }
  split; [done|]. split.
  - intros r' Hstep. destruct (ir_step_progress r r' Hr Hstep) as (Hr' & ? & ? & _).
    split_and!; try done. apply Hr'.
  - intros a Hv Hn. pose proof (inv_views _ Hr). unfold new_replica, RecoverViewInfo.
    rewrite (inv_disk _ Hr). simpl. rewrite parse_ser. simpl. rewrite !(u64_id (view r + 1)) by (unfold is_u64; lia).
    destruct (Z.eqb_spec (myIdx r) (GetLeaderIndex (config r) (view r + 1))) as [He|He]; simpl.
    + rewrite u64_id by (unfold is_u64; lia). split_and!; [lia|done|done|]. rewrite He.
      unfold GetLeaderIndex. intros Heq.
      assert ((view r + 1 + 1 - (view r + 1)) mod n (config r) = 0) as Hz
        by (rewrite Zminus_mod, Heq, Z.sub_diag; apply Z.mod_0_l; lia).
      replace (view r + 1 + 1 - (view r + 1)) with 1 in Hz by lia.
      rewrite Z.mod_small in Hz; lia.
    + split_and!; [lia|done|done|]. congruence.
Qed.

End views.

Definition demo_codec : Codec PersistedViewInfo := bits_codec PersistedViewInfo.

(** A replica that timed out once and restarts. *)
Definition demo_timed_out : IRReplica unit :=
  (@HandleViewChangeTimeout _ demo_codec (@new_replica _ demo_codec demo_config 2 tt None).2).2.

Lemma ir_views_durable_witness :
  GetLeaderIndex demo_config
    (view (@new_replica _ demo_codec demo_config 2 tt (persistent_view_info demo_timed_out)).2) ≠ 2.
Proof.
  destruct (@ir_views_durable unit keep_app demo_codec demo_config 2 tt demo_timed_out) as (_ & _ & Hr).
  - apply rtc_once. apply ir_timeout. reflexivity.
  - apply (Hr tt); reflexivity.
Defined.

(** ** Exactly-once execution within a view

    The application is wrapped to record the operations it executes. *)

Inductive event := ExecInc (op : string) | ExecCons (op : string).

#[global] Instance logged_app {A} `{IRApp A} : IRApp (A * list event) := {
  ExecInconsistentUpcall s op :=
    a ← ExecInconsistentUpcall s.1 op; Ret (a, s.2 ++ [ExecInc op]);
  ExecConsensusUpcall s op :=
    x ← ExecConsensusUpcall s.1 op; Ret (x.1, (x.2, s.2 ++ [ExecCons op]));
  app_UnloggedUpcall s op := x ← app_UnloggedUpcall s.1 op; Ret (x.1, (x.2, s.2));
  app_Sync s rec := a ← app_Sync s.1 rec; Ret (a, s.2);
  app_Merge s d u maj := x ← app_Merge s.1 d u maj; Ret (x.1, (x.2, s.2))
}.

Definition executed_inc (l : list event) : list string :=
  omap (λ e, match e with ExecInc op => Some op | ExecCons _ => None end) l.
Definition executed_cons (l : list event) : list string :=
  omap (λ e, match e with ExecCons op => Some op | ExecInc _ => None end) l.

(** The operations of the entries with property [P]. *)
Definition ops_of (P : RecordEntry → bool) (rec : IRRecord) : list string :=
  (λ p : opid_t * RecordEntry, req_op (ent_request p.2)) <$>
    filter (λ p : opid_t * RecordEntry, P p.2 = true) (map_to_list rec).

Lemma ops_of_insert (P : RecordEntry → bool) (rec : IRRecord) (k : opid_t) (e : RecordEntry) :
  rec !! k = None →
  ops_of P (<[k := e]> rec) ≡ₚ (if P e then [req_op (ent_request e)] else []) ++ ops_of P rec.
Proof.
  intros Hk. unfold ops_of. rewrite map_to_list_insert by done. rewrite filter_cons. simpl.
  destruct (P e); [by rewrite decide_True|by rewrite decide_False].
Qed.

(** Replacing an entry by one with the same request. *)
Lemma ops_of_update (P : RecordEntry → bool) (rec : IRRecord) (k : opid_t) (e e' : RecordEntry) :
  rec !! k = Some e → ent_request e' = ent_request e →
  ops_of P (<[k := e']> rec) ++ (if P e then [req_op (ent_request e)] else []) ≡ₚ
  ops_of P rec ++ (if P e' then [req_op (ent_request e)] else []).
Proof.
  intros Hk Hreq. rewrite <- (insert_delete_id rec k e Hk) at 2. rewrite <- insert_delete_eq.
  rewrite !ops_of_insert by apply lookup_delete_eq. rewrite Hreq.
  rewrite (Permutation_app_comm _ (ops_of P (delete k rec))),
    (Permutation_app_comm (if P e then _ else _) (ops_of P (delete k rec))), <- !app_assoc.
  apply Permutation_app_head, Permutation_app_comm.
Qed.

Definition is_inc_final (e : RecordEntry) : bool :=
  bool_decide (ent_type e = RECORD_TYPE_INCONSISTENT ∧ ent_state e = RECORD_STATE_FINALIZED).
Definition is_cons (e : RecordEntry) : bool :=
  bool_decide (ent_type e = RECORD_TYPE_CONSENSUS).

(** Messages of clients, which use an operation id for one type of operation. *)
Definition client_message (ty : opid_t → RecordEntryType) (m : ir_request) : Prop :=
  match m with
  | ProposeInconsistent req => ty (req_clientid req, req_clientreqid req) = RECORD_TYPE_INCONSISTENT
  | FinalizeInconsistent opid => ty opid = RECORD_TYPE_INCONSISTENT
  | ProposeConsensus req => ty (req_clientid req, req_clientreqid req) = RECORD_TYPE_CONSENSUS
  | FinalizeConsensus opid _ => ty opid = RECORD_TYPE_CONSENSUS
  | UnloggedRequest _ => True
  | DoViewChange _ | StartView _ => False
  end.

Section exactly_once.
Context {A : Type} `{IRApp A} `{Codec PersistedViewInfo} (ty : opid_t → RecordEntryType).
Implicit Types r : IRReplica (A * list event).

Inductive client_step r : IRReplica (A * list event) → Prop :=
| client_request m acts r' :
    client_message ty m → HandleMessage r m = Ret (acts, r') → client_step r r'.

Record once_inv r : Prop := {
  once_wf : rec_wf (record r);
  once_ty (k : opid_t) (e : RecordEntry) : record r !! k = Some e → ent_type e = ty k;
  once_inc : executed_inc (app r).2 ≡ₚ ops_of is_inc_final (record r);
  once_cons : executed_cons (app r).2 ≡ₚ ops_of is_cons (record r)
}.

Lemma executed_snoc l ev :
  executed_inc (l ++ [ev]) = executed_inc l ++ (match ev with ExecInc op => [op] | _ => [] end) ∧
  executed_cons (l ++ [ev]) = executed_cons l ++ (match ev with ExecCons op => [op] | _ => [] end).
Proof.
  unfold executed_inc, executed_cons. rewrite !omap_app. by destruct ev.
Qed.

(** A new entry. *)
Lemma once_add r (k : opid_t) (e : RecordEntry) (l' : list event) :
  once_inv r → record r !! k = None → entry_at k e → ent_type e = ty k →
  executed_inc l' ≡ₚ executed_inc (app r).2 ++ (if is_inc_final e then [req_op (ent_request e)] else []) →
  executed_cons l' ≡ₚ executed_cons (app r).2 ++ (if is_cons e then [req_op (ent_request e)] else []) →
  ∀ a, once_inv (set_app (set_record r (<[k := e]> (record r))) (a, l')).
Proof.
  intros [Hwf Hty Hi Hc] Hk He Ht Hi' Hc' a. split; simpl.
  - auto with tapir.
  - intros k' e'. rewrite lookup_insert_Some. intros [[<- <-]|[_ ?]]; auto.
  - rewrite Hi', Hi, ops_of_insert by done. apply Permutation_app_comm.
  - rewrite Hc', Hc, ops_of_insert by done. apply Permutation_app_comm.
Qed.

(** An entry whose state or result changes. *)
Lemma once_update r (k : opid_t) (e e' : RecordEntry) (l' : list event) :
  once_inv r → record r !! k = Some e → entry_at k e' → ent_type e' = ent_type e →
  ent_request e' = ent_request e →
  executed_inc l' ++ (if is_inc_final e then [req_op (ent_request e)] else []) ≡ₚ
    executed_inc (app r).2 ++ (if is_inc_final e' then [req_op (ent_request e)] else []) →
  executed_cons l' = executed_cons (app r).2 →
  ∀ a, once_inv (set_app (set_record r (<[k := e']> (record r))) (a, l')).
Proof.
  intros [Hwf Hty Hi Hc] Hk He Ht Hreq Hi' Hc' a. split; simpl.
  - auto with tapir.
  - intros k' e1. rewrite lookup_insert_Some. intros [[<- <-]|[_ ?]]; [rewrite Ht|]; auto.
  - pose proof (ops_of_update is_inc_final _ _ _ _ Hk Hreq) as Hu. rewrite <- Hi, <- Hi' in Hu.
    symmetry. by apply Permutation_app_inv_r in Hu.
  - pose proof (ops_of_update is_cons _ _ _ _ Hk Hreq) as Hu.
    assert (is_cons e' = is_cons e) as Hic by (unfold is_cons; by rewrite Ht). rewrite Hic in Hu.
    apply Permutation_app_inv_r in Hu. by rewrite Hc', Hc, Hu.
Qed.

Lemma set_app_same r rec : set_app (set_record r rec) ((app r).1, (app r).2) = set_record r rec.
Proof. by destruct r as [? ? [a l] ? ? ? ? ? ?]. Qed.

Lemma once_step r r' : once_inv r → client_step r r' → once_inv r'.
Proof.
  intros Hr [m acts r1 Hm Hh]. pose proof (once_wf _ Hr) as Hwf.
  destruct m as [req|opid|req|opid res|req|msg|msg]; simpl in Hm, Hh; try done.
  - unfold HandleProposeInconsistent in Hh. rewrite Find_wf in Hh by done. simpl in Hh.
    destruct (record r !! _) eqn:He; [by injection Hh as _ <-|].
    rewrite Add_fresh in Hh by done. injection Hh as _ <-. rewrite <- set_app_same.
    apply once_add; try done; by rewrite app_nil_r.
  - unfold HandleFinalizeInconsistent in Hh. rewrite Find_wf in Hh by done. simpl in Hh.
    destruct (record r !! opid) as [e|] eqn:He; [|by injection Hh as _ <-].
    destruct (ent_state e) eqn:Hst; [|by injection Hh as _ <-].
    rewrite (SetStatus_wf _ _ _ _ Hwf He) in Hh. simpl in Hh.
    apply bind_Ret_inv in Hh as (x & Hx & [= _ <-]). apply bind_Ret_inv in Hx as (a & _ & [= <-]).
    pose proof (once_ty _ Hr _ _ He) as Hty. rewrite Hm in Hty.
    eapply once_update; [done|exact He|auto with tapir|done|done|..]; rewrite ?(proj1 (executed_snoc _ _)), ?(proj2 (executed_snoc _ _)).
    + unfold is_inc_final. simpl. rewrite Hst, Hty, bool_decide_false, bool_decide_true by (split; done) || (by intros [_ ?]).
      by rewrite app_nil_r.
    + apply app_nil_r.
  - unfold HandleProposeConsensus in Hh. rewrite Find_wf in Hh by done. simpl in Hh.
    destruct (record r !! _) eqn:He; [by injection Hh as _ <-|].
    apply bind_Ret_inv in Hh as (x & Hx & Hh). apply bind_Ret_inv in Hx as ([res a] & _ & [= <-]).
    rewrite Add_result_fresh in Hh by done. injection Hh as _ <-.
    apply once_add; try done; by rewrite ?(proj1 (executed_snoc _ _)), ?(proj2 (executed_snoc _ _)).
  - unfold HandleFinalizeConsensus in Hh. rewrite Find_wf in Hh by done. simpl in Hh.
    destruct (record r !! opid) as [e|] eqn:He; [|by injection Hh as _ <-].
    rewrite (SetStatus_wf _ _ _ _ Hwf He) in Hh. simpl in Hh. injection Hh as _ <-.
    pose proof (once_ty _ Hr _ _ He) as Hty. rewrite Hm in Hty.
    assert (∀ e', ent_type e' = ent_type e → is_inc_final e' = false) as Hni.
    { intros e' Ht. apply bool_decide_eq_false. rewrite Ht, Hty. by intros [? _]. }
    case_decide; [|rewrite alter_insert_eq]; rewrite <- set_app_same;
      (eapply once_update; [done|exact He|auto with tapir|done|done|by rewrite !Hni|done]).
  - unfold HandleUnlogged in Hh. apply bind_Ret_inv in Hh as (x & Hx & [= _ <-]).
    apply bind_Ret_inv in Hx as ([res a] & _ & [= <-]). by destruct Hr.
Qed.

Lemma once_new c idx (a : A) disk : once_inv (new_replica c idx (a, [] : list event) disk).2.
Proof.
  set (r := (new_replica c idx (a, [] : list event) disk).2).
  assert (record r = ∅ ∧ (app r).2 = []) as [Hrec Happ] by (unfold r, new_replica, RecoverViewInfo; by repeat case_match).
  split; rewrite ?Hrec, ?Happ; unfold ops_of; rewrite ?map_to_list_empty; try done.
Qed.

End exactly_once.


(** The run of a list of messages. *)
Definition handle_all {A} `{IRApp A} `{Codec PersistedViewInfo} (r : IRReplica A)
    (ms : list ir_request) : outcome (IRReplica A) :=
  for_each (λ r m, x ← HandleMessage r m; Ret x.2) r ms.

Definition demo_logged : IRReplica (unit * list event) :=
  (@new_replica _ demo_codec demo_config 0 (tt, []) None).2.

Definition demo_inc : Request := mkReq "w" 7 1.

Definition demo_finalized : IRReplica (unit * list event) :=
  set_app (set_record demo_logged
    {[ (7, 1) := mkEnt 0 (7, 1) RECORD_STATE_FINALIZED RECORD_TYPE_INCONSISTENT demo_inc "" ]})
    (tt, [ExecInc "w"]).

Definition demo_proposed : IRReplica (unit * list event) :=
  set_record demo_logged
    {[ (7, 1) := mkEnt 0 (7, 1) RECORD_STATE_TENTATIVE RECORD_TYPE_INCONSISTENT demo_inc "" ]}.


(** A view change makes a replica execute an inconsistent operation a
    second time.  Replica 0 has finalized and executed the operation; replica 1,
    which has it tentative, starts view 3; the merged record of its leader,
    replica 0, has the state of the first record, tentative, so the client's
    repeated finalize message is executed again. *)
Theorem view_change_reexecutes :
  ∃ msg r, dvc_record msg = Some (ToProto (record demo_proposed)) ∧
    @handle_all _ (@logged_app _ keep_app) demo_codec demo_logged
      [ProposeInconsistent demo_inc; FinalizeInconsistent (7, 1); DoViewChange msg;
       FinalizeInconsistent (7, 1)] = Ret r ∧
    executed_inc (app r).2 = ["w"; "w"].
Proof.
  exists (mkDVC 1 (Some (ToProto (record demo_proposed))) 3 0). eexists.
  split; [reflexivity|]. split; [vm_compute; reflexivity|vm_compute; reflexivity].
Qed.
