(* ===== verification/Promise.v ===== *)
(** * Promises (store/common/promise.{h,cc})

    A promise is answered by the transport's thread and awaited by the
    application's; the accessors block on a condition variable until it is done,
    which the model shows as [None]. *)

From S2P Require Import Prelude Timestamp.

Record Promise := mkPromise {
  pr_done : bool;
  pr_timeout : Z;
  pr_reply : Z;
  pr_timestamp : Timestamp;
  pr_value : string
}.

Definition promise_with (timeoutMS : Z) : Promise := mkPromise false timeoutMS 0 (mkTS 0 0) "".
Notation new_promise := (promise_with 1000) (only parsing).

Definition ReplyInternal (p : Promise) (r : Z) : Promise :=
  mkPromise true (pr_timeout p) r (pr_timestamp p) (pr_value p).

Definition Reply_r (p : Promise) (r : Z) : Promise := ReplyInternal p r.
Definition Reply_rt (p : Promise) (r : Z) (t : Timestamp) : Promise :=
  ReplyInternal (mkPromise (pr_done p) (pr_timeout p) (pr_reply p) t (pr_value p)) r.
Definition Reply_rv (p : Promise) (r : Z) (v : string) : Promise :=
  ReplyInternal (mkPromise (pr_done p) (pr_timeout p) (pr_reply p) (pr_timestamp p) v) r.
Definition Reply_rtv (p : Promise) (r : Z) (t : Timestamp) (v : string) : Promise :=
  ReplyInternal (mkPromise (pr_done p) (pr_timeout p) (pr_reply p) t v) r.

Definition GetTimeout (p : Promise) : Z := pr_timeout p.

(** Blocked until [pr_done]. *)
Definition GetReply (p : Promise) : option Z := if pr_done p then Some (pr_reply p) else None.
Definition GetTimestamp (p : Promise) : option Timestamp := if pr_done p then Some (pr_timestamp p) else None.
Definition GetValue (p : Promise) : option string := if pr_done p then Some (pr_value p) else None.
