(* ===== verification/LockService.v ===== *)
(** * The replicated lock service (lockserver/server.{h,cc}, client.{h,cc})

    The lock server is an application of inconsistent replication: a lock is a
    consensus operation, an unlock an inconsistent one.  [Sync] rebuilds the
    table of locks from a merged record and [Merge] settles the open requests;
    the client decides on the replicas' replies. *)

From S2P Require Import Prelude Codec Quorum IRRecord IRReplica IRMerge Promise.

(** ** Messages (locks-proto.proto) *)

Record LockRequest := mkLockReq { lr_clientid : Z; lr_key : string; lr_type : bool }.
Record LockReply := mkLockReply { lp_key : string; lp_status : Z }.

#[global] Instance LockRequest_eq_dec : EqDecision LockRequest.
Proof. solve_decision. Defined.
#[global] Instance LockReply_eq_dec : EqDecision LockReply.
Proof. solve_decision. Defined.
#[global] Instance LockRequest_countable : Countable LockRequest :=
  inj_countable' (λ r, (lr_clientid r, lr_key r, lr_type r)) (λ p, mkLockReq p.1.1 p.1.2 p.2)
    (λ r, match r with mkLockReq _ _ _ => eq_refl end).
#[global] Instance LockReply_countable : Countable LockReply :=
  inj_countable' (λ r, (lp_key r, lp_status r)) (λ p, mkLockReply p.1 p.2)
    (λ r, match r with mkLockReply _ _ => eq_refl end).
#[global] Instance LockRequest_inhabited : Inhabited LockRequest := populate (mkLockReq 0 "" false).
#[global] Instance LockReply_inhabited : Inhabited LockReply := populate (mkLockReply "" 0).

(** ** [std::set_difference] on two sequences *)

Fixpoint set_difference (l1 : list Z) : list Z → list Z :=
  fix go (l2 : list Z) : list Z :=
    match l1, l2 with
    | [], _ => []
    | _, [] => l1
    | x :: l1', y :: l2' =>
        if (x <? y)%Z then x :: set_difference l1' l2
        else if (y <? x)%Z then go l2'
        else set_difference l1' l2'
    end.

(** An [unordered_set] of client ids. *)
Notation idset := (gmap Z unit).
Definition set_iter `{IterOrder} (s : idset) : list Z := (umap_iter s).*1.
Definition set_of (l : list Z) : idset := list_to_map ((λ x, (x, ())) <$> l).

Record KeyLockInfo := mkInfo { locked : idset; unlocked : idset }.

(** The member [locks]. *)
Notation lock_table := (gmap string Z).

Section server.
Context `{IterOrder} `{Codec LockRequest} `{Codec LockReply}.
Implicit Types locks : lock_table.

Definition ls_ExecInconsistentUpcall locks (str1 : string) : outcome lock_table :=
  let request : LockRequest := parse str1 in
  let key := lr_key request in
  let client_id := lr_clientid request in
  if lr_type request then Ret locks
  else match locks !! key with
       | Some holder => Ret (if (client_id =? holder)%Z then delete key locks else locks)
       | None => Ret locks
       end.

Definition lock_request locks (request : LockRequest) : LockReply * lock_table :=
  let key := lr_key request in
  let client_id := lr_clientid request in
  let '(status, locks') :=
    if lr_type request then
      match locks !! key with
      | None => (0, <[key := client_id]> locks)
      | Some holder => if (holder =? client_id)%Z then (0, locks) else (-1, locks)
      end
    else
      match locks !! key with
      | None => (-2, locks)
      | Some holder => if (holder =? client_id)%Z then (0, delete key locks) else (-2, locks)
      end in
  (mkLockReply key status, locks').

Definition ls_ExecConsensusUpcall locks (str1 : string) : outcome (string * lock_table) :=
  let '(reply, locks') := lock_request locks (parse str1) in
  Ret (ser reply, locks').

Definition ls_UnloggedUpcall locks (str1 : string) : outcome (string * lock_table) :=
  Ret ("", locks).

(** The first loop of [Sync]: one entry of the record. *)
Definition sync_entry (infos : gmap string KeyLockInfo) (p : opid_t * RecordEntry) :
    gmap string KeyLockInfo :=
  let request : LockRequest := parse (req_op (ent_request p.2)) in
  let reply : LockReply := parse (ent_result p.2) in
  let info := default (mkInfo ∅ ∅) (infos !! lr_key request) in
  let info' :=
    if lr_type request && (lp_status reply =? 0)%Z then
      mkInfo (<[lr_clientid request := ()]> (locked info)) (unlocked info)
    else if negb (lr_type request) && (lp_status reply =? 0)%Z then
      mkInfo (locked info) (<[lr_clientid request := ()]> (unlocked info))
    else info in
  <[lr_key request := info']> infos.

(** The second loop of [Sync]: one key. *)
Definition sync_key locks (p : string * KeyLockInfo) : outcome lock_table :=
  let diff := set_of (set_difference (set_iter (locked p.2)) (set_iter (unlocked p.2))) in
  ASSERT! (size diff =? 0)%nat || (size diff =? 1)%nat;
  match set_iter diff with
  | client_id :: _ => if (size diff =? 1)%nat then Ret (<[p.1 := client_id]> locks) else Ret locks
  | [] => Ret locks
  end.

Definition ls_Sync locks (record : IRRecord) : outcome lock_table :=
  let key_lock_info := foldl sync_entry ∅ (omap_iter opid_le record) in
  for_each sync_key ∅ (umap_iter key_lock_info).

(** The first loop of [Merge]: a request with a majority result. *)
Definition merge_d (majority_results_in_d : gmap opid_t string)
    (st : gmap opid_t string * lock_table) (p : opid_t * list RecordEntry) :
    outcome (gmap opid_t string * lock_table) :=
  let '(results, locks) := st in
  match p.2 with
  | [] => Panic
  | entry :: _ =>
      let request : LockRequest := parse (req_op (ent_request entry)) in
      match majority_results_in_d !! p.1 with
      | None => Panic
      | Some majority =>
          let reply : LockReply := parse majority in
          if (lp_status reply =? 0)%Z then
            match locks !! lp_key reply with
            | None => Ret (<[p.1 := majority]> results,
                           <[lp_key reply := lr_clientid request]> locks)
            | Some _ => Ret (<[p.1 := ser (mkLockReply (lp_key reply) (-1))]> results, locks)
            end
          else Ret (<[p.1 := majority]> results, locks)
      end
  end.

(** The second loop of [Merge]: the requests without one are rejected. *)
Definition merge_u (results : gmap opid_t string) (p : opid_t * list RecordEntry) :
    outcome (gmap opid_t string) :=
  match p.2 with
  | [] => Panic
  | entry :: _ =>
      let request : LockRequest := parse (req_op (ent_request entry)) in
      Ret (<[p.1 := ser (mkLockReply (lr_key request) (-1))]> results)
  end.

Definition ls_Merge locks (d u : entries_by) (majority_results_in_d : gmap opid_t string) :
    outcome (gmap opid_t string * lock_table) :=
  st ← for_each (merge_d majority_results_in_d) (∅, locks) (omap_iter opid_le d);
  results ← for_each merge_u st.1 (omap_iter opid_le u);
  Ret (results, st.2).

#[global] Instance lock_app : IRApp lock_table := {
  ExecInconsistentUpcall := ls_ExecInconsistentUpcall;
  ExecConsensusUpcall := ls_ExecConsensusUpcall;
  app_UnloggedUpcall := ls_UnloggedUpcall;
  app_Sync := ls_Sync;
  app_Merge := ls_Merge
}.

(** ** The client *)

(** [Decide] on the replies and how many replicas sent each. *)
Definition decide_step (st : Z * string) (p : string * nat) : Z * string :=
  let reply : LockReply := parse p.1 in
  (if (lp_status reply =? 0)%Z then st.1 + Z.of_nat p.2 else st.1, lp_key reply).

Definition lock_Decide (results : gmap string nat) : string :=
  let '(success_count, key) := foldl decide_step (0, "") (omap_iter string_le results) in
  ser (mkLockReply key (if (2 <=? success_count)%Z then 0 else -1)).

End server.

(** The client object: the promise of the request in flight.  Promises live in
    a heap, because the callbacks and the waiting thread share them. *)
Record LockClient := mkClient {
  client_id : Z;
  waiting : option nat;
  heap : gmap nat Promise;
  next_promise : nat
}.

Notation new_lock_client id := (mkClient id None ∅ 0) (only parsing).

Section client.
Context `{Codec LockRequest} `{Codec LockReply}.
Implicit Types c : LockClient.

(** The request goes to [InvokeConsensus], or [InvokeInconsistent] for an unlock. *)
Definition request_async c (key : string) (type : bool) : outcome (string * LockClient) :=
  ASSERT! bool_decide (waiting c = None);
  Ret (ser (mkLockReq (client_id c) key type),
       mkClient (client_id c) (Some (next_promise c))
         (<[next_promise c := promise_with 1000]> (heap c)) (S (next_promise c))).

Definition lock_async c (key : string) : outcome (string * LockClient) := request_async c key true.
Definition unlock_async c (key : string) : outcome (string * LockClient) := request_async c key false.

(** [lock_wait] up to the blocking call: it has read the pointer. *)
Definition lock_wait_begin c : outcome nat :=
  match waiting c with Some w => Ret w | None => Panic end.

(** The rest of [lock_wait], once the promise [w] is answered; [None] while it
    blocks.  It deletes what [waiting] points to now. *)
Definition lock_wait_end c (w : nat) : option (bool * LockClient) :=
  p ← heap c !! w;
  status ← GetReply p;
  let heap' := match waiting c with Some w' => delete w' (heap c) | None => heap c end in
  Some ((status =? 0)%Z, mkClient (client_id c) None heap' (next_promise c)).

(** [unlock_wait] dereferences the pointer without a check. *)
Definition unlock_wait_begin c : outcome nat := lock_wait_begin c.
Definition unlock_wait_end c (w : nat) : option LockClient := snd <$> lock_wait_end c w.

Definition answer c (status : Z) : outcome LockClient :=
  match waiting c with
  | Some w => Ret (mkClient (client_id c) None (alter (λ p, Reply_r p status) w (heap c)) (next_promise c))
  | None => Panic
  end.

Definition LockCallback c (request_str reply_str : string) : outcome LockClient :=
  answer c (lp_status (parse reply_str : LockReply)).
Definition UnlockCallback c (request_str reply_str : string) : outcome LockClient := answer c 0.
Definition ErrorCallback c (request_str : string) : outcome LockClient := answer c (-3).

End client.
