(* ===== verification/LockServiceProps.v ===== *)
(** * Properties of the replicated lock service

    Mutual exclusion across the replicas within a view, what [Sync] and [Merge]
    do to the locks at a view change, and where the service breaks: more than
    three replicas, an unsorted hash table, a promise answered early. *)

From S2P Require Import Prelude Codec Timestamp Quorum IRRecord IRReplica IRMerge IRSafety Promise LockService.

(** ** Mutual exclusion within a view *)

(** What a replica executes, with its replies. *)
Inductive lock_event :=
| Consensus (req : LockRequest) (result : string)
| Inconsistent (req : LockRequest).

Section exclusion.
Context `{IterOrder} `{Codec LockRequest} `{Codec LockReply}.

Inductive lock_run : list lock_event → lock_table → Prop :=
| run_start : lock_run [] ∅
| run_consensus evs locks req res locks' :
    lock_run evs locks → ls_ExecConsensusUpcall locks (ser req) = Ret (res, locks') →
    lock_run (evs ++ [Consensus req res]) locks'
| run_inconsistent evs locks req locks' :
    lock_run evs locks → ls_ExecInconsistentUpcall locks (ser req) = Ret locks' →
    lock_run (evs ++ [Inconsistent req]) locks'.

(** The event releases [key] for the client [c]. *)
Definition releases_lock (c : Z) (key : string) (ev : lock_event) : Prop :=
  match ev with
  | Consensus req _ | Inconsistent req => req = mkLockReq c key false
  end.

(** A replica that granted a lock holds it for the client until it is released. *)
Lemma granted_is_held evs locks c key res :
  lock_run evs locks → Consensus (mkLockReq c key true) res ∈ evs →
  lp_status (parse res) = 0 → (∀ ev, ev ∈ evs → ¬ releases_lock c key ev) →
  locks !! key = Some c.
Proof.
  intros Hrun Hin Hres Hno. revert Hin Hno.
  induction Hrun as [|evs locks req res' locks' Hrun IH Hex|evs locks req locks' Hrun IH Hex]; intros Hin Hno.
  - by apply elem_of_nil in Hin.
  - assert (∀ ev, ev ∈ evs → ¬ releases_lock c key ev) as Hno' by (intros; apply Hno, elem_of_app; auto).
    assert (req ≠ mkLockReq c key false) as Hreq.
    { intros ->. apply (Hno (Consensus (mkLockReq c key false) res')); [|done].
      apply elem_of_app. right. by apply list_elem_of_singleton. }
    revert Hex. unfold ls_ExecConsensusUpcall. rewrite parse_ser. unfold lock_request.
    destruct req as [c' key' ty]; simpl. rewrite elem_of_app, list_elem_of_singleton in Hin.
    destruct Hin as [Hin|[= <- <- <- <-]].
    + specialize (IH Hin Hno'). destruct (decide (key' = key)) as [->|Hk].
      * rewrite IH. destruct ty, (Z.eqb_spec c c') as [->|]; by intros [= _ <-].
      * destruct ty, (locks !! key') as [h|]; try destruct (h =? c')%Z; intros [= _ <-];
          by rewrite ?lookup_insert_ne, ?lookup_delete_ne.
    + destruct (locks !! key) as [h|] eqn:Hl; simpl.
      * destruct (Z.eqb_spec h c) as [->|]; intros [= <- <-]; [done|]. by rewrite parse_ser in Hres.
      * intros [= _ <-]. apply lookup_insert_eq.
  - rewrite elem_of_app, list_elem_of_singleton in Hin. destruct Hin as [Hin|]; [|done].
    assert (locks !! key = Some c) as Hl by (apply IH; [done|]; intros; apply Hno, elem_of_app; auto).
    revert Hex. unfold ls_ExecInconsistentUpcall. rewrite parse_ser. destruct req as [c' key' ty]; simpl.
    destruct ty; [by intros [= <-]|]. destruct (decide (key' = key)) as [->|Hk].
    + rewrite Hl. destruct (Z.eqb_spec c' c) as [->|]; [|by intros [= <-]].
      exfalso. apply (Hno (Inconsistent (mkLockReq c key false))); [|done].
      apply elem_of_app. right. by apply list_elem_of_singleton.
    + destruct (locks !! key'); [case_match|]; intros [= <-]; by rewrite ?lookup_delete_ne.
Qed.

(** The replies of [voters], counted. *)
Definition tally (votes : Z → string) (voters : list Z) : gmap string nat :=
  foldr (λ i m, <[votes i := S (default 0%nat (m !! votes i))]> m) ∅ voters.

Definition success (s : string) : bool := (lp_status (parse s : LockReply) =? 0)%Z.

Lemma decide_count (l : list (string * nat)) (st : Z * string) :
  (foldl decide_step st l).1 =
  st.1 + foldr (λ p n, (if success p.1 then Z.of_nat p.2 else 0) + n) 0 l.
Proof.
  revert st. induction l as [|p l IH]; intros st; simpl; [lia|].
  rewrite IH. simpl. unfold success. case_match; lia.
Qed.

Definition success_sum (m : gmap string nat) : Z :=
  foldr (λ p n, (if success p.1 then Z.of_nat p.2 else 0) + n) 0 (map_to_list m).

Lemma success_sum_perm l1 l2 :
  l1 ≡ₚ l2 → foldr (λ p n, (if success p.1 then Z.of_nat p.2 else 0) + n) 0 l1 =
             foldr (λ p n, (if success p.1 then Z.of_nat p.2 else 0) + n) 0 l2.
Proof. induction 1; simpl; lia. Qed.

Lemma success_sum_insert m s k :
  m !! s = None → success_sum (<[s := k]> m) = (if success s then Z.of_nat k else 0) + success_sum m.
Proof.
  intros Hs. unfold success_sum. by rewrite (success_sum_perm _ _ (map_to_list_insert m s k Hs)).
Qed.

Lemma success_sum_incr m s :
  success_sum (<[s := S (default 0%nat (m !! s))]> m) = (if success s then 1 else 0) + success_sum m.
Proof.
  destruct (m !! s) as [k|] eqn:Hs; simpl.
  - rewrite <- (insert_delete_id m s k Hs) at 2. rewrite <- insert_delete_eq.
    rewrite !success_sum_insert by apply lookup_delete_eq. case_match; lia.
  - rewrite success_sum_insert by done. case_match; lia.
Qed.

Lemma tally_success votes voters :
  success_sum (tally votes voters) =
  Z.of_nat (length (filter (λ i, success (votes i) = true) voters)).
Proof.
  induction voters as [|i l IH]; [done|]. cbn [tally foldr]. fold (tally votes l).
  rewrite success_sum_incr, IH, filter_cons. destruct (success (votes i)).
  - rewrite decide_True by done. simpl. lia.
  - rewrite decide_False by done. lia.
Qed.

(** [Decide] answers success when two replicas did. *)
Lemma Decide_success results :
  lp_status (parse (lock_Decide results)) = 0 ↔ 2 ≤ success_sum results.
Proof.
  unfold lock_Decide. pose proof (decide_count (omap_iter string_le results) (0, "")) as Hd.
  destruct (foldl _ _ _) as [k key]. simpl in Hd. rewrite parse_ser. simpl.
  rewrite (success_sum_perm _ _ (omap_iter_perm string_le results)) in Hd. fold (success_sum results) in Hd.
  destruct (Z.leb_spec 2 k); lia.
Qed.

(** The client [c] was told it has the lock on [key]: [Decide] took the replies
    of [voters] for a success. *)
Definition won (evs : Z → list lock_event) (cfg : Configuration) (c : Z) (key : string) : Prop :=
  ∃ (voters : list Z) (votes : Z → string),
    NoDup voters ∧ (∀ i, i ∈ voters → i ∈ all_replicas cfg ∧
                         Consensus (mkLockReq c key true) (votes i) ∈ evs i) ∧
    lp_status (parse (lock_Decide (tally votes voters))) = 0.

(** Two replicas granted the lock. *)
Lemma won_grants evs cfg c key :
  won evs cfg c key →
  ∃ X : gset Z, X ⊆ all_replicas cfg ∧ 2 ≤ Z.of_nat (size X) ∧
    ∀ i, i ∈ X → ∃ res, Consensus (mkLockReq c key true) res ∈ evs i ∧ lp_status (parse res) = 0.
Proof.
  intros (voters & votes & Hnd & Hv & Hd%Decide_success). rewrite tally_success in Hd.
  exists (list_to_set (filter (λ i, success (votes i) = true) voters)). split_and!.
  - intros i. rewrite elem_of_list_to_set, list_elem_of_filter. intros [_ Hi]. by apply Hv.
  - rewrite size_list_to_set by by apply NoDup_filter. done.
  - intros i. rewrite elem_of_list_to_set, list_elem_of_filter. intros [Hs Hi].
    exists (votes i). split; [by apply Hv|]. by apply Z.eqb_eq.
Qed.


End exclusion.

Definition lock_req_codec : Codec LockRequest := bits_codec LockRequest.
Definition lock_rep_codec : Codec LockReply := bits_codec LockReply.

(** A replica that granted the lock on "k" to the client [c]. *)
Definition granted_reply : string := @ser _ lock_rep_codec (mkLockReply "k" 0).
Definition grants_to (c : Z) : list lock_event := [Consensus (mkLockReq c "k" true) granted_reply].

Lemma grants_to_run c :
  @lock_run lock_req_codec lock_rep_codec (grants_to c) {[ "k" := c ]}.
Proof.
  apply (@run_consensus lock_req_codec lock_rep_codec [] ∅ (mkLockReq c "k" true)); [constructor|].
  unfold ls_ExecConsensusUpcall. by rewrite parse_ser.
Qed.


Definition five_replicas : Configuration := mkConfig 5 2 [] None.

(** With five replicas two clients can hold the same lock at once: [Decide]
    compares the successes with the constant 2, which is a majority of three
    replicas only, so two replies each are enough for both. *)
Theorem lock_service_two_winners :
  ∃ (evs : Z → list lock_event) (locks : Z → lock_table),
    config_ok five_replicas ∧
    (∀ i, @lock_run lock_req_codec lock_rep_codec (evs i) (locks i)) ∧
    @won lock_rep_codec evs five_replicas 7 "k" ∧
    @won lock_rep_codec evs five_replicas 8 "k" ∧
    ∀ i ev, ev ∈ evs i → ¬ releases_lock 7 "k" ev ∧ ¬ releases_lock 8 "k" ev.
Proof.
  set (who := λ i : Z, if (i <=? 1)%Z then 7 else 8).
  exists (λ i, grants_to (who i)), (λ i, {[ "k" := who i ]}). split_and!.
  - split; simpl; lia.
  - intros i. apply grants_to_run.
  - exists [0; 1], (λ _, granted_reply). split; [apply (bool_decide_unpack _); reflexivity|].
    split; [|reflexivity]. intros i. rewrite !elem_of_cons, elem_of_nil.
    intros [-> | [-> | []]]; (split; [by apply (bool_decide_unpack _)|by left]).
  - exists [2; 3], (λ _, granted_reply). split; [apply (bool_decide_unpack _); reflexivity|].
    split; [|reflexivity]. intros i. rewrite !elem_of_cons, elem_of_nil.
    intros [-> | [-> | []]]; (split; [by apply (bool_decide_unpack _)|by left]).
  - intros i ev Hin. apply list_elem_of_singleton in Hin as ->. by split.
Qed.

(** ** Rebuilding the locks: [Sync] *)

Lemma set_difference_sorted l1 l2 x :
  StronglySorted Z.lt l1 → StronglySorted Z.lt l2 →
  x ∈ set_difference l1 l2 ↔ x ∈ l1 ∧ x ∉ l2.
Proof.
  revert l2. induction l1 as [|a l1 IH1]; intros l2 H1 H2.
  { destruct l2; simpl; rewrite elem_of_nil; naive_solver. }
  apply StronglySorted_inv in H1 as [H1 Ha]. rewrite Forall_forall in Ha.
  induction l2 as [|b l2 IH2]; [simpl; rewrite (elem_of_nil x); naive_solver|].
  pose proof H2 as H2'. apply StronglySorted_inv in H2 as [H2 Hb]. rewrite Forall_forall in Hb.
  simpl. destruct (Z.ltb_spec a b); [|destruct (Z.ltb_spec b a)].
  - rewrite elem_of_cons, IH1 by done. rewrite !elem_of_cons. split; [|naive_solver].
    intros [-> | ?]; [|naive_solver]. split; [by left|]. intros [-> | Hx%Hb]; lia.
  - rewrite IH2 by done. rewrite !elem_of_cons. split; [|naive_solver].
    intros [Hx Hn]. split; [done|]. intros [-> |]; [|done]. destruct Hx as [-> | Hx%Ha]; lia.
  - assert (a = b) as <- by lia. rewrite IH1 by done. rewrite !elem_of_cons. split.
    + intros [Hx Hn]. split; [by right|]. intros [-> |]; [|done]. apply Ha in Hx. lia.
    + naive_solver.
Qed.

Lemma lookup_set_of l x : is_Some (set_of l !! x) ↔ x ∈ l.
Proof.
  unfold set_of. rewrite <- elem_of_dom, dom_list_to_map_L, elem_of_list_to_set, <- list_fmap_compose.
  by rewrite (list_fmap_id l : (fst ∘ (λ x : Z, (x, ()))) <$> l = l).
Qed.

Lemma elem_of_set_iter `{IterOrder} (s : idset) x : x ∈ set_iter s ↔ is_Some (s !! x).
Proof. apply elem_of_umap_keys. Qed.

Section sync.
Context `{IterOrder} `{Codec LockRequest} `{Codec LockReply}.
(** The hash tables of client ids are visited in increasing order. *)
Context (sorted : ∀ s : idset, StronglySorted Z.lt (set_iter s)).

(** An entry of a record grants, or releases, [key] for [c]. *)
Definition entry_grants (e : RecordEntry) (key : string) (c : Z) : Prop :=
  parse (req_op (ent_request e)) = mkLockReq c key true ∧ lp_status (parse (ent_result e)) = 0.
Definition entry_releases (e : RecordEntry) (key : string) (c : Z) : Prop :=
  parse (req_op (ent_request e)) = mkLockReq c key false ∧ lp_status (parse (ent_result e)) = 0.

(** [c] has a lock entry and no unlock entry. *)
Definition should_hold (R : IRRecord) (key : string) (c : Z) : Prop :=
  (∃ k e, R !! k = Some e ∧ entry_grants e key c) ∧
  ¬ (∃ k e, R !! k = Some e ∧ entry_releases e key c).

Definition info_holds (info : KeyLockInfo) (c : Z) : Prop :=
  is_Some (locked info !! c) ∧ locked info !! c ≠ unlocked info !! c.

Lemma info_holds_spec info c :
  info_holds info c ↔ c ∈ set_difference (set_iter (locked info)) (set_iter (unlocked info)).
Proof.
  rewrite set_difference_sorted by apply sorted. rewrite !elem_of_set_iter. unfold info_holds.
  destruct (locked info !! c) as [[]|], (unlocked info !! c) as [[]|]; split; try done;
    try (by intros [?%is_Some_None _]).
  - by intros [_ ?].
  - intros [_ Hn]. destruct Hn. by eexists.
Qed.

Lemma sync_key_spec locks key info :
  (∃ c, sync_key locks (key, info) = Ret (<[key := c]> locks) ∧ ∀ c', info_holds info c' ↔ c' = c) ∨
  (sync_key locks (key, info) = Ret locks ∧ ∀ c', ¬ info_holds info c') ∨
  (sync_key locks (key, info) = Panic ∧ ∃ c1 c2, c1 ≠ c2 ∧ info_holds info c1 ∧ info_holds info c2).
Proof.
  setoid_rewrite info_holds_spec. unfold sync_key. simpl.
  set (l := set_difference _ _). setoid_rewrite <- (lookup_set_of l). generalize (set_of l). clear l.
  intros d. rewrite <- length_map_to_list.
  assert (d = list_to_map (map_to_list d)) as Hd by (symmetry; apply list_to_map_to_list).
  pose proof (NoDup_fst_map_to_list d) as Hnd. pose proof (umap_iter_perm d) as Hp. unfold set_iter.
  destruct (map_to_list d) as [|[c1 []] [|[c2 []] l]] eqn:Hl; simpl.
  - right. left. apply Permutation_nil_r in Hp. rewrite Hp. split; [done|].
    intros c. rewrite Hd. simpl. rewrite lookup_empty. by intros ?%is_Some_None.
  - left. exists c1. apply Permutation_singleton_r in Hp. rewrite Hp. split; [done|].
    intros c'. rewrite Hd. simpl. rewrite lookup_insert_is_Some, lookup_empty. unfold is_Some. naive_solver.
  - right. right. split; [done|]. exists c1, c2.
    split; [intros ->; apply NoDup_cons in Hnd as [Hn _]; apply Hn; by left|].
    split; eexists; apply elem_of_map_to_list; rewrite Hl; [by left|by right; left].
Qed.

(** The first loop collects the clients of each key. *)
Definition infos_ok (l : list (opid_t * RecordEntry)) (infos : gmap string KeyLockInfo) : Prop :=
  (∀ key info c, infos !! key = Some info →
     (is_Some (locked info !! c) ↔ ∃ p, p ∈ l ∧ entry_grants p.2 key c) ∧
     (is_Some (unlocked info !! c) ↔ ∃ p, p ∈ l ∧ entry_releases p.2 key c)) ∧
  (∀ p, p ∈ l → is_Some (infos !! lr_key (parse (req_op (ent_request p.2))))).

Lemma exists_snoc {X} (P : X → Prop) l x :
  (∃ p, p ∈ l ++ [x] ∧ P p) ↔ (∃ p, p ∈ l ∧ P p) ∨ P x.
Proof.
  setoid_rewrite elem_of_app. setoid_rewrite list_elem_of_singleton. naive_solver.
Qed.

Lemma sync_entries l : infos_ok l (foldl sync_entry ∅ l).
Proof.
  induction l as [|p l [IH1 IH2]] using rev_ind.
  { split; simpl; [intros key info c; by rewrite lookup_empty|intros p []%elem_of_nil]. }
  rewrite foldl_snoc. set (infos := foldl sync_entry ∅ l) in *. unfold sync_entry.
  set (req := parse (req_op (ent_request p.2)) : LockRequest).
  set (rep := parse (ent_result p.2) : LockReply). split.
  - intros key info c. rewrite !exists_snoc. unfold entry_grants, entry_releases. fold req rep.
    rewrite lookup_insert_Some. intros [[<- <-]|[Hk Hi]].
    + assert (∀ c, (is_Some (locked (default (mkInfo ∅ ∅) (infos !! lr_key req)) !! c) ↔
                  ∃ p, p ∈ l ∧ entry_grants p.2 (lr_key req) c) ∧
        (is_Some (unlocked (default (mkInfo ∅ ∅) (infos !! lr_key req)) !! c) ↔
                  ∃ p, p ∈ l ∧ entry_releases p.2 (lr_key req) c)) as Hdef.
      { intros c'. destruct (infos !! lr_key req) as [info|] eqn:Hinfo; simpl; [by apply IH1|].
        rewrite !lookup_empty. split; (split; [by intros ?%is_Some_None|]); intros (q & Hq & [Heq _]);
          apply IH2 in Hq; rewrite Heq in Hq; simpl in Hq; rewrite Hinfo in Hq; by apply is_Some_None in Hq. }
      destruct (Hdef c) as [<- <-]. destruct req as [c' key' [|]]; simpl;
        (destruct (Z.eqb_spec (lp_status rep) 0) as [Hst|Hst]; simpl);
        rewrite ?lookup_insert_is_Some'; naive_solver.
    + destruct (IH1 key info c Hi) as [-> ->]. split; (split; [by left|]);
        intros [?|[Heq _]]; try done; rewrite Heq in Hk; done.
  - intros q. rewrite elem_of_app, list_elem_of_singleton, lookup_insert_is_Some'.
    intros [Hq%IH2| ->]; [by right|by left].
Qed.

(** The second loop gives each key to its only client. *)
Lemma exists_pair_cons (P : KeyLockInfo → Prop) key key0 info0 (l : list (string * KeyLockInfo)) :
  (∃ info, (key, info) ∈ (key0, info0) :: l ∧ P info) ↔
  (key0 = key ∧ P info0) ∨ ∃ info, (key, info) ∈ l ∧ P info.
Proof. setoid_rewrite elem_of_cons. naive_solver. Qed.

Lemma sync_keys l locks :
  NoDup l.*1 → (∀ key, key ∈ l.*1 → locks !! key = None) →
  match for_each sync_key locks l with
  | Ret locks' => ∀ key c, locks' !! key = Some c ↔
      (∃ info, (key, info) ∈ l ∧ info_holds info c) ∨ locks !! key = Some c
  | Panic => ∃ key c1 c2, c1 ≠ c2 ∧ (∃ info, (key, info) ∈ l ∧ info_holds info c1 ∧ info_holds info c2)
  end.
Proof.
  revert locks. induction l as [|[key0 info0] l IH]; intros locks Hnd Hl.
  { simpl. intros key c. setoid_rewrite elem_of_nil. naive_solver. }
  apply NoDup_cons in Hnd as [Hn Hnd]. cbn [for_each].
  assert (locks !! key0 = None) as Hkey0 by (apply Hl; by left).
  destruct (sync_key_spec locks key0 info0) as [(c0 & -> & Hh)|[[-> Hh]|(-> & c1 & c2 & Hc)]];
    cbn [mbind outcome_bind].
  - specialize (IH (<[key0 := c0]> locks) Hnd). destruct (for_each _ _ _) as [locks'|].
    + intros key c. rewrite exists_pair_cons, IH, lookup_insert_Some, Hh.
      * assert (key0 = key → locks !! key = None) by congruence.
        destruct (decide (key0 = key)); naive_solver.
      * intros key' Hk. rewrite lookup_insert_ne; [apply Hl; by right|by intros ->].
    + destruct IH as (key & c1 & c2 & Hc & Hi); [|exists key, c1, c2; rewrite exists_pair_cons; auto].
      intros key' Hk. rewrite lookup_insert_ne; [apply Hl; by right|by intros ->].
  - specialize (IH locks Hnd). destruct (for_each _ _ _) as [locks'|].
    + intros key c. rewrite exists_pair_cons, IH; [|intros; apply Hl; by right]. pose proof (Hh c). tauto.
    + destruct IH as (key & c1 & c2 & Hc & Hi); [intros; apply Hl; by right|]. exists key, c1, c2; rewrite exists_pair_cons; auto.
  - exists key0, c1, c2. rewrite exists_pair_cons. tauto.
Qed.

Lemma record_exists (R : IRRecord) (P : RecordEntry → Prop) :
  (∃ p, p ∈ omap_iter opid_le R ∧ P p.2) ↔ ∃ k e, R !! k = Some e ∧ P e.
Proof.
  split.
  - intros ([k e] & Hin%elem_of_omap_iter & HP). by exists k, e.
  - intros (k & e & Hk & HP). exists (k, e). by rewrite elem_of_omap_iter.
Qed.

Lemma infos_hold (R : IRRecord) key c :
  (∃ info, foldl sync_entry ∅ (omap_iter opid_le R) !! key = Some info ∧ info_holds info c) ↔
  should_hold R key c.
Proof.
  destruct (sync_entries (omap_iter opid_le R)) as [H1' H2']. unfold should_hold.
  rewrite <- !record_exists. set (infos := foldl _ _ _) in *. split.
  - intros (info & Hi & Hl & Hne). destruct (H1' key info c Hi) as [Hg Hr]. rewrite <- Hg, <- Hr.
    split; [done|]. intros [[] Hu]. destruct Hl as [[] Hl]. by rewrite Hl, Hu in Hne.
  - intros [Hg Hr]. assert (is_Some (infos !! key)) as [info Hi].
    { destruct Hg as (p & Hp & [Heq _]). specialize (H2' p Hp). by rewrite Heq in H2'. }
    exists info. split; [done|]. destruct (H1' key info c Hi) as [Hg' Hr']. rewrite <- Hg' in Hg. rewrite <- Hr' in Hr.
    split; [done|]. intros Heq. rewrite Heq in Hg. done.
Qed.

End sync.

(** When the hash tables of client ids are visited in increasing order,
    [Sync] rebuilds the table of locks from a record: a key is held by the client
    that has a successful lock entry and no unlock entry for it.  It stops with
    a failed assertion exactly when two clients do. *)
Theorem Sync_rebuilds `{IterOrder} `{Codec LockRequest} `{Codec LockReply}
    (locks : lock_table) (R : IRRecord) :
  (∀ s : idset, StronglySorted Z.lt (set_iter s)) →
  match ls_Sync locks R with
  | Ret locks' => ∀ key c, locks' !! key = Some c ↔ should_hold R key c
  | Panic => ∃ key c1 c2, c1 ≠ c2 ∧ should_hold R key c1 ∧ should_hold R key c2
  end.
Proof.
  intros sorted. unfold ls_Sync. set (infos := foldl _ _ _).
  pose proof (sync_keys sorted (umap_iter infos) ∅ (umap_iter_NoDup infos)) as Hs.
  destruct (for_each _ _ _) as [locks'|].
  - intros key c. rewrite Hs by (intros; apply lookup_empty). rewrite lookup_empty, <- infos_hold.
    setoid_rewrite elem_of_umap_iter. naive_solver.
  - destruct Hs as (key & c1 & c2 & Hne & info & Hi%elem_of_umap_iter & H1' & H2'); [intros; apply lookup_empty|].
    exists key, c1, c2. rewrite <- !infos_hold. split; [done|]. split; by exists info.
Qed.

(** *** Orders of visit *)

(** A number for every key: an integer is its own. *)
Definition key_number {K V} `{Countable K} (p : K * V) : Z := default 0 (decode (encode p.1)).
Definition number_le {K V} `{Countable K} (p q : K * V) : Prop := key_number p ≤ key_number q.
#[global] Instance number_le_dec {K V} `{Countable K} (p q : K * V) : Decision (number_le p q).
Proof. unfold number_le. apply _. Defined.
#[global] Instance number_le_total {K V} `{Countable K} : Total (@number_le K V _ _).
Proof. intros p q. unfold number_le. lia. Qed.
#[global] Instance number_le_trans {K V} `{Countable K} : Transitive (@number_le K V _ _).
Proof. intros p q r. unfold number_le. lia. Qed.

Definition increasing_order : IterOrder :=
  {| umap_iter := λ K V _ _ m, merge_sort number_le (map_to_list m);
     umap_iter_perm := λ K V _ _ m, merge_sort_Permutation number_le (map_to_list m) |}.
Definition decreasing_order : IterOrder :=
  {| umap_iter := λ K V _ _ m, reverse (merge_sort number_le (map_to_list m));
     umap_iter_perm := λ K V _ _ m, Permutation_trans (reverse_Permutation _)
       (merge_sort_Permutation number_le (map_to_list m)) |}.

Lemma strictly_sorted (l : list (Z * unit)) :
  StronglySorted number_le l → NoDup l.*1 → StronglySorted Z.lt l.*1.
Proof.
  induction l as [|[x []] l IH]; simpl; [constructor|].
  intros [Hs Hall]%StronglySorted_inv [Hx Hnd]%NoDup_cons. constructor; [by apply IH|].
  apply Forall_forall. intros y (q & -> & Hin)%list_elem_of_fmap. rewrite Forall_forall in Hall.
  pose proof (Hall q Hin) as Hle. unfold number_le, key_number in Hle. rewrite !decode_encode in Hle.
  simpl in Hle. assert (x ≠ q.1); [|lia]. intros ->. apply Hx, list_elem_of_fmap. by exists q.
Qed.

Lemma increasing_sorted (s : idset) : StronglySorted Z.lt (@set_iter increasing_order s).
Proof.
  apply strictly_sorted; [apply (StronglySorted_merge_sort number_le)|].
  apply (@umap_iter_NoDup increasing_order).
Qed.

(** An entry of the record for a request of the client [c]. *)
Definition demo_lock_entry (c reqid : Z) (type : bool) : RecordEntry :=
  mkEnt 0 (c, reqid) RECORD_STATE_FINALIZED
    (if type then RECORD_TYPE_CONSENSUS else RECORD_TYPE_INCONSISTENT)
    (mkReq (@ser _ lock_req_codec (mkLockReq c "k" type)) c reqid)
    (if type then granted_reply else "").

(** Clients 1, 2 and 3 had the lock one after the other; 3 has it now. *)
Definition handed_over : IRRecord :=
  list_to_map [((1, 1), demo_lock_entry 1 1 true); ((1, 2), demo_lock_entry 1 2 false);
               ((2, 1), demo_lock_entry 2 1 true); ((2, 2), demo_lock_entry 2 2 false);
               ((3, 1), demo_lock_entry 3 1 true)].

Lemma Sync_rebuilds_witness :
  @should_hold lock_req_codec lock_rep_codec handed_over "k" 3.
Proof.
  pose proof (@Sync_rebuilds increasing_order lock_req_codec lock_rep_codec ∅ handed_over
    increasing_sorted) as Hs.
  assert (@ls_Sync increasing_order lock_req_codec lock_rep_codec ∅ handed_over = Ret {[ "k" := 3 ]})
    as Hr by (vm_compute; reflexivity).
  rewrite Hr in Hs. apply Hs. reflexivity.
Defined.

(** [Sync] passes the hash tables to [std::set_difference], which needs
    sorted sequences.  Clients 1, 2 and 3 had a lock one after the other and only
    3 holds it; a replica whose tables are visited in decreasing order finds
    three holders and stops at the assertion. *)
Theorem Sync_needs_sorted :
  (∀ c, @should_hold lock_req_codec lock_rep_codec handed_over "k" c → c = 3) ∧
  ∀ locks, @ls_Sync decreasing_order lock_req_codec lock_rep_codec locks handed_over = Panic.
Proof.
  split; [|intros locks; vm_compute; reflexivity].
  intros c [(k & e & He & Hg) Hno]. apply elem_of_list_to_map_2 in He.
  assert (∀ c', c = c' → is_Some (handed_over !! (c', 2)) → c = 3) as Hrel.
  { intros c' -> [e' He']. destruct Hno. exists (c', 2), e'. split; [done|].
    apply elem_of_list_to_map_2 in He'. rewrite !elem_of_cons, elem_of_nil in He'.
    destruct He' as [[=]|[[= -> ->]|[[=]|[[= -> ->]|[[=]|[]]]]]]; split; reflexivity. }
  rewrite !elem_of_cons, elem_of_nil in He.
  destruct He as [[= -> ->]|[[= -> ->]|[[= -> ->]|[[= -> ->]|[[= -> ->]|[]]]]]];
    destruct Hg as [Hg _]; vm_compute in Hg; try discriminate Hg; injection Hg as <-;
    [eapply Hrel; [reflexivity|by eexists]..|reflexivity].
Qed.

(** [Sync] keeps no order between a client's requests: a client that locked,
    unlocked and locked a key again holds it at the replica, and has lost it
    after a view change installs that replica's own record. *)
Theorem Sync_forgets_reacquired :
  ∃ r,
    @handle_all _ (@lock_app increasing_order lock_req_codec lock_rep_codec) demo_codec
      (@new_replica _ demo_codec demo_config 0 ∅ None).2
      [ProposeConsensus (ent_request (demo_lock_entry 1 1 true));
       ProposeInconsistent (ent_request (demo_lock_entry 1 2 false)); FinalizeInconsistent (1, 2);
       ProposeConsensus (ent_request (demo_lock_entry 1 3 true))] = Ret r ∧
    app r = {[ "k" := 1 ]} ∧
    @ls_Sync increasing_order lock_req_codec lock_rep_codec (app r) (record r) = Ret ∅.
Proof. eexists. split; [vm_compute; reflexivity|]. split; vm_compute; reflexivity. Qed.

(** ** Settling the open requests: [Merge] *)

Section merge.
Context `{Codec LockRequest} `{Codec LockReply}.
Context (locks0 : lock_table) (d : entries_by) (maj : gmap opid_t string).

(** The client of an operation of [d]. *)
Definition client_of (k : opid_t) : option Z :=
  es ← d !! k; e ← head es; Some (lr_clientid (parse (req_op (ent_request e)))).

(** The operation was granted the lock on [key]. *)
Definition grants (results : gmap opid_t string) (k : opid_t) (key : string) : Prop :=
  ∃ s, results !! k = Some s ∧ lp_status (parse s) = 0 ∧ lp_key (parse s) = key.

Record merge_inv (Q : list (opid_t * list RecordEntry)) (st : gmap opid_t string * lock_table) : Prop := {
  mi_dom k : is_Some (st.1 !! k) ↔ k ∈ Q.*1;
  mi_locks : locks0 ⊆ st.2;
  mi_grant k key : grants st.1 k key →
    ∃ c, locks0 !! key = None ∧ st.2 !! key = Some c ∧ client_of k = Some c;
  mi_uniq k1 k2 key : grants st.1 k1 key → grants st.1 k2 key → k1 = k2;
  mi_taken key : is_Some (st.2 !! key) → is_Some (locks0 !! key) ∨ ∃ k, grants st.1 k key
}.

Lemma grants_insert results k s k' key :
  grants (<[k := s]> results) k' key ↔
  (k' = k ∧ lp_status (parse s) = 0 ∧ lp_key (parse s) = key) ∨ (k' ≠ k ∧ grants results k' key).
Proof. unfold grants. setoid_rewrite lookup_insert_Some. naive_solver. Qed.

Lemma merge_inv_dom (Q : list (opid_t * list RecordEntry)) (results : gmap opid_t string) p s k :
  (∀ k, is_Some (results !! k) ↔ k ∈ Q.*1) →
  is_Some (<[p.1 := s]> results !! k) ↔ k ∈ (Q ++ [p]).*1.
Proof.
  intros Hd. rewrite lookup_insert_is_Some', Hd, fmap_app, elem_of_app. simpl.
  rewrite list_elem_of_singleton. naive_solver.
Qed.

(** An answer that grants nothing. *)
Lemma merge_inv_reject Q p results locks s :
  p.1 ∉ Q.*1 → merge_inv Q (results, locks) → lp_status (parse s) ≠ 0 →
  merge_inv (Q ++ [p]) (<[p.1 := s]> results, locks).
Proof.
  intros Hp Hi Hs.
  assert (∀ k key, grants (<[p.1 := s]> results) k key ↔ grants results k key) as Hg.
  { intros k key. rewrite grants_insert. split; [naive_solver|]. intros Hgr. right. split; [|done].
    intros ->. apply Hp, (mi_dom _ _ Hi). destruct Hgr as (s' & Hs' & _). by exists s'. }
  destruct Hi as [Hd Hl Hgr Hu Ht]. split; simpl in *.
  - intros k. by apply merge_inv_dom.
  - done.
  - intros k key. rewrite Hg. apply Hgr.
  - intros k1 k2 key. rewrite !Hg. apply Hu.
  - intros key Hk. setoid_rewrite Hg. by apply Ht.
Qed.

(** The grant of a free lock. *)
Lemma merge_inv_grant Q p results locks s c :
  p.1 ∉ Q.*1 → merge_inv Q (results, locks) → lp_status (parse s) = 0 →
  locks !! lp_key (parse s) = None → client_of p.1 = Some c →
  merge_inv (Q ++ [p]) (<[p.1 := s]> results, <[lp_key (parse s) := c]> locks).
Proof.
  intros Hp Hi Hs Hfree Hc. destruct Hi as [Hd Hl Hgr Hu Ht]. simpl in *.
  assert (∀ k key, grants results k key → key ≠ lp_key (parse s)) as Hne.
  { intros k key Hk ->. destruct (Hgr _ _ Hk) as (? & _ & ? & _). congruence. }
  split; simpl.
  - intros k. by apply merge_inv_dom.
  - etransitivity; [exact Hl|]. by apply insert_subseteq.
  - intros k key. rewrite grants_insert. intros [(-> & _ & <-)|[_ Hk]].
    + exists c. rewrite lookup_insert_eq. split_and!; [|done|done]. eapply lookup_weaken_None; eauto.
    + destruct (Hgr _ _ Hk) as (c' & ? & ? & ?). exists c'. split_and!; [done| |done].
      rewrite lookup_insert_ne; [done|]. intros Heq. by eapply Hne.
  - intros k1 k2 key. rewrite !grants_insert. intros [(-> & _ & <-)|[_ Hk1]] [(-> & _ & ?)|[_ Hk2]]; eauto.
    + by destruct (Hne _ _ Hk2).
    + subst. by destruct (Hne _ _ Hk1).
  - intros key. rewrite lookup_insert_is_Some'. setoid_rewrite grants_insert. intros [<-|Hk]; [naive_solver|].
    destruct (Ht key Hk) as [?|[k Hkg]]; [by left|]. right. exists k. right. split; [|done].
    intros ->. apply Hp, Hd. destruct Hkg as (s' & Hs' & _). by exists s'.
Qed.
Lemma prefix_fresh {V} (Q l : list (opid_t * V)) p :
  NoDup l.*1 → Q ++ [p] `prefix_of` l → p.1 ∉ Q.*1 ∧ p ∈ l.
Proof.
  intros Hnd [l' ->]. split.
  - rewrite !fmap_app in Hnd. apply NoDup_app in Hnd as (Hnd & _ & _).
    apply NoDup_app in Hnd as (_ & Hn & _). intros Hin. apply (Hn _ Hin). by left.
  - apply elem_of_app. left. apply elem_of_app. right. by left.
Qed.

Lemma merge_d_step Q p st :
  merge_inv Q st → p.1 ∉ Q.*1 → d !! p.1 = Some p.2 → p.2 ≠ [] → is_Some (maj !! p.1) →
  ∃ st', merge_d maj st p = Ret st' ∧ merge_inv (Q ++ [p]) st'.
Proof.
  destruct st as [results locks], p as [k es]. simpl. intros Hi Hfresh Hk Hes [s Hs].
  destruct es as [|e es]; [done|]. unfold merge_d. cbn [fst snd]. rewrite Hs.
  destruct (Z.eqb_spec (lp_status (parse s)) 0) as [Hst|Hst].
  - destruct (locks !! lp_key (parse s)) as [h|] eqn:Hl; eexists; (split; [done|]).
    + apply (merge_inv_reject Q (k, e :: es)); [done|done|]. by rewrite parse_ser.
    + apply (merge_inv_grant Q (k, e :: es)); [done..|]. unfold client_of. simpl. by rewrite Hk.
  - eexists. split; [done|]. by apply (merge_inv_reject Q (k, e :: es)).
Qed.

Lemma merge_u_step Q p results locks :
  merge_inv Q (results, locks) → p.1 ∉ Q.*1 → p.2 ≠ [] →
  ∃ results', merge_u results p = Ret results' ∧ merge_inv (Q ++ [p]) (results', locks).
Proof.
  destruct p as [k [|e es]]; simpl; [done|]. intros Hi Hfresh _. eexists. split; [done|].
  apply (merge_inv_reject Q (k, e :: es)); [done|done|]. by rewrite parse_ser.
Qed.

Lemma merge_inv_start : merge_inv [] (∅, locks0).
Proof.
  assert (∀ k key, ¬ grants ∅ k key) as Hg by (intros k key (s & Hs & _); by rewrite lookup_empty in Hs).
  split; simpl; try done.
  - intros k. rewrite lookup_empty, elem_of_nil. split; [by intros ?%is_Some_None|done].
  - intros k key []%Hg.
  - intros k1 k2 key []%Hg.
  - auto.
Qed.

Lemma ls_Merge_inv (u : entries_by) :
  dom maj = dom d → dom d ## dom u → (∀ k es, d !! k = Some es ∨ u !! k = Some es → es ≠ []) →
  ∃ results locks', ls_Merge locks0 d u maj = Ret (results, locks') ∧
    merge_inv (omap_iter opid_le d ++ omap_iter opid_le u) (results, locks').
Proof.
  intros Hdom Hdisj Hne.
  assert (NoDup (omap_iter opid_le d ++ omap_iter opid_le u).*1) as Hnd.
  { rewrite !omap_iter_perm, fmap_app. apply NoDup_app. split_and!; try apply NoDup_fst_map_to_list.
    intros k. rewrite !list_elem_of_fmap. intros ([k1 e1] & -> & H1%elem_of_map_to_list) ([k2 e2] & Heq & H2%elem_of_map_to_list).
    simpl in Heq. subst k2. apply (Hdisj k1); by eapply elem_of_dom_2. }
  destruct (for_each_total (merge_d maj) merge_inv [] (omap_iter opid_le d) (∅, locks0))
    as ([res1 locks1] & Hd & Hi1).
  { intros Q p st Hpre Hi. simpl in Hpre. rewrite fmap_app in Hnd. apply NoDup_app in Hnd as (Hnd1 & _ & _).
    destruct (prefix_fresh _ _ _ Hnd1 Hpre) as [Hf Hin]. destruct p as [k es]. apply elem_of_omap_iter in Hin.
    apply merge_d_step; auto; [by eapply Hne; left|]. apply elem_of_dom. rewrite Hdom. by eapply elem_of_dom_2. }
  { apply merge_inv_start. }
  destruct (for_each_total merge_u (λ Q res, merge_inv Q (res, locks1)) (omap_iter opid_le d)
    (omap_iter opid_le u) res1) as (res2 & Hu & Hi2).
  { intros Q p res Hpre Hi. destruct (prefix_fresh _ _ _ Hnd Hpre) as [Hf Hin]. destruct p as [k es].
    apply merge_u_step; [done..|]. apply elem_of_app in Hin. rewrite !elem_of_omap_iter in Hin. by eapply Hne. }
  { done. }
  exists res2, locks1. split; [|done]. unfold ls_Merge. rewrite Hd. cbn [mbind outcome_bind fst snd].
  by rewrite Hu.
Qed.

End merge.

(** [Merge] settles the open lock requests of a view change without handing
    a lock out twice: it answers each request of [d] and [u] and leaves every
    held lock with its holder; a request it grants was for a free lock, which its
    client holds from then on, and no two granted requests are for the same key;
    no lock is taken otherwise. *)
Theorem Merge_exclusive `{Codec LockRequest} `{Codec LockReply}
    (locks : lock_table) (d u : entries_by) (maj : gmap opid_t string) :
  dom maj = dom d → dom d ## dom u → (∀ k es, d !! k = Some es ∨ u !! k = Some es → es ≠ []) →
  ∃ results locks', ls_Merge locks d u maj = Ret (results, locks') ∧
    dom results = dom d ∪ dom u ∧ locks ⊆ locks' ∧
    (∀ k key, grants results k key →
       ∃ c, locks !! key = None ∧ locks' !! key = Some c ∧ client_of d k = Some c) ∧
    (∀ k1 k2 key, grants results k1 key → grants results k2 key → k1 = k2) ∧
    (∀ key, is_Some (locks' !! key) → is_Some (locks !! key) ∨ ∃ k, grants results k key).
Proof.
  intros Hdom Hdisj Hne. destruct (ls_Merge_inv locks d maj u Hdom Hdisj Hne) as (results & locks' & Hm & [Hd Hl Hg Hu Ht]).
  exists results, locks'. split_and!; try done. apply set_eq. intros k.
  rewrite elem_of_union, !elem_of_dom. rewrite (Hd k), fmap_app, elem_of_app, !list_elem_of_fmap.
  unfold is_Some. split; intros [Hk|Hk]; [left|right|left|right]; revert Hk.
  1,2: intros ([? es] & -> & Hin%elem_of_omap_iter); by exists es.
  all: intros [es Hk]; exists (k, es); by rewrite elem_of_omap_iter.
Qed.

Definition demo_d : entries_by := {[ (5, 1) := [demo_lock_entry 5 1 true]; (6, 1) := [demo_lock_entry 6 1 true] ]}.
Definition demo_maj : gmap opid_t string := {[ (5, 1) := granted_reply; (6, 1) := granted_reply ]}.

Lemma Merge_exclusive_witness :
  ∃ results locks', @ls_Merge lock_req_codec lock_rep_codec ∅ demo_d ∅ demo_maj = Ret (results, locks') ∧
    locks' !! "k" = Some 5 ∧
    ¬ @grants lock_rep_codec results (6, 1) "k".
Proof.
  destruct (@Merge_exclusive lock_req_codec lock_rep_codec ∅ demo_d ∅ demo_maj) as (results & locks' & Hm & _ & _ & _ & Hu & _).
  - vm_compute. reflexivity.
  - set_solver.
  - intros k es. rewrite lookup_empty. unfold demo_d. rewrite lookup_insert_Some, lookup_singleton_Some. naive_solver.
  - exists results, locks'. split; [exact Hm|].
    assert (∃ r l, Ret (results, locks') = Ret (r, l) ∧ l !! "k" = Some 5 ∧ @grants lock_rep_codec r (5, 1) "k")
      as (r & l & [= <- <-] & Hl & Hg).
    { rewrite <- Hm. vm_compute. do 2 eexists. split; [reflexivity|]. split; [reflexivity|].
      eexists. split; [reflexivity|]. split; reflexivity. }
    split; [exact Hl|]. intros Hg'. discriminate (Hu _ _ _ Hg Hg').
Defined.

(** ** The client's promise *)

(** [lock_async] followed by [lock_wait] works when the reply comes while the
    client is blocked: it learns the status of the reply, but the promise stays
    allocated, because the callback has cleared the pointer that is deleted.  When
    the reply comes before [lock_wait] is called, the same cleared pointer makes
    [lock_wait] stop at its assertion. *)
Theorem lock_client_schedules `{Codec LockRequest} `{Codec LockReply} (c : LockClient) key request reply :
  waiting c = None →
  ∃ str c1 c2, lock_async c key = Ret (str, c1) ∧
    parse str = mkLockReq (client_id c) key true ∧
    LockCallback c1 request reply = Ret c2 ∧
    lock_wait_begin c2 = Panic ∧
    ∃ w c3, lock_wait_begin c1 = Ret w ∧ lock_wait_end c1 w = None ∧
      lock_wait_end c2 w = Some ((lp_status (parse reply) =? 0)%Z, c3) ∧
      is_Some (heap c3 !! w) ∧ waiting c3 = None.
Proof.
  intros Hw. unfold lock_async, request_async. rewrite bool_decide_true by done. simpl.
  do 3 eexists. split; [done|]. split; [apply parse_ser|]. split; [done|]. split; [done|].
  exists (next_promise c). eexists. split; [done|]. unfold lock_wait_end. simpl.
  rewrite lookup_insert_eq, lookup_alter_eq, lookup_insert_eq. simpl.
  split; [done|]. split; [done|]. simpl. by rewrite lookup_alter_eq, lookup_insert_eq.
Qed.

Lemma lock_client_schedules_witness :
  ∃ str c1, @lock_async lock_req_codec (new_lock_client 7) "k" = Ret (str, c1) ∧
    @parse _ lock_req_codec str = mkLockReq 7 "k" true.
Proof.
  destruct (@lock_client_schedules lock_req_codec lock_rep_codec (new_lock_client 7) "k" "" granted_reply)
    as (str & c1 & c2 & H1 & H2 & _); [reflexivity|]. exists str, c1. exact (conj H1 H2).
Defined.
