(* ===== verification/VRLog.v ===== *)
(** * The log of viewstamped replication (replication/common/log.{h,cc}, log-impl.h)

    A vector of entries; the entry of operation number [op] is at index
    [op - start].  A dereferenced null pointer is a [Panic], as a failed
    assertion is; the assertions under PARANOID are on, as in the Makefile. *)

From Stdlib Require Import Ascii.
From S2P Require Import Prelude Quorum IRRecord.

(** SHA-1 of OpenSSL. *)
Class SHA1 := sha1 : string → string.

Inductive LogEntryState :=
| LOG_STATE_COMMITTED
| LOG_STATE_PREPARED
| LOG_STATE_SPECULATIVE
| LOG_STATE_FASTPREPARED.

#[global] Instance LogEntryState_eq_dec : EqDecision LogEntryState.
Proof. solve_decision. Defined.

Record LogEntry := mkLE {
  le_viewstamp : viewstamp;
  le_state : LogEntryState;
  le_request : Request;
  le_hash : string
}.

Record Log := mkLog {
  entries : list LogEntry;
  initialHash : string;
  start : Z;
  useHash : bool
}.

Definition with_entries (l : Log) (es : list LogEntry) : Log :=
  mkLog es (initialHash l) (start l) (useHash l).
Definition with_state (e : LogEntry) (s : LogEntryState) : LogEntry :=
  mkLE (le_viewstamp e) s (le_request e) (le_hash e).
Definition with_request (e : LogEntry) (r : Request) : LogEntry :=
  mkLE (le_viewstamp e) (le_state e) r (le_hash e).

(** The element of the messages' [entries] fields. *)
Record LogEntryProto := mkLEP {
  lep_view : Z;
  lep_opnum : Z;
  lep_request : Request;
  lep_state : LogEntryState;
  lep_hash : string
}.

Fixpoint zero_bytes (n : nat) : string :=
  match n with O => "" | S n => String zero (zero_bytes n) end.

Notation EMPTY_HASH := (zero_bytes 20) (only parsing).

Definition new_log (useHash : bool) (start : Z) (initialHash : string) : outcome Log :=
  ASSERT! negb (start =? 1)%Z || bool_decide (initialHash = EMPTY_HASH);
  Ret (mkLog [] initialHash start useHash).

(** The bytes of a [uint64_t], little endian. *)
Fixpoint le_bytes (n : nat) (x : Z) : string :=
  match n with
  | O => ""
  | S n => String (ascii_of_N (Z.to_N (x mod 256))) (le_bytes n (x / 256))
  end.

Section log.
Context `{SHA1}.
Implicit Types l : Log.

Definition LastViewstamp l : viewstamp :=
  match last (entries l) with
  | None => mkVS 0 (u64 (start l - 1))
  | Some e => le_viewstamp e
  end.

Definition LastOpnum l : Z :=
  match last (entries l) with
  | None => u64 (start l - 1)
  | Some e => vs_opnum (le_viewstamp e)
  end.

Definition log_Empty l : bool := match entries l with [] => true | _ => false end.

Definition log_Last l : option LogEntry := last (entries l).

Definition LastHash l : string :=
  match last (entries l) with None => initialHash l | Some e => le_hash e end.

Definition ComputeHash (lastHash : string) (e : LogEntry) : string :=
  sha1 (lastHash ++ le_bytes 8 (vs_view (le_viewstamp e)) ++ le_bytes 8 (vs_opnum (le_viewstamp e))
        ++ le_bytes 8 (req_clientid (le_request e)) ++ le_bytes 8 (req_clientreqid (le_request e))
        ++ req_op (le_request e)).

Definition log_Find l (opnum : Z) : outcome (option LogEntry) :=
  if log_Empty l then Ret None
  else if (opnum <? start l)%Z then Ret None
  else if (Z.of_nat (length (entries l)) - 1 <? opnum - start l)%Z then Ret None
  else match entries l !! Z.to_nat (opnum - start l) with
       | Some e => ASSERT! (vs_opnum (le_viewstamp e) =? opnum)%Z; Ret (Some e)
       | None => Panic
       end.

(** The caller dereferences what [Find] returns. *)
Definition log_Get l (opnum : Z) : outcome LogEntry :=
  e ← log_Find l opnum;
  match e with Some e => Ret e | None => Panic end.

Definition log_Append l (vs : viewstamp) (req : Request) (state : LogEntryState) : outcome Log :=
  ASSERT! (if log_Empty l then (vs_opnum vs =? start l)%Z
           else (vs_opnum vs =? u64 (LastOpnum l + 1))%Z);
  let e := mkLE vs state req "" in
  let hash := if useHash l then ComputeHash (LastHash l) e else "" in
  let l' := with_entries l (entries l ++ [mkLE vs state req hash]) in
  e' ← log_Get l' (vs_opnum vs);
  Ret l'.

Definition log_SetStatus l (op : Z) (state : LogEntryState) : outcome (bool * Log) :=
  e ← log_Find l op;
  match e with
  | None => Ret (false, l)
  | Some _ => Ret (true, with_entries l (alter (λ e, with_state e state) (Z.to_nat (op - start l)) (entries l)))
  end.

Definition log_SetRequest l (op : Z) (req : Request) : outcome (bool * Log) :=
  ASSERT! negb (useHash l);
  e ← log_Find l op;
  match e with
  | None => Ret (false, l)
  | Some _ => Ret (true, with_entries l (alter (λ e, with_request e req) (Z.to_nat (op - start l)) (entries l)))
  end.

(** The operation numbers [from], ..., [to]. *)
Definition opnums (from to : Z) : list Z := seqZ from (to - from + 1).

Definition RemoveAfter l (op : Z) : outcome Log :=
  _ ← for_each (λ _ i, e ← log_Get l i;
                 ASSERT! bool_decide (le_state e ≠ LOG_STATE_COMMITTED); Ret ()) () (opnums op (LastOpnum l));
  if (LastOpnum l <? op)%Z then Ret l
  else
    ASSERT! (u64 (op - start l) <? Z.of_nat (length (entries l)))%Z;
    let l' := with_entries l (take (Z.to_nat (op - start l)) (entries l)) in
    ASSERT! (LastOpnum l' =? u64 (op - 1))%Z;
    Ret l'.

Definition dump_entry (e : LogEntry) : LogEntryProto :=
  mkLEP (vs_view (le_viewstamp e)) (vs_opnum (le_viewstamp e)) (le_request e) (le_state e) (le_hash e).

Definition Dump l (from : Z) : outcome (list LogEntryProto) :=
  for_each (λ out i, e ← log_Get l i; Ret (out ++ [dump_entry e])) []
    (opnums (Z.max from (start l)) (LastOpnum l)).

(** The first loop of [Install]: the log cut at the first divergence, and the
    entries from there on. *)
Fixpoint install_find l (es : list LogEntryProto) : outcome (Log * list LogEntryProto) :=
  match es with
  | [] => Ret (l, [])
  | x :: es' =>
      oldEntry ← log_Find l (lep_opnum x);
      match oldEntry with
      | None => Ret (l, es)
      | Some o =>
          if negb (lep_view x =? vs_view (le_viewstamp o))%Z then
            l' ← RemoveAfter l (lep_opnum x); Ret (l', es)
          else install_find l es'
      end
  end.

Definition Install l (es : list LogEntryProto) : outcome Log :=
  p ← install_find l es;
  for_each (λ l x, log_Append l (mkVS (lep_view x) (lep_opnum x)) (lep_request x) LOG_STATE_PREPARED)
    p.1 p.2.

End log.

(** ** The invariant of a log *)

Record log_wf (l : Log) : Prop := {
  wf_start : 1 ≤ start l < 2 ^ 64;
  wf_opnum i e : entries l !! i = Some e → vs_opnum (le_viewstamp e) = start l + Z.of_nat i;
  wf_bound : start l + Z.of_nat (length (entries l)) ≤ 2 ^ 64
}.

(** The entry of an operation number. *)
Definition entry_of (l : Log) (op : Z) : option LogEntry :=
  if (op <? start l)%Z then None else entries l !! Z.to_nat (op - start l).

Section log_lemmas.
Context `{SHA1}.
Implicit Types l : Log.

Lemma LastOpnum_wf l : log_wf l → LastOpnum l = start l + Z.of_nat (length (entries l)) - 1.
Proof.
  intros [Hs Ho Hb]. unfold LastOpnum. rewrite last_lookup.
  destruct (entries l !! pred (length (entries l))) as [e|] eqn:He.
  - apply lookup_lt_Some in He as Hlt. rewrite (Ho _ _ He). lia.
  - apply lookup_ge_None in He. rewrite u64_id by (unfold is_u64; lia). lia.
Qed.

Lemma log_Find_wf l op : log_wf l → log_Find l op = Ret (entry_of l op).
Proof.
  intros [Hs Ho Hb]. unfold log_Find, entry_of, log_Empty. destruct (entries l) as [|e0 es] eqn:Hes.
  { by destruct (op <? start l)%Z. }
  destruct (Z.ltb_spec op (start l)); [done|]. rewrite <- Hes in *.
  destruct (Z.ltb_spec (Z.of_nat (length (entries l)) - 1) (op - start l)).
  { rewrite lookup_ge_None_2; [done|lia]. }
  destruct (lookup_lt_is_Some_2 (entries l) (Z.to_nat (op - start l))) as [e He]; [lia|].
  rewrite He. apply Ho in He. rewrite (proj2 (Z.eqb_eq _ _)) by lia. done.
Qed.

Lemma log_Get_wf l op : log_wf l → log_Get l op = match entry_of l op with Some e => Ret e | None => Panic end.
Proof. intros Hl. unfold log_Get. by rewrite log_Find_wf. Qed.

Lemma entry_of_Some l op e :
  log_wf l → entry_of l op = Some e → start l ≤ op ≤ LastOpnum l ∧ vs_opnum (le_viewstamp e) = op.
Proof.
  intros Hl. unfold entry_of. destruct (Z.ltb_spec op (start l)); [done|]. intros He.
  rewrite LastOpnum_wf by done. apply lookup_lt_Some in He as Hlt. apply (wf_opnum _ Hl) in He. lia.
Qed.

Lemma entry_of_is_Some l op : log_wf l → start l ≤ op ≤ LastOpnum l → is_Some (entry_of l op).
Proof.
  intros Hl. rewrite LastOpnum_wf by done. intros Hop. unfold entry_of.
  destruct (Z.ltb_spec op (start l)); [lia|]. apply lookup_lt_is_Some_2. lia.
Qed.

Lemma log_wf_entries l es :
  log_wf l → (∀ i e, es !! i = Some e → vs_opnum (le_viewstamp e) = start l + Z.of_nat i) →
  start l + Z.of_nat (length es) ≤ 2 ^ 64 → log_wf (with_entries l es).
Proof. intros [Hs _ _] Ho Hb. by split. Qed.

Lemma log_Append_wf l vs req st :
  log_wf l → vs_opnum vs = LastOpnum l + 1 → LastOpnum l + 2 ≤ 2 ^ 64 →
  ∃ h, log_Append l vs req st = Ret (with_entries l (entries l ++ [mkLE vs st req h])) ∧
       log_wf (with_entries l (entries l ++ [mkLE vs st req h])).
Proof.
  intros Hl Hvs Hb. pose proof (LastOpnum_wf l Hl) as HL.
  set (h := if useHash l then ComputeHash (LastHash l) (mkLE vs st req "") else "").
  assert (log_wf (with_entries l (entries l ++ [mkLE vs st req h]))) as Hl'.
  { apply log_wf_entries; [done| |rewrite length_app; simpl; lia].
    intros i e. rewrite lookup_snoc_Some. intros [[_ He]|[-> <-]]; [by apply Hl|simpl; lia]. }
  exists h. split; [|done]. unfold log_Append.
  assert ((if log_Empty l then (vs_opnum vs =? start l)%Z else (vs_opnum vs =? u64 (LastOpnum l + 1))%Z) = true) as ->.
  { pose proof (wf_start _ Hl). unfold log_Empty. destruct (entries l) as [|e es] eqn:He; apply Z.eqb_eq.
    - simpl in HL. lia.
    - rewrite u64_id; [done|]. unfold is_u64. lia. }
  cbn [mbind outcome_bind ASSERT]. fold h. rewrite log_Get_wf by done.
  destruct (entry_of_is_Some _ (vs_opnum vs) Hl') as [e ->]; [|done].
  rewrite (LastOpnum_wf _ Hl'). simpl. rewrite length_app. simpl. lia.
Qed.

Lemma log_SetStatus_wf l op st e :
  log_wf l → entry_of l op = Some e →
  ∃ l', log_SetStatus l op st = Ret (true, l') ∧ log_wf l' ∧ LastOpnum l' = LastOpnum l ∧
    start l' = start l ∧
    ∀ op', entry_of l' op' = if decide (op' = op) then Some (with_state e st) else entry_of l op'.
Proof.
  intros Hl He. unfold log_SetStatus. rewrite log_Find_wf, He by done. simpl. eexists. split; [done|].
  assert (log_wf (with_entries l (alter (λ e, with_state e st) (Z.to_nat (op - start l)) (entries l)))) as Hl'.
  { apply log_wf_entries; [done| |rewrite length_alter; apply Hl].
    intros i e'. destruct (decide (Z.to_nat (op - start l) = i)) as [<-|Hi].
    - rewrite list_lookup_alter_eq. intros (e1 & H1 & ->)%fmap_Some. by apply (wf_opnum _ Hl) in H1.
    - rewrite list_lookup_alter_ne by done. apply Hl. }
  destruct (entry_of_Some _ _ _ Hl He) as [Hop _]. split_and!; try done.
  - rewrite !LastOpnum_wf by done. simpl. by rewrite length_alter.
  - intros op'. unfold entry_of in *. simpl. destruct (Z.ltb_spec op' (start l)).
    { rewrite decide_False by lia. done. }
    destruct (Z.ltb_spec op (start l)); [done|]. destruct (decide (op' = op)) as [->|Hne].
    + rewrite list_lookup_alter_eq. by rewrite He.
    + rewrite list_lookup_alter_ne; [done|lia].
Qed.

Lemma with_entries_id l : with_entries l (entries l) = l.
Proof. by destruct l. Qed.

Lemma seqZ_S a m : seqZ a (Z.of_nat (S m)) = a :: seqZ (a + 1) (Z.of_nat m).
Proof. rewrite seqZ_cons by lia. f_equal. f_equal; lia. Qed.

(** The scan of [RemoveAfter] for committed entries. *)
Lemma scan_ok l a m :
  log_wf l → start l ≤ a → a + Z.of_nat m - 1 ≤ LastOpnum l →
  (∀ i e, a ≤ i → entry_of l i = Some e → le_state e ≠ LOG_STATE_COMMITTED) →
  for_each (λ _ i, e ← log_Get l i; ASSERT! bool_decide (le_state e ≠ LOG_STATE_COMMITTED); Ret ())
    () (seqZ a (Z.of_nat m)) = Ret ().
Proof.
  intros Hl. revert a. induction m as [|m IH]; intros a Ha Hm Hc; [done|].
  rewrite seqZ_S. cbn [for_each]. rewrite log_Get_wf by done.
  destruct (entry_of_is_Some l a Hl) as [e He]; [lia|]. rewrite He. cbn [mbind outcome_bind].
  rewrite bool_decide_true by (eapply Hc; [|exact He]; lia). cbn [mbind outcome_bind ASSERT].
  apply IH; [lia|lia|]. intros i e' Hi. apply Hc. lia.
Qed.

Lemma log_wf_take l k : log_wf l → log_wf (with_entries l (take k (entries l))).
Proof.
  intros Hl. apply log_wf_entries; [done| |].
  - intros i e [He _]%lookup_take_Some. by apply Hl.
  - pose proof (wf_bound _ Hl). rewrite length_take. lia.
Qed.

Lemma opnums_nat a b : opnums a b = seqZ a (Z.of_nat (Z.to_nat (b - a + 1))).
Proof.
  unfold opnums. destruct (decide (0 ≤ b - a + 1)) as [Hle|Hn]; [by rewrite Z2Nat.id|].
  replace (Z.to_nat (b - a + 1)) with 0%nat by lia. by rewrite !seqZ_nil by lia.
Qed.

Lemma RemoveAfter_wf l op :
  log_wf l → start l ≤ op →
  (∀ i e, op ≤ i → entry_of l i = Some e → le_state e ≠ LOG_STATE_COMMITTED) →
  RemoveAfter l op = Ret (with_entries l (take (Z.to_nat (op - start l)) (entries l))).
Proof.
  intros Hl Hop Hc. pose proof (LastOpnum_wf l Hl) as HL. pose proof (wf_start _ Hl). pose proof (wf_bound _ Hl).
  unfold RemoveAfter. rewrite opnums_nat. destruct (Z.ltb_spec (LastOpnum l) op) as [Hlt|Hge].
  - replace (Z.to_nat (LastOpnum l - op + 1)) with 0%nat by lia. simpl.
    rewrite take_ge by lia. by rewrite with_entries_id.
  - rewrite scan_ok by (done || lia). cbn [mbind outcome_bind].
    rewrite !u64_id by (unfold is_u64; lia).
    destruct (Z.ltb_spec (op - start l) (Z.of_nat (length (entries l)))); [|lia].
    cbn [mbind outcome_bind ASSERT]. rewrite (LastOpnum_wf _ (log_wf_take l _ Hl)). simpl.
    rewrite length_take, (proj2 (Z.eqb_eq _ _)) by lia. done.
Qed.

Lemma dump_segment l a m out :
  log_wf l → start l ≤ a → a + Z.of_nat m - 1 ≤ LastOpnum l →
  for_each (λ out i, e ← log_Get l i; Ret (out ++ [dump_entry e])) out (seqZ a (Z.of_nat m)) =
  Ret (out ++ (dump_entry <$> take m (drop (Z.to_nat (a - start l)) (entries l)))).
Proof.
  intros Hl. revert a out. induction m as [|m IH]; intros a out Ha Hm.
  { by rewrite take_0, app_nil_r. }
  rewrite seqZ_S. cbn [for_each]. rewrite log_Get_wf by done.
  destruct (entry_of_is_Some l a Hl) as [e He]; [lia|]. rewrite He. cbn [mbind outcome_bind].
  rewrite IH by lia. unfold entry_of in He. destruct (Z.ltb_spec a (start l)); [lia|].
  rewrite (drop_S _ _ _ He). simpl. rewrite <- app_assoc. simpl.
  by replace (Z.to_nat (a + 1 - start l)) with (S (Z.to_nat (a - start l))) by lia.
Qed.

Lemma Dump_wf l from :
  log_wf l →
  Dump l from = Ret (dump_entry <$> drop (Z.to_nat (from - start l)) (entries l)).
Proof.
  intros Hl. pose proof (LastOpnum_wf l Hl) as HL. unfold Dump. rewrite opnums_nat.
  destruct (decide (LastOpnum l < Z.max from (start l))) as [Hlt|Hge].
  - replace (Z.to_nat (LastOpnum l - Z.max from (start l) + 1)) with 0%nat by lia. simpl.
    rewrite drop_ge by lia. done.
  - rewrite dump_segment by (done || lia). simpl.
    replace (Z.to_nat (Z.max from (start l) - start l)) with (Z.to_nat (from - start l)) by lia.
    rewrite take_ge; [done|]. rewrite length_drop. lia.
Qed.

(** *** What a call that returns has done *)

Lemma log_Append_inv l vs req st l' :
  log_wf l → log_Append l vs req st = Ret l' →
  log_wf l' ∧ ∃ h, l' = with_entries l (entries l ++ [mkLE vs st req h]).
Proof.
  intros Hl Ha. pose proof (LastOpnum_wf l Hl) as HL. pose proof (wf_start _ Hl). pose proof (wf_bound _ Hl).
  destruct (decide (LastOpnum l + 2 ≤ 2 ^ 64)) as [Hb|Hb].
  - assert (vs_opnum vs = LastOpnum l + 1) as Hvs.
    { apply ASSERT_bind in Ha as [Hop _]. unfold log_Empty in Hop.
      destruct (entries l) as [|e es] eqn:He; apply Z.eqb_eq in Hop; [simpl in HL; lia|].
      rewrite u64_id in Hop; [done|]. unfold is_u64. simpl in HL. lia. }
    destruct (log_Append_wf l vs req st Hl Hvs Hb) as (h & Ha' & Hl').
    rewrite Ha in Ha'. injection Ha' as ->. split; [done|by exists h].
  - exfalso. assert (LastOpnum l + 1 = 2 ^ 64) as HL' by lia.
    unfold log_Append in Ha. apply ASSERT_bind in Ha as [Hop Ha]. apply bind_Ret_inv in Ha as (e & He & _).
    unfold log_Empty in Hop. destruct (entries l) as [|e0 es] eqn:Hes; [simpl in HL; lia|].
    apply Z.eqb_eq in Hop. rewrite HL' in Hop. unfold u64 in Hop. rewrite Z.mod_same in Hop by lia.
    revert He. unfold log_Get, log_Find, log_Empty. simpl. rewrite Hop.
    destruct (Z.ltb_spec 0 (start l)); [done|lia].
Qed.

Lemma scan_inv l a m :
  log_wf l →
  for_each (λ _ i, e ← log_Get l i; ASSERT! bool_decide (le_state e ≠ LOG_STATE_COMMITTED); Ret ())
    () (seqZ a (Z.of_nat m)) = Ret () →
  ∀ i, a ≤ i < a + Z.of_nat m → ∃ e, entry_of l i = Some e ∧ le_state e ≠ LOG_STATE_COMMITTED.
Proof.
  intros Hl. revert a. induction m as [|m IH]; intros a; [lia|].
  rewrite seqZ_S. cbn [for_each]. rewrite log_Get_wf by done.
  destruct (entry_of l a) as [e|] eqn:He; [|done]. cbn [mbind outcome_bind].
  rewrite bind_Ret_inv. intros ([] & [Hst _]%ASSERT_bind & Hrest) i Hi.
  destruct (decide (i = a)) as [->|]; [|apply (IH (a + 1)); [done|lia]].
  exists e. split; [done|]. by apply bool_decide_eq_true in Hst.
Qed.

Lemma RemoveAfter_inv l op l' :
  log_wf l → RemoveAfter l op = Ret l' →
  ∃ k, l' = with_entries l (take k (entries l)) ∧
    ∀ i e, (k ≤ i)%nat → entries l !! i = Some e → le_state e ≠ LOG_STATE_COMMITTED.
Proof.
  intros Hl. pose proof (LastOpnum_wf l Hl) as HL. pose proof (wf_start _ Hl).
  unfold RemoveAfter. rewrite opnums_nat, bind_Ret_inv. intros ([] & Hscan & Hr).
  pose proof (scan_inv l op _ Hl Hscan) as Hsc. destruct (Z.ltb_spec (LastOpnum l) op) as [Hlt|Hge].
  - injection Hr as <-. exists (length (entries l)). rewrite take_ge, with_entries_id by lia.
    split; [done|]. intros i e Hi He%lookup_lt_Some. lia.
  - destruct (Hsc op) as (e & He & _); [lia|]. destruct (entry_of_Some _ _ _ Hl He) as [Hop _].
    apply ASSERT_bind in Hr as [_ Hr]. apply ASSERT_bind in Hr as [_ [= <-]].
    exists (Z.to_nat (op - start l)). split; [done|]. intros i e' Hi Hi'.
    destruct (Hsc (start l + Z.of_nat i)) as (e1 & He1 & Hst).
    { apply lookup_lt_Some in Hi'. lia. }
    unfold entry_of in He1. destruct (Z.ltb_spec (start l + Z.of_nat i) (start l)); [done|].
    replace (Z.to_nat (start l + Z.of_nat i - start l)) with i in He1 by lia. congruence.
Qed.

(** The committed entries, and only appended ones beside them. *)
Definition log_extends l l' : Prop :=
  log_wf l' ∧ start l' = start l ∧
  (∀ i e, le_state e = LOG_STATE_COMMITTED → entries l !! i = Some e ↔ entries l' !! i = Some e).

Lemma log_extends_refl l : log_wf l → log_extends l l.
Proof. by split. Qed.

Lemma log_extends_trans l1 l2 l3 : log_extends l1 l2 → log_extends l2 l3 → log_extends l1 l3.
Proof.
  intros (_ & Hs1 & H1) (Hw & Hs2 & H2). split_and!; [done|congruence|].
  intros i e Hc. by rewrite H1, H2.
Qed.

Lemma log_Append_extends l vs req st l' :
  log_wf l → st ≠ LOG_STATE_COMMITTED → log_Append l vs req st = Ret l' → log_extends l l'.
Proof.
  intros Hl Hst (Hl' & h & ->)%log_Append_inv; [|done]. split_and!; [done|done|].
  intros i e Hc. simpl. rewrite lookup_snoc_Some. split.
  - intros He. left. split; [by eapply lookup_lt_Some|done].
  - by intros [[_ ?]|[_ <-]].
Qed.

Lemma RemoveAfter_extends l op l' : log_wf l → RemoveAfter l op = Ret l' → log_extends l l'.
Proof.
  intros Hl (k & -> & Hk)%RemoveAfter_inv; [|done]. split_and!; [by apply log_wf_take|done|].
  intros i e Hc. simpl. rewrite lookup_take_Some. split; [|by intros [? _]].
  intros He. split; [done|]. destruct (decide (i < k)%nat) as [|Hge]; [done|].
  by destruct (Hk i e) as []; [lia|..].
Qed.

Lemma install_find_extends l es l' es' :
  log_wf l → install_find l es = Ret (l', es') → log_extends l l'.
Proof.
  intros Hl. induction es as [|x es IH]; simpl; [intros [= <- _]; by apply log_extends_refl|].
  rewrite log_Find_wf by done. cbn [mbind outcome_bind].
  destruct (entry_of l (lep_opnum x)) as [o|]; [|intros [= <- _]; by apply log_extends_refl].
  destruct (negb _); [|done]. rewrite bind_Ret_inv. intros (l1 & Hr & [= <- _]). by eapply RemoveAfter_extends.
Qed.

Lemma Install_extends l es l' : log_wf l → Install l es = Ret l' → log_extends l l'.
Proof.
  intros Hl. unfold Install. rewrite bind_Ret_inv. intros ([l1 es1] & Hf & Ha). simpl in Ha.
  apply install_find_extends in Hf; [|done]. revert Ha.
  apply (for_each_inv _ (log_extends l)); [|done]. intros l2 x l3 _ H12 H3.
  eapply log_extends_trans; [exact H12|]. eapply log_Append_extends; [apply H12| |exact H3]. done.
Qed.

(** ** Installing a log *)

(** What an entry says: its place and its request. *)
Definition entry_key (e : LogEntry) : viewstamp * Request := (le_viewstamp e, le_request e).

(** The appends of [Install]. *)
Definition append_all l (es : list LogEntryProto) : outcome Log :=
  for_each (λ l x, log_Append l (mkVS (lep_view x) (lep_opnum x)) (lep_request x) LOG_STATE_PREPARED) l es.

Lemma append_all_wf l pre r :
  log_wf l → entry_key <$> entries l = entry_key <$> pre →
  (∀ i e, (pre ++ r) !! i = Some e → vs_opnum (le_viewstamp e) = start l + Z.of_nat i) →
  start l + Z.of_nat (length (pre ++ r)) ≤ 2 ^ 64 →
  ∃ l', append_all l (dump_entry <$> r) = Ret l' ∧ log_wf l' ∧ start l' = start l ∧
    entry_key <$> entries l' = entry_key <$> (pre ++ r) ∧ entries l `prefix_of` entries l'.
Proof.
  unfold append_all. revert l pre. induction r as [|e r IH]; intros l pre Hl Hkey Ho Hb.
  { exists l. rewrite app_nil_r. done. }
  assert (length (entries l) = length pre) as Hlen.
  { apply (f_equal length) in Hkey. by rewrite !length_fmap in Hkey. }
  pose proof (LastOpnum_wf l Hl) as HL. rewrite length_app in Hb. simpl in Hb.
  assert (vs_opnum (le_viewstamp e) = LastOpnum l + 1) as Hop.
  { rewrite (Ho (length pre) e) by (by rewrite list_lookup_middle). lia. }
  cbn [for_each fmap list_fmap]. destruct (log_Append_wf l (le_viewstamp e) (le_request e) LOG_STATE_PREPARED Hl Hop)
    as (h & Ha & Hl'); [lia|].
  assert (mkVS (lep_view (dump_entry e)) (lep_opnum (dump_entry e)) = le_viewstamp e) as ->
    by (simpl; by destruct (le_viewstamp e)).
  simpl lep_request. rewrite Ha. cbn [mbind outcome_bind].
  destruct (IH _ (pre ++ [e]) Hl') as (l' & Hr & Hw & Hst & Hk & Hp).
  - simpl. rewrite !fmap_app, Hkey. done.
  - intros i e'. rewrite <- app_assoc. apply Ho.
  - rewrite <- app_assoc, length_app. simpl. lia.
  - exists l'. rewrite <- app_assoc in Hk. split_and!; try done. etrans; [|exact Hp]. by eexists.
Qed.

Definition no_committed_divergence (l : Log) (es : list LogEntry) : Prop :=
  ∀ i e, entries l !! i = Some e → le_state e = LOG_STATE_COMMITTED →
    ∃ e', es !! i = Some e' ∧ vs_view (le_viewstamp e') = vs_view (le_viewstamp e).

(** Entries of the same view and number have the same request, and so have the
    entries before them. *)
Definition log_matching (es1 es2 : list LogEntry) : Prop :=
  ∀ i e1 e2, es1 !! i = Some e1 → es2 !! i = Some e2 →
    vs_view (le_viewstamp e1) = vs_view (le_viewstamp e2) →
    entry_key <$> take (S i) es1 = entry_key <$> take (S i) es2.

Lemma log_matching_take es1 es2 k : log_matching es1 es2 → log_matching (take k es1) es2.
Proof.
  intros Hm i e1 e2 [H1 Hi]%lookup_take_Some H2 Hv. rewrite take_take.
  replace (S i `min` k)%nat with (S i) by lia. by eapply Hm.
Qed.

Lemma committed_kept (l : Log) es k e1 e2 op :
  no_committed_divergence l es → log_matching (entries l) es →
  entries l !! k = Some e1 → es !! k = Some e2 → vs_view (le_viewstamp e1) ≠ vs_view (le_viewstamp e2) →
  start l ≤ op → Z.to_nat (op - start l) = k →
  ∀ i e, op ≤ i → entry_of l i = Some e → le_state e ≠ LOG_STATE_COMMITTED.
Proof.
  intros Hn Hm H1 H2 Hne Hop Hk i e Hi. unfold entry_of. destruct (Z.ltb_spec i (start l)); [lia|].
  intros He Hc. destruct (Hn _ _ He Hc) as (e' & He' & Hv).
  pose proof (Hm _ _ _ He He' (eq_sym Hv)) as Ht. apply Hne.
  assert ((entry_key <$> take (S (Z.to_nat (i - start l))) (entries l)) !! k =
          (entry_key <$> take (S (Z.to_nat (i - start l))) es) !! k) as Hk' by by rewrite Ht.
  rewrite !list_lookup_fmap, !lookup_take_lt, H1, H2 in Hk' by lia. by injection Hk' as -> _.
Qed.

Lemma Install_wf l pre r :
  log_wf l → (length pre ≤ length (entries l) ≤ length (pre ++ r))%nat →
  entry_key <$> take (length pre) (entries l) = entry_key <$> pre →
  (∀ i e, (pre ++ r) !! i = Some e → vs_opnum (le_viewstamp e) = start l + Z.of_nat i) →
  start l + Z.of_nat (length (pre ++ r)) ≤ 2 ^ 64 →
  no_committed_divergence l (pre ++ r) → log_matching (entries l) (pre ++ r) →
  ∃ l', Install l (dump_entry <$> r) = Ret l' ∧ log_wf l' ∧ start l' = start l ∧
    entry_key <$> entries l' = entry_key <$> (pre ++ r) ∧
    ∀ i e, entries l !! i = Some e → le_state e = LOG_STATE_COMMITTED → entries l' !! i = Some e.
Proof.
  intros Hl. revert pre. induction r as [|x r IH]; intros pre Hlen Hkey Ho Hb Hn Hm.
  { exists l. rewrite app_nil_r in *. rewrite take_ge in Hkey by lia. done. }
  assert ((pre ++ x :: r) !! length pre = Some x) as Hx by by rewrite list_lookup_middle.
  pose proof (Ho _ _ Hx) as Hopx. unfold Install. cbn [fmap list_fmap install_find].
  rewrite log_Find_wf by done. cbn [mbind outcome_bind]. simpl lep_opnum. rewrite Hopx.
  unfold entry_of. destruct (Z.ltb_spec (start l + Z.of_nat (length pre)) (start l)); [lia|].
  replace (Z.to_nat (start l + Z.of_nat (length pre) - start l)) with (length pre) by lia.
  destruct (entries l !! length pre) as [o|] eqn:Hold; simpl.
  - destruct (Z.eqb_spec (vs_view (le_viewstamp x)) (vs_view (le_viewstamp o))) as [Heq|Hne]; simpl.
    + specialize (IH (pre ++ [x])). rewrite <- app_assoc in IH. apply IH; try done.
      * apply lookup_lt_Some in Hold. rewrite !length_app in *. simpl in *. lia.
      * rewrite length_app, Nat.add_1_r. rewrite (Hm _ _ _ Hold Hx (eq_sym Heq)).
        by rewrite (take_S_r _ _ _ Hx), take_app_length.
    + rewrite RemoveAfter_wf; [|done|lia|].
      * replace (Z.to_nat (start l + Z.of_nat (length pre) - start l)) with (length pre) by lia.
        cbn [mbind outcome_bind]. simpl fst. simpl snd.
        destruct (append_all_wf (with_entries l (take (length pre) (entries l))) pre (x :: r)) as (l' & Ha & Hw & Hs & Hk & Hp);
          [by apply log_wf_take|done|done|done|].
        exists l'. split_and!; try done. intros i e Hi Hc. eapply prefix_lookup_Some; [|exact Hp]. simpl.
        rewrite lookup_take_lt; [done|]. destruct (decide (length pre ≤ i)%nat) as [Hge|]; [|lia].
        exfalso. eapply (committed_kept l _ (length pre) o x (start l + Z.of_nat (length pre)) Hn Hm Hold Hx);
          [congruence|lia|lia| | |exact Hc]; [instantiate (1 := start l + Z.of_nat i); lia|].
        unfold entry_of. destruct (Z.ltb_spec (start l + Z.of_nat i) (start l)); [lia|].
        by replace (Z.to_nat (start l + Z.of_nat i - start l)) with i by lia.
      * eapply committed_kept; [done|done|exact Hold|exact Hx|congruence|lia|lia].
  - cbn [mbind outcome_bind]. simpl fst. simpl snd. apply lookup_ge_None in Hold. rewrite take_ge in Hkey by lia.
    destruct (append_all_wf l pre (x :: r) Hl Hkey Ho Hb) as (l' & Ha & Hw & Hs & Hk & Hp).
    exists l'. split_and!; try done. intros i e Hi _. by eapply prefix_lookup_Some.
Qed.

End log_lemmas.

(** Log transfer.  A replica cuts its log after the last operation of another
    log and installs that log's dump.  If the two logs agree up to where the dump
    starts and satisfy log matching, and the other log has every operation the
    replica has committed, the calls succeed: the replica ends with the other
    log's viewstamps and requests, and its committed entries stay as they were. *)
Theorem log_transfer `{SHA1} (l1 l2 : Log) (from : Z) :
  log_wf l1 → log_wf l2 → start l1 = start l2 →
  start l2 ≤ from → from ≤ LastOpnum l1 + 1 → from ≤ LastOpnum l2 + 1 →
  entry_key <$> take (Z.to_nat (from - start l2)) (entries l1) =
    entry_key <$> take (Z.to_nat (from - start l2)) (entries l2) →
  no_committed_divergence l1 (entries l2) → log_matching (entries l1) (entries l2) →
  ∃ es l1' l', Dump l2 from = Ret es ∧ RemoveAfter l1 (LastOpnum l2 + 1) = Ret l1' ∧
    Install l1' es = Ret l' ∧ log_wf l' ∧
    entry_key <$> entries l' = entry_key <$> entries l2 ∧
    ∀ i e, entries l1 !! i = Some e → le_state e = LOG_STATE_COMMITTED → entries l' !! i = Some e.
Proof.
  intros H1 H2 Hs Hf Hf1 Hf2 Hag Hn Hm. set (k := Z.to_nat (from - start l2)) in *.
  rewrite LastOpnum_wf in Hf1, Hf2 by done. rewrite LastOpnum_wf by done.
  assert (k ≤ length (entries l1) ∧ k ≤ length (entries l2))%nat as [Hk1 Hk2] by lia.
  eexists _, _. rewrite Dump_wf by done. fold k.
  assert (∀ i e, entries l1 !! i = Some e → le_state e = LOG_STATE_COMMITTED → (i < length (entries l2))%nat) as Hin.
  { intros i e Hi Hc. destruct (Hn i e Hi Hc) as (e' & He' & _). by eapply lookup_lt_Some. }
  assert (RemoveAfter l1 (start l2 + Z.of_nat (length (entries l2)) - 1 + 1) =
    Ret (with_entries l1 (take (length (entries l2)) (entries l1)))) as ->.
  { rewrite RemoveAfter_wf by (lia || done || (intros i e Hi He Hc; unfold entry_of in He;
      destruct (Z.ltb_spec i (start l1)); [done|]; apply Hin in He; [lia|done])).
    do 3 f_equal. lia. }
  destruct (Install_wf (with_entries l1 (take (length (entries l2)) (entries l1)))
    (take k (entries l2)) (drop k (entries l2))) as (l' & Hi & Hw & _ & Hk & Hc).
  - by apply log_wf_take.
  - rewrite take_drop. simpl. rewrite !length_take. lia.
  - simpl. rewrite take_take, length_take. replace (k `min` length (entries l2) `min` length (entries l2))%nat with k by lia. done.
  - rewrite take_drop. simpl. rewrite Hs. apply H2.
  - rewrite take_drop. simpl. rewrite Hs. apply H2.
  - rewrite take_drop. intros i e [He _]%lookup_take_Some. by apply Hn.
  - rewrite take_drop. by apply log_matching_take.
  - exists l'. rewrite take_drop in Hk. split_and!; try done. intros i e He Hst.
    apply Hc; [|done]. simpl. rewrite lookup_take_lt; [done|]. by eapply Hin.
Qed.

Definition no_sha1 : SHA1 := λ s, s.
Definition demo_log (views : list Z) : Log :=
  mkLog (imap (λ i v, mkLE (mkVS v (Z.of_nat i + 1)) LOG_STATE_PREPARED
    (mkReq (if (v =? 0)%Z then "a" else "b") 7 (Z.of_nat i)) "") views) EMPTY_HASH 1 false.

(** A replica with three operations of view 0 takes over a log whose second
    operation is of view 1. *)
Lemma log_transfer_witness :
  ∃ l', @Install no_sha1 (demo_log [0; 0]) (dump_entry <$> drop 1 (entries (demo_log [0; 1]))) = Ret l' ∧
    entry_key <$> entries l' = entry_key <$> entries (demo_log [0; 1]).
Proof.
  destruct (@log_transfer no_sha1 (demo_log [0; 0; 0]) (demo_log [0; 1]) 2) as (es & l1 & l' & Hd & Hr & Hi & _ & Hk & _).
  - split; [done| |done]. intros [|[|[|i]]] e; simpl; by intros [= <-].
  - split; [done| |done]. intros [|[|i]] e; simpl; by intros [= <-].
  - reflexivity.
  - discriminate.
  - discriminate.
  - discriminate.
  - reflexivity.
  - intros [|[|[|i]]] e; simpl; by intros [= <-].
  - intros [|[|[|i]]] e1 e2; simpl; by intros [= <-] [= <-].
  - exists l'. vm_compute in Hd. injection Hd as <-. vm_compute in Hr. injection Hr as <-.
    split; [exact Hi|exact Hk].
Defined.
