(* ===== verification/VRReplica.v ===== *)
(** * The replica of viewstamped replication (replication/vr/replica.{h,cc})

    The class [VRReplica]: its members are a record, each method is an action of a
    monad that threads the record, collects the messages sent, and stops at a
    failed assertion.  A timer is the flag whether it is active.  What the
    transport reports of a failed send is only logged, so sending has no result. *)

From S2P Require Import Prelude Quorum IRRecord AppReplica VRLog.

(** ** Messages (vr-proto.proto) *)

(** A [TransportAddress]. *)
Notation address := string.

Record ReplyMessage := mkReplyMsg { rep_view : Z; rep_opnum : Z; rep_clientreqid : Z; rep_reply : string }.
Record PrepareMessage := mkPrepare {
  prep_view : Z; prep_opnum : Z; prep_batchstart : Z; prep_request : list Request }.
Record PrepareOKMessage := mkPrepareOK { ok_view : Z; ok_opnum : Z; ok_replicaIdx : Z }.
Record CommitMessage := mkCommit { com_view : Z; com_opnum : Z }.
Record RequestStateTransferMessage := mkRST { rst_view : Z; rst_opnum : Z }.
Record StateTransferMessage := mkST { st_view : Z; st_opnum : Z; st_entries : list LogEntryProto }.
Record StartViewChangeMessage := mkSVC { svc_view : Z; svc_replicaIdx : Z; svc_lastCommitted : Z }.
Record DoViewChangeMessage := mkDVC {
  dvc_view : Z; dvc_lastNormalView : Z; dvc_lastOp : Z; dvc_lastCommitted : Z;
  dvc_entries : list LogEntryProto; dvc_replicaIdx : Z }.
Record StartViewMessage := mkSV {
  sv_view : Z; sv_lastOp : Z; sv_lastCommitted : Z; sv_entries : list LogEntryProto }.

Inductive vr_message :=
| RequestMessage (req : Request)
| UnloggedRequestMessage (req : Request)
| ReplyMsg (m : ReplyMessage)
| UnloggedReplyMessage (reply : string) (clientreqid : Z)
| Prepare (m : PrepareMessage)
| PrepareOK (m : PrepareOKMessage)
| Commit (m : CommitMessage)
| RequestStateTransferMsg (m : RequestStateTransferMessage)
| StateTransfer (m : StateTransferMessage)
| StartViewChangeMsg (m : StartViewChangeMessage)
| DoViewChange (m : DoViewChangeMessage)
| StartView (m : StartViewMessage).

(** What a replica sends. *)
Inductive action :=
| SendMessage (dst : address) (m : vr_message)
| SendMessageToReplica (i : Z) (m : vr_message)
| SendMessageToAll (m : vr_message).

(** ** State *)

Record ClientTableEntry := mkCTE { lastReqId : Z; replied : bool; cte_reply : ReplyMessage }.

Definition empty_reply : ReplyMessage := mkReplyMsg 0 0 0 "".
Definition new_cte : ClientTableEntry := mkCTE 0 false empty_reply.

Record VRReplica (A : Type) := mkVR {
  configuration : Configuration;
  myIdx : Z;
  app : A;
  status : ReplicaStatus;
  view : Z;
  lastCommitted : Z;
  lastOp : Z;
  lastRequestStateTransferView : Z;
  lastRequestStateTransferOpnum : Z;
  pendingPrepares : list (address * PrepareMessage);
  lastPrepare : PrepareMessage;
  batchSize : Z;
  lastBatchEnd : Z;
  log : Log;
  clientAddresses : gmap Z address;
  clientTable : gmap Z ClientTableEntry;
  prepareOKQuorum : QuorumSet viewstamp PrepareOKMessage;
  startViewChangeQuorum : QuorumSet Z StartViewChangeMessage;
  doViewChangeQuorum : QuorumSet Z DoViewChangeMessage;
  viewChangeTimeout : bool;
  nullCommitTimeout : bool;
  stateTransferTimeout : bool;
  resendPrepareTimeout : bool;
  closeBatchTimeout : bool
}.
Arguments mkVR {_}.
Arguments configuration {_}.
Arguments myIdx {_}.
Arguments app {_}.
Arguments status {_}.
Arguments view {_}.
Arguments lastCommitted {_}.
Arguments lastOp {_}.
Arguments lastRequestStateTransferView {_}.
Arguments lastRequestStateTransferOpnum {_}.
Arguments pendingPrepares {_}.
Arguments lastPrepare {_}.
Arguments batchSize {_}.
Arguments lastBatchEnd {_}.
Arguments log {_}.
Arguments clientAddresses {_}.
Arguments clientTable {_}.
Arguments prepareOKQuorum {_}.
Arguments startViewChangeQuorum {_}.
Arguments doViewChangeQuorum {_}.
Arguments viewChangeTimeout {_}.
Arguments nullCommitTimeout {_}.
Arguments stateTransferTimeout {_}.
Arguments resendPrepareTimeout {_}.
Arguments closeBatchTimeout {_}.

Section setters.
Context {A : Type}.
Implicit Types r : VRReplica A.

Definition set_app (x : A) r : VRReplica A :=
  mkVR (configuration r) (myIdx r) x (status r) (view r) (lastCommitted r) (lastOp r)
    (lastRequestStateTransferView r) (lastRequestStateTransferOpnum r) (pendingPrepares r)
    (lastPrepare r) (batchSize r) (lastBatchEnd r) (log r) (clientAddresses r) (clientTable r)
    (prepareOKQuorum r) (startViewChangeQuorum r) (doViewChangeQuorum r) (viewChangeTimeout r)
    (nullCommitTimeout r) (stateTransferTimeout r) (resendPrepareTimeout r) (closeBatchTimeout r).
Definition set_status (x : ReplicaStatus) r : VRReplica A :=
  mkVR (configuration r) (myIdx r) (app r) x (view r) (lastCommitted r) (lastOp r)
    (lastRequestStateTransferView r) (lastRequestStateTransferOpnum r) (pendingPrepares r)
    (lastPrepare r) (batchSize r) (lastBatchEnd r) (log r) (clientAddresses r) (clientTable r)
    (prepareOKQuorum r) (startViewChangeQuorum r) (doViewChangeQuorum r) (viewChangeTimeout r)
    (nullCommitTimeout r) (stateTransferTimeout r) (resendPrepareTimeout r) (closeBatchTimeout r).
Definition set_view (x : Z) r : VRReplica A :=
  mkVR (configuration r) (myIdx r) (app r) (status r) x (lastCommitted r) (lastOp r)
    (lastRequestStateTransferView r) (lastRequestStateTransferOpnum r) (pendingPrepares r)
    (lastPrepare r) (batchSize r) (lastBatchEnd r) (log r) (clientAddresses r) (clientTable r)
    (prepareOKQuorum r) (startViewChangeQuorum r) (doViewChangeQuorum r) (viewChangeTimeout r)
    (nullCommitTimeout r) (stateTransferTimeout r) (resendPrepareTimeout r) (closeBatchTimeout r).
Definition set_lastCommitted (x : Z) r : VRReplica A :=
  mkVR (configuration r) (myIdx r) (app r) (status r) (view r) x (lastOp r)
    (lastRequestStateTransferView r) (lastRequestStateTransferOpnum r) (pendingPrepares r)
    (lastPrepare r) (batchSize r) (lastBatchEnd r) (log r) (clientAddresses r) (clientTable r)
    (prepareOKQuorum r) (startViewChangeQuorum r) (doViewChangeQuorum r) (viewChangeTimeout r)
    (nullCommitTimeout r) (stateTransferTimeout r) (resendPrepareTimeout r) (closeBatchTimeout r).
Definition set_lastOp (x : Z) r : VRReplica A :=
  mkVR (configuration r) (myIdx r) (app r) (status r) (view r) (lastCommitted r) x
    (lastRequestStateTransferView r) (lastRequestStateTransferOpnum r) (pendingPrepares r)
    (lastPrepare r) (batchSize r) (lastBatchEnd r) (log r) (clientAddresses r) (clientTable r)
    (prepareOKQuorum r) (startViewChangeQuorum r) (doViewChangeQuorum r) (viewChangeTimeout r)
    (nullCommitTimeout r) (stateTransferTimeout r) (resendPrepareTimeout r) (closeBatchTimeout r).
Definition set_lastRequestStateTransferView (x : Z) r : VRReplica A :=
  mkVR (configuration r) (myIdx r) (app r) (status r) (view r) (lastCommitted r) (lastOp r) x
    (lastRequestStateTransferOpnum r) (pendingPrepares r) (lastPrepare r) (batchSize r)
    (lastBatchEnd r) (log r) (clientAddresses r) (clientTable r) (prepareOKQuorum r)
    (startViewChangeQuorum r) (doViewChangeQuorum r) (viewChangeTimeout r) (nullCommitTimeout r)
    (stateTransferTimeout r) (resendPrepareTimeout r) (closeBatchTimeout r).
Definition set_lastRequestStateTransferOpnum (x : Z) r : VRReplica A :=
  mkVR (configuration r) (myIdx r) (app r) (status r) (view r) (lastCommitted r) (lastOp r)
    (lastRequestStateTransferView r) x (pendingPrepares r) (lastPrepare r) (batchSize r)
    (lastBatchEnd r) (log r) (clientAddresses r) (clientTable r) (prepareOKQuorum r)
    (startViewChangeQuorum r) (doViewChangeQuorum r) (viewChangeTimeout r) (nullCommitTimeout r)
    (stateTransferTimeout r) (resendPrepareTimeout r) (closeBatchTimeout r).
Definition set_pendingPrepares (x : list (address * PrepareMessage)) r : VRReplica A :=
  mkVR (configuration r) (myIdx r) (app r) (status r) (view r) (lastCommitted r) (lastOp r)
    (lastRequestStateTransferView r) (lastRequestStateTransferOpnum r) x (lastPrepare r)
    (batchSize r) (lastBatchEnd r) (log r) (clientAddresses r) (clientTable r) (prepareOKQuorum r)
    (startViewChangeQuorum r) (doViewChangeQuorum r) (viewChangeTimeout r) (nullCommitTimeout r)
    (stateTransferTimeout r) (resendPrepareTimeout r) (closeBatchTimeout r).
Definition set_lastPrepare (x : PrepareMessage) r : VRReplica A :=
  mkVR (configuration r) (myIdx r) (app r) (status r) (view r) (lastCommitted r) (lastOp r)
    (lastRequestStateTransferView r) (lastRequestStateTransferOpnum r) (pendingPrepares r) x
    (batchSize r) (lastBatchEnd r) (log r) (clientAddresses r) (clientTable r) (prepareOKQuorum r)
    (startViewChangeQuorum r) (doViewChangeQuorum r) (viewChangeTimeout r) (nullCommitTimeout r)
    (stateTransferTimeout r) (resendPrepareTimeout r) (closeBatchTimeout r).
Definition set_lastBatchEnd (x : Z) r : VRReplica A :=
  mkVR (configuration r) (myIdx r) (app r) (status r) (view r) (lastCommitted r) (lastOp r)
    (lastRequestStateTransferView r) (lastRequestStateTransferOpnum r) (pendingPrepares r)
    (lastPrepare r) (batchSize r) x (log r) (clientAddresses r) (clientTable r) (prepareOKQuorum r)
    (startViewChangeQuorum r) (doViewChangeQuorum r) (viewChangeTimeout r) (nullCommitTimeout r)
    (stateTransferTimeout r) (resendPrepareTimeout r) (closeBatchTimeout r).
Definition set_log (x : Log) r : VRReplica A :=
  mkVR (configuration r) (myIdx r) (app r) (status r) (view r) (lastCommitted r) (lastOp r)
    (lastRequestStateTransferView r) (lastRequestStateTransferOpnum r) (pendingPrepares r)
    (lastPrepare r) (batchSize r) (lastBatchEnd r) x (clientAddresses r) (clientTable r)
    (prepareOKQuorum r) (startViewChangeQuorum r) (doViewChangeQuorum r) (viewChangeTimeout r)
    (nullCommitTimeout r) (stateTransferTimeout r) (resendPrepareTimeout r) (closeBatchTimeout r).
Definition set_clientAddresses (x : gmap Z address) r : VRReplica A :=
  mkVR (configuration r) (myIdx r) (app r) (status r) (view r) (lastCommitted r) (lastOp r)
    (lastRequestStateTransferView r) (lastRequestStateTransferOpnum r) (pendingPrepares r)
    (lastPrepare r) (batchSize r) (lastBatchEnd r) (log r) x (clientTable r) (prepareOKQuorum r)
    (startViewChangeQuorum r) (doViewChangeQuorum r) (viewChangeTimeout r) (nullCommitTimeout r)
    (stateTransferTimeout r) (resendPrepareTimeout r) (closeBatchTimeout r).
Definition set_clientTable (x : gmap Z ClientTableEntry) r : VRReplica A :=
  mkVR (configuration r) (myIdx r) (app r) (status r) (view r) (lastCommitted r) (lastOp r)
    (lastRequestStateTransferView r) (lastRequestStateTransferOpnum r) (pendingPrepares r)
    (lastPrepare r) (batchSize r) (lastBatchEnd r) (log r) (clientAddresses r) x (prepareOKQuorum r)
    (startViewChangeQuorum r) (doViewChangeQuorum r) (viewChangeTimeout r) (nullCommitTimeout r)
    (stateTransferTimeout r) (resendPrepareTimeout r) (closeBatchTimeout r).
Definition set_prepareOKQuorum (x : QuorumSet viewstamp PrepareOKMessage) r : VRReplica A :=
  mkVR (configuration r) (myIdx r) (app r) (status r) (view r) (lastCommitted r) (lastOp r)
    (lastRequestStateTransferView r) (lastRequestStateTransferOpnum r) (pendingPrepares r)
    (lastPrepare r) (batchSize r) (lastBatchEnd r) (log r) (clientAddresses r) (clientTable r) x
    (startViewChangeQuorum r) (doViewChangeQuorum r) (viewChangeTimeout r) (nullCommitTimeout r)
    (stateTransferTimeout r) (resendPrepareTimeout r) (closeBatchTimeout r).
Definition set_startViewChangeQuorum (x : QuorumSet Z StartViewChangeMessage) r : VRReplica A :=
  mkVR (configuration r) (myIdx r) (app r) (status r) (view r) (lastCommitted r) (lastOp r)
    (lastRequestStateTransferView r) (lastRequestStateTransferOpnum r) (pendingPrepares r)
    (lastPrepare r) (batchSize r) (lastBatchEnd r) (log r) (clientAddresses r) (clientTable r)
    (prepareOKQuorum r) x (doViewChangeQuorum r) (viewChangeTimeout r) (nullCommitTimeout r)
    (stateTransferTimeout r) (resendPrepareTimeout r) (closeBatchTimeout r).
Definition set_doViewChangeQuorum (x : QuorumSet Z DoViewChangeMessage) r : VRReplica A :=
  mkVR (configuration r) (myIdx r) (app r) (status r) (view r) (lastCommitted r) (lastOp r)
    (lastRequestStateTransferView r) (lastRequestStateTransferOpnum r) (pendingPrepares r)
    (lastPrepare r) (batchSize r) (lastBatchEnd r) (log r) (clientAddresses r) (clientTable r)
    (prepareOKQuorum r) (startViewChangeQuorum r) x (viewChangeTimeout r) (nullCommitTimeout r)
    (stateTransferTimeout r) (resendPrepareTimeout r) (closeBatchTimeout r).
Definition set_viewChangeTimeout (x : bool) r : VRReplica A :=
  mkVR (configuration r) (myIdx r) (app r) (status r) (view r) (lastCommitted r) (lastOp r)
    (lastRequestStateTransferView r) (lastRequestStateTransferOpnum r) (pendingPrepares r)
    (lastPrepare r) (batchSize r) (lastBatchEnd r) (log r) (clientAddresses r) (clientTable r)
    (prepareOKQuorum r) (startViewChangeQuorum r) (doViewChangeQuorum r) x (nullCommitTimeout r)
    (stateTransferTimeout r) (resendPrepareTimeout r) (closeBatchTimeout r).
Definition set_nullCommitTimeout (x : bool) r : VRReplica A :=
  mkVR (configuration r) (myIdx r) (app r) (status r) (view r) (lastCommitted r) (lastOp r)
    (lastRequestStateTransferView r) (lastRequestStateTransferOpnum r) (pendingPrepares r)
    (lastPrepare r) (batchSize r) (lastBatchEnd r) (log r) (clientAddresses r) (clientTable r)
    (prepareOKQuorum r) (startViewChangeQuorum r) (doViewChangeQuorum r) (viewChangeTimeout r) x
    (stateTransferTimeout r) (resendPrepareTimeout r) (closeBatchTimeout r).
Definition set_resendPrepareTimeout (x : bool) r : VRReplica A :=
  mkVR (configuration r) (myIdx r) (app r) (status r) (view r) (lastCommitted r) (lastOp r)
    (lastRequestStateTransferView r) (lastRequestStateTransferOpnum r) (pendingPrepares r)
    (lastPrepare r) (batchSize r) (lastBatchEnd r) (log r) (clientAddresses r) (clientTable r)
    (prepareOKQuorum r) (startViewChangeQuorum r) (doViewChangeQuorum r) (viewChangeTimeout r)
    (nullCommitTimeout r) (stateTransferTimeout r) x (closeBatchTimeout r).
Definition set_closeBatchTimeout (x : bool) r : VRReplica A :=
  mkVR (configuration r) (myIdx r) (app r) (status r) (view r) (lastCommitted r) (lastOp r)
    (lastRequestStateTransferView r) (lastRequestStateTransferOpnum r) (pendingPrepares r)
    (lastPrepare r) (batchSize r) (lastBatchEnd r) (log r) (clientAddresses r) (clientTable r)
    (prepareOKQuorum r) (startViewChangeQuorum r) (doViewChangeQuorum r) (viewChangeTimeout r)
    (nullCommitTimeout r) (stateTransferTimeout r) (resendPrepareTimeout r) x.

End setters.

(** ** The monad of the methods *)

Definition VR (A X : Type) : Type := VRReplica A → outcome (X * (list action * VRReplica A)).

#[global] Instance vr_ret {A} : MRet (VR A) := λ X x r, Ret (x, ([], r)).
#[global] Instance vr_bind {A} : MBind (VR A) := λ X Y k m r,
  match m r with
  | Panic => Panic
  | Ret (x, (acts, r1)) =>
      match k x r1 with
      | Panic => Panic
      | Ret (y, (acts', r2)) => Ret (y, (acts ++ acts', r2))
      end
  end.

Section prims.
Context {A : Type}.

Definition get : VR A (VRReplica A) := λ r, Ret (r, ([], r)).
Definition modify (f : VRReplica A → VRReplica A) : VR A unit := λ r, Ret ((), ([], f r)).
Definition send (a : action) : VR A unit := λ r, Ret ((), ([a], r)).
Definition panic {X} : VR A X := λ _, Panic.
Definition check (b : bool) : VR A unit := if b then mret () else panic.
Definition lift {X} (o : outcome X) : VR A X := λ r, match o with Ret x => Ret (x, ([], r)) | Panic => Panic end.

(** [for (auto &x : l) body] *)
Fixpoint each {X} (body : X → VR A unit) (l : list X) : VR A unit :=
  match l with [] => mret () | x :: l => body x;; each body l end.

(** A call on the log that changes it. *)
Definition on_log (f : Log → outcome Log) : VR A unit :=
  r ← get; l ← lift (f (log r)); modify (set_log l).

End prims.

(** ** Methods *)

Section methods.
Context {A : Type} `{AppReplica A} `{SHA1}.
Implicit Types r : VRReplica A.

Definition AmLeader r : bool := (GetLeaderIndex (configuration r) (view r) =? myIdx r)%Z.

(** [Replica::LeaderUpcall]: the result is [replicate] and [res]. *)
Definition leader_upcall (opnum : Z) (op : string) : VR A (bool * string) :=
  r ← get; up ← lift (LeaderUpcall (app r) opnum op); modify (set_app up.2);; mret up.1.

(** [Replica::Execute]: the reply's result. *)
Definition execute (opnum : Z) (req : Request) : VR A string :=
  r ← get; res ← lift (Execute (app r) opnum req); modify (set_app res.2);; mret res.1.

(** [Replica::ExecuteUnlogged] *)
Definition execute_unlogged (req : Request) : VR A string :=
  r ← get; res ← lift (ExecuteUnlogged (app r) req); modify (set_app res.2);; mret res.1.

Definition UpdateClientTable (req : Request) : VR A unit :=
  r ← get;
  let entry := default new_cte (clientTable r !! req_clientid req) in
  check (lastReqId entry <=? req_clientreqid req)%Z;;
  modify (set_clientTable
    (<[req_clientid req :=
         if (lastReqId entry =? req_clientreqid req)%Z then entry
         else mkCTE (req_clientreqid req) false empty_reply]> (clientTable r))).

(** One turn of the loop of [CommitUpTo]. *)
Definition commit_one : VR A unit :=
  r ← get;
  let op := u64 (lastCommitted r + 1) in
  modify (set_lastCommitted op);;
  entry ← lift (log_Get (log r) op);
  let req := le_request entry in
  res ← execute op req;
  let reply := mkReplyMsg (vs_view (le_viewstamp entry)) (vs_opnum (le_viewstamp entry))
                 (req_clientreqid req) res in
  on_log (λ l, snd <$> log_SetStatus l op LOG_STATE_COMMITTED);;
  let cte := default new_cte (clientTable r !! req_clientid req) in
  modify (set_clientTable
    (<[req_clientid req :=
         if (lastReqId cte <=? req_clientreqid req)%Z then mkCTE (req_clientreqid req) true reply
         else cte]> (clientTable r)));;
  match clientAddresses r !! req_clientid req with
  | Some addr => send (SendMessage addr (ReplyMsg reply))
  | None => mret ()
  end.

Fixpoint commit_loop (n : nat) : VR A unit :=
  match n with O => mret () | S n => commit_one;; commit_loop n end.

Definition CommitUpTo (upto : Z) : VR A unit :=
  r ← get; commit_loop (Z.to_nat (upto - lastCommitted r)).

Definition send_prepare_ok (v op : Z) : VR A unit :=
  r ← get;
  send (SendMessageToReplica (GetLeaderIndex (configuration r) (view r))
          (PrepareOK (mkPrepareOK v op (myIdx r)))).

Definition SendPrepareOKs (oldLastOp : Z) : VR A unit :=
  r ← get;
  each (λ i,
    r ← get;
    if (i <=? lastCommitted r)%Z then mret ()
    else
      entry ← lift (log_Get (log r) i);
      check (bool_decide (le_state entry = LOG_STATE_PREPARED));;
      UpdateClientTable (le_request entry);;
      send_prepare_ok (view r) i) (opnums oldLastOp (lastOp r)).

Definition RequestStateTransfer : VR A unit :=
  r ← get;
  let m := mkRST (view r) (lastCommitted r) in
  if negb (lastRequestStateTransferOpnum r =? 0)%Z && (lastRequestStateTransferView r =? view r)%Z
     && (lastRequestStateTransferOpnum r =? lastCommitted r)%Z then mret ()
  else
    modify (set_lastRequestStateTransferView (view r));;
    modify (set_lastRequestStateTransferOpnum (lastCommitted r));;
    send (SendMessageToAll (RequestStateTransferMsg m)).

Definition EnterView (newview : Z) : VR A unit :=
  modify (set_view newview);;
  modify (set_status STATUS_NORMAL);;
  modify (λ r, set_lastBatchEnd (lastOp r) r);;
  r ← get;
  (if AmLeader r then
     modify (set_viewChangeTimeout false);; modify (set_nullCommitTimeout true)
   else
     modify (set_viewChangeTimeout true);; modify (set_nullCommitTimeout false);;
     modify (set_resendPrepareTimeout false);; modify (set_closeBatchTimeout false));;
  modify (λ r, set_prepareOKQuorum (qs_Clear (prepareOKQuorum r)) r);;
  modify (λ r, set_startViewChangeQuorum (qs_Clear (startViewChangeQuorum r)) r);;
  modify (λ r, set_doViewChangeQuorum (qs_Clear (doViewChangeQuorum r)) r).

Definition StartViewChange (newview : Z) : VR A unit :=
  modify (set_view newview);;
  modify (set_status STATUS_VIEW_CHANGE);;
  modify (set_viewChangeTimeout true);;
  modify (set_nullCommitTimeout false);;
  modify (set_resendPrepareTimeout false);;
  modify (set_closeBatchTimeout false);;
  r ← get;
  send (SendMessageToAll (StartViewChangeMsg (mkSVC newview (myIdx r) (lastCommitted r)))).

Definition SendNullCommit : VR A unit :=
  r ← get;
  check (AmLeader r);;
  send (SendMessageToAll (Commit (mkCommit (view r) (lastCommitted r)))).

Definition ResendPrepare : VR A unit :=
  r ← get;
  check (AmLeader r);;
  if (lastOp r =? lastCommitted r)%Z then mret ()
  else send (SendMessageToAll (Prepare (lastPrepare r))).

(** The requests of a batch. *)
Definition batch_requests r (batchStart : Z) : outcome (list Request) :=
  for_each (λ acc i,
    entry ← log_Get (log r) i;
    ASSERT! (vs_view (le_viewstamp entry) =? view r)%Z;
    ASSERT! (vs_opnum (le_viewstamp entry) =? i)%Z;
    Ret (acc ++ [le_request entry])) [] (opnums batchStart (lastOp r)).

Definition CloseBatch : VR A unit :=
  r ← get;
  check (AmLeader r);;
  check (lastBatchEnd r <? lastOp r)%Z;;
  let batchStart := u64 (lastBatchEnd r + 1) in
  reqs ← lift (batch_requests r batchStart);
  let p := mkPrepare (view r) (lastOp r) batchStart reqs in
  modify (set_lastPrepare p);;
  send (SendMessageToAll (Prepare p));;
  modify (set_lastBatchEnd (lastOp r));;
  modify (set_resendPrepareTimeout true);;
  modify (set_closeBatchTimeout false).

(** ** Handlers *)

Definition HandleRequest (remote : address) (req : Request) : VR A unit :=
  r ← get;
  if negb (bool_decide (status r = STATUS_NORMAL)) then mret ()
  else if negb (AmLeader r) then mret ()
  else
    modify (set_clientAddresses (<[req_clientid req := remote]> (clientAddresses r)));;
    let stale := match clientTable r !! req_clientid req with
                 | Some entry => (req_clientreqid req <? lastReqId entry)%Z
                 | None => false
                 end in
    let dup := match clientTable r !! req_clientid req with
               | Some entry => if (req_clientreqid req =? lastReqId entry)%Z then Some entry else None
               | None => None
               end in
    if stale then mret ()
    else match dup with
    | Some entry =>
        if replied entry then send (SendMessage remote (ReplyMsg (cte_reply entry))) else mret ()
    | None =>
        UpdateClientTable req;;
        up ← leader_upcall (lastCommitted r) (req_op req);
        if negb up.1 then
          let reply := mkReplyMsg 0 0 (req_clientreqid req) up.2 in
          modify (λ r, set_clientTable
            (alter (λ cte, mkCTE (lastReqId cte) true reply) (req_clientid req) (clientTable r)) r);;
          send (SendMessage remote (ReplyMsg reply))
        else
          let request := mkReq up.2 (req_clientid req) (req_clientreqid req) in
          modify (λ r, set_lastOp (u64 (lastOp r + 1)) r);;
          r ← get;
          on_log (λ l, log_Append l (mkVS (view r) (lastOp r)) request LOG_STATE_PREPARED);;
          (if (batchSize r <? u64 (lastOp r - lastBatchEnd r + 1))%Z then CloseBatch
           else modify (set_closeBatchTimeout true));;
          modify (set_nullCommitTimeout true)
    end.

Definition HandleUnloggedRequest (remote : address) (req : Request) : VR A unit :=
  r ← get;
  if negb (bool_decide (status r = STATUS_NORMAL)) then mret ()
  else
    res ← execute_unlogged req;
    send (SendMessage remote (UnloggedReplyMessage res (req_clientreqid req))).

(** The entries of a PREPARE that are new; the result is the last number. *)
Fixpoint prepare_loop (v op : Z) (reqs : list Request) : VR A Z :=
  match reqs with
  | [] => mret op
  | req :: reqs =>
      let op := u64 (op + 1) in
      r ← get;
      (if (op <=? lastOp r)%Z then mret ()
       else
         modify (set_lastOp (u64 (lastOp r + 1)));;
         on_log (λ l, log_Append l (mkVS v op) req LOG_STATE_PREPARED);;
         UpdateClientTable req);;
      prepare_loop v op reqs
  end.

Definition HandlePrepare (remote : address) (msg : PrepareMessage) : VR A unit :=
  r ← get;
  if negb (bool_decide (status r = STATUS_NORMAL)) then mret ()
  else if (prep_view msg <? view r)%Z then mret ()
  else if (view r <? prep_view msg)%Z then
    RequestStateTransfer;; modify (set_pendingPrepares (pendingPrepares r ++ [(remote, msg)]))
  else if AmLeader r then panic
  else
    check (prep_batchstart msg <=? prep_opnum msg)%Z;;
    check (u64 (prep_opnum msg - prep_batchstart msg + 1) =? Z.of_nat (length (prep_request msg)))%Z;;
    modify (set_viewChangeTimeout true);;
    if (prep_opnum msg <=? lastOp r)%Z then send_prepare_ok (prep_view msg) (prep_opnum msg)
    else if (u64 (lastOp r + 1) <? prep_batchstart msg)%Z then
      RequestStateTransfer;; modify (set_pendingPrepares (pendingPrepares r ++ [(remote, msg)]))
    else
      op ← prepare_loop (prep_view msg) (u64 (prep_batchstart msg - 1)) (prep_request msg);
      check (op =? prep_opnum msg)%Z;;
      send_prepare_ok (prep_view msg) (prep_opnum msg).

Definition HandlePrepareOK (remote : address) (msg : PrepareOKMessage) : VR A unit :=
  r ← get;
  if negb (bool_decide (status r = STATUS_NORMAL)) then mret ()
  else if (ok_view msg <? view r)%Z then mret ()
  else if (view r <? ok_view msg)%Z then RequestStateTransfer
  else if negb (AmLeader r) then mret ()
  else
    let '(msgs, q) := AddAndCheckForQuorum (prepareOKQuorum r) (mkVS (ok_view msg) (ok_opnum msg))
                        (ok_replicaIdx msg) msg in
    modify (set_prepareOKQuorum q);;
    match msgs with
    | None => mret ()
    | Some msgs =>
        CommitUpTo (ok_opnum msg);;
        if (QuorumSize (configuration r) <=? Z.of_nat (size msgs))%Z then mret ()
        else
          r ← get;
          send (SendMessageToAll (Commit (mkCommit (view r) (lastCommitted r))));;
          modify (set_nullCommitTimeout true)
    end.

Definition HandleCommit (remote : address) (msg : CommitMessage) : VR A unit :=
  r ← get;
  if negb (bool_decide (status r = STATUS_NORMAL)) then mret ()
  else if (com_view msg <? view r)%Z then mret ()
  else if (view r <? com_view msg)%Z then RequestStateTransfer
  else if AmLeader r then panic
  else
    modify (set_viewChangeTimeout true);;
    if (com_opnum msg <=? lastCommitted r)%Z then mret ()
    else if (lastOp r <? com_opnum msg)%Z then RequestStateTransfer
    else CommitUpTo (com_opnum msg).

Definition HandleRequestStateTransfer (remote : address) (msg : RequestStateTransferMessage) : VR A unit :=
  r ← get;
  if negb (bool_decide (status r = STATUS_NORMAL)) then mret ()
  else if (view r <? rst_view msg)%Z then RequestStateTransfer
  else
    es ← lift (Dump (log r) (u64 (rst_opnum msg + 1)));
    send (SendMessage remote (StateTransfer (mkST (view r) (lastCommitted r) es))).

(** The entries of a STATETRANSFER; the result is [oldLastOp]. *)
Fixpoint transfer_loop (oldLastOp : Z) (es : list LogEntryProto) : VR A Z :=
  match es with
  | [] => mret oldLastOp
  | newEntry :: es =>
      r ← get;
      let vs := mkVS (lep_view newEntry) (lep_opnum newEntry) in
      if (lep_opnum newEntry <=? lastCommitted r)%Z then
        entry ← lift (log_Get (log r) (lep_opnum newEntry));
        check (vs_opnum (le_viewstamp entry) =? lep_opnum newEntry)%Z;;
        check (vs_view (le_viewstamp entry) =? lep_view newEntry)%Z;;
        transfer_loop oldLastOp es
      else if (lep_opnum newEntry <=? lastOp r)%Z then
        entry ← lift (log_Get (log r) (lep_opnum newEntry));
        check (vs_opnum (le_viewstamp entry) =? lep_opnum newEntry)%Z;;
        check (vs_view (le_viewstamp entry) <=? lep_view newEntry)%Z;;
        if (vs_view (le_viewstamp entry) =? lep_view newEntry)%Z then
          check (bool_decide (le_state entry = LOG_STATE_PREPARED));;
          transfer_loop oldLastOp es
        else
          check (bool_decide (le_state entry ≠ LOG_STATE_COMMITTED));;
          on_log (λ l, RemoveAfter l (lep_opnum newEntry));;
          modify (set_lastOp (lep_opnum newEntry));;
          on_log (λ l, log_Append l vs (lep_request newEntry) LOG_STATE_PREPARED);;
          transfer_loop (lep_opnum newEntry) es
      else
        check (lep_opnum newEntry =? u64 (lastOp r + 1))%Z;;
        modify (set_lastOp (u64 (lastOp r + 1)));;
        on_log (λ l, log_Append l vs (lep_request newEntry) LOG_STATE_PREPARED);;
        transfer_loop oldLastOp es
  end.

(** The loop over the pending prepares ranges over the list just cleared. *)
Definition HandleStateTransfer (remote : address) (msg : StateTransferMessage) : VR A unit :=
  r ← get;
  if (st_view msg <? view r)%Z then mret ()
  else
    oldLastOp ← transfer_loop (lastOp r) (st_entries msg);
    (if (view r <? st_view msg)%Z then EnterView (st_view msg) else mret ());;
    r ← get;
    check (st_opnum msg <=? lastOp r)%Z;;
    CommitUpTo (st_opnum msg);;
    SendPrepareOKs oldLastOp;;
    modify (set_pendingPrepares []);;
    r ← get;
    each (λ p, HandlePrepare p.1 p.2) (pendingPrepares r).

(** [std::min_element] over the [lastcommitted] fields, dereferenced. *)
Definition min_committed (l : list Z) : outcome Z :=
  match l with [] => Panic | x :: l => Ret (foldl Z.min x l) end.

(** A [std::map] of messages, in order. *)
Definition msgs_of {MSG} (m : gmap Z MSG) : list MSG := (omap_iter Z.le m).*2.

Definition HandleStartViewChange (remote : address) (msg : StartViewChangeMessage) : VR A unit :=
  r ← get;
  if (svc_view msg <? view r)%Z then mret ()
  else if (svc_view msg =? view r)%Z && negb (bool_decide (status r = STATUS_VIEW_CHANGE)) then mret ()
  else
    (if negb (bool_decide (status r = STATUS_VIEW_CHANGE)) || (view r <? svc_view msg)%Z
     then StartViewChange (svc_view msg) else mret ());;
    r ← get;
    check (svc_view msg =? view r)%Z;;
    let '(msgs, q) := AddAndCheckForQuorum (startViewChangeQuorum r) (svc_view msg)
                        (svc_replicaIdx msg) msg in
    modify (set_startViewChangeQuorum q);;
    match msgs with
    | None => mret ()
    | Some msgs =>
        let leader := GetLeaderIndex (configuration r) (view r) in
        if (leader =? myIdx r)%Z then mret ()
        else
          m ← lift (min_committed (svc_lastCommitted <$> msgs_of msgs));
          es ← lift (Dump (log r) (Z.min m (lastCommitted r)));
          send (SendMessageToReplica leader (DoViewChange
            (mkDVC (view r) (vs_view (LastViewstamp (log r))) (lastOp r) (lastCommitted r) es (myIdx r))))
    end.

(** The message with the most up to date log, if not this replica's own. *)
Definition latest_message (latestView latestOp : Z) (ms : list DoViewChangeMessage) :
    Z * Z * option DoViewChangeMessage :=
  foldl (λ st x,
    let '(latestView, latestOp, latestMsg) := st in
    if (latestView <? dvc_lastNormalView x)%Z
       || ((dvc_lastNormalView x =? latestView)%Z && (latestOp <? dvc_lastOp x)%Z)
    then (dvc_lastNormalView x, dvc_lastOp x, Some x) else st) (latestView, latestOp, None) ms.

(** [entries_size() != 0] *)
Definition has_entries (es : list LogEntryProto) : bool := match es with [] => false | _ => true end.

(** Installing a received log. *)
Definition install_log (lastop : Z) (es : list LogEntryProto) : VR A unit :=
  r ← get;
  match es with
  | [] => mret ()
  | e :: _ =>
      check (lep_opnum e <=? u64 (lastCommitted r + 1))%Z;;
      on_log (λ l, RemoveAfter l (u64 (lastop + 1)));;
      on_log (λ l, Install l es)
  end.

Definition HandleDoViewChange (remote : address) (msg : DoViewChangeMessage) : VR A unit :=
  r ← get;
  if (dvc_view msg <? view r)%Z then mret ()
  else if (dvc_view msg =? view r)%Z && negb (bool_decide (status r = STATUS_VIEW_CHANGE)) then mret ()
  else
    (if negb (bool_decide (status r = STATUS_VIEW_CHANGE)) || (view r <? dvc_view msg)%Z
     then StartViewChange (dvc_view msg) else mret ());;
    r ← get;
    check (GetLeaderIndex (configuration r) (dvc_view msg) =? myIdx r)%Z;;
    let '(msgs, q) := AddAndCheckForQuorum (doViewChangeQuorum r) (dvc_view msg)
                        (dvc_replicaIdx msg) msg in
    modify (set_doViewChangeQuorum q);;
    match msgs with
    | None => mret ()
    | Some msgs =>
        let '(_, latestOp, latestMsg) :=
          latest_message (vs_view (LastViewstamp (log r))) (vs_opnum (LastViewstamp (log r))) (msgs_of msgs) in
        match latestMsg with
        | Some x =>
            (if negb (has_entries (dvc_entries x)) then
               check (lastCommitted r =? dvc_lastCommitted msg)%Z;;
               check (dvc_lastOp msg =? dvc_lastCommitted msg)%Z
             else mret ());;
            install_log (dvc_lastOp x) (dvc_entries x)
        | None => mret ()
        end;;
        let '(svcs, q) := GetMessages (startViewChangeQuorum r) (view r) in
        modify (set_startViewChangeQuorum q);;
        minSVC ← lift (min_committed (svc_lastCommitted <$> msgs_of svcs));
        minDVC ← lift (min_committed (dvc_lastCommitted <$> msgs_of msgs));
        let minCommitted := Z.min (Z.min minSVC minDVC) (lastCommitted r) in
        EnterView (dvc_view msg);;
        r ← get;
        check (AmLeader r);;
        modify (set_lastOp latestOp);;
        match latestMsg with
        | Some x => CommitUpTo (dvc_lastCommitted x)
        | None => mret ()
        end;;
        r ← get;
        es ← lift (Dump (log r) minCommitted);
        send (SendMessageToAll (StartView (mkSV (view r) (lastOp r) (lastCommitted r) es)))
    end.

Definition HandleStartView (remote : address) (msg : StartViewMessage) : VR A unit :=
  r ← get;
  if (sv_view msg <? view r)%Z then mret ()
  else if (sv_view msg =? view r)%Z && negb (bool_decide (status r = STATUS_VIEW_CHANGE)) then mret ()
  else
    check (negb (GetLeaderIndex (configuration r) (sv_view msg) =? myIdx r)%Z);;
    (if negb (has_entries (sv_entries msg)) then
       check (sv_lastCommitted msg =? lastCommitted r)%Z;;
       check (sv_lastOp msg =? sv_lastCommitted msg)%Z
     else mret ());;
    install_log (sv_lastOp msg) (sv_entries msg);;
    EnterView (sv_view msg);;
    r ← get;
    let oldLastOp := lastOp r in
    modify (set_lastOp (sv_lastOp msg));;
    check (negb (AmLeader r));;
    CommitUpTo (sv_lastCommitted msg);;
    SendPrepareOKs oldLastOp.

Definition ReceiveMessage (remote : address) (m : vr_message) : VR A unit :=
  match m with
  | RequestMessage req => HandleRequest remote req
  | UnloggedRequestMessage req => HandleUnloggedRequest remote req
  | Prepare m => HandlePrepare remote m
  | PrepareOK m => HandlePrepareOK remote m
  | Commit m => HandleCommit remote m
  | RequestStateTransferMsg m => HandleRequestStateTransfer remote m
  | StateTransfer m => HandleStateTransfer remote m
  | StartViewChangeMsg m => HandleStartViewChange remote m
  | DoViewChange m => HandleDoViewChange remote m
  | StartView m => HandleStartView remote m
  | ReplyMsg _ | UnloggedReplyMessage _ _ => panic
  end.

(** ** Timers *)

Inductive timer := ViewChangeTimer | NullCommitTimer | StateTransferTimer | ResendPrepareTimer | CloseBatchTimer.

Definition timer_active r (t : timer) : bool :=
  match t with
  | ViewChangeTimer => viewChangeTimeout r
  | NullCommitTimer => nullCommitTimeout r
  | StateTransferTimer => stateTransferTimeout r
  | ResendPrepareTimer => resendPrepareTimeout r
  | CloseBatchTimer => closeBatchTimeout r
  end.

(** The callbacks set by the constructor. *)
Definition timer_callback (t : timer) : VR A unit :=
  match t with
  | ViewChangeTimer => r ← get; StartViewChange (u64 (view r + 1))
  | NullCommitTimer => SendNullCommit
  | StateTransferTimer =>
      modify (set_lastRequestStateTransferView 0);; modify (set_lastRequestStateTransferOpnum 0)
  | ResendPrepareTimer => ResendPrepare
  | CloseBatchTimer => CloseBatch
  end.

(** The constructor. *)
Definition new_vr (config : Configuration) (idx batchSize : Z) (a : A) : VRReplica A :=
  let leader := (GetLeaderIndex config 0 =? idx)%Z in
  mkVR config idx a STATUS_NORMAL 0 0 0 0 0 [] (mkPrepare 0 0 0 []) batchSize 0
    (mkLog [] EMPTY_HASH 1 false) ∅ ∅
    (new_quorumset (QuorumSize config - 1)) (new_quorumset (QuorumSize config - 1))
    (new_quorumset (QuorumSize config - 1))
    (negb leader) leader true false false.

End methods.
