(* ===== verification/VRSafety.v ===== *)
(** * Invariants of a VR replica

    For any messages and timers, in any order: the replica executes the operation
    numbers 1, 2, ... in order and once each, what it has executed is the committed
    prefix of its log, and neither that prefix nor its view is ever taken back. *)

From S2P Require Import Prelude Quorum IRRecord AppReplica VRLog VRReplica.

(** ** Executed operations *)

(** The application, with the operations it has executed. *)
#[global] Instance traced_app {A} `{AppReplica A} : AppReplica (A * list (Z * string)) := {
  LeaderUpcall a opnum op := x ← LeaderUpcall a.1 opnum op; Ret (x.1, (x.2, a.2));
  ReplicaUpcall a opnum op := x ← ReplicaUpcall a.1 opnum op; Ret (x.1, (x.2, a.2 ++ [(opnum, op)]));
  UnloggedUpcall a op := x ← UnloggedUpcall a.1 op; Ret (x.1, (x.2, a.2))
}.

Section safety.
Context {A : Type} `{AppReplica A} `{SHA1}.
Notation replica := (VRReplica (A * list (Z * string))).
Notation VRA := (VR (A * list (Z * string))).
Implicit Types r : replica.

Definition executed r : list (Z * string) := (app r).2.

Definition op_of (e : LogEntry) : Z * string := (vs_opnum (le_viewstamp e), req_op (le_request e)).

Record vr_inv r : Prop := {
  vi_log : log_wf (log r);
  vi_start : start (log r) = 1;
  vi_exec : executed r = op_of <$> take (Z.to_nat (lastCommitted r)) (entries (log r));
  vi_committed : 0 ≤ lastCommitted r ≤ Z.of_nat (length (entries (log r)));
  vi_state i e : entries (log r) !! i = Some e →
    le_state e = LOG_STATE_COMMITTED ↔ Z.of_nat i < lastCommitted r
}.

(** The step keeps the view; [advance]: it does not go back. *)
Definition steady r r' : Prop :=
  vr_inv r' ∧ view r' = view r ∧ executed r `prefix_of` executed r' ∧
  configuration r' = configuration r ∧ myIdx r' = myIdx r.
Definition advance r r' : Prop :=
  vr_inv r' ∧ view r ≤ view r' ∧ executed r `prefix_of` executed r' ∧
  configuration r' = configuration r ∧ myIdx r' = myIdx r.

Definition ok {X} (m : VRA X) : Prop :=
  ∀ r x acts r', vr_inv r → m r = Ret (x, (acts, r')) → steady r r'.

Lemma steady_refl r : vr_inv r → steady r r.
Proof. intros Hr. unfold steady. by split_and!. Qed.
Lemma steady_trans r1 r2 r3 : steady r1 r2 → steady r2 r3 → steady r1 r3.
Proof.
  unfold steady. intros (? & ? & ? & ? & ?) (? & ? & ? & ? & ?). split_and!; try congruence. by etrans.
Qed.
Lemma steady_advance r1 r2 : steady r1 r2 → advance r1 r2.
Proof. unfold advance. intros (? & ? & ? & ? & ?). split_and!; try done. lia. Qed.
Lemma advance_trans r1 r2 r3 : advance r1 r2 → advance r2 r3 → advance r1 r3.
Proof.
  unfold advance. intros (? & ? & ? & ? & ?) (? & ? & ? & ? & ?). split_and!; try congruence; [lia|by etrans].
Qed.

Lemma vr_bind_inv {X Y} (m : VRA X) (k : X → VRA Y) r y acts r2 :
  (m ≫= k) r = Ret (y, (acts, r2)) →
  ∃ x a1 r1 a2, m r = Ret (x, (a1, r1)) ∧ k x r1 = Ret (y, (a2, r2)) ∧ acts = a1 ++ a2.
Proof.
  unfold mbind, vr_bind. destruct (m r) as [[x [a1 r1]]|] eqn:Hm; [|done].
  destruct (k x r1) as [[y' [a2 r2']]|] eqn:Hk; [|done]. intros [= -> <- ->]. by exists x, a1, r1, a2.
Qed.

Lemma ok_bind {X Y} (m : VRA X) (k : X → VRA Y) : ok m → (∀ x, ok (k x)) → ok (m ≫= k).
Proof.
  intros Hm Hk r y acts r2 Hr (x & a1 & r1 & a2 & H1 & H2 & _)%vr_bind_inv.
  apply Hm in H1; [|done]. eapply steady_trans; [exact H1|]. eapply Hk; [apply H1|exact H2].
Qed.

Lemma ok_ret {X} (x : X) : ok (mret x).
Proof. intros r y acts r' Hr [=]; subst. by apply steady_refl. Qed.
Lemma ok_get : ok get.
Proof. intros r y acts r' Hr [=]; subst. by apply steady_refl. Qed.
Lemma ok_send a : ok (send a).
Proof. intros r y acts r' Hr [=]; subst. by apply steady_refl. Qed.
Lemma ok_panic {X} : ok (X := X) panic.
Proof. by intros r y acts r' Hr. Qed.
Lemma ok_check b : ok (check b).
Proof. destruct b; [apply ok_ret|apply ok_panic]. Qed.
Lemma ok_lift {X} (o : outcome X) : ok (lift o).
Proof. intros r y acts r' Hr. unfold lift. destruct o; [|done]. intros [=]; subst. by apply steady_refl. Qed.

(** A change of members the invariant does not mention. *)
Lemma ok_modify (f : replica → replica) :
  (∀ r, (log (f r), lastCommitted (f r), app (f r), view (f r), configuration (f r), myIdx (f r)) =
        (log r, lastCommitted r, app r, view r, configuration r, myIdx r)) → ok (modify f).
Proof.
  intros Hf r y acts r' Hr [=]; subst. specialize (Hf r). injection Hf as Hl Hc Ha Hv Hcf Hi.
  destruct Hr as [? ? He ? ?]. unfold executed in He.
  unfold steady. split_and!; try done; [split; unfold executed; rewrite ?Hl, ?Hc, ?Ha; done|unfold executed; by rewrite Ha].
Qed.

(** A change of the log that keeps the committed entries. *)
Lemma vr_inv_set_log r l :
  vr_inv r → log_extends (log r) l → vr_inv (set_log l r).
Proof.
  intros [Hl Hs He Hc Hst] (Hl' & Hs' & Hext).
  assert (∀ i, (i < Z.to_nat (lastCommitted r))%nat → entries l !! i = entries (log r) !! i) as Hsame.
  { intros i Hi. destruct (lookup_lt_is_Some_2 (entries (log r)) i) as [e Hei]; [lia|].
    rewrite Hei. apply (Hext i e); [|done]. apply (Hst i e Hei). lia. }
  assert (lastCommitted r ≤ Z.of_nat (length (entries l))) as Hlen.
  { destruct (decide (lastCommitted r = 0)); [lia|].
    assert (is_Some (entries l !! pred (Z.to_nat (lastCommitted r)))) as Hp%lookup_lt_is_Some; [|lia].
    rewrite Hsame by lia. apply lookup_lt_is_Some. lia. }
  split; simpl; try done; [congruence| |lia|].
  - unfold executed in *. simpl. rewrite He. f_equal. apply list_eq. intros i.
    destruct (decide (i < Z.to_nat (lastCommitted r))%nat).
    + rewrite !lookup_take_lt by done. by rewrite Hsame.
    + rewrite !lookup_take_ge by lia. done.
  - intros i e Hei. split.
    + intros Hcm. apply (Hst i e); [|done]. by apply Hext.
    + intros Hi. rewrite Hsame in Hei by lia. by apply (Hst i e).
Qed.

Lemma ok_on_log (f : Log → outcome Log) :
  (∀ l l', log_wf l → f l = Ret l' → log_extends l l') → ok (on_log f).
Proof.
  intros Hf r y acts r' Hr. unfold on_log.
  intros (r0 & a1 & r1 & a2 & [= <- <- <-] & Hk & ->)%vr_bind_inv.
  apply vr_bind_inv in Hk as (l & a1 & r1 & a3 & Hl & [= _ <- <-] & ->).
  unfold lift in Hl. destruct (f (log r)) as [l'|] eqn:Hfl; [|done]. injection Hl as -> _ <-.
  apply Hf in Hfl; [|apply Hr]. unfold steady. split_and!; try done. by apply vr_inv_set_log.
Qed.

Lemma ok_each {X} (body : X → VRA unit) l : (∀ x, ok (body x)) → ok (each body l).
Proof. intros Hb. induction l; simpl; [apply ok_ret|]. by apply ok_bind. Qed.

(** ** Committing *)

Lemma execute_inv opnum req r res acts r' :
  execute opnum req r = Ret (res, (acts, r')) →
  ∃ a, acts = [] ∧ r' = set_app (a, executed r ++ [(opnum, req_op req)]) r.
Proof.
  unfold execute. intros (r0 & ? & r1 & ? & [= <- <- <-] & Hk & ->)%vr_bind_inv.
  apply vr_bind_inv in Hk as (x & ? & r1 & ? & Hx & Hk & ->).
  unfold lift, Execute in Hx. destruct (ReplicaUpcall (app r) opnum (req_op req)) as [[s a]|] eqn:Hu; [|done].
  injection Hx as <- <- <-. apply vr_bind_inv in Hk as ([] & ? & r2 & ? & [= <- <-] & [= _ <- <-] & ->).
  apply bind_Ret_inv in Hu as ([s' a'] & _ & [= _ <-]). by exists a'.
Qed.

(** A reply to a client. *)
Definition is_reply (a : action) : Prop := match a with SendMessage _ (ReplyMsg _) => True | _ => False end.

(** Members that committing leaves alone. *)
Definition same_frame r r' : Prop :=
  lastOp r' = lastOp r ∧ status r' = status r ∧ lastPrepare r' = lastPrepare r ∧
  prepareOKQuorum r' = prepareOKQuorum r ∧ lastBatchEnd r' = lastBatchEnd r.

(** The effect of [commit_one]. *)
Lemma commit_one_inv r x acts r' :
  vr_inv r → commit_one r = Ret (x, (acts, r')) →
  ∃ e a l b, entry_of (log r) (lastCommitted r + 1) = Some e ∧ u64 (lastCommitted r + 1) = lastCommitted r + 1 ∧
    log_SetStatus (log r) (lastCommitted r + 1) LOG_STATE_COMMITTED = Ret (b, l) ∧
    app r' = (a, executed r ++ [(lastCommitted r + 1, req_op (le_request e))]) ∧
    log r' = l ∧ lastCommitted r' = lastCommitted r + 1 ∧ view r' = view r ∧
    configuration r' = configuration r ∧ myIdx r' = myIdx r ∧
    same_frame r r' ∧ Forall is_reply acts.
Proof.
  intros Hr. unfold commit_one.
  intros (r0 & ? & r1 & ? & [= <- <- <-] & Hk & ->)%vr_bind_inv. simpl in Hk.
  apply vr_bind_inv in Hk as ([] & ? & r1 & ? & [= <- <-] & Hk & ->).
  apply vr_bind_inv in Hk as (e & ? & r1 & ? & He & Hk & ->).
  unfold lift in He. destruct (log_Get (log r) (u64 (lastCommitted r + 1))) as [e'|] eqn:Hg; [|done].
  injection He as -> <- <-. rewrite log_Get_wf in Hg by apply Hr.
  destruct (entry_of (log r) (u64 (lastCommitted r + 1))) as [e''|] eqn:He; [|done]. injection Hg as ->.
  assert (u64 (lastCommitted r + 1) = lastCommitted r + 1) as Hu.
  { apply u64_id. unfold is_u64. pose proof (vi_committed _ Hr). pose proof (wf_bound _ (vi_log _ Hr)).
    pose proof (vi_start _ Hr). destruct (entry_of_Some _ _ _ (vi_log _ Hr) He) as [Hrange _].
    destruct (decide (lastCommitted r + 1 = 2 ^ 64)) as [Heq|]; [|lia].
    rewrite Heq in Hrange. unfold u64 in Hrange. rewrite Z.mod_same in Hrange; lia. }
  rewrite Hu in *.
  apply vr_bind_inv in Hk as (res & ? & r1 & ? & (a & -> & ->)%execute_inv & Hk & ->).
  apply vr_bind_inv in Hk as ([] & a6 & r1 & ? & Hl & Hk & ->).
  unfold on_log in Hl. apply vr_bind_inv in Hl as (r0 & ? & r2 & ? & [= <- <- <-] & Hl & ->). simpl in Hl.
  apply vr_bind_inv in Hl as (l & ? & r2 & ? & Hs & [= <- <-] & ->).
  unfold lift in Hs. destruct (log_SetStatus _ _ _) as [[b l']|] eqn:Hss; [|done]. injection Hs as <- <- <-.
  apply vr_bind_inv in Hk as ([] & ? & r3 & ? & [= <- <-] & Hk & ->).
  exists e, a, l', b. unfold same_frame.
  destruct (clientAddresses r !! req_clientid (le_request e)); injection Hk; intros; subst;
    split_and!; try done; repeat constructor.
Qed.

Lemma ok_commit_one : ok commit_one.
Proof.
  intros r x acts r' Hr (e & a & l & b & He & _ & Hs & Ha & Hl & Hc & Hv & Hcf & Hi & _)%commit_one_inv; [|done].
  destruct (log_SetStatus_wf (log r) _ LOG_STATE_COMMITTED e (vi_log _ Hr) He) as (l' & Hs' & Hw & Hlast & Hst & Hent).
  rewrite Hs in Hs'. injection Hs' as _ <-. pose proof (vi_committed _ Hr) as Hrange. pose proof (vi_start _ Hr) as H1.
  destruct (entry_of_Some _ _ _ (vi_log _ Hr) He) as [Hop Hopn].
  rewrite !LastOpnum_wf in Hlast by (done || apply Hr). rewrite LastOpnum_wf in Hop by apply Hr.
  assert (∀ i, entries l !! i = if decide (Z.of_nat i = lastCommitted r) then Some (with_state e LOG_STATE_COMMITTED)
                                else entries (log r) !! i) as Hlk.
  { intros i. specialize (Hent (1 + Z.of_nat i)). unfold entry_of in Hent. rewrite Hst, H1 in Hent.
    destruct (Z.ltb_spec (1 + Z.of_nat i) 1); [lia|]. replace (Z.to_nat (1 + Z.of_nat i - 1)) with i in Hent by lia.
    rewrite Hent. destruct (decide (Z.of_nat i = lastCommitted r)); [rewrite decide_True by lia|rewrite decide_False by lia]; done. }
  unfold steady, executed. rewrite Ha. simpl. split_and!; try done; [|by eexists].
  split; rewrite ?Hl, ?Hc; [done|congruence| |lia|].
  - unfold executed. rewrite Ha. simpl. rewrite (vi_exec _ Hr).
    replace (Z.to_nat (lastCommitted r + 1)) with (S (Z.to_nat (lastCommitted r))) by lia.
    rewrite (take_S_r _ _ (with_state e LOG_STATE_COMMITTED)) by (rewrite Hlk, decide_True by lia; done).
    rewrite fmap_app. f_equal; [|unfold op_of; simpl; by rewrite Hopn].
    f_equal. apply list_eq. intros i. destruct (decide (i < Z.to_nat (lastCommitted r))%nat).
    + rewrite !lookup_take_lt by done. by rewrite Hlk, decide_False by lia.
    + by rewrite !lookup_take_ge by lia.
  - intros i e'. rewrite Hlk. case_decide; [intros [= <-]; simpl; split; [lia|done]|].
    intros Hi'. rewrite (vi_state _ Hr i e' Hi'). lia.
Qed.

Lemma ok_commit_loop n : ok (commit_loop n).
Proof. induction n; simpl; [apply ok_ret|]. apply ok_bind; [apply ok_commit_one|done]. Qed.

Lemma ok_upcall {X} (f : (A * list (Z * string)) → outcome (X * (A * list (Z * string)))) :
  (∀ a x a', f a = Ret (x, a') → a'.2 = a.2) →
  ok (r ← get; up ← lift (f (app r)); modify (set_app up.2);; mret up.1).
Proof.
  intros Hf r x acts r' Hr. intros (r0 & ? & r1 & ? & [= <- <- <-] & Hk & _)%vr_bind_inv.
  apply vr_bind_inv in Hk as (up & ? & r1 & ? & Hu & Hk & _). unfold lift in Hu.
  destruct (f (app r)) as [[y a]|] eqn:Hfa; [|done]. injection Hu as <- _ <-. apply Hf in Hfa.
  apply vr_bind_inv in Hk as ([] & ? & r2 & ? & [= _ <-] & [=] & _). subst. simpl.
  destruct Hr as [? ? He ? ?]. unfold steady, executed in *. simpl in *.
  split_and!; try done; [|by rewrite Hfa]. split; try done. unfold executed. simpl. by rewrite Hfa.
Qed.

End safety.

(** ** The methods keep the invariant *)

Create HintDb vr.
#[export] Hint Resolve ok_ret ok_get ok_send ok_panic ok_check ok_lift ok_commit_one ok_commit_loop : vr.

(** Follow the structure of a method down to its primitive steps. *)
Ltac vr_ok :=
  repeat first
    [ solve [eauto with vr]
    | apply ok_modify; intros ?; reflexivity
    | apply ok_bind; [|intros ?]
    | apply ok_each; intros ?
    | match goal with |- ok (match ?x with _ => _ end) => destruct x end
    | progress cbv zeta ].

Section methods_ok.
Context {A : Type} `{AppReplica A} `{SHA1}.
Notation VRA := (VR (A * list (Z * string))).

Lemma ok_leader_upcall opnum op : ok (leader_upcall (A := A * list (Z * string)) opnum op).
Proof.
  apply (ok_upcall (λ a, LeaderUpcall a opnum op)). intros a x a' Hu.
  by apply bind_Ret_inv in Hu as (? & _ & [= _ <-]).
Qed.
Lemma ok_execute_unlogged req : ok (execute_unlogged (A := A * list (Z * string)) req).
Proof.
  apply (ok_upcall (λ a, ExecuteUnlogged a req)). intros a x a' Hu.
  by apply bind_Ret_inv in Hu as (? & _ & [= _ <-]).
Qed.

Lemma ok_append vs req : ok (A := A) (on_log (λ l, log_Append l vs req LOG_STATE_PREPARED)).
Proof. apply ok_on_log. intros l l' Hl. by apply log_Append_extends. Qed.
Lemma ok_remove op : ok (A := A) (on_log (λ l, RemoveAfter l op)).
Proof. apply ok_on_log. intros l l'. apply RemoveAfter_extends. Qed.
Lemma ok_install es : ok (A := A) (on_log (λ l, Install l es)).
Proof. apply ok_on_log. intros l l'. apply Install_extends. Qed.

Lemma ok_UpdateClientTable req : ok (A := A) (UpdateClientTable req).
Proof. unfold UpdateClientTable. vr_ok. Qed.
Lemma ok_CommitUpTo upto : ok (A := A) (CommitUpTo upto).
Proof. unfold CommitUpTo. vr_ok. Qed.
Lemma ok_RequestStateTransfer : ok (A := A) RequestStateTransfer.
Proof. unfold RequestStateTransfer. vr_ok. Qed.
Lemma ok_send_prepare_ok v op : ok (A := A) (send_prepare_ok v op).
Proof. unfold send_prepare_ok. vr_ok. Qed.
End methods_ok.

#[export] Hint Resolve ok_leader_upcall ok_execute_unlogged ok_append ok_remove ok_install
  ok_UpdateClientTable ok_CommitUpTo ok_RequestStateTransfer ok_send_prepare_ok : vr.

Section handlers_ok.
Context {A : Type} `{AppReplica A} `{SHA1}.
Notation replica := (VRReplica (A * list (Z * string))).
Notation VRA := (VR (A * list (Z * string))).
Implicit Types r : replica.

Lemma ok_SendPrepareOKs op : ok (A := A) (SendPrepareOKs op).
Proof. unfold SendPrepareOKs. vr_ok. Qed.
Lemma ok_CloseBatch : ok (A := A) CloseBatch.
Proof. unfold CloseBatch. vr_ok. Qed.
Lemma ok_SendNullCommit : ok (A := A) SendNullCommit.
Proof. unfold SendNullCommit. vr_ok. Qed.
Lemma ok_ResendPrepare : ok (A := A) ResendPrepare.
Proof. unfold ResendPrepare. vr_ok. Qed.
Lemma ok_prepare_loop v op reqs : ok (A := A) (prepare_loop v op reqs).
Proof. revert op. induction reqs; intros op; simpl; vr_ok. Qed.
Lemma ok_transfer_loop op es : ok (A := A) (transfer_loop op es).
Proof. revert op. induction es; intros op; simpl; vr_ok. Qed.
Lemma ok_install_log op es : ok (A := A) (install_log op es).
Proof. unfold install_log. vr_ok. Qed.

#[local] Hint Resolve ok_SendPrepareOKs ok_CloseBatch ok_prepare_loop ok_transfer_loop ok_install_log : vr.

Lemma ok_HandleRequest remote req : ok (A := A) (HandleRequest remote req).
Proof. unfold HandleRequest. vr_ok. Qed.
Lemma ok_HandleUnloggedRequest remote req : ok (A := A) (HandleUnloggedRequest remote req).
Proof. unfold HandleUnloggedRequest. vr_ok. Qed.
Lemma ok_HandlePrepare remote msg : ok (A := A) (HandlePrepare remote msg).
Proof. unfold HandlePrepare. vr_ok. Qed.
Lemma ok_HandlePrepareOK remote msg : ok (A := A) (HandlePrepareOK remote msg).
Proof. unfold HandlePrepareOK. vr_ok. Qed.
Lemma ok_HandleCommit remote msg : ok (A := A) (HandleCommit remote msg).
Proof. unfold HandleCommit. vr_ok. Qed.
Lemma ok_HandleRequestStateTransfer remote msg : ok (A := A) (HandleRequestStateTransfer remote msg).
Proof. unfold HandleRequestStateTransfer. vr_ok. Qed.

#[local] Hint Resolve ok_HandlePrepare : vr.

(** ** Changes of view *)

(** [m] runs from a view of at most [v] and stays there. *)
Definition upto (v : Z) {X} (m : VRA X) : Prop :=
  ∀ r x acts r', vr_inv r → view r ≤ v → m r = Ret (x, (acts, r')) → advance r r' ∧ view r' ≤ v.

Lemma upto_ok {X} v (m : VRA X) : ok m → upto v m.
Proof.
  intros Hm r x acts r' Hr Hv Hx. pose proof (Hm _ _ _ _ Hr Hx) as Hs.
  split; [by apply steady_advance|]. destruct Hs as (_ & -> & _). done.
Qed.

Lemma upto_bind {X Y} v (m : VRA X) (k : X → VRA Y) :
  upto v m → (∀ x, upto v (k x)) → upto v (m ≫= k).
Proof.
  intros Hm Hk r y acts r2 Hr Hv (x & a1 & r1 & a2 & H1 & H2 & _)%vr_bind_inv.
  destruct (Hm _ _ _ _ Hr Hv H1) as [Ha Hv1].
  destruct (Hk x _ _ _ _ (proj1 Ha) Hv1 H2) as [Ha2 Hv2]. split; [by eapply advance_trans|done].
Qed.

Lemma upto_set_view v : upto v (modify (set_view v)).
Proof.
  intros r x acts r' [? ? ? ? ?] Hv [=]; subst. unfold advance, executed. simpl.
  split; [|done]. by split_and!.
Qed.

Lemma upto_EnterView v : upto v (EnterView (A := A * list (Z * string)) v).
Proof. unfold EnterView. apply upto_bind; [apply upto_set_view|]. intros _. apply upto_ok. vr_ok. Qed.

Lemma upto_StartViewChange v : upto v (StartViewChange (A := A * list (Z * string)) v).
Proof. unfold StartViewChange. apply upto_bind; [apply upto_set_view|]. intros _. apply upto_ok. vr_ok. Qed.

Ltac vr_upto :=
  repeat first
    [ apply upto_EnterView
    | apply upto_StartViewChange
    | solve [apply upto_ok; vr_ok]
    | apply upto_bind; [|intros ?]
    | match goal with |- upto _ (match ?x with _ => _ end) => destruct x end
    | progress cbv zeta ].

Definition ok_advance {X} (m : VRA X) : Prop :=
  ∀ r x acts r', vr_inv r → m r = Ret (x, (acts, r')) → advance r r'.

Lemma ok_is_advance {X} (m : VRA X) : ok m → ok_advance m.
Proof. intros Hm r x acts r' Hr Hx. by eapply steady_advance, Hm. Qed.

(** A handler tests the view first. *)
Lemma advance_guard v (k : replica → VRA unit) :
  (∀ r0, upto v (k r0)) → ok_advance (r ← get; if (v <? view r)%Z then mret () else k r).
Proof.
  intros Hk r x acts r' Hr (r0 & ? & r1 & ? & [= <- <- <-] & Hx & _)%vr_bind_inv.
  destruct (Z.ltb_spec v (view r)); [|by eapply Hk]. injection Hx; intros; subst. by apply steady_advance, steady_refl.
Qed.

Lemma advance_HandleStateTransfer remote msg : ok_advance (HandleStateTransfer (A := A * list (Z * string)) remote msg).
Proof. apply advance_guard. intros r0. vr_upto. Qed.
Lemma advance_HandleStartViewChange remote msg : ok_advance (HandleStartViewChange (A := A * list (Z * string)) remote msg).
Proof. apply advance_guard. intros r0. vr_upto. Qed.
Lemma advance_HandleDoViewChange remote msg : ok_advance (HandleDoViewChange (A := A * list (Z * string)) remote msg).
Proof. apply advance_guard. intros r0. vr_upto. Qed.
Lemma advance_HandleStartView remote msg : ok_advance (HandleStartView (A := A * list (Z * string)) remote msg).
Proof. apply advance_guard. intros r0. vr_upto. Qed.

(** ** Runs of a replica *)

(** A message from anywhere, with any content, or a timer that fires.  View
    numbers stay below 2^64. *)
Inductive vr_step r : replica → Prop :=
| vr_receive remote m acts r' : ReceiveMessage remote m r = Ret ((), (acts, r')) → vr_step r r'
| vr_timer t acts r' : timer_active r t = true → view r + 1 < 2 ^ 64 →
    timer_callback t r = Ret ((), (acts, r')) → vr_step r r'.

Lemma advance_ReceiveMessage remote m : ok_advance (ReceiveMessage (A := A * list (Z * string)) remote m).
Proof.
  destruct m; simpl; auto using ok_is_advance, ok_HandleRequest, ok_HandleUnloggedRequest, ok_HandlePrepareOK,
    ok_HandleCommit, ok_HandleRequestStateTransfer, ok_HandlePrepare, advance_HandleStateTransfer,
    advance_HandleStartViewChange, advance_HandleDoViewChange, advance_HandleStartView;
    apply ok_is_advance, ok_panic.
Qed.

Lemma vr_step_advance r r' : vr_inv r → 0 ≤ view r → vr_step r r' → advance r r'.
Proof.
  intros Hr Hv [remote m acts r1 Hm|t acts r1 _ Hb Ht]; [by eapply advance_ReceiveMessage|].
  destruct t; simpl in Ht.
  - apply vr_bind_inv in Ht as (r0 & ? & r2 & ? & [= <- <- <-] & Ht & _).
    rewrite u64_id in Ht by (unfold is_u64; lia). eapply upto_StartViewChange; [done| |exact Ht]. lia.
  - eapply ok_is_advance; [apply ok_SendNullCommit|done|exact Ht].
  - revert Hr Ht. apply ok_is_advance. vr_ok.
  - eapply ok_is_advance; [apply ok_ResendPrepare|done|exact Ht].
  - eapply ok_is_advance; [apply ok_CloseBatch|done|exact Ht].
Qed.

Lemma vr_inv_new c idx bs (a : A) : vr_inv (new_vr c idx bs (a, [] : list (Z * string))).
Proof. by split. Qed.

Lemma vr_steps_advance r r' : vr_inv r → 0 ≤ view r → rtc vr_step r r' → advance r r'.
Proof.
  intros Hr Hv Hrun. induction Hrun as [r|r1 r2 r3 H12 _ IH]; [by apply steady_advance, steady_refl|].
  pose proof (vr_step_advance _ _ Hr Hv H12) as Ha. eapply advance_trans; [exact Ha|].
  destruct Ha as (? & ? & _). apply IH; [done|lia].
Qed.

Lemma executed_numbers r : vr_inv r → (executed r).*1 = seqZ 1 (lastCommitted r).
Proof.
  intros [Hl Hs He Hc _]. rewrite He. apply list_eq. intros i. rewrite !list_lookup_fmap.
  destruct (decide (i < Z.to_nat (lastCommitted r))%nat) as [Hi|Hi].
  - rewrite lookup_take_lt by done. destruct (lookup_lt_is_Some_2 (entries (log r)) i) as [e Hei]; [lia|].
    rewrite Hei. simpl. rewrite (wf_opnum _ Hl _ _ Hei), Hs. symmetry. apply lookup_seqZ. lia.
  - rewrite lookup_take_ge by lia. simpl. symmetry. apply lookup_ge_None. rewrite length_seqZ. lia.
Qed.

End handlers_ok.

(** C17. Whatever messages a replica receives and whichever of its timers fire, it
    executes the operations 1, 2, ..., [lastCommitted] in this order and each
    once; what it has executed is the committed prefix of its log; and later
    steps, view changes and log transfers included, never undo an executed
    operation or go back to an earlier view. *)
Theorem vr_executes_in_order {A} `{AppReplica A} `{SHA1} c idx bs (a : A)
    (r : VRReplica (A * list (Z * string))) :
  rtc vr_step (new_vr c idx bs (a, [])) r →
  executed r = op_of <$> take (Z.to_nat (lastCommitted r)) (entries (log r)) ∧
  (executed r).*1 = seqZ 1 (lastCommitted r) ∧
  ∀ r', rtc vr_step r r' → view r ≤ view r' ∧ executed r `prefix_of` executed r'.
Proof.
  intros Hrun. apply vr_steps_advance in Hrun as (Hr & Hv & _); [|apply vr_inv_new|done].
  split; [apply Hr|]. split; [by apply executed_numbers|]. intros r' Hrun'.
  by apply vr_steps_advance in Hrun' as (_ & ? & ? & _).
Qed.

Definition demo_vr : VRReplica (unit * list (Z * string)) := new_vr demo_config 1 1 (tt, []).

(** The follower has prepared and committed one operation. *)
Definition demo_vr_run : outcome (unit * (list action * VRReplica (unit * list (Z * string)))) :=
  (@HandlePrepare _ no_sha1 "r0" (mkPrepare 0 1 1 [mkReq "w" 7 1]);;
   @HandleCommit _ (@traced_app _ base_app) "r0" (mkCommit 0 1)) demo_vr.

Lemma vr_executes_in_order_witness :
  ∃ r, rtc (@vr_step _ base_app no_sha1) demo_vr r ∧ executed r = [(1, "w")] ∧
    (executed r).*1 = seqZ 1 (lastCommitted r).
Proof.
  destruct demo_vr_run as [[[] [acts r]]|] eqn:Hrun; [|discriminate Hrun].
  apply vr_bind_inv in Hrun as ([] & a1 & r1 & a2 & H1 & H2 & _).
  assert (rtc (@vr_step _ base_app no_sha1) demo_vr r) as Hr.
  { eapply rtc_l; [exact (@vr_receive _ base_app no_sha1 _ "r0" (Prepare (mkPrepare 0 1 1 [mkReq "w" 7 1])) _ _ H1)|].
    apply rtc_once. exact (@vr_receive _ base_app no_sha1 _ "r0" (Commit (mkCommit 0 1)) _ _ H2). }
  exists r. split; [exact Hr|].
  destruct (@vr_executes_in_order unit base_app no_sha1 demo_config 1 1 tt r Hr) as (_ & Hn & _).
  split; [|exact Hn]. vm_compute in H1. injection H1 as _ <-. vm_compute in H2. injection H2 as _ <-. reflexivity.
Defined.
