(* ===== verification/VRNet.v ===== *)
(** * A group of VR replicas on a network

    The replicas exchange messages over a network that may delay, reorder,
    duplicate and lose them.  Runs of the group exhibit where the view change
    goes wrong. *)

From stdpp Require Import pretty.
From S2P Require Import Prelude Quorum IRRecord AppReplica VRLog VRReplica VRSafety.

(** ** The network *)

(** The address of replica [i]. *)
Definition replica_addr (i : Z) : address := "replica" +:+ pretty i.

(** The replicas, and every message sent so far with its source and destination. *)
Record net (A : Type) := mkNet {
  replicas_of : gmap Z (VRReplica A);
  pool : list (address * address * vr_message)
}.
Arguments mkNet {_}.
Arguments replicas_of {_}.
Arguments pool {_}.

(** What an action of replica [i] puts on the network; [SendMessageToAll] skips
    the sender. *)
Definition emit (c : Configuration) (i : Z) (a : action) : list (address * address * vr_message) :=
  match a with
  | SendMessage dst m => [(replica_addr i, dst, m)]
  | SendMessageToReplica j m => [(replica_addr i, replica_addr j, m)]
  | SendMessageToAll m =>
      (λ j, (replica_addr i, replica_addr j, m)) <$> filter (λ j, j ≠ i) (seqZ 0 (n c))
  end.

(** A step: a message of the pool is delivered to replica [i], a client at [src]
    sends a request, or a timer fires. *)
Inductive net_event :=
| Deliver (i : Z) (k : nat)
| ClientRequest (i : Z) (src : address) (req : Request)
| ClientUnlogged (i : Z) (src : address) (req : Request)
| Fire (i : Z) (t : timer).

Section net.
Context {A : Type} `{AppReplica A} `{SHA1} (c : Configuration).

Definition net_run (s : net A) (i : Z) (m : VRReplica A → VR A unit) : option (net A) :=
  r ← replicas_of s !! i;
  match m r r with
  | Ret (_, (acts, r')) =>
      Some (mkNet (<[i := r']> (replicas_of s)) (pool s ++ (acts ≫= emit c i)))
  | Panic => None
  end.

Definition net_step (s : net A) (ev : net_event) : option (net A) :=
  match ev with
  | Deliver i k =>
      p ← pool s !! k;
      let '(src, dst, m) := p in
      if decide (dst = replica_addr i) then net_run s i (λ _, ReceiveMessage src m) else None
  | ClientRequest i src req => net_run s i (λ _, ReceiveMessage src (RequestMessage req))
  | ClientUnlogged i src req => net_run s i (λ _, ReceiveMessage src (UnloggedRequestMessage req))
  | Fire i t => net_run s i (λ r, if timer_active r t then timer_callback t else panic)
  end.

(** A schedule. *)
Definition net_steps (s : net A) (evs : list net_event) : option (net A) :=
  foldl (λ s ev, s ← s; net_step s ev) (Some s) evs.

(** The group at the start. *)
Definition new_net (bs : Z) (a : A) : net A :=
  mkNet (list_to_map ((λ i, (i, new_vr c i bs a)) <$> seqZ 0 (n c))) [].

End net.

(** ** Three replicas *)

Definition demo_group : net (unit * list (Z * string)) := new_net demo_config 1 (tt, []).

Definition demo_steps : list net_event → option (net (unit * list (Z * string))) :=
  @net_steps _ (@traced_app _ base_app) no_sha1 demo_config demo_group.

(** The operations replica [i] has executed. *)
Definition executed_at (s : net (unit * list (Z * string))) (i : Z) : option (list (Z * string)) :=
  executed <$> replicas_of s !! i.

(** The operations of replica [i]'s log. *)
Definition logged_at (s : net (unit * list (Z * string))) (i : Z) : option (list string) :=
  (λ r, (λ e, req_op (le_request e)) <$> entries (log r)) <$> replicas_of s !! i.

(** C31. The view change loses a committed operation, and two replicas execute
    different operations under the same number.  A replica reports as its last
    normal view the view of its last log entry, so the log that replica 0 and 2
    carried through view 3, where operation "a" was committed, counts as older
    than replica 1's uncommitted "b" of view 1, and view 4 starts with "b". *)
Theorem vr_agreement_violated :
  ∃ evs s, demo_steps evs = Some s ∧
    executed_at s 0 = Some [(1, "a")] ∧ executed_at s 1 = Some [(1, "b")].
Proof.
  exists [ClientRequest 0 "client7" (mkReq "a" 7 1);
     (* view 1: replicas 1 and 2; "b" reaches nobody *)
     Fire 1 ViewChangeTimer; Fire 2 ViewChangeTimer; Deliver 1 5; Deliver 2 3; Deliver 1 6;
     ClientRequest 1 "client8" (mkReq "b" 8 1);
     (* view 3: replicas 0 and 2; "a" is committed *)
     Fire 2 ViewChangeTimer; Fire 2 ViewChangeTimer; Deliver 0 13; Deliver 2 16; Deliver 0 17;
     Deliver 2 19; Deliver 0 20;
     (* view 4: replicas 1 and 2; "b" is committed *)
     Fire 2 ViewChangeTimer; Deliver 1 25; Deliver 2 27; Deliver 1 28; Deliver 2 30; Deliver 1 31].
  eexists. split; [vm_compute; reflexivity|]. split; vm_compute; reflexivity.
Qed.

(** Two more ways the view change stops a new leader.  Replica 2 has
    prepared an operation that replica 1 has not.  Replica 1 takes it over as the
    leader of view 1, but keeps the batch boundary of its old log, and fails the
    assertion on the view of the batch's entries at its first request.  If the
    DOVIEWCHANGE message reaches it before any STARTVIEWCHANGE message, it
    dereferences the end of the empty map of those messages. *)
Theorem vr_new_leader_stops :
  (∃ s r, demo_steps [ClientRequest 0 "client7" (mkReq "a" 7 1); Deliver 2 1;
             Fire 1 ViewChangeTimer; Fire 2 ViewChangeTimer; Deliver 1 6; Deliver 2 4; Deliver 1 7] = Some s ∧
     replicas_of s !! 1 = Some r ∧ AmLeader r = true ∧ status r = STATUS_NORMAL ∧
     @ReceiveMessage _ (@traced_app _ base_app) no_sha1 "client8" (RequestMessage (mkReq "b" 8 1)) r = Panic) ∧
  (∃ s r src m, demo_steps [ClientRequest 0 "client7" (mkReq "a" 7 1); Deliver 2 1;
             Fire 1 ViewChangeTimer; Fire 2 ViewChangeTimer; Deliver 2 4] = Some s ∧
     replicas_of s !! 1 = Some r ∧ (src, replica_addr 1, DoViewChange m) ∈ pool s ∧
     @ReceiveMessage _ (@traced_app _ base_app) no_sha1 src (DoViewChange m) r = Panic).
Proof.
  split.
  - do 2 eexists. split; [vm_compute; reflexivity|]. split; [vm_compute; reflexivity|].
    split; [reflexivity|]. split; [reflexivity|vm_compute; reflexivity].
  - do 4 eexists. split; [vm_compute; reflexivity|]. split; [vm_compute; reflexivity|].
    split; [do 7 apply list_elem_of_further; apply list_elem_of_here|vm_compute; reflexivity].
Qed.

(** The leader of view 1 commits an operation that no other replica has.  The
    answer to the state transfer request it sent as a follower makes it send a
    PREPAREOK message for its last operation, to itself, and it counts as one of
    the [f] acknowledgements of the other replicas. *)
Theorem vr_leader_commits_alone :
  ∃ evs s, demo_steps evs = Some s ∧ executed_at s 1 = Some [(1, "c")] ∧
    logged_at s 0 = Some ["a"; "b"] ∧ logged_at s 1 = Some ["c"] ∧ logged_at s 2 = Some [].
Proof.
  exists [ClientRequest 0 "client7" (mkReq "a" 7 1); ClientRequest 0 "client8" (mkReq "b" 8 1);
     (* replica 1 misses "a" and asks for a state transfer *)
     Deliver 1 2;
     (* view 1: replicas 1 and 2 *)
     Fire 1 ViewChangeTimer; Fire 2 ViewChangeTimer; Deliver 1 9; Deliver 2 7; Deliver 1 10; Deliver 2 12;
     ClientRequest 1 "client9" (mkReq "c" 9 1);
     (* replica 2 answers the request; replica 1 acknowledges "c" to itself *)
     Deliver 2 5; Deliver 1 15; Deliver 1 16].
  eexists. split; [vm_compute; reflexivity|]. split_and!; vm_compute; reflexivity.
Qed.
