(* ===== verification/VRNormal.v ===== *)
(** * The normal case of viewstamped replication

    A group of replicas whose view change timers do not fire.  Every log is a
    prefix of the leader's, and what a replica executes is in the logs of a
    quorum. *)

From stdpp Require Import pretty.
From S2P Require Import Prelude Quorum IRRecord AppReplica VRLog VRReplica VRSafety VRNet.

(** Any event but a view change timer. *)
Definition normal_event (ev : net_event) : Prop := ∀ i, ev ≠ Fire i ViewChangeTimer.

Section normal.
Context {A : Type} `{AppReplica A} `{SHA1} (c : Configuration) (Hc : config_ok c).
Notation replica := (VRReplica (A * list (Z * string))).
Notation VRA := (VR (A * list (Z * string))).
Notation key := (viewstamp * Request)%type.
Implicit Types r : replica.
Implicit Types L : list key.

Definition keys r : list key := entry_key <$> entries (log r).

(** Operation [op] of the leader's log is [req], of view 0. *)
Definition in_log L (op : Z) (req : Request) : Prop :=
  1 ≤ op ∧ L !! Z.to_nat (op - 1) = Some (mkVS 0 op, req).

Definition prepare_ok L (p : PrepareMessage) : Prop :=
  prep_view p = 0 ∧ (prep_request p = [] → prep_opnum p = 0 ∧ prep_batchstart p = 0) ∧
  ∀ k q, prep_request p !! k = Some q → in_log L (prep_batchstart p + Z.of_nat k) q.

Definition entry_ok L (e : LogEntryProto) : Prop :=
  lep_view e = 0 ∧ in_log L (lep_opnum e) (lep_request e).

(** A replica of the group: [L] are the keys of the leader's log, [C] is what it
    has committed. *)
Record good L (C i : Z) r : Prop := {
  g_inv : vr_inv r;
  g_view : view r = 0;
  g_status : status r = STATUS_NORMAL;
  g_config : configuration r = c;
  g_idx : myIdx r = i;
  g_last : lastOp r = Z.of_nat (length (entries (log r)));
  g_keys : keys r `prefix_of` L;
  g_comm : lastCommitted r ≤ C;
  g_prep : prepare_ok L (lastPrepare r)
}.

(** What replica [i] with last operation [lo] sends, a state transfer going to [to]. *)
Definition sent_ok L (C i lo : Z) (to : address) (a : action) : Prop :=
  match a with
  | SendMessage _ (ReplyMsg _) | SendMessage _ (UnloggedReplyMessage _ _) => True
  | SendMessage dst (StateTransfer m) =>
      dst = to ∧ st_view m = 0 ∧ st_opnum m ≤ C ∧ Forall (entry_ok L) (st_entries m)
  | SendMessageToReplica _ (PrepareOK m) => ok_view m = 0 ∧ ok_replicaIdx m = i ∧ ok_opnum m ≤ lo ∧ i ≠ 0
  | SendMessageToAll (RequestStateTransferMsg m) => rst_view m = 0 ∧ i ≠ 0
  | SendMessageToAll (Prepare p) => prepare_ok L p
  | SendMessageToAll (Commit m) => com_view m = 0 ∧ com_opnum m ≤ C
  | _ => False
  end.

Lemma in_log_mono L L' op req : L `prefix_of` L' → in_log L op req → in_log L' op req.
Proof. intros Hp [Hop Hl]. split; [done|]. by eapply prefix_lookup_Some. Qed.
Lemma prepare_ok_mono L L' p : L `prefix_of` L' → prepare_ok L p → prepare_ok L' p.
Proof. intros Hp (Hv & Hb & Hr). split_and!; [done|done|]. intros k q Hk. by eapply in_log_mono, Hr. Qed.
Lemma entry_ok_mono L L' e : L `prefix_of` L' → entry_ok L e → entry_ok L' e.
Proof. intros Hp [Hv Hr]. split; [done|]. by eapply in_log_mono. Qed.

Lemma good_mono L L' C C' i r : L `prefix_of` L' → C ≤ C' → good L C i r → good L' C' i r.
Proof.
  intros Hp HC [? ? ? ? ? ? ? ? ?]. split; try done; [by etrans|lia|by eapply prepare_ok_mono].
Qed.

Lemma sent_ok_mono L L' C C' i lo lo' to a :
  L `prefix_of` L' → C ≤ C' → lo ≤ lo' → sent_ok L C i lo to a → sent_ok L' C' i lo' to a.
Proof.
  intros Hp HC Hlo. destruct a as [dst m|j m|m]; destruct m; simpl; try done.
  - intros (? & ? & ? & He). split_and!; try done; [lia|]. eapply Forall_impl; [exact He|].
    intros e. by apply entry_ok_mono.
  - intros (? & ? & ? & ?). split_and!; done || lia.
  - by apply prepare_ok_mono.
  - intros (? & ?). split; [done|lia].
Qed.

(** The members the invariant is about. *)
Definition essence r :=
  (log r, lastCommitted r, lastOp r, app r, (view r, status r, configuration r, myIdx r, lastPrepare r)).

Lemma good_essence L C i r r' : essence r' = essence r → good L C i r → good L C i r'.
Proof.
  unfold essence. intros [= Hl Hco Hlo Ha Hv Hs Hcf Hi Hp] [Hinv ? ? ? ? ? ? ? ?].
  assert (vr_inv r') as Hinv'.
  { destruct Hinv as [? ? He ? ?]. unfold executed in He. split; unfold executed; rewrite ?Hl, ?Hco, ?Ha; done. }
  split; unfold keys in *; try done; congruence.
Qed.

(** ** Committing *)

Lemma SetStatus_keys (l l' : Log) op st b :
  log_SetStatus l op st = Ret (b, l') → entry_key <$> entries l' = entry_key <$> entries l.
Proof.
  unfold log_SetStatus. rewrite bind_Ret_inv. intros ([e|] & _ & Hs); injection Hs as _ <-; [|done].
  simpl. apply list_eq. intros i. rewrite !list_lookup_fmap.
  destruct (decide (Z.to_nat (op - start l) = i)) as [<-|Hne].
  - rewrite list_lookup_alter_eq. by destruct (entries l !! _).
  - by rewrite list_lookup_alter_ne.
Qed.

Lemma commit_loop_spec k r x acts r' :
  vr_inv r → commit_loop k r = Ret (x, (acts, r')) →
  steady r r' ∧ lastCommitted r' = lastCommitted r + Z.of_nat k ∧ keys r' = keys r ∧
  same_frame r r' ∧ Forall is_reply acts.
Proof.
  revert r acts. induction k as [|k IH]; intros r acts Hr.
  { intros [=]; subst. unfold same_frame. split; [by apply steady_refl|]. split_and!; done || lia. }
  simpl. intros ([] & a1 & r1 & a2 & H1 & H2 & ->)%vr_bind_inv.
  pose proof (ok_commit_one _ _ _ _ Hr H1) as Hs.
  apply commit_one_inv in H1 as (e & a & l & b & _ & _ & Hss & _ & Hl & Hlc & _ & _ & _ & Hf & Ha); [|done].
  apply IH in H2 as (Hs2 & Hlc2 & Hk2 & Hf2 & Ha2); [|apply Hs].
  destruct Hf as (? & ? & ? & ? & ?), Hf2 as (? & ? & ? & ? & ?). unfold same_frame.
  split; [by eapply steady_trans|]. split; [lia|]. split; [|split; [split_and!; congruence|by apply Forall_app]].
  rewrite Hk2. unfold keys. rewrite Hl. by eapply SetStatus_keys.
Qed.

Lemma CommitUpTo_spec upto r x acts r' :
  vr_inv r → CommitUpTo upto r = Ret (x, (acts, r')) →
  steady r r' ∧ lastCommitted r' = Z.max (lastCommitted r) upto ∧ keys r' = keys r ∧
  same_frame r r' ∧ Forall is_reply acts.
Proof.
  intros Hr (r0 & ? & r1 & ? & [= <- <- <-] & Hk & ->)%vr_bind_inv.
  apply commit_loop_spec in Hk as (? & ? & ? & ? & ?); [|done]. split_and!; try done. lia.
Qed.

Lemma commit_good L C i lo to upto r x acts r' :
  good L C i r → CommitUpTo upto r = Ret (x, (acts, r')) → Z.max (lastCommitted r) upto ≤ C →
  good L C i r' ∧ lastOp r' = lastOp r ∧ lastCommitted r' = Z.max (lastCommitted r) upto ∧ keys r' = keys r ∧
  prepareOKQuorum r' = prepareOKQuorum r ∧ lastBatchEnd r' = lastBatchEnd r ∧
  Forall (sent_ok L C i lo to) acts.
Proof.
  intros [? ? ? ? ? ? ? ? ?] ((? & ? & _ & ? & ?) & Hlc & Hk & (Ho & ? & Hp & Hq & Hbe) & Ha)%CommitUpTo_spec HC; [|done].
  split_and!; try done.
  - split; rewrite ?Hk, ?Hp; try done; try congruence.
    apply (f_equal length) in Hk. unfold keys in Hk. rewrite !length_fmap in Hk. lia.
  - eapply Forall_impl; [exact Ha|]. intros [? []|? ?|?]; done.
Qed.

(** ** Steps of one replica *)

Section one.
(** [remote] is who sent the message being handled, [to] whom a state transfer
    may go to. *)
Context (L : list key) (C i : Z) (remote to : address).
Context (HL : ∀ k x, L !! k = Some x → vs_view x.1 = 0).

(** From the good state [r], [m] leads to a good state, and its messages are in
    order. *)
Definition fine_at r {X} (m : VRA X) : Prop :=
  ∀ x acts r', good L C i r → m r = Ret (x, (acts, r')) →
    good L C i r' ∧ lastOp r ≤ lastOp r' ∧ Forall (sent_ok L C i (lastOp r') to) acts.

Definition fine {X} (m : VRA X) : Prop := ∀ r, fine_at r m.

Lemma at_bind {X Y} r (m : VRA X) (k : X → VRA Y) : fine_at r m → (∀ x, fine (k x)) → fine_at r (m ≫= k).
Proof.
  intros Hm Hk y acts r2 Hr (x & a1 & r1 & a2 & H1 & H2 & ->)%vr_bind_inv.
  destruct (Hm _ _ _ Hr H1) as (Hr1 & Hlo1 & Ha1). destruct (Hk _ _ _ _ _ Hr1 H2) as (Hr2 & Hlo2 & Ha2).
  split_and!; [done|lia|]. apply Forall_app. split; [|done]. eapply Forall_impl; [exact Ha1|].
  intros a. by apply sent_ok_mono.
Qed.

Lemma fine_bind {X Y} (m : VRA X) (k : X → VRA Y) : fine m → (∀ x, fine (k x)) → fine (m ≫= k).
Proof. intros Hm Hk r. by apply at_bind. Qed.

(** The state a method reads is its current state. *)
Lemma at_get {X} r (k : replica → VRA X) : (good L C i r → fine_at r (k r)) → fine_at r (get ≫= k).
Proof.
  intros Hk x acts r' Hr (r0 & ? & r1 & ? & [= <- <- <-] & Hx & ->)%vr_bind_inv. by apply Hk in Hx.
Qed.

(** A change of a member the invariant is not about, then [k]. *)
Lemma at_modify {X} r (f : replica → replica) (k : VRA X) :
  essence (f r) = essence r → fine_at (f r) k → fine_at r (modify f;; k).
Proof.
  intros Hf Hk x acts r' Hr ([] & ? & r1 & ? & [= <- <-] & Hx & ->)%vr_bind_inv.
  pose proof Hf as [= _ _ Hlo _ _ _ _ _ _]. rewrite <- Hlo. apply Hk in Hx; [done|]. by eapply good_essence.
Qed.

Lemma at_check {X} r b (k : VRA X) : (b = true → fine_at r k) → fine_at r (check b;; k).
Proof.
  intros Hk x acts r' Hr ([] & ? & r1 & ? & Hb & Hx & ->)%vr_bind_inv. destruct b; [|done].
  injection Hb as <- <-. by apply (Hk eq_refl) in Hx.
Qed.

Lemma at_lift {X Y} r (o : outcome X) (k : X → VRA Y) :
  (∀ x, o = Ret x → fine_at r (k x)) → fine_at r (lift o ≫= k).
Proof.
  intros Hk y acts r' Hr (x & ? & r1 & ? & Ho & Hx & ->)%vr_bind_inv. unfold lift in Ho.
  destruct o as [x'|]; [|done]. injection Ho as -> <- <-. by apply (Hk x eq_refl) in Hx.
Qed.

Lemma at_send r a : sent_ok L C i (lastOp r) to a → fine_at r (send a).
Proof. intros Ha x acts r' Hr [=]; subst. split_and!; [done|lia|]. by repeat constructor. Qed.

Lemma fine_ret {X} (x : X) : fine (mret x).
Proof. intros r y acts r' Hr [=]; subst. split_and!; [done|lia|constructor]. Qed.
Lemma fine_read : fine get.
Proof. intros r y acts r' Hr [=]; subst. split_and!; [done|lia|constructor]. Qed.
Lemma fine_panic {X} : fine (X := X) panic.
Proof. by intros r y acts r' Hr. Qed.
Lemma fine_check b : fine (check b).
Proof. destruct b; [apply fine_ret|apply fine_panic]. Qed.
Lemma fine_lift {X} (o : outcome X) : fine (lift o).
Proof. intros r y acts r' Hr. unfold lift. destruct o; [|done]. intros [=]; subst. split_and!; [done|lia|constructor]. Qed.
Lemma fine_modify (f : replica → replica) : (∀ r, essence (f r) = essence r) → fine (modify f).
Proof.
  intros Hf r y acts r' Hr [=]; subst. specialize (Hf r). pose proof Hf as [= _ _ Hlo _ _ _ _ _ _].
  split_and!; [by eapply good_essence|lia|constructor].
Qed.

Lemma fine_UpdateClientTable req : fine (UpdateClientTable req).
Proof.
  unfold UpdateClientTable. apply fine_bind; [apply fine_read|intros r]. apply fine_bind; [apply fine_check|intros _].
  by apply fine_modify.
Qed.

Lemma good_upcall a' r : good L C i r → a'.2 = (app r).2 → good L C i (set_app a' r).
Proof.
  intros [[? ? He ? ?] ? ? ? ? ? ? ? ?] Ha. split; try done. split; try done.
  unfold executed in *. simpl. by rewrite Ha.
Qed.

Lemma fine_execute_unlogged req : fine (execute_unlogged req).
Proof.
  intros r. unfold execute_unlogged. apply at_get. intros _ x acts r' Hr.
  intros (up & ? & r1 & ? & Hu & Hk & ->)%vr_bind_inv. unfold lift in Hu.
  destruct (ExecuteUnlogged (app r) req) as [[y a]|] eqn:Hx; [|done]. injection Hu as <- <- <-.
  apply vr_bind_inv in Hk as ([] & ? & r2 & ? & [= <- <-] & [=] & ->); subst.
  apply bind_Ret_inv in Hx as (? & _ & [= _ <-]). split_and!; [by apply good_upcall|simpl; lia|constructor].
Qed.

(** Appending what the leader's log has next. *)
Lemma good_append op req r x acts r' :
  good L C i r → in_log L op req →
  on_log (λ l, log_Append l (mkVS 0 op) req LOG_STATE_PREPARED) (set_lastOp (u64 (lastOp r + 1)) r) =
    Ret (x, (acts, r')) →
  good L C i r' ∧ lastOp r' = lastOp r + 1 ∧ op = lastOp r + 1 ∧ acts = [].
Proof.
  intros Hr [Hop Hin] Hk.
  apply vr_bind_inv in Hk as (r0 & ? & r1 & ? & [= <- <- <-] & Hk & ->). simpl in Hk.
  apply vr_bind_inv in Hk as (l & ? & r1 & ? & Hl & [= _ <- <-] & ->).
  unfold lift in Hl. destruct (log_Append _ _ _ _) as [l'|] eqn:Ha; [|done]. injection Hl as -> <- <-.
  assert (log_extends (log r) l) as Hext
    by (eapply log_Append_extends; [apply (g_inv _ _ _ _ Hr)| |exact Ha]; done).
  apply log_Append_inv in Ha as (Hw & h & ->); [|apply (g_inv _ _ _ _ Hr)].
  pose proof (vr_inv_set_log _ _ (g_inv _ _ _ _ Hr) Hext) as Hinv.
  pose proof (vi_start _ (g_inv _ _ _ _ Hr)) as Hst. pose proof (wf_bound _ Hw) as Hb. simpl in Hb.
  rewrite length_app in Hb. simpl in Hb. pose proof (g_last _ _ _ _ Hr) as Hlast.
  assert (op = 1 + Z.of_nat (length (entries (log r)))) as ->.
  { pose proof (wf_opnum _ Hw (length (entries (log r)))) as Hn. simpl in Hn.
    rewrite lookup_app_r, Nat.sub_diag in Hn by lia. specialize (Hn _ eq_refl). simpl in Hn. lia. }
  rewrite u64_id by (unfold is_u64; lia).
  split_and!; [|simpl; lia|lia|done]. destruct Hr as [? ? ? ? ? ? Hk ? ?]. split; try done.
  - destruct Hinv as [? ? ? ? ?]. by split.
  - simpl. rewrite length_app. simpl. lia.
  - unfold keys in *. simpl. rewrite fmap_app. simpl. destruct Hk as [t Ht]. rewrite Ht in Hin |- *.
    rewrite lookup_app_r in Hin by (rewrite length_fmap; lia). rewrite length_fmap in Hin.
    replace (Z.to_nat (1 + Z.of_nat (length (entries (log r))) - 1) - length (entries (log r)))%nat with 0%nat in Hin by lia.
    destruct t as [|y t]; [done|]. injection Hin as ->. apply prefix_app. by exists t.
Qed.

Lemma at_append {X} op req r (k : VRA X) :
  in_log L op req → fine k →
  fine_at r (modify (set_lastOp (u64 (lastOp r + 1)));;
             on_log (λ l, log_Append l (mkVS 0 op) req LOG_STATE_PREPARED);; k).
Proof.
  intros Hin Hk x acts r' Hr ([] & ? & r1 & ? & [= <- <-] & Hx & ->)%vr_bind_inv.
  apply vr_bind_inv in Hx as ([] & ? & r1 & ? & Ha & Hx & ->).
  destruct (good_append _ _ _ _ _ _ Hr Hin Ha) as (Hr1 & Hlo & _ & ->). apply Hk in Hx as (? & ? & ?); [|done].
  split_and!; [done|lia|done].
Qed.

Lemma fine_CommitUpTo upto : upto ≤ C → fine (CommitUpTo upto).
Proof.
  intros Hu r x acts r' Hr Hx. pose proof (g_comm _ _ _ _ Hr).
  destruct (commit_good L C i (lastOp r') to _ _ _ _ _ Hr Hx) as (? & -> & _ & _ & _ & _ & Ha); [lia|].
  split_and!; [done|lia|done].
Qed.

Context (HLb : Z.of_nat (length L) < 2 ^ 64).

Lemma in_log_bound op req : in_log L op req → 1 ≤ op < 2 ^ 64.
Proof. intros [Hop Hl]. apply lookup_lt_Some in Hl. lia. Qed.

Lemma AmLeader_good r : good L C i r → AmLeader r = (0 =? i)%Z.
Proof.
  intros Hr. unfold AmLeader. rewrite (g_config _ _ _ _ Hr), (g_view _ _ _ _ Hr), (g_idx _ _ _ _ Hr).
  unfold GetLeaderIndex. by rewrite Zmod_0_l.
Qed.

Lemma status_good r : good L C i r → bool_decide (status r = STATUS_NORMAL) = true.
Proof. intros Hr. apply bool_decide_eq_true, (g_status _ _ _ _ Hr). Qed.

(** The dump of a log. *)
Lemma dump_ok r from es : good L C i r → Dump (log r) from = Ret es → Forall (entry_ok L) es.
Proof.
  intros Hr. rewrite Dump_wf by apply (g_inv _ _ _ _ Hr). intros [= <-]. apply Forall_fmap, Forall_forall.
  intros e [k Hk]%list_elem_of_lookup. rewrite lookup_drop in Hk.
  assert (L !! (Z.to_nat (from - start (log r)) + k)%nat = Some (entry_key e)) as HLk.
  { eapply prefix_lookup_Some; [|apply (g_keys _ _ _ _ Hr)]. unfold keys. by rewrite list_lookup_fmap, Hk. }
  pose proof (HL _ _ HLk) as Hv. simpl in Hv.
  apply (wf_opnum _ (vi_log _ (g_inv _ _ _ _ Hr))) in Hk as Ho. rewrite (vi_start _ (g_inv _ _ _ _ Hr)) in *.
  split; [done|]. simpl. split; [lia|]. rewrite Ho.
  replace (Z.to_nat (1 + Z.of_nat (Z.to_nat (from - 1) + k) - 1)) with (Z.to_nat (from - 1) + k)%nat by lia.
  rewrite HLk. unfold entry_key. destruct e as [[v o] st q h]; simpl in *. by subst.
Qed.

Lemma fine_HandleUnloggedRequest req : fine (HandleUnloggedRequest remote req).
Proof.
  intros r. unfold HandleUnloggedRequest. apply at_get. intros Hr. rewrite (status_good r Hr). simpl.
  apply at_bind; [apply fine_execute_unlogged|]. intros x r1. by apply at_send.
Qed.

Lemma fine_RequestStateTransfer : i ≠ 0 → fine RequestStateTransfer.
Proof.
  intros Hi r. unfold RequestStateTransfer. apply at_get. intros Hr. destruct (_ && _); [apply fine_ret|].
  apply at_modify; [done|]. apply at_modify; [done|]. apply at_send. simpl. split; [|done]. apply Hr.
Qed.

Lemma fine_HandleRequestStateTransfer msg :
  rst_view msg = 0 → remote = to → fine (HandleRequestStateTransfer remote msg).
Proof.
  intros Hm Hto r. unfold HandleRequestStateTransfer. apply at_get. intros Hr. rewrite (status_good r Hr). simpl.
  rewrite (g_view _ _ _ _ Hr), Hm. simpl. apply at_lift. intros es Hes. apply at_send. simpl.
  split_and!; [done|done|apply Hr|by eapply dump_ok].
Qed.

(** *** Followers *)

Section follower.
Context (Hi : i ≠ 0).

Lemma not_leader r : good L C i r → AmLeader r = false.
Proof. intros Hr. rewrite AmLeader_good by done. by apply Z.eqb_neq. Qed.

Lemma at_send_prepare_ok r op : op ≤ lastOp r → fine_at r (send_prepare_ok 0 op).
Proof. intros Hop. unfold send_prepare_ok. apply at_get. intros Hr. apply at_send. simpl. by split_and!; [|apply Hr|..]. Qed.

Lemma fine_prepare_loop op reqs :
  (∀ k q, reqs !! k = Some q → in_log L (op + 1 + Z.of_nat k) q) → 0 ≤ op →
  ∀ r, good L C i r → ∀ x acts r', prepare_loop 0 op reqs r = Ret (x, (acts, r')) →
    good L C i r' ∧ lastOp r ≤ lastOp r' ∧ acts = [] ∧ x = op + Z.of_nat (length reqs) ∧
    (reqs = [] ∨ x ≤ lastOp r').
Proof.
  revert op. induction reqs as [|q reqs IH]; intros op Hq Hop r Hr x acts r'.
  { simpl. intros [=]; subst. split_and!; [done|lia|done|simpl; lia|by left]. }
  assert (in_log L (op + 1) q) as Hin by (rewrite <- (Z.add_0_r (op + 1)); by apply (Hq 0%nat)).
  pose proof (in_log_bound _ _ Hin) as Hb. simpl. rewrite u64_id by (unfold is_u64; lia).
  intros (r0 & ? & r1 & ? & [= <- <- <-] & Hk & ->)%vr_bind_inv.
  apply vr_bind_inv in Hk as ([] & a1 & r1 & a2 & H1 & H2 & ->).
  assert (good L C i r1 ∧ lastOp r ≤ lastOp r1 ∧ op + 1 ≤ lastOp r1 ∧ a1 = []) as (Hr1 & Hlo & Hlo1 & ->).
  { destruct (Z.leb_spec (op + 1) (lastOp r)); [injection H1 as <- <-; split_and!; done || lia|].
    apply vr_bind_inv in H1 as ([] & ? & r2 & ? & [= <- <-] & H1 & ->).
    apply vr_bind_inv in H1 as ([] & ? & r2 & ? & Ha & H1 & ->).
    destruct (good_append _ _ _ _ _ _ Hr Hin Ha) as (Hr2 & Hlo & Hop' & ->).
    unfold UpdateClientTable in H1. apply vr_bind_inv in H1 as (r3 & ? & r4 & ? & [= <- <- <-] & H1 & ->).
    apply vr_bind_inv in H1 as ([] & ? & r4 & ? & Hcheck & [= <- <-] & ->).
    destruct (_ <=? _)%Z; [|done]. injection Hcheck as <- <-.
    pose proof (g_last _ _ _ _ Hr). pose proof (g_last _ _ _ _ Hr2).
    split_and!; [by apply (good_essence _ _ _ r2)|simpl; lia|simpl; lia|done]. }
  apply (IH (op + 1)) in H2 as (Hr' & Hlo2 & -> & -> & Hx); [| |lia|done].
  - split_and!; try done; [lia|simpl; lia|]. right. destruct Hx as [->|Hx]; simpl; lia.
  - intros k q' Hk. replace (op + 1 + 1 + Z.of_nat k) with (op + 1 + Z.of_nat (S k)) by lia. by apply Hq.
Qed.

Lemma fine_HandlePrepare msg : prepare_ok L msg → fine (HandlePrepare remote msg).
Proof.
  intros (Hv & He & Hq) r. unfold HandlePrepare. apply at_get. intros Hr.
  rewrite (status_good r Hr), (g_view _ _ _ _ Hr), Hv, (not_leader r Hr). simpl.
  apply at_check. intros Hb%Z.leb_le. apply at_check. intros Hn%Z.eqb_eq. apply at_modify; [done|].
  destruct (Z.leb_spec (prep_opnum msg) (lastOp r)) as [|Hnew]; [by apply at_send_prepare_ok|].
  destruct (_ <? _)%Z.
  { apply at_bind; [by apply fine_RequestStateTransfer|]. intros _. by apply fine_modify. }
  destruct (prep_request msg) as [|q reqs] eqn:Hreqs.
  { destruct (He eq_refl) as [-> ->]. done. }
  rewrite <- Hreqs in *. assert (in_log L (prep_batchstart msg) q) as Hin.
  { rewrite <- (Z.add_0_r (prep_batchstart msg)). apply (Hq 0%nat). by rewrite Hreqs. }
  pose proof (in_log_bound _ _ Hin) as Hbnd. rewrite u64_id by (unfold is_u64; lia).
  intros x acts r' Hr0 (op & a1 & r1 & a2 & H1 & H2 & ->)%vr_bind_inv.
  apply fine_prepare_loop in H1 as (Hr1 & Hlo & -> & _ & Hx); [| |lia|done].
  - assert (op ≤ lastOp r1) as Hop by (destruct Hx as [Hx|]; [by rewrite Hreqs in Hx|done]).
    assert (fine_at r1 (check (op =? prep_opnum msg)%Z;; send_prepare_ok 0 (prep_opnum msg))) as Hf.
    { apply at_check. intros <-%Z.eqb_eq. by apply at_send_prepare_ok. }
    apply Hf in H2 as (? & ? & ?); [|done]. split_and!; [done|lia|done].
  - intros k q' Hk. replace (prep_batchstart msg - 1 + 1 + Z.of_nat k) with (prep_batchstart msg + Z.of_nat k) by lia.
    by apply Hq.
Qed.

Lemma fine_HandleCommit msg : com_view msg = 0 → com_opnum msg ≤ C → fine (HandleCommit remote msg).
Proof.
  intros Hv HC r. unfold HandleCommit. apply at_get. intros Hr.
  rewrite (status_good r Hr), (g_view _ _ _ _ Hr), Hv, (not_leader r Hr). simpl. apply at_modify; [done|].
  destruct (_ <=? _)%Z; [apply fine_ret|]. destruct (_ <? _)%Z; [by apply fine_RequestStateTransfer|].
  by apply fine_CommitUpTo.
Qed.

Lemma fine_transfer_loop old es : Forall (entry_ok L) es → fine (transfer_loop old es).
Proof.
  intros Hes. revert old. induction Hes as [|e es [Hv Hin] _ IH]; intros old; [apply fine_ret|].
  intros r. simpl. apply at_get. intros Hr. destruct (_ <=? _)%Z.
  { apply at_lift. intros o _. apply at_check. intros _. apply at_check. intros _. apply IH. }
  destruct (_ <=? _)%Z.
  - apply at_lift. intros o Ho. apply at_check. intros _. apply at_check. intros _.
    assert (vs_view (le_viewstamp o) = 0) as ->.
    { rewrite log_Get_wf in Ho by apply (g_inv _ _ _ _ Hr). unfold entry_of in Ho.
      destruct (_ <? _)%Z; [done|]. destruct (entries (log r) !! _) as [o'|] eqn:Hl; [|done]. injection Ho as ->.
      eapply (HL _ (entry_key o)), prefix_lookup_Some; [|apply (g_keys _ _ _ _ Hr)].
      unfold keys. by rewrite list_lookup_fmap, Hl. }
    rewrite Hv. simpl. apply at_check. intros _. apply IH.
  - apply at_check. intros _. rewrite Hv. apply at_append; [done|apply IH].
Qed.

Lemma fine_SendPrepareOKs old : fine (SendPrepareOKs old).
Proof.
  intros r. unfold SendPrepareOKs. apply at_get. intros Hr.
  assert (∀ l lo, (∀ x, x ∈ l → x ≤ lo) → ∀ r, lo ≤ lastOp r → fine_at r (each (λ i,
    r ← get; if (i <=? lastCommitted r)%Z then mret () else
      entry ← lift (log_Get (log r) i); check (bool_decide (le_state entry = LOG_STATE_PREPARED));;
      UpdateClientTable (le_request entry);; send_prepare_ok (view r) i) l)) as Heach.
  { clear r Hr. induction l as [|x l IH]; intros lo Hl r Hlo; [apply fine_ret|].
    simpl. intros y acts r2 Hr ([] & a1 & r1 & a2 & H1 & H2 & ->)%vr_bind_inv.
    assert (good L C i r1 ∧ lastOp r ≤ lastOp r1 ∧ Forall (sent_ok L C i (lastOp r1) to) a1) as (Hr1 & Hlo1 & Ha1).
    { revert H1. apply (at_get r (λ r, if (x <=? lastCommitted r)%Z then mret () else _)); [|done].
      intros _. destruct (_ <=? _)%Z; [apply fine_ret|]. apply at_lift. intros e _. apply at_check. intros _.
      rewrite (g_view _ _ _ _ Hr). unfold UpdateClientTable.
      intros y' acts' r' _ ([] & a3 & r3 & a4 & H3 & H4 & ->)%vr_bind_inv.
      apply vr_bind_inv in H3 as (r4 & ? & r5 & ? & [= <- <- <-] & H3 & ->).
      apply vr_bind_inv in H3 as ([] & ? & r5 & ? & Hck & [= <- <-] & ->).
      destruct (_ <=? _)%Z; [|done]. injection Hck as <- <-.
      apply at_send_prepare_ok in H4 as (? & ? & ?); [done| |by apply (good_essence _ _ _ r)].
      simpl. specialize (Hl x ltac:(by left)). lia. }
    apply (IH lo) in H2 as (Hr2 & Hlo2 & Ha2); [| |lia|done].
    - split_and!; [done|lia|]. apply Forall_app. split; [|done]. eapply Forall_impl; [exact Ha1|].
      intros a. by apply sent_ok_mono.
    - intros z Hz. apply Hl. by right. }
  apply (Heach _ (lastOp r)); [|done]. intros x Hx. unfold opnums in Hx. apply elem_of_seqZ in Hx. lia.
Qed.

Lemma fine_HandleStateTransfer msg :
  st_view msg = 0 → st_opnum msg ≤ C → Forall (entry_ok L) (st_entries msg) →
  fine (HandleStateTransfer remote msg).
Proof.
  intros Hv HC Hes r. unfold HandleStateTransfer. apply at_get. intros Hr. rewrite (g_view _ _ _ _ Hr), Hv. simpl.
  apply at_bind; [by apply fine_transfer_loop|]. intros old. apply fine_bind; [apply fine_ret|]. intros _.
  apply fine_bind; [apply fine_read|]. intros r1. apply fine_bind; [apply fine_check|]. intros _.
  apply fine_bind; [by apply fine_CommitUpTo|]. intros _. apply fine_bind; [apply fine_SendPrepareOKs|]. intros _ r2.
  apply at_modify; [done|]. apply at_get. intros _. apply fine_ret.
Qed.

(** What a follower can receive. *)
Definition receivable (m : vr_message) : Prop :=
  match m with
  | Prepare p => prepare_ok L p
  | PrepareOK k => ok_view k = 0
  | Commit k => com_view k = 0 ∧ com_opnum k ≤ C
  | RequestStateTransferMsg k => rst_view k = 0 ∧ remote = to
  | StateTransfer k => st_view k = 0 ∧ st_opnum k ≤ C ∧ Forall (entry_ok L) (st_entries k)
  | StartViewChangeMsg _ | DoViewChange _ | StartView _ => False
  | _ => True
  end.

Lemma fine_ReceiveMessage m : receivable m → fine (ReceiveMessage remote m).
Proof.
  destruct m; simpl; try done; try (intros _; apply fine_panic).
  - intros _ r. unfold HandleRequest. apply at_get. intros Hr.
    rewrite (status_good r Hr), (not_leader r Hr). apply fine_ret.
  - intros _. apply fine_HandleUnloggedRequest.
  - apply fine_HandlePrepare.
  - intros Hv r. unfold HandlePrepareOK. apply at_get. intros Hr.
    rewrite (status_good r Hr), (g_view _ _ _ _ Hr), Hv, (not_leader r Hr). apply fine_ret.
  - intros [? ?]. by apply fine_HandleCommit.
  - intros [? ?]. by apply fine_HandleRequestStateTransfer.
  - intros (? & ? & ?). by apply fine_HandleStateTransfer.
Qed.

Lemma fine_timer t : t ≠ ViewChangeTimer → fine (timer_callback t).
Proof.
  intros Ht r. destruct t; simpl; [done|..].
  - unfold SendNullCommit. apply at_get. intros Hr. rewrite (not_leader r Hr). by apply at_check.
  - apply at_modify; [done|]. by apply fine_modify.
  - unfold ResendPrepare. apply at_get. intros Hr. rewrite (not_leader r Hr). by apply at_check.
  - unfold CloseBatch. apply at_get. intros Hr. rewrite (not_leader r Hr). by apply at_check.
Qed.

End follower.
End one.

(** *** The leader *)

Record lead r : Prop := {
  l_good : good (keys r) (lastCommitted r) 0 r;
  l_view k x : keys r !! k = Some x → vs_view x.1 = 0;
  l_batch : 0 ≤ lastBatchEnd r
}.

(** The log only grows, and the messages sent are in order. *)
Definition led (to : address) r (acts : list action) r' : Prop :=
  lead r' ∧ keys r `prefix_of` keys r' ∧ lastCommitted r' = lastCommitted r ∧
  prepareOKQuorum r' = prepareOKQuorum r ∧
  Forall (sent_ok (keys r') (lastCommitted r') 0 (lastOp r') to) acts.

Section leader.
Context (remote to : address).

Definition leads r {X} (m : VRA X) : Prop :=
  ∀ x acts r', lead r → m r = Ret (x, (acts, r')) → led to r acts r'.

Lemma lead_last r : lead r → lastOp r = Z.of_nat (length (keys r)).
Proof. intros [Hr _ _]. unfold keys. rewrite length_fmap. apply Hr. Qed.

Lemma lead_bound r : lead r → 0 ≤ lastOp r < 2 ^ 64.
Proof.
  intros [Hr _ _]. rewrite (g_last _ _ _ _ Hr). pose proof (wf_bound _ (vi_log _ (g_inv _ _ _ _ Hr))).
  rewrite (vi_start _ (g_inv _ _ _ _ Hr)) in *. lia.
Qed.

Lemma led_app r1 a1 r2 a2 r3 : led to r1 a1 r2 → led to r2 a2 r3 → led to r1 (a1 ++ a2) r3.
Proof.
  intros (Hr2 & Hk1 & Hc1 & Hq1 & Ha1) (Hr3 & Hk2 & Hc2 & Hq2 & Ha2).
  unfold led. split_and!; [done|by etrans|congruence|congruence|]. apply Forall_app. split; [|done].
  eapply Forall_impl; [exact Ha1|]. intros a. apply sent_ok_mono; [done|lia|].
  rewrite !lead_last by done. apply prefix_length in Hk2. lia.
Qed.

Lemma leads_bind {X Y} r (m : VRA X) (k : X → VRA Y) : leads r m → (∀ x r', leads r' (k x)) → leads r (m ≫= k).
Proof.
  intros Hm Hk y acts r2 Hr (x & a1 & r1 & a2 & H1 & H2 & ->)%vr_bind_inv.
  pose proof (Hm _ _ _ Hr H1) as Hl1. eapply led_app; [exact Hl1|]. eapply Hk; [apply Hl1|exact H2].
Qed.

Lemma leads_get {X} r (k : replica → VRA X) : (lead r → leads r (k r)) → leads r (get ≫= k).
Proof. intros Hk x acts r' Hr (r0 & ? & r1 & ? & [= <- <- <-] & Hx & ->)%vr_bind_inv. by apply Hk in Hx. Qed.

Lemma led_refl r : lead r → led to r [] r.
Proof. intros Hr. unfold led. by split_and!. Qed.

Lemma leads_ret {X} r (x : X) : leads r (mret x).
Proof. intros y acts r' Hr [=]; subst. by apply led_refl. Qed.

(** A change of members the invariant is not about. *)
Definition lead_essence r := (essence r, prepareOKQuorum r).

Lemma lead_same r r' :
  lead_essence r' = lead_essence r → 0 ≤ lastBatchEnd r' → lead r → led to r [] r'.
Proof.
  unfold lead_essence. intros He Hb [Hr Hv _]. apply pair_eq in He as [He Hq].
  assert (keys r' = keys r ∧ lastCommitted r' = lastCommitted r) as [Hk Hc'].
  { unfold essence in He. unfold keys. split; congruence. }
  unfold led. rewrite Hk, Hc'. split_and!; try done. split; [|by rewrite Hk|done].
  rewrite Hk, Hc'. by eapply good_essence.
Qed.

Lemma leads_modify {X} r (f : replica → replica) (k : VRA X) :
  (lead r → led to r [] (f r)) → leads (f r) k → leads r (modify f;; k).
Proof.
  intros Hf Hk x acts r' Hr ([] & ? & r1 & ? & [= <- <-] & Hx & ->)%vr_bind_inv.
  pose proof (Hf Hr) as Hs. eapply led_app; [exact Hs|]. by eapply Hk; [apply Hs|].
Qed.
Lemma leads_modify_last r (f : replica → replica) : (lead r → led to r [] (f r)) → leads r (modify f).
Proof. intros Hf x acts r' Hr [=]; subst. by apply Hf. Qed.

Lemma leads_check {X} r b (k : VRA X) : (b = true → leads r k) → leads r (check b;; k).
Proof.
  intros Hk x acts r' Hr ([] & ? & r1 & ? & Hb & Hx & ->)%vr_bind_inv. destruct b; [|done].
  injection Hb as <- <-. by apply (Hk eq_refl) in Hx.
Qed.

Lemma leads_lift {X Y} r (o : outcome X) (k : X → VRA Y) :
  (∀ x, o = Ret x → leads r (k x)) → leads r (lift o ≫= k).
Proof.
  intros Hk y acts r' Hr (x & ? & r1 & ? & Ho & Hx & ->)%vr_bind_inv. unfold lift in Ho.
  destruct o as [x'|]; [|done]. injection Ho as -> <- <-. by apply (Hk x eq_refl) in Hx.
Qed.

Lemma leads_send r a : (lead r → sent_ok (keys r) (lastCommitted r) 0 (lastOp r) to a) → leads r (send a).
Proof.
  intros Ha x acts r' Hr [=]; subst. unfold led. split_and!; try done. constructor; [by apply Ha|constructor].
Qed.

Local Ltac lead_mod := let Hl := fresh in intros Hl; apply lead_same; [done|exact (l_batch _ Hl)|done].

Lemma leads_UpdateClientTable req r : leads r (UpdateClientTable req).
Proof.
  unfold UpdateClientTable. apply leads_get. intros Hr. apply leads_check. intros _.
  apply leads_modify_last. lead_mod.
Qed.

Lemma led_upcall a' r : a'.2 = (app r).2 → lead r → led to r [] (set_app a' r).
Proof.
  intros Ha [Hr Hv Hb]. unfold led. split_and!; try done. split; try done. by apply good_upcall.
Qed.

(** Upcalls that do not execute an operation. *)
Lemma leads_upcall {X} r (up : (A * list (Z * string)) → outcome (X * (A * list (Z * string)))) :
  (∀ a x a', up a = Ret (x, a') → a'.2 = a.2) →
  leads r (r ← get; x ← lift (up (app r)); modify (set_app x.2);; mret x.1).
Proof.
  intros Hu. apply leads_get. intros Hr. apply leads_lift. intros [x a'] Hx. apply leads_modify; [|apply leads_ret].
  apply led_upcall. by apply Hu in Hx.
Qed.

(** The leader's own append. *)
Lemma append_new req r op x acts r1 :
  lead r → on_log (λ l, log_Append l (mkVS 0 op) req LOG_STATE_PREPARED) (set_lastOp op r) =
    Ret (x, (acts, r1)) →
  op = lastOp r + 1 ∧ keys r1 = keys r ++ [(mkVS 0 op, req)] ∧
  lastCommitted r1 = lastCommitted r ∧ prepareOKQuorum r1 = prepareOKQuorum r ∧ lastBatchEnd r1 = lastBatchEnd r.
Proof.
  intros Hr Ha. pose proof (g_last _ _ _ _ (l_good _ Hr)) as Hlast.
  pose proof (g_inv _ _ _ _ (l_good _ Hr)) as Hinv.
  apply vr_bind_inv in Ha as (r2 & ? & r3 & ? & [= <- <- <-] & Ha & ->). simpl in Ha.
  apply vr_bind_inv in Ha as (l & ? & r2 & ? & Hl & [= _ <- <-] & ->).
  unfold lift in Hl. destruct (log_Append _ _ _ _) as [l'|] eqn:Ha; [|done]. injection Hl as -> <- <-.
  apply log_Append_inv in Ha as (Hw & h & ->); [|apply Hinv].
  pose proof (wf_opnum _ Hw (length (entries (log r)))) as Hn. simpl in Hn.
  rewrite lookup_app_r, Nat.sub_diag in Hn by lia. specialize (Hn _ eq_refl). simpl in Hn.
  rewrite (vi_start _ Hinv) in Hn. split_and!; try done; [lia|]. unfold keys. simpl. by rewrite fmap_app.
Qed.

Lemma led_append req r x acts r1 :
  lead r →
  on_log (λ l, log_Append l (mkVS 0 (u64 (lastOp r + 1))) req LOG_STATE_PREPARED)
    (set_lastOp (u64 (lastOp r + 1)) r) = Ret (x, (acts, r1)) →
  led to r acts r1.
Proof.
  intros Hr Ha. destruct (append_new _ _ _ _ _ _ Hr Ha) as (Hop & Hk & Hc' & Hq & Hb).
  assert (keys r `prefix_of` keys r1) as Hpre by (rewrite Hk; by eexists).
  assert (good (keys r1) (lastCommitted r) 0 r) as Hr0 by (eapply good_mono; [exact Hpre|done|apply Hr]).
  pose proof (lead_last _ Hr) as Hlen.
  eapply good_append in Ha as (Hg & _ & _ & ->); [|exact Hr0|].
  - unfold led. rewrite Hc'. split_and!; try done. split; [by rewrite Hc'| |rewrite Hb; apply Hr].
    intros k y. rewrite Hk. intros [Hl|[_ Hl]]%lookup_app_Some; [by eapply (l_view _ Hr)|].
    by apply list_lookup_singleton_Some in Hl as [_ <-].
  - rewrite Hop, Hk, Hop. split; [lia|].
    replace (Z.to_nat (lastOp r + 1 - 1)) with (length (keys r)) by lia.
    by rewrite lookup_app_r, Nat.sub_diag by lia.
Qed.

Lemma leads_append {X} r req (k : replica → VRA X) :
  (∀ r1 r2, leads r2 (k r1)) →
  leads r (modify (λ r, set_lastOp (u64 (lastOp r + 1)) r);;
           r0 ← get;
           on_log (λ l, log_Append l (mkVS (view r0) (lastOp r0)) req LOG_STATE_PREPARED);; k r0).
Proof.
  intros Hk x acts r' Hr ([] & ? & r1 & ? & [= <- <-] & Hx & ->)%vr_bind_inv.
  apply vr_bind_inv in Hx as (r1 & ? & r2 & ? & [= <- <- <-] & Hx & ->). simpl in Hx.
  apply vr_bind_inv in Hx as ([] & ? & r1 & ? & Ha & Hx & ->).
  rewrite (g_view _ _ _ _ (l_good _ Hr)) in Ha. apply led_append in Ha; [|done].
  rewrite !app_nil_l. eapply led_app; [exact Ha|]. eapply Hk; [apply Ha|exact Hx].
Qed.

(** The requests of a batch are those of the log. *)
Lemma log_Get_in_log r i e :
  vr_inv r → log_Get (log r) i = Ret e → vs_view (le_viewstamp e) = 0 → in_log (keys r) i (le_request e).
Proof.
  intros Hr. rewrite log_Get_wf by apply Hr. destruct (entry_of _ _) as [e'|] eqn:He; [|done]. intros [= ->] Hv.
  apply entry_of_Some in He as Hb; [|apply Hr]. rewrite (vi_start _ Hr) in Hb. destruct Hb as [Hb Ho].
  unfold entry_of in He. rewrite (vi_start _ Hr) in He. destruct (_ <? _)%Z; [done|].
  split; [lia|]. unfold keys. rewrite list_lookup_fmap, He. simpl. unfold entry_key.
  destruct e as [[v o] ? ? ?]; simpl in *. by subst.
Qed.

Lemma batch_loop r l acc out :
  vr_inv r → view r = 0 →
  for_each (λ acc i,
    entry ← log_Get (log r) i;
    ASSERT! (vs_view (le_viewstamp entry) =? view r)%Z;
    ASSERT! (vs_opnum (le_viewstamp entry) =? i)%Z;
    Ret (acc ++ [le_request entry])) acc l = Ret out →
  ∃ qs, out = acc ++ qs ∧ Forall2 (in_log (keys r)) l qs.
Proof.
  intros Hr Hv. revert acc. induction l as [|i l IH]; intros acc.
  { intros [= <-]. exists []. by rewrite app_nil_r. }
  cbn [for_each]. rewrite bind_Ret_inv. intros (acc' & (e & He & [Hev [_ [= <-]]%ASSERT_bind]%ASSERT_bind)%bind_Ret_inv & Hl).
  apply IH in Hl as (qs & -> & Hqs). exists (le_request e :: qs). rewrite <- app_assoc. split; [done|].
  constructor; [|done]. apply log_Get_in_log; [done..|]. apply Z.eqb_eq in Hev. lia.
Qed.

Lemma batch_prepare_ok r reqs :
  lead r → lastBatchEnd r < lastOp r → batch_requests r (u64 (lastBatchEnd r + 1)) = Ret reqs →
  prepare_ok (keys r) (mkPrepare (view r) (lastOp r) (u64 (lastBatchEnd r + 1)) reqs).
Proof.
  intros Hr Hb Hq. pose proof (lead_bound _ Hr). pose proof (l_batch _ Hr).
  rewrite u64_id in * by (unfold is_u64; lia).
  apply batch_loop in Hq as (qs & -> & Hqs); [|apply Hr..]. unfold prepare_ok. simpl. split_and!.
  - apply Hr.
  - intros ->. apply Forall2_length in Hqs. unfold opnums in Hqs. rewrite length_seqZ in Hqs. simpl in Hqs. lia.
  - intros k q Hk. destruct (Forall2_lookup_r _ _ _ _ _ Hqs Hk) as (i & Hi & Hin).
    unfold opnums in Hi. apply lookup_seqZ in Hi as [-> _]. done.
Qed.

Lemma led_set_lastPrepare p r : prepare_ok (keys r) p → lead r → led to r [] (set_lastPrepare p r).
Proof.
  intros Hp [[[] ? ? ? ? ? ? ? ?] Hv Hb]. unfold led. split_and!; try done.
Qed.

Lemma leads_CloseBatch r : leads r CloseBatch.
Proof.
  unfold CloseBatch. apply leads_get. intros Hr. apply leads_check. intros _. apply leads_check. intros Hb%Z.ltb_lt.
  cbv zeta. apply leads_lift. intros reqs Hq. pose proof (batch_prepare_ok _ _ Hr Hb Hq) as Hp.
  apply leads_modify; [by apply led_set_lastPrepare|]. apply leads_bind; [by apply leads_send|intros _ r1].
  apply leads_modify; [apply lead_same; [done|simpl; pose proof (lead_bound _ Hr); lia]|].
  apply leads_modify; [lead_mod|]. apply leads_modify_last. lead_mod.
Qed.

Lemma leads_HandleRequest req r : leads r (HandleRequest remote req).
Proof.
  unfold HandleRequest. apply leads_get. intros Hr. destruct (negb _); [apply leads_ret|].
  destruct (negb _); [apply leads_ret|]. apply leads_modify; [lead_mod|]. cbv zeta.
  destruct (match clientTable r !! req_clientid req with Some _ => _ | None => false end); [apply leads_ret|].
  destruct (match clientTable r !! req_clientid req with Some _ => _ | None => None end) as [e|].
  { destruct (replied e); [by apply leads_send|apply leads_ret]. }
  apply leads_bind; [apply leads_UpdateClientTable|intros _ r1]. apply leads_bind.
  { apply (leads_upcall _ (λ a, LeaderUpcall a (lastCommitted r) (req_op req))).
    intros a x a' Hu. cbn in Hu. apply bind_Ret_inv in Hu as (? & _ & [= _ <-]). done. }
  intros up r2. destruct (negb up.1).
  { apply leads_modify; [lead_mod|]. by apply leads_send. }
  apply leads_append. intros r3 r4. apply leads_bind; [|intros _ r5; apply leads_modify_last; lead_mod].
  destruct (_ <? _)%Z; [apply leads_CloseBatch|]. apply leads_modify_last. lead_mod.
Qed.

Lemma leads_HandleUnloggedRequest req r : leads r (HandleUnloggedRequest remote req).
Proof.
  unfold HandleUnloggedRequest. apply leads_get. intros Hr. destruct (negb _); [apply leads_ret|].
  apply leads_bind; [|intros x r1; by apply leads_send].
  apply (leads_upcall _ (λ a, ExecuteUnlogged a req)). intros a x a' Hu. cbn in Hu.
  apply bind_Ret_inv in Hu as (? & _ & [= _ <-]). done.
Qed.

Lemma leads_HandleRequestStateTransfer msg r : rst_view msg = 0 → remote = to → leads r (HandleRequestStateTransfer remote msg).
Proof.
  intros Hm Hto. unfold HandleRequestStateTransfer. apply leads_get. intros Hr. destruct (negb _); [apply leads_ret|].
  rewrite (g_view _ _ _ _ (l_good _ Hr)), Hm. simpl. apply leads_lift. intros es Hes. apply leads_send. intros _. simpl.
  split_and!; [done|done|done|]. eapply dump_ok; [apply (l_view _ Hr)|apply Hr|exact Hes].
Qed.

Lemma leads_timer t r : t ≠ ViewChangeTimer → leads r (timer_callback t).
Proof.
  intros Ht. destruct t; simpl; [done|..].
  - unfold SendNullCommit. apply leads_get. intros Hr. apply leads_check. intros _. apply leads_send. intros _. simpl.
    split; [apply Hr|lia].
  - apply leads_modify; [lead_mod|]. apply leads_modify_last. lead_mod.
  - unfold ResendPrepare. apply leads_get. intros Hr. apply leads_check. intros _.
    destruct (_ =? _)%Z; [apply leads_ret|]. apply leads_send. intros _. apply Hr.
  - apply leads_CloseBatch.
Qed.

(** The leader counts the acknowledgements of an operation, and commits it when
    there are enough. *)
Definition counted msg r (acts : list action) r' : Prop :=
  let aq := AddAndCheckForQuorum (prepareOKQuorum r) (mkVS 0 (ok_opnum msg)) (ok_replicaIdx msg) msg in
  lead r' ∧ keys r `prefix_of` keys r' ∧ lastCommitted r ≤ lastCommitted r' ∧ prepareOKQuorum r' = aq.2 ∧
  (lastCommitted r' = lastCommitted r ∨ is_Some aq.1 ∧ lastCommitted r' = ok_opnum msg) ∧
  Forall (sent_ok (keys r') (lastCommitted r') 0 (lastOp r') to) acts.

Lemma led_CommitUpTo upto r x acts r' :
  lead r → CommitUpTo upto r = Ret (x, (acts, r')) →
  lead r' ∧ keys r' = keys r ∧ lastCommitted r' = Z.max (lastCommitted r) upto ∧
  prepareOKQuorum r' = prepareOKQuorum r ∧ Forall (sent_ok (keys r') (lastCommitted r') 0 (lastOp r') to) acts.
Proof.
  intros [Hg Hv Hb] Hx. set (C' := Z.max (lastCommitted r) upto).
  assert (good (keys r) C' 0 r) as Hg' by (eapply good_mono; [done| |exact Hg]; lia).
  destruct (commit_good _ _ _ (lastOp r') to _ _ _ _ _ Hg' Hx) as (Hg2 & Hlo & Hc2 & Hk & Hq & Hbe & Ha); [done|].
  fold C' in Hc2. rewrite Hk, Hc2. split_and!; try done. split; rewrite ?Hk, ?Hc2, ?Hbe; done.
Qed.

Lemma lead_HandlePrepareOK msg r x acts r' :
  lead r → ok_view msg = 0 → HandlePrepareOK remote msg r = Ret (x, (acts, r')) → counted msg r acts r'.
Proof.
  intros Hr Hv Hx. unfold counted, HandlePrepareOK in *.
  apply vr_bind_inv in Hx as (r0 & ? & r1 & ? & [= <- <- <-] & Hx & ->). pose proof (l_good _ Hr) as Hg.
  rewrite (status_good _ _ _ _ Hg), (g_view _ _ _ _ Hg), Hv, (AmLeader_good _ _ _ _ Hg) in Hx. simpl in Hx.
  destruct (AddAndCheckForQuorum _ _ _ _) as [ms q]. cbn [fst snd].
  apply vr_bind_inv in Hx as ([] & ? & r1 & ? & [= <- <-] & Hx & ->). rewrite !app_nil_l.
  assert (lead (set_prepareOKQuorum q r)) as Hr1.
  { split; [by eapply (good_essence (keys r) _ _ r)|apply Hr..]. }
  destruct ms as [ms|]; [|injection Hx as _ <- <-; split_and!; [done|done|done|done|by left|done]].
  apply vr_bind_inv in Hx as ([] & a1 & r2 & a2 & Hx & Hs & ->).
  apply led_CommitUpTo in Hx as (Hr2 & Hk & Hc2 & Hq & Ha); [|done]. simpl in Hc2, Hq.
  change (keys (set_prepareOKQuorum q r)) with (keys r) in Hk.
  assert (led to r2 a2 r') as Hled.
  { revert Hs. destruct (_ <=? _)%Z; [by apply leads_ret|]. apply leads_get; [intros _|done].
    apply leads_bind; [|intros _ r3; apply leads_modify_last; lead_mod].
    apply leads_send. intros _. split; [apply Hr2|done]. }
  assert (led to r2 (a1 ++ a2) r') as (? & ? & Hc3 & Hq3 & ?).
  { eapply led_app; [|exact Hled]. unfold led. split_and!; done. }
  rewrite Hc3, Hk, Hq3, Hq in *. split_and!; try done; [lia|]. destruct (decide (ok_opnum msg ≤ lastCommitted r)); [left; lia|].
  right. split; [done|lia].
Qed.

End leader.

(** ** The group *)

Notation group := (net (A * list (Z * string))).

(** The last operation of replica [j]. *)
Definition last_at (s : group) (j : Z) : Z := default 0 (lastOp <$> replicas_of s !! j).

Definition msg_ok L (C : Z) (s : group) (p : address * address * vr_message) : Prop :=
  let '(src, dst, m) := p in
  match m with
  | Prepare p => prepare_ok L p
  | PrepareOK k => ok_view k = 0 ∧ 1 ≤ ok_replicaIdx k < n c ∧ ok_opnum k ≤ last_at s (ok_replicaIdx k)
  | Commit k => com_view k = 0 ∧ com_opnum k ≤ C
  | RequestStateTransferMsg k => rst_view k = 0 ∧ src ≠ replica_addr 0
  | StateTransfer k =>
      dst ≠ replica_addr 0 ∧ st_view k = 0 ∧ st_opnum k ≤ C ∧ Forall (entry_ok L) (st_entries k)
  | ReplyMsg _ | UnloggedReplyMessage _ _ => True
  | _ => False
  end.

Record group_inv r0 (s : group) : Prop := {
  gi_leader : replicas_of s !! 0 = Some r0;
  gi_lead : lead r0;
  gi_good j r : replicas_of s !! j = Some r → 0 ≤ j < n c ∧ good (keys r0) (lastCommitted r0) j r;
  gi_pool : Forall (msg_ok (keys r0) (lastCommitted r0) s) (pool s);
  gi_required : numRequired (prepareOKQuorum r0) = QuorumSize c - 1;
  gi_acks vs j : is_Some (messages_of (prepareOKQuorum r0) vs !! j) →
    1 ≤ j < n c ∧ vs_opnum vs ≤ last_at s j;
  gi_durable : lastCommitted r0 = 0 ∨
    ∃ X, X ⊆ all_replicas c ∧ QuorumSize c ≤ Z.of_nat (size X) ∧ ∀ j, j ∈ X → lastCommitted r0 ≤ last_at s j
}.

Lemma replica_addr_inj i j : replica_addr i = replica_addr j → i = j.
Proof. unfold replica_addr. intros Heq%(inj _). by apply (inj pretty). Qed.

Lemma last_at_insert (s : group) i r r' ps :
  replicas_of s !! i = Some r → lastOp r ≤ lastOp r' →
  ∀ j, last_at s j ≤ last_at (mkNet (<[i := r']> (replicas_of s)) ps) j.
Proof.
  intros Hi Hlo j. unfold last_at. simpl. destruct (decide (i = j)) as [<-|Hne].
  - by rewrite lookup_insert_eq, Hi.
  - by rewrite lookup_insert_ne.
Qed.

Lemma msg_ok_mono L L' C C' s s' p :
  L `prefix_of` L' → C ≤ C' → (∀ j, last_at s j ≤ last_at s' j) → msg_ok L C s p → msg_ok L' C' s' p.
Proof.
  intros Hp HC Hs. destruct p as [[src dst] m]. destruct m; simpl; try done.
  - by apply prepare_ok_mono.
  - intros (? & ? & ?). pose proof (Hs (ok_replicaIdx m)). split_and!; done || lia.
  - intros (? & ?). split; [done|lia].
  - intros (? & ? & ? & He). split_and!; try done; [lia|]. eapply Forall_impl; [exact He|].
    intros e. by apply entry_ok_mono.
Qed.

Lemma emit_ok L C s i lo to a :
  0 ≤ i < n c → to ≠ replica_addr 0 → lo ≤ last_at s i → sent_ok L C i lo to a →
  Forall (msg_ok L C s) (emit c i a).
Proof.
  intros Hi Hto Hlo. destruct a as [dst m|j m|m]; destruct m; simpl; try done; intros Ha;
    try (constructor; [simpl|constructor]); try (apply Forall_forall; intros p (j & -> & _)%list_elem_of_fmap; simpl); try done.
  - destruct Ha as (-> & ? & ? & ?). by split_and!.
  - destruct Ha as (? & <- & ? & ?). split_and!; done || lia.
  - destruct Ha as [? Hne]. split; [done|]. by intros ?%replica_addr_inj.
Qed.

Lemma emit_all_ok L C s i lo to acts :
  0 ≤ i < n c → to ≠ replica_addr 0 → lo ≤ last_at s i → Forall (sent_ok L C i lo to) acts →
  Forall (msg_ok L C s) (acts ≫= emit c i).
Proof.
  intros Hi Hto Hlo Ha. apply Forall_bind. eapply Forall_impl; [exact Ha|].
  intros a. by apply emit_ok.
Qed.

(** The group after replica [i] has moved to [r'] and sent [acts]. *)
Definition after (s : group) (i : Z) r' (acts : list action) : group :=
  mkNet (<[i := r']> (replicas_of s)) (pool s ++ (acts ≫= emit c i)).

Lemma last_at_after s i r' acts : last_at (after s i r' acts) i = lastOp r'.
Proof. unfold last_at. simpl. by rewrite lookup_insert_eq. Qed.

Lemma last_at_mono s i r r' acts :
  replicas_of s !! i = Some r → lastOp r ≤ lastOp r' → ∀ j, last_at s j ≤ last_at (after s i r' acts) j.
Proof. intros Hi Hlo. by eapply last_at_insert. Qed.

Lemma pool_after L L' C C' s i r r' to acts :
  replicas_of s !! i = Some r → lastOp r ≤ lastOp r' → 0 ≤ i < n c → to ≠ replica_addr 0 →
  L `prefix_of` L' → C ≤ C' → Forall (msg_ok L C s) (pool s) →
  Forall (sent_ok L' C' i (lastOp r') to) acts →
  Forall (msg_ok L' C' (after s i r' acts)) (pool (after s i r' acts)).
Proof.
  intros Hi Hlo Hin Hto HL HC Hp Ha. simpl. apply Forall_app. split.
  - eapply Forall_impl; [exact Hp|]. intros p. apply msg_ok_mono; [done..|]. by eapply last_at_mono.
  - eapply emit_all_ok; [done|done| |exact Ha]. by rewrite last_at_after.
Qed.

Lemma durable_mono C s s' :
  (∀ j, last_at s j ≤ last_at s' j) →
  (C = 0 ∨ ∃ X, X ⊆ all_replicas c ∧ QuorumSize c ≤ Z.of_nat (size X) ∧ ∀ j, j ∈ X → C ≤ last_at s j) →
  C = 0 ∨ ∃ X, X ⊆ all_replicas c ∧ QuorumSize c ≤ Z.of_nat (size X) ∧ ∀ j, j ∈ X → C ≤ last_at s' j.
Proof.
  intros Hs [?|(X & ? & ? & HX)]; [by left|right]. exists X. split_and!; try done. intros j Hj.
  etrans; [by apply HX|done].
Qed.

Lemma follower_step r0 s i r r' to acts :
  group_inv r0 s → i ≠ 0 → replicas_of s !! i = Some r → to ≠ replica_addr 0 →
  good (keys r0) (lastCommitted r0) i r' → lastOp r ≤ lastOp r' →
  Forall (sent_ok (keys r0) (lastCommitted r0) i (lastOp r') to) acts →
  group_inv r0 (after s i r' acts).
Proof.
  intros [Hl Hlead Hg Hp Hn Hq Hd] Hi Hr Hto Hr' Hlo Ha. pose proof (proj1 (Hg _ _ Hr)) as Hin.
  pose proof (last_at_mono s i r r' acts Hr Hlo) as Hm. split; try done.
  - simpl. by rewrite lookup_insert_ne.
  - intros j rj. simpl. intros [[<- <-]|[? ?]]%lookup_insert_Some; [done|by apply Hg].
  - by eapply pool_after.
  - intros vs j Hj. apply Hq in Hj as [? ?]. split; [done|]. by etrans.
  - by eapply durable_mono.
Qed.

Lemma leader_step r0 s r' to acts :
  group_inv r0 s → to ≠ replica_addr 0 → lead r' → keys r0 `prefix_of` keys r' →
  lastCommitted r0 ≤ lastCommitted r' →
  Forall (sent_ok (keys r') (lastCommitted r') 0 (lastOp r') to) acts →
  numRequired (prepareOKQuorum r') = QuorumSize c - 1 →
  (∀ vs j, is_Some (messages_of (prepareOKQuorum r') vs !! j) → 1 ≤ j < n c ∧ vs_opnum vs ≤ last_at s j) →
  (lastCommitted r' = 0 ∨ ∃ X, X ⊆ all_replicas c ∧ QuorumSize c ≤ Z.of_nat (size X) ∧
     ∀ j, j ∈ X → lastCommitted r' ≤ last_at (after s 0 r' acts) j) →
  group_inv r' (after s 0 r' acts).
Proof.
  intros [Hl Hlead Hg Hp Hn Hq Hd] Hto Hr' Hk HC Ha Hn' Hq' Hd'. pose proof (proj1 (Hg _ _ Hl)) as Hin.
  assert (lastOp r0 ≤ lastOp r') as Hlo by (rewrite !lead_last by done; apply prefix_length in Hk; lia).
  pose proof (last_at_mono s 0 r0 r' acts Hl Hlo) as Hm. split; try done.
  - simpl. by rewrite lookup_insert_eq.
  - intros j rj. simpl. intros [[<- <-]|[? Hj]]%lookup_insert_Some; [split; [done|apply Hr']|].
    apply Hg in Hj as [? ?]. split; [done|]. by eapply good_mono.
  - eapply pool_after; [exact Hl|done|done|exact Hto|exact Hk|exact HC|done..].
  - intros vs j Hj. apply Hq' in Hj as [? ?]. split; [done|]. by etrans.
Qed.

Lemma led_step r0 s r' to acts :
  group_inv r0 s → to ≠ replica_addr 0 → led to r0 acts r' → group_inv r' (after s 0 r' acts).
Proof.
  intros Hs Hto (Hr' & Hk & HC & Hq & Ha). pose proof Hs as [Hl Hlead Hg Hp Hn Hacks Hd].
  assert (lastOp r0 ≤ lastOp r') as Hlo by (rewrite !lead_last by done; apply prefix_length in Hk; lia).
  eapply leader_step; try done; rewrite ?HC, ?Hq; try done. eapply durable_mono; [|exact Hd].
  by eapply last_at_mono.
Qed.

(** An operation the leader commits is at the leader and at the replicas that
    have acknowledged it. *)
Lemma counted_step r0 s r' to msg acts :
  group_inv r0 s → to ≠ replica_addr 0 → counted to msg r0 acts r' →
  1 ≤ ok_replicaIdx msg < n c → ok_opnum msg ≤ last_at s (ok_replicaIdx msg) →
  group_inv r' (after s 0 r' acts).
Proof.
  intros Hs Hto (Hr' & Hk & HC & Hq & Hcase & Ha) Hidx Hop. pose proof Hs as [Hl Hlead Hg Hp Hn Hacks Hd].
  assert (lastOp r0 ≤ lastOp r') as Hlo by (rewrite !lead_last by done; apply prefix_length in Hk; lia).
  pose proof (last_at_mono s 0 r0 r' acts Hl Hlo) as Hm.
  destruct (AddAndCheck_spec (prepareOKQuorum r0) (mkVS 0 (ok_opnum msg)) (ok_replicaIdx msg) msg)
    as (Hmm & Hof & Hnum).
  set (mm := <[ok_replicaIdx msg := msg]> (messages_of (prepareOKQuorum r0) (mkVS 0 (ok_opnum msg)))) in *.
  assert (∀ j, is_Some (mm !! j) → 1 ≤ j < n c ∧ ok_opnum msg ≤ last_at s j) as Hmem.
  { intros j. subst mm. rewrite lookup_insert_is_Some. intros [<-|[_ Hj]]; [done|].
    by apply (Hacks (mkVS 0 (ok_opnum msg))) in Hj. }
  eapply leader_step; try done.
  - rewrite Hq, Hnum. done.
  - intros vs j. rewrite Hq, Hof. case_decide as Hvs; [|apply Hacks]. subst vs. apply Hmem.
  - destruct Hcase as [->|[Hsome Hlc]]; [by eapply durable_mono|right].
    rewrite Hmm in Hsome. destruct (Z.leb_spec (numRequired (prepareOKQuorum r0)) (Z.of_nat (size mm))) as [Hsz|]; [|by destruct Hsome].
    exists ({[0]} ∪ dom mm). split_and!.
    + intros j. rewrite elem_of_union, elem_of_singleton, elem_of_dom. unfold all_replicas.
      rewrite elem_of_list_to_set, elem_of_seqZ. destruct Hc. intros [->|[? _]%Hmem]; lia.
    + rewrite size_union, size_singleton, size_dom; [lia|].
      apply disjoint_singleton_l. intros [? _]%elem_of_dom%Hmem. lia.
    + intros j. rewrite elem_of_union, elem_of_singleton, elem_of_dom. intros [->|[_ Hj]%Hmem].
      * rewrite last_at_after, (g_last _ _ _ _ (l_good _ Hr')). apply (g_inv _ _ _ _ (l_good _ Hr')).
      * rewrite Hlc. by etrans.
Qed.

(** A message delivered. *)
Definition answers_to (src : address) (m : vr_message) : address :=
  match m with RequestStateTransferMsg _ => src | _ => replica_addr 1 end.

Lemma answers_to_ok L C s src dst m : msg_ok L C s (src, dst, m) → answers_to src m ≠ replica_addr 0.
Proof. destruct m; simpl; try (intros _ ?%replica_addr_inj; done). by intros [_ ?]. Qed.

Lemma msg_receivable L C s src dst m : msg_ok L C s (src, dst, m) → receivable L C src (answers_to src m) m.
Proof. destruct m; simpl; naive_solver. Qed.

Lemma follower_receives r0 s i r src m x acts r' :
  group_inv r0 s → i ≠ 0 → replicas_of s !! i = Some r → answers_to src m ≠ replica_addr 0 →
  receivable (keys r0) (lastCommitted r0) src (answers_to src m) m →
  ReceiveMessage src m r = Ret (x, (acts, r')) → group_inv r0 (after s i r' acts).
Proof.
  intros Hs Hi Hr Hto Hm Hx. pose proof (proj2 (gi_good _ _ Hs _ _ Hr)) as Hg. pose proof (gi_lead _ _ Hs) as Hl.
  pose proof (lead_bound _ Hl) as Hb. rewrite lead_last in Hb by done.
  eapply fine_ReceiveMessage in Hx as (Hg' & Hlo & Ha); [|apply (l_view _ Hl)|lia|exact Hi|exact Hm|exact Hg].
  by eapply follower_step.
Qed.

Lemma leader_receives r0 s src dst m x acts r' :
  group_inv r0 s → msg_ok (keys r0) (lastCommitted r0) s (src, dst, m) → dst = replica_addr 0 →
  ReceiveMessage src m r0 = Ret (x, (acts, r')) → group_inv r' (after s 0 r' acts).
Proof.
  intros Hs Hm Hdst Hx. pose proof (gi_lead _ _ Hs) as Hl. pose proof (l_good _ Hl) as Hg.
  pose proof (answers_to_ok _ _ _ _ _ _ Hm) as Hto.
  destruct m as [| | | |p|k|k|k|k| | |]; simpl in Hx, Hm; try done.
  - exfalso. unfold HandlePrepare in Hx. apply vr_bind_inv in Hx as (? & ? & ? & ? & [= <- <- <-] & Hx & _).
    destruct Hm as (Hv & _). rewrite (status_good _ _ _ _ Hg), (g_view _ _ _ _ Hg), Hv, (AmLeader_good _ _ _ _ Hg) in Hx.
    done.
  - destruct Hm as (Hv & Hi & Hop). eapply counted_step; [done|exact Hto| |exact Hi|exact Hop].
    by eapply lead_HandlePrepareOK.
  - exfalso. unfold HandleCommit in Hx. apply vr_bind_inv in Hx as (? & ? & ? & ? & [= <- <- <-] & Hx & _).
    destruct Hm as (Hv & _). rewrite (status_good _ _ _ _ Hg), (g_view _ _ _ _ Hg), Hv, (AmLeader_good _ _ _ _ Hg) in Hx.
    done.
  - destruct Hm as [Hv Hsrc]. eapply led_step; [done|exact Hsrc|].
    eapply leads_HandleRequestStateTransfer; [exact Hv|reflexivity|done|exact Hx].
  - by destruct Hm.
Qed.

Lemma net_run_inv s i m s' :
  net_run c s i m = Some s' →
  ∃ r x acts r', replicas_of s !! i = Some r ∧ m r r = Ret (x, (acts, r')) ∧ s' = after s i r' acts.
Proof.
  unfold net_run. intros (r & Hr & Hx)%bind_Some. destruct (m r r) as [[x [acts r']]|] eqn:Hm; [|done].
  injection Hx as <-. by exists r, x, acts, r'.
Qed.

(** A step of the group other than a view change timer. *)
Lemma group_step r0 s ev s' :
  group_inv r0 s → normal_event ev → net_step c s ev = Some s' → ∃ r0', group_inv r0' s'.
Proof.
  intros Hs Hev Hstep. assert (∀ i r, replicas_of s !! i = Some r → i = 0 → r = r0) as H0r.
  { intros i r Hi ->. pose proof (gi_leader _ _ Hs). congruence. }
  assert (replica_addr 1 ≠ replica_addr 0) as H10 by (by intros ?%replica_addr_inj).
  destruct ev as [i k|i src req|i src req|i t]; simpl in Hstep.
  - apply bind_Some in Hstep as ([[src dst] m] & Hk & Hstep). case_decide as Hdst; [|done].
    apply net_run_inv in Hstep as (r & x & acts & r' & Hr & Hx & ->).
    pose proof (Forall_lookup_1 _ _ _ _ (gi_pool _ _ Hs) Hk) as Hm.
    destruct (decide (i = 0)) as [->|Hi].
    + rewrite (H0r _ _ Hr eq_refl) in Hx. exists r'. by eapply leader_receives.
    + exists r0. eapply follower_receives; [done..|by eapply answers_to_ok|by eapply msg_receivable|exact Hx].
  - apply net_run_inv in Hstep as (r & x & acts & r' & Hr & Hx & ->). destruct (decide (i = 0)) as [->|Hi].
    + rewrite (H0r _ _ Hr eq_refl) in Hx. exists r'. eapply led_step; [done|exact H10|].
      eapply leads_HandleRequest; [apply Hs|exact Hx].
    + exists r0. by eapply (follower_receives _ _ _ _ src (RequestMessage req)).
  - apply net_run_inv in Hstep as (r & x & acts & r' & Hr & Hx & ->). destruct (decide (i = 0)) as [->|Hi].
    + rewrite (H0r _ _ Hr eq_refl) in Hx. exists r'. eapply led_step; [done|exact H10|].
      eapply leads_HandleUnloggedRequest; [apply Hs|exact Hx].
    + exists r0. by eapply (follower_receives _ _ _ _ src (UnloggedRequestMessage req)).
  - apply net_run_inv in Hstep as (r & x & acts & r' & Hr & Hx & ->). destruct (timer_active r t); [|done].
    assert (t ≠ ViewChangeTimer) as Ht by (intros ->; by eapply Hev).
    destruct (decide (i = 0)) as [->|Hi].
    + rewrite (H0r _ _ Hr eq_refl) in Hx. exists r'. eapply led_step; [done|exact H10|].
      eapply leads_timer; [done|apply Hs|exact Hx].
    + exists r0.
      eapply (fine_timer (keys r0) (lastCommitted r0) i (replica_addr 1)) in Hx as (? & ? & ?);
        [|done..|by apply (gi_good _ _ Hs)].
      by eapply follower_step.
Qed.

Lemma new_good bs a i : good [] 0 i (new_vr c i bs (a, [])).
Proof.
  by split.
Qed.

Lemma group_init bs a : group_inv (new_vr c 0 bs (a, [])) (new_net c bs (a, [])).
Proof.
  assert (∀ j r, replicas_of (new_net c bs (a, [])) !! j = Some r ↔
            0 ≤ j < n c ∧ r = new_vr c j bs (a, [])) as Hlk.
  { intros j r. unfold new_net. simpl. rewrite <- elem_of_list_to_map.
    - rewrite list_elem_of_fmap. setoid_rewrite elem_of_seqZ. split; [intros (? & [= -> ->] & ?)|intros [? ->]].
      + split; [lia|done].
      + exists j. split; [done|lia].
    - rewrite <- list_fmap_compose. apply (NoDup_fmap_2_strong _), NoDup_seqZ. by intros ? ? _ _ ?. }
  split; try done.
  - apply Hlk. destruct Hc. split; [lia|done].
  - intros j r [? ->]%Hlk. split; [done|apply new_good].
  - simpl. intros vs j. unfold messages_of. simpl. rewrite lookup_empty. simpl. rewrite lookup_empty. by intros [? ?].
  - by left.
Qed.

Lemma group_steps evs r0 s s' :
  group_inv r0 s → Forall normal_event evs → net_steps c s evs = Some s' →
  ∃ r0', group_inv r0' s'.
Proof.
  intros Hs Hev. revert r0 s Hs. induction Hev as [|ev evs Hev _ IH]; intros r0 s Hs.
  { intros [= <-]. by exists r0. }
  unfold net_steps. simpl. destruct (net_step c s ev) as [s1|] eqn:H1; simpl.
  - destruct (group_step _ _ _ _ Hs Hev H1) as [r1 Hs1]. by apply (IH r1 s1).
  - clear. intros Hn. exfalso. revert Hn. by induction evs.
Qed.

Lemma take_fmap_prefix {X Y} (f : X → Y) (l : list X) (a b : nat) :
  (a ≤ b)%nat → f <$> take a l `prefix_of` f <$> take b l.
Proof.
  intros Hab. exists (f <$> drop a (take b l)). rewrite <- fmap_app. f_equal.
  rewrite <- (take_drop a (take b l)) at 1. by rewrite take_take, Nat.min_l by lia.
Qed.

(** What a replica has executed is the start of the leader's log. *)
Lemma executed_keys L C i r :
  good L C i r →
  executed r = (λ k : key, (vs_opnum k.1, req_op k.2)) <$> take (Z.to_nat (lastCommitted r)) L.
Proof.
  intros Hr. rewrite (vi_exec _ (g_inv _ _ _ _ Hr)). pose proof (vi_committed _ (g_inv _ _ _ _ Hr)).
  destruct (g_keys _ _ _ _ Hr) as [t ->]. unfold keys in *.
  rewrite take_app_le by (rewrite length_fmap; lia). rewrite <- fmap_take, <- list_fmap_compose. done.
Qed.

Lemma entry_of_keys L C i r op :
  good L C i r → 1 ≤ op ≤ lastOp r → ∃ e, entry_of (log r) op = Some e ∧ L !! Z.to_nat (op - 1) = Some (entry_key e).
Proof.
  intros Hr Hop. rewrite (g_last _ _ _ _ Hr) in Hop.
  destruct (entry_of_is_Some (log r) op) as [e He]; [apply Hr|..].
  { rewrite LastOpnum_wf, (vi_start _ (g_inv _ _ _ _ Hr)) by apply Hr. lia. }
  exists e. split; [done|]. eapply prefix_lookup_Some; [|apply Hr]. unfold keys. rewrite list_lookup_fmap.
  unfold entry_of in He. rewrite (vi_start _ (g_inv _ _ _ _ Hr)) in He. destruct (_ <? _)%Z; [done|]. by rewrite He.
Qed.

End normal.

(** C12. Without view changes the group is safe.  As long as no view change timer
    fires, whatever messages are lost, duplicated, delayed or reordered, and
    whatever the clients ask: of what any two replicas have executed, one is a
    prefix of the other; and every operation a replica has committed is, under
    the same viewstamp and with the same request, in the logs of a quorum. *)
Theorem vr_normal_case {A} `{AppReplica A} `{SHA1} (c : Configuration) (bs : Z) (a : A) evs s :
  config_ok c → Forall normal_event evs →
  net_steps c (new_net c bs (a, [])) evs = Some s →
  (∀ i j ri rj, replicas_of s !! i = Some ri → replicas_of s !! j = Some rj →
     executed ri `prefix_of` executed rj ∨ executed rj `prefix_of` executed ri) ∧
  (∀ i ri op, replicas_of s !! i = Some ri → 1 ≤ op ≤ lastCommitted ri →
     ∃ e X, entry_of (log ri) op = Some e ∧ X ⊆ all_replicas c ∧ QuorumSize c ≤ Z.of_nat (size X) ∧
       ∀ j, j ∈ X → ∃ rj ej, replicas_of s !! j = Some rj ∧ entry_of (log rj) op = Some ej ∧
         entry_key ej = entry_key e).
Proof.
  intros Hc Hev Hs. destruct (group_steps c Hc evs _ _ _ (group_init c Hc bs a) Hev Hs) as [r0 Hg]. split.
  - intros i j ri rj Hi Hj. apply (gi_good _ _ _ Hg) in Hi as [_ Hi], Hj as [_ Hj].
    rewrite (executed_keys c _ _ _ _ Hi), (executed_keys c _ _ _ _ Hj).
    destruct (Z.le_ge_cases (lastCommitted ri) (lastCommitted rj)); [left|right]; apply take_fmap_prefix; lia.
  - intros i ri op Hi Hop. apply (gi_good _ _ _ Hg) in Hi as [_ Hi].
    pose proof (vi_committed _ (g_inv _ _ _ _ _ Hi)) as Hcm. pose proof (g_last _ _ _ _ _ Hi) as Hlast.
    pose proof (g_comm _ _ _ _ _ Hi) as HC.
    destruct (entry_of_keys c _ _ _ _ op Hi) as (e & He & Hk); [lia|].
    destruct (gi_durable _ _ _ Hg) as [?|(X & HX & Hsz & Hlo)]; [lia|]. exists e, X. split_and!; try done.
    intros j Hj%Hlo. unfold last_at in Hj. destruct (replicas_of s !! j) as [rj|] eqn:Hrj; simpl in Hj; [|lia].
    apply (gi_good _ _ _ Hg) in Hrj as [_ Hgj]. destruct (entry_of_keys c _ _ _ _ op Hgj) as (ej & Hej & Hkj); [lia|].
    exists rj, ej. split_and!; congruence.
Qed.

(** The run of [vr_executes_in_order]'s group: an operation prepared at replica 1
    and committed at both. *)
Lemma vr_normal_case_witness :
  ∃ s, demo_steps [ClientRequest 0 "client7" (mkReq "a" 7 1); Deliver 1 0; Deliver 0 2; Deliver 1 4] = Some s ∧
    executed_at s 0 = Some [(1, "a")] ∧ executed_at s 1 = Some [(1, "a")] ∧
    (∀ i j ri rj, replicas_of s !! i = Some ri → replicas_of s !! j = Some rj →
       executed ri `prefix_of` executed rj ∨ executed rj `prefix_of` executed ri).
Proof.
  eexists. split; [vm_compute; reflexivity|]. split; [vm_compute; reflexivity|]. split; [vm_compute; reflexivity|].
  refine (proj1 (@vr_normal_case unit base_app no_sha1 demo_config 1 tt
    [ClientRequest 0 "client7" (mkReq "a" 7 1); Deliver 1 0; Deliver 0 2; Deliver 1 4] _ _ _ _)).
  - unfold config_ok. simpl. lia.
  - by repeat constructor.
  - vm_compute. reflexivity.
Defined.
