(* ===== verification/VRClient.v ===== *)
(** * The client of viewstamped replication (replication/vr/client.{h,cc})

    The client sends a request to all replicas, again and again until one replies,
    and calls back with the first reply. *)

From S2P Require Import Prelude Quorum IRRecord VRReplica.

(** [vp_unlogged] holds the error continuation of a [PendingUnloggedRequest], and
    is [None] for a [PendingRequest]; [vp_timer] is whether the timer runs. *)
Record PendingRequest (K : Type) := mkVP {
  vp_request : string;
  vp_clientReqId : Z;
  vp_continuation : K;
  vp_timer : bool;
  vp_unlogged : option (option K)
}.
Arguments mkVP {K}. Arguments vp_request {K}. Arguments vp_clientReqId {K}.
Arguments vp_continuation {K}. Arguments vp_timer {K}. Arguments vp_unlogged {K}.

Record VRClient (K : Type) := mkVRC {
  vc_clientid : Z;
  vc_lastReqId : Z;
  vc_pendingReqs : gmap Z (PendingRequest K)
}.
Arguments mkVRC {K}. Arguments vc_clientid {K}. Arguments vc_lastReqId {K}. Arguments vc_pendingReqs {K}.

(** [reqId] is the request whose callback [k] is called. *)
Inductive vr_client_action (K : Type) :=
| VToAll (m : vr_message)
| VToReplica (i : Z) (m : vr_message)
| VContinue (reqId : Z) (k : K) (request reply : string)
| VTimeout (reqId : Z) (k : K) (request : string).
Arguments VToAll {K}. Arguments VToReplica {K}. Arguments VContinue {K}. Arguments VTimeout {K}.

Section methods.
Context {K : Type} (up : bool).
Implicit Types (p : PendingRequest K) (c : VRClient K).
Notation result := (list (vr_client_action K) * VRClient K)%type.

Definition new_vrclient (id : Z) : VRClient K := mkVRC id 0 ∅.

Definition vc_set c (reqId : Z) p : VRClient K :=
  mkVRC (vc_clientid c) (vc_lastReqId c) (<[reqId := p]> (vc_pendingReqs c)).
Definition vc_erase c (reqId : Z) : VRClient K :=
  mkVRC (vc_clientid c) (vc_lastReqId c) (delete reqId (vc_pendingReqs c)).

(** [++lastReqId] *)
Definition vc_next c : Z := u64 (vc_lastReqId c + 1).
Definition vc_bump c : VRClient K := mkVRC (vc_clientid c) (vc_next c) (vc_pendingReqs c).

Definition SendRequest c p : result :=
  let reqMsg := mkReq (vp_request p) (vc_clientid c) (vp_clientReqId p) in
  if up then
    ([VToAll (RequestMessage reqMsg)],
     vc_set c (vp_clientReqId p)
       (mkVP (vp_request p) (vp_clientReqId p) (vp_continuation p) true (vp_unlogged p)))
  else ([], vc_erase c (vp_clientReqId p)).

Definition vr_Invoke c (request : string) (continuation : K) (error_continuation : option K) : result :=
  let reqId := vc_next c in
  let req := mkVP request reqId continuation false None in
  SendRequest (vc_set (vc_bump c) reqId req) req.

Definition vr_InvokeUnlogged c (replicaIdx : Z) (request : string) (continuation : K)
    (error_continuation : option K) : result :=
  let reqId := vc_next c in
  let reqMsg := mkReq request (vc_clientid c) reqId in
  if up then
    ([VToReplica replicaIdx (UnloggedRequestMessage reqMsg)],
     vc_set (vc_bump c) reqId (mkVP request reqId continuation true (Some error_continuation)))
  else ([], vc_bump c).

Definition ResendRequest c (reqId : Z) : result :=
  match vc_pendingReqs c !! reqId with
  | None => ([], c)
  | Some p => SendRequest c p
  end.

Definition HandleReply c (msg : ReplyMessage) : result :=
  let reqId := rep_clientreqid msg in
  match vc_pendingReqs c !! reqId with
  | None => ([], c)
  | Some p => ([VContinue reqId (vp_continuation p) (vp_request p) (rep_reply msg)], vc_erase c reqId)
  end.

Definition vr_HandleUnloggedReply c (reply : string) (reqId : Z) : result :=
  match vc_pendingReqs c !! reqId with
  | None => ([], c)
  | Some p => ([VContinue reqId (vp_continuation p) (vp_request p) reply], vc_erase c reqId)
  end.

(** The [static_cast] needs a [PendingUnloggedRequest]. *)
Definition vr_UnloggedRequestTimeoutCallback c (reqId : Z) : outcome result :=
  match vc_pendingReqs c !! reqId with
  | None => Ret ([], c)
  | Some p =>
      match vp_unlogged p with
      | Some ek =>
          Ret (match ek with Some k => [VTimeout reqId k (vp_request p)] | None => [] end, vc_erase c reqId)
      | None => Panic
      end
  end.

Definition vr_ReceiveMessage c (m : vr_message) : outcome result :=
  match m with
  | ReplyMsg msg => Ret (HandleReply c msg)
  | UnloggedReplyMessage reply reqId => Ret (vr_HandleUnloggedReply c reply reqId)
  | _ => Panic
  end.

(** The timer of a request goes off: it starts again, then calls back. *)
Definition vr_fire_timer c (reqId : Z) : outcome result :=
  match vc_pendingReqs c !! reqId with
  | Some p =>
      ASSERT! vp_timer p;
      match vp_unlogged p with
      | Some _ => vr_UnloggedRequestTimeoutCallback c reqId
      | None => Ret (ResendRequest c reqId)
      end
  | None => Panic
  end.

End methods.

(** ** Runs *)

Inductive vr_event (K : Type) :=
| VInvoke (op : string) (k : K)
| VInvokeUnlogged (i : Z) (op : string) (k : K) (ek : option K)
| VReceive (m : vr_message)
| VTimer (reqId : Z).
Arguments VInvoke {K}. Arguments VInvokeUnlogged {K}. Arguments VReceive {K}. Arguments VTimer {K}.

Section runs.
Context {K : Type}.
Implicit Types (c : VRClient K) (acts sent : list (vr_client_action K)) (recv : list vr_message).

Definition vr_client_step (up : bool) c (ev : vr_event K) : outcome (list (vr_client_action K) * VRClient K) :=
  match ev with
  | VInvoke op k => Ret (vr_Invoke up c op k None)
  | VInvokeUnlogged i op k ek => Ret (vr_InvokeUnlogged up c i op k ek)
  | VReceive m => vr_ReceiveMessage c m
  | VTimer reqId => vr_fire_timer up c reqId
  end.

(** A client does not make [2^64] requests, gets replies only, and a timer that
    goes off is running. *)
Definition vr_possible c (ev : vr_event K) : Prop :=
  match ev with
  | VInvoke _ _ | VInvokeUnlogged _ _ _ _ => vc_lastReqId c + 1 < 2 ^ 64
  | VReceive m => match m with ReplyMsg _ | UnloggedReplyMessage _ _ => True | _ => False end
  | VTimer reqId => ∃ p, vc_pendingReqs c !! reqId = Some p
  end.

Definition vr_received (ev : vr_event K) : list vr_message := match ev with VReceive m => [m] | _ => [] end.

(** What was asked: the operation, the callback and whether it is logged. *)
Record asked := mkAsked { ask_op : string; ask_k : K; ask_logged : bool }.

(** The requests an event invokes. *)
Definition invoked c (ev : vr_event K) : list (Z * asked) :=
  match ev with
  | VInvoke op k => [(vc_next c, mkAsked op k true)]
  | VInvokeUnlogged _ op k _ => [(vc_next c, mkAsked op k false)]
  | _ => []
  end.

(** The client invoked [reqs], took the actions [sent] and received [recv]. *)
Inductive vr_client_run (id : Z) :
    list (Z * asked) → list (vr_client_action K) → list vr_message → VRClient K → Prop :=
| vrun_new : vr_client_run id [] [] [] (new_vrclient id)
| vrun_step reqs sent recv c ev acts c' :
    vr_client_run id reqs sent recv c → vr_possible c ev → vr_client_step true c ev = Ret (acts, c') →
    vr_client_run id (reqs ++ invoked c ev) (sent ++ acts) (recv ++ vr_received ev) c'.

Definition is_callback_of (j : Z) (a : vr_client_action K) : Prop :=
  match a with VContinue i _ _ _ | VTimeout i _ _ => i = j | _ => False end.
#[global] Instance is_callback_of_dec j a : Decision (is_callback_of j a).
Proof. destruct a; simpl; apply _. Defined.

(** The callbacks of request [j]. *)
Definition callbacks (j : Z) sent : list (vr_client_action K) := filter (is_callback_of j) sent.

(** The message replies to request [j]. *)
Definition replies_to (j : Z) (reply : string) (m : vr_message) : Prop :=
  match m with
  | ReplyMsg msg => rep_clientreqid msg = j ∧ rep_reply msg = reply
  | UnloggedReplyMessage r i => i = j ∧ r = reply
  | _ => False
  end.

(** Request [j] for [x] is not pending. *)
Definition request_done (j : Z) (x : asked) sent recv : Prop :=
  (∃ reply m, callbacks j sent = [VContinue j (ask_k x) (ask_op x) reply] ∧ m ∈ recv ∧ replies_to j reply m) ∨
  (ask_logged x = false ∧
   (callbacks j sent = [] ∨ ∃ k, callbacks j sent = [VTimeout j k (ask_op x)])).

(** The request of [p] is pending, and will be sent again or time out. *)
Definition request_pending (j : Z) (x : asked) sent (p : PendingRequest K) : Prop :=
  vp_request p = ask_op x ∧ vp_continuation p = ask_k x ∧ vp_clientReqId p = j ∧ vp_timer p = true ∧
  (vp_unlogged p = None ↔ ask_logged x = true) ∧ callbacks j sent = [].

Record vr_client_ok (id : Z) (reqs : list (Z * asked)) sent recv c : Prop := {
  vk_id : vc_clientid c = id;
  vk_last : 0 ≤ vc_lastReqId c < 2 ^ 64;
  vk_range j x : (j, x) ∈ reqs → 1 ≤ j ≤ vc_lastReqId c;
  vk_fresh j : vc_lastReqId c < j → vc_pendingReqs c !! j = None ∧ callbacks j sent = [];
  vk_known j p : vc_pendingReqs c !! j = Some p → ∃ x, (j, x) ∈ reqs;
  vk_life j x : (j, x) ∈ reqs →
    match vc_pendingReqs c !! j with
    | Some p => request_pending j x sent p
    | None => request_done j x sent recv
    end;
  vk_sent r : VToAll (RequestMessage r) ∈ sent → ∃ j x, (j, x) ∈ reqs ∧ r = mkReq (ask_op x) id j
}.

Lemma callbacks_app j sent acts : callbacks j (sent ++ acts) = callbacks j sent ++ callbacks j acts.
Proof. apply filter_app. Qed.

Lemma request_done_mono j x sent recv acts ms :
  request_done j x sent recv → callbacks j acts = [] → request_done j x (sent ++ acts) (recv ++ ms).
Proof.
  unfold request_done. rewrite callbacks_app. intros Hd ->. rewrite app_nil_r.
  destruct Hd as [(r & m & ? & ? & ?)|]; [left|by right]. exists r, m. split_and!; [done|set_solver|done].
Qed.

Lemma request_pending_mono j x sent p acts :
  request_pending j x sent p → callbacks j acts = [] → request_pending j x (sent ++ acts) p.
Proof.
  intros (? & ? & ? & ? & ? & Hc) Ha. unfold request_pending. rewrite callbacks_app, Hc, Ha. done.
Qed.

Lemma ok_keep id reqs sent recv c acts ms :
  vr_client_ok id reqs sent recv c → (∀ j, callbacks j acts = []) →
  (∀ r, VToAll (RequestMessage r) ∈ acts → ∃ j x, (j, x) ∈ reqs ∧ r = mkReq (ask_op x) id j) →
  vr_client_ok id reqs (sent ++ acts) (recv ++ ms) c.
Proof.
  intros [Hid Hl Hr Hf Hk Hlife Hs] Hacts Hreq. split; try done.
  - intros j Hj. rewrite callbacks_app, Hacts, app_nil_r. by apply Hf.
  - intros j x Hj. specialize (Hlife j x Hj). destruct (vc_pendingReqs c !! j).
    + by apply request_pending_mono.
    + by apply request_done_mono.
  - intros r [Hin|Hin]%elem_of_app; [by apply Hs|by apply Hreq].
Qed.

Lemma ok_invoke id reqs sent recv c x p acts :
  vr_client_ok id reqs sent recv c → vc_lastReqId c + 1 < 2 ^ 64 →
  request_pending (vc_next c) x [] p → (∀ j, callbacks j acts = []) →
  (∀ r, VToAll (RequestMessage r) ∈ acts → r = mkReq (ask_op x) id (vc_next c)) →
  vr_client_ok id (reqs ++ [(vc_next c, x)]) (sent ++ acts) (recv ++ [])
    (vc_set (vc_bump c) (vc_next c) p).
Proof.
  intros [Hid Hl Hr Hf Hk Hlife Hs] Hlt Hp Hacts Hreq.
  assert (vc_next c = vc_lastReqId c + 1) as Hn by (unfold vc_next; rewrite u64_id; [done|unfold is_u64; lia]).
  destruct (Hf (vc_next c)) as [Hfp Hfc]; [lia|]. rewrite app_nil_r. split; simpl; try done.
  - rewrite Hn. lia.
  - intros j y [Hj|Hj%list_elem_of_singleton]%elem_of_app; [specialize (Hr j y Hj); lia|]. injection Hj as -> ->. lia.
  - intros j Hj. rewrite callbacks_app, Hacts, app_nil_r, lookup_insert_ne by lia. apply Hf. lia.
  - intros j q. destruct (decide (j = vc_next c)) as [->|].
    + intros _. exists x. set_solver.
    + rewrite lookup_insert_ne by done. intros [y Hy]%Hk. exists y. set_solver.
  - intros j y [Hj|Hj%list_elem_of_singleton]%elem_of_app.
    + assert (j ≠ vc_next c) as Hne by (specialize (Hr j y Hj); lia). rewrite lookup_insert_ne by done.
      specialize (Hlife j y Hj). destruct (vc_pendingReqs c !! j); [by apply request_pending_mono|].
      rewrite <-(app_nil_r recv). by apply request_done_mono.
    + injection Hj as -> ->. rewrite lookup_insert_eq. destruct Hp as (? & ? & ? & ? & ? & _).
      unfold request_pending. by rewrite callbacks_app, Hacts, Hfc.
  - intros r [Hin|Hin]%elem_of_app.
    + destruct (Hs r Hin) as (j & y & ? & ?). exists j, y. set_solver.
    + exists (vc_next c), x. split; [set_solver|by apply Hreq].
Qed.

Lemma ok_answer id reqs sent recv c j p acts ms :
  vr_client_ok id reqs sent recv c → vc_pendingReqs c !! j = Some p →
  (∀ i, i ≠ j → callbacks i acts = []) → (∀ r, VToAll (RequestMessage r) ∉ acts) →
  (∀ x, request_pending j x sent p → request_done j x (sent ++ acts) (recv ++ ms)) →
  vr_client_ok id reqs (sent ++ acts) (recv ++ ms) (vc_erase c j).
Proof.
  intros [Hid Hl Hr Hf Hk Hlife Hs] Hp Hacts Hreq Hdone. split; simpl; try done.
  - intros i Hi. destruct (Hf i Hi) as [Hfp Hfc]. assert (i ≠ j) by congruence.
    rewrite lookup_delete_ne, callbacks_app, Hacts, app_nil_r by done. done.
  - intros i q. destruct (decide (i = j)) as [->|]; [by rewrite lookup_delete_eq|].
    rewrite lookup_delete_ne by done. apply Hk.
  - intros i x Hx. pose proof (Hlife i x Hx) as Hi. destruct (decide (i = j)) as [->|].
    + rewrite lookup_delete_eq. rewrite Hp in Hi. by apply Hdone.
    + rewrite lookup_delete_ne by done. destruct (vc_pendingReqs c !! i).
      * by apply request_pending_mono; [|apply Hacts].
      * by apply request_done_mono; [|apply Hacts].
  - intros r [Hin|Hin]%elem_of_app; [by apply Hs|by destruct (Hreq r)].
Qed.

(** An answer to [j] calls back once. *)
Lemma done_by_reply j x sent recv p reply m :
  request_pending j x sent p → replies_to j reply m →
  request_done j x (sent ++ [VContinue j (vp_continuation p) (vp_request p) reply]) (recv ++ [m]).
Proof.
  intros (-> & -> & _ & _ & _ & Hc) Hm. left. exists reply, m. split_and!; [|set_solver|done].
  rewrite callbacks_app, Hc. unfold callbacks. by rewrite filter_cons, decide_True by done.
Qed.

Lemma other_callbacks i j k op reply : i ≠ j → callbacks i [VContinue j k op reply] = [].
Proof. intros. unfold callbacks. rewrite filter_cons, decide_False; [done|simpl; congruence]. Qed.

Lemma timer_ok id reqs sent recv c j p :
  vr_client_ok id reqs sent recv c → vc_pendingReqs c !! j = Some p →
  ∃ acts c', vr_fire_timer true c j = Ret (acts, c') ∧ vr_client_ok id reqs (sent ++ acts) recv c'.
Proof.
  intros Hok Hp. unfold vr_fire_timer. rewrite Hp.
  destruct (vk_known _ _ _ _ _ Hok j p Hp) as [x Hx]. pose proof (vk_life _ _ _ _ _ Hok j x Hx) as Hlife.
  rewrite Hp in Hlife. destruct Hlife as (Hop & Hk & Hj & Ht & Hu & Hc). rewrite Ht.
  cbn [mbind outcome_bind ASSERT]. destruct (vp_unlogged p) as [ek|] eqn:Hul.
  - unfold vr_UnloggedRequestTimeoutCallback. rewrite Hp, Hul. do 2 eexists. split; [done|].
    rewrite <-(app_nil_r recv). eapply ok_answer; [done..| | |].
    + intros i Hi. destruct ek; [|done]. unfold callbacks.
      rewrite filter_cons, decide_False; [done|simpl; congruence].
    + destruct ek; set_solver.
    + intros y (Hop' & _ & _ & _ & Hy & Hc'). right. split.
      { rewrite Hul in Hy. destruct (ask_logged y); [|done]. by destruct Hy as [_ Hy]; specialize (Hy eq_refl). }
      rewrite callbacks_app, Hc'. destruct ek as [k|]; [right; exists k|by left]. unfold callbacks.
      rewrite filter_cons, decide_True by done. by rewrite Hop'.
  - unfold ResendRequest, SendRequest. rewrite Hp. do 2 eexists. split; [done|].
    assert (vc_set c (vp_clientReqId p) (mkVP (vp_request p) (vp_clientReqId p) (vp_continuation p) true None) = c) as Hc0.
    { rewrite Hj. unfold vc_set. rewrite insert_id; [by destruct c|]. rewrite Hp. f_equal.
      destruct p. simpl in *. congruence. }
    rewrite Hul, Hc0, <-(app_nil_r recv). apply ok_keep; [done..|]. intros r Hr%list_elem_of_singleton.
    injection Hr as ->. exists j, x. split; [done|]. by rewrite Hop, Hj, (vk_id _ _ _ _ _ Hok).
Qed.

Lemma step_ok id reqs sent recv c ev :
  vr_client_ok id reqs sent recv c → vr_possible c ev →
  ∃ acts c', vr_client_step true c ev = Ret (acts, c') ∧
    vr_client_ok id (reqs ++ invoked c ev) (sent ++ acts) (recv ++ vr_received ev) c'.
Proof.
  intros Hok Hev. destruct ev as [op k|i op k ek|m|j]; simpl in Hev |- *.
  - do 2 eexists. split; [done|]. unfold vc_set; simpl. rewrite insert_insert_eq.
    apply (ok_invoke _ _ _ _ _ (mkAsked op k true)
      (mkVP op (vc_next c) k true None)); [done..|intros r Hr]. apply list_elem_of_singleton in Hr.
    injection Hr as ->. by rewrite (vk_id _ _ _ _ _ Hok).
  - do 2 eexists. split; [done|].
    apply (ok_invoke _ _ _ _ _ (mkAsked op k false)); [done..|]. set_solver.
  - rewrite app_nil_r. destruct m as [| |msg|reply j| | | | | | | |]; try done; simpl;
      unfold HandleReply, vr_HandleUnloggedReply.
    + destruct (vc_pendingReqs c !! rep_clientreqid msg) as [p|] eqn:Hp; do 2 eexists; (split; [done|]).
      * eapply ok_answer; [done..|intros; by apply other_callbacks|set_solver|].
        intros x Hx. by apply done_by_reply.
      * apply ok_keep; [done..|set_solver].
    + destruct (vc_pendingReqs c !! j) as [p|] eqn:Hp; do 2 eexists; (split; [done|]).
      * eapply ok_answer; [done..|intros; by apply other_callbacks|set_solver|].
        intros x Hx. by apply done_by_reply.
      * apply ok_keep; [done..|set_solver].
  - rewrite !app_nil_r. destruct Hev as [p Hp]. by apply (timer_ok _ _ _ _ _ _ p).
Qed.

Lemma vr_run_ok id reqs sent recv c : vr_client_run id reqs sent recv c → vr_client_ok id reqs sent recv c.
Proof.
  induction 1 as [|reqs sent recv c ev acts c' _ IH Hev Hstep].
  { split; simpl; try done; set_solver. }
  destruct (step_ok _ _ _ _ _ _ IH Hev) as (acts' & c'' & Hs & Hok). congruence.
Qed.

End runs.
Arguments asked K : clear implicits.

(** The client of viewstamped replication.  With a working transport no reply or
    timer stops it.  A request that was invoked is either pending, not called
    back, and will be sent again (or time out, if it is unlogged), or it is done:
    it was called back exactly once, with a reply received for it; only unlogged
    requests are given up.  Every request sent is one that was invoked. *)
Theorem vr_client_callbacks {K} (id : Z) (reqs : list (Z * asked K)) sent recv c :
  vr_client_run id reqs sent recv c →
  (∀ ev, vr_possible c ev → ∃ acts c', vr_client_step true c ev = Ret (acts, c')) ∧
  (∀ j x, (j, x) ∈ reqs →
     match vc_pendingReqs c !! j with
     | Some p => request_pending j x sent p
     | None => request_done j x sent recv
     end) ∧
  (∀ r, VToAll (RequestMessage r) ∈ sent → ∃ j x, (j, x) ∈ reqs ∧ r = mkReq (ask_op x) id j).
Proof.
  intros Hok%vr_run_ok. split_and!.
  - intros ev Hev. destruct (step_ok _ _ _ _ _ _ Hok Hev) as (acts & c' & ? & _). eauto.
  - apply Hok.
  - apply Hok.
Qed.

Lemma vr_client_callbacks_witness :
  ∃ sent recv (c : VRClient nat), request_done 1 (mkAsked "op" 7%nat true) sent recv ∧ vc_pendingReqs c = ∅.
Proof.
  set (c := (vr_Invoke true (new_vrclient 5) "op" 7%nat None).2).
  assert (vr_client_run 5 (([] ++ [(1, mkAsked "op" 7%nat true)]) ++ [])
    (([] ++ [VToAll (RequestMessage (mkReq "op" 5 1))]) ++ [VContinue 1 7%nat "op" "res"])
    (([] ++ []) ++ [ReplyMsg (mkReplyMsg 0 1 1 "res")]) (vc_erase c 1)) as Hrun.
  { eapply (vrun_step _ _ _ _ c (VReceive (ReplyMsg (mkReplyMsg 0 1 1 "res")))); [|done|reflexivity].
    eapply (vrun_step _ _ _ _ (new_vrclient 5) (VInvoke "op" 7%nat)); [constructor|simpl; lia|reflexivity]. }
  eexists _, _, (vc_erase c 1). split; [|by vm_compute].
  destruct (vr_client_callbacks _ _ _ _ _ Hrun) as (_ & Hlife & _).
  apply (Hlife 1 (mkAsked "op" 7%nat true)). apply list_elem_of_here.
Defined.
