(* ===== verification/IRClient.v ===== *)
(** * The client of inconsistent replication (replication/ir/client.{h,cc},
    replication/common/client.{h,cc})

    The client sends an operation to the replicas, collects their replies and
    calls back.  An inconsistent operation is done when a quorum has it; a
    consensus operation returns either after one round trip, if a fast quorum
    agrees on the result, or after the result decided by the application is
    confirmed by a quorum. *)

From S2P Require Import Prelude Quorum IRRecord IRReplica.

Inductive ErrorCode := TIMEOUT | MISMATCHED_CONSENSUS_VIEWS.

(** [ReplyConsensusMessage] *)
Record ReplyConsensusMessage := mkRC {
  rc_view : Z;
  rc_replicaIdx : Z;
  rc_opid : opid_t;
  rc_result : string;
  rc_finalized : bool
}.

(** The callback of a [Timeout]. *)
Inductive client_timer :=
| TimerResendInconsistent
| TimerResendConsensus
| TimerResendConfirmation (isConsensus : bool)
| TimerUnlogged.

(** ** State

    [K] stands for the callbacks the application passes; [None] is a null
    [error_continuation].  A [Timeout] is its callback and whether it is
    running. *)

Record PendingConsensusRequest (K : Type) := mkPC {
  consensusReplyQuorum : QuorumSet Z ReplyConsensusMessage;
  app_decide : gmap string nat → string;
  decideResult : string;
  quorumSize : Z;
  superQuorumSize : Z;
  on_slow_path : bool;
  consensus_error : option K;
  transition_to_slow_path_timer : option bool;   (* [None] when reset *)
  reply_consensus_view : Z;
  sent_confirms : bool
}.
Arguments mkPC {K}.
Arguments consensusReplyQuorum {K}. Arguments app_decide {K}. Arguments decideResult {K}.
Arguments quorumSize {K}. Arguments superQuorumSize {K}. Arguments on_slow_path {K}.
Arguments consensus_error {K}. Arguments transition_to_slow_path_timer {K}.
Arguments reply_consensus_view {K}. Arguments sent_confirms {K}.

(** The subclasses of [PendingRequest]. *)
Inductive PendingKind (K : Type) :=
| PendingUnlogged (error_continuation : option K)
| PendingInconsistent (inconsistentReplyQuorum : QuorumSet viewstamp ir_reply)
| PendingConsensus (c : PendingConsensusRequest K).
Arguments PendingUnlogged {K}.
Arguments PendingInconsistent {K}.
Arguments PendingConsensus {K}.

Record PendingRequest (K : Type) := mkPending {
  request : string;
  clientReqId : Z;
  continuation : K;
  continuationInvoked : bool;
  timer : client_timer;
  timer_active : bool;
  confirmQuorum : QuorumSet viewstamp ir_reply;
  kind : PendingKind K
}.
Arguments mkPending {K}.
Arguments request {K}. Arguments clientReqId {K}. Arguments continuation {K}.
Arguments continuationInvoked {K}. Arguments timer {K}. Arguments timer_active {K}.
Arguments confirmQuorum {K}. Arguments kind {K}.

Record IRClient (K : Type) := mkIRC {
  cl_config : Configuration;
  clientid : Z;
  lastReqId : Z;
  pendingReqs : gmap Z (PendingRequest K)
}.
Arguments mkIRC {K}.
Arguments cl_config {K}. Arguments clientid {K}. Arguments lastReqId {K}. Arguments pendingReqs {K}.

(** [reqId] is the request whose callback [k] is called. *)
Inductive client_action (K : Type) :=
| ToAll (m : ir_request)
| ToReplica (i : Z) (m : ir_request)
| Continue (reqId : Z) (k : K) (request reply : string)
| ErrorContinue (reqId : Z) (k : K) (request : string) (err : ErrorCode).
Arguments ToAll {K}. Arguments ToReplica {K}. Arguments Continue {K}. Arguments ErrorContinue {K}.

Section updates.
Context {K : Type}.
Implicit Types (p : PendingRequest K) (x : PendingConsensusRequest K) (c : IRClient K).

Definition set_invoked p : PendingRequest K :=
  mkPending (request p) (clientReqId p) (continuation p) true (timer p) (timer_active p)
    (confirmQuorum p) (kind p).
Definition set_timer p (t : client_timer) (active : bool) : PendingRequest K :=
  mkPending (request p) (clientReqId p) (continuation p) (continuationInvoked p) t active
    (confirmQuorum p) (kind p).
Definition set_confirmQuorum p (q : QuorumSet viewstamp ir_reply) : PendingRequest K :=
  mkPending (request p) (clientReqId p) (continuation p) (continuationInvoked p) (timer p)
    (timer_active p) q (kind p).
Definition set_kind p (k : PendingKind K) : PendingRequest K :=
  mkPending (request p) (clientReqId p) (continuation p) (continuationInvoked p) (timer p)
    (timer_active p) (confirmQuorum p) k.

Definition set_replyQuorum x (q : QuorumSet Z ReplyConsensusMessage) : PendingConsensusRequest K :=
  mkPC q (app_decide x) (decideResult x) (quorumSize x) (superQuorumSize x) (on_slow_path x)
    (consensus_error x) (transition_to_slow_path_timer x) (reply_consensus_view x) (sent_confirms x).
Definition set_decideResult x (r : string) : PendingConsensusRequest K :=
  mkPC (consensusReplyQuorum x) (app_decide x) r (quorumSize x) (superQuorumSize x) (on_slow_path x)
    (consensus_error x) (transition_to_slow_path_timer x) (reply_consensus_view x) (sent_confirms x).
Definition set_reply_view x (v : Z) : PendingConsensusRequest K :=
  mkPC (consensusReplyQuorum x) (app_decide x) (decideResult x) (quorumSize x) (superQuorumSize x)
    (on_slow_path x) (consensus_error x) (transition_to_slow_path_timer x) v (sent_confirms x).
Definition set_sent_confirms x : PendingConsensusRequest K :=
  mkPC (consensusReplyQuorum x) (app_decide x) (decideResult x) (quorumSize x) (superQuorumSize x)
    (on_slow_path x) (consensus_error x) (transition_to_slow_path_timer x) (reply_consensus_view x) true.

(** [on_slow_path = true] and [transition_to_slow_path_timer.reset()]. *)
Definition take_slow_path x : PendingConsensusRequest K :=
  mkPC (consensusReplyQuorum x) (app_decide x) (decideResult x) (quorumSize x) (superQuorumSize x)
    true (consensus_error x) None (reply_consensus_view x) (sent_confirms x).

Definition set_pending c (reqId : Z) p : IRClient K :=
  mkIRC (cl_config c) (clientid c) (lastReqId c) (<[reqId := p]> (pendingReqs c)).
Definition erase_pending c (reqId : Z) : IRClient K :=
  mkIRC (cl_config c) (clientid c) (lastReqId c) (delete reqId (pendingReqs c)).

End updates.

(** ** Methods

    [up] is whether the transport accepts messages during the call. *)

Section methods.
Context {K : Type} (up : bool).
Implicit Types (p : PendingRequest K) (x : PendingConsensusRequest K) (c : IRClient K).
Notation result := (list (client_action K) * IRClient K)%type.

Definition new_client (config : Configuration) (id : Z) : IRClient K := mkIRC config id 0 ∅.

(** [++lastReqId] *)
Definition next_reqid c : Z := u64 (lastReqId c + 1).
Definition bump c : IRClient K := mkIRC (cl_config c) (clientid c) (next_reqid c) (pendingReqs c).

Definition mk_request c (op : string) (reqId : Z) : Request := mkReq op (clientid c) reqId.

Definition SendInconsistent c p : result :=
  if up then
    ([ToAll (ProposeInconsistent (mk_request c (request p) (clientReqId p)))],
     set_pending c (clientReqId p) (set_timer p (timer p) true))
  else ([], erase_pending c (clientReqId p)).

Definition InvokeInconsistent c (op : string) (k : K) (error_continuation : option K) : result :=
  let reqId := next_reqid c in
  let req := mkPending op reqId k false TimerResendInconsistent false
               (new_quorumset (QuorumSize (cl_config c)))
               (PendingInconsistent (new_quorumset (QuorumSize (cl_config c)))) in
  SendInconsistent (set_pending (bump c) reqId req) req.

Definition Invoke c (op : string) (k : K) (error_continuation : option K) : result :=
  InvokeInconsistent c op k error_continuation.

Definition SendConsensus c p : result :=
  if up then
    ([ToAll (ProposeConsensus (mk_request c (request p) (clientReqId p)))],
     set_pending c (clientReqId p) (set_timer p (timer p) true))
  else ([], erase_pending c (clientReqId p)).

(** The transition timer is started before the request is sent. *)
Definition InvokeConsensus c (op : string) (dec : gmap string nat → string) (k : K)
    (error_continuation : option K) : result :=
  let reqId := next_reqid c in
  let req := mkPending op reqId k false TimerResendConsensus false
               (new_quorumset (QuorumSize (cl_config c)))
               (PendingConsensus (mkPC (new_quorumset (QuorumSize (cl_config c))) dec ""
                  (QuorumSize (cl_config c)) (FastQuorumSize (cl_config c)) false
                  error_continuation (Some true) 0 false)) in
  SendConsensus (set_pending (bump c) reqId req) req.

Definition InvokeUnlogged c (replicaIdx : Z) (op : string) (k : K) (error_continuation : option K) :
    result :=
  let reqId := next_reqid c in
  let req := mkPending op reqId k false TimerUnlogged true (new_quorumset 1)
               (PendingUnlogged error_continuation) in
  if up then
    ([ToReplica replicaIdx (UnloggedRequest (mk_request c op reqId))], set_pending (bump c) reqId req)
  else ([], bump c).

(** The results of the messages and how many replicas sent each. *)
Definition count_results (msgs : gmap Z ReplyConsensusMessage) : gmap string nat :=
  foldl (λ m q, <[rc_result q.2 := S (default 0%nat (m !! rc_result q.2))]> m) ∅ (omap_iter Z.le msgs).

(** The view of the messages, which all have to have the same. *)
Definition common_view (msgs : gmap Z ReplyConsensusMessage) : outcome Z :=
  for_each (λ view q,
    let view := if (view =? 0)%Z then rc_view q.2 else view in
    ASSERT! (rc_view q.2 =? view)%Z; Ret view) 0 (omap_iter Z.le msgs).

(** [p] is the request and [x] its consensus part, as changed by the caller. *)
Definition HandleSlowPathConsensus c (reqid : Z) (msgs : gmap Z ReplyConsensusMessage)
    (finalized_result_found : bool) p x : outcome result :=
  ASSERT! finalized_result_found || (quorumSize x <=? Z.of_nat (size msgs))%Z;
  x ← (if finalized_result_found then Ret x
       else
         view ← common_view msgs;
         Ret (set_reply_view (set_decideResult x (app_decide x (count_results msgs))) view));
  if up then
    Ret ([ToAll (FinalizeConsensus (clientid c, reqid) (decideResult x))],
         set_pending c reqid (set_kind (set_timer p (TimerResendConfirmation true) true)
                                (PendingConsensus (set_sent_confirms x))))
  else Ret ([], erase_pending c reqid).

(** If the transport fails, the request is deleted and then used. *)
Definition HandleFastPathConsensus c (reqid : Z) (msgs : gmap Z ReplyConsensusMessage) p x :
    outcome result :=
  ASSERT! (superQuorumSize x <=? Z.of_nat (size msgs))%Z;
  match for_first (λ r, if (Z.of_nat r.2 <? superQuorumSize x)%Z then None else Some r.1)
          (omap_iter string_le (count_results msgs)) with
  | Some res =>
      if up then
        let x := set_sent_confirms (set_decideResult x res) in
        let p := set_kind (set_timer p (TimerResendConfirmation true) true) (PendingConsensus x) in
        Ret ([ToAll (FinalizeConsensus (clientid c, reqid) res)] ++
             (if continuationInvoked p then [] else [Continue reqid (continuation p) (request p) res]),
             set_pending c reqid (set_invoked p))
      else Panic
  | None => HandleSlowPathConsensus c reqid msgs false p (take_slow_path x)
  end.

Definition TransitionToConsensusSlowPath c (reqId : Z) : outcome result :=
  match pendingReqs c !! reqId with
  | Some p =>
      match kind p with
      | PendingConsensus x =>
          ASSERT! bool_decide (is_Some (transition_to_slow_path_timer x));
          let x := take_slow_path x in
          match CheckForQuorum_any Z.le (consensusReplyQuorum x) with
          | Some quorum => HandleSlowPathConsensus c reqId quorum false p x
          | None => Ret ([], set_pending c reqId (set_kind p (PendingConsensus x)))
          end
      | _ => Panic
      end
  | None => Panic
  end.

(** [static_cast]s: the request is of the class the flag says. *)
Definition ResendConfirmation c (reqId : Z) (isConsensus : bool) : outcome result :=
  match pendingReqs c !! reqId with
  | None => Ret ([], c)
  | Some p =>
      if isConsensus then
        match kind p with
        | PendingConsensus x =>
            if up then
              Ret ([ToAll (FinalizeConsensus (clientid c, clientReqId p) (decideResult x))],
                   set_pending c reqId (set_timer p (timer p) true))
            else Ret ([], erase_pending c reqId)
        | _ => Panic
        end
      else
        match kind p with
        | PendingInconsistent _ =>
            if up then
              Ret ([ToAll (FinalizeInconsistent (clientid c, clientReqId p))],
                   set_pending c reqId (set_timer p (timer p) true))
            else Ret ([], erase_pending c reqId)
        | _ => Panic
        end
  end.

Definition HandleInconsistentReply c (view replicaIdx : Z) (opid : opid_t) (finalized : bool) :
    outcome result :=
  let reqId := opid.2 in
  match pendingReqs c !! reqId with
  | None => Ret ([], c)
  | Some p =>
      match kind p with
      | PendingInconsistent q =>
          let '(ms, q) := AddAndCheckForQuorum q (mkVS view reqId) replicaIdx
                            (ReplyInconsistent view replicaIdx opid finalized) in
          let p := set_kind p (PendingInconsistent q) in
          if bool_decide (is_Some ms) && negb (continuationInvoked p) then
            Ret ((if up then [ToAll (FinalizeInconsistent opid)] else []) ++
                 [Continue reqId (continuation p) (request p) ""],
                 set_pending c reqId (set_invoked (set_timer p (TimerResendConfirmation false) up)))
          else Ret ([], set_pending c reqId p)
      | _ => Panic
      end
  end.

Definition HandleConsensusReply c (msg : ReplyConsensusMessage) : outcome result :=
  let reqId := (rc_opid msg).2 in
  match pendingReqs c !! reqId with
  | None => Ret ([], c)
  | Some p =>
      match kind p with
      | PendingConsensus x =>
          if sent_confirms x then Ret ([], c)
          else
            let x := set_replyQuorum x
                       (qs_Add (consensusReplyQuorum x) (rc_view msg) (rc_replicaIdx msg) msg) in
            let '(msgs, q) := GetMessages (consensusReplyQuorum x) (rc_view msg) in
            let x := set_replyQuorum x q in
            if rc_finalized msg then
              HandleSlowPathConsensus c reqId msgs true p
                (set_reply_view (set_decideResult (take_slow_path x) (rc_result msg)) (rc_view msg))
            else if on_slow_path x && (quorumSize x <=? Z.of_nat (size msgs))%Z then
              HandleSlowPathConsensus c reqId msgs false p x
            else if negb (on_slow_path x) && (superQuorumSize x <=? Z.of_nat (size msgs))%Z then
              HandleFastPathConsensus c reqId msgs p x
            else Ret ([], set_pending c reqId (set_kind p (PendingConsensus x)))
      | _ => Panic
      end
  end.

Definition HandleConfirm c (view replicaIdx : Z) (opid : opid_t) : outcome result :=
  let reqId := opid.2 in
  match pendingReqs c !! reqId with
  | None => Ret ([], c)
  | Some p =>
      let '(ms, q) := AddAndCheckForQuorum (confirmQuorum p) (mkVS view reqId) replicaIdx
                        (Confirm view replicaIdx opid) in
      let p := set_confirmQuorum p q in
      match ms with
      | None => Ret ([], set_pending c reqId p)
      | Some _ =>
          let c := erase_pending c reqId in
          if continuationInvoked p then Ret ([], c)
          else
            match kind p with
            | PendingConsensus r2 =>
                if (view =? reply_consensus_view r2)%Z then
                  Ret ([Continue reqId (continuation p) (request p) (decideResult r2)], c)
                else
                  Ret (match consensus_error r2 with
                       | Some k => [ErrorContinue reqId k (request p) MISMATCHED_CONSENSUS_VIEWS]
                       | None => []
                       end, c)
            | _ => Panic
            end
      end
  end.

Definition HandleUnloggedReply c (reply : string) (reqId : Z) : outcome result :=
  match pendingReqs c !! reqId with
  | None => Ret ([], c)
  | Some p => Ret ([Continue reqId (continuation p) (request p) reply], erase_pending c reqId)
  end.

Definition UnloggedRequestTimeoutCallback c (reqId : Z) : outcome result :=
  match pendingReqs c !! reqId with
  | None => Ret ([], c)
  | Some p =>
      match kind p with
      | PendingUnlogged ek =>
          Ret (match ek with Some k => [ErrorContinue reqId k (request p) TIMEOUT] | None => [] end,
               erase_pending c reqId)
      | _ => Panic
      end
  end.

Definition ReceiveMessage c (m : ir_reply) : outcome result :=
  match m with
  | ReplyInconsistent view replicaIdx opid finalized =>
      HandleInconsistentReply c view replicaIdx opid finalized
  | ReplyConsensus view replicaIdx opid res finalized =>
      HandleConsensusReply c (mkRC view replicaIdx opid res finalized)
  | Confirm view replicaIdx opid => HandleConfirm c view replicaIdx opid
  | UnloggedReply reply clientreqid => HandleUnloggedReply c reply clientreqid
  | SendDoViewChange _ | SendStartView _ => Panic
  end.

(** A request's timer goes off: it starts again, then calls back. *)
Definition fire_timer c (reqId : Z) : outcome result :=
  match pendingReqs c !! reqId with
  | Some p =>
      ASSERT! timer_active p;
      match timer p with
      | TimerResendInconsistent => Ret (SendInconsistent c p)
      | TimerResendConsensus => Ret (SendConsensus c p)
      | TimerResendConfirmation b => ResendConfirmation c reqId b
      | TimerUnlogged => UnloggedRequestTimeoutCallback c reqId
      end
  | None => Panic
  end.

End methods.
