(* ===== verification/IRClientProps.v ===== *)
(** * What the IR client guarantees

    Runs of the client against replicas that answer what they were asked, and
    whose messages the network may delay, reorder, duplicate and lose: which
    results the application gets, that it gets at most one per request, that no
    assertion fails, and when a request is over. *)

From S2P Require Import Prelude Quorum IRRecord IRReplica IRClient.

(** ** Runs *)

Inductive client_event (K : Type) :=
| EvInconsistent (op : string) (k : K)
| EvConsensus (op : string) (dec : gmap string nat → string) (k : K) (ek : option K)
| EvUnlogged (replicaIdx : Z) (op : string) (k : K) (ek : option K)
| EvReceive (m : ir_reply)
| EvTimer (reqId : Z)
| EvTransition (reqId : Z).
Arguments EvInconsistent {K}. Arguments EvConsensus {K}. Arguments EvUnlogged {K}.
Arguments EvReceive {K}. Arguments EvTimer {K}. Arguments EvTransition {K}.

Section runs.
Context {K : Type}.
Implicit Types (c : IRClient K) (acts sent : list (client_action K)) (recv : list ir_reply).

Definition client_step (up : bool) c (ev : client_event K) : outcome (list (client_action K) * IRClient K) :=
  match ev with
  | EvInconsistent op k => Ret (InvokeInconsistent up c op k None)
  | EvConsensus op dec k ek => Ret (InvokeConsensus up c op dec k ek)
  | EvUnlogged i op k ek => Ret (InvokeUnlogged up c i op k ek)
  | EvReceive m => ReceiveMessage up c m
  | EvTimer reqId => fire_timer up c reqId
  | EvTransition reqId => TransitionToConsensusSlowPath up c reqId
  end.

Definition invokes (ev : client_event K) : bool :=
  match ev with EvInconsistent _ _ | EvConsensus _ _ _ _ | EvUnlogged _ _ _ _ => true | _ => false end.

(** The message answers a request among the messages sent. *)
Definition answers (id : Z) sent (m : ir_reply) : Prop :=
  match m with
  | ReplyInconsistent _ _ opid _ =>
      opid.1 = id ∧ ∃ op, ToAll (ProposeInconsistent (mkReq op id opid.2)) ∈ sent
  | ReplyConsensus _ _ opid _ _ =>
      opid.1 = id ∧ ∃ op, ToAll (ProposeConsensus (mkReq op id opid.2)) ∈ sent
  | Confirm _ _ opid =>
      opid.1 = id ∧ (ToAll (FinalizeInconsistent opid) ∈ sent ∨ ∃ res, ToAll (FinalizeConsensus opid res) ∈ sent)
  | UnloggedReply _ reqId => ∃ i op, ToReplica i (UnloggedRequest (mkReq op id reqId)) ∈ sent
  | _ => False
  end.

(** What can happen next: a client does not make [2^64] requests, replies answer
    requests, and a timer that goes off is running. *)
Definition possible (id : Z) sent c (ev : client_event K) : Prop :=
  match ev with
  | EvReceive m => answers id sent m
  | EvTimer reqId => ∃ p, pendingReqs c !! reqId = Some p ∧ timer_active p = true
  | EvTransition reqId => ∃ p x, pendingReqs c !! reqId = Some p ∧ kind p = PendingConsensus x ∧
                            transition_to_slow_path_timer x = Some true
  | _ => lastReqId c + 1 < 2 ^ 64
  end.

Definition received (ev : client_event K) : list ir_reply :=
  match ev with EvReceive m => [m] | _ => [] end.

(** The client of configuration [cfg] has sent and called back [sent] and
    received [recv]; [U] restricts the state of the transport. *)
Inductive client_run (U : bool → Prop) (cfg : Configuration) (id : Z) :
    list (client_action K) → list ir_reply → IRClient K → Prop :=
| run_new : client_run U cfg id [] [] (new_client cfg id)
| run_step sent recv c up ev acts c' :
    client_run U cfg id sent recv c → U up → possible id sent c ev →
    client_step up c ev = Ret (acts, c') →
    client_run U cfg id (sent ++ acts) (recv ++ received ev) c'.

(** ** The life of a request *)

Definition action_req (a : client_action K) : Z :=
  match a with
  | ToAll (ProposeInconsistent r) | ToAll (ProposeConsensus r) | ToAll (UnloggedRequest r)
  | ToReplica _ (ProposeInconsistent r) | ToReplica _ (ProposeConsensus r) | ToReplica _ (UnloggedRequest r) =>
      req_clientreqid r
  | ToAll (FinalizeInconsistent o) | ToAll (FinalizeConsensus o _)
  | ToReplica _ (FinalizeInconsistent o) | ToReplica _ (FinalizeConsensus o _) => o.2
  | ToAll _ | ToReplica _ _ => 0
  | Continue j _ _ _ | ErrorContinue j _ _ _ => j
  end.

Definition reply_req (m : ir_reply) : Z :=
  match m with
  | ReplyInconsistent _ _ o _ | Confirm _ _ o | ReplyConsensus _ _ o _ _ => o.2
  | UnloggedReply _ j => j
  | _ => 0
  end.

Definition is_callback (a : client_action K) : Prop :=
  match a with Continue _ _ _ _ | ErrorContinue _ _ _ _ => True | _ => False end.
#[global] Instance is_callback_dec a : Decision (is_callback a).
Proof. destruct a; simpl; apply _. Defined.

(** The actions and messages about request [j]. *)
Definition sent_about (j : Z) sent : list (client_action K) := filter (λ a, action_req a = j) sent.
Definition recv_about (j : Z) recv : list ir_reply := filter (λ m, reply_req m = j) recv.

(** Every message of the quorum set satisfies [P]. *)
Definition qs_all {ID MSG : Type} `{Countable ID} (q : QuorumSet ID MSG) (P : ID → Z → MSG → Prop) : Prop :=
  ∀ v i m, messages_of q v !! i = Some m → P v i m.

Definition reply_of (m : ReplyConsensusMessage) : ir_reply :=
  ReplyConsensus (rc_view m) (rc_replicaIdx m) (rc_opid m) (rc_result m) (rc_finalized m).

Section life.
Context (cfg : Configuration) (id j : Z).
Implicit Types (S : list (client_action K)) (R : list ir_reply).

Definition consensus_msg R (v i : Z) (m : ReplyConsensusMessage) : Prop :=
  rc_view m = v ∧ rc_replicaIdx m = i ∧ rc_opid m = (id, j) ∧ reply_of m ∈ R.

(** The result [res] of view [v] can be finalized: a replica has it finalized, or
    it is the decision on the replies of a quorum. *)
Definition chosen R (dec : gmap string nat → string) (res : string) (v : Z) : Prop :=
  (∃ i, ReplyConsensus v i (id, j) res true ∈ R) ∨
  ∃ msgs, QuorumSize cfg ≤ Z.of_nat (size msgs) ∧ res = dec (count_results msgs) ∧
    map_Forall (consensus_msg R v) msgs.

(** What has been sent about a pending request. *)
Definition shape (p : PendingRequest K) (a : client_action K) : Prop :=
  match kind p, a with
  | PendingUnlogged _, ToReplica _ (UnloggedRequest _) => True
  | PendingInconsistent _, ToAll (ProposeInconsistent _) | PendingInconsistent _, Continue _ _ _ _ => True
  | PendingInconsistent _, ToAll (FinalizeInconsistent _) => continuationInvoked p = true
  | PendingConsensus _, ToAll (ProposeConsensus _) | PendingConsensus _, Continue _ _ _ _ => True
  | PendingConsensus x, ToAll (FinalizeConsensus _ _) => sent_confirms x = true
  | _, _ => False
  end.

Record inconsistent_ok R (p : PendingRequest K) (q : QuorumSet viewstamp ir_reply) : Prop := {
  io_timer : timer p = TimerResendInconsistent ∨
    timer p = TimerResendConfirmation false ∧ continuationInvoked p = true;
  io_num : numRequired q = QuorumSize cfg;
  io_msgs : qs_all q (λ vs i m, vs_opnum vs = j ∧ ∃ b, m = ReplyInconsistent (vs_view vs) i (id, j) b ∧ m ∈ R);
  io_all v i b : ReplyInconsistent v i (id, j) b ∈ R → is_Some (messages_of q (mkVS v j) !! i);
  io_few vs : continuationInvoked p = false → Z.of_nat (size (messages_of q vs)) < QuorumSize cfg
}.

Record consensus_ok S R (p : PendingRequest K) (x : PendingConsensusRequest K) : Prop := {
  so_timer : timer p = TimerResendConsensus ∨
    timer p = TimerResendConfirmation true ∧ sent_confirms x = true;
  so_num : numRequired (consensusReplyQuorum x) = QuorumSize cfg;
  so_sizes : quorumSize x = QuorumSize cfg ∧ superQuorumSize x = FastQuorumSize cfg;
  so_path : transition_to_slow_path_timer x = if on_slow_path x then None else Some true;
  so_msgs : qs_all (consensusReplyQuorum x) (consensus_msg R);
  so_open : sent_confirms x = false →
    continuationInvoked p = false ∧
    (∀ v i res b, ReplyConsensus v i (id, j) res b ∈ R → is_Some (messages_of (consensusReplyQuorum x) v !! i)) ∧
    (∀ v, Z.of_nat (size (messages_of (consensusReplyQuorum x) v)) <
            if on_slow_path x then QuorumSize cfg else FastQuorumSize cfg);
  so_sent : sent_confirms x = true →
    (∃ res, ToAll (FinalizeConsensus (id, j) res) ∈ S) ∧
    (continuationInvoked p = true ∨ chosen R (app_decide x) (decideResult x) (reply_consensus_view x))
}.

Definition kind_ok S R (p : PendingRequest K) : Prop :=
  match kind p with
  | PendingUnlogged _ =>
      timer p = TimerUnlogged ∧ continuationInvoked p = false
  | PendingInconsistent q => inconsistent_ok R p q
  | PendingConsensus x => consensus_ok S R p x
  end.

Record pending_ok S R (p : PendingRequest K) : Prop := {
  po_id : clientReqId p = j;
  po_sent : S ≠ [];
  po_shape : Forall (shape p) S;
  po_uncalled : continuationInvoked p = false → Forall (λ a, ¬ is_callback a) S;
  po_called : continuationInvoked p = true → Exists is_callback S;
  po_num : numRequired (confirmQuorum p) =
    match kind p with PendingUnlogged _ => 1 | _ => QuorumSize cfg end;
  po_confirms : qs_all (confirmQuorum p) (λ vs i m, vs_opnum vs = j ∧ m = Confirm (vs_view vs) i (id, j) ∧ m ∈ R);
  po_all v i : Confirm v i (id, j) ∈ R → is_Some (messages_of (confirmQuorum p) (mkVS v j) !! i);
  po_few vs : Z.of_nat (size (messages_of (confirmQuorum p) vs)) < numRequired (confirmQuorum p);
  po_kind : kind_ok S R p
}.

(** A request that was dropped has been answered, or its result has been sent to
    the replicas. *)
Definition over S : Prop :=
  ((∃ op, ToAll (ProposeInconsistent (mkReq op id j)) ∈ S) → Exists is_callback S) ∧
  ((∃ op, ToAll (ProposeConsensus (mkReq op id j)) ∈ S) → ∃ res, ToAll (FinalizeConsensus (id, j) res) ∈ S).

(** Where request [j] stands. *)
Definition life (U : bool → Prop) S R (o : option (PendingRequest K)) : Prop :=
  (length (filter is_callback S) ≤ 1)%nat ∧
  match o with
  | Some p => pending_ok S R p
  | None => S = [] → R = []
  end ∧
  ((∀ up, U up → up = true) → o = None → over S).

End life.

Record client_ok (U : bool → Prop) (cfg : Configuration) (id : Z) sent recv c : Prop := {
  co_config : cl_config c = cfg;
  co_clientid : clientid c = id;
  co_last : 0 ≤ lastReqId c < 2 ^ 64;
  co_life j : life cfg id j U (sent_about j sent) (recv_about j recv) (pendingReqs c !! j);
  co_fresh j : ¬ 1 ≤ j ≤ lastReqId c → sent_about j sent = [] ∧ pendingReqs c !! j = None
}.

(** ** One step changes one request *)

Lemma about_app_same j sent acts :
  Forall (λ a, action_req a = j) acts → sent_about j (sent ++ acts) = sent_about j sent ++ acts.
Proof. intros Ha. unfold sent_about. rewrite filter_app. f_equal. by apply filter_all. Qed.
Lemma about_app_other i j sent acts :
  i ≠ j → Forall (λ a, action_req a = j) acts → sent_about i (sent ++ acts) = sent_about i sent.
Proof.
  intros Hij Ha. unfold sent_about. rewrite filter_app, (filter_none _ acts); [by rewrite app_nil_r|].
  eapply Forall_impl; [exact Ha|]. simpl. congruence.
Qed.
Lemma recv_app_same j recv ms :
  Forall (λ m, reply_req m = j) ms → recv_about j (recv ++ ms) = recv_about j recv ++ ms.
Proof. intros Ha. unfold recv_about. rewrite filter_app. f_equal. by apply filter_all. Qed.
Lemma recv_app_other i j recv ms :
  i ≠ j → Forall (λ m, reply_req m = j) ms → recv_about i (recv ++ ms) = recv_about i recv.
Proof.
  intros Hij Ha. unfold recv_about. rewrite filter_app, (filter_none _ ms); [by rewrite app_nil_r|].
  eapply Forall_impl; [exact Ha|]. simpl. congruence.
Qed.

Section steps.
Context (U : bool → Prop) (cfg : Configuration) (Hcfg : config_ok cfg) (id : Z).

(** The step from [c] to [c'] is about request [j]: [acts] are sent, [ms] are
    received. *)
Record local sent recv c (j : Z) acts (ms : list ir_reply) c' : Prop := {
  lo_acts : Forall (λ a, action_req a = j) acts;
  lo_recv : Forall (λ m, reply_req m = j) ms;
  lo_config : cl_config c' = cl_config c;
  lo_id : clientid c' = clientid c;
  lo_last : lastReqId c ≤ lastReqId c' < 2 ^ 64;
  lo_range : 1 ≤ j ≤ lastReqId c';
  lo_others i : i ≠ j → pendingReqs c' !! i = pendingReqs c !! i;
  lo_life : life cfg id j U (sent_about j sent ++ acts) (recv_about j recv ++ ms) (pendingReqs c' !! j)
}.

Lemma local_ok sent recv c j acts ms c' :
  client_ok U cfg id sent recv c → local sent recv c j acts ms c' →
  client_ok U cfg id (sent ++ acts) (recv ++ ms) c'.
Proof.
  intros [Hc Hi Hl Hlife Hfresh] [Ha Hm Hc' Hi' Hl' Hj Ho Hlife']. split; [congruence|congruence|lia|..].
  - intros i. destruct (decide (i = j)) as [->|Hne].
    + by rewrite about_app_same, recv_app_same.
    + by erewrite about_app_other, recv_app_other, Ho.
  - intros i Hr. assert (i ≠ j) by lia. erewrite about_app_other, Ho by done. apply Hfresh. lia.
Qed.

Lemma pending_range sent recv c j p :
  client_ok U cfg id sent recv c → pendingReqs c !! j = Some p → 1 ≤ j ≤ lastReqId c.
Proof.
  intros Hc Hp. destruct (decide (1 ≤ j ≤ lastReqId c)) as [|Hn]; [done|].
  destruct (co_fresh _ _ _ _ _ _ Hc j Hn). congruence.
Qed.

(** Replacing or dropping a pending request. *)
Lemma local_set sent recv c j p p' acts ms :
  client_ok U cfg id sent recv c → pendingReqs c !! j = Some p →
  Forall (λ a, action_req a = j) acts → Forall (λ m, reply_req m = j) ms →
  life cfg id j U (sent_about j sent ++ acts) (recv_about j recv ++ ms) (Some p') →
  local sent recv c j acts ms (set_pending c j p').
Proof.
  intros Hc Hp Ha Hm Hl. pose proof (pending_range _ _ _ _ _ Hc Hp). pose proof (co_last _ _ _ _ _ _ Hc).
  split; simpl; try done; [lia|by intros i Hi; rewrite lookup_insert_ne|by rewrite lookup_insert_eq].
Qed.

Lemma local_erase sent recv c j p acts ms :
  client_ok U cfg id sent recv c → pendingReqs c !! j = Some p →
  Forall (λ a, action_req a = j) acts → Forall (λ m, reply_req m = j) ms →
  life cfg id j U (sent_about j sent ++ acts) (recv_about j recv ++ ms) None →
  local sent recv c j acts ms (erase_pending c j).
Proof.
  intros Hc Hp Ha Hm Hl. pose proof (pending_range _ _ _ _ _ Hc Hp). pose proof (co_last _ _ _ _ _ _ Hc).
  split; simpl; try done; [lia|by intros i Hi; rewrite lookup_delete_ne|by rewrite lookup_delete_eq].
Qed.

(** A message about a request that is not pending. *)
Lemma local_ignore sent recv c j ms :
  client_ok U cfg id sent recv c → pendingReqs c !! j = None → sent_about j sent ≠ [] →
  Forall (λ m, reply_req m = j) ms → local sent recv c j [] ms c.
Proof.
  intros Hc Hp Hs Hm. pose proof (co_last _ _ _ _ _ _ Hc).
  assert (1 ≤ j ≤ lastReqId c) as Hj.
  { destruct (decide (1 ≤ j ≤ lastReqId c)) as [|Hn]; [done|]. by destruct (co_fresh _ _ _ _ _ _ Hc j Hn). }
  split; try done; [lia|]. rewrite app_nil_r, Hp. destruct (co_life _ _ _ _ _ _ Hc j) as (? & _ & ?).
  rewrite Hp in *. split_and!; done.
Qed.

Lemma pending_life sent recv c j p :
  client_ok U cfg id sent recv c → pendingReqs c !! j = Some p →
  (length (filter is_callback (sent_about j sent)) ≤ 1)%nat ∧
  pending_ok cfg id j (sent_about j sent) (recv_about j recv) p.
Proof. intros Hc Hp. destruct (co_life _ _ _ _ _ _ Hc j) as (? & Hl & _). by rewrite Hp in Hl. Qed.

(** *** New requests *)

Lemma QuorumSize_pos : 0 < QuorumSize cfg ∧ 0 < FastQuorumSize cfg.
Proof.
  destruct Hcfg as [Hf _]. unfold QuorumSize, FastQuorumSize. pose proof (Z.quot_pos (f cfg + 1) 2). lia.
Qed.

Lemma local_new sent recv c c' acts :
  client_ok U cfg id sent recv c → lastReqId c + 1 < 2 ^ 64 →
  Forall (λ a, action_req a = lastReqId c + 1) acts →
  cl_config c' = cfg → clientid c' = id → lastReqId c' = lastReqId c + 1 →
  (∀ i, i ≠ lastReqId c + 1 → pendingReqs c' !! i = pendingReqs c !! i) →
  life cfg id (lastReqId c + 1) U acts [] (pendingReqs c' !! (lastReqId c + 1)) →
  local sent recv c (lastReqId c + 1) acts [] c'.
Proof.
  intros Hc Hb Ha Hcf Hi Hl Ho Hlife. pose proof (co_last _ _ _ _ _ _ Hc).
  destruct (co_fresh _ _ _ _ _ _ Hc (lastReqId c + 1)) as [Hs Hp]; [lia|].
  destruct (co_life _ _ _ _ _ _ Hc (lastReqId c + 1)) as (_ & Hr & _). rewrite Hp in Hr.
  split; try done; rewrite ?(co_config _ _ _ _ _ _ Hc), ?(co_clientid _ _ _ _ _ _ Hc); try done; [lia..|].
  by rewrite Hs, (Hr Hs).
Qed.

Lemma life_unused j : life cfg id j U [] [] None.
Proof. split_and!; [simpl; lia|done|]. intros _ _. split; intros [op Ho]; by apply elem_of_nil in Ho. Qed.

Lemma messages_of_new {ID MSG : Type} `{Countable ID} (m : Z) (v : ID) :
  messages_of (MSG := MSG) (new_quorumset m) v = ∅.
Proof. unfold messages_of. simpl. by rewrite lookup_empty. Qed.

Lemma qs_all_new {ID MSG : Type} `{Countable ID} (m : Z) (P : ID → Z → MSG → Prop) :
  qs_all (new_quorumset m) P.
Proof. intros v i x. by rewrite messages_of_new, lookup_empty. Qed.

Lemma next_reqid_ok c : 0 ≤ lastReqId c → lastReqId c + 1 < 2 ^ 64 → next_reqid c = lastReqId c + 1.
Proof. intros. apply u64_id. unfold is_u64. lia. Qed.

(** A request with empty quorum sets is in order, given the part of its kind. *)
Lemma pending_new j op k t active knd (a : client_action K) :
  ¬ is_callback a → shape (mkPending op j k false t active (new_quorumset 0) knd) a →
  let p := mkPending op j k false t active
             (new_quorumset (match knd with PendingUnlogged _ => 1 | _ => QuorumSize cfg end)) knd in
  kind_ok cfg id j [a] [] p → life cfg id j U [a] [] (Some p).
Proof.
  intros Ha Hs p Hk. pose proof QuorumSize_pos. unfold life. rewrite filter_cons_False by done.
  split_and!; [simpl; lia| |done]. split; simpl; try done.
  - by constructor.
  - intros _. by constructor.
  - by intros v i ?%elem_of_nil.
  - intros vs. rewrite messages_of_new, map_size_empty. destruct knd; lia.
Qed.

Lemma invoke_inconsistent_local up sent recv c op k :
  client_ok U cfg id sent recv c → lastReqId c + 1 < 2 ^ 64 →
  local sent recv c (lastReqId c + 1) (InvokeInconsistent up c op k None).1 []
    (InvokeInconsistent up c op k None).2.
Proof.
  intros Hc Hb. pose proof QuorumSize_pos. pose proof (co_last _ _ _ _ _ _ Hc).
  unfold InvokeInconsistent, SendInconsistent. cbn [clientReqId]. rewrite next_reqid_ok by lia.
  rewrite (co_config _ _ _ _ _ _ Hc). destruct up; simpl; apply local_new; simpl; try done;
    rewrite ?next_reqid_ok, ?(co_config _ _ _ _ _ _ Hc), ?(co_clientid _ _ _ _ _ _ Hc) by lia; try done.
  - by constructor.
  - intros i Hi. by rewrite !lookup_insert_ne.
  - rewrite lookup_insert_eq. apply (pending_new _ _ _ _ _ (PendingInconsistent _)); [by intros []|done|]. simpl. split; simpl; try done.
    + by left.
    + by intros v i b ?%elem_of_nil.
    + intros vs _. rewrite messages_of_new, map_size_empty. lia.
  - intros i Hi. by rewrite lookup_delete_ne, lookup_insert_ne.
  - rewrite lookup_delete_eq. apply life_unused.
Qed.

Lemma invoke_consensus_local up sent recv c op dec k ek :
  client_ok U cfg id sent recv c → lastReqId c + 1 < 2 ^ 64 →
  local sent recv c (lastReqId c + 1) (InvokeConsensus up c op dec k ek).1 []
    (InvokeConsensus up c op dec k ek).2.
Proof.
  intros Hc Hb. pose proof QuorumSize_pos. pose proof (co_last _ _ _ _ _ _ Hc).
  unfold InvokeConsensus, SendConsensus. cbn [clientReqId]. rewrite next_reqid_ok by lia.
  rewrite (co_config _ _ _ _ _ _ Hc). destruct up; simpl; apply local_new; simpl; try done;
    rewrite ?next_reqid_ok, ?(co_config _ _ _ _ _ _ Hc), ?(co_clientid _ _ _ _ _ _ Hc) by lia; try done.
  - by constructor.
  - intros i Hi. by rewrite !lookup_insert_ne.
  - rewrite lookup_insert_eq. apply (pending_new _ _ _ _ _ (PendingConsensus _)); [by intros []|done|]. simpl. split; simpl; try done.
    + by left.
    + intros _. split_and!; [done|by intros v i r b ?%elem_of_nil|].
      intros v. rewrite messages_of_new, map_size_empty. lia.
  - intros i Hi. by rewrite lookup_delete_ne, lookup_insert_ne.
  - rewrite lookup_delete_eq. apply life_unused.
Qed.

Lemma invoke_unlogged_local up sent recv c i op k ek :
  client_ok U cfg id sent recv c → lastReqId c + 1 < 2 ^ 64 →
  local sent recv c (lastReqId c + 1) (InvokeUnlogged up c i op k ek).1 []
    (InvokeUnlogged up c i op k ek).2.
Proof.
  intros Hc Hb. pose proof (co_last _ _ _ _ _ _ Hc).
  unfold InvokeUnlogged. rewrite next_reqid_ok by lia. destruct up; simpl; apply local_new; simpl; try done;
    rewrite ?next_reqid_ok, ?(co_config _ _ _ _ _ _ Hc), ?(co_clientid _ _ _ _ _ _ Hc) by lia; try done.
  - by constructor.
  - intros i' Hi. by rewrite !lookup_insert_ne.
  - rewrite lookup_insert_eq. apply (pending_new _ _ _ _ _ (PendingUnlogged _)); [by intros []|done|]. by split_and!.
  - destruct (co_fresh _ _ _ _ _ _ Hc (lastReqId c + 1)) as [_ ->]; [lia|]. apply life_unused.
Qed.

(** *** Timers *)

Lemma kind_ok_sent j S acts R p b :
  kind_ok cfg id j S R p → kind_ok cfg id j (S ++ acts) R (set_timer p (timer p) b).
Proof.
  unfold kind_ok. simpl. destruct (kind p) as [ek|q|x]; [done|by intros []|].
  intros [? ? ? ? ? Ho Hs]. split; try done. intros Hc. destruct (Hs Hc) as [[res Hr] ?].
  split; [|done]. exists res. apply elem_of_app. by left.
Qed.

Lemma resend_ok j S R p a :
  pending_ok cfg id j S R p → shape p a → ¬ is_callback a →
  pending_ok cfg id j (S ++ [a]) R (set_timer p (timer p) true).
Proof.
  intros [? ? Hsh Hun Hca ? ? ? ? Hk] Ha Hn. split; try done; simpl.
  - by intros [? ?]%app_eq_nil.
  - apply Forall_app. split; [exact Hsh|by constructor].
  - intros Hi. apply Forall_app. split; [by apply Hun|by constructor].
  - intros Hi. apply Exists_app. left. by apply Hca.
  - by apply kind_ok_sent.
Qed.

Lemma callbacks_snoc S acts :
  Forall (λ a, ¬ is_callback a) acts → filter is_callback (S ++ acts) = filter is_callback S.
Proof. intros Ha. rewrite filter_app, (filter_none _ acts) by done. by rewrite app_nil_r. Qed.

(** Dropping a request because the transport failed. *)
Lemma life_failed j S R :
  U false → (length (filter is_callback S) ≤ 1)%nat → S ≠ [] → life cfg id j U S R None.
Proof. intros HU Hn HS. split_and!; [done|done|]. intros Hrel. by apply Hrel in HU. Qed.

(** A message sent again, or the transport fails. *)
Lemma local_resend up sent recv c j p a :
  client_ok U cfg id sent recv c → U up → pendingReqs c !! j = Some p → action_req a = j →
  shape p a → ¬ is_callback a →
  local sent recv c j (if up then [a] else []) []
    (if up then set_pending c j (set_timer p (timer p) true) else erase_pending c j).
Proof.
  intros Hc HU Hp Hj Hsh Ha. destruct (pending_life _ _ _ _ _ Hc Hp) as [Hn Hok].
  destruct up; [eapply local_set|eapply local_erase]; try done; rewrite ?app_nil_r; [by constructor|..].
  - split_and!; [|by apply resend_ok|done]. rewrite callbacks_snoc; [done|by constructor].
  - apply life_failed; try done. apply Hok.
Qed.

(** The call returns and is in order; only a failing transport stops it. *)
Definition safe (up : bool) sent recv c (j : Z) (ms : list ir_reply)
    (o : outcome (list (client_action K) * IRClient K)) : Prop :=
  match o with
  | Ret (acts, c') => local sent recv c j acts ms c'
  | Panic => up = false
  end.

(** What has been sent about a pending request tells its kind. *)
Lemma sent_shape sent recv c j p a :
  client_ok U cfg id sent recv c → pendingReqs c !! j = Some p → a ∈ sent → action_req a = j → shape p a.
Proof.
  intros Hc Hp Ha Hj. destruct (pending_life _ _ _ _ _ Hc Hp) as [_ Hok].
  apply (proj1 (Forall_forall _ _) (po_shape _ _ _ _ _ _ Hok)). by apply list_elem_of_filter.
Qed.

Local Ltac resend a Hkp :=
  match goal with
  | Hc : client_ok _ _ _ ?sent ?recv ?c, HU : U ?up, Hp : pendingReqs ?c !! ?j = Some ?p |- _ =>
      pose proof (local_resend up sent recv c j p a Hc HU Hp) as Hl;
      destruct up; apply Hl; try done; try (by intros []); unfold shape; by rewrite Hkp
  end.

(** An unlogged request is over when it is dropped. *)
Lemma over_unlogged sent recv c j p acts ek :
  client_ok U cfg id sent recv c → pendingReqs c !! j = Some p → kind p = PendingUnlogged ek →
  (∀ a, a ∈ acts → ∀ m, a ≠ ToAll m) → over id j (sent_about j sent ++ acts).
Proof.
  intros Hc Hp Hkp Ha.
  assert (∀ m, ToAll m ∉ sent_about j sent ++ acts) as Hno.
  { intros m [Ho|Ho]%elem_of_app; [|by destruct (Ha _ Ho m)]. apply list_elem_of_filter in Ho as [? Ho].
    pose proof (sent_shape _ _ _ _ _ _ Hc Hp Ho) as Hs. unfold shape in Hs. rewrite Hkp in Hs. by apply Hs. }
  split; intros [op Ho]; by apply Hno in Ho.
Qed.

Lemma fire_unlogged sent recv c j p ek :
  client_ok U cfg id sent recv c → pendingReqs c !! j = Some p → kind p = PendingUnlogged ek →
  local sent recv c j (match ek with Some k => [ErrorContinue j k (request p) TIMEOUT] | None => [] end) []
    (erase_pending c j).
Proof.
  intros Hc Hp Hkp. destruct (pending_life _ _ _ _ _ Hc Hp) as [Hn Hok].
  pose proof (po_kind _ _ _ _ _ _ Hok) as Hk. unfold kind_ok in Hk. rewrite Hkp in Hk.
  destruct Hk as [_ Hi]. eapply local_erase; try done; [by destruct ek; repeat constructor|]. rewrite app_nil_r.
  split_and!; [|intros [Hnil _]%app_eq_nil; by destruct (po_sent _ _ _ _ _ _ Hok)|].
  - rewrite filter_app, (filter_none _ (sent_about j sent)); [|by apply (po_uncalled _ _ _ _ _ _ Hok)].
    etrans; [apply length_filter|]. by destruct ek; simpl; lia.
  - intros _ _. apply (over_unlogged _ _ _ _ _ _ ek Hc Hp Hkp). intros a Ha m ->.
    by destruct ek; [apply list_elem_of_singleton in Ha|apply elem_of_nil in Ha].
Qed.

Lemma fire_timer_safe up sent recv c j p :
  client_ok U cfg id sent recv c → U up → pendingReqs c !! j = Some p → timer_active p = true →
  safe up sent recv c j [] (fire_timer up c j).
Proof.
  intros Hc HU Hp Hact. unfold fire_timer. rewrite Hp, Hact. simpl.
  destruct (pending_life _ _ _ _ _ Hc Hp) as [Hn Hok]. pose proof (po_id _ _ _ _ _ _ Hok) as Hj.
  pose proof (po_kind _ _ _ _ _ _ Hok) as Hk. unfold kind_ok in Hk. destruct (kind p) as [ek|q|x] eqn:Hkp.
  - destruct Hk as [-> Hi]. unfold UnloggedRequestTimeoutCallback. rewrite Hp, Hkp. by apply fire_unlogged.
  - pose proof (io_timer _ _ _ _ _ _ Hk) as [->|[-> Hi]].
    + unfold SendInconsistent. rewrite Hj. resend (ToAll (K := K) (ProposeInconsistent (mk_request c (request p) j))) Hkp.
    + unfold ResendConfirmation. rewrite Hp, Hkp, Hj. resend (ToAll (K := K) (FinalizeInconsistent (clientid c, j))) Hkp.
  - pose proof (so_timer _ _ _ _ _ _ _ Hk) as [->|[-> Hi]].
    + unfold SendConsensus. rewrite Hj. resend (ToAll (K := K) (ProposeConsensus (mk_request c (request p) j))) Hkp.
    + unfold ResendConfirmation. rewrite Hp, Hkp, Hj.
      resend (ToAll (K := K) (FinalizeConsensus (clientid c, j) (decideResult x))) Hkp.
Qed.

Lemma consensus_msg_mono j R ms v i m : consensus_msg id j R v i m → consensus_msg id j (R ++ ms) v i m.
Proof. intros (? & ? & ? & ?). unfold consensus_msg. rewrite elem_of_app. auto. Qed.

Lemma chosen_mono j R ms dec res v : chosen cfg id j R dec res v → chosen cfg id j (R ++ ms) dec res v.
Proof.
  intros [[i Hi]|(msgs & ? & ? & Hm)]; [left; exists i; rewrite elem_of_app; auto|right].
  exists msgs. split_and!; try done. intros i m Hi. by apply consensus_msg_mono, Hm.
Qed.

(** *** Quorum sets *)

Section quorum_sets.
Context {ID MSG : Type} `{Countable ID}.
Implicit Types q : QuorumSet ID MSG.

Lemma qs_add_all q v i m (P P' : ID → Z → MSG → Prop) :
  qs_all q P → (∀ v i m, P v i m → P' v i m) → P' v i m →
  qs_all (AddAndCheckForQuorum q v i m).2 P'.
Proof.
  intros Hq HP Hm v' i' m'. destruct (AddAndCheck_spec q v i m) as (_ & -> & _).
  case_decide as Hv; [subst v'|intros Hl; by apply HP, Hq].
  rewrite lookup_insert_Some. intros [[<- <-]|[_ Hl]]; [done|by apply HP, Hq].
Qed.

Lemma qs_add_some q v i m v' i' :
  is_Some (messages_of q v' !! i') ∨ (v', i') = (v, i) →
  is_Some (messages_of (AddAndCheckForQuorum q v i m).2 v' !! i').
Proof.
  destruct (AddAndCheck_spec q v i m) as (_ & -> & _). case_decide as Hv; [subst v'|by intros [?|[= -> _]]].
  rewrite lookup_insert_is_Some. destruct (decide (i = i')); [by left|]. intros [?|[= ->]]; [by right|done].
Qed.

Lemma qs_add_num q v i m : numRequired (AddAndCheckForQuorum q v i m).2 = numRequired q.
Proof. by destruct (AddAndCheck_spec q v i m) as (_ & _ & ->). Qed.

(** Below the required number before, and not enough now. *)
Lemma qs_add_few q v i m :
  (AddAndCheckForQuorum q v i m).1 = None →
  (∀ v', Z.of_nat (size (messages_of q v')) < numRequired q) →
  ∀ v', Z.of_nat (size (messages_of (AddAndCheckForQuorum q v i m).2 v')) < numRequired q.
Proof.
  intros Hn Hf v'. destruct (AddAndCheck_spec q v i m) as (Ho & -> & _). rewrite Ho in Hn.
  case_decide as Hv; [subst v'|done]. by destruct (Z.leb_spec (numRequired q) (Z.of_nat (size (<[i:=m]> (messages_of q v))))).
Qed.

Lemma qs_add_quorum q v i m ms :
  (AddAndCheckForQuorum q v i m).1 = Some ms →
  ms = messages_of (AddAndCheckForQuorum q v i m).2 v ∧ numRequired q ≤ Z.of_nat (size ms).
Proof.
  destruct (AddAndCheck_spec q v i m) as (-> & -> & _). rewrite decide_True by done.
  destruct (Z.leb_spec (numRequired q) (Z.of_nat (size (<[i:=m]> (messages_of q v))))); [|done]. by intros [= <-].
Qed.

End quorum_sets.

(** *** Replies *)

Lemma elem_of_snoc {X} (x y : X) l : x ∈ l ++ [y] ↔ x ∈ l ∨ x = y.
Proof. by rewrite elem_of_app, list_elem_of_singleton. Qed.

(** Messages other than confirmations change [p] to [p'], and [acts] are sent. *)
Lemma pending_recv j S R p p' acts ms :
  pending_ok cfg id j S R p → Forall (λ m, ∀ v i, m ≠ Confirm v i (id, j)) ms →
  clientReqId p' = clientReqId p → confirmQuorum p' = confirmQuorum p →
  match kind p, kind p' with
  | PendingInconsistent _, PendingInconsistent _ | PendingConsensus _, PendingConsensus _ => True
  | _, _ => False
  end →
  (∀ a, shape p a → shape p' a) → Forall (shape p') acts →
  (continuationInvoked p' = false → continuationInvoked p = false ∧ Forall (λ a, ¬ is_callback a) acts) →
  (continuationInvoked p' = true → continuationInvoked p = true ∨ Exists is_callback acts) →
  kind_ok cfg id j (S ++ acts) (R ++ ms) p' → pending_ok cfg id j (S ++ acts) (R ++ ms) p'.
Proof.
  intros [Hid Hs Hsh Hun Hca Hnum Hcf Hall Hfew _] Hm Hid' Hcq Hkk Hsh' Ha Hun' Hca' Hk.
  split; try done; rewrite ?Hid', ?Hcq; try done.
  - by intros [? ?]%app_eq_nil.
  - apply Forall_app. split; [|done]. by eapply Forall_impl.
  - intros [Hi Ha']%Hun'. apply Forall_app. auto.
  - intros [Hi|He]%Hca'; apply Exists_app; auto.
  - rewrite Hnum. by destruct (kind p), (kind p').
  - intros v i x Hx. destruct (Hcf v i x Hx) as (? & ? & ?). rewrite elem_of_app. auto.
  - intros v i [Hin|Hin]%elem_of_app; [by apply Hall|].
    by destruct (proj1 (Forall_forall _ _) Hm _ Hin v i).
Qed.

(** At most one callback: there is none before the request is answered. *)
Lemma callbacks_once j S R p acts :
  pending_ok cfg id j S R p → (length (filter is_callback S) ≤ 1)%nat →
  (length (filter is_callback acts) ≤ if continuationInvoked p then 0 else 1)%nat →
  (length (filter is_callback (S ++ acts)) ≤ 1)%nat.
Proof.
  intros Hok Hn Ha. rewrite filter_app, length_app. destruct (continuationInvoked p) eqn:Hi; [lia|].
  rewrite (filter_none _ S) by (by apply (po_uncalled _ _ _ _ _ _ Hok)). simpl. lia.
Qed.

Lemma callbacks_length acts :
  length (filter is_callback acts) =
    foldr (λ a n, match a with Continue _ _ _ _ | ErrorContinue _ _ _ _ => S n | _ => n end) 0%nat acts.
Proof.
  induction acts as [|a acts IH]; [done|]. simpl. rewrite <- IH. by destruct a; rewrite filter_cons; simpl.
Qed.

Lemma shape_inconsistent p op j :
  shape p (ToAll (ProposeInconsistent (mkReq op id j))) → ∃ q, kind p = PendingInconsistent q.
Proof. unfold shape. destruct (kind p); try done. eauto. Qed.
Lemma shape_consensus p op j :
  shape p (ToAll (ProposeConsensus (mkReq op id j))) → ∃ x, kind p = PendingConsensus x.
Proof. unfold shape. destruct (kind p); try done. eauto. Qed.

(** A reply that answers a request is ignored unless the request is pending. *)
Lemma ignored sent recv c j a m :
  client_ok U cfg id sent recv c → pendingReqs c !! j = None → a ∈ sent → action_req a = j →
  reply_req m = j → local sent recv c j [] [m] c.
Proof.
  intros Hc Hp Ha Hj Hm. apply local_ignore; [done|done| |by constructor].
  intros Hnil. assert (a ∈ sent_about j sent) as Hin by (by apply list_elem_of_filter).
  rewrite Hnil in Hin. by apply elem_of_nil in Hin.
Qed.

Lemma inconsistent_reply_ok j S R p q v i b :
  pending_ok cfg id j S R p → kind p = PendingInconsistent q →
  let m := ReplyInconsistent v i (id, j) b in
  let aq := AddAndCheckForQuorum q (mkVS v j) i m in
  (aq.1 = None ∨ continuationInvoked p = true →
     pending_ok cfg id j (S ++ []) (R ++ [m]) (set_kind p (PendingInconsistent aq.2))) ∧
  ∀ active acts,
     Forall (λ a, a = ToAll (FinalizeInconsistent (id, j)) ∨ is_callback a ∧ ∃ k op r, a = Continue j k op r) acts →
     Exists is_callback acts →
     pending_ok cfg id j (S ++ acts) (R ++ [m])
       (set_invoked (set_timer (set_kind p (PendingInconsistent aq.2)) (TimerResendConfirmation false) active)).
Proof.
  intros Hok Hkp m aq. pose proof (po_kind _ _ _ _ _ _ Hok) as Hk. unfold kind_ok in Hk. rewrite Hkp in Hk.
  destruct Hk as [Ht Hn Hms Hall Hfew].
  assert (qs_all aq.2 (λ vs i x, vs_opnum vs = j ∧ ∃ b, x = ReplyInconsistent (vs_view vs) i (id, j) b ∧ x ∈ R ++ [m])) as Hms'.
  { eapply qs_add_all; [exact Hms|..]; simpl.
    - intros v' i' x [? (b' & ? & ?)]. split; [done|]. exists b'. rewrite elem_of_snoc. auto.
    - split; [done|]. exists b. rewrite elem_of_snoc. auto. }
  assert (∀ v i b, ReplyInconsistent v i (id, j) b ∈ R ++ [m] → is_Some (messages_of aq.2 (mkVS v j) !! i)) as Hall'.
  { intros v' i' b' [Hin|[= -> -> _]]%elem_of_snoc; apply qs_add_some; [left; by eapply Hall|by right]. }
  split.
  - intros Hc'. eapply pending_recv; try done; simpl; rewrite ?Hkp; try done; [by constructor|..].
    + intros a. unfold shape. simpl. by rewrite Hkp.
    + intros ->. by left.
    + split; simpl; try done; [by unfold aq; rewrite qs_add_num|]. intros vs Hi. rewrite <- Hn. apply qs_add_few.
      * destruct Hc'; [done|congruence].
      * intros v'. rewrite Hn. by apply Hfew.
  - intros active acts Ha He. eapply pending_recv; try done; simpl; rewrite ?Hkp; try done; [by constructor|..].
    + intros a. unfold shape. simpl. rewrite Hkp. destruct a as [[]| | |]; done.
    + eapply Forall_impl; [exact Ha|]. by intros a [->|[_ (k & op & r & ->)]].
    + by right.
    + split; simpl; try done; [by right|by unfold aq; rewrite qs_add_num].
Qed.

Lemma inconsistent_reply_safe up sent recv c v i opid b :
  client_ok U cfg id sent recv c → answers id sent (ReplyInconsistent v i opid b) →
  safe up sent recv c opid.2 [ReplyInconsistent v i opid b] (HandleInconsistentReply up c v i opid b).
Proof.
  intros Hc [Hid [op Hop]]. destruct opid as [id' j]. simpl in *. subst id'. unfold HandleInconsistentReply. simpl.
  destruct (pendingReqs c !! j) as [p|] eqn:Hp; [|by eapply ignored].
  destruct (shape_inconsistent p op j) as [q Hkp]; [by eapply sent_shape|]. rewrite Hkp.
  destruct (pending_life _ _ _ _ _ Hc Hp) as [Hn Hok].
  destruct (inconsistent_reply_ok _ _ _ _ _ v i b Hok Hkp) as [Hmore Hdone].
  destruct (AddAndCheckForQuorum _ _ _ _) as [ms q'] eqn:Hadd. simpl in Hmore, Hdone. simpl.
  destruct (bool_decide (is_Some ms) && negb (continuationInvoked p)) eqn:Hcase; simpl.
  - apply andb_true_iff in Hcase as [_ Hi%negb_true_iff].
    assert (Exists is_callback ((if up then [ToAll (FinalizeInconsistent (id, j))] else []) ++
              [Continue j (continuation p) (request p) ""])) as Hex.
    { apply Exists_app. right. by constructor. }
    eapply local_set; try done; [by destruct up; repeat constructor|by constructor|].
    split_and!; [|apply Hdone; [|done]|done].
    + eapply callbacks_once; [exact Hok|done|]. rewrite Hi, callbacks_length. destruct up; simpl; lia.
    + apply Forall_app. split; [destruct up; by repeat constructor|]. constructor; [|constructor]. right. split; [done|]. by do 3 eexists.
  - eapply local_set; try done; [by constructor|]. split_and!; [by rewrite app_nil_r| |done].
    apply Hmore. apply andb_false_iff in Hcase as [Hms%bool_decide_eq_false|Hi%negb_false_iff]; [left|by right].
    destruct ms; [|done]. destruct Hms. by eexists.
Qed.

Lemma unlogged_reply_safe up sent recv c reply j :
  client_ok U cfg id sent recv c → answers id sent (UnloggedReply reply j) →
  safe up sent recv c j [UnloggedReply reply j] (HandleUnloggedReply c reply j).
Proof.
  intros Hc (i & op & Hop). unfold HandleUnloggedReply.
  destruct (pendingReqs c !! j) as [p|] eqn:Hp; [|by eapply ignored].
  assert (shape p (ToReplica i (UnloggedRequest (mkReq op id j)))) as Hs by (by eapply sent_shape).
  destruct (pending_life _ _ _ _ _ Hc Hp) as [Hn Hok]. pose proof (po_kind _ _ _ _ _ _ Hok) as Hk.
  unfold shape in Hs. unfold kind_ok in Hk. destruct (kind p) as [ek| |] eqn:Hkp; try done. destruct Hk as [_ Hi].
  eapply local_erase; try done; [by repeat constructor..|].
  split_and!; [|intros [Hnil _]%app_eq_nil; by destruct (po_sent _ _ _ _ _ _ Hok)|].
  - eapply callbacks_once; [exact Hok|done|]. rewrite Hi, callbacks_length. simpl. lia.
  - intros _ _. apply (over_unlogged _ _ _ _ _ _ ek Hc Hp Hkp). by intros a ->%list_elem_of_singleton.
Qed.

Lemma confirm_added j S R p v i :
  pending_ok cfg id j S R p →
  qs_all (AddAndCheckForQuorum (confirmQuorum p) (mkVS v j) i (Confirm v i (id, j))).2
    (λ vs i' m, vs_opnum vs = j ∧ m = Confirm (vs_view vs) i' (id, j) ∧ m ∈ R ++ [Confirm v i (id, j)]).
Proof.
  intros Hok. eapply qs_add_all; [apply (po_confirms _ _ _ _ _ _ Hok)|..]; simpl.
  - intros v' i' x (? & ? & ?). rewrite elem_of_snoc. auto.
  - rewrite elem_of_snoc. auto.
Qed.

(** A confirmation: the request is over once a quorum has confirmed in one view. *)
Lemma confirm_more j S R p v i :
  pending_ok cfg id j S R p →
  let aq := AddAndCheckForQuorum (confirmQuorum p) (mkVS v j) i (Confirm v i (id, j)) in
  aq.1 = None → pending_ok cfg id j (S ++ []) (R ++ [Confirm v i (id, j)]) (set_confirmQuorum p aq.2).
Proof.
  intros Hok aq Hn. pose proof (confirm_added _ _ _ _ v i Hok) as Hadded.
  destruct Hok as [Hid Hs Hsh Hun Hca Hnum Hcf Hall Hfew Hk]. rewrite app_nil_r. split; try done; simpl.
  - unfold aq. by rewrite qs_add_num.
  - intros v' i' [Hin|[= -> ->]]%elem_of_snoc; apply qs_add_some; [left; by apply Hall|by right].
  - intros vs. unfold aq. rewrite qs_add_num. by apply qs_add_few.
  - unfold kind_ok in *. simpl. destruct (kind p) as [ek|q|x]; [done|..].
    + destruct Hk as [? ? Hms Ha ?]. split; try done.
      * intros v' i' x Hx. destruct (Hms _ _ _ Hx) as [? (b & ? & ?)]. split; [done|]. exists b. rewrite elem_of_snoc. auto.
      * intros v' i' b [Hin|?]%elem_of_snoc; [by eapply Ha|done].
    + destruct Hk as [? ? ? ? Hms Ho Hs']. split; try done.
      * intros v' i' y Hy. by apply consensus_msg_mono, Hms.
      * intros Hc'. destruct (Ho Hc') as (? & Ha & ?). split_and!; try done.
        intros v' i' r b [Hin|?]%elem_of_snoc; [by eapply Ha|done].
      * intros Hc'. destruct (Hs' Hc') as [? [?|Hch]]; (split; [done|]); [by left|right].
        by apply chosen_mono.
Qed.

(** The last confirmation of a consensus request drops it, with at most one
    callback. *)
Lemma confirm_last sent recv c j p x acts m res :
  client_ok U cfg id sent recv c → pendingReqs c !! j = Some p → kind p = PendingConsensus x →
  continuationInvoked p = false → reply_req m = j → ToAll (FinalizeConsensus (id, j) res) ∈ sent →
  Forall (λ a, action_req a = j ∧ ∀ m, a ≠ ToAll m) acts → (length acts ≤ 1)%nat →
  local sent recv c j acts [m] (erase_pending c j).
Proof.
  intros Hc Hp Hkp Hi Hm Hf Ha Hlen. destruct (pending_life _ _ _ _ _ Hc Hp) as [Hn Hok].
  eapply local_erase; try done; [by eapply Forall_impl; [exact Ha|intros ? [? _]]|by constructor|].
  split_and!; [|intros [Hnil _]%app_eq_nil; by destruct (po_sent _ _ _ _ _ _ Hok)|].
  - eapply callbacks_once; [exact Hok|done|]. rewrite Hi. etrans; [apply length_filter|done].
  - intros _ _. split.
    + intros [op [Ho|Ho]%elem_of_app]; exfalso.
      * apply list_elem_of_filter in Ho as [_ Ho]. destruct (shape_inconsistent p op j) as [q ?]; [by eapply sent_shape|].
        congruence.
      * by destruct (proj2 (proj1 (Forall_forall _ _) Ha _ Ho) (ProposeInconsistent (mkReq op id j))).
    + intros _. exists res. apply elem_of_app. left. by apply list_elem_of_filter.
Qed.

Lemma confirm_safe up sent recv c v i opid :
  client_ok U cfg id sent recv c → answers id sent (Confirm v i opid) →
  safe up sent recv c opid.2 [Confirm v i opid] (HandleConfirm c v i opid).
Proof.
  intros Hc [Hid Hsent]. destruct opid as [id' j]. simpl in *. subst id'. unfold HandleConfirm. simpl.
  destruct (pendingReqs c !! j) as [p|] eqn:Hp; [|destruct Hsent as [?|[res ?]]; by eapply ignored].
  assert (shape p (ToAll (FinalizeInconsistent (id, j))) ∨
          ∃ res, ToAll (FinalizeConsensus (id, j) res) ∈ sent ∧ shape p (ToAll (FinalizeConsensus (id, j) res))) as Hsh.
  { destruct Hsent as [?|[res ?]]; [left|right; exists res; split; [done|]]; by eapply sent_shape. }
  destruct (pending_life _ _ _ _ _ Hc Hp) as [Hn Hok]. pose proof (confirm_more _ _ _ _ v i Hok) as Hmore.
  destruct (AddAndCheckForQuorum _ _ _ _) as [ms q'] eqn:Hadd. simpl in Hmore. simpl.
  destruct ms as [ms|]; simpl.
  2: { eapply local_set; try done; [by constructor|]. split_and!; [by rewrite app_nil_r|by apply Hmore|done]. }
  unfold shape in Hsh. destruct (continuationInvoked p) eqn:Hi; simpl.
  - eapply local_erase; try done; [by constructor|]. rewrite app_nil_r. split_and!; [done|intros Hnil; by destruct (po_sent _ _ _ _ _ _ Hok)|].
    intros _ _. split; [intros _; by apply (po_called _ _ _ _ _ _ Hok)|]. intros [op [_ Ho]%list_elem_of_filter].
    destruct (shape_consensus p op j) as [x Hkp]; [by eapply sent_shape|]. rewrite Hkp in Hsh.
    destruct Hsh as [?|(res & Hf & _)]; [done|]. exists res. by apply list_elem_of_filter.
  - destruct (kind p) as [ek|q|x] eqn:Hkp; [by naive_solver..|]. destruct Hsh as [?|(res & Hf & _)]; [done|].
    destruct (_ =? _)%Z; [|destruct (consensus_error x)]; eapply confirm_last; try done; simpl; try lia; by repeat constructor.
Qed.

(** *** Consensus *)

Lemma common_view_ok (msgs : gmap Z ReplyConsensusMessage) v :
  map_Forall (λ _ m, rc_view m = v) msgs → msgs ≠ ∅ → common_view msgs = Ret v.
Proof.
  intros Hv Hne. unfold common_view.
  assert (Forall (λ q, rc_view q.2 = v) (omap_iter Z.le msgs)) as Hall.
  { apply Forall_forall. intros [i m] Hin%elem_of_omap_iter. by eapply Hv. }
  assert (omap_iter Z.le msgs ≠ []) as Hn.
  { intros Hnil. apply Hne, map_to_list_empty_iff, Permutation_nil. by rewrite <- Hnil, omap_iter_perm. }
  assert (∀ l (s : Z), Forall (λ q : Z * ReplyConsensusMessage, rc_view q.2 = v) l → s = v ∨ s = 0 ∧ l ≠ [] →
    for_each (λ view (q : Z * ReplyConsensusMessage),
      let view := if (view =? 0)%Z then rc_view q.2 else view in
      ASSERT! (rc_view q.2 =? view)%Z; Ret view) s l = Ret v) as Hloop.
  { intros l. induction l as [|q l IH]; intros s Hl Hs; simpl; [by destruct Hs as [->|[_ ?]]|].
    apply Forall_cons in Hl as [Hq Hl]. rewrite Hq.
    assert ((if (s =? 0)%Z then v else s) = v) as -> by (destruct (Z.eqb_spec s 0), Hs as [->|[-> _]]; done).
    rewrite Z.eqb_refl. simpl. apply IH; [done|by left]. }
  apply Hloop; [done|]. by right.
Qed.

(** What the consensus part needs to go to the confirm phase. *)
Record finalizable j R (x : PendingConsensusRequest K) : Prop := {
  fi_num : numRequired (consensusReplyQuorum x) = QuorumSize cfg;
  fi_sizes : quorumSize x = QuorumSize cfg ∧ superQuorumSize x = FastQuorumSize cfg;
  fi_path : transition_to_slow_path_timer x = if on_slow_path x then None else Some true;
  fi_msgs : qs_all (consensusReplyQuorum x) (consensus_msg id j R)
}.

(** The request enters the confirm phase with the result in [x]. *)
Lemma finalize_ok j S R ms p x0 x active acts invoked res :
  pending_ok cfg id j S R p → kind p = PendingConsensus x0 → finalizable j (R ++ ms) x →
  Forall (λ m, ∀ v i, m ≠ Confirm v i (id, j)) ms →
  (invoked = false → continuationInvoked p = false ∧ acts = []) →
  (invoked = true → continuationInvoked p = true ∨ Exists is_callback acts) →
  Forall (λ a, ∃ k op r, a = Continue j k op r) acts →
  (invoked = true ∨ chosen cfg id j (R ++ ms) (app_decide x) (decideResult x) (reply_consensus_view x)) →
  pending_ok cfg id j (S ++ ToAll (FinalizeConsensus (id, j) res) :: acts) (R ++ ms)
    (mkPending (request p) (clientReqId p) (continuation p) invoked (TimerResendConfirmation true) active
       (confirmQuorum p) (PendingConsensus (set_sent_confirms x))).
Proof.
  intros Hok Hkp [? ? ? ?] Hms Hun Hca Ha Hch. eapply pending_recv; try done; simpl; rewrite ?Hkp; try done.
  - intros a. unfold shape. simpl. rewrite Hkp. by destruct a as [[]| | |].
  - constructor; [done|]. eapply Forall_impl; [exact Ha|]. by intros a (k & op & r & ->).
  - intros [? ->]%Hun. split; [done|]. constructor; [by intros []|constructor].
  - intros [?|?]%Hca; [by left|right]. by apply Exists_cons_tl.
  - split; simpl; try done; [by right|]. intros _. split; [|done]. exists res. apply elem_of_app. right. apply list_elem_of_here.
Qed.

Lemma slow_path_safe up sent recv c j p x0 x fin msgs ms v :
  client_ok U cfg id sent recv c → U up → pendingReqs c !! j = Some p → kind p = PendingConsensus x0 →
  Forall (λ m, reply_req m = j ∧ ∀ v i, m ≠ Confirm v i (id, j)) ms →
  finalizable j (recv_about j recv ++ ms) x →
  (fin = true → chosen cfg id j (recv_about j recv ++ ms) (app_decide x) (decideResult x) (reply_consensus_view x)) →
  (fin = false → QuorumSize cfg ≤ Z.of_nat (size msgs) ∧ map_Forall (consensus_msg id j (recv_about j recv ++ ms) v) msgs) →
  safe up sent recv c j ms (HandleSlowPathConsensus up c j msgs fin p x).
Proof.
  intros Hc HU Hp Hkp Hms Hfi Hfin Hnot. destruct (pending_life _ _ _ _ _ Hc Hp) as [Hn Hok].
  unfold HandleSlowPathConsensus. rewrite (proj1 (fi_sizes _ _ _ Hfi)), (co_clientid _ _ _ _ _ _ Hc).
  assert (fin || (QuorumSize cfg <=? Z.of_nat (size msgs))%Z = true) as ->.
  { destruct fin; [done|]. simpl. apply Z.leb_le. by apply Hnot. }
  cbn [mbind outcome_bind ASSERT].
  assert (∃ x', (if fin then Ret x else view ← common_view msgs;
             Ret (set_reply_view (set_decideResult x (app_decide x (count_results msgs))) view)) = Ret x' ∧
           finalizable j (recv_about j recv ++ ms) x' ∧
           chosen cfg id j (recv_about j recv ++ ms) (app_decide x') (decideResult x') (reply_consensus_view x'))
    as (x' & -> & Hfi' & Hch).
  { destruct fin; [exists x; auto|]. destruct (Hnot eq_refl) as [Hsz Hall]. rewrite (common_view_ok msgs v).
    - eexists. split; [done|]. destruct Hfi as [? ? ? ?]. split; [by split|]. right. by exists msgs.
    - intros i m Hm. by destruct (Hall _ _ Hm).
    - intros ->. rewrite map_size_empty in Hsz. pose proof QuorumSize_pos. lia. }
  cbn [mbind outcome_bind]. destruct up; simpl.
  - eapply local_set; try done; [by constructor|by eapply Forall_impl; [exact Hms|intros ? [? _]]|].
    split_and!; [rewrite callbacks_snoc; [done|]; constructor; [by intros []|constructor]| |done].
    eapply (finalize_ok _ _ _ _ p x0 x' true [] (continuationInvoked p)); try done.
    + eapply Forall_impl; [exact Hms|]. by intros m [_ ?].
    + by left.
    + by right.
  - eapply local_erase; try done; [by eapply Forall_impl; [exact Hms|intros ? [? _]]|]. rewrite app_nil_r.
    apply life_failed; try done. apply Hok.
Qed.

Lemma finalizable_slow j R x : finalizable j R x → finalizable j R (take_slow_path x).
Proof. intros [? ? ? ?]. by split. Qed.

Lemma fast_path_safe up sent recv c j p x0 x msgs m v :
  client_ok U cfg id sent recv c → U up → pendingReqs c !! j = Some p → kind p = PendingConsensus x0 →
  continuationInvoked p = false → on_slow_path x = false →
  reply_req m = j → (∀ v i, m ≠ Confirm v i (id, j)) → finalizable j (recv_about j recv ++ [m]) x →
  FastQuorumSize cfg ≤ Z.of_nat (size msgs) → map_Forall (consensus_msg id j (recv_about j recv ++ [m]) v) msgs →
  safe up sent recv c j [m] (HandleFastPathConsensus up c j msgs p x).
Proof.
  intros Hc HU Hp Hkp Hi Hslow Hm Hm' Hfi Hsz Hall. destruct (pending_life _ _ _ _ _ Hc Hp) as [Hn Hok].
  unfold HandleFastPathConsensus. rewrite (proj2 (fi_sizes _ _ _ Hfi)), (co_clientid _ _ _ _ _ _ Hc).
  rewrite (proj2 (Z.leb_le _ _) Hsz). cbn [mbind outcome_bind ASSERT].
  destruct (for_first _ _) as [res|].
  - destruct up; simpl; [|done]. rewrite Hi. simpl.
    eapply local_set; try done; [by repeat constructor|by constructor|]. split_and!; [| |done].
    + eapply callbacks_once; [exact Hok|done|]. rewrite Hi, callbacks_length. simpl. lia.
    + eapply (finalize_ok _ _ _ _ p x0 (set_decideResult x res) true [_] true); try done.
      * destruct Hfi as [? ? ? ?]. by split.
      * by constructor.
      * right. by constructor.
      * constructor; [|constructor]. by do 3 eexists.
      * by left.
  - assert (QuorumSize cfg ≤ FastQuorumSize cfg).
    { destruct Hcfg as [Hf _]. unfold QuorumSize, FastQuorumSize. pose proof (Z.quot_pos (f cfg + 1) 2). lia. }
    eapply slow_path_safe; try done; [by constructor|by apply finalizable_slow|]. intros _. split; [lia|done].
Qed.

(** A reply is added to those of its view. *)
Lemma reply_added j S R p x m :
  consensus_ok cfg id j S R p x → sent_confirms x = false → rc_opid m = (id, j) →
  let q := (GetMessages (qs_Add (consensusReplyQuorum x) (rc_view m) (rc_replicaIdx m) m) (rc_view m)).2 in
  numRequired q = QuorumSize cfg ∧ qs_all q (consensus_msg id j (R ++ [reply_of m])) ∧
  (∀ v i res b, ReplyConsensus v i (id, j) res b ∈ R ++ [reply_of m] → is_Some (messages_of q v !! i)) ∧
  (∀ v, v ≠ rc_view m → messages_of q v = messages_of (consensusReplyQuorum x) v) ∧
  is_Some (messages_of q (rc_view m) !! rc_replicaIdx m).
Proof.
  intros Hok Hs Ho q. destruct (so_open _ _ _ _ _ _ _ Hok Hs) as (_ & Hall & _).
  assert (∀ v, messages_of q v = messages_of (qs_Add (consensusReplyQuorum x) (rc_view m) (rc_replicaIdx m) m) v) as Hq.
  { intros v. unfold q, GetMessages. simpl. rewrite messages_of_set. by case_decide; subst. }
  split_and!.
  - unfold q, GetMessages. simpl. unfold qs_Add. rewrite qs_add_num. apply Hok.
  - intros v i y. rewrite Hq. apply (qs_add_all _ _ _ _ _ _ (so_msgs _ _ _ _ _ _ _ Hok)).
    + intros v' i' y' (? & ? & ? & ?). unfold consensus_msg. rewrite elem_of_snoc. auto.
    + unfold consensus_msg. rewrite elem_of_snoc. auto.
  - intros v i res b [Hin|Heq]%elem_of_snoc; rewrite Hq; apply qs_add_some; [left; by eapply Hall|].
    right. unfold reply_of in Heq. by injection Heq as -> -> _ _ _.
  - intros v Hv. rewrite Hq. unfold qs_Add. destruct (AddAndCheck_spec (consensusReplyQuorum x) (rc_view m) (rc_replicaIdx m) m) as (_ & -> & _).
    by rewrite decide_False.
  - rewrite Hq. apply qs_add_some. by right.
Qed.

Lemma local_same sent recv c j p ms :
  client_ok U cfg id sent recv c → pendingReqs c !! j = Some p → Forall (λ m, reply_req m = j) ms →
  pending_ok cfg id j (sent_about j sent ++ []) (recv_about j recv ++ ms) p →
  local sent recv c j [] ms c.
Proof.
  intros Hc Hp Hm Hok. pose proof (pending_range _ _ _ _ _ Hc Hp). pose proof (co_last _ _ _ _ _ _ Hc).
  split; try done; [lia|]. rewrite Hp. destruct (pending_life _ _ _ _ _ Hc Hp) as [Hn _].
  split_and!; [by rewrite app_nil_r|done|done].
Qed.

(** A late reply changes nothing. *)
Lemma late_reply_ok j S R p x m :
  pending_ok cfg id j S R p → kind p = PendingConsensus x → sent_confirms x = true →
  (∀ v i, m ≠ Confirm v i (id, j)) → pending_ok cfg id j (S ++ []) (R ++ [m]) p.
Proof.
  intros Hok Hkp Hs Hm. pose proof (po_kind _ _ _ _ _ _ Hok) as Hk. unfold kind_ok in Hk. rewrite Hkp in Hk.
  destruct Hk as [? ? ? ? Hms Ho Hs']. eapply pending_recv; try done; rewrite ?Hkp; try done; [by constructor|by left|].
  unfold kind_ok. rewrite Hkp. rewrite app_nil_r. split; try done.
  - intros v i y Hy. by apply consensus_msg_mono, Hms.
  - congruence.
  - intros _. destruct (Hs' Hs) as [? [?|?]]; (split; [done|]); [by left|right; by apply chosen_mono].
Qed.

(** Not enough replies yet. *)
Lemma more_replies_ok j S R p x q m :
  pending_ok cfg id j S R p → kind p = PendingConsensus x → sent_confirms x = false →
  (∀ v i, reply_of m ≠ Confirm v i (id, j)) →
  numRequired q = QuorumSize cfg → qs_all q (consensus_msg id j (R ++ [reply_of m])) →
  (∀ v i res b, ReplyConsensus v i (id, j) res b ∈ R ++ [reply_of m] → is_Some (messages_of q v !! i)) →
  (∀ v, Z.of_nat (size (messages_of q v)) < if on_slow_path x then QuorumSize cfg else FastQuorumSize cfg) →
  pending_ok cfg id j (S ++ []) (R ++ [reply_of m]) (set_kind p (PendingConsensus (set_replyQuorum x q))).
Proof.
  intros Hok Hkp Hs Hm Hn Hms Hall Hfew. pose proof (po_kind _ _ _ _ _ _ Hok) as Hk. unfold kind_ok in Hk.
  rewrite Hkp in Hk. destruct Hk as [? ? ? ? _ Ho _].
  eapply pending_recv; try done; simpl; rewrite ?Hkp; try done; [by constructor| |by left|].
  - intros a. unfold shape. simpl. by rewrite Hkp.
  - split; simpl; try done; [|congruence]. intros _. destruct (Ho Hs) as (? & _ & _). by split_and!.
Qed.

Lemma consensus_reply_safe up sent recv c m :
  client_ok U cfg id sent recv c → U up → answers id sent (reply_of m) →
  safe up sent recv c (rc_opid m).2 [reply_of m] (HandleConsensusReply up c m).
Proof.
  intros Hc HU [Hid [op Hop]]. destruct (rc_opid m) as [id' j] eqn:Ho. simpl in *. subst id'.
  unfold HandleConsensusReply. rewrite Ho. cbn [snd].
  assert (reply_req (reply_of m) = j) as Hj by (unfold reply_of; simpl; by rewrite Ho).
  assert (∀ v i, reply_of m ≠ Confirm v i (id, j)) as Hm by done.
  destruct (pendingReqs c !! j) as [p|] eqn:Hp; [|by eapply ignored].
  destruct (shape_consensus p op j) as [x Hkp]; [by eapply sent_shape|]. rewrite Hkp.
  destruct (pending_life _ _ _ _ _ Hc Hp) as [Hn Hok]. pose proof (po_kind _ _ _ _ _ _ Hok) as Hk.
  unfold kind_ok in Hk. rewrite Hkp in Hk. destruct (sent_confirms x) eqn:Hs.
  { eapply local_same; try done; [by constructor|]. by eapply late_reply_ok. }
  destruct (reply_added _ _ _ _ _ m Hk Hs Ho) as (Hnum & Hms & Hall & Hoth & _).
  destruct (so_open _ _ _ _ _ _ _ Hk Hs) as (Hi & _ & Hfew).
  cbn [consensusReplyQuorum set_replyQuorum].
  destruct (GetMessages _ _) as [msgs q] eqn:Hget. assert (msgs = messages_of q (rc_view m)) as ->.
  { injection Hget as <- <-. by rewrite messages_of_set, decide_True. }
  cbn [snd] in *. pose proof Hk as [_ _ Hsz Hpath _ _ _]. simpl. rewrite (proj1 Hsz), (proj2 Hsz).
  assert (finalizable j (recv_about j recv ++ [reply_of m]) (set_replyQuorum x q)) as Hfi by (by split).
  assert (map_Forall (consensus_msg id j (recv_about j recv ++ [reply_of m]) (rc_view m)) (messages_of q (rc_view m)))
    as Hmsgs by (intros i y; apply Hms).
  destruct (rc_finalized m) eqn:Hfin; [|destruct (on_slow_path x && _)%bool eqn:Hslow; [|destruct (negb (on_slow_path x) && _)%bool eqn:Hfast]].
  - eapply (slow_path_safe _ _ _ _ _ _ _ _ _ _ _ 0); try done; [by constructor|].
    intros _. left. exists (rc_replicaIdx m). rewrite elem_of_snoc. right. unfold reply_of. by rewrite Ho, Hfin.
  - apply andb_true_iff in Hslow as [_ Hq%Z.leb_le]. eapply slow_path_safe; try done. by constructor.
  - apply andb_true_iff in Hfast as [Hns%negb_true_iff Hq%Z.leb_le]. by eapply fast_path_safe.
  - eapply local_set; try done; [by constructor|]. split_and!; [by rewrite app_nil_r| |done].
    eapply (more_replies_ok _ _ _ p x q m); try done. intros v. destruct (decide (v = rc_view m)) as [->|Hv]; [|by rewrite Hoth].
    destruct (on_slow_path x); simpl in *.
    + by apply Z.leb_gt.
    + by apply Z.leb_gt.
Qed.

Lemma transition_safe up sent recv c j p x :
  client_ok U cfg id sent recv c → U up → pendingReqs c !! j = Some p → kind p = PendingConsensus x →
  transition_to_slow_path_timer x = Some true →
  safe up sent recv c j [] (TransitionToConsensusSlowPath up c j).
Proof.
  intros Hc HU Hp Hkp Ht. destruct (pending_life _ _ _ _ _ Hc Hp) as [Hn Hok].
  pose proof (po_kind _ _ _ _ _ _ Hok) as Hk. unfold kind_ok in Hk. rewrite Hkp in Hk.
  unfold TransitionToConsensusSlowPath. rewrite Hp, Hkp, Ht. rewrite bool_decide_eq_true_2 by (by eexists).
  cbn [mbind outcome_bind ASSERT]. pose proof Hk as [_ Hnum Hsz Hpath Hms Ho Hs].
  assert (finalizable j (recv_about j recv) x) as Hfi by (by split). cbn [consensusReplyQuorum take_slow_path].
  destruct (CheckForQuorum_any Z.le (consensusReplyQuorum x)) as [msgs|] eqn:Hq.
  - apply for_first_Some in Hq as ([v ms] & Hin%elem_of_omap_iter & Hq). simpl in Hq.
    destruct (CheckForQuorum_spec (consensusReplyQuorum x) v) as (Hq' & _). rewrite Hq' in Hq. clear Hq'.
    destruct (Z.leb_spec (numRequired (consensusReplyQuorum x)) (Z.of_nat (size (messages_of (consensusReplyQuorum x) v)))); [|done].
    injection Hq as <-. eapply slow_path_safe; try done; rewrite ?app_nil_r; try done.
    intros _. split; [lia|]. intros i m. apply Hms.
  - eapply local_set; try done. rewrite !app_nil_r. split_and!; [done| |done].
    rewrite <- (app_nil_r (sent_about j sent)), <- (app_nil_r (recv_about j recv)).
    eapply pending_recv; try done; simpl; rewrite ?Hkp; try done; [|by left|].
    + intros a. unfold shape. simpl. by rewrite Hkp.
    + unfold kind_ok. simpl. rewrite !app_nil_r. split; simpl; try done; [apply Hk|].
      intros Hsc. destruct (Ho Hsc) as (? & ? & _). split_and!; try done. intros v.
      destruct (decide (Z.of_nat (size (messages_of (consensusReplyQuorum x) v)) < QuorumSize cfg)) as [|Hge]; [done|exfalso].
      pose proof QuorumSize_pos. assert (is_Some (messages (consensusReplyQuorum x) !! v)) as [ms Hv].
      { unfold messages_of in Hge. destruct (messages (consensusReplyQuorum x) !! v); [done|].
        simpl in Hge. rewrite map_size_empty in Hge. lia. }
      unfold CheckForQuorum_any in Hq. rewrite for_first_None in Hq. specialize (Hq (v, ms)).
      rewrite elem_of_omap_iter in Hq. specialize (Hq Hv). simpl in Hq.
      destruct (CheckForQuorum_spec (consensusReplyQuorum x) v) as (Hq' & _). rewrite Hq', Hnum in Hq.
      destruct (Z.leb_spec (QuorumSize cfg) (Z.of_nat (size (messages_of (consensusReplyQuorum x) v)))); [done|lia].
Qed.

(** Every possible step. *)
Lemma step_safe up sent recv c ev :
  client_ok U cfg id sent recv c → U up → possible id sent c ev →
  ∃ j, safe up sent recv c j (received ev) (client_step up c ev).
Proof.
  intros Hc HU Hev. destruct ev as [op k|op dec k ek|i op k ek|m|j|j]; simpl in *.
  - exists (lastReqId c + 1). pose proof (invoke_inconsistent_local up _ _ _ op k Hc Hev) as Hl.
    by destruct (InvokeInconsistent up c op k None).
  - exists (lastReqId c + 1). pose proof (invoke_consensus_local up _ _ _ op dec k ek Hc Hev) as Hl.
    by destruct (InvokeConsensus up c op dec k ek).
  - exists (lastReqId c + 1). pose proof (invoke_unlogged_local up _ _ _ i op k ek Hc Hev) as Hl.
    by destruct (InvokeUnlogged up c i op k ek).
  - exists (reply_req m). destruct m as [v i opid b|v i opid|v i opid res b|reply j|dv|sv]; simpl in *; try done.
    + by apply inconsistent_reply_safe.
    + by apply confirm_safe.
    + by apply (consensus_reply_safe up sent recv c (mkRC v i opid res b)).
    + by apply unlogged_reply_safe.
  - exists j. destruct Hev as (p & Hp & Ha). by eapply fire_timer_safe.
  - exists j. destruct Hev as (p & x & Hp & Hk & Ht). by eapply transition_safe.
Qed.

Lemma run_ok sent recv c : client_run U cfg id sent recv c → client_ok U cfg id sent recv c.
Proof.
  induction 1 as [|sent recv c up ev acts c' _ IH HU Hev Hstep].
  - split; simpl; try done.
    intros j. apply life_unused.
  - destruct (step_safe _ _ _ _ _ IH HU Hev) as [j Hs]. rewrite Hstep in Hs. by eapply local_ok.
Qed.

End steps.

End runs.

(** ** Counting results *)

Lemma count_results_list (l : list (Z * ReplyConsensusMessage)) res :
  default 0%nat (foldl (λ m q, <[rc_result q.2 := S (default 0%nat (m !! rc_result q.2))]> m)
                   (∅ : gmap string nat) l !! res) =
  length (filter (λ q, rc_result q.2 = res) l).
Proof.
  induction l as [|q l IH] using rev_ind; [done|]. rewrite foldl_app, filter_app, length_app. simpl.
  rewrite lookup_insert, filter_cons, filter_nil. rewrite <- IH. case_decide as Hr; simpl; [|lia].
  rewrite Hr. lia.
Qed.

(** The count of a result is the number of replicas that sent it. *)
Lemma count_results_spec (msgs : gmap Z ReplyConsensusMessage) res :
  default 0%nat (count_results msgs !! res) = size (filter (λ q, rc_result q.2 = res) msgs).
Proof.
  unfold count_results. rewrite count_results_list, map_filter_alt, map_size_list_to_map.
  - apply Permutation_length. by rewrite omap_iter_perm.
  - eapply sublist_NoDup; [|apply fmap_sublist, sublist_filter]. apply NoDup_fst_map_to_list.
Qed.

(** ** Results *)

(** The reply [res] to the application is justified by the messages received. *)
Definition justified {K} (cfg : Configuration) (id : Z) (recv : list ir_reply) (j : Z)
    (p : PendingRequest K) (res : string) : Prop :=
  match kind p with
  | PendingUnlogged _ => UnloggedReply res j ∈ recv
  | PendingInconsistent _ =>
      res = "" ∧ ∃ (v : Z) (X : gset Z), QuorumSize cfg ≤ Z.of_nat (size X) ∧
        ∀ i, i ∈ X → ∃ b, ReplyInconsistent v i (id, j) b ∈ recv
  | PendingConsensus x =>
      (∃ (v : Z) (X : gset Z), FastQuorumSize cfg ≤ Z.of_nat (size X) ∧
         ∀ i, i ∈ X → ∃ b, ReplyConsensus v i (id, j) res b ∈ recv) ∨
      (∃ (v : Z) (X : gset Z), QuorumSize cfg ≤ Z.of_nat (size X) ∧
         (∀ i, i ∈ X → Confirm v i (id, j) ∈ recv) ∧ chosen cfg id j recv (app_decide x) res v)
  end.

Section results.
Context {K : Type} (U : bool → Prop) (cfg : Configuration) (Hcfg : config_ok cfg) (id : Z).
Implicit Types (c : IRClient K) (p : PendingRequest K).

Lemma recv_about_sub j recv m : m ∈ recv_about j recv → m ∈ recv.
Proof. intros [_ ?]%list_elem_of_filter. done. Qed.

Lemma chosen_sub j recv ms dec res v :
  chosen cfg id j (recv_about j recv) dec res v → chosen cfg id j (recv ++ ms) dec res v.
Proof.
  intros [[i Hi%recv_about_sub]|(msgs & ? & ? & Hm)].
  - left. exists i. apply elem_of_app. by left.
  - right. exists msgs. split_and!; try done. intros i m Hi. destruct (Hm _ _ Hi) as (? & ? & ? & ?%recv_about_sub).
    unfold consensus_msg. rewrite elem_of_app. auto.
Qed.

Lemma slow_path_quiet up c j msgs fin p x acts c' a :
  HandleSlowPathConsensus up c j msgs fin p x = Ret (acts, c') → a ∈ acts → ∀ j' k op res, a ≠ Continue j' k op res.
Proof.
  unfold HandleSlowPathConsensus. intros [_ (x' & _ & Hr)%bind_Ret_inv]%ASSERT_bind Ha.
  destruct up; injection Hr as <- _; [by apply list_elem_of_singleton in Ha as ->|by apply elem_of_nil in Ha].
Qed.

(** A confirmation that completes the quorum. *)
Lemma confirm_result sent recv c v i opid acts c' j k op res :
  client_ok U cfg id sent recv c → answers id sent (Confirm v i opid) →
  HandleConfirm c v i opid = Ret (acts, c') → Continue j k op res ∈ acts →
  ∃ p, pendingReqs c !! j = Some p ∧ continuation p = k ∧ request p = op ∧ continuationInvoked p = false ∧
    justified cfg id (recv ++ [Confirm v i opid]) j p res.
Proof.
  intros Hc [Hid Hsent] Hh Ha. destruct opid as [id' j']. simpl in Hid. subst id'. unfold HandleConfirm in Hh. simpl in Hh.
  destruct (pendingReqs c !! j') as [p|] eqn:Hp; [|injection Hh as <- _; by apply elem_of_nil in Ha].
  destruct (pending_life _ _ _ _ _ _ _ _ Hc Hp) as [_ Hok].
  destruct (AddAndCheckForQuorum _ _ _ _) as [ms q] eqn:Hadd.
  destruct ms as [ms|]; [|injection Hh as <- _; by apply elem_of_nil in Ha]. simpl in Hh.
  destruct (continuationInvoked p) eqn:Hi; [injection Hh as <- _; by apply elem_of_nil in Ha|].
  destruct (kind p) as [|q0|x] eqn:Hkp; [done..|].
  destruct (Z.eqb_spec v (reply_consensus_view x)) as [Hv|_];
    [|destruct (consensus_error x); injection Hh as <- _;
      [by apply list_elem_of_singleton in Ha|by apply elem_of_nil in Ha]].
  injection Hh as <- _. apply list_elem_of_singleton in Ha as [= -> -> -> ->].
  exists p. split_and!; try done. unfold justified. rewrite Hkp. right. exists v, (dom ms).
  pose proof (po_kind _ _ _ _ _ _ Hok) as Hk. unfold kind_ok in Hk. rewrite Hkp in Hk.
  destruct (qs_add_quorum (confirmQuorum p) (mkVS v j') i (Confirm v i (id, j')) ms) as [Hms Hsz]; [by rewrite Hadd|].
  rewrite (po_num _ _ _ _ _ _ Hok), Hkp in Hsz. rewrite size_dom. split_and!; [done|..].
  - intros i' [m Hm]%elem_of_dom. rewrite Hms in Hm.
    pose proof (confirm_added _ _ _ _ _ _ v i Hok) as Hq.
    destruct (Hq _ _ _ Hm) as (_ & -> & [?%recv_about_sub|?]%elem_of_snoc); apply elem_of_snoc; auto.
  - assert (shape p (ToAll (FinalizeInconsistent (id, j'))) ∨ ∃ res, shape p (ToAll (FinalizeConsensus (id, j') res))) as Hsh.
    { destruct Hsent as [?|[r ?]]; [left|right; exists r]; by eapply sent_shape. }
    unfold shape in Hsh. rewrite Hkp in Hsh. destruct Hsh as [[]|[_ Hs]].
    destruct (so_sent _ _ _ _ _ _ _ Hk Hs) as [_ [?|Hch]]; [congruence|]. rewrite Hv. by apply chosen_sub.
Qed.

(** A quorum of replies to an inconsistent request. *)
Lemma inconsistent_result up sent recv c v i opid b acts c' j k op res :
  client_ok U cfg id sent recv c → answers id sent (ReplyInconsistent v i opid b) →
  HandleInconsistentReply up c v i opid b = Ret (acts, c') → Continue j k op res ∈ acts →
  ∃ p, pendingReqs c !! j = Some p ∧ continuation p = k ∧ request p = op ∧ continuationInvoked p = false ∧
    justified cfg id (recv ++ [ReplyInconsistent v i opid b]) j p res.
Proof.
  intros Hc [Hid _] Hh Ha. destruct opid as [id' j']. simpl in Hid. subst id'. unfold HandleInconsistentReply in Hh. simpl in Hh.
  destruct (pendingReqs c !! j') as [p|] eqn:Hp; [|injection Hh as <- _; by apply elem_of_nil in Ha].
  destruct (pending_life _ _ _ _ _ _ _ _ Hc Hp) as [_ Hok]. destruct (kind p) as [|q|] eqn:Hkp; [done| |done].
  pose proof (po_kind _ _ _ _ _ _ Hok) as Hk. unfold kind_ok in Hk. rewrite Hkp in Hk.
  set (m := ReplyInconsistent v i (id, j') b) in *. pose proof (qs_add_quorum q (mkVS v j') i m) as Hqq.
  assert (qs_all (AddAndCheckForQuorum q (mkVS v j') i m).2
            (λ vs i' x, ∃ b', x = ReplyInconsistent (vs_view vs) i' (id, j') b' ∧ x ∈ recv ++ [m])) as Hall.
  { eapply qs_add_all; [apply (io_msgs _ _ _ _ _ _ Hk)|..]; simpl.
    - intros v' i' x [_ (b' & -> & ?%recv_about_sub)]. exists b'. rewrite elem_of_snoc. auto.
    - exists b. rewrite elem_of_snoc. auto. }
  destruct (AddAndCheckForQuorum _ _ _ _) as [ms q']. simpl in Hqq, Hall, Hh.
  destruct (bool_decide (is_Some ms) && negb (continuationInvoked p)) eqn:Hcase; [|injection Hh as <- _; by apply elem_of_nil in Ha].
  apply andb_true_iff in Hcase as [[ms' ->]%bool_decide_eq_true Hi%negb_true_iff].
  assert (Continue j k op res = Continue j' (continuation p) (request p) "") as [= -> -> -> ->].
  { injection Hh as <- _. apply elem_of_app in Ha as [Ha|Ha]; [|by apply list_elem_of_singleton in Ha].
    destruct up; [by apply list_elem_of_singleton in Ha|by apply elem_of_nil in Ha]. }
  exists p. split_and!; try done. unfold justified. rewrite Hkp. split; [done|]. exists v, (dom ms').
  destruct (Hqq ms' eq_refl) as [Hms Hsz]. rewrite (io_num _ _ _ _ _ _ Hk) in Hsz. rewrite size_dom. split; [done|].
  intros i' [x Hx]%elem_of_dom. rewrite Hms in Hx. destruct (Hall _ _ _ Hx) as (b' & -> & ?). by exists b'.
Qed.

(** A fast quorum of equal replies. *)
Lemma fast_result up sent recv c m acts c' j k op res :
  client_ok U cfg id sent recv c → answers id sent (reply_of m) →
  HandleConsensusReply up c m = Ret (acts, c') → Continue j k op res ∈ acts →
  ∃ p, pendingReqs c !! j = Some p ∧ continuation p = k ∧ request p = op ∧ continuationInvoked p = false ∧
    justified cfg id (recv ++ [reply_of m]) j p res.
Proof.
  intros Hc [Hid _] Hh Ha. destruct (rc_opid m) as [id' j'] eqn:Ho. unfold reply_of in Hid. simpl in Hid. subst id'.
  unfold HandleConsensusReply in Hh. rewrite Ho in Hh. cbn [snd] in Hh.
  destruct (pendingReqs c !! j') as [p|] eqn:Hp; [|injection Hh as <- _; by apply elem_of_nil in Ha].
  destruct (pending_life _ _ _ _ _ _ _ _ Hc Hp) as [_ Hok]. destruct (kind p) as [| |x] eqn:Hkp; [done..|].
  pose proof (po_kind _ _ _ _ _ _ Hok) as Hk. unfold kind_ok in Hk. rewrite Hkp in Hk.
  destruct (sent_confirms x) eqn:Hs; [injection Hh as <- _; by apply elem_of_nil in Ha|].
  destruct (reply_added _ _ _ _ _ _ _ m Hk Hs Ho) as (_ & Hms & _).
  cbn [consensusReplyQuorum set_replyQuorum] in Hh.
  destruct (GetMessages _ _) as [msgs q] eqn:Hget. assert (msgs = messages_of q (rc_view m)) as ->.
  { injection Hget as <- <-. by rewrite messages_of_set, decide_True. }
  cbn [snd] in Hms.
  assert (∀ fin x, HandleSlowPathConsensus up c j' (messages_of q (rc_view m)) fin p x ≠ Ret (acts, c')) as Hslow.
  { intros fin x' Hx. by eapply slow_path_quiet. }
  destruct (rc_finalized m); [by apply Hslow in Hh|].
  destruct (_ && _)%bool; [by apply Hslow in Hh|].
  destruct (_ && _)%bool; [|injection Hh as <- _; by apply elem_of_nil in Ha].
  unfold HandleFastPathConsensus in Hh. apply ASSERT_bind in Hh as [_ Hh].
  destruct (for_first _ _) as [r|] eqn:Hf; [|by apply Hslow in Hh].
  destruct up; [|done]. simpl in Hh. destruct (so_open _ _ _ _ _ _ _ Hk Hs) as (Hi & _ & _). rewrite Hi in Hh.
  injection Hh as <- _. apply elem_of_cons in Ha as [?|[= -> -> -> ->]%list_elem_of_singleton]; [done|].
  exists p. split_and!; try done. unfold justified. rewrite Hkp. left.
  apply for_first_Some in Hf as ([r' n'] & Hin%elem_of_omap_iter & Hn). simpl in Hn.
  destruct (Z.ltb_spec (Z.of_nat n') (superQuorumSize x)) as [|Hge]; [done|]. injection Hn as ->.
  pose proof (count_results_spec (messages_of q (rc_view m)) r) as Hcount. rewrite Hin in Hcount. simpl in Hcount.
  rewrite (proj2 (so_sizes _ _ _ _ _ _ _ Hk)) in Hge.
  exists (rc_view m), (dom (filter (λ y : Z * ReplyConsensusMessage, rc_result y.2 = r) (messages_of q (rc_view m)))).
  rewrite size_dom. split; [lia|]. intros i [y [Hy Hr]%map_lookup_filter_Some]%elem_of_dom. simpl in Hr.
  destruct (Hms _ _ _ Hy) as (Hv & Hidx & Hopid & Hrecv). unfold reply_of in Hrecv at 1.
  rewrite Hv, Hidx, Hopid, Hr in Hrecv. exists (rc_finalized y).
  apply elem_of_snoc in Hrecv as [?%recv_about_sub|?]; apply elem_of_snoc; auto.
Qed.

Lemma unlogged_result sent recv c reply j' acts c' j k op res :
  client_ok U cfg id sent recv c → answers id sent (UnloggedReply reply j') →
  HandleUnloggedReply c reply j' = Ret (acts, c') → Continue j k op res ∈ acts →
  ∃ p, pendingReqs c !! j = Some p ∧ continuation p = k ∧ request p = op ∧ continuationInvoked p = false ∧
    justified cfg id (recv ++ [UnloggedReply reply j']) j p res.
Proof.
  intros Hc (i & op' & Hop) Hh Ha. unfold HandleUnloggedReply in Hh.
  destruct (pendingReqs c !! j') as [p|] eqn:Hp; [|injection Hh as <- _; by apply elem_of_nil in Ha].
  injection Hh as <- _. apply list_elem_of_singleton in Ha as [= -> -> -> ->]. exists p.
  destruct (pending_life _ _ _ _ _ _ _ _ Hc Hp) as [_ Hok]. pose proof (po_kind _ _ _ _ _ _ Hok) as Hk.
  assert (shape p (ToReplica i (UnloggedRequest (mkReq op' id j')))) as Hs by (by eapply sent_shape).
  unfold shape in Hs. unfold kind_ok in Hk. unfold justified. destruct (kind p); [|done..]. destruct Hk as [_ Hi].
  split_and!; try done. apply elem_of_snoc. by right.
Qed.

(** Timers do not answer requests. *)
Lemma timer_quiet up c j acts c' a :
  fire_timer up c j = Ret (acts, c') ∨ TransitionToConsensusSlowPath up c j = Ret (acts, c') →
  a ∈ acts → ∀ j' k op res, a ≠ Continue j' k op res.
Proof.
  unfold fire_timer, TransitionToConsensusSlowPath. destruct (pendingReqs c !! j) as [p|] eqn:Hp; [|by intros [?|?]].
  intros [[_ Hh]%ASSERT_bind|Hh] Ha j' k op res ->.
  - unfold SendInconsistent, SendConsensus, ResendConfirmation, UnloggedRequestTimeoutCallback in Hh.
    rewrite Hp in Hh. repeat (case_match; simplify_eq/=);
      try (by apply elem_of_nil in Ha); by apply list_elem_of_singleton in Ha.
  - destruct (kind p); [done..|]. apply ASSERT_bind in Hh as [_ Hh].
    destruct (CheckForQuorum_any _ _); [by eapply slow_path_quiet in Ha|].
    injection Hh as <- _. by apply elem_of_nil in Ha.
Qed.

Lemma run_results sent recv c up ev acts c' j k op res :
  client_ok U cfg id sent recv c → possible id sent c ev →
  client_step up c ev = Ret (acts, c') → Continue j k op res ∈ acts →
  ∃ p, pendingReqs c !! j = Some p ∧ continuation p = k ∧ request p = op ∧ continuationInvoked p = false ∧
    justified cfg id (recv ++ received ev) j p res.
Proof.
  intros Hc Hev Hh Ha.
  destruct ev as [op' k'|op' dec k' ek|i op' k' ek|m|j'|j']; simpl in Hh, Hev |- *.
  - injection Hh as Hh. unfold InvokeInconsistent, SendInconsistent in Hh.
    destruct up; injection Hh as <- _; [by apply list_elem_of_singleton in Ha|by apply elem_of_nil in Ha].
  - injection Hh as Hh. unfold InvokeConsensus, SendConsensus in Hh.
    destruct up; injection Hh as <- _; [by apply list_elem_of_singleton in Ha|by apply elem_of_nil in Ha].
  - injection Hh as Hh. unfold InvokeUnlogged in Hh.
    destruct up; injection Hh as <- _; [by apply list_elem_of_singleton in Ha|by apply elem_of_nil in Ha].
  - destruct m as [v i opid b|v i opid|v i opid r b|reply j'|dv|sv]; simpl in Hh, Hev; try done.
    + by eapply inconsistent_result.
    + by eapply confirm_result.
    + by eapply (fast_result up sent recv c (mkRC v i opid r b)).
    + by eapply unlogged_result.
  - exfalso. by eapply timer_quiet; [left|..].
  - exfalso. by eapply timer_quiet; [right|..].
Qed.

End results.

(** C15. What the application is told is justified.  When the client calls back, it is
    for a request that was pending and not yet answered, and: an inconsistent
    request is recorded at a quorum, whose replies are of one view; the result of
    a consensus request is either the same in the replies of a fast quorum in one
    view, or confirmed by a quorum in a view in which some replica had finalized
    it or the application decided on it from the replies of a quorum; the result
    of an unlogged request is a replica's reply. *)
Theorem ir_client_results {K} (cfg : Configuration) (id : Z) sent recv (c : IRClient K) up ev acts c' j k op res :
  config_ok cfg → client_run (λ _, True) cfg id sent recv c → possible id sent c ev →
  client_step up c ev = Ret (acts, c') → Continue j k op res ∈ acts →
  ∃ p, pendingReqs c !! j = Some p ∧ continuation p = k ∧ request p = op ∧ continuationInvoked p = false ∧
    justified cfg id (recv ++ received ev) j p res.
Proof. intros Hcfg Hrun. eapply run_results, run_ok; [done|exact Hrun]. Qed.

(** The client never crashes and answers at most once.  Against replicas that
    answer what they were asked, with a working transport every step returns: no
    assertion fails, no request is missing, the replies of a view never disagree
    on the view.  And each request is called back at most once, also when the
    transport fails. *)
Theorem ir_client_robust {K} (cfg : Configuration) (id : Z) sent recv (c : IRClient K) :
  config_ok cfg → client_run (λ _, True) cfg id sent recv c →
  (∀ ev, possible id sent c ev → ∃ acts c', client_step true c ev = Ret (acts, c')) ∧
  (∀ j, (length (filter is_callback (sent_about j sent)) ≤ 1)%nat).
Proof.
  intros Hcfg Hrun%(run_ok _ _ Hcfg). split.
  - intros ev Hev. destruct (step_safe _ _ Hcfg _ true _ _ _ _ Hrun I Hev) as [j Hs].
    destruct (client_step true c ev) as [[acts c']|]; [|done]. by exists acts, c'.
  - intros j. apply (co_life _ _ _ _ _ _ Hrun j).
Qed.

(** ** Progress *)

Section progress.
Context {K : Type} (U : bool → Prop) (cfg : Configuration) (Hcfg : config_ok cfg) (id : Z).
Implicit Types (c : IRClient K) (p : PendingRequest K).

Lemma recv_about_in j recv m : m ∈ recv → reply_req m = j → m ∈ recv_about j recv.
Proof. intros. by apply list_elem_of_filter. Qed.

(** A set of senders all of whose messages are in a map is not larger than it. *)
Lemma senders_size {V} (X : gset Z) (m : gmap Z V) :
  (∀ i, i ∈ X → is_Some (m !! i)) → (size X ≤ size m)%nat.
Proof.
  intros HX. rewrite <- (size_dom (D := gset Z)). apply subseteq_size. intros i Hi. by apply elem_of_dom, HX.
Qed.

Lemma confirmed_over sent recv c j v (X : gset Z) :
  client_ok U cfg id sent recv c → QuorumSize cfg ≤ Z.of_nat (size X) →
  (∀ i, i ∈ X → Confirm v i (id, j) ∈ recv) → pendingReqs c !! j = None.
Proof.
  intros Hc HX Hall. destruct (pendingReqs c !! j) as [p|] eqn:Hp; [|done]. exfalso.
  destruct (pending_life _ _ _ _ _ _ _ _ Hc Hp) as [_ Hok]. pose proof (po_few _ _ _ _ _ _ Hok (mkVS v j)) as Hfew.
  pose proof (senders_size X (messages_of (confirmQuorum p) (mkVS v j))) as Hsz.
  rewrite (po_num _ _ _ _ _ _ Hok) in Hfew. pose proof (QuorumSize_pos _ Hcfg).
  assert (size X ≤ size (messages_of (confirmQuorum p) (mkVS v j)))%nat.
  { apply Hsz. intros i Hi. by apply (po_all _ _ _ _ _ _ Hok), recv_about_in; [apply Hall|]. }
  destruct (kind p); lia.
Qed.

Lemma replied_called sent recv c j op v (X : gset Z) :
  (∀ up, U up → up = true) → client_ok U cfg id sent recv c →
  ToAll (ProposeInconsistent (mkReq op id j)) ∈ sent → QuorumSize cfg ≤ Z.of_nat (size X) →
  (∀ i, i ∈ X → ∃ b, ReplyInconsistent v i (id, j) b ∈ recv) → Exists is_callback (sent_about j sent).
Proof.
  intros HU Hc Hs HX Hall. destruct (pendingReqs c !! j) as [p|] eqn:Hp.
  - destruct (pending_life _ _ _ _ _ _ _ _ Hc Hp) as [_ Hok]. pose proof (po_kind _ _ _ _ _ _ Hok) as Hk.
    destruct (shape_inconsistent id p op j) as [q Hkp]; [by eapply sent_shape|]. unfold kind_ok in Hk. rewrite Hkp in Hk.
    destruct (continuationInvoked p) eqn:Hi; [by apply (po_called _ _ _ _ _ _ Hok)|exfalso].
    pose proof (io_few _ _ _ _ _ _ Hk (mkVS v j) Hi) as Hfew.
    assert (size X ≤ size (messages_of q (mkVS v j)))%nat; [|lia].
    apply senders_size. intros i [b Hb]%Hall. by eapply (io_all _ _ _ _ _ _ Hk), recv_about_in.
  - destruct (co_life _ _ _ _ _ _ Hc j) as (_ & _ & Hover). apply (Hover HU Hp). exists op. by apply list_elem_of_filter.
Qed.

Lemma replied_finalized sent recv c j op v (X : gset Z) :
  (∀ up, U up → up = true) → client_ok U cfg id sent recv c →
  ToAll (ProposeConsensus (mkReq op id j)) ∈ sent → FastQuorumSize cfg ≤ Z.of_nat (size X) →
  (∀ i, i ∈ X → ∃ res b, ReplyConsensus v i (id, j) res b ∈ recv) →
  ∃ res, ToAll (FinalizeConsensus (id, j) res) ∈ sent.
Proof.
  intros HU Hc Hs HX Hall.
  assert (∃ res, ToAll (FinalizeConsensus (id, j) res) ∈ sent_about j sent) as [res Hr];
    [|exists res; by apply list_elem_of_filter in Hr as [_ ?]].
  destruct (pendingReqs c !! j) as [p|] eqn:Hp.
  - destruct (pending_life _ _ _ _ _ _ _ _ Hc Hp) as [_ Hok]. pose proof (po_kind _ _ _ _ _ _ Hok) as Hk.
    destruct (shape_consensus id p op j) as [x Hkp]; [by eapply sent_shape|]. unfold kind_ok in Hk. rewrite Hkp in Hk.
    destruct (sent_confirms x) eqn:Hsc; [by apply (so_sent _ _ _ _ _ _ _ Hk Hsc)|exfalso].
    destruct (so_open _ _ _ _ _ _ _ Hk Hsc) as (_ & Hrecv & Hfew). specialize (Hfew v).
    assert (size X ≤ size (messages_of (consensusReplyQuorum x) v))%nat.
    { apply senders_size. intros i (res & b & Hb)%Hall. by eapply Hrecv, recv_about_in. }
    assert (QuorumSize cfg ≤ FastQuorumSize cfg).
    { destruct Hcfg as [Hf _]. unfold QuorumSize, FastQuorumSize. pose proof (Z.quot_pos (f cfg + 1) 2). lia. }
    destruct (on_slow_path x); lia.
  - destruct (co_life _ _ _ _ _ _ Hc j) as (_ & _ & Hover). apply (Hover HU Hp). exists op. by apply list_elem_of_filter.
Qed.

End progress.


(** ** A run: an inconsistent request to three replicas *)

(** The client after the request and the first reply. *)
Definition demo_client : IRClient nat :=
  match client_step true (InvokeInconsistent true (new_client demo_config 9) "w" 7%nat None).2
          (EvReceive (ReplyInconsistent 0 0 (9, 1) false)) with
  | Ret (_, c) => c
  | Panic => new_client demo_config 9
  end.

Lemma demo_client_run U :
  U true →
  client_run U demo_config 9 ([] ++ [ToAll (ProposeInconsistent (mkReq "w" 9 1))] ++ [])
    ([] ++ [] ++ [ReplyInconsistent 0 0 (9, 1) false]) demo_client.
Proof.
  intros HU. rewrite !(assoc_L (++)). eapply (run_step _ _ _ _ _ _ true (EvReceive _)); [|done|..].
  - eapply (run_step _ _ _ _ _ _ true (EvInconsistent "w" 7%nat)); [constructor|done|simpl; lia|reflexivity].
  - split; [done|]. exists "w". apply list_elem_of_here.
  - reflexivity.
Qed.

Lemma demo_config_ok : config_ok demo_config.
Proof. unfold config_ok. simpl. lia. Qed.

Lemma demo_reply_possible :
  possible 9 ([] ++ [ToAll (ProposeInconsistent (mkReq "w" 9 1))] ++ []) demo_client
    (EvReceive (ReplyInconsistent 0 1 (9, 1) false)).
Proof. split; [done|]. exists "w". apply list_elem_of_here. Qed.

Lemma ir_client_results_witness :
  ∃ p, pendingReqs demo_client !! 1 = Some p ∧ continuation p = 7%nat ∧ request p = "w" ∧
    continuationInvoked p = false ∧
    justified demo_config 9 (([] ++ [] ++ [ReplyInconsistent 0 0 (9, 1) false]) ++
      [ReplyInconsistent 0 1 (9, 1) false]) 1 p "".
Proof.
  eapply (ir_client_results demo_config 9 _ _ _ true (EvReceive (ReplyInconsistent 0 1 (9, 1) false)) _ _ 1 7%nat "w" "").
  - apply demo_config_ok.
  - by apply demo_client_run.
  - apply demo_reply_possible.
  - vm_compute. reflexivity.
  - apply list_elem_of_further, list_elem_of_here.
Defined.

Lemma ir_client_robust_witness :
  ∃ acts c', client_step true demo_client (EvReceive (ReplyInconsistent 0 1 (9, 1) false)) = Ret (acts, c').
Proof.
  eapply (ir_client_robust demo_config 9).
  - apply demo_config_ok.
  - by apply demo_client_run.
  - apply demo_reply_possible.
Defined.

