(* ===== verification/TapirServer.v ===== *)
(** * The server of tapirstore (store/tapirstore/server.{h,cc}, tapir-proto.proto)

    The TAPIR store as an application of inconsistent replication: a prepare is a
    consensus operation, commits and aborts are inconsistent operations, reads
    are unlogged. *)

From S2P Require Import Prelude Timestamp TsSet Transaction VersionStore TapirStore Codec IRRecord IRReplica.

(** ** Messages *)

Inductive Operation := GET | PREPARE | COMMIT | ABORT.

#[global] Instance Operation_eq_dec : EqDecision Operation.
Proof. solve_decision. Defined.

Record GetMessage := mkGet { gm_key : string; gm_timestamp : option TimestampMessage }.
Record PrepareMessage := mkPrepare { pm_txn : TransactionMessage; pm_timestamp : option TimestampMessage }.

Record TapirRequest := mkTReq {
  rq_op : Operation;
  rq_txnid : Z;
  rq_get : option GetMessage;
  rq_prepare : option PrepareMessage;
  rq_commit : option Z;                    (* CommitMessage.timestamp *)
  rq_abort : option TransactionMessage     (* AbortMessage.txn *)
}.

Record TapirReply := mkTReply {
  rp_status : Z;
  rp_value : option string;
  rp_timestamp : option TimestampMessage
}.

#[global] Instance Operation_countable : Countable Operation :=
  inj_countable'
    (λ o, match o with GET => 0 | PREPARE => 1 | COMMIT => 2 | ABORT => 3 end)
    (λ n, match n with 0 => GET | 1 => PREPARE | 2 => COMMIT | _ => ABORT end)
    (λ o, match o with GET | PREPARE | COMMIT | ABORT => eq_refl end).
#[global] Instance GetMessage_eq_dec : EqDecision GetMessage.
Proof. solve_decision. Defined.
#[global] Instance GetMessage_countable : Countable GetMessage :=
  inj_countable' (λ m, (gm_key m, gm_timestamp m)) (λ p, mkGet p.1 p.2)
    (λ m, match m with mkGet _ _ => eq_refl end).
#[global] Instance PrepareMessage_eq_dec : EqDecision PrepareMessage.
Proof. solve_decision. Defined.
#[global] Instance PrepareMessage_countable : Countable PrepareMessage :=
  inj_countable' (λ m, (pm_txn m, pm_timestamp m)) (λ p, mkPrepare p.1 p.2)
    (λ m, match m with mkPrepare _ _ => eq_refl end).
#[global] Instance TapirRequest_eq_dec : EqDecision TapirRequest.
Proof. solve_decision. Defined.
#[global] Instance TapirRequest_countable : Countable TapirRequest :=
  inj_countable'
    (λ r, (rq_op r, rq_txnid r, rq_get r, (rq_prepare r, rq_commit r, rq_abort r)))
    (λ p, mkTReq p.1.1.1 p.1.1.2 p.1.2 p.2.1.1 p.2.1.2 p.2.2)
    (λ r, match r with mkTReq _ _ _ _ _ _ => eq_refl end).
#[global] Instance TapirReply_eq_dec : EqDecision TapirReply.
Proof. solve_decision. Defined.
#[global] Instance TapirReply_countable : Countable TapirReply :=
  inj_countable' (λ r, (rp_status r, rp_value r, rp_timestamp r))
    (λ p, mkTReply p.1.1 p.1.2 p.2)
    (λ r, match r with mkTReply _ _ _ => eq_refl end).
#[global] Instance TapirRequest_inhabited : Inhabited TapirRequest :=
  populate (mkTReq GET 0 None None None None).
#[global] Instance TapirReply_inhabited : Inhabited TapirReply := populate (mkTReply 0 None None).

(** An unset submessage reads as its default instance. *)
Definition req_get (r : TapirRequest) : GetMessage := default (mkGet "" None) (rq_get r).
Definition req_prepare (r : TapirRequest) : PrepareMessage :=
  default (mkPrepare (mkTxnMsg [] []) None) (rq_prepare r).
Definition req_abort (r : TapirRequest) : TransactionMessage := default (mkTxnMsg [] []) (rq_abort r).
Definition unset_timestamp (t : option TimestampMessage) : TimestampMessage := default (mkTSMsg 0 0) t.

(** ** Upcalls *)

Section server.
Context `{IO : IterOrder} `{Codec TapirRequest} `{Codec TapirReply}.

Definition tapir_ExecInconsistentUpcall (s : Store) (str1 : string) : outcome Store :=
  let request : TapirRequest := parse str1 in
  match rq_op request with
  | COMMIT => Ret (Commit s (rq_txnid request))
  | ABORT => Ret (Abort s (rq_txnid request))
  | _ => Panic
  end.

Definition tapir_ExecConsensusUpcall (s : Store) (str1 : string) : outcome (string * Store) :=
  let request : TapirRequest := parse str1 in
  match rq_op request with
  | PREPARE =>
      r ← Prepare s (rq_txnid request) (txn_of_msg (pm_txn (req_prepare request)))
            (ts_of_msg (unset_timestamp (pm_timestamp (req_prepare request)))) ts0;
      let '((status, proposed), s) := r in
      Ret (ser (mkTReply status None (if isValid proposed then Some (ts_serialize proposed) else None)), s)
  | _ => Panic
  end.

Definition tapir_UnloggedUpcall (s : Store) (str1 : string) : outcome (string * Store) :=
  let request : TapirRequest := parse str1 in
  match rq_op request with
  | GET =>
      match gm_timestamp (req_get request) with
      | Some t =>
          let '(status, val) := Get_at s (rq_txnid request) (gm_key (req_get request)) (ts_of_msg t) in
          Ret (ser (mkTReply status (if (status =? 0)%Z then snd <$> val else None) None), s)
      | None =>
          let '(status, val) := Get s (rq_txnid request) (gm_key (req_get request)) in
          Ret (ser (mkTReply status (if (status =? 0)%Z then snd <$> val else None)
                     (if (status =? 0)%Z then (λ v, ts_serialize v.1) <$> val else None)), s)
      end
  | _ => Panic
  end.

(** Not implemented: a replica stops at its first view change. *)
Definition tapir_Sync (s : Store) (record : IRRecord) : outcome Store := Panic.
Definition tapir_Merge (s : Store) (d u : entries_by) (majority_results_in_d : gmap opid_t string) :
    outcome (gmap opid_t string * Store) := Panic.

#[global] Instance tapir_app : IRApp Store := {
  ExecInconsistentUpcall := tapir_ExecInconsistentUpcall;
  ExecConsensusUpcall := tapir_ExecConsensusUpcall;
  app_UnloggedUpcall := tapir_UnloggedUpcall;
  app_Sync := tapir_Sync;
  app_Merge := tapir_Merge
}.

Definition tapir_Load (s : Store) (key value : string) (t : Timestamp) : Store := Load s key value t.

End server.
