(* ===== verification/Frontend.v ===== *)
(** * The clients' front end (store/common/frontend/txnclient.h,
    store/common/frontend/bufferclient.{h,cc})

    The client of a shard is behind the interface [TxnClient].  A [BufferClient]
    buffers the writes and the read set of a transaction at a shard; the client
    libraries of TAPIR and of the strong store have one for each shard. *)

From S2P Require Import Prelude Timestamp Transaction Promise.

(** ** [TxnClient] *)

(** A call that takes a promise returns it as it is once answered, or [None] if
    it never is before the caller waits for it. *)
Class TxnClient (C : Type) := {
  tc_Begin : C → Z → blocking C;
  tc_Get : C → Z → string → Promise → option Promise * C;
  tc_Get_at : C → Z → string → Timestamp → Promise → option Promise * C;
  tc_Put : C → Z → string → string → Promise → blocking (option Promise * C);
  tc_Prepare : C → Z → Transaction → Timestamp → Promise → option Promise * C;
  tc_Commit : C → Z → Transaction → Z → C;
  tc_Abort : C → Z → Transaction → C
}.

Notation GET_TIMEOUT := (250)%Z (only parsing).
Notation PUT_TIMEOUT := (250)%Z (only parsing).
Notation PREPARE_TIMEOUT := (1000)%Z (only parsing).
Notation COMMIT_TIMEOUT := (1000)%Z (only parsing).
Notation COMMIT_RETRIES := (5)%nat (only parsing).
Notation ABORT_TIMEOUT := (1000)%Z (only parsing).

Section buffer.
Context {C : Type} `{TxnClient C}.

(** ** [BufferClient] *)

Record BufferClient := mkBC { bc_client : C; bc_txn : Transaction; bc_tid : Z }.

Definition bc_Begin (b : BufferClient) (id : Z) : blocking BufferClient :=
  c ← tc_Begin (bc_client b) id; Done (mkBC c empty_txn id).

Definition bc_Get (b : BufferClient) (key : string) (promise : Promise) :
    blocking (option Promise * BufferClient) :=
  match writeSet (bc_txn b) !! key with
  | Some v => Done (Some (Reply_rv promise REPLY_OK v), b)
  | None =>
      match readSet (bc_txn b) !! key with
      | Some t =>
          let '(p, c) := tc_Get_at (bc_client b) (bc_tid b) key t promise in
          Done (p, mkBC c (bc_txn b) (bc_tid b))
      | None =>
          let '(p, c) := tc_Get (bc_client b) (bc_tid b) key promise in
          match p ≫= GetReply, p ≫= GetTimestamp with
          | Some r, Some t =>
              Done (p, mkBC c (if (r =? REPLY_OK)%Z then addReadSet key t (bc_txn b) else bc_txn b) (bc_tid b))
          | _, _ => Blocks
          end
      end
  end.

Definition bc_Put (b : BufferClient) (key value : string) (promise : Promise) : Promise * BufferClient :=
  (Reply_r promise REPLY_OK, mkBC (bc_client b) (addWriteSet key value (bc_txn b)) (bc_tid b)).

Definition bc_Prepare (b : BufferClient) (timestamp : Timestamp) (promise : Promise) :
    option Promise * BufferClient :=
  let '(p, c) := tc_Prepare (bc_client b) (bc_tid b) (bc_txn b) timestamp promise in
  (p, mkBC c (bc_txn b) (bc_tid b)).

Definition bc_Commit (b : BufferClient) (timestamp : Z) : BufferClient :=
  mkBC (tc_Commit (bc_client b) (bc_tid b) (bc_txn b) timestamp) (bc_txn b) (bc_tid b).

(** The transaction sent is empty. *)
Definition bc_Abort (b : BufferClient) : BufferClient :=
  mkBC (tc_Abort (bc_client b) (bc_tid b) empty_txn) (bc_txn b) (bc_tid b).

(** ** Loops over the participants *)

(** The order in which a [std::set<int>] is visited. *)
Definition oset_iter (X : gset Z) : list Z := merge_sort Z.le (elements X).

(** [bclient[i]] *)
Definition shard_client (m : gmap Z BufferClient) (i : Z) : blocking BufferClient :=
  match m !! i with Some b => Done b | None => Crash end.

(** [for (auto p : participants)]: sends the prepares; returns the promises in
    order. *)
Fixpoint send_prepares (m : gmap Z BufferClient) (timestamp : Timestamp) (ps : list Z) :
    blocking (list (option Promise) * gmap Z BufferClient) :=
  match ps with
  | [] => Done ([], m)
  | p :: ps =>
      b ← shard_client m p;
      let '(pr, b) := bc_Prepare b timestamp (promise_with PREPARE_TIMEOUT) in
      r ← send_prepares (<[p := b]> m) timestamp ps;
      Done (pr :: r.1, r.2)
  end.

(** [for (auto p : participants) f(bclient[p])] *)
Fixpoint at_participants (f : BufferClient → BufferClient) (m : gmap Z BufferClient) (ps : list Z) :
    blocking (gmap Z BufferClient) :=
  match ps with
  | [] => Done m
  | p :: ps => b ← shard_client m p; at_participants f (<[p := f b]> m) ps
  end.

End buffer.
Arguments BufferClient C : clear implicits.
