(* ===== verification/FrontendProps.v ===== *)
(** * Properties of the clients' front end

    The clients of the shards are wrapped so that they record the calls they
    get. *)

From S2P Require Import Prelude Timestamp Transaction Promise Frontend.

(** ** Recording the calls *)

Inductive call :=
| CallBegin (id : Z)
| CallGet (id : Z) (key : string) (answer : option Promise)
| CallGetAt (id : Z) (key : string) (t : Timestamp) (answer : option Promise)
| CallPrepare (id : Z) (t : Transaction) (ts : Timestamp) (answer : option Promise)
| CallCommit (id : Z) (t : Transaction) (ts : Z)
| CallAbort (id : Z) (t : Transaction).

Record Traced (C : Type) := mkTraced { calls : list call; inner : C }.
Arguments mkTraced {C} calls inner.
Arguments calls {C} _.
Arguments inner {C} _.

Definition record {C X} (x : Traced C) (f : X → call) (r : X * C) : X * Traced C :=
  (r.1, mkTraced (calls x ++ [f r.1]) r.2).

#[global] Instance traced_client {C} `{TxnClient C} : TxnClient (Traced C) := {
  tc_Begin x id := c ← tc_Begin (inner x) id; Done (mkTraced (calls x ++ [CallBegin id]) c);
  tc_Get x id key p := record x (CallGet id key) (tc_Get (inner x) id key p);
  tc_Get_at x id key t p := record x (CallGetAt id key t) (tc_Get_at (inner x) id key t p);
  tc_Put x id key v p := r ← tc_Put (inner x) id key v p; Done (r.1, mkTraced (calls x) r.2);
  tc_Prepare x id t ts p := record x (CallPrepare id t ts) (tc_Prepare (inner x) id t ts p);
  tc_Commit x id t ts := mkTraced (calls x ++ [CallCommit id t ts]) (tc_Commit (inner x) id t ts);
  tc_Abort x id t := mkTraced (calls x ++ [CallAbort id t]) (tc_Abort (inner x) id t)
}.

Definition trace {C} (b : BufferClient (Traced C)) : list call := calls (bc_client b).

(** ** Rounds of calls *)

Section calls.
Context {C : Type} `{TxnClient C}.
Implicit Types m : gmap Z (BufferClient (Traced C)).

(** [m'] is [m] after each shard client [p] got the calls [f p id txn], where [id]
    and [txn] are the transaction it buffers. *)
Definition called (f : Z → Z → Transaction → list call) m m' : Prop :=
  ∀ p, option_Forall2 (λ b b', bc_txn b' = bc_txn b ∧ bc_tid b' = bc_tid b ∧
    trace b' = trace b ++ f p (bc_tid b) (bc_txn b)) (m !! p) (m' !! p).

Lemma called_nil f m : (∀ p id t, f p id t = []) → called f m m.
Proof.
  intros Hf p. destruct (m !! p) as [b|]; constructor. by rewrite Hf, app_nil_r.
Qed.

Lemma called_trans f g m1 m2 m3 :
  called f m1 m2 → called g m2 m3 → called (λ p id t, f p id t ++ g p id t) m1 m3.
Proof.
  intros Hs Hs' p. specialize (Hs p). specialize (Hs' p). destruct Hs' as [b2 b3 (Ht2 & Hd2 & Hc2)|].
  - inversion Hs as [b1 x (Ht1 & Hd1 & Hc1) E1 E2|]; subst. constructor.
    by rewrite Ht2, Hd2, Hc2, Hc1, Ht1, Hd1, <-app_assoc.
  - inversion Hs. constructor.
Qed.

Lemma called_ext f g m m' : (∀ p id t, f p id t = g p id t) → called f m m' → called g m m'.
Proof.
  intros Hfg Hs p. destruct (Hs p) as [b b' Hb|]; constructor.
  by rewrite <-Hfg.
Qed.

(** One call at [p]. *)
Lemma called_one p b b' x m :
  m !! p = Some b → bc_txn b' = bc_txn b → bc_tid b' = bc_tid b →
  trace b' = trace b ++ [x (bc_tid b) (bc_txn b)] →
  called (λ q id t, if decide (q = p) then [x id t] else []) m (<[p := b']> m).
Proof.
  intros Hb Ht Hd Hc q. destruct (decide (q = p)) as [->|].
  - rewrite Hb, lookup_insert_eq. by constructor.
  - rewrite lookup_insert_ne by done. destruct (m !! q); constructor. by rewrite app_nil_r.
Qed.

Lemma shard_client_Done m p b : shard_client m p = Done b ↔ m !! p = Some b.
Proof. unfold shard_client. destruct (m !! p); naive_solver. Qed.

(** A call to each of [ps]. *)
Definition each (ps : list Z) (x : Z → Z → Transaction → call) : Z → Z → Transaction → list call :=
  λ p id t, if decide (p ∈ ps) then [x p id t] else [].

Lemma called_each p ps x m1 m2 m3 :
  p ∉ ps → called (λ q id t, if decide (q = p) then [x p id t] else []) m1 m2 →
  called (each ps x) m2 m3 → called (each (p :: ps) x) m1 m3.
Proof.
  intros Hp H1 H2. eapply called_ext, called_trans; [|done..]. intros q id t. unfold each; simpl.
  destruct (decide (q = p)) as [->|].
  - rewrite (decide_False (P := p ∈ ps)), decide_True by (done || left). done.
  - destruct (decide (q ∈ ps)) as [Hq|Hq]; [rewrite decide_True by (by right)|rewrite decide_False]; [done..|].
    by intros [?|?]%elem_of_cons.
Qed.

Lemma at_participants_called (f : BufferClient (Traced C) → BufferClient (Traced C)) x ps m m' :
  (∀ b, bc_txn (f b) = bc_txn b ∧ bc_tid (f b) = bc_tid b ∧ trace (f b) = trace b ++ [x (bc_tid b) (bc_txn b)]) →
  NoDup ps → at_participants f m ps = Done m' → called (each ps (λ _, x)) m m'.
Proof.
  intros Hf Hps. revert m. induction Hps as [|p ps Hp Hps IH]; intros m Hc; simpl in Hc.
  { injection Hc as <-. by apply called_nil. }
  apply bind_Done in Hc as (b & Hb%shard_client_Done & Hc). destruct (Hf b) as (? & ? & ?).
  eapply called_each; [done| |by apply IH]. by eapply called_one.
Qed.

Lemma send_prepares_called ts ps m l m' :
  NoDup ps → send_prepares m ts ps = Done (l, m') →
  ∃ votes : Z → option Promise,
    l = votes <$> ps ∧ called (each ps (λ p id t, CallPrepare id t ts (votes p))) m m'.
Proof.
  intros Hps. revert m l. induction Hps as [|p ps Hp Hps IH]; intros m l Hc; simpl in Hc.
  { injection Hc as <- <-. exists (λ _, None). split; [done|]. by apply called_nil. }
  apply bind_Done in Hc as (b & Hb%shard_client_Done & Hc).
  apply bind_Done in Hc as ([l' m2] & Hc & [= <- <-]). simpl in *.
  apply IH in Hc as (votes & -> & Hc). set (r := tc_Prepare _ _ _ _ _).
  exists (λ q, if decide (q = p) then r.1 else votes q). split.
  - simpl. rewrite decide_True by done. f_equal. apply list_fmap_ext. intros i q Hq.
    rewrite decide_False; [done|]. intros ->. by apply list_elem_of_lookup_2, Hp in Hq.
  - eapply called_each; [done| |eapply called_ext; [|exact Hc]].
    + simpl. rewrite decide_True by done.
      eapply (called_one p b _ (λ id t, CallPrepare id t ts r.1)); done.
    + intros q id t. unfold each. destruct (decide (q ∈ ps)) as [Hq|]; [|done].
      rewrite decide_False; [done|]. by intros ->.
Qed.

End calls.

Lemma oset_iter_elem X p : p ∈ oset_iter X ↔ p ∈ X.
Proof. unfold oset_iter. by rewrite merge_sort_Permutation, elem_of_elements. Qed.
Lemma oset_iter_NoDup X : NoDup (oset_iter X).
Proof. unfold oset_iter. rewrite merge_sort_Permutation. apply NoDup_elements. Qed.

(** ** Loops that return *)

(** What a transaction needs of the shard clients: a prepare is answered. *)
Class AnswersPrepare (C : Type) `{TxnClient C} :=
  prepare_answered (x : C) id t ts p : ∃ p' x', tc_Prepare x id t ts p = (Some p', x') ∧ pr_done p' = true.

Section returns.
Context {C : Type} `{AnswersPrepare C}.
Implicit Types m : gmap Z (BufferClient C).

(** The shards [X] have clients. *)
Definition covers m (X : gset Z) : Prop := ∀ p, p ∈ X → is_Some (m !! p).

Lemma covers_insert m X p b : covers m X → covers (<[p := b]> m) X.
Proof. intros Hm q Hq. rewrite lookup_insert_is_Some'. right. by apply Hm. Qed.

Lemma covers_client m X ps p :
  covers m X → (∀ q, q ∈ p :: ps → q ∈ X) → ∃ b, shard_client m p = Done b.
Proof.
  intros Hm Hps. destruct (Hm p) as [b Hb]; [apply Hps; left|]. exists b. unfold shard_client. by rewrite Hb.
Qed.

Lemma at_participants_total f ps m X :
  covers m X → (∀ q, q ∈ ps → q ∈ X) → ∃ m', at_participants f m ps = Done m' ∧ covers m' X.
Proof.
  revert m. induction ps as [|p ps IH]; intros m Hm Hps; [by eexists|].
  destruct (covers_client _ _ _ _ Hm Hps) as [b Hb]. simpl. rewrite Hb. simpl.
  apply IH; [by apply covers_insert|]. intros q Hq. apply Hps. by right.
Qed.

Lemma send_prepares_total ts ps m X :
  covers m X → (∀ q, q ∈ ps → q ∈ X) →
  ∃ l m', send_prepares m ts ps = Done (l, m') ∧ covers m' X ∧ Forall (λ v, is_Some (v ≫= GetReply)) l.
Proof.
  revert m. induction ps as [|p ps IH]; intros m Hm Hps; [by exists [], m|].
  destruct (covers_client _ _ _ _ Hm Hps) as [b Hb]. simpl. rewrite Hb. simpl. unfold bc_Prepare.
  destruct (prepare_answered (bc_client b) (bc_tid b) (bc_txn b) ts (promise_with PREPARE_TIMEOUT))
    as (p' & x' & -> & Hd).
  destruct (IH (<[p := mkBC x' (bc_txn b) (bc_tid b)]> m)) as (l & m' & -> & Hwf & Hl).
  { by apply covers_insert. }
  { intros q Hq. apply Hps. by right. }
  exists (Some p' :: l), m'. split_and!; [done..|]. constructor; [|done]. simpl. unfold GetReply.
  by rewrite Hd.
Qed.

End returns.
