(* ===== verification/TapirShard.v ===== *)
(** * The client of one TAPIR shard (store/tapirstore/shardclient.{h,cc})

    The shard client turns the operations of a transaction into operations of
    inconsistent replication and answers the promises of the application's
    thread from the callbacks.  The methods run on the application's thread; what
    they hand to [transport->Timer(0, ...)] runs later, on the transport's. *)

From S2P Require Import Prelude Timestamp TsSet Transaction Codec Quorum IRRecord IRReplica IRClient Promise Frontend TapirServer.

(** The callbacks the shard client passes to the IR client. *)
Inductive callback := CbGet | CbGetTimeout | CbPrepare | CbCommit | CbAbort.

(** Work for the transport's thread: the request and the promise to answer. *)
Inductive task :=
| TaskGet (request_str : string) (promise : option nat)
| TaskPrepare (request_str : string) (promise : option nat)
| TaskCommit (request_str : string) (promise : option nat)
| TaskAbort (request_str : string) (promise : option nat).

(** Promises live in a heap; [None] is a null pointer. *)
Record ShardClient := mkSC {
  sc_config : Configuration;
  sc_client : IRClient callback;
  sc_replica : Z;
  waiting : option nat;
  blockingBegin : option nat;
  heap : gmap nat Promise;
  next_promise : nat;
  tasks : list task
}.

Definition set_client (s : ShardClient) (x : IRClient callback) : ShardClient :=
  mkSC (sc_config s) x (sc_replica s) (waiting s) (blockingBegin s) (heap s) (next_promise s) (tasks s).
Definition set_waiting (s : ShardClient) (x : option nat) : ShardClient :=
  mkSC (sc_config s) (sc_client s) (sc_replica s) x (blockingBegin s) (heap s) (next_promise s) (tasks s).
Definition set_blockingBegin (s : ShardClient) (x : option nat) : ShardClient :=
  mkSC (sc_config s) (sc_client s) (sc_replica s) (waiting s) x (heap s) (next_promise s) (tasks s).
Definition set_heap (s : ShardClient) (x : gmap nat Promise) : ShardClient :=
  mkSC (sc_config s) (sc_client s) (sc_replica s) (waiting s) (blockingBegin s) x (next_promise s) (tasks s).
Definition add_task (s : ShardClient) (t : task) : ShardClient :=
  mkSC (sc_config s) (sc_client s) (sc_replica s) (waiting s) (blockingBegin s) (heap s) (next_promise s)
    (tasks s ++ [t]).
Definition set_tasks (s : ShardClient) (x : list task) : ShardClient :=
  mkSC (sc_config s) (sc_client s) (sc_replica s) (waiting s) (blockingBegin s) (heap s) (next_promise s) x.

(** [new Promise(timeout)] *)
Definition new_pointer (s : ShardClient) (timeout : Z) : nat * ShardClient :=
  (next_promise s,
   mkSC (sc_config s) (sc_client s) (sc_replica s) (waiting s) (blockingBegin s)
     (<[next_promise s := promise_with timeout]> (heap s)) (S (next_promise s)) (tasks s)).

Section shard.
Context `{IO : IterOrder} `{Codec TapirRequest} `{Codec TapirReply}.

(** The constructor.  The member [config] is made to point to a local variable
    of the constructor; the model takes the configuration it was read from. *)
Definition new_shardclient (config : Configuration) (client_id closestReplica : Z) : ShardClient :=
  mkSC config (new_client config client_id)
    (if (closestReplica =? -1)%Z then client_id mod n config else closestReplica) None None ∅ 0 [].

(** [Begin] waits for a commit or abort in progress: [None] while it blocks. *)
Definition shard_Begin (s : ShardClient) (id : Z) : option ShardClient :=
  match blockingBegin s with
  | Some b =>
      p ← heap s !! b;
      _ ← GetReply p;
      Some (set_blockingBegin (set_heap s (delete b (heap s))) None)
  | None => Some s
  end.

Definition shard_Get (s : ShardClient) (id : Z) (key : string) (promise : option nat) : ShardClient :=
  add_task s (TaskGet (ser (mkTReq GET id (Some (mkGet key None)) None None None)) promise).

Definition shard_Get_at (s : ShardClient) (id : Z) (key : string) (timestamp : Timestamp)
    (promise : option nat) : ShardClient :=
  add_task s (TaskGet (ser (mkTReq GET id (Some (mkGet key (Some (ts_serialize timestamp)))) None None None))
                promise).

Definition shard_Put (s : ShardClient) (id : Z) (key value : string) (promise : option nat) :
    outcome ShardClient := Panic.

Definition shard_Prepare (s : ShardClient) (id : Z) (txn : Transaction) (timestamp : Timestamp)
    (promise : option nat) : ShardClient :=
  add_task s (TaskPrepare (ser (mkTReq PREPARE id None
                (Some (mkPrepare (txn_serialize txn) (Some (ts_serialize timestamp)))) None None)) promise).

Definition shard_Commit (s : ShardClient) (id : Z) (txn : Transaction) (timestamp : Z)
    (promise : option nat) : ShardClient :=
  let '(b, s) := new_pointer s COMMIT_TIMEOUT in
  add_task (set_blockingBegin s (Some b))
    (TaskCommit (ser (mkTReq COMMIT id None None (Some timestamp) None)) promise).

Definition shard_Abort (s : ShardClient) (id : Z) (txn : Transaction) (promise : option nat) : ShardClient :=
  let '(b, s) := new_pointer s ABORT_TIMEOUT in
  add_task (set_blockingBegin s (Some b))
    (TaskAbort (ser (mkTReq ABORT id None None None (Some (txn_serialize txn)))) promise).

(** The loop of [TapirDecide]: [inl] returns from the function. *)
Fixpoint decide_loop (ok_count : Z) (ts : Timestamp) (l : list (string * nat)) : string + (Z * Timestamp) :=
  match l with
  | [] => inr (ok_count, ts)
  | (s, count) :: l =>
      let reply : TapirReply := parse s in
      if (rp_status reply =? REPLY_OK)%Z then decide_loop (ok_count + Z.of_nat count) ts l
      else if (rp_status reply =? REPLY_FAIL)%Z then inl s
      else if (rp_status reply =? REPLY_RETRY)%Z then
        let t := ts_of_msg (unset_timestamp (rp_timestamp reply)) in
        decide_loop ok_count (if ts_gt t ts then t else ts) l
      else decide_loop ok_count ts l
  end.

Definition TapirDecide (config : Configuration) (results : gmap string nat) : string :=
  match decide_loop 0 ts0 (omap_iter string_le results) with
  | inl s => s
  | inr (ok_count, ts) =>
      ser (if (QuorumSize config <=? ok_count)%Z then mkTReply REPLY_OK None None
           else mkTReply REPLY_RETRY None (Some (ts_serialize ts)))
  end.

(** ** The transport's thread *)

Context (up : bool).

(** The next task. *)
Definition run_task (s : ShardClient) : option (list (client_action callback) * ShardClient) :=
  match tasks s with
  | [] => None
  | t :: ts =>
      let s := set_tasks s ts in
      Some
        match t with
        | TaskGet req p =>
            let s := set_waiting s p in
            let '(acts, c) := InvokeUnlogged up (sc_client s) (sc_replica s) req CbGet (Some CbGetTimeout) in
            (acts, set_client s c)
        | TaskPrepare req p =>
            let s := set_waiting s p in
            let '(acts, c) := InvokeConsensus up (sc_client s) req (TapirDecide (sc_config s)) CbPrepare None in
            (acts, set_client s c)
        | TaskCommit req p =>
            let s := set_waiting s p in
            let '(acts, c) := InvokeInconsistent up (sc_client s) req CbCommit None in
            (acts, set_client s c)
        | TaskAbort req p =>
            let s := set_waiting s p in
            let '(acts, c) := InvokeInconsistent up (sc_client s) req CbAbort None in
            (acts, set_client s c)
        end
  end.

(** [w->Reply(...)] for what [waiting] points to, which is cleared. *)
Definition answer_waiting (s : ShardClient) (reply : Promise → Promise) : ShardClient :=
  match waiting s with
  | Some w => set_heap (set_waiting s None) (alter reply w (heap s))
  | None => s
  end.

Definition GetTimeout (s : ShardClient) : ShardClient := answer_waiting s (λ p, Reply_r p REPLY_TIMEOUT).

Definition GetCallback (s : ShardClient) (reply_str : string) : ShardClient :=
  let reply : TapirReply := parse reply_str in
  answer_waiting s (λ p,
    match rp_timestamp reply with
    | Some t => Reply_rtv p (rp_status reply) (ts_of_msg t) (default "" (rp_value reply))
    | None => Reply_rv p (rp_status reply) (default "" (rp_value reply))
    end).

Definition PrepareCallback (s : ShardClient) (reply_str : string) : ShardClient :=
  let reply : TapirReply := parse reply_str in
  answer_waiting s (λ p,
    match rp_timestamp reply with
    | Some t => Reply_rt p (rp_status reply) (ts_of_msg t)
    | None => Reply_rt p (rp_status reply) ts0
    end).

Definition CommitCallback (s : ShardClient) : outcome ShardClient :=
  match blockingBegin s with
  | Some b => Ret (set_waiting (set_heap s (alter (λ p, Reply_r p 0) b (heap s))) None)
  | None => Panic
  end.

Definition AbortCallback (s : ShardClient) : outcome ShardClient :=
  match blockingBegin s with
  | Some b => Ret (set_waiting (set_heap s (alter (λ p, Reply_r p 0) b (heap s))) None)
  | None => Panic
  end.

(** The callbacks among the IR client's actions; the messages are left. *)
Fixpoint run_callbacks (s : ShardClient) (acts : list (client_action callback)) :
    outcome (list (client_action callback) * ShardClient) :=
  match acts with
  | [] => Ret ([], s)
  | a :: acts =>
      match a with
      | Continue _ CbGet _ reply => run_callbacks (GetCallback s reply) acts
      | Continue _ CbPrepare _ reply => run_callbacks (PrepareCallback s reply) acts
      | Continue _ CbCommit _ _ => s ← CommitCallback s; run_callbacks s acts
      | Continue _ CbAbort _ _ => s ← AbortCallback s; run_callbacks s acts
      | Continue _ CbGetTimeout _ _ => run_callbacks (GetTimeout s) acts
      | ErrorContinue _ CbGetTimeout _ _ => run_callbacks (GetTimeout s) acts
      | ErrorContinue _ _ _ _ => run_callbacks s acts
      | _ => r ← run_callbacks s acts; Ret (a :: r.1, r.2)
      end
  end.

(** A message from a replica. *)
Definition shard_receive (s : ShardClient) (m : ir_reply) :
    outcome (list (client_action callback) * ShardClient) :=
  r ← ReceiveMessage up (sc_client s) m;
  run_callbacks (set_client s r.2) r.1.

End shard.
