(* ===== verification/TapirShardProps.v ===== *)
(** * Properties of the TAPIR shard client

    The round trip of an operation through a server, and the decision on the
    votes of a prepare. *)

From S2P Require Import Prelude Timestamp TsSet Transaction VersionStore TapirStore Codec Quorum IRRecord IRReplica IRClient IRClientProps Promise TapirServer TapirShard.

(** ** Round trips *)

Section rpc.
Context `{IO : IterOrder} `{Codec TapirRequest} `{Codec TapirReply}.

(** The callback [cb] answers the promise that is waited for, with [reply]. *)
Definition delivers (cb : ShardClient → ShardClient) (reply : Promise → Promise) : Prop :=
  ∀ sc w pr, waiting sc = Some w → heap sc !! w = Some pr →
    heap (cb sc) !! w = Some (reply pr) ∧ waiting (cb sc) = None.

Lemma answer_waiting_delivers reply : delivers (λ sc, answer_waiting sc reply) reply.
Proof.
  intros sc w pr Hw Hp. unfold answer_waiting. rewrite Hw. simpl. by rewrite lookup_alter_eq, Hp.
Qed.

(** How a promise is answered with what the store returned. *)
Definition get_answer (r : Z * option (Timestamp * string)) (pr : Promise) : Promise :=
  match r.2 with
  | Some (t, v) => Reply_rtv pr r.1 t v
  | None => Reply_rv pr r.1 ""
  end.
Definition get_at_answer (r : Z * option (Timestamp * string)) (pr : Promise) : Promise :=
  match r.2 with
  | Some (t, v) => Reply_rv pr r.1 v
  | None => Reply_rv pr r.1 ""
  end.

End rpc.


(** ** The decision *)

Section decide.
Context `{Codec TapirRequest} `{Codec TapirReply}.

Definition vote_of (s : string) : Z := rp_status (parse s : TapirReply).

(** The timestamp a vote proposes. *)
Definition proposal (s : string) : Timestamp :=
  ts_of_msg (unset_timestamp (rp_timestamp (parse s : TapirReply))).

(** How many replicas voted OK. *)
Definition ok_votes (l : list (string * nat)) : Z :=
  foldr (λ q acc, (if decide (vote_of q.1 = REPLY_OK) then Z.of_nat q.2 else 0) + acc) 0 l.

(** The latest timestamp proposed with a RETRY. *)
Definition latest_proposal (ts : Timestamp) (l : list (string * nat)) : Timestamp :=
  foldl (λ ts q, if decide (vote_of q.1 = REPLY_RETRY)
                 then if ts_gt (proposal q.1) ts then proposal q.1 else ts else ts) ts l.

Lemma decide_loop_spec ok ts l :
  match decide_loop ok ts l with
  | inl s => vote_of s = REPLY_FAIL ∧ s ∈ l.*1
  | inr (ok', ts') => Forall (λ q, vote_of q.1 ≠ REPLY_FAIL) l ∧ ok' = ok + ok_votes l ∧ ts' = latest_proposal ts l
  end.
Proof.
  revert ok ts. induction l as [|[s c] l IH]; intros ok ts; [simpl; split_and!; [done|lia|done]|].
  simpl. fold (vote_of s). fold (proposal s).
  destruct (Z.eqb_spec (vote_of s) REPLY_OK) as [Hok|Hok].
  { rewrite Hok. specialize (IH (ok + Z.of_nat c) ts).
    destruct (decide_loop (ok + Z.of_nat c) ts l) as [s'|[ok' ts']].
    - split; [apply IH|right; apply IH].
    - destruct IH as (? & -> & ->). split_and!; [constructor; [simpl; by rewrite Hok|done]|simpl; lia|done]. }
  destruct (Z.eqb_spec (vote_of s) REPLY_FAIL) as [Hf|Hf]; [split; [done|left]|].
  rewrite (decide_False (P := vote_of s = REPLY_OK)) by done.
  destruct (Z.eqb_spec (vote_of s) REPLY_RETRY) as [Hr|Hr].
  - rewrite decide_True by done. set (t := if ts_gt _ _ then _ else _). specialize (IH ok t).
    destruct (decide_loop ok t l) as [s'|[ok' ts']]; [split; [apply IH|right; apply IH]|].
    destruct IH as (? & -> & ->). split_and!; [by constructor|lia|done].
  - rewrite decide_False by done. specialize (IH ok ts).
    destruct (decide_loop ok ts l) as [s'|[ok' ts']]; [split; [apply IH|right; apply IH]|].
    destruct IH as (? & -> & ->). split_and!; [by constructor|lia|done].
Qed.

Lemma ok_votes_perm l l' : l ≡ₚ l' → ok_votes l = ok_votes l'.
Proof. induction 1; simpl; lia. Qed.

Definition ok_total (m : gmap string nat) : Z := ok_votes (map_to_list m).

Definition ok_weight (s : string) (c : nat) : Z := if decide (vote_of s = REPLY_OK) then Z.of_nat c else 0.

Lemma ok_total_insert m s c : ok_total (<[s := c]> m) = ok_weight s c + ok_total (delete s m).
Proof.
  unfold ok_total. rewrite <-insert_delete_eq.
  by rewrite (ok_votes_perm _ _ (map_to_list_insert _ _ c (lookup_delete_eq m s))).
Qed.

Lemma ok_total_delete m s : ok_total m = ok_weight s (default 0%nat (m !! s)) + ok_total (delete s m).
Proof.
  destruct (m !! s) as [c|] eqn:Hs; simpl.
  - rewrite <-ok_total_insert. by rewrite insert_id.
  - rewrite delete_id by done. unfold ok_weight. case_decide; simpl; lia.
Qed.

(** The OK votes are those of the replicas that replied OK. *)
Lemma ok_total_count (msgs : gmap Z ReplyConsensusMessage) :
  ok_total (count_results msgs) =
  Z.of_nat (size (filter (λ q : Z * ReplyConsensusMessage, vote_of (rc_result q.2) = REPLY_OK) msgs)).
Proof.
  assert (∀ (l : list (Z * ReplyConsensusMessage)) m,
    ok_total (foldl (λ m q, <[rc_result q.2 := S (default 0%nat (m !! rc_result q.2))]> m) m l) =
    ok_total m + Z.of_nat (length (filter (λ q, vote_of (rc_result q.2) = REPLY_OK) l))) as Hl.
  { induction l as [|q l IH]; intros m; [simpl; lia|]. simpl foldl. rewrite IH.
    rewrite ok_total_insert, (ok_total_delete m (rc_result q.2)), filter_cons. unfold ok_weight.
    destruct (decide (vote_of (rc_result q.2) = REPLY_OK)); simpl; lia. }
  unfold count_results. rewrite Hl, map_filter_alt, map_size_list_to_map.
  - unfold ok_total. rewrite map_to_list_empty. simpl. do 2 f_equal.
    by rewrite omap_iter_perm.
  - eapply sublist_NoDup; [|apply fmap_sublist, sublist_filter]. apply NoDup_fst_map_to_list.
Qed.

Lemma count_results_dom (msgs : gmap Z ReplyConsensusMessage) s :
  is_Some (count_results msgs !! s) ↔ ∃ i m, msgs !! i = Some m ∧ rc_result m = s.
Proof.
  assert (∀ (l : list (Z * ReplyConsensusMessage)) (m0 : gmap string nat),
    is_Some (foldl (λ m q, <[rc_result q.2 := S (default 0%nat (m !! rc_result q.2))]> m) m0 l !! s) ↔
    is_Some (m0 !! s) ∨ ∃ q, q ∈ l ∧ rc_result q.2 = s) as Hl.
  { induction l as [|q l IH]; intros m0; [set_solver|]. simpl. rewrite IH, lookup_insert_is_Some'.
    set_solver. }
  unfold count_results. rewrite Hl, lookup_empty. split.
  - intros [[? [=]]|([i m] & Hq%elem_of_omap_iter & ?)]. eauto.
  - intros (i & m & Hm & ?). right. exists (i, m). by rewrite elem_of_omap_iter.
Qed.

Lemma TapirDecide_cases cfg results :
  (vote_of (TapirDecide cfg results) = REPLY_FAIL ∧ is_Some (results !! TapirDecide cfg results)) ∨
  ((∀ s c, results !! s = Some c → vote_of s ≠ REPLY_FAIL) ∧
   TapirDecide cfg results =
     ser (if decide (QuorumSize cfg ≤ ok_total results) then mkTReply REPLY_OK None None
          else mkTReply REPLY_RETRY None
                 (Some (ts_serialize (latest_proposal ts0 (omap_iter string_le results)))))).
Proof.
  unfold TapirDecide. pose proof (decide_loop_spec 0 ts0 (omap_iter string_le results)) as Hs.
  destruct (decide_loop 0 ts0 (omap_iter string_le results)) as [s|[ok ts]].
  - left. destruct Hs as [Hv Hin]. split; [done|].
    apply list_elem_of_fmap in Hin as ([s' c] & -> & Hin%elem_of_omap_iter). by eexists.
  - right. destruct Hs as (Hf & -> & ->). split.
    + intros s c Hsc. rewrite Forall_forall in Hf. apply (Hf (s, c)). by apply elem_of_omap_iter.
    + unfold ok_total. rewrite (ok_votes_perm _ _ (omap_iter_perm string_le results)).
      destruct (Z.leb_spec (QuorumSize cfg) (0 + ok_votes (map_to_list results)));
        [rewrite decide_True|rewrite decide_False]; by (lia || done).
Qed.

End decide.

(** The decision on the votes of a prepare.  If a replica voted FAIL, that is the
    decision; else it is OK if a quorum of replicas voted OK, and RETRY at the
    latest timestamp proposed with a RETRY vote otherwise. *)
Theorem TapirDecide_votes `{Codec TapirRequest} `{Codec TapirReply} cfg (msgs : gmap Z ReplyConsensusMessage) :
  let d := TapirDecide cfg (count_results msgs) in
  ((∃ i m, msgs !! i = Some m ∧ vote_of (rc_result m) = REPLY_FAIL) →
     vote_of d = REPLY_FAIL ∧ ∃ i m, msgs !! i = Some m ∧ rc_result m = d) ∧
  ((∀ i m, msgs !! i = Some m → vote_of (rc_result m) ≠ REPLY_FAIL) →
     vote_of d = (if decide (QuorumSize cfg ≤
                      Z.of_nat (size (filter (λ q : Z * ReplyConsensusMessage, vote_of (rc_result q.2) = REPLY_OK) msgs)))
                  then REPLY_OK else REPLY_RETRY) ∧
     (vote_of d = REPLY_RETRY →
        proposal d = latest_proposal ts0 (omap_iter string_le (count_results msgs)))).
Proof.
  intros d. subst d.
  destruct (TapirDecide_cases cfg (count_results msgs)) as [[Hf Hs]|[Hno ->]].
  - apply count_results_dom in Hs as (i & m & Hm & Hr). split.
    + intros _. split; [done|]. eauto.
    + intros Hno. destruct (Hno i m Hm). by rewrite Hr.
  - split.
    + intros (i & m & Hm & Hv). destruct (proj2 (count_results_dom msgs (rc_result m))) as [c Hc]; [eauto|].
      by destruct (Hno _ _ Hc).
    + intros _. rewrite <-ok_total_count. unfold proposal.
      destruct (decide (QuorumSize cfg ≤ ok_total (count_results msgs))); unfold vote_of; rewrite parse_ser; simpl;
        [done|]. by rewrite ts_of_msg_serialize.
Qed.
