(* ===== verification/TapirGroup.v ===== *)
(** * A group of TAPIR replicas

    Replicas of inconsistent replication that run the TAPIR store, together with
    the history of transactions each accepted.  Replicas vote OK only for what
    they accepted, and any two transactions that clients were told are prepared
    were checked against each other at a common replica. *)

From S2P Require Import Prelude Timestamp TsSet Transaction VersionStore TapirStore Serial TapirSerial Codec Quorum IRRecord IRReplica IRClient IRClientProps Promise TapirServer TapirShard TapirShardProps.

Section group.
Context `{IO : IterOrder} `{Codec TapirRequest} `{Codec TapirReply} `{Codec PersistedViewInfo}.
Implicit Types (r : IRReplica Store) (g : history) (req : Request).

(** ** Runs of a replica *)

Definition opid_of req : opid_t := (req_clientid req, req_clientreqid req).

(** The transaction and the timestamp of a prepare request. *)
Definition prepare_txn (q : TapirRequest) : Transaction := txn_of_msg (pm_txn (req_prepare q)).
Definition prepare_ts (q : TapirRequest) : Timestamp := ts_of_msg (unset_timestamp (pm_timestamp (req_prepare q))).

(** The history after [r] handled [m] and became [r']. *)
Definition observe r g (m : ir_request) r' : history :=
  let s' := app r' in
  match m with
  | ProposeConsensus req =>
      match record r !! opid_of req with
      | Some _ => g
      | None =>
          let q : TapirRequest := parse (req_op req) in
          if decide (fst <$> prepared (st g) !! rq_txnid q = Some (prepare_ts q)) then mkHist s' (log g)
          else if decide (is_Some (prepared s' !! rq_txnid q)) then
            mkHist s' ((resolve (rq_txnid q) Aborted <$> log g) ++
              [mkEntry (rq_txnid q) (prepare_ts q) (prepare_txn q) (held_reads (kv (st g)) (prepare_txn q)) Prepared])
          else mkHist s' (resolve (rq_txnid q) Aborted <$> log g)
      end
  | FinalizeInconsistent opid =>
      match record r !! opid with
      | Some e =>
          if decide (ent_state e = RECORD_STATE_TENTATIVE) then
            let q : TapirRequest := parse (req_op (ent_request e)) in
            mkHist s' (resolve (rq_txnid q) (match rq_op q with COMMIT => Committed | _ => Aborted end) <$> log g)
          else g
      | None => g
      end
  | _ => g
  end.

(** What clients send: the id of an operation is that of one operation; a prepare
    is at a valid timestamp, which belongs to one attempt of one transaction. *)
Definition sound r g (m : ir_request) : Prop :=
  match m with
  | ProposeConsensus req =>
      match record r !! opid_of req with
      | Some e => ent_type e = RECORD_TYPE_CONSENSUS
      | None =>
          let q : TapirRequest := parse (req_op req) in
          isValid (prepare_ts q) = true ∧
          (∀ x, prepared (st g) !! rq_txnid q = Some (prepare_ts q, x) → x = prepare_txn q) ∧
          (fst <$> prepared (st g) !! rq_txnid q ≠ Some (prepare_ts q) →
           ∀ e, e ∈ log g → e_ts e = prepare_ts q → e_status e = Aborted)
      end
  | DoViewChange _ | StartView _ => False
  | _ => True
  end.

Definition replies (acts : list action) : list ir_reply :=
  omap (λ a, match a with Reply m => Some m | _ => None end) acts.

(** Replica [idx] of a group that loaded [x0] received [ms] and replied [rs]. *)
Inductive tapir_run (cfg : Configuration) (idx : Z) (x0 : VersionedKVStore) :
    list ir_request → list ir_reply → IRReplica Store → history → Prop :=
| tr_new : tapir_run cfg idx x0 [] [] (new_replica cfg idx (mkStore true x0 ∅) None).2 (start x0)
| tr_step ms rs r g m acts r' :
    tapir_run cfg idx x0 ms rs r g → sound r g m → HandleMessage r m = Ret (acts, r') →
    tapir_run cfg idx x0 (ms ++ [m]) (rs ++ replies acts) r' (observe r g m r').

(** ** The history is that of the store *)

Lemma Prepare_prepared s id txn ts prop v t s' :
  Prepare s id txn ts prop = Ret (v, t, s') → v = REPLY_OK ↔ is_Some (prepared s' !! id).
Proof.
  intros Hp. split.
  - intros ->. apply Prepare_OK_inv in Hp as [(x & Hx & ->)|(_ & -> & _)]; simpl.
    + by rewrite Hx.
    + rewrite lookup_insert_eq. by eexists.
  - intros Hs. destruct (decide (v = REPLY_OK)) as [|Hv]; [done|].
    rewrite (Prepare_reject_inv _ _ _ _ _ _ _ _ Hp Hv) in Hs. simpl in Hs.
    rewrite lookup_delete_eq in Hs. by destruct Hs.
Qed.

Lemma fst_prepared s id ts :
  fst <$> prepared s !! id = Some ts ↔ ∃ x, prepared s !! id = Some (ts, x).
Proof.
  split.
  - intros ([t x] & -> & Hx)%fmap_Some. simpl in Hx. subst t. by eexists.
  - by intros [x ->].
Qed.

(** What the handlers do to the record and the store. *)
Lemma HandleProposeConsensus_inv r req acts r' :
  HandleProposeConsensus r req = Ret (acts, r') →
  (∃ e, record r !! opid_of req = Some e ∧ r' = r ∧
     acts = [Reply (ReplyConsensus (ent_view e) (myIdx r) (opid_of req) (ent_result e)
               (bool_decide (ent_state e = RECORD_STATE_FINALIZED)))]) ∨
  (record r !! opid_of req = None ∧ ∃ res s',
     tapir_ExecConsensusUpcall (app r) (req_op req) = Ret (res, s') ∧ app r' = s' ∧
     record r' = <[opid_of req := mkEnt (view r) (opid_of req) RECORD_STATE_TENTATIVE RECORD_TYPE_CONSENSUS req res]>
                   (record r) ∧
     acts = [Reply (ReplyConsensus (view r) (myIdx r) (opid_of req) res false)]).
Proof.
  unfold HandleProposeConsensus, Find. fold (opid_of req). destruct (record r !! opid_of req) as [e|] eqn:He.
  - unfold ASSERT. destruct (bool_decide (ent_opid e = opid_of req)); [|done]. cbn [mbind outcome_bind].
    intros [= <- <-]. left. by exists e.
  - cbn [mbind outcome_bind ASSERT]. intros Hh. right. split; [done|].
    apply bind_Ret_inv in Hh as ([res s'] & Hx & Hh). rewrite Add_result_fresh in Hh by done.
    injection Hh as <- <-. by exists res, s'.
Qed.

Lemma prepare_step g req res s' :
  let q : TapirRequest := parse (req_op req) in
  isValid (prepare_ts q) = true →
  (fst <$> prepared (st g) !! rq_txnid q ≠ Some (prepare_ts q) →
   ∀ e, e ∈ log g → e_ts e = prepare_ts q → e_status e = Aborted) →
  tapir_ExecConsensusUpcall (st g) (req_op req) = Ret (res, s') →
  (vote_of res = REPLY_OK ↔ is_Some (prepared s' !! rq_txnid q)) ∧
  tstep g
    (if decide (fst <$> prepared (st g) !! rq_txnid q = Some (prepare_ts q)) then mkHist s' (log g)
     else if decide (is_Some (prepared s' !! rq_txnid q)) then
       mkHist s' ((resolve (rq_txnid q) Aborted <$> log g) ++
         [mkEntry (rq_txnid q) (prepare_ts q) (prepare_txn q) (held_reads (kv (st g)) (prepare_txn q)) Prepared])
     else mkHist s' (resolve (rq_txnid q) Aborted <$> log g)).
Proof.
  intros q Hval Hold. unfold tapir_ExecConsensusUpcall. fold q.
  destruct (rq_op q); [done|intros Hx|done..].
  apply bind_Ret_inv in Hx as ([[v t] s2] & Hp & [= <- <-]).
  unfold vote_of. rewrite parse_ser. simpl. fold (prepare_txn q) (prepare_ts q) in Hp.
  pose proof (Prepare_prepared _ _ _ _ _ _ _ _ Hp) as Hv. split; [done|].
  destruct (decide (fst <$> _ = _)) as [[x Hx]%fst_prepared|Hnp].
  { by eapply step_again. }
  destruct (decide (is_Some _)) as [Hs%Hv|Hs]; [subst v; eapply step_accept|eapply step_reject]; try done.
  - intros x Hx. apply Hnp, fst_prepared. by eexists.
  - by apply Hold.
  - by rewrite Hv.
Qed.

Lemma observe_ok r g m acts r' :
  st g = app r → sound r g m → HandleMessage r m = Ret (acts, r') →
  rtc tstep g (observe r g m r') ∧ st (observe r g m r') = app r'.
Proof.
  intros Hst Hsound Hh. destruct m as [req|opid|req|opid res|req|?|?]; simpl in Hh, Hsound; try done; simpl.
  - unfold HandleProposeInconsistent in Hh. apply bind_Ret_inv in Hh as ([e|] & _ & Hh).
    + by injection Hh as <- <-.
    + apply bind_Ret_inv in Hh as (rec & _ & [= <- <-]). by split; [|rewrite Hst].
  - unfold HandleFinalizeInconsistent, Find in Hh. destruct (record r !! opid) as [e|] eqn:He.
    2: { by injection Hh as <- <-. }
    unfold ASSERT in Hh. destruct (bool_decide _); [|done]. cbn [mbind outcome_bind] in Hh.
    destruct (ent_state e); [|by injection Hh as <- <-].
    apply bind_Ret_inv in Hh as (rec & _ & Hh). apply bind_Ret_inv in Hh as (s' & Hx & [= <- <-]).
    rewrite decide_True by done. simpl. unfold tapir_ExecInconsistentUpcall in Hx. rewrite <-Hst in Hx.
    simpl in Hx. unfold tapir_ExecInconsistentUpcall in Hx.
    destruct (rq_op (parse (req_op (ent_request e)))); try done; injection Hx as <-; (split; [|done]);
      apply rtc_once; constructor.
  - apply HandleProposeConsensus_inv in Hh as [(e & He & -> & _)|(Hn & res & s' & Hx & <- & _)].
    + by rewrite He.
    + rewrite Hn in *. destruct Hsound as (Hval & _ & Hold). rewrite <-Hst in Hx.
      destruct (prepare_step g req res (app r') Hval Hold Hx) as [_ Hstep].
      split; [by apply rtc_once|]. by repeat case_decide.
  - unfold HandleFinalizeConsensus in Hh. apply bind_Ret_inv in Hh as ([e|] & _ & Hh).
    + apply bind_Ret_inv in Hh as (rec & _ & [= <- <-]). by split; [|rewrite Hst].
    + by injection Hh as <- <-.
  - unfold HandleUnlogged in Hh. apply bind_Ret_inv in Hh as ([x s'] & Hx & [= <- <-]). simpl in *.
    split; [done|]. rewrite Hst. unfold tapir_UnloggedUpcall in Hx. repeat case_match; by simplify_eq.
Qed.

Lemma run_history cfg idx x0 ms rs r g :
  tapir_run cfg idx x0 ms rs r g → rtc tstep (start x0) g ∧ st g = app r.
Proof.
  induction 1 as [|ms rs r g m acts r' _ [IH1 IH2] Hs Hh]; [by split|].
  destruct (observe_ok _ _ _ _ _ IH2 Hs Hh) as [? ?]. split; [by etrans|done].
Qed.

(** ** Votes are true *)

(** The history has the transaction of the prepare [q]. *)
Definition accepted g (q : TapirRequest) : Prop :=
  ∃ e, e ∈ log g ∧ e_id e = rq_txnid q ∧ e_ts e = prepare_ts q ∧ e_txn e = prepare_txn q.

Lemma accepted_resolve s g id to l q :
  accepted g q → accepted (mkHist s ((resolve id to <$> log g) ++ l)) q.
Proof.
  intros (e & He & ? & ? & ?). exists (resolve id to e). simpl. split.
  - apply elem_of_app. left. by apply list_elem_of_fmap_2.
  - by rewrite resolve_id, resolve_ts, resolve_txn.
Qed.

Lemma accepted_resolve0 s g id to q : accepted g q → accepted (mkHist s (resolve id to <$> log g)) q.
Proof. intros Ha. rewrite <-(app_nil_r (resolve id to <$> log g)). by apply accepted_resolve. Qed.

Lemma accepted_observe r g m r' q : accepted g q → accepted (observe r g m r') q.
Proof.
  intros Ha. unfold observe. repeat case_match; auto using accepted_resolve, accepted_resolve0.
Qed.

(** An entry of the record that the replica voted OK for. *)
Definition true_vote g (ms : list ir_request) (opid : opid_t) : Prop :=
  ∃ req, ProposeConsensus req ∈ ms ∧ opid_of req = opid ∧ accepted g (parse (req_op req)).

Lemma true_vote_mono r g m r' ms opid :
  true_vote g ms opid → true_vote (observe r g m r') (ms ++ [m]) opid.
Proof.
  intros (req & Hin & Ho & Ha). exists req. split_and!; [set_solver|done|by apply accepted_observe].
Qed.

Record votes_ok (ms : list ir_request) (rs : list ir_reply) r g : Prop := {
  vo_record opid e : record r !! opid = Some e → ent_type e = RECORD_TYPE_CONSENSUS →
    ent_state e = RECORD_STATE_TENTATIVE → vote_of (ent_result e) = REPLY_OK → true_vote g ms opid;
  vo_replies v i opid res : ReplyConsensus v i opid res false ∈ rs → vote_of res = REPLY_OK → true_vote g ms opid
}.

Lemma votes_keep ms rs r g m acts r' :
  votes_ok ms rs r g →
  (∀ opid e, record r' !! opid = Some e → ent_type e = RECORD_TYPE_CONSENSUS →
     ent_state e = RECORD_STATE_TENTATIVE → record r !! opid = Some e) →
  (∀ v i opid res, ReplyConsensus v i opid res false ∉ replies acts) →
  votes_ok (ms ++ [m]) (rs ++ replies acts) r' (observe r g m r').
Proof.
  intros [Hrec Hrep] Hr Ha. split.
  - intros opid e He Ht Hs Hv. eapply true_vote_mono, Hrec; eauto.
  - intros v i opid res [Hin|Hin]%elem_of_app Hv; [by eapply true_vote_mono, Hrep|by destruct (Ha v i opid res)].
Qed.

Lemma vote_accepted x0 g req res s' :
  let q : TapirRequest := parse (req_op req) in
  tinv x0 g →
  isValid (prepare_ts q) = true →
  (∀ x, prepared (st g) !! rq_txnid q = Some (prepare_ts q, x) → x = prepare_txn q) →
  (fst <$> prepared (st g) !! rq_txnid q ≠ Some (prepare_ts q) →
   ∀ e, e ∈ log g → e_ts e = prepare_ts q → e_status e = Aborted) →
  tapir_ExecConsensusUpcall (st g) (req_op req) = Ret (res, s') → vote_of res = REPLY_OK →
  ∀ r r', record r !! opid_of req = None → app r' = s' → accepted (observe r g (ProposeConsensus req) r') q.
Proof.
  intros q Hinv Hval Hsame Hold Hx Hv r r' Hn <-.
  destruct (prepare_step g req res (app r') Hval Hold Hx) as [Hp _].
  unfold observe. rewrite Hn. fold q.
  destruct (decide (fst <$> _ = _)) as [[x Hx']%fst_prepared|Hnp].
  - pose proof (Hsame x Hx') as ->. apply (i_prep _ _ Hinv) in Hx' as (e & He & _ & ? & ? & ?). by exists e.
  - rewrite decide_True by (by apply Hp). eexists. split; [apply elem_of_app; right; apply list_elem_of_here|done].
Qed.

Lemma votes_propose x0 ms rs r g req acts r' :
  tinv x0 g → st g = app r → votes_ok ms rs r g → sound r g (ProposeConsensus req) →
  HandleProposeConsensus r req = Ret (acts, r') →
  votes_ok (ms ++ [ProposeConsensus req]) (rs ++ replies acts) r' (observe r g (ProposeConsensus req) r').
Proof.
  intros Hinv Hst Hvo Hsound Hh. simpl in Hsound.
  destruct Hvo as [Hrec Hrep].
  apply HandleProposeConsensus_inv in Hh as [(e & He & -> & ->)|(Hn & res & s' & Hx & Happ & Hr & ->)].
  - split.
    + intros opid e' He' ???. eapply true_vote_mono, Hrec; eauto.
    + intros v i opid res [Hin|Hin]%elem_of_app Hv; [by eapply true_vote_mono, Hrep|].
      apply list_elem_of_singleton in Hin. injection Hin as -> -> -> -> Hfin.
      rewrite He in Hsound. eapply true_vote_mono, Hrec; [done..| |done].
      symmetry in Hfin. apply bool_decide_eq_false in Hfin. by destruct (ent_state e).
  - rewrite Hn in Hsound. destruct Hsound as (Hval & Hsame & Hold). rewrite <-Hst in Hx.
    assert (vote_of res = REPLY_OK →
      true_vote (observe r g (ProposeConsensus req) r') (ms ++ [ProposeConsensus req]) (opid_of req)) as Hnew.
    { intros Hv. exists req. split_and!; [set_solver|done|].
      by apply (vote_accepted x0 g req res (app r')); rewrite ?Happ. }
    split.
    + intros opid e'. rewrite Hr. destruct (decide (opid = opid_of req)) as [->|].
      * rewrite lookup_insert_eq. intros [= <-] _ _. apply Hnew.
      * rewrite lookup_insert_ne by done. intros. eapply true_vote_mono, Hrec; eauto.
    + intros v i opid res' [Hin|Hin]%elem_of_app Hv; [by eapply true_vote_mono, Hrep|].
      apply list_elem_of_singleton in Hin. injection Hin as -> -> -> ->. by apply Hnew.
Qed.

Lemma votes_step x0 ms rs r g m acts r' :
  tinv x0 g → st g = app r → votes_ok ms rs r g → sound r g m → HandleMessage r m = Ret (acts, r') →
  votes_ok (ms ++ [m]) (rs ++ replies acts) r' (observe r g m r').
Proof.
  intros Hinv Hst Hvo Hsound Hh.
  destruct m as [req|opid|req|opid res|req|?|?]; simpl in Hh, Hsound; try done.
  - unfold HandleProposeInconsistent in Hh. apply bind_Ret_inv in Hh as ([e|] & _ & Hh).
    + injection Hh as <- <-. apply votes_keep; [done..|]. simpl. set_solver.
    + apply bind_Ret_inv in Hh as (rec & Ha & [= <- <-]). apply votes_keep; [done| |simpl; set_solver].
      apply ASSERT_bind in Ha as [_ [= <-]]. simpl. intros opid e.
      destruct (decide (opid = opid_of req)) as [->|]; [rewrite lookup_insert_eq|by rewrite lookup_insert_ne].
      by intros [= <-].
  - unfold HandleFinalizeInconsistent in Hh. apply bind_Ret_inv in Hh as (o & Hf & Hh).
    destruct o as [e|]; [|injection Hh as <- <-; apply votes_keep; [done..|simpl; set_solver]].
    destruct (ent_state e); [|injection Hh as <- <-; apply votes_keep; [done..|simpl; set_solver]].
    unfold SetStatus in Hh. rewrite Hf in Hh. cbn [mbind outcome_bind] in Hh.
    apply bind_Ret_inv in Hh as (s' & Hx & [= <- <-]). apply votes_keep; [done| |simpl; set_solver]. simpl.
    intros opid' e'. destruct (decide (opid' = opid)) as [->|]; [rewrite lookup_insert_eq|by rewrite lookup_insert_ne].
    by intros [= <-].
  - by apply (votes_propose x0).
  - unfold HandleFinalizeConsensus in Hh. apply bind_Ret_inv in Hh as (o & Hf & Hh).
    destruct o as [e|]; [|injection Hh as <- <-; apply votes_keep; [done..|simpl; set_solver]].
    unfold SetStatus in Hh. rewrite Hf in Hh. cbn [mbind outcome_bind] in Hh. injection Hh as <- <-.
    apply votes_keep; [done| |simpl; set_solver]. simpl. intros opid' e'.
    destruct (decide (opid' = opid)) as [->|].
    + case_decide; rewrite ?lookup_alter_eq, lookup_insert_eq; simpl; by intros [= <-].
    + case_decide; rewrite ?lookup_alter_ne, lookup_insert_ne by done; done.
  - unfold HandleUnlogged in Hh. apply bind_Ret_inv in Hh as ([x s'] & _ & [= <- <-]).
    apply votes_keep; [done..|simpl; set_solver].
Qed.

Lemma run_votes cfg idx x0 ms rs r g :
  loaded x0 → tapir_run cfg idx x0 ms rs r g → votes_ok ms rs r g.
Proof.
  intros Hx0. induction 1 as [|ms rs r g m acts r' Hrun IH Hs Hh].
  { split; [|intros ? ? ? ? []%elem_of_nil]. intros opid e He. simpl in He. by rewrite lookup_empty in He. }
  destruct (run_history _ _ _ _ _ _ _ Hrun) as [Hg Hst].
  eapply votes_step; [by apply reachable_inv|done..].
Qed.

(** ** Prepared transactions *)

(** The client [id] is called back for its prepare [j], of request [op], with an
    OK; it received [recv'], of which no reply to [j] is of a finalized result. *)
Definition told_prepared (cfg : Configuration) (id j : Z) (op : string) (recv' : list ir_reply) : Prop :=
  ∃ sent recv (c : IRClient callback) up ev acts c' p x k res,
    client_run (λ _, True) cfg id sent recv c ∧ possible id sent c ev ∧ client_step up c ev = Ret (acts, c') ∧
    Continue j k op res ∈ acts ∧ pendingReqs c !! j = Some p ∧ kind p = PendingConsensus x ∧
    app_decide x = TapirDecide cfg ∧ vote_of res = REPLY_OK ∧ recv' = recv ++ received ev ∧
    ∀ v i res', ReplyConsensus v i (id, j) res' true ∉ recv'.

(** Then a quorum voted OK. *)
Lemma prepared_quorum cfg id j op recv :
  config_ok cfg → told_prepared cfg id j op recv →
  ∃ X : gset Z, QuorumSize cfg ≤ Z.of_nat (size X) ∧
    ∀ i, i ∈ X → ∃ v res, ReplyConsensus v i (id, j) res false ∈ recv ∧ vote_of res = REPLY_OK.
Proof.
  intros Hcfg (sent & recv0 & c & up & ev & acts & c' & p & x & k & res & Hrun & Hpos & Hstep & Hin & Hp & Hk &
    Hdec & Hv & -> & Hfin).
  apply (run_ok _ _ Hcfg) in Hrun.
  destruct (run_results _ _ _ _ _ _ _ _ _ _ _ _ _ _ Hrun Hpos Hstep Hin) as (p' & Hp' & _ & _ & _ & Hj).
  simplify_eq. unfold justified in Hj. rewrite Hk in Hj.
  destruct Hj as [(v & X & Hsz & HX)|(v & X & Hsz & _ & [[i Hi]|(msgs & _ & -> & Hm)])].
  - exists X. split.
    + destruct Hcfg. unfold QuorumSize, FastQuorumSize in *.
      rewrite fast_quorum_half in Hsz by lia. pose proof (Z.div_pos (f cfg + 1) 2). lia.
    + intros i Hi. destruct (HX i Hi) as ([|] & Hr); [by apply Hfin in Hr|eauto].
  - by apply Hfin in Hi.
  - rewrite Hdec in Hv. destruct (TapirDecide_cases cfg (count_results msgs)) as [[Hf _]|[_ Heq]].
    { by rewrite Hf in Hv. }
    rewrite Heq in Hv. unfold vote_of in Hv. rewrite parse_ser in Hv. rewrite ok_total_count in Hv.
    destruct (decide _) as [Hq|]; [|done].
    exists (dom (filter (λ q : Z * ReplyConsensusMessage, vote_of (rc_result q.2) = REPLY_OK) msgs)).
    split; [by rewrite size_dom|]. intros i [m [Hmi Hvm]%map_lookup_filter_Some]%elem_of_dom.
    destruct (Hm i m Hmi) as (<- & <- & Ho & Hr). unfold reply_of in Hr. rewrite Ho in Hr.
    destruct (rc_finalized m); [by apply Hfin in Hr|eauto].
Qed.

(** [e2] was accepted after [e1] was, and checked against it: it does not write
    below the version of [e1], nor did it read a version below it. *)
Definition checked_after (e1 e2 : entry) : Prop :=
  e_status e1 ≠ Aborted → ∀ k, writes e1 k →
    (e_status e2 ≠ Aborted → writes e2 k → ts_lt (e_ts e1) (e_ts e2) = true) ∧
    (∀ w, e_held e2 !! k = Some w → w = e_ts e1 ∨ ts_lt (e_ts e1) w = true).

Lemma log_checked x0 g n1 n2 e1 e2 :
  tinv x0 g → log g !! n1 = Some e1 → log g !! n2 = Some e2 → (n1 < n2)%nat → checked_after e1 e2.
Proof.
  intros Hinv L1 L2 Hlt Hl1 k Hw1. split.
  - intros Hl2 Hw2. by apply (i_ww _ _ Hinv n1 n2 e1 e2 k).
  - intros w Hw. destruct (i_rd _ _ Hinv _ _ _ _ L2 Hw) as [[_ Hno]|(i & a & Hi & Ha & Hc & <- & Hwa & Hno)].
    + by destruct (Hno n1 e1 Hlt L1 Hl1).
    + destruct (lt_eq_lt_dec n1 i) as [[Hlt'| ->]|Hgt].
      * right. apply (i_ww _ _ Hinv n1 i e1 a k); try done. congruence.
      * left. congruence.
      * by destruct (Hno n1 e1 ltac:(lia) L1 Hl1).
Qed.

(** A group: what each replica received and replied, and its history. *)
Record member := mkMember {
  mb_received : list ir_request; mb_replied : list ir_reply; mb_replica : IRReplica Store; mb_history : history
}.

Definition group_run (cfg : Configuration) (x0 : VersionedKVStore) (G : Z → member) : Prop :=
  ∀ i, i ∈ all_replicas cfg →
    tapir_run cfg i x0 (mb_received (G i)) (mb_replied (G i)) (mb_replica (G i)) (mb_history (G i)).

(** The network between the group and the client's request [(id, j)] for [op]:
    replies come from the replicas, and what they get as [(id, j)] is [op]. *)
Definition connected (cfg : Configuration) (G : Z → member) (id j : Z) (op : string) (recv : list ir_reply) : Prop :=
  (∀ v i res b, ReplyConsensus v i (id, j) res b ∈ recv →
     i ∈ all_replicas cfg ∧ ReplyConsensus v i (id, j) res b ∈ mb_replied (G i)) ∧
  (∀ i req, i ∈ all_replicas cfg → ProposeConsensus req ∈ mb_received (G i) → opid_of req = (id, j) → req_op req = op).

Lemma prepared_at_quorum cfg x0 G id j op recv :
  config_ok cfg → loaded x0 → group_run cfg x0 G → connected cfg G id j op recv → told_prepared cfg id j op recv →
  ∃ X : gset Z, X ⊆ all_replicas cfg ∧ QuorumSize cfg ≤ Z.of_nat (size X) ∧
    ∀ i, i ∈ X → accepted (mb_history (G i)) (parse op).
Proof.
  intros Hcfg Hx0 HG [Hrep Hreq] Ht. destruct (prepared_quorum _ _ _ _ _ Hcfg Ht) as (X & Hsz & HX).
  exists X. split_and!; [|done|].
  - intros i Hi. destruct (HX i Hi) as (v & res & [Hi' _]%Hrep & _). done.
  - intros i Hi. destruct (HX i Hi) as (v & res & [Hi' Hin]%Hrep & Hv).
    destruct (vo_replies _ _ _ _ (run_votes _ _ _ _ _ _ _ Hx0 (HG i Hi')) _ _ _ _ Hin Hv) as (req & Hm & Ho & Ha).
    by rewrite <-(Hreq i req Hi' Hm Ho).
Qed.

End group.


(** ** Example: one replica, two clients *)

#[local] Instance demo_order : IterOrder := canonical_order.
#[local] Instance demo_requests : Codec TapirRequest := bits_codec TapirRequest.
#[local] Instance demo_replies : Codec TapirReply := bits_codec TapirReply.
#[local] Instance demo_views : Codec PersistedViewInfo := bits_codec PersistedViewInfo.

Definition one_replica : Configuration := mkConfig 1 0 [mkAddr "a" "1"] None.

(** Client [id] prepares a write of ["x"] at time [t]. *)
Definition demo_prepare (id t : Z) : Request :=
  mkReq (ser (mkTReq PREPARE (10 + id) None
    (Some (mkPrepare (txn_serialize (mkTxn ∅ {["x" := "v"]})) (Some (ts_serialize (mkTS t id))))) None None)) id 1.

Definition handle (r : IRReplica Store) (m : ir_request) : list action * IRReplica Store :=
  match HandleMessage r m with Ret x => x | Panic => ([], r) end.

Definition demo_r0 : IRReplica Store := (new_replica one_replica 0 (mkStore true demo_x0 ∅) None).2.
Definition demo_m1 : ir_request := ProposeConsensus (demo_prepare 1 5).
Definition demo_m2 : ir_request := ProposeConsensus (demo_prepare 2 6).
Definition demo_r1 : IRReplica Store := (handle demo_r0 demo_m1).2.
Definition demo_r2 : IRReplica Store := (handle demo_r1 demo_m2).2.
Definition demo_h1 : history := observe demo_r0 (start demo_x0) demo_m1 demo_r1.

Definition demo_group (i : Z) : member :=
  mkMember ([] ++ [demo_m1] ++ [demo_m2])
    ([] ++ replies (handle demo_r0 demo_m1).1 ++ replies (handle demo_r1 demo_m2).1)
    demo_r2 (observe demo_r1 demo_h1 demo_m2 demo_r2).

Lemma demo_group_run : group_run one_replica demo_x0 demo_group.
Proof.
  intros i Hi. apply elem_of_list_to_set, elem_of_seqZ in Hi. assert (i = 0) as -> by (simpl in Hi; lia).
  clear Hi. unfold demo_group. cbn [mb_received mb_replied mb_replica mb_history].
  rewrite !(assoc_L (++)). eapply (tr_step _ _ _ _ _ demo_r1 demo_h1); [eapply (tr_step _ _ _ _ _ demo_r0 (start demo_x0))|..].
  - apply tr_new.
  - unfold demo_m1, sound. assert (record demo_r0 !! opid_of (demo_prepare 1 5) = None) as -> by (by vm_compute).
    split_and!; [by vm_compute|by intros|]. intros _ e He. by apply elem_of_nil in He.
  - by vm_compute.
  - unfold demo_m2, sound. assert (record demo_r1 !! opid_of (demo_prepare 2 6) = None) as -> by (by vm_compute).
    split_and!; [by vm_compute|by vm_compute|]. intros _ e He.
    assert (log demo_h1 = [mkEntry 11 (mkTS 5 1) (mkTxn ∅ {["x" := "v"]}) ∅ Prepared]) as Hl by (by vm_compute).
    rewrite Hl in He. apply list_elem_of_singleton in He as ->. by vm_compute.
  - by vm_compute.
Qed.

(** What client [id] receives for its prepare at time [t] from [r]. *)
Definition demo_recv (id t : Z) (r : IRReplica Store) : list ir_reply :=
  replies (handle r (ProposeConsensus (demo_prepare id t))).1.

Definition demo_ok : string := ser (mkTReply REPLY_OK None None).
Definition demo_reply (id : Z) : ir_reply := ReplyConsensus 0 0 (id, 1) demo_ok false.

(** The client of [id] when it has sent its prepare, and when it got the reply. *)
Definition demo_asked (id t : Z) : list (client_action callback) * IRClient callback :=
  InvokeConsensus true (new_client one_replica id) (req_op (demo_prepare id t)) (TapirDecide one_replica) CbPrepare None.
Definition demo_answered (id t : Z) : list (client_action callback) * IRClient callback :=
  match client_step true (demo_asked id t).2 (EvReceive (demo_reply id)) with
  | Ret x => x
  | Panic => ([], (demo_asked id t).2)
  end.

Lemma demo_told id t r :
  demo_recv id t r = [demo_reply id] →
  client_step true (demo_asked id t).2 (EvReceive (demo_reply id)) = Ret (demo_answered id t) →
  (demo_answered id t).1 !! 1%nat = Some (Continue 1 CbPrepare (req_op (demo_prepare id t)) demo_ok) →
  told_prepared one_replica id 1 (req_op (demo_prepare id t)) (demo_recv id t r).
Proof.
  intros -> Hstep Hc. destruct (demo_answered id t) as [acts c'].
  exists ([] ++ (demo_asked id t).1), ([] ++ []), (demo_asked id t).2, true, (EvReceive (demo_reply id)), acts, c'.
  do 2 eexists. exists CbPrepare, demo_ok.
  split; [eapply (run_step _ _ _ _ _ _ true (EvConsensus _ _ _ _)); [constructor|done|simpl; lia|reflexivity]|].
  split; [split; [done|]; exists (req_op (demo_prepare id t)); apply list_elem_of_here|].
  split; [exact Hstep|].
  split; [by eapply list_elem_of_lookup_2|].
  split; [apply lookup_insert_eq|]. split; [reflexivity|]. split; [reflexivity|].
  split; [unfold vote_of, demo_ok; by rewrite parse_ser|].
  split; [reflexivity|]. intros v i r' Hin. apply list_elem_of_singleton in Hin. discriminate.
Qed.

Lemma demo_connected id t r :
  demo_recv id t r = [demo_reply id] → demo_reply id ∈ mb_replied (demo_group 0) →
  (id, t) = (1, 5) ∨ (id, t) = (2, 6) →
  connected one_replica demo_group id 1 (req_op (demo_prepare id t)) (demo_recv id t r).
Proof.
  intros -> Hin Hid. split.
  - intros v i res b Heq%list_elem_of_singleton. injection Heq as -> -> -> ->. split; [|exact Hin].
    apply elem_of_list_to_set, elem_of_seqZ. simpl. lia.
  - intros i req _ Hreq Ho. change (mb_received (demo_group i)) with [demo_m1; demo_m2] in Hreq.
    apply elem_of_cons in Hreq as [Hreq|Hreq%list_elem_of_singleton]; injection Hreq as ->;
      injection Ho as <-; destruct Hid as [[= ->]|[= ->]]; reflexivity.
Qed.

Lemma demo_replied : mb_replied (demo_group 0) = [demo_reply 1; demo_reply 2].
Proof. vm_compute; reflexivity. Qed.

Lemma demo_told1 : told_prepared one_replica 1 1 (req_op (demo_prepare 1 5)) (demo_recv 1 5 demo_r0).
Proof. apply demo_told; vm_compute; reflexivity. Qed.
Lemma demo_told2 : told_prepared one_replica 2 1 (req_op (demo_prepare 2 6)) (demo_recv 2 6 demo_r1).
Proof. apply demo_told; vm_compute; reflexivity. Qed.

