(* ===== verification/TapirClient.v ===== *)
(** * The TAPIR client library (store/tapirstore/client.{h,cc})

    [Commit] runs two-phase commit over the shards the transaction touched. *)

From S2P Require Import Prelude Timestamp Transaction TrueTime Promise Frontend.

Section client.
Context {C : Type} `{TxnClient C}.

(** ** [Client] *)

Record Client := mkClient {
  client_id : Z;
  t_id : Z;
  nshards : Z;
  participants : gset Z;
  bclient : gmap Z (BufferClient C);
  timeServer : TrueTime
}.

Definition set_bclient (c : Client) (i : Z) (b : BufferClient C) : Client :=
  mkClient (client_id c) (t_id c) (nshards c) (participants c) (<[i := b]> (bclient c)) (timeServer c).

(** The constructor, given the random client id and the clients of the shards. *)
Definition new_tapir_client (id : Z) (shards : list C) (ts : TrueTime) : Client :=
  mkClient id (id / 10000 * 10000) (Z.of_nat (length shards)) ∅
    (list_to_map (imap (λ i s, (Z.of_nat i, mkBC s empty_txn 0)) shards)) ts.

Definition cl_Begin (c : Client) : Client :=
  mkClient (client_id c) (u64 (t_id c + 1)) (nshards c) ∅ (bclient c) (timeServer c).

(** Adds shard [i] to the participants, with a BEGIN, unless it is one. *)
Definition join (c : Client) (i : Z) : blocking Client :=
  if bool_decide (i ∈ participants c) then Done c
  else
    b ← shard_client (bclient c) i;
    b ← bc_Begin b (t_id c);
    Done (set_bclient (mkClient (client_id c) (t_id c) (nshards c) ({[i]} ∪ participants c) (bclient c)
                         (timeServer c)) i b).

(** Returns the status and the value. *)
Definition cl_Get (c : Client) (key : string) : blocking ((Z * string) * Client) :=
  let i := key_to_shard key (nshards c) in
  c ← join c i;
  b ← shard_client (bclient c) i;
  r ← bc_Get b key (promise_with GET_TIMEOUT);
  match r.1 ≫= GetValue, r.1 ≫= GetReply with
  | Some v, Some s => Done ((s, v), set_bclient c i r.2)
  | _, _ => Blocks
  end.

Definition cl_Put (c : Client) (key value : string) : blocking (Z * Client) :=
  let i := key_to_shard key (nshards c) in
  c ← join c i;
  b ← shard_client (bclient c) i;
  let '(p, b) := bc_Put b key value (promise_with PUT_TIMEOUT) in
  match GetReply p with Some s => Done (s, set_bclient c i b) | None => Blocks end.

Definition set_bclients (c : Client) (m : gmap Z (BufferClient C)) : Client :=
  mkClient (client_id c) (t_id c) (nshards c) (participants c) m (timeServer c).

(** The second loop; a failure returns at once. *)
Fixpoint collect_votes (status : Z) (promises : list (option Promise)) : blocking Z :=
  match promises with
  | [] => Done status
  | pr :: promises =>
      match pr ≫= GetReply with
      | None => Blocks
      | Some r =>
          if (r =? REPLY_OK)%Z then collect_votes status promises
          else if (r =? REPLY_FAIL)%Z then Done REPLY_FAIL
          else if (r =? REPLY_RETRY)%Z then collect_votes REPLY_RETRY promises
          else if (r =? REPLY_TIMEOUT)%Z then collect_votes REPLY_RETRY promises
          else collect_votes status promises
      end
  end.

(** The variable [proposed] of the function stays 0: the loop assigns one of its
    own.  [now] is the clock when the votes are in. *)
Definition cl_Prepare (c : Client) (timestamp : Timestamp) (now : timeval) :
    blocking (Z * Timestamp * Client) :=
  if (size (participants c) =? 0)%nat then Crash
  else
    r ← send_prepares (bclient c) timestamp (oset_iter (participants c));
    status ← collect_votes REPLY_OK r.1;
    let timestamp :=
      if (status =? REPLY_RETRY)%Z then
        let now := GetTime (timeServer c) now in
        let proposed := 0 in
        setTimestamp (if (proposed <? now)%Z then now else proposed) timestamp
      else timestamp in
    Done (status, timestamp, set_bclients c r.2).

(** The loop of [Commit], with [n] attempts left; [clock] is the time of each
    reading of the clock from now on. *)
Fixpoint prepare_loop (n : nat) (clock : nat → timeval) (status : Z) (c : Client) (timestamp : Timestamp) :
    blocking (Z * Client) :=
  match n with
  | O => Done (status, c)
  | S n =>
      r ← cl_Prepare c timestamp (clock 0%nat);
      let '(status, timestamp, c) := r in
      if (status =? REPLY_RETRY)%Z then prepare_loop n (λ i, clock (S i)) status c timestamp
      else Done (status, c)
  end.

Definition cl_Abort (c : Client) : blocking Client :=
  m ← at_participants bc_Abort (bclient c) (oset_iter (participants c)); Done (set_bclients c m).

Definition cl_Commit (c : Client) (clock : nat → timeval) : blocking (bool * Client) :=
  let timestamp := mkTS (GetTime (timeServer c) (clock 0%nat)) (client_id c) in
  r ← prepare_loop COMMIT_RETRIES (λ i, clock (S i)) REPLY_OK c timestamp;
  let '(status, c) := r in
  if (status =? REPLY_OK)%Z then
    m ← at_participants (λ b, bc_Commit b 0) (bclient c) (oset_iter (participants c));
    Done (true, set_bclients c m)
  else
    c ← cl_Abort c;
    Done (false, c).

End client.
Arguments Client C : clear implicits.
