(* ===== verification/TapirClientProps.v ===== *)
(** * Properties of the TAPIR client library

    The theorems say which calls a transaction makes to the clients of the
    shards, for every implementation of the interface [TxnClient]. *)

From S2P Require Import Prelude Timestamp Transaction TrueTime Promise Frontend FrontendProps TapirClient.

(** ** Votes *)

(** The votes of a round of prepares with which the transaction commits. *)
Definition accepts (vote : option Promise) : Prop :=
  ∃ r, vote ≫= GetReply = Some r ∧ r ≠ REPLY_FAIL ∧ r ≠ REPLY_RETRY ∧ r ≠ REPLY_TIMEOUT.
Definition refuses (vote : option Promise) : Prop := vote ≫= GetReply = Some REPLY_FAIL.
Definition postpones (vote : option Promise) : Prop :=
  vote ≫= GetReply = Some REPLY_RETRY ∨ vote ≫= GetReply = Some REPLY_TIMEOUT.

Lemma accepts_exclusive v : accepts v → ¬ refuses v ∧ ¬ postpones v.
Proof. unfold accepts, refuses, postpones. intros (r & -> & ? & ? & ?). naive_solver. Qed.

Lemma vote_cases v r : v ≫= GetReply = Some r → accepts v ∨ refuses v ∨ postpones v.
Proof.
  intros Hv. unfold accepts, refuses, postpones. rewrite Hv.
  destruct (decide (r = REPLY_FAIL)) as [->|]; [naive_solver|].
  destruct (decide (r = REPLY_RETRY)) as [->|]; [naive_solver|].
  destruct (decide (r = REPLY_TIMEOUT)) as [->|]; naive_solver.
Qed.

(** What [collect_votes] returns. *)
Lemma collect_votes_cons st v l :
  collect_votes st (v :: l) =
  match v ≫= GetReply with
  | None => Blocks
  | Some r =>
      if decide (r = REPLY_FAIL) then Done REPLY_FAIL
      else collect_votes (if decide (r = REPLY_RETRY ∨ r = REPLY_TIMEOUT) then REPLY_RETRY else st) l
  end.
Proof.
  simpl. destruct (v ≫= GetReply) as [r|]; [|done].
  destruct (Z.eqb_spec r REPLY_OK) as [->|]; [done|].
  destruct (Z.eqb_spec r REPLY_FAIL) as [->|]; [done|]. rewrite decide_False by done.
  destruct (Z.eqb_spec r REPLY_RETRY) as [->|]; [done|].
  destruct (Z.eqb_spec r REPLY_TIMEOUT) as [->|]; [done|]. rewrite decide_False; [done|tauto].
Qed.

Lemma collect_votes_spec st l r :
  st = REPLY_OK ∨ st = REPLY_RETRY → collect_votes st l = Done r →
  (r = REPLY_OK ∧ st = REPLY_OK ∧ Forall accepts l) ∨
  (r = REPLY_RETRY ∧ (st = REPLY_RETRY ∨ Exists postpones l) ∧ Forall (λ v, ¬ refuses v) l) ∨
  (r = REPLY_FAIL ∧ Exists refuses l).
Proof.
  revert st. induction l as [|v l IH]; intros st Hst.
  { intros [= <-]. destruct Hst as [->| ->]; [left|right; left]; auto using Forall_nil_2. }
  rewrite collect_votes_cons. destruct (v ≫= GetReply) as [s|] eqn:Hv; [|done].
  destruct (decide (s = REPLY_FAIL)) as [->|Hf].
  { intros [= <-]. right; right. split; [done|]. by left. }
  assert (¬ refuses v) as Hr by (unfold refuses; rewrite Hv; congruence).
  destruct (decide (s = REPLY_RETRY ∨ s = REPLY_TIMEOUT)) as [Hp|Hp]; intros H.
  - assert (postpones v) by (unfold postpones; rewrite Hv; naive_solver).
    destruct (IH _ (or_intror eq_refl) H) as [(_ & [=] & _)|[(-> & _ & ?)|(-> & ?)]].
    + right; left. split_and!; [done|right; by left|by constructor].
    + right; right. split; [done|by right].
  - assert (accepts v) by (exists s; naive_solver).
    destruct (IH _ Hst H) as [(-> & ? & ?)|[(-> & [?|?] & ?)|(-> & ?)]].
    + left. split_and!; [done..|by constructor].
    + right; left. split_and!; [done|by left|by constructor].
    + right; left. split_and!; [done|right; by right|by constructor].
    + right; right. split; [done|by right].
Qed.

Lemma collect_votes_OK l r :
  collect_votes REPLY_OK l = Done r →
  (r = REPLY_OK ∧ Forall accepts l) ∨
  (r = REPLY_RETRY ∧ Exists postpones l ∧ Forall (λ v, ¬ refuses v) l) ∨
  (r = REPLY_FAIL ∧ Exists refuses l).
Proof.
  intros Hl. destruct (collect_votes_spec REPLY_OK l r (or_introl eq_refl) Hl)
    as [(? & _ & ?)|[(? & [[=]|?] & ?)|(? & ?)]]; auto.
Qed.

Lemma collect_votes_total st l :
  Forall (λ v, is_Some (v ≫= GetReply)) l → ∃ r, collect_votes st l = Done r.
Proof.
  revert st. induction l as [|v l IH]; intros st Hl; [by eexists|].
  apply Forall_cons in Hl as [[s Hs] Hl]. rewrite collect_votes_cons, Hs.
  case_decide; [by eexists|by apply IH].
Qed.

(** ** Two-phase commit *)

Section commit.
Context {C : Type} `{TxnClient C}.
Implicit Types c : Client (Traced C).

(** [c'] is [c] after the calls [f] to the shard clients. *)
Record client_called (f : Z → Z → Transaction → list call) c c' : Prop := {
  cd_id : client_id c' = client_id c;
  cd_participants : participants c' = participants c;
  cd_time : timeServer c' = timeServer c;
  cd_calls : called f (bclient c) (bclient c')
}.

Lemma client_called_trans f g c1 c2 c3 :
  client_called f c1 c2 → client_called g c2 c3 → client_called (λ p id t, f p id t ++ g p id t) c1 c3.
Proof. intros [] []. split; [congruence..|]. by eapply called_trans. Qed.

Lemma client_called_ext f g c c' :
  (∀ p id t, f p id t = g p id t) → client_called f c c' → client_called g c c'.
Proof. intros Hfg []. split; [done..|]. by eapply called_ext. Qed.

(** A round: the timestamp proposed and the answers of the shards. *)
Definition round : Type := Timestamp * (Z → option Promise).

(** The calls the participants [X] get in the rounds [rs]. *)
Definition round_calls (X : gset Z) (rs : list round) (p id : Z) (t : Transaction) : list call :=
  if decide (p ∈ X) then (λ r : round, CallPrepare id t r.1 (r.2 p)) <$> rs else [].

Lemma cl_Prepare_called c ts now st ts' c' :
  cl_Prepare c ts now = Done (st, ts', c') →
  ∃ votes, client_called (round_calls (participants c) [(ts, votes)]) c c' ∧
    ts' = (if decide (st = REPLY_RETRY) then mkTS (GetTime (timeServer c) now) (tid ts) else ts) ∧
    collect_votes REPLY_OK (votes <$> oset_iter (participants c)) = Done st.
Proof.
  unfold cl_Prepare. destruct (Nat.eqb_spec (size (participants c)) 0) as [|Hn]; [done|]. intros Hc.
  apply bind_Done in Hc as ([l c2] & Hs & Hc). apply bind_Done in Hc as (st2 & Hv & [= <- <- <-]).
  apply send_prepares_called in Hs as (votes & -> & Hcd); [|apply oset_iter_NoDup].
  exists votes. split_and!; [| |done].
  - split; [done..|]; simpl; eapply called_ext; [|exact Hcd]. intros p id t. unfold each, round_calls.
    destruct (decide (p ∈ participants c)); [rewrite decide_True|rewrite decide_False];
      by rewrite ?oset_iter_elem.
  - destruct (Z.eqb_spec st2 REPLY_RETRY) as [->|]; [|by rewrite decide_False].
    rewrite decide_True by done. f_equal.
    destruct (Z.ltb_spec 0 (GetTime (timeServer c) now)) as [|Hle]; [done|].
    pose proof (GetTime_nonneg (timeServer c) now). lia.
Qed.

(** What the rounds of a commit look like: every round but the last ends with a
    request to retry, and the next one proposes the time of the clock. *)
Record rounds_ok (X : gset Z) (ts : Timestamp) (now : nat → Z) (rs : list round) (st : Z) : Prop := {
  ro_first : fst <$> head rs = Some ts;
  ro_next i r : rs !! S i = Some r → r.1 = mkTS (now i) (tid ts);
  ro_retry i r : rs !! i = Some r → (S i < length rs)%nat →
    (∃ p, p ∈ X ∧ postpones (r.2 p)) ∧ ∀ p, p ∈ X → ¬ refuses (r.2 p);
  ro_last r : last rs = Some r →
    (st = REPLY_OK ∧ ∀ p, p ∈ X → accepts (r.2 p)) ∨
    (st ≠ REPLY_OK ∧ ∃ p, p ∈ X ∧ (refuses (r.2 p) ∨ postpones (r.2 p)))
}.

Lemma votes_Forall (P : option Promise → Prop) (votes : Z → option Promise) X :
  Forall P (votes <$> oset_iter X) → ∀ p, p ∈ X → P (votes p).
Proof.
  rewrite Forall_fmap, Forall_forall. intros Hv p Hp. by apply Hv, oset_iter_elem.
Qed.
Lemma votes_Exists (P : option Promise → Prop) (votes : Z → option Promise) X :
  Exists P (votes <$> oset_iter X) → ∃ p, p ∈ X ∧ P (votes p).
Proof.
  rewrite Exists_fmap, Exists_exists. intros (p & Hp & Hv). exists p. by rewrite <-oset_iter_elem.
Qed.

Lemma round_last votes X st :
  collect_votes REPLY_OK (votes <$> oset_iter X) = Done st →
  (st = REPLY_OK ∧ ∀ p, p ∈ X → accepts (votes p)) ∨
  (st ≠ REPLY_OK ∧ ∃ p, p ∈ X ∧ (refuses (votes p) ∨ postpones (votes p))).
Proof.
  intros [(-> & Hv)|[(-> & Hv & _)|(-> & Hv)]]%collect_votes_OK.
  - left. split; [done|]. by apply votes_Forall.
  - right. split; [done|]. apply votes_Exists in Hv as (p & ? & ?). eauto.
  - right. split; [done|]. apply votes_Exists in Hv as (p & ? & ?). eauto.
Qed.

Lemma rounds_single X ts now votes st :
  collect_votes REPLY_OK (votes <$> oset_iter X) = Done st → rounds_ok X ts now [(ts, votes)] st.
Proof.
  intros Hv. split; [done|by intros|simpl; lia|]. intros r [= <-]. by apply round_last.
Qed.

Lemma rounds_cons X ts now votes rs st :
  collect_votes REPLY_OK (votes <$> oset_iter X) = Done REPLY_RETRY →
  rounds_ok X (mkTS (now 0%nat) (tid ts)) (λ i, now (S i)) rs st →
  rounds_ok X ts now ((ts, votes) :: rs) st.
Proof.
  intros Hv [Hf Hn Hr Hl]. split; [done| | |].
  - intros [|i] r Hi; [|by apply Hn]. destruct rs as [|r0 rs]; [done|]. injection Hi as ->. by injection Hf.
  - intros [|i] r Hi Hlen; [|apply (Hr i); [done|simpl in Hlen; lia]]. injection Hi as <-.
    apply collect_votes_OK in Hv as [([=] & _)|[(_ & He & Ha)|([=] & _)]].
    split; [by apply votes_Exists|exact (votes_Forall _ _ _ Ha)].
  - destruct rs as [|r0 rs]; [done|]. intros r Hr'. by apply Hl.
Qed.

Lemma prepare_loop_S n clock st0 c ts :
  prepare_loop (S n) clock st0 c ts =
  r ← cl_Prepare c ts (clock 0%nat);
  let '(st, ts, c) := r in
  if (st =? REPLY_RETRY)%Z then prepare_loop n (λ i, clock (S i)) st c ts else Done (st, c).
Proof. done. Qed.

Lemma prepare_loop_called n clock st0 c ts st c' :
  prepare_loop (S n) clock st0 c ts = Done (st, c') →
  ∃ rs, (1 ≤ length rs ≤ S n)%nat ∧ client_called (round_calls (participants c) rs) c c' ∧
    rounds_ok (participants c) ts (λ i, GetTime (timeServer c) (clock i)) rs st.
Proof.
  revert clock st0 c ts. induction n as [|n IH]; intros clock st0 c ts Hc;
    rewrite prepare_loop_S in Hc; apply bind_Done in Hc as ([[st1 ts1] c1] & Hp & Hc);
    apply cl_Prepare_called in Hp as (votes & Hcd & -> & Hv).
  - assert (st1 = st ∧ c1 = c') as [-> ->] by (by destruct (st1 =? REPLY_RETRY)%Z; injection Hc).
    exists [(ts, votes)]. split_and!; [simpl; lia..|done|by apply rounds_single].
  - destruct (Z.eqb_spec st1 REPLY_RETRY) as [->|].
    + rewrite decide_True in Hc by done. apply IH in Hc as (rs & Hlen & Hcd' & Hrs).
      rewrite (cd_participants _ _ _ Hcd), (cd_time _ _ _ Hcd) in *.
      exists ((ts, votes) :: rs). split_and!; [simpl; lia..| |by apply rounds_cons].
      eapply client_called_ext, client_called_trans; [|exact Hcd|exact Hcd'].
      intros p id t. unfold round_calls. by case_decide.
    + injection Hc as -> ->. exists [(ts, votes)].
      split_and!; [simpl; lia..|done|by apply rounds_single].
Qed.

End commit.

(** C13. Two-phase commit.  When [Commit] returns, the participants, and no other
    shard, were called for one to five rounds of prepares of the transaction they
    buffer and then all for the same end of it: a commit if [Commit] returned
    true, an abort if it returned false.  Every round but the last had a shard
    that asked to retry and none that refused; it returned true exactly if no
    shard refused or postponed in the last round.  The timestamps are the clock's
    readings with the client's id. *)
Theorem two_phase_commit {C} `{TxnClient C} (c : Client (Traced C)) clock b c' :
  cl_Commit c clock = Done (b, c') →
  ∃ rs : list round, (1 ≤ length rs ≤ COMMIT_RETRIES)%nat ∧
    client_called (λ p id t, round_calls (participants c) rs p id t ++
              if decide (p ∈ participants c) then [if b then CallCommit id t 0 else CallAbort id empty_txn] else [])
      c c' ∧
    (∀ i r, rs !! i = Some r → r.1 = mkTS (GetTime (timeServer c) (clock i)) (client_id c)) ∧
    (∀ i r, rs !! i = Some r → (S i < length rs)%nat →
       (∃ p, p ∈ participants c ∧ postpones (r.2 p)) ∧ ∀ p, p ∈ participants c → ¬ refuses (r.2 p)) ∧
    (∀ r, last rs = Some r → b = true ↔ ∀ p, p ∈ participants c → accepts (r.2 p)).
Proof.
  unfold cl_Commit. intros Hc. apply bind_Done in Hc as ([st c1] & Hl & Hc).
  apply prepare_loop_called in Hl as (rs & Hlen & Hcd & [Hf Hn Hr Hlast]).
  exists rs. split; [done|].
  assert (∀ i r, rs !! i = Some r → r.1 = mkTS (GetTime (timeServer c) (clock i)) (client_id c)) as Hts.
  { intros [|i] r Hi; [|by apply Hn in Hi]. destruct rs as [|r0 rs]; [done|].
    injection Hi as ->. by injection Hf. }
  assert (client_called (each (oset_iter (participants c1))
            (λ _ id t, if b then CallCommit id t 0 else CallAbort id empty_txn)) c1 c' ∧
          (b = true ↔ st = REPLY_OK)) as [Hend Hb].
  { destruct (Z.eqb_spec st REPLY_OK); [|unfold cl_Abort in Hc; apply bind_Done in Hc as (c2 & Hc & [= <- <-])];
      apply bind_Done in Hc as (m & Hc & [= <-]); subst; (split; [split; [done..|]|done]);
      by eapply (at_participants_called _ (λ id t, _)); [|apply oset_iter_NoDup|exact Hc]. }
  split_and!; [|done..|].
  - eapply client_called_ext, client_called_trans; [|exact Hcd|exact Hend]. intros p id t. f_equal. unfold each.
    rewrite (cd_participants _ _ _ Hcd).
    destruct (decide (p ∈ participants c)); [rewrite decide_True|rewrite decide_False];
      by rewrite ?oset_iter_elem.
  - intros r Hl. rewrite Hb. destruct (Hlast r Hl) as [[-> Ha]|[Hst (p & Hp & Hv)]]; [done|].
    split; [done|]. intros Ha. by destruct (accepts_exclusive _ (Ha p Hp)), Hv.
Qed.

(** ** [Commit] returns *)

Section returns.
Context {C : Type} `{AnswersPrepare C}.
Implicit Types c : Client C.

(** The participants have clients. *)
Definition client_wf c : Prop := covers (bclient c) (participants c).

Lemma cl_Prepare_total c ts now :
  client_wf c → participants c ≠ ∅ →
  ∃ st ts' c', cl_Prepare c ts now = Done (st, ts', c') ∧ client_wf c' ∧ participants c' = participants c.
Proof.
  intros Hc Hne. unfold cl_Prepare.
  destruct (Nat.eqb_spec (size (participants c)) 0) as [Hz|_].
  { by apply size_empty_inv, leibniz_equiv in Hz. }
  destruct (send_prepares_total ts (oset_iter (participants c)) (bclient c) (participants c) Hc)
    as (l & m' & -> & Hwf & Hl).
  { intros q. by rewrite oset_iter_elem. }
  simpl. destruct (collect_votes_total REPLY_OK l Hl) as [st ->]. simpl. by do 3 eexists.
Qed.

Lemma prepare_loop_total n clock st c ts :
  client_wf c → participants c ≠ ∅ →
  ∃ st' c', prepare_loop n clock st c ts = Done (st', c') ∧ client_wf c' ∧ participants c' = participants c.
Proof.
  revert clock st c ts. induction n as [|n IH]; intros clock st c ts Hc Hne; [by exists st, c|].
  simpl. destruct (cl_Prepare_total c ts (clock 0%nat) Hc Hne) as (st1 & ts1 & c1 & -> & Hwf & Hp).
  simpl. destruct (st1 =? REPLY_RETRY)%Z; [|by exists st1, c1].
  destruct (IH (λ i, clock (S i)) st1 c1 ts1) as (st2 & c2 & -> & ? & ?); [done|by rewrite Hp|].
  exists st2, c2. split_and!; [done..|congruence].
Qed.

End returns.

(** [Commit] returns.  If every prepare is answered, by a vote or a timeout, the
    attempt to commit a transaction that touched a shard comes to an end; a
    transaction that touched none fails an assertion. *)
Theorem commit_returns {C} `{AnswersPrepare C} (c : Client C) clock :
  client_wf c →
  (participants c ≠ ∅ → ∃ b c', cl_Commit c clock = Done (b, c')) ∧
  (participants c = ∅ → cl_Commit c clock = Crash).
Proof.
  intros Hc. split; intros Hne; unfold cl_Commit.
  - destruct (prepare_loop_total COMMIT_RETRIES (λ i, clock (S i)) REPLY_OK c
      (mkTS (GetTime (timeServer c) (clock 0%nat)) (client_id c)) Hc Hne) as (st & c1 & -> & Hwf & Hp).
    simpl. destruct (st =? REPLY_OK)%Z.
    + destruct (at_participants_total (λ b, bc_Commit b 0) (oset_iter (participants c1)) _ _ Hwf)
        as (m & -> & _); [intros q; by rewrite oset_iter_elem|]. by do 2 eexists.
    + unfold cl_Abort.
      destruct (at_participants_total bc_Abort (oset_iter (participants c1)) _ _ Hwf) as (m & -> & _);
        [intros q; by rewrite oset_iter_elem|]. by do 2 eexists.
  - simpl. unfold cl_Prepare. by rewrite Hne, size_empty.
Qed.

(** ** The transaction that is sent *)

Inductive app_op := AGet (key : string) | APut (key value : string).

Definition op_key (o : app_op) : string := match o with AGet k => k | APut k _ => k end.

Section app.
Context {C : Type} `{TxnClient C}.

Definition app_step (c : Client C) (o : app_op) : blocking ((Z * string) * Client C) :=
  match o with
  | AGet k => cl_Get c k
  | APut k v => r ← cl_Put c k v; Done ((r.1, v), r.2)
  end.

Fixpoint run_ops (c : Client C) (ops : list app_op) : blocking (list (Z * string) * Client C) :=
  match ops with
  | [] => Done ([], c)
  | o :: ops =>
      r ← app_step c o;
      rs ← run_ops r.2 ops;
      Done (r.1 :: rs.1, rs.2)
  end.

End app.

(** The last value the transaction put at a key. *)
Definition put_of (k : string) (o : option string) (op : app_op) : option string :=
  match op with APut k' v => if decide (k' = k) then Some v else o | AGet _ => o end.
Definition last_put (ops : list app_op) (k : string) : option string := foldl (put_of k) None ops.

(** The versions a sequence of calls read. *)
Definition add_read (m : gmap string Timestamp) (x : call) : gmap string Timestamp :=
  match x with
  | CallGet _ k (Some p) => if (pr_reply p =? REPLY_OK)%Z then <[k := pr_timestamp p]> m else m
  | _ => m
  end.
Definition read_set (tr : list call) : gmap string Timestamp := foldl add_read ∅ tr.

(** A read of the latest version happens only while the key has no version in
    the read set, and a read of a key that has one is at its timestamp. *)
Definition read_ok (id nsh i : Z) (m : gmap string Timestamp) (x : call) : Prop :=
  match x with
  | CallGet id' k _ => id' = id ∧ key_to_shard k nsh = i ∧ m !! k = None
  | CallGetAt id' k t _ => id' = id ∧ key_to_shard k nsh = i ∧ m !! k = Some t
  | _ => False
  end.

Definition reads_ok (id nsh i : Z) (tr : list call) : Prop :=
  ∀ tr1 x tr2, tr = tr1 ++ x :: tr2 → read_ok id nsh i (read_set tr1) x.

(** The answer of a call to read [k]. *)
Definition read_answer (k : string) (x : call) : option (Z * string) :=
  match x with
  | CallGet _ k' (Some p) | CallGetAt _ k' _ (Some p) =>
      if decide (k' = k) then r ← GetReply p; v ← GetValue p; Some (r, v) else None
  | _ => None
  end.

Lemma reads_ok_snoc id nsh i tr x :
  reads_ok id nsh i tr → read_ok id nsh i (read_set tr) x → reads_ok id nsh i (tr ++ [x]).
Proof.
  intros Htr Hx tr1 y tr2 Heq. destruct tr2 as [|z tr2] using rev_ind.
  - apply app_inj_tail in Heq as [-> ->]. done.
  - rewrite app_comm_cons, app_assoc in Heq. apply app_inj_tail in Heq as [-> _].
    by eapply Htr.
Qed.

Lemma last_put_other ops op k : op_key op ≠ k → last_put (ops ++ [op]) k = last_put ops k.
Proof.
  intros Hk. unfold last_put. rewrite foldl_app. destruct op as [|k' v]; [done|].
  simpl in *. by rewrite decide_False.
Qed.
Lemma last_put_get ops k k' : last_put (ops ++ [AGet k']) k = last_put ops k.
Proof. unfold last_put. by rewrite foldl_app. Qed.
Lemma last_put_put ops k v : last_put (ops ++ [APut k v]) k = Some v.
Proof. unfold last_put. rewrite foldl_app. simpl. by rewrite decide_True. Qed.

Section sent.
Context {C : Type} `{TxnClient C} (id nsh : Z).
Implicit Types (b : BufferClient (Traced C)) (c : Client (Traced C)).

(** What shard [i] buffers after [ops], when its trace was [tr0] before. *)
Record shard_ok (i : Z) (ops : list app_op) (tr0 : list call) b : Prop := {
  so_id : bc_tid b = id;
  so_trace : ∃ tr, trace b = tr0 ++ CallBegin id :: tr ∧ reads_ok id nsh i tr ∧
    readSet (bc_txn b) = read_set tr;
  so_writes k : writeSet (bc_txn b) !! k =
    if decide (key_to_shard k nsh = i) then last_put ops k else None
}.

(** The result [r] of [AGet k] after [ops]. *)
Definition get_result (ops : list app_op) (k : string) (r : Z * string) (tr : list call) : Prop :=
  match last_put ops k with
  | Some v => r = (REPLY_OK, v)
  | None => ∃ x, x ∈ tr ∧ read_answer k x = Some r
  end.

Lemma shard_ok_call i ops tr0 b x m w y :
  shard_ok i ops tr0 b → read_ok id nsh i (readSet (bc_txn b)) y →
  m = add_read (readSet (bc_txn b)) y → w = writeSet (bc_txn b) →
  calls x = trace b ++ [y] →
  shard_ok i ops tr0 (mkBC x (mkTxn m w) (bc_tid b)).
Proof.
  intros [Hid (tr & Htr & Hr & Hrs) Hw] Hy -> -> Hx. split; [done| |done].
  exists (tr ++ [y]). unfold trace; simpl. rewrite Hx, Htr, <-app_assoc. split_and!; [done| |].
  - apply reads_ok_snoc; [done|]. by rewrite <-Hrs.
  - rewrite Hrs. unfold read_set. by rewrite foldl_app.
Qed.

Lemma shard_ok_ext i ops ops' tr0 b :
  (∀ k, key_to_shard k nsh = i → last_put ops' k = last_put ops k) →
  shard_ok i ops tr0 b → shard_ok i ops' tr0 b.
Proof.
  intros Hext [? ? Hw]. split; [done..|]. intros k. rewrite Hw. case_decide; [|done].
  symmetry. by apply Hext.
Qed.

Lemma bc_Get_ok i ops tr0 b k pr p b' :
  shard_ok i ops tr0 b → key_to_shard k nsh = i → bc_Get b k pr = Done (p, b') →
  shard_ok i ops tr0 b' ∧ trace b `prefix_of` trace b' ∧
  ∀ s v, p ≫= GetReply = Some s → p ≫= GetValue = Some v → get_result ops k (s, v) (trace b').
Proof.
  intros Hok Hk. unfold bc_Get, get_result.
  rewrite (so_writes _ _ _ _ Hok), decide_True by done.
  destruct (last_put ops k) as [w|] eqn:Hput.
  { intros [= <- <-]. split_and!; [done..|]. intros s v [= <-] [= <-]. done. }
  destruct (readSet (bc_txn b) !! k) as [t|] eqn:Hr.
  - simpl. set (r := tc_Get_at _ _ _ _ _). intros [= <- <-]. split_and!.
    + destruct (bc_txn b) as [rs ws] eqn:Ht. eapply (shard_ok_call _ _ _ _ _ _ _
        (CallGetAt (bc_tid b) k t r.1)); rewrite ?Ht; [done|..|done|done|done].
      split_and!; [apply Hok|done|exact Hr].
    + by apply prefix_app_r.
    + intros s v Hs Hv. exists (CallGetAt (bc_tid b) k t r.1). split; [set_solver|].
      destruct r.1 as [p'|]; [|done]. simpl in *. by rewrite decide_True, Hs, Hv.
  - simpl. set (r := tc_Get _ _ _ _). destruct r.1 as [p'|] eqn:Hp; [|done]. simpl.
    destruct (GetReply p') as [s0|] eqn:Hs0; [|done].
    destruct (GetTimestamp p') as [t0|] eqn:Ht0; [|done].
    assert (s0 = pr_reply p' ∧ t0 = pr_timestamp p') as [-> ->].
    { unfold GetReply, GetTimestamp in *. destruct (pr_done p'); naive_solver. }
    intros [= <- <-]. split_and!.
    + destruct (bc_txn b) as [rs ws] eqn:Ht.
      assert ((if (pr_reply p' =? REPLY_OK)%Z then addReadSet k (pr_timestamp p') (mkTxn rs ws) else mkTxn rs ws) =
              mkTxn (add_read rs (CallGet (bc_tid b) k (Some p'))) ws) as -> by (simpl; by case_match).
      eapply (shard_ok_call _ _ _ _ _ _ _ (CallGet (bc_tid b) k (Some p')));
        rewrite ?Ht; [done|..|done|done|by rewrite <-Hp].
      split_and!; [apply Hok|done|exact Hr].
    + by apply prefix_app_r.
    + intros s v Hs Hv. exists (CallGet (bc_tid b) k (Some p')). split.
      { unfold trace; simpl. rewrite <-Hp. set_solver. }
      simpl in *. by rewrite decide_True, Hs, Hv.
Qed.

Definition shard_of (o : app_op) : Z := key_to_shard (op_key o) nsh.

Lemma last_put_None ops k :
  (∀ o, o ∈ ops → op_key o ≠ k) → last_put ops k = None.
Proof.
  induction ops as [|o ops IH] using rev_ind; intros Ho; [done|].
  rewrite last_put_other; [apply IH; intros; apply Ho|apply Ho]; set_solver.
Qed.

(** The client after [ops] with results [rs], begun in [c0]; [P] are its
    participants. *)
Record sent_ok c0 (P : gset Z) (ops : list app_op) (rs : list (Z * string)) c : Prop := {
  sn_id : t_id c = id;
  sn_nsh : nshards c = nsh;
  sn_part : participants c = P;
  sn_cover o : o ∈ ops → shard_of o ∈ P;
  sn_in i : i ∈ P → ∃ b0 b, bclient c0 !! i = Some b0 ∧ bclient c !! i = Some b ∧ shard_ok i ops (trace b0) b;
  sn_out i : i ∉ P → bclient c !! i = bclient c0 !! i;
  sn_len : length rs = length ops;
  sn_results n k r : ops !! n = Some (AGet k) → rs !! n = Some r →
    ∃ b, bclient c !! key_to_shard k nsh = Some b ∧ get_result (take n ops) k r (trace b)
}.

Lemma get_result_prefix ops k r tr tr' :
  tr `prefix_of` tr' → get_result ops k r tr → get_result ops k r tr'.
Proof.
  intros [l ->]. unfold get_result. destruct (last_put ops k); [done|]. set_solver.
Qed.

Lemma join_ok c0 P ops rs c i c' :
  sent_ok c0 P ops rs c → join c i = Done c' →
  sent_ok c0 ({[i]} ∪ P) ops rs c'.
Proof.
  intros Hok. unfold join. rewrite (sn_part _ _ _ _ _ Hok).
  case_bool_decide as Hi.
  { intros [= <-]. by replace ({[i]} ∪ P) with P by set_solver. }
  intros Hj. apply bind_Done in Hj as (b & Hb%shard_client_Done & Hj).
  apply bind_Done in Hj as (b' & Hb' & [= <-]).
  apply bind_Done in Hb' as (x & Hx & [= <-]). apply bind_Done in Hx as (y & Hy & [= <-]).
  pose proof Hb as Hb0. rewrite (sn_out _ _ _ _ _ Hok i Hi) in Hb0.
  destruct Hok as [Hid Hn Hp Hcov Hin Hout Hlen Hres]. split; simpl; [done..| | | |done|].
  - intros o Ho. apply elem_of_union. right. by apply Hcov.
  - intros j Hj. destruct (decide (j = i)) as [->|].
    + exists b. eexists. split_and!; [done|apply lookup_insert_eq|]. split; simpl; [done| |].
      * exists []. rewrite Hid. split_and!; [done| |done]. by intros [|??] ???.
      * intros k. rewrite lookup_empty. case_decide as Hk; [|done]. symmetry. apply last_put_None.
        intros o Ho <-. by apply Hcov in Ho; rewrite <-Hk in Hi.
    + rewrite lookup_insert_ne by done. apply Hin. set_solver.
  - intros j Hj. rewrite lookup_insert_ne by set_solver. apply Hout. set_solver.
  - intros n k r Hk Hr. destruct (Hres n k r Hk Hr) as (b1 & Hb1 & ?). exists b1.
    rewrite lookup_insert_ne; [done|]. intros ->. apply Hi.
    apply (Hcov (AGet k)). by eapply list_elem_of_lookup_2.
Qed.

(** The operation [o] at its shard. *)
Lemma op_ok c0 P ops rs c o b b' r :
  sent_ok c0 P ops rs c → shard_of o ∈ P → bclient c !! shard_of o = Some b →
  trace b `prefix_of` trace b' →
  (∀ tr0, shard_ok (shard_of o) ops tr0 b → shard_ok (shard_of o) (ops ++ [o]) tr0 b') →
  (∀ k, o = AGet k → get_result ops k r (trace b')) →
  sent_ok c0 P (ops ++ [o]) (rs ++ [r]) (set_bclient c (shard_of o) b').
Proof.
  intros [Hid Hn Hp Hcov Hin Hout Hlen Hres] Ho Hb Hpre Hsh Hr. split; simpl; [done..| | | | |].
  - intros o' [?| ->%list_elem_of_singleton]%elem_of_app; [by apply Hcov|done].
  - intros i Hi. destruct (Hin i Hi) as (b0 & b1 & Hb0 & Hb1 & Hok). exists b0.
    destruct (decide (i = shard_of o)) as [->|Hne].
    + simplify_eq. exists b'. rewrite lookup_insert_eq. auto.
    + exists b1. rewrite lookup_insert_ne by done. split_and!; [done..|].
      eapply shard_ok_ext, Hok. intros k Hk. apply last_put_other. by intros <-.
  - intros i Hi. rewrite lookup_insert_ne; [by apply Hout|]. by intros <-.
  - rewrite !length_app. simpl. lia.
  - intros n k r' Hk Hr'. destruct (decide (n < length ops)%nat) as [Hlt|Hge].
    + rewrite lookup_app_l in Hk by lia. rewrite lookup_app_l in Hr' by lia. rewrite take_app_le by lia.
      destruct (Hres n k r' Hk Hr') as (b1 & Hb1 & ?).
      destruct (decide (key_to_shard k nsh = shard_of o)) as [Heq|].
      * rewrite Heq in *. simplify_eq. exists b'. rewrite lookup_insert_eq.
        split; [done|]. by eapply get_result_prefix.
      * exists b1. by rewrite lookup_insert_ne.
    + assert (n = length ops) as ->.
      { apply lookup_lt_Some in Hk. rewrite length_app in Hk. simpl in Hk. lia. }
      rewrite <-Hlen in Hr' at 1. rewrite list_lookup_middle in Hk by done.
      rewrite list_lookup_middle in Hr' by done. simplify_eq.
      exists b'. rewrite lookup_insert_eq, take_app_length. auto.
Qed.

Lemma app_step_ok c0 P ops rs c o r c' :
  sent_ok c0 P ops rs c → app_step c o = Done (r, c') →
  sent_ok c0 ({[shard_of o]} ∪ P) (ops ++ [o]) (rs ++ [r]) c'.
Proof.
  intros Hok. assert (shard_of o ∈ {[shard_of o]} ∪ P) as HP by set_solver.
  destruct o as [k|k v]; simpl; unfold cl_Get, cl_Put; rewrite (sn_nsh _ _ _ _ _ Hok).
  - intros Hs. apply bind_Done in Hs as (c1 & Hj & Hs). apply bind_Done in Hs as (b & Hb%shard_client_Done & Hs).
    apply bind_Done in Hs as ([p b'] & Hg & Hs). simpl in Hs.
    destruct (p ≫= GetValue) as [v|] eqn:Hv; [|done].
    destruct (p ≫= GetReply) as [s|] eqn:Hsr; [|done]. injection Hs as <- <-.
    apply (join_ok _ _ _ _ _ _ _ Hok) in Hj.
    destruct (sn_in _ _ _ _ _ Hj _ HP) as (b0 & b1 & _ & Hb1 & Hsh). unfold shard_of in Hb1. simplify_eq/=.
    apply (op_ok _ _ _ _ _ (AGet k) b); [done..| | |].
    + eapply bc_Get_ok in Hg; [|done..]. apply Hg.
    + intros tr0 Htr. eapply shard_ok_ext; [|eapply bc_Get_ok in Hg; [|done..]; apply Hg].
      intros. by rewrite last_put_get.
    + intros k' [= <-]. eapply bc_Get_ok in Hg; [|done..]. by apply Hg.
  - intros Hs. apply bind_Done in Hs as ([s c2] & Hs & [= <- <-]).
    apply bind_Done in Hs as (c1 & Hj & Hs). apply bind_Done in Hs as (b & Hb%shard_client_Done & Hs).
    injection Hs as <- <-. apply (join_ok _ _ _ _ _ _ _ Hok) in Hj.
    apply (op_ok _ _ _ _ _ (APut k v) b); [done..| |done].
    intros tr0 [Hid Htr Hw]. split; [done..|]. intros k'. simpl. unfold shard_of in *. simpl in *.
    destruct (decide (k = k')) as [<-|].
    + rewrite lookup_insert_eq, decide_True by done. by rewrite last_put_put.
    + rewrite lookup_insert_ne by done. rewrite Hw, last_put_other by done. done.
Qed.

Lemma run_ops_ok c0 P ops0 rs0 ops c rs c' :
  sent_ok c0 P ops0 rs0 c → run_ops c ops = Done (rs, c') →
  sent_ok c0 (list_to_set (shard_of <$> ops) ∪ P) (ops0 ++ ops) (rs0 ++ rs) c'.
Proof.
  revert P ops0 rs0 c rs. induction ops as [|o ops IH]; intros P ops0 rs0 c rs Hok Hr; simpl in Hr.
  { injection Hr as <- <-. rewrite !app_nil_r. simpl. by rewrite (left_id_L ∅ (∪)). }
  apply bind_Done in Hr as ([r c1] & Hs & Hr). apply bind_Done in Hr as ([rs1 c2] & Hr & [= <- <-]). simpl in Hr.
  apply (app_step_ok _ _ _ _ _ _ _ _ Hok) in Hs. apply (IH _ _ _ _ _ Hs) in Hr.
  rewrite <-!app_assoc in Hr. simpl in Hr.
  by replace (list_to_set (shard_of <$> o :: ops) ∪ P)
    with (list_to_set (shard_of <$> ops) ∪ ({[shard_of o]} ∪ P)) by (rewrite fmap_cons, list_to_set_cons; set_solver).
Qed.

End sent.

(** C32. The transaction that is sent is the one the application ran.  After [Begin]
    and gets and puts, the participants are the shards of the keys; each was sent
    a begin and then reads of its keys only, the first successful one of a key
    without and the later ones at its timestamp; it buffers as read set the
    versions so read, and as write set the last value put at each of its keys.  A
    get returns the last value put before it in the transaction, or else what the
    shard of the key answered. *)
Theorem transaction_sent {C} `{TxnClient C} (c : Client (Traced C)) ops rs c' :
  run_ops (cl_Begin c) ops = Done (rs, c') →
  let id := u64 (t_id c + 1) in
  t_id c' = id ∧
  participants c' = list_to_set (shard_of (nshards c) <$> ops) ∧
  (∀ i, i ∈ participants c' → ∃ b0 b, bclient c !! i = Some b0 ∧ bclient c' !! i = Some b ∧
     shard_ok id (nshards c) i ops (trace b0) b) ∧
  (∀ i, i ∉ participants c' → bclient c' !! i = bclient c !! i) ∧
  length rs = length ops ∧
  (∀ n k r, ops !! n = Some (AGet k) → rs !! n = Some r →
     ∃ b, bclient c' !! key_to_shard k (nshards c) = Some b ∧ get_result (take n ops) k r (trace b)).
Proof.
  intros Hr id.
  assert (sent_ok id (nshards c) c ∅ [] [] (cl_Begin c)) as H0.
  { split; simpl; try done; intros; set_solver. }
  apply (run_ops_ok _ _ _ _ _ _ _ _ _ _ H0) in Hr. rewrite (right_id_L ∅ (∪)) in Hr. simpl in Hr.
  destruct Hr as [? ? -> ? ? ? ? ?]. by split_and!.
Qed.

(** ** Examples *)

(** A shard that answers reads with a version and prepares from a script. *)
Record Scripted := mkScripted { script : list Z }.

#[global] Instance scripted_client : TxnClient Scripted := {
  tc_Begin x _ := Done x;
  tc_Get x _ _ p := (Some (Reply_rtv p REPLY_OK (mkTS 7 1) "old"), x);
  tc_Get_at x _ _ t p := (Some (Reply_rtv p REPLY_OK t "old"), x);
  tc_Put _ _ _ _ _ := Crash;
  tc_Prepare x _ _ _ p :=
    match script x with
    | v :: l => (Some (Reply_r p v), mkScripted l)
    | [] => (Some (Reply_r p REPLY_TIMEOUT), x)
    end;
  tc_Commit x _ _ _ := x;
  tc_Abort x _ _ := x
}.

#[global] Instance scripted_answers : AnswersPrepare Scripted.
Proof. intros [[|v l]] id t ts p; by do 2 eexists. Qed.

Definition demo_clock (i : nat) : timeval := mkTV (100 + Z.of_nat i) 0.

Definition demo_ops : list app_op := [AGet "a"; APut "a" "new"; AGet "a"; APut "b" "x"].

Definition demo_tapir : Client (Traced Scripted) :=
  new_tapir_client 20001
    [mkTraced [] (mkScripted [REPLY_RETRY; REPLY_OK]); mkTraced [] (mkScripted [REPLY_OK; REPLY_OK])]
    new_truetime.

Definition result_of {X} (d : X) (r : blocking X) : X := match r with Done x => x | _ => d end.

Definition demo_ran : Client (Traced Scripted) := (result_of ([], demo_tapir) (run_ops (cl_Begin demo_tapir) demo_ops)).2.

Lemma transaction_sent_witness :
  participants demo_ran = {[0; 1]} ∧ length [(0, "old"); (0, "new"); (0, "new"); (0, "x")] = 4%nat.
Proof.
  destruct (transaction_sent demo_tapir demo_ops [(0, "old"); (0, "new"); (0, "new"); (0, "x")] demo_ran)
    as (_ & Hp & _ & _ & Hl & _); [vm_compute; reflexivity|]. split; [|exact Hl].
  rewrite Hp. vm_compute. reflexivity.
Defined.

Lemma two_phase_commit_witness :
  ∃ rs : list round, (1 ≤ length rs ≤ COMMIT_RETRIES)%nat ∧
    ∀ r, last rs = Some r → ∀ p, p ∈ participants demo_ran → accepts (r.2 p).
Proof.
  destruct (two_phase_commit demo_ran demo_clock true (result_of (true, demo_ran) (cl_Commit demo_ran demo_clock)).2)
    as (rs & Hlen & _ & _ & _ & Hb); [vm_compute; reflexivity|]. exists rs. split; [exact Hlen|].
  intros r Hr. by apply (Hb r Hr).
Defined.

Lemma commit_returns_witness :
  ∃ b c', cl_Commit (new_tapir_client 1 [mkScripted []] new_truetime) demo_clock = Crash ∧
    cl_Commit (mkClient 1 1 1 {[0]} {[0 := mkBC (mkScripted []) empty_txn 1]} new_truetime) demo_clock = Done (b, c').
Proof.
  destruct (commit_returns (mkClient 1 1 1 {[0]} {[0 := mkBC (mkScripted []) empty_txn 1]} new_truetime) demo_clock)
    as [(b & c' & Hc) _]; [|done|].
  - intros p Hp. assert (p = 0) as -> by (simpl in Hp; set_solver). by eexists.
  - exists b, c'. split; [|exact Hc].
    apply (commit_returns (new_tapir_client 1 [mkScripted []] new_truetime) demo_clock); [|reflexivity].
    intros p Hp. by apply elem_of_empty in Hp.
Defined.
