(* ===== verification/TapirSystem.v ===== *)
(** * TAPIR end to end

    The client library, the client of a shard, the client of inconsistent
    replication and the replicas with their stores, put together: a shard client
    that talks to its replicas over a network that delivers every message at once
    and in order is a [TxnClient] of the client library.  Two runs show what the
    parts do together. *)

From S2P Require Import Prelude Timestamp TsSet Transaction VersionStore TapirStore TrueTime Codec Quorum IRRecord IRReplica IRClient Promise TapirServer TapirShard Frontend TapirClient.

Section system.
Context `{IO : IterOrder} `{Codec TapirRequest} `{Codec TapirReply} `{Codec PersistedViewInfo}.

(** A shard: its client and its replicas. *)
Record Shard := mkShard { sh_client : ShardClient; sh_replicas : gmap Z (IRReplica Store) }.

(** Messages in flight. *)
Inductive packet := ToServer (i : Z) (m : ir_request) | ToClient (m : ir_reply).

Definition packets (g : Shard) (acts : list (client_action callback)) : list packet :=
  acts ≫= λ a,
    match a with
    | ToAll m => (λ q : Z * IRReplica Store, ToServer q.1 m) <$> omap_iter Z.le (sh_replicas g)
    | ToReplica i m => [ToServer i m]
    | _ => []
    end.

(** Delivers the first packet, or runs the next task if there is none. *)
Definition step_shard (g : Shard) (net : list packet) : outcome (option (Shard * list packet)) :=
  match net with
  | ToServer i m :: net =>
      match sh_replicas g !! i with
      | Some r =>
          x ← HandleMessage r m;
          Ret (Some (mkShard (sh_client g) (<[i := x.2]> (sh_replicas g)),
                     net ++ omap (λ a, match a with Reply m => Some (ToClient m) | _ => None end) x.1))
      | None => Ret (Some (g, net))
      end
  | ToClient m :: net =>
      x ← shard_receive true (sh_client g) m;
      let g := mkShard x.2 (sh_replicas g) in
      Ret (Some (g, net ++ packets g x.1))
  | [] =>
      match run_task true (sh_client g) with
      | Some (acts, sc) => let g := mkShard sc (sh_replicas g) in Ret (Some (g, packets g acts))
      | None => Ret None
      end
  end.

(** Steps until nothing is left to do. *)
Fixpoint run_shard (fuel : nat) (g : Shard) (net : list packet) : outcome Shard :=
  match fuel with
  | O => Panic
  | S fuel =>
      x ← step_shard g net;
      match x with Some (g, net) => run_shard fuel g net | None => Ret g end
  end.

(** More than the packets of an operation with five replicas. *)
Definition system_fuel : nat := 100.

(** An operation of the shard client [op] with the promise [p]. *)
Definition with_promise (g : Shard) (p : Promise) (op : ShardClient → option nat → ShardClient) :
    option Promise * Shard :=
  let sc := sh_client g in
  let w := next_promise sc in
  let sc := mkSC (sc_config sc) (sc_client sc) (sc_replica sc) (waiting sc) (blockingBegin sc)
              (<[w := p]> (heap sc)) (S w) (tasks sc) in
  match run_shard system_fuel (mkShard (op sc (Some w)) (sh_replicas g)) [] with
  | Ret g =>
      (match heap (sh_client g) !! w with
       | Some p => if pr_done p then Some p else None
       | None => None
       end, g)
  | Panic => (None, g)
  end.

Definition no_promise (g : Shard) (op : ShardClient → option nat → ShardClient) : Shard :=
  match run_shard system_fuel (mkShard (op (sh_client g) None) (sh_replicas g)) [] with
  | Ret g => g
  | Panic => g
  end.

#[global] Instance shard_txnclient : TxnClient Shard := {
  tc_Begin g id :=
    match shard_Begin (sh_client g) id with
    | Some sc => Done (mkShard sc (sh_replicas g))
    | None => Blocks
    end;
  tc_Get g id key p := with_promise g p (λ sc w, shard_Get sc id key w);
  tc_Get_at g id key t p := with_promise g p (λ sc w, shard_Get_at sc id key t w);
  tc_Put g id key v p :=
    match shard_Put (sh_client g) id key v None with
    | Ret sc => Done (None, mkShard sc (sh_replicas g))
    | Panic => Crash
    end;
  tc_Prepare g id t ts p := with_promise g p (λ sc w, shard_Prepare sc id t ts w);
  tc_Commit g id t ts := no_promise g (λ sc w, shard_Commit sc id t ts w);
  tc_Abort g id t := no_promise g (λ sc w, shard_Abort sc id t w)
}.

Definition new_shard (config : Configuration) (id : Z) (reps : gmap Z (IRReplica Store)) : Shard :=
  mkShard (new_shardclient config id 0) reps.

Definition new_replicas (config : Configuration) (s : Store) : gmap Z (IRReplica Store) :=
  list_to_map ((λ i, (i, (new_replica config i s None).2)) <$> seqZ 0 (n config)).

(** What the replicas of shard [i] have at [key]. *)
Definition stored (c : Client Shard) (i : Z) (key : string) : list (option (Timestamp * string)) :=
  match bclient c !! i with
  | Some b => (λ q : Z * IRReplica Store, get (kv (app q.2)) key) <$> omap_iter Z.le (sh_replicas (bc_client b))
  | None => []
  end.

End system.

(** ** Runs *)

#[local] Instance run_order : IterOrder := canonical_order.
#[local] Instance run_requests : Codec TapirRequest := bits_codec TapirRequest.
#[local] Instance run_replies : Codec TapirReply := bits_codec TapirReply.
#[local] Instance run_views : Codec PersistedViewInfo := bits_codec PersistedViewInfo.

Definition three_replicas : Configuration :=
  mkConfig 3 1 [mkAddr "a" "1"; mkAddr "b" "1"; mkAddr "c" "1"] None.

Definition run_store : Store := Load (mkStore true empty_store ∅) "x" "old" ts0.

(** A client of the one shard with replicas [reps]. *)
Definition run_client (id : Z) (reps : gmap Z (IRReplica Store)) : Client Shard :=
  new_tapir_client id [new_shard three_replicas id reps] new_truetime.

(** Reads ["x"] and writes [v] to it. *)
Definition update_x (c : Client Shard) (v : string) : blocking ((Z * string) * Client Shard) :=
  r ← cl_Get (cl_Begin c) "x";
  w ← cl_Put r.2 "x" v;
  Done (r.1, w.2).

Definition run_clock (t : Z) (i : nat) : timeval := mkTV (t + Z.of_nat i) 0.

Definition shard_replicas (c : Client Shard) (i : Z) : gmap Z (IRReplica Store) :=
  match bclient c !! i with Some b => sh_replicas (bc_client b) | None => ∅ end.

(** One client updates ["x"]. *)
Definition run_one : blocking ((Z * string) * bool * list (option (Timestamp * string))) :=
  u ← update_x (run_client 20001 (new_replicas three_replicas run_store)) "new";
  r ← cl_Commit u.2 (run_clock 100);
  Done (u.1, r.1, stored r.2 0 "x").

(** The first client has prepared its update of ["x"] and not yet committed it;
    the second one updates ["x"] and commits. *)
Definition run_two : blocking ((Z * string) * bool * list (option (Timestamp * string))) :=
  u ← update_x (run_client 20001 (new_replicas three_replicas run_store)) "first";
  p ← cl_Prepare u.2 (mkTS (GetTime new_truetime (run_clock 100 0)) 20001) (run_clock 101 0);
  u ← update_x (run_client 30001 (shard_replicas p.2 0)) "second";
  r ← cl_Commit u.2 (run_clock 200);
  Done (u.1, r.1, stored r.2 0 "x").


(** ** A late vote *)

Definition run_txn : Transaction := mkTxn ∅ {["x" := "v"]}.

Definition next_task (s : outcome ShardClient) : outcome ShardClient :=
  s ← s; match run_task true s with Some (_, s) => Ret s | None => Panic end.

Definition receive (m : ir_reply) (s : outcome ShardClient) : outcome ShardClient :=
  s ← s; x ← shard_receive true s m; Ret x.2.

Definition begin (id : Z) (s : outcome ShardClient) : outcome ShardClient :=
  s ← s; match shard_Begin s id with Some s => Ret s | None => Panic end.

Definition a_vote (i : Z) : ir_reply :=
  ReplyConsensus 0 i (7, 1) (ser (mkTReply REPLY_OK None None)) false.

(** A transaction is prepared, with promise 0, and aborted before the votes are
    in, as when another shard refused it; the abort completes; the next
    transaction begins and gets ["y"], with promise 2; then the votes arrive. *)
Definition late_votes : outcome (option Promise) :=
  let s := new_pointer (new_shardclient three_replicas 7 0) PREPARE_TIMEOUT in
  let s := next_task (Ret (shard_Prepare s.2 1 run_txn (mkTS 5 7) (Some s.1))) in
  s ← next_task (s ← s; Ret (shard_Abort s 1 empty_txn None));
  s ← begin 2 (receive (ReplyInconsistent 0 1 (7, 2) false) (receive (ReplyInconsistent 0 0 (7, 2) false) (Ret s)));
  let p := new_pointer s GET_TIMEOUT in
  let s := next_task (Ret (shard_Get p.2 2 "y" (Some p.1))) in
  s ← receive (a_vote 2) (receive (a_vote 1) (receive (a_vote 0) s));
  Ret (heap s !! p.1).

(** A read answered by a vote.  The votes of an aborted transaction's prepare that
    come in during the next transaction answer its read: the promise of the read
    is done, OK, with an empty value and the null timestamp, without any server
    having answered it. *)
Theorem late_vote_answers_get :
  late_votes = Ret (Some (mkPromise true GET_TIMEOUT REPLY_OK ts0 "")).
Proof. vm_compute. reflexivity. Qed.
