(* ===== verification/TimeServer.v ===== *)
(** * The timestamp server (timeserver/timeserver.{h,cc}) and numbers as text

    A counter served over viewstamped replication.  [std::to_string] and
    [std::stol], with which its numbers travel. *)

From Stdlib Require Import Ascii.
From stdpp Require Import pretty.
From S2P Require Import Prelude AppReplica.

(** ** [std::stol] *)

Definition is_space (c : ascii) : bool :=
  let n := nat_of_ascii c in (n =? 32)%nat || ((9 <=? n)%nat && (n <=? 13)%nat).

Definition digit_of (c : ascii) : option Z :=
  let n := Z.of_nat (nat_of_ascii c) in
  if (48 <=? n) && (n <=? 57) then Some (n - 48) else None.

Fixpoint skip_space (s : string) : string :=
  match s with
  | String c s' => if is_space c then skip_space s' else s
  | EmptyString => EmptyString
  end.

(** The longest prefix of digits, after [acc]. *)
Fixpoint digits (acc : Z) (s : string) : Z :=
  match s with
  | String c s' => match digit_of c with Some d => digits (10 * acc + d) s' | None => acc end
  | EmptyString => acc
  end.

Definition starts_with_digit (s : string) : bool :=
  match s with String c _ => bool_decide (is_Some (digit_of c)) | EmptyString => false end.

(** [None] when it throws: no number, or one that is no [long]. *)
Definition stol (s : string) : option Z :=
  let s := skip_space s in
  let '(neg, s) :=
    match s with
    | String c s' =>
        if Ascii.eqb c "-" then (true, s') else if Ascii.eqb c "+" then (false, s') else (false, s)
    | EmptyString => (false, s)
    end in
  if starts_with_digit s then
    let v := if neg : bool then - digits 0 s else digits 0 s in
    if (- 2 ^ 63 <=? v) && (v <? 2 ^ 63) then Some v else None
  else None.

(** [std::to_string] *)
Definition to_string (z : Z) : string := pretty z.

(** ** The server *)

Record TimeStampServer := mkTSS { tss_ts : Z }.

Notation new_timestampserver := (mkTSS 0) (only parsing).

Definition newTimeStamp (s : TimeStampServer) : string * TimeStampServer :=
  let ts := i64 (tss_ts s + 1) in (to_string ts, mkTSS ts).

(** The other upcalls are those of the base class. *)
#[global] Instance timestamp_app : AppReplica TimeStampServer := {
  LeaderUpcall a _ str1 := Ret ((true, str1), a);
  ReplicaUpcall a _ _ := Ret (newTimeStamp a);
  UnloggedUpcall a _ := Ret ("", a)
}.

(** ** Numbers survive the wire *)

Lemma digit_of_pretty (x : N) : (x < 10)%N → digit_of (pretty_N_char x) = Some (Z.of_N x).
Proof.
  intros Hx. assert (x ∈ (N.of_nat <$> seq 0 10)) as Hin.
  { apply list_elem_of_fmap. exists (N.to_nat x). split; [lia|]. apply elem_of_seq. lia. }
  simpl in Hin. repeat (apply elem_of_cons in Hin as [->|Hin]; [done|]). by apply elem_of_nil in Hin.
Qed.

Lemma digits_pretty (x : N) s : digits 0 (pretty_N_go x s) = digits (Z.of_N x) s.
Proof.
  revert s. induction (N.lt_wf_0 x) as [x _ IH]. intros s.
  destruct (decide (0 < x)%N) as [Hx|Hx].
  - rewrite pretty_N_go_step by done. rewrite IH by (apply N.div_lt; lia). simpl.
    rewrite digit_of_pretty by (apply N.mod_lt; lia). f_equal.
    pose proof (N.div_mod x 10). lia.
  - assert (x = 0)%N as -> by lia. by rewrite pretty_N_go_0.
Qed.

Lemma pretty_starts (x : N) s : (0 < x)%N → ∃ c s', pretty_N_go x s = String c s' ∧ is_Some (digit_of c).
Proof.
  revert s. induction (N.lt_wf_0 x) as [x _ IH]. intros s Hx. rewrite pretty_N_go_step by done.
  destruct (decide (0 < x / 10)%N) as [Hd|Hd].
  - apply IH; [apply N.div_lt; lia|done].
  - assert (x / 10 = 0)%N as -> by (by apply N.le_0_r, N.nlt_ge). rewrite pretty_N_go_0. eexists _, _. split; [done|].
    rewrite digit_of_pretty by (apply N.mod_lt; lia). by eexists.
Qed.

Lemma digit_plain c : is_Some (digit_of c) → is_space c = false ∧ Ascii.eqb c "-" = false ∧ Ascii.eqb c "+" = false.
Proof.
  intros [d Hd]. unfold digit_of in Hd.
  destruct ((48 <=? Z.of_nat (nat_of_ascii c)) && (Z.of_nat (nat_of_ascii c) <=? 57)) eqn:Hc; [|done].
  apply andb_true_iff in Hc as [H1%Z.leb_le H2%Z.leb_le]. split_and!.
  - unfold is_space. apply orb_false_iff. split; [|apply andb_false_iff; right]; apply not_true_is_false;
      rewrite ?Nat.eqb_eq, ?Nat.leb_le; lia.
  - apply Ascii.eqb_neq. intros ->. by vm_compute in H1.
  - apply Ascii.eqb_neq. intros ->. by vm_compute in H1.
Qed.

(** A number is written as digits. *)
Lemma to_string_spec z : 0 ≤ z → ∃ c s, to_string z = String c s ∧ is_Some (digit_of c) ∧ digits 0 (String c s) = z.
Proof.
  intros Hz. destruct z as [|p|p]; [exists "0"%char, ""; split; [done|]; by split; [eexists|]| |lia].
  change (to_string (Z.pos p)) with (pretty_N_go (N.pos p) "").
  destruct (pretty_starts (N.pos p) "") as (c & s & Heq & Hc); [lia|].
  exists c, s. split; [done|]. split; [done|]. rewrite <- Heq. apply digits_pretty.
Qed.

Lemma stol_to_string z : 0 ≤ z < 2 ^ 63 → stol (to_string z) = Some z.
Proof.
  intros Hz. destruct (to_string_spec z) as (c & s & -> & Hc & Hd); [lia|].
  destruct (digit_plain c Hc) as (Hsp & Hm & Hp). unfold stol. simpl skip_space. rewrite Hsp, Hm, Hp.
  unfold starts_with_digit. rewrite bool_decide_eq_true_2, Hd by done.
  rewrite (proj2 (Z.leb_le _ _)), (proj2 (Z.ltb_lt _ _)) by lia. done.
Qed.

(** The replies to a sequence of requests. *)
Fixpoint serve (s : TimeStampServer) (opnum : Z) (reqs : list string) : outcome (list string * TimeStampServer) :=
  match reqs with
  | [] => Ret ([], s)
  | r :: reqs =>
      x ← ReplicaUpcall s opnum r;
      y ← serve x.2 (opnum + 1) reqs;
      Ret (x.1 :: y.1, y.2)
  end.

Lemma serve_from n opnum reqs :
  0 ≤ n → n + Z.of_nat (length reqs) < 2 ^ 63 →
  ∃ replies, serve (mkTSS n) opnum reqs = Ret (replies, mkTSS (n + Z.of_nat (length reqs))) ∧
    stol <$> replies = (λ i, Some (n + 1 + Z.of_nat i)) <$> seq 0 (length reqs).
Proof.
  revert n opnum. induction reqs as [|r reqs IH]; intros n opnum Hn Hlen; simpl in *.
  { exists []. split; [|done]. by rewrite Z.add_0_r. }
  assert (i64 (n + 1) = n + 1) as Hi by (unfold i64; rewrite Z.mod_small; lia).
  destruct (IH (n + 1) (opnum + 1)) as (replies & Hs & Hr); [lia..|]. unfold newTimeStamp; simpl.
  rewrite Hi, Hs. simpl. eexists. split; [f_equal; f_equal; f_equal; lia|].
  rewrite !fmap_cons, stol_to_string, Hr, <-(fmap_S_seq 0), <-list_fmap_compose by lia.
  f_equal; [f_equal; lia|]. apply list_fmap_ext. intros i j _. simpl. f_equal. lia.
Qed.

(** The timestamp server counts.  The replies to a sequence of replicated
    requests are, parsed by the client, the numbers from 1 on, whatever the
    requests are, up to the largest [long]. *)
Theorem timestamps_count reqs :
  Z.of_nat (length reqs) < 2 ^ 63 →
  ∃ replies s, serve new_timestampserver 1 reqs = Ret (replies, s) ∧
    stol <$> replies = (λ i, Some (1 + Z.of_nat i)) <$> seq 0 (length reqs).
Proof.
  intros Hlen. destruct (serve_from 0 1 reqs) as (replies & Hs & Hr); [lia..|]. eauto.
Qed.

Lemma timestamps_count_witness :
  ∃ replies s, serve new_timestampserver 1 ["a"; "b"; "c"] = Ret (replies, s) ∧
    stol <$> replies = [Some 1; Some 2; Some 3].
Proof. apply (timestamps_count ["a"; "b"; "c"]). vm_compute. reflexivity. Defined.
