(* ===== verification/ConfigFile.v ===== *)
(** * Configuration files (lib/configuration.cc)

    The constructor of [Configuration] that reads a file, with the functions of
    [std::string] it uses at their widths: positions are kept in an [unsigned int],
    so the [npos] of [size_t] becomes 2^32 - 1. *)

From Stdlib Require Import Ascii.
From S2P Require Import Prelude Quorum AppReplica TimeServer.

Notation chars := (list ascii).

(** ** [std::string], [strcasecmp] and [std::stoul] *)

Notation npos := (2 ^ 64 - 1) (only parsing).

(** [find_first_of] and [find_first_not_of], as an [unsigned int]. *)
Definition find_from (P : ascii → bool) (s : chars) (pos : Z) : Z :=
  u32 (if (pos <? Z.of_nat (length s))%Z then
         match list_find P (drop (Z.to_nat pos) s) with Some (i, _) => pos + Z.of_nat i | None => npos end
       else npos).

(** [None] when it throws [out_of_range]. *)
Definition substr (s : chars) (pos len : Z) : option chars :=
  if (Z.of_nat (length s) <? pos)%Z then None
  else Some (take (Z.to_nat (Z.min len (Z.of_nat (length s) - pos))) (drop (Z.to_nat pos) s)).

(** The string up to the first NUL. *)
Fixpoint c_str (s : chars) : chars :=
  match s with [] => [] | c :: s => if Ascii.eqb c zero then [] else c :: c_str s end.

Definition tolower (c : ascii) : ascii :=
  let n := nat_of_ascii c in if (65 <=? n)%nat && (n <=? 90)%nat then ascii_of_nat (n + 32) else c.

(** [strcasecmp(a, b) == 0] *)
Definition strcaseeq (a b : chars) : bool := bool_decide (tolower <$> c_str a = tolower <$> c_str b).

(** [None] when it throws: no number, or one that is no [unsigned long]. *)
Definition stoul (s : string) : option Z :=
  let s := skip_space s in
  let '(neg, s) :=
    match s with
    | String c s' =>
        if Ascii.eqb c "-" then (true, s') else if Ascii.eqb c "+" then (false, s') else (false, s)
    | EmptyString => (false, s)
    end in
  if starts_with_digit s then
    let v := digits 0 s in
    if (v <? 2 ^ 64)%Z then Some (if neg : bool then u64 (- v) else v) else None
  else None.

Definition is_blank (c : ascii) : bool := Ascii.eqb c " " || Ascii.eqb c "009".

(** The lines [getline] gives until the end of the file. *)
Fixpoint getlines (s : chars) : list chars :=
  match s with
  | [] => [[]]
  | c :: s =>
      if Ascii.eqb c "010" then [] :: getlines s
      else match getlines s with l :: ls => (c :: l) :: ls | [] => [[c]] end
  end.

(** ** The parser *)

Definition of_option {A} (x : option A) : outcome A := match x with Some a => Ret a | None => Panic end.

(** The [host:port] of a line whose command ends at [t1]. *)
Definition parse_address (line : chars) (t1 : Z) : outcome ReplicaAddress :=
  let t2 := find_from (λ c, negb (is_blank c)) line t1 in
  ASSERT! negb (t2 =? npos)%Z;
  let t3 := find_from (Ascii.eqb ":") line t2 in
  ASSERT! negb (t3 =? npos)%Z;
  host ← of_option (substr line t2 (u32 (t3 - t2)));
  port ← of_option (substr line (u32 (t3 + 1)) npos);
  Ret (mkAddr (String.string_of_list_ascii host) (String.string_of_list_ascii port)).

(** A line, and the configuration so far; [n] is set in the end. *)
Definition parse_line (st : Configuration) (line : chars) : outcome Configuration :=
  if match line with [] => true | c :: _ => Ascii.eqb c "#" end then Ret st
  else
    let t1 := find_from is_blank line 0 in
    cmd ← of_option (substr line 0 t1);
    if strcaseeq cmd (String.list_ascii_of_string "f") then
      let t2 := find_from (λ c, negb (is_blank c)) line t1 in
      ASSERT! negb (t2 =? npos)%Z;
      arg ← of_option (substr line t2 npos);
      v ← of_option (stoul (String.string_of_list_ascii arg));
      Ret (mkConfig 0 (i32 v) (replicas st) (multicastAddress st))
    else if strcaseeq cmd (String.list_ascii_of_string "replica") then
      a ← parse_address line t1;
      Ret (mkConfig 0 (f st) (replicas st ++ [a]) (multicastAddress st))
    else if strcaseeq cmd (String.list_ascii_of_string "multicast") then
      a ← parse_address line t1;
      Ret (mkConfig 0 (f st) (replicas st) (Some a))
    else Panic.

Definition read_configuration (file : chars) : outcome Configuration :=
  st ← foldl (λ st line, st ← st; parse_line st line) (Ret (mkConfig 0 (-1) [] None)) (getlines file);
  let n := i32 (Z.of_nat (length (replicas st))) in
  ASSERT! negb (n =? 0)%Z;
  ASSERT! negb (f st =? -1)%Z;
  Ret (mkConfig n (f st) (replicas st) (multicastAddress st)).

(** ** What a file means *)

Inductive directive :=
| Comment
| SetF (f : Z)
| AddReplica (a : ReplicaAddress)
| SetMulticast (a : ReplicaAddress).

Notation text s := (String.list_ascii_of_string s).

(** A command in upper or lower case, blanks and the argument. *)
Definition command_line (name : string) (arg line : chars) : Prop :=
  ∃ cmd blanks, tolower <$> cmd = text name ∧ blanks ≠ [] ∧ Forall is_blank blanks ∧
    (∀ c, head arg = Some c → is_blank c = false) ∧ arg ≠ [] ∧ line = cmd ++ blanks ++ arg.

Definition address_text (a : ReplicaAddress) : chars := text (host a) ++ ":"%char :: text (port a).

(** How a line may be written. *)
Definition written (d : directive) (line : chars) : Prop :=
  "010"%char ∉ line ∧ Z.of_nat (length line) < 2 ^ 32 - 1 ∧
  match d with
  | Comment => line = [] ∨ head line = Some "#"%char
  | SetF f => 0 ≤ f < 2 ^ 31 ∧ command_line "f" (text (to_string f)) line
  | AddReplica a => ":"%char ∉ text (host a) ∧ command_line "replica" (address_text a) line
  | SetMulticast a => ":"%char ∉ text (host a) ∧ command_line "multicast" (address_text a) line
  end.

(** Lines, with a newline between any two. *)
Fixpoint unlines (ls : list chars) : chars :=
  match ls with [] => [] | [l] => l | l :: ls => l ++ "010"%char :: unlines ls end.

(** What a directive does, and the configuration in the end. *)
Definition apply_directive (st : Configuration) (d : directive) : Configuration :=
  match d with
  | Comment => st
  | SetF f => mkConfig 0 f (replicas st) (multicastAddress st)
  | AddReplica a => mkConfig 0 (f st) (replicas st ++ [a]) (multicastAddress st)
  | SetMulticast a => mkConfig 0 (f st) (replicas st) (Some a)
  end.

Definition meaning (ds : list directive) : option Configuration :=
  let st := foldl apply_directive (mkConfig 0 (-1) [] None) ds in
  if decide (replicas st = [] ∨ f st = -1) then None
  else Some (mkConfig (Z.of_nat (length (replicas st))) (f st) (replicas st) (multicastAddress st)).

(** ** Lemmas on strings *)

Lemma list_find_first (P : ascii → bool) (a : chars) x b : (∀ c, c ∈ a → P c = false) → P x = true →
  list_find P (a ++ x :: b) = Some (length a, x).
Proof.
  intros Ha Hx. apply list_find_Some. rewrite list_lookup_middle by done. split_and!; [done|by rewrite Hx|].
  intros j y Hj Hlt. rewrite lookup_app_l in Hj by done. rewrite (Ha y); [auto|]. by eapply list_elem_of_lookup_2.
Qed.

(** The first character [x] that satisfies [P] after the prefix [pre]. *)
Lemma find_from_spec (P : ascii → bool) (pre a : chars) x b : (∀ c, c ∈ a → P c = false) → P x = true →
  Z.of_nat (length (pre ++ a ++ x :: b)) < 2 ^ 32 - 1 →
  find_from P (pre ++ a ++ x :: b) (Z.of_nat (length pre)) = Z.of_nat (length (pre ++ a)).
Proof.
  intros Ha Hx Hlen. unfold find_from. rewrite !length_app in *. simpl in *. destruct (Z.ltb_spec (Z.of_nat (length pre)) (Z.of_nat (length pre + (length a + S (length b))))); [|lia].
  rewrite Nat2Z.id, drop_app_length, list_find_first by done. unfold u32. rewrite Z.mod_small; lia.
Qed.

Lemma substr_rest (a b : chars) : Z.of_nat (length (a ++ b)) < 2 ^ 32 - 1 → substr (a ++ b) (Z.of_nat (length a)) npos = Some b.
Proof.
  intros Hlen. unfold substr. rewrite length_app in *. destruct (Z.ltb_spec (Z.of_nat (length a + length b)) (Z.of_nat (length a))); [lia|].
  rewrite Nat2Z.id, drop_app_length, take_ge; [done|lia].
Qed.

Lemma substr_middle (a b c : chars) : substr (a ++ b ++ c) (Z.of_nat (length a)) (Z.of_nat (length b)) = Some b.
Proof.
  unfold substr. rewrite !length_app. destruct (Z.ltb_spec (Z.of_nat (length a + (length b + length c))) (Z.of_nat (length a))); [lia|].
  rewrite Nat2Z.id, drop_app_length. f_equal. replace (Z.to_nat _) with (length b) by lia. apply take_app_length.
Qed.

(** Letters are letters in lower case. *)
Lemma tolower_plain c : is_blank c = true ∨ c = "#"%char ∨ c = zero → tolower c = c.
Proof. by destruct c as [[] [] [] [] [] [] [] []]; vm_compute; intros [?|[?|?]]. Qed.

Definition letters (name : chars) : bool := forallb (λ c, negb (is_blank c) && negb (Ascii.eqb c "#") && negb (Ascii.eqb c zero)) name.

Lemma keyword_plain (cmd name : chars) : tolower <$> cmd = name → letters name = true →
  ∀ c, c ∈ cmd → is_blank c = false ∧ c ≠ "#"%char ∧ c ≠ zero.
Proof.
  intros <- Hl c Hc. unfold letters in Hl. rewrite forallb_forall in Hl. specialize (Hl (tolower c)).
  assert (In (tolower c) (tolower <$> cmd)) as Hin by (by apply list_elem_of_In, list_elem_of_fmap_2).
  specialize (Hl Hin). apply andb_true_iff in Hl as [[Hb Hh]%andb_true_iff Hz].
  split_and!.
  - destruct (is_blank c) eqn:Hbl; [|done]. by rewrite tolower_plain, Hbl in Hb by auto.
  - intros ->. done.
  - intros ->. done.
Qed.

Lemma c_str_id (s : chars) : (∀ c, c ∈ s → c ≠ zero) → c_str s = s.
Proof.
  induction s as [|c s IH]; intros Hs; [done|]. simpl. destruct (Ascii.eqb_spec c zero) as [->|]; [|f_equal; apply IH; set_solver].
  destruct (Hs zero); set_solver.
Qed.

Lemma strcaseeq_keyword (cmd name word : chars) : tolower <$> cmd = name → letters name = true →
  strcaseeq cmd word = bool_decide (name = tolower <$> c_str word).
Proof. intros Hn Hl. unfold strcaseeq. rewrite c_str_id, Hn; [done|]. intros c Hc. by apply (keyword_plain cmd name Hn Hl c Hc). Qed.

(** ** The lines of a file *)

Lemma getlines_line (l : chars) : "010"%char ∉ l → getlines l = [l].
Proof.
  induction l as [|c l IH]; intros Hl; [done|]. simpl. apply not_elem_of_cons in Hl as [Hc Hl].
  destruct (Ascii.eqb_spec c "010"); [by subst|]. by rewrite IH.
Qed.

Lemma getlines_app (l s : chars) : "010"%char ∉ l → getlines (l ++ "010"%char :: s) = l :: getlines s.
Proof.
  induction l as [|c l IH]; intros Hl; [done|]. simpl. apply not_elem_of_cons in Hl as [Hc Hl].
  destruct (Ascii.eqb_spec c "010"); [by subst|]. by rewrite IH.
Qed.

Lemma getlines_unlines (ls : list chars) : ls ≠ [] → Forall (λ l, "010"%char ∉ l) ls → getlines (unlines ls) = ls.
Proof.
  intros Hne Hls. induction Hls as [|l ls Hl Hls IH]; [done|]. destruct ls as [|l' ls]; [by apply getlines_line|].
  change (unlines (l :: l' :: ls)) with (l ++ "010"%char :: unlines (l' :: ls)). rewrite getlines_app, IH by done. done.
Qed.

(** ** The parser *)

Lemma stoul_to_string z : 0 ≤ z < 2 ^ 31 → stoul (to_string z) = Some z.
Proof.
  intros Hz. destruct (to_string_spec z) as (c & s & -> & Hc & Hd); [lia|].
  destruct (digit_plain c Hc) as (Hsp & Hm & Hp). unfold stoul. simpl skip_space. rewrite Hsp, Hm, Hp.
  unfold starts_with_digit. rewrite bool_decide_eq_true_2, Hd by done. rewrite (proj2 (Z.ltb_lt _ _)) by lia. done.
Qed.

(** The parts of a line with a command. *)
Lemma command_line_spec name arg line : command_line name arg line → letters (text name) = true → name ≠ "" →
  Z.of_nat (length line) < 2 ^ 32 - 1 →
  ∃ cmd pre, tolower <$> cmd = text name ∧ line = pre ++ arg ∧
    match line with [] => true | c :: _ => Ascii.eqb c "#" end = false ∧
    substr line 0 (find_from is_blank line 0) = Some cmd ∧
    find_from (λ c, negb (is_blank c)) line (find_from is_blank line 0) = Z.of_nat (length pre).
Proof.
  intros (cmd & blanks & Hcmd & Hne & Hbl & Harg & Hargne & ->) Hlet Hname Hlen.
  pose proof (keyword_plain cmd _ Hcmd Hlet) as Hplain. exists cmd, (cmd ++ blanks).
  destruct blanks as [|b bs]; [done|]. apply Forall_cons in Hbl as [Hb Hbs].
  assert (find_from is_blank (cmd ++ (b :: bs) ++ arg) 0 = Z.of_nat (length cmd)) as Ht1.
  { apply (find_from_spec is_blank [] cmd b (bs ++ arg)); [|by apply Is_true_eq_true|done]. intros c Hc. by apply Hplain. }
  split; [done|]. split; [by rewrite <- app_assoc|]. split_and!.
  - destruct cmd as [|c cmd]; [by destruct name|]. simpl. apply Ascii.eqb_neq. by apply Hplain; left.
  - rewrite Ht1. apply (substr_middle [] cmd).
  - rewrite Ht1. destruct arg as [|x arg]; [done|]. apply (find_from_spec _ cmd (b :: bs) x arg); [|by rewrite Harg|done].
    intros c Hc. apply negb_false_iff, Is_true_eq_true. apply elem_of_cons in Hc as [->|Hc]; [done|].
    rewrite Forall_forall in Hbs. by apply Hbs.
Qed.

Lemma parse_address_spec line pre a t1 : line = pre ++ address_text a → ":"%char ∉ text (host a) → Z.of_nat (length line) < 2 ^ 32 - 1 →
  find_from (λ c, negb (is_blank c)) line t1 = Z.of_nat (length pre) → parse_address line t1 = Ret a.
Proof.
  intros -> Hc Hlen Ht2. unfold parse_address, address_text in *. rewrite Ht2.
  assert (∀ z, 0 ≤ z < 2 ^ 32 → negb (z =? npos)%Z = true) as Hnpos by (intros z Hz; apply negb_true_iff, Z.eqb_neq; lia).
  pose proof Hlen as Hlen'. rewrite !length_app in Hlen'. simpl in Hlen'. rewrite (Hnpos (Z.of_nat (length pre))) by lia.
  rewrite (find_from_spec (Ascii.eqb ":") pre (text (host a)) ":" (text (port a))); [|intros c Hin; apply Ascii.eqb_neq; by intros <-|done|done].
  rewrite length_app, (Hnpos (Z.of_nat (length pre + _))) by lia. cbn [mbind outcome_bind].
  assert (u32 (Z.of_nat (length pre + length (text (host a))) - Z.of_nat (length pre)) = Z.of_nat (length (text (host a)))) as ->
    by (unfold u32; rewrite Z.mod_small; lia).
  rewrite substr_middle. cbn [of_option mbind outcome_bind].
  assert (u32 (Z.of_nat (length pre + length (text (host a))) + 1) = Z.of_nat (length (pre ++ text (host a) ++ [":"%char]))) as ->
    by (unfold u32; rewrite Z.mod_small; rewrite ?length_app; simpl; lia).
  replace (pre ++ text (host a) ++ ":"%char :: text (port a)) with ((pre ++ text (host a) ++ [":"%char]) ++ text (port a)) by (by rewrite <- !app_assoc).
  rewrite substr_rest by (rewrite !length_app; simpl; lia). simpl. rewrite !String.string_of_list_ascii_of_string. by destruct a.
Qed.

Lemma parse_line_spec st d line : written d line → parse_line st line = Ret (apply_directive st d).
Proof.
  intros (_ & Hlen & Hd). unfold parse_line. destruct d as [|f|a|a].
  - destruct Hd as [->|Hh]; [done|]. destruct line as [|c line]; [done|]. by injection Hh as ->.
  - destruct Hd as [Hf Hcl]. destruct (command_line_spec _ _ _ Hcl) as (cmd & pre & Hcmd & -> & -> & -> & Ht2); [done..|].
    cbn [of_option mbind outcome_bind]. rewrite (strcaseeq_keyword cmd _ _ Hcmd), bool_decide_true by done. rewrite Ht2.
    assert (negb (Z.of_nat (length pre) =? npos)%Z = true) as ->.
    { apply negb_true_iff, Z.eqb_neq. rewrite length_app in Hlen. lia. }
    rewrite substr_rest by done. cbn [of_option mbind outcome_bind]. rewrite String.string_of_list_ascii_of_string, stoul_to_string by done.
    simpl. unfold i32. rewrite Z.mod_small by lia. by replace (f + 2 ^ 31 - 2 ^ 31) with f by lia.
  - destruct Hd as [Hc Hcl]. destruct (command_line_spec _ _ _ Hcl) as (cmd & pre & Hcmd & Hline & -> & -> & Ht2); [done..|].
    cbn [of_option mbind outcome_bind]. rewrite !(strcaseeq_keyword cmd _ _ Hcmd), bool_decide_false, bool_decide_true by done.
    by rewrite (parse_address_spec _ _ _ _ Hline Hc Hlen Ht2).
  - destruct Hd as [Hc Hcl]. destruct (command_line_spec _ _ _ Hcl) as (cmd & pre & Hcmd & Hline & -> & -> & Ht2); [done..|].
    cbn [of_option mbind outcome_bind]. rewrite !(strcaseeq_keyword cmd _ _ Hcmd), !bool_decide_false, bool_decide_true by done.
    by rewrite (parse_address_spec _ _ _ _ Hline Hc Hlen Ht2).
Qed.

Lemma parse_lines_spec st ds ls : Forall2 written ds ls →
  foldl (λ st line, st ← st; parse_line st line) (Ret st) ls = Ret (foldl apply_directive st ds).
Proof. intros Hw. revert st. induction Hw as [|d l ds ls Hd _ IH]; intros st; [done|]. simpl. rewrite (parse_line_spec st d l Hd). apply IH. Qed.

Lemma replicas_bound ds st : (length (replicas (foldl apply_directive st ds)) ≤ length (replicas st) + length ds)%nat.
Proof.
  revert st. induction ds as [|d ds IH]; intros st; simpl; [lia|]. specialize (IH (apply_directive st d)).
  destruct d; simpl in *; rewrite ?length_app in IH; simpl in IH; lia.
Qed.

(** C40. Configuration files.  A file of comments and directives, however the commands
    are spelled and spaced, is read as the configuration it describes: the last [f]
    and multicast address, and the replicas in order.  A file without replicas or
    without [f] stops the program. *)
Theorem configuration_read ds ls : ls ≠ [] → Z.of_nat (length ls) < 2 ^ 31 → Forall2 written ds ls →
  read_configuration (unlines ls) = of_option (meaning ds).
Proof.
  intros Hne Hlen Hw. unfold read_configuration. rewrite getlines_unlines; [|done|].
  2: { apply Forall_forall. intros l Hl. apply list_elem_of_lookup in Hl as [i Hi].
       destruct (Forall2_lookup_r _ _ _ _ _ Hw Hi) as (d & _ & Hd & _). done. }
  rewrite (parse_lines_spec _ _ _ Hw). cbn [mbind outcome_bind]. unfold meaning.
  pose proof (replicas_bound ds (mkConfig 0 (-1) [] None)) as Hb. rewrite (Forall2_length _ _ _ Hw) in Hb. simpl in Hb.
  set (st := foldl apply_directive _ ds) in *. unfold i32. rewrite Z.mod_small by lia.
  replace (Z.of_nat (length (replicas st)) + 2 ^ 31 - 2 ^ 31) with (Z.of_nat (length (replicas st))) by lia.
  destruct (replicas st) as [|a rs] eqn:Hrs; [by rewrite decide_True by auto|]. simpl.
  destruct (Z.eqb_spec (f st) (-1)) as [Hf|Hf]; [by rewrite decide_True by auto|]. rewrite decide_False; [done|naive_solver].
Qed.

Definition demo_lines : list chars :=
  (λ s, text s) <$> ["# one shard"; "f 1"; "replica node1:32293"; "Replica  node2:32294"; ""].
Definition demo_directives : list directive :=
  [Comment; SetF 1; AddReplica (mkAddr "node1" "32293"); AddReplica (mkAddr "node2" "32294"); Comment].

Lemma command_line_demo name arg cmd blanks : tolower <$> text cmd = text name → blanks ≠ "" → Forall is_blank (text blanks) →
  match arg with [] => False | c :: _ => is_blank c = false end → command_line name arg (text cmd ++ text blanks ++ arg).
Proof.
  intros Hcmd Hne Hbl Harg. exists (text cmd), (text blanks). split_and!; try done; [by destruct blanks|..]; destruct arg; try done. by intros c' [= <-].
Qed.

Lemma configuration_read_witness :
  read_configuration (unlines demo_lines) = Ret (mkConfig 2 1 [mkAddr "node1" "32293"; mkAddr "node2" "32294"] None).
Proof.
  refine (configuration_read demo_directives demo_lines _ _ _); [done|vm_compute; reflexivity|].
  unfold demo_directives, demo_lines. cbn [fmap list_fmap].
  repeat apply Forall2_cons_2; [..|apply Forall2_nil_2]; (split; [apply (bool_decide_eq_true_1 _); vm_compute; reflexivity|split; [vm_compute; reflexivity|]]).
  - by right.
  - split; [lia|]. by apply (command_line_demo "f" _ "f" " "); [..|repeat constructor|].
  - split; [apply (bool_decide_eq_true_1 _); vm_compute; reflexivity|]. by apply (command_line_demo "replica" _ "replica" " "); [..|repeat constructor|].
  - split; [apply (bool_decide_eq_true_1 _); vm_compute; reflexivity|]. by apply (command_line_demo "replica" _ "Replica" "  "); [..|repeat constructor|].
  - by left.
Defined.

(** A replica without a port is not rejected: the test for a missing colon compares
    2^32 - 1 with the [npos] of [size_t], and the whole line becomes the port. *)
Theorem missing_port_accepted :
  read_configuration (unlines ((λ s, text s) <$> ["f 0"; "replica node1"])) = Ret (mkConfig 1 0 [mkAddr "node1" "replica node1"] None).
Proof. vm_compute. reflexivity. Qed.
