(* ===== verification/StrongShard.v ===== *)
(** * The client of a shard of the strong store (store/strongstore/shardclient.{h,cc})

    Reads go to one replica, everything else through viewstamped replication.  As
    in the TAPIR shard client, the methods run on the application's thread, and
    what they hand to [transport->Timer(0, ...)] and the callbacks on the
    transport's. *)

From S2P Require Import Prelude Timestamp Transaction Codec Quorum VRReplica VRClient Promise Frontend StrongServer.

(** The callbacks passed to the VR client. *)
Inductive scallback := SCbGet | SCbGetTimeout | SCbPrepare | SCbCommit | SCbAbort.

(** Work for the transport's thread. *)
Inductive stask :=
| STaskGet (request_str : string) (promise : option nat)
| STaskPrepare (request_str : string) (promise : option nat)
| STaskCommit (request_str : string) (promise : option nat)
| STaskAbort (request_str : string) (promise : option nat).

(** Promises live in a heap; [None] is a null pointer. *)
Record SShardClient := mkSSC {
  ss_client : VRClient scallback;
  ss_replica : Z;
  ss_waiting : option nat;
  ss_blockingBegin : option nat;
  ss_heap : gmap nat Promise;
  ss_next : nat;
  ss_tasks : list stask
}.

Definition ss_set_client (s : SShardClient) (x : VRClient scallback) : SShardClient :=
  mkSSC x (ss_replica s) (ss_waiting s) (ss_blockingBegin s) (ss_heap s) (ss_next s) (ss_tasks s).
Definition ss_set_waiting (s : SShardClient) (x : option nat) : SShardClient :=
  mkSSC (ss_client s) (ss_replica s) x (ss_blockingBegin s) (ss_heap s) (ss_next s) (ss_tasks s).
Definition ss_set_blockingBegin (s : SShardClient) (x : option nat) : SShardClient :=
  mkSSC (ss_client s) (ss_replica s) (ss_waiting s) x (ss_heap s) (ss_next s) (ss_tasks s).
Definition ss_set_heap (s : SShardClient) (x : gmap nat Promise) : SShardClient :=
  mkSSC (ss_client s) (ss_replica s) (ss_waiting s) (ss_blockingBegin s) x (ss_next s) (ss_tasks s).
Definition ss_set_tasks (s : SShardClient) (x : list stask) : SShardClient :=
  mkSSC (ss_client s) (ss_replica s) (ss_waiting s) (ss_blockingBegin s) (ss_heap s) (ss_next s) x.
Definition ss_add_task (s : SShardClient) (t : stask) : SShardClient := ss_set_tasks s (ss_tasks s ++ [t]).

(** [new Promise(timeout)] *)
Definition ss_new_pointer (s : SShardClient) (timeout : Z) : nat * SShardClient :=
  (ss_next s,
   mkSSC (ss_client s) (ss_replica s) (ss_waiting s) (ss_blockingBegin s)
     (<[ss_next s := promise_with timeout]> (ss_heap s)) (S (ss_next s)) (ss_tasks s)).

Section shard.
Context `{IO : IterOrder} `{Codec StrongServer.Request} `{Codec StrongServer.Reply}.

(** [vr_id] is the random id of the VR client. *)
Definition new_sshardclient (mode : Mode) (config : Configuration) (vr_id client_id closestReplica : Z) :
    SShardClient :=
  mkSSC (new_vrclient vr_id)
    (match mode with
     | MODE_OCC | MODE_SPAN_OCC => if (closestReplica =? -1)%Z then client_id mod n config else closestReplica
     | _ => 0
     end) None None ∅ 0 [].

(** [None] while it blocks. *)
Definition ss_Begin (s : SShardClient) (id : Z) : option SShardClient :=
  match ss_blockingBegin s with
  | Some b =>
      p ← ss_heap s !! b;
      _ ← GetReply p;
      Some (ss_set_blockingBegin (ss_set_heap s (delete b (ss_heap s))) None)
  | None => Some s
  end.

Definition ss_Get (s : SShardClient) (id : Z) (key : string) (promise : option nat) : SShardClient :=
  ss_add_task s (STaskGet (ser (mkRequest GET id (Some (mkGet key None)) None None None)) promise).

Definition ss_Get_at (s : SShardClient) (id : Z) (key : string) (timestamp : Timestamp)
    (promise : option nat) : SShardClient :=
  ss_add_task s (STaskGet (ser (mkRequest GET id (Some (mkGet key (Some (ts_serialize timestamp))))
                             None None None)) promise).

Definition ss_Put (s : SShardClient) (id : Z) (key value : string) (promise : option nat) :
    outcome SShardClient := Panic.

(** The timestamp is not sent. *)
Definition ss_Prepare (s : SShardClient) (id : Z) (txn : Transaction) (timestamp : Timestamp)
    (promise : option nat) : SShardClient :=
  ss_add_task s (STaskPrepare (ser (mkRequest PREPARE id None
                   (Some (StrongServer.mkPrepare (txn_serialize txn) None)) None None)) promise).

Definition ss_Commit (s : SShardClient) (id : Z) (txn : Transaction) (timestamp : Z)
    (promise : option nat) : SShardClient :=
  let '(b, s) := ss_new_pointer s COMMIT_TIMEOUT in
  ss_add_task (ss_set_blockingBegin s (Some b))
    (STaskCommit (ser (mkRequest COMMIT id None None (Some timestamp) None)) promise).

Definition ss_Abort (s : SShardClient) (id : Z) (txn : Transaction) (promise : option nat) : SShardClient :=
  let '(b, s) := ss_new_pointer s ABORT_TIMEOUT in
  ss_add_task (ss_set_blockingBegin s (Some b))
    (STaskAbort (ser (mkRequest ABORT id None None None (Some (txn_serialize txn)))) promise).

(** ** The transport's thread *)

Context (up : bool).

Definition ss_run_task (s : SShardClient) : option (list (vr_client_action scallback) * SShardClient) :=
  match ss_tasks s with
  | [] => None
  | t :: ts =>
      let s := ss_set_tasks s ts in
      Some
        match t with
        | STaskGet req p =>
            let s := ss_set_waiting s p in
            let '(acts, c) := vr_InvokeUnlogged up (ss_client s) (ss_replica s) req SCbGet (Some SCbGetTimeout) in
            (acts, ss_set_client s c)
        | STaskPrepare req p =>
            let s := ss_set_waiting s p in
            let '(acts, c) := vr_Invoke up (ss_client s) req SCbPrepare None in
            (acts, ss_set_client s c)
        | STaskCommit req p =>
            let s := ss_set_waiting s p in
            let '(acts, c) := vr_Invoke up (ss_client s) req SCbCommit None in
            (acts, ss_set_client s c)
        | STaskAbort req p =>
            let s := ss_set_waiting s p in
            let '(acts, c) := vr_Invoke up (ss_client s) req SCbAbort None in
            (acts, ss_set_client s c)
        end
  end.

(** [w->Reply(...)] for what [waiting] points to, which is cleared. *)
Definition ss_answer (s : SShardClient) (reply : Promise → Promise) : SShardClient :=
  match ss_waiting s with
  | Some w => ss_set_heap (ss_set_waiting s None) (alter reply w (ss_heap s))
  | None => s
  end.

Definition ss_GetTimeout (s : SShardClient) : SShardClient := ss_answer s (λ p, Reply_r p REPLY_TIMEOUT).

Definition ss_GetCallback (s : SShardClient) (reply_str : string) : SShardClient :=
  let reply : StrongServer.Reply := parse reply_str in
  ss_answer s (λ p,
    match rp_timestamp reply with
    | Some t => Reply_rtv p (rp_status reply) (mkTS t 0) (default "" (rp_value reply))
    | None => Reply_rv p (rp_status reply) (default "" (rp_value reply))
    end).

Definition ss_PrepareCallback (s : SShardClient) (reply_str : string) : SShardClient :=
  let reply : StrongServer.Reply := parse reply_str in
  ss_answer s (λ p,
    match rp_timestamp reply with
    | Some t => Reply_rt p (rp_status reply) (mkTS t 0)
    | None => Reply_rt p (rp_status reply) ts0
    end).

(** [CommitCallback] and [AbortCallback] have the same body. *)
Definition ss_EndCallback (s : SShardClient) (reply_str : string) : outcome SShardClient :=
  let reply : StrongServer.Reply := parse reply_str in
  ASSERT! (rp_status reply =? REPLY_OK)%Z;
  match ss_blockingBegin s with
  | Some b =>
      Ret (ss_answer (ss_set_heap s (alter (λ p, Reply_r p 0) b (ss_heap s)))
             (λ p, Reply_r p (rp_status reply)))
  | None => Panic
  end.

(** The callbacks among the VR client's actions; the messages are left. *)
Fixpoint ss_run_callbacks (s : SShardClient) (acts : list (vr_client_action scallback)) :
    outcome (list (vr_client_action scallback) * SShardClient) :=
  match acts with
  | [] => Ret ([], s)
  | a :: acts =>
      match a with
      | VContinue _ SCbGet _ reply => ss_run_callbacks (ss_GetCallback s reply) acts
      | VContinue _ SCbPrepare _ reply => ss_run_callbacks (ss_PrepareCallback s reply) acts
      | VContinue _ SCbCommit _ reply | VContinue _ SCbAbort _ reply =>
          s ← ss_EndCallback s reply; ss_run_callbacks s acts
      | VContinue _ SCbGetTimeout _ _ | VTimeout _ SCbGetTimeout _ => ss_run_callbacks (ss_GetTimeout s) acts
      | VTimeout _ _ _ => ss_run_callbacks s acts
      | _ => r ← ss_run_callbacks s acts; Ret (a :: r.1, r.2)
      end
  end.

Definition ss_receive (s : SShardClient) (m : vr_message) :
    outcome (list (vr_client_action scallback) * SShardClient) :=
  r ← vr_ReceiveMessage (ss_client s) m;
  ss_run_callbacks (ss_set_client s r.2) r.1.

End shard.
