(* ===== verification/StrongClient.v ===== *)
(** * The client library of the strong store (store/strongstore/client.{h,cc})

    Two-phase commit over the shards, with the commit timestamp from the timestamp
    server or, in the Spanner modes, from the clock and the shards' prepare
    timestamps; in those modes the client waits until the timestamp is past. *)

From S2P Require Import Prelude Timestamp Transaction TrueTime Promise Frontend StrongServer TimeServer.

(** Microseconds from [t1] to [t2]. *)
Notation elapsed t1 t2 := ((tv_sec t2 - tv_sec t1) * 1000000 + (tv_usec t2 - tv_usec t1)) (only parsing).

Section client.
Context {C : Type} `{TxnClient C}.

Record SClient := mkSClient {
  s_client_id : Z;
  s_t_id : Z;
  s_nshards : Z;
  s_participants : gset Z;
  s_bclient : gmap Z (BufferClient C);
  s_mode : Mode;
  s_timeServer : TrueTime;
  commit_sleep : Z
}.

Definition s_set_bclients (c : SClient) (m : gmap Z (BufferClient C)) : SClient :=
  mkSClient (s_client_id c) (s_t_id c) (s_nshards c) (s_participants c) m (s_mode c) (s_timeServer c)
    (commit_sleep c).
Definition s_set_sleep (c : SClient) (x : Z) : SClient :=
  mkSClient (s_client_id c) (s_t_id c) (s_nshards c) (s_participants c) (s_bclient c) (s_mode c)
    (s_timeServer c) x.
Definition s_add_participant (c : SClient) (i : Z) : SClient :=
  mkSClient (s_client_id c) (s_t_id c) (s_nshards c) ({[i]} ∪ s_participants c) (s_bclient c) (s_mode c)
    (s_timeServer c) (commit_sleep c).

(** The constructor, given the random client id and the clients of the shards. *)
Definition new_strong_client (mode : Mode) (id : Z) (shards : list C) (ts : TrueTime) : SClient :=
  mkSClient id (id / 10000 * 10000) (Z.of_nat (length shards)) ∅
    (list_to_map (imap (λ i s, (Z.of_nat i, mkBC s empty_txn 0)) shards)) mode ts 0.

(** [for (int i = 0; i < nshards; i++) bclient[i]->Begin(t_id)] *)
Fixpoint begin_all (m : gmap Z (BufferClient C)) (id : Z) (l : list Z) : blocking (gmap Z (BufferClient C)) :=
  match l with
  | [] => Done m
  | i :: l => b ← shard_client m i; b ← bc_Begin b id; begin_all (<[i := b]> m) id l
  end.

Definition sc_Begin (c : SClient) : blocking SClient :=
  let t_id := u64 (s_t_id c + 1) in
  m ← begin_all (s_bclient c) t_id (seqZ 0 (s_nshards c));
  Done (mkSClient (s_client_id c) t_id (s_nshards c) ∅ m (s_mode c) (s_timeServer c) (-1)).

(** Returns the status and the value. *)
Definition sc_Get (c : SClient) (key : string) : blocking ((Z * string) * SClient) :=
  let i := key_to_shard key (s_nshards c) in
  let c := s_add_participant c i in
  b ← shard_client (s_bclient c) i;
  r ← bc_Get b key (promise_with GET_TIMEOUT);
  match r.1 ≫= GetValue, r.1 ≫= GetReply with
  | Some v, Some s => Done ((s, v), s_set_bclients c (<[i := r.2]> (s_bclient c)))
  | _, _ => Blocks
  end.

Definition sc_Put (c : SClient) (key value : string) : blocking (Z * SClient) :=
  let i := key_to_shard key (s_nshards c) in
  let c := s_add_participant c i in
  b ← shard_client (s_bclient c) i;
  let '(p, b) := bc_Put b key value (promise_with PUT_TIMEOUT) in
  match GetReply p with Some s => Done (s, s_set_bclients c (<[i := b]> (s_bclient c))) | None => Blocks end.

(** The loop over the promises: the status and the greatest timestamp. *)
Fixpoint collect_prepares (status ts : Z) (promises : list (option Promise)) : blocking (Z * Z) :=
  match promises with
  | [] => Done (status, ts)
  | pr :: promises =>
      match pr ≫= GetReply, pr ≫= GetTimestamp with
      | Some r, Some t =>
          let status := if negb (r =? REPLY_OK)%Z then if negb (status =? REPLY_FAIL)%Z then r else status
                        else status in
          let ts := if (ts <? getTimestamp t)%Z then getTimestamp t else ts in
          collect_prepares status ts promises
      | _, _ => Blocks
      end
  end.

(** [tss] is the reply of the timestamp server, if one comes. *)
Definition sc_Prepare (c : SClient) (ts : Z) (tss : option string) : blocking (Z * Z * SClient) :=
  r ← send_prepares (s_bclient c) ts0 (oset_iter (s_participants c));
  ts ← (if decide (s_mode c = MODE_OCC) then
          match tss with
          | Some reply => match stol reply with Some v => Done (u64 v) | None => Crash end
          | None => Blocks
          end
        else Done ts);
  x ← collect_prepares REPLY_OK ts r.1;
  Done (x.1, x.2, s_set_bclients c r.2).

(** The loop of [Commit], with [n] attempts left. *)
Fixpoint sc_prepare_loop (n : nat) (tss : nat → option string) (status ts : Z) (c : SClient) :
    blocking (Z * Z * SClient) :=
  match n with
  | O => Done (status, ts, c)
  | S n =>
      r ← sc_Prepare c ts (tss 0%nat);
      let '(status, ts, c) := r in
      if (status =? REPLY_OK)%Z || (status =? REPLY_FAIL)%Z then Done (status, ts, c)
      else sc_prepare_loop n (λ i, tss (S i)) status ts c
  end.

(** The commit timestamp and how long to wait, in microseconds. *)
Definition commit_timestamp (now err ts : Z) : Z * Z :=
  if (ts <? now)%Z then (now, err)
  else
    let diff := u64 (u64 (u64 (Z.shiftr ts 32 - Z.shiftr now 32) * 1000000) +
                     u64 (Z.land ts (Z.ones 32) - Z.land now (Z.ones 32))) in
    (ts, u64 (err + diff)).

(** The busy wait: [t2] are the readings of the clock, of which [fuel] are made.
    Returns the index of the last one. *)
Fixpoint wait_loop (fuel : nat) (t1 : timeval) (t2 : nat → timeval) (err : Z) : option nat :=
  match fuel with
  | O => None
  | S fuel =>
      if (i64 err <? elapsed t1 (t2 0%nat))%Z then Some 0%nat
      else S <$> wait_loop fuel t1 (λ i, t2 (S i)) err
  end.

(** What [Commit] sees of the world: the replies of the timestamp server, the
    clock before and at the reading of TrueTime, and during the wait. *)
Record commit_env := mkEnv {
  env_tss : nat → option string;
  env_t1 : timeval;
  env_now : timeval;
  env_t2 : nat → timeval;
  env_fuel : nat
}.

Definition sc_Abort (c : SClient) : blocking SClient :=
  m ← at_participants bc_Abort (s_bclient c) (oset_iter (s_participants c)); Done (s_set_bclients c m).

(** The commit timestamp from that of the prepares; in the Spanner modes also what
    is stored in [commit_sleep]. *)
Definition commit_wait (mode : Mode) (timeServer : TrueTime) (env : commit_env) (ts : Z) :
    blocking (Z * option Z) :=
  if spanner mode then
    let '(now, err) := GetTimeAndError timeServer (env_now env) in
    let '(ts, err) := commit_timestamp now err ts in
    match wait_loop (env_fuel env) (env_t1 env) (env_t2 env) err with
    | Some _ => Done (ts, Some (i32 err))
    | None => Blocks
    end
  else Done (ts, None).

Definition sc_Commit (c : SClient) (env : commit_env) : blocking (bool * SClient) :=
  r ← sc_prepare_loop COMMIT_RETRIES (env_tss env) REPLY_OK 0 c;
  let '(status, ts, c) := r in
  if (status =? REPLY_OK)%Z then
    r ← commit_wait (s_mode c) (s_timeServer c) env ts;
    let '(ts, sleep) := r in
    let c := match sleep with Some x => s_set_sleep c x | None => c end in
    m ← at_participants (λ b, bc_Commit b ts) (s_bclient c) (oset_iter (s_participants c));
    Done (true, s_set_bclients c m)
  else
    c ← sc_Abort c;
    Done (false, c).

End client.
Arguments SClient C : clear implicits.
