(* ===== verification/StrongClientProps.v ===== *)
(** * Properties of the client library of the strong store

    Two-phase commit, the choice of the commit timestamp and the commit wait, for
    every implementation of the shard clients. *)

From S2P Require Import Prelude Timestamp Transaction TrueTime Promise Frontend FrontendProps StrongServer TimeServer StrongClient.

(** ** Votes *)

Definition vote_is (r : Z) (v : option Promise) : Prop := v ≫= GetReply = Some r.

#[global] Instance vote_is_dec r v : Decision (vote_is r v).
Proof. unfold vote_is. apply _. Defined.

(** The timestamp of a vote. *)
Definition vote_time (v : option Promise) : option Z := getTimestamp <$> (v ≫= GetTimestamp).

Lemma collect_prepares_spec st ts l st' ts' :
  collect_prepares st ts l = Done (st', ts') →
  ts ≤ ts' ∧ (∀ v t, v ∈ l → vote_time v = Some t → t ≤ ts') ∧
  (st' = REPLY_OK ↔ st = REPLY_OK ∧ Forall (vote_is REPLY_OK) l) ∧
  (st' = REPLY_FAIL ↔ st = REPLY_FAIL ∨ Exists (vote_is REPLY_FAIL) l).
Proof.
  revert st ts. induction l as [|v l IH]; intros st ts.
  { intros [= <- <-]. split_and!; [done|set_solver| |]; rewrite ?Forall_nil, ?Exists_nil; naive_solver. }
  simpl. destruct (v ≫= GetReply) as [r|] eqn:Hr; [|done].
  destruct (v ≫= GetTimestamp) as [t|] eqn:Ht; [|done].
  set (st1 := if negb _ then _ else _). set (ts1 := if (_ <? _)%Z then _ else _).
  intros (Hle & Hall & Hok & Hf)%IH.
  assert (ts ≤ ts1 ∧ getTimestamp t ≤ ts1) as [Hts1 Hts2].
  { unfold ts1. destruct (Z.ltb_spec ts (getTimestamp t)); lia. }
  split_and!; [lia| | |].
  - intros w u [->|Hw]%elem_of_cons Hu; [|by eapply Hall]. unfold vote_time in Hu. rewrite Ht in Hu.
    injection Hu as <-. lia.
  - rewrite Hok, Forall_cons. unfold vote_is at 2. rewrite Hr. unfold st1.
    destruct (Z.eqb_spec r REPLY_OK) as [->|]; [naive_solver|]. simpl.
    destruct (Z.eqb_spec st REPLY_FAIL) as [->|]; simpl; naive_solver.
  - rewrite Hf, Exists_cons. unfold vote_is at 2. rewrite Hr. unfold st1.
    destruct (Z.eqb_spec r REPLY_OK) as [->|]; simpl; [naive_solver|].
    destruct (Z.eqb_spec st REPLY_FAIL) as [->|]; simpl; naive_solver.
Qed.

(** ** Rounds *)

Section commit.
Context {C : Type} `{TxnClient C}.
Implicit Types c : SClient (Traced C).

(** [c'] is [c] after the calls [f] to the shard clients. *)
Record strong_called (f : Z → Z → Transaction → list call) c c' : Prop := {
  sd_participants : s_participants c' = s_participants c;
  sd_mode : s_mode c' = s_mode c;
  sd_time : s_timeServer c' = s_timeServer c;
  sd_calls : called f (s_bclient c) (s_bclient c')
}.

Lemma strong_called_trans f g c1 c2 c3 :
  strong_called f c1 c2 → strong_called g c2 c3 → strong_called (λ p id t, f p id t ++ g p id t) c1 c3.
Proof. intros [] []. split; [congruence..|]. by eapply called_trans. Qed.

Lemma strong_called_ext f g c c' :
  (∀ p id t, f p id t = g p id t) → strong_called f c c' → strong_called g c c'.
Proof. intros Hfg []. split; [done..|]. by eapply called_ext. Qed.

(** The calls of the rounds of prepares with the given votes. *)
Definition prepare_calls (X : gset Z) (rs : list (Z → option Promise)) (p id : Z) (t : Transaction) : list call :=
  if decide (p ∈ X) then (λ votes : Z → option Promise, CallPrepare id t ts0 (votes p)) <$> rs else [].

(** The outcome of a round: the status and a timestamp not below any vote's. *)
Definition round_outcome (X : gset Z) (votes : Z → option Promise) (st ts : Z) : Prop :=
  (st = REPLY_OK ↔ ∀ p, p ∈ X → vote_is REPLY_OK (votes p)) ∧
  (st = REPLY_FAIL ↔ ∃ p, p ∈ X ∧ vote_is REPLY_FAIL (votes p)) ∧
  (∀ p t, p ∈ X → vote_time (votes p) = Some t → t ≤ ts).

Lemma sc_Prepare_called c ts tss st ts' c' :
  sc_Prepare c ts tss = Done (st, ts', c') →
  ∃ votes, strong_called (prepare_calls (s_participants c) [votes]) c c' ∧
    round_outcome (s_participants c) votes st ts'.
Proof.
  unfold sc_Prepare. intros Hc. apply bind_Done in Hc as ([l m] & Hs & Hc).
  apply bind_Done in Hc as (ts1 & _ & Hc). apply bind_Done in Hc as ([st2 ts2] & Hv & [= <- <- <-]).
  apply send_prepares_called in Hs as (votes & -> & Hcd); [|apply oset_iter_NoDup]. simpl in Hv.
  exists votes. split.
  - split; [done..|]. simpl. eapply called_ext; [|exact Hcd]. intros p id t. unfold each, prepare_calls.
    destruct (decide (p ∈ s_participants c)); [rewrite decide_True|rewrite decide_False];
      by rewrite ?oset_iter_elem.
  - apply collect_prepares_spec in Hv as (_ & Hall & Hok & Hf). split_and!.
    + rewrite Hok, Forall_fmap, Forall_forall. setoid_rewrite oset_iter_elem. naive_solver.
    + rewrite Hf, Exists_fmap, Exists_exists. setoid_rewrite oset_iter_elem. naive_solver.
    + intros p t Hp. apply Hall. apply list_elem_of_fmap_2. by apply oset_iter_elem.
Qed.

(** The rounds of a commit: all but the last have neither a failure nor only
    agreement; the last one gives the status and the timestamp. *)
Record strong_rounds (X : gset Z) (rs : list (Z → option Promise)) (st ts : Z) : Prop := {
  sr_again i votes : rs !! i = Some votes → (S i < length rs)%nat →
    (∃ p, p ∈ X ∧ ¬ vote_is REPLY_OK (votes p)) ∧ ∀ p, p ∈ X → ¬ vote_is REPLY_FAIL (votes p);
  sr_last votes : last rs = Some votes → round_outcome X votes st ts
}.

Lemma strong_rounds_cons X votes rs st1 ts1 st ts :
  round_outcome X votes st1 ts1 → st1 ≠ REPLY_OK → st1 ≠ REPLY_FAIL → rs ≠ [] →
  strong_rounds X rs st ts → strong_rounds X (votes :: rs) st ts.
Proof.
  intros (Hok & Hf & _) Hn1 Hn2 Hrs [Hag Hl]. split.
  - intros [|i] v Hi Hlen; [|apply (Hag i); [done|simpl in Hlen; lia]]. injection Hi as <-. split.
    + destruct (decide (set_Exists (λ p, ¬ vote_is REPLY_OK (votes p)) X)) as [(p & ? & ?)|Hno]; [eauto|].
      destruct Hn1. apply Hok. intros p Hp. destruct (decide (vote_is REPLY_OK (votes p))); [done|].
      destruct Hno. by exists p.
    + intros p Hp Hv. apply Hn2, Hf. eauto.
  - destruct rs as [|v rs]; [done|]. exact Hl.
Qed.

Lemma sc_prepare_loop_called n tss st0 ts0 c st ts c' :
  sc_prepare_loop (S n) tss st0 ts0 c = Done (st, ts, c') →
  ∃ rs, (1 ≤ length rs ≤ S n)%nat ∧ strong_called (prepare_calls (s_participants c) rs) c c' ∧
    strong_rounds (s_participants c) rs st ts.
Proof.
  assert (∀ n tss st0 ts0 c, sc_prepare_loop (S n) tss st0 ts0 c =
    r ← sc_Prepare c ts0 (tss 0%nat);
    let '(st, ts, c) := r in
    if (st =? REPLY_OK)%Z || (st =? REPLY_FAIL)%Z then Done (st, ts, c)
    else sc_prepare_loop n (λ i, tss (S i)) st ts c) as Heq by done.
  assert (∀ X votes st ts, round_outcome X votes st ts → strong_rounds X [votes] st ts) as Hone.
  { intros X votes s t Ho. split; [simpl; lia|]. intros v [= <-]. exact Ho. }
  revert tss st0 ts0 c. induction n as [|n IH]; intros tss st0 t0 c Hc; rewrite Heq in Hc;
    apply bind_Done in Hc as ([[st1 ts1] c1] & (votes & Hcd & Ho)%sc_Prepare_called & Hc).
  - assert (st1 = st ∧ ts1 = ts ∧ c1 = c') as (-> & -> & ->) by (destruct ((st1 =? REPLY_OK)%Z || (st1 =? REPLY_FAIL)%Z); by injection Hc).
    exists [votes]. split_and!; [simpl; lia..|done|by apply Hone].
  - destruct (Z.eqb_spec st1 REPLY_OK) as [->|Hn1].
    { injection Hc as <- <- <-. exists [votes]. split_and!; [simpl; lia..|done|by apply Hone]. }
    destruct (Z.eqb_spec st1 REPLY_FAIL) as [->|Hn2].
    { injection Hc as <- <- <-. exists [votes]. split_and!; [simpl; lia..|done|by apply Hone]. }
    apply IH in Hc as (rs & Hlen & Hcd' & Hrs). rewrite (sd_participants _ _ _ Hcd) in *.
    exists (votes :: rs). split_and!; [simpl; lia..| |].
    + eapply strong_called_ext, strong_called_trans; [|exact Hcd|exact Hcd'].
      intros p id t. unfold prepare_calls. by case_decide.
    + eapply strong_rounds_cons; [done..| |done]. intros ->. simpl in Hlen. lia.
Qed.

Lemma at_end f x c m :
  (∀ b : BufferClient (Traced C), bc_txn (f b) = bc_txn b ∧ bc_tid (f b) = bc_tid b ∧
     trace (f b) = trace b ++ [x (bc_tid b) (bc_txn b)]) →
  at_participants f (s_bclient c) (oset_iter (s_participants c)) = Done m →
  strong_called (λ p id t, if decide (p ∈ s_participants c) then [x id t] else []) c (s_set_bclients c m).
Proof.
  intros Hf Hm. eapply at_participants_called in Hm; [|exact Hf|apply oset_iter_NoDup].
  split; [done..|]. eapply called_ext; [|exact Hm]. intros p id t. unfold each.
  destruct (decide (p ∈ s_participants c)); [rewrite decide_True|rewrite decide_False];
    by rewrite ?oset_iter_elem.
Qed.

End commit.

(** ** The commit timestamp *)

(** A timestamp with microseconds in range. *)
Definition normal_time (t : Z) : Prop := 0 ≤ t < 2 ^ 64 ∧ t mod 2 ^ 32 < 1000000.

Lemma time_of_mono a b : normal_time a → normal_time b → a ≤ b → time_of a ≤ time_of b.
Proof.
  intros [Ha Ha'] [Hb Hb'] Hle. unfold time_of. rewrite !Z.shiftr_div_pow2 by lia.
  pose proof (Z.div_mod a (2 ^ 32)). pose proof (Z.div_mod b (2 ^ 32)).
  pose proof (Z.mod_pos_bound a (2 ^ 32)). pose proof (Z.mod_pos_bound b (2 ^ 32)).
  pose proof (Z.div_le_mono a b (2 ^ 32)). nia.
Qed.

Lemma commit_timestamp_spec now err ts ts' err' :
  commit_timestamp now err ts = (ts', err') →
  normal_time now → normal_time ts → 0 ≤ err → err + (time_of ts' - time_of now) < 2 ^ 63 →
  ts ≤ ts' ∧ now ≤ ts' ∧ 0 ≤ err' < 2 ^ 63 ∧ err' = err + (time_of ts' - time_of now).
Proof.
  unfold commit_timestamp. intros Hc Hnow Hts Herr Hlt.
  destruct (Z.ltb_spec ts now) as [Hl|Hl]; injection Hc as <- <-; [lia|].
  assert (time_of now ≤ time_of ts) as Hm by (by apply time_of_mono).
  assert (u64 (u64 (u64 (Z.shiftr ts 32 - Z.shiftr now 32) * 1000000) +
               u64 (Z.land ts (Z.ones 32) - Z.land now (Z.ones 32))) = time_of ts - time_of now) as ->.
  { rewrite !Z.land_ones by lia. unfold u64.
    rewrite <-Zplus_mod, <-Zplus_mod_idemp_l, Zmult_mod_idemp_l, Zplus_mod_idemp_l.
    rewrite Z.mod_small; unfold time_of in *; lia. }
  rewrite u64_id by (unfold is_u64; lia). lia.
Qed.

Lemma wait_loop_spec fuel t1 t2 err i :
  wait_loop fuel t1 t2 err = Some i → i64 err < elapsed t1 (t2 i).
Proof.
  revert t2 i. induction fuel as [|fuel IH]; intros t2 i; simpl; [done|].
  destruct (Z.ltb_spec (i64 err) (elapsed t1 (t2 0%nat))); [by intros [= <-]|].
  intros (j & Hj & ->)%fmap_Some. by apply (IH (λ i, t2 (S i))).
Qed.

Lemma commit_wait_le mode tt env ts ts' x : commit_wait mode tt env ts = Done (ts', x) → ts ≤ ts'.
Proof.
  unfold commit_wait. destruct (spanner mode); [|intros [= <- <-]; lia]. simpl.
  unfold commit_timestamp. destruct (Z.ltb_spec ts (GetTime tt (env_now env))); simpl;
    (destruct (wait_loop _ _ _ _); [|done]); intros [= <- <-]; lia.
Qed.

(** C14. Two-phase commit of the strong store.  When [Commit] returns, the
    participants, and no other shard, were called for one to five rounds of
    prepares and then all for the same end of the transaction: a commit at one
    timestamp if it returned true, an abort otherwise.  It returned true exactly
    if all voted OK in the last round; no earlier round had a failure.  The commit
    timestamp comes from the commit wait and is not below any timestamp at which a
    shard prepared. *)
Theorem strong_commit {C} `{TxnClient C} (c : SClient (Traced C)) env b c' :
  sc_Commit c env = Done (b, c') →
  ∃ (rs : list (Z → option Promise)) (ts : Z), (1 ≤ length rs ≤ COMMIT_RETRIES)%nat ∧
    strong_called (λ p id t, prepare_calls (s_participants c) rs p id t ++
        if decide (p ∈ s_participants c) then [if b then CallCommit id t ts else CallAbort id empty_txn] else [])
      c c' ∧
    (∀ i votes, rs !! i = Some votes → (S i < length rs)%nat →
       ∀ p, p ∈ s_participants c → ¬ vote_is REPLY_FAIL (votes p)) ∧
    (∀ votes, last rs = Some votes →
       (b = true ↔ ∀ p, p ∈ s_participants c → vote_is REPLY_OK (votes p)) ∧
       (b = true → ∀ p t, p ∈ s_participants c → vote_time (votes p) = Some t → t ≤ ts)) ∧
    (b = true → ∃ ts1 x, commit_wait (s_mode c) (s_timeServer c) env ts1 = Done (ts, x)).
Proof.
  unfold sc_Commit. intros Hc. apply bind_Done in Hc as ([[st ts1] c1] & Hl & Hc).
  apply sc_prepare_loop_called in Hl as (rs & Hlen & Hcd & [Hag Hlast]). exists rs.
  destruct (Z.eqb_spec st REPLY_OK) as [->|Hst].
  - apply bind_Done in Hc as ([ts x] & Hw & Hc). apply bind_Done in Hc as (m & Hm & [= <- <-]).
    exists ts. rewrite (sd_mode _ _ _ Hcd), (sd_time _ _ _ Hcd) in Hw. split; [exact Hlen|].
    split_and!; [| | |intros _; by exists ts1, x].
    + eapply strong_called_ext, strong_called_trans; [|exact Hcd|].
      2: { destruct x; (apply (at_end _ (λ id t, CallCommit id t ts)) in Hm; [|by intros]); destruct Hm; split;
           simpl in *; done. }
      intros p id t. simpl. f_equal. destruct x; simpl; by rewrite (sd_participants _ _ _ Hcd).
    + intros i votes Hi Hlt. by apply (Hag i).
    + intros votes Hv. destruct (Hlast votes Hv) as (Hok & _ & Hmax). split; [naive_solver|].
      intros _ p t Hp Ht. pose proof (Hmax p t Hp Ht). apply commit_wait_le in Hw. lia.
  - unfold sc_Abort in Hc. apply bind_Done in Hc as (c2 & Hc & [= <- <-]).
    apply bind_Done in Hc as (m & Hm & [= <-]). exists 0. split; [exact Hlen|]. split_and!; [| | |done].
    + eapply strong_called_ext, strong_called_trans; [|exact Hcd|].
      2: { apply (at_end _ (λ id t, CallAbort id empty_txn)) in Hm; [exact Hm|by intros]. }
      intros p id t. simpl. f_equal. by rewrite (sd_participants _ _ _ Hcd).
    + intros i votes Hi Hlt. by apply (Hag i).
    + intros votes Hv. destruct (Hlast votes Hv) as (Hok & _). split; [naive_solver|done].
Qed.


(** ** Examples *)

(** A shard that prepares at a time and answers from a script. *)
Record Stamped := mkStamped { stamps : list (Z * Z) }.

#[global] Instance stamped_client : TxnClient Stamped := {
  tc_Begin x _ := Done x;
  tc_Get x _ _ p := (Some (Reply_rtv p REPLY_OK (mkTS 7 0) "old"), x);
  tc_Get_at x _ _ t p := (Some (Reply_rtv p REPLY_OK t "old"), x);
  tc_Put _ _ _ _ _ := Crash;
  tc_Prepare x _ _ _ p :=
    match stamps x with
    | (v, t) :: l => (Some (Reply_rt p v (mkTS t 0)), mkStamped l)
    | [] => (None, x)
    end;
  tc_Commit x _ _ _ := x;
  tc_Abort x _ _ := x
}.

Definition strong_demo : SClient (Traced Stamped) :=
  mkSClient 1 1 2 {[0; 1]}
    {[0 := mkBC (mkTraced [] (mkStamped [(REPLY_TIMEOUT, 3); (REPLY_OK, 100 * 2 ^ 32 + 5)])) empty_txn 1;
      1 := mkBC (mkTraced [] (mkStamped [(REPLY_OK, 4); (REPLY_OK, 99 * 2 ^ 32)])) empty_txn 1]}
    MODE_SPAN_OCC (mkTT 10 0) (-1).

(** The clock is at 99.999990 seconds, 15 microseconds behind the first shard. *)
Definition strong_env : commit_env :=
  mkEnv (λ _, None) (mkTV 99 999990) (mkTV 99 999990) (λ i, mkTV 100 (10 * Z.of_nat i)) 10.

Lemma strong_commit_witness :
  ∃ rs : list (Z → option Promise), (1 ≤ length rs ≤ COMMIT_RETRIES)%nat ∧
    ∀ votes, last rs = Some votes → ∀ p, p ∈ s_participants strong_demo → vote_is REPLY_OK (votes p).
Proof.
  destruct (strong_commit strong_demo strong_env true
    match sc_Commit strong_demo strong_env with Done (_, c) => c | _ => strong_demo end)
    as (rs & ts & Hlen & _ & _ & Hb & _); [vm_compute; reflexivity|]. exists rs. split; [exact Hlen|].
  intros votes Hv. by apply (Hb votes Hv).
Defined.

