(* ===== verification/WeakStore.v ===== *)
(** * The weak store (store/weakstore/{store,server,shardclient,client}.{h,cc}, weak-proto.proto)

    A replicated key-value store without transactions: a put goes to all replicas
    of the shard of its key, a get to one of them.  The methods run on the
    application's thread; what they hand to [transport->Timer(0, ...)] and the
    callbacks run on the transport's. *)

From S2P Require Import Prelude Timestamp Transaction KVStore TrueTime Quorum Promise.

(** ** Messages *)

Inductive WeakRequest :=
| GetMessage (clientid : Z) (key : string)
| PutMessage (clientid : Z) (key value : string).

Inductive WeakReply :=
| GetReplyMessage (status : Z) (value : string)
| PutReplyMessage (status : Z).

(** ** The store and its server *)

(** The status, and the value if the out-parameter is assigned. *)
Definition weak_Get (store : KVStore) (id : Z) (key : string) : Z * option string :=
  match kv_get store key with
  | Some val => (REPLY_OK, Some val)
  | None => (REPLY_FAIL, None)
  end.

Definition weak_Put (store : KVStore) (id : Z) (key value : string) : Z * KVStore := (REPLY_OK, kv_put store key value).

Definition weak_Load (store : KVStore) (key value : string) : KVStore := kv_put store key value.

(** The loop of the server's [main] over what the reads of the key file give. *)
Definition weak_load_keys (store : KVStore) (lines : list string) : KVStore := foldl (λ store key, weak_Load store key key) store lines.

Definition HandleGet (store : KVStore) (clientid : Z) (key : string) : WeakReply :=
  let '(status, value) := weak_Get store clientid key in
  GetReplyMessage status (default "" value).

Definition HandlePut (store : KVStore) (clientid : Z) (key value : string) : WeakReply * KVStore :=
  let '(status, store) := weak_Put store clientid key value in
  (PutReplyMessage status, store).

Definition HandleMessage (store : KVStore) (msg : WeakRequest) : WeakReply * KVStore :=
  match msg with
  | GetMessage clientid key => (HandleGet store clientid key, store)
  | PutMessage clientid key value => HandlePut store clientid key value
  end.

(** ** The client of a shard *)

(** Work for the transport's thread; a get keeps a pointer to its promise. *)
Inductive weak_task :=
| SendGet (msg : WeakRequest) (promise : nat)
| SendPut (msg : WeakRequest).

(** Promises are local variables of the application; a pointer is into [stack].
    The timer has a timeout while it runs. *)
Record WeakClient := mkWC {
  wc_config : Configuration;
  client_id : Z;
  wc_replica : Z;
  wc_timeout : option Z;
  totalReplies : Z;
  wc_waiting : option nat;
  stack : gmap nat Promise;
  wc_tasks : list weak_task
}.

Definition wc_set (c : WeakClient) (t : option Z) (r : Z) (w : option nat) (st : gmap nat Promise) (ts : list weak_task) : WeakClient :=
  mkWC (wc_config c) (client_id c) (wc_replica c) t r w st ts.

Definition new_weak_client (config : Configuration) (client_id closestReplica : Z) : WeakClient :=
  mkWC config client_id (if (closestReplica =? -1)%Z then client_id mod n config else closestReplica) None 0 None ∅ [].

Definition ws_Get (c : WeakClient) (key : string) (promise : nat) : outcome WeakClient :=
  ASSERT! bool_decide (wc_waiting c = None);
  Ret (wc_set c (wc_timeout c) (totalReplies c) (Some promise) (stack c) (wc_tasks c ++ [SendGet (GetMessage (client_id c) key) promise])).

Definition ws_Put (c : WeakClient) (key value : string) (promise : nat) : outcome WeakClient :=
  ASSERT! bool_decide (wc_waiting c = None);
  Ret (wc_set c (wc_timeout c) 0 (Some promise) (stack c) (wc_tasks c ++ [SendPut (PutMessage (client_id c) key value)])).

(** [w->Reply(...)] on the waiting promise, if there is one. *)
Definition reply_waiting (c : WeakClient) (reply : Promise → Promise) : outcome WeakClient :=
  match wc_waiting c with
  | None => Ret c
  | Some w =>
      match stack c !! w with
      | None => Panic
      | Some p => Ret (wc_set c (wc_timeout c) (totalReplies c) None (<[w := reply p]> (stack c)) (wc_tasks c))
      end
  end.

(** The timer is started with the timeout of promise [p], if a promise waits. *)
Definition start_timer (c : WeakClient) (p : nat) : outcome WeakClient :=
  match wc_waiting c with
  | None => Ret c
  | Some _ =>
      match stack c !! p with
      | None => Panic
      | Some promise => Ret (wc_set c (Some (GetTimeout promise)) (totalReplies c) (wc_waiting c) (stack c) (wc_tasks c))
      end
  end.

(** The first piece of work; [ok] says whether the transport sent the messages
    and [reached] to which replicas if not.  The messages, with their replica. *)
Definition run_weak_task (ok : bool) (reached : list Z) (c : WeakClient) : outcome (list (Z * WeakRequest) * WeakClient) :=
  match wc_tasks c with
  | [] => Ret ([], c)
  | t :: ts =>
      let c := wc_set c (wc_timeout c) (totalReplies c) (wc_waiting c) (stack c) ts in
      let '(msg, to) := match t with
                        | SendGet msg _ => (msg, [wc_replica c])
                        | SendPut msg => (msg, seqZ 0 (n (wc_config c)))
                        end in
      let sent := (λ r, (r, msg)) <$> (if ok then to else filter (λ r, r ∈ reached) to) in
      c ← (if ok then
             match t with
             | SendGet _ promise => start_timer c promise
             | SendPut _ => match wc_waiting c with Some w => start_timer c w | None => Ret c end
             end
           else reply_waiting c (λ p, Reply_r p REPLY_NETWORK_FAILURE));
      Ret (sent, c)
  end.

Definition RequestTimedOut (c : WeakClient) : outcome WeakClient :=
  reply_waiting (wc_set c None (totalReplies c) (wc_waiting c) (stack c) (wc_tasks c)) (λ p, Reply_r p REPLY_TIMEOUT).

(** The timer is stopped where a promise waits. *)
Definition stop_timer (c : WeakClient) : WeakClient :=
  match wc_waiting c with
  | None => c
  | Some _ => wc_set c None (totalReplies c) (wc_waiting c) (stack c) (wc_tasks c)
  end.

Definition weak_ReceiveMessage (c : WeakClient) (msg : WeakReply) : outcome WeakClient :=
  match msg with
  | GetReplyMessage status value => reply_waiting (stop_timer c) (λ p, Reply_rv p status value)
  | PutReplyMessage _ =>
      let c := wc_set c (wc_timeout c) (totalReplies c + 1) (wc_waiting c) (stack c) (wc_tasks c) in
      if (n (wc_config c) <=? totalReplies c)%Z then reply_waiting (stop_timer c) (λ p, Reply_r p REPLY_OK) else Ret c
  end.

(** ** The client *)

(** The two halves of [Client::Get] and [Client::Put] at the client of the shard
    of the key: the call, and the return once the promise is answered ([None]
    while it blocks). *)
Definition Get_begin (c : WeakClient) (key : string) (p : nat) : outcome WeakClient :=
  ws_Get (wc_set c (wc_timeout c) (totalReplies c) (wc_waiting c) (<[p := new_promise]> (stack c)) (wc_tasks c)) key p.

Definition Put_begin (c : WeakClient) (key value : string) (p : nat) : outcome WeakClient :=
  ws_Put (wc_set c (wc_timeout c) (totalReplies c) (wc_waiting c) (<[p := new_promise]> (stack c)) (wc_tasks c)) key value p.

Definition pop_promise (c : WeakClient) (p : nat) : WeakClient :=
  wc_set c (wc_timeout c) (totalReplies c) (wc_waiting c) (delete p (stack c)) (wc_tasks c).

Definition Get_end (c : WeakClient) (p : nat) : option (Z * string * WeakClient) :=
  promise ← stack c !! p;
  value ← GetValue promise;
  reply ← GetReply promise;
  Some (reply, value, pop_promise c p).

Definition Put_end (c : WeakClient) (p : nat) : option (Z * WeakClient) :=
  promise ← stack c !! p;
  reply ← GetReply promise;
  Some (reply, pop_promise c p).
