(* ===== verification/WeakStoreProps.v ===== *)
(** * What the weak store guarantees

    A client with the replicas of its shards on a network.  Where nothing is lost,
    duplicated or timed out, the operations of the client have the results of a
    plain map; after a timeout the replies to an old put complete a new one. *)

From S2P Require Import Prelude Timestamp Transaction KVStore TrueTime Quorum Promise WeakStore.

(** ** The system *)

(** A shard: the client's part, the replicas, and the messages on the network. *)
Record Shard := mkShard {
  sh_client : WeakClient;
  sh_stores : list KVStore;
  sh_requests : list (Z * WeakRequest);
  sh_replies : list WeakReply
}.

Inductive weak_op := OpGet (key : string) | OpPut (key value : string).
Inductive weak_result := ResGet (reply : Z) (value : string) | ResPut (reply : Z).

(** The application calls one operation after another; each has a new promise. *)
Record WeakSystem := mkWS {
  ws_shards : list Shard;
  ws_pending : option weak_op;
  ws_promise : nat;
  ws_history : list (weak_op * weak_result)
}.

Inductive weak_event :=
| Call (op : weak_op)
| Return
| RunTask (i : nat) (ok : bool) (reached : list Z)
| ToServer (i k : nat)        (* request k of shard i is delivered *)
| ToClient (i k : nat)
| Fire (i : nat)              (* the timer *)
| Duplicate (i k : nat)
| Lose (i k : nat).

Definition op_key (op : weak_op) : string := match op with OpGet key | OpPut key _ => key end.

Section system.
Context (nshards : Z).

Definition shard_of (op : weak_op) : nat := Z.to_nat (key_to_shard (op_key op) nshards).

Definition lift {X} (x : outcome X) : blocking X := match x with Ret x => Done x | Panic => Crash end.

Definition on_shard (s : WeakSystem) (i : nat) (g : Shard → blocking Shard) : blocking WeakSystem :=
  match ws_shards s !! i with
  | None => Blocks
  | Some sh => sh ← g sh; Done (mkWS (<[i := sh]> (ws_shards s)) (ws_pending s) (ws_promise s) (ws_history s))
  end.

Definition with_client (sh : Shard) (c : WeakClient) : Shard := mkShard c (sh_stores sh) (sh_requests sh) (sh_replies sh).

Definition call_op (op : weak_op) (p : nat) (sh : Shard) : blocking Shard :=
  c ← lift (match op with
            | OpGet key => Get_begin (sh_client sh) key p
            | OpPut key value => Put_begin (sh_client sh) key value p
            end);
  Done (with_client sh c).

Definition end_op (op : weak_op) (p : nat) (sh : Shard) : option (weak_result * Shard) :=
  match op with
  | OpGet _ => '(r, v, c) ← Get_end (sh_client sh) p; Some (ResGet r v, with_client sh c)
  | OpPut _ _ => '(r, c) ← Put_end (sh_client sh) p; Some (ResPut r, with_client sh c)
  end.

Definition run_task_at (ok : bool) (reached : list Z) (sh : Shard) : blocking Shard :=
  '(msgs, c) ← lift (run_weak_task ok reached (sh_client sh));
  Done (mkShard c (sh_stores sh) (sh_requests sh ++ msgs) (sh_replies sh)).

Definition to_server (k : nat) (sh : Shard) : blocking Shard :=
  match sh_requests sh !! k with
  | None => Blocks
  | Some (r, msg) =>
      match sh_stores sh !! Z.to_nat r with
      | None => Blocks
      | Some store =>
          let '(reply, store) := HandleMessage store msg in
          Done (mkShard (sh_client sh) (<[Z.to_nat r := store]> (sh_stores sh)) (delete k (sh_requests sh)) (sh_replies sh ++ [reply]))
      end
  end.

Definition to_client (k : nat) (sh : Shard) : blocking Shard :=
  match sh_replies sh !! k with
  | None => Blocks
  | Some msg =>
      c ← lift (weak_ReceiveMessage (sh_client sh) msg);
      Done (mkShard c (sh_stores sh) (sh_requests sh) (delete k (sh_replies sh)))
  end.

Definition fire (sh : Shard) : blocking Shard :=
  match wc_timeout (sh_client sh) with
  | None => Blocks
  | Some _ => c ← lift (RequestTimedOut (sh_client sh)); Done (with_client sh c)
  end.

Definition duplicate (k : nat) (sh : Shard) : blocking Shard :=
  match sh_requests sh !! k with
  | None => Blocks
  | Some m => Done (mkShard (sh_client sh) (sh_stores sh) (sh_requests sh ++ [m]) (sh_replies sh))
  end.

Definition lose (k : nat) (sh : Shard) : blocking Shard :=
  Done (mkShard (sh_client sh) (sh_stores sh) (delete k (sh_requests sh)) (sh_replies sh)).

Definition weak_step (s : WeakSystem) (ev : weak_event) : blocking WeakSystem :=
  match ev with
  | Call op =>
      match ws_pending s with
      | Some _ => Blocks
      | None =>
          s ← on_shard s (shard_of op) (call_op op (ws_promise s));
          Done (mkWS (ws_shards s) (Some op) (ws_promise s) (ws_history s))
      end
  | Return =>
      match ws_pending s with
      | None => Blocks
      | Some op =>
          match ws_shards s !! shard_of op ≫= end_op op (ws_promise s) with
          | None => Blocks
          | Some (r, sh) => Done (mkWS (<[shard_of op := sh]> (ws_shards s)) None (S (ws_promise s)) (ws_history s ++ [(op, r)]))
          end
      end
  | RunTask i ok reached => on_shard s i (run_task_at ok reached)
  | ToServer i k => on_shard s i (to_server k)
  | ToClient i k => on_shard s i (to_client k)
  | Fire i => on_shard s i fire
  | Duplicate i k => on_shard s i (duplicate k)
  | Lose i k => on_shard s i (lose k)
  end.

Definition weak_run (s : WeakSystem) (evs : list weak_event) : blocking WeakSystem := foldl (λ s ev, s ← s; weak_step s ev) (Done s) evs.

(** A client and its shards, with the same configuration, where the servers have
    loaded the keys [lines]. *)
Definition new_weak_system (config : Configuration) (id closestReplica : Z) (lines : list string) : WeakSystem :=
  mkWS (replicate (Z.to_nat nshards)
          (mkShard (new_weak_client config id closestReplica) (replicate (Z.to_nat (n config)) (weak_load_keys new_kvstore lines)) [] [])) None 0 [].

(** ** The specification *)

(** A map, and what an operation returns. *)
Definition spec_result (m : gmap string string) (op : weak_op) : weak_result :=
  match op with
  | OpGet key => match m !! key with Some v => ResGet REPLY_OK v | None => ResGet REPLY_FAIL "" end
  | OpPut _ _ => ResPut REPLY_OK
  end.

(** The keys that were loaded are their own values. *)
Definition spec_loaded (lines : list string) : gmap string string := set_to_map (λ key, (key, key)) (list_to_set lines : gset string).

Definition spec_map (m : gmap string string) (op : weak_op) : gmap string string :=
  match op with OpGet _ => m | OpPut key value => <[key := value]> m end.

Fixpoint spec_run (m : gmap string string) (ops : list weak_op) : list (weak_op * weak_result) :=
  match ops with
  | [] => []
  | op :: ops => (op, spec_result m op) :: spec_run (spec_map m op) ops
  end.

(** Nothing is lost, duplicated or timed out. *)
Definition reliable (ev : weak_event) : bool :=
  match ev with RunTask _ ok _ => ok | Fire _ | Duplicate _ _ | Lose _ _ => false | _ => true end.

(** ** A shard while an operation is in progress *)

Context (config : Configuration).
Implicit Types (m : gmap string string) (sh : Shard) (c : WeakClient) (op : weak_op).

(** The replica has the values of the keys of shard [i]. *)
Definition agrees (i : nat) m (store : KVStore) : Prop :=
  ∀ key, Z.to_nat (key_to_shard key nshards) = i → kv_get store key = m !! key.

Record shard_ok sh : Prop := {
  so_config : wc_config (sh_client sh) = config;
  so_stores : Z.of_nat (length (sh_stores sh)) = n config;
  so_replica : 0 ≤ wc_replica (sh_client sh) < n config
}.

Definition quiet sh : Prop := wc_tasks (sh_client sh) = [] ∧ sh_requests sh = [] ∧ sh_replies sh = [].

Definition idle (i : nat) m sh : Prop :=
  wc_waiting (sh_client sh) = None ∧ quiet sh ∧ Forall (agrees i m) (sh_stores sh).

Definition task_of op (p : nat) c : weak_task :=
  match op with
  | OpGet key => SendGet (GetMessage (client_id c) key) p
  | OpPut key value => SendPut (PutMessage (client_id c) key value)
  end.

(** The promise waits for an answer. *)
Definition awaited (p : nat) c : Prop := wc_waiting c = Some p ∧ ∃ q, stack c !! p = Some q ∧ pr_done q = false.

(** What the answer has to be. *)
Definition answers (q : Promise) (r : weak_result) : Prop :=
  pr_done q = true ∧ match r with ResGet st v => pr_reply q = st ∧ pr_value q = v | ResPut st => pr_reply q = st end.

Inductive progress (i : nat) m op (p : nat) sh : Prop :=
| queued : awaited p (sh_client sh) → wc_tasks (sh_client sh) = [task_of op p (sh_client sh)] →
    (∀ k v, op = OpPut k v → totalReplies (sh_client sh) = 0) →
    sh_requests sh = [] → sh_replies sh = [] → Forall (agrees i m) (sh_stores sh) → progress i m op p sh
| get_sent key id : op = OpGet key → awaited p (sh_client sh) → wc_tasks (sh_client sh) = [] →
    sh_requests sh = [(wc_replica (sh_client sh), GetMessage id key)] → sh_replies sh = [] →
    Forall (agrees i m) (sh_stores sh) → progress i m op p sh
| get_replied key st v : op = OpGet key → awaited p (sh_client sh) → wc_tasks (sh_client sh) = [] →
    sh_requests sh = [] → sh_replies sh = [GetReplyMessage st v] → spec_result m op = ResGet st v →
    Forall (agrees i m) (sh_stores sh) → progress i m op p sh
| putting key value id : op = OpPut key value → awaited p (sh_client sh) → wc_tasks (sh_client sh) = [] →
    NoDup (sh_requests sh).*1 → Forall (λ x, x.2 = PutMessage id key value ∧ 0 ≤ x.1 < n config) (sh_requests sh) →
    Forall (λ x, ∃ st, x = PutReplyMessage st) (sh_replies sh) →
    totalReplies (sh_client sh) < n config →
    totalReplies (sh_client sh) + Z.of_nat (length (sh_replies sh)) + Z.of_nat (length (sh_requests sh)) = n config →
    (∀ r store, sh_stores sh !! r = Some store →
       agrees i (if decide (Z.of_nat r ∈ (sh_requests sh).*1) then m else spec_map m op) store) → progress i m op p sh
| answered q : wc_waiting (sh_client sh) = None → quiet sh → stack (sh_client sh) !! p = Some q → answers q (spec_result m op) →
    Forall (agrees i (spec_map m op)) (sh_stores sh) → progress i m op p sh.

Lemma weak_Get_spec i m store id key : agrees i m store → Z.to_nat (key_to_shard key nshards) = i →
  ∃ st v, HandleGet store id key = GetReplyMessage st v ∧ spec_result m (OpGet key) = ResGet st v.
Proof.
  intros Ha Hk. unfold HandleGet, weak_Get. rewrite (Ha key Hk). simpl. destruct (m !! key); by do 2 eexists.
Qed.

Lemma agrees_put i m store key value : agrees i m store → agrees i (<[key := value]> m) (kv_put store key value).
Proof.
  intros Ha k Hk. rewrite kv_get_put. case_decide as Heq; [subst; by rewrite lookup_insert_eq|].
  rewrite lookup_insert_ne by done. by apply Ha.
Qed.

(** A put to another shard. *)
Lemma agrees_other i m op store : i ≠ shard_of op → agrees i m store → agrees i (spec_map m op) store.
Proof.
  intros Hi Ha k Hk. destruct op as [|key value]; simpl; [by apply Ha|]. rewrite lookup_insert_ne; [by apply Ha|].
  intros ->. unfold shard_of in Hi. simpl in Hi. congruence.
Qed.

Definition keeps (P : Shard → Prop) (x : blocking Shard) : Prop :=
  match x with Done sh => shard_ok sh ∧ P sh | Blocks => True | Crash => False end.

Lemma idle_keeps i m sh : shard_ok sh → idle i m sh →
  (∀ reached, keeps (idle i m) (run_task_at true reached sh)) ∧ (∀ k, keeps (idle i m) (to_server k sh)) ∧
  (∀ k, keeps (idle i m) (to_client k sh)).
Proof.
  intros Hok (Hw & (Ht & Hrq & Hrp) & Ha). split_and!.
  - intros reached. unfold run_task_at, run_weak_task. rewrite Ht. simpl. split.
    + by destruct Hok.
    + split; [done|]. split; [|done]. split_and!; simpl; [done| |done]. by rewrite Hrq.
  - intros k. unfold to_server. by rewrite Hrq.
  - intros k. unfold to_client. by rewrite Hrp.
Qed.

Lemma start_timer_spec c p : awaited p c → ∃ c', start_timer c p = Ret c' ∧ awaited p c' ∧ wc_tasks c' = wc_tasks c ∧
  wc_config c' = wc_config c ∧ wc_replica c' = wc_replica c ∧ totalReplies c' = totalReplies c.
Proof.
  intros [Hw (q & Hq & Hd)]. unfold start_timer. rewrite Hw, Hq. eexists. split; [reflexivity|]. split_and!; try done.
  split; [done|]. by exists q.
Qed.

Lemma run_task_progress i m op p sh reached : shard_ok sh → progress i m op p sh →
  keeps (progress i m op p) (run_task_at true reached sh).
Proof.
  intros Hok Hp. unfold run_task_at, run_weak_task. destruct (wc_tasks (sh_client sh)) as [|t ts] eqn:Ht.
  { simpl. rewrite app_nil_r. split; [by destruct Hok|]. by destruct sh. }
  destruct Hp as [Ha Hts Hz Hrq Hrp Hag| | | |? ? [Hq _]]; try congruence. rewrite Ht in Hts. injection Hts as -> ->.
  destruct Ha as [Hw Hst]. destruct op as [key|key value]; cbv zeta; cbn [task_of].
  - destruct (start_timer_spec (wc_set (sh_client sh) (wc_timeout (sh_client sh)) (totalReplies (sh_client sh)) (wc_waiting (sh_client sh)) (stack (sh_client sh)) []) p)
      as (c' & Hc' & Ha' & Ht' & Hcf & Hrep & _); [by split|]. rewrite Hc'. simpl. split; [by destruct Hok; split; simpl; rewrite ?Hcf, ?Hrep|].
    eapply get_sent; simpl; try done. by rewrite Hrq, Hrep.
  - simpl. rewrite Hw.
    destruct (start_timer_spec (wc_set (sh_client sh) (wc_timeout (sh_client sh)) (totalReplies (sh_client sh)) (Some p) (stack (sh_client sh)) []) p)
      as (c' & Hc' & Ha' & Ht' & Hcf & Hrep & Htot); [by split|]. rewrite Hc'. simpl. split; [by destruct Hok; split; simpl; rewrite ?Hcf, ?Hrep|].
    pose proof (so_replica _ Hok) as Hn. pose proof (so_stores _ Hok) as Hlen.
    assert (∀ msg : WeakRequest, ((λ r, (r, msg)) <$> seqZ 0 (n config)).*1 = seqZ 0 (n config) :> list Z) as Hfst.
    { intros msg. rewrite <- list_fmap_compose. apply list_fmap_id. }
    rewrite (so_config _ Hok), Hrq. simpl. eapply (putting i m _ p _ key value (client_id (sh_client sh))); simpl; try done.
    + rewrite Hfst. apply NoDup_seqZ.
    + apply Forall_fmap, Forall_forall. intros r Hr%elem_of_seqZ. simpl. split; [done|lia].
    + by rewrite Hrp.
    + rewrite Htot. simpl. rewrite (Hz key value eq_refl). lia.
    + rewrite Htot, Hrp. simpl. rewrite (Hz key value eq_refl), length_fmap, length_seqZ. lia.
    + intros r store Hr. rewrite Hfst, decide_True; [by apply (Forall_lookup_1 _ _ _ _ Hag Hr)|].
      apply elem_of_seqZ. apply lookup_lt_Some in Hr. lia.
Qed.

Lemma to_server_progress op p sh k m : shard_ok sh → progress (shard_of op) m op p sh →
  keeps (progress (shard_of op) m op p) (to_server k sh).
Proof.
  intros Hok Hp. unfold to_server. destruct (sh_requests sh !! k) as [[r msg]|] eqn:Hk; [|done].
  assert (∀ c st rq rp, wc_config c = wc_config (sh_client sh) → wc_replica c = wc_replica (sh_client sh) →
    length st = length (sh_stores sh) → shard_ok (mkShard c st rq rp)) as Hok'.
  { intros c st rq rp Hc Hr Hl. destruct Hok. split; simpl; by rewrite ?Hc, ?Hr, ?Hl. }
  destruct Hp as [? ? ? Hrq|key id -> Ha Ht Hrq Hrp Hag|? ? ? ? ? ? Hrq|key value id -> Ha Ht Hnd Hrq Hrp Hlt Hsum Hag|? ? [? [Hrq ?]]];
    try (by rewrite Hrq in Hk).
  - rewrite Hrq in Hk. destruct k as [|k]; [|done]. injection Hk as <- <-.
    destruct (sh_stores sh !! Z.to_nat (wc_replica (sh_client sh))) as [store|] eqn:Hst; [|done]. simpl.
    split; [apply Hok'; [done..|by rewrite length_insert]|].
    destruct (weak_Get_spec (shard_of (OpGet key)) m store id key) as (st & v & -> & Hv); [by apply (Forall_lookup_1 _ _ _ _ Hag Hst)|done|].
    eapply (get_replied _ _ _ _ _ key st v); simpl; try done.
    + by rewrite Hrq.
    + by rewrite Hrp.
    + rewrite list_insert_id by done. done.
  - pose proof (Forall_lookup_1 _ _ _ _ Hrq Hk) as [Hmsg Hr]. simpl in Hmsg, Hr. subst msg.
    destruct (sh_stores sh !! Z.to_nat r) as [store|] eqn:Hst; [|done]. simpl. split; [apply Hok'; [done..|by rewrite length_insert]|].
    pose proof (delete_Permutation _ _ _ Hk) as Hperm.
    eapply (putting _ _ _ _ _ key value id); simpl; try done.
    + rewrite Hperm in Hnd. simpl in Hnd. by apply NoDup_cons in Hnd as [_ Hnd].
    + rewrite Hperm in Hrq. by apply Forall_cons in Hrq as [_ Hrq].
    + apply Forall_app. split; [done|]. constructor; [by eexists|done].
    + rewrite length_app. simpl. pose proof (Permutation_length Hperm) as Hl. simpl in Hl. lia.
    + intros r' store' Hr'. rewrite Hperm in Hnd. simpl in Hnd. apply NoDup_cons in Hnd as [Hnin _].
      destruct (decide (r' = Z.to_nat r)) as [->|Hne].
      * rewrite list_lookup_insert_eq in Hr' by (by eapply lookup_lt_Some). injection Hr' as <-.
        rewrite Z2Nat.id, decide_False by (done || lia). apply agrees_put. specialize (Hag _ _ Hst).
        rewrite Z2Nat.id, decide_True in Hag; [done| |lia]. rewrite Hperm. by left.
      * rewrite list_lookup_insert_ne in Hr' by done. specialize (Hag _ _ Hr').
        destruct (decide (Z.of_nat r' ∈ (delete k (sh_requests sh)).*1)) as [Hin|Hin].
        -- rewrite decide_True in Hag; [done|]. rewrite Hperm. simpl. by right.
        -- rewrite decide_False in Hag; [done|]. rewrite Hperm. simpl. intros [Heq|]%elem_of_cons; [lia|done].
Qed.

Lemma reply_waiting_spec c p reply : awaited p c → ∃ c' q, reply_waiting (stop_timer c) reply = Ret c' ∧ wc_waiting c' = None ∧
  stack c !! p = Some q ∧ stack c' !! p = Some (reply q) ∧ wc_tasks c' = wc_tasks c ∧ wc_config c' = wc_config c ∧ wc_replica c' = wc_replica c.
Proof.
  intros [Hw (q & Hq & Hd)]. unfold reply_waiting, stop_timer. rewrite Hw. simpl. rewrite Hq. do 2 eexists. split; [reflexivity|].
  split_and!; try done. simpl. by rewrite lookup_insert_eq.
Qed.

Lemma to_client_progress i op p sh k m : shard_ok sh → progress i m op p sh → keeps (progress i m op p) (to_client k sh).
Proof.
  intros Hok Hp. unfold to_client. destruct (sh_replies sh !! k) as [msg|] eqn:Hk; [|done].
  assert (∀ c rp, wc_config c = wc_config (sh_client sh) → wc_replica c = wc_replica (sh_client sh) →
    shard_ok (mkShard c (sh_stores sh) (sh_requests sh) rp)) as Hok'.
  { intros c rp Hc Hr. destruct Hok. split; simpl; by rewrite ?Hc, ?Hr. }
  destruct Hp as [? ? ? Hrq Hrp|? ? ? ? ? ? Hrp|key st v -> Ha Ht Hrq Hrp Hv Hag|key value id -> Ha Ht Hnd Hrq Hrp Hlt Hsum Hag|? ? [? [? Hrp]]];
    try (by rewrite Hrp in Hk).
  - rewrite Hrp in Hk. destruct k as [|k]; [|done]. injection Hk as <-.
    destruct (reply_waiting_spec _ _ (λ p, Reply_rv p st v) Ha) as (c' & q & Hc' & Hw' & _ & Hq' & Ht' & Hcf & Hrep).
    simpl. rewrite Hc'. simpl. split; [by apply Hok'|]. apply (answered _ _ _ _ _ (Reply_rv q st v)); [done| |done|by rewrite Hv|done].
    split_and!; simpl; [by rewrite Ht'|done|by rewrite Hrp].
  - destruct (Forall_lookup_1 _ _ _ _ Hrp Hk) as [st ->]. simpl. rewrite (so_config _ Hok). pose proof (delete_Permutation _ _ _ Hk) as Hperm.
    pose proof (Permutation_length Hperm) as Hl. simpl in Hl.
    set (c1 := wc_set _ _ (totalReplies (sh_client sh) + 1) _ _ _). destruct (Z.leb_spec (n config) (totalReplies (sh_client sh) + 1)).
    + destruct (reply_waiting_spec c1 p (λ p, Reply_r p REPLY_OK)) as (c' & q & Hc' & Hw' & _ & Hq' & Ht' & Hcf & Hrep).
      { destruct Ha as [Hw (q & Hq & Hd)]. split; [done|]. by exists q. }
      rewrite Hc'. simpl. split; [by apply Hok'|].
      assert (sh_requests sh = []) as Hnil by (apply length_zero_iff_nil; lia).
      eapply answered; simpl; try done.
      * split_and!; simpl; [by rewrite Ht'|done|]. apply length_zero_iff_nil. lia.
      * apply Forall_lookup. intros r store Hr. specialize (Hag r store Hr). rewrite decide_False in Hag; [done|].
        rewrite Hnil. apply not_elem_of_nil.
    + simpl. split; [by apply Hok'|]. eapply (putting _ _ _ _ _ key value id); simpl; try done.
      * rewrite Hperm in Hrp. by apply Forall_cons in Hrp as [_ Hrp].
      * lia.
Qed.

(** ** Calls and returns *)

Lemma call_progress op p sh m : shard_ok sh → idle (shard_of op) m sh → keeps (progress (shard_of op) m op p) (call_op op p sh).
Proof.
  intros Hok (Hw & (Ht & Hrq & Hrp) & Ha). unfold call_op. destruct op as [key|key value]; simpl; unfold Get_begin, Put_begin, ws_Get, ws_Put;
    simpl; rewrite bool_decide_true by done; simpl; (split; [by destruct Hok|]); apply queued; simpl; try done.
  - split; [done|]. simpl. rewrite lookup_insert_eq. by exists new_promise.
  - by rewrite Ht.
  - split; [done|]. simpl. rewrite lookup_insert_eq. by exists new_promise.
  - by rewrite Ht.
Qed.

(** An operation returns when its promise is answered, with the right result. *)
Lemma end_op_spec i op p sh m r sh' : shard_ok sh → progress i m op p sh → end_op op p sh = Some (r, sh') →
  r = spec_result m op ∧ shard_ok sh' ∧ idle i (spec_map m op) sh'.
Proof.
  intros Hok Hp Hend.
  assert (∀ c, wc_waiting c = Some p → (∃ q, stack c !! p = Some q ∧ pr_done q = false) → c = sh_client sh → False) as Hno.
  { intros c _ (q & Hq & Hd) ->. unfold end_op, Get_end, Put_end in Hend. rewrite Hq in Hend. simpl in Hend. unfold GetValue, GetReply in Hend.
    rewrite Hd in Hend. by destruct op. }
  destruct Hp as [[? ?]|? ? ? [? ?]|? ? ? ? [? ?]|? ? ? ? [? ?]|q Hw Hq Hst Hans Hag]; [by destruct (Hno (sh_client sh))..|].
  unfold end_op, Get_end, Put_end in Hend. rewrite Hst in Hend. simpl in Hend. destruct Hans as [Hd Hans]. unfold GetValue, GetReply in Hend.
  rewrite Hd in Hend. destruct op as [key|key value]; simpl in Hend; injection Hend as <- <-.
  - split; [|split; [by destruct Hok|by split]]. simpl in Hans |- *. by destruct (m !! key); destruct Hans as [-> ->].
  - split; [|split; [by destruct Hok|by split]]. simpl in Hans. by rewrite Hans.
Qed.

(** ** An operation does not wait for ever *)

(** What is left to do at a shard. *)
Definition remaining sh : nat :=
  length (wc_tasks (sh_client sh)) * S (2 * Z.to_nat (n config)) + 2 * length (sh_requests sh) + length (sh_replies sh).

Lemma to_server_advances sh r msg rest : shard_ok sh → sh_requests sh = (r, msg) :: rest → 0 ≤ r < n config →
  ∃ sh', to_server 0 sh = Done sh' ∧ (remaining sh' < remaining sh)%nat.
Proof.
  intros Hok Hrq Hr. unfold to_server. rewrite Hrq. simpl. destruct (lookup_lt_is_Some_2 (sh_stores sh) (Z.to_nat r)) as [store Hst].
  { pose proof (so_stores _ Hok). lia. }
  rewrite Hst. destruct (HandleMessage store msg) as [reply store']. eexists. split; [reflexivity|].
  unfold remaining. rewrite Hrq. simpl. rewrite length_app. simpl. lia.
Qed.

Lemma reply_waiting_tasks c reply c' : reply_waiting c reply = Ret c' → wc_tasks c' = wc_tasks c.
Proof. unfold reply_waiting. destruct (wc_waiting c); [|by intros [= <-]]. destruct (stack c !! _); [|done]. by intros [= <-]. Qed.

Lemma to_client_advances (P : Shard → Prop) sh msg rest : sh_replies sh = msg :: rest → keeps P (to_client 0 sh) →
  ∃ sh', to_client 0 sh = Done sh' ∧ (remaining sh' < remaining sh)%nat.
Proof.
  intros Hrp Hk. unfold to_client in *. rewrite Hrp in *. simpl in *. destruct (weak_ReceiveMessage _ _) as [c'|] eqn:Hc'; [|done].
  assert (wc_tasks c' = wc_tasks (sh_client sh)) as Ht.
  { destruct msg as [st v|st]; simpl in Hc'; [|case_match]; try (apply reply_waiting_tasks in Hc' as ->); unfold stop_timer; try (by case_match).
    by injection Hc' as <-. }
  eexists. split; [reflexivity|]. unfold remaining. rewrite Hrp. simpl. rewrite Ht. lia.
Qed.

Lemma run_task_advances sh i m op p : shard_ok sh → progress i m op p sh → wc_tasks (sh_client sh) ≠ [] →
  ∃ sh', run_task_at true [] sh = Done sh' ∧ (remaining sh' < remaining sh)%nat.
Proof.
  intros Hok Hp Ht. pose proof (run_task_progress i m op p sh [] Hok Hp) as Hk. pose proof (so_replica _ Hok) as Hn.
  destruct Hp as [Ha Hts Hz Hrq Hrp Hag| | | |? ? [Hq _]]; try congruence.
  destruct (run_task_at true [] sh) as [sh'| |] eqn:Hrun; [|destruct op; unfold run_task_at in Hrun; by destruct (run_weak_task _ _ _) as [[]|]|done].
  exists sh'. split; [done|]. destruct Hk as [_ Hp']. unfold remaining at 2. rewrite Hts, Hrq, Hrp. simpl.
  unfold run_task_at, run_weak_task in Hrun. rewrite Hts, Hrq, Hrp in Hrun. destruct Ha as [Hw (q & Hq & _)]. unfold start_timer in Hrun.
  destruct op as [key|key value]; simpl in Hrun; rewrite ?Hw in Hrun; simpl in Hrun; rewrite ?Hw in Hrun; rewrite Hq in Hrun; simpl in Hrun;
    injection Hrun as <-; unfold remaining; simpl; [lia|].
  rewrite length_fmap, length_seqZ, (so_config _ Hok). lia.
Qed.

(** Unless the operation can return, there is a task or a message at its shard. *)
Lemma progress_advances op p sh m : shard_ok sh → progress (shard_of op) m op p sh →
  is_Some (end_op op p sh) ∨
  ∃ ev g sh', ev ∈ [(RunTask (shard_of op) true [], run_task_at true []); (ToServer (shard_of op) 0, to_server 0);
                    (ToClient (shard_of op) 0, to_client 0)] ∧ ev.2 = g ∧ g sh = Done sh' ∧ (remaining sh' < remaining sh)%nat.
Proof.
  intros Hok Hp. destruct (decide (wc_tasks (sh_client sh) = [])) as [Ht|Ht].
  2: { destruct (run_task_advances sh _ m op p Hok Hp Ht) as (sh' & ? & ?). right. do 3 eexists. split; [by left|done]. }
  destruct (sh_requests sh) as [|[r msg] rq] eqn:Hrq.
  - destruct (sh_replies sh) as [|msg rp] eqn:Hrp.
    + left. destruct Hp as [? Hts|? ? ? ? ? Hq|? ? ? ? ? ? ? Hq|? ? ? ? ? ? ? ? ? Hlt Hsum|q Hw Hq Hst Hans Hag]; try congruence.
      * rewrite Hrq, Hrp in Hsum. simpl in Hsum. lia.
      * destruct Hans as [Hd _]. unfold end_op, Get_end, Put_end, GetValue, GetReply. destruct op; rewrite Hst; simpl; rewrite Hd; simpl; by eexists.
    + destruct (to_client_advances _ sh msg rp Hrp (to_client_progress _ _ _ _ 0 _ Hok Hp)) as (sh' & ? & ?).
      right. do 3 eexists. split; [by do 2 right; left|done].
  - assert (0 ≤ r < n config) as Hr.
    { destruct Hp as [? ? ? Hq|? ? ? ? ? Hq|? ? ? ? ? ? Hq|? ? ? ? ? ? ? Hall|? ? [? [Hq ?]]]; try congruence.
      - rewrite Hrq in Hq. injection Hq as -> _ _. apply Hok.
      - rewrite Hrq in Hall. by apply Forall_cons in Hall as [[_ ?] _]. }
    destruct (to_server_advances sh r msg rq Hok Hrq Hr) as (sh' & ? & ?). right. do 3 eexists. split; [by right; left|done].
Qed.

(** ** The whole system *)

Context (lines : list string).

Definition spec_final (ops : list weak_op) : gmap string string := foldl spec_map (spec_loaded lines) ops.

Lemma spec_run_app m ops op : spec_run m (ops ++ [op]) = spec_run m ops ++ [(op, spec_result (foldl spec_map m ops) op)].
Proof. revert m. induction ops as [|x ops IH]; intros m; [done|]. simpl. by rewrite IH. Qed.

Record weak_inv (s : WeakSystem) : Prop := {
  wi_length : Z.of_nat (length (ws_shards s)) = nshards;
  wi_history : ws_history s = spec_run (spec_loaded lines) (ws_history s).*1;
  wi_ok : Forall shard_ok (ws_shards s);
  wi_idle i sh : ws_shards s !! i = Some sh → Some i ≠ shard_of <$> ws_pending s → idle i (spec_final (ws_history s).*1) sh;
  wi_pending op sh : ws_pending s = Some op → ws_shards s !! shard_of op = Some sh →
    progress (shard_of op) (spec_final (ws_history s).*1) op (ws_promise s) sh
}.

Definition keeps_inv (x : blocking WeakSystem) : Prop := match x with Done s => weak_inv s | Blocks => True | Crash => False end.

(** A step at one shard that keeps what is known of it. *)
Lemma on_shard_inv s i g : weak_inv s →
  (∀ sh m, shard_ok sh → idle i m sh → keeps (idle i m) (g sh)) →
  (∀ op sh m p, i = shard_of op → shard_ok sh → progress i m op p sh → keeps (progress i m op p) (g sh)) → keeps_inv (on_shard s i g).
Proof.
  intros Hs Hidle Hprog. unfold on_shard. destruct (ws_shards s !! i) as [sh|] eqn:Hsh; [|done].
  pose proof (Forall_lookup_1 _ _ _ _ (wi_ok _ Hs) Hsh) as Hok. pose proof (lookup_lt_Some _ _ _ Hsh) as Hlt.
  destruct (decide (Some i = shard_of <$> ws_pending s)) as [Hi|Hi].
  - destruct (ws_pending s) as [op|] eqn:Hop; [|done]. injection Hi as ->.
    specialize (Hprog op sh _ _ eq_refl Hok (wi_pending _ Hs op sh Hop Hsh)). destruct (g sh) as [sh'| |]; [|done..].
    destruct Hprog as [Hok' Hp']. split; simpl; rewrite ?length_insert; try apply Hs.
    + by apply Forall_insert; [apply Hs|].
    + intros j sh1 Hj Hne. simpl in Hne. rewrite list_lookup_insert_ne in Hj by congruence. apply (wi_idle _ Hs); [done|by rewrite Hop].
    + intros op1 sh1 [= <-]. rewrite list_lookup_insert_eq by done. by intros [= <-].
  - specialize (Hidle sh _ Hok (wi_idle _ Hs i sh Hsh Hi)). destruct (g sh) as [sh'| |]; [|done..].
    destruct Hidle as [Hok' Hp']. split; simpl; rewrite ?length_insert; try apply Hs.
    + by apply Forall_insert; [apply Hs|].
    + intros j sh1 Hj Hne. destruct (decide (i = j)) as [<-|Hij].
      * rewrite list_lookup_insert_eq in Hj by done. by injection Hj as <-.
      * rewrite list_lookup_insert_ne in Hj by done. by apply (wi_idle _ Hs).
    + intros op1 sh1 Hop1. rewrite list_lookup_insert_ne; [by apply (wi_pending _ Hs)|]. intros ->. by rewrite Hop1 in Hi.
Qed.

Lemma call_inv s op : weak_inv s → keeps_inv (weak_step s (Call op)).
Proof.
  intros Hs. simpl. destruct (ws_pending s) as [|] eqn:Hop; [done|]. unfold on_shard.
  destruct (ws_shards s !! shard_of op) as [sh|] eqn:Hsh; [|done]. pose proof (lookup_lt_Some _ _ _ Hsh) as Hlt.
  assert (idle (shard_of op) (spec_final (ws_history s).*1) sh) as Hid by (apply (wi_idle _ Hs); [done|by rewrite Hop]).
  pose proof (call_progress op (ws_promise s) sh _ (Forall_lookup_1 _ _ _ _ (wi_ok _ Hs) Hsh) Hid) as Hk.
  destruct (call_op op (ws_promise s) sh) as [sh'| |]; [|done..]. destruct Hk as [Hok' Hp']. split; simpl; rewrite ?length_insert; try apply Hs.
  - by apply Forall_insert; [apply Hs|].
  - intros j sh1 Hj Hne. rewrite list_lookup_insert_ne in Hj by congruence. apply (wi_idle _ Hs); [done|by rewrite Hop].
  - intros op1 sh1 [= <-]. rewrite list_lookup_insert_eq by done. by intros [= <-].
Qed.

Lemma return_inv s : weak_inv s → keeps_inv (weak_step s Return).
Proof.
  intros Hs. simpl. destruct (ws_pending s) as [op|] eqn:Hop; [|done].
  destruct (ws_shards s !! shard_of op) as [sh|] eqn:Hsh; [|done]. simpl. pose proof (lookup_lt_Some _ _ _ Hsh) as Hlt.
  destruct (end_op op (ws_promise s) sh) as [[r sh']|] eqn:Hend; [|done].
  destruct (end_op_spec _ _ _ _ _ _ _ (Forall_lookup_1 _ _ _ _ (wi_ok _ Hs) Hsh) (wi_pending _ Hs op sh Hop Hsh) Hend) as (-> & Hok' & Hid).
  split; simpl; rewrite ?length_insert, ?fmap_app; try apply Hs; try done.
  - simpl. rewrite spec_run_app, <- (wi_history _ Hs). done.
  - by apply Forall_insert; [apply Hs|].
  - intros j sh1 Hj _. unfold spec_final. rewrite foldl_app. simpl. destruct (decide (shard_of op = j)) as [<-|Hij].
    + rewrite list_lookup_insert_eq in Hj by done. by injection Hj as <-.
    + rewrite list_lookup_insert_ne in Hj by done. destruct (wi_idle _ Hs j sh1 Hj) as (Hw & Hq & Ha); [rewrite Hop; simpl; congruence|].
      split; [done|]. split; [done|]. apply (Forall_impl _ _ _ Ha). intros store. by apply agrees_other.
Qed.

Lemma weak_step_inv s ev : weak_inv s → reliable ev → keeps_inv (weak_step s ev).
Proof.
  intros Hs Hev. destruct ev as [op| |i ok reached|i k|i k|i|i k|i k]; try done; simpl in Hev.
  - by apply call_inv.
  - by apply return_inv.
  - destruct ok; [|done]. apply on_shard_inv; [done|intros; by apply idle_keeps|]. intros; by apply run_task_progress.
  - apply on_shard_inv; [done|intros; by apply idle_keeps|]. intros op sh m p -> Hok Hp. by apply to_server_progress.
  - apply on_shard_inv; [done|intros; by apply idle_keeps|]. intros; by apply to_client_progress.
Qed.

Lemma weak_run_inv evs s : weak_inv s → Forall reliable evs → keeps_inv (weak_run s evs).
Proof.
  intros Hs. induction evs as [|ev evs IH] using rev_ind; [done|]. intros [He Hev]%Forall_app. apply Forall_cons in Hev as [Hev _].
  unfold weak_run in *. rewrite foldl_app. simpl. specialize (IH He). destruct (foldl _ _ evs) as [s'| |]; [|done..].
  by apply weak_step_inv.
Qed.

Lemma weak_load_keys_spec key : kv_get (weak_load_keys new_kvstore lines) key = spec_loaded lines !! key.
Proof.
  transitivity (if decide (key ∈ lines) then Some key else None).
  - unfold weak_load_keys, weak_Load. induction lines as [|x l IH] using rev_ind; [done|]. rewrite foldl_app. simpl. rewrite kv_get_put, IH.
    repeat case_decide; set_solver.
  - symmetry. unfold spec_loaded. case_decide as Hin.
    + apply lookup_set_to_map; [done|]. exists key. set_solver.
    + apply eq_None_not_Some. intros [v Hv]. apply lookup_set_to_map in Hv as (y & Hy & [= <- <-]); [|done]. set_solver.
Qed.

Lemma new_weak_inv id closestReplica : 0 < nshards → 0 < n config → (closestReplica = -1 ∨ 0 ≤ closestReplica < n config) →
  weak_inv (new_weak_system config id closestReplica lines).
Proof.
  intros Hsh Hn Hc. split; simpl; try done.
  - rewrite length_replicate. lia.
  - apply Forall_replicate. split; simpl; [done|rewrite length_replicate; lia|]. destruct (Z.eqb_spec closestReplica (-1)); [by apply Z.mod_pos_bound|lia].
  - intros i sh [-> _]%lookup_replicate _. split; [done|]. split; [done|]. simpl. apply Forall_replicate. intros key _. apply weak_load_keys_spec.
Qed.

(** The pending operation can be brought to its return. *)
Lemma weak_completes s : weak_inv s → ∀ op, 0 < nshards → ws_pending s = Some op →
  ∃ evs s', Forall reliable evs ∧ weak_run s evs = Done s' ∧ ws_pending s' = None.
Proof.
  intros Hs op Hn Hop.
  assert (∃ sh, ws_shards s !! shard_of op = Some sh) as [sh Hsh].
  { apply lookup_lt_is_Some_2. pose proof (wi_length _ Hs). unfold shard_of. pose proof (Z.mod_pos_bound (hash_loop 5381 (op_key op)) nshards Hn).
    unfold key_to_shard. lia. }
  remember (remaining sh) as k eqn:Hk. revert s sh Hs Hop Hsh Hk. induction (lt_wf k) as [k _ IH]. intros s sh Hs Hop Hsh ->.
  destruct (progress_advances op (ws_promise s) sh _ (Forall_lookup_1 _ _ _ _ (wi_ok _ Hs) Hsh) (wi_pending _ Hs op sh Hop Hsh))
    as [[[r sh'] Hr]|(ev & g & sh' & Hev & <- & Hg & Hlt)].
  - exists [Return]. eexists. split; [by repeat constructor|]. unfold weak_run. simpl. rewrite Hop, Hsh. simpl. by rewrite Hr.
  - assert (weak_step s ev.1 = on_shard s (shard_of op) ev.2 ∧ reliable ev.1) as [Hstep Hrel].
    { by repeat (apply elem_of_cons in Hev as [->|Hev]; [done|]); apply elem_of_nil in Hev. }
    pose proof (weak_step_inv s ev.1 Hs Hrel) as Hs'. rewrite Hstep in Hs'. unfold on_shard in Hs', Hstep. rewrite Hsh, Hg in Hs', Hstep. simpl in Hs', Hstep.
    destruct (IH _ Hlt _ sh' Hs' Hop) as (evs & s' & Hrels & Hrun & Hend); [|done|].
    { simpl. rewrite list_lookup_insert_eq; [done|]. by eapply lookup_lt_Some. }
    exists (ev.1 :: evs), s'. split; [by constructor|]. split; [|done]. unfold weak_run. simpl. by rewrite Hstep.
Qed.

End system.

(** C24. Sequential behaviour of the weak store.  Where the network delivers every
    message once, in any order, and no timer fires, the client's operations
    return what a map with the loaded keys returns, whatever the replica the
    client reads from; no assertion fails, and an operation that is waiting can
    always be brought to its return. *)
Theorem weak_sequential nshards config id closestReplica lines evs :
  0 < nshards → 0 < n config → (closestReplica = -1 ∨ 0 ≤ closestReplica < n config) → Forall reliable evs →
  weak_run nshards (new_weak_system nshards config id closestReplica lines) evs ≠ Crash ∧
  ∀ s, weak_run nshards (new_weak_system nshards config id closestReplica lines) evs = Done s →
    ws_history s = spec_run (spec_loaded lines) (ws_history s).*1 ∧
    ∀ op, ws_pending s = Some op → ∃ evs' s', Forall reliable evs' ∧ weak_run nshards s evs' = Done s' ∧ ws_pending s' = None.
Proof.
  intros Hsh Hn Hc Hevs. pose proof (weak_run_inv nshards config lines evs _ (new_weak_inv nshards config lines id closestReplica Hsh Hn Hc) Hevs) as Hinv.
  split; [by intros Hcrash; rewrite Hcrash in Hinv|]. intros s Hs. rewrite Hs in Hinv. split; [apply Hinv|].
  intros op Hop. by eapply weak_completes.
Qed.

Definition three : Configuration := mkConfig 3 1 [] None.

(** Two operations on two shards, the messages out of order. *)
Definition weak_demo : list weak_event :=
  [Call (OpPut "k1" "v"); RunTask (shard_of 2 (OpGet "k1")) true []; ToServer (shard_of 2 (OpGet "k1")) 2; ToServer (shard_of 2 (OpGet "k1")) 0;
   ToClient (shard_of 2 (OpGet "k1")) 1; ToServer (shard_of 2 (OpGet "k1")) 0; ToClient (shard_of 2 (OpGet "k1")) 0;
   ToClient (shard_of 2 (OpGet "k1")) 0; Return;
   Call (OpGet "k1"); RunTask (shard_of 2 (OpGet "k1")) true []; ToServer (shard_of 2 (OpGet "k1")) 0; ToClient (shard_of 2 (OpGet "k1")) 0; Return;
   Call (OpGet "k2"); RunTask (shard_of 2 (OpGet "k2")) true []].

Lemma weak_sequential_witness :
  ∃ s, weak_run 2 (new_weak_system 2 three 7 (-1) ["k2"]) weak_demo = Done s ∧
    ws_history s = [(OpPut "k1" "v", ResPut REPLY_OK); (OpGet "k1", ResGet REPLY_OK "v")] ∧
    ∃ evs' s', Forall reliable evs' ∧ weak_run 2 s evs' = Done s' ∧ ws_pending s' = None.
Proof.
  eexists. split; [vm_compute; reflexivity|]. split; [vm_compute; reflexivity|].
  refine (proj2 (proj2 (weak_sequential 2 three 7 (-1) ["k2"] weak_demo _ _ _ _) _ _) (OpGet "k2") _);
    [lia|vm_compute; reflexivity|by left| |vm_compute; reflexivity|vm_compute; reflexivity].
  repeat constructor.
Defined.

(** A put that never took place.  The client counts replies to puts without
    looking which put they answer, so after a timeout the replies to the first
    put complete the second: it is reported as done although no replica has
    received it, and the value is not there. *)
Theorem weak_stale_replies : ∃ evs s,
  filter (λ ev, reliable ev = false) evs = [Fire 0] ∧
  weak_run 1 (new_weak_system 1 three 7 0 []) evs = Done s ∧
  ws_history s = [(OpPut "a" "1", ResPut REPLY_TIMEOUT); (OpPut "b" "2", ResPut REPLY_OK); (OpGet "b", ResGet REPLY_FAIL "")].
Proof.
  exists [Call (OpPut "a" "1"); RunTask 0 true []; ToServer 0 0; ToServer 0 0; ToServer 0 0; Fire 0; Return;
          Call (OpPut "b" "2"); RunTask 0 true []; ToClient 0 0; ToClient 0 0; ToClient 0 0; Return;
          Call (OpGet "b"); RunTask 0 true []; ToServer 0 3; ToClient 0 0; Return].
  eexists. split_and!; [vm_compute; reflexivity..].
Qed.
