(* ===== verification/CalvinTxn.v ===== *)
(** * Calvin: transactions, partitions and applications

    src/calvin/src_calvin: proto/txn.proto, common/configuration.cc,
    common/utils.h and applications/{application.h,microbenchmark.cc}.  A
    pointer to a [TxnProto] is the message it points to: transaction ids are
    unique, so pointers are equal exactly if the messages are. *)

From Stdlib Require Import Ascii.
From S2P Require Import Prelude AppReplica TimeServer.

Notation Key := string (only parsing).
Notation Value := string (only parsing).

Record TxnProto := mkTxnProto {
  txn_id : Z;
  txn_type : Z;
  read_set : list Key;
  write_set : list Key;
  read_write_set : list Key;
  arg : string;
  readers : list Z;
  writers : list Z
}.

#[global] Instance TxnProto_eq_dec : EqDecision TxnProto.
Proof. solve_decision. Defined.

#[global] Program Instance TxnProto_countable : Countable TxnProto :=
  inj_countable' (λ t, (txn_id t, txn_type t, read_set t, write_set t, read_write_set t, arg t, readers t, writers t))
    (λ x, match x with (a, b, c, d, e, f, g, h) => mkTxnProto a b c d e f g h end) _.
Next Obligation. by intros []. Qed.

(** ** Numbers and partitions *)

Definition atoi (s : string) : Z :=
  let s := skip_space s in
  let '(neg, s) :=
    match s with
    | String c s' => if Ascii.eqb c "-" then (true, s') else if Ascii.eqb c "+" then (false, s') else (false, s)
    | EmptyString => (false, s)
    end in
  let v := if neg : bool then - digits 0 s else digits 0 s in
  i32 (Z.max (- 2 ^ 63) (Z.min (2 ^ 63 - 1) v)).

Notation StringToInt := atoi (only parsing).
Notation IntToString n := (to_string (i32 n)) (only parsing).

(** [size] is the number of nodes. *)
Definition LookupPartition (size : Z) (key : Key) : Z :=
  match key with
  | String "w" rest => Z.rem (StringToInt rest) size
  | _ => Z.rem (StringToInt key) size
  end.

(** ** Applications *)

(** What [Execute] does with the objects of its [StorageManager]: it gets the
    pointer to an object and looks at the value, assigns to an object, or
    follows a null pointer. *)
Inductive prog :=
| Return
| Fault
| ReadObject (key : Key) (k : option Value → prog)
| Assign (key : Key) (value : Value) (rest : prog).

Class Application := Execute : TxnProto → prog.

(** [Microbenchmark::Execute]; [kRWSetSize] is 10. *)
Fixpoint micro_loop (t : TxnProto) (n i : nat) : prog :=
  match n with
  | O => Return
  | S n =>
      match read_write_set t !! i with
      | None => Fault
      | Some key =>
          ReadObject key (λ val,
            match val with
            | None => Fault
            | Some val => Assign key (IntToString (StringToInt val + 1)) (micro_loop t n (S i))
            end)
      end
  end.

Notation kRWSetSize := 10%nat (only parsing).

Definition Microbenchmark : Application := λ t, micro_loop t kRWSetSize 0.
