(* ===== verification/CalvinQueue.v ===== *)
(** * Calvin: the queues between threads

    src/calvin/src_calvin/common/utils.h, [AtomicQueue]: a circular buffer with a
    mutex for each end.  A [Push] and a [Pop] can run at the same time; a step is
    what one of them does between two accesses to what they share. *)

From S2P Require Import Prelude.

Section queue.
(** [inhabitant] is what the vector's new elements are. *)
Context {T : Type} `{!Inhabited T}.

Record AtomicQueue := mkAQ { queue_ : list T; size_ : Z; front_ : Z; back_ : Z }.

Definition new_AtomicQueue : AtomicQueue := mkAQ (replicate 256 inhabitant) 256 0 0.

Definition Size (q : AtomicQueue) : Z := u32 (back_ q + size_ q - front_ q) mod size_ q.

Definition Empty (q : AtomicQueue) : bool := (front_ q =? back_ q)%Z.

(** The element at an offset. *)
Definition at_offset (q : AtomicQueue) (i : Z) : T := queue_ q !!! Z.to_nat i.

Definition is_full (q : AtomicQueue) : bool := (front_ q =? u32 (back_ q + 1) mod size_ q)%Z.

(** The buffer is doubled, and the elements are copied to its new half. *)
Definition grow (q : AtomicQueue) : AtomicQueue :=
  let count := u32 (back_ q + size_ q - front_ q) mod size_ q in
  let buffer := queue_ q ++ replicate (Z.to_nat (size_ q)) inhabitant in
  let copy l i := <[Z.to_nat (size_ q + i) := l !!! Z.to_nat ((front_ q + i) mod size_ q)]> l in
  mkAQ (foldl copy buffer (seqZ 0 count)) (u32 (size_ q * 2)) (size_ q) (size_ q + count).

(** Where a [Push] with the mutex of the back, and a [Pop] with the one of the
    front are: a [Push] has found the buffer full, or has room, or has stored its
    item; a [Pop] has found an element, or has read it. *)
Inductive pusher := PNone | PGrow (item : T) | PStore (item : T) | PAdvance (item : T).
Inductive popper := ONone | OTake | OAdvance (v : T).

Record state := mkState { st_queue : AtomicQueue; st_push : pusher; st_pop : popper }.

(** A new [Push], the next step of the running one, a new [Pop], its next step. *)
Inductive call := CPush (item : T) | CPushStep | CPop | CPopStep.

(** What is seen from outside: a [Push] took effect, a [Pop] did, or found nothing. *)
Inductive effect := Pushed (item : T) | Popped (v : T) | FoundEmpty.

Definition set_push (s : state) (q : AtomicQueue) (p : pusher) : state := mkState q p (st_pop s).
Definition set_pop (s : state) (q : AtomicQueue) (o : popper) : state := mkState q (st_push s) o.

Definition Push (s : state) (item : T) : option (state * list effect) :=
  match st_push s with
  | PNone => Some (set_push s (st_queue s) (if is_full (st_queue s) then PGrow item else PStore item), [])
  | _ => None
  end.

(** To grow, [Push] needs the mutex of the front. *)
Definition Push_step (s : state) : option (state * list effect) :=
  let q := st_queue s in
  match st_push s with
  | PNone => None
  | PGrow item => match st_pop s with ONone => Some (set_push s (grow q) (PStore item), []) | _ => None end
  | PStore item => Some (set_push s (mkAQ (<[Z.to_nat (back_ q) := item]> (queue_ q)) (size_ q) (front_ q) (back_ q)) (PAdvance item), [])
  | PAdvance item => Some (set_push s (mkAQ (queue_ q) (size_ q) (front_ q) (u32 (back_ q + 1) mod size_ q)) PNone, [Pushed item])
  end.

Definition Pop (s : state) : option (state * list effect) :=
  match st_pop s with
  | ONone => if (front_ (st_queue s) =? back_ (st_queue s))%Z then Some (s, [FoundEmpty]) else Some (set_pop s (st_queue s) OTake, [])
  | _ => None
  end.

Definition Pop_step (s : state) : option (state * list effect) :=
  let q := st_queue s in
  match st_pop s with
  | ONone => None
  | OTake => Some (set_pop s q (OAdvance (at_offset q (front_ q))), [])
  | OAdvance v => Some (set_pop s (mkAQ (queue_ q) (size_ q) (u32 (front_ q + 1) mod size_ q) (back_ q)) ONone, [Popped v])
  end.

Definition step_call (s : state) (c : call) : option (state * list effect) :=
  match c with CPush item => Push s item | CPushStep => Push_step s | CPop => Pop s | CPopStep => Pop_step s end.

(** The effects of a sequence of calls; a step that has to wait is [None]. *)
Fixpoint calls (s : state) (cs : list call) : option (state * list effect) :=
  match cs with
  | [] => Some (s, [])
  | c :: cs => x ← step_call s c; y ← calls x.1 cs; Some (y.1, x.2 ++ y.2)
  end.

(** ** What a queue promises *)

(** The effects are those of a first-in-first-out queue that goes from one content
    to another. *)
Inductive fifo : list T → list effect → list T → Prop :=
| fifo_nil l : fifo l [] l
| fifo_push l x es l' : fifo (l ++ [x]) es l' → fifo l (Pushed x :: es) l'
| fifo_pop x l es l' : fifo l es l' → fifo (x :: l) (Popped x :: es) l'
| fifo_empty es l' : fifo [] es l' → fifo [] (FoundEmpty :: es) l'.

(** ** The content of the buffer *)

Implicit Types (q : AtomicQueue) (s : state).

Definition count q : Z := (back_ q - front_ q) mod size_ q.

Definition contents q : list T := (λ i, at_offset q ((front_ q + i) mod size_ q)) <$> seqZ 0 (count q).

Record queue_ok q : Prop := {
  qo_size : size_ q = Z.of_nat (length (queue_ q));
  qo_range : 2 ≤ size_ q < 2 ^ 31;
  qo_front : 0 ≤ front_ q < size_ q;
  qo_back : 0 ≤ back_ q < size_ q
}.

Lemma count_range q : queue_ok q → 0 ≤ count q < size_ q.
Proof. intros [_ ? _ _]. apply Z.mod_pos_bound. lia. Qed.

(** Offsets of the buffer by their distance from the front. *)
Lemma offset_at q i : queue_ok q → 0 ≤ i < size_ q → (front_ q + i) mod size_ q = if (front_ q + i <? size_ q)%Z then front_ q + i else front_ q + i - size_ q.
Proof.
  intros [_ ? ? ?] Hi. destruct (_ <? _)%Z eqn:Hl; [apply Z.ltb_lt in Hl; apply Z.mod_small; lia|]. apply Z.ltb_ge in Hl.
  symmetry. apply (Z.mod_unique _ _ 1); lia.
Qed.

Lemma count_eq q : queue_ok q → count q = if (back_ q <? front_ q)%Z then back_ q + size_ q - front_ q else back_ q - front_ q.
Proof.
  intros [_ ? ? ?]. unfold count. destruct (_ <? _)%Z eqn:Hl; [apply Z.ltb_lt in Hl|apply Z.ltb_ge in Hl; apply Z.mod_small; lia].
  symmetry. apply (Z.mod_unique _ _ (-1)); lia.
Qed.

Lemma back_offset q : queue_ok q → (front_ q + count q) mod size_ q = back_ q.
Proof.
  intros Hq. pose proof (count_range q Hq). rewrite offset_at by done. rewrite count_eq by done. destruct Hq as [_ ? ? ?].
  destruct (back_ q <? front_ q)%Z eqn:H1; destruct (_ <? size_ q)%Z eqn:H2;
    rewrite ?Z.ltb_lt, ?Z.ltb_ge in *; lia.
Qed.

Lemma offset_ne q i : queue_ok q → 0 ≤ i < size_ q → i ≠ count q → (front_ q + i) mod size_ q ≠ back_ q.
Proof.
  intros Hq Hi Hne. rewrite <- (back_offset q Hq). pose proof (count_range q Hq). rewrite !offset_at by done. destruct Hq as [_ ? ? ?].
  destruct (front_ q + i <? size_ q)%Z eqn:H1; destruct (front_ q + count q <? size_ q)%Z eqn:H2; rewrite ?Z.ltb_lt, ?Z.ltb_ge in *; lia.
Qed.

Lemma u32_small z : 0 ≤ z < 2 ^ 32 → u32 z = z.
Proof. apply Z.mod_small. Qed.

Lemma Size_count q : queue_ok q → Size q = count q.
Proof.
  intros [_ ? ? ?]. unfold Size, count. rewrite u32_small by lia. replace (back_ q + size_ q - front_ q) with (back_ q - front_ q + 1 * size_ q) by ring.
  apply Z_mod_plus_full.
Qed.

Lemma next_offset (x size : Z) : 2 ≤ size < 2 ^ 31 → 0 ≤ x < size → u32 (x + 1) mod size = if (x + 1 <? size)%Z then x + 1 else 0.
Proof.
  intros ? ?. rewrite u32_small by lia. destruct (_ <? _)%Z eqn:Hl; [apply Z.ltb_lt in Hl; apply Z.mod_small; lia|]. apply Z.ltb_ge in Hl.
  replace (x + 1) with size by lia. apply Z.mod_same. lia.
Qed.

Lemma is_full_count q : queue_ok q → is_full q = (count q =? size_ q - 1)%Z.
Proof.
  intros Hq. unfold is_full. rewrite count_eq by done. destruct Hq as [_ ? ? ?]. rewrite next_offset by done. apply eq_true_iff_eq. rewrite !Z.eqb_eq.
  destruct (back_ q + 1 <? size_ q)%Z eqn:H1; destruct (back_ q <? front_ q)%Z eqn:H2; rewrite ?Z.ltb_lt, ?Z.ltb_ge in *; lia.
Qed.

Lemma empty_count q : queue_ok q → (front_ q =? back_ q)%Z = (count q =? 0)%Z.
Proof.
  intros Hq. rewrite count_eq by done. destruct Hq as [_ ? ? ?]. apply eq_true_iff_eq. rewrite !Z.eqb_eq.
  destruct (back_ q <? front_ q)%Z eqn:H2; rewrite ?Z.ltb_lt, ?Z.ltb_ge in *; lia.
Qed.

(** *** Steps *)

Definition stored q (item : T) : AtomicQueue := mkAQ (<[Z.to_nat (back_ q) := item]> (queue_ q)) (size_ q) (front_ q) (back_ q).
Definition advanced q : AtomicQueue := mkAQ (queue_ q) (size_ q) (front_ q) (u32 (back_ q + 1) mod size_ q).
Definition popped q : AtomicQueue := mkAQ (queue_ q) (size_ q) (u32 (front_ q + 1) mod size_ q) (back_ q).

Lemma fmap_ext_seqZ {B} (f g : Z → B) m n : (∀ i, m ≤ i < m + n → f i = g i) → f <$> seqZ m n = g <$> seqZ m n.
Proof. intros Hfg. apply list_fmap_ext. intros j i Hi%list_elem_of_lookup_2%elem_of_seqZ. by apply Hfg. Qed.

(** An item is stored behind the content. *)
Lemma stored_ok q item : queue_ok q → queue_ok (stored q item) ∧ contents (stored q item) = contents q ∧ at_offset (stored q item) (back_ q) = item ∧
  ∀ x, 0 ≤ x < size_ q → x ≠ back_ q → at_offset (stored q item) x = at_offset q x.
Proof.
  intros Hq. pose proof (count_range q Hq). pose proof Hq as [Hs ? ? ?].
  assert (∀ x, 0 ≤ x < size_ q → x ≠ back_ q → at_offset (stored q item) x = at_offset q x) as Hne.
  { intros x Hx Hne. unfold at_offset. simpl. apply list_lookup_total_insert_ne. lia. }
  split_and!; [|..|done].
  - split; simpl; rewrite ?length_insert; done.
  - unfold contents. change (count (stored q item)) with (count q). apply fmap_ext_seqZ. intros i Hi. simpl.
    apply Hne; [apply Z.mod_pos_bound; lia|]. apply offset_ne; [done|lia|lia].
  - unfold at_offset. simpl. apply list_lookup_total_insert_eq. lia.
Qed.

(** The back advances over the stored item. *)
Lemma advanced_ok q : queue_ok q → count q + 1 < size_ q →
  queue_ok (advanced q) ∧ count (advanced q) = count q + 1 ∧ contents (advanced q) = contents q ++ [at_offset q (back_ q)].
Proof.
  intros Hq Hlt. pose proof Hq as [Hs ? ? ?]. pose proof (next_offset (back_ q) (size_ q)) as Hb.
  assert (queue_ok (advanced q)) as Hq' by (split; simpl; try done; apply Z.mod_pos_bound; lia).
  assert (count (advanced q) = count q + 1) as Hc.
  { rewrite !count_eq in * by done. simpl. rewrite Hb by done. destruct (back_ q + 1 <? size_ q)%Z eqn:H1; destruct (back_ q <? front_ q)%Z eqn:H2;
      match goal with |- context [(?a <? ?b)%Z] => destruct (a <? b)%Z eqn:? end; rewrite ?Z.ltb_lt, ?Z.ltb_ge in *; lia. }
  pose proof (count_range q Hq). split_and!; [done..|]. unfold contents. rewrite Hc, seqZ_app by lia. rewrite fmap_app. f_equal. simpl. by rewrite back_offset.
Qed.

(** The front advances over the first element. *)
Lemma popped_ok q : queue_ok q → 0 < count q →
  queue_ok (popped q) ∧ count (popped q) = count q - 1 ∧ contents q = at_offset q (front_ q) :: contents (popped q).
Proof.
  intros Hq Hlt. pose proof Hq as [Hs ? ? ?]. pose proof (next_offset (front_ q) (size_ q)) as Hf. pose proof (count_range q Hq).
  assert (queue_ok (popped q)) as Hq' by (split; simpl; try done; apply Z.mod_pos_bound; lia).
  assert (count (popped q) = count q - 1) as Hc.
  { rewrite !count_eq in * by done. simpl. rewrite Hf by done. destruct (front_ q + 1 <? size_ q)%Z eqn:H1; destruct (back_ q <? front_ q)%Z eqn:H2;
      match goal with |- context [(?a <? ?b)%Z] => destruct (a <? b)%Z eqn:? end; rewrite ?Z.ltb_lt, ?Z.ltb_ge in *; lia. }
  split_and!; [done..|]. unfold contents. rewrite Hc. set (n := count q - 1). replace (count q) with (1 + n) by lia. rewrite seqZ_app, fmap_app by lia. simpl.
  rewrite Z.add_0_r, Z.mod_small by lia. f_equal. change (0 + 1) with (1 + 0). rewrite <- (fmap_add_seqZ 1 0 n), <- list_fmap_compose. apply fmap_ext_seqZ.
  intros i Hi. simpl. unfold at_offset. simpl. f_equal. f_equal. rewrite u32_small by lia. rewrite Z.add_mod_idemp_l by lia. f_equal. lia.
Qed.

(** *** Growing *)

(** The copies in the new half, after [n] of them. *)
Lemma copied q n : queue_ok q → 0 ≤ n ≤ size_ q →
  let buffer := queue_ q ++ replicate (Z.to_nat (size_ q)) inhabitant in
  let l := foldl (λ l i, <[Z.to_nat (size_ q + i) := l !!! Z.to_nat ((front_ q + i) mod size_ q)]> l) buffer (seqZ 0 n) in
  length l = Z.to_nat (size_ q * 2) ∧ (∀ x, 0 ≤ x < size_ q → l !!! Z.to_nat x = at_offset q x) ∧
  ∀ i, 0 ≤ i < n → l !!! Z.to_nat (size_ q + i) = at_offset q ((front_ q + i) mod size_ q).
Proof.
  intros [Hs ? ? ?] Hn buffer. replace n with (Z.of_nat (Z.to_nat n)) by lia. assert (Z.of_nat (Z.to_nat n) ≤ size_ q) as Hle by lia.
  induction (Z.to_nat n) as [|m IH]; simpl.
  - split_and!; [unfold buffer; rewrite length_app, length_replicate; lia| |intros; lia]. intros x Hx. unfold at_offset, buffer.
    rewrite lookup_total_app_l by lia. done.
  - destruct IH as (H1' & H2' & H3'); [lia|]. replace (Z.of_nat (S m)) with (Z.of_nat m + 1) in * by lia. rewrite seqZ_app, foldl_app by lia. simpl.
    set (l := foldl _ buffer (seqZ 0 (Z.of_nat m))) in *. split_and!.
    + by rewrite length_insert.
    + intros x Hx. rewrite list_lookup_total_insert_ne by lia. by apply H2'.
    + intros i Hi. destruct (decide (i = Z.of_nat m)) as [->|Hne]; [|rewrite list_lookup_total_insert_ne by lia; apply H3'; lia].
      rewrite list_lookup_total_insert_eq by lia. apply H2', Z.mod_pos_bound. lia.
Qed.

Lemma grow_ok q : queue_ok q → size_ q * 2 < 2 ^ 31 →
  queue_ok (grow q) ∧ count (grow q) = count q ∧ size_ (grow q) = size_ q * 2 ∧ contents (grow q) = contents q.
Proof.
  intros Hq Hsz. pose proof (count_range q Hq) as Hc. destruct (copied q (count q) Hq) as (H1 & H2 & H3); [lia|]. pose proof Hq as [Hs ? ? ?].
  assert (grow q = mkAQ (foldl (λ l i, <[Z.to_nat (size_ q + i) := l !!! Z.to_nat ((front_ q + i) mod size_ q)]> l)
    (queue_ q ++ replicate (Z.to_nat (size_ q)) inhabitant) (seqZ 0 (count q))) (size_ q * 2) (size_ q) (size_ q + count q)) as Hg.
  { unfold grow. change (u32 (back_ q + size_ q - front_ q) mod size_ q) with (Size q). rewrite (Size_count q Hq), u32_small by lia. done. }
  set (l := foldl _ _ _) in *. assert (queue_ok (grow q)) as Hq' by (rewrite Hg; split; simpl; lia).
  assert (count (grow q) = count q) as Hcount.
  { rewrite count_eq by done. rewrite Hg. simpl. destruct (_ <? _)%Z eqn:Hl; rewrite ?Z.ltb_lt, ?Z.ltb_ge in *; lia. }
  split_and!; [done..|by rewrite Hg|]. unfold contents. rewrite Hcount. apply fmap_ext_seqZ. intros i Hi. rewrite Hg. unfold at_offset at 1. simpl.
  rewrite Z.mod_small by lia. apply H3. lia.
Qed.

(** *** Calls *)

(** What holds at the point a [Push] or a [Pop] is at; [n] bounds the calls so far. *)
Definition push_at (n : nat) q (p : pusher) : Prop :=
  match p with
  | PNone => True
  | PGrow _ => size_ q ≤ Z.of_nat n + 1
  | PStore _ => count q + 1 < size_ q ∧ count q + 1 ≤ Z.of_nat n
  | PAdvance item => (count q + 1 < size_ q ∧ count q + 1 ≤ Z.of_nat n) ∧ at_offset q (back_ q) = item
  end.

Definition pop_at q (o : popper) : Prop :=
  match o with ONone => True | OTake => 0 < count q | OAdvance v => 0 < count q ∧ at_offset q (front_ q) = v end.

Record state_ok (n : nat) s : Prop := {
  so_queue : queue_ok (st_queue s);
  so_size : size_ (st_queue s) ≤ 256 + 2 * Z.of_nat n;
  so_count : count (st_queue s) ≤ Z.of_nat n;
  so_push : push_at n (st_queue s) (st_push s);
  so_pop : pop_at (st_queue s) (st_pop s)
}.

Lemma push_at_mono n q q' p : push_at n q p → size_ q' = size_ q → count q' ≤ count q → at_offset q' (back_ q') = at_offset q (back_ q) → push_at (S n) q' p.
Proof. intros Hp Hs Hc Ha. destruct p; simpl in *; [done|lia|lia|]. rewrite Ha. destruct Hp as [? ?]. split; [lia|done]. Qed.

Lemma fifo_app l es l' es' l'' : fifo l es l' → fifo l' es' l'' → fifo l (es ++ es') l''.
Proof. induction 1; simpl; [done|constructor; auto..]. Qed.

Lemma aq_push_ok n s item s' es : state_ok n s → Push s item = Some (s', es) → state_ok (S n) s' ∧ fifo (contents (st_queue s)) es (contents (st_queue s')).
Proof.
  intros [Hq Hsz Hc _ Hpop]. unfold Push. destruct (st_push s); try done. intros [= <- <-]. split; [|constructor]. pose proof (count_range _ Hq).
  rewrite is_full_count by done. destruct (_ =? _)%Z eqn:Hf; rewrite ?Z.eqb_eq, ?Z.eqb_neq in Hf; split; simpl; try done; lia.
Qed.

Lemma aq_push_step_ok n s s' es : state_ok n s → Z.of_nat n < 2 ^ 29 → Push_step s = Some (s', es) →
  state_ok (S n) s' ∧ fifo (contents (st_queue s)) es (contents (st_queue s')).
Proof.
  intros [Hq Hsz Hc Hpush Hpop] Hn. pose proof (count_range _ Hq). unfold Push_step. destruct (st_push s) as [|item|item|item]; [done|..]; simpl in Hpush.
  - destruct (st_pop s) eqn:Ho; [|done..]. intros [= <- <-]. destruct (grow_ok (st_queue s) Hq) as (Hq' & Hc' & Hs' & Hco); [lia|].
    cbn [set_push st_queue]. rewrite Hco. split; [|constructor]. split; cbn [set_push st_queue st_push st_pop push_at]; rewrite ?Hc', ?Hs', ?Ho; try done; lia.
  - intros [= <- <-]. destruct (stored_ok (st_queue s) item Hq) as (Hq' & Hco & Hat & Hne). fold (stored (st_queue s) item). cbn [set_push st_queue]. rewrite Hco.
    split; [|constructor]. assert (count (stored (st_queue s) item) = count (st_queue s)) as Hcc by done.
    assert (size_ (stored (st_queue s) item) = size_ (st_queue s)) as Hss by done.
    split; cbn [set_push st_queue st_push st_pop]; [done|lia|lia|split; [lia|done]|]. destruct (st_pop s) as [| |v]; [done..|].
    destruct Hpop as [Hp <-]. split; [done|]. apply Hne; [apply (qo_front _ Hq)|].
    pose proof (offset_ne (st_queue s) 0 Hq ltac:(lia) ltac:(lia)) as Ho. by rewrite Z.add_0_r, Z.mod_small in Ho by apply (qo_front _ Hq).
  - intros [= <- <-]. destruct Hpush as ((Hlt & Hlt') & <-). destruct (advanced_ok (st_queue s) Hq Hlt) as (Hq' & Hc' & Hco). fold (advanced (st_queue s)).
    cbn [set_push st_queue]. rewrite Hco. split; [|repeat constructor]. split; cbn [set_push st_queue st_push st_pop push_at]; rewrite ?Hc'; try done; [simpl; lia|lia|].
    destruct (st_pop s); unfold pop_at in *; rewrite ?Hc'; try done; [lia|]. destruct Hpop. split; [lia|done].
Qed.

Lemma aq_pop_ok n s s' es : state_ok n s → Pop s = Some (s', es) → state_ok (S n) s' ∧ fifo (contents (st_queue s)) es (contents (st_queue s')).
Proof.
  intros [Hq Hsz Hc Hpush _]. pose proof (count_range _ Hq). unfold Pop. destruct (st_pop s) eqn:Ho; try done. rewrite empty_count by done.
  assert (push_at (S n) (st_queue s) (st_push s)) as Hpush' by (by eapply push_at_mono).
  destruct (_ =? 0)%Z eqn:He; rewrite ?Z.eqb_eq, ?Z.eqb_neq in He; intros [= <- <-].
  - split; [split; [done|lia|lia|done|by rewrite Ho]|]. unfold contents. rewrite He. repeat constructor.
  - split; [|constructor]. split; simpl; [done|lia|lia|done|lia].
Qed.

Lemma aq_pop_step_ok n s s' es : state_ok n s → Pop_step s = Some (s', es) → state_ok (S n) s' ∧ fifo (contents (st_queue s)) es (contents (st_queue s')).
Proof.
  intros [Hq Hsz Hc Hpush Hpop]. pose proof (count_range _ Hq). unfold Pop_step. destruct (st_pop s) as [| |v]; [done|..]; intros [= <- <-]; simpl in Hpop.
  - split; [|constructor]. split; simpl; [done|lia|lia|by eapply push_at_mono|done].
  - destruct Hpop as [Hp <-]. destruct (popped_ok (st_queue s) Hq Hp) as (Hq' & Hc' & Hco). fold (popped (st_queue s)). cbn [set_pop st_queue]. rewrite Hco.
    split; [|repeat constructor]. split; cbn [set_pop st_queue st_push st_pop pop_at]; rewrite ?Hc'; try done; [simpl; lia|lia|].
    eapply push_at_mono; [done|done|rewrite Hc'; lia|done].
Qed.

Lemma step_call_ok n s c s' es : state_ok n s → Z.of_nat n < 2 ^ 29 → step_call s c = Some (s', es) →
  state_ok (S n) s' ∧ fifo (contents (st_queue s)) es (contents (st_queue s')).
Proof. destruct c; simpl; [intros ? _; by apply aq_push_ok|apply aq_push_step_ok|intros ? _; by apply aq_pop_ok|intros ? _; by apply aq_pop_step_ok]. Qed.

Lemma aq_calls_ok cs : ∀ n s s' es, state_ok n s → Z.of_nat (n + length cs) ≤ 2 ^ 29 → calls s cs = Some (s', es) →
  state_ok (n + length cs) s' ∧ fifo (contents (st_queue s)) es (contents (st_queue s')).
Proof.
  induction cs as [|c cs IH]; intros n s s' es Hok Hn; simpl.
  - intros [= <- <-]. rewrite Nat.add_0_r. split; [done|constructor].
  - simpl in Hn. intros ([s1 es1] & Hs1 & ([s2 es2] & Hs2 & [= <- <-])%bind_Some)%bind_Some. simpl in *.
    destruct (step_call_ok n s c s1 es1 Hok) as [Hok1 Hf1]; [lia|done|]. destruct (IH (S n) s1 s2 es2 Hok1) as [Hok2 Hf2]; [lia|done|].
    rewrite Nat.add_succ_r. split; [done|]. by eapply fifo_app.
Qed.

Definition new_state : state := mkState new_AtomicQueue PNone ONone.

Lemma new_state_ok : state_ok 0 new_state.
Proof. split; [split; simpl; rewrite ?length_replicate; lia|simpl; lia|done|done|done]. Qed.

End queue.

Arguments AtomicQueue : clear implicits.
Arguments state : clear implicits.
Arguments call : clear implicits.

(** C22. With pushes and pops that overlap in any way, the queue is a queue: the
    effects, in the order in which they happen, are those of a
    first-in-first-out queue that was empty, a [Pop] returns false only when it
    is empty, and [Size] is the number of its elements; also when the buffer is
    full and is doubled. *)
Theorem atomic_queue_fifo {T} `{!Inhabited T} (cs : list (call T)) (s : state T) es : Z.of_nat (length cs) ≤ 2 ^ 29 →
  calls new_state cs = Some (s, es) → ∃ l, fifo [] es l ∧ contents (st_queue s) = l ∧ Size (st_queue s) = Z.of_nat (length l).
Proof.
  intros Hn Hc. destruct (aq_calls_ok cs 0 new_state s es new_state_ok Hn Hc) as [[Hq _ _ _ _] Hf]. exists (contents (st_queue s)).
  split; [done|]. split; [done|]. rewrite Size_count by done. pose proof (count_range _ Hq). unfold contents. rewrite length_fmap, length_seqZ. lia.
Qed.

(** The buffer is filled; a push finds it full, and an element is popped before the
    buffer is doubled; then a push and a pop overlap. *)
Definition filled : list (call Z) := concat ((λ i, [CPush i; CPushStep; CPushStep]) <$> seqZ 0 255).
Definition overlapping : list (call Z) :=
  filled ++ [CPush 255; CPop; CPopStep; CPopStep; CPushStep; CPushStep; CPop; CPushStep; CPopStep; CPopStep].

Lemma atomic_queue_fifo_witness : ∃ s es l, calls new_state overlapping = Some (s, es) ∧ size_ (st_queue s) = 512 ∧
  fifo [] es l ∧ Z.of_nat (length l) = 254.
Proof.
  assert (match calls new_state overlapping with Some x => (size_ (st_queue x.1) =? 512) && (Size (st_queue x.1) =? 254) | None => false end = true) as Hr
    by (vm_compute; reflexivity).
  destruct (calls new_state overlapping) as [[s es]|] eqn:Hc; [|discriminate]. exists s, es.
  apply andb_true_iff in Hr as [H1%Z.eqb_eq H2%Z.eqb_eq]. simpl in H1, H2.
  destruct (atomic_queue_fifo overlapping s es) as (l & Hf & _ & Hs); [vm_compute; discriminate|exact Hc|]. exists l. split; [reflexivity|].
  split; [exact H1|]. split; [exact Hf|]. rewrite <- Hs. exact H2.
Defined.
