(* ===== verification/CalvinLocks.v ===== *)
(** * Calvin: the lock manager

    src/calvin/src_calvin/scheduler/deterministic_lock_manager.{h,cc} and
    lock_manager.h.  A transaction requests all its locks at once; the requests
    of a key wait in a queue in the order of the transactions. *)

From Stdlib Require Import Ascii.
From S2P Require Import Prelude CalvinTxn.

(** The modes of requests; [UNLOCKED] is never one. *)
Inductive LockMode := READ | WRITE.

#[global] Instance LockMode_eq_dec : EqDecision LockMode.
Proof. solve_decision. Defined.

Record LockRequest := mkLockRequest { lr_mode : LockMode; lr_txn : TxnProto }.

(** A key and its queue. *)
Notation KeysList := (Key * list LockRequest)%type (only parsing).

(** [lock_table_] has a list for each hash value; an absent one is empty. *)
Record LockManager := mkLM {
  lock_table : gmap Z (list (Key * list LockRequest));
  ready_txns : list TxnProto;
  txn_waits : gmap TxnProto Z
}.

Notation TABLE_SIZE := 1000000%Z (only parsing).

(** [char] is signed. *)
Fixpoint hash_from (hash : Z) (key : string) : Z :=
  match key with
  | EmptyString => hash
  | String c key =>
      let b := Z.of_nat (nat_of_ascii c) in
      hash_from (u64 (Z.lxor hash (u64 (if (b <? 128)%Z then b else b - 256)) * 16777619)) key
  end.

Definition Hash (key : Key) : Z := i32 (hash_from 2166136261 key mod TABLE_SIZE).

Definition bucket (m : LockManager) (key : Key) : list (Key * list LockRequest) := default [] (lock_table m !! Hash key).

(** The search for the [KeysList] of [key]: its queue. *)
Fixpoint find_key (key : Key) (l : list (Key * list LockRequest)) : option (list LockRequest) :=
  match l with
  | [] => None
  | (k, rs) :: l => if decide (k = key) then Some rs else find_key key l
  end.

(** The queue of [key] becomes [rs]; a new [KeysList] is added at the end. *)
Fixpoint store_key (key : Key) (rs : list LockRequest) (l : list (Key * list LockRequest)) : list (Key * list LockRequest) :=
  match l with
  | [] => [(key, rs)]
  | (k, rs') :: l => if decide (k = key) then (k, rs) :: l else (k, rs') :: store_key key rs l
  end.

Fixpoint erase_key (key : Key) (l : list (Key * list LockRequest)) : list (Key * list LockRequest) :=
  match l with
  | [] => []
  | (k, rs) :: l => if decide (k = key) then l else (k, rs) :: erase_key key l
  end.

Definition set_bucket (m : LockManager) (key : Key) (l : list (Key * list LockRequest)) : LockManager :=
  mkLM (<[Hash key := l]> (lock_table m)) (ready_txns m) (txn_waits m).

Section lock_manager.
Context (IsLocal : Key → bool).

(** The body of the two loops of [Lock] for a key: the request is made unless the
    transaction has made one already; a write waits for any request before it, a
    read for a write. *)
Definition request (mode : LockMode) (txn : TxnProto) (x : LockManager * Z) (key : Key) : LockManager * Z :=
  let '(m, not_acquired) := x in
  if IsLocal key then
    let requests := default [] (find_key key (bucket m key)) in
    if decide (lr_txn <$> last requests = Some txn) then (m, not_acquired)
    else
      let requests' := requests ++ [mkLockRequest mode txn] in
      let waits := match mode with
                   | WRITE => (1 <? length requests')%nat
                   | READ => existsb (λ r, bool_decide (lr_mode r = WRITE)) requests'
                   end in
      (set_bucket m key (store_key key requests' (bucket m key)), if waits then not_acquired + 1 else not_acquired)
  else (m, not_acquired).

Definition Lock (m : LockManager) (txn : TxnProto) : LockManager * Z :=
  let '(m, not_acquired) := foldl (request WRITE txn) (m, 0) (read_write_set txn) in
  let '(m, not_acquired) := foldl (request READ txn) (m, not_acquired) (read_set txn) in
  (if (0 <? not_acquired)%Z then mkLM (lock_table m) (ready_txns m) (<[txn := not_acquired]> (txn_waits m))
   else mkLM (lock_table m) (ready_txns m ++ [txn]) (txn_waits m), not_acquired).

(** The requests before the one of [txn], that one and the ones after it. *)
Fixpoint seek (txn : TxnProto) (rs : list LockRequest) : option (list LockRequest * LockRequest * list LockRequest) :=
  match rs with
  | [] => None
  | r :: rs =>
      if decide (lr_txn r = txn) then Some ([], r, rs)
      else x ← seek txn rs; let '(before, target, after) := x in Some (r :: before, target, after)
  end.

Fixpoint leading_reads (rs : list LockRequest) : list TxnProto :=
  match rs with
  | r :: rs => match lr_mode r with READ => lr_txn r :: leading_reads rs | WRITE => [] end
  | [] => []
  end.

Definition new_owners (before : list LockRequest) (target : LockRequest) (after : list LockRequest) : list TxnProto :=
  let write_requests_precede_target := existsb (λ r, bool_decide (lr_mode r = WRITE)) before in
  match after with
  | [] => []
  | it :: _ =>
      if bool_decide (before = []) &&
         (bool_decide (lr_mode target = WRITE) || bool_decide (lr_mode target = READ) && bool_decide (lr_mode it = WRITE))
      then (if decide (lr_mode it = WRITE) then [lr_txn it] else []) ++ leading_reads after
      else if negb write_requests_precede_target && bool_decide (lr_mode target = WRITE) && bool_decide (lr_mode it = READ)
      then leading_reads after
      else []
  end.

(** A lock is granted to [owner]. *)
Definition grant (m : LockManager) (owner : TxnProto) : LockManager :=
  let w := default 0 (txn_waits m !! owner) - 1 in
  if (w =? 0)%Z then mkLM (lock_table m) (ready_txns m ++ [owner]) (delete owner (txn_waits m))
  else mkLM (lock_table m) (ready_txns m) (<[owner := w]> (txn_waits m)).

(** [Release(key, txn)]; [Panic] where the search for the key finds nothing, and
    its end is used. *)
Definition Release_key (txn : TxnProto) (m : LockManager) (key : Key) : outcome LockManager :=
  match find_key key (bucket m key) with
  | None => Panic
  | Some requests =>
      match seek txn requests with
      | None => Ret m
      | Some (before, target, after) =>
          let m := foldl grant m (new_owners before target after) in
          Ret (match before ++ after with
               | [] => set_bucket m key (erase_key key (bucket m key))
               | rs => set_bucket m key (store_key key rs (bucket m key))
               end)
      end
  end.

Definition Release (m : LockManager) (txn : TxnProto) : outcome LockManager :=
  let release := λ m key, if IsLocal key then Release_key txn m key else Ret m in
  m ← for_each release m (read_set txn);
  for_each release m (read_write_set txn).

End lock_manager.

Notation new_lock_manager := (mkLM ∅ [] ∅) (only parsing).
