(* ===== verification/CalvinLocksProps.v ===== *)
(** * Calvin: what the lock manager guarantees

    The lock table as a queue of transactions for each key.  A transaction is
    reported as ready exactly when none of its requests waits any more. *)

From Stdlib Require Import Ascii.
From S2P Require Import Prelude CalvinTxn CalvinLocks.

(** ** Buckets *)

Definition bucket_ok (l : list (Key * list LockRequest)) : Prop := NoDup l.*1.

Lemma find_store key key' rs l : find_key key' (store_key key rs l) = if decide (key = key') then Some rs else find_key key' l.
Proof.
  induction l as [|[k rs'] l IH]; simpl; [done|]. destruct (decide (k = key)) as [->|Hne]; simpl.
  - by destruct (decide (key = key')).
  - destruct (decide (k = key')) as [->|]; [by rewrite decide_False|done].
Qed.

Lemma find_key_None key l : find_key key l = None ↔ key ∉ l.*1.
Proof.
  induction l as [|[k rs] l IH]; simpl; [set_solver|]. case_decide; [subst; set_solver|]. rewrite IH. set_solver.
Qed.

Lemma find_erase key key' l : bucket_ok l → find_key key' (erase_key key l) = if decide (key = key') then None else find_key key' l.
Proof.
  unfold bucket_ok. induction l as [|[k rs'] l IH]; simpl; intros Hnd; [by repeat case_decide|]. apply NoDup_cons in Hnd as [Hk Hnd].
  destruct (decide (k = key)) as [->|Hne]; simpl.
  - destruct (decide (key = key')) as [->|]; [by apply find_key_None|done].
  - rewrite IH by done. destruct (decide (k = key')) as [->|]; [by rewrite decide_False|done].
Qed.

Lemma store_key_fst key rs l : (store_key key rs l).*1 = l.*1 ++ (if decide (key ∈ l.*1) then [] else [key]).
Proof.
  induction l as [|[k rs'] l IH]; csimpl; [done|]. destruct (decide (k = key)) as [->|Hne]; csimpl.
  - rewrite decide_True by apply list_elem_of_here. by rewrite app_nil_r.
  - rewrite IH. f_equal. f_equal. destruct (decide (key ∈ l.*1)); [by rewrite decide_True by set_solver|by rewrite decide_False by set_solver].
Qed.

Lemma store_key_ok key rs l : bucket_ok l → bucket_ok (store_key key rs l).
Proof.
  unfold bucket_ok. rewrite store_key_fst. case_decide; [by rewrite app_nil_r|]. intros ?. apply NoDup_app. split; [done|]. split; [|apply NoDup_singleton].
  set_solver.
Qed.

Lemma erase_key_sublist key l : erase_key key l `sublist_of` l.
Proof. induction l as [|[k rs] l IH]; simpl; [done|]. case_decide; [by apply sublist_cons|by apply sublist_skip]. Qed.

Lemma erase_key_ok key l : bucket_ok l → bucket_ok (erase_key key l).
Proof.
  unfold bucket_ok. intros Hnd. eapply sublist_NoDup; [done|]. apply fmap_sublist, erase_key_sublist.
Qed.

(** ** Queues *)

Lemma list_filter_ext_in {A} (P P' : A → Prop) `{∀ x, Decision (P x)} `{∀ x, Decision (P' x)} (l : list A) :
  (∀ x, x ∈ l → P x ↔ P' x) → filter P l = filter P' l.
Proof.
  induction l as [|x l IH]; intros Hl; [done|]. rewrite !filter_cons, IH by (intros; apply Hl; by right).
  destruct (decide (P x)) as [Hx|Hx]; [rewrite decide_True|rewrite decide_False]; try done; [by apply Hl; [left|]|]. rewrite <- Hl by (by left). done.
Qed.

Implicit Types (t o : TxnProto) (q : list TxnProto) (k : string).

Definition mode_of t k : LockMode := if decide (k ∈ read_write_set t) then WRITE else READ.

(** The transactions before [t]. *)
Fixpoint ahead t q : list TxnProto :=
  match q with [] => [] | x :: q => if decide (x = t) then [] else x :: ahead t q end.

Definition has_write k q : bool := existsb (λ t, bool_decide (mode_of t k = WRITE)) q.

(** The request of [t] waits. *)
Definition blocked k q t : bool :=
  match mode_of t k with WRITE => negb (bool_decide (ahead t q = [])) | READ => has_write k (ahead t q) end.

Definition reqs k q : list LockRequest := map (λ t, mkLockRequest (mode_of t k) t) q.

Lemma ahead_app t q1 q2 : ahead t (q1 ++ q2) = if decide (t ∈ q1) then ahead t q1 else q1 ++ ahead t q2.
Proof.
  induction q1 as [|x q1 IH]; simpl; [done|].
  destruct (decide (x = t)) as [->|Hne]; [by rewrite decide_True by apply list_elem_of_here|]. rewrite IH.
  destruct (decide (t ∈ q1)); [by rewrite decide_True by set_solver|by rewrite decide_False by set_solver].
Qed.

Lemma ahead_here t q1 q2 : t ∉ q1 → ahead t (q1 ++ t :: q2) = q1.
Proof. intros Ht. rewrite ahead_app, decide_False by done. simpl. rewrite decide_True by done. apply app_nil_r. Qed.

Lemma has_write_app k q1 q2 : has_write k (q1 ++ q2) = has_write k q1 || has_write k q2.
Proof. apply existsb_app. Qed.

Lemma blocked_snoc k q t o : o ∈ q → blocked k (q ++ [t]) o = blocked k q o.
Proof. intros Ho. unfold blocked. rewrite ahead_app, decide_True by done. done. Qed.

Lemma blocked_last k q t : t ∉ q → blocked k (q ++ [t]) t = match mode_of t k with WRITE => negb (bool_decide (q = [])) | READ => has_write k q end.
Proof. intros Ht. unfold blocked. by rewrite ahead_here. Qed.

Lemma seek_reqs k q t : seek t (reqs k q) = if decide (t ∈ q) then Some (reqs k (ahead t q), mkLockRequest (mode_of t k) t, reqs k (drop (S (length (ahead t q))) q)) else None.
Proof.
  induction q as [|x q IH]; simpl; [done|]. destruct (decide (x = t)) as [->|Hx].
  - by rewrite decide_True by apply list_elem_of_here.
  - fold (reqs k q). rewrite IH. destruct (decide (t ∈ q)); simpl; [by rewrite decide_True by set_solver|]. rewrite decide_False by set_solver. done.
Qed.

Lemma reqs_write k q : existsb (λ r, bool_decide (lr_mode r = WRITE)) (reqs k q) = has_write k q.
Proof. induction q as [|t q IH]; simpl; [done|]. by rewrite IH. Qed.

(** The reads at the head of a queue. *)
Lemma leading_reads_spec k q t : NoDup q → t ∈ leading_reads (reqs k q) ↔ t ∈ q ∧ mode_of t k = READ ∧ has_write k (ahead t q) = false.
Proof.
  induction q as [|x q IH]; simpl; intros Hnd; [set_solver|]. apply NoDup_cons in Hnd as [Hx Hnd].
  destruct (mode_of x k) eqn:Hm; simpl.
  - rewrite elem_of_cons, IH by done. split.
    + intros [->|(Ht & Hr & Hw)]; [rewrite decide_True by done; set_solver|]. rewrite decide_False by congruence. simpl. rewrite Hm.
      rewrite bool_decide_false by done. set_solver.
    + intros ([->|Ht]%elem_of_cons & Hr & Hw); [by left|]. right. rewrite decide_False in Hw by congruence. simpl in Hw. rewrite Hm in Hw.
      by rewrite bool_decide_false in Hw.
  - split; [set_solver|]. intros ([->|Ht]%elem_of_cons & Hr & Hw); [congruence|]. rewrite decide_False in Hw by congruence.
    simpl in Hw. by rewrite Hm, bool_decide_true in Hw.
Qed.

Lemma leading_reads_NoDup k q : NoDup q → NoDup (leading_reads (reqs k q)).
Proof.
  induction q as [|x q IH]; simpl; intros Hnd; [constructor|]. apply NoDup_cons in Hnd as [Hx Hnd].
  destruct (mode_of x k); simpl; [|constructor]. constructor; [|by apply IH].
  rewrite leading_reads_spec by done. naive_solver.
Qed.

Lemma blocked_before k pre t post o : o ∈ pre → blocked k (pre ++ t :: post) o = blocked k (pre ++ post) o.
Proof. intros Ho. unfold blocked. by rewrite !ahead_app, !decide_True by done. Qed.

(** The request of [o] behind [t], before and after [t] is released. *)
Lemma blocked_behind k pre t post o : o ∉ pre → o ≠ t →
  blocked k (pre ++ t :: post) o = match mode_of o k with
                                   | WRITE => true
                                   | READ => has_write k (pre ++ ahead o post) || bool_decide (mode_of t k = WRITE)
                                   end ∧
  blocked k (pre ++ post) o = match mode_of o k with
                              | WRITE => negb (bool_decide (pre ++ ahead o post = []))
                              | READ => has_write k (pre ++ ahead o post)
                              end.
Proof.
  intros Hpre Ht. unfold blocked. rewrite !ahead_app, !decide_False by done. simpl. rewrite decide_False by done. split; [|done].
  destruct (mode_of o k).
  - rewrite !has_write_app. simpl. destruct (has_write k pre), (bool_decide _), (has_write k (ahead o post)); done.
  - rewrite bool_decide_false; [done|]. by destruct pre.
Qed.

Lemma blocked_release k pre t post o : o ≠ t → blocked k (pre ++ post) o = true → blocked k (pre ++ t :: post) o = true.
Proof.
  intros Ht Hb. destruct (decide (o ∈ pre)); [by rewrite blocked_before|]. destruct (blocked_behind k pre t post o) as [-> Hb']; [done..|].
  rewrite Hb' in Hb. destruct (mode_of o k); [|done]. by rewrite Hb.
Qed.

(** A read is released: only a write at the head of what is left can go on. *)
Lemma owners_read k pre t post : mode_of t k = READ →
  new_owners (reqs k pre) (mkLockRequest (mode_of t k) t) (reqs k post) =
  match pre, post with [], x :: _ => if decide (mode_of x k = WRITE) then [x] else [] | _, _ => [] end.
Proof.
  intros Hmt. unfold new_owners. rewrite Hmt. destruct post as [|x post]; [by destruct pre|]. destruct pre; simpl; [|by rewrite andb_false_r].
  by destruct (mode_of x k).
Qed.

(** A write is released: the next write or the next reads can go on. *)
Lemma owners_write k t post : mode_of t k = WRITE →
  new_owners [] (mkLockRequest (mode_of t k) t) (reqs k post) =
  match post with x :: _ => if decide (mode_of x k = WRITE) then [x] else leading_reads (reqs k post) | [] => [] end.
Proof. intros Hmt. unfold new_owners. rewrite Hmt. destruct post as [|x post]; [done|]. simpl. by destruct (mode_of x k). Qed.

(** A released request was granted: a read without a write before it, or the first. *)
Lemma granted_cases k pre t post : NoDup (pre ++ t :: post) → blocked k (pre ++ t :: post) t = false →
  (mode_of t k = READ ∧ has_write k pre = false) ∨ (mode_of t k = WRITE ∧ pre = []).
Proof.
  intros (_ & Hdis & _)%NoDup_app Hb. unfold blocked in Hb. rewrite ahead_here in Hb by (intros Hin; apply (Hdis t Hin); by left).
  destruct (mode_of t k); [by left|]. right. split; [done|]. by apply negb_false_iff, bool_decide_eq_true in Hb.
Qed.

(** The new owners are the transactions that no longer wait. *)
Lemma new_owners_spec k pre t post o : NoDup (pre ++ t :: post) → blocked k (pre ++ t :: post) t = false → o ∈ pre ++ post →
  o ∈ new_owners (reqs k pre) (mkLockRequest (mode_of t k) t) (reqs k post) ↔
  blocked k (pre ++ t :: post) o = true ∧ blocked k (pre ++ post) o = false.
Proof.
  intros Hnd Hb Ho. pose proof (granted_cases _ _ _ _ Hnd Hb) as Hg. apply NoDup_app in Hnd as (Hnp & Hdis & Hnq). apply NoDup_cons in Hnq as [Htq Hnq].
  destruct (decide (o ∈ pre)) as [Hop|Hop].
  { rewrite blocked_before by done. split; [|naive_solver congruence]. destruct Hg as [[Hm _]|[_ ->]]; [|set_solver].
    rewrite owners_read by done. destruct pre; set_solver. }
  assert (o ∈ post) as Hoq by set_solver. assert (o ≠ t) as Hot by (by intros ->).
  destruct (blocked_behind k pre t post o) as [-> ->]; [done..|]. destruct post as [|x post]; [set_solver|]. cbn [ahead].
  destruct Hg as [[Hm Hw]|[Hm ->]].
  - rewrite owners_read by done. rewrite Hm, (bool_decide_false (READ = WRITE)), orb_false_r by done. destruct pre as [|y pre]; simpl.
    + destruct (decide (x = o)) as [->|Hx]; destruct (mode_of o k) eqn:Hmo; try (destruct (mode_of x k) eqn:Hmx); simpl;
        rewrite ?list_elem_of_singleton, ?elem_of_nil; intuition congruence.
    + destruct (mode_of o k); (split; [set_solver|]); intros [? ?]; congruence.
  - rewrite owners_write by done. rewrite Hm, (bool_decide_true (WRITE = WRITE)), orb_true_r by done. simpl ([] ++ _).
    destruct (decide (mode_of x k = WRITE)) as [Hmx|Hmx].
    + destruct (decide (x = o)) as [->|Hx]; [rewrite Hmx; set_solver|]. destruct (mode_of o k); simpl; rewrite ?Hmx; set_solver.
    + rewrite leading_reads_spec by done. cbn [ahead]. destruct (mode_of o k) eqn:Hmo; [set_solver|].
      destruct (decide (x = o)) as [->|Hx]; [congruence|]. rewrite bool_decide_false by done. set_solver.
Qed.

Lemma new_owners_NoDup k pre t post : NoDup (pre ++ t :: post) → blocked k (pre ++ t :: post) t = false →
  NoDup (new_owners (reqs k pre) (mkLockRequest (mode_of t k) t) (reqs k post)) ∧
  ∀ o, o ∈ new_owners (reqs k pre) (mkLockRequest (mode_of t k) t) (reqs k post) → o ∈ pre ++ post.
Proof.
  intros Hnd Hb. pose proof (granted_cases _ _ _ _ Hnd Hb) as Hg. apply NoDup_app in Hnd as (Hnp & Hdis & Hnq). apply NoDup_cons in Hnq as [_ Hnq].
  destruct Hg as [[Hm Hw]|[Hm ->]].
  - rewrite owners_read by done. destruct pre, post; try (split; [constructor|set_solver]). case_decide; (split; [|set_solver]); [apply NoDup_singleton|constructor].
  - rewrite owners_write by done. destruct post as [|x post]; [split; [constructor|set_solver]|]. case_decide; [split; [apply NoDup_singleton|set_solver]|].
    split; [by apply leading_reads_NoDup|]. intros o. rewrite leading_reads_spec by done. naive_solver.
Qed.

(** ** The table *)

Section manager.
Context (IsLocal : string → bool).
Implicit Types (m : LockManager) (Q : string → list TxnProto) (A X : list TxnProto).

(** The keys [t] locks at this node, in no set twice. *)
Definition lock_keys t : list string := filter (λ k, IsLocal k = true) (read_write_set t ++ read_set t).
Definition txn_ok t : Prop := NoDup (read_write_set t ++ read_set t).

Definition upd Q k q : string → list TxnProto := λ k', if decide (k = k') then q else Q k'.

(** The table has the queues [Q]. *)
Record table_ok Q m : Prop := {
  to_buckets h : bucket_ok (default [] (lock_table m !! h));
  to_find k : IsLocal k = true → find_key k (bucket m k) = match Q k with [] => None | q => Some (reqs k q) end;
  to_nodup k : NoDup (Q k);
  to_member k t : t ∈ Q k → k ∈ lock_keys t
}.

Lemma bucket_set m k l k' : bucket (set_bucket m k l) k' = if decide (Hash k = Hash k') then l else bucket m k'.
Proof. unfold bucket, set_bucket. simpl. rewrite lookup_insert. by case_decide. Qed.

Lemma set_bucket_ok m k l : (∀ h, bucket_ok (default [] (lock_table m !! h))) → bucket_ok l →
  ∀ h, bucket_ok (default [] (lock_table (set_bucket m k l) !! h)).
Proof. intros Hm Hl h. simpl. rewrite lookup_insert. by case_decide. Qed.

Lemma table_store Q m k q : table_ok Q m → q ≠ [] → NoDup q → (∀ t, t ∈ q → k ∈ lock_keys t) →
  table_ok (upd Q k q) (set_bucket m k (store_key k (reqs k q) (bucket m k))).
Proof.
  intros HQ Hq Hnd Hmem. split.
  - apply set_bucket_ok; [apply HQ|]. apply store_key_ok, HQ.
  - intros k' Hk'. rewrite bucket_set. unfold upd. destruct (decide (k = k')) as [->|Hne].
    + rewrite decide_True, find_store, decide_True by done. by destruct q.
    + rewrite <- (to_find _ _ HQ k' Hk'). destruct (decide (Hash k = Hash k')) as [Hh|]; [|done]. rewrite find_store, decide_False by done.
      unfold bucket. by rewrite Hh.
  - intros k'. unfold upd. case_decide; [done|apply HQ].
  - intros k' t. unfold upd. case_decide; [subst; apply Hmem|apply HQ].
Qed.

Lemma table_erase Q m k : table_ok Q m → table_ok (upd Q k []) (set_bucket m k (erase_key k (bucket m k))).
Proof.
  intros HQ. split.
  - apply set_bucket_ok; [apply HQ|]. apply erase_key_ok, HQ.
  - intros k' Hk'. rewrite bucket_set. unfold upd. destruct (decide (k = k')) as [->|Hne].
    + rewrite decide_True, find_erase, decide_True by (done || apply HQ). done.
    + rewrite <- (to_find _ _ HQ k' Hk'). destruct (decide (Hash k = Hash k')) as [Hh|]; [|done]. rewrite find_erase, decide_False by (done || apply HQ).
      unfold bucket. by rewrite Hh.
  - intros k'. unfold upd. case_decide; [constructor|apply HQ].
  - intros k' t. unfold upd. case_decide; [set_solver|apply HQ].
Qed.

Lemma table_requests Q m k : table_ok Q m → IsLocal k = true → default [] (find_key k (bucket m k)) = reqs k (Q k).
Proof. intros HQ Hk. rewrite (to_find _ _ HQ k Hk). by destruct (Q k). Qed.

(** ** Requests *)

Definition waiting_keys Q t : list string := filter (λ k, blocked k (Q k) t = true) (lock_keys t).
Definition count Q t : Z := Z.of_nat (length (waiting_keys Q t)).

(** [A] are the transactions that hold or wait for all their locks. *)
Record lm_inv A X Q m : Prop := {
  li_table : table_ok Q m;
  li_member k t : t ∈ Q k → t ∈ A ∨ t ∈ X;
  li_requests t k : t ∈ A → k ∈ lock_keys t → t ∈ Q k;
  li_disjoint t : t ∈ A → t ∉ X;
  li_waits t : txn_waits m !! t = if decide (t ∈ A ∧ 0 < count Q t) then Some (count Q t) else None
}.

Lemma count_ext Q Q' t : (∀ k, k ∈ lock_keys t → blocked k (Q k) t = blocked k (Q' k) t) → count Q t = count Q' t.
Proof. intros HQ. unfold count, waiting_keys. f_equal. f_equal. apply list_filter_ext_in. intros k Hk. by rewrite (HQ k Hk). Qed.

Lemma lm_inv_ext A X Q Q' m : (∀ k, Q k = Q' k) → lm_inv A X Q m → lm_inv A X Q' m.
Proof.
  intros HQ [[Hb Hf Hn Hm] Hmem Hr Hd Hw]. assert (∀ t, count Q t = count Q' t) as Hc by (intros t; apply count_ext; intros k _; by rewrite HQ).
  split; [split|..]; intros *; rewrite <- ?HQ, <- ?Hc; eauto.
Qed.

(** ** [Lock] *)

Lemma last_reqs k q : lr_txn <$> last (reqs k q) = last q.
Proof. unfold reqs. change (lr_txn <$> last ((λ t, mkLockRequest (mode_of t k) t) <$> q) = last q). rewrite fmap_last. by destruct (last q). Qed.

Lemma lock_keys_IsLocal t k : k ∈ lock_keys t → IsLocal k = true.
Proof. unfold lock_keys. rewrite list_elem_of_filter. naive_solver. Qed.

Lemma request_spec A X Q m c mode t k : lm_inv A X Q m → t ∈ X → t ∉ Q k → mode = mode_of t k → k ∈ lock_keys t →
  ∃ m', request IsLocal mode t (m, c) k = (m', if blocked k (Q k ++ [t]) t then c + 1 else c) ∧
    lm_inv A X (upd Q k (Q k ++ [t])) m' ∧ ready_txns m' = ready_txns m.
Proof.
  intros HI HX HQ -> Hk. pose proof (lock_keys_IsLocal _ _ Hk) as Hl. pose proof (li_table _ _ _ _ HI) as HT. unfold request.
  rewrite Hl, (table_requests _ _ _ HT Hl), last_reqs. rewrite decide_False by (intros Hlast%last_Some_elem_of; done).
  rewrite blocked_last by done. assert (reqs k (Q k) ++ [mkLockRequest (mode_of t k) t] = reqs k (Q k ++ [t])) as ->.
  { unfold reqs. by rewrite map_app. }
  exists (set_bucket m k (store_key k (reqs k (Q k ++ [t])) (bucket m k))). split; [f_equal|split; [|done]].
  - destruct (mode_of t k) eqn:Hm.
    + rewrite reqs_write, has_write_app. simpl. rewrite Hm. by rewrite (bool_decide_false (READ = WRITE)), !orb_false_r.
    + unfold reqs. rewrite length_map, length_app. simpl. destruct (Q k); simpl; [done|]. by destruct (length l).
  - split; simpl.
    + apply table_store; [done|by destruct (Q k)|apply NoDup_app; split; [apply HT|split; [set_solver|apply NoDup_singleton]]|].
      intros t' [Ht'|Ht'%list_elem_of_singleton]%elem_of_app; [by apply (to_member _ _ HT)|by subst].
    + intros k' t'. unfold upd. case_decide; [|apply HI]. intros [Ht'|Ht'%list_elem_of_singleton]%elem_of_app; [by apply (li_member _ _ _ _ HI k)|subst; by right].
    + intros t' k' Ht' Hk'. unfold upd. case_decide; [|by apply (li_requests _ _ _ _ HI)]. subst. apply elem_of_app. left. by apply (li_requests _ _ _ _ HI).
    + apply HI.
    + intros t'. rewrite (li_waits _ _ _ _ HI). destruct (decide (t' ∈ A)) as [Ht'|Ht']; [|by rewrite !decide_False by naive_solver].
      replace (count (upd Q k (Q k ++ [t])) t') with (count Q t'); [done|]. apply count_ext. intros k' Hk'. unfold upd. case_decide; [|done]. subst.
      symmetry. apply blocked_snoc. by apply (li_requests _ _ _ _ HI).
Qed.

(** The queues with [t] at the end for the keys [ks]. *)
Definition enqueue Q t (ks : list string) : string → list TxnProto := λ k, if decide (k ∈ ks ∧ IsLocal k = true) then Q k ++ [t] else Q k.

Lemma request_all A X mode t ks : t ∈ X → NoDup ks → (∀ k, k ∈ ks → mode = mode_of t k ∧ (IsLocal k = true → k ∈ lock_keys t)) →
  ∀ Q m c, lm_inv A X Q m → (∀ k, k ∈ ks → t ∉ Q k) →
  ∃ m', foldl (request IsLocal mode t) (m, c) ks =
          (m', c + Z.of_nat (length (filter (λ k, IsLocal k = true ∧ blocked k (Q k ++ [t]) t = true) ks))) ∧
    lm_inv A X (enqueue Q t ks) m' ∧ ready_txns m' = ready_txns m.
Proof.
  intros HX Hnd Hks. induction Hnd as [|k ks Hk Hnd IH]; intros Q m c HI HQ.
  - exists m. split; [simpl; f_equal; lia|]. split; [|done]. eapply lm_inv_ext; [|done]. intros k. unfold enqueue. rewrite decide_False; [done|]. by intros [?%elem_of_nil ?].
  - destruct (Hks k) as [Hmode Hlk]; [by left|]. cbn [foldl]. destruct (IsLocal k) eqn:Hl.
    + destruct (request_spec A X Q m c mode t k) as (m1 & -> & HI1 & Hr1); [done|done|apply HQ; by left|done|by apply Hlk|].
      destruct (IH ltac:(intros; apply Hks; by right) _ m1 (if blocked k (Q k ++ [t]) t then c + 1 else c) HI1) as (m' & Hf & HI' & Hr').
      { intros k' Hk'. unfold upd. rewrite decide_False by congruence. apply HQ. by right. }
      exists m'. split; [rewrite Hf; f_equal|split; [|congruence]].
      * rewrite filter_cons. destruct (blocked k (Q k ++ [t]) t) eqn:Hb.
        -- rewrite decide_True by done. simpl. rewrite (list_filter_ext_in (λ k0, IsLocal k0 = true ∧ blocked k0 (upd Q k (Q k ++ [t]) k0 ++ [t]) t = true)
             (λ k0, IsLocal k0 = true ∧ blocked k0 (Q k0 ++ [t]) t = true)); [lia|]. intros k' Hk'. unfold upd. by rewrite decide_False by congruence.
        -- rewrite decide_False by (by intros [? ?]). rewrite (list_filter_ext_in (λ k0, IsLocal k0 = true ∧ blocked k0 (upd Q k (Q k ++ [t]) k0 ++ [t]) t = true)
             (λ k0, IsLocal k0 = true ∧ blocked k0 (Q k0 ++ [t]) t = true)); [lia|]. intros k' Hk'. unfold upd. by rewrite decide_False by congruence.
      * eapply lm_inv_ext; [|done]. intros k'. unfold enqueue, upd. destruct (decide (k = k')) as [<-|Hne].
        -- rewrite decide_False by (by intros [? ?]). by rewrite decide_True by (split; [by left|done]).
        -- destruct (decide (k' ∈ ks ∧ IsLocal k' = true)) as [[? ?]|Hn]; [by rewrite decide_True by (split; [by right|done])|].
           rewrite decide_False; [done|]. intros [[->|?]%elem_of_cons ?]; [done|by apply Hn].
    + assert (request IsLocal mode t (m, c) k = (m, c)) as -> by (unfold request; by rewrite Hl).
      destruct (IH ltac:(intros; apply Hks; by right) Q m c HI ltac:(intros; apply HQ; by right)) as (m' & Hf & HI' & Hr').
      exists m'. split; [rewrite Hf; f_equal; rewrite filter_cons, decide_False by (intros [? ?]; congruence); done|]. split; [|done].
      eapply lm_inv_ext; [|done]. intros k'. unfold enqueue. destruct (decide (k' ∈ ks ∧ IsLocal k' = true)) as [[? ?]|Hn];
        [by rewrite decide_True by (split; [by right|done])|]. rewrite decide_False; [done|]. intros [[->|?]%elem_of_cons ?]; [congruence|by apply Hn].
Qed.

(** A transaction has asked for all its locks. *)
Lemma lm_inv_alive A X Q m t n r : lm_inv A (t :: X) Q m → t ∉ X → (∀ k, k ∈ lock_keys t → t ∈ Q k) → n = count Q t →
  lm_inv (A ++ [t]) X Q (mkLM (lock_table m) r (if (0 <? n)%Z then <[t := n]> (txn_waits m) else txn_waits m)).
Proof.
  intros HI HX Hk ->. assert (t ∉ A) as HtA by (intros Ht; apply (li_disjoint _ _ _ _ HI t Ht); by left). split.
  - destruct (li_table _ _ _ _ HI) as [Hb Hf Hn Hm]. by split.
  - intros k t' Ht'. destruct (li_member _ _ _ _ HI k t' Ht') as [?|[->|?]%elem_of_cons]; set_solver.
  - intros t' k [Ht'|Ht'%list_elem_of_singleton]%elem_of_app Hk'; [by apply (li_requests _ _ _ _ HI)|subst; by apply Hk].
  - intros t' [Ht'|Ht'%list_elem_of_singleton]%elem_of_app; [|by subst]. intros ?. apply (li_disjoint _ _ _ _ HI t' Ht'). by right.
  - intros t'. cbn [txn_waits]. pose proof (li_waits _ _ _ _ HI t') as Hw. destruct (decide (t' = t)) as [->|Hne].
    + rewrite decide_False in Hw by naive_solver. destruct (Z.ltb_spec 0 (count Q t)); [rewrite lookup_insert_eq, decide_True; set_solver|].
      rewrite Hw, decide_False; [done|lia].
    + assert ((if (0 <? count Q t)%Z then <[t := count Q t]> (txn_waits m) else txn_waits m) !! t' = txn_waits m !! t') as ->
        by (destruct (0 <? count Q t)%Z; [by rewrite lookup_insert_ne|done]).
      rewrite Hw. destruct (decide (t' ∈ A ∧ 0 < count Q t')); [rewrite decide_True; set_solver|rewrite decide_False; set_solver].
Qed.

Lemma lm_inv_start A X Q m t : lm_inv A X Q m → t ∉ A → lm_inv A (t :: X) Q m.
Proof.
  intros [HT Hm Hr Hd Hw] Ht. split; try done.
  - intros k t' Ht'. destruct (Hm k t' Ht'); [by left|right; by right].
  - intros t' Ht' [->|?]%elem_of_cons; [done|]. by apply (Hd t').
Qed.

(** [Lock] puts the transaction into the queues of its keys, counts the requests
    that wait, and reports the transaction if there are none. *)
Lemma Lock_spec A Q m t : lm_inv A [] Q m → t ∉ A → txn_ok t →
  let Q' := enqueue Q t (read_write_set t ++ read_set t) in
  ∃ m', Lock IsLocal m t = (m', count Q' t) ∧ lm_inv (A ++ [t]) [] Q' m' ∧
    ready_txns m' = ready_txns m ++ (if (0 <? count Q' t)%Z then [] else [t]).
Proof.
  intros HI HtA Hok Q'. assert (∀ k, t ∉ Q k) as HtQ.
  { intros k Hin. by destruct (li_member _ _ _ _ HI k t Hin) as [?|?%elem_of_nil]. }
  pose proof Hok as (Hn1 & Hdis & Hn2)%NoDup_app. unfold Lock.
  destruct (request_all A [t] WRITE t (read_write_set t) ltac:(by left) Hn1) with (Q := Q) (m := m) (c := 0) as (m1 & -> & HI1 & Hr1).
  { intros k Hk. unfold mode_of. rewrite decide_True by done. split; [done|]. intros Hl. apply list_elem_of_filter. set_solver. }
  { by apply lm_inv_start. }
  { done. }
  destruct (request_all A [t] READ t (read_set t) ltac:(by left) Hn2) with (Q := enqueue Q t (read_write_set t)) (m := m1)
    (c := 0 + Z.of_nat (length (filter (λ k, IsLocal k = true ∧ blocked k (Q k ++ [t]) t = true) (read_write_set t)))) as (m2 & -> & HI2 & Hr2); [|done| |].
  { intros k Hk. unfold mode_of. rewrite decide_False by (intros ?; by apply (Hdis k)). split; [done|]. intros Hl. apply list_elem_of_filter. set_solver. }
  { intros k Hk. unfold enqueue. rewrite decide_False; [done|]. intros [? _]. by apply (Hdis k). }
  assert (∀ k, enqueue (enqueue Q t (read_write_set t)) t (read_set t) k = Q' k) as HQ'.
  { intros k. unfold Q', enqueue. destruct (decide (k ∈ read_set t ∧ IsLocal k = true)) as [[Hk Hl]|Hn].
    - rewrite (decide_False (P := k ∈ read_write_set t ∧ _)) by (intros [? _]; by apply (Hdis k)). rewrite decide_True; [done|]. set_solver.
    - destruct (decide (k ∈ read_write_set t ∧ IsLocal k = true)) as [[? ?]|]; [rewrite decide_True; set_solver|rewrite decide_False; [done|]]. set_solver. }
  assert (0 + Z.of_nat (length (filter (λ k, IsLocal k = true ∧ blocked k (Q k ++ [t]) t = true) (read_write_set t))) +
    Z.of_nat (length (filter (λ k, IsLocal k = true ∧ blocked k (enqueue Q t (read_write_set t) k ++ [t]) t = true) (read_set t))) = count Q' t) as ->.
  { unfold count, waiting_keys, lock_keys. rewrite list_filter_filter, filter_app, length_app, Nat2Z.inj_add. f_equal; [rewrite Z.add_0_l|];
      f_equal; f_equal; apply list_filter_ext_in; intros k Hk; rewrite <- HQ'; unfold enqueue.
    - rewrite (decide_False (P := k ∈ read_set t ∧ _)) by (intros [? _]; by apply (Hdis k)). destruct (decide _) as [[_ Hl]|Hn]; naive_solver.
    - rewrite (decide_False (P := k ∈ read_write_set t ∧ _)) by (intros [? _]; by apply (Hdis k)). destruct (decide _) as [[_ Hl]|Hn]; naive_solver. }
  eexists. split; [reflexivity|]. split.
  - eapply lm_inv_ext in HI2; [|exact HQ']. pose proof (λ r, lm_inv_alive A [] Q' m2 t (count Q' t) r HI2 ltac:(apply not_elem_of_nil)) as Ha.
    destruct (0 <? count Q' t)%Z; apply Ha; try done.
    all: intros k [Hl Hk]%list_elem_of_filter; unfold Q', enqueue; rewrite decide_True by done; apply elem_of_app; right; by left.
  - destruct (0 <? count Q' t)%Z; simpl; rewrite Hr2, Hr1; [by rewrite app_nil_r|done].
Qed.

(** ** [Release] *)

Lemma filter_one_less {B} (P P' : B → Prop) `{∀ x, Decision (P x)} `{∀ x, Decision (P' x)} (l : list B) x :
  NoDup l → x ∈ l → P x → ¬ P' x → (∀ y, y ≠ x → P y ↔ P' y) → length (filter P l) = S (length (filter P' l)).
Proof.
  intros Hnd Hx HP HP' Heq. apply list_elem_of_split in Hx as (l1 & l2 & ->). apply NoDup_app in Hnd as (_ & Hdis & [Hx2 _]%NoDup_cons).
  rewrite !filter_app, !filter_cons, (decide_True _ _ HP), (decide_False _ _ HP'), !length_app. simpl.
  rewrite (list_filter_ext_in P P' l1), (list_filter_ext_in P P' l2); [lia|..]; intros y Hy; apply Heq; intros ->; [done|]. apply (Hdis x Hy). by left.
Qed.

Lemma lock_keys_NoDup t : txn_ok t → NoDup (lock_keys t).
Proof. apply NoDup_filter. Qed.

(** How the number of waiting requests changes when the queue of [k] does. *)
Lemma count_upd Q k q o : txn_ok o → k ∈ lock_keys o → (blocked k q o = true → blocked k (Q k) o = true) →
  count (upd Q k q) o = count Q o - (if blocked k (Q k) o && negb (blocked k q o) then 1 else 0).
Proof.
  intros Hok Hk Hmono. assert (∀ k', k' ≠ k → upd Q k q k' = Q k') as Hne by (intros k' ?; unfold upd; by rewrite decide_False).
  assert (upd Q k q k = q) as Heq by (unfold upd; by rewrite decide_True). destruct (blocked k q o) eqn:Hq.
  - rewrite (Hmono eq_refl). simpl. rewrite Z.sub_0_r. apply count_ext. intros k' _. destruct (decide (k' = k)) as [->|]; [|by rewrite Hne].
    by rewrite Heq, Hq, (Hmono eq_refl).
  - destruct (blocked k (Q k) o) eqn:HQ; simpl.
    + unfold count, waiting_keys. rewrite (filter_one_less (λ k, blocked k (Q k) o = true) (λ k', blocked k' (upd Q k q k') o = true) (lock_keys o) k); [lia|by apply lock_keys_NoDup|done|done|..].
      * by rewrite Heq, Hq.
      * intros k' Hk'. by rewrite Hne.
    + rewrite Z.sub_0_r. apply count_ext. intros k' _. destruct (decide (k' = k)) as [->|]; [|by rewrite Hne]. by rewrite Heq, Hq, HQ.
Qed.

Lemma grants_spec owners : NoDup owners → ∀ m,
  lock_table (foldl grant m owners) = lock_table m ∧
  ready_txns (foldl grant m owners) = ready_txns m ++ filter (λ o, default 0 (txn_waits m !! o) = 1) owners ∧
  ∀ o, txn_waits (foldl grant m owners) !! o =
    if decide (o ∈ owners) then (if decide (default 0 (txn_waits m !! o) = 1) then None else Some (default 0 (txn_waits m !! o) - 1))
    else txn_waits m !! o.
Proof.
  induction 1 as [|o owners Ho Hnd IH]; intros m; [by rewrite app_nil_r|]. simpl. destruct (IH (grant m o)) as (-> & -> & Hw).
  assert (lock_table (grant m o) = lock_table m) as -> by (unfold grant; by case_match).
  assert (∀ o', o' ≠ o → txn_waits (grant m o) !! o' = txn_waits m !! o') as Hother.
  { intros o' Hne. unfold grant. case_match; simpl; [by rewrite lookup_delete_ne|by rewrite lookup_insert_ne]. }
  split; [done|]. split.
  - rewrite filter_cons. rewrite (list_filter_ext_in (λ o0, default 0 (txn_waits (grant m o) !! o0) = 1) (λ o0, default 0 (txn_waits m !! o0) = 1)).
    2: { intros o' Ho'. rewrite Hother; [done|]. by intros ->. }
    unfold grant. destruct (Z.eqb_spec (default 0 (txn_waits m !! o) - 1) 0); simpl.
    + rewrite decide_True by lia. by rewrite <- app_assoc.
    + by rewrite decide_False by lia.
  - intros o'. rewrite Hw. destruct (decide (o' = o)) as [->|Hne].
    + rewrite (decide_False (P := o ∈ owners)) by done. rewrite (decide_True (P := o ∈ o :: owners)) by (by left). unfold grant.
      destruct (Z.eqb_spec (default 0 (txn_waits m !! o) - 1) 0); simpl.
      * rewrite lookup_delete_eq. by rewrite decide_True by lia.
      * rewrite lookup_insert_eq. by rewrite decide_False by lia.
    + rewrite Hother by done. destruct (decide (o' ∈ owners)); [by rewrite (decide_True (P := o' ∈ o :: owners)) by (by right)|].
      rewrite (decide_False (P := o' ∈ o :: owners)); [done|]. by intros [?|?]%elem_of_cons.
Qed.

Definition without t q : list TxnProto := filter (λ o, o ≠ t) q.

Lemma without_split t pre post : NoDup (pre ++ t :: post) → without t (pre ++ t :: post) = pre ++ post.
Proof.
  intros (_ & Hdis & [Ht _]%NoDup_cons)%NoDup_app. unfold without. rewrite filter_app, filter_cons, decide_False by naive_solver.
  rewrite !filter_all; [done|..]; apply Forall_forall; intros o Ho ->; [done|]. apply (Hdis t Ho). by left.
Qed.

Lemma drop_ahead t q : t ∈ q → q = ahead t q ++ t :: drop (S (length (ahead t q))) q.
Proof.
  induction q as [|x q IH]; [by intros ?%elem_of_nil|]. intros [->|Ht]%elem_of_cons; simpl; [by rewrite decide_True|].
  destruct (decide (x = t)) as [->|]; [done|]. simpl. f_equal. by apply IH.
Qed.

(** What a release changes: the transactions that become ready. *)
Definition released A Q Q' (news : list TxnProto) : Prop :=
  NoDup news ∧ (∀ o, o ∈ news ↔ o ∈ A ∧ 0 < count Q o ∧ count Q' o = 0) ∧ ∀ o, o ∈ A → count Q' o ≤ count Q o.

Lemma count_nonneg Q o : 0 ≤ count Q o.
Proof. unfold count. lia. Qed.

(** The waits after the new owners of [k] were granted it. *)
Lemma release_counts A Q m t k pre post : lm_inv A [t] Q m → Forall txn_ok A → Q k = pre ++ t :: post → blocked k (Q k) t = false →
  ∀ o, o ∈ A → let owners := new_owners (reqs k pre) (mkLockRequest (mode_of t k) t) (reqs k post) in
  count (upd Q k (pre ++ post)) o = count Q o - (if decide (o ∈ owners) then 1 else 0) ∧ (o ∈ owners → 0 < count Q o).
Proof.
  intros HI Hok Hq Hb o Ho owners. pose proof (to_nodup _ _ (li_table _ _ _ _ HI) k) as Hnd. rewrite Hq in Hnd, Hb.
  assert (o ≠ t) as Hot by (intros ->; apply (li_disjoint _ _ _ _ HI t Ho); by left).
  destruct (decide (k ∈ lock_keys o)) as [Hk|Hk].
  - assert (o ∈ pre ++ post) as Hin by (pose proof (li_requests _ _ _ _ HI o k Ho Hk) as Hr; rewrite Hq in Hr; set_solver).
    pose proof (new_owners_spec k pre t post o Hnd Hb Hin) as Hspec. rewrite count_upd; [|by apply (proj1 (Forall_forall _ _) Hok)|done|rewrite Hq; by apply blocked_release].
    rewrite Hq. split.
    + destruct (decide (o ∈ owners)) as [Hw|Hw].
      * apply Hspec in Hw as [-> ->]. done.
      * destruct (blocked k (pre ++ t :: post) o), (blocked k (pre ++ post) o); simpl; try done. exfalso. apply Hw. by apply Hspec.
    + intros [Hbo _]%Hspec. unfold count, waiting_keys. rewrite <- Hq in Hbo.
      assert (k ∈ filter (λ k, blocked k (Q k) o = true) (lock_keys o)) as Hf by (by apply list_elem_of_filter).
      destruct (filter _ _); [by apply elem_of_nil in Hf|]. simpl. lia.
  - assert (o ∉ owners) as Hno.
    { intros Hw%new_owners_NoDup; [|done|done]. apply Hk. apply (to_member _ _ (li_table _ _ _ _ HI)). rewrite Hq. set_solver. }
    rewrite decide_False by done. split; [|done]. rewrite Z.sub_0_r. apply count_ext. intros k' Hk'. unfold upd. rewrite decide_False; [done|]. by intros ->.
Qed.

Lemma Release_key_spec A Q m t k : lm_inv A [t] Q m → Forall txn_ok A → IsLocal k = true → t ∈ Q k → blocked k (Q k) t = false →
  ∃ m' news, Release_key t m k = Ret m' ∧ lm_inv A [t] (upd Q k (without t (Q k))) m' ∧
    ready_txns m' = ready_txns m ++ news ∧ released A Q (upd Q k (without t (Q k))) news.
Proof.
  intros HI Hok Hl Ht Hb. pose proof (li_table _ _ _ _ HI) as HT. pose proof (to_nodup _ _ HT k) as Hnd. unfold Release_key.
  pose proof (drop_ahead t (Q k) Ht) as Hq. set (pre := ahead t (Q k)) in *. set (post := drop _ (Q k)) in *.
  assert (without t (Q k) = pre ++ post) as -> by (rewrite Hq in Hnd |- *; by apply without_split).
  assert (find_key k (bucket m k) = Some (reqs k (Q k))) as -> by (rewrite (to_find _ _ HT k Hl); destruct (Q k); [by apply elem_of_nil in Ht|done]).
  rewrite seek_reqs, decide_True by done. fold pre. fold post.
  set (owners := new_owners _ _ _). pose proof (release_counts A Q m t k pre post HI Hok Hq Hb) as Hc.
  destruct (new_owners_NoDup k pre t post) as [HnO HsubO]; [by rewrite <- Hq|by rewrite <- Hq|]. fold owners in HnO, HsubO.
  destruct (grants_spec owners HnO m) as (Htab & Hready & Hwaits). set (m1 := foldl grant m owners) in *.
  assert (∀ o, o ∈ owners → o ∈ A) as HOA.
  { intros o Ho. assert (o ∈ Q k) as HoQ by (rewrite Hq; specialize (HsubO o Ho); set_solver).
    destruct (li_member _ _ _ _ HI k o HoQ) as [?|Hot%list_elem_of_singleton]; [done|]. subst. rewrite Hq in Hnd.
    apply NoDup_app in Hnd as (_ & Hdis & [Htp _]%NoDup_cons). specialize (HsubO t Ho). apply elem_of_app in HsubO as [?|?]; [|done].
    exfalso. apply (Hdis t); [done|by left]. }
  assert (table_ok Q m1) as HT1.
  { destruct HT as [H1 H2 H3 H4]. split; try done; unfold bucket; by rewrite Htab. }
  assert (NoDup (pre ++ post)) as Hnpp.
  { rewrite Hq in Hnd. eapply sublist_NoDup; [exact Hnd|]. apply sublist_app; [done|by apply sublist_cons]. }
  assert (∀ o, o ∈ pre ++ post → k ∈ lock_keys o) as Hmem by (intros o Ho; apply (to_member _ _ HT); rewrite Hq; set_solver).
  assert (bucket m1 k = bucket m k) as Hbk by (unfold bucket; by rewrite Htab).
  assert (∀ l, lm_inv A [t] (upd Q k (pre ++ post)) (set_bucket m1 k l) ↔ table_ok (upd Q k (pre ++ post)) (set_bucket m1 k l)) as Hinv.
  { intros l. split; [by intros []|]. intros HT'. split; [done|..].
    - intros k' o. unfold upd. case_decide; [|apply HI]. subst. intros Ho. apply (li_member _ _ _ _ HI k'). rewrite Hq. set_solver.
    - intros o k' Ho Hk'. unfold upd. pose proof (li_requests _ _ _ _ HI o k' Ho Hk') as Hr. case_decide; [|done]. subst. rewrite Hq in Hr.
      apply elem_of_app in Hr as [?|[->|?]%elem_of_cons]; [set_solver| |set_solver]. exfalso. apply (li_disjoint _ _ _ _ HI t Ho). by left.
    - apply HI.
    - intros o. simpl. rewrite Hwaits. pose proof (li_waits _ _ _ _ HI o) as Hw. destruct (decide (o ∈ A)) as [HoA|HoA].
      + destruct (Hc o HoA) as [Hco Hpos]. fold owners in Hco, Hpos. pose proof (count_nonneg Q o). rewrite Hco, Hw. destruct (decide (o ∈ owners)) as [Ho|Ho].
        * rewrite (decide_True (P := o ∈ A ∧ 0 < count Q o)) by auto. simpl. specialize (Hpos Ho).
          destruct (decide (count Q o = 1)); [by rewrite (decide_False (P := o ∈ A ∧ 0 < count Q o - 1)) by lia|].
          by rewrite (decide_True (P := o ∈ A ∧ 0 < count Q o - 1)) by (split; [done|lia]).
        * by rewrite Z.sub_0_r.
      + rewrite decide_False by (intros ?; by apply HoA, HOA). by rewrite Hw, !decide_False by naive_solver. }
  exists (match reqs k pre ++ reqs k post with [] => set_bucket m1 k (erase_key k (bucket m1 k)) | rs => set_bucket m1 k (store_key k rs (bucket m1 k)) end),
    (filter (λ o, default 0 (txn_waits m !! o) = 1) owners). split; [by rewrite Hbk|]. unfold released. split_and!.
  - assert (reqs k pre ++ reqs k post = reqs k (pre ++ post)) as -> by (unfold reqs; by rewrite map_app).
    destruct (pre ++ post) as [|y l] eqn:Hpp; simpl; apply Hinv; [by apply table_erase|]. by apply (table_store Q m1 k (y :: l)).
  - by case_match.
  - by apply NoDup_filter.
  - intros o. rewrite list_elem_of_filter, (li_waits _ _ _ _ HI). split.
    + intros [H1 Ho]. specialize (HOA o Ho). destruct (Hc o HOA) as [-> Hpos]. fold owners. specialize (Hpos Ho). rewrite (decide_True (P := o ∈ owners)) by done.
      rewrite decide_True in H1 by done. simpl in H1. split_and!; [done|done|lia].
    + intros (HoA & Hpos & Hz). destruct (Hc o HoA) as [Hco _]. fold owners in Hco. destruct (decide (o ∈ owners)) as [Ho|Ho]; [|lia].
      split; [|done]. rewrite decide_True by done. simpl. lia.
  - intros o HoA. destruct (Hc o HoA) as [-> _]. case_decide; lia.
Qed.

(** The queues without [t] for the keys [ks]. *)
Definition dequeue Q t (ks : list string) : string → list TxnProto :=
  λ k, if decide (k ∈ ks ∧ IsLocal k = true) then without t (Q k) else Q k.

Lemma released_nil A Q Q' : (∀ o, o ∈ A → count Q' o = count Q o) → released A Q Q' [].
Proof.
  intros Hc. split; [constructor|]. split; [|intros o Ho; rewrite Hc; [lia|done]]. intros o. split; [by intros ?%elem_of_nil|].
  intros (Ho & Hpos & Hz). rewrite Hc in Hz by done. lia.
Qed.

Lemma released_app A Q Q' Q'' l l' : released A Q Q' l → released A Q' Q'' l' → released A Q Q'' (l ++ l').
Proof.
  intros (Hn & Hin & Hle) (Hn' & Hin' & Hle'). split; [|split].
  - apply NoDup_app. split; [done|]. split; [|done]. intros o (_ & _ & Hz)%Hin (_ & Hp & _)%Hin'. lia.
  - intros o. rewrite elem_of_app, Hin, Hin'. split.
    + intros [(Ho & Hp & Hz)|(Ho & Hp & Hz)]; specialize (Hle o Ho); specialize (Hle' o Ho); pose proof (count_nonneg Q'' o); split_and!; try done; lia.
    + intros (Ho & Hp & Hz). destruct (decide (count Q' o = 0)); [by left|]. right. pose proof (count_nonneg Q' o). split_and!; [done|lia|done].
  - intros o Ho. specialize (Hle o Ho). specialize (Hle' o Ho). lia.
Qed.

Lemma release_all A t ks : Forall txn_ok A → NoDup ks → ∀ Q m, lm_inv A [t] Q m →
  (∀ k, k ∈ ks → IsLocal k = true → t ∈ Q k ∧ blocked k (Q k) t = false) →
  ∃ m' news, for_each (λ m key, if IsLocal key then Release_key t m key else Ret m) m ks = Ret m' ∧
    lm_inv A [t] (dequeue Q t ks) m' ∧ ready_txns m' = ready_txns m ++ news ∧ released A Q (dequeue Q t ks) news.
Proof.
  intros Hok Hnd. induction Hnd as [|k ks Hk Hnd IH]; intros Q m HI HQ.
  - exists m, []. split; [done|]. assert (∀ k, Q k = dequeue Q t [] k) as Heq by (intros k; unfold dequeue; rewrite decide_False; [done|by intros [?%elem_of_nil ?]]).
    split; [by eapply lm_inv_ext|]. split; [by rewrite app_nil_r|]. apply released_nil. intros o _. apply count_ext. intros k _. by rewrite <- Heq.
  - simpl. destruct (IsLocal k) eqn:Hl.
    + destruct (HQ k) as [Ht Hb]; [by left|done|]. destruct (Release_key_spec A Q m t k HI Hok Hl Ht Hb) as (m1 & news1 & -> & HI1 & Hr1 & Hrel1).
      cbn [mbind outcome_bind]. destruct (IH _ m1 HI1) as (m2 & news2 & -> & HI2 & Hr2 & Hrel2).
      { intros k' Hk' Hl'. unfold upd. rewrite decide_False by (by intros ->). apply HQ; [by right|done]. }
      assert (∀ k', dequeue (upd Q k (without t (Q k))) t ks k' = dequeue Q t (k :: ks) k') as Heq.
      { intros k'. unfold dequeue, upd. destruct (decide (k = k')) as [<-|Hne].
        - rewrite decide_False by (by intros [? _]). by rewrite decide_True by (split; [by left|done]).
        - destruct (decide (k' ∈ ks ∧ IsLocal k' = true)) as [[? ?]|Hn]; [by rewrite decide_True by (split; [by right|done])|].
          rewrite decide_False; [done|]. intros [[->|?]%elem_of_cons ?]; [done|by apply Hn]. }
      exists m2, (news1 ++ news2). split; [done|]. split; [by eapply lm_inv_ext|]. split; [by rewrite Hr2, Hr1, <- app_assoc|].
      eapply released_app; [done|]. destruct Hrel2 as (H1 & H2 & H3). assert (∀ o, count (dequeue (upd Q k (without t (Q k))) t ks) o = count (dequeue Q t (k :: ks)) o) as Hc.
      { intros o. apply count_ext. intros k' _. by rewrite Heq. }
      split; [done|]. split; intros o; rewrite <- Hc; [apply H2|apply H3].
    + cbn [mbind outcome_bind]. destruct (IH Q m HI) as (m2 & news2 & -> & HI2 & Hr2 & Hrel2); [intros; apply HQ; [by right|done]|].
      assert (∀ k', dequeue Q t ks k' = dequeue Q t (k :: ks) k') as Heq.
      { intros k'. unfold dequeue. destruct (decide (k' ∈ ks ∧ IsLocal k' = true)) as [[? ?]|Hn]; [by rewrite decide_True by (split; [by right|done])|].
        rewrite decide_False; [done|]. intros [[->|?]%elem_of_cons ?]; [congruence|by apply Hn]. }
      exists m2, news2. split; [done|]. split; [by eapply lm_inv_ext|]. split; [done|]. destruct Hrel2 as (H1 & H2 & H3).
      assert (∀ o, count (dequeue Q t ks) o = count (dequeue Q t (k :: ks)) o) as Hc by (intros o; apply count_ext; intros k' _; by rewrite Heq).
      split; [done|]. split; intros o; rewrite <- Hc; [apply H2|apply H3].
Qed.

(** ** The abstract lock manager *)

Implicit Types L : list TxnProto.

(** The transactions that have locked and not released, in order, determine the
    queues; one waits if a request of it is behind a conflicting one. *)
Definition queues L : string → list TxnProto := λ k, filter (λ t, k ∈ lock_keys t) L.
Definition waits L t : Prop := 0 < count (queues L) t.

#[global] Instance waits_dec L t : Decision (waits L t).
Proof. unfold waits. apply _. Defined.

Record lm_ok L m : Prop := {
  lo_inv : lm_inv L [] (queues L) m;
  lo_nodup : NoDup L;
  lo_txns : Forall txn_ok L
}.

Lemma new_lock_manager_ok : lm_ok [] new_lock_manager.
Proof.
  split; [|constructor|constructor]. split.
  - split; [intros h; constructor|done|intros k; constructor|]. by intros k t ?%elem_of_nil.
  - by intros k t ?%elem_of_nil.
  - by intros t k ?%elem_of_nil.
  - by intros t ?%elem_of_nil.
  - intros t. rewrite decide_False; [done|]. by intros [?%elem_of_nil _].
Qed.

Lemma lock_keys_elem t k : k ∈ lock_keys t ↔ k ∈ read_write_set t ++ read_set t ∧ IsLocal k = true.
Proof. unfold lock_keys. rewrite list_elem_of_filter. naive_solver. Qed.

Theorem lm_Lock L m t : lm_ok L m → t ∉ L → txn_ok t →
  ∃ m', Lock IsLocal m t = (m', count (queues (L ++ [t])) t) ∧ lm_ok (L ++ [t]) m' ∧
    ready_txns m' = ready_txns m ++ (if decide (waits (L ++ [t]) t) then [] else [t]).
Proof.
  intros [HI Hnd Hok] Ht Htok. destruct (Lock_spec L (queues L) m t HI Ht Htok) as (m' & Hlock & HI' & Hr).
  assert (∀ k, enqueue (queues L) t (read_write_set t ++ read_set t) k = queues (L ++ [t]) k) as Heq.
  { intros k. unfold enqueue, queues. rewrite filter_app, filter_cons, filter_nil. destruct (decide (k ∈ lock_keys t)) as [Hk|Hk]; rewrite lock_keys_elem in Hk;
      [by rewrite decide_True|by rewrite decide_False, app_nil_r]. }
  assert (count (enqueue (queues L) t (read_write_set t ++ read_set t)) t = count (queues (L ++ [t])) t) as Hc by (apply count_ext; intros k _; by rewrite Heq).
  rewrite Hc in Hlock, Hr. exists m'. split; [done|]. split.
  - split; [by eapply lm_inv_ext| |apply Forall_app; by repeat constructor]. apply NoDup_app. split; [done|]. split; [set_solver|apply NoDup_singleton].
  - rewrite Hr. unfold waits. destruct (Z.ltb_spec 0 (count (queues (L ++ [t])) t)); [by rewrite decide_True|rewrite decide_False by lia]. done.
Qed.

Lemma not_waiting L t k : ¬ waits L t → k ∈ lock_keys t → blocked k (queues L k) t = false.
Proof.
  unfold waits, count, waiting_keys. intros Hw Hk. destruct (blocked k (queues L k) t) eqn:Hb; [|done]. exfalso. apply Hw.
  assert (k ∈ filter (λ k, blocked k (queues L k) t = true) (lock_keys t)) as Hf by (by apply list_elem_of_filter).
  destruct (filter _ _); [by apply elem_of_nil in Hf|]. simpl. lia.
Qed.

Lemma without_elem t o L : o ∈ without t L ↔ o ≠ t ∧ o ∈ L.
Proof. unfold without. by rewrite list_elem_of_filter. Qed.

Theorem lm_Release L m t : lm_ok L m → t ∈ L → ¬ waits L t →
  ∃ m' news, Release IsLocal m t = Ret m' ∧ lm_ok (without t L) m' ∧ ready_txns m' = ready_txns m ++ news ∧
    NoDup news ∧ ∀ o, o ∈ news ↔ o ∈ without t L ∧ waits L o ∧ ¬ waits (without t L) o.
Proof.
  intros [HI Hnd Hok] Ht Hw. assert (Forall txn_ok (without t L)) as Hok' by (by apply Forall_filter).
  pose proof (proj1 (Forall_forall _ _) Hok t Ht) as Htok. pose proof Htok as (Hn1 & Hdis & Hn2)%NoDup_app.
  assert (lm_inv (without t L) [t] (queues L) m) as HI0.
  { destruct HI as [HT Hm Hr Hd Hwt]. split; [done|..].
    - intros k o Ho. destruct (decide (o = t)) as [->|]; [right; by left|]. left. apply without_elem. split; [done|]. by destruct (Hm k o Ho) as [?|?%elem_of_nil].
    - intros o k [_ Ho]%without_elem. by apply Hr.
    - intros o [Hne _]%without_elem ?%list_elem_of_singleton. done.
    - intros o. rewrite Hwt. destruct (decide (o ∈ L ∧ 0 < count (queues L) o)) as [[HoL Hc]|Hn].
      + rewrite decide_True; [done|]. split; [|done]. apply without_elem. split; [|done]. by intros ->.
      + rewrite decide_False; [done|]. intros [[_ ?]%without_elem ?]. by apply Hn. }
  assert (∀ k, k ∈ lock_keys t → t ∈ queues L k ∧ blocked k (queues L k) t = false) as Hmine.
  { intros k Hk. split; [by apply list_elem_of_filter|]. by apply not_waiting. }
  unfold Release. destruct (release_all (without t L) t (read_set t) Hok' Hn2 (queues L) m HI0) as (m1 & news1 & -> & HI1 & Hr1 & Hrel1).
  { intros k Hk Hl. apply Hmine, lock_keys_elem. set_solver. }
  cbn [mbind outcome_bind]. destruct (release_all (without t L) t (read_write_set t) Hok' Hn1 _ m1 HI1) as (m2 & news2 & -> & HI2 & Hr2 & Hrel2).
  { intros k Hk Hl. unfold dequeue. rewrite decide_False by (intros [? _]; by apply (Hdis k)). apply Hmine, lock_keys_elem. set_solver. }
  assert (∀ k, dequeue (dequeue (queues L) t (read_set t)) t (read_write_set t) k = queues (without t L) k) as Heq.
  { intros k. assert (queues (without t L) k = without t (queues L k)) as Hq.
    { unfold queues, without. rewrite !list_filter_filter. apply list_filter_ext_in. naive_solver. }
    destruct (decide (k ∈ lock_keys t)) as [Hk|Hk]; rewrite lock_keys_elem in Hk; unfold dequeue.
    - destruct Hk as [[Hk|Hk]%elem_of_app Hl].
      + rewrite decide_True by done. rewrite decide_False by (intros [? _]; by apply (Hdis k)). done.
      + rewrite decide_False by (intros [? _]; by apply (Hdis k)). rewrite decide_True by done. done.
    - rewrite !decide_False by set_solver. rewrite Hq. unfold without. rewrite filter_all; [done|]. apply Forall_forall.
      intros o Ho ->. apply list_elem_of_filter in Ho as [Ho _]. apply Hk. by apply lock_keys_elem. }
  destruct (released_app _ _ _ _ _ _ Hrel1 Hrel2) as (HnN & HinN & _).
  exists m2, (news1 ++ news2). split; [done|]. split; [|split; [by rewrite Hr2, Hr1, <- app_assoc|split; [done|]]].
  - split; [|by apply NoDup_filter|done]. eapply lm_inv_ext in HI2; [|exact Heq]. destruct HI2 as [HT Hm Hr Hd Hwt]. split; try done; [|set_solver].
    intros k o Ho. left. destruct (Hm k o Ho) as [?|Hot%list_elem_of_singleton]; [done|]. subst. apply list_elem_of_filter in Ho as [_ Ho]. done.
  - intros o. rewrite HinN. assert (count (dequeue (dequeue (queues L) t (read_set t)) t (read_write_set t)) o = count (queues (without t L)) o) as ->
      by (apply count_ext; intros k _; by rewrite Heq).
    unfold waits. pose proof (count_nonneg (queues (without t L)) o). split; intros (? & ? & ?); split_and!; try done; lia.
Qed.

(** ** Who waits for whom *)

Lemma ahead_filter (P : TxnProto → Prop) `{∀ t, Decision (P t)} t L : P t → ahead t (filter P L) = filter P (ahead t L).
Proof.
  intros HP. induction L as [|x L IH]; [done|]. rewrite filter_cons. simpl ahead at 2. destruct (decide (x = t)) as [->|Hne].
  - rewrite decide_True by done. simpl. by rewrite decide_True.
  - rewrite filter_cons. destruct (decide (P x)); [|done]. simpl. rewrite decide_False by done. by rewrite IH.
Qed.

Lemma ahead_sub t q a : a ∈ ahead t q → a ∈ q.
Proof.
  induction q as [|x q IH]; simpl; [done|]. destruct (decide (x = t)); [by intros ?%elem_of_nil|]. rewrite !elem_of_cons. naive_solver.
Qed.

(** [k] is a local key that one of [a] and [t] writes and the other uses. *)
Definition conflict k a t : Prop := k ∈ lock_keys a ∧ k ∈ lock_keys t ∧ (k ∈ read_write_set a ∨ k ∈ read_write_set t).

Lemma blocked_spec L t k : k ∈ lock_keys t → blocked k (queues L k) t = true ↔ ∃ a, a ∈ ahead t L ∧ conflict k a t.
Proof.
  intros Hk. unfold blocked, queues. rewrite ahead_filter by done. unfold mode_of at 1. destruct (decide (k ∈ read_write_set t)) as [Hw|Hw].
  - rewrite negb_true_iff, bool_decide_eq_false. split.
    + destruct (filter _ _) as [|a l] eqn:Hf; [done|]. intros _. exists a.
      assert (a ∈ filter (λ a, k ∈ lock_keys a) (ahead t L)) as [? ?]%list_elem_of_filter by (rewrite Hf; left). by repeat split; auto.
    + intros (a & Ha & Hka & _) Hn. assert (a ∈ filter (λ a, k ∈ lock_keys a) (ahead t L)) as Hin by (by apply list_elem_of_filter).
      rewrite Hn in Hin. by apply elem_of_nil in Hin.
  - unfold has_write. rewrite existsb_exists. split.
    + intros (a & Ha & Hm%bool_decide_eq_true). apply list_elem_of_In, list_elem_of_filter in Ha as [Hka Ha]. exists a. split; [done|].
      unfold mode_of in Hm. case_decide; [|done]. by repeat split; auto.
    + intros (a & Ha & Hka & _ & [Hwa|]); [|done]. exists a. split; [by apply list_elem_of_In, list_elem_of_filter|].
      apply bool_decide_eq_true. unfold mode_of. by rewrite decide_True.
Qed.

Lemma waits_spec L t : waits L t ↔ ∃ k a, a ∈ ahead t L ∧ conflict k a t.
Proof.
  unfold waits, count, waiting_keys. split.
  - intros Hw. destruct (filter _ (lock_keys t)) as [|k l] eqn:Hf; [done|].
    assert (k ∈ filter (λ k, blocked k (queues L k) t = true) (lock_keys t)) as [Hb Hk]%list_elem_of_filter by (rewrite Hf; left).
    apply blocked_spec in Hb; [|done]. by exists k.
  - intros (k & a & Ha & Hc). pose proof Hc as (_ & Hk & _).
    assert (k ∈ filter (λ k, blocked k (queues L k) t = true) (lock_keys t)) as Hin
      by (apply list_elem_of_filter; split; [apply blocked_spec; [done|by exists a]|done]).
    destruct (filter _ (lock_keys t)); [by apply elem_of_nil in Hin|]. simpl. lia.
Qed.

Lemma waits_app L t o : o ∈ L → waits (L ++ [t]) o ↔ waits L o.
Proof. intros Ho. rewrite !waits_spec, ahead_app, decide_True by done. done. Qed.

Lemma waits_without L t o : o ≠ t → waits (without t L) o → waits L o.
Proof.
  intros Hne. rewrite !waits_spec. intros (k & a & Ha & Hc). unfold without in Ha. rewrite ahead_filter in Ha by done.
  apply list_elem_of_filter in Ha as [_ Ha]. by exists k, a.
Qed.

Lemma first_never_waits t L : ¬ waits (t :: L) t.
Proof. rewrite waits_spec. intros (k & a & Ha & _). simpl in Ha. rewrite decide_True in Ha by done. by apply elem_of_nil in Ha. Qed.

(** ** Runs of the lock manager *)

Inductive lock_op := OLock (t : TxnProto) | ORelease (t : TxnProto).

Definition lm_exec m (o : lock_op) : outcome LockManager :=
  match o with OLock t => Ret (Lock IsLocal m t).1 | ORelease t => Release IsLocal m t end.

(** What the scheduler asks for: a transaction locks once, and releases once it has
    been reported.  [A] are the transactions that have locked, in order, and [L]
    those of them that have not released. *)
Inductive legal : list lock_op → list TxnProto → list TxnProto → Prop :=
  | legal_nil : legal [] [] []
  | legal_lock os A L t : legal os A L → t ∉ A → txn_ok t → legal (os ++ [OLock t]) (A ++ [t]) (L ++ [t])
  | legal_release os A L t : legal os A L → t ∈ L → ¬ waits L t → legal (os ++ [ORelease t]) A (without t L).

Lemma legal_sub os A L : legal os A L → ∀ t, t ∈ L → t ∈ A.
Proof. induction 1; [done|set_solver|]. intros o [_ ?]%without_elem. auto. Qed.

(** The transactions of [A] that do not wait have been reported, each once. *)
Definition reported A L r : Prop := NoDup r ∧ ∀ t, t ∈ r ↔ t ∈ A ∧ ¬ (t ∈ L ∧ waits L t).

Lemma reported_lock A L r t : (∀ o, o ∈ L → o ∈ A) → t ∉ A → reported A L r →
  reported (A ++ [t]) (L ++ [t]) (r ++ (if decide (waits (L ++ [t]) t) then [] else [t])).
Proof.
  intros HLA Ht [Hnd Hr]. assert (t ∉ r) as Htr by (rewrite Hr; naive_solver). split.
  - case_decide; [by rewrite app_nil_r|]. apply NoDup_app. split; [done|]. split; [set_solver|apply NoDup_singleton].
  - intros o. rewrite !elem_of_app, Hr, !list_elem_of_singleton. destruct (decide (o = t)) as [->|Hne].
    + case_decide; [|set_solver]. rewrite elem_of_nil. naive_solver.
    + assert (o ∈ (if decide (waits (L ++ [t]) t) then [] else [t]) ↔ False) as -> by (case_decide; set_solver).
      split; [intros [[? Hn]|[]]|intros [[?|?] Hn]; [left|done]]; split; auto; intros [Ho Hw].
      * destruct Ho as [Ho|?]; [|done]. apply Hn. split; [done|]. by rewrite <- (waits_app L t o).
      * apply Hn. split; [by left|]. by rewrite waits_app.
Qed.

Lemma reported_release A L r t news : (∀ o, o ∈ L → o ∈ A) → t ∈ L → ¬ waits L t → reported A L r → NoDup news →
  (∀ o, o ∈ news ↔ o ∈ without t L ∧ waits L o ∧ ¬ waits (without t L) o) → reported A (without t L) (r ++ news).
Proof.
  intros HLA Ht Hw [Hnd Hr] Hnn Hnews. split.
  - apply NoDup_app. split; [done|]. split; [|done]. intros o [_ Ho]%Hr ([_ HoL]%without_elem & Hwo & _)%Hnews. auto.
  - intros o. rewrite elem_of_app, Hr, Hnews, without_elem. pose proof (waits_without L t o) as Hwt.
    destruct (decide (o = t)) as [->|]; [naive_solver|]. destruct (decide (waits L o)), (decide (waits (without t L) o)), (decide (o ∈ L)); naive_solver.
Qed.

Lemma legal_ok os A L : legal os A L → ∃ m, for_each lm_exec new_lock_manager os = Ret m ∧ lm_ok L m ∧ reported A L (ready_txns m).
Proof.
  induction 1 as [|os A L t Hl (m & He & Hm & Hr) Ht Hok|os A L t Hl (m & He & Hm & Hr) Ht Hw].
  - exists new_lock_manager. split; [done|]. split; [apply new_lock_manager_ok|]. split; [constructor|]. set_solver.
  - pose proof (legal_sub _ _ _ Hl) as Hsub. destruct (lm_Lock L m t Hm ltac:(auto) Hok) as (m' & HL & Hm' & Hready). exists m'.
    rewrite for_each_snoc, He. simpl. rewrite HL. split; [done|]. split; [done|]. rewrite Hready. by apply reported_lock.
  - destruct (lm_Release L m t Hm Ht Hw) as (m' & news & HR & Hm' & Hready & Hnn & Hnews). exists m'.
    rewrite for_each_snoc, He. simpl. rewrite HR. split; [done|]. split; [done|]. rewrite Hready. apply (reported_release A L); try done. by eapply legal_sub.
Qed.

End manager.

(** C21. The lock manager orders conflicting transactions the way they asked.  When
    each transaction locks once and releases once it has been reported, the
    manager does not crash, reports each transaction once, and those reported are
    exactly the ones that no conflicting transaction precedes among those that
    have not released; so two that hold their locks do not conflict, and the
    first one always proceeds.  The ones that wait are those in [txn_waits]. *)
Theorem lock_manager_order IsLocal os A L : legal IsLocal os A L →
  ∃ m, for_each (lm_exec IsLocal) new_lock_manager os = Ret m ∧ NoDup (ready_txns m) ∧
    (∀ t, t ∈ ready_txns m ↔ t ∈ A ∧ ¬ (t ∈ L ∧ ∃ k a, a ∈ ahead t L ∧ conflict IsLocal k a t)) ∧
    (∀ t, is_Some (txn_waits m !! t) ↔ t ∈ L ∧ ∃ k a, a ∈ ahead t L ∧ conflict IsLocal k a t) ∧
    (∀ t, head L = Some t → t ∈ ready_txns m).
Proof.
  intros Hl. destruct (legal_ok _ _ _ _ Hl) as (m & He & [HI _ _] & Hnd & Hr). exists m. split; [done|]. split; [done|].
  setoid_rewrite <- waits_spec. split; [done|]. split.
  - intros t. rewrite (li_waits _ _ _ _ _ HI t). unfold waits. by destruct (decide _) as [?|Hn]; [|rewrite is_Some_alt].
  - intros t Ht. destruct L as [|t' L]; [done|]. injection Ht as ->. apply Hr. split; [eapply legal_sub; [done|by left]|].
    intros [_ Hw]. by apply first_never_waits in Hw.
Qed.

(** A writer, two readers behind it and a writer behind them; the writer releases
    its lock, and the readers get theirs. *)
Definition uses_a (id : Z) (ro rw : list string) : TxnProto := mkTxnProto id 0 ro [] rw "" [] [].
Definition four_txns : list TxnProto :=
  [uses_a 1 [] ["a"]; uses_a 2 ["a"] ["b"]; uses_a 3 ["a"] []; uses_a 4 ["c"] ["a"]]%string.

Lemma lock_manager_order_witness : ∃ m, ready_txns m = take 3 four_txns ∧
  ∀ t, is_Some (txn_waits m !! t) ↔ t ∈ drop 1 four_txns ∧ ∃ k a, a ∈ ahead t (drop 1 four_txns) ∧ conflict (λ _, true) k a t.
Proof.
  assert (legal (λ _, true) ((OLock <$> four_txns) ++ [ORelease (uses_a 1 [] ["a"%string])]) four_txns (drop 1 four_txns)) as Hl.
  { refine (legal_release _ (OLock <$> four_txns) four_txns four_txns (uses_a 1 [] ["a"%string]) _ ltac:(by left) (first_never_waits _ _ _)).
    refine (legal_lock _ _ (take 3 four_txns) _ _ (legal_lock _ _ (take 2 four_txns) _ _
      (legal_lock _ _ (take 1 four_txns) _ _ (legal_lock _ [] [] [] _ (legal_nil _) _ _) _ _) _ _) _ _);
      unfold txn_ok; refine (bool_decide_unpack _ _); vm_compute; exact I. }
  assert (match for_each (lm_exec (λ _, true)) new_lock_manager ((OLock <$> four_txns) ++ [ORelease (uses_a 1 [] ["a"%string])]) with
          | Ret m => bool_decide (ready_txns m = take 3 four_txns) | Panic => false end = true) as Hr by (vm_compute; reflexivity).
  destruct (lock_manager_order _ _ _ _ Hl) as (m & He & _ & _ & Hw & _). exists m. split; [|exact Hw].
  rewrite He in Hr. by apply bool_decide_eq_true in Hr.
Defined.
