(* ===== verification/CalvinSystem.v ===== *)
(** * Calvin: sequencers, schedulers, workers and connections

    src/calvin/src_calvin: sequencer/sequencer.cc, scheduler/
    deterministic_scheduler.cc, backend/{storage_manager,simple_storage}.cc and
    common/connection.cc.  All threads of all nodes run in parallel; a step of
    the system is a step of one thread.  Accesses of workers to the storage are
    single steps.  What a thread does only with its own data and with one end of
    a queue or socket is part of the step before. *)

From S2P Require Import Prelude AppReplica TimeServer CalvinTxn CalvinLocks.

(** ** Data *)

(** What the pointers of a [StorageManager] point to: the object of the storage,
    a copy made from a message, or nothing. *)
Inductive cell := Stored | Copy (v : Value) | Null.

Record StorageManager := mkSM { sm_txn : TxnProto; objects : gmap Key cell }.

(** A message without its destination; a batch is its number and transactions. *)
Inductive Message :=
| READ_RESULT (destination_channel : string) (results : list (Key * Value))
| TXN_BATCH (batch_number : Z) (data : list TxnProto).

Inductive LinkRequest := LINK_CHANNEL (channel : string) | UNLINK_CHANNEL (channel : string).

(** Where a worker is: in its loop, in the loops of the constructor of
    [StorageManager] over the keys still to read and over the nodes still to be
    sent to, or in [Execute]; [linked] says that the channel of the transaction
    is linked. *)
Inductive worker_state :=
| WIdle
| WReading (m : StorageManager) (keys : list Key) (message : list (Key * Value))
| WSending (m : StorageManager) (message : list (Key * Value)) (nodes : list Z)
| WExecuting (m : StorageManager) (q : prog) (linked : bool).

(** A worker, its queue of results and the queue of its connection. *)
Record Worker := mkWorker {
  w_state : worker_state;
  active_txns : gmap string StorageManager;
  message_queue : list (string * list (Key * Value));
  link_unlink_queue : list LinkRequest
}.

(** A node: its storage, the queues and the lock manager of the scheduler, the
    variables of [LockManagerThread], the workers, the multiplexer and the
    sequencer.  [batch_socket] is what the multiplexer has passed on to the
    scheduler, [inproc_in] what the sequencer has given to the multiplexer. *)
Record Node := mkNode {
  storage : gmap Key Value;
  lm : LockManager;
  txns_queue : list TxnProto;
  done_queue : list TxnProto;
  batch_message : option (list TxnProto);
  batch_offset : nat;
  batch_number : Z;
  executing_txns : Z;
  pending_txns : Z;
  batches : gmap Z (list TxnProto);
  n_workers : list Worker;
  remote_result : gmap string nat;
  undelivered_messages : gmap string (list (string * list (Key * Value)));
  inproc_in : list (Z * Message);
  batch_socket : list (Z * list TxnProto);
  seq_batch_number : Z
}.

(** [sockets] are the messages from a node to another one. *)
Record System := mkSystem { sys_nodes : gmap Z Node; sockets : gmap (Z * Z) (list Message) }.

Notation NUM_THREADS := 4%nat (only parsing).

Definition channel_of (t : TxnProto) : string := IntToString (txn_id t).

Section calvin.
Context (N : Z) `{Application} (plan : list (list TxnProto)).

Definition IsLocal (p : Z) (key : Key) : bool := bool_decide (LookupPartition N key = p).

Definition all_nodes : list Z := seqZ 0 N.

(** ** The sequencer *)

(** The content of a [std::set<int>]. *)
Definition int_set (l : list Z) : list Z := merge_sort Z.le (remove_dups l).

(** The sets [readers] and [writers] of [RunReader]. *)
Definition reader_set (t : TxnProto) : list Z := int_set (LookupPartition N <$> (read_set t ++ read_write_set t)).
Definition writer_set (t : TxnProto) : list Z := int_set (LookupPartition N <$> (write_set t ++ read_write_set t)).

Definition participants (t : TxnProto) : list Z := int_set (reader_set t ++ writer_set t).

Definition add_participants (t : TxnProto) : TxnProto :=
  mkTxnProto (txn_id t) (txn_type t) (read_set t) (write_set t) (read_write_set t) (arg t)
    (readers t ++ reader_set t) (writers t ++ writer_set t).

(** The part of a batch for node [n]. *)
Definition batch_for (n : Z) (data : list TxnProto) : list TxnProto := add_participants <$> filter (λ t, n ∈ participants t) data.

Definition set_sequencer (n : Node) (inproc : list (Z * Message)) (number : Z) : Node :=
  mkNode (storage n) (lm n) (txns_queue n) (done_queue n) (batch_message n) (batch_offset n) (batch_number n) (executing_txns n)
    (pending_txns n) (batches n) (n_workers n) (remote_result n) (undelivered_messages n) inproc (batch_socket n) number.

(** A round of [RunReader]; [plan] has the batches of the nodes by their numbers,
    as [RunWriter] makes them.  A partition that is no node has no batch that can
    be sent. *)
Definition RunReader (n : Node) : blocking Node :=
  match plan !! Z.to_nat (seq_batch_number n) with
  | None => Blocks
  | Some data =>
      if decide (Forall (λ t, Forall (λ q, q ∈ all_nodes) (participants t)) data) then
        Done (set_sequencer n
                (inproc_in n ++ ((λ q, (q, TXN_BATCH (seq_batch_number n) (batch_for q data))) <$> all_nodes))
                (seq_batch_number n + N))
      else Crash
  end.

(** ** The scheduler's thread *)

(** The loop of [GetBatch] over what the connection has. *)
Fixpoint receive_batch (batch_id : Z) (socket : list (Z * list TxnProto)) (batches : gmap Z (list TxnProto)) :
    option (list TxnProto) * list (Z * list TxnProto) * gmap Z (list TxnProto) :=
  match socket with
  | [] => (None, [], batches)
  | (b, data) :: socket => if (b =? batch_id)%Z then (Some data, socket, batches) else receive_batch batch_id socket (<[b := data]> batches)
  end.

Definition GetBatch (batch_id : Z) (socket : list (Z * list TxnProto)) (batches : gmap Z (list TxnProto)) :
    option (list TxnProto) * list (Z * list TxnProto) * gmap Z (list TxnProto) :=
  match batches !! batch_id with
  | Some data => (Some data, socket, delete batch_id batches)
  | None => receive_batch batch_id socket batches
  end.

Definition set_scheduler (n : Node) (m : LockManager) (tq dq : list TxnProto) (b : option (list TxnProto)) (off : nat) (num ex pe : Z)
    (bs : gmap Z (list TxnProto)) (sock : list (Z * list TxnProto)) : Node :=
  mkNode (storage n) m tq dq b off num ex pe bs (n_workers n) (remote_result n) (undelivered_messages n) (inproc_in n) sock (seq_batch_number n).

Definition get_batch (n : Node) (off : nat) (num : Z) : Node :=
  let '(b, sock, bs) := GetBatch num (batch_socket n) (batches n) in
  set_scheduler n (lm n) (txns_queue n) (done_queue n) b off num (executing_txns n) (pending_txns n) bs sock.

(** The loop that locks up to [fuel] transactions of the batch. *)
Fixpoint lock_some (p : Z) (fuel : nat) (data : list TxnProto) (n : Node) : Node :=
  match fuel with
  | O => n
  | S fuel =>
      match data !! batch_offset n with
      | None => n
      | Some t =>
          lock_some p fuel data
            (set_scheduler n (Lock (IsLocal p) (lm n) t).1 (txns_queue n) (done_queue n) (batch_message n) (S (batch_offset n)) (batch_number n)
               (executing_txns n) (pending_txns n + 1) (batches n) (batch_socket n))
      end
  end.

(** Ready transactions are given to the workers. *)
Definition start_ready (n : Node) : Node :=
  let ready := ready_txns (lm n) in
  set_scheduler n (mkLM (lock_table (lm n)) [] (txn_waits (lm n))) (txns_queue n ++ ready) (done_queue n) (batch_message n) (batch_offset n)
    (batch_number n) (executing_txns n + Z.of_nat (length ready)) (pending_txns n - Z.of_nat (length ready)) (batches n) (batch_socket n).

(** A round of [LockManagerThread]. *)
Definition LockManagerThread (p : Z) (n : Node) : blocking Node :=
  match done_queue n with
  | t :: dq =>
      match Release (IsLocal p) (lm n) t with
      | Panic => Crash
      | Ret m =>
          Done (start_ready (set_scheduler n m (txns_queue n) dq (batch_message n) (batch_offset n) (batch_number n) (executing_txns n - 1)
                               (pending_txns n) (batches n) (batch_socket n)))
      end
  | [] =>
      Done (start_ready
        (match batch_message n with
         | None => get_batch n (batch_offset n) (batch_number n)
         | Some data =>
             if decide (length data ≤ batch_offset n)%nat then get_batch n 0 (batch_number n + 1)
             else if (executing_txns n + pending_txns n <? 2000)%Z then lock_some p 100 data n else n
         end))
  end.

(** ** The workers *)

Definition ReadyToExecute (m : StorageManager) : bool :=
  bool_decide (size (objects m) = length (read_set (sm_txn m)) + length (read_write_set (sm_txn m)))%nat.

Definition HandleReadResult (m : StorageManager) (results : list (Key * Value)) : StorageManager :=
  mkSM (sm_txn m) (foldl (λ o kv, <[kv.1 := Copy kv.2]> o) (objects m) results).

Definition local_keys (p : Z) (t : TxnProto) : list Key := filter (λ k, IsLocal p k) (read_set t ++ read_write_set t).

(** The constructor of [StorageManager] begins. *)
Definition new_StorageManager (p : Z) (t : TxnProto) : worker_state :=
  if decide (p ∈ readers t) then WReading (mkSM t ∅) (local_keys p t) [] else WSending (mkSM t ∅) [] [].

(** The object a pointer of the manager points to. *)
Definition deref (st : gmap Key Value) (m : StorageManager) (key : Key) : option Value :=
  match objects m !! key with
  | Some Stored => st !! key
  | Some (Copy v) => Some v
  | _ => None
  end.

Definition set_worker (n : Node) (st : gmap Key Value) (tq dq : list TxnProto) (i : nat) (w : Worker) : Node :=
  mkNode st (lm n) tq dq (batch_message n) (batch_offset n) (batch_number n) (executing_txns n) (pending_txns n) (batches n)
    (<[i := w]> (n_workers n)) (remote_result n) (undelivered_messages n) (inproc_in n) (batch_socket n) (seq_batch_number n).

(** A step of [RunWorkerThread]: the node and the messages sent.  The entry of
    [active_txns], which only this thread uses, is erased when the execution
    starts instead of when it has ended. *)
Definition RunWorkerThread (p : Z) (n : Node) (i : nat) (w : Worker) : blocking (Node * list (Z * Message)) :=
  let set s := mkWorker s (active_txns w) (message_queue w) (link_unlink_queue w) in
  let go s := Done (set_worker n (storage n) (txns_queue n) (done_queue n) i (set s), []) in
  match w_state w with
  | WIdle =>
      match message_queue w with
      | (c, results) :: mq =>
          match active_txns w !! c with
          | None => Crash
          | Some m =>
              let m := HandleReadResult m results in
              let w := if ReadyToExecute m
                       then mkWorker (WExecuting m (Execute (sm_txn m)) true) (delete c (active_txns w)) mq (link_unlink_queue w)
                       else mkWorker WIdle (<[c := m]> (active_txns w)) mq (link_unlink_queue w) in
              Done (set_worker n (storage n) (txns_queue n) (done_queue n) i w, [])
          end
      | [] =>
          match txns_queue n with
          | [] => Done (n, [])
          | t :: tq => Done (set_worker n (storage n) tq (done_queue n) i (set (new_StorageManager p t)), [])
          end
      end
  | WReading m (k :: keys) message =>
      let val := storage n !! k in
      go (WReading (mkSM (sm_txn m) (<[k := if val is Some _ then Stored else Null]> (objects m))) keys (message ++ [(k, default "" val)]))
  | WReading m [] message => go (WSending m message (filter (λ q, q ≠ p) (writers (sm_txn m))))
  | WSending m message (q :: nodes) =>
      Done (set_worker n (storage n) (txns_queue n) (done_queue n) i (set (WSending m message nodes)),
            [(q, READ_RESULT (channel_of (sm_txn m)) message)])
  | WSending m message [] =>
      let c := channel_of (sm_txn m) in
      if ReadyToExecute m then go (WExecuting m (Execute (sm_txn m)) false)
      else Done (set_worker n (storage n) (txns_queue n) (done_queue n) i
                   (mkWorker WIdle (<[c := m]> (active_txns w)) (message_queue w) (link_unlink_queue w ++ [LINK_CHANNEL c])), [])
  | WExecuting m (ReadObject k f) linked =>
      let m' := mkSM (sm_txn m) (<[k := default Null (objects m !! k)]> (objects m)) in
      go (WExecuting m' (f (deref (storage n) m k)) linked)
  | WExecuting m (Assign k v q) linked =>
      match objects m !! k with
      | Some Stored =>
          Done (set_worker n (<[k := v]> (storage n)) (txns_queue n) (done_queue n) i (set (WExecuting m q linked)), [])
      | Some (Copy _) => go (WExecuting (mkSM (sm_txn m) (<[k := Copy v]> (objects m))) q linked)
      | _ => Crash
      end
  | WExecuting m Fault linked => Crash
  | WExecuting m Return linked =>
      Done (set_worker n (storage n) (txns_queue n) (done_queue n ++ [sm_txn m]) i
              (mkWorker WIdle (active_txns w) (message_queue w)
                 (link_unlink_queue w ++ if linked then [UNLINK_CHANNEL (channel_of (sm_txn m))] else [])), [])
  end.

(** ** The multiplexer *)

Definition set_multiplexer (n : Node) (ws : list Worker) (rr : gmap string nat) (un : gmap string (list (string * list (Key * Value))))
    (inproc : list (Z * Message)) (sock : list (Z * list TxnProto)) : Node :=
  mkNode (storage n) (lm n) (txns_queue n) (done_queue n) (batch_message n) (batch_offset n) (batch_number n) (executing_txns n)
    (pending_txns n) (batches n) ws rr un inproc sock (seq_batch_number n).

Definition push_message (x : string * list (Key * Value)) (w : Worker) : Worker :=
  mkWorker (w_state w) (active_txns w) (message_queue w ++ [x]) (link_unlink_queue w).

(** [Send] for a result, and for a message for node [q].  The channel of the
    scheduler is open from the start. *)
Definition Send_result (n : Node) (x : string * list (Key * Value)) : Node :=
  match remote_result n !! x.1 with
  | Some i =>
      set_multiplexer n (alter (push_message x) i (n_workers n)) (remote_result n) (undelivered_messages n) (inproc_in n) (batch_socket n)
  | None =>
      set_multiplexer n (n_workers n) (remote_result n)
        (<[x.1 := default [] (undelivered_messages n !! x.1) ++ [x]]> (undelivered_messages n)) (inproc_in n) (batch_socket n)
  end.

Definition Send (p : Z) (n : Node) (q : Z) (message : Message) : Node * list (Z * Message) :=
  match message with
  | READ_RESULT c results => (Send_result n (c, results), [])
  | TXN_BATCH b data =>
      if (q =? p)%Z
      then (set_multiplexer n (n_workers n) (remote_result n) (undelivered_messages n) (inproc_in n) (batch_socket n ++ [(b, data)]), [])
      else (n, [(q, message)])
  end.

(** A request of worker [i] is served. *)
Definition serve_link (n : Node) (i : nat) (r : LinkRequest) : Node :=
  match r with
  | LINK_CHANNEL c =>
      let n := set_multiplexer n (n_workers n) (<[c := i]> (remote_result n)) (undelivered_messages n) (inproc_in n) (batch_socket n) in
      let n := foldl Send_result n (default [] (undelivered_messages n !! c)) in
      set_multiplexer n (n_workers n) (remote_result n) (delete c (undelivered_messages n)) (inproc_in n) (batch_socket n)
  | UNLINK_CHANNEL c =>
      set_multiplexer n (n_workers n) (delete c (remote_result n)) (undelivered_messages n) (inproc_in n) (batch_socket n)
  end.

(** ** The system *)

(** A round of the sequencer's reader, of the scheduler, a step of a worker, the
    multiplexer's next message from another node and from its own node, and its
    next request from a worker. *)
Inductive event :=
| ESequencer (p : Z)
| EScheduler (p : Z)
| EWorker (p : Z) (i : nat)
| ERemote (p from : Z)
| EInproc (p : Z)
| ELink (p : Z) (i : nat).

Definition send_all (p : Z) (socks : gmap (Z * Z) (list Message)) (out : list (Z * Message)) : gmap (Z * Z) (list Message) :=
  foldl (λ s m, <[(p, m.1) := default [] (s !! (p, m.1)) ++ [m.2]]> s) socks out.

Definition set_node (s : System) (p : Z) (n : Node) (out : list (Z * Message)) : System :=
  mkSystem (<[p := n]> (sys_nodes s)) (send_all p (sockets s) out).

Definition node_of (e : event) : Z :=
  match e with ESequencer p | EScheduler p | EWorker p _ | ERemote p _ | EInproc p | ELink p _ => p end.

Definition step (s : System) (e : event) : blocking System :=
  let p := node_of e in
  match sys_nodes s !! p with
  | None => Blocks
  | Some n =>
      match e with
      | ESequencer _ => n ← RunReader n; Done (set_node s p n [])
      | EScheduler _ => n ← LockManagerThread p n; Done (set_node s p n [])
      | EWorker _ i =>
          match n_workers n !! i with
          | None => Blocks
          | Some w => x ← RunWorkerThread p n i w; Done (set_node s p x.1 x.2)
          end
      | ERemote _ from =>
          match sockets s !! (from, p) with
          | Some (m :: ms) =>
              let '(n, out) := Send p n p m in
              Done (set_node (mkSystem (sys_nodes s) (<[(from, p) := ms]> (sockets s))) p n out)
          | _ => Blocks
          end
      | EInproc _ =>
          match inproc_in n with
          | [] => Blocks
          | (q, m) :: ms =>
              let '(n, out) := Send p (set_multiplexer n (n_workers n) (remote_result n) (undelivered_messages n) ms (batch_socket n)) q m in
              Done (set_node s p n out)
          end
      | ELink _ i =>
          match n_workers n !! i with
          | Some w =>
              match link_unlink_queue w with
              | [] => Blocks
              | r :: rs =>
                  let w := mkWorker (w_state w) (active_txns w) (message_queue w) rs in
                  let n := set_multiplexer n (<[i := w]> (n_workers n)) (remote_result n) (undelivered_messages n) (inproc_in n)
                             (batch_socket n) in
                  Done (set_node s p (serve_link n i r) [])
              end
          | None => Blocks
          end
      end
  end.

Fixpoint run (s : System) (es : list event) : blocking System :=
  match es with
  | [] => Done s
  | e :: es => s ← step s e; run s es
  end.

(** The start: each node has its part of the database [db]. *)
Definition new_node (db : gmap Key Value) (p : Z) : Node :=
  mkNode (filter (λ kv, IsLocal p kv.1) db) new_lock_manager [] [] None 0 0 0 0 ∅ (replicate NUM_THREADS (mkWorker WIdle ∅ [] [])) ∅ ∅ [] [] p.

Definition new_system (db : gmap Key Value) : System :=
  mkSystem (list_to_map ((λ p, (p, new_node db p)) <$> all_nodes)) ∅.

End calvin.
