(* ===== verification/CalvinSerial.v ===== *)
(** * Calvin: the serial execution it promises

    The transactions of all batches, in the order of the batches, run one after
    the other on one database.  Also the facts about a plan of batches that the
    distributed execution relies on. *)

From S2P Require Import Prelude AppReplica TimeServer CalvinTxn CalvinLocks CalvinLocksProps CalvinSystem.

(** ** Programs on a database *)

Fixpoint exec (q : prog) (d : gmap Key Value) : option (gmap Key Value) :=
  match q with
  | Return => Some d
  | Fault => None
  | ReadObject k f => exec (f (d !! k)) d
  | Assign k v q => match d !! k with Some _ => exec q (<[k := v]> d) | None => None end
  end.

(** The program uses only objects of [K] and assigns only to ones of [W]. *)
Inductive confined (K W : list Key) : prog → Prop :=
| confined_Return : confined K W Return
| confined_Fault : confined K W Fault
| confined_Read k f : k ∈ K → (∀ v, confined K W (f v)) → confined K W (ReadObject k f)
| confined_Assign k v q : k ∈ W → confined K W q → confined K W (Assign k v q).

Lemma exec_frame K W q : confined K W q → ∀ d d' k, exec q d = Some d' → k ∉ W → d' !! k = d !! k.
Proof.
  induction 1 as [| |k0 f Hk0 Hf IH|k0 v q Hk0 Hq IH]; intros d d' k Hex Hk; simpl in *; [congruence|done|eauto|].
  destruct (d !! k0); [|done]. rewrite (IH _ _ _ Hex Hk). apply lookup_insert_ne. by intros ->.
Qed.

Lemma exec_dom q : ∀ d d', exec q d = Some d' → dom d' = dom d.
Proof.
  induction q as [| |k0 f IH|k0 v q IH]; intros d d' Hex; simpl in *; [congruence|done|eauto|].
  destruct (d !! k0) eqn:Hd; [|done]. rewrite (IH _ _ Hex), dom_insert_L. apply elem_of_dom_2 in Hd. set_solver.
Qed.

(** The keys a transaction reads or writes. *)
Definition txn_keys (t : TxnProto) : list Key := read_set t ++ read_write_set t.

Lemma rw_keys t k : k ∈ read_write_set t → k ∈ txn_keys t.
Proof. unfold txn_keys. set_solver. Qed.

(** The microbenchmark uses only the objects of its transaction. *)
Lemma micro_confined t n i : confined (txn_keys t) (read_write_set t) (micro_loop t n i).
Proof.
  revert i. induction n as [|n IH]; intros i; simpl; [constructor|]. destruct (read_write_set t !! i) as [key|] eqn:Hk; [|constructor].
  apply list_elem_of_lookup_2 in Hk. constructor; [by apply rw_keys|]. intros [v|]; [|constructor]. by constructor.
Qed.

Section serial.
Context `{Application}.

Definition serial (ts : list TxnProto) (d : gmap Key Value) : option (gmap Key Value) := foldl (λ d t, d ← d; exec (Execute t) d) (Some d) ts.

Lemma serial_None ts : foldl (λ d t, d ← d; exec (Execute t) d) None ts = None.
Proof. by induction ts. Qed.

Lemma serial_exec_app ts ts' d : serial (ts ++ ts') d = d' ← serial ts d; serial ts' d'.
Proof. unfold serial. rewrite foldl_app. destruct (foldl _ (Some d) ts); [done|]. apply serial_None. Qed.

Lemma serial_dom ts : ∀ d d', serial ts d = Some d' → dom d' = dom d.
Proof.
  induction ts as [|t ts IH]; intros d d'; [by intros [= ->]|]. change (t :: ts) with ([t] ++ ts). rewrite serial_exec_app. change (serial [t] d) with (exec (Execute t) d).
  destruct (exec (Execute t) d) as [d1|] eqn:Hex; simpl; [|done]. intros Hs. rewrite (IH _ _ Hs). by eapply exec_dom.
Qed.

End serial.

(** ** Plans *)

Section plan.
Context (N : Z) `{Application} (plan : list (list TxnProto)) (db : gmap Key Value).
Implicit Types (t a b : TxnProto) (p r w : Z) (k : Key).

(** The transactions in their order, and the ones node [p] takes part in. *)
Definition sequence : list TxnProto := add_participants N <$> concat plan.
Definition sequence_at p : list TxnProto := concat (batch_for N p <$> plan).

(** What clients and the application have to keep to: distinct transaction ids;
    a transaction names each key once, and only existing ones with a partition;
    its code uses only the named objects, and the serial execution has no fault. *)
Record planned : Prop := {
  pl_nodes : 0 < N;
  pl_ids : NoDup (channel_of <$> concat plan);
  pl_fresh t : t ∈ concat plan → readers t = [] ∧ writers t = [];
  pl_keys t : t ∈ concat plan → NoDup (read_write_set t ++ read_set t);
  pl_partition t k : t ∈ concat plan → k ∈ read_set t ++ write_set t ++ read_write_set t → 0 ≤ LookupPartition N k;
  pl_objects t k : t ∈ concat plan → k ∈ txn_keys t → k ∈ dom db;
  pl_confined t : t ∈ concat plan → confined (txn_keys t) (read_write_set t) (Execute (add_participants N t));
  pl_serial : is_Some (serial sequence db)
}.

Lemma local_keys_elem p t k : k ∈ local_keys N p t ↔ k ∈ txn_keys t ∧ LookupPartition N k = p.
Proof. unfold local_keys, IsLocal. rewrite list_elem_of_filter, bool_decide_spec. unfold txn_keys. naive_solver. Qed.

Lemma lock_keys_local p t k : k ∈ lock_keys (IsLocal N p) t ↔ k ∈ txn_keys t ∧ LookupPartition N k = p.
Proof. rewrite lock_keys_elem. unfold IsLocal, txn_keys. rewrite bool_decide_eq_true, !elem_of_app. naive_solver. Qed.

Lemma int_set_elem (l : list Z) x : x ∈ int_set l ↔ x ∈ l.
Proof. unfold int_set. rewrite merge_sort_Permutation. apply elem_of_remove_dups. Qed.

Lemma int_set_NoDup (l : list Z) : NoDup (int_set l).
Proof. unfold int_set. rewrite merge_sort_Permutation. apply NoDup_remove_dups. Qed.

Lemma participants_elem p t : p ∈ participants N t ↔ p ∈ reader_set N t ∨ p ∈ writer_set N t.
Proof. unfold participants. by rewrite int_set_elem, elem_of_app. Qed.

Lemma sequence_at_filter p : sequence_at p = filter (λ t, p ∈ participants N t) sequence.
Proof.
  unfold sequence_at, sequence. induction plan as [|data pl IH]; [done|]. csimpl. rewrite IH. rewrite fmap_app, filter_app. f_equal.
  unfold batch_for. clear IH. induction data as [|t data IH]; [done|]. csimpl. rewrite !filter_cons.
  destruct (decide (p ∈ participants N t)) as [Hp|Hp].
  - rewrite decide_True by done. csimpl. by rewrite IH.
  - by rewrite decide_False.
Qed.

Lemma sequence_at_elem p t : t ∈ sequence_at p ↔ t ∈ sequence ∧ p ∈ participants N t.
Proof. rewrite sequence_at_filter, list_elem_of_filter. naive_solver. Qed.

Lemma sequence_at_sublist p : sequence_at p `sublist_of` sequence.
Proof. rewrite sequence_at_filter. apply sublist_filter. Qed.

(** *** Positions and databases *)

Definition pos t : nat := default 0%nat (fst <$> list_find (λ x, x = t) sequence).
Definition database (i : nat) : gmap Key Value := default ∅ (serial (take i sequence) db).

Context (HP : planned).

Lemma sequence_channels : NoDup (channel_of <$> sequence).
Proof. unfold sequence. rewrite <- list_fmap_compose. apply (pl_ids HP). Qed.

Lemma sequence_NoDup : NoDup sequence.
Proof. eapply NoDup_fmap_1, sequence_channels. Qed.

Lemma channel_inj a b : a ∈ sequence → b ∈ sequence → channel_of a = channel_of b → a = b.
Proof.
  intros [i Ha]%list_elem_of_lookup [j Hb]%list_elem_of_lookup Hc. pose proof sequence_channels as Hnd. rewrite NoDup_alt in Hnd.
  assert (i = j) as ->; [|congruence]. eapply Hnd; rewrite list_lookup_fmap; [by rewrite Ha|]. rewrite Hb. simpl. by rewrite Hc.
Qed.

Lemma pos_lookup t : t ∈ sequence → sequence !! pos t = Some t.
Proof.
  intros Ht. unfold pos. destruct (list_find_elem_of (λ x, x = t) sequence t Ht eq_refl) as [[i x] Hf]. rewrite Hf. simpl.
  by apply list_find_Some in Hf as (Hi & -> & _).
Qed.

Lemma lookup_pos i t : sequence !! i = Some t → pos t = i.
Proof.
  intros Hi. pose proof sequence_NoDup as Hnd. rewrite NoDup_alt in Hnd. eapply Hnd; [|done].
  apply pos_lookup. by eapply list_elem_of_lookup_2.
Qed.

Lemma pos_inj a b : a ∈ sequence → b ∈ sequence → pos a = pos b → a = b.
Proof. intros Ha%pos_lookup Hb%pos_lookup Hp. rewrite Hp in Ha. congruence. Qed.

Lemma pos_lt t : t ∈ sequence → (pos t < length sequence)%nat.
Proof. intros Ht%pos_lookup. by eapply lookup_lt_Some. Qed.

Lemma database_Some i : serial (take i sequence) db = Some (database i).
Proof.
  unfold database. destruct (pl_serial HP) as [d Hd]. rewrite <- (take_drop i sequence), serial_exec_app in Hd.
  by destruct (serial (take i sequence) db).
Qed.

Lemma database_dom i : dom (database i) = dom db.
Proof. eapply serial_dom, database_Some. Qed.

Lemma database_0 : database 0 = db.
Proof. done. Qed.

Lemma database_step t : t ∈ sequence → exec (Execute t) (database (pos t)) = Some (database (S (pos t))).
Proof.
  intros Ht%pos_lookup. pose proof (database_Some (S (pos t))) as Hs. rewrite (take_S_r _ _ _ Ht), serial_exec_app, database_Some in Hs. apply Hs.
Qed.

(** *** The transactions of the sequence *)

Lemma sequence_inv t : t ∈ sequence → ∃ t0, t0 ∈ concat plan ∧ t = add_participants N t0 ∧ readers t = reader_set N t ∧ writers t = writer_set N t.
Proof.
  intros (t0 & -> & Ht)%list_elem_of_fmap. exists t0. destruct (pl_fresh HP t0 Ht) as [Hr Hw].
  repeat split; [done|simpl; by rewrite Hr|simpl; by rewrite Hw].
Qed.

Lemma sequence_ok t : t ∈ sequence → txn_ok t.
Proof. intros (t0 & Ht & -> & _)%sequence_inv. apply (pl_keys HP t0 Ht). Qed.

Lemma sequence_confined t : t ∈ sequence → confined (txn_keys t) (read_write_set t) (Execute t).
Proof. intros (t0 & Ht & -> & _)%sequence_inv. apply (pl_confined HP t0 Ht). Qed.

Lemma sequence_objects t k : t ∈ sequence → k ∈ txn_keys t → k ∈ dom db.
Proof. intros (t0 & Ht & -> & _)%sequence_inv. apply (pl_objects HP t0 k Ht). Qed.

Lemma keys_NoDup t : t ∈ sequence → NoDup (txn_keys t).
Proof. intros Ht%sequence_ok. unfold txn_keys, txn_ok in *. by rewrite Permutation_app_comm. Qed.

Lemma LookupPartition_lt k : 0 < N → LookupPartition N k < N.
Proof.
  intros HN. assert (∃ x, LookupPartition N k = Z.rem x N) as (x & ->).
  { destruct k as [|[[] [] [] [] [] [] [] []] k]; eexists; reflexivity. }
  pose proof (Z.rem_bound_abs x N). lia.
Qed.

Lemma node_range t p : t ∈ sequence → p ∈ participants N t → p ∈ all_nodes N.
Proof.
  intros (t0 & Ht & -> & _)%sequence_inv Hp. apply participants_elem in Hp. unfold reader_set, writer_set in Hp.
  rewrite !int_set_elem in Hp. pose proof (pl_nodes HP).
  assert (∃ k, k ∈ read_set t0 ++ write_set t0 ++ read_write_set t0 ∧ p = LookupPartition N k) as (k & Hk & ->).
  { destruct Hp as [(k & -> & Hk)%list_elem_of_fmap|(k & -> & Hk)%list_elem_of_fmap]; simpl in Hk; exists k; set_solver. }
  apply elem_of_seqZ. pose proof (pl_partition HP t0 k Ht Hk). pose proof (LookupPartition_lt k). lia.
Qed.

Lemma readers_elem t p : t ∈ sequence → p ∈ readers t ↔ local_keys N p t ≠ [].
Proof.
  intros (t0 & _ & _ & -> & _)%sequence_inv. unfold reader_set. rewrite int_set_elem, list_elem_of_fmap. split.
  - intros (k & -> & Hk) Hn. assert (k ∈ local_keys N (LookupPartition N k) t) as Hin by (by apply local_keys_elem).
    rewrite Hn in Hin. by apply elem_of_nil in Hin.
  - destruct (local_keys N p t) as [|k l] eqn:Hl; [done|]. intros _.
    assert (k ∈ local_keys N p t) as [? <-]%local_keys_elem by (rewrite Hl; left). by exists k.
Qed.

Lemma writers_rw t k : t ∈ sequence → k ∈ read_write_set t → LookupPartition N k ∈ writers t.
Proof.
  intros (t0 & _ & _ & _ & ->)%sequence_inv Hk. unfold writer_set. rewrite int_set_elem. apply list_elem_of_fmap. exists k. set_solver.
Qed.

Lemma participants_rw t : t ∈ sequence → ∀ p, p ∈ participants N t ↔ p ∈ readers t ∨ p ∈ writers t.
Proof. intros (t0 & _ & _ & -> & ->)%sequence_inv p. apply participants_elem. Qed.

Lemma writers_NoDup t : t ∈ sequence → NoDup (writers t).
Proof. intros (t0 & _ & _ & _ & ->)%sequence_inv. apply int_set_NoDup. Qed.

(** A transaction takes part at the node of each of its keys. *)
Lemma participant_of t k : t ∈ sequence → k ∈ txn_keys t → t ∈ sequence_at (LookupPartition N k).
Proof.
  intros Ht Hk. apply sequence_at_elem. split; [done|]. apply participants_rw; [done|]. left. apply readers_elem; [done|].
  intros Hn. assert (k ∈ local_keys N (LookupPartition N k) t) as Hin by (by apply local_keys_elem).
  rewrite Hn in Hin. by apply elem_of_nil in Hin.
Qed.

(** *** What the databases have in common *)

Lemma database_stable i j k : (i ≤ j)%nat → (j ≤ length sequence)%nat →
  (∀ t, t ∈ sequence → (i ≤ pos t)%nat → (pos t < j)%nat → k ∉ read_write_set t) → database j !! k = database i !! k.
Proof.
  intros Hij Hj. induction Hij as [|j Hij IH]; [done|]. intros Hw. destruct (lookup_lt_is_Some_2 sequence j) as [t Ht]; [lia|].
  pose proof (list_elem_of_lookup_2 _ _ _ Ht) as Hin. pose proof (lookup_pos _ _ Ht) as Hp.
  pose proof (database_step t Hin) as Hex. rewrite Hp in Hex.
  rewrite (exec_frame _ _ _ (sequence_confined t Hin) _ _ k Hex); [apply IH; [lia|]|].
  - intros t' ? ? ?. apply Hw; [done..|lia].
  - apply Hw; [done|lia|lia].
Qed.

(** *** The order at a node *)

Lemma sequence_sorted : StronglySorted (λ a b, (pos a < pos b)%nat) sequence.
Proof.
  assert (∀ l pre, sequence = pre ++ l → StronglySorted (λ a b, (pos a < pos b)%nat) l) as Hl; [|by apply (Hl _ [])].
  induction l as [|x l IH]; intros pre Hs; [constructor|]. constructor; [apply (IH (pre ++ [x])); by rewrite <- app_assoc|].
  apply Forall_forall. intros y [j Hj]%list_elem_of_lookup. rewrite (lookup_pos (length pre) x).
  - rewrite (lookup_pos (length pre + S j) y); [lia|]. rewrite Hs, lookup_app_r by lia. by replace (_ + _ - _)%nat with (S j) by lia.
  - rewrite Hs. by apply list_lookup_middle.
Qed.

Lemma sublist_sorted {B} (R : B → B → Prop) l l' : l `sublist_of` l' → StronglySorted R l' → StronglySorted R l.
Proof.
  induction 1 as [|x l l' Hl IH|x l l' Hl IH]; intros Hs; [done|..]; apply StronglySorted_inv in Hs as [Hs Hx].
  - constructor; [by apply IH|]. rewrite Forall_forall in Hx |- *. intros y Hy. apply Hx. by eapply elem_of_sublist.
  - by apply IH.
Qed.

Lemma sorted_ahead L t a : L `sublist_of` sequence → t ∈ L → a ∈ ahead t L ↔ a ∈ L ∧ (pos a < pos t)%nat.
Proof.
  intros HL Ht. apply sublist_sorted with (R := λ a b, (pos a < pos b)%nat) in HL; [|apply sequence_sorted].
  pose proof (drop_ahead t L Ht) as HL'. split.
  - intros Ha. split; [by eapply ahead_sub|]. rewrite HL' in HL. apply (StronglySorted_app_1_elem_of _ _ _ _ _ HL); [done|left].
  - intros [Ha Hp]. rewrite HL' in Ha. apply elem_of_app in Ha as [Ha|[->|Ha]%elem_of_cons]; [done|lia|]. exfalso.
    rewrite HL' in HL. apply StronglySorted_app_1_r in HL. apply StronglySorted_inv in HL as [_ HF]. rewrite Forall_forall in HF.
    specialize (HF _ Ha). lia.
Qed.

(** In the order of the sequence, the transactions that wait are the ones that
    conflict with an earlier one. *)
Lemma sorted_waits p L t : L `sublist_of` sequence → t ∈ L →
  waits (IsLocal N p) L t ↔ ∃ k a, a ∈ L ∧ (pos a < pos t)%nat ∧ conflict (IsLocal N p) k a t.
Proof.
  intros HL Ht. rewrite waits_spec. split.
  - intros (k & a & [? ?]%sorted_ahead & Hc); [|done..]. by exists k, a.
  - intros (k & a & ? & ? & Hc). exists k, a. split; [|done]. by apply sorted_ahead.
Qed.

End plan.
