(* ===== verification/CalvinInv.v ===== *)
(** * Calvin: the invariant of the distributed execution

    A ghost stage for each transaction at each node says how far the node is with
    it: waiting for locks or a worker, with a worker, waiting for the results of
    other nodes, or applied.  The invariant relates the stages to the queues, the
    lock manager, the workers, the storage and the messages under way.  Then what
    the single operations of the scheduler and of the workers do to it. *)

From stdpp Require Import functions.
From S2P Require Import Prelude AppReplica TimeServer CalvinTxn CalvinLocks CalvinLocksProps CalvinSystem CalvinSerial.

(** With worker [i], which is in state [s]; [d] is the database the program has
    made so far from the one before the transaction. *)
Inductive stage :=
| Pending
| Busy (i : nat) (s : worker_state) (d : gmap Key Value)
| Active (i : nat) (m : StorageManager)
| Applied.

Definition executing (s : stage) : Prop := match s with Busy _ (WExecuting _ _ _) _ => True | _ => False end.

Definition held (s : stage) : Prop := match s with Busy _ _ _ | Active _ _ => True | _ => False end.

Definition owner (s : stage) : option nat := match s with Busy i _ _ | Active i _ => Some i | _ => None end.

(** Worker [i] has linked the channel of the transaction, or asked for it. *)
Definition activated (i : nat) (s : stage) : Prop :=
  match s with Active j _ | Busy j (WExecuting _ _ true) _ => j = i | Applied => True | _ => False end.

#[global] Instance executing_dec s : Decision (executing s).
Proof. destruct s as [|? [] ?| |]; simpl; apply _. Defined.

#[global] Instance Pending_dec s : Decision (s = Pending).
Proof. destruct s; [by left|by right..]. Defined.

Section invariant.
Context (N : Z) `{Application} (plan : list (list TxnProto)) (db : gmap Key Value).
Implicit Types (t a b : TxnProto) (p r w : Z) (k : Key) (st : TxnProto → stage) (L T : list TxnProto).

Notation sequence := (sequence N plan).
Notation sequence_at := (sequence_at N plan).
Notation pos := (pos N plan).
Notation database := (database N plan db).
Notation local_keys := (local_keys N).
Notation waits p := (waits (IsLocal N p)).
Notation partition := (LookupPartition N).

(** ** The scheduler

    [L] are the transactions that have or wait for locks, [T] the ones taken from
    the batches so far. *)
Record sched_ok p (m : LockManager) (tq dq : list TxnProto) T st L : Prop := {
  so_locks : lm_ok (IsLocal N p) L m;
  so_taken : T `prefix_of` sequence_at p;
  so_sub : L `sublist_of` T;
  so_tq : NoDup (tq ++ ready_txns m);
  so_queued t : t ∈ tq ++ ready_txns m ↔ t ∈ L ∧ ¬ waits p L t ∧ st t = Pending;
  so_dq : NoDup dq;
  so_done t : t ∈ dq ↔ t ∈ L ∧ st t = Applied;
  so_started t : st t ≠ Pending → t ∈ T ∧ (t ∈ L → ¬ waits p L t);
  so_released t : t ∈ T → t ∉ L → st t = Applied
}.

(** ** Batches *)

Definition is_batch p (b : Z) (data : list TxnProto) : Prop := 0 ≤ b ∧ batch_for N p <$> plan !! Z.to_nat b = Some data.

Definition taken p (number : Z) (offset : nat) : list TxnProto :=
  concat (take (Z.to_nat number) (batch_for N p <$> plan)) ++ take offset (default [] (batch_for N p <$> plan !! Z.to_nat number)).

Record batches_ok p (n : Node) : Prop := {
  bo_number : 0 ≤ batch_number n;
  bo_message : match batch_message n with
               | None => batch_offset n = 0%nat
               | Some data => is_batch p (batch_number n) data ∧ (batch_offset n ≤ length data)%nat
               end;
  bo_batches (b : Z) data : batches n !! b = Some data → is_batch p b data;
  bo_socket (b : Z) data : (b, data) ∈ batch_socket n → is_batch p b data;
  bo_inproc q m : (q, m) ∈ inproc_in n → q ∈ all_nodes N ∧ ∃ (b : Z) data, m = TXN_BATCH b data ∧ is_batch q b data;
  bo_sequencer : 0 ≤ seq_batch_number n ∧ seq_batch_number n `mod` N = p
}.

(** ** Workers and links *)

Record worker_ok (i : nat) (w : Worker) st : Prop := {
  wo_busy t s d : st t = Busy i s d → s = w_state w;
  wo_state : w_state w ≠ WIdle → ∃ t d, st t = Busy i (w_state w) d;
  wo_active c m : active_txns w !! c = Some m ↔ ∃ t, t ∈ sequence ∧ c = channel_of t ∧ st t = Active i m;
  wo_messages c kvs : (c, kvs) ∈ message_queue w → ∃ t, t ∈ sequence ∧ c = channel_of t ∧ activated i (st t);
  wo_link c : LINK_CHANNEL c ∈ link_unlink_queue w → ∃ t, t ∈ sequence ∧ c = channel_of t ∧ activated i (st t);
  wo_unlink c : UNLINK_CHANNEL c ∈ link_unlink_queue w → ∃ t, t ∈ sequence ∧ c = channel_of t ∧ st t = Applied
}.

Record workers_ok (ws : list Worker) (rr : gmap string nat) (un : gmap string (list (string * list (Key * Value)))) st : Prop := {
  ws_worker i (w : Worker) : ws !! i = Some w → worker_ok i w st;
  ws_owner t i : owner (st t) = Some i → (i < length ws)%nat;
  ws_remote c i : rr !! c = Some i → (i < length ws)%nat ∧ ∃ t, t ∈ sequence ∧ c = channel_of t ∧ activated i (st t);
  ws_linked t i m : st t = Active i m →
    rr !! channel_of t = Some i ∧ default [] (un !! channel_of t) = [] ∨ ∃ w : Worker, ws !! i = Some w ∧ LINK_CHANNEL (channel_of t) ∈ link_unlink_queue w;
  ws_undelivered c x : x ∈ default [] (un !! c) → x.1 = c;
  ws_some : (0 < length ws)%nat
}.

(** ** Storage and objects *)

Definition results_of t (ks : list Key) : list (Key * Value) := (λ k, (k, default "" (database (pos t) !! k))) <$> ks.

(** The result node [p] sends for [t]. *)
Definition result p t : list (Key * Value) := results_of t (local_keys p t).

(** The objects are the ones of the storage for local keys and copies of the ones
    of [d] for others. *)
Record objects_ok p t (d : gmap Key Value) (m : StorageManager) : Prop := {
  oo_txn : sm_txn m = t;
  oo_cell k c : objects m !! k = Some c → k ∈ txn_keys t ∧
    if decide (partition k = p) then c = Stored else p ∈ writers t ∧ ∃ v, d !! k = Some v ∧ c = Copy v;
  oo_local k : k ∈ local_keys p t → objects m !! k = Some Stored
}.

Definition stage_ok p (store : gmap Key Value) t (s : stage) : Prop :=
  match s with
  | Pending | Applied => True
  | Active _ m => objects_ok p t (database (pos t)) m ∧ ReadyToExecute m = false
  | Busy _ WIdle _ => False
  | Busy _ (WReading m keys msg) d =>
      sm_txn m = t ∧ p ∈ readers t ∧ ∃ ks, local_keys p t = ks ++ keys ∧ msg = results_of t ks ∧
      ∀ k, objects m !! k = if decide (k ∈ ks) then Some Stored else None
  | Busy _ (WSending m msg nodes) d =>
      sm_txn m = t ∧ NoDup nodes ∧ (∀ q, q ∈ nodes → q ∈ writers t ∧ q ≠ p ∧ p ∈ readers t ∧ msg = result p t) ∧
      ∀ k, objects m !! k = if decide (k ∈ local_keys p t) then Some Stored else None
  | Busy _ (WExecuting m q _) d =>
      objects_ok p t d m ∧ (∀ k, k ∈ txn_keys t → is_Some (objects m !! k)) ∧ (∀ k, k ∈ local_keys p t → store !! k = d !! k) ∧
      confined (txn_keys t) (read_write_set t) q ∧ exec q d = Some (database (S (pos t)))
  end.

(** [j] is after the applied writers of [k] and before the other ones, none of
    which is executing. *)
Definition separates st k (j : nat) : Prop :=
  (j ≤ length sequence)%nat ∧
  ∀ t, t ∈ sequence → k ∈ read_write_set t → if decide (pos t < j)%nat then st t = Applied else st t ≠ Applied ∧ ¬ executing (st t).

Record data_ok p (store : gmap Key Value) st : Prop := {
  do_order k a b : a ∈ sequence → b ∈ sequence → (pos a < pos b)%nat → conflict (IsLocal N p) k a b → st b = Applied → st a = Applied;
  do_storage k j : partition k = p → separates st k j → store !! k = database j !! k;
  do_stage t : t ∈ sequence → stage_ok p store t (st t);
  do_local k : partition k ≠ p → store !! k = None;
  do_alone t : executing (st t) ∨ st t = Applied → p ∈ writers t ∨ local_keys p t = txn_keys t
}.

(** ** Messages *)

Definition unsent w (s : stage) : nat :=
  match s with
  | Pending | Busy _ (WReading _ _ _) _ => 1
  | Busy _ (WSending _ _ nodes) _ => if decide (w ∈ nodes) then 1 else 0
  | _ => 0
  end.

Definition absorbed r t (s : stage) : nat :=
  match s with
  | Active _ m => if decide (Forall (λ k, is_Some (objects m !! k)) (local_keys r t)) then 1 else 0
  | Busy _ (WExecuting _ _ _) _ | Applied => 1
  | _ => 0
  end.

#[global] Instance Message_eq_dec : EqDecision Message.
Proof. solve_decision. Defined.

Definition occ {B} `{EqDecision B} (x : B) (l : list B) : nat := length (filter (λ y, y = x) l).

Definition arrived (ws : list Worker) (un : gmap string (list (string * list (Key * Value)))) (x : string * list (Key * Value)) : nat :=
  (occ x (default [] (un !! x.1)) + sum_list ((λ w : Worker, occ x (message_queue w)) <$> ws))%nat.

(** The result of [r] for [t] is expected at [w]. *)
Definition expected r w t : Prop := t ∈ sequence ∧ r ∈ readers t ∧ w ∈ writers t ∧ r ≠ w.

Definition is_result w (x : string * list (Key * Value)) : Prop := ∃ r t, expected r w t ∧ x = (channel_of t, result r t).

Record messages_ok (S : Z → TxnProto → stage) (ns : gmap Z Node) (socks : gmap (Z * Z) (list Message)) : Prop := {
  mo_socket r w m : m ∈ default [] (socks !! (r, w)) →
    match m with
    | READ_RESULT c kvs => ∃ t, expected r w t ∧ c = channel_of t ∧ kvs = result r t
    | TXN_BATCH b data => is_batch w b data
    end;
  mo_arrived w n x : ns !! w = Some n → (0 < arrived (n_workers n) (undelivered_messages n) x)%nat → is_result w x;
  mo_count r w t n : expected r w t → ns !! w = Some n →
    (unsent w (S r t) + occ (READ_RESULT (channel_of t) (result r t)) (default [] (socks !! (r, w))) +
     arrived (n_workers n) (undelivered_messages n) (channel_of t, result r t) + absorbed r t (S w t) = 1)%nat
}.

(** ** Batches under way *)

(** Node [p] has or has used batch [b]. *)
Definition has_batch (n : Node) (b : Z) : Prop :=
  b < batch_number n ∨ b = batch_number n ∧ is_Some (batch_message n) ∨ is_Some (batches n !! b) ∨ ∃ data, (b, data) ∈ batch_socket n.

(** Batch [b] for node [p] is still with node [n], which makes it, or in the socket. *)
Definition to_come (n : Node) (socket : list Message) p (b : Z) : Prop :=
  seq_batch_number n ≤ b ∨ (∃ data, (p, TXN_BATCH b data) ∈ inproc_in n) ∨ ∃ data, TXN_BATCH b data ∈ socket.

Definition flow_ok (ns : gmap Z Node) (socks : gmap (Z * Z) (list Message)) : Prop :=
  ∀ p n (b : Z), ns !! p = Some n → 0 ≤ b < Z.of_nat (length plan) → has_batch n b ∨
    ∃ n', ns !! (b `mod` N) = Some n' ∧ to_come n' (default [] (socks !! (b `mod` N, p))) p b.

(** ** The work left

    What a transaction still needs at a node, and what is in queues; every step
    that changes the system takes some of it. *)

Fixpoint cost (q : prog) (d : gmap Key Value) : nat :=
  match q with
  | Return | Fault => 0
  | ReadObject k f => S (cost (f (d !! k)) d)
  | Assign k v q => S (cost q (<[k := v]> d))
  end.

Definition rank p t (s : stage) : nat :=
  let c := cost (Execute t) (database (pos t)) in
  match s with
  | Applied | Busy _ WIdle _ => 0
  | Busy _ (WExecuting _ q _) d => 3 + cost q d
  | Active _ _ => 4 + c
  | Busy _ (WSending _ _ nodes) _ => 6 + c + 4 * length nodes
  | Busy _ (WReading _ keys _) _ => 7 + c + length keys + 4 * length (writers t)
  | Pending => 8 + c + length (local_keys p t) + 4 * length (writers t)
  end.

(** The elements of all lists of a map, each with its weight. *)
Definition total {K} `{Countable K} {B} (f : B → nat) (m : gmap K (list B)) : nat := map_fold (λ _ l n, (sum_list_with f l + n)%nat) 0%nat m.

Definition worker_work (w : Worker) : nat := length (message_queue w) + length (link_unlink_queue w).

Definition scheduler_work p (n : Node) : nat :=
  length (done_queue n) + length (batch_socket n) + (length (sequence_at p) - length (taken p (batch_number n) (batch_offset n))) +
  2 * (length plan - Z.to_nat (batch_number n)) + (if batch_message n is None then 1 else 0).

Definition sequencer_work (n : Node) : nat := 3 * length (inproc_in n) + (3 * Z.to_nat N + 1) * (length plan - Z.to_nat (seq_batch_number n)).

Definition node_work p (n : Node) st : nat :=
  sum_list_with (λ t, rank p t (st t)) (sequence_at p) + sum_list_with worker_work (n_workers n) +
  2 * total (λ _, 1%nat) (undelivered_messages n) + scheduler_work p n + sequencer_work n.

Definition message_work (m : Message) : nat := match m with READ_RESULT _ _ => 3 | TXN_BATCH _ _ => 2 end.

Definition work (S : Z → TxnProto → stage) (s : System) : nat :=
  sum_list_with (λ p, if sys_nodes s !! p is Some n then node_work p n (S p) else 0%nat) (all_nodes N) + total message_work (sockets s).

(** ** The system *)

Record node_ok p (n : Node) st L : Prop := {
  no_sched : sched_ok p (lm n) (txns_queue n) (done_queue n) (taken p (batch_number n) (batch_offset n)) st L;
  no_ready : ready_txns (lm n) = [];
  no_count : executing_txns n + pending_txns n = Z.of_nat (length L);
  no_batches : batches_ok p n;
  no_workers : workers_ok (n_workers n) (remote_result n) (undelivered_messages n) st;
  no_data : data_ok p (storage n) st
}.

Record system_ok (S : Z → TxnProto → stage) (s : System) : Prop := {
  sy_nodes p : is_Some (sys_nodes s !! p) ↔ p ∈ all_nodes N;
  sy_node p n : sys_nodes s !! p = Some n → ∃ L, node_ok p n (S p) L;
  sy_messages : messages_ok S (sys_nodes s) (sockets s);
  sy_flow : flow_ok (sys_nodes s) (sockets s)
}.

End invariant.

Arguments so_locks {_ _ _ _ _ _ _ _ _}.
Arguments so_taken {_ _ _ _ _ _ _ _ _}.
Arguments so_sub {_ _ _ _ _ _ _ _ _}.
Arguments so_tq {_ _ _ _ _ _ _ _ _}.
Arguments so_queued {_ _ _ _ _ _ _ _ _}.
Arguments so_dq {_ _ _ _ _ _ _ _ _}.
Arguments so_done {_ _ _ _ _ _ _ _ _}.
Arguments so_started {_ _ _ _ _ _ _ _ _}.
Arguments so_released {_ _ _ _ _ _ _ _ _}.
Arguments bo_number {_ _ _ _}.
Arguments bo_message {_ _ _ _}.
Arguments bo_batches {_ _ _ _}.
Arguments bo_socket {_ _ _ _}.
Arguments bo_inproc {_ _ _ _}.
Arguments bo_sequencer {_ _ _ _}.
Arguments wo_busy {_ _ _ _ _}.
Arguments wo_state {_ _ _ _ _}.
Arguments wo_active {_ _ _ _ _}.
Arguments wo_messages {_ _ _ _ _}.
Arguments wo_link {_ _ _ _ _}.
Arguments wo_unlink {_ _ _ _ _}.
Arguments ws_worker {_ _ _ _ _ _}.
Arguments ws_owner {_ _ _ _ _ _}.
Arguments ws_remote {_ _ _ _ _ _}.
Arguments ws_linked {_ _ _ _ _ _}.
Arguments ws_some {_ _ _ _ _ _}.
Arguments ws_undelivered {_ _ _ _ _ _}.
Arguments oo_txn {_ _ _ _ _}.
Arguments oo_cell {_ _ _ _ _}.
Arguments oo_local {_ _ _ _ _}.
Arguments do_order {_ _ _ _ _ _ _}.
Arguments do_storage {_ _ _ _ _ _ _}.
Arguments do_stage {_ _ _ _ _ _ _}.
Arguments do_local {_ _ _ _ _ _ _}.
Arguments do_alone {_ _ _ _ _ _ _}.
Arguments mo_socket {_ _ _ _ _ _ _}.
Arguments mo_arrived {_ _ _ _ _ _ _}.
Arguments mo_count {_ _ _ _ _ _ _}.
Arguments no_sched {_ _ _ _ _ _ _ _}.
Arguments no_ready {_ _ _ _ _ _ _ _}.
Arguments no_count {_ _ _ _ _ _ _ _}.
Arguments no_batches {_ _ _ _ _ _ _ _}.
Arguments no_workers {_ _ _ _ _ _ _ _}.
Arguments no_data {_ _ _ _ _ _ _ _}.
Arguments sy_nodes {_ _ _ _ _ _}.
Arguments sy_node {_ _ _ _ _ _}.
Arguments sy_messages {_ _ _ _ _ _}.
Arguments sy_flow {_ _ _ _ _ _}.

(** * The steps of the parts keep the invariant *)

(** ** Sums *)

Lemma sum_ext {B} (f g : B → nat) l : (∀ y, y ∈ l → f y = g y) → sum_list_with f l = sum_list_with g l.
Proof. induction l as [|y l IH]; intros Hfg; [done|]. simpl. rewrite (Hfg y) by left. rewrite IH; [done|]. intros z Hz. apply Hfg. by right. Qed.

(** A sum changes as one of its terms does. *)
Lemma sum_change {B} (f g : B → nat) l x : NoDup l → x ∈ l → (∀ y, y ∈ l → y ≠ x → f y = g y) →
  (sum_list_with f l + g x = sum_list_with g l + f x)%nat.
Proof.
  intros Hnd Hx Hfg. apply list_elem_of_split in Hx as (l1 & l2 & ->). apply NoDup_app in Hnd as (_ & Hdis & [Hx2 _]%NoDup_cons).
  rewrite !sum_list_with_app. simpl. rewrite (sum_ext f g l1), (sum_ext f g l2); [lia|..]; intros y Hy; (apply Hfg; [set_solver|]); intros ->; [done|].
  apply (Hdis x Hy). by left.
Qed.

Lemma sum_insert {B} (f : B → nat) (l : list B) i x y : l !! i = Some x → (sum_list_with f (<[i := y]> l) + f x = sum_list_with f l + f y)%nat.
Proof. revert i. induction l as [|z l IH]; intros [|i] Hl; simplify_eq/=; [lia|]. specialize (IH i Hl). lia. Qed.

Lemma total_insert {K} `{Countable K} {B} (f : B → nat) (m : gmap K (list B)) k l :
  (total f (<[k := l]> m) + sum_list_with f (default [] (m !! k)) = total f m + sum_list_with f l)%nat.
Proof.
  unfold total. assert (∀ (m : gmap K (list B)) k l, m !! k = None → map_fold (λ _ l n, (sum_list_with f l + n)%nat) 0%nat (<[k := l]> m) =
    (sum_list_with f l + map_fold (λ _ l n, (sum_list_with f l + n)%nat) 0%nat m)%nat) as Hf.
  { intros m' k' l' Hn. by rewrite map_fold_insert_L by (done || (intros; lia)). }
  destruct (m !! k) as [l'|] eqn:Hk; simpl; [|rewrite Hf by done; lia].
  rewrite <- (insert_delete_id m k l' Hk) at 2. rewrite <- insert_delete_eq, !Hf by (by rewrite lookup_delete_eq). lia.
Qed.

Lemma total_delete {K} `{Countable K} {B} (f : B → nat) (m : gmap K (list B)) k :
  (total f (delete k m) + sum_list_with f (default [] (m !! k)) = total f m)%nat.
Proof.
  destruct (m !! k) as [l|] eqn:Hk; simpl; [|by rewrite delete_id by done; lia].
  rewrite <- (insert_delete_id m k l Hk) at 2. pose proof (total_insert f (delete k m) k l) as Ht. rewrite lookup_delete_eq in Ht. simpl in Ht. lia.
Qed.

Lemma sum_length {B} (l : list B) : sum_list_with (λ _, 1%nat) l = length l.
Proof. induction l; simpl; lia. Qed.

Section steps.
Context (N : Z) `{Application} (plan : list (list TxnProto)) (db : gmap Key Value) (HP : planned N plan db).
Implicit Types (t a b : TxnProto) (p r w : Z) (k : Key) (st : TxnProto → stage) (L T : list TxnProto).

Notation sequence := (sequence N plan).
Notation sequence_at := (sequence_at N plan).
Notation pos := (pos N plan).
Notation database := (database N plan db).
Notation local_keys := (local_keys N).
Notation waits p := (waits (IsLocal N p)).
Notation partition := (LookupPartition N).
Notation sched_ok := (sched_ok N plan).
Notation data_ok := (data_ok N plan db).
Notation stage_ok := (stage_ok N plan db).
Notation conflict p := (conflict (IsLocal N p)).

(** ** The scheduler *)

Lemma prefix_sub {B} (l l' : list B) : l `prefix_of` l' → l `sublist_of` l'.
Proof. intros [l2 ->]. by apply sublist_inserts_r. Qed.

Lemma NoDup_snoc {B} (l : list B) x : NoDup (l ++ [x]) ↔ x ∉ l ∧ NoDup l.
Proof. rewrite (Permutation_app_comm l [x]). apply NoDup_cons. Qed.

Lemma lm_ok_ready f L m rs : lm_ok f L m → lm_ok f L (mkLM (lock_table m) rs (txn_waits m)).
Proof. intros [[[] ] ? ?]. by repeat split. Qed.

Section scheduler.
Context (p : Z) (m : LockManager) (tq dq T : list TxnProto) (st : TxnProto → stage) (L : list TxnProto).
Context (HS : sched_ok p m tq dq T st L).

Lemma sequence_at_in t : t ∈ sequence_at p → t ∈ sequence.
Proof. intros Ht. by eapply sequence_at_elem in Ht as [? _]. Qed.

Lemma taken_in t : t ∈ T → t ∈ sequence_at p.
Proof. intros Ht. eapply elem_of_sublist; [done|]. apply prefix_sub, (so_taken HS). Qed.

Lemma locked_sub : L `sublist_of` sequence.
Proof.
  etrans; [apply (so_sub HS)|]. etrans; [apply prefix_sub, (so_taken HS)|].
  apply sequence_at_sublist.
Qed.

Lemma waits_for k a t : a ∈ L → t ∈ L → (pos a < pos t)%nat → conflict p k a t → waits p L t.
Proof. intros Ha Ht Hlt Hc. apply (sorted_waits N plan db HP p L t locked_sub Ht). by exists k, a. Qed.

Lemma held_locked t : held (st t) → t ∈ L ∧ ¬ waits p L t.
Proof.
  intros Hh. destruct (so_started HS t) as [HT Hw]; [by destruct (st t)|].
  destruct (decide (t ∈ L)) as [HL|HL]; [by auto|]. rewrite (so_released HS t HT HL) in Hh. done.
Qed.

Lemma held_in t : held (st t) → t ∈ sequence.
Proof. intros [Ht _]%held_locked. eapply elem_of_sublist; [done|apply locked_sub]. Qed.

(** Two transactions that conflict do not both have their locks. *)
Lemma exclusive k a b : held (st a) → held (st b) → conflict p k a b → a = b.
Proof.
  intros Ha Hb Hc. pose proof (held_in a Ha). pose proof (held_in b Hb).
  destruct (held_locked a Ha) as [HaL Haw], (held_locked b Hb) as [HbL Hbw].
  destruct (lt_eq_lt_dec (pos a) (pos b)) as [[Hlt|Heq]|Hlt]; [|by eapply pos_inj|]; exfalso.
  - apply Hbw. by apply (waits_for k a).
  - apply Haw. apply (waits_for k b); try done. unfold conflict in *. naive_solver.
Qed.

Lemma prefix_closed a t : t ∈ T → a ∈ sequence_at p → (pos a < pos t)%nat → a ∈ T.
Proof.
  intros Ht Ha Hlt. destruct (so_taken HS) as [rest Hr]. rewrite Hr in Ha. apply elem_of_app in Ha as [?|Ha]; [done|].
  pose proof (sublist_sorted _ _ _ (sequence_at_sublist N plan p) (sequence_sorted N plan db HP)) as Hs. rewrite Hr in Hs.
  pose proof (StronglySorted_app_1_elem_of _ _ _ _ _ Hs Ht Ha). simpl in *. lia.
Qed.

Lemma earlier_applied k a t : held (st t) → a ∈ sequence → (pos a < pos t)%nat → conflict p k a t → st a = Applied.
Proof.
  intros Ht Ha Hlt Hc. destruct (held_locked t Ht) as [HtL Htw].
  apply (so_released HS).
  - apply (prefix_closed a t); [eapply elem_of_sublist; [done|apply (so_sub HS)]| |done].
    destruct Hc as ([Hk <-]%lock_keys_local & _). by eapply participant_of.
  - intros HaL. apply Htw. by apply (waits_for k a).
Qed.

Lemma sched_held t s : held (st t) → held s → sched_ok p m tq dq T (<[t := s]> st) L.
Proof.
  intros Ht Hs. destruct (held_locked t Ht) as [HtL Hw]. destruct HS as [H1 H2 H3 H4 H5 H6 H7 H8 H9]. split; try done.
  all: intros t'; destruct (decide (t' = t)) as [->|Hne]; rewrite ?fn_lookup_insert, ?fn_lookup_insert_ne by done; auto.
  - rewrite H5. split; intros (? & ? & Heq); [by rewrite Heq in Ht|by rewrite Heq in Hs].
  - rewrite H7. split; intros (? & Heq); [by rewrite Heq in Ht|by rewrite Heq in Hs].
  - intros _. apply H8. by destruct (st t).
  - done.
Qed.

Lemma sched_finish t : held (st t) → sched_ok p m tq (dq ++ [t]) T (<[t := Applied]> st) L.
Proof.
  intros Ht. destruct (held_locked t Ht) as [HtL Hw]. destruct HS as [H1 H2 H3 H4 H5 H6 H7 H8 H9]. split; try done.
  1: intros t'. 2: apply NoDup_snoc; split; [intros [_ Heq]%H7; by rewrite Heq in Ht|done].
  all: try intros t'; destruct (decide (t' = t)) as [->|Hne]; rewrite ?fn_lookup_insert, ?fn_lookup_insert_ne by done; auto.
  - rewrite H5. split; intros (? & ? & Heq); [by rewrite Heq in Ht|done].
  - rewrite elem_of_app, list_elem_of_singleton. naive_solver.
  - rewrite elem_of_app, list_elem_of_singleton, H7. naive_solver.
  - intros _. apply H8. by destruct (st t).
Qed.

(** All ready transactions go to the queue of the workers. *)
Lemma sched_ready : sched_ok p (mkLM (lock_table m) [] (txn_waits m)) (tq ++ ready_txns m) dq T st L.
Proof. destruct HS. split; simpl; rewrite ?app_nil_r; try done. by apply lm_ok_ready. Qed.

(** The next transaction asks for its locks. *)
Lemma sched_lock t : T ++ [t] `prefix_of` sequence_at p → sched_ok p (Lock (IsLocal N p) m t).1 tq dq (T ++ [t]) st (L ++ [t]).
Proof.
  intros HT. assert (t ∈ sequence_at p) as Hin.
  { eapply elem_of_sublist; [|by apply prefix_sub]. set_solver. }
  assert (t ∉ T) as HtT.
  { pose proof (sublist_NoDup _ _ (sequence_NoDup N plan db HP) (sequence_at_sublist N plan p)) as Hnd.
    pose proof (sublist_NoDup _ _ Hnd (prefix_sub _ _ HT)) as Hnd'. by apply NoDup_snoc in Hnd' as [? _]. }
  assert (t ∉ L) as HtL by (intros Ht; apply HtT; eapply elem_of_sublist; [done|apply (so_sub HS)]).
  assert (st t = Pending) as Hst. { destruct (decide (st t = Pending)) as [?|Hn]; [done|]. by destruct (so_started HS t Hn). }
  destruct (lm_Lock _ L m t (so_locks HS) HtL) as (m' & -> & Hok & Hr); [by apply (sequence_ok N plan db HP), sequence_at_in|]. simpl.
  destruct HS as [H1 H2 H3 H4 H5 H6 H7 H8 H9]. split; try done.
  - by apply sublist_app.
  - rewrite Hr, app_assoc. destruct (decide _); [by rewrite app_nil_r|]. apply NoDup_snoc. split; [|done]. by rewrite H5; intros (? & _).
  - intros o. rewrite Hr, app_assoc, elem_of_app, H5, elem_of_app, list_elem_of_singleton. split.
    + intros [(Ho & Hw & Hp)|Ho]; [rewrite waits_app by done; by auto|]. destruct (decide _) as [|Hw]; [by apply elem_of_nil in Ho|].
      apply list_elem_of_singleton in Ho as ->. by auto.
    + intros ([Ho| ->] & Hw & Hp); [rewrite waits_app in Hw by done; by auto|]. right. rewrite decide_False by done. by left.
  - intros o. rewrite H7, elem_of_app, list_elem_of_singleton. split; [by intros [? ?]; auto|]. intros [[?| ->] Ho]; [done|congruence].
  - intros o Ho. destruct (H8 o Ho) as [HoT Hw]. split; [by apply elem_of_app; left|].
    intros [HoL|Heq%list_elem_of_singleton]%elem_of_app; [rewrite waits_app by done; auto|subst; done].
  - intros o [Ho|Heq%list_elem_of_singleton]%elem_of_app HoL; [|subst; set_solver]. apply H9; [done|]. set_solver.
Qed.

(** An applied transaction gives back its locks. *)
Lemma sched_release t dq' : dq = t :: dq' →
  ∃ m', Release (IsLocal N p) m t = Ret m' ∧ sched_ok p m' tq dq' T st (without t L).
Proof.
  intros Hdq. assert (t ∈ L ∧ st t = Applied) as [HtL Hst] by (apply (so_done HS); rewrite Hdq; left).
  assert (¬ waits p L t) as Hw by (apply (so_started HS t); [by rewrite Hst|done]).
  destruct (lm_Release _ L m t (so_locks HS) HtL Hw) as (m' & news & Hrel & Hok & Hr & Hnd & Hnews). exists m'. split; [done|].
  destruct HS as [H1 H2 H3 H4 H5 H6 H7 H8 H9]. rewrite Hdq in H6, H7. apply NoDup_cons in H6 as [Ht H6].
  assert (∀ o, o ∈ L → waits p L o → st o = Pending) as Hpend.
  { intros o Ho Hwo. destruct (decide (st o = Pending)) as [?|Hn]; [done|]. by destruct (H8 o Hn) as [_ []]. }
  split; try done.
  - etrans; [apply sublist_filter|done].
  - rewrite Hr, app_assoc. apply NoDup_app. split; [done|]. split; [|done]. intros o (_ & Hwo & _)%H5 (_ & Hwo' & _)%Hnews. done.
  - intros o. rewrite Hr, app_assoc, elem_of_app, H5, Hnews, without_elem. split.
    + intros [(Ho & Hwo & Hp)|((Hne & Ho) & Hwo & Hwo')]; [|by auto 6]. assert (o ≠ t) by congruence.
      split; [done|]. split; [|done]. intros Hc. by apply Hwo, (waits_without _ L t).
    + intros ((Hne & Ho) & Hwo & Hp). destruct (decide (waits p L o)); [by auto|by auto].
  - intros o. rewrite without_elem. specialize (H7 o). rewrite elem_of_cons in H7. destruct (decide (o = t)) as [->|]; [naive_solver|naive_solver].
  - intros o Ho. destruct (H8 o Ho) as [HoT Hwo]. split; [done|]. rewrite without_elem. intros [Hne HoL] Hc.
    by apply (Hwo HoL), (waits_without _ L t).
  - intros o HoT. rewrite without_elem. intros Hn. destruct (decide (o = t)) as [->|]; [done|]. apply H9; [done|]. naive_solver.
Qed.

(** A worker takes a transaction. *)
Lemma sched_pop t tq' s : tq = t :: tq' → held s → sched_ok p m tq' dq T (<[t := s]> st) L ∧ t ∈ L ∧ ¬ waits p L t ∧ st t = Pending.
Proof.
  intros Htq Hs. assert (t ∈ L ∧ ¬ waits p L t ∧ st t = Pending) as (HtL & Hw & Hst) by (apply (so_queued HS); rewrite Htq; left).
  split; [|done]. destruct HS as [H1 H2 H3 H4 H5 H6 H7 H8 H9]. rewrite Htq in H4, H5. apply NoDup_cons in H4 as [Ht H4].
  split; try done.
  all: intros t'; destruct (decide (t' = t)) as [->|Hne]; rewrite ?fn_lookup_insert, ?fn_lookup_insert_ne by done; auto.
  - split; [done|]. intros (_ & _ & Heq). by rewrite Heq in Hs.
  - specialize (H5 t'). simpl in H5. rewrite elem_of_cons in H5. naive_solver.
  - rewrite H7. split; intros [_ Heq]; [congruence|by rewrite Heq in Hs].
  - intros _. split; [|done]. by eapply elem_of_sublist.
  - done.
Qed.

End scheduler.
(** ** Storage and objects *)

Section data.
Context (p : Z) (m : LockManager) (tq dq T : list TxnProto) (store : gmap Key Value) (st : TxnProto → stage) (L : list TxnProto).
Context (HS : sched_ok p m tq dq T st L) (HD : data_ok p store st).

Lemma local_conflict k a b : partition k = p → k ∈ txn_keys a → k ∈ txn_keys b → k ∈ read_write_set a ∨ k ∈ read_write_set b → conflict p k a b.
Proof. intros. split; [by apply lock_keys_local|]. split; [by apply lock_keys_local|done]. Qed.

Lemma separates_held t k : held (st t) → k ∈ local_keys p t → (k ∈ read_write_set t → ¬ executing (st t)) → separates N plan st k (pos t).
Proof.
  intros Ht [Hk Hp]%local_keys_elem Hx. pose proof (held_in _ _ _ _ _ _ _ HS t Ht) as Hin.
  pose proof (pos_lt N plan t Hin). split; [lia|]. intros w Hw Hkw.
  assert (conflict p k w t) as Hc by (apply local_conflict; auto using rw_keys).
  assert (conflict p k t w) as Hc' by (apply local_conflict; auto using rw_keys).
  case_decide as Hlt; [by eapply earlier_applied|]. destruct (decide (w = t)) as [->|Hne].
  - split; [intros Heq; by rewrite Heq in Ht|auto].
  - assert (pos w ≠ pos t) by (intros Heq; by apply Hne, (pos_inj N plan)). split.
    + intros Hwa. assert (st t = Applied) as Heq by (eapply (do_order HD k t w); eauto; lia). by rewrite Heq in Ht.
    + intros Hex. apply Hne. eapply exclusive; [done| |done|done]. by destruct (st w).
Qed.

(** A transaction that has its locks finds the objects of the database before it. *)
Lemma storage_current t k : held (st t) → ¬ executing (st t) → k ∈ local_keys p t → store !! k = database (pos t) !! k.
Proof. intros Ht Hx Hk. apply (do_storage HD); [by apply local_keys_elem in Hk as []|]. by apply separates_held. Qed.

(** A stage changes that is not applied before or after. *)
Lemma data_upd t s : t ∈ sequence → st t ≠ Applied → s ≠ Applied → (executing (st t) → executing s) → stage_ok p store t s →
  (executing s → p ∈ writers t ∨ local_keys p t = txn_keys t) → data_ok p store (<[t := s]> st).
Proof.
  clear HS. intros Hin Ht Hs Hx Hok Hal. destruct HD as [H1 H2 H3 H4 H5]. split.
  - intros k a b Ha Hb Hlt Hc. destruct (decide (b = t)) as [->|]; [by rewrite fn_lookup_insert|]. rewrite fn_lookup_insert_ne by done. intros Hba.
    pose proof (H1 k a b Ha Hb Hlt Hc Hba) as Haa. destruct (decide (a = t)) as [->|]; [done|]. by rewrite fn_lookup_insert_ne.
  - intros k j Hk [Hj Hsep]. apply H2; [done|]. split; [done|]. intros w Hw Hkw. specialize (Hsep w Hw Hkw).
    destruct (decide (w = t)) as [->|]; [rewrite fn_lookup_insert in Hsep|by rewrite fn_lookup_insert_ne in Hsep].
    case_decide; [done|]. naive_solver.
  - intros t' Ht'. destruct (decide (t' = t)) as [->|]; [by rewrite fn_lookup_insert|]. rewrite fn_lookup_insert_ne by done. auto.
  - done.
  - intros t'. destruct (decide (t' = t)) as [->|]; [rewrite fn_lookup_insert; naive_solver|]. rewrite fn_lookup_insert_ne by done. auto.
Qed.

(** An executing transaction assigns to an object of the storage. *)
Lemma data_assign t i mg k v q l d : st t = Busy i (WExecuting mg (Assign k v q) l) d → partition k = p → k ∈ read_write_set t →
  stage_ok p (<[k := v]> store) t (Busy i (WExecuting mg q l) (<[k := v]> d)) →
  data_ok p (<[k := v]> store) (<[t := Busy i (WExecuting mg q l) (<[k := v]> d)]> st).
Proof.
  intros Hst Hk Hkw Hok. assert (held (st t)) as Hh by (by rewrite Hst). pose proof (held_in _ _ _ _ _ _ _ HS t Hh) as Hin.
  set (s := Busy i (WExecuting mg q l) _) in *. destruct HD as [H1 H2 H3 H4 H5].
  assert (∀ t', t' ≠ t → (<[t := s]> st) t' = st t') as Hne by (intros; by rewrite fn_lookup_insert_ne).
  assert ((<[t := s]> st) t = s) as Heq by (by rewrite fn_lookup_insert). split.
  - intros k' a b Ha Hb Hlt Hc. destruct (decide (b = t)) as [->|]; [by rewrite Heq|]. rewrite Hne by done. intros Hba.
    pose proof (H1 k' a b Ha Hb Hlt Hc Hba) as Haa. destruct (decide (a = t)) as [->|]; [congruence|]. by rewrite Hne.
  - intros k' j Hk' [Hj Hsep]. destruct (decide (k' = k)) as [->|Hkk].
    + specialize (Hsep t Hin Hkw). rewrite Heq in Hsep. case_decide; [done|]. by destruct Hsep as [_ []].
    + rewrite lookup_insert_ne by done. apply H2; [done|]. split; [done|]. intros w Hw Hkw'. specialize (Hsep w Hw Hkw').
      destruct (decide (w = t)) as [->|]; [|by rewrite Hne in Hsep]. rewrite Heq in Hsep. case_decide; [done|]. by destruct Hsep as [_ []].
  - intros t' Ht'. destruct (decide (t' = t)) as [->|Htt]; [by rewrite Heq|]. rewrite Hne by done. specialize (H3 t' Ht').
    destruct (st t') as [|j [| | |mg' q' l'] d'| |] eqn:Hst'; try done. destruct H3 as (Ho & Hall & Hloc & Hcf & Hex). split_and!; try done.
    intros k' Hk''. rewrite lookup_insert_ne; [auto|]. intros <-. apply Htt. apply local_keys_elem in Hk'' as [Hkt _].
    eapply (exclusive _ _ _ _ _ _ _ HS k); [by rewrite Hst'|by rewrite Hst|]. apply local_conflict; auto using rw_keys.
  - intros k' Hk'. rewrite lookup_insert_ne by congruence. auto.
  - intros t'. destruct (decide (t' = t)) as [->|]; [|rewrite Hne by done; auto]. intros _. apply H5. left. by rewrite Hst.
Qed.

(** An executing transaction ends. *)
Lemma data_finish t i mg l d : st t = Busy i (WExecuting mg Return l) d → data_ok p store (<[t := Applied]> st).
Proof.
  intros Hst. assert (held (st t)) as Hh by (by rewrite Hst). pose proof (held_in _ _ _ _ _ _ _ HS t Hh) as Hin.
  pose proof HD as [H1 H2 H3 H4 H5]. assert (stage_ok p store t (st t)) as Hs by auto. rewrite Hst in Hs.
  destruct Hs as (Ho & Hall & Hloc & _ & [= Hd]). assert (∀ t', t' ≠ t → (<[t := Applied]> st) t' = st t') as Hne by (intros; by rewrite fn_lookup_insert_ne).
  assert ((<[t := Applied]> st) t = Applied) as Heq by (by rewrite fn_lookup_insert). split.
  - intros k a b Ha Hb Hlt Hc. destruct (decide (a = t)) as [->|Hat]; [done|]. rewrite (Hne a) by done. destruct (decide (b = t)) as [->|Hbt].
    + intros _. by eapply earlier_applied.
    + rewrite Hne by done. by apply H1 with k.
  - intros k j Hk [Hj Hsep]. destruct (decide (k ∈ read_write_set t)) as [Hkt|Hkt].
    + pose proof (Hsep t Hin Hkt) as Hjt. rewrite Heq in Hjt. case_decide as Hlt; [|by destruct Hjt].
      rewrite Hloc by (apply local_keys_elem; auto using rw_keys). rewrite Hd. symmetry.
      apply (database_stable N plan db HP); [lia|done|]. intros w Hw Hge Hltw Hkw. specialize (Hsep w Hw Hkw).
      assert (w ≠ t) as Hwt by (intros ->; lia). rewrite decide_True, Hne in Hsep by done.
      assert (st t = Applied); [|congruence]. apply (H1 k t w); [done..| |done]. apply local_conflict; auto using rw_keys.
    + apply H2; [done|]. split; [done|]. intros w Hw Hkw. specialize (Hsep w Hw Hkw). rewrite Hne in Hsep; [done|]. by intros ->.
  - intros t' Ht'. destruct (decide (t' = t)) as [->|]; [by rewrite Heq|]. rewrite Hne by done. auto.
  - done.
  - intros t'. destruct (decide (t' = t)) as [->|]; [|rewrite Hne by done; auto]. intros _. apply H5. left. by rewrite Hst.
Qed.

End data.
(** ** The managers of the workers *)

Notation objects_ok := (objects_ok N).
Notation results_of := (results_of N plan db).
Notation result := (result N plan db).

Lemma object_Some t k : t ∈ sequence → k ∈ txn_keys t → ∀ j, ∃ v, database j !! k = Some v.
Proof. intros Ht Hk j. apply elem_of_dom. rewrite (database_dom N plan db HP). by eapply sequence_objects. Qed.

(** A manager is ready exactly if it has an object for every key. *)
Lemma ready_spec p t d m : t ∈ sequence → objects_ok p t d m →
  ReadyToExecute m = true ↔ ∀ k, k ∈ txn_keys t → is_Some (objects m !! k).
Proof.
  intros Ht [Htxn Hcell _]. unfold ReadyToExecute. rewrite bool_decide_eq_true, Htxn.
  assert (length (read_set t) + length (read_write_set t) = length (txn_keys t))%nat as -> by (unfold txn_keys; by rewrite length_app).
  rewrite <- size_dom. pose proof (keys_NoDup N plan db HP t Ht) as Hnd.
  rewrite <- (size_list_to_set (C := gset Key) _ Hnd).
  assert (dom (objects m) ⊆ list_to_set (txn_keys t)) as Hsub.
  { intros k [c Hc]%elem_of_dom. apply elem_of_list_to_set. by destruct (Hcell k c Hc). }
  split.
  - intros Hsz k Hk. apply elem_of_dom. rewrite (set_subseteq_size_eq _ _ Hsub); [by apply elem_of_list_to_set|lia].
  - intros Hall. f_equal. apply set_eq. intros k. split; [apply Hsub|]. intros Hk%elem_of_list_to_set. by apply elem_of_dom, Hall.
Qed.

Lemma stage_new p store t i : t ∈ sequence → stage_ok p store t (Busy i (new_StorageManager N p t) (database (pos t))).
Proof.
  intros Ht. unfold new_StorageManager. case_decide as Hr; simpl.
  - split_and!; [done..|]. exists []. split_and!; [done..|]. intros k. rewrite lookup_empty, decide_False; [done|by intros ?%elem_of_nil].
  - split_and!; [done|constructor|by intros q ?%elem_of_nil|]. intros k. rewrite lookup_empty, decide_False; [done|].
    intros Hk. apply Hr, (readers_elem N plan db HP); [done|]. intros Hn. rewrite Hn in Hk. by apply elem_of_nil in Hk.
Qed.

Lemma stage_read p store t i m k keys msg d : t ∈ sequence → stage_ok p store t (Busy i (WReading m (k :: keys) msg) d) →
  store !! k = database (pos t) !! k →
  stage_ok p store t (Busy i (WReading (mkSM (sm_txn m) (<[k := if store !! k is Some _ then Stored else Null]> (objects m))) keys
                                (msg ++ [(k, default "" (store !! k))])) d).
Proof.
  intros Ht (Htxn & Hr & ks & Hks & Hmsg & Hobj) Hk. split_and!; [done..|]. exists (ks ++ [k]). split_and!.
  - by rewrite <- app_assoc.
  - rewrite Hmsg, Hk. unfold results_of. by rewrite fmap_app.
  - intros k'. assert (k ∈ local_keys p t) as [Hkt _]%local_keys_elem by (rewrite Hks; set_solver). rewrite Hk.
    destruct (object_Some t k Ht Hkt (pos t)) as [v ->]. simpl. destruct (decide (k' = k)) as [->|].
    + rewrite lookup_insert, decide_True by done. rewrite decide_True; [done|]. set_solver.
    + rewrite lookup_insert_ne, Hobj by done. apply decide_ext. set_solver.
Qed.

Lemma stage_read_all p store t i m msg d : t ∈ sequence → stage_ok p store t (Busy i (WReading m [] msg) d) →
  stage_ok p store t (Busy i (WSending m msg (filter (λ q, q ≠ p) (writers (sm_txn m)))) d).
Proof.
  intros Ht (Htxn & Hr & ks & Hks & Hmsg & Hobj). rewrite app_nil_r in Hks. subst ks. rewrite Htxn. split_and!; [done|..|done].
  - by apply NoDup_filter, (writers_NoDup N plan db HP).
  - intros q [Hq Hw]%list_elem_of_filter. done.
Qed.

Lemma sending_objects p store t i m msg nodes d : stage_ok p store t (Busy i (WSending m msg nodes) d) → ∀ d', objects_ok p t d' m.
Proof.
  intros (Htxn & _ & _ & Hobj) d'. split; [done|..].
  - intros k c Hc. rewrite Hobj in Hc. case_decide as Hk; [|done]. apply local_keys_elem in Hk as [? Hp]. split; [done|].
    rewrite decide_True by done. by simplify_eq.
  - intros k Hk. by rewrite Hobj, decide_True.
Qed.

(** Execution starts. *)
Lemma stage_execute p store t i m l : t ∈ sequence → objects_ok p t (database (pos t)) m → ReadyToExecute m = true →
  (∀ k, k ∈ local_keys p t → store !! k = database (pos t) !! k) →
  stage_ok p store t (Busy i (WExecuting m (Execute (sm_txn m)) l) (database (pos t))) ∧ (p ∈ writers t ∨ local_keys p t = txn_keys t).
Proof.
  intros Ht Ho Hr Hst. pose proof (proj1 (ready_spec p t _ m Ht Ho) Hr) as Hall. rewrite (oo_txn Ho). split.
  - split_and!; [done..| |]; [by apply (sequence_confined N plan db HP)|by apply (database_step N plan db HP)].
  - destruct (decide (Forall (λ k, partition k = p) (txn_keys t))) as [Hp|Hp].
    + right. unfold local_keys. apply filter_all. eapply Forall_impl; [done|]. intros k Hk. simpl. unfold IsLocal. by apply bool_decide_spec.
    + left. apply not_Forall_Exists in Hp; [|apply _]. apply Exists_exists in Hp as (k & Hk & Hp). simpl in Hp.
      destruct (Hall k Hk) as [c Hc]. destruct (oo_cell Ho k c Hc) as [_ Hcell]. rewrite decide_False in Hcell by done. by destruct Hcell.
Qed.

Lemma copied_results t ks (o : gmap Key cell) k : foldl (λ o kv, <[kv.1 := Copy kv.2]> o) o (results_of t ks) !! k =
  if decide (k ∈ ks) then Some (Copy (default "" (database (pos t) !! k))) else o !! k.
Proof.
  revert o. induction ks as [|k' ks IH]; intros o; [by rewrite decide_False by (by intros ?%elem_of_nil)|].
  unfold results_of in *. csimpl. rewrite IH. destruct (decide (k ∈ ks)) as [Hk|Hk].
  - rewrite (decide_True (P := k ∈ k' :: ks)); [done|by right].
  - destruct (decide (k = k')) as [->|Hne]; [rewrite lookup_insert, decide_True by done; by rewrite decide_True by left|].
    rewrite lookup_insert_ne by done. by rewrite decide_False by (intros [->|]%elem_of_cons; done).
Qed.

(** The result of another node arrives. *)
Lemma objects_result p t r m : expected N plan r p t → objects_ok p t (database (pos t)) m →
  objects_ok p t (database (pos t)) (HandleReadResult m (result r t)) ∧
  ∀ k, is_Some (objects (HandleReadResult m (result r t)) !! k) ↔ k ∈ local_keys r t ∨ is_Some (objects m !! k).
Proof.
  intros (Ht & Hr & Hw & Hne) [Htxn Hcell Hloc]. unfold HandleReadResult, result. split; [split; simpl; [done|..]|simpl].
  - intros k c. rewrite copied_results. case_decide as Hk; [|by apply Hcell]. intros [= <-]. apply local_keys_elem in Hk as [Hk Hp]. split; [done|].
    rewrite decide_False by congruence. split; [done|]. destruct (object_Some t k Ht Hk (pos t)) as [v Hv]. exists v. by rewrite Hv.
  - intros k Hk. rewrite copied_results, decide_False; [by auto|]. apply local_keys_elem in Hk as [_ Hp]. intros [_ ?]%local_keys_elem. congruence.
  - intros k. rewrite copied_results. case_decide as Hk; [split; [by left|by eauto]|]. naive_solver.
Qed.

(** A step of the program on an object. *)
Lemma stage_deref p store t i m k f l d : stage_ok p store t (Busy i (WExecuting m (ReadObject k f) l) d) → deref store m k = d !! k.
Proof.
  intros (Ho & Hall & Hst & Hcf & Hex). inversion Hcf as [| |? ? Hk Hf|]; subst. destruct (Hall k Hk) as [c Hc].
  unfold deref. rewrite Hc. destruct (oo_cell Ho k c Hc) as [_ Hcell]. case_decide as Hp.
  - subst c. apply Hst. by apply local_keys_elem.
  - by destruct Hcell as (_ & v & -> & ->).
Qed.

Lemma stage_get p store t i m k f l d : stage_ok p store t (Busy i (WExecuting m (ReadObject k f) l) d) →
  stage_ok p store t (Busy i (WExecuting (mkSM (sm_txn m) (<[k := default Null (objects m !! k)]> (objects m))) (f (deref store m k)) l) d).
Proof.
  intros Hs. rewrite (stage_deref _ _ _ _ _ _ _ _ _ Hs). destruct Hs as (Ho & Hall & Hst & Hcf & Hex).
  inversion Hcf as [| |? ? Hk Hf|]; subst. destruct (Hall k Hk) as [c Hc]. rewrite Hc. simpl. rewrite insert_id by done.
  destruct m as [mt mo]. by split_and!.
Qed.

Lemma stage_put_local p store t i m k v q l d : stage_ok p store t (Busy i (WExecuting m (Assign k v q) l) d) → objects m !! k = Some Stored →
  partition k = p ∧ k ∈ read_write_set t ∧ stage_ok p (<[k := v]> store) t (Busy i (WExecuting m q l) (<[k := v]> d)).
Proof.
  intros (Ho & Hall & Hst & Hcf & Hex) Hc. inversion Hcf as [| | |? ? ? Hk Hq]; subst. destruct (oo_cell Ho k _ Hc) as [Hkt Hcell].
  case_decide as Hp; [|by destruct Hcell as (_ & v' & _ & ?)]. split; [done|]. split; [done|]. simpl. split_and!; [|done|..].
  - split; [apply Ho|..|apply Ho]. intros k' c' Hc'. destruct (oo_cell Ho k' c' Hc') as [Hk' Hcell']. split; [done|]. case_decide; [done|].
    rewrite lookup_insert_ne by congruence. done.
  - intros k' Hk'. destruct (decide (k' = k)) as [->|]; [by rewrite !lookup_insert, !decide_True|]. rewrite !lookup_insert_ne by done. auto.
  - done.
  - simpl in Hex. by destruct (d !! k).
Qed.

Lemma stage_put_copy p store t i m k v v' q l d : stage_ok p store t (Busy i (WExecuting m (Assign k v q) l) d) → objects m !! k = Some (Copy v') →
  stage_ok p store t (Busy i (WExecuting (mkSM (sm_txn m) (<[k := Copy v]> (objects m))) q l) (<[k := v]> d)).
Proof.
  intros (Ho & Hall & Hst & Hcf & Hex) Hc. inversion Hcf as [| | |? ? ? Hk Hq]; subst. destruct (oo_cell Ho k _ Hc) as [Hkt Hcell].
  case_decide as Hp; [done|]. destruct Hcell as (Hw & v0 & Hd & [= ->]). split_and!; [|..|done|].
  - split; [apply Ho|..]; simpl.
    + intros k' c'. destruct (decide (k' = k)) as [->|]; [rewrite !lookup_insert_eq, decide_False by done; intros [= <-]; split; [done|]; split; [done|]; by exists v|].
      rewrite !lookup_insert_ne by done. apply Ho.
    + intros k' Hk'. rewrite lookup_insert_ne; [by apply Ho|]. apply local_keys_elem in Hk' as [_ ?]. congruence.
  - intros k' Hk'. simpl. destruct (decide (k' = k)) as [->|]; [rewrite lookup_insert, decide_True by done; by eauto|]. rewrite lookup_insert_ne by done. auto.
  - intros k' Hk'. rewrite lookup_insert_ne; [by auto|]. apply local_keys_elem in Hk' as [_ ?]. congruence.
  - simpl in Hex. by rewrite Hd in Hex.
Qed.

End steps.
