(* ===== verification/CalvinEvents.v ===== *)
(** * Calvin: every step of every thread keeps the invariant *)

From stdpp Require Import functions.
From S2P Require Import Prelude AppReplica TimeServer CalvinTxn CalvinLocks CalvinLocksProps CalvinSystem CalvinSerial CalvinInv.

Section events.
Context (N : Z) `{Application} (plan : list (list TxnProto)) (db : gmap Key Value) (HP : planned N plan db).
Implicit Types (t : TxnProto) (p q r : Z) (k : Key) (st : TxnProto → stage) (S : Z → TxnProto → stage) (L T : list TxnProto)
  (w : Worker) (ws : list Worker) (rr : gmap string nat) (un : gmap string (list (string * list (Key * Value))))
  (ns : gmap Z Node) (n : Node) (socks : gmap (Z * Z) (list Message)) (x : string * list (Key * Value)).

Notation sequence := (sequence N plan).
Notation pos := (pos N plan).
Notation database := (database N plan db).
Notation local_keys := (local_keys N).
Notation result := (result N plan db).
Notation expected := (expected N plan).
Notation worker_ok := (worker_ok N plan).
Notation workers_ok := (workers_ok N plan).
Notation messages_ok := (messages_ok N plan db).
Notation node_ok := (node_ok N plan db).
Notation system_ok := (system_ok N plan db).
Notation stage_ok := (stage_ok N plan db).
Notation absorbed := (absorbed N).

(** ** Workers *)

(** The stages are the same for worker [j], except that more may be applied. *)
Definition same_for (j : nat) st st' : Prop :=
  (∀ t s d, st t = Busy j s d ↔ st' t = Busy j s d) ∧ (∀ t m, st t = Active j m ↔ st' t = Active j m) ∧
  (∀ t, activated j (st t) → activated j (st' t)) ∧ ∀ t, st t = Applied → st' t = Applied.

Lemma worker_same j w st st' : same_for j st st' → worker_ok j w st → worker_ok j w st'.
Proof.
  intros (Hb & Ha & Hx & Hp) [H1 H2 H3 H4 H5 H6]. split.
  - intros t s d Hs%Hb. eauto.
  - intros (t & d & Hs%Hb)%H2. eauto.
  - intros c m. rewrite H3. by setoid_rewrite Ha.
  - intros c kvs (t & ? & ? & ?)%H4. eauto.
  - intros c (t & ? & ? & ?)%H5. eauto.
  - intros c (t & ? & ? & ?)%H6. eauto.
Qed.

Lemma same_for_insert j st t s : st t ≠ Applied → (∀ j, activated j (st t) → activated j s) → owner (st t) ≠ Some j → owner s ≠ Some j →
  same_for j st (<[t := s]> st).
Proof.
  intros Ht Hact Ho Ho'. split_and!; intros t'; destruct (decide (t' = t)) as [->|]; rewrite ?fn_lookup_insert, ?fn_lookup_insert_ne by done; auto.
  - intros s' d. split; intros Heq; [by rewrite Heq in Ho|by rewrite Heq in Ho'].
  - intros m. split; intros Heq; [by rewrite Heq in Ho|by rewrite Heq in Ho'].
  - done.
Qed.

(** Worker [i] changes the stage of a transaction that is its own or nobody's. *)
Lemma workers_upd ws rr un st i w w' t s : workers_ok ws rr un st → ws !! i = Some w → st t ≠ Applied →
  (owner (st t) = None ∨ owner (st t) = Some i) → (owner s = None ∨ owner s = Some i) → (∀ j, activated j (st t) → activated j s) →
  worker_ok i w' (<[t := s]> st) →
  (∀ c, LINK_CHANNEL c ∈ link_unlink_queue w → LINK_CHANNEL c ∈ link_unlink_queue w') →
  (∀ m, s = Active i m → (∃ m', st t = Active i m') ∨ LINK_CHANNEL (channel_of t) ∈ link_unlink_queue w') →
  workers_ok (<[i := w']> ws) rr un (<[t := s]> st).
Proof.
  intros [H1 H2 H3 H4 H5 H6] Hw Hna Ho Ho' Hact Hok Hlk Hs. pose proof (lookup_lt_Some _ _ _ Hw) as Hi. split.
  - intros j wj. destruct (decide (j = i)) as [->|Hji]; [rewrite list_lookup_insert_eq by done; by intros [= <-]|].
    rewrite list_lookup_insert_ne by done. intros Hj. eapply worker_same; [|by apply H1]. apply same_for_insert; naive_solver.
  - intros t' j. rewrite length_insert. destruct (decide (t' = t)) as [->|]; [rewrite fn_lookup_insert; naive_solver|].
    rewrite fn_lookup_insert_ne by done. apply H2.
  - intros c j Hj. rewrite length_insert. destruct (H3 c j Hj) as (? & t' & Ht' & Hc & Hac). split; [done|]. exists t'. split; [done|]. split; [done|].
    destruct (decide (t' = t)) as [->|]; [rewrite fn_lookup_insert; auto|]. by rewrite fn_lookup_insert_ne.
  - assert (∀ j t', (∃ w, ws !! j = Some w ∧ LINK_CHANNEL (channel_of t') ∈ link_unlink_queue w) →
      ∃ w, <[i := w']> ws !! j = Some w ∧ LINK_CHANNEL (channel_of t') ∈ link_unlink_queue w) as Hkeep.
    { intros j t' (wj & Hj & Hin). destruct (decide (j = i)) as [->|Hji]; [|exists wj; by rewrite list_lookup_insert_ne].
      exists w'. rewrite list_lookup_insert_eq by done. split; [done|]. apply Hlk. congruence. }
    intros t' j m. destruct (decide (t' = t)) as [->|].
    + rewrite fn_lookup_insert. intros Heq. assert (j = i) as -> by (rewrite Heq in Ho'; naive_solver).
      destruct (Hs m Heq) as [(m' & Hm')|Hin]; [destruct (H4 t i m' Hm') as [?|?]; [by left|right; by apply Hkeep]|].
      right. exists w'. by rewrite list_lookup_insert_eq.
    + rewrite fn_lookup_insert_ne by done. intros Ha. destruct (H4 t' j m Ha) as [?|?]; [by left|right; by apply Hkeep].
  - done.
  - by rewrite length_insert.
Qed.

(** ** Messages *)

Lemma occ_app {B} `{EqDecision B} (x : B) l l' : occ x (l ++ l') = (occ x l + occ x l')%nat.
Proof. unfold occ. by rewrite filter_app, length_app. Qed.

Lemma occ_cons {B} `{EqDecision B} (x y : B) l : occ x (y :: l) = ((if decide (y = x) then 1 else 0) + occ x l)%nat.
Proof. unfold occ. rewrite filter_cons. by case_decide. Qed.

Lemma occ_elem {B} `{EqDecision B} (x : B) l : x ∈ l ↔ (0 < occ x l)%nat.
Proof.
  induction l as [|y l IH]; [split; [by intros ?%elem_of_nil|unfold occ; simpl; lia]|]. rewrite elem_of_cons, occ_cons, IH.
  destruct (decide (y = x)) as [->|]; [split; [lia|by left]|]. split; [intros [->|]; [done|lia]|right; lia].
Qed.

Lemma arrived_upd ws un i w w' x : ws !! i = Some w →
  (arrived (<[i := w']> ws) un x + occ x (message_queue w) = arrived ws un x + occ x (message_queue w'))%nat.
Proof.
  intros Hw. unfold arrived. rewrite list_fmap_insert.
  assert (∀ (l : list nat) j a b, l !! j = Some a → (sum_list (<[j := b]> l) + a = sum_list l + b)%nat) as Hsum.
  { induction l as [|y l IH]; intros [|j] a b Hl; simplify_eq/=; [lia|]. specialize (IH j a b Hl). lia. }
  specialize (Hsum ((λ w, occ x (message_queue w)) <$> ws) i (occ x (message_queue w)) (occ x (message_queue w'))).
  rewrite list_lookup_fmap, Hw in Hsum. specialize (Hsum eq_refl). lia.
Qed.

Lemma channel_result r r' t t' q q' : expected r q t → expected r' q' t' → (channel_of t, result r t) = (channel_of t', result r' t') → r = r' ∧ t = t'.
Proof.
  intros (Ht & Hr & _) (Ht' & Hr' & _) [= Hc Hres]. assert (t = t') as <- by (by eapply (channel_inj N plan db HP)). split; [|done].
  apply (readers_elem N plan db HP) in Hr; [|done]. unfold result, CalvinInv.result, results_of in Hres.
  destruct (local_keys r t) as [|k l] eqn:Hl; [done|]. destruct (local_keys r' t) as [|k' l'] eqn:Hl'; [done|]. csimpl in Hres. injection Hres as -> _ _.
  assert (k' ∈ local_keys r t) as [_ <-]%local_keys_elem by (rewrite Hl; left).
  by assert (k' ∈ local_keys r' t) as [_ <-]%local_keys_elem by (rewrite Hl'; left).
Qed.

Definition socket_ok r q (m : Message) : Prop :=
  match m with
  | READ_RESULT c kvs => ∃ t, expected r q t ∧ c = channel_of t ∧ kvs = result r t
  | TXN_BATCH b data => is_batch N plan q b data
  end.

(** Node [p] changes: the messages from it and to it are accounted for. *)
Lemma messages_step S S' ns socks socks' p n n' : messages_ok S ns socks → ns !! p = Some n → (∀ q, q ≠ p → S' q = S q) →
  (∀ r q m, m ∈ default [] (socks' !! (r, q)) → m ∈ default [] (socks !! (r, q)) ∨ socket_ok r q m) →
  (∀ x, (0 < arrived (n_workers n') (undelivered_messages n') x)%nat →
     (0 < arrived (n_workers n) (undelivered_messages n) x)%nat ∨ is_result N plan db p x) →
  (∀ r q, r ≠ p → q ≠ p → socks' !! (r, q) = socks !! (r, q)) →
  (∀ q t, expected p q t → let m := READ_RESULT (channel_of t) (result p t) in
     unsent q (S' p t) + occ m (default [] (socks' !! (p, q))) = unsent q (S p t) + occ m (default [] (socks !! (p, q))))%nat →
  (∀ r t, expected r p t → let m := READ_RESULT (channel_of t) (result r t) in let x := (channel_of t, result r t) in
     occ m (default [] (socks' !! (r, p))) + arrived (n_workers n') (undelivered_messages n') x + absorbed r t (S' p t) =
     occ m (default [] (socks !! (r, p))) + arrived (n_workers n) (undelivered_messages n) x + absorbed r t (S p t))%nat →
  messages_ok S' (<[p := n']> ns) socks'.
Proof.
  intros [H1 H2 H3] Hn HS Hso Har Hsame Hsent Hrec. split.
  - intros r q m [Hm|Hm]%Hso; [by apply H1|done].
  - intros q n2 x. destruct (decide (q = p)) as [->|]; [|rewrite lookup_insert_ne by done; by apply H2].
    rewrite lookup_insert_eq. intros [= <-] [Hx|Hx]%Har; [by eapply H2|done].
  - intros r q t n2 He. pose proof He as (_ & _ & _ & Hne). destruct (decide (q = p)) as [->|Hqp].
    + rewrite lookup_insert_eq. intros [= <-]. rewrite (HS r) by done. specialize (H3 r p t n He Hn). specialize (Hrec r t He). simpl in Hrec. lia.
    + rewrite lookup_insert_ne by done. intros Hn2. specialize (H3 r q t n2 He Hn2). rewrite (HS q) by done. destruct (decide (r = p)) as [->|Hrp].
      * specialize (Hsent q t He). simpl in Hsent. lia.
      * by rewrite (HS r), Hsame.
Qed.

Lemma system_set S S' ns socks socks' p n n' L : system_ok S (mkSystem ns socks) → ns !! p = Some n → (∀ q, q ≠ p → S' q = S q) →
  node_ok p n' (S' p) L → messages_ok S' (<[p := n']> ns) socks' → flow_ok N plan (<[p := n']> ns) socks' →
  system_ok S' (mkSystem (<[p := n']> ns) socks').
Proof.
  intros [H1 H2 H3 H4] Hn HS Hno Hm Hf. split; simpl in *; [| |done|done].
  - intros q. destruct (decide (q = p)) as [->|]; [rewrite lookup_insert_eq, <- H1, Hn; split; by eauto|]. rewrite lookup_insert_ne by done. apply H1.
  - intros q n2. destruct (decide (q = p)) as [->|]; [rewrite lookup_insert_eq; intros [= <-]; by eauto|]. rewrite lookup_insert_ne by done.
    rewrite HS by done. apply H2.
Qed.

Lemma messages_same S ns socks p n n' : messages_ok S ns socks → ns !! p = Some n →
  n_workers n' = n_workers n → undelivered_messages n' = undelivered_messages n → messages_ok S (<[p := n']> ns) socks.
Proof. intros HM Hn Hw Hu. eapply messages_step; eauto; rewrite Hw, Hu; auto. Qed.

(** *** Batches *)

Notation planned_batch b := (0 ≤ b < Z.of_nat (length plan)).

(** Node [p] changes: it keeps its batches, and the ones it has for others. *)
Lemma flow_step ns socks socks' p n n' : flow_ok N plan ns socks → ns !! p = Some n →
  (∀ b, planned_batch b → has_batch n b → has_batch n' b) →
  (∀ q b, is_Some (ns !! q) → planned_batch b → b `mod` N = p → to_come n (default [] (socks !! (p, q))) q b →
     to_come n' (default [] (socks' !! (p, q))) q b ∨ q = p ∧ has_batch n' b) →
  (∀ r b data, r ≠ p → TXN_BATCH b data ∈ default [] (socks !! (r, p)) → TXN_BATCH b data ∈ default [] (socks' !! (r, p)) ∨ has_batch n' b) →
  (∀ r q, r ≠ p → q ≠ p → socks' !! (r, q) = socks !! (r, q)) → flow_ok N plan (<[p := n']> ns) socks'.
Proof.
  intros HF Hn Hhas Hsrc Hdst Hother q n2 b Hn2 Hb. destruct (decide (q = p)) as [->|Hqp].
  - rewrite lookup_insert_eq in Hn2. injection Hn2 as <-. destruct (HF p n b Hn Hb) as [?|(no & Hno & Hc)]; [left; by auto|].
    destruct (decide (b `mod` N = p)) as [Heq|Hne].
    + rewrite Heq in *. rewrite Hn in Hno. injection Hno as <-. destruct (Hsrc p b) as [?|[_ ?]]; [by eauto|done..| |by left].
      right. exists n'. by rewrite lookup_insert_eq.
    + destruct Hc as [Hc|[Hc|(data & Hc)]]; [right; exists no; rewrite lookup_insert_ne by done; split; [done|by left]|..].
      * right. exists no. rewrite lookup_insert_ne by done. split; [done|]. right. by left.
      * destruct (Hdst _ b data Hne Hc); [|by left]. right. exists no. rewrite lookup_insert_ne by done. split; [done|]. right. right. by eauto.
  - rewrite lookup_insert_ne in Hn2 by done. destruct (HF q n2 b Hn2 Hb) as [?|(no & Hno & Hc)]; [by left|]. right.
    destruct (decide (b `mod` N = p)) as [Heq|Hne].
    + rewrite Heq in *. rewrite Hn in Hno. injection Hno as <-. destruct (Hsrc q b) as [?|[? _]]; [by eauto|done..| |done].
      exists n'. by rewrite lookup_insert_eq.
    + exists no. rewrite lookup_insert_ne, Hother by done. done.
Qed.

(** What a thread keeps that has nothing to do with batches. *)
Definition same_batches n n' : Prop :=
  batch_number n' = batch_number n ∧ batch_message n' = batch_message n ∧ batches n' = batches n ∧ batch_socket n' = batch_socket n ∧
  inproc_in n' = inproc_in n ∧ seq_batch_number n' = seq_batch_number n.

Lemma flow_same ns socks socks' p n n' : flow_ok N plan ns socks → ns !! p = Some n →
  (∀ b, planned_batch b → has_batch n b → has_batch n' b) → inproc_in n' = inproc_in n → seq_batch_number n' = seq_batch_number n →
  (∀ r q b data, TXN_BATCH b data ∈ default [] (socks !! (r, q)) → TXN_BATCH b data ∈ default [] (socks' !! (r, q))) →
  (∀ r q, r ≠ p → q ≠ p → socks' !! (r, q) = socks !! (r, q)) → flow_ok N plan (<[p := n']> ns) socks'.
Proof.
  intros HF Hn Hhas Hi Hs Hsk Ho. eapply flow_step; [done..| | |done].
  - intros q b _ _ _ [?|[?|(data & ?)]]; left; unfold to_come; rewrite Hi, Hs; [by left|right; by left|right; right; by eauto].
  - intros r b data _ ?. left. by apply Hsk.
Qed.

Lemma same_has_batch n n' b : same_batches n n' → has_batch n b → has_batch n' b.
Proof. intros (E1 & E2 & E3 & E4 & _). unfold has_batch. by rewrite E1, E2, E3, E4. Qed.

(** *** Work *)

Notation node_work := (node_work N plan db).
Notation work := (work N plan db).

Lemma work_set S S' ns socks socks' p n n' : ns !! p = Some n → p ∈ all_nodes N → (∀ q, q ≠ p → S' q = S q) →
  (work S' (mkSystem (<[p := n']> ns) socks') + node_work p n (S p) + total message_work socks =
   work S (mkSystem ns socks) + node_work p n' (S' p) + total message_work socks')%nat.
Proof.
  intros Hn Hp HS. unfold work, CalvinInv.work. simpl.
  pose proof (sum_change (λ q, if <[p := n']> ns !! q is Some n then node_work q n (S' q) else 0%nat)
    (λ q, if ns !! q is Some n then node_work q n (S q) else 0%nat) (all_nodes N) p (NoDup_seqZ 0 N) Hp) as Hc.
  cbv beta in Hc. rewrite lookup_insert_eq, Hn in Hc. cut (∀ q, q ∈ all_nodes N → q ≠ p → (if <[p := n']> ns !! q is Some n then node_work q n (S' q) else 0%nat) =
    (if ns !! q is Some n then node_work q n (S q) else 0%nat)); [intros Heq; specialize (Hc Heq); lia|]. intros q _ Hq. rewrite lookup_insert_ne by done. by rewrite HS.
Qed.

(** ** The sequencer *)

Notation sequence_at := (sequence_at N plan).
Notation sched_ok := (sched_ok N plan).
Notation batches_ok := (batches_ok N plan).
Notation is_batch := (is_batch N plan).
Notation taken := (taken N plan).

Lemma next_batch (a b : Z) : 0 < N → a `mod` N = b `mod` N → a ≤ b → b = a ∨ a + N ≤ b.
Proof. intros HN Hm Hab. pose proof (Z.div_mod a N). pose proof (Z.div_mod b N). destruct (decide (b `div` N ≤ a `div` N)); [left|right]; nia. Qed.

Lemma sequencer_ok p n st L : node_ok p n st L →
  match RunReader N plan n with
  | Crash => False
  | Blocks => True
  | Done n' => node_ok p n' st L ∧ n_workers n' = n_workers n ∧ undelivered_messages n' = undelivered_messages n ∧
      (node_work p n' st < node_work p n st)%nat ∧ (∀ b, has_batch n b → has_batch n' b) ∧
      (∀ q sk b, q ∈ all_nodes N → b `mod` N = p → to_come n sk q b → to_come n' sk q b)
  end.
Proof.
  intros [H1 H2 Hc [B1 B2 B3 B4 B5 [B6 B7]] H4 H5]. unfold RunReader. destruct (plan !! _) as [data|] eqn:Hd; [|done]. pose proof (pl_nodes _ _ _ HP) as HN. rewrite decide_True.
  - split_and!; try done.
    + split; try done. split; try done; simpl.
      * intros q m [?|(q' & [= -> ->] & Hq)%list_elem_of_fmap]%elem_of_app; [by apply B5|]. split; [done|]. eexists _, _. split; [done|]. split; [done|]. by rewrite Hd.
      * split; [lia|]. rewrite <- B7, <- (Z.mul_1_l N) at 1. apply Z_mod_plus_full.
    + unfold node_work, CalvinInv.node_work, sequencer_work, scheduler_work. simpl n_workers. simpl undelivered_messages. simpl.
      rewrite length_app, length_fmap. unfold all_nodes. rewrite length_seqZ. apply lookup_lt_Some in Hd.
      set (X := (length plan - Z.to_nat (seq_batch_number n))%nat). set (X' := (length plan - Z.to_nat (seq_batch_number n + N))%nat).
      assert (X' < X)%nat by lia. nia.
    + intros q sk b Hq Hbp. unfold to_come. simpl. intros [Hs|[(data' & Hi)|Hi]]; [|right; left; exists data'; by apply elem_of_app; left|by right; right].
      destruct (next_batch (seq_batch_number n) b HN) as [->|Hle]; [congruence|done| |by left]. right. left.
      eexists. apply elem_of_app. right. apply list_elem_of_fmap. by exists q.
  - apply Forall_forall. intros t Ht. apply Forall_forall. intros q Hq. apply (node_range N plan db HP (add_participants N t)); [|done].
    unfold CalvinSerial.sequence. apply list_elem_of_fmap. exists t. split; [done|]. apply list_elem_of_In, in_concat. exists data.
    split; apply list_elem_of_In; [by eapply list_elem_of_lookup_2|done].
Qed.

(** ** The scheduler *)

Lemma without_length t L : NoDup L → t ∈ L → S (length (without t L)) = length L.
Proof.
  intros Hnd Ht. unfold without. pose proof (filter_one_less (λ _, True) (λ o, o ≠ t) L t Hnd Ht I) as Hf.
  rewrite (filter_all (λ _, True)) in Hf by (by apply Forall_forall). rewrite Hf; [done|tauto|done].
Qed.

Lemma GetBatch_ok (P : Z → list TxnProto → Prop) id sock bs : (∀ b data, bs !! b = Some data → P b data) → (∀ b data, (b, data) ∈ sock → P b data) →
  let '(x, sock', bs') := GetBatch id sock bs in
  (∀ data, x = Some data → P id data) ∧ (∀ b data, bs' !! b = Some data → P b data) ∧ ∀ b data, (b, data) ∈ sock' → P b data.
Proof.
  intros Hbs Hsock. unfold GetBatch. destruct (bs !! id) as [data|] eqn:Hid.
  - split_and!; [by intros ? [= <-]; auto| |done]. intros b data' [_ ?]%lookup_delete_Some. auto.
  - clear Hid. revert bs Hbs. induction sock as [|[b data] sock IH]; intros bs Hbs; simpl; [done|]. destruct (b =? id)%Z eqn:Hb.
    + apply Z.eqb_eq in Hb as ->. split_and!; [intros ? [= <-]; apply Hsock; left|done|]. intros b' data' ?. apply Hsock. by right.
    + apply IH; [intros b' data' ?; apply Hsock; by right|]. intros b' data' [[<- <-]|[_ ?]]%lookup_insert_Some; [apply Hsock; left|auto].
Qed.

Lemma is_batch_lookup p b data : is_batch p b data → (batch_for N p <$> plan) !! Z.to_nat b = Some data.
Proof. intros [_ Hb]. by rewrite list_lookup_fmap. Qed.

Lemma taken_snoc p b data off t : is_batch p b data → data !! off = Some t → taken p b off ++ [t] = taken p b (Datatypes.S off).
Proof.
  intros [_ Hb] Ht. unfold taken, CalvinInv.taken. rewrite Hb. simpl. rewrite <- app_assoc. f_equal. symmetry. by apply take_S_r.
Qed.

Lemma taken_prefix p b off : taken p b off `prefix_of` sequence_at p.
Proof.
  unfold taken, CalvinInv.taken, sequence_at, CalvinSerial.sequence_at. rewrite <- list_lookup_fmap. set (l := batch_for N p <$> plan). clearbody l.
  generalize (Z.to_nat b). induction l as [|x l IH]; intros i; [rewrite take_nil, lookup_nil; simpl; by rewrite take_nil|].
  destruct i as [|i]; simpl; [|rewrite <- app_assoc; apply prefix_app, IH]. etrans; [|apply prefix_app_r; done]. apply prefix_take.
Qed.

Lemma taken_next p b data off : is_batch p b data → (length data ≤ off)%nat → taken p (b + 1) 0 = taken p b off.
Proof.
  intros Hb Hoff. pose proof Hb as [Hb0 Hb']. unfold taken, CalvinInv.taken. rewrite take_0, app_nil_r, Hb'. simpl.
  rewrite (take_ge data) by done. replace (Z.to_nat (b + 1)) with (Datatypes.S (Z.to_nat b)) by lia.
  rewrite (take_S_r _ _ data) by (by apply is_batch_lookup). rewrite concat_app. simpl. by rewrite app_nil_r.
Qed.

Lemma GetBatch_moves id sock bs :
  let '(x, sock', bs') := GetBatch id sock bs in
  (length sock' ≤ length sock)%nat ∧ (x = None → sock' = [] ∧ bs !! id = None ∧ (sock = [] → bs' = bs)) ∧
  ∀ b, is_Some (bs !! b) ∨ (∃ data, (b, data) ∈ sock) → b = id ∧ is_Some x ∨ is_Some (bs' !! b) ∨ ∃ data, (b, data) ∈ sock'.
Proof.
  unfold GetBatch. destruct (bs !! id) as [data|] eqn:Hid.
  - split_and!; [done..|]. intros b [Hb|?]; [|by right; right]. destruct (decide (b = id)) as [->|]; [by left; eauto|]. right. left. by rewrite lookup_delete_ne.
  - assert (∀ sock bs, bs !! id = None → let '(x, sock', bs') := receive_batch id sock bs in
      (length sock' ≤ length sock)%nat ∧ (x = None → sock' = [] ∧ (sock = [] → bs' = bs)) ∧
      ∀ b, is_Some (bs !! b) ∨ (∃ data, (b, data) ∈ sock) → b = id ∧ is_Some x ∨ is_Some (bs' !! b) ∨ ∃ data, (b, data) ∈ sock') as Hr; cycle 1.
    { specialize (Hr sock bs Hid). destruct (receive_batch id sock bs) as [[x sock'] bs']. naive_solver. }
    clear. intros sock. induction sock as [|[b0 data0] sock IH]; intros bs Hid; simpl.
    + split_and!; [done..|]. intros b [?|(data & ?%elem_of_nil)]; [|done]. right. by left.
    + destruct (b0 =? id)%Z eqn:Hb0.
      * apply Z.eqb_eq in Hb0 as ->. split_and!; [lia|done|]. intros b [?|(data & [[= -> ->]|?]%elem_of_cons)]; [right; by left|by left; eauto|]. right. right. by eauto.
      * apply Z.eqb_neq in Hb0. specialize (IH (<[b0 := data0]> bs)). rewrite lookup_insert_ne in IH by done. specialize (IH Hid).
        destruct (receive_batch id sock _) as [[x sock'] bs']. destruct IH as (H1 & H2 & H3). split_and!; [lia|naive_solver|].
        intros b Hb. apply H3. destruct (decide (b = b0)) as [->|]; [left; rewrite lookup_insert_eq; by eauto|]. rewrite lookup_insert_ne by done.
        destruct Hb as [?|(data & [[= -> ->]|?]%elem_of_cons)]; [by left|done|right; by eauto].
Qed.

(** What a round of the scheduler keeps: all but its own part; it has less to do,
    if it did anything. *)
Definition others_same n n' : Prop :=
  storage n' = storage n ∧ n_workers n' = n_workers n ∧ remote_result n' = remote_result n ∧
  undelivered_messages n' = undelivered_messages n ∧ inproc_in n' = inproc_in n ∧ seq_batch_number n' = seq_batch_number n.

Notation scheduler_work := (scheduler_work N plan).

Definition advances p n n' : Prop :=
  others_same n n' ∧ (∀ b, has_batch n b → has_batch n' b) ∧ (n' = n ∨ (scheduler_work p n' < scheduler_work p n)%nat).

(** What holds in a round before the ready transactions are started. *)
Definition round_ok p n st : Prop :=
  ∃ L, sched_ok p (lm n) (txns_queue n) (done_queue n) (taken p (batch_number n) (batch_offset n)) st L ∧ batches_ok p n ∧
    executing_txns n + pending_txns n = Z.of_nat (length L).

Lemma get_batch_ok p n st L off num : 0 ≤ num → off = 0%nat → batches_ok p n → executing_txns n + pending_txns n = Z.of_nat (length L) →
  sched_ok p (lm n) (txns_queue n) (done_queue n) (taken p num off) st L → round_ok p (get_batch n off num) st.
Proof.
  intros Hnum -> [B1 B2 B3 B4 B5 B6] Hcnt HS. unfold get_batch. pose proof (GetBatch_ok (is_batch p) num _ _ B3 B4) as Hg.
  destruct (GetBatch _ _ _) as [[x sock] bs]. destruct Hg as (Hx & Hbs & Hsock). exists L. split; [done|]. split; [|done].
  split; try done. simpl. destruct x as [data|]; [|done]. split; [auto|lia].
Qed.

(** The first batch is waited for. *)
Lemma get_batch_waits p n : batch_message n = None → batch_offset n = 0%nat → advances p n (get_batch n (batch_offset n) (batch_number n)).
Proof.
  intros Hm Hoff. unfold get_batch. pose proof (GetBatch_moves (batch_number n) (batch_socket n) (batches n)) as Hg.
  destruct (GetBatch _ _ _) as [[x sock] bs] eqn:Hx. destruct Hg as (Hlen & Hnone & Hkeep). split; [done|]. split.
  - intros b. unfold has_batch. simpl. rewrite Hm. intros [?|[[_ [? ?]]|Hb]]; [by left|done|]. destruct (Hkeep b Hb) as [?|?]; [right; by left|by right; right].
  - destruct x as [data|].
    + right. unfold scheduler_work, CalvinInv.scheduler_work. simpl. rewrite Hm. lia.
    + destruct (Hnone eq_refl) as (-> & _ & Hbs). destruct (batch_socket n) as [|y l] eqn:Hsock.
      * left. rewrite Hbs by done. destruct n. simpl in *. unfold set_scheduler. simpl. by subst.
      * right. unfold scheduler_work, CalvinInv.scheduler_work. simpl. rewrite Hm, Hsock. simpl. lia.
Qed.

(** A batch is finished. *)
Lemma get_batch_next p n data : batches_ok p n → batch_message n = Some data → (length data ≤ batch_offset n)%nat →
  advances p n (get_batch n 0 (batch_number n + 1)).
Proof.
  intros HB Hm Hoff. pose proof (bo_message HB) as B2. rewrite Hm in B2. destruct B2 as [Hb _]. unfold get_batch.
  pose proof (GetBatch_moves (batch_number n + 1) (batch_socket n) (batches n)) as Hg.
  destruct (GetBatch _ _ _) as [[x sock] bs] eqn:Hx. destruct Hg as (Hlen & Hnone & Hkeep). split; [done|]. split.
  - intros b. unfold has_batch. simpl. intros [?|[[-> _]|Hbb]]; [left; lia|left; lia|]. destruct (Hkeep b Hbb) as [?|?]; [right; by left|by right; right].
  - right. unfold scheduler_work, CalvinInv.scheduler_work. simpl. rewrite Hm, (taken_next p _ data (batch_offset n)) by done.
    destruct Hb as [Hb0 Hb]. destruct (plan !! Z.to_nat (batch_number n)) eqn:Hp; [|done]. apply lookup_lt_Some in Hp. destruct x; lia.
Qed.

Lemma lock_some_ok p st data fuel n : batch_message n = Some data → round_ok p n st → round_ok p (lock_some N p fuel data n) st.
Proof.
  revert n. induction fuel as [|fuel IH]; intros n Hm HR; simpl; [done|]. destruct HR as (L & HS & HB & Hcnt).
  destruct (data !! batch_offset n) as [t|] eqn:Ht; [|by exists L]. pose proof HB as [B1 B2 B3 B4 B5 B6]. rewrite Hm in B2.
  destruct B2 as [B2 B2']. pose proof (taken_snoc p _ data _ t B2 Ht) as HT.
  apply IH; [done|]. exists (L ++ [t]). split_and!; simpl.
  - rewrite <- HT. apply (sched_lock N plan db HP); [done|]. rewrite HT. apply taken_prefix.
  - split; try done. simpl. rewrite Hm. split; [done|]. by eapply lookup_lt_Some in Ht.
  - rewrite length_app. simpl. lia.
Qed.

(** Locking changes only the lock manager, the offset and the counters. *)
Lemma lock_some_same p data fuel n : let n' := lock_some N p fuel data n in
  others_same n n' ∧ same_batches n n' ∧ done_queue n' = done_queue n ∧ (batch_offset n ≤ batch_offset n')%nat ∧
  (fuel ≠ 0%nat → (batch_offset n < length data)%nat → (batch_offset n < batch_offset n')%nat).
Proof.
  revert n. induction fuel as [|fuel IH]; intros n; simpl; [by repeat split|]. destruct (data !! batch_offset n) as [t|] eqn:Ht.
  - match goal with |- context [lock_some _ _ _ _ ?n'] => specialize (IH n') end. simpl in IH. destruct IH as (E1 & E2 & E3 & E4 & _).
    split_and!; try done; lia.
  - apply lookup_ge_None in Ht. repeat split; lia.
Qed.

Lemma taken_length p b data off : is_batch p b data → (off ≤ length data)%nat → length (taken p b off) = (length (taken p b 0) + off)%nat.
Proof.
  intros [_ Hb] Hoff. unfold taken, CalvinInv.taken. rewrite Hb. simpl. rewrite !length_app, !length_take. lia.
Qed.

Lemma lock_some_advances p st data n : batch_message n = Some data → (batch_offset n < length data)%nat → round_ok p n st →
  advances p n (lock_some N p 100 data n).
Proof.
  intros Hm Hoff HR. destruct (lock_some_same p data 100 n) as (E1 & E2 & E3 & _ & Hlt). specialize (Hlt ltac:(done) Hoff).
  pose proof (lock_some_ok p st data 100 n Hm HR) as (L' & HS' & HB' & _). set (n' := lock_some N p 100 data n) in *.
  split; [done|]. split; [intros b; by apply same_has_batch|]. right.
  pose proof E2 as (F1 & F2 & F3 & F4 & _). pose proof (bo_message HB') as B2. rewrite F2, Hm in B2. destruct B2 as [B2 B2'].
  pose proof (taken_length p _ data _ B2 B2') as Hl. pose proof (prefix_length _ _ (taken_prefix p (batch_number n') (batch_offset n'))) as Hp.
  unfold scheduler_work, CalvinInv.scheduler_work. rewrite E3, F1, F2, F4 in *. rewrite (taken_length p _ data (batch_offset n)) by (done || lia). lia.
Qed.

Lemma start_ready_ok p n n' st : round_ok p n' st → others_same n n' →
  workers_ok (n_workers n) (remote_result n) (undelivered_messages n) st → data_ok N plan db p (storage n) st →
  ∃ L, node_ok p (start_ready n') st L.
Proof.
  intros (L & HS & HB & Hcnt) (E1 & E2 & E3 & E4 & E5 & E6) HW HD. exists L. split; simpl.
  - by apply sched_ready.
  - done.
  - lia.
  - destruct HB. by split.
  - by rewrite E2, E3, E4.
  - by rewrite E1.
Qed.

Lemma start_ready_id n : ready_txns (lm n) = [] → start_ready n = n.
Proof. intros Hr. unfold start_ready, set_scheduler. rewrite Hr. simpl. destruct n as [? [] ? ? ? ? ? ? ? ? ? ? ? ? ? ?]. simpl in *. rewrite app_nil_r. f_equal; [by subst|lia..]. Qed.

(** A node's work with an unchanged part outside the scheduler. *)
Lemma scheduler_node_work p n n' st : others_same n n' →
  (node_work p n' st + scheduler_work p n = node_work p n st + scheduler_work p n')%nat.
Proof. intros (E1 & E2 & E3 & E4 & E5 & E6). unfold node_work, CalvinInv.node_work, sequencer_work. rewrite E2, E4, E5, E6. lia. Qed.

Lemma scheduler_ok p n st L : node_ok p n st L →
  match LockManagerThread N p n with
  | Done n' => (∃ L', node_ok p n' st L') ∧ others_same n n' ∧ (∀ b, has_batch n b → has_batch n' b) ∧ (n' = n ∨ (node_work p n' st < node_work p n st)%nat)
  | _ => False
  end.
Proof.
  intros [HS Hr Hcnt HB HW HD]. assert (∀ n', round_ok p n' st → advances p n n' →
    (∃ L', node_ok p (start_ready n') st L') ∧ others_same n (start_ready n') ∧ (∀ b, has_batch n b → has_batch (start_ready n') b) ∧
    (start_ready n' = n ∨ (node_work p (start_ready n') st < node_work p n st)%nat)) as Hround.
  { intros n' HR (HO & Hb & Hw). split; [by eapply start_ready_ok|]. split; [done|]. split; [done|]. destruct Hw as [->|Hw]; [left; by apply start_ready_id|].
    right. pose proof (scheduler_node_work p n (start_ready n') st HO) as Hn. change (scheduler_work p (start_ready n')) with (scheduler_work p n') in Hn. lia. }
  unfold LockManagerThread. destruct (done_queue n) as [|t dq] eqn:Hdq.
  - rewrite <- Hdq in HS. assert (round_ok p n st) as HR by (by exists L). pose proof (bo_message HB) as B2. pose proof (bo_number HB) as B1.
    destruct (batch_message n) as [data|] eqn:Hm.
    + destruct B2 as [B2 B2']. case_decide as Hoff.
      * apply Hround; [|by eapply get_batch_next]. apply (get_batch_ok p n st L); [lia|done..|]. by rewrite (taken_next p _ data (batch_offset n)).
      * destruct (_ <? _)%Z; apply Hround; [by apply lock_some_ok|eapply lock_some_advances; [done|lia|done]|done|]. split; [done|]. split; [done|by left].
    + apply Hround; [|by apply get_batch_waits]. by apply (get_batch_ok p n st L).
  - destruct (sched_release N plan p _ _ _ _ _ _ HS t dq eq_refl) as (m' & -> & HS'). apply Hround.
    + eexists. split; [done|]. split; [by destruct HB|]. simpl. rewrite <- (without_length t L) in Hcnt; [lia|..|].
      * apply (lo_nodup _ _ _ (so_locks HS)).
      * apply (so_done HS). left.
    + split; [done|]. split; [done|]. right. unfold scheduler_work, CalvinInv.scheduler_work. simpl. rewrite Hdq. simpl. lia.
Qed.

(** ** The multiplexer *)

Definition push_all (l : list (string * list (Key * Value))) w : Worker :=
  mkWorker (w_state w) (active_txns w) (message_queue w ++ l) (link_unlink_queue w).

Lemma alter_insert {B} (f : B → B) (l : list B) i y : l !! i = Some y → alter f i l = <[i := f y]> l.
Proof. intros Hy. rewrite list_insert_alter. apply list_alter_ext; [|done]. intros z Hz. by simplify_eq. Qed.

Lemma Send_results n i l : Forall (λ x, remote_result n !! x.1 = Some i) l →
  foldl Send_result n l = set_multiplexer n (alter (push_all l) i (n_workers n)) (remote_result n) (undelivered_messages n) (inproc_in n) (batch_socket n).
Proof.
  revert n. induction l as [|x l IH]; intros n Hl; simpl.
  - destruct n. unfold set_multiplexer. simpl. f_equal. symmetry. apply list_alter_id. intros []. unfold push_all. simpl. by rewrite app_nil_r.
  - apply Forall_cons in Hl as [Hx Hl]. unfold Send_result at 2. rewrite Hx, IH by done. unfold set_multiplexer. simpl. f_equal.
    rewrite list_alter_alter_eq. apply list_alter_ext; [|done]. intros w _. unfold push_all, push_message, compose. simpl. by rewrite <- app_assoc.
Qed.

Lemma worker_pushed i w st l rs : worker_ok i w st →
  (∀ c kvs, (c, kvs) ∈ l → ∃ t, t ∈ sequence ∧ c = channel_of t ∧ activated i (st t)) → (∀ lr, lr ∈ rs → lr ∈ link_unlink_queue w) →
  worker_ok i (mkWorker (w_state w) (active_txns w) (message_queue w ++ l) rs) st.
Proof. intros [H1 H2 H3 H4 H5 H6] Hl Hrs. split; simpl; eauto. intros c kvs [?|?]%elem_of_app; eauto. Qed.

(** A result is put where it belongs. *)
Lemma Send_result_ok n st x : workers_ok (n_workers n) (remote_result n) (undelivered_messages n) st →
  let n' := Send_result n x in
  workers_ok (n_workers n') (remote_result n') (undelivered_messages n') st ∧
  ∀ y, arrived (n_workers n') (undelivered_messages n') y = ((if decide (x = y) then 1 else 0) + arrived (n_workers n) (undelivered_messages n) y)%nat.
Proof.
  intros [H1 H2 H3 H4 H5 H6]. unfold Send_result. destruct (remote_result n !! x.1) as [i|] eqn:Hi; simpl.
  - destruct (H3 _ _ Hi) as (Hlt & t & Ht & Hc & Hact). destruct (lookup_lt_is_Some_2 _ _ Hlt) as [w Hw].
    rewrite (alter_insert _ _ _ w Hw).
    split; [split|].
    + intros j wj. destruct (decide (j = i)) as [->|]; [rewrite list_lookup_insert_eq by done; intros [= <-]|rewrite list_lookup_insert_ne by done; auto].
      apply worker_pushed; [by auto|intros c kvs Hx%list_elem_of_singleton; subst x; by eauto|done].
    + intros t' j. rewrite length_insert. apply H2.
    + intros c j. rewrite length_insert. apply H3.
    + intros t' j m Ha. destruct (H4 t' j m Ha) as [?|(wj & Hj & Hin)]; [by left|right]. destruct (decide (j = i)) as [->|]; [|exists wj; by rewrite list_lookup_insert_ne].
      exists (push_message x w). rewrite list_lookup_insert_eq by done. simplify_eq. done.
    + done.
    + by rewrite length_insert.
    + intros y. pose proof (arrived_upd _ (undelivered_messages n) i w (push_message x w) y Hw) as Ha. simpl in Ha. rewrite occ_app, occ_cons in Ha.
      change (occ y []) with 0%nat in Ha. lia.
  - split; [split; try done|].
    + intros t' j m Ha. destruct (decide (channel_of t' = x.1)) as [Heq|Hne]; [|rewrite lookup_insert_ne by done; by eapply H4].
      destruct (H4 t' j m Ha) as [[Hr _]|?]; [rewrite Heq in Hr; congruence|by right].
    + intros c y. destruct (decide (c = x.1)) as [->|]; [|rewrite lookup_insert_ne by done; auto]. rewrite lookup_insert_eq. simpl.
      intros [?|Hy%list_elem_of_singleton]%elem_of_app; [auto|congruence].
    + intros y. unfold arrived. destruct (decide (x = y)) as [<-|Hne].
      * rewrite lookup_insert_eq. simpl. rewrite occ_app, occ_cons, decide_True by done. change (occ x []) with 0%nat. lia.
      * destruct (decide (x.1 = y.1)) as [Heq|Heq]; [|by rewrite lookup_insert_ne]. rewrite <- Heq, lookup_insert_eq. simpl.
        rewrite occ_app, occ_cons, decide_False by done. change (occ y []) with 0%nat. lia.
Qed.

Lemma link_worker_ok ws rr un st i w w' rr' un' : workers_ok ws rr un st → ws !! i = Some w → worker_ok i w' st →
  (∀ c j, rr' !! c = Some j → rr !! c = Some j ∨ j = i ∧ ∃ t, t ∈ sequence ∧ c = channel_of t ∧ activated i (st t)) →
  (∀ c y, y ∈ default [] (un' !! c) → y ∈ default [] (un !! c)) →
  (∀ t j m, st t = Active j m → rr !! channel_of t = Some j → rr' !! channel_of t = Some j) →
  (∀ t m, st t = Active i m → LINK_CHANNEL (channel_of t) ∈ link_unlink_queue w →
     rr' !! channel_of t = Some i ∧ default [] (un' !! channel_of t) = [] ∨ LINK_CHANNEL (channel_of t) ∈ link_unlink_queue w') →
  workers_ok (<[i := w']> ws) rr' un' st.
Proof.
  intros [H1 H2 H3 H4 H5 H6] Hw Hok Hrr Hun Hkeep Hlink. pose proof (lookup_lt_Some _ _ _ Hw) as Hi. split.
  - intros j wj. destruct (decide (j = i)) as [->|]; [rewrite list_lookup_insert_eq by done; by intros [= <-]|]. rewrite list_lookup_insert_ne by done. apply H1.
  - intros t j. rewrite length_insert. apply H2.
  - intros c j. rewrite length_insert. intros [Hj|[-> Ht]]%Hrr; [by apply H3|done].
  - intros t j m Ha. destruct (H4 t j m Ha) as [[Hr Hu]|(wj & Hj & Hin)].
    + left. split; [by eapply Hkeep|]. destruct (default [] (un' !! _)) as [|y l] eqn:Hy; [done|]. specialize (Hun (channel_of t) y).
      rewrite Hy, Hu in Hun. exfalso. eapply elem_of_nil, Hun. left.
    + destruct (decide (j = i)) as [->|Hji]; [|right; exists wj; by rewrite list_lookup_insert_ne]. simplify_eq.
      destruct (Hlink t m Ha Hin) as [?|?]; [by left|]. right. exists w'. by rewrite list_lookup_insert_eq.
  - intros c y Hy%Hun. by apply H5.
  - by rewrite length_insert.
Qed.

(** A request of a worker is served. *)
Lemma serve_link_ok n st i w lr rs : workers_ok (n_workers n) (remote_result n) (undelivered_messages n) st →
  (∀ t, held (st t) → t ∈ sequence) → n_workers n !! i = Some w → link_unlink_queue w = lr :: rs →
  let w' := mkWorker (w_state w) (active_txns w) (message_queue w) rs in
  ∃ ws rr un, serve_link (set_multiplexer n (<[i := w']> (n_workers n)) (remote_result n) (undelivered_messages n) (inproc_in n) (batch_socket n)) i lr =
    set_multiplexer n ws rr un (inproc_in n) (batch_socket n) ∧ workers_ok ws rr un st ∧
    (∀ y, arrived ws un y = arrived (n_workers n) (undelivered_messages n) y) ∧
    (sum_list_with worker_work ws + 2 * total (λ _, 1) un < sum_list_with worker_work (n_workers n) + 2 * total (λ _, 1) (undelivered_messages n))%nat.
Proof.
  intros HW Hheld Hw Hq w'. pose proof (ws_worker HW i w Hw) as Hok. pose proof (lookup_lt_Some _ _ _ Hw) as Hi.
  assert (∀ c, LINK_CHANNEL c ∈ link_unlink_queue w → LINK_CHANNEL c = lr ∨ LINK_CHANNEL c ∈ rs) as Hin
    by (intros c; rewrite Hq, elem_of_cons; naive_solver).
  destruct lr as [c|c]; simpl.
  - set (l := default [] (undelivered_messages n !! c)). assert (Forall (λ x, x.1 = c) l) as Hl.
    { apply Forall_forall. intros x Hx. by apply (ws_undelivered HW c). }
    rewrite (Send_results _ i); [|eapply Forall_impl; [exact Hl|]; intros x ->; simpl; apply lookup_insert_eq].
    rewrite (alter_insert _ _ _ w') by (simpl; by rewrite list_lookup_insert_eq). simpl. rewrite list_insert_insert_eq.
    destruct (wo_link Hok c) as (t & Ht & Hc & Hact); [rewrite Hq; left|].
    eexists _, _, _. split; [done|]. split_and!.
    + apply (link_worker_ok _ _ _ _ _ _ _ _ _ HW Hw).
      * apply (worker_pushed i w); [done| |intros lr Hlr; rewrite Hq; by right]. intros c' kvs Hx.
        rewrite Forall_forall in Hl. specialize (Hl _ Hx). simpl in Hl. subst c'. by exists t.
      * intros c' j [[<- <-]|[? ?]]%lookup_insert_Some; [right; split; [done|by exists t]|by left].
      * intros c' y. destruct (decide (c' = c)) as [->|]; [rewrite lookup_delete_eq; by intros ?%elem_of_nil|by rewrite lookup_delete_ne].
      * intros t' j m Ha Hr. destruct (decide (channel_of t' = c)) as [Heq|]; [|by rewrite lookup_insert_ne]. rewrite Heq, lookup_insert_eq. f_equal.
        assert (t' = t) as -> by (eapply (channel_inj N plan db HP); [apply Hheld; by rewrite Ha|done|congruence]). by rewrite Ha in Hact.
      * intros t' m Ha [[= Heq]|?]%Hin; [|by right]. left. rewrite Heq, lookup_insert_eq, lookup_delete_eq. done.
    + intros y. unfold arrived at 1. pose proof (arrived_upd (n_workers n) (undelivered_messages n) i w (push_all l w') y Hw) as Ha.
      unfold arrived at 1 in Ha. simpl in Ha. rewrite occ_app in Ha. destruct (decide (y.1 = c)) as [Hy|Hy].
      * rewrite Hy in *. rewrite lookup_delete_eq. simpl. change (occ y []) with 0%nat. fold l in Ha. lia.
      * rewrite lookup_delete_ne by done. assert (occ y l = 0%nat); [|lia]. destruct (occ y l) eqn:Ho; [done|].
        exfalso. apply Hy. rewrite Forall_forall in Hl. apply Hl, occ_elem. lia.
    + pose proof (sum_insert worker_work (n_workers n) i w (push_all l w') Hw) as Hs. unfold worker_work at 2 4 in Hs. rewrite Hq in Hs. simpl in Hs.
      rewrite length_app in Hs. pose proof (total_delete (λ _, 1%nat) (undelivered_messages n) c) as Htot. rewrite sum_length in Htot. fold l in Htot. lia.
  - destruct (wo_unlink Hok c) as (t & Ht & Hc & Hap); [rewrite Hq; left|]. eexists _, _, _. split; [done|]. split_and!.
    + apply (link_worker_ok _ _ _ _ _ _ _ _ _ HW Hw).
      * replace w' with (mkWorker (w_state w) (active_txns w) (message_queue w ++ []) rs) by (by rewrite app_nil_r).
        apply worker_pushed; [done|by intros ? ? ?%elem_of_nil|intros lr Hlr; rewrite Hq; by right].
      * intros c' j [? ?]%lookup_delete_Some. by left.
      * done.
      * intros t' j m Ha Hr. rewrite lookup_delete_ne; [done|]. intros Heq.
        assert (t' = t) as -> by (eapply (channel_inj N plan db HP); [apply Hheld; by rewrite Ha|done|congruence]). congruence.
      * intros t' m Ha [?|?]%Hin; [done|by right].
    + intros y. pose proof (arrived_upd (n_workers n) (undelivered_messages n) i w w' y Hw) as Ha. simpl in Ha. lia.
    + pose proof (sum_insert worker_work (n_workers n) i w w' Hw) as Hs. unfold worker_work at 2 4 in Hs. rewrite Hq in Hs. simpl in Hs. lia.
Qed.

Lemma send_all_lookup p socks out r q : default [] (send_all p socks out !! (r, q)) =
  default [] (socks !! (r, q)) ++ (if decide (r = p) then (filter (λ m, m.1 = q) out).*2 else []).
Proof.
  revert socks. induction out as [|[q' m] out IH]; intros socks; simpl; [by destruct (decide _); rewrite app_nil_r|].
  rewrite IH, filter_cons. simpl. destruct (decide (r = p)) as [->|Hr].
  - destruct (decide (q' = q)) as [->|Hq]; [rewrite lookup_insert_eq; simpl; by rewrite <- app_assoc|]. rewrite lookup_insert_ne by congruence. done.
  - rewrite lookup_insert_ne by congruence. done.
Qed.

Lemma send_all_other p socks out r q : r ≠ p → send_all p socks out !! (r, q) = socks !! (r, q).
Proof.
  intros Hr. revert socks. induction out as [|[q' m] out IH]; intros socks; simpl; [done|]. rewrite IH. apply lookup_insert_ne. congruence.
Qed.

(** ** Steps of a worker *)

Notation data_ok := (data_ok N plan db).

Definition state_txn (s : worker_state) : option TxnProto :=
  match s with WIdle => None | WReading m _ _ | WSending m _ _ | WExecuting m _ _ => Some (sm_txn m) end.

Lemma stage_txn p store t i s d : stage_ok p store t (Busy i s d) → state_txn s = Some t.
Proof. destruct s; simpl; [done|naive_solver..|]. intros [Ho _]. by rewrite (oo_txn Ho). Qed.

(** The entry of [active_txns] for [t] after its stage became [s]. *)
Definition set_active t (s : stage) (act : gmap string StorageManager) : gmap string StorageManager :=
  match s with Active _ m => <[channel_of t := m]> act | _ => delete (channel_of t) act end.

Section worker.
Context (p : Z) (n : Node) (st : TxnProto → stage) (L : list TxnProto) (i : nat) (w : Worker).
Context (HN : node_ok p n st L) (Hw : n_workers n !! i = Some w).

Let Hok : worker_ok i w st := ws_worker (no_workers HN) i w Hw.

Lemma busy_state t s d : st t = Busy i s d → s = w_state w ∧ state_txn (w_state w) = Some t ∧ t ∈ sequence.
Proof.
  intros Ht. pose proof (wo_busy Hok t s d Ht) as ->. assert (t ∈ sequence) as Hin by (eapply (held_in N plan); [apply (no_sched HN)|by rewrite Ht]).
  pose proof (do_stage (no_data HN) t Hin) as Hs. rewrite Ht in Hs. by apply stage_txn in Hs.
Qed.

(** The transaction the worker is busy with. *)
Lemma state_busy : w_state w ≠ WIdle → ∃ t d, st t = Busy i (w_state w) d ∧ t ∈ sequence ∧ state_txn (w_state w) = Some t ∧
  stage_ok p (storage n) t (Busy i (w_state w) d).
Proof.
  intros (t & d & Ht)%(wo_state Hok). exists t, d. destruct (busy_state t _ d Ht) as (_ & Hs & Hin). pose proof (do_stage (no_data HN) t Hin) as Hst.
  by rewrite Ht in Hst.
Qed.

Lemma active_none t : t ∈ sequence → (∀ m, st t ≠ Active i m) → active_txns w !! channel_of t = None.
Proof.
  intros Ht Hn. apply eq_None_not_Some. intros [m (t' & Ht' & Hc & Ha)%(wo_active Hok)].
  assert (t = t') as <- by (by eapply (channel_inj N plan db HP)). by eapply Hn.
Qed.

(** The worker after it changed the stage of [t]. *)
Lemma worker_set t s s0 mq lq : t ∈ sequence → (state_txn (w_state w) = None ∨ state_txn (w_state w) = Some t) →
  match s with Busy j s' _ => j = i ∧ s' = s0 | Active j _ => j = i ∧ s0 = WIdle | _ => s0 = WIdle end →
  (s0 ≠ WIdle → ∃ d, s = Busy i s0 d) →
  (∀ y, y ∈ mq → y ∈ message_queue w) → st t ≠ Applied → (∀ j, activated j (st t) → activated j s) →
  (∀ c, LINK_CHANNEL c ∈ lq → LINK_CHANNEL c ∈ link_unlink_queue w ∨ c = channel_of t ∧ activated i s) →
  (∀ c, UNLINK_CHANNEL c ∈ lq → UNLINK_CHANNEL c ∈ link_unlink_queue w ∨ c = channel_of t ∧ s = Applied) →
  worker_ok i (mkWorker s0 (set_active t s (active_txns w)) mq lq) (<[t := s]> st).
Proof.
  intros Hin Htxn Hs Hs0 Hmq Hna Hact Hlk Hul.
  assert (∀ t', t' ≠ t → (<[t := s]> st) t' = st t') as Hne by (intros; by rewrite fn_lookup_insert_ne).
  assert ((<[t := s]> st) t = s) as Heq by (by rewrite fn_lookup_insert).
  assert (∀ c t', t' ∈ sequence → c = channel_of t' → activated i (st t') → ∃ t', t' ∈ sequence ∧ c = channel_of t' ∧ activated i ((<[t := s]> st) t')) as Hmono.
  { intros c t' ? ? Ha. exists t'. split; [done|]. split; [done|]. destruct (decide (t' = t)) as [->|]; [rewrite Heq; auto|by rewrite Hne]. }
  split; simpl.
  - intros t' s' d'. destruct (decide (t' = t)) as [->|Htt]; [rewrite Heq; intros ->; by destruct Hs as [_ ->]|]. rewrite Hne by done.
    intros Hb. destruct (busy_state t' s' d' Hb) as (_ & Hs' & _). naive_solver.
  - intros [d Hd]%Hs0. exists t, d. by rewrite Heq.
  - intros c m. destruct (decide (c = channel_of t)) as [->|Hc].
    + assert (set_active t s (active_txns w) !! channel_of t = match s with Active _ m => Some m | _ => None end) as ->.
      { destruct s; simpl; rewrite ?lookup_insert_eq, ?lookup_delete_eq; done. }
      split; [intros Hm; exists t; rewrite Heq; split; [done|]; split; [done|]; destruct s; naive_solver|].
      intros (t' & Ht' & Hc & Ha). assert (t = t') as <- by (by eapply (channel_inj N plan db HP)). rewrite Heq in Ha. by subst s.
    + assert (set_active t s (active_txns w) !! c = active_txns w !! c) as ->.
      { destruct s; simpl; rewrite ?lookup_insert_ne, ?lookup_delete_ne by done; done. }
      rewrite (wo_active Hok). split; intros (t' & Ht' & Hc' & Ha); (assert (t' ≠ t) as Htt by (by intros ->)); exists t'; rewrite (Hne t' Htt) in *; done.
  - intros c kvs (t' & ? & ? & ?)%Hmq%(wo_messages Hok). eauto.
  - intros c [(t' & ? & ? & ?)%(wo_link Hok)|[-> Ha]]%Hlk; [by eauto|]. exists t. by rewrite Heq.
  - intros c [(t' & ? & ? & Hap)%(wo_unlink Hok)|[-> Ha]]%Hul; [|exists t; by rewrite Heq]. exists t'. split; [done|]. split; [done|].
    destruct (decide (t' = t)) as [->|]; [done|by rewrite Hne].
Qed.

Lemma worker_node t s store tq dq s0 act mq extra : t ∈ sequence → (state_txn (w_state w) = None ∨ state_txn (w_state w) = Some t) →
  st t ≠ Applied → (owner (st t) = None ∨ owner (st t) = Some i) → (∀ j, activated j (st t) → activated j s) →
  match s with Busy j s' _ => j = i ∧ s' = s0 | Active j _ => j = i ∧ s0 = WIdle | Applied => s0 = WIdle | Pending => False end →
  (s0 ≠ WIdle → ∃ d, s = Busy i s0 d) → act = set_active t s (active_txns w) → (∀ y, y ∈ mq → y ∈ message_queue w) →
  (∀ y, y ∈ extra → y = LINK_CHANNEL (channel_of t) ∧ (∃ m, s = Active i m) ∨ y = UNLINK_CHANNEL (channel_of t) ∧ s = Applied) →
  (∀ m, s = Active i m → (∃ m', st t = Active i m') ∨ LINK_CHANNEL (channel_of t) ∈ extra) →
  sched_ok p (lm n) tq dq (taken p (batch_number n) (batch_offset n)) (<[t := s]> st) L → data_ok p store (<[t := s]> st) →
  node_ok p (set_worker n store tq dq i (mkWorker s0 act mq (link_unlink_queue w ++ extra))) (<[t := s]> st) L.
Proof.
  intros Hin Htxn Hna Ho Hact Hs Hs0 -> Hmq Hex Hlk HS HD. split; simpl; [done|apply (no_ready HN)|apply (no_count HN)|by destruct (no_batches HN)| |done].
  apply (workers_upd _ _ _ _ _ _ _ _ _ (no_workers HN) Hw); [done|done| |done| | |]; simpl.
  - destruct s; naive_solver.
  - apply worker_set; try done; [by destruct s|..]; intros c [?|[[[= ->] [m ->]]|[? ?]]%Hex]%elem_of_app; auto; naive_solver.
  - intros c Hc. apply elem_of_app. by left.
  - intros m Hm. destruct (Hlk m Hm) as [?|?]; [by left|right]. apply elem_of_app. by right.
Qed.

(** The messages are accounted for: the ones in [out] are sent, and the ones that
    have arrived no longer are in the objects of a manager. *)
Definition accounts n' (out : list (Z * Message)) st' : Prop :=
  let ar n x := arrived (n_workers n) (undelivered_messages n) x in
  (∀ q m, (q, m) ∈ out → socket_ok p q m) ∧ (∀ x, (ar n' x ≤ ar n x)%nat) ∧
  (∀ q t, expected p q t →
     unsent q (st' t) + occ (READ_RESULT (channel_of t) (result p t)) (filter (λ m, m.1 = q) out).*2 = unsent q (st t))%nat ∧
  (∀ r t, expected r p t → let x := (channel_of t, result r t) in ar n' x + absorbed r t (st' t) = ar n x + absorbed r t (st t))%nat.

Lemma arrived_same store tq dq w' x : message_queue w' = message_queue w →
  arrived (n_workers (set_worker n store tq dq i w')) (undelivered_messages (set_worker n store tq dq i w')) x =
  arrived (n_workers n) (undelivered_messages n) x.
Proof. intros Hm. pose proof (arrived_upd _ (undelivered_messages n) i w w' x Hw) as Ha. rewrite Hm in Ha. simpl. lia. Qed.

Lemma accounts_quiet t s store tq dq w' : message_queue w' = message_queue w → (∀ q, expected p q t → unsent q s = unsent q (st t)) →
  (∀ r, expected r p t → absorbed r t s = absorbed r t (st t)) → accounts (set_worker n store tq dq i w') [] (<[t := s]> st).
Proof.
  intros Hm Hu Ha. unfold accounts. cbv beta zeta. split_and!.
  - by intros q m ?%elem_of_nil.
  - intros x. rewrite arrived_same by done. done.
  - intros q t' He. rewrite filter_nil. change (occ _ ([] : list (Z * Message)).*2) with 0%nat. rewrite Nat.add_0_r.
    destruct (decide (t' = t)) as [->|]; [rewrite fn_lookup_insert; auto|by rewrite fn_lookup_insert_ne].
  - intros r t' He. rewrite arrived_same by done. f_equal.
    destruct (decide (t' = t)) as [->|]; [rewrite fn_lookup_insert; auto|by rewrite fn_lookup_insert_ne].
Qed.

Lemma act_same t s : t ∈ sequence → (∀ m, st t ≠ Active i m) → (∀ j m, s ≠ Active j m) → active_txns w = set_active t s (active_txns w).
Proof. intros Ht Hst Hs. pose proof (active_none t Ht Hst). destruct s; simpl; rewrite ?delete_id; try done. by edestruct Hs. Qed.

(** The worker goes on with [t]. *)
Lemma worker_go t s0 d store tq dq : t ∈ sequence → (state_txn (w_state w) = None ∨ state_txn (w_state w) = Some t) →
  (st t = Pending ∨ ∃ s1 d1, st t = Busy i s1 d1) → s0 ≠ WIdle → (∀ j, activated j (st t) → activated j (Busy i s0 d)) →
  sched_ok p (lm n) tq dq (taken p (batch_number n) (batch_offset n)) (<[t := Busy i s0 d]> st) L → data_ok p store (<[t := Busy i s0 d]> st) →
  node_ok p (set_worker n store tq dq i (mkWorker s0 (active_txns w) (message_queue w) (link_unlink_queue w))) (<[t := Busy i s0 d]> st) L.
Proof.
  intros Hin Htxn Hst Hs0 Hact HS HD. rewrite <- (app_nil_r (link_unlink_queue w)). eapply worker_node; try done.
  - by destruct Hst as [->|(? & ? & ->)].
  - destruct Hst as [->|(? & ? & ->)]; by auto.
  - by eauto.
  - apply act_same; [done|intros m Hm; by destruct Hst as [?|(? & ? & ?)]; congruence|done].
  - by intros y ?%elem_of_nil.
Qed.

(** The step takes some of the work of the node, or changes nothing. *)
Definition spends n' (out : list (Z * Message)) st' : Prop :=
  same_batches n n' ∧
  (n' = n ∧ out = [] ∧ st' = st ∨ (node_work p n' st' + sum_list_with message_work out.*2 < node_work p n st)%nat).

Lemma spends_set t s store tq dq w' out : held (st t) ∨ t ∈ L →
  (rank N plan db p t s + worker_work w' + length dq + sum_list_with message_work out.*2 <
   rank N plan db p t (st t) + worker_work w + length (done_queue n))%nat →
  spends (set_worker n store tq dq i w') out (<[t := s]> st).
Proof.
  intros Ht Hlt. split; [done|]. right.
  assert (t ∈ sequence_at p) as Hin.
  { apply (taken_in N plan p _ _ _ _ _ _ (no_sched HN)). eapply elem_of_sublist; [|apply (so_sub (no_sched HN))].
    destruct Ht as [Ht|]; [|done]. by eapply (held_locked N plan), Ht; apply (no_sched HN). }
  assert (NoDup (sequence_at p)) as Hnd by (eapply sublist_NoDup; [apply (sequence_NoDup N plan db HP)|apply sequence_at_sublist]).
  pose proof (sum_change (λ t', rank N plan db p t' ((<[t := s]> st) t')) (λ t', rank N plan db p t' (st t')) (sequence_at p) t Hnd Hin) as Hr.
  cbv beta in Hr. rewrite fn_lookup_insert in Hr.
  assert (∀ y, y ∈ sequence_at p → y ≠ t → rank N plan db p y ((<[t := s]> st) y) = rank N plan db p y (st y)) as Hy
    by (intros y _ Hy; by rewrite fn_lookup_insert_ne).
  specialize (Hr Hy). pose proof (sum_insert worker_work (n_workers n) i w w' Hw) as Hws.
  unfold node_work, CalvinInv.node_work, scheduler_work, CalvinInv.scheduler_work, sequencer_work. simpl. lia.
Qed.

Definition step_ok (x : blocking (Node * list (Z * Message))) : Prop :=
  match x with Done (n', out) => ∃ st', node_ok p n' st' L ∧ accounts n' out st' ∧ spends n' out st' | _ => False end.

Let HS : sched_ok p (lm n) (txns_queue n) (done_queue n) (taken p (batch_number n) (batch_offset n)) st L := no_sched HN.
Let HD : data_ok p (storage n) st := no_data HN.

Lemma pop_ok t tq : w_state w = WIdle → txns_queue n = t :: tq →
  step_ok (Done (set_worker n (storage n) tq (done_queue n) i
                   (mkWorker (new_StorageManager N p t) (active_txns w) (message_queue w) (link_unlink_queue w)), [])).
Proof.
  intros Hidle Htq. set (s := Busy i (new_StorageManager N p t) (database (pos t))).
  destruct (sched_pop N plan p _ _ _ _ _ _ HS t tq s Htq) as (HS' & HtL & _ & Hst); [done|].
  assert (t ∈ sequence) as Hin by (eapply elem_of_sublist; [done|by eapply locked_sub]).
  assert (¬ executing s) as Hx by (unfold s, new_StorageManager; case_decide; simpl; tauto).
  exists (<[t := s]> st). split_and!.
  - apply worker_go; auto; [by left; rewrite Hidle|by unfold new_StorageManager; case_decide|by rewrite Hst|].
    apply (data_upd N plan); try done; [by rewrite Hst..|]. by apply stage_new.
  - apply accounts_quiet; [done|..].
    + intros q (_ & Hr & _). rewrite Hst. unfold s, new_StorageManager. by rewrite decide_True.
    + intros r _. rewrite Hst. unfold s, new_StorageManager. by case_decide.
  - apply spends_set; [by right|]. rewrite Hst. unfold s, new_StorageManager, worker_work. case_decide; simpl; lia.
Qed.

(** A step that keeps the transaction with the worker and its channel unlinked. *)
Lemma go_ok t d s0 d' : st t = Busy i (w_state w) d → t ∈ sequence → s0 ≠ WIdle → ¬ executing (st t) → stage_ok p (storage n) t (Busy i s0 d') →
  (executing (Busy i s0 d') → p ∈ writers t ∨ local_keys p t = txn_keys t) →
  node_ok p (set_worker n (storage n) (txns_queue n) (done_queue n) i (mkWorker s0 (active_txns w) (message_queue w) (link_unlink_queue w)))
    (<[t := Busy i s0 d']> st) L.
Proof.
  intros Hst Hin Hs0 Hx Hok' Hal. destruct (busy_state t _ d Hst) as (_ & Htxn & _). apply worker_go; auto.
  - right. by eauto.
  - intros j Hj. rewrite Hst in Hj, Hx. simpl in Hj, Hx. by destruct (w_state w).
  - apply (sched_held N plan); try done. by rewrite Hst.
  - apply (data_upd N plan); try done. by rewrite Hst.
Qed.

Lemma read_ok m k keys msg : w_state w = WReading m (k :: keys) msg →
  step_ok (Done (set_worker n (storage n) (txns_queue n) (done_queue n) i
    (mkWorker (WReading (mkSM (sm_txn m) (<[k := if storage n !! k is Some _ then Stored else Null]> (objects m))) keys
                 (msg ++ [(k, default "" (storage n !! k))])) (active_txns w) (message_queue w) (link_unlink_queue w)), [])).
Proof.
  intros Hs. destruct state_busy as (t & d & Hst & Hin & Htxn & Hok'); [by rewrite Hs|]. pose proof Hst as Hst0. rewrite Hs in Hst, Hok'.
  eexists. split_and!; [apply (go_ok t d _ d); try done; [by rewrite Hst; intros []|]|..].
  - apply stage_read; [done..|]. eapply (storage_current N plan db HP); [done..|by rewrite Hst|by rewrite Hst; intros []|].
    destruct Hok' as (_ & _ & ks & -> & _). set_solver.
  - apply accounts_quiet; [done|..]; by rewrite Hst.
  - apply spends_set; [left; by rewrite Hst|]. rewrite Hst; simpl; unfold worker_work; simpl; lia.
Qed.

Lemma read_all_ok m msg : w_state w = WReading m [] msg →
  step_ok (Done (set_worker n (storage n) (txns_queue n) (done_queue n) i
    (mkWorker (WSending m msg (filter (λ q, q ≠ p) (writers (sm_txn m)))) (active_txns w) (message_queue w) (link_unlink_queue w)), [])).
Proof.
  intros Hs. destruct state_busy as (t & d & Hst & Hin & Htxn & Hok'); [by rewrite Hs|]. pose proof Hst as Hst0. rewrite Hs in Hst, Hok', Htxn.
  injection Htxn as Htxn. eexists. split_and!; [apply (go_ok t d _ d); try done; [by rewrite Hst; intros []|by apply stage_read_all]|..].
  - apply accounts_quiet; [done|..]; rewrite Hst; [|done]. intros q (_ & _ & Hq & Hne). simpl. rewrite decide_True; [done|].
    apply list_elem_of_filter. rewrite Htxn. auto.
  - apply spends_set; [left; by rewrite Hst|]. rewrite Hst. simpl. unfold worker_work. simpl. rewrite Htxn.
    pose proof (length_filter (λ q, q ≠ p) (writers t)). lia.
Qed.

Lemma send_ok m msg q nodes : w_state w = WSending m msg (q :: nodes) →
  step_ok (Done (set_worker n (storage n) (txns_queue n) (done_queue n) i
    (mkWorker (WSending m msg nodes) (active_txns w) (message_queue w) (link_unlink_queue w)), [(q, READ_RESULT (channel_of (sm_txn m)) msg)])).
Proof.
  intros Hs. destruct state_busy as (t & d & Hst & Hin & Htxn & Hok'); [by rewrite Hs|]. pose proof Hst as Hst0. rewrite Hs in Hst, Hok', Htxn.
  injection Htxn as Htxn. destruct Hok' as (_ & [Hq Hnd]%NoDup_cons & Hnodes & Hobj). destruct (Hnodes q) as (Hqw & Hqp & Hpr & ->); [left|].
  eexists. split_and!; [apply (go_ok t d _ d); try done; [by rewrite Hst; intros []|]|..].
  - split_and!; [done..| |done]. intros q' Hq'. apply Hnodes. by right.
  - unfold accounts. cbv beta zeta. split_and!.
    + intros q' m' [= -> ->]%list_elem_of_singleton. exists t. rewrite Htxn. by split_and!.
    + intros x. by rewrite arrived_same.
    + intros q' t' He. rewrite filter_cons, filter_nil. simpl. destruct (decide (t' = t)) as [->|Hne].
      * rewrite fn_lookup_insert, Hst, Htxn. simpl. destruct (decide (q = q')) as [->|Hqq].
        -- rewrite decide_False by done. rewrite decide_True by left. csimpl. rewrite occ_cons, decide_True by done. done.
        -- csimpl. change (occ _ []) with 0%nat. rewrite Nat.add_0_r. f_equal. apply decide_ext. rewrite elem_of_cons. naive_solver.
      * rewrite fn_lookup_insert_ne by done. pose proof He as (Hin' & _). destruct (decide (q = q')); csimpl; [|change (occ _ []) with 0%nat; lia].
        rewrite occ_cons, decide_False; [change (occ _ []) with 0%nat; lia|]. intros [= Hc _]. apply Hne. symmetry.
        eapply (channel_inj N plan db HP); [done..|]. congruence.
    + intros r t' He. rewrite arrived_same by done. f_equal. destruct (decide (t' = t)) as [->|]; [by rewrite fn_lookup_insert, Hst|by rewrite fn_lookup_insert_ne].
  - apply spends_set; [left; by rewrite Hst|]. rewrite Hst; simpl; unfold worker_work; simpl; lia.
Qed.

Lemma not_absorbed t d m msg nodes r : stage_ok p (storage n) t (Busy i (WSending m msg nodes) d) → expected r p t →
  ∃ k, k ∈ local_keys r t ∧ objects m !! k = None.
Proof.
  intros (_ & _ & _ & Hobj) (Hin & Hr & _ & Hne). apply (readers_elem N plan db HP) in Hr; [|done]. destruct (local_keys r t) as [|k l] eqn:Hl; [done|].
  exists k. split; [left|]. rewrite Hobj, decide_False; [done|]. intros [_ Hp]%local_keys_elem.
  by assert (k ∈ local_keys r t) as [_ Hr']%local_keys_elem by (rewrite Hl; left); congruence.
Qed.

Lemma start_ok m msg : w_state w = WSending m msg [] → ReadyToExecute m = true →
  step_ok (Done (set_worker n (storage n) (txns_queue n) (done_queue n) i
    (mkWorker (WExecuting m (Execute (sm_txn m)) false) (active_txns w) (message_queue w) (link_unlink_queue w)), [])).
Proof.
  intros Hs Hr. destruct state_busy as (t & d & Hst & Hin & Htxn & Hok'); [by rewrite Hs|]. pose proof Hst as Hst0. rewrite Hs in Hst, Hok', Htxn.
  pose proof (sending_objects N plan db _ _ _ _ _ _ _ _ Hok' (database (pos t))) as Ho. assert (¬ executing (st t)) as Hx by (by rewrite Hst; intros []).
  destruct (stage_execute N plan db HP p (storage n) t i m false Hin Ho Hr) as [Hst' Hal].
  { intros k Hk. eapply (storage_current N plan db HP); try done. by rewrite Hst. }
  eexists. split_and!; [by eapply (go_ok t d)| |apply spends_set; [left; by rewrite Hst|rewrite Hst; simpl; unfold worker_work; simpl; rewrite (oo_txn Ho); lia]].
  apply accounts_quiet; [done|..]; rewrite Hst; [done|]. intros r He. destruct (not_absorbed t d m msg [] r Hok' He) as (k & Hk & Hnone). exfalso.
  destruct (proj1 (ready_spec N plan db HP p t _ m Hin Ho) Hr k) as [c Hc]; [by apply local_keys_elem in Hk as [? _]|congruence].
Qed.

Lemma activate_ok m msg : w_state w = WSending m msg [] → ReadyToExecute m = false → let c := channel_of (sm_txn m) in
  step_ok (Done (set_worker n (storage n) (txns_queue n) (done_queue n) i
    (mkWorker WIdle (<[c := m]> (active_txns w)) (message_queue w) (link_unlink_queue w ++ [LINK_CHANNEL c])), [])).
Proof.
  intros Hs Hr c. destruct state_busy as (t & d & Hst & Hin & Htxn & Hok'); [by rewrite Hs|]. pose proof Hst as Hst0. rewrite Hs in Hst, Hok'.
  pose proof Htxn as Htxn'. rewrite Hs in Htxn'. injection Htxn' as Htxn'. unfold c. rewrite Htxn'. clear c.
  pose proof (sending_objects N plan db _ _ _ _ _ _ _ _ Hok' (database (pos t))) as Ho.
  exists (<[t := Active i m]> st). split_and!.
  - apply worker_node; auto; try done; [by rewrite Hst|by right; rewrite Hst|by rewrite Hst| |by right; left|..].
    + intros y ->%list_elem_of_singleton. left. by eauto.
    + apply (sched_held N plan); [done|by rewrite Hst|done].
    + apply (data_upd N plan); try done; by rewrite Hst.
  - apply accounts_quiet; [done|..]; rewrite Hst; [done|]. intros r He. simpl. rewrite decide_False; [done|].
    destruct (not_absorbed t d m msg [] r Hok' He) as (k & Hk & Hnone). rewrite Forall_forall. intros Hall. destruct (Hall k Hk). congruence.
  - apply spends_set; [left; by rewrite Hst|]. rewrite Hst. simpl. unfold worker_work. simpl. rewrite length_app. simpl. lia.
Qed.

(** A step of the program. *)
Lemma exec_ok t m (c : prog) l d m' (c' : prog) d' store : st t = Busy i (WExecuting m c l) d → w_state w = WExecuting m c l →
  data_ok p store (<[t := Busy i (WExecuting m' c' l) d']> st) → (cost c' d' < cost c d)%nat →
  step_ok (Done (set_worker n store (txns_queue n) (done_queue n) i
    (mkWorker (WExecuting m' c' l) (active_txns w) (message_queue w) (link_unlink_queue w)), [])).
Proof.
  intros Hst Hs HD' Hcost. destruct (busy_state t _ _ Hst) as (_ & Htxn & Hin). exists (<[t := Busy i (WExecuting m' c' l) d']> st). split_and!.
  - apply worker_go; try done; [by right|right; by eauto|by rewrite Hst; simpl; destruct l|]. apply (sched_held N plan); [done|by rewrite Hst|done].
  - apply accounts_quiet; [done|..]; by rewrite Hst.
  - apply spends_set; [left; by rewrite Hst|]. rewrite Hst; simpl; unfold worker_work; simpl; lia.
Qed.

Lemma execute_ok m (q : prog) l : w_state w = WExecuting m q l → step_ok (RunWorkerThread N p n i w).
Proof.
  intros Hs. destruct state_busy as (t & d & Hst & Hin & Htxn & Hok'); [by rewrite Hs|]. unfold RunWorkerThread. rewrite Hs in Hst, Hok', Htxn |- *.
  injection Htxn as Htxn. pose proof (do_alone HD t) as Hal. rewrite Hst in Hal. specialize (Hal (or_introl I)).
  destruct q as [| |k f|k v q].
  - exists (<[t := Applied]> st). rewrite Htxn. split_and!.
    + apply worker_node; auto; try done; [by rewrite Hs; right; simpl; rewrite Htxn|by rewrite Hst|by right; rewrite Hst|..].
      * apply act_same; [done|by rewrite Hst|done].
      * intros y Hy. destruct l; [apply list_elem_of_singleton in Hy as ->; by right|by apply elem_of_nil in Hy].
      * apply (sched_finish N plan); [done|by rewrite Hst].
      * by eapply (data_finish N plan db HP).
    + apply accounts_quiet; [done|..]; by rewrite Hst.
    + apply spends_set; [left; by rewrite Hst|]. rewrite Hst. simpl. unfold worker_work. simpl. rewrite !length_app. simpl. destruct l; simpl; lia.
  - destruct Hok' as (_ & _ & _ & _ & Hex). done.
  - rewrite (stage_deref N plan db _ _ _ _ _ _ _ _ _ Hok'). apply (exec_ok t m (ReadObject k f) l d _ _ d); [done..| |simpl; lia].
    apply (data_upd N plan); try done; [by rewrite Hst|]. rewrite <- (stage_deref N plan db _ _ _ _ _ _ _ _ _ Hok'). by apply stage_get.
  - pose proof Hok' as (Ho & Hall & _ & Hcf & _). assert (k ∈ read_write_set t) as Hk by (by inversion Hcf).
    destruct (Hall k) as [c Hc]; [by apply rw_keys|]. rewrite Hc. destruct (oo_cell Ho k c Hc) as [_ Hcell]. destruct c as [|v'|].
    + destruct (stage_put_local N plan db _ _ _ _ _ _ _ _ _ _ Hok' Hc) as (Hp & Hkw & Hok'').
      apply (exec_ok t m (Assign k v q) l d _ _ (<[k := v]> d)); [done..| |simpl; lia]. by eapply (data_assign N plan db HP).
    + apply (exec_ok t m (Assign k v q) l d _ _ (<[k := v]> d)); [done..| |simpl; lia]. apply (data_upd N plan); try done; [by rewrite Hst|]. by eapply stage_put_copy.
    + case_decide; [done|]. by destruct Hcell as (_ & ? & _ & ?).
Qed.

Context (Harr : ∀ x, (0 < arrived (n_workers n) (undelivered_messages n) x)%nat → is_result N plan db p x).
Context (Habs : ∀ r t, expected r p t → (0 < arrived (n_workers n) (undelivered_messages n) (channel_of t, result r t))%nat → absorbed r t (st t) = 0%nat).

(** The next message of the worker is a result its manager does not have yet. *)
Lemma message_for c results mq : message_queue w = (c, results) :: mq →
  ∃ r t m, expected r p t ∧ c = channel_of t ∧ results = result r t ∧ st t = Active i m ∧ active_txns w !! c = Some m ∧ absorbed r t (st t) = 0%nat.
Proof.
  intros Hmq. assert (0 < arrived (n_workers n) (undelivered_messages n) (c, results))%nat as Ha.
  { pose proof (arrived_upd _ (undelivered_messages n) i w (mkWorker (w_state w) ∅ [] []) (c, results) Hw) as Hu. simpl in Hu.
    rewrite Hmq, occ_cons, decide_True in Hu by done. change (occ (c, results) []) with 0%nat in Hu. lia. }
  destruct (Harr _ Ha) as (r & t & He & [= -> ->]). pose proof (Habs r t He Ha) as Hab. pose proof He as (Hin & _).
  destruct (wo_messages Hok (channel_of t) (result r t)) as (t' & Hin' & Hc & Hact); [rewrite Hmq; left|].
  assert (t = t') as <- by (by eapply (channel_inj N plan db HP)). destruct (st t) as [|j s d|j m|] eqn:Hst; try done.
  - destruct s as [| | |m q l]; done.
  - simpl in Hact. subst j. exists r, t, m. split_and!; try done; [|by rewrite Hst]. apply (wo_active Hok). by exists t.
Qed.

Lemma absorbed_result r r' t m : expected r p t → expected r' p t → objects_ok N p t (database (pos t)) m → r' ≠ r →
  absorbed r' t (Active i (HandleReadResult m (result r t))) = absorbed r' t (Active i m).
Proof.
  intros He He' Ho Hne. destruct (objects_result N plan db HP p t r m He Ho) as [_ Hk]. simpl. apply decide_ext. rewrite !Forall_forall.
  assert (∀ k, k ∈ local_keys r' t → is_Some (objects (HandleReadResult m (result r t)) !! k) ↔ is_Some (objects m !! k)) as Hiff; [|naive_solver].
  intros k [_ Hr']%local_keys_elem. rewrite Hk, local_keys_elem. naive_solver.
Qed.

Lemma absorbed_self r t m : expected r p t → objects_ok N p t (database (pos t)) m → absorbed r t (Active i (HandleReadResult m (result r t))) = 1%nat.
Proof.
  intros He Ho. destruct (objects_result N plan db HP p t r m He Ho) as [_ Hk]. simpl. rewrite decide_True; [done|]. rewrite Forall_forall.
  intros k Hkr. apply Hk. by left.
Qed.

Lemma message_accounts c results mq r t m s s0 act lq : message_queue w = (c, results) :: mq → expected r p t → c = channel_of t → results = result r t →
  st t = Active i m → absorbed r t (st t) = 0%nat → absorbed r t s = 1%nat → (∀ r', r' ≠ r → expected r' p t → absorbed r' t s = absorbed r' t (st t)) →
  (∀ q, unsent q s = 0%nat) →
  accounts (set_worker n (storage n) (txns_queue n) (done_queue n) i (mkWorker s0 act mq lq)) [] (<[t := s]> st).
Proof.
  intros Hmq He -> -> Hst Hab Hs Hs' Hu. set (w' := mkWorker s0 act mq lq).
  assert (∀ x, arrived (<[i := w']> (n_workers n)) (undelivered_messages n) x + (if decide ((channel_of t, result r t) = x) then 1 else 0) =
    arrived (n_workers n) (undelivered_messages n) x)%nat as Hc.
  { intros x. pose proof (arrived_upd _ (undelivered_messages n) i w w' x Hw) as Hc. rewrite Hmq, occ_cons in Hc. simpl in Hc. lia. }
  unfold accounts. cbv beta zeta. split_and!.
  - by intros q m' ?%elem_of_nil.
  - intros x. specialize (Hc x). simpl. lia.
  - intros q t' He'. rewrite filter_nil. change (occ _ ([] : list (Z * Message)).*2) with 0%nat. rewrite Nat.add_0_r.
    destruct (decide (t' = t)) as [->|]; [by rewrite fn_lookup_insert, Hst, Hu|by rewrite fn_lookup_insert_ne].
  - intros r' t' He'. specialize (Hc (channel_of t', result r' t')). simpl. destruct (decide _) as [Heq|Hne] in Hc.
    + destruct (channel_result r r' t t' p p He He' Heq) as [<- <-]. rewrite fn_lookup_insert. lia.
    + destruct (decide (t' = t)) as [->|]; [|rewrite fn_lookup_insert_ne by done; lia]. rewrite fn_lookup_insert, Hs'; [lia| |done]. by intros ->.
Qed.

Lemma message_ok c results mq : w_state w = WIdle → message_queue w = (c, results) :: mq → step_ok (RunWorkerThread N p n i w).
Proof.
  intros Hidle Hmq. destruct (message_for c results mq Hmq) as (r & t & m & He & Hc & Hres & Hst & Ha & Hab).
  unfold RunWorkerThread. rewrite Hidle, Hmq, Ha. pose proof He as (Hin & _).
  assert (objects_ok N p t (database (pos t)) m) as Ho by (pose proof (do_stage HD t Hin) as Hs; rewrite Hst in Hs; by destruct Hs).
  rewrite Hres. set (m' := HandleReadResult m (result r t)). destruct (objects_result N plan db HP p t r m He Ho) as [Ho' Hk]. fold m' in Ho', Hk.
  assert (∀ s, held s → sched_ok p (lm n) (txns_queue n) (done_queue n) (taken p (batch_number n) (batch_offset n)) (<[t := s]> st) L) as HS'.
  { intros s Hs. apply (sched_held N plan); [done|by rewrite Hst|done]. }
  assert (∀ y, y ∈ mq → y ∈ message_queue w) as Hmq' by (intros y Hy; rewrite Hmq; by right).
  rewrite <- (app_nil_r (link_unlink_queue w)). destruct (ReadyToExecute m') eqn:Hr.
  - destruct (stage_execute N plan db HP p (storage n) t i m' true Hin Ho' Hr) as [Hst' Hal].
    { intros k Hkl. eapply (storage_current N plan db HP); try done; rewrite Hst; [done|by intros []]. }
    set (s := Busy i (WExecuting m' (Execute (sm_txn m')) true) (database (pos t))) in *. exists (<[t := s]> st). split_and!.
    + apply worker_node; try done; [by rewrite Hidle; left|by rewrite Hst|by rewrite Hst; right|by rewrite Hst|by eauto|by rewrite Hc|by intros y ?%elem_of_nil| |].
      * by apply HS'.
      * apply (data_upd N plan); try done; by rewrite Hst.
    + eapply message_accounts; try done. intros r' Hne He'. rewrite Hst, <- (absorbed_result r r' t m) by done. symmetry. simpl. rewrite decide_True; [done|].
      rewrite Forall_forall. intros k [Hkt _]%local_keys_elem. by apply (ready_spec N plan db HP p t _ m' Hin Ho').
    + apply spends_set; [left; by rewrite Hst|]. rewrite Hst. unfold worker_work, s, rank. rewrite Hmq, (oo_txn Ho'). simpl. rewrite length_app. simpl. lia.
  - exists (<[t := Active i m']> st). split_and!.
    + apply worker_node; try done; [by rewrite Hidle; left|by rewrite Hst|by rewrite Hst; right|by rewrite Hst|by rewrite Hc|by intros y ?%elem_of_nil|by left; eauto| |].
      * by apply HS'.
      * apply (data_upd N plan); try done; by rewrite Hst.
    + eapply message_accounts; try done; [by apply absorbed_self|]. intros r' Hne He'. rewrite Hst. by apply absorbed_result.
    + apply spends_set; [left; by rewrite Hst|]. rewrite Hst. unfold worker_work. rewrite Hmq. simpl. rewrite length_app. simpl. lia.
Qed.

Theorem worker_step_ok : step_ok (RunWorkerThread N p n i w).
Proof.
  destruct (w_state w) as [|m [|k keys] msg|m msg [|q nodes]|m c l] eqn:Hs; [|unfold RunWorkerThread; rewrite Hs..|by eapply execute_ok].
  - destruct (message_queue w) as [|[c results] mq] eqn:Hmq; [|by eapply message_ok]. unfold RunWorkerThread. rewrite Hs, Hmq.
    assert (∃ l, txns_queue n = l) as [[|t tq] Htq] by eauto; rewrite Htq; [|rewrite <- Hmq; by apply pop_ok]. exists st. split_and!; [done| |split; [done|by left]].
    unfold accounts. cbv beta zeta. split_and!; try done; [by intros ? ? ?%elem_of_nil].
  - by apply read_all_ok.
  - by apply read_ok.
  - destruct (ReadyToExecute m) eqn:Hr; [by eapply start_ok|by eapply activate_ok].
  - by apply send_ok.
Qed.

End worker.

(** ** Steps of the system *)

Lemma send_all_total p socks out : total message_work (send_all p socks out) = (total message_work socks + sum_list_with message_work out.*2)%nat.
Proof.
  revert socks. induction out as [|[q m] out IH]; intros socks; csimpl; [lia|]. rewrite IH.
  pose proof (total_insert message_work socks (p, q) (default [] (socks !! (p, q)) ++ [m])) as Ht. rewrite sum_list_with_app in Ht. simpl in Ht. lia.
Qed.

(** A step of the system keeps the invariant and takes some of the work, or
    changes nothing. *)
Definition step_to S s s' : Prop := ∃ S', system_ok S' s' ∧ (s' = s ∨ (work S' s' < work S s)%nat).

Lemma worker_event S ns socks p n L i w n' out : system_ok S (mkSystem ns socks) → ns !! p = Some n → node_ok p n (S p) L → n_workers n !! i = Some w →
  RunWorkerThread N p n i w = Done (n', out) → step_to S (mkSystem ns socks) (mkSystem (<[p := n']> ns) (send_all p socks out)).
Proof.
  intros HI Hn HN Hw Hrun. pose proof (sy_messages HI) as HM. simpl in HM. pose proof (worker_step_ok p n (S p) L i w HN Hw) as Hs.
  rewrite Hrun in Hs. destruct Hs as (st' & HN' & (Hout & Harr & Hsent & Hrec) & Hsb & Hwork).
  { intros x. by apply (mo_arrived HM p n). }
  { intros r t He Ha. pose proof (mo_count HM r p t n He Hn). lia. }
  assert (∀ q, q ≠ p → (<[p := st']> S) q = S q) as Hne by (intros; by rewrite fn_lookup_insert_ne).
  assert ((<[p := st']> S) p = st') as Heq by (by rewrite fn_lookup_insert). exists (<[p := st']> S). split.
  - eapply system_set; [done..|by rewrite Heq| |].
    + eapply messages_step; [done|done|done|..].
      * intros r q m. rewrite send_all_lookup. intros [?|Hm]%elem_of_app; [by left|right]. case_decide; [subst r|by apply elem_of_nil in Hm].
        apply list_elem_of_fmap in Hm as ([q' m'] & -> & [Hq Hm]%list_elem_of_filter). simpl in *. subst q'. by apply Hout.
      * intros x Hx. left. specialize (Harr x). simpl in Harr. lia.
      * intros r q Hr Hq. apply send_all_other; done.
      * intros q t He m. rewrite Heq, send_all_lookup, decide_True, occ_app by done. specialize (Hsent q t He). unfold m. lia.
      * intros r t He m x. pose proof He as (_ & _ & _ & Hne'). rewrite Heq, send_all_lookup, decide_False, app_nil_r by done.
        specialize (Hrec r t He). simpl in Hrec. unfold x. lia.
    + pose proof Hsb as (_ & _ & _ & _ & E5 & E6). eapply flow_same; [apply (sy_flow HI)|done|intros b _; by apply same_has_batch|done|done|..].
      * intros r q b data Hin. rewrite send_all_lookup. apply elem_of_app. by left.
      * intros r q Hr _. by apply send_all_other.
  - destruct Hwork as [(-> & -> & ->)|Hlt]; [left; simpl; by rewrite insert_id|right].
    pose proof (work_set S (<[p := st']> S) ns socks (send_all p socks out) p n n' Hn) as Hws. rewrite Heq, send_all_total in Hws.
    specialize (Hws ltac:(by apply (sy_nodes HI); simpl; eauto) Hne). lia.
Qed.

(** A change of the multiplexer's part. *)
Lemma multiplexer_ok p n st L ws rr un ms sock : node_ok p n st L → workers_ok ws rr un st →
  (∀ y, y ∈ ms → y ∈ inproc_in n) → (∀ b data, (b, data) ∈ sock → (b, data) ∈ batch_socket n ∨ is_batch p b data) →
  node_ok p (set_multiplexer n ws rr un ms sock) st L.
Proof.
  intros [HS Hr Hcnt [B1 B2 B3 B4 B5 B6] HW HD] HW' Hms Hsock. split; try done. split; simpl; try done.
  - intros b data [?|?]%Hsock; [by apply B4|done].
  - intros q m Hm%Hms. by apply B5.
Qed.

Lemma multiplexer_work p n st ws rr un ms sock :
  (node_work p (set_multiplexer n ws rr un ms sock) st + sum_list_with worker_work (n_workers n) + 2 * total (λ _, 1) (undelivered_messages n) +
     3 * length (inproc_in n) + length (batch_socket n) =
   node_work p n st + sum_list_with worker_work ws + 2 * total (λ _, 1) un + 3 * length ms + length sock)%nat.
Proof. unfold node_work, CalvinInv.node_work, CalvinInv.scheduler_work, sequencer_work. simpl. lia. Qed.

Lemma Send_result_work p n st x : workers_ok (n_workers n) (remote_result n) (undelivered_messages n) st →
  (node_work p (Send_result n x) st ≤ node_work p n st + 2)%nat.
Proof.
  intros HW. unfold Send_result. destruct (remote_result n !! x.1) as [i|] eqn:Hi.
  - destruct (ws_remote HW _ _ Hi) as [Hlt _]. destruct (lookup_lt_is_Some_2 _ _ Hlt) as [w Hw]. rewrite (alter_insert _ _ _ w Hw).
    pose proof (multiplexer_work p n st (<[i := push_message x w]> (n_workers n)) (remote_result n) (undelivered_messages n) (inproc_in n) (batch_socket n)).
    pose proof (sum_insert worker_work (n_workers n) i w (push_message x w) Hw) as Hs. unfold worker_work at 2 4 in Hs. simpl in Hs. rewrite length_app in Hs. simpl in Hs. lia.
  - set (un := <[x.1 := _]> (undelivered_messages n)).
    pose proof (multiplexer_work p n st (n_workers n) (remote_result n) un (inproc_in n) (batch_socket n)).
    pose proof (total_insert (λ _, 1%nat) (undelivered_messages n) x.1 (default [] (undelivered_messages n !! x.1) ++ [x])) as Ht.
    rewrite sum_list_with_app in Ht. simpl in Ht. fold un in Ht. lia.
Qed.

Lemma Send_result_same n x : same_batches n (Send_result n x).
Proof. unfold Send_result. by destruct (remote_result n !! _). Qed.

(** What [Send] does with a message from another node. *)
Lemma Send_remote p n st L from m : node_ok p n st L → socket_ok from p m → ∃ n', Send p n p m = (n', []) ∧ node_ok p n' st L ∧
  (∀ y, arrived (n_workers n') (undelivered_messages n') y =
     ((if decide (m = READ_RESULT y.1 y.2) then 1 else 0) + arrived (n_workers n) (undelivered_messages n) y)%nat) ∧
  (node_work p n' st < node_work p n st + message_work m)%nat ∧ (∀ b, has_batch n b → has_batch n' b) ∧
  inproc_in n' = inproc_in n ∧ seq_batch_number n' = seq_batch_number n ∧ ∀ b data, m = TXN_BATCH b data → has_batch n' b.
Proof.
  intros HN Hok. pose proof (no_workers HN) as HW. destruct m as [c kvs|b data]; simpl.
  - destruct (Send_result_ok n st (c, kvs) HW) as [HW' Har]. pose proof (Send_result_work p n st (c, kvs) HW). pose proof (Send_result_same n (c, kvs)) as HE.
    exists (Send_result n (c, kvs)). split; [done|]. split_and!; try (by apply HE); [|..|lia|intros b; by apply same_has_batch|done].
    + unfold Send_result in *. destruct (remote_result n !! _); by apply multiplexer_ok; auto.
    + intros [c' kvs']. rewrite Har. f_equal. apply decide_ext. simpl. naive_solver.
  - rewrite Z.eqb_refl. eexists. split; [done|]. split_and!; [|done| | |done|done|].
    + apply multiplexer_ok; auto. intros b' data' [?|[= -> ->]%list_elem_of_singleton]%elem_of_app; auto.
    + pose proof (multiplexer_work p n st (n_workers n) (remote_result n) (undelivered_messages n) (inproc_in n) (batch_socket n ++ [(b, data)])) as Hw.
      rewrite length_app in Hw. simpl in Hw. lia.
    + intros b' [?|[?|[?|(data' & ?)]]]; [by left|by right; left|by right; right; left|]. right. right. right. exists data'. apply elem_of_app. by left.
    + intros b' data' [= <- <-]. right. right. right. exists data. apply elem_of_app. right. left.
Qed.

Lemma remote_event S ns socks p n L from m ms : system_ok S (mkSystem ns socks) → ns !! p = Some n → node_ok p n (S p) L →
  socks !! (from, p) = Some (m :: ms) → ∃ n', Send p n p m = (n', []) ∧
  system_ok S (mkSystem (<[p := n']> ns) (<[(from, p) := ms]> socks)) ∧
  (work S (mkSystem (<[p := n']> ns) (<[(from, p) := ms]> socks)) < work S (mkSystem ns socks))%nat.
Proof.
  intros HI Hn HN Hm. pose proof (sy_messages HI) as HM. simpl in HM.
  assert (socket_ok from p m) as Hok by (apply (mo_socket HM); rewrite Hm; left).
  destruct (Send_remote p n (S p) L from m HN Hok) as (n' & -> & HN' & Har & Hwk & Hhb & Hin & Hsq & Hb). exists n'. split; [done|].
  assert (∀ r q, default [] (<[(from, p) := ms]> socks !! (r, q)) = if decide ((r, q) = (from, p)) then ms else default [] (socks !! (r, q))) as Hsk.
  { intros r q. destruct (decide _) as [->|]; [by rewrite lookup_insert_eq|by rewrite lookup_insert_ne]. }
  assert (∀ r q, q ≠ p → <[(from, p) := ms]> socks !! (r, q) = socks !! (r, q)) as Hother by (intros r q ?; apply lookup_insert_ne; congruence).
  split; [eapply system_set; [done..| |]|].
  - eapply messages_step; [done|done|done| | | | |].
    + intros r q m'. rewrite Hsk. case_decide as Heq; [|by left]. injection Heq as -> ->. intros Hin'. left. rewrite Hm. by right.
    + intros [c kvs]. rewrite Har. destruct (decide _) as [->|]; [intros _; right|by left]. simpl in Hok. destruct Hok as (t & He & -> & ->). by exists from, t.
    + intros r q _ Hq. by apply Hother.
    + intros q t (_ & _ & _ & Hne) m'. rewrite Hsk, decide_False; [done|]. intros [= -> ->]. done.
    + intros r t He m' x. rewrite Hsk, Har. case_decide as Heq.
      * injection Heq as ->. rewrite Hm. simpl default. rewrite occ_cons. unfold x, m'. simpl. lia.
      * rewrite decide_False; [lia|]. intros ->. apply Heq. f_equal. destruct Hok as (t' & He' & Hc & Hres). simpl in Hc, Hres.
        destruct (channel_result r from t t' p p He He') as [-> _]; [|done]. by rewrite Hc, Hres.
  - assert (∀ r b data, TXN_BATCH b data ∈ default [] (socks !! (r, p)) →
      TXN_BATCH b data ∈ default [] (<[(from, p) := ms]> socks !! (r, p)) ∨ has_batch n' b) as Hpop.
    { intros r b data Hin'. rewrite Hsk. case_decide as Heq; [|by left]. injection Heq as ->. rewrite Hm in Hin'. simpl in Hin'.
      apply elem_of_cons in Hin' as [<-|?]; [right; by eapply Hb|by left]. }
    eapply flow_step; [apply (sy_flow HI)|done|by auto| |by intros; eapply Hpop|intros r q _ ?; by apply Hother].
    intros q b _ _ _ Hc. unfold to_come in *. rewrite Hin, Hsq. destruct Hc as [?|[?|(data & Hc)]]; [left; by left|left; right; by left|].
    destruct (decide (q = p)) as [->|Hqp]; [|left; right; right; exists data; by rewrite Hother]. destruct (Hpop p b data Hc); [|by right].
    left. right. right. by exists data.
  - pose proof (work_set S S ns socks (<[(from, p) := ms]> socks) p n n' Hn ltac:(by apply (sy_nodes HI); simpl; eauto) ltac:(done)) as Hws.
    pose proof (total_insert message_work socks (from, p) ms) as Ht. rewrite Hm in Ht. simpl in Ht. lia.
Qed.

Lemma inproc_event S ns socks p n L q m ms n' out : system_ok S (mkSystem ns socks) → ns !! p = Some n → node_ok p n (S p) L → inproc_in n = (q, m) :: ms →
  Send p (set_multiplexer n (n_workers n) (remote_result n) (undelivered_messages n) ms (batch_socket n)) q m = (n', out) →
  system_ok S (mkSystem (<[p := n']> ns) (send_all p socks out)) ∧
  (work S (mkSystem (<[p := n']> ns) (send_all p socks out)) < work S (mkSystem ns socks))%nat.
Proof.
  intros HI Hn HN Hm Hs. pose proof (sy_messages HI) as HM. simpl in HM. pose proof (no_workers HN) as HW.
  destruct (bo_inproc (no_batches HN) q m) as (Hq & b & data & -> & Hb); [rewrite Hm; left|].
  assert (∀ y, y ∈ ms → y ∈ inproc_in n) as Hms by (intros y ?; rewrite Hm; by right).
  pose proof (λ n' out, work_set S S ns socks (send_all p socks out) p n n' Hn ltac:(by apply (sy_nodes HI); simpl; eauto) ltac:(done)) as Hws.
  assert (∀ q' b' data' (n' : Node), (q', TXN_BATCH b' data') ∈ inproc_in n → inproc_in n' = ms →
    (q', b', data') = (q, b, data) ∨ ∃ data', (q', TXN_BATCH b' data') ∈ inproc_in n') as Hpop.
  { intros q' b' data' n2 Hin ->. rewrite Hm in Hin. apply elem_of_cons in Hin as [[= -> -> ->]|?]; [by left|right; by eauto]. }
  simpl in Hs. destruct (q =? p)%Z eqn:Hqp.
  - apply Z.eqb_eq in Hqp as ->. injection Hs as <- <-. simpl send_all. split; [eapply system_set; [done..| |by eapply messages_same|]|].
    + apply (multiplexer_ok p n (S p) L); auto. intros b' data' [?|[= -> ->]%list_elem_of_singleton]%elem_of_app; auto.
    + assert (∀ b' (data' : list TxnProto), (b', data') ∈ batch_socket n ++ [(b, data)] → has_batch (set_multiplexer n (n_workers n) (remote_result n)
        (undelivered_messages n) ms (batch_socket n ++ [(b, data)])) b') as Hsock by (intros b' data' ?; right; right; right; by exists data').
      eapply flow_step; [apply (sy_flow HI)|done| | |by left|done].
      * intros b' _ [?|[?|[?|(data' & ?)]]]; [by left|by right; left|by right; right; left|]. apply (Hsock b' data'), elem_of_app. by left.
      * intros q' b' _ _ _ [?|[(data' & Hin)|?]]; [left; by left| |left; by right; right].
        match goal with |- to_come ?n' _ _ _ ∨ _ => destruct (Hpop q' b' data' n' Hin) as [[= -> -> ->]|?] end; [done| |left; right; by left].
        right. split; [done|]. apply (Hsock b data), elem_of_app. right. left.
    + specialize (Hws (set_multiplexer n (n_workers n) (remote_result n) (undelivered_messages n) ms (batch_socket n ++ [(b, data)])) []).
      pose proof (multiplexer_work p n (S p) (n_workers n) (remote_result n) (undelivered_messages n) ms (batch_socket n ++ [(b, data)])) as Hw.
      rewrite Hm, length_app in Hw. simpl in Hw, Hws. unfold set_multiplexer in *. simpl in *. lia.
  - injection Hs as <- <-. set (out := [(q, TXN_BATCH b data)]). set (n' := set_multiplexer _ _ _ _ _ _) in *.
    split; [eapply system_set; [done..|by apply (multiplexer_ok p n (S p) L); auto| |]|].
    + eapply messages_step; [done|done|done| | | | |]; simpl n_workers; simpl undelivered_messages.
      * intros r q' m'. rewrite send_all_lookup. intros [?|Hm']%elem_of_app; [by left|right]. case_decide; [|by apply elem_of_nil in Hm'].
        unfold out in Hm'. rewrite filter_cons, filter_nil in Hm'. simpl in Hm'. case_decide; [|by apply elem_of_nil in Hm']. subst. by apply list_elem_of_singleton in Hm' as ->.
      * by left.
      * intros r q' Hr Hq'. by apply send_all_other.
      * intros q' t He m'. rewrite send_all_lookup, occ_app. unfold out. rewrite filter_cons, filter_nil. simpl. rewrite (decide_True (P := p = p)) by done.
        destruct (decide (q = q')); csimpl; [rewrite occ_cons, decide_False by done|]; change (occ m' []) with 0%nat; lia.
      * intros r t (_ & _ & _ & Hne) m'. rewrite send_all_lookup, decide_False, app_nil_r by done. done.
    + eapply flow_step; [apply (sy_flow HI)|done|done| | |intros r q' ? _; by apply send_all_other].
      * intros q' b' _ _ _ Hc. left. unfold to_come in *. rewrite send_all_lookup, decide_True by done. destruct Hc as [?|[(data' & Hin)|(data' & ?)]]; [by left|..].
        -- destruct (Hpop q' b' data' n' Hin) as [[= -> -> ->]|?]; [done| |right; by left]. right. right. exists data. apply elem_of_app. right.
           unfold out. rewrite filter_cons, decide_True by done. left.
        -- right. right. exists data'. apply elem_of_app. by left.
      * intros r b' data' Hr Hin. left. by rewrite send_all_other.
    + specialize (Hws n' out). rewrite send_all_total in Hws. simpl in Hws.
      pose proof (multiplexer_work p n (S p) (n_workers n) (remote_result n) (undelivered_messages n) ms (batch_socket n)) as Hw.
      rewrite Hm in Hw. simpl in Hw. unfold n' in *. unfold set_multiplexer in *. simpl in *. lia.
Qed.

Lemma link_event S ns socks p n L i w lr rs : system_ok S (mkSystem ns socks) → ns !! p = Some n → node_ok p n (S p) L →
  n_workers n !! i = Some w → link_unlink_queue w = lr :: rs →
  let n' := serve_link (set_multiplexer n (<[i := mkWorker (w_state w) (active_txns w) (message_queue w) rs]> (n_workers n)) (remote_result n)
              (undelivered_messages n) (inproc_in n) (batch_socket n)) i lr in
  system_ok S (mkSystem (<[p := n']> ns) socks) ∧ (work S (mkSystem (<[p := n']> ns) socks) < work S (mkSystem ns socks))%nat.
Proof.
  intros HI Hn HN Hw Hl n'. pose proof (sy_messages HI) as HM. simpl in HM.
  destruct (serve_link_ok n (S p) i w lr rs (no_workers HN)) as (ws & rr & un & Heq & HW' & Har & Hwk); [|done..|].
  { intros t Ht. by eapply (held_in N plan), Ht; apply (no_sched HN). }
  unfold n'. rewrite Heq. split; [eapply system_set; [done..|by apply multiplexer_ok; auto| |]|].
  - eapply messages_step; [done..|by left|intros x; simpl; rewrite Har; by left|done|done|]. intros r t He m x. simpl. by rewrite Har.
  - eapply flow_same; [apply (sy_flow HI)|done..].
  - pose proof (work_set S S ns socks socks p n (set_multiplexer n ws rr un (inproc_in n) (batch_socket n)) Hn
      ltac:(by apply (sy_nodes HI); simpl; eauto) ltac:(done)) as Hws.
    pose proof (multiplexer_work p n (S p) ws rr un (inproc_in n) (batch_socket n)). lia.
Qed.

(** Every step keeps the invariant and takes some of the work, or changes nothing;
    no step crashes. *)
Theorem step_system S s e : system_ok S s →
  match step N plan s e with Crash => False | Blocks => True | Done s' => step_to S s s' end.
Proof.
  intros HI. destruct s as [ns socks]. unfold step. simpl. destruct (ns !! node_of e) as [n|] eqn:Hn; [|done].
  destruct (sy_node HI _ _ Hn) as [L HN]. pose proof (sy_messages HI) as HM. pose proof (sy_flow HI) as HF. simpl in HM, HF.
  pose proof (λ n', work_set S S ns socks socks (node_of e) n n' Hn ltac:(by apply (sy_nodes HI); simpl; eauto) ltac:(done)) as Hws.
  destruct e as [p|p|p i|p from|p|p i]; simpl in Hn, HN |- *; simpl node_of in Hws.
  - pose proof (sequencer_ok p n (S p) L HN) as Hs. destruct (RunReader _ _ _) as [n'| |]; [|done..]. destruct Hs as (HN' & Hw & Hu & Hwk & Hhb & Htc).
    exists S. specialize (Hws n'). split; [|right; change (set_node (mkSystem ns socks) p n' []) with (mkSystem (<[p := n']> ns) socks); lia]. eapply system_set; [done..|by eapply messages_same|]. eapply flow_step; [done..|by auto| |by left|done].
    intros q b Hq _ Hbp Hc. left. apply Htc; [by apply (sy_nodes HI)|done|done].
  - pose proof (scheduler_ok p n (S p) L HN) as Hs. destruct (LockManagerThread _ _ _) as [n'| |]; [|done..]. destruct Hs as ((L' & HN') & HO & Hhb & Hwk).
    pose proof HO as (_ & E2 & _ & E4 & E5 & E6). exists S. specialize (Hws n'). split.
    + eapply system_set; [done..|by eapply messages_same|]. eapply flow_same; [done|done|by auto|done..].
    + destruct Hwk as [->|Hwk]; [left; unfold set_node; simpl; by rewrite insert_id|right; change (set_node (mkSystem ns socks) p n' []) with (mkSystem (<[p := n']> ns) socks); lia].
  - destruct (n_workers n !! i) as [w|] eqn:Hw; [|done]. destruct (RunWorkerThread _ _ _ _ _) as [[n' out]| |] eqn:Hrun.
    + by eapply worker_event.
    + done.
    + pose proof (worker_step_ok p n (S p) L i w HN Hw) as Hs. rewrite Hrun in Hs. apply Hs.
      * intros x. by apply (mo_arrived HM p n).
      * intros r t He Ha. pose proof (mo_count HM r p t n He Hn). lia.
  - destruct (socks !! (from, p)) as [[|m ms]|] eqn:Hm; [done| |done].
    destruct (remote_event S ns socks p n L from m ms HI Hn HN Hm) as (n' & -> & HI' & Hwk). exists S. by auto.
  - destruct (inproc_in n) as [|[q m] ms] eqn:Hm; [done|]. destruct (Send _ _ _ _) as [n' out] eqn:Hs. exists S.
    destruct (inproc_event S ns socks p n L q m ms n' out HI Hn HN Hm Hs). by auto.
  - destruct (n_workers n !! i) as [w|] eqn:Hw; [|done]. destruct (link_unlink_queue w) as [|lr rs] eqn:Hl; [done|]. exists S.
    destruct (link_event S ns socks p n L i w lr rs HI Hn HN Hw Hl). by auto.
Qed.

End events.
