(* ===== verification/CalvinProps.v ===== *)
(** * Calvin: serializability, termination and progress *)

From stdpp Require Import functions.
From S2P Require Import Prelude AppReplica TimeServer CalvinTxn CalvinLocks CalvinLocksProps CalvinSystem CalvinSerial CalvinInv CalvinEvents.

Section properties.
Context (N : Z) `{Application} (plan : list (list TxnProto)) (db : gmap Key Value).
Implicit Types (t : TxnProto) (p q r : Z) (k : Key) (S : Z → TxnProto → stage) (L : list TxnProto) (n : Node) (s : System).

Notation sequence := (sequence N plan).
Notation sequence_at := (sequence_at N plan).
Notation pos := (pos N plan).
Notation database := (database N plan db).
Notation system_ok := (system_ok N plan db).
Notation node_ok := (node_ok N plan db).
Notation work := (work N plan db).
Notation taken := (taken N plan).
Notation local_keys := (local_keys N).
Notation conflict p := (conflict (IsLocal N p)).

(** ** The start *)

Lemma new_system_lookup p n : sys_nodes (new_system N db) !! p = Some n ↔ p ∈ all_nodes N ∧ n = new_node N db p.
Proof.
  unfold new_system. simpl. rewrite <- elem_of_list_to_map; [rewrite list_elem_of_fmap; naive_solver|].
  rewrite <- list_fmap_compose. apply NoDup_fmap_2; [by intros ? ? ?|apply NoDup_seqZ].
Qed.

Context (HP : planned N plan db).

Lemma new_node_ok p : p ∈ all_nodes N → node_ok p (new_node N db p) (λ _, Pending) [].
Proof.
  intros Hp. apply elem_of_seqZ in Hp. assert (taken p 0 0 = []) as HT by done. split; simpl.
  - assert (∀ t, t ∈ @nil TxnProto ↔ False) as Hnil by (intros t; apply elem_of_nil).
    rewrite HT. split; simpl; [apply new_lock_manager_ok|apply prefix_nil|done|constructor|..]; [|constructor|..]; intros t; rewrite ?Hnil; naive_solver.
  - done.
  - done.
  - split; simpl; try done; [by intros b data ?%elem_of_nil|by intros q m ?%elem_of_nil|]. split; [lia|apply Z.mod_small; lia].
  - split; simpl; try done.
    + intros i w Hw. apply list_elem_of_lookup_2 in Hw. assert (w = mkWorker WIdle ∅ [] []) as -> by set_solver.
      split; simpl; try done; [|by intros ? ? ?%elem_of_nil|by intros ? ?%elem_of_nil..]. intros c m. rewrite lookup_empty. naive_solver.
    + intros c x. rewrite lookup_empty. by intros ?%elem_of_nil.
    + lia.
  - split; try done; [|by intros k Hk; apply map_lookup_filter_None; right; intros v _; simpl; unfold IsLocal; rewrite bool_decide_spec|naive_solver].
    intros k j Hk [Hj Hsep]. rewrite (database_stable N plan db HP 0 j k); [|lia|done|].
    + rewrite database_0. destruct (db !! k) as [v|] eqn:Hv.
      * apply map_lookup_filter_Some. split; [done|]. simpl. unfold IsLocal. by apply bool_decide_spec.
      * apply map_lookup_filter_None. by left.
    + intros t Ht _ Hlt Hkt. specialize (Hsep t Ht Hkt). by rewrite decide_True in Hsep.
Qed.

Lemma new_system_ok : system_ok (λ _ _, Pending) (new_system N db).
Proof.
  split.
  - intros p. split; [by intros [n [? _]%new_system_lookup]|]. intros Hp. exists (new_node N db p). by apply new_system_lookup.
  - intros p n [Hp ->]%new_system_lookup. exists []. by apply new_node_ok.
  - assert (∀ p x, arrived (n_workers (new_node N db p)) (undelivered_messages (new_node N db p)) x = 0%nat) as Ha by (intros; done).
    split.
    + intros r w m. simpl. rewrite lookup_empty. by intros ?%elem_of_nil.
    + intros w n x [_ ->]%new_system_lookup. rewrite Ha. lia.
    + intros r w t n He [_ ->]%new_system_lookup. rewrite Ha. done.
  - intros p n b [_ ->]%new_system_lookup Hb. right. pose proof (pl_nodes _ _ _ HP). exists (new_node N db (b `mod` N)). split.
    + apply new_system_lookup. split; [|done]. apply elem_of_seqZ. pose proof (Z.mod_pos_bound b N). lia.
    + left. simpl. apply Z.mod_le; lia.
Qed.

(** ** Runs *)

Lemma run_system es s S : system_ok S s →
  match run N plan s es with Crash => False | Blocks => True | Done s' => ∃ S', system_ok S' s' end.
Proof.
  revert s S. induction es as [|e es IH]; intros s S HI; simpl; [by exists S|]. pose proof (step_system N plan db HP S s e HI) as Hs.
  destruct (step N plan s e) as [s'| |]; simpl; [|done..]. destruct Hs as (S' & HI' & _). by eapply IH.
Qed.

(** A node that has nothing in its queues and workers and no transaction that
    waits for locks. *)
Definition idle_node n : Prop :=
  txns_queue n = [] ∧ done_queue n = [] ∧ txn_waits (lm n) = ∅ ∧ Forall (λ w, w_state w = WIdle ∧ active_txns w = ∅) (n_workers n).

Lemma idle_unlocked p n st L : node_ok p n st L → idle_node n → L = [].
Proof.
  intros HN (Htq & Hdq & Hlm & Hws). pose proof (no_sched HN) as HS. destruct L as [|t L]; [done|]. exfalso.
  assert (t ∈ t :: L) as Ht by left. set (L0 := t :: L) in *. assert (¬ waits (IsLocal N p) L0 t) as Hw by apply first_never_waits.
  destruct (st t) as [|i s d|i m|] eqn:Hst.
  - assert (t ∈ txns_queue n ++ ready_txns (lm n)) as Hin by (by apply (so_queued HS)). rewrite Htq, (no_ready HN) in Hin. by apply elem_of_nil in Hin.
  - destruct (lookup_lt_is_Some_2 (n_workers n) i) as [w Hwk]; [apply (ws_owner (no_workers HN) t); by rewrite Hst|].
    destruct (busy_state N plan db p n st L0 i w HN Hwk t s d Hst) as (_ & Hs & _). rewrite Forall_lookup in Hws. destruct (Hws i w Hwk) as [Hi _].
    by rewrite Hi in Hs.
  - destruct (lookup_lt_is_Some_2 (n_workers n) i) as [w Hwk]; [apply (ws_owner (no_workers HN) t); by rewrite Hst|].
    rewrite Forall_lookup in Hws. destruct (Hws i w Hwk) as [_ Ha]. assert (active_txns w !! channel_of t = Some m) as Hm.
    { apply (wo_active (ws_worker (no_workers HN) i w Hwk)). exists t. split_and!; [|done..]. eapply (held_in N plan); [done|by rewrite Hst]. }
    by rewrite Ha, lookup_empty in Hm.
  - assert (t ∈ done_queue n) as Hin by (by apply (so_done HS)). rewrite Hdq in Hin. by apply elem_of_nil in Hin.
Qed.

(** The storage when all taken transactions are applied. *)
Lemma applied_storage p n st j : node_ok p n st [] → (j ≤ length sequence)%nat →
  taken p (batch_number n) (batch_offset n) = filter (λ t, p ∈ participants N t) (take j sequence) →
  storage n = filter (λ kv, LookupPartition N kv.1 = p) (database j).
Proof.
  intros HN Hj HT. pose proof (no_sched HN) as HS. pose proof (no_data HN) as HD. rewrite HT in HS. apply map_eq. intros k.
  destruct (decide (LookupPartition N k = p)) as [Hk|Hk]; cycle 1.
  { rewrite (do_local HD k Hk). symmetry. apply map_lookup_filter_None. right. by intros v _. }
  transitivity (database j !! k).
  - apply (do_storage HD); [done|]. split; [done|]. intros t Ht Hkt. pose proof (pos_lookup N plan t Ht) as Hpos.
    assert (t ∈ take j sequence ↔ (pos t < j)%nat) as Htk.
    { rewrite elem_of_take. split; [|by eauto]. intros (i & Hi & Hlt). by rewrite (lookup_pos N plan db HP i t Hi). }
    assert (p ∈ participants N t) as Hpt by (subst p; eapply sequence_at_elem, participant_of; [done..|by apply rw_keys]).
    case_decide as Hlt.
    + apply (so_released HS); [|by intros ?%elem_of_nil]. apply list_elem_of_filter. by rewrite Htk.
    + assert (st t = Pending) as ->; [|by split; [|intros []]]. destruct (decide (st t = Pending)) as [?|Hn]; [done|].
      destruct (so_started HS t Hn) as [[_ ?%Htk]%list_elem_of_filter _]. done.
  - destruct (database j !! k) as [v|] eqn:Hv; symmetry; [by apply map_lookup_filter_Some|apply map_lookup_filter_None; by left].
Qed.

(** ** Steps that change something *)

(** [m] steps from [s] to [s'] that each change the system; polls that find
    nothing are left out. *)
Inductive evolves s : nat → System → Prop :=
| evolves_refl : evolves s 0 s
| evolves_step m s1 e s2 : evolves s m s1 → step N plan s1 e = Done s2 → s2 ≠ s1 → evolves s (Datatypes.S m) s2.

Lemma evolves_ok m s : evolves (new_system N db) m s →
  ∃ S, system_ok S s ∧ (m + work S s ≤ work (λ _ _, Pending) (new_system N db))%nat.
Proof.
  induction 1 as [|m s1 e s2 _ (S & HI & Hle) Hs Hne]; [exists (λ _ _, Pending); split; [apply new_system_ok|done]|].
  pose proof (step_system N plan db HP S s1 e HI) as Hst. rewrite Hs in Hst. destruct Hst as (S' & HI' & [->|Hlt]); [done|]. exists S'. split; [done|lia].
Qed.

(** ** Nothing can change *)

Definition stuck s : Prop := ∀ e s', step N plan s e = Done s' → s' = s.

Lemma read_not_self (f : option Value → prog) k v : f v ≠ ReadObject k f.
Proof.
  assert (∀ (c : prog) k f v, c = ReadObject k f → f v ≠ c) as Hq; [|intros Heq; by eapply (Hq (ReadObject k f) k f v)].
  clear. induction c as [| |k' f' IH|k' v' c IH]; intros k f v Hq; try done. injection Hq as -> ->. intros Heq. by apply (IH v k f v).
Qed.

Lemma assign_not_self (c : prog) k v : c ≠ Assign k v c.
Proof. revert k v. induction c as [| |k' f' IH|k' v' c IH]; intros k v; try done. intros [= -> -> Hq]. by eapply IH. Qed.

Section stuck.
Context (S : Z → TxnProto → stage) (s : System) (HI : system_ok S s) (Hstuck : stuck s).

Lemma stuck_node p n n' socks' : sys_nodes s !! p = Some n → mkSystem (<[p := n']> (sys_nodes s)) socks' = s → n' = n ∧ socks' = sockets s.
Proof.
  intros Hn Heq. destruct s as [ns socks]. simpl in *. injection Heq as Hns ->. split; [|done].
  assert (<[p := n']> ns !! p = Some n) as Hp by (by rewrite Hns). rewrite lookup_insert_eq in Hp. congruence.
Qed.

Lemma stuck_sequencer p n : sys_nodes s !! p = Some n → Z.of_nat (length plan) ≤ seq_batch_number n.
Proof.
  intros Hn. destruct (sy_node HI p n Hn) as [L HN]. pose proof (bo_sequencer (no_batches HN)) as [B0 _].
  pose proof (sequencer_ok N plan db HP p n (S p) L HN) as Hs. pose proof (Hstuck (ESequencer p)) as Hst. unfold step in Hst. simpl in Hst. rewrite Hn in Hst.
  destruct (plan !! Z.to_nat (seq_batch_number n)) as [data|] eqn:Hd; [|apply lookup_ge_None in Hd; lia].
  unfold RunReader in Hs, Hst. rewrite Hd in Hs, Hst. destruct (decide _); [|done]. simpl in Hst. specialize (Hst _ eq_refl).
  apply (stuck_node p n) in Hst as [Heq _]; [|done]. apply (f_equal seq_batch_number) in Heq. simpl in Heq. pose proof (pl_nodes _ _ _ HP). lia.
Qed.

Lemma stuck_inproc p n : sys_nodes s !! p = Some n → inproc_in n = [].
Proof.
  intros Hn. destruct (inproc_in n) as [|[q m] ms] eqn:Hi; [done|]. exfalso. destruct (sy_node HI p n Hn) as [L HN].
  pose proof (Hstuck (EInproc p)) as Hst. unfold step in Hst. simpl in Hst. rewrite Hn, Hi in Hst. destruct (Send _ _ _ _) as [n' out] eqn:Hs.
  specialize (Hst _ eq_refl). destruct s as [ns socks]. destruct (inproc_event N plan db S ns socks p n L q m ms n' out HI Hn HN Hi Hs) as [_ Hlt].
  unfold set_node in Hst. simpl in Hst. rewrite Hst in Hlt. lia.
Qed.

Lemma stuck_socket p n r : sys_nodes s !! p = Some n → default [] (sockets s !! (r, p)) = [].
Proof.
  intros Hn. destruct (sockets s !! (r, p)) as [[|m ms]|] eqn:Hm; [done| |done]. exfalso. destruct (sy_node HI p n Hn) as [L HN].
  pose proof (Hstuck (ERemote p r)) as Hst. unfold step in Hst. simpl in Hst. rewrite Hn, Hm in Hst. destruct s as [ns socks].
  destruct (remote_event N plan db HP S ns socks p n L r m ms HI Hn HN Hm) as (n' & Hs & _ & Hlt). rewrite Hs in Hst. specialize (Hst _ eq_refl).
  unfold set_node in Hst. simpl in Hst. rewrite Hst in Hlt. lia.
Qed.

Lemma stuck_link p n i w : sys_nodes s !! p = Some n → n_workers n !! i = Some w → link_unlink_queue w = [].
Proof.
  intros Hn Hw. destruct (link_unlink_queue w) as [|lr rs] eqn:Hl; [done|]. exfalso. destruct (sy_node HI p n Hn) as [L HN].
  pose proof (Hstuck (ELink p i)) as Hst. unfold step in Hst. simpl in Hst. rewrite Hn, Hw, Hl in Hst. specialize (Hst _ eq_refl). destruct s as [ns socks].
  destruct (link_event N plan db HP S ns socks p n L i w lr rs HI Hn HN Hw Hl) as [_ Hlt]. unfold set_node in Hst. simpl in Hst. rewrite Hst in Hlt. lia.
Qed.

Lemma stuck_worker p n i w : sys_nodes s !! p = Some n → n_workers n !! i = Some w → w_state w = WIdle ∧ message_queue w = [] ∧ txns_queue n = [].
Proof.
  intros Hn Hw. destruct (sy_node HI p n Hn) as [L HN]. pose proof (Hstuck (EWorker p i)) as Hst. unfold step in Hst. simpl in Hst. rewrite Hn, Hw in Hst.
  pose proof (sy_messages HI) as HM. pose proof (worker_step_ok N plan db HP p n (S p) L i w HN Hw) as Hok.
  assert (∀ store tq dq w' out, RunWorkerThread N p n i w = Done (set_worker n store tq dq i w', out) → w' = w) as Hsame.
  { intros store tq dq w' out Heq. rewrite Heq in Hst. simpl in Hst. specialize (Hst _ eq_refl). apply (stuck_node p n) in Hst as [Hnn _]; [|done].
    apply (f_equal (λ n, n_workers n !! i)) in Hnn. simpl in Hnn. rewrite list_lookup_insert_eq in Hnn by (by eapply lookup_lt_Some). congruence. }
  specialize (Hok ltac:(intros x; by apply (mo_arrived HM p n)) ltac:(intros r t He Ha; pose proof (mo_count HM r p t n He Hn); lia)).
  clear Hst. unfold RunWorkerThread in *. destruct w as [ws act mq lq]. simpl in *.
  assert (∀ ws' act' mq' lq', mkWorker ws' act' mq' lq' = mkWorker ws act mq lq → ws' = ws ∧ mq' = mq) as Hinj by (intros; by simplify_eq).
  destruct ws as [|m [|k keys] msg|m msg [|q nodes]|m [| |k f|k v c] l].
  - destruct mq as [|[c kvs] mq]; [|exfalso].
    + destruct (txns_queue n) as [|t tq]; [done|]. exfalso. specialize (Hsame _ _ _ _ _ eq_refl). apply Hinj in Hsame as [Hs _].
      unfold new_StorageManager in Hs. by case_decide.
    + destruct (act !! c) as [m|]; [|done]. specialize (Hsame _ _ _ _ _ eq_refl). destruct (ReadyToExecute _); apply Hinj in Hsame as [_ Hs];
        by apply (f_equal length) in Hs; simpl in Hs; lia.
  - specialize (Hsame _ _ _ _ _ eq_refl). by apply Hinj in Hsame as [? _].
  - specialize (Hsame _ _ _ _ _ eq_refl). apply Hinj in Hsame as [[= _ Hk _] _]. by apply (f_equal length) in Hk; simpl in Hk; lia.
  - destruct (ReadyToExecute m); specialize (Hsame _ _ _ _ _ eq_refl); by apply Hinj in Hsame as [? _].
  - specialize (Hsame _ _ _ _ _ eq_refl). apply Hinj in Hsame as [[= Hk] _]. by apply (f_equal length) in Hk; simpl in Hk; lia.
  - specialize (Hsame _ _ _ _ _ eq_refl). by apply Hinj in Hsame as [? _].
  - done.
  - specialize (Hsame _ _ _ _ _ eq_refl). apply Hinj in Hsame as [[= _ Hf] _]. by apply read_not_self in Hf.
  - destruct (objects m !! k) as [[| |]|]; try done; specialize (Hsame _ _ _ _ _ eq_refl); apply Hinj in Hsame as [Hs _]; injection Hs; intros; exfalso; by eapply assign_not_self.
Qed.

(** The scheduler has used up what it has, or has no room. *)
Lemma stuck_scheduler p n : sys_nodes s !! p = Some n → done_queue n = [] ∧
  (batch_message n = None ∧ batches n !! batch_number n = None ∧ batch_socket n = [] ∨ 2000 ≤ executing_txns n + pending_txns n).
Proof.
  intros Hn. destruct (sy_node HI p n Hn) as [L HN]. pose proof (scheduler_ok N plan db HP p n (S p) L HN) as Hok.
  pose proof (Hstuck (EScheduler p)) as Hst. unfold step in Hst. simpl in Hst. rewrite Hn in Hst.
  assert (∀ n', LockManagerThread N p n = Done n' → n' = n) as Hsame.
  { intros n' Heq. rewrite Heq in Hst. simpl in Hst. specialize (Hst _ eq_refl). by apply (stuck_node p n) in Hst as [? _]. }
  clear Hst. unfold LockManagerThread in *. destruct (done_queue n) as [|t dq] eqn:Hdq; cycle 1.
  { exfalso. destruct (Release _ _ _); [|done]. specialize (Hsame _ eq_refl). apply (f_equal done_queue) in Hsame. simpl in Hsame.
    rewrite Hdq in Hsame. apply (f_equal length) in Hsame. simpl in Hsame. lia. }
  split; [done|]. specialize (Hsame _ eq_refl). destruct (batch_message n) as [data|] eqn:Hm.
  - right. case_decide as Hoff.
    + apply (f_equal batch_number) in Hsame. unfold get_batch in Hsame. destruct (GetBatch _ _ _) as [[? ?] ?]. simpl in Hsame. lia.
    + destruct (_ <? _)%Z eqn:Hlt; [|apply Z.ltb_ge in Hlt; lia]. exfalso.
      destruct (lock_some_same N p data 100 n) as (_ & _ & _ & _ & Hgt). specialize (Hgt ltac:(done) ltac:(lia)). clear Hok.
      generalize dependent (lock_some N p 100 data n). intros n' Heq Hgt. apply (f_equal batch_offset) in Heq. simpl in Heq. lia.
  - left. split; [done|]. pose proof (GetBatch_moves (batch_number n) (batch_socket n) (batches n)) as Hg. unfold get_batch in Hsame.
    destruct (GetBatch _ _ _) as [[x sock] bs]. destruct Hg as (_ & Hnone & _). pose proof (f_equal batch_message Hsame) as Hx. simpl in Hx. subst x.
    rewrite Hm in Hnone. destruct (Hnone eq_refl) as (-> & Hb & _). split; [done|]. apply (f_equal batch_socket) in Hsame. by simpl in Hsame.
Qed.

Lemma stuck_waits_nothing p n : sys_nodes s !! p = Some n → batch_message n = None → batches n !! batch_number n = None → batch_socket n = [] →
  Z.of_nat (length plan) ≤ batch_number n.
Proof.
  intros Hn Hm Hb Hsock. destruct (sy_node HI p n Hn) as [L HN]. pose proof (bo_number (no_batches HN)).
  destruct (decide (Z.of_nat (length plan) ≤ batch_number n)) as [?|Hlt]; [done|]. exfalso.
  destruct (sy_flow HI p n (batch_number n) Hn) as [[?|[[_ [? ?]]|[[? ?]|(data & Hin)]]]|(no & Hno & Hc)]; [lia|lia|congruence|congruence|..].
  - rewrite Hsock in Hin. by apply elem_of_nil in Hin.
  - destruct Hc as [Hc|[(data & Hin)|(data & Hin)]].
    + pose proof (stuck_sequencer _ _ Hno). lia.
    + rewrite (stuck_inproc _ _ Hno) in Hin. by apply elem_of_nil in Hin.
    + rewrite (stuck_socket p n _ Hn) in Hin. by apply elem_of_nil in Hin.
Qed.

Lemma taken_all p b off : Z.of_nat (length plan) ≤ b → taken p b off = sequence_at p.
Proof.
  intros Hb. unfold CalvinInv.taken, CalvinSerial.sequence_at. rewrite take_ge by (rewrite length_fmap; lia).
  rewrite lookup_ge_None_2 by lia. simpl. rewrite take_nil. apply app_nil_r.
Qed.

(** A transaction without locks has been taken and applied, or is behind one with
    locks. *)
Lemma stuck_taken p n L t : sys_nodes s !! p = Some n → node_ok p n (S p) L → t ∈ sequence_at p → (∀ t', t' ∈ L → (pos t ≤ pos t')%nat) →
  t ∈ taken p (batch_number n) (batch_offset n).
Proof.
  intros Hn HN Ht Hmin. destruct (stuck_scheduler p n Hn) as [_ [(Hm & Hb & Hsock)|Hfull]].
  - rewrite taken_all by (by eapply stuck_waits_nothing). done.
  - pose proof (no_count HN) as Hc. destruct L as [|t' L]; [simpl in Hc; lia|]. specialize (Hmin t' (list_elem_of_here _ _)).
    pose proof (no_sched HN) as HS. assert (t' ∈ taken p (batch_number n) (batch_offset n)) as Ht' by (eapply elem_of_sublist; [|apply (so_sub HS)]; left).
    destruct (decide (pos t = pos t')) as [Heq|Hne].
    + assert (t = t') as <-; [|done]. eapply (pos_inj N plan); [by eapply sequence_at_in| |done]. eapply sequence_at_in. by eapply (taken_in N plan).
    + eapply (prefix_closed N plan db HP _ _ _ _ _ _ _ HS); [done..|]. lia.
Qed.

(** Every node that takes part in a transaction writes for it or has all its keys. *)
Context (Hnr : ∀ p t, t ∈ sequence_at p → p ∈ writers t ∨ local_keys p t = txn_keys t).

Lemma stuck_not_busy p n L t i ws d : sys_nodes s !! p = Some n → node_ok p n (S p) L → S p t ≠ Busy i ws d.
Proof.
  intros Hn HN Hst. destruct (lookup_lt_is_Some_2 (n_workers n) i) as [w Hwk]; [apply (ws_owner (no_workers HN) t); by rewrite Hst|].
  destruct (busy_state N plan db p n (S p) L i w HN Hwk t ws d Hst) as (_ & Hs & _). destruct (stuck_worker p n i w Hn Hwk) as (Hi & _). by rewrite Hi in Hs.
Qed.

(** No message has arrived for a transaction that waits for results. *)
Lemma stuck_arrived p n L t i m x : sys_nodes s !! p = Some n → node_ok p n (S p) L → S p t = Active i m → x.1 = channel_of t →
  arrived (n_workers n) (undelivered_messages n) x = 0%nat.
Proof.
  intros Hn HN Hst Hx. unfold arrived. rewrite Hx. destruct (ws_linked (no_workers HN) t i m Hst) as [[_ ->]|(w & Hw & Hin)]; cycle 1.
  { rewrite (stuck_link p n i w Hn Hw) in Hin. by apply elem_of_nil in Hin. }
  change (occ x []) with 0%nat. simpl. assert (∀ ws, (∀ w, w ∈ ws → message_queue w = []) → sum_list ((λ w, occ x (message_queue w)) <$> ws) = 0%nat) as Hsum.
  { induction ws as [|w ws IH]; intros Hws; [done|]. csimpl. rewrite (Hws w) by left. rewrite IH; [done|]. intros w' ?. apply Hws. by right. }
  apply Hsum. intros w [j Hj]%list_elem_of_lookup. by destruct (stuck_worker p n j w Hn Hj) as (_ & ? & _).
Qed.

(** The stage of the first transaction with locks. *)
Lemma stuck_first p n L t : sys_nodes s !! p = Some n → node_ok p n (S p) L → t ∈ L → (∀ t', t' ∈ L → (pos t ≤ pos t')%nat) →
  ∃ i m w, S p t = Active i m ∧ n_workers n !! i = Some w.
Proof.
  intros Hn HN Ht Hmin. pose proof (no_sched HN) as HS. assert (¬ waits (IsLocal N p) L t) as Hw.
  { intros (k & a & Ha & Hlt & _)%(sorted_waits N plan db HP); [|by eapply locked_sub|done]. specialize (Hmin a Ha). lia. }
  destruct (S p t) as [|i ws d|i m|] eqn:Hst.
  - exfalso. assert (t ∈ txns_queue n ++ ready_txns (lm n)) as Hin by (by apply (so_queued HS)). rewrite (no_ready HN), app_nil_r in Hin.
    destruct (lookup_lt_is_Some_2 _ _ (ws_some (no_workers HN))) as [w Hwk]. destruct (stuck_worker p n 0 w Hn Hwk) as (_ & _ & Htq).
    rewrite Htq in Hin. by apply elem_of_nil in Hin.
  - exfalso. by eapply stuck_not_busy.
  - destruct (lookup_lt_is_Some_2 (n_workers n) i) as [w Hwk]; [apply (ws_owner (no_workers HN) t); by rewrite Hst|]. by exists i, m, w.
  - exfalso. assert (t ∈ done_queue n) as Hin by (by apply (so_done HS)). destruct (stuck_scheduler p n Hn) as [Hdq _]. rewrite Hdq in Hin. by apply elem_of_nil in Hin.
Qed.

Lemma stuck_unlocked p n L t : sys_nodes s !! p = Some n → node_ok p n (S p) L → t ∉ L.
Proof.
  remember (pos t) as j eqn:Hj. revert p n L t Hj. induction j as [j IH] using lt_wf_ind. intros p n L t -> Hn HN Ht.
  assert (∀ p n L t', sys_nodes s !! p = Some n → node_ok p n (S p) L → t' ∈ L → (pos t ≤ pos t')%nat) as Hmin.
  { intros p' n' L' t' Hn' HN' Ht'. destruct (decide (pos t ≤ pos t')%nat); [done|]. exfalso. by eapply (IH (pos t')); [lia|..]. }
  destruct (stuck_first p n L t Hn HN Ht) as (i & m & w & Hst & Hw); [intros t'; by apply (Hmin p n L)|]. pose proof (no_sched HN) as HS.
  assert (held (S p t)) as Hh by (by rewrite Hst). pose proof (held_in N plan _ _ _ _ _ _ _ HS t Hh) as Hin.
  pose proof (do_stage (no_data HN) t Hin) as Hok. rewrite Hst in Hok. destruct Hok as [Ho Hnr'].
  assert (∃ k, k ∈ txn_keys t ∧ objects m !! k = None) as (k & Hk & Hnone).
  { destruct (decide (Forall (λ k, is_Some (objects m !! k)) (txn_keys t))) as [Hall|Hn'].
    - exfalso. rewrite Forall_forall in Hall. apply (ready_spec N plan db HP p t _ m Hin Ho) in Hall. congruence.
    - apply not_Forall_Exists in Hn'; [|apply _]. apply Exists_exists in Hn' as (k & Hk & Hn'). exists k. split; [done|]. by apply eq_None_not_Some. }
  set (r := LookupPartition N k). assert (k ∈ local_keys r t) as Hkr by (by apply local_keys_elem).
  assert (r ≠ p) as Hrp by (intros Heq; rewrite (oo_local Ho k) in Hnone; [done|]; by rewrite <- Heq).
  assert (expected N plan r p t) as He.
  { split; [done|]. split; [apply (readers_elem N plan db HP); [done|intros Heq; rewrite Heq in Hkr; by apply elem_of_nil in Hkr]|]. split; [|done].
    destruct (Hnr p t) as [?|Hl]; [|done|]; [eapply (taken_in N plan); [done|]; by apply (so_started HS t); rewrite Hst|].
    exfalso. rewrite <- Hl in Hk. by rewrite (oo_local Ho k Hk) in Hnone. }
  pose proof (participant_of N plan db HP t k Hin Hk) as Hr. fold r in Hr. pose proof Hr as [_ Hrn%(node_range N plan db HP t)]%sequence_at_elem; [|done].
  apply (sy_nodes HI) in Hrn as [n' Hn']. destruct (sy_node HI r n' Hn') as [L' HN'].
  pose proof (mo_count (sy_messages HI) r p t n He Hn) as Hc. rewrite (stuck_socket p n r Hn), Hst in Hc. simpl absorbed in Hc.
  rewrite decide_False in Hc by (rewrite Forall_forall; intros Hall; destruct (Hall k Hkr); congruence).
  rewrite (stuck_arrived p n L t i m) in Hc by done. change (occ _ []) with 0%nat in Hc.
  assert (S r t = Pending) as Hpend by (destruct (S r t) eqn:Hsr; simpl in Hc; try done; exfalso; by eapply stuck_not_busy).
  assert (t ∈ taken r (batch_number n') (batch_offset n')) as HtT by (eapply stuck_taken; [done..|intros t'; by apply (Hmin r n' L')]).
  destruct (decide (t ∈ L')) as [HtL|HtL]; [|rewrite (so_released (no_sched HN') t HtT HtL) in Hpend; done].
  destruct (stuck_first r n' L' t Hn' HN' HtL) as (? & ? & ? & Hact & _); [intros t'; by apply (Hmin r n' L')|]. congruence.
Qed.

(** Where nothing can change, everything is done. *)
Lemma stuck_done p n : sys_nodes s !! p = Some n → idle_node n ∧ storage n = filter (λ kv, LookupPartition N kv.1 = p) (database (length sequence)).
Proof.
  intros Hn. destruct (sy_node HI p n Hn) as [L HN]. destruct L as [|t L]; [|exfalso; eapply stuck_unlocked; [done..|by left]].
  pose proof (no_sched HN) as HS. destruct (stuck_scheduler p n Hn) as [Hdq Hb].
  destruct Hb as [(Hm & Hb & Hsock)|Hfull]; [|pose proof (no_count HN); simpl in *; lia].
  assert (Z.of_nat (length plan) ≤ batch_number n) as Hbn by (by eapply stuck_waits_nothing). split.
  - destruct (lookup_lt_is_Some_2 _ _ (ws_some (no_workers HN))) as [w0 Hw0]. destruct (stuck_worker p n 0 w0 Hn Hw0) as (_ & _ & Htq).
    split_and!; [done..| |].
    + apply map_eq. intros t. rewrite (li_waits _ _ _ _ _ (lo_inv _ _ _ (so_locks HS))), lookup_empty, decide_False; [done|]. by intros [?%elem_of_nil _].
    + apply Forall_lookup. intros i w Hw. destruct (stuck_worker p n i w Hn Hw) as (Hi & _). split; [done|]. apply map_eq. intros c. rewrite lookup_empty.
      apply eq_None_not_Some. intros [m (t & _ & _ & Hst)%(wo_active (ws_worker (no_workers HN) i w Hw))].
      eapply elem_of_nil, (proj1 (held_locked N plan _ _ _ _ _ _ _ HS t _)). Unshelve. by rewrite Hst.
  - apply (applied_storage p n (S p)); [done..|]. rewrite taken_all by done. rewrite firstn_all. apply sequence_at_filter.
Qed.

End stuck.

End properties.

(** ** When nothing can change *)

Definition quiet_worker (w : Worker) : Prop := (if w_state w is WIdle then True else False) ∧ message_queue w = [] ∧ link_unlink_queue w = [].

#[global] Instance quiet_worker_dec w : Decision (quiet_worker w).
Proof. unfold quiet_worker. destruct (w_state w); apply _. Defined.

Section quiescent.
Context (N : Z) `{Application} (plan : list (list TxnProto)).

Definition quiet_node (n : Node) : Prop :=
  Z.of_nat (length plan) ≤ seq_batch_number n ∧ inproc_in n = [] ∧ txns_queue n = [] ∧ done_queue n = [] ∧ ready_txns (lm n) = [] ∧
  ¬ is_Some (batch_message n) ∧ ¬ is_Some (batches n !! batch_number n) ∧ length (batch_socket n) = 0%nat ∧ Forall quiet_worker (n_workers n).

Definition quiescent (s : System) : Prop := map_Forall (λ _ n, quiet_node n) (sys_nodes s) ∧ map_Forall (λ _ l, l = []) (sockets s).

#[global] Instance quiescent_dec s : Decision (quiescent s).
Proof. unfold quiescent, quiet_node. apply _. Defined.

Lemma quiescent_stuck s : quiescent s → stuck N plan s.
Proof.
  intros [Hns Hsk] e s'. unfold step. destruct (sys_nodes s !! node_of e) as [n|] eqn:Hn; [|done].
  destruct (Hns _ _ Hn) as (Hseq & Hin & Htq & Hdq & Hr & Hm & Hb & Hbs & Hws). apply eq_None_not_Some in Hm, Hb. apply nil_length_inv in Hbs.
  assert (set_node s (node_of e) n [] = s) as Hid by (destruct s as [ns socks]; unfold set_node; simpl in *; by rewrite insert_id).
  rewrite Forall_lookup in Hws. destruct e as [p|p|p i|p from|p|p i]; simpl in *.
  - unfold RunReader. rewrite lookup_ge_None_2 by lia. done.
  - unfold LockManagerThread. rewrite Hdq, Hm. unfold get_batch, GetBatch. rewrite Hb, Hbs. simpl. intros [= <-]. rewrite <- Hid at 2. f_equal.
    rewrite start_ready_id by done. destruct n. simpl in *. by subst.
  - destruct (n_workers n !! i) as [w|] eqn:Hw; [|done]. destruct (Hws i w Hw) as (Hi & Hmq & _). unfold RunWorkerThread. destruct (w_state w); try done.
    rewrite Hmq, Htq. simpl. by intros [= <-].
  - destruct (sockets s !! (from, p)) as [l|] eqn:Hl; [|done]. by rewrite (Hsk _ _ Hl).
  - by rewrite Hin.
  - destruct (n_workers n !! i) as [w|] eqn:Hw; [|done]. destruct (Hws i w Hw) as (_ & _ & Hlq). by rewrite Hlq.
Qed.

End quiescent.

(** ** What Calvin promises *)

Section promises.
Context (N : Z) `{Application} (plan : list (list TxnProto)) (db : gmap Key Value).

(** What node [p] has of a database. *)
Definition part_of (p : Z) (d : gmap Key Value) : gmap Key Value := filter (λ kv, LookupPartition N kv.1 = p) d.

(** C2. In every run, with any interleaving of the threads of all nodes, no thread
    crashes, and whenever a node has nothing under way, its storage is its part
    of the database that results from executing, one after the other, the
    transactions of the agreed sequence up to where the node has taken them. *)
Theorem calvin_serializable es : planned N plan db →
  match run N plan (new_system N db) es with
  | Crash => False
  | Blocks => True
  | Done s => ∀ p n j d, sys_nodes s !! p = Some n → idle_node n → (j ≤ length (sequence N plan))%nat →
      taken N plan p (batch_number n) (batch_offset n) = filter (λ t, p ∈ participants N t) (take j (sequence N plan)) →
      serial (take j (sequence N plan)) db = Some d → storage n = part_of p d
  end.
Proof.
  intros HP. pose proof (run_system N plan db HP es _ _ (new_system_ok N plan db HP)) as Hr. destruct (run _ _ _ _) as [s| |]; [|done..].
  destruct Hr as [S HI]. intros p n j d Hn Hidle Hj HT Hd. destruct (sy_node HI p n Hn) as [L HN].
  pose proof (idle_unlocked N plan db p n (S p) L HN Hidle) as ->. rewrite (database_Some N plan db HP) in Hd. injection Hd as <-.
  by apply (applied_storage N plan db HP p n (S p)).
Qed.

(** C20. The execution of a plan ends: no more than a fixed number of steps change
    the system, whatever the threads do. *)
Theorem calvin_terminates : planned N plan db → ∃ bound, ∀ m s, evolves N plan (new_system N db) m s → (m ≤ bound)%nat.
Proof. intros HP. eexists. intros m s Hev. destruct (evolves_ok N plan db HP m s Hev) as (S & _ & Hle). etrans; [|exact Hle]. lia. Qed.

(** No run crashes, and where nothing can change all is done. *)
Lemma calvin_run es : planned N plan db →
  match run N plan (new_system N db) es with
  | Crash => False
  | Blocks => True
  | Done s => stuck N plan s → (∀ p t, t ∈ sequence_at N plan p → p ∈ writers t ∨ local_keys N p t = txn_keys t) →
      ∀ p n, sys_nodes s !! p = Some n → idle_node n ∧ Some (storage n) = part_of p <$> serial (sequence N plan) db
  end.
Proof.
  intros HP. pose proof (run_system N plan db HP es _ _ (new_system_ok N plan db HP)) as Hok. destruct (run _ _ _ _) as [s| |]; [|done..].
  destruct Hok as [S HI]. intros Hst Hw p n Hn. destruct (stuck_done N plan db HP S s HI Hst Hw p n Hn) as [Hidle ->]. split; [done|].
  pose proof (database_Some N plan db HP (length (sequence N plan))) as Hd. rewrite firstn_all in Hd. by rewrite Hd.
Qed.

(** C19. It ends only when all is done: if every node that takes part in a
    transaction writes for it or has all its keys, then a system that no step of
    any thread can change has applied every transaction at every node, and the
    storages are the parts of the final database of the serial execution. *)
Theorem calvin_completes es s : planned N plan db → (∀ p t, t ∈ sequence_at N plan p → p ∈ writers t ∨ local_keys N p t = txn_keys t) →
  run N plan (new_system N db) es = Done s → stuck N plan s →
  ∀ p n, sys_nodes s !! p = Some n → idle_node n ∧ Some (storage n) = part_of p <$> serial (sequence N plan) db.
Proof.
  intros HP Hw Hr Hst. pose proof (calvin_run es HP) as Hrun. rewrite Hr in Hrun. by apply Hrun.
Qed.

(** C23. A node that only reads for a transaction with keys elsewhere never ends it:
    in every run, once the scheduler has taken it, it never is in [done_queue],
    and every later transaction that conflicts with it at the node waits for
    locks. *)
Theorem calvin_reader_hangs es s p n t : planned N plan db → run N plan (new_system N db) es = Done s → sys_nodes s !! p = Some n →
  t ∈ sequence N plan → p ∉ writers t → local_keys N p t ≠ txn_keys t → let T := taken N plan p (batch_number n) (batch_offset n) in
  t ∉ done_queue n ∧
  ∀ t' k, t ∈ T → t' ∈ T → (pos N plan t < pos N plan t')%nat → conflict (IsLocal N p) k t t' → is_Some (txn_waits (lm n) !! t').
Proof.
  intros HP Hr Hn Ht Hpw Hlk T. pose proof (run_system N plan db HP es _ _ (new_system_ok N plan db HP)) as Hok. rewrite Hr in Hok. destruct Hok as [S HI].
  destruct (sy_node HI p n Hn) as [L HN]. pose proof (no_sched HN) as HS. assert (S p t ≠ Applied) as Hna.
  { intros Ha. destruct (do_alone (no_data HN) t); [by right|done..]. }
  split; [intros [_ ?]%(so_done HS); done|]. intros t' k HtT HtT' Hlt Hc.
  assert (t' ∈ sequence N plan) as Ht' by (eapply sequence_at_in; by eapply (taken_in N plan)).
  assert (t ∈ L) as HtL by (destruct (decide (t ∈ L)); [done|]; by destruct (Hna (so_released HS t HtT ltac:(done)))).
  assert (t' ∈ L) as HtL'.
  { destruct (decide (t' ∈ L)) as [?|Hn']; [done|]. pose proof (so_released HS t' HtT' Hn') as Ha. destruct Hna. by eapply (do_order (no_data HN) k t t'). }
  pose proof (lo_inv _ _ _ (so_locks HS)) as HI'. rewrite (li_waits _ _ _ _ _ HI' t'), decide_True; [by eauto|]. split; [done|].
  by apply (waits_for N plan db HP p (lm n) _ _ _ _ L HS k t t').
Qed.

End promises.

(** ** Examples *)

(** The events of [es] that do not block. *)
Fixpoint enabled (N : Z) `{Application} (plan : list (list TxnProto)) (s : System) (es : list event) : list event :=
  match es with
  | [] => []
  | e :: es => match step N plan s e with Done s => e :: enabled N plan s es | _ => enabled N plan s es end
  end.

Section example.
#[local] Instance example_app : Application := Microbenchmark.

Definition example_keys (first step : Z) : list Key := (λ i, to_string (first + step * i)) <$> seqZ 0 10.
Definition example_txn (id : Z) (rs ws : list Key) : TxnProto := mkTxnProto id 1 rs [] ws "" [] [].
Definition example_db : gmap Key Value := list_to_map ((λ i, (to_string i, to_string i)) <$> seqZ 0 20).

(** Two nodes; a transaction at both of them, then one at node 1. *)
Definition example_plan : list (list TxnProto) := [[example_txn 0 [] (example_keys 0 1)]; [example_txn 200 [] (example_keys 1 2)]].

(** Node 1 only reads for the first transaction. *)
Definition example_reader : list (list TxnProto) := [[example_txn 0 ["1"] (example_keys 0 2)]; [example_txn 200 [] (example_keys 1 2)]].

Definition example_round : list event :=
  [EScheduler 0; EScheduler 1; EWorker 0 0; EWorker 1 0; ERemote 0 1; ERemote 1 0; EInproc 0; EInproc 1; ELink 0 0; ELink 1 0].

Definition example_events (plan : list (list TxnProto)) : list event :=
  enabled 2 plan (new_system 2 example_db) ([ESequencer 0; ESequencer 1] ++ concat (replicate 100 example_round)).

Definition example_run (plan : list (list TxnProto)) : blocking System := run 2 plan (new_system 2 example_db) (example_events plan).

Lemma planned_by plan : NoDup (channel_of <$> concat plan) → Forall (λ t, readers t = [] ∧ writers t = []) (concat plan) →
  Forall (λ t, NoDup (read_write_set t ++ read_set t)) (concat plan) →
  Forall (λ t, Forall (λ k, 0 ≤ LookupPartition 2 k) (read_set t ++ write_set t ++ read_write_set t)) (concat plan) →
  Forall (λ t, Forall (λ k, is_Some (example_db !! k)) (txn_keys t)) (concat plan) → is_Some (serial (sequence 2 plan) example_db) →
  planned 2 plan example_db.
Proof.
  intros H1 H2 H3 H4 H5 H6. rewrite Forall_forall in H2, H3, H4, H5. split; [done|done|done|done|..|done].
  - intros t k Ht Hk. specialize (H4 t Ht). rewrite Forall_forall in H4. by apply H4.
  - intros t k Ht Hk. specialize (H5 t Ht). rewrite Forall_forall in H5. by apply elem_of_dom, H5.
  - intros t Ht. apply (micro_confined (add_participants 2 t)).
Qed.

Lemma example_planned : planned 2 example_plan example_db.
Proof. apply planned_by; apply (bool_decide_eq_true_1 _); vm_compute; reflexivity. Qed.

Lemma example_reader_planned : planned 2 example_reader example_db.
Proof. apply planned_by; apply (bool_decide_eq_true_1 _); vm_compute; reflexivity. Qed.

(** The example ends with both transactions done. *)
Lemma example_ends : ∃ s, example_run example_plan = Done s ∧ quiescent example_plan s ∧
  ∃ n0 n1, sys_nodes s !! 0 = Some n0 ∧ sys_nodes s !! 1 = Some n1 ∧ storage n0 !! "4" = Some "5" ∧ storage n1 !! "5" = Some "7" ∧
    batch_number n1 = 2 ∧ batch_offset n1 = 0%nat.
Proof.
  assert (match example_run example_plan with
    | Done s => bool_decide (quiescent example_plan s) &&
        match sys_nodes s !! 0, sys_nodes s !! 1 with
        | Some n0, Some n1 => bool_decide (storage n0 !! "4" = Some "5") && bool_decide (storage n1 !! "5" = Some "7") &&
            bool_decide (batch_number n1 = 2) && bool_decide (batch_offset n1 = 0%nat)
        | _, _ => false
        end
    | _ => false
    end = true) as Hr by (vm_compute; reflexivity).
  destruct (example_run example_plan) as [s| |]; [|done..]. exists s. split; [done|]. apply andb_true_iff in Hr as [Hq%bool_decide_eq_true Hr].
  split; [done|]. destruct (sys_nodes s !! 0) as [n0|]; [|done]. destruct (sys_nodes s !! 1) as [n1|]; [|done]. exists n0, n1.
  rewrite !andb_true_iff, !bool_decide_eq_true in Hr. naive_solver.
Qed.

Lemma example_writers p t : t ∈ sequence_at 2 example_plan p → p ∈ writers t ∨ local_keys 2 p t = txn_keys t.
Proof.
  intros [Ht Hp]%sequence_at_elem. left. assert (Forall (λ t, Forall (λ p, p ∈ writers t) (participants 2 t)) (sequence 2 example_plan)) as Hf
    by (apply (bool_decide_eq_true_1 _); vm_compute; reflexivity).
  rewrite Forall_forall in Hf. specialize (Hf t Ht). rewrite Forall_forall in Hf. by apply Hf.
Qed.

Lemma calvin_serializable_witness : planned 2 example_plan example_db ∧
  ∃ s n, example_run example_plan = Done s ∧ sys_nodes s !! 1 = Some n ∧ idle_node n ∧
    Some (storage n) = part_of 2 1 <$> serial (sequence 2 example_plan) example_db.
Proof.
  split; [apply example_planned|]. destruct example_ends as (s & Hr & Hq & _ & n & _ & Hn & _ & _ & Hb & Ho). exists s, n. split; [exact Hr|].
  split; [exact Hn|]. unfold example_run in Hr. assert (idle_node n) as Hi.
  { pose proof (calvin_run 2 example_plan example_db (example_events example_plan) example_planned) as Hrun. rewrite Hr in Hrun.
    destruct (Hrun (quiescent_stuck 2 example_plan s Hq) example_writers 1 n Hn) as [Hi _]. exact Hi. }
  split; [exact Hi|]. pose proof (calvin_serializable 2 example_plan example_db (example_events example_plan) example_planned) as Hc.
  rewrite Hr in Hc. destruct (pl_serial _ _ _ example_planned) as [d Hd]. rewrite Hd. simpl. f_equal.
  apply (Hc 1 n (length (sequence 2 example_plan)) d Hn Hi); [done| |by rewrite firstn_all].
  rewrite Hb, Ho. vm_compute. reflexivity.
Defined.

Lemma calvin_terminates_witness : planned 2 example_plan example_db ∧
  ∃ bound, ∀ m s, evolves 2 example_plan (new_system 2 example_db) m s → (m ≤ bound)%nat.
Proof. split; [apply example_planned|]. apply calvin_terminates. apply example_planned. Defined.

Lemma calvin_completes_witness : ∃ s n, example_run example_plan = Done s ∧ stuck 2 example_plan s ∧ sys_nodes s !! 1 = Some n ∧
  idle_node n ∧ storage n !! "5" = Some "7" ∧ Some (storage n) = part_of 2 1 <$> serial (sequence 2 example_plan) example_db.
Proof.
  destruct example_ends as (s & Hr & Hq & _ & n & _ & Hn & _ & H5 & _). exists s, n.
  assert (stuck 2 example_plan s) as Hst by (by apply quiescent_stuck). split; [done|]. split; [done|]. split; [done|].
  destruct (calvin_completes 2 example_plan example_db (example_events example_plan) s example_planned example_writers Hr Hst 1 n Hn) as [Hi Hsto].
  split; [exact Hi|]. split; [exact H5|exact Hsto].
Defined.

Lemma calvin_reader_hangs_witness : ∃ s n t', example_run example_reader = Done s ∧ quiescent example_reader s ∧ sys_nodes s !! 1 = Some n ∧
  txn_id t' = 200 ∧ is_Some (txn_waits (lm n) !! t').
Proof.
  set (t := add_participants 2 (example_txn 0 ["1"] (example_keys 0 2))). set (t' := add_participants 2 (example_txn 200 [] (example_keys 1 2))).
  assert (match example_run example_reader with
    | Done s => bool_decide (quiescent example_reader s) &&
        match sys_nodes s !! 1 with Some n => bool_decide (batch_number n = 2) && bool_decide (batch_offset n = 0%nat) | _ => false end
    | _ => false
    end = true) as Hr by (vm_compute; reflexivity).
  destruct (example_run example_reader) as [s| |] eqn:Hs; [|done..]. apply andb_true_iff in Hr as [Hq%bool_decide_eq_true Hr].
  destruct (sys_nodes s !! 1) as [n|] eqn:Hn; [|done]. apply andb_true_iff in Hr as [Hb%bool_decide_eq_true Ho%bool_decide_eq_true].
  exists s, n, t'. split; [done|]. split; [done|]. split; [done|]. split; [done|].
  assert (t ∈ sequence 2 example_reader) as Ht by (apply (bool_decide_eq_true_1 _); vm_compute; reflexivity).
  destruct (calvin_reader_hangs 2 example_reader example_db (example_events example_reader) s 1 n t example_reader_planned Hs Hn Ht) as [_ Hw].
  - apply (bool_decide_eq_true_1 _). vm_compute. reflexivity.
  - vm_compute. discriminate.
  - rewrite Hb, Ho in Hw. apply (Hw t' "1"); [apply (bool_decide_eq_true_1 _); vm_compute; reflexivity..|vm_compute; lia|].
    split; [|split; [|right]]; apply (bool_decide_eq_true_1 _); vm_compute; reflexivity.
Defined.

End example.
