(* ===== verification/CalvinMicro.v ===== *)
(** * Calvin: the microbenchmark

    src/calvin/src_calvin: applications/microbenchmark.cc, the client of
    deployment/main.cc and the collection of batches of sequencer/sequencer.cc;
    then the benchmark as a whole: what the records are when it is over. *)

From S2P Require Import Prelude AppReplica TimeServer CalvinTxn CalvinLocks CalvinLocksProps CalvinSystem CalvinSerial CalvinInv CalvinEvents CalvinProps.

(** ** The workload

    The results of [rand] are given as a list; [Blocks] where it is used up. *)

Notation MAX_BATCH_SIZE := 200 (only parsing).
Notation MICROTXN_SP := 1 (only parsing).
Notation MICROTXN_MP := 2 (only parsing).

Section workload.
(** [kDBSize] is 1000000, [hot_records] is [HOT], 10000. *)
Context (nparts hot_records kDBSize : Z).

Definition rand (rs : list Z) : blocking (Z * list Z) := match rs with [] => Blocks | r :: rs => Done (r, rs) end.

(** The loop that finds a key that is not in [keys]. *)
Fixpoint new_key (keys : list Z) (key_start key_limit part : Z) (rs : list Z) : blocking (Z * list Z) :=
  match rs with
  | [] => Blocks
  | r :: rs =>
      let key := key_start + part + nparts * Z.rem r (Z.quot (key_limit - key_start) nparts) in
      if decide (key ∈ keys) then new_key keys key_start key_limit part rs else Done (key, rs)
  end.

Fixpoint random_keys (num_keys : nat) (keys : list Z) (key_start key_limit part : Z) (rs : list Z) : blocking (list Z * list Z) :=
  match num_keys with
  | O => Done (int_set keys, rs)
  | S n => x ← new_key keys key_start key_limit part rs; random_keys n (x.1 :: keys) key_start key_limit part x.2
  end.

Definition GetRandomKeys (num_keys : nat) (key_start key_limit part : Z) (rs : list Z) : blocking (list Z * list Z) :=
  if (Z.rem key_start nparts =? 0)%Z then random_keys num_keys [] key_start key_limit part rs else Crash.

Definition micro_txn (txn_id txn_type : Z) (keys : list Z) : TxnProto :=
  mkTxnProto txn_id txn_type [] [] ((λ k, IntToString k) <$> keys) "" [] [].

Definition MicroTxnSP (txn_id part : Z) (rs : list Z) : blocking (TxnProto * list Z) :=
  x ← rand rs;
  let hotkey := part + nparts * Z.rem x.1 hot_records in
  y ← GetRandomKeys (kRWSetSize - 1) (nparts * hot_records) (nparts * kDBSize) part x.2;
  Done (micro_txn txn_id MICROTXN_SP (hotkey :: y.1), y.2).

Definition MicroTxnMP (txn_id part1 part2 : Z) (rs : list Z) : blocking (TxnProto * list Z) :=
  if negb (part1 =? part2)%Z || (nparts =? 1)%Z then
    x1 ← rand rs;
    let hotkey1 := part1 + nparts * Z.rem x1.1 hot_records in
    x2 ← rand x1.2;
    let hotkey2 := part2 + nparts * Z.rem x2.1 hot_records in
    y1 ← GetRandomKeys (kRWSetSize / 2 - 1) (nparts * hot_records) (nparts * kDBSize) part1 x2.2;
    y2 ← GetRandomKeys (kRWSetSize / 2 - 1) (nparts * hot_records) (nparts * kDBSize) part2 y1.2;
    Done (micro_txn txn_id MICROTXN_MP (hotkey1 :: hotkey2 :: y1.1 ++ y2.1), y2.2)
  else Crash.

(** The storage of all nodes together, after [InitializeStorage] at each. *)
Definition InitializeStorage : gmap Key Value :=
  list_to_map ((λ i, (IntToString i, IntToString i)) <$> seqZ 0 (nparts * kDBSize)).

(** The client; [this] is its node. *)
Context (percent_mp : Z).

(** The loop that picks another node. *)
Fixpoint other_node (this : Z) (rs : list Z) : blocking (Z * list Z) :=
  match rs with
  | [] => Blocks
  | r :: rs => let other := Z.rem r nparts in if (other =? this)%Z then other_node this rs else Done (other, rs)
  end.

Definition GetTxn (this txn_id : Z) (rs : list Z) : blocking (TxnProto * list Z) :=
  let single rs := MicroTxnSP txn_id this rs in
  if (1 <? nparts)%Z then
    x ← rand rs;
    if (Z.rem x.1 100 <? percent_mp)%Z then y ← other_node this x.2; MicroTxnMP txn_id this y.1 y.2 else single x.2
  else single rs.

(** [n] rounds of the loop of [RunWriter] that collects a batch, as many as there
    is time for in the epoch. *)
Fixpoint collect (this batch_number : Z) (n : nat) (txn_id_offset : Z) (data : list TxnProto) (rs : list Z) : blocking (list TxnProto * list Z) :=
  match n with
  | O => Done (data, rs)
  | S n =>
      if (Z.of_nat (length data) <? MAX_BATCH_SIZE)%Z then
        x ← GetTxn this (i32 (batch_number * MAX_BATCH_SIZE + txn_id_offset)) rs;
        if (txn_id x.1 =? -1)%Z then collect this batch_number n txn_id_offset data x.2
        else collect this batch_number n (txn_id_offset + 1) (data ++ [x.1]) x.2
      else collect this batch_number n txn_id_offset data rs
  end.

(** Batch [b] is collected by node [b mod nparts]. *)
Definition collected (plan : list (list TxnProto)) : Prop :=
  ∀ b data, plan !! b = Some data → ∃ n rs rs', Forall (λ r, 0 ≤ r) rs ∧
    collect (Z.of_nat b `mod` nparts) (Z.of_nat b) n 0 [] rs = Done (data, rs').

End workload.

(** ** The transactions of the workload *)

Section keys.
Context (nparts hot_records kDBSize percent_mp : Z) (Hn : 0 < nparts) (Hh : 0 < hot_records) (Hd : hot_records < kDBSize).
Implicit Types (part : Z) (rs ks : list Z).

(** A key of partition [part] whose number in it is in a range. *)
Definition key_in part (lo hi : Z) (k : Z) : Prop := ∃ x, lo ≤ x < hi ∧ k = part + nparts * x.

Definition randoms rs : Prop := Forall (λ r, 0 ≤ r) rs.

Lemma key_unique part part' x y : 0 ≤ part < nparts → 0 ≤ part' < nparts → part + nparts * x = part' + nparts * y → part = part' ∧ x = y.
Proof. intros H1 H2 He. destruct (Z.div_mod_unique nparts x y part part'); [lia..|]. by split. Qed.

Lemma rand_ok rs x : rand rs = Done x → randoms rs → 0 ≤ x.1 ∧ randoms x.2.
Proof. destruct rs as [|r rs]; [done|]. intros [= <-] [? ?]%Forall_cons. done. Qed.

Lemma new_key_ok keys part rs x : new_key nparts keys (nparts * hot_records) (nparts * kDBSize) part rs = Done x → randoms rs →
  x.1 ∉ keys ∧ key_in part hot_records kDBSize x.1 ∧ randoms x.2.
Proof.
  induction rs as [|r rs IH]; simpl; [done|]. intros Hx [Hr Hrs]%Forall_cons. destruct (decide _); [by apply IH|]. injection Hx as <-. simpl.
  split; [done|]. split; [|done]. replace (nparts * kDBSize - nparts * hot_records) with ((kDBSize - hot_records) * nparts) by ring.
  rewrite Z.quot_mul by lia. exists (hot_records + Z.rem r (kDBSize - hot_records)).
  pose proof (Z.rem_bound_pos r (kDBSize - hot_records)). split; [lia|ring].
Qed.

Lemma random_keys_ok part num keys rs x : random_keys nparts num keys (nparts * hot_records) (nparts * kDBSize) part rs = Done x →
  randoms rs → NoDup keys → Forall (key_in part hot_records kDBSize) keys →
  NoDup x.1 ∧ length x.1 = (num + length keys)%nat ∧ Forall (key_in part hot_records kDBSize) x.1 ∧ randoms x.2.
Proof.
  revert keys rs. induction num as [|num IH]; intros keys rs; simpl.
  - intros [= <-] Hrs Hnd Hk. simpl. assert (int_set keys ≡ₚ keys) as Hp by (apply NoDup_Permutation; [apply int_set_NoDup|done|apply int_set_elem]).
    rewrite Hp. done.
  - intros (y & Hy & Hx)%bind_Done Hrs Hnd Hk. destruct (new_key_ok keys part rs y Hy Hrs) as (Hf & Hc & Hrs').
    destruct (IH _ _ Hx Hrs') as (H1 & H2 & H3 & H4); [by constructor|by constructor|]. simpl in H2. split_and!; [done|lia|done..].
Qed.

Lemma GetRandomKeys_ok num part rs x : GetRandomKeys nparts num (nparts * hot_records) (nparts * kDBSize) part rs = Done x → randoms rs →
  NoDup x.1 ∧ length x.1 = num ∧ Forall (key_in part hot_records kDBSize) x.1 ∧ randoms x.2.
Proof.
  unfold GetRandomKeys. rewrite Z.mul_comm, Z.rem_mul, Z.eqb_refl, Z.mul_comm by lia. intros Hx Hrs.
  destruct (random_keys_ok part num [] rs x Hx Hrs) as (? & ? & ? & ?); [constructor|constructor|]. simpl in *. split_and!; [done|lia|done..].
Qed.

(** The keys of a transaction of the workload. *)
Definition good_keys ks : Prop := NoDup ks ∧ length ks = kRWSetSize ∧ Forall (λ k, 0 ≤ k < nparts * kDBSize) ks.

Lemma key_in_range part lo hi k : 0 ≤ part < nparts → 0 ≤ lo → hi ≤ kDBSize → key_in part lo hi k → 0 ≤ k < nparts * kDBSize.
Proof. intros Hp Hlo Hhi (x & Hx & ->). nia. Qed.

Lemma hot_key_in part r : 0 ≤ r → key_in part 0 hot_records (part + nparts * Z.rem r hot_records).
Proof. intros Hr. exists (Z.rem r hot_records). pose proof (Z.rem_bound_pos r hot_records). split; [lia|done]. Qed.

Lemma keys_differ part part' lo hi lo' hi' k : 0 ≤ part < nparts → 0 ≤ part' < nparts → key_in part lo hi k → key_in part' lo' hi' k →
  part ≠ part' ∨ hi ≤ lo' ∨ hi' ≤ lo → False.
Proof. intros Hp Hp' (x & Hx & ->) (y & Hy & He) Hne. destruct (key_unique part part' x y Hp Hp' He) as [-> ->]. lia. Qed.

Lemma MicroTxnSP_ok id part rs x : MicroTxnSP nparts hot_records kDBSize id part rs = Done x → randoms rs → 0 ≤ part < nparts →
  ∃ ks, x.1 = micro_txn id MICROTXN_SP ks ∧ good_keys ks ∧ randoms x.2.
Proof.
  intros (r & Hr & (y & Hy & [= <-])%bind_Done)%bind_Done Hrs Hp. destruct (rand_ok rs r Hr Hrs) as [H0 Hrs1].
  destruct (GetRandomKeys_ok _ part _ y Hy Hrs1) as (Hnd & Hlen & Hk & Hrs2). eexists. split; [done|]. split; [|done].
  pose proof (hot_key_in part r.1 H0) as Hhot. rewrite Forall_forall in Hk. split_and!.
  - constructor; [|done]. intros Hin%Hk. exact (keys_differ _ _ _ _ _ _ _ Hp Hp Hhot Hin ltac:(lia)).
  - simpl. by rewrite Hlen.
  - constructor; [by apply (key_in_range part 0 hot_records); auto; lia|]. apply Forall_forall. intros k Hin%Hk. by apply (key_in_range part hot_records kDBSize); auto; lia.
Qed.

Lemma MicroTxnMP_ok id part1 part2 rs x : MicroTxnMP nparts hot_records kDBSize id part1 part2 rs = Done x → randoms rs →
  0 ≤ part1 < nparts → 0 ≤ part2 < nparts → part1 ≠ part2 → ∃ ks, x.1 = micro_txn id MICROTXN_MP ks ∧ good_keys ks ∧ randoms x.2.
Proof.
  intros Hx Hrs Hp1 Hp2 Hne. unfold MicroTxnMP in Hx. rewrite (proj2 (Z.eqb_neq _ _) Hne) in Hx. simpl in Hx.
  apply bind_Done in Hx as (r1 & Hr1 & (r2 & Hr2 & (y1 & Hy1 & (y2 & Hy2 & [= <-])%bind_Done)%bind_Done)%bind_Done).
  destruct (rand_ok _ _ Hr1 Hrs) as [H1 Hrs1]. destruct (rand_ok _ _ Hr2 Hrs1) as [H2 Hrs2].
  destruct (GetRandomKeys_ok _ part1 _ y1 Hy1 Hrs2) as (Hnd1 & Hlen1 & Hk1 & Hrs3). destruct (GetRandomKeys_ok _ part2 _ y2 Hy2 Hrs3) as (Hnd2 & Hlen2 & Hk2 & Hrs4).
  eexists. split; [done|]. split; [|done]. pose proof (hot_key_in part1 r1.1 H1) as Hh1. pose proof (hot_key_in part2 r2.1 H2) as Hh2.
  rewrite Forall_forall in Hk1, Hk2. split_and!.
  - constructor; [|constructor].
    + rewrite elem_of_cons, elem_of_app. intros [He|[Hin%Hk1|Hin%Hk2]].
      * rewrite He in Hh1. exact (keys_differ _ _ _ _ _ _ _ Hp1 Hp2 Hh1 Hh2 ltac:(lia)).
      * exact (keys_differ _ _ _ _ _ _ _ Hp1 Hp1 Hh1 Hin ltac:(lia)).
      * exact (keys_differ _ _ _ _ _ _ _ Hp1 Hp2 Hh1 Hin ltac:(lia)).
    + rewrite elem_of_app. intros [Hin%Hk1|Hin%Hk2]; [exact (keys_differ _ _ _ _ _ _ _ Hp2 Hp1 Hh2 Hin ltac:(lia))|exact (keys_differ _ _ _ _ _ _ _ Hp2 Hp2 Hh2 Hin ltac:(lia))].
    + apply NoDup_app. split_and!; [done| |done]. intros k Hin1%Hk1 Hin2%Hk2. exact (keys_differ _ _ _ _ _ _ _ Hp1 Hp2 Hin1 Hin2 ltac:(lia)).
  - simpl. by rewrite length_app, Hlen1, Hlen2.
  - constructor; [by apply (key_in_range part1 0 hot_records); auto; lia|]. constructor; [by apply (key_in_range part2 0 hot_records); auto; lia|].
    apply Forall_app. split; apply Forall_forall; intros k Hin.
    + apply (key_in_range part1 hot_records kDBSize); auto; lia.
    + apply (key_in_range part2 hot_records kDBSize); auto; lia.
Qed.

Lemma other_node_ok this rs x : other_node nparts this rs = Done x → randoms rs → 0 ≤ x.1 < nparts ∧ x.1 ≠ this ∧ randoms x.2.
Proof.
  induction rs as [|r rs IH]; simpl; [done|]. intros Hx [Hr Hrs]%Forall_cons. destruct (_ =? this)%Z eqn:Ho; [by apply IH|]. injection Hx as <-.
  apply Z.eqb_neq in Ho. pose proof (Z.rem_bound_pos r nparts). simpl. split; [lia|done].
Qed.

Definition workload_txn (t : TxnProto) : Prop := ∃ id ty ks, t = micro_txn id ty ks ∧ good_keys ks.

Lemma GetTxn_ok this id rs x : GetTxn nparts hot_records kDBSize percent_mp this id rs = Done x → randoms rs → 0 ≤ this < nparts →
  workload_txn x.1 ∧ txn_id x.1 = id ∧ randoms x.2.
Proof.
  intros Hx Hrs Hp. assert (∀ rs, randoms rs → MicroTxnSP nparts hot_records kDBSize id this rs = Done x → workload_txn x.1 ∧ txn_id x.1 = id ∧ randoms x.2) as Hsp.
  { intros rs' Hrs' Hx'. destruct (MicroTxnSP_ok id this rs' x Hx' Hrs' Hp) as (ks & -> & Hk & ?). split; [by eexists _, _, _|done]. }
  unfold GetTxn in Hx. destruct (1 <? nparts)%Z; [|by eapply Hsp]. apply bind_Done in Hx as (r & Hr & Hx). destruct (rand_ok rs r Hr Hrs) as [_ Hrs1].
  destruct (_ <? percent_mp)%Z; [|by eapply Hsp]. apply bind_Done in Hx as (y & Hy & Hx). destruct (other_node_ok this _ y Hy Hrs1) as (Hy1 & Hy2 & Hrs2).
  destruct (MicroTxnMP_ok id this y.1 _ x Hx Hrs2 Hp Hy1) as (ks & -> & Hk & ?); [done|]. split; [by eexists _, _, _|done].
Qed.

(** What a batch is like. *)
Definition batch_ok (b : Z) (data : list TxnProto) : Prop :=
  txn_id <$> data = (λ i, b * MAX_BATCH_SIZE + i) <$> seqZ 0 (Z.of_nat (length data)) ∧ (length data ≤ 200)%nat ∧ Forall workload_txn data.

Lemma batch_snoc b data t : batch_ok b data → (length data < 200)%nat → workload_txn t → txn_id t = b * MAX_BATCH_SIZE + Z.of_nat (length data) →
  batch_ok b (data ++ [t]).
Proof.
  intros (Hids & Hlen & Hw) Hlt Ht Hid. split_and!.
  - rewrite fmap_app, Hids, length_app. simpl. rewrite Nat2Z.inj_add, seqZ_app by lia. rewrite fmap_app. f_equal. simpl. by rewrite Hid.
  - rewrite length_app. simpl. lia.
  - apply Forall_app. split; [done|]. by constructor.
Qed.

Lemma collect_ok this b n data rs x : 0 ≤ this < nparts → 0 ≤ b → b * MAX_BATCH_SIZE + MAX_BATCH_SIZE ≤ 2 ^ 31 →
  collect nparts hot_records kDBSize percent_mp this b n (Z.of_nat (length data)) data rs = Done x → randoms rs → batch_ok b data → batch_ok b x.1.
Proof.
  intros Hp Hb Hb'. revert data rs. induction n as [|n IH]; intros data rs; simpl; [by intros [= <-]|]. destruct (_ <? MAX_BATCH_SIZE)%Z eqn:Hl; [|apply IH].
  apply Z.ltb_lt in Hl. intros (y & Hy & Hx)%bind_Done Hrs Hbk. destruct (GetTxn_ok _ _ _ _ Hy Hrs Hp) as (Hw & Hid & Hrs').
  rewrite i32_id in Hid by lia. rewrite Hid in Hx. destruct (_ =? -1)%Z eqn:He; [apply Z.eqb_eq in He; lia|].
  replace (Z.of_nat (length data) + 1) with (Z.of_nat (length (data ++ [y.1]))) in Hx by (rewrite length_app; simpl; lia).
  apply (IH _ _ Hx Hrs'). apply batch_snoc; [done|lia|done|done].
Qed.

End keys.

(** ** Keys as strings *)

Definition small (z : Z) : Prop := 0 ≤ z < 2 ^ 31.

Lemma StringToInt_IntToString z : small z → StringToInt (IntToString z) = z.
Proof.
  intros Hz. unfold small in Hz. rewrite i32_id by lia. destruct (to_string_spec z) as (c & s & -> & Hc & Hdg); [lia|].
  destruct (digit_plain c Hc) as (Hsp & Hm & Hpl). unfold atoi. simpl skip_space. rewrite Hsp, Hm, Hpl, Hdg.
  rewrite Z.min_r, Z.max_r by lia. apply i32_id. lia.
Qed.

Lemma IntToString_inj a b : small a → small b → IntToString a = IntToString b → a = b.
Proof. intros Ha Hb He. rewrite <- (StringToInt_IntToString a Ha), <- (StringToInt_IntToString b Hb). by rewrite He. Qed.

Lemma LookupPartition_key N z : small z → LookupPartition N (IntToString z) = Z.rem z N.
Proof.
  intros Hz. rewrite <- (StringToInt_IntToString z Hz) at 2. unfold small in Hz. rewrite i32_id by lia.
  destruct (to_string_spec z) as (c & s & -> & [d Hc] & _); [lia|]. destruct c as [[] [] [] [] [] [] [] []]; done.
Qed.

(** ** Execution *)

(** The records: [f k] is the number in record [k]. *)
Definition records (size : Z) (d : gmap Key Value) (f : Z → Z) : Prop :=
  ∀ k, 0 ≤ k < size → d !! IntToString k = Some (IntToString (f k)) ∧ small (f k).

Lemma micro_exec size t l : 0 ≤ size ≤ 2 ^ 31 → NoDup l → Forall (λ k, 0 ≤ k < size) l →
  ∀ pre d f, read_write_set t = pre ++ ((λ k, IntToString k) <$> l) → records size d f → (∀ k, k ∈ l → small (f k + 1)) →
  ∃ d', exec (micro_loop t (length l) (length pre)) d = Some d' ∧ records size d' (λ k, if decide (k ∈ l) then f k + 1 else f k).
Proof.
  intros Hsz Hnd Hl. induction l as [|k l IH]; intros pre d f Hrw Hd Hf.
  - exists d. split; [done|]. intros k Hk. rewrite decide_False by (by intros ?%elem_of_nil). by apply Hd.
  - apply NoDup_cons in Hnd as [Hk Hnd]. apply Forall_cons in Hl as [Hk0 Hl]. simpl micro_loop.
    rewrite Hrw, fmap_cons, list_lookup_middle by done. simpl exec. destruct (Hd k Hk0) as [Hdk Hsk]. rewrite Hdk. simpl exec.
    rewrite Hdk, StringToInt_IntToString by done.
    specialize (IH Hnd Hl (pre ++ [IntToString k]) (<[IntToString k := IntToString (f k + 1)]> d) (λ z, if decide (z = k) then f z + 1 else f z)).
    rewrite length_app, Nat.add_1_r in IH. destruct IH as (d' & Hex & Hd').
    + by rewrite <- app_assoc.
    + intros z Hz. destruct (decide (z = k)) as [->|Hne]; [rewrite lookup_insert_eq; split; [done|apply Hf; left]|]. rewrite lookup_insert_ne; [by apply Hd|].
      intros He. apply Hne. apply IntToString_inj; unfold small in *; [lia|lia|done].
    + intros z Hz. rewrite decide_False by (by intros ->). apply Hf. by right.
    + exists d'. split; [done|]. intros z Hz. specialize (Hd' z Hz). simpl in Hd'. destruct (decide (z = k)) as [->|Hne].
      * rewrite decide_False in Hd' by done. by rewrite decide_True by left.
      * rewrite (decide_ext (z ∈ k :: l) (z ∈ l)); [done|]. rewrite elem_of_cons. naive_solver.
Qed.

(** ** The benchmark *)

Section benchmark.
Context (nparts hot_records kDBSize percent_mp : Z) (plan : list (list TxnProto)).

#[local] Instance app : Application := Microbenchmark.

(** Partitions and records exist, and neither the keys nor the transaction ids nor
    the numbers in the records leave the range of [int]. *)
Record sized : Prop := {
  sz_parts : 0 < nparts;
  sz_hot : 0 < hot_records < kDBSize;
  sz_int : nparts * kDBSize + MAX_BATCH_SIZE * Z.of_nat (length plan) < 2 ^ 31
}.

Context (Hs : sized) (Hc : collected nparts hot_records kDBSize percent_mp plan).

Notation db := (InitializeStorage nparts kDBSize).
Notation size := (nparts * kDBSize).

Lemma size_range : 0 < size ∧ size + MAX_BATCH_SIZE * Z.of_nat (length plan) < 2 ^ 31.
Proof. destruct Hs as [H1 H2 H3]. split; [nia|done]. Qed.

Lemma plan_batch b data : plan !! b = Some data → batch_ok nparts kDBSize (Z.of_nat b) data.
Proof.
  intros Hb. destruct (Hc b data Hb) as (n & rs & rs' & Hrs & Hcol). pose proof size_range as [? ?]. destruct Hs as [H1 [H2 H3] _]. apply lookup_lt_Some in Hb as Hlt.
  apply (collect_ok nparts hot_records kDBSize percent_mp H1 H2 H3 (Z.of_nat b `mod` nparts) (Z.of_nat b) n [] rs (data, rs')); [|lia|lia|done|done|].
  - pose proof (Z.mod_pos_bound (Z.of_nat b) nparts). lia.
  - split_and!; [done|simpl; lia|constructor].
Qed.

Lemma concat_elem {B} (ll : list (list B)) x : x ∈ concat ll → ∃ b l, ll !! b = Some l ∧ x ∈ l.
Proof.
  induction ll as [|l ll IH]; [by intros ?%elem_of_nil|]. simpl. intros [Hx|Hx]%elem_of_app; [by exists 0%nat, l|].
  destruct (IH Hx) as (b & l' & ? & ?). by exists (S b), l'.
Qed.

Lemma plan_txn t : t ∈ concat plan → workload_txn nparts kDBSize t.
Proof.
  intros (b & data & Hb & Ht)%concat_elem. destruct (plan_batch b data Hb) as (_ & _ & Hw). rewrite Forall_forall in Hw. by apply Hw.
Qed.

(** All transaction ids are different. *)
Lemma ids_NoDup (pl : list (list TxnProto)) b0 : (∀ b data, pl !! b = Some data → batch_ok nparts kDBSize (Z.of_nat (b0 + b)) data) →
  NoDup (txn_id <$> concat pl) ∧
  Forall (λ i, Z.of_nat b0 * MAX_BATCH_SIZE ≤ i < Z.of_nat (b0 + length pl) * MAX_BATCH_SIZE) (txn_id <$> concat pl).
Proof.
  revert b0. induction pl as [|data pl IH]; intros b0 Hpl; [split; constructor|]. simpl concat. rewrite !fmap_app.
  destruct (Hpl 0%nat data eq_refl) as (Hids & Hlen & _). rewrite Nat.add_0_r in Hids.
  destruct (IH (S b0)) as [Hnd Hr]; [intros b data' Hb; rewrite Nat.add_succ_comm; by apply Hpl|].
  assert (Forall (λ i, Z.of_nat b0 * MAX_BATCH_SIZE ≤ i < Z.of_nat (S b0) * MAX_BATCH_SIZE) (txn_id <$> data)) as Hd.
  { rewrite Hids. apply Forall_fmap, Forall_forall. intros i Hi%elem_of_seqZ. simpl. lia. }
  split.
  - apply NoDup_app. split_and!; [|intros i Hi Hi'|done].
    + rewrite Hids. apply NoDup_fmap_2_strong; [intros; lia|apply NoDup_seqZ].
    + rewrite Forall_forall in Hd, Hr. specialize (Hd i Hi). specialize (Hr i Hi'). simpl in *. lia.
  - apply Forall_app. split; eapply Forall_impl; [exact Hd| |exact Hr|]; intros i Hi; simpl in *; lia.
Qed.

Lemma plan_length : (Z.of_nat (length (concat plan)) ≤ MAX_BATCH_SIZE * Z.of_nat (length plan)).
Proof.
  assert (∀ pl : list (list TxnProto), Forall (λ data, (length data ≤ 200)%nat) pl → (length (concat pl) ≤ 200 * length pl)%nat) as Hl.
  { induction 1; simpl; rewrite ?length_app; lia. }
  cut (Forall (λ data : list TxnProto, (length data ≤ 200)%nat) plan); [intros Hp%Hl; lia|]. apply Forall_lookup. intros b data Hb. by destruct (plan_batch b data Hb) as (_ & ? & _).
Qed.

(** How many of the transactions use record [k]. *)
Definition uses (ts : list TxnProto) (k : Z) : Z := Z.of_nat (length (filter (λ t, IntToString k ∈ read_write_set t) ts)).

Lemma InitializeStorage_records : records size db (λ k, k).
Proof.
  pose proof size_range as [? ?]. intros k Hk. split; [|unfold small; lia]. unfold InitializeStorage. apply elem_of_list_to_map.
  - rewrite <- list_fmap_compose. apply NoDup_fmap_2_strong; [|apply NoDup_seqZ]. intros a b Ha%elem_of_seqZ Hb%elem_of_seqZ. apply IntToString_inj; unfold small; lia.
  - apply list_elem_of_fmap. exists k. split; [done|]. apply elem_of_seqZ. lia.
Qed.

Lemma key_elem ks k : Forall (λ k, 0 ≤ k < size) ks → 0 ≤ k < size → IntToString k ∈ ((λ k, IntToString k) <$> ks) ↔ k ∈ ks.
Proof.
  pose proof size_range as [? ?]. intros Hks Hk. rewrite list_elem_of_fmap. split; [|by eauto]. intros (z & He & Hz).
  rewrite Forall_forall in Hks. specialize (Hks z Hz). by rewrite (IntToString_inj k z) by (done || unfold small; lia).
Qed.

(** Each transaction adds one to each of its records. *)
Lemma serial_counts ts : Forall (workload_txn nparts kDBSize) ts → size + Z.of_nat (length ts) ≤ 2 ^ 31 →
  ∃ d, serial (add_participants nparts <$> ts) db = Some d ∧ records size d (λ k, k + uses ts k).
Proof.
  pose proof size_range as [? ?]. induction ts as [|t ts IH] using rev_ind; intros Hts Hlen.
  - exists db. split; [done|]. intros k Hk. unfold uses. simpl. rewrite Z.add_0_r. by apply InitializeStorage_records.
  - apply Forall_app in Hts as [Hts [(id & ty & ks & -> & Hnd & Hl & Hks) _]%Forall_cons]. rewrite length_app in Hlen. simpl in Hlen.
    destruct (IH Hts) as (d & Hd & Hrec); [lia|]. rewrite fmap_app, serial_exec_app, Hd. simpl.
    assert (∀ k, 0 ≤ uses ts k ≤ Z.of_nat (length ts)) as Hu by (intros k; unfold uses; pose proof (length_filter (λ t, IntToString k ∈ read_write_set t) ts); lia).
    destruct (micro_exec size (add_participants nparts (micro_txn id ty ks)) ks) with (pre := @nil string) (d := d) (f := λ k, k + uses ts k) as (d' & Hex & Hd'); try done; [lia|..].
    { intros k Hk. rewrite Forall_forall in Hks. specialize (Hks k Hk). specialize (Hu k). unfold small. simpl in *. lia. }
    exists d'. split; [rewrite Hl in Hex; exact Hex|]. intros k Hk. destruct (Hd' k Hk) as [Hdk Hsm].
    assert (k + uses (ts ++ [micro_txn id ty ks]) k = if decide (k ∈ ks) then k + uses ts k + 1 else k + uses ts k) as ->; [|done].
    unfold uses. rewrite filter_app, length_app, filter_cons, filter_nil. simpl. rewrite (decide_ext _ (k ∈ ks)) by (by apply key_elem).
    destruct (decide (k ∈ ks)); simpl; lia.
Qed.

Lemma micro_planned : planned nparts plan db.
Proof.
  pose proof size_range as [Hsz1 Hsz2]. pose proof (sz_parts Hs). pose proof plan_length.
  assert (∀ t, t ∈ concat plan → ∃ ks, t = micro_txn (txn_id t) (txn_type t) ks ∧ good_keys nparts kDBSize ks) as Htxn.
  { intros t (id & ty & ks & -> & Hk)%plan_txn. by exists ks. }
  assert (∀ t k, t ∈ concat plan → k ∈ read_write_set t → ∃ z, k = IntToString z ∧ 0 ≤ z < size) as Hkey.
  { intros t k (ks & -> & _ & _ & Hks)%Htxn (z & -> & Hz)%list_elem_of_fmap. rewrite Forall_forall in Hks. by eauto. }
  split.
  - done.
  - destruct (ids_NoDup plan 0) as [Hnd Hr]; [intros b data Hb; by apply plan_batch|]. unfold channel_of.
    rewrite (list_fmap_compose txn_id (λ i, IntToString i)). apply NoDup_fmap_2_strong; [|done]. rewrite Forall_forall in Hr.
    intros a b Ha%Hr Hb%Hr. apply IntToString_inj; unfold small; simpl in *; lia.
  - by intros t (ks & -> & _)%Htxn.
  - intros t (ks & -> & Hnd & _ & Hks)%Htxn. simpl. rewrite app_nil_r. apply NoDup_fmap_2_strong; [|done]. rewrite Forall_forall in Hks.
    intros a b Ha%Hks Hb%Hks. apply IntToString_inj; unfold small; simpl in *; lia.
  - intros t k Ht Hk. assert (k ∈ read_write_set t) as Hk' by (destruct (Htxn t Ht) as (ks & Heq & _); rewrite Heq in Hk |- *; done).
    destruct (Hkey t k Ht Hk') as (z & -> & Hz). rewrite LookupPartition_key by (unfold small; lia). apply Z.rem_nonneg; lia.
  - intros t k Ht Hk. assert (k ∈ read_write_set t) as Hk' by (destruct (Htxn t Ht) as (ks & Heq & _); rewrite Heq in Hk |- *; done).
    destruct (Hkey t k Ht Hk') as (z & -> & Hz). apply elem_of_dom. destruct (InitializeStorage_records z Hz) as [-> _]. by eauto.
  - intros t Ht. apply (micro_confined (add_participants nparts t)).
  - destruct (serial_counts (concat plan)) as (d & Hd & _); [apply Forall_forall; apply plan_txn|lia|]. by exists d.
Qed.

Lemma micro_writers p t : t ∈ sequence_at nparts plan p → p ∈ writers t.
Proof.
  intros [Ht Hp]%sequence_at_elem. apply (participants_rw _ _ _ micro_planned t Ht) in Hp as [Hp|]; [|done].
  apply (readers_elem _ _ _ micro_planned t p Ht) in Hp. destruct (local_keys nparts p t) as [|k l] eqn:Hl; [done|].
  assert (k ∈ local_keys nparts p t) as [Hk <-]%local_keys_elem by (rewrite Hl; left). apply (writers_rw _ _ _ micro_planned); [done|].
  apply list_elem_of_fmap in Ht as (t0 & -> & (id & ty & ks & -> & _)%plan_txn). done.
Qed.

End benchmark.

(** C3. The microbenchmark on Calvin, with the client's transactions, any batches and
    any interleaving of the threads of all nodes: no thread crashes, and when no
    step can change anything any more, every record has at the node of its
    partition its initial number plus the number of transactions that use it. *)
Theorem calvin_micro nparts hot_records kDBSize percent_mp plan es :
  sized nparts hot_records kDBSize plan → collected nparts hot_records kDBSize percent_mp plan →
  match run (H := Microbenchmark) nparts plan (new_system nparts (InitializeStorage nparts kDBSize)) es with
  | Crash => False
  | Blocks => True
  | Done s => stuck (H := Microbenchmark) nparts plan s → ∀ p n k, sys_nodes s !! p = Some n → 0 ≤ k < nparts * kDBSize → k `mod` nparts = p →
      storage n !! IntToString k = Some (IntToString (k + uses (concat plan) k))
  end.
Proof.
  intros Hs Hc. pose proof (micro_planned _ _ _ _ _ Hs Hc) as HP. pose proof (size_range _ _ _ _ Hs) as [? ?]. pose proof (plan_length _ _ _ _ _ Hs Hc).
  pose proof (calvin_run nparts plan (InitializeStorage nparts kDBSize) es HP) as Hr. destruct (run _ _ _ _) as [s| |]; [|done..]. intros Hst p n k Hn Hk Hp.
  destruct (Hr Hst (λ p t Ht, or_introl (micro_writers _ _ _ _ _ Hs Hc p t Ht)) p n Hn) as [_ Hsto].
  destruct (serial_counts _ _ _ _ Hs (concat plan)) as (d & Hd & Hrec); [apply Forall_forall, (plan_txn _ _ _ _ _ Hs Hc)|lia|].
  unfold sequence in Hsto. rewrite Hd in Hsto. injection Hsto as ->. destruct (Hrec k Hk) as [Hkd _]. unfold part_of. apply map_lookup_filter_Some.
  split; [done|]. simpl. rewrite LookupPartition_key by (unfold small; lia). pose proof (sz_parts _ _ _ _ Hs). rewrite Z.rem_mod_nonneg by lia. done.
Qed.

(** ** Example *)

(** Two nodes with ten records each, one of them hot; a transaction at both nodes
    and one at node 1. *)
Definition micro_batch (b : Z) (rs : list Z) : list TxnProto :=
  match collect 2 1 10 50 (b `mod` 2) b 1 0 [] rs with Done x => x.1 | _ => [] end.

Definition micro_plan : list (list TxnProto) := [micro_batch 0 [0; 0; 1; 0; 0; 0; 1; 1; 2; 3; 0; 1; 2; 3]; micro_batch 1 [99; 0; 0; 1; 2; 3; 4; 5; 6; 7; 8]].

Definition micro_events : list event :=
  enabled (H := Microbenchmark) 2 micro_plan (new_system 2 (InitializeStorage 2 10)) ([ESequencer 0; ESequencer 1] ++ concat (replicate 100 example_round)).

Lemma micro_plan_sized : sized 2 1 10 micro_plan.
Proof. split; vm_compute; auto; split; done. Qed.

Lemma micro_plan_collected : collected 2 1 10 50 micro_plan.
Proof.
  intros [|[|b]] data [= <-].
  - exists 1%nat, [0; 0; 1; 0; 0; 0; 1; 1; 2; 3; 0; 1; 2; 3], []. split; [repeat constructor; done|]. vm_compute. reflexivity.
  - exists 1%nat, [99; 0; 0; 1; 2; 3; 4; 5; 6; 7; 8], []. split; [repeat constructor; done|]. vm_compute. reflexivity.
Qed.

Lemma calvin_micro_witness : ∃ s n,
  run (H := Microbenchmark) 2 micro_plan (new_system 2 (InitializeStorage 2 10)) micro_events = Done s ∧ stuck (H := Microbenchmark) 2 micro_plan s ∧
  sys_nodes s !! 1 = Some n ∧ uses (concat micro_plan) 7 = 2 ∧ storage n !! "7" = Some "9".
Proof.
  pose proof (calvin_micro 2 1 10 50 micro_plan micro_events micro_plan_sized micro_plan_collected) as Hc.
  assert (match run (H := Microbenchmark) 2 micro_plan (new_system 2 (InitializeStorage 2 10)) micro_events with
    | Done s => bool_decide (quiescent micro_plan s) && bool_decide (is_Some (sys_nodes s !! 1))
    | _ => false
    end = true) as Hr by (vm_compute; reflexivity).
  destruct (run (H := Microbenchmark) 2 micro_plan (new_system 2 (InitializeStorage 2 10)) micro_events) as [s| |]; [|discriminate..].
  apply andb_true_iff in Hr as [Hq%bool_decide_eq_true [n Hn]%bool_decide_eq_true].
  assert (stuck (H := Microbenchmark) 2 micro_plan s) as Hst by (by apply quiescent_stuck).
  exists s, n. split; [reflexivity|]. split; [exact Hst|]. split; [exact Hn|]. split; [vm_compute; reflexivity|].
  specialize (Hc Hst 1 n 7 Hn ltac:(lia) eq_refl). exact Hc.
Defined.
