(* ===== verification/AriaHelper.v ===== *)
(** * Aria: the reservation word of a row

    src/aria/protocol/Aria/AriaHelper.h.  Each row has a 64-bit word with an
    epoch and the smallest ids of the transactions that reserved a read and a
    write in it.  The word is changed by loops around a compare-and-swap, which
    the workers of a node run concurrently.  DCHECK is compiled out (compile.sh
    builds with NDEBUG); CHECK ends the process. *)

From S2P Require Import Prelude Bits.

(** ** The word *)

Notation EPOCH_OFFSET := (40)%Z (only parsing).
Notation EPOCH_MASK := (0xffffff)%Z (only parsing).
Notation RTS_OFFSET := (20)%Z (only parsing).
Notation RTS_MASK := (0xfffff)%Z (only parsing).
Notation WTS_OFFSET := (0)%Z (only parsing).
Notation WTS_MASK := (0xfffff)%Z (only parsing).

Definition get_epoch (value : Z) : Z := field_get EPOCH_OFFSET EPOCH_MASK value.
Definition set_epoch (value epoch : Z) : Z := field_set 64 EPOCH_OFFSET EPOCH_MASK value epoch.
Definition get_rts (value : Z) : Z := field_get RTS_OFFSET RTS_MASK value.
Definition set_rts (value rts : Z) : Z := field_set 64 RTS_OFFSET RTS_MASK value rts.
Definition get_wts (value : Z) : Z := field_get WTS_OFFSET WTS_MASK value.
Definition set_wts (value wts : Z) : Z := field_set 64 WTS_OFFSET WTS_MASK value wts.

(** ** Reservations *)

(** One round of the loop of [reserve_read], from the value loaded: the value to
    store, or [None] where the function returns false. *)
Definition reserve_read_round (epoch tid old_value : Z) : outcome (option Z) :=
  let old_epoch := get_epoch old_value in
  let old_rts := get_rts old_value in
  ASSERT! (old_epoch <=? epoch)%Z;
  if (old_epoch <? epoch)%Z then
    let new_value := set_epoch 0 epoch in
    let new_value := set_rts new_value tid in
    Ret (Some new_value)
  else if (old_rts <? tid)%Z && negb (old_rts =? 0)%Z then Ret None
  else
    let new_value := old_value in
    let new_value := set_rts new_value tid in
    Ret (Some new_value).

Definition reserve_write_round (epoch tid old_value : Z) : outcome (option Z) :=
  let old_epoch := get_epoch old_value in
  let old_wts := get_wts old_value in
  ASSERT! (old_epoch <=? epoch)%Z;
  if (old_epoch <? epoch)%Z then
    let new_value := set_epoch 0 epoch in
    let new_value := set_wts new_value tid in
    Ret (Some new_value)
  else if (old_wts <? tid)%Z && negb (old_wts =? 0)%Z then Ret None
  else
    let new_value := old_value in
    let new_value := set_wts new_value tid in
    Ret (Some new_value).

Definition reserve_round (is_write : bool) : Z → Z → Z → outcome (option Z) :=
  if is_write then reserve_write_round else reserve_read_round.

(** The functions when nothing else changes the word: the result and the word. *)
Definition reserve (is_write : bool) (a epoch tid : Z) : outcome (bool * Z) :=
  r ← reserve_round is_write epoch tid a;
  match r with
  | Some new_value => Ret (true, new_value)
  | None => Ret (false, a)
  end.

Definition reserve_read : Z → Z → Z → outcome (bool * Z) := reserve false.
Definition reserve_write : Z → Z → Z → outcome (bool * Z) := reserve true.

(** ** The loop as it runs beside others

    Where a thread is: about to load, about to compare and swap, returned, or
    stopped by a failed check. *)
Inductive cas_loop := Loading | Swapping (old_value new_value : Z) | Returned (b : bool) | Stopped.

(** One access to the word [a].  A weak compare-and-swap may fail ([spurious])
    though the word is the expected one. *)
Definition loop_step (round : Z → outcome (option Z)) (spurious : bool) (a : Z) (t : cas_loop) : Z * cas_loop :=
  match t with
  | Loading =>
      match round a with
      | Ret (Some new_value) => (a, Swapping a new_value)
      | Ret None => (a, Returned false)
      | Panic => (a, Stopped)
      end
  | Swapping old_value new_value =>
      if (a =? old_value)%Z && negb spurious then (new_value, Returned true) else (a, Loading)
  | Returned _ | Stopped => (a, t)
  end.

Section pool.
Context {A : Type} `{Countable A}.

(** A call of [reserve_read] or [reserve_write] on the word of row [c_row]. *)
Record call := mkCall { c_row : A; c_write : bool; c_tid : Z }.

Definition word (m : gmap A Z) (a : A) : Z := default 0 (m !! a).

(** Thread [ev.1] makes one step. *)
Definition pool_step (epoch : Z) (s : gmap A Z * list (call * cas_loop)) (ev : nat * bool) :
    gmap A Z * list (call * cas_loop) :=
  match s.2 !! ev.1 with
  | Some (c, t) =>
      let '(a, t') := loop_step (reserve_round (c_write c) epoch (c_tid c)) ev.2 (word s.1 (c_row c)) t in
      (<[c_row c := a]> s.1, <[ev.1 := (c, t')]> s.2)
  | None => s
  end.

Definition pool_run (epoch : Z) (m : gmap A Z) (calls : list call) (sched : list (nat * bool)) :
    gmap A Z * list (call * cas_loop) :=
  foldl (pool_step epoch) (m, (λ c, (c, Loading)) <$> calls) sched.

(** The calls one after another. *)
Definition reserve_all (epoch : Z) (m : gmap A Z) (calls : list call) : outcome (gmap A Z) :=
  for_each (λ m c, r ← reserve (c_write c) (word m (c_row c)) epoch (c_tid c); Ret (<[c_row c := r.2]> m)) m calls.

End pool.
Arguments call A : clear implicits.

(** ** The fields of a word *)

Lemma get_epoch_eq v : get_epoch v = field_get 40 (Z.ones 24) v.
Proof. done. Qed.
Lemma get_rts_eq v : get_rts v = field_get 20 (Z.ones 20) v.
Proof. done. Qed.
Lemma get_wts_eq v : get_wts v = field_get 0 (Z.ones 20) v.
Proof. done. Qed.
Lemma set_epoch_eq v e : set_epoch v e = field_set 64 40 (Z.ones 24) v e.
Proof. done. Qed.
Lemma set_rts_eq v t : set_rts v t = field_set 64 20 (Z.ones 20) v t.
Proof. done. Qed.
Lemma set_wts_eq v t : set_wts v t = field_set 64 0 (Z.ones 20) v t.
Proof. done. Qed.

Ltac fields :=
  rewrite ?get_epoch_eq, ?get_rts_eq, ?get_wts_eq, ?set_epoch_eq, ?set_rts_eq, ?set_wts_eq in *.

Lemma get_rts_range v : 0 ≤ get_rts v < 2 ^ 20.
Proof. by apply (field_get_range 20 20). Qed.
Lemma get_wts_range v : 0 ≤ get_wts v < 2 ^ 20.
Proof. by apply (field_get_range 0 20). Qed.

(** A word is its three fields. *)
Lemma word_ext v v' : is_u64 v → is_u64 v' →
  get_epoch v = get_epoch v' → get_rts v = get_rts v' → get_wts v = get_wts v' → v = v'.
Proof.
  unfold is_u64. intros Hv Hv' He Hr Hw. fields. apply (field_ext 64); [done..|]. intros i Hi.
  assert (∀ off w, 0 ≤ off → 0 ≤ w → off ≤ i < off + w →
    field_get off (Z.ones w) v = field_get off (Z.ones w) v' → Z.testbit v i = Z.testbit v' i) as Hf.
  { intros off w Ho Hww Hi' Heq. apply (f_equal (λ z, Z.testbit z (i - off))) in Heq.
    rewrite !field_get_testbit in Heq by lia. replace (i - off + off) with i in Heq by lia.
    destruct (Z.ltb_spec (i - off) w); [done|lia]. }
  destruct (Z.lt_ge_cases i 20); [by apply (Hf 0 20); [lia..|]|].
  destruct (Z.lt_ge_cases i 40); [by apply (Hf 20 20); [lia..|]|]. by apply (Hf 40 24); [lia..|].
Qed.

Lemma set_rts_fields v t : is_u64 v → 0 ≤ t < 2 ^ 20 →
  is_u64 (set_rts v t) ∧ get_epoch (set_rts v t) = get_epoch v ∧ get_rts (set_rts v t) = t ∧
  get_wts (set_rts v t) = get_wts v.
Proof.
  unfold is_u64. intros Hv Ht. fields. split_and!.
  - by apply field_set_range.
  - by apply field_set_range.
  - by rewrite field_get_set_ne by lia.
  - by rewrite field_get_set by lia.
  - by rewrite field_get_set_ne by lia.
Qed.

Lemma set_wts_fields v t : is_u64 v → 0 ≤ t < 2 ^ 20 →
  is_u64 (set_wts v t) ∧ get_epoch (set_wts v t) = get_epoch v ∧ get_rts (set_wts v t) = get_rts v ∧
  get_wts (set_wts v t) = t.
Proof.
  unfold is_u64. intros Hv Ht. fields. split_and!.
  - by apply field_set_range.
  - by apply field_set_range.
  - by rewrite field_get_set_ne by lia.
  - by rewrite field_get_set_ne by lia.
  - by rewrite field_get_set by lia.
Qed.

Lemma set_epoch_fields e : 0 ≤ e < 2 ^ 24 →
  is_u64 (set_epoch 0 e) ∧ get_epoch (set_epoch 0 e) = e ∧ get_rts (set_epoch 0 e) = 0 ∧ get_wts (set_epoch 0 e) = 0.
Proof.
  unfold is_u64. intros He. fields. split_and!.
  - by apply field_set_range.
  - by apply field_set_range.
  - by rewrite field_get_set by lia.
  - by rewrite field_get_set_ne by lia.
  - by rewrite field_get_set_ne by lia.
Qed.

(** ** What a reservation does

    0 stands for no reservation. *)
Definition min0 (a b : Z) : Z := if (a =? 0)%Z then b else if (b =? 0)%Z then a else Z.min a b.

(** The reservations of [epoch] in a word. *)
Definition rts_in (epoch a : Z) : Z := if (get_epoch a =? epoch)%Z then get_rts a else 0.
Definition wts_in (epoch a : Z) : Z := if (get_epoch a =? epoch)%Z then get_wts a else 0.

Lemma min0_comm a b : min0 a b = min0 b a.
Proof. unfold min0. destruct (Z.eqb_spec a 0), (Z.eqb_spec b 0); lia. Qed.

Lemma min0_assoc a b c : 0 ≤ a → 0 ≤ b → 0 ≤ c → min0 a (min0 b c) = min0 (min0 a b) c.
Proof.
  unfold min0. intros. destruct (Z.eqb_spec a 0), (Z.eqb_spec b 0), (Z.eqb_spec c 0); try lia;
    repeat case_match; lia.
Qed.

Lemma min0_0_r a : min0 a 0 = a.
Proof. unfold min0. destruct (Z.eqb_spec a 0); done. Qed.

Lemma min0_nonneg a b : 0 ≤ a → 0 ≤ b → 0 ≤ min0 a b.
Proof. unfold min0. repeat case_match; lia. Qed.

Definition tid_ok (tid : Z) : Prop := 0 < tid < 2 ^ 20.
Definition epoch_ok (epoch : Z) : Prop := 0 ≤ epoch < 2 ^ 24.
(** A word at the start of or during [epoch]. *)
Definition word_ok (epoch a : Z) : Prop := is_u64 a ∧ get_epoch a ≤ epoch.

(** A round does not stop; its value has the smaller id, and it gives up only
    where the id there is the smaller one. *)
Lemma reserve_spec is_write a epoch tid : word_ok epoch a → epoch_ok epoch → tid_ok tid →
  ∃ b a', reserve is_write a epoch tid = Ret (b, a') ∧ is_u64 a' ∧ get_epoch a' = epoch ∧
    get_rts a' = (if is_write then rts_in epoch a else min0 (rts_in epoch a) tid) ∧
    get_wts a' = (if is_write then min0 (wts_in epoch a) tid else wts_in epoch a).
Proof.
  intros [Ha Hea] He Ht. unfold reserve, reserve_round. pose proof (set_epoch_fields epoch He) as (H1 & H2 & H3 & H4).
  assert (0 ≤ tid < 2 ^ 20) as Ht' by (unfold tid_ok in Ht; lia).
  pose proof (set_rts_fields _ tid H1 Ht') as (R1 & R2 & R3 & R4). pose proof (set_wts_fields _ tid H1 Ht') as (W1 & W2 & W3 & W4).
  pose proof (set_rts_fields _ tid Ha Ht') as (Q1 & Q2 & Q3 & Q4). pose proof (set_wts_fields _ tid Ha Ht') as (P1 & P2 & P3 & P4).
  pose proof (get_rts_range a). pose proof (get_wts_range a). unfold tid_ok in Ht.
  unfold reserve_read_round, reserve_write_round, rts_in, wts_in.
  assert ((get_epoch a <=? epoch)%Z = true) as Hle by lia.
  assert (is_write = true ∨ is_write = false) as [-> | ->] by (destruct is_write; auto); cbv zeta; rewrite Hle;
    cbn [ASSERT mbind outcome_bind];
    destruct (Z.ltb_spec (get_epoch a) epoch), (Z.eqb_spec (get_epoch a) epoch); try lia; cbn [mbind outcome_bind].
  - exists true. eexists. split; [reflexivity|]. unfold min0. simpl. repeat split; [apply W1|apply W1|congruence..].
  - unfold min0. destruct (Z.ltb_spec (get_wts a) tid), (Z.eqb_spec (get_wts a) 0); simpl.
    + exists true. eexists. split; [reflexivity|]. repeat split; [apply P1|apply P1|congruence..].
    + exists false. eexists. split; [reflexivity|]. destruct (Z.eqb_spec tid 0); [lia|].
      repeat split; [apply Ha|apply Ha|congruence|]. lia.
    + exists true. eexists. split; [reflexivity|]. repeat split; [apply P1|apply P1|congruence..].
    + exists true. eexists. split; [reflexivity|]. destruct (Z.eqb_spec tid 0); [lia|].
      repeat split; [apply P1|apply P1|congruence|congruence|]. rewrite P4. lia.
  - exists true. eexists. split; [reflexivity|]. unfold min0. simpl. repeat split; [apply R1|apply R1|congruence..].
  - unfold min0. destruct (Z.ltb_spec (get_rts a) tid), (Z.eqb_spec (get_rts a) 0); simpl.
    + exists true. eexists. split; [reflexivity|]. repeat split; [apply Q1|apply Q1|congruence..].
    + exists false. eexists. split; [reflexivity|]. destruct (Z.eqb_spec tid 0); [lia|].
      repeat split; [apply Ha|apply Ha|congruence|]. lia.
    + exists true. eexists. split; [reflexivity|]. repeat split; [apply Q1|apply Q1|congruence..].
    + exists true. eexists. split; [reflexivity|]. destruct (Z.eqb_spec tid 0); [lia|].
      repeat split; [apply Q1|apply Q1|congruence| |congruence]. rewrite Q3. lia.
Qed.

Lemma reserve_round_reserve is_write a epoch tid :
  match reserve_round is_write epoch tid a with
  | Ret (Some n) => reserve is_write a epoch tid = Ret (true, n)
  | Ret None => reserve is_write a epoch tid = Ret (false, a)
  | Panic => reserve is_write a epoch tid = Panic
  end.
Proof. unfold reserve. by destruct (reserve_round _ _ _ _) as [[]|]. Qed.

Section pool_props.
Context {A : Type} `{Countable A} (epoch : Z) (He : epoch_ok epoch).
Implicit Types (c : call A) (cs : list (call A)).

(** The smallest id among the reads or the writes of some calls. *)
Definition min_tid (w : bool) cs : Z := foldr (λ c m, if eqb (c_write c) w then min0 (c_tid c) m else m) 0 cs.

(** The word [a] is [a0] after the calls [cs]. *)
Definition word_after (a0 : Z) cs (a : Z) : Prop :=
  is_u64 a ∧
  (cs = [] → a = a0) ∧
  (cs ≠ [] → get_epoch a = epoch ∧ get_rts a = min0 (rts_in epoch a0) (min_tid false cs) ∧
             get_wts a = min0 (wts_in epoch a0) (min_tid true cs)).

Definition call_ok c : Prop := tid_ok (c_tid c).

Lemma min_tid_nonneg w cs : Forall call_ok cs → 0 ≤ min_tid w cs.
Proof using.
  induction 1 as [|c cs Hc _ IH]; simpl; [done|]. unfold call_ok, tid_ok in Hc. case_match; [|done].
  apply min0_nonneg; lia.
Qed.

Lemma min_tid_perm w cs cs' : Forall call_ok cs → cs ≡ₚ cs' → min_tid w cs = min_tid w cs'.
Proof using.
  intros Hok Hp. induction Hp as [|c cs cs' _ IH|c c' cs|cs cs' cs'' Hp1 IH1 _ IH2]; simpl; [done| | |].
  - apply Forall_cons in Hok as [_ Hok]. by rewrite IH.
  - apply Forall_cons in Hok as [Hc [Hc' Hcs]%Forall_cons]. pose proof (min_tid_nonneg w cs Hcs).
    unfold call_ok, tid_ok in *. do 2 case_match; try done. rewrite !min0_assoc by lia. f_equal. apply min0_comm.
  - rewrite IH1 by done. apply IH2. by rewrite <- Hp1.
Qed.

Lemma word_after_perm a0 cs cs' a : Forall call_ok cs → cs ≡ₚ cs' → word_after a0 cs a → word_after a0 cs' a.
Proof using.
  intros Hok Hp (Hu & H0 & H1). split; [done|]. split.
  - intros ->. apply H0. by apply Permutation_nil_r.
  - intros Hne. rewrite <- !(min_tid_perm _ cs cs') by done. apply H1. intros ->. by apply Permutation_nil_l in Hp.
Qed.

Lemma word_after_inj a0 cs a a' : word_after a0 cs a → word_after a0 cs a' → a = a'.
Proof using.
  intros (Hu & H0 & H1) (Hu' & H0' & H1'). destruct cs as [|c cs]; [by rewrite H0, H0'|].
  destruct H1 as (? & ? & ?); [done|]. destruct H1' as (? & ? & ?); [done|]. apply word_ext; congruence.
Qed.

Lemma word_after_ok a0 cs a : word_ok epoch a0 → word_after a0 cs a → word_ok epoch a.
Proof using.
  intros [Hu He0] (Hu' & H0 & H1). split; [done|]. destruct cs; [by rewrite H0|]. destruct H1 as (-> & _); [done|lia].
Qed.

Lemma word_after_rts a0 cs a : Forall call_ok cs → word_after a0 cs a →
  rts_in epoch a = min0 (rts_in epoch a0) (min_tid false cs) ∧ wts_in epoch a = min0 (wts_in epoch a0) (min_tid true cs).
Proof using.
  intros Hok (_ & H0 & H1). destruct cs as [|c cs]; [rewrite H0 by done; simpl; by rewrite !min0_0_r|].
  destruct H1 as (He1 & H1 & H2); [done|]. unfold rts_in at 1, wts_in at 1. rewrite He1, Z.eqb_refl. done.
Qed.

Lemma word_after_step a0 cs c a : word_ok epoch a0 → Forall call_ok cs → call_ok c → word_after a0 cs a →
  ∃ b a', reserve (c_write c) a epoch (c_tid c) = Ret (b, a') ∧ word_after a0 (c :: cs) a'.
Proof using He.
  intros Ha0 Hcs Hc Ha. destruct (reserve_spec (c_write c) a epoch (c_tid c)) as (b & a' & Hr & Hu & He1 & Hrts & Hwts);
    [by eapply word_after_ok|done|done|]. exists b, a'. split; [done|].
  destruct (word_after_rts _ _ _ Hcs Ha) as [Hra Hwa]. split; [done|]. split; [done|]. intros _.
  pose proof (min_tid_nonneg false cs Hcs). pose proof (min_tid_nonneg true cs Hcs).
  assert (0 ≤ rts_in epoch a0 ∧ 0 ≤ wts_in epoch a0) as [? ?].
  { unfold rts_in, wts_in. destruct (get_epoch a0 =? epoch)%Z; [|done]. split; [apply get_rts_range|apply get_wts_range]. }
  unfold call_ok, tid_ok in Hc. simpl. split; [done|]. destruct (c_write c); simpl; split; try congruence.
  - rewrite Hwts, Hwa, <- !min0_assoc by lia. f_equal. apply min0_comm.
  - rewrite Hrts, Hra, <- !min0_assoc by lia. f_equal. apply min0_comm.
Qed.

(** *** The calls one after another *)

Definition calls_at (a : A) cs : list (call A) := filter (λ c, c_row c = a) cs.

Lemma word_insert (m : gmap A Z) a b v : word (<[a := v]> m) b = if decide (a = b) then v else word m b.
Proof using. unfold word. rewrite lookup_insert. by case_decide. Qed.

Lemma reserve_all_spec (m0 : gmap A Z) cs : (∀ a, word_ok epoch (word m0 a)) → Forall call_ok cs →
  ∃ m, reserve_all epoch m0 cs = Ret m ∧ ∀ a, word_after (word m0 a) (calls_at a cs) (word m a).
Proof using He.
  intros Hm Hcs. induction cs as [|c cs IH] using rev_ind.
  { exists m0. split; [done|]. intros a. split; [apply Hm|]. done. }
  apply Forall_app in Hcs as [Hcs [Hc _]%Forall_cons]. destruct (IH Hcs) as (m & Hr & Hw).
  unfold reserve_all. rewrite for_each_snoc. fold (reserve_all epoch m0 cs). rewrite Hr. simpl.
  destruct (word_after_step (word m0 (c_row c)) (calls_at (c_row c) cs) c (word m (c_row c))) as (b & a' & Hres & Hw');
    [apply Hm|by apply Forall_filter|done|apply Hw|]. rewrite Hres. simpl. eexists. split; [done|].
  intros a. rewrite word_insert. unfold calls_at. rewrite filter_app, filter_cons, filter_nil. fold (calls_at a cs).
  case_decide as Hca; [|by rewrite app_nil_r]. subst a.
  eapply word_after_perm; [| |done]; [constructor; [done|by apply Forall_filter]|].
  by rewrite Permutation_app_comm.
Qed.

(** *** The calls in parallel *)

Definition returned (x : call A * cas_loop) : Prop := ∃ b, x.2 = Returned b.

#[local] Instance returned_dec x : Decision (returned x).
Proof using.
  destruct x as [c []]; [right; by intros [? [=]]..|left; by eexists|right; by intros [? [=]]].
Defined.

(** The calls at row [a] that have returned. *)
Definition done_at (a : A) (p : list (call A * cas_loop)) : list (call A) := calls_at a (filter returned p).*1.

(** A thread about to swap has computed its new value from the old one. *)
Definition loop_ok (x : call A * cas_loop) : Prop :=
  call_ok x.1 ∧
  match x.2 with
  | Swapping old new => reserve_round (c_write x.1) epoch (c_tid x.1) old = Ret (Some new)
  | Stopped => False
  | _ => True
  end.

Definition pool_ok (m0 : gmap A Z) cs (s : gmap A Z * list (call A * cas_loop)) : Prop :=
  s.2.*1 = cs ∧ Forall loop_ok s.2 ∧ ∀ a, word_after (word m0 a) (done_at a s.2) (word s.1 a).

Lemma done_at_ok a p : Forall loop_ok p → Forall call_ok (done_at a p).
Proof using.
  intros Hp. apply Forall_filter, Forall_fmap, Forall_filter. eapply Forall_impl; [done|]. by intros x [? _].
Qed.

Lemma done_at_insert a p p' c t : 
  done_at a (p ++ (c, t) :: p') =
  done_at a p ++ (if decide (returned (c, t) ∧ c_row c = a) then [c] else []) ++ done_at a p'.
Proof using.
  unfold done_at, calls_at. rewrite filter_app, filter_cons, fmap_app, filter_app. f_equal.
  destruct (decide (returned (c, t))) as [Hr|Hr]; simpl.
  - rewrite filter_cons. destruct (decide (c_row c = a)), (decide _) as [[]|Hn]; simpl; try done; by destruct Hn.
  - destruct (decide _) as [[]|Hn]; [done|]. done.
Qed.

Lemma loop_step_ok a0 ds c t sp a a' t' :
  word_ok epoch a0 → Forall call_ok ds → loop_ok (c, t) → word_after a0 ds a → ¬ returned (c, t) →
  loop_step (reserve_round (c_write c) epoch (c_tid c)) sp a t = (a', t') →
  loop_ok (c, t') ∧ (returned (c, t') → word_after a0 (c :: ds) a') ∧ (¬ returned (c, t') → a' = a).
Proof using He.
  intros Ha0 Hds [Hc Ht] Ha Hn. simpl in Hc, Ht.
  destruct (word_after_step a0 ds c a) as (b & a1 & Hres & Hw); [done..|].
  pose proof (reserve_round_reserve (c_write c) a epoch (c_tid c)) as Hrr. unfold loop_step, loop_ok, returned; simpl.
  destruct t as [|old new|b'|]; [| |by destruct Hn; eexists|done].
  - destruct (reserve_round _ _ _ a) as [[n|]|] eqn:Hround; intros [= <- <-]; rewrite Hres in Hrr; [| |done].
    + split; [done|]. split; [by intros [? [=]]|done].
    + injection Hrr as -> ->. split; [done|]. split; [done|]. intros []. by eexists.
  - destruct (Z.eqb_spec a old) as [<-|]; simpl; [|intros [= <- <-]; split; [done|]; split; [by intros [? [=]]|done]].
    rewrite Ht, Hres in Hrr. destruct sp; simpl; intros [= <- <-].
    + split; [done|]. split; [by intros [? [=]]|done].
    + injection Hrr as -> ->. split; [done|]. split; [done|]. intros []. by eexists.
Qed.

Lemma pool_step_ok m0 cs s ev : (∀ a, word_ok epoch (word m0 a)) → pool_ok m0 cs s → pool_ok m0 cs (pool_step epoch s ev).
Proof using He.
  intros Hm (Hcs & Hl & Hw). unfold pool_step. destruct s as [m p0]. simpl in *.
  destruct (p0 !! ev.1) as [[c t]|] eqn:Hi; [|done].
  apply list_elem_of_split_length in Hi as (p & p' & -> & Hlen).
  destruct (loop_step _ _ _ _) as [a' t'] eqn:Hstep. simpl. unfold pool_ok; simpl.
  rewrite Hlen, insert_app_r_alt, Nat.sub_diag by done. simpl. rewrite fmap_app, fmap_cons in Hcs |- *.
  pose proof Hl as [Hp [Hct Hp']%Forall_cons]%Forall_app.
  destruct (decide (returned (c, t))) as [[b Hb]|Hn].
  { simpl in Hb. subst t. injection Hstep as <- <-. split_and!; [done..|]. intros a. rewrite word_insert.
    case_decide as Hca; [subst a|]; apply Hw. }
  destruct (loop_step_ok (word m0 (c_row c)) (done_at (c_row c) (p ++ (c, t) :: p')) c t ev.2 (word m (c_row c)) a' t')
    as (Hok & Hret & Hnret); [done|by apply done_at_ok|done|apply Hw|done|done|].
  split_and!; [done|by apply Forall_app; split; [|constructor]|]. intros a. rewrite word_insert, done_at_insert.
  specialize (Hw a). rewrite done_at_insert in Hw, Hret. destruct (decide (_ ∧ _)) as [[? _]|_] in Hw; [done|].
  destruct (decide (returned (c, t) ∧ _)) as [[? _]|_] in Hret; [done|].
  destruct (decide (c_row c = a)) as [<-|Hca].
  - destruct (decide _) as [[Hr _]|Hr].
    + eapply word_after_perm; [|apply Permutation_middle|by apply Hret].
      constructor; [apply Hct|]. apply Forall_app; split; by apply done_at_ok.
    + rewrite Hnret; [done|]. intros ?. by apply Hr.
  - destruct (decide _) as [[_ ?]|_]; [done|]. done.
Qed.

End pool_props.

(** C25. Reservations made in parallel are as good as one after another.  However
    the threads that make them are scheduled, and whichever of their weak
    compare-and-swaps fail, none is stopped by the check of the epoch, and when
    all have returned every word is the one that making the calls in sequence
    gives: it holds the smallest ids of the readers and of the writers. *)
Theorem concurrent_reservations {A} `{Countable A} (epoch : Z) (m : gmap A Z) (calls : list (call A)) sched :
  epoch_ok epoch → (∀ a, word_ok epoch (word m a)) → Forall (λ c, tid_ok (c_tid c)) calls →
  let s := pool_run epoch m calls sched in
  (∀ i c t, s.2 !! i = Some (c, t) → t ≠ Stopped) ∧
  ((∀ i c t, s.2 !! i = Some (c, t) → ∃ b, t = Returned b) →
   ∃ m', reserve_all epoch m calls = Ret m' ∧ ∀ a, word s.1 a = word m' a ∧
     rts_in epoch (word m' a) = min0 (rts_in epoch (word m a)) (min_tid false (calls_at a calls)) ∧
     wts_in epoch (word m' a) = min0 (wts_in epoch (word m a)) (min_tid true (calls_at a calls))).
Proof.
  intros He Hm Hcs s. assert (pool_ok epoch m calls s) as (Hcalls & Hl & Hw).
  { unfold s, pool_run. clear s. generalize dependent calls. induction sched as [|ev sched IH] using rev_ind; intros calls Hcs.
    - split; [simpl; rewrite <- list_fmap_compose; apply list_fmap_id|]. split.
      + apply Forall_fmap. eapply Forall_impl; [done|]. intros c Hc. done.
      + intros a. unfold done_at. rewrite filter_none; [|apply Forall_fmap, Forall_true; by intros c [? [=]]]. 
        split; [apply Hm|]. done.
    - rewrite foldl_app. simpl. by apply pool_step_ok, IH. }
  split.
  - intros i c t Hi ->. by apply (Forall_lookup_1 _ _ _ _ Hl) in Hi as [_ []].
  - intros Hret. destruct (reserve_all_spec epoch He m calls Hm Hcs) as (m' & Hr & Hw'). exists m'. split; [done|].
    intros a. split; [|by apply word_after_rts; [apply Forall_filter|]]. eapply word_after_inj; [|done].
    rewrite <- Hcalls. specialize (Hw a). unfold done_at in Hw. rewrite filter_all in Hw; [done|].
    apply Forall_lookup. intros i [c t] Hi. by eapply Hret.
Qed.

(** Two threads that reserve the same row for writing, interleaved so that the
    second one's first swap fails. *)
Definition demo_calls : list (call Z) := [mkCall 5 true 2; mkCall 5 true 1; mkCall 5 false 3].
Definition demo_sched : list (nat * bool) :=
  [(0, false); (1, false); (0, false); (1, false); (1, false); (1, true); (1, false); (1, false);
   (2, false); (2, false)]%nat.

Lemma demo_pool : (pool_run 7 ∅ demo_calls demo_sched).2 = (λ c, (c, Returned true)) <$> demo_calls.
Proof. vm_compute. reflexivity. Qed.

Lemma concurrent_reservations_witness :
  let s := pool_run 7 ∅ demo_calls demo_sched in
  s.2 = (λ c, (c, Returned true)) <$> demo_calls ∧ rts_in 7 (word s.1 5) = 3 ∧ wts_in 7 (word s.1 5) = 1.
Proof.
  intros s. split; [apply demo_pool|].
  destruct (concurrent_reservations 7 (∅ : gmap Z Z) demo_calls demo_sched) as [_ Hs].
  - unfold epoch_ok. lia.
  - intros a. split; [done|]. vm_compute. discriminate.
  - unfold tid_ok. repeat constructor; simpl; lia.
  - rewrite demo_pool in Hs. destruct Hs as (m' & _ & Hs).
    + intros i c t (c' & [= -> ->] & _)%list_lookup_fmap_Some. by eexists.
    + destruct (Hs 5) as (Hw & Hr & Hww). unfold s. rewrite Hw, Hr, Hww. vm_compute. split; reflexivity.
Defined.

(** From epoch 2^24 on the reservations of an epoch forget each other: the field
    holds the epoch modulo 2^24, so every reservation looks like the first of a
    new epoch and replaces the word. *)
Theorem epoch_overflow_forgets is_write a epoch tid : is_u64 a → 2 ^ 24 ≤ epoch →
  reserve is_write a epoch tid =
  Ret (true, (if is_write then set_wts else set_rts) (set_epoch 0 epoch) tid).
Proof.
  intros Ha He. pose proof (field_get_range 40 24 ltac:(lia) a) as Hr. rewrite <- get_epoch_eq in Hr.
  unfold reserve, reserve_round, reserve_read_round, reserve_write_round.
  destruct is_write; cbv zeta; (destruct (Z.leb_spec (get_epoch a) epoch); [|lia]); cbn [ASSERT mbind outcome_bind];
    (destruct (Z.ltb_spec (get_epoch a) epoch); [reflexivity|lia]).
Qed.

Lemma epoch_overflow_forgets_witness :
  ∃ a, reserve true 0 (2 ^ 24) 1 = Ret (true, a) ∧
    reserve true a (2 ^ 24) 2 = Ret (true, set_wts (set_epoch 0 (2 ^ 24)) 2).
Proof.
  eexists. split; [vm_compute; reflexivity|]. apply (epoch_overflow_forgets true).
  - vm_compute. split; [discriminate|reflexivity].
  - lia.
Defined.
