(* ===== verification/AriaWire.v ===== *)
(** * Aria: messages on the wire

    src/aria/common (Message, MessagePiece, Encoder, Serialization, StringPiece),
    core/ControlMessage.h and the encoding and decoding in
    protocol/Aria/AriaMessage.h.  A message is a string of bytes: a packed
    header, a magic number and pieces, each with a packed header of its own.
    Integers are copied with memcpy, low byte first.  DCHECK is compiled out. *)

From S2P Require Import Prelude Bits.

(** ** Bytes *)

Notation bytes := (list Z).

(** memcpy of an integer of [n] bytes to and from a buffer (Serialization.h). *)
Fixpoint le_bytes (n : nat) (z : Z) : bytes :=
  match n with
  | O => []
  | S n => (z mod 256) :: le_bytes n (z / 256)
  end.

Fixpoint le_int (l : bytes) : Z :=
  match l with
  | [] => 0
  | b :: l => b + 256 * le_int l
  end.

(** [dec >> x] for an integer of [n] bytes: reading past the end has no result. *)
Definition dec_int (n : nat) (l : bytes) : option (Z * bytes) :=
  if decide (n ≤ length l)%nat then Some (le_int (take n l), drop n l) else None.

Definition dec_bool (l : bytes) : option (bool * bytes) :=
  '(z, l) ← dec_int 1 l; Some (negb (z =? 0)%Z, l).

Definition enc_bool (b : bool) : bytes := le_bytes 1 (Z.b2z b).

(** [read_n_bytes]. *)
Definition dec_bytes (n : nat) (l : bytes) : option (bytes * bytes) :=
  if decide (n ≤ length l)%nat then Some (take n l, drop n l) else None.

(** ** Message pieces *)

Module MessagePiece.

Notation MESSAGE_TYPE_MASK := (0xfff)%Z (only parsing).
Notation MESSAGE_TYPE_OFFSET := (52)%Z (only parsing).
Notation MESSAGE_LENGTH_MASK := (0x7fffffff)%Z (only parsing).
Notation MESSAGE_LENGTH_OFFSET := (21)%Z (only parsing).
Notation TABLE_ID_MASK := (0x1f)%Z (only parsing).
Notation TABLE_ID_OFFSET := (16)%Z (only parsing).
Notation PARTITION_ID_MASK := (0xffff)%Z (only parsing).
Notation PARTITION_ID_OFFSET := (0)%Z (only parsing).

Notation get_header_size := 8%nat (only parsing).

(** A piece is the bytes it views, header included. *)
Definition get_header (p : bytes) : Z := le_int (take 8 p).

Definition get_message_type (p : bytes) : Z := field_get MESSAGE_TYPE_OFFSET MESSAGE_TYPE_MASK (get_header p).
Definition get_message_length (p : bytes) : Z := field_get MESSAGE_LENGTH_OFFSET MESSAGE_LENGTH_MASK (get_header p).
Definition get_table_id (p : bytes) : Z := field_get TABLE_ID_OFFSET TABLE_ID_MASK (get_header p).
Definition get_partition_id (p : bytes) : Z := field_get PARTITION_ID_OFFSET PARTITION_ID_MASK (get_header p).

Definition toStringPiece (p : bytes) : bytes :=
  take (Z.to_nat (get_message_length p) - get_header_size) (drop get_header_size p).

Definition construct_message_piece_header (message_type message_length table_id partition_id : Z) : Z :=
  u64 (u64 (u64 (u64 (Z.shiftl message_type MESSAGE_TYPE_OFFSET) +
                 u64 (Z.shiftl message_length MESSAGE_LENGTH_OFFSET)) +
            u64 (Z.shiftl table_id TABLE_ID_OFFSET)) +
       u64 (Z.shiftl partition_id PARTITION_ID_OFFSET)).

End MessagePiece.

(** ** Messages *)

Record Message := mkMessage { data : bytes }.

Module Message.

Notation SOURCE_NODE_ID_MASK := (0x7f)%Z (only parsing).
Notation SOURCE_NODE_ID_OFFSET := (57)%Z (only parsing).
Notation DEST_NODE_ID_MASK := (0x7f)%Z (only parsing).
Notation DEST_NODE_ID_OFFSET := (50)%Z (only parsing).
Notation WORKER_ID_MASK := (0xff)%Z (only parsing).
Notation WORKER_ID_OFFSET := (42)%Z (only parsing).
Notation MESSAGE_COUNT_MASK := (0x7fff)%Z (only parsing).
Notation MESSAGE_COUNT_OFFSET := (27)%Z (only parsing).
Notation MESSAGE_LENGTH_MASK := (0x7ffffff)%Z (only parsing).
Notation MESSAGE_LENGTH_OFFSET := (0)%Z (only parsing).
Notation DEADBEEF := (0xDEADBEEF)%Z (only parsing).

Notation get_prefix_size := 12%nat (only parsing).

Definition get_header_ref (m : Message) : Z := le_int (take 8 (data m)).
Definition set_header_ref (m : Message) (h : Z) : Message := mkMessage (le_bytes 8 h ++ drop 8 (data m)).
Definition get_deadbeef_ref (m : Message) : Z := le_int (take 4 (drop 8 (data m))).
Definition set_deadbeef_ref (m : Message) (v : Z) : Message :=
  mkMessage (take 8 (data m) ++ le_bytes 4 v ++ drop 12 (data m)).

Definition get_source_node_id (m : Message) : Z := field_get SOURCE_NODE_ID_OFFSET SOURCE_NODE_ID_MASK (get_header_ref m).
Definition get_dest_node_id (m : Message) : Z := field_get DEST_NODE_ID_OFFSET DEST_NODE_ID_MASK (get_header_ref m).
Definition get_worker_id (m : Message) : Z := field_get WORKER_ID_OFFSET WORKER_ID_MASK (get_header_ref m).
Definition get_message_count (m : Message) : Z := field_get MESSAGE_COUNT_OFFSET MESSAGE_COUNT_MASK (get_header_ref m).
Definition get_message_length (m : Message) : Z := field_get MESSAGE_LENGTH_OFFSET MESSAGE_LENGTH_MASK (get_header_ref m).

(** The setters clear the field and or the value in. *)
Definition set_source_node_id (m : Message) (x : Z) : Message :=
  set_header_ref m (field_set 64 SOURCE_NODE_ID_OFFSET SOURCE_NODE_ID_MASK (get_header_ref m) x).
Definition set_dest_node_id (m : Message) (x : Z) : Message :=
  set_header_ref m (field_set 64 DEST_NODE_ID_OFFSET DEST_NODE_ID_MASK (get_header_ref m) x).
Definition set_worker_id (m : Message) (x : Z) : Message :=
  set_header_ref m (field_set 64 WORKER_ID_OFFSET WORKER_ID_MASK (get_header_ref m) x).
Definition set_message_count (m : Message) (x : Z) : Message :=
  set_header_ref m (field_set 64 MESSAGE_COUNT_OFFSET MESSAGE_COUNT_MASK (get_header_ref m) x).
Definition set_message_length (m : Message) (x : Z) : Message :=
  set_header_ref m (field_set 64 MESSAGE_LENGTH_OFFSET MESSAGE_LENGTH_MASK (get_header_ref m) x).

Definition new : Message :=
  let m := mkMessage (replicate get_prefix_size 0) in
  let m := set_message_length m (Z.of_nat (length (data m))) in
  set_deadbeef_ref m DEADBEEF.

Definition flush (m : Message) : Message :=
  let message_count := get_message_count m in
  let m := set_message_count m (message_count + 1) in
  set_message_length m (Z.of_nat (length (data m))).

Definition check_size (m : Message) : bool := (get_message_length m =? Z.of_nat (length (data m)))%Z.
Definition check_deadbeef (m : Message) : bool := (get_deadbeef_ref m =? DEADBEEF)%Z.

(** The loop from [begin()] to [end()], at the bytes [l] that are left.  A piece
    of length 0 compares equal to the end.  No result where the code would read
    past the end; [fuel] is the number of bytes, and a piece has at least one. *)
Fixpoint pieces_from (fuel : nat) (l : bytes) : option (list bytes) :=
  match l with
  | [] => Some []
  | _ =>
      if decide (length l < MessagePiece.get_header_size)%nat then None
      else
        let len := Z.to_nat (MessagePiece.get_message_length l) in
        if decide (len = 0)%nat then Some []
        else if decide (length l < len)%nat then None
        else
          match fuel with
          | O => None
          | S fuel => cons (take len l) <$> pieces_from fuel (drop len l)
          end
  end.

Definition pieces (m : Message) : option (list bytes) :=
  pieces_from (length (data m)) (drop get_prefix_size (data m)).

End Message.

(** [init_message] of the executors and managers. *)
Definition init_message (m : Message) (coordinator_id id dest_node_id : Z) : Message :=
  let m := Message.set_source_node_id m coordinator_id in
  let m := Message.set_dest_node_id m dest_node_id in
  Message.set_worker_id m id.

(** ** Control messages *)

Notation STATISTICS := (0)%Z (only parsing).
Notation VECTOR := (1)%Z (only parsing).
Notation SIGNAL := (2)%Z (only parsing).
Notation ACK := (3)%Z (only parsing).
Notation STOP := (4)%Z (only parsing).
Notation NFIELDS := (5)%Z (only parsing).

(** The end of every factory: the header and the body are appended, and the
    message is flushed.  The size of the piece is returned. *)
Definition append_piece (m : Message) (message_type : Z) (message_size : nat) (table_id partition_id : Z) (body : bytes) :
    Message * Z :=
  let header := MessagePiece.construct_message_piece_header message_type (Z.of_nat message_size) table_id partition_id in
  (Message.flush (mkMessage (data m ++ le_bytes 8 header ++ body)), Z.of_nat message_size).

Definition new_signal_message (m : Message) (value : Z) : Message * Z :=
  append_piece m SIGNAL (MessagePiece.get_header_size + 4) 0 0 (le_bytes 4 value).
Definition new_ack_message (m : Message) : Message * Z := append_piece m ACK MessagePiece.get_header_size 0 0 [].
Definition new_stop_message (m : Message) : Message * Z := append_piece m STOP MessagePiece.get_header_size 0 0 [].

(** ** Messages of the protocol *)

(** The sizes a table has for its keys, its values in memory and its values
    field by field. *)
Record ITable := mkITable { tableID : Z; partitionID : Z; key_size : nat; value_size : nat; field_size : nat }.

Notation SEARCH_REQUEST := (NFIELDS)%Z (only parsing).
Notation SEARCH_RESPONSE := (NFIELDS + 1)%Z (only parsing).
Notation RESERVE_REQUEST := (NFIELDS + 2)%Z (only parsing).
Notation CHECK_REQUEST := (NFIELDS + 3)%Z (only parsing).
Notation CHECK_RESPONSE := (NFIELDS + 4)%Z (only parsing).
Notation WRITE_REQUEST := (NFIELDS + 5)%Z (only parsing).

Definition new_search_message (m : Message) (table : ITable) (tid tid_offset : Z) (key : bytes) (key_offset : Z) :
    Message * Z :=
  append_piece m SEARCH_REQUEST (MessagePiece.get_header_size + key_size table + 4 + 4 + 4) (tableID table) (partitionID table)
    (take (key_size table) key ++ le_bytes 4 tid ++ le_bytes 4 tid_offset ++ le_bytes 4 key_offset).

Definition new_reserve_message (m : Message) (table : ITable) (tid : Z) (key : bytes) (epoch : Z) (is_write : bool) :
    Message * Z :=
  append_piece m RESERVE_REQUEST (MessagePiece.get_header_size + key_size table + 4 + 4 + 1) (tableID table) (partitionID table)
    (take (key_size table) key ++ le_bytes 4 tid ++ le_bytes 4 epoch ++ enc_bool is_write).

Definition new_check_message (m : Message) (table : ITable) (tid tid_offset : Z) (key : bytes) (epoch : Z) (is_write : bool) :
    Message * Z :=
  append_piece m CHECK_REQUEST (MessagePiece.get_header_size + key_size table + 4 + 4 + 4 + 1)
    (tableID table) (partitionID table)
    (take (key_size table) key ++ le_bytes 4 tid ++ le_bytes 4 tid_offset ++ le_bytes 4 epoch ++ enc_bool is_write).

(** [value] is the value as [serialize_value] writes it. *)
Definition new_write_message (m : Message) (table : ITable) (key value : bytes) : Message * Z :=
  append_piece m WRITE_REQUEST (MessagePiece.get_header_size + key_size table + field_size table)
    (tableID table) (partitionID table) (take (key_size table) key ++ value).

(** The responses that [search_request_handler] and [check_request_handler] append. *)
Definition search_response (m : Message) (table : ITable) (value : bytes) (tid tid_offset key_offset : Z) : Message * Z :=
  append_piece m SEARCH_RESPONSE (MessagePiece.get_header_size + value_size table + 4 + 4 + 4)
    (tableID table) (partitionID table)
    (take (value_size table) value ++ le_bytes 4 tid ++ le_bytes 4 tid_offset ++ le_bytes 4 key_offset).

Definition check_response (m : Message) (table : ITable) (tid tid_offset : Z) (is_write waw war raw : bool) : Message * Z :=
  append_piece m CHECK_RESPONSE (MessagePiece.get_header_size + 4 + 4 + 1 * 4) (tableID table) (partitionID table)
    (le_bytes 4 tid ++ le_bytes 4 tid_offset ++ enc_bool is_write ++ enc_bool waw ++ enc_bool war ++ enc_bool raw).

(** What a piece says. *)
Inductive content :=
| SearchRequest (key : bytes) (tid tid_offset key_offset : Z)
| SearchResponse (value : bytes) (tid tid_offset key_offset : Z)
| ReserveRequest (key : bytes) (tid epoch : Z) (is_write : bool)
| CheckRequest (key : bytes) (tid tid_offset epoch : Z) (is_write : bool)
| CheckResponse (tid tid_offset : Z) (is_write waw war raw : bool)
| WriteRequest (key value : bytes).

Definition add_content (m : Message) (table : ITable) (c : content) : Message * Z :=
  match c with
  | SearchRequest key tid tid_offset key_offset => new_search_message m table tid tid_offset key key_offset
  | SearchResponse value tid tid_offset key_offset => search_response m table value tid tid_offset key_offset
  | ReserveRequest key tid epoch is_write => new_reserve_message m table tid key epoch is_write
  | CheckRequest key tid tid_offset epoch is_write => new_check_message m table tid tid_offset key epoch is_write
  | CheckResponse tid tid_offset is_write waw war raw => check_response m table tid tid_offset is_write waw war raw
  | WriteRequest key value => new_write_message m table key value
  end.

(** How the handlers take a piece apart. *)
Definition read_search_request (table : ITable) (p : bytes) : option content :=
  '(key, l) ← dec_bytes (key_size table) (MessagePiece.toStringPiece p);
  '(tid, l) ← dec_int 4 l; '(tid_offset, l) ← dec_int 4 l; '(key_offset, l) ← dec_int 4 l;
  Some (SearchRequest key tid tid_offset key_offset).

Definition read_search_response (table : ITable) (p : bytes) : option content :=
  '(value, l) ← dec_bytes (value_size table) (MessagePiece.toStringPiece p);
  '(tid, l) ← dec_int 4 l; '(tid_offset, l) ← dec_int 4 l; '(key_offset, l) ← dec_int 4 l;
  Some (SearchResponse value tid tid_offset key_offset).

Definition read_reserve_request (table : ITable) (p : bytes) : option content :=
  '(key, l) ← dec_bytes (key_size table) (MessagePiece.toStringPiece p);
  '(tid, l) ← dec_int 4 l; '(epoch, l) ← dec_int 4 l; '(is_write, l) ← dec_bool l;
  Some (ReserveRequest key tid epoch is_write).

Definition read_check_request (table : ITable) (p : bytes) : option content :=
  '(key, l) ← dec_bytes (key_size table) (MessagePiece.toStringPiece p);
  '(tid, l) ← dec_int 4 l; '(tid_offset, l) ← dec_int 4 l; '(epoch, l) ← dec_int 4 l; '(is_write, l) ← dec_bool l;
  Some (CheckRequest key tid tid_offset epoch is_write).

Definition read_check_response (table : ITable) (p : bytes) : option content :=
  let l := MessagePiece.toStringPiece p in
  '(tid, l) ← dec_int 4 l; '(tid_offset, l) ← dec_int 4 l;
  '(is_write, l) ← dec_bool l; '(waw, l) ← dec_bool l; '(war, l) ← dec_bool l; '(raw, l) ← dec_bool l;
  Some (CheckResponse tid tid_offset is_write waw war raw).

Definition read_write_request (table : ITable) (p : bytes) : option content :=
  '(key, l) ← dec_bytes (key_size table) (MessagePiece.toStringPiece p);
  Some (WriteRequest key l).

(** [messageHandlers[type]] for a piece of table [find_table table_id partition_id];
    the handlers below [NFIELDS] are empty. *)
Definition get_message_handlers : list (option (ITable → bytes → option content)) :=
  replicate (Z.to_nat NFIELDS) None ++
  [Some read_search_request; Some read_search_response; Some read_reserve_request; Some read_check_request;
   Some read_check_response; Some read_write_request].

Definition read_piece (find_table : Z → Z → ITable) (p : bytes) : option (ITable * content) :=
  let table := find_table (MessagePiece.get_table_id p) (MessagePiece.get_partition_id p) in
  handler ← mjoin (get_message_handlers !! Z.to_nat (MessagePiece.get_message_type p));
  c ← handler table p;
  Some (table, c).

Definition read_message (find_table : Z → Z → ITable) (m : Message) : option (list (ITable * content)) :=
  Message.pieces m ≫= mapM (read_piece find_table).

(** ** Lemmas on bytes *)

Lemma length_le_bytes n z : length (le_bytes n z) = n.
Proof. revert z. induction n; intros; simpl; auto. Qed.

Lemma le_int_le_bytes n z : 0 ≤ z < 256 ^ Z.of_nat n → le_int (le_bytes n z) = z.
Proof.
  revert z. induction n as [|n IH]; intros z Hz; simpl; [change (256 ^ Z.of_nat 0) with 1 in Hz; lia|].
  rewrite Nat2Z.inj_succ, Z.pow_succ_r in Hz by lia. rewrite IH.
  - rewrite (Z.div_mod z 256) at 3 by lia. lia.
  - split; [apply Z.div_pos; lia|]. apply Z.div_lt_upper_bound; lia.
Qed.

Lemma take_le_bytes n z l : take n (le_bytes n z ++ l) = le_bytes n z.
Proof. apply take_app_length'. by rewrite length_le_bytes. Qed.

Lemma drop_le_bytes n z l : drop n (le_bytes n z ++ l) = l.
Proof. apply drop_app_length'. by rewrite length_le_bytes. Qed.

Lemma dec_int_app n z l : 0 ≤ z < 256 ^ Z.of_nat n → dec_int n (le_bytes n z ++ l) = Some (z, l).
Proof.
  intros Hz. unfold dec_int. rewrite decide_True by (rewrite length_app, length_le_bytes; lia).
  by rewrite take_le_bytes, drop_le_bytes, le_int_le_bytes.
Qed.

Lemma dec_bool_app b l : dec_bool (enc_bool b ++ l) = Some (b, l).
Proof. unfold dec_bool, enc_bool. rewrite dec_int_app by (destruct b; simpl; lia). by destruct b. Qed.

Lemma dec_bytes_app n k l : length k = n → dec_bytes n (k ++ l) = Some (k, l).
Proof.
  intros <-. unfold dec_bytes. rewrite decide_True by (rewrite length_app; lia).
  by rewrite take_app_length, drop_app_length.
Qed.

(** ** Lemmas on headers *)

Definition u32 (z : Z) : Prop := 0 ≤ z < 2 ^ 32.

Lemma header_fields message_type message_length table_id partition_id :
  0 ≤ message_type < 2 ^ 12 → 0 ≤ message_length < 2 ^ 31 → 0 ≤ table_id < 2 ^ 5 → 0 ≤ partition_id < 2 ^ 16 →
  let h := MessagePiece.construct_message_piece_header message_type message_length table_id partition_id in
  is_u64 h ∧ field_get 52 (Z.ones 12) h = message_type ∧ field_get 21 (Z.ones 31) h = message_length ∧
  field_get 16 (Z.ones 5) h = table_id ∧ field_get 0 (Z.ones 16) h = partition_id.
Proof.
  intros Ht Hl Hi Hp h. assert (h = message_type * 2 ^ 52 + message_length * 2 ^ 21 + table_id * 2 ^ 16 + partition_id) as Hh.
  { unfold h, MessagePiece.construct_message_piece_header. rewrite !Z.shiftl_mul_pow2 by done.
    rewrite (u64_id (message_type * _)), (u64_id (message_length * _)), (u64_id (table_id * _)),
      (u64_id (partition_id * _)), (u64_id (message_type * _ + _)), (u64_id (_ + table_id * _)), u64_id
      by (unfold is_u64; lia). lia. }
  clearbody h. subst h. unfold is_u64, field_get. rewrite !Z.shiftr_div_pow2, !Z.land_ones by done.
  split_and!; Z.to_euclidean_division_equations; lia.
Qed.

(** A message whose header is [h] and whose pieces are the bytes [body]. *)
Definition framed (h : Z) (body : bytes) (m : Message) : Prop :=
  is_u64 h ∧ data m = le_bytes 8 h ++ le_bytes 4 Message.DEADBEEF ++ body.

Lemma framed_header h body m : framed h body m → Message.get_header_ref m = h.
Proof.
  intros [Hh Hm]. unfold Message.get_header_ref. rewrite Hm, take_le_bytes. apply le_int_le_bytes. done.
Qed.

Lemma framed_set h body m h' : framed h body m → is_u64 h' → framed h' body (Message.set_header_ref m h').
Proof. intros [Hh Hm] Hh'. split; [done|]. simpl. by rewrite Hm, drop_le_bytes. Qed.

(** The fields of the header of a message. *)
Record fields (src dst wid count len h : Z) : Prop := {
  fl_src : field_get 57 (Z.ones 7) h = src;
  fl_dst : field_get 50 (Z.ones 7) h = dst;
  fl_wid : field_get 42 (Z.ones 8) h = wid;
  fl_count : field_get 27 (Z.ones 15) h = count;
  fl_len : field_get 0 (Z.ones 27) h = len
}.

Ltac set_field := split; first [rewrite field_get_set by lia; reflexivity | rewrite field_get_set_ne by lia; assumption].

Lemma fields_set_src src dst wid count len h x : is_u64 h → 0 ≤ x < 2 ^ 7 → fields src dst wid count len h →
  is_u64 (field_set 64 57 (Z.ones 7) h x) ∧ fields x dst wid count len (field_set 64 57 (Z.ones 7) h x).
Proof. unfold is_u64. intros Hh Hx []. split; [by apply field_set_range|]. set_field. Qed.

Lemma fields_set_dst src dst wid count len h x : is_u64 h → 0 ≤ x < 2 ^ 7 → fields src dst wid count len h →
  is_u64 (field_set 64 50 (Z.ones 7) h x) ∧ fields src x wid count len (field_set 64 50 (Z.ones 7) h x).
Proof. unfold is_u64. intros Hh Hx []. split; [by apply field_set_range|]. set_field. Qed.

Lemma fields_set_wid src dst wid count len h x : is_u64 h → 0 ≤ x < 2 ^ 8 → fields src dst wid count len h →
  is_u64 (field_set 64 42 (Z.ones 8) h x) ∧ fields src dst x count len (field_set 64 42 (Z.ones 8) h x).
Proof. unfold is_u64. intros Hh Hx []. split; [by apply field_set_range|]. set_field. Qed.

Lemma fields_set_count src dst wid count len h x : is_u64 h → 0 ≤ x < 2 ^ 15 → fields src dst wid count len h →
  is_u64 (field_set 64 27 (Z.ones 15) h x) ∧ fields src dst wid x len (field_set 64 27 (Z.ones 15) h x).
Proof. unfold is_u64. intros Hh Hx []. split; [by apply field_set_range|]. set_field. Qed.

Lemma fields_set_len src dst wid count len h x : is_u64 h → 0 ≤ x < 2 ^ 27 → fields src dst wid count len h →
  is_u64 (field_set 64 0 (Z.ones 27) h x) ∧ fields src dst wid count x (field_set 64 0 (Z.ones 27) h x).
Proof. unfold is_u64. intros Hh Hx []. split; [by apply field_set_range|]. set_field. Qed.

(** ** Lemmas on pieces *)

Definition content_type (c : content) : Z :=
  match c with
  | SearchRequest _ _ _ _ => SEARCH_REQUEST
  | SearchResponse _ _ _ _ => SEARCH_RESPONSE
  | ReserveRequest _ _ _ _ => RESERVE_REQUEST
  | CheckRequest _ _ _ _ _ => CHECK_REQUEST
  | CheckResponse _ _ _ _ _ _ => CHECK_RESPONSE
  | WriteRequest _ _ => WRITE_REQUEST
  end.

Definition content_body (c : content) : bytes :=
  match c with
  | SearchRequest key tid tid_offset key_offset =>
      key ++ le_bytes 4 tid ++ le_bytes 4 tid_offset ++ le_bytes 4 key_offset ++ []
  | SearchResponse value tid tid_offset key_offset =>
      value ++ le_bytes 4 tid ++ le_bytes 4 tid_offset ++ le_bytes 4 key_offset ++ []
  | ReserveRequest key tid epoch is_write => key ++ le_bytes 4 tid ++ le_bytes 4 epoch ++ enc_bool is_write ++ []
  | CheckRequest key tid tid_offset epoch is_write =>
      key ++ le_bytes 4 tid ++ le_bytes 4 tid_offset ++ le_bytes 4 epoch ++ enc_bool is_write ++ []
  | CheckResponse tid tid_offset is_write waw war raw =>
      le_bytes 4 tid ++ le_bytes 4 tid_offset ++ enc_bool is_write ++ enc_bool waw ++ enc_bool war ++ enc_bool raw ++ []
  | WriteRequest key value => key ++ value
  end.

(** The arguments of a factory fit their types and the table. *)
Definition content_ok (find_table : Z → Z → ITable) (tc : ITable * content) : Prop :=
  let table := tc.1 in
  find_table (tableID table) (partitionID table) = table ∧ 0 ≤ tableID table < 2 ^ 5 ∧ 0 ≤ partitionID table < 2 ^ 16 ∧
  match tc.2 with
  | SearchRequest key tid tid_offset key_offset => length key = key_size table ∧ u32 tid ∧ u32 tid_offset ∧ u32 key_offset
  | SearchResponse value tid tid_offset key_offset =>
      length value = value_size table ∧ u32 tid ∧ u32 tid_offset ∧ u32 key_offset
  | ReserveRequest key tid epoch _ => length key = key_size table ∧ u32 tid ∧ u32 epoch
  | CheckRequest key tid tid_offset epoch _ => length key = key_size table ∧ u32 tid ∧ u32 tid_offset ∧ u32 epoch
  | CheckResponse tid tid_offset _ _ _ _ => u32 tid ∧ u32 tid_offset
  | WriteRequest key value => length key = key_size table ∧ length value = field_size table
  end.

Definition piece_header (tc : ITable * content) : Z :=
  MessagePiece.construct_message_piece_header (content_type tc.2) (8 + Z.of_nat (length (content_body tc.2)))
    (tableID tc.1) (partitionID tc.1).

Definition piece_bytes (tc : ITable * content) : bytes := le_bytes 8 (piece_header tc) ++ content_body tc.2.

Lemma length_piece_bytes tc : length (piece_bytes tc) = (8 + length (content_body tc.2))%nat.
Proof. unfold piece_bytes. by rewrite length_app, length_le_bytes. Qed.

Lemma append_piece_bytes m ty size t p body : size = (8 + length body)%nat →
  (append_piece m ty size t p body).1 =
  Message.flush (mkMessage (data m ++ le_bytes 8 (MessagePiece.construct_message_piece_header ty
    (8 + Z.of_nat (length body)) t p) ++ body)).
Proof. intros ->. unfold append_piece. cbn [fst]. by rewrite Nat2Z.inj_add. Qed.

Lemma add_content_bytes ft m tc : content_ok ft tc →
  (add_content m tc.1 tc.2).1 = Message.flush (mkMessage (data m ++ piece_bytes tc)).
Proof.
  destruct tc as [table c]. intros (_ & _ & _ & Hc). unfold piece_bytes, piece_header. cbn [fst snd] in *.
  destruct c; cbn [add_content content_type content_body] in *; rewrite ?app_nil_r;
    repeat match goal with H : _ ∧ _ |- _ => destruct H end;
    unfold new_search_message, search_response, new_reserve_message, new_check_message, check_response, new_write_message;
    rewrite ?take_ge by lia; apply append_piece_bytes;
    rewrite !length_app; unfold enc_bool; rewrite ?length_le_bytes; lia.
Qed.

Lemma piece_fields ft tc rest : content_ok ft tc → Z.of_nat (length (piece_bytes tc)) < 2 ^ 27 →
  let p := piece_bytes tc ++ rest in
  MessagePiece.get_message_type p = content_type tc.2 ∧
  MessagePiece.get_message_length p = Z.of_nat (length (piece_bytes tc)) ∧
  MessagePiece.get_table_id p = tableID tc.1 ∧ MessagePiece.get_partition_id p = partitionID tc.1 ∧
  drop MessagePiece.get_header_size p = content_body tc.2 ++ rest.
Proof.
  intros (_ & Ht & Hp & _) Hlen p. rewrite length_piece_bytes in *. 
  destruct (header_fields (content_type tc.2) (8 + Z.of_nat (length (content_body tc.2))) (tableID tc.1) (partitionID tc.1))
    as (Hu & H1 & H2 & H3 & H4); [destruct tc.2; vm_compute; split; congruence|lia|done|done|].
  assert (MessagePiece.get_header p = piece_header tc) as Hh.
  { unfold MessagePiece.get_header, p, piece_bytes. rewrite <- app_assoc, take_le_bytes. by apply le_int_le_bytes. }
  unfold MessagePiece.get_message_type, MessagePiece.get_message_length, MessagePiece.get_table_id,
    MessagePiece.get_partition_id. rewrite Hh. fold (piece_header tc) in H1, H2, H3, H4.
  split_and!; [done|rewrite Nat2Z.inj_add; apply H2|done|done|]. unfold p, piece_bytes. rewrite <- app_assoc.
  apply (drop_le_bytes 8).
Qed.

Ltac decode :=
  repeat match goal with
  | |- context [dec_bytes _ (?k ++ ?l)] => rewrite (dec_bytes_app _ k l) by lia; cbn [mbind option_bind]
  | |- context [dec_int ?n (le_bytes ?n ?z ++ ?l)] =>
      rewrite (dec_int_app n z l) by (change (256 ^ Z.of_nat n) with (2 ^ 32); lia); cbn [mbind option_bind]
  | |- context [dec_bool (enc_bool ?b ++ ?l)] => rewrite (dec_bool_app b l); cbn [mbind option_bind]
  end.

Definition reader_of (c : content) : ITable → bytes → option content :=
  match c with
  | SearchRequest _ _ _ _ => read_search_request
  | SearchResponse _ _ _ _ => read_search_response
  | ReserveRequest _ _ _ _ => read_reserve_request
  | CheckRequest _ _ _ _ _ => read_check_request
  | CheckResponse _ _ _ _ _ _ => read_check_response
  | WriteRequest _ _ => read_write_request
  end.

Lemma get_message_handlers_lookup c : mjoin (get_message_handlers !! Z.to_nat (content_type c)) = Some (reader_of c).
Proof. by destruct c. Qed.

Lemma reader_of_body ft table c p : content_ok ft (table, c) → MessagePiece.toStringPiece p = content_body c →
  reader_of c table p = Some c.
Proof.
  intros (_ & _ & _ & Hc) Hs. cbn [fst snd] in Hc. unfold u32 in Hc.
  destruct c; cbn [content_body reader_of] in *; repeat match goal with H : _ ∧ _ |- _ => destruct H end;
    unfold read_search_request, read_search_response, read_reserve_request, read_check_request, read_check_response,
      read_write_request; rewrite Hs; decode; reflexivity.
Qed.

Lemma read_piece_bytes ft tc : content_ok ft tc → Z.of_nat (length (piece_bytes tc)) < 2 ^ 27 →
  read_piece ft (piece_bytes tc) = Some tc.
Proof.
  intros Hok Hlen. destruct (piece_fields ft tc [] Hok Hlen) as (H1 & H2 & H3 & H4 & H5).
  rewrite app_nil_r in H1, H2, H3, H4, H5. unfold read_piece. rewrite H1, H3, H4, get_message_handlers_lookup.
  pose proof Hok as (-> & _). cbn [mbind option_bind]. destruct tc as [table c].
  rewrite (reader_of_body ft table c); [done|done|].
  unfold MessagePiece.toStringPiece. rewrite H5, H2, app_nil_r, length_piece_bytes. apply take_ge.
  cbn [snd]. lia.
Qed.

(** ** Whole messages *)

Definition built (src dst wid : Z) (cs : list (ITable * content)) (m : Message) : Prop :=
  ∃ h, framed h (mjoin (piece_bytes <$> cs)) m ∧
    fields src dst wid (Z.of_nat (length cs)) (Z.of_nat (length (data m))) h.

Lemma framed_length h body m : framed h body m → length (data m) = (12 + length body)%nat.
Proof. intros [_ ->]. by rewrite !length_app, !length_le_bytes. Qed.

(** The setters on a message whose header is known. *)
Section setters.
Context (h x : Z) (body : bytes) (m : Message) (Hm : framed h body m).

Lemma set_source_framed : Message.set_source_node_id m x = Message.set_header_ref m (field_set 64 57 (Z.ones 7) h x).
Proof using Hm. unfold Message.set_source_node_id. by rewrite (framed_header _ _ _ Hm). Qed.
Lemma set_dest_framed : Message.set_dest_node_id m x = Message.set_header_ref m (field_set 64 50 (Z.ones 7) h x).
Proof using Hm. unfold Message.set_dest_node_id. by rewrite (framed_header _ _ _ Hm). Qed.
Lemma set_worker_framed : Message.set_worker_id m x = Message.set_header_ref m (field_set 64 42 (Z.ones 8) h x).
Proof using Hm. unfold Message.set_worker_id. by rewrite (framed_header _ _ _ Hm). Qed.
Lemma set_count_framed : Message.set_message_count m x = Message.set_header_ref m (field_set 64 27 (Z.ones 15) h x).
Proof using Hm. unfold Message.set_message_count. by rewrite (framed_header _ _ _ Hm). Qed.
Lemma set_length_framed : Message.set_message_length m x = Message.set_header_ref m (field_set 64 0 (Z.ones 27) h x).
Proof using Hm. unfold Message.set_message_length. by rewrite (framed_header _ _ _ Hm). Qed.
End setters.

Lemma new_built src dst wid : 0 ≤ src < 2 ^ 7 → 0 ≤ dst < 2 ^ 7 → 0 ≤ wid < 2 ^ 8 →
  built src dst wid [] (init_message Message.new src wid dst).
Proof.
  intros Hs Hd Hw. assert (framed 12 [] Message.new) as H0 by (split; [split; [lia|done]|reflexivity]).
  assert (fields 0 0 0 0 12 12) as F0 by (by split).
  assert (is_u64 12) as U0 by (split; [lia|done]).
  destruct (fields_set_src _ _ _ _ _ _ src U0 Hs F0) as [U1 F1].
  destruct (fields_set_dst _ _ _ _ _ _ dst U1 Hd F1) as [U2 F2].
  destruct (fields_set_wid _ _ _ _ _ _ wid U2 Hw F2) as [U3 F3].
  pose proof (framed_set _ _ _ _ H0 U1) as H1. pose proof (framed_set _ _ _ _ H1 U2) as H2.
  pose proof (framed_set _ _ _ _ H2 U3) as H3.
  unfold init_message. cbv zeta.
  rewrite (set_source_framed _ _ _ _ H0), (set_dest_framed _ _ _ _ H1), (set_worker_framed _ _ _ _ H2).
  eexists. split; [exact H3|]. rewrite (framed_length _ _ _ H3). exact F3.
Qed.

Lemma add_content_built ft src dst wid cs m tc : content_ok ft tc → built src dst wid cs m →
  Z.of_nat (length cs) + 1 < 2 ^ 15 → Z.of_nat (length (data (add_content m tc.1 tc.2).1)) < 2 ^ 27 →
  built src dst wid (cs ++ [tc]) (add_content m tc.1 tc.2).1.
Proof.
  intros Hok (h & Hm & Hf) Hcount Hlen. rewrite (add_content_bytes ft) in * by done.
  set (m1 := mkMessage (data m ++ piece_bytes tc)) in *.
  assert (framed h (mjoin (piece_bytes <$> cs ++ [tc])) m1) as H1.
  { destruct Hm as [Hh Hm]. split; [done|]. unfold m1. cbn [data]. rewrite Hm, fmap_app, join_app.
    change (mjoin (piece_bytes <$> [tc])) with (piece_bytes tc ++ []). by rewrite app_nil_r, <- !app_assoc. }
  assert (is_u64 h) as U0 by apply Hm.
  destruct (fields_set_count _ _ _ _ _ _ (Z.of_nat (length cs) + 1) U0 ltac:(lia) Hf) as [U1 F1].
  pose proof (framed_set _ _ _ _ H1 U1) as H2.
  set (m2 := Message.set_header_ref m1 (field_set 64 27 (Z.ones 15) h (Z.of_nat (length cs) + 1))) in *.
  assert (Message.flush m1 = Message.set_header_ref m2 (field_set 64 0 (Z.ones 27)
    (field_set 64 27 (Z.ones 15) h (Z.of_nat (length cs) + 1)) (Z.of_nat (length (data m2))))) as Hfl.
  { unfold Message.flush. cbv zeta. replace (Message.get_message_count m1) with (Z.of_nat (length cs)).
    - rewrite (set_count_framed _ _ _ _ H1). fold m2. by rewrite (set_length_framed _ _ _ _ H2).
    - symmetry. unfold Message.get_message_count. rewrite (framed_header _ _ _ H1). apply Hf. }
  pose proof (framed_length _ _ _ H2) as Hl2. rewrite Hfl in Hlen |- *.
  assert (∀ h', is_u64 h' → length (data (Message.set_header_ref m2 h')) = length (data m2)) as Hl3.
  { intros h' Hh'. by rewrite Hl2, (framed_length _ _ _ (framed_set _ _ _ _ H2 Hh')). }
  rewrite Hl3 in Hlen by (apply (field_set_range 64 0 27); [lia..|exact U1]).
  destruct (fields_set_len _ _ _ _ _ _ (Z.of_nat (length (data m2))) U1 ltac:(lia) F1) as [U2 F2].
  eexists. split; [apply (framed_set _ _ _ _ H2 U2)|]. rewrite Hl3 by done. rewrite length_app. simpl.
  rewrite Nat2Z.inj_add. exact F2.
Qed.

Lemma pieces_from_bytes ft cs fuel : Forall (content_ok ft) cs → (length cs ≤ fuel)%nat →
  Z.of_nat (length (mjoin (piece_bytes <$> cs))) < 2 ^ 27 →
  Message.pieces_from fuel (mjoin (piece_bytes <$> cs)) = Some (piece_bytes <$> cs).
Proof.
  intros Hok. revert fuel. induction Hok as [|tc cs Htc _ IH]; intros fuel Hfuel Hlen; [by destruct fuel|].
  change (mjoin (piece_bytes <$> tc :: cs)) with (piece_bytes tc ++ mjoin (piece_bytes <$> cs)) in *.
  rewrite length_app in Hlen. destruct (piece_fields ft tc (mjoin (piece_bytes <$> cs)) Htc) as (_ & Hl & _); [lia|].
  pose proof (length_piece_bytes tc) as Hpl. simpl in Hfuel. destruct fuel as [|fuel]; [lia|].
  unfold Message.pieces_from; fold Message.pieces_from. destruct (piece_bytes tc ++ _) as [|b l] eqn:Hb.
  { apply (f_equal length) in Hb. rewrite length_app in Hb. simpl in Hb. lia. }
  rewrite Hl, <- Hb, Nat2Z.id, length_app.
  rewrite decide_False, decide_False, decide_False, take_app_length, drop_app_length by lia.
  rewrite IH by lia. done.
Qed.

Lemma pieces_count cs : (length cs ≤ length (mjoin (piece_bytes <$> cs)))%nat.
Proof.
  induction cs as [|tc cs IH]; [done|].
  change (mjoin (piece_bytes <$> tc :: cs)) with (piece_bytes tc ++ mjoin (piece_bytes <$> cs)).
  rewrite length_app, length_piece_bytes. simpl. lia.
Qed.

Lemma read_pieces ft cs : Forall (content_ok ft) cs → Z.of_nat (length (mjoin (piece_bytes <$> cs))) < 2 ^ 27 →
  mapM (read_piece ft) (piece_bytes <$> cs) = Some cs.
Proof.
  induction 1 as [|tc cs Htc _ IH]; intros Hlen; [done|].
  change (mjoin (piece_bytes <$> tc :: cs)) with (piece_bytes tc ++ mjoin (piece_bytes <$> cs)) in Hlen.
  rewrite length_app in Hlen. cbn [fmap list_fmap mapM]. rewrite read_piece_bytes by (done || lia).
  cbn [mbind option_bind]. rewrite IH by lia. done.
Qed.

Lemma length_set_header m h : (length (data m) ≤ length (data (Message.set_header_ref m h)))%nat.
Proof. cbn [Message.set_header_ref data]. rewrite length_app, length_le_bytes, length_drop. lia. Qed.

Lemma flush_length m l : (length (data m) ≤ length (data (Message.flush (mkMessage (data m ++ l)))))%nat.
Proof.
  unfold Message.flush, Message.set_message_length, Message.set_message_count. cbv zeta.
  etrans; [|apply length_set_header]. etrans; [|apply length_set_header]. cbn [data]. rewrite length_app. lia.
Qed.

(** C29. What is put into a message comes out of it.  If the ids and the arguments of
    the factories fit their fields, at most 2^15 - 1 pieces are added and the
    message stays below 2^27 bytes, then its header has the ids, the number of
    pieces and its size, its magic number is right, and the pieces are read back
    in order, each by the handler of its type and with the same arguments. *)
Theorem message_roundtrip find_table src dst wid (cs : list (ITable * content)) :
  0 ≤ src < 2 ^ 7 → 0 ≤ dst < 2 ^ 7 → 0 ≤ wid < 2 ^ 8 →
  Forall (content_ok find_table) cs → Z.of_nat (length cs) < 2 ^ 15 →
  let m := foldl (λ m tc, (add_content m tc.1 tc.2).1) (init_message Message.new src wid dst) cs in
  Z.of_nat (length (data m)) < 2 ^ 27 →
  Message.get_source_node_id m = src ∧ Message.get_dest_node_id m = dst ∧ Message.get_worker_id m = wid ∧
  Message.get_message_count m = Z.of_nat (length cs) ∧ Message.check_size m = true ∧ Message.check_deadbeef m = true ∧
  read_message find_table m = Some cs.
Proof.
  intros Hs Hd Hw Hok Hcount m Hlen.
  assert (built src dst wid cs m) as (h & Hm & Hf).
  { clear -Hs Hd Hw Hok Hcount Hlen. subst m. induction cs as [|tc cs IH] using rev_ind; [by apply new_built|].
    rewrite foldl_app in Hlen |- *. simpl in Hlen |- *. apply Forall_app in Hok as [Hok [Htc _]%Forall_cons].
    rewrite length_app in Hcount. simpl in Hcount. apply (add_content_built find_table); [done| |lia|done].
    apply IH; [done|lia|]. eapply Z.le_lt_trans; [|exact Hlen]. apply Nat2Z.inj_le.
    rewrite (add_content_bytes find_table) by done. apply flush_length. }
  pose proof (framed_header _ _ _ Hm) as Hh. destruct Hf as [F1 F2 F3 F4 F5].
  unfold Message.get_source_node_id, Message.get_dest_node_id, Message.get_worker_id, Message.get_message_count,
    Message.check_size, Message.get_message_length. rewrite Hh.
  split_and!; [done|done|done|done|by apply Z.eqb_eq| |].
  - unfold Message.check_deadbeef, Message.get_deadbeef_ref. destruct Hm as [_ ->]. rewrite (drop_le_bytes 8), (take_le_bytes 4).
    reflexivity.
  - pose proof (framed_length _ _ _ Hm) as Hl. unfold read_message, Message.pieces.
    assert (drop Message.get_prefix_size (data m) = mjoin (piece_bytes <$> cs)) as ->.
    { destruct Hm as [_ ->]. rewrite app_assoc. apply drop_app_length'. by rewrite length_app, !length_le_bytes. }
    rewrite (pieces_from_bytes find_table) by (done || pose proof (pieces_count cs); lia).
    apply read_pieces; [done|lia].
Qed.

Definition demo_table : ITable := mkITable 3 7 4 2 2.
Definition demo_contents : list (ITable * content) :=
  [(demo_table, SearchRequest [1; 2; 3; 4] 70000 6 1); (demo_table, ReserveRequest [1; 2; 3; 4] 9 2 true);
   (demo_table, CheckResponse 9 2 true false true false); (demo_table, WriteRequest [1; 2; 3; 4] [8; 9])].

Lemma message_roundtrip_witness :
  let m := foldl (λ m tc, (add_content m tc.1 tc.2).1) (init_message Message.new 1 3 2) demo_contents in
  Message.get_source_node_id m = 1 ∧ Message.get_dest_node_id m = 2 ∧ Message.get_worker_id m = 3 ∧
  Message.get_message_count m = 4 ∧ Message.check_size m = true ∧ Message.check_deadbeef m = true ∧
  read_message (λ _ _, demo_table) m = Some demo_contents.
Proof.
  apply (message_roundtrip (λ _ _, demo_table) 1 2 3 demo_contents); [lia..| |vm_compute; reflexivity|vm_compute; reflexivity].
  repeat constructor; simpl; unfold u32; try lia; done.
Defined.
