(* ===== verification/AriaReader.v ===== *)
(** * Aria: messages from a socket

    src/aria/common/BufferedReader.h.  The bytes a socket delivers, in portions
    of any size, are cut into messages by the length in their headers. *)

From S2P Require Import Prelude Bits AriaWire.

(** [BUFFER_SIZE], 4 MB in the source, is the argument [size] of what follows;
    [buffer] holds the first [bytes_total] bytes of the array. *)
Record BufferedReader := mkReader { buffer : bytes; bytes_read : nat }.
Notation bytes_total r := (length (buffer r)) (only parsing).

Notation new_reader := (mkReader [] 0) (only parsing).

(** The static [Message::get_message_length] of the header at [bytes_read]. *)
Definition next_length (r : BufferedReader) : nat :=
  Z.to_nat (field_get Message.MESSAGE_LENGTH_OFFSET Message.MESSAGE_LENGTH_MASK (le_int (take 8 (drop (bytes_read r) (buffer r))))).

Definition has_message (r : BufferedReader) : bool :=
  if bool_decide (bytes_total r < bytes_read r + Message.get_prefix_size)%nat then false
  else bool_decide (bytes_read r + next_length r ≤ bytes_total r)%nat.

(** The bytes that are left move to the front, and [read_async] appends at most
    [BUFFER_SIZE - bytes_total] of the bytes in the socket; [n] is how many the
    system has ready. *)
Definition fetch_message (size : nat) (r : BufferedReader) (socket : bytes) (n : nat) : BufferedReader * bytes :=
  if has_message r then (r, socket)
  else
    let left := drop (bytes_read r) (buffer r) in
    let k := (n `min` (size - length left))%nat in
    (mkReader (left ++ take k socket) 0, drop k socket).

Definition next_message (size : nat) (r : BufferedReader) (socket : bytes) (n : nat) :
    option Message * BufferedReader * bytes :=
  let '(r, socket) := fetch_message size r socket n in
  if has_message r then
    let length := next_length r in
    (Some (mkMessage (take length (drop (bytes_read r) (buffer r)))), mkReader (buffer r) (bytes_read r + length), socket)
  else (None, r, socket).

(** Calls of [next_message] until [ns], what the system has ready at each, is
    used up; the messages they return. *)
Fixpoint read_messages (size : nat) (r : BufferedReader) (socket : bytes) (ns : list nat) :
    list Message * BufferedReader * bytes :=
  match ns with
  | [] => ([], r, socket)
  | n :: ns =>
      let '(m, r, socket) := next_message size r socket n in
      let '(ms, r, socket) := read_messages size r socket ns in
      (option_list m ++ ms, r, socket)
  end.

(** ** Correctness *)

(** A message as the other side sends it: it starts with its own length. *)
Definition sendable (size : nat) (m : Message) : Prop :=
  (Message.get_prefix_size ≤ length (data m) ≤ size)%nat ∧ Message.check_size m = true.

(** What is still to be read: the bytes left in the buffer and in the socket. *)
Definition to_read (r : BufferedReader) (socket : bytes) : bytes := drop (bytes_read r) (buffer r) ++ socket.

Section reader.
Context (size : nat).
Implicit Types (r : BufferedReader) (socket : bytes) (ms : list Message).

Lemma next_length_first r socket m ms :
  sendable size m → to_read r socket = mjoin (data <$> m :: ms) → (bytes_read r + 12 ≤ bytes_total r)%nat →
  next_length r = length (data m).
Proof using.
  intros [[Hp _] Hc%Z.eqb_eq] Hr Hb. unfold next_length in *.
  replace (take 8 (drop (bytes_read r) (buffer r))) with (take 8 (data m)).
  - unfold Message.get_message_length, Message.get_header_ref in Hc. lia.
  - assert (take 8 (to_read r socket) = take 8 (data m)) as <-.
    { rewrite Hr. change (mjoin (data <$> m :: ms)) with (data m ++ mjoin (data <$> ms)). apply take_app_le. lia. }
    unfold to_read. apply take_app_le. rewrite length_drop. lia.
Qed.

(** [has_message] is right about the first message. *)
Lemma has_message_first r socket m ms :
  sendable size m → to_read r socket = mjoin (data <$> m :: ms) → (bytes_read r ≤ bytes_total r)%nat →
  has_message r = bool_decide (bytes_read r + length (data m) ≤ bytes_total r)%nat.
Proof using.
  intros Hm Hr Hb. unfold has_message. pose proof Hm as [[Hp _] _]. 
  case_bool_decide as Hd.
  - symmetry. apply bool_decide_eq_false. lia.
  - by rewrite (next_length_first r socket m ms) by (done || lia).
Qed.

Lemma has_message_none r socket : to_read r socket = [] → has_message r = false.
Proof using.
  intros Hr. unfold has_message. rewrite bool_decide_true; [done|]. unfold to_read in Hr.
  apply app_eq_nil in Hr as [Hr _]. apply (f_equal length) in Hr. rewrite length_drop in Hr. simpl in Hr.
  lia.
Qed.

(** The counters are in range. *)
Definition in_range r : Prop := (bytes_read r ≤ bytes_total r ≤ size)%nat.

Lemma fetch_message_spec r socket n r' socket' :
  in_range r → fetch_message size r socket n = (r', socket') →
  in_range r' ∧ to_read r' socket' = to_read r socket ∧ (length socket' ≤ length socket)%nat ∧
  (has_message r = false → (0 < n)%nat → socket ≠ [] → (bytes_total r - bytes_read r < size)%nat →
   (length socket' < length socket)%nat).
Proof using.
  intros Hin Hf. unfold fetch_message in Hf. destruct (has_message r); injection Hf as <- <-; [done|].
  unfold in_range, to_read in *. simpl. rewrite !length_app, !length_take, !length_drop.
  split_and!; [lia|lia| |lia|].
  - by rewrite drop_0, <- app_assoc, take_drop.
  - intros _ Hn Hs Hl. destruct socket; [done|]. simpl. lia.
Qed.

(** A call returns the first message or none, and it makes progress. *)
Lemma next_message_spec r socket n ms o r' socket' :
  Forall (sendable size) ms → in_range r → to_read r socket = mjoin (data <$> ms) →
  next_message size r socket n = (o, r', socket') →
  in_range r' ∧ (length socket' ≤ length socket)%nat ∧
  match o with
  | Some m => ∃ ms', ms = m :: ms' ∧ to_read r' socket' = mjoin (data <$> ms')
  | None => to_read r' socket' = mjoin (data <$> ms) ∧
            (ms ≠ [] → (0 < n)%nat → (length socket' < length socket)%nat)
  end.
Proof using.
  intros Hms Hin Hr Hn. unfold next_message in Hn. destruct (fetch_message size r socket n) as [r1 socket1] eqn:Hf.
  destruct (fetch_message_spec _ _ _ _ _ Hin Hf) as (Hin1 & Hr1 & Hs1 & Hp). rewrite Hr in Hr1.
  destruct ms as [|m ms].
  { rewrite (has_message_none r1 socket1 Hr1) in Hn. injection Hn as <- <- <-. done. }
  apply Forall_cons in Hms as [Hm Hms]. rewrite (has_message_first r1 socket1 m ms) in Hn by (done || apply Hin1).
  case_bool_decide as Hd.
  - rewrite (next_length_first r1 socket1 m ms) in Hn; [|done|done|destruct Hm as [[] _]; lia].
    injection Hn as <- <- <-. unfold in_range in *. simpl. split; [lia|]. split; [done|].
    unfold to_read in *. change (mjoin (data <$> m :: ms)) with (data m ++ mjoin (data <$> ms)) in Hr1.
    exists ms. split.
    + f_equal. destruct m as [d]. f_equal. simpl in *.
      assert (take (length d) (drop (bytes_read r1) (buffer r1) ++ socket1) = d) as Ht by (rewrite Hr1; apply take_app_length).
      rewrite take_app_le in Ht; [done|]. rewrite length_drop. lia.
    + simpl. rewrite <- drop_drop. assert (drop (length (data m)) (drop (bytes_read r1) (buffer r1) ++ socket1) = mjoin (data <$> ms)) as Ht
        by (rewrite Hr1; apply drop_app_length). rewrite drop_app_le in Ht; [done|]. rewrite length_drop. lia.
  - injection Hn as <- <- <-. split; [done|]. split; [done|]. split; [done|]. intros _ Hn0.
    assert (has_message r = false) as Hh.
    { destruct (has_message r) eqn:Hh; [|done]. unfold fetch_message in Hf. rewrite Hh in Hf. injection Hf as <- <-.
      rewrite (has_message_first r socket m ms) in Hh by (done || apply Hin). by apply bool_decide_eq_true in Hh. }
    pose proof Hh as Hlt. rewrite (has_message_first r socket m ms) in Hlt by (done || apply Hin).
    apply bool_decide_eq_false in Hlt. destruct Hm as [[? Hsz] _].
    apply Hp; [done|done| |lia]. intros ->. unfold to_read in Hr. rewrite app_nil_r in Hr.
    apply (f_equal length) in Hr. change (mjoin (data <$> m :: ms)) with (data m ++ mjoin (data <$> ms)) in Hr.
    rewrite length_app, length_drop in Hr. lia.
Qed.

Lemma read_messages_spec ns r socket ms out r' socket' :
  Forall (sendable size) ms → in_range r → to_read r socket = mjoin (data <$> ms) →
  read_messages size r socket ns = (out, r', socket') →
  out `prefix_of` ms ∧
  (Forall (λ n, (0 < n)%nat) ns → (length socket + length ms ≤ length ns)%nat → out = ms).
Proof using.
  revert r socket ms out. induction ns as [|n ns IH]; intros r socket ms out Hms Hin Hr Hrun; simpl in Hrun.
  { injection Hrun as <- <- <-. split; [apply prefix_nil|]. intros _ Hl. destruct ms; [done|simpl in Hl; lia]. }
  destruct (next_message size r socket n) as [[o r1] socket1] eqn:Hn.
  destruct (read_messages size r1 socket1 ns) as [[out1 r2] socket2] eqn:Hrest. injection Hrun as <- <- <-.
  destruct (next_message_spec _ _ _ _ _ _ _ Hms Hin Hr Hn) as (Hin1 & Hle & Ho). destruct o as [m|]; simpl.
  - destruct Ho as (ms' & -> & Hr1). apply Forall_cons in Hms as [_ Hms].
    destruct (IH _ _ _ _ Hms Hin1 Hr1 Hrest) as [Hpre Hall]. split; [by apply prefix_cons|].
    intros [_ Hns]%Forall_cons Hl. simpl in Hl. f_equal. apply Hall; [done|lia].
  - destruct Ho as [Hr1 Hp]. destruct (IH _ _ _ _ Hms Hin1 Hr1 Hrest) as [Hpre Hall]. split; [done|].
    intros [Hn0 Hns]%Forall_cons Hl. simpl in Hl. destruct (decide (ms = [])) as [->|Hne].
    + by apply prefix_nil_inv.
    + apply Hall; [done|]. specialize (Hp Hne Hn0). lia.
Qed.

End reader.


(** A message longer than the buffer is never delivered, and nothing after it.
    The header allows 2^27 - 1 bytes, the buffer has 2^22. *)
Theorem large_message_stuck (size : nat) (m : Message) (rest : bytes) (ns : list nat) :
  (size < length (data m))%nat → (Message.get_prefix_size ≤ length (data m))%nat → Message.check_size m = true →
  (read_messages size new_reader (data m ++ rest) ns).1.1 = [].
Proof.
  intros Hsz Hp Hc. cut (∀ r socket, in_range size r → to_read r socket = data m ++ rest →
    (read_messages size r socket ns).1.1 = []).
  { intros H. apply H; [unfold in_range; simpl; lia|reflexivity]. }
  induction ns as [|n ns IH]; intros r socket Hin Hr; [done|]. simpl. unfold next_message.
  destruct (fetch_message size r socket n) as [r1 socket1] eqn:Hf.
  destruct (fetch_message_spec _ _ _ _ _ _ Hin Hf) as (Hin1 & Hr1 & _ & _). rewrite Hr in Hr1.
  assert (has_message r1 = false) as ->.
  { rewrite (has_message_first (length (data m)) r1 socket1 m [mkMessage rest]); [| done | |apply Hin1].
    - apply bool_decide_eq_false. unfold in_range in Hin1. lia.
    - rewrite Hr1. change (mjoin (data <$> [m; mkMessage rest])) with (data m ++ rest ++ []). by rewrite app_nil_r. }
  specialize (IH _ _ Hin1 Hr1). by destruct (read_messages size r1 socket1 ns) as [[]].
Qed.


Lemma large_message_stuck_witness :
  let m := (new_stop_message (init_message Message.new 0 3 1)).1 in
  (read_messages 16 new_reader (data m ++ data m) (replicate 99 7%nat)).1.1 = [].
Proof. intros m. apply (large_message_stuck 16 m (data m)); [vm_compute; lia|vm_compute; lia|vm_compute; reflexivity]. Defined.
