(* ===== verification/AriaTxn.v ===== *)
(** * Aria: transactions

    src/aria/protocol/Aria/AriaRWKey.h and AriaTransaction.h, with the shape of
    the [execute] methods of the workloads (src/aria/benchmark).  A key of the
    read or write set has a packed word with its table, its partition and two
    flags; its pointers to a key and to a value are a key and the index of a
    field of the transaction's storage.  The cached pointer to the reservation
    word is not modelled: it is the word of the row. *)

From S2P Require Import Prelude Bits.

(** ** Keys of the read and write sets *)

Section rwkey.
Context {K : Type}.

Record AriaRWKey := mkRWKey { bitvec : Z; key : K; value : nat }.

Notation TABLE_ID_MASK := (0x1f)%Z (only parsing).
Notation TABLE_ID_OFFSET := (27)%Z (only parsing).
Notation PARTITION_ID_MASK := (0xffff)%Z (only parsing).
Notation PARTITION_ID_OFFSET := (11)%Z (only parsing).
Notation READ_REQUEST_BIT_MASK := (0x1)%Z (only parsing).
Notation READ_REQUEST_BIT_OFFSET := (1)%Z (only parsing).
Notation LOCAL_INDEX_READ_BIT_MASK := (0x1)%Z (only parsing).
Notation LOCAL_INDEX_READ_BIT_OFFSET := (0)%Z (only parsing).

Definition set_bitvec (k : AriaRWKey) (b : Z) : AriaRWKey := mkRWKey b (key k) (value k).

Definition set_local_index_read_bit (k : AriaRWKey) : AriaRWKey :=
  set_bitvec k (field_set 32 LOCAL_INDEX_READ_BIT_OFFSET LOCAL_INDEX_READ_BIT_MASK (bitvec k) LOCAL_INDEX_READ_BIT_MASK).
Definition get_local_index_read_bit (k : AriaRWKey) : Z :=
  field_get LOCAL_INDEX_READ_BIT_OFFSET LOCAL_INDEX_READ_BIT_MASK (bitvec k).

Definition set_read_request_bit (k : AriaRWKey) : AriaRWKey :=
  set_bitvec k (field_set 32 READ_REQUEST_BIT_OFFSET READ_REQUEST_BIT_MASK (bitvec k) READ_REQUEST_BIT_MASK).
Definition clear_read_request_bit (k : AriaRWKey) : AriaRWKey :=
  set_bitvec k (field_clear 32 READ_REQUEST_BIT_OFFSET READ_REQUEST_BIT_MASK (bitvec k)).
Definition get_read_request_bit (k : AriaRWKey) : Z :=
  field_get READ_REQUEST_BIT_OFFSET READ_REQUEST_BIT_MASK (bitvec k).

Definition set_table_id (k : AriaRWKey) (table_id : Z) : AriaRWKey :=
  set_bitvec k (field_set 32 TABLE_ID_OFFSET TABLE_ID_MASK (bitvec k) table_id).
Definition get_table_id (k : AriaRWKey) : Z := field_get TABLE_ID_OFFSET TABLE_ID_MASK (bitvec k).

Definition set_partition_id (k : AriaRWKey) (partition_id : Z) : AriaRWKey :=
  set_bitvec k (field_set 32 PARTITION_ID_OFFSET PARTITION_ID_MASK (bitvec k) partition_id).
Definition get_partition_id (k : AriaRWKey) : Z := field_get PARTITION_ID_OFFSET PARTITION_ID_MASK (bitvec k).

(** A row: table, partition and key. *)
Definition row_id : Type := Z * Z * K.
Definition partition_of (r : row_id) : Z := r.1.2.

Definition row_of (k : AriaRWKey) : row_id := (get_table_id k, get_partition_id k, key k).

(** The keys [search_for_read] and [search_for_update] (the same code),
    [search_local_index] and [update] make. *)
Definition new_rwkey (r : row_id) (value : nat) : AriaRWKey :=
  set_partition_id (set_table_id (mkRWKey 0 r.2 value) r.1.1) r.1.2.

Definition search_key (local_index : bool) (r : row_id) (value : nat) : AriaRWKey :=
  let readKey := new_rwkey r value in
  let readKey := if local_index then set_local_index_read_bit readKey else readKey in
  set_read_request_bit readKey.

(** The fields are independent. *)

Definition row_ok (r : row_id) : Prop := 0 ≤ r.1.1 < 2 ^ 5 ∧ 0 ≤ r.1.2 < 2 ^ 16.

Lemma get_table_id_eq k : get_table_id k = field_get 27 (Z.ones 5) (bitvec k).
Proof. done. Qed.
Lemma get_partition_id_eq k : get_partition_id k = field_get 11 (Z.ones 16) (bitvec k).
Proof. done. Qed.
Lemma get_local_index_eq k : get_local_index_read_bit k = field_get 0 (Z.ones 1) (bitvec k).
Proof. done. Qed.
Lemma get_request_eq k : get_read_request_bit k = field_get 1 (Z.ones 1) (bitvec k).
Proof. done. Qed.
Lemma new_rwkey_eq r v : bitvec (new_rwkey r v) = field_set 32 11 (Z.ones 16) (field_set 32 27 (Z.ones 5) 0 r.1.1) r.1.2.
Proof. done. Qed.
Lemma set_local_index_eq k : bitvec (set_local_index_read_bit k) = field_set 32 0 (Z.ones 1) (bitvec k) 1.
Proof. done. Qed.
Lemma set_request_eq k : bitvec (set_read_request_bit k) = field_set 32 1 (Z.ones 1) (bitvec k) 1.
Proof. done. Qed.
Lemma clear_request_eq k : bitvec (clear_read_request_bit k) = field_set 32 1 (Z.ones 1) (bitvec k) 0.
Proof. unfold field_set. by rewrite Z.lor_0_r. Qed.

(** What a key says. *)
Record says (k : AriaRWKey) (r : row_id) (v : nat) (local_index request : bool) : Prop := {
  sy_word : 0 ≤ bitvec k < 2 ^ 32;
  sy_row : row_of k = r;
  sy_value : value k = v;
  sy_index : get_local_index_read_bit k = Z.b2z local_index;
  sy_request : get_read_request_bit k = Z.b2z request
}.

Ltac fields_of :=
  unfold row_of; rewrite ?get_table_id_eq, ?get_partition_id_eq, ?get_local_index_eq, ?get_request_eq,
    ?new_rwkey_eq, ?set_local_index_eq, ?set_request_eq, ?clear_request_eq.

Lemma new_rwkey_says r v : row_ok r → says (new_rwkey r v) r v false false.
Proof.
  destruct r as [[t p] k]. intros [Ht Hp]. simpl in Ht, Hp.
  assert (0 ≤ field_set 32 27 (Z.ones 5) 0 t < 2 ^ 32) by (apply field_set_range; lia).
  split; fields_of; simpl fst; simpl snd; [apply field_set_range; lia| |done|..].
  - rewrite field_get_set_ne, field_get_set, field_get_set by lia. done.
  - rewrite !field_get_set_ne by lia. done.
  - rewrite !field_get_set_ne by lia. done.
Qed.

Lemma set_local_index_says k r v b q : says k r v b q → says (set_local_index_read_bit k) r v true q.
Proof.
  intros [Hw Hr Hv Hi Hq]. split; [fields_of; apply field_set_range; lia| |done|..].
  - rewrite <- Hr. fields_of. by rewrite !field_get_set_ne by lia.
  - fields_of. by rewrite field_get_set by lia.
  - rewrite <- Hq. fields_of. by rewrite field_get_set_ne by lia.
Qed.

Lemma set_request_says k r v b q : says k r v b q → says (set_read_request_bit k) r v b true.
Proof.
  intros [Hw Hr Hv Hi Hq]. split; [fields_of; apply field_set_range; lia| |done|..].
  - rewrite <- Hr. fields_of. by rewrite !field_get_set_ne by lia.
  - rewrite <- Hi. fields_of. by rewrite field_get_set_ne by lia.
  - fields_of. by rewrite field_get_set by lia.
Qed.

Lemma clear_request_says k r v b q : says k r v b q → says (clear_read_request_bit k) r v b false.
Proof.
  intros [Hw Hr Hv Hi Hq]. split; [fields_of; apply field_set_range; lia| |done|..].
  - rewrite <- Hr. fields_of. by rewrite !field_get_set_ne by lia.
  - rewrite <- Hi. fields_of. by rewrite field_get_set_ne by lia.
  - fields_of. by rewrite field_get_set by lia.
Qed.

Lemma search_key_says b r v : row_ok r → says (search_key b r v) r v b true.
Proof.
  intros Hr. unfold search_key. eapply set_request_says. destruct b; [eapply set_local_index_says|]; by apply new_rwkey_says.
Qed.

End rwkey.
Arguments AriaRWKey K : clear implicits.
Arguments row_id K : clear implicits.

(** ** Transactions *)

(** The storage of a transaction: its fields by number. *)
Notation storage V := (gmap nat V).

Section txn.
Context {K V : Type}.

Definition field `{Inhabited V} (st : storage V) (n : nat) : V := default inhabitant (st !! n).

(** What the [execute] method of a workload does: it searches rows into fields
    of the storage, may give up, has the requests processed, computes on the
    storage (depending on [execution_phase]) and updates rows from fields. *)
Record Query := mkQuery {
  q_searches : list (bool * row_id K * nat);   (* local index?, row, field *)
  q_abort : bool;
  q_compute : bool → storage V → storage V;
  q_updates : list (row_id K * nat)
}.

Record AriaTransaction := mkTxn {
  id : Z;
  tid_offset : nat;
  epoch : Z;
  pendingResponses : Z;
  abort_lock : bool;
  abort_no_retry : bool;
  execution_phase : bool;
  waw : bool;
  war : bool;
  raw : bool;
  readSet : list (AriaRWKey K);
  writeSet : list (AriaRWKey K);
  query : Query;
  storage_ref : nat                            (* the storage it was made with *)
}.

(** [reset]: everything but the ids, the query and the storage. *)
Definition reset (t : AriaTransaction) : AriaTransaction :=
  mkTxn (id t) (tid_offset t) (epoch t) 0 false false false false false false [] [] (query t) (storage_ref t).

(** The constructor; the ids are set later. *)
Definition new_transaction (q : Query) (st : nat) : AriaTransaction := reset (mkTxn 0 0 0 0 false false false false false false [] [] q st).

Definition set_ids (t : AriaTransaction) (i : Z) (off : nat) (e : Z) : AriaTransaction :=
  mkTxn i off e (pendingResponses t) (abort_lock t) (abort_no_retry t) (execution_phase t) (waw t) (war t) (raw t)
    (readSet t) (writeSet t) (query t) (storage_ref t).
Definition set_pending (t : AriaTransaction) (x : Z) : AriaTransaction :=
  mkTxn (id t) (tid_offset t) (epoch t) x (abort_lock t) (abort_no_retry t) (execution_phase t) (waw t) (war t) (raw t)
    (readSet t) (writeSet t) (query t) (storage_ref t).
Definition set_no_retry (t : AriaTransaction) (b : bool) : AriaTransaction :=
  mkTxn (id t) (tid_offset t) (epoch t) (pendingResponses t) (abort_lock t) b (execution_phase t) (waw t) (war t) (raw t)
    (readSet t) (writeSet t) (query t) (storage_ref t).
Definition set_execution_phase (t : AriaTransaction) (b : bool) : AriaTransaction :=
  mkTxn (id t) (tid_offset t) (epoch t) (pendingResponses t) (abort_lock t) (abort_no_retry t) b (waw t) (war t) (raw t)
    (readSet t) (writeSet t) (query t) (storage_ref t).
(** The flags that a check found. *)
Definition add_flags (t : AriaTransaction) (fwaw fwar fraw : bool) : AriaTransaction :=
  mkTxn (id t) (tid_offset t) (epoch t) (pendingResponses t) (abort_lock t) (abort_no_retry t) (execution_phase t)
    (waw t || fwaw) (war t || fwar) (raw t || fraw) (readSet t) (writeSet t) (query t) (storage_ref t).
Definition set_sets (t : AriaTransaction) (rs ws : list (AriaRWKey K)) : AriaTransaction :=
  mkTxn (id t) (tid_offset t) (epoch t) (pendingResponses t) (abort_lock t) (abort_no_retry t) (execution_phase t)
    (waw t) (war t) (raw t) rs ws (query t) (storage_ref t).

(** [search_local_index], [search_for_read] and [search_for_update]. *)
Definition search (t : AriaTransaction) (local_index : bool) (r : row_id K) (v : nat) : AriaTransaction :=
  if execution_phase t then t else set_sets t (readSet t ++ [search_key local_index r v]) (writeSet t).

Definition update (t : AriaTransaction) (r : row_id K) (v : nat) : AriaTransaction :=
  if execution_phase t then t else set_sets t (readSet t) (writeSet t ++ [new_rwkey r v]).

Definition is_read_only (t : AriaTransaction) : bool := bool_decide (writeSet t = []).

End txn.
Arguments Query K V : clear implicits.
Arguments AriaTransaction K V : clear implicits.
