(* ===== verification/AriaSystem.v ===== *)
(** * Aria: executors, managers and dispatchers

    src/aria/protocol/Aria/{AriaExecutor,AriaManager,AriaMessage,Aria}.h and
    src/aria/core/{Manager,Dispatcher}.h.  The threads of all nodes run in
    parallel: each has the list of what it still has to do, and a step of the
    system is a step of one thread.  Accesses to the reservation words are single
    steps of the compare-and-swap loops; the values of rows are read in the read
    phase and written in the commit phase.  A message is the list of its pieces
    (AriaWire.v has their encoding). *)

From S2P Require Import Prelude Bits AriaHelper AriaTxn.

Inductive ExecutorStatus :=
| START | CLEANUP | C_PHASE | S_PHASE | Analysis | Execute | Aria_READ | Aria_COMMIT | AriaFB_READ | AriaFB_COMMIT
| AriaFB_Fallback_Prepare | AriaFB_Fallback | Bohm_Analysis | Bohm_Insert | Bohm_Execute | Bohm_GC | Pwv_Analysis
| Pwv_Execute | STOP | EXIT.

#[global] Instance ExecutorStatus_eq_dec : EqDecision ExecutorStatus.
Proof. solve_decision. Defined.

Inductive TransactionResult := COMMIT | READY_TO_COMMIT | ABORT | ABORT_NORETRY.

(** The options of a run (core/Context.h). *)
Record AriaContext := mkContext {
  coordinator_num : nat;
  worker_num : nat;
  io_thread_num : nat;
  batch_size : nat;
  batch_flush : nat;
  aria_read_only_optmization : bool;
  aria_reordering_optmization : bool;
  aria_snapshot_isolation : bool
}.

Section aria.
Context {K V : Type} `{Countable K} `{Inhabited V}.
Notation row_id := (row_id K).
Notation Txn := (AriaTransaction K V).

(** ** State *)

Record Row := mkRow { r_tid : Z; r_value : V }.

(** The pieces of messages. *)
Inductive piece :=
| SearchRequest (r : row_id) (tid : Z) (tid_offset key_offset : nat)
| SearchResponse (v : V) (tid : Z) (tid_offset key_offset : nat)
| ReserveRequest (r : row_id) (tid epoch : Z) (is_write : bool)
| CheckRequest (r : row_id) (tid : Z) (tid_offset : nat) (epoch : Z) (is_write : bool)
| CheckResponse (tid : Z) (tid_offset : nat) (is_write waw war raw : bool)
| WriteRequest (r : row_id) (v : V)
| SignalMessage (status : ExecutorStatus)
| AckMessage
| StopMessage.

(** What a thread has to do. *)
Inductive task :=
(* AriaExecutor *)
| TLoop                                       (* start() from its beginning *)
| TAwait (s : ExecutorStatus)                 (* wait till worker_status is s *)
| TStarted                                    (* n_started_workers.fetch_add(1) *)
| TCompleted                                  (* n_complete_workers.fetch_add(1) *)
| TServe (s : ExecutorStatus)                 (* process requests while worker_status is s *)
| TProcess                                    (* process_request() *)
| TFlush                                      (* flush_messages() *)
| TFlushIf                                    (* ... if count % batch_flush == 0 *)
| TCount0                                     (* count = 0 *)
| TExecute (i : nat)                          (* first loop of read_snapshot *)
| TReserve (i : nat)                          (* second loop, before and after the wait *)
| TReserveTxn (i : nat)
| TWaitResponses (i : nat)                    (* wait while pendingResponses > 0 *)
| TReserveRow (r : row_id) (is_write : bool) (e t : Z)                     (* reserve_read / reserve_write: load *)
| TSwapRow (r : row_id) (is_write : bool) (e t old_value new_value : Z)    (* ... compare and swap *)
| TAnalyze (i : nat)                          (* first loop of commit_transactions *)
| TCommit (i : nat)                           (* second loop, before and after the wait *)
| TDecide (i : nat)
| TWrite (i : nat) (j : nat)                  (* Aria::commit, write j *)
(* AriaManager *)
| MLoop                                       (* the loop of (non_)coordinator_start *)
| MEpoch                                      (* epoch.fetch_add(1) *)
| MCleanup                                    (* cleanup_batch() *)
| MStarted0                                   (* n_started_workers.store(0) *)
| MCompleted0                                 (* n_completed_workers.store(0) *)
| MSignal (s : ExecutorStatus)                (* signal_worker *)
| MStatus (s : ExecutorStatus)                (* set_worker_status *)
| MAwaitStarted                               (* wait_all_workers_start *)
| MAwaitCompleted                             (* wait_all_workers_finish *)
| MBroadcastStop                              (* broadcast_stop *)
| MWaitStop (n : nat)                         (* wait4_stop *)
| MWaitAck (n : nat)                          (* wait4_ack *)
| MSendAck                                    (* send_ack *)
| MWaitSignal.                                (* wait4_signal *)

(** An executor or a manager: [messages] are the messages being filled, by
    destination; the queues hold messages with their destination or source. *)
Record Worker := mkWorker {
  tasks : list task;
  count : nat;
  messages : gmap nat (list piece);
  out_queue : list (nat * list piece);
  in_queue : list (nat * list piece)
}.

Record Node := mkNode {
  rows : gmap row_id Row;
  transactions : gmap nat Txn;                (* the vector; absent: nullptr *)
  storages : gmap nat (storage V);
  n_epoch : Z;
  total_abort : nat;
  worker_status : ExecutorStatus;
  n_started_workers : nat;
  n_completed_workers : nat
}.

(** The nodes, their threads by node and worker id (the manager is the last),
    and the messages in the sockets: source, destination, worker id, pieces. *)
Record System := mkSystem {
  nodes : gmap nat Node;
  workers : gmap (nat * nat) Worker;
  sockets : list (nat * nat * nat * list piece)
}.

Definition set_tasks (w : Worker) (x : list task) : Worker := mkWorker x (count w) (messages w) (out_queue w) (in_queue w).
Definition set_count (w : Worker) (x : nat) : Worker := mkWorker (tasks w) x (messages w) (out_queue w) (in_queue w).
Definition set_messages (w : Worker) (x : gmap nat (list piece)) : Worker :=
  mkWorker (tasks w) (count w) x (out_queue w) (in_queue w).
Definition set_out (w : Worker) (x : list (nat * list piece)) : Worker :=
  mkWorker (tasks w) (count w) (messages w) x (in_queue w).
Definition set_in (w : Worker) (x : list (nat * list piece)) : Worker :=
  mkWorker (tasks w) (count w) (messages w) (out_queue w) x.

Definition set_rows (n : Node) (x : gmap row_id Row) : Node :=
  mkNode x (transactions n) (storages n) (n_epoch n) (total_abort n) (worker_status n) (n_started_workers n) (n_completed_workers n).
Definition set_transaction (n : Node) (i : nat) (t : Txn) : Node :=
  mkNode (rows n) (<[i := t]> (transactions n)) (storages n) (n_epoch n) (total_abort n) (worker_status n)
    (n_started_workers n) (n_completed_workers n).
Definition set_storage (n : Node) (i : nat) (st : storage V) : Node :=
  mkNode (rows n) (transactions n) (<[i := st]> (storages n)) (n_epoch n) (total_abort n) (worker_status n)
    (n_started_workers n) (n_completed_workers n).
Definition set_status (n : Node) (s : ExecutorStatus) : Node :=
  mkNode (rows n) (transactions n) (storages n) (n_epoch n) (total_abort n) s (n_started_workers n) (n_completed_workers n).
Definition set_started (n : Node) (x : nat) : Node :=
  mkNode (rows n) (transactions n) (storages n) (n_epoch n) (total_abort n) (worker_status n) x (n_completed_workers n).
Definition set_completed (n : Node) (x : nat) : Node :=
  mkNode (rows n) (transactions n) (storages n) (n_epoch n) (total_abort n) (worker_status n) (n_started_workers n) x.

(** [Table::search], [search_metadata] and [update]: a row that is not there is
    made with a word of 0 and a default value. *)
Definition search_row (m : gmap row_id Row) (r : row_id) : Row := default (mkRow 0 inhabitant) (m !! r).
Definition update_row (m : gmap row_id Row) (r : row_id) (v : V) : gmap row_id Row :=
  <[r := mkRow (r_tid (search_row m r)) v]> m.
Definition store_tid (m : gmap row_id Row) (r : row_id) (a : Z) : gmap row_id Row :=
  <[r := mkRow a (r_value (search_row m r))]> m.

Definition storage_of (n : Node) (i : nat) : storage V := default ∅ (storages n !! i).

(** A piece is appended to the message for [dest]. *)
Definition add_piece (w : Worker) (dest : nat) (p : piece) : Worker :=
  set_messages w (<[dest := default [] (messages w !! dest) ++ [p]]> (messages w)).

Context (context : AriaContext) (master_coordinator : Z → nat) (next_transaction : nat → Z → nat → Query K V).

Definition has_master_partition (c : nat) (partition_id : Z) : bool := bool_decide (master_coordinator partition_id = c).

(** ** AriaExecutor *)

(** One message of [flush_messages]. *)
Definition flush_message (c : nat) (w : Worker) (i : nat) : Worker :=
  if decide (i = c) then w
  else
    match default [] (messages w !! i) with
    | [] => w
    | ps => set_messages (set_out w (out_queue w ++ [(i, ps)])) (<[i := []]> (messages w))
    end.

Definition flush_messages (c : nat) (w : Worker) : Worker :=
  foldl (flush_message c) w (seq 0 (coordinator_num context)).

Definition readRequestHandler (c : nat) (m : gmap row_id Row) (x : Txn * storage V * Worker) (readKey : AriaRWKey K)
    (tid : Z) (key_offset : nat) : Txn * storage V * Worker :=
  let '(t, st, w) := x in
  let local_read := has_master_partition c (get_partition_id readKey) in
  if local_read || negb (get_local_index_read_bit readKey =? 0)%Z then
    (t, <[value readKey := r_value (search_row m (row_of readKey))]> st, w)
  else
    (set_pending t (pendingResponses t + 1), st,
     add_piece w (master_coordinator (get_partition_id readKey))
       (SearchRequest (row_of readKey) (uint 32 tid) (tid_offset t) key_offset)).

(** [process_requests], from the key before [n] on down. *)
Fixpoint process_requests (c : nat) (m : gmap row_id Row) (n : nat) (x : Txn * storage V * Worker) : Txn * storage V * Worker :=
  match n with
  | O => x
  | S i =>
      match readSet x.1.1 !! i with
      | None => x
      | Some readKey =>
          if (get_read_request_bit readKey =? 0)%Z then x
          else
            let '(t, st, w) := readRequestHandler c m x readKey (id x.1.1) i in
            process_requests c m i
              (set_sets t (<[i := clear_read_request_bit readKey]> (readSet t)) (writeSet t), st, w)
      end
  end.

(** The [execute] method of a transaction with [query t]. *)
Definition execute (c : nat) (m : gmap row_id Row) (x : Txn * storage V * Worker) :
    TransactionResult * (Txn * storage V * Worker) :=
  let '(t, st, w) := x in
  let t := foldl (λ t s, search t s.1.1 s.1.2 s.2) t (q_searches (query t)) in
  if q_abort (query t) then (ABORT_NORETRY, (t, st, w))
  else
    let '(t, st, w) := process_requests c m (length (readSet t)) (t, st, w) in
    let st := q_compute (query t) (execution_phase t) st in
    let t := foldl (λ t u, update t u.1 u.2) t (q_updates (query t)) in
    (READY_TO_COMMIT, (t, st, w)).

(** The body of the first loop of [read_snapshot] after [process_request]. *)
Definition execute_transaction (c i : nat) (n : Node) (w : Worker) : Node * Worker :=
  let t :=
    match transactions n !! i with
    | Some t => if decide (total_abort n ≤ i)%nat then new_transaction (next_transaction c (n_epoch n) i) i else reset t
    | None => new_transaction (next_transaction c (n_epoch n) i) i
    end in
  let t := set_ids t (Z.of_nat i * Z.of_nat (coordinator_num context) + Z.of_nat c + 1) i (n_epoch n) in
  let t := set_execution_phase t false in
  let w := set_count w (count w + 1) in
  let '(result, (t, st, w)) := execute c (rows n) (t, storage_of n (storage_ref t), w) in
  let t := match result with ABORT_NORETRY => set_no_retry t true | _ => t end in
  (set_storage (set_transaction n i t) (storage_ref t) st, w).

(** [reserve_transaction]: the reservations of rows of this node are left to do,
    those of other nodes are messages. *)
Definition reserve_key (c : nat) (t : Txn) (is_write : bool) (x : list task * Worker) (k : AriaRWKey K) : list task * Worker :=
  if negb is_write && negb (get_local_index_read_bit k =? 0)%Z then x
  else if has_master_partition c (get_partition_id k) then
    (x.1 ++ [TReserveRow (row_of k) is_write (epoch t) (uint 32 (id t))], x.2)
  else
    (x.1, add_piece x.2 (master_coordinator (get_partition_id k))
            (ReserveRequest (row_of k) (uint 32 (id t)) (epoch t) is_write)).

Definition reserve_transaction (c : nat) (t : Txn) (w : Worker) : list task * Worker :=
  if aria_read_only_optmization context && is_read_only t then ([], w)
  else
    let x := foldl (reserve_key c t false) ([], w) (readSet t) in
    foldl (reserve_key c t true) x (writeSet t).

(** The conflicts of a transaction with the reservations in a word. *)
Definition found (a e : Z) (ts tid : Z) : bool := (get_epoch a =? e)%Z && (ts <? tid)%Z && negb (ts =? 0)%Z.

(** The loops of [analyze_dependency]. *)
Fixpoint analyze_reads (c : nat) (m : gmap row_id Row) (t : Txn) (w : Worker) (l : list (AriaRWKey K)) : Txn * Worker :=
  match l with
  | [] => (t, w)
  | k :: l =>
      if negb (get_local_index_read_bit k =? 0)%Z then analyze_reads c m t w l
      else if has_master_partition c (get_partition_id k) then
        let a := r_tid (search_row m (row_of k)) in
        if found a (epoch t) (get_wts a) (id t) then (add_flags t false false true, w)
        else analyze_reads c m t w l
      else
        analyze_reads c m (set_pending t (pendingResponses t + 1))
          (add_piece w (master_coordinator (get_partition_id k))
             (CheckRequest (row_of k) (uint 32 (id t)) (tid_offset t) (epoch t) false)) l
  end.

Fixpoint analyze_writes (c : nat) (m : gmap row_id Row) (t : Txn) (w : Worker) (l : list (AriaRWKey K)) : Txn * Worker :=
  match l with
  | [] => (t, w)
  | k :: l =>
      if has_master_partition c (get_partition_id k) then
        let a := r_tid (search_row m (row_of k)) in
        analyze_writes c m
          (add_flags t (found a (epoch t) (get_wts a) (id t)) (found a (epoch t) (get_rts a) (id t)) false) w l
      else
        analyze_writes c m (set_pending t (pendingResponses t + 1))
          (add_piece w (master_coordinator (get_partition_id k))
             (CheckRequest (row_of k) (uint 32 (id t)) (tid_offset t) (epoch t) true)) l
  end.

Definition analyze_dependency (c : nat) (m : gmap row_id Row) (t : Txn) (w : Worker) : Txn * Worker :=
  if aria_read_only_optmization context && is_read_only t then (t, w)
  else
    let '(t, w) := analyze_reads c m t w (readSet t) in
    analyze_writes c m t w (writeSet t).

(** The decision in [commit_transactions]: whether the transaction is committed,
    and whether the loop goes on to the check of the count. *)
Definition decision (t : Txn) : bool * bool :=
  if aria_read_only_optmization context && is_read_only t then (true, false)
  else if waw t then (false, false)
  else if aria_snapshot_isolation context then (true, true)
  else if aria_reordering_optmization context then (negb (war t) || negb (raw t), true)
  else (negb (raw t), true).

(** [Aria::commit], write [j]: the value is the one in the storage now. *)
Definition commit_write (c i j : nat) (n : Node) (w : Worker) : blocking (Node * Worker) :=
  match transactions n !! i with
  | None => Crash
  | Some t =>
      match writeSet t !! j with
      | None => Done (n, w)
      | Some k =>
          let v := field (storage_of n (storage_ref t)) (value k) in
          if has_master_partition c (get_partition_id k) then Done (set_rows n (update_row (rows n) (row_of k) v), w)
          else Done (n, add_piece w (master_coordinator (get_partition_id k)) (WriteRequest (row_of k) v))
      end
  end.

(** ** AriaMessageHandler *)

(** The transaction a response is for: the index is in range, it is there, and
    its id is [tid]. *)
Definition response_txn (n : Node) (tid : Z) (off : nat) : blocking Txn :=
  if decide (off < batch_size context)%nat then
    match transactions n !! off with
    | Some t => if (id t =? tid)%Z then Done t else Crash
    | None => Crash
    end
  else Crash.

(** A handler: the node, the worker, and what is left to do at once. *)
Definition handled : Type := Node * Worker * list task.

Definition search_request_handler (src : nat) (r : row_id) (tid : Z) (off key_offset : nat) (n : Node) (w : Worker) :
    blocking handled :=
  Done (n, add_piece w src (SearchResponse (r_value (search_row (rows n) r)) tid off key_offset), []).

Definition search_response_handler (v : V) (tid : Z) (off key_offset : nat) (n : Node) (w : Worker) : blocking handled :=
  t ← response_txn n tid off;
  match readSet t !! key_offset with
  | None => Crash
  | Some readKey =>
      let st := <[value readKey := v]> (storage_of n (storage_ref t)) in
      let n := set_transaction n off (set_pending t (u64 (pendingResponses t - 1))) in
      Done (set_storage n (storage_ref t) st, w, [])
  end.

Definition reserve_request_handler (r : row_id) (tid e : Z) (is_write : bool) (n : Node) (w : Worker) : blocking handled :=
  Done (n, w, [TReserveRow r is_write e tid]).

Definition check_request_handler (src : nat) (r : row_id) (tid : Z) (off : nat) (e : Z) (is_write : bool) (n : Node) (w : Worker) :
    blocking handled :=
  let metadata := r_tid (search_row (rows n) r) in
  let reserve_rts := get_rts metadata in
  let reserve_wts := get_wts metadata in
  let '(waw, war, raw) :=
    if is_write then (found metadata e reserve_wts tid, found metadata e reserve_rts tid, false)
    else (false, false, found metadata e reserve_wts tid) in
  Done (n, add_piece w src (CheckResponse tid off is_write waw war raw), []).

Definition check_response_handler (tid : Z) (off : nat) (is_write waw war raw : bool) (n : Node) (w : Worker) : blocking handled :=
  t ← response_txn n tid off;
  let t := if is_write then add_flags t waw war false else add_flags t false false raw in
  Done (set_transaction n off (set_pending t (u64 (pendingResponses t - 1))), w, []).

Definition write_request_handler (r : row_id) (v : V) (n : Node) (w : Worker) : blocking handled :=
  Done (set_rows n (update_row (rows n) r v), w, []).

(** The handler of a piece; there is none for control messages. *)
Definition handle_piece (src : nat) (p : piece) (n : Node) (w : Worker) : blocking handled :=
  match p with
  | SearchRequest r tid off key_offset => search_request_handler src r tid off key_offset n w
  | SearchResponse v tid off key_offset => search_response_handler v tid off key_offset n w
  | ReserveRequest r tid e is_write => reserve_request_handler r tid e is_write n w
  | CheckRequest r tid off e is_write => check_request_handler src r tid off e is_write n w
  | CheckResponse tid off is_write waw war raw => check_response_handler tid off is_write waw war raw n w
  | WriteRequest r v => write_request_handler r v n w
  | SignalMessage _ | AckMessage | StopMessage => Crash
  end.

(** [process_request], with [ts] to do after it: one piece of the first message,
    or the end of that message, and the loop again. *)
Definition process_request (c : nat) (n : Node) (w : Worker) (ts : list task) : blocking (Node * Worker) :=
  match in_queue w with
  | [] => Done (n, set_tasks w ts)
  | (src, []) :: q => Done (n, set_tasks (flush_messages c (set_in w q)) (TProcess :: ts))
  | (src, p :: ps) :: q =>
      x ← handle_piece src p n (set_in w ((src, ps) :: q));
      Done (x.1.1, set_tasks x.1.2 (x.2 ++ TProcess :: ts))
  end.

(** ** The programs *)

(** The transactions of worker [id]: id, id + worker_num, ... *)
Definition stripe (id : nat) : list nat :=
  filter (λ i, i `mod` worker_num context = id `mod` worker_num context)%nat
    (drop id (seq 0 (batch_size context))).

Definition read_snapshot (id : nat) : list task :=
  [TCount0] ++ (stripe id ≫= λ i, [TProcess; TExecute i; TFlushIf]) ++ [TFlush] ++
  [TCount0] ++ (TReserve <$> stripe id) ++ [TFlush].

Definition commit_transactions (id : nat) : list task :=
  [TCount0] ++ (TAnalyze <$> stripe id) ++ [TFlush] ++
  [TCount0] ++ (TCommit <$> stripe id) ++ [TFlush].

(** One turn of the loop of [AriaExecutor::start]. *)
Definition executor_start (id : nat) : list task :=
  [TAwait Aria_READ; TStarted] ++ read_snapshot id ++ [TCompleted; TServe Aria_READ; TProcess; TCompleted] ++
  [TAwait Aria_COMMIT; TStarted] ++ commit_transactions id ++ [TCompleted; TServe Aria_COMMIT; TProcess; TCompleted; TLoop].

(** One turn of the loops of AriaManager. *)
Definition coordinator_start : list task :=
  [MEpoch; MCleanup; MStarted0; MCompleted0; MSignal Aria_READ; MAwaitStarted; MAwaitCompleted; MBroadcastStop;
   MWaitStop (coordinator_num context - 1); MCompleted0; MStatus STOP; MAwaitCompleted; MWaitAck (coordinator_num context - 1);
   MStarted0; MCompleted0; MSignal Aria_COMMIT; MAwaitStarted; MAwaitCompleted; MBroadcastStop;
   MWaitStop (coordinator_num context - 1); MCompleted0; MStatus STOP; MAwaitCompleted; MWaitAck (coordinator_num context - 1);
   MLoop].

Definition non_coordinator_start : list task :=
  [MEpoch; MCleanup; MStarted0; MCompleted0; MStatus Aria_READ; MAwaitStarted; MAwaitCompleted; MBroadcastStop;
   MWaitStop (coordinator_num context - 1); MCompleted0; MStatus STOP; MAwaitCompleted; MSendAck;
   MWaitSignal; MStarted0; MCompleted0; MStatus Aria_COMMIT; MAwaitStarted; MAwaitCompleted; MBroadcastStop;
   MWaitStop (coordinator_num context - 1); MCompleted0; MStatus STOP; MAwaitCompleted; MSendAck; MLoop].

(** ** Steps of executors

    [id] is the worker and [ts] its tasks after the first one; [spurious] makes a
    compare-and-swap fail. *)
Definition executor_step (c id : nat) (spurious : bool) (n : Node) (w : Worker) (ts : list task) (t : task) :
    blocking (Node * Worker) :=
  match t with
  | TLoop => Done (n, set_tasks w (executor_start id))
  | TAwait s =>
      if decide (worker_status n = EXIT ∧ s = Aria_READ) then Done (n, set_tasks w [])
      else if decide (worker_status n = s) then Done (n, set_tasks w ts)
      else Blocks
  | TStarted => Done (set_started n (n_started_workers n + 1), set_tasks w ts)
  | TCompleted => Done (set_completed n (n_completed_workers n + 1), set_tasks w ts)
  | TServe s =>
      if decide (worker_status n = s) then Done (n, set_tasks w (TProcess :: TServe s :: ts)) else Done (n, set_tasks w ts)
  | TProcess => process_request c n w ts
  | TFlush => Done (n, set_tasks (flush_messages c w) ts)
  | TFlushIf =>
      Done (n, set_tasks (if decide (count w `mod` batch_flush context = 0)%nat then flush_messages c w else w) ts)
  | TCount0 => Done (n, set_tasks (set_count w 0) ts)
  | TExecute i => let '(n, w) := execute_transaction c i n w in Done (n, set_tasks w ts)
  | TReserve i =>
      match transactions n !! i with
      | None => Crash
      | Some t =>
          if abort_no_retry t then Done (n, set_tasks w ts)
          else Done (n, set_tasks (set_count w (count w + 1)) (TWaitResponses i :: TReserveTxn i :: TFlushIf :: ts))
      end
  | TReserveTxn i =>
      match transactions n !! i with
      | None => Crash
      | Some t =>
          let t := set_execution_phase t true in
          let '(_, (t, st, w)) := execute c (rows n) (t, storage_of n (storage_ref t), w) in
          let '(rs, w) := reserve_transaction c t w in
          Done (set_storage (set_transaction n i t) (storage_ref t) st, set_tasks w (rs ++ ts))
      end
  | TWaitResponses i =>
      match transactions n !! i with
      | None => Crash
      | Some t =>
          if (0 <? pendingResponses t)%Z then Done (n, set_tasks w (TProcess :: TWaitResponses i :: ts))
          else Done (n, set_tasks w ts)
      end
  | TReserveRow r is_write e tid =>
      let old_value := r_tid (search_row (rows n) r) in
      match reserve_round is_write e tid old_value with
      | Ret (Some new_value) => Done (n, set_tasks w (TSwapRow r is_write e tid old_value new_value :: ts))
      | Ret None => Done (n, set_tasks w ts)
      | Panic => Crash
      end
  | TSwapRow r is_write e tid old_value new_value =>
      if (r_tid (search_row (rows n) r) =? old_value)%Z && negb spurious
      then Done (set_rows n (store_tid (rows n) r new_value), set_tasks w ts)
      else Done (n, set_tasks w (TReserveRow r is_write e tid :: ts))
  | TAnalyze i =>
      match transactions n !! i with
      | None => Crash
      | Some t =>
          if abort_no_retry t then Done (n, set_tasks w ts)
          else
            let '(t, w) := analyze_dependency c (rows n) t (set_count w (count w + 1)) in
            Done (set_transaction n i t, set_tasks w (TFlushIf :: ts))
      end
  | TCommit i =>
      match transactions n !! i with
      | None => Crash
      | Some t =>
          if abort_no_retry t then Done (n, set_tasks w ts)
          else Done (n, set_tasks (set_count w (count w + 1)) (TWaitResponses i :: TDecide i :: ts))
      end
  | TDecide i =>
      match transactions n !! i with
      | None => Crash
      | Some t =>
          let '(commit, go_on) := decision t in
          Done (n, set_tasks w ((if commit then TWrite i <$> seq 0 (length (writeSet t)) else []) ++
                                (if go_on then [TFlushIf] else []) ++ ts))
      end
  | TWrite i j => x ← commit_write c i j n w; Done (x.1, set_tasks x.2 ts)
  | _ => Blocks
  end.

(** ** Steps of managers *)

(** The swaps of [cleanup_batch], at transaction [i]; [it] transactions are
    moved already. *)
Fixpoint cleanup_loop (fuel i it : nat) (l : gmap nat Txn) : gmap nat Txn * nat :=
  match fuel with
  | O => (l, it)
  | S fuel =>
      match l !! i with
      | None => (l, it)
      | Some t =>
          if abort_lock t then
            let l' := match l !! it with Some t' => <[it := t]> (<[i := t']> l) | None => <[it := t]> (delete i l) end in
            cleanup_loop fuel (S i) (S it) l'
          else cleanup_loop fuel (S i) it l
      end
  end.

Definition cleanup_batch (n : Node) : Node :=
  let '(l, it) := cleanup_loop (batch_size context) 0 0 (transactions n) in
  mkNode (rows n) l (storages n) (n_epoch n) it (worker_status n) (n_started_workers n) (n_completed_workers n).

(** The first message of one of the manager's queues. *)
Fixpoint take_message (f : piece → option ExecutorStatus) (q : list (nat * list piece)) :
    option (ExecutorStatus * list (nat * list piece)) :=
  match q with
  | [] => None
  | (src, ps) :: q =>
      match ps ≫= λ p, option_list (f p) with
      | s :: _ => Some (s, q)
      | [] => x ← take_message f q; Some (x.1, (src, ps) :: x.2)
      end
  end.

Definition is_signal (p : piece) : option ExecutorStatus := match p with SignalMessage s => Some s | _ => None end.
Definition is_ack (p : piece) : option ExecutorStatus := match p with AckMessage => Some START | _ => None end.
Definition is_stop (p : piece) : option ExecutorStatus := match p with StopMessage => Some START | _ => None end.

(** A control message to every other node. *)
Definition broadcast (c : nat) (p : piece) (w : Worker) : Worker :=
  flush_messages c (foldl (λ w i, if decide (i = c) then w else add_piece w i p) w (seq 0 (coordinator_num context))).

Definition wait_all_workers_finish (n : Node) (w : Worker) (ts : list task) : blocking (Node * Worker) :=
  if decide (n_completed_workers n < worker_num context)%nat then Blocks else Done (n, set_tasks w ts).

Definition wait_all_workers_start (n : Node) (w : Worker) (ts : list task) : blocking (Node * Worker) :=
  if decide (n_started_workers n < worker_num context)%nat then Blocks else Done (n, set_tasks w ts).

Definition signal_worker (c : nat) (status : ExecutorStatus) (n : Node) (w : Worker) : Node * Worker :=
  (set_status n status, broadcast c (SignalMessage status) w).

Definition wait4_signal (w : Worker) : blocking (ExecutorStatus * Worker) :=
  match take_message is_signal (in_queue w) with
  | None => Blocks
  | Some (status, q) => Done (status, set_in w q)
  end.

(** One turn of the loops. *)
Definition wait4_stop (w : Worker) : blocking Worker :=
  match take_message is_stop (in_queue w) with
  | None => Blocks
  | Some (_, q) => Done (set_in w q)
  end.

Definition wait4_ack (w : Worker) : blocking Worker :=
  match take_message is_ack (in_queue w) with
  | None => Blocks
  | Some (_, q) => Done (set_in w q)
  end.

Definition send_ack (c : nat) (w : Worker) : Worker := flush_messages c (add_piece w 0 AckMessage).

Definition manager_step (c : nat) (stopFlag : bool) (n : Node) (w : Worker) (ts : list task) (t : task) :
    blocking (Node * Worker) :=
  match t with
  | MLoop =>
      if decide (c = 0)%nat then
        if stopFlag then Done (n, set_tasks w [MSignal EXIT]) else Done (n, set_tasks w coordinator_start)
      else
        x ← wait4_signal w;
        if decide (x.1 = EXIT) then Done (set_status n EXIT, set_tasks x.2 [])
        else Done (n, set_tasks x.2 non_coordinator_start)
  | MEpoch =>
      Done (mkNode (rows n) (transactions n) (storages n) (uint 32 (n_epoch n + 1)) (total_abort n) (worker_status n)
              (n_started_workers n) (n_completed_workers n), set_tasks w ts)
  | MCleanup => Done (cleanup_batch n, set_tasks w ts)
  | MStarted0 => Done (set_started n 0, set_tasks w ts)
  | MCompleted0 => Done (set_completed n 0, set_tasks w ts)
  | MSignal s => let '(n, w) := signal_worker c s n w in Done (n, set_tasks w ts)
  | MStatus s => Done (set_status n s, set_tasks w ts)
  | MAwaitStarted => wait_all_workers_start n w ts
  | MAwaitCompleted => wait_all_workers_finish n w ts
  | MBroadcastStop => Done (n, set_tasks (broadcast c StopMessage w) ts)
  | MWaitStop O | MWaitAck O => Done (n, set_tasks w ts)
  | MWaitStop (S k) => w ← wait4_stop w; Done (n, set_tasks w (MWaitStop k :: ts))
  | MWaitAck (S k) => w ← wait4_ack w; Done (n, set_tasks w (MWaitAck k :: ts))
  | MSendAck => Done (n, set_tasks (send_ack c w) ts)
  | MWaitSignal => x ← wait4_signal w; Done (n, set_tasks x.2 ts)
  | _ => Blocks
  end.

(** ** Steps of the system *)

Inductive event :=
| Run (c w : nat) (b : bool)       (* a step of worker w of node c; a spurious failure, or the stop flag *)
| Dispatch (c w : nat)             (* OutgoingDispatcher::dispatchMessage *)
| Receive (c src group : nat).     (* IncomingDispatcher: a message from the socket to node src *)

(** The first message of a socket. *)
Fixpoint take_socket (P : nat * nat * nat * list piece → bool) (l : list (nat * nat * nat * list piece)) :
    option ((nat * nat * nat * list piece) * list (nat * nat * nat * list piece)) :=
  match l with
  | [] => None
  | m :: l => if P m then Some (m, l) else x ← take_socket P l; Some (x.1, m :: x.2)
  end.

(** A step of a thread. *)
Definition run_worker (s : System) (c w : nat) (b : bool) : blocking System :=
  match nodes s !! c, workers s !! (c, w) with
  | Some n, Some wk =>
      match tasks wk with
      | [] => Blocks
      | t :: ts =>
          x ← (if decide (w < worker_num context)%nat then executor_step c w b n wk ts t else manager_step c b n wk ts t);
          Done (mkSystem (<[c := x.1]> (nodes s)) (<[(c, w) := x.2]> (workers s)) (sockets s))
      end
  | _, _ => Blocks
  end.

(** [dispatchMessage]: [pop_message] and [sendMessage]. *)
Definition dispatchMessage (s : System) (c w : nat) : blocking System :=
  match workers s !! (c, w) with
  | Some wk =>
      match out_queue wk with
      | [] => Done s
      | (dest, ps) :: q =>
          Done (mkSystem (nodes s) (<[(c, w) := set_out wk q]> (workers s)) (sockets s ++ [(c, dest, w, ps)]))
      end
  | None => Blocks
  end.

(** The incoming dispatcher [group] of node [c] passes a message of node [src] on. *)
Definition receive_message (s : System) (c src group : nat) : blocking System :=
  match take_socket (λ m, bool_decide (m.1.1.1 = src ∧ m.1.1.2 = c ∧ m.1.2 `mod` io_thread_num context = group)%nat) (sockets s) with
  | None => Blocks
  | Some ((_, _, w, ps), l) =>
      match workers s !! (c, w) with
      | Some wk => Done (mkSystem (nodes s) (<[(c, w) := set_in wk (in_queue wk ++ [(src, ps)])]> (workers s)) l)
      | None => Crash
      end
  end.

Definition step (s : System) (ev : event) : blocking System :=
  match ev with
  | Run c w b => run_worker s c w b
  | Dispatch c w => dispatchMessage s c w
  | Receive c src group => receive_message s c src group
  end.

Definition steps (s : System) (evs : list event) : blocking System := foldl (λ s ev, s ← s; step s ev) (Done s) evs.

(** The system at its start, with the rows the tables are loaded with. *)
Definition new_node (m : gmap row_id Row) : Node := mkNode m ∅ ∅ 0 0 STOP 0 0.

Definition new_worker (w : nat) : Worker :=
  mkWorker (if decide (w < worker_num context)%nat then [TLoop] else [MLoop]) 0 ∅ [] [].

Definition new_system (m : nat → gmap row_id Row) : System :=
  mkSystem (list_to_map ((λ c, (c, new_node (m c))) <$> seq 0 (coordinator_num context)))
    (list_to_map (c ← seq 0 (coordinator_num context); w ← seq 0 (worker_num context + 1); [((c, w), new_worker w)])) [].

End aria.
Arguments Row V : clear implicits.
Arguments piece K V : clear implicits.
Arguments task K : clear implicits.
Arguments Worker K V : clear implicits.
Arguments Node K V {_ _}.
Arguments System K V {_ _}.
