(* ===== verification/AriaFlight.v ===== *)
(** * Aria: pieces on their way

    The pieces of messages that are somewhere between the thread that made them
    and the handler: in a message being filled, in a queue or in a socket. *)

From S2P Require Import Prelude Bits AriaHelper AriaTxn AriaSystem.

Section flight.
Context {K V : Type} `{Countable K} `{Inhabited V} (context : AriaContext).

(** Source, destination, worker and piece. *)
Notation packet := (nat * nat * nat * piece K V)%type.
Implicit Types (s : System K V) (wk : Worker K V) (p : piece K V).

Definition with_ends (src dst w : nat) (ps : list (piece K V)) : list packet := (λ p, (src, dst, w, p)) <$> ps.

Definition filled (c w : nat) (m : gmap nat (list (piece K V))) : list packet :=
  map_to_list m ≫= λ x, with_ends c x.1 w x.2.
Definition queued_out (c w : nat) (q : list (nat * list (piece K V))) : list packet :=
  q ≫= λ x, with_ends c x.1 w x.2.
Definition queued_in (c w : nat) (q : list (nat * list (piece K V))) : list packet :=
  q ≫= λ x, with_ends x.1 c w x.2.

Definition packets_of (cw : nat * nat) wk : list packet :=
  filled cw.1 cw.2 (messages wk) ++ queued_out cw.1 cw.2 (out_queue wk) ++ queued_in cw.1 cw.2 (in_queue wk).

Definition flight s : list packet :=
  (map_to_list (workers s) ≫= λ x, packets_of x.1 x.2) ++ (sockets s ≫= λ x, with_ends x.1.1.1 x.1.1.2 x.1.2 x.2).

#[global] Instance bind_Permutation {A B} (f : A → list B) : Proper ((≡ₚ) ==> (≡ₚ)) (mbind f).
Proof.
  intros l l' Hl. induction Hl as [|x l l' _ IH|x y l|l l' l'' _ IH1 _ IH2]; simpl.
  - done.
  - by rewrite IH.
  - rewrite !app_assoc. by rewrite (Permutation_app_comm (f y)).
  - by rewrite IH1.
Qed.

(** One thread's part of the flight. *)
Lemma flight_worker s cw wk : workers s !! cw = Some wk →
  ∃ rest, flight s ≡ₚ packets_of cw wk ++ rest ∧
    ∀ ns wk', flight (mkSystem ns (<[cw := wk']> (workers s)) (sockets s)) ≡ₚ packets_of cw wk' ++ rest.
Proof.
  intros Hw. exists ((map_to_list (delete cw (workers s)) ≫= λ x, packets_of x.1 x.2) ++
    (sockets s ≫= λ x, with_ends x.1.1.1 x.1.1.2 x.1.2 x.2)). unfold flight. simpl. split.
  - rewrite <- (insert_delete_id (workers s) cw wk Hw) at 1. rewrite map_to_list_insert by apply lookup_delete_eq.
    simpl. by rewrite <- app_assoc.
  - intros _ wk'. rewrite <- insert_delete_eq, map_to_list_insert by apply lookup_delete_eq. simpl. by rewrite <- app_assoc.
Qed.

(** ** What changes a thread's packets *)

Lemma filled_insert c w (m : gmap nat (list (piece K V))) d ps :
  filled c w (<[d := ps]> m) ≡ₚ with_ends c d w ps ++ filled c w (delete d m).
Proof.
  unfold filled. rewrite <- insert_delete_eq, map_to_list_insert by apply lookup_delete_eq. done.
Qed.

Lemma filled_lookup c w (m : gmap nat (list (piece K V))) d :
  filled c w m ≡ₚ with_ends c d w (default [] (m !! d)) ++ filled c w (delete d m).
Proof.
  destruct (m !! d) as [ps|] eqn:Hd; simpl.
  - rewrite <- filled_insert. by rewrite insert_id.
  - by rewrite delete_id.
Qed.

Lemma packets_add cw wk d p : packets_of cw (add_piece wk d p) ≡ₚ (cw.1, d, cw.2, p) :: packets_of cw wk.
Proof.
  unfold packets_of, add_piece. simpl. rewrite filled_insert, (filled_lookup _ _ (messages wk) d).
  unfold with_ends. rewrite fmap_app, <- !app_assoc. simpl. by rewrite <- Permutation_middle.
Qed.

Lemma packets_tasks cw wk ts : packets_of cw (set_tasks wk ts) = packets_of cw wk.
Proof. done. Qed.
Lemma packets_count cw wk n : packets_of cw (set_count wk n) = packets_of cw wk.
Proof. done. Qed.

Lemma perm_rotate {A} (a b c d : list A) : a ++ (b ++ c) ++ d ≡ₚ (c ++ a) ++ b ++ d.
Proof. rewrite <- !app_assoc, (app_assoc a b), Permutation_app_swap_app. by rewrite <- !app_assoc. Qed.

Lemma perm_last {A} (a b c d : list A) : a ++ b ++ c ++ d ≡ₚ d ++ a ++ b ++ c.
Proof. rewrite !app_assoc, (Permutation_app_comm _ d). by rewrite <- !app_assoc. Qed.

Lemma flush_message_spec c w wk i :
  packets_of (c, w) (flush_message c wk i) ≡ₚ packets_of (c, w) wk ∧
  tasks (flush_message c wk i) = tasks wk ∧ count (flush_message c wk i) = count wk.
Proof.
  unfold flush_message. case_decide; [done|]. destruct (default [] (messages wk !! i)) as [|p ps] eqn:Hi; [done|].
  split; [|done]. unfold packets_of. simpl. rewrite filled_insert, (filled_lookup c w (messages wk) i), Hi. simpl.
  unfold queued_out. rewrite bind_app. simpl. rewrite app_nil_r. apply (perm_rotate _ _ (with_ends c i w (p :: ps))).
Qed.

Lemma flush_messages_spec c w wk :
  packets_of (c, w) (flush_messages context c wk) ≡ₚ packets_of (c, w) wk ∧
  tasks (flush_messages context c wk) = tasks wk ∧ count (flush_messages context c wk) = count wk.
Proof.
  unfold flush_messages. generalize (seq 0 (coordinator_num context)). intros l. revert wk.
  induction l as [|i l IH]; intros wk; [done|]. simpl. destruct (IH (flush_message c wk i)) as (-> & -> & ->).
  apply flush_message_spec.
Qed.

Lemma packets_in_nil cw wk src q : in_queue wk = (src, []) :: q → packets_of cw wk = packets_of cw (set_in wk q).
Proof. intros Hq. unfold packets_of. simpl. rewrite Hq. done. Qed.

Lemma packets_in_cons cw wk src p ps q : in_queue wk = (src, p :: ps) :: q →
  packets_of cw wk ≡ₚ (src, cw.1, cw.2, p) :: packets_of cw (set_in wk ((src, ps) :: q)).
Proof.
  intros Hq. unfold packets_of. simpl. rewrite Hq. simpl. by rewrite !app_assoc, <- Permutation_middle, <- !app_assoc.
Qed.

(** ** The dispatchers only move messages *)

Lemma take_socket_spec P l (x : nat * nat * nat * list (piece K V)) l' :
  take_socket P l = Some (x, l') → P x = true ∧ l ≡ₚ x :: l'.
Proof.
  revert l'. induction l as [|y l IH]; intros l'; [done|]. simpl. destruct (P y) eqn:Hy; [by intros [= <- <-]|].
  intros ([x1 l1] & Hl & [= <- <-])%bind_Some. destruct (IH _ Hl) as [? ->]. split; [done|]. simpl. constructor.
Qed.

Lemma dispatch_flight mc nt s c w s' : step context mc nt s (Dispatch c w) = Done s' →
  flight s' ≡ₚ flight s ∧ nodes s' = nodes s ∧
  (∀ cw, tasks <$> workers s' !! cw = tasks <$> workers s !! cw).
Proof.
  simpl. unfold dispatchMessage. destruct (workers s !! (c, w)) as [wk|] eqn:Hw; [|done].
  destruct (out_queue wk) as [|[dest ps] q] eqn:Hq; intros [= <-]; [done|]. split; [|split; [done|]].
  - destruct (flight_worker s _ _ Hw) as (rest & Hf & Hf').
    assert (∀ ws l m, flight (mkSystem (nodes s) ws (l ++ [m])) ≡ₚ with_ends m.1.1.1 m.1.1.2 m.1.2 m.2 ++ flight (mkSystem (nodes s) ws l)) as Hs.
    { intros ws l m. unfold flight. simpl. rewrite bind_app. simpl. rewrite app_nil_r, app_assoc. apply Permutation_app_comm. }
    rewrite Hs, Hf', Hf. simpl. rewrite app_assoc. apply Permutation_app_tail. unfold packets_of. simpl. rewrite Hq. simpl.
    rewrite app_assoc, (Permutation_app_comm (with_ends _ _ _ _) (filled _ _ _)), <- !app_assoc. done.
  - intros cw. simpl. destruct (decide (cw = (c, w))) as [->|Hne]; [by rewrite lookup_insert_eq, Hw|].
    by rewrite lookup_insert_ne.
Qed.

Lemma receive_flight mc nt s c src g s' : step context mc nt s (Receive c src g) = Done s' →
  flight s' ≡ₚ flight s ∧ nodes s' = nodes s ∧
  (∀ cw, tasks <$> workers s' !! cw = tasks <$> workers s !! cw).
Proof.
  simpl. unfold receive_message. destruct (take_socket _ _) as [[[[[src' dst] w] ps] l]|] eqn:Ht; [|done].
  destruct (workers s !! (c, w)) as [wk|] eqn:Hw; [|done]. intros [= <-].
  apply take_socket_spec in Ht as [HP%bool_decide_eq_true Hl]. simpl in HP. destruct HP as (-> & -> & _).
  split; [|split; [done|]].
  - destruct (flight_worker s _ _ Hw) as (rest & Hf & Hf').
    assert (∀ ns ws l l', l ≡ₚ l' → flight (mkSystem ns ws l) ≡ₚ flight (mkSystem ns ws l')) as Hp.
    { intros ns ws l1 l2 Hl12. unfold flight. simpl. by rewrite Hl12. }
    assert (∀ ns ws m l, flight (mkSystem ns ws (m :: l)) ≡ₚ with_ends m.1.1.1 m.1.1.2 m.1.2 m.2 ++ flight (mkSystem ns ws l)) as Hs.
    { intros ns ws m l1. unfold flight. simpl. rewrite !app_assoc. apply Permutation_app_tail, Permutation_app_comm. }
    apply (Permutation_app_inv_l (with_ends src c w ps)).
    rewrite <- (Hs (nodes s) _ (src, c, w, ps)). rewrite (Hp _ _ _ (sockets s)) by (by rewrite Hl).
    rewrite Hf', Hf. simpl. rewrite app_assoc. apply Permutation_app_tail. unfold packets_of, queued_in. simpl.
    rewrite bind_app. simpl. rewrite app_nil_r. apply perm_last.
  - intros cw. simpl. destruct (decide (cw = (c, w))) as [->|Hne]; [by rewrite lookup_insert_eq, Hw|].
    by rewrite lookup_insert_ne.
Qed.

End flight.
