(* ===== verification/AriaPhase.v ===== *)
(** * Aria: the run of a phase

    Within a phase the managers only wait for workers and for the other managers;
    the executors run, and the dispatchers move messages.  An invariant of the
    steps of executors is one of the whole system. *)

From S2P Require Import Prelude Bits AriaHelper AriaTxn AriaSystem AriaFlight.

Definition upd {X} (f : nat → X) (i : nat) (x : X) : nat → X := λ j, if decide (j = i) then x else f j.
Definition upd2 {X} (f : nat → nat → X) (c i : nat) (x : X) : nat → nat → X :=
  λ c' i', if decide (c' = c ∧ i' = i) then x else f c' i'.

Lemma upd_eq {X} (f : nat → X) i x : upd f i x i = x.
Proof. unfold upd. by rewrite decide_True. Qed.
Lemma upd_ne {X} (f : nat → X) i j x : j ≠ i → upd f i x j = f j.
Proof. intros. unfold upd. by rewrite decide_False. Qed.
Lemma upd2_eq {X} (f : nat → nat → X) c i x : upd2 f c i x c i = x.
Proof. unfold upd2. by rewrite decide_True. Qed.
Lemma upd2_ne {X} (f : nat → nat → X) c i x c' i' : ¬ (c' = c ∧ i' = i) → upd2 f c i x c' i' = f c' i'.
Proof. intros. unfold upd2. by rewrite decide_False. Qed.
Lemma upd2_row {X} (f : nat → nat → X) c i x j : upd2 f c i x c j = upd (f c) i x j.
Proof. unfold upd2, upd. repeat case_decide; naive_solver. Qed.

(** How far a worker is with a transaction. *)
Inductive stage := Pre | Mid | Post.

#[global] Instance stage_eq_dec : EqDecision stage.
Proof. solve_decision. Defined.

(** The second pass, or the decision, follows the wait. *)
Fixpoint ordered {K} (ts : list (task K)) : Prop :=
  match ts with
  | t :: ts => match ts with TReserveTxn i :: _ | TDecide i :: _ => t = TWaitResponses i | _ => True end ∧ ordered ts
  | [] => True
  end.

Lemma ordered_none {K} (ts : list (task K)) : (∀ i, TReserveTxn i ∉ ts ∧ TDecide i ∉ ts) → ordered ts.
Proof.
  induction ts as [|t ts IH]; intros Ht; [done|]. split; [|apply IH; intros i; destruct (Ht i); set_solver].
  destruct ts as [|[] ?]; try done; destruct (Ht i); set_solver.
Qed.

(** All of [l] are at [x]. *)
Definition all_at (l : list nat) (x : stage) (s : nat → stage) : nat → stage := λ i, if decide (i ∈ l) then x else s i.

Lemma all_at_cons i l x (s : nat → stage) j : i ∉ l → all_at (i :: l) x s j = all_at l x (upd s i x) j.
Proof.
  intros Hi. unfold all_at, upd. destruct (decide (j ∈ i :: l)) as [Hj|Hj]; apply elem_of_cons in Hj || apply not_elem_of_cons in Hj.
  - case_decide; [done|]. rewrite decide_True; naive_solver.
  - rewrite !decide_False by naive_solver. done.
Qed.

Section packets.
Context {K V : Type} `{Countable K} `{Inhabited V} (context : AriaContext).
Notation packet := (nat * nat * nat * piece K V)%type.
Notation W := (worker_num context).
Notation B := (batch_size context).
Implicit Types (F R : list packet) (n : Node K V) (ts : list (task K)).

(** The packet is a request of, or a response to, transaction [i] of node [c]. *)
Definition concerns (c i : nat) (x : packet) : bool :=
  match x.2 with
  | SearchRequest _ _ off _ | CheckRequest _ _ off _ _ => bool_decide (x.1.1.1 = c ∧ off = i)
  | SearchResponse _ _ off _ | CheckResponse _ off _ _ _ _ => bool_decide (x.1.1.2 = c ∧ off = i)
  | _ => false
  end.

Definition pending_for (c i : nat) (F : list packet) : nat := length (filter (λ x, concerns c i x = true) F).

Lemma pending_for_app c i F R : pending_for c i (F ++ R) = (pending_for c i F + pending_for c i R)%nat.
Proof. unfold pending_for. by rewrite filter_app, length_app. Qed.

Lemma pending_for_cons c i x F : pending_for c i (x :: F) = ((if concerns c i x then 1 else 0) + pending_for c i F)%nat.
Proof.
  unfold pending_for. destruct (concerns c i x) eqn:Hx; [by rewrite filter_cons_True|].
  rewrite filter_cons_False; [done|]. by rewrite Hx.
Qed.

#[global] Instance pending_for_perm c i : Proper ((≡ₚ) ==> (=)) (pending_for c i).
Proof. intros F R HF. unfold pending_for. by rewrite HF. Qed.

Lemma pending_for_0 c i F : pending_for c i F = 0%nat ↔ ∀ x, x ∈ F → concerns c i x = false.
Proof.
  induction F as [|y F IH]; [split; [by intros _ ? ?%not_elem_of_nil|done]|]. rewrite pending_for_cons. split.
  - intros Hp x. destruct (concerns c i y) eqn:Hy; [lia|]. intros [->|Hx]%elem_of_cons; [done|]. apply IH; [lia|done].
  - intros Hx. rewrite (Hx y) by set_solver. apply IH. set_solver.
Qed.

(** The transactions of worker [w]. *)
Definition owned (w i : nat) : Prop := (i < B)%nat ∧ (i `mod` W)%nat = w.

Lemma ordered_head t ts i ts' : ordered (t :: ts) → t ≠ TWaitResponses i → ts ≠ TReserveTxn i :: ts'.
Proof. intros [Ho _] Ht ->. done. Qed.

(** The step did not touch the data of the node. *)
Definition same_data n n' : Prop :=
  rows n' = rows n ∧ transactions n' = transactions n ∧ storages n' = storages n ∧
  n_epoch n' = n_epoch n ∧ total_abort n' = total_abort n ∧ worker_status n' = worker_status n.

Lemma storage_of_set n i st : storage_of (set_storage n i st) i = st.
Proof. unfold storage_of. simpl. by rewrite lookup_insert_eq. Qed.
Lemma storage_of_set_ne n i st j : j ≠ i → storage_of (set_storage n i st) j = storage_of n j.
Proof. intros. unfold storage_of. simpl. by rewrite lookup_insert_ne. Qed.

End packets.

Section phase.
Context {K V : Type} `{Countable K} `{Inhabited V} (context : AriaContext) (master_coordinator : Z → nat).
Context (next_transaction : nat → Z → nat → Query K V).
Notation packet := (nat * nat * nat * piece K V)%type.
Notation N := (coordinator_num context).
Notation W := (worker_num context).
Notation step := (step context master_coordinator next_transaction).
Implicit Types (s : System K V) (F R : list packet) (wk : Worker K V).

(** The steps of a manager within a phase. *)
Definition waiting (t : task K) : bool :=
  match t with MAwaitStarted | MAwaitCompleted | MBroadcastStop | MWaitStop _ => true | _ => false end.

Definition calm s (ev : event) : bool :=
  match ev with
  | Run c w _ =>
      bool_decide (w < W)%nat ||
      match workers s !! (c, w) with
      | Some wk => match tasks wk with t :: _ => waiting t | [] => false end
      | None => false
      end
  | _ => true
  end.

Fixpoint run_phase s (evs : list event) : blocking (System K V) :=
  match evs with
  | [] => Done s
  | ev :: evs => if calm s ev then s' ← step s ev; run_phase s' evs else Blocks
  end.

(** What the executors have to do, and their packets. *)
Definition tk_of s (c w : nat) : list (task K) := default [] (tasks <$> workers s !! (c, w)).
Definition exec_flight s : list packet := filter (λ x : packet, (x.1.2 < W)%nat) (flight s).

Lemma packets_of_worker (c w : nat) wk (x : packet) : x ∈ packets_of (c, w) wk → x.1.2 = w.
Proof.
  unfold packets_of, filled, queued_out, queued_in, with_ends. rewrite !elem_of_app, !list_elem_of_bind. simpl.
  intros [(? & (? & -> & _)%list_elem_of_fmap & _)|[(? & (? & -> & _)%list_elem_of_fmap & _)|(? & (? & -> & _)%list_elem_of_fmap & _)]]; done.
Qed.

Lemma filter_packets (c w : nat) wk :
  filter (λ x : packet, (x.1.2 < W)%nat) (packets_of (c, w) wk) = if decide (w < W)%nat then packets_of (c, w) wk else [].
Proof.
  case_decide as Hw; [apply filter_all|apply filter_none]; apply Forall_forall; intros x Hx%packets_of_worker; by rewrite Hx.
Qed.

(** One executor's part of the packets. *)
Lemma exec_flight_worker s (c w : nat) wk : workers s !! (c, w) = Some wk →
  ∃ R, exec_flight s ≡ₚ (if decide (w < W)%nat then packets_of (c, w) wk else []) ++ R ∧
    ∀ ns wk', exec_flight (mkSystem ns (<[(c, w) := wk']> (workers s)) (sockets s)) ≡ₚ
      (if decide (w < W)%nat then packets_of (c, w) wk' else []) ++ R.
Proof.
  intros Hwk. destruct (flight_worker s (c, w) wk Hwk) as (R & HR & HR').
  exists (filter (λ x : packet, (x.1.2 < W)%nat) R). unfold exec_flight. split.
  - by rewrite HR, filter_app, filter_packets.
  - intros ns wk'. by rewrite HR', filter_app, filter_packets.
Qed.

(** A waiting manager does not change its node. *)
Lemma waiting_node (c : nat) (b : bool) (n n' : Node K V) wk wk' ts t : waiting t = true →
  manager_step context c b n wk ts t = Done (n', wk') → n' = n.
Proof.
  destruct t; try done; intros _; simpl.
  - unfold wait_all_workers_start. by case_decide; intros [=].
  - unfold wait_all_workers_finish. by case_decide; intros [=].
  - by intros [=].
  - destruct n0; [by intros [=]|]. destruct (wait4_stop wk); [by intros [=]|done..].
Qed.

Section invariant.
Variable I : gmap nat (Node K V) → (nat → nat → list (task K)) → list packet → Prop.
Hypothesis I_ext : ∀ ns tk tk' F F',
  (∀ c w, (c < N)%nat → (w < W)%nat → tk c w = tk' c w) → F ≡ₚ F' → I ns tk F → I ns tk' F'.
Hypothesis I_nodes : ∀ ns tk F c, I ns tk F → is_Some (ns !! c) → (c < N)%nat.
Hypothesis I_step : ∀ ns tk F R c w b n wk t ts,
  I ns tk F → (c < N)%nat → (w < W)%nat → ns !! c = Some n → tk c w = t :: ts → F ≡ₚ packets_of (c, w) wk ++ R →
  ∃ n' wk', executor_step context master_coordinator next_transaction c w b n wk ts t = Done (n', wk') ∧
    I (<[c := n']> ns) (upd2 tk c w (tasks wk')) (packets_of (c, w) wk' ++ R).

Definition system_inv s : Prop := I (nodes s) (tk_of s) (exec_flight s).

Lemma tk_of_insert ns s (c w : nat) wk' c' w' :
  upd2 (tk_of s) c w (tasks wk') c' w' = tk_of (mkSystem ns (<[(c, w) := wk']> (workers s)) (sockets s)) c' w'.
Proof using.
  unfold upd2, tk_of. simpl. case_decide as Hd; [destruct Hd as [-> ->]; by rewrite lookup_insert_eq|].
  rewrite lookup_insert_ne by naive_solver. done.
Qed.

Lemma run_executor_inv s (c w : nat) b : system_inv s → (w < W)%nat →
  match run_worker context master_coordinator next_transaction s c w b with
  | Done s' => system_inv s'
  | Blocks => True
  | Crash => False
  end.
Proof using All.
  intros HI Hw. unfold run_worker. destruct (nodes s !! c) as [n|] eqn:Hn; [|done].
  destruct (workers s !! (c, w)) as [wk|] eqn:Hwk; [|done]. destruct (tasks wk) as [|t ts] eqn:Ht; [done|].
  rewrite decide_True by done. destruct (exec_flight_worker s c w wk Hwk) as (R & HR & HR'). rewrite decide_True in HR by done.
  destruct (I_step (nodes s) (tk_of s) (exec_flight s) R c w b n wk t ts) as (n' & wk' & -> & HI'); try done.
  - by eapply I_nodes.
  - unfold tk_of. by rewrite Hwk.
  - cbn [mbind blocking_bind fst snd]. eapply I_ext; [|symmetry; rewrite HR'; by rewrite decide_True|exact HI'].
    intros c' w' _ _. apply tk_of_insert.
Qed.

Lemma run_manager_inv s (c w : nat) b s' : system_inv s → ¬ (w < W)%nat → calm s (Run c w b) = true →
  run_worker context master_coordinator next_transaction s c w b = Done s' → system_inv s'.
Proof using All.
  intros HI Hw Hcalm. unfold run_worker. destruct (nodes s !! c) as [n|] eqn:Hn; [|done].
  simpl in Hcalm. rewrite bool_decide_false in Hcalm by done. simpl in Hcalm.
  destruct (workers s !! (c, w)) as [wk|] eqn:Hwk; [|done]. destruct (tasks wk) as [|t ts] eqn:Ht; [done|].
  rewrite decide_False by done. destruct (manager_step _ _ _ _ _ _ _) as [[n' wk']| |] eqn:Hm; [|done..].
  cbn [mbind blocking_bind fst snd]. intros [= <-]. apply (waiting_node _ _ _ _ _ _ _ _ Hcalm) in Hm as ->.
  destruct (exec_flight_worker s c w wk Hwk) as (R & HR & HR'). rewrite decide_False in HR by done.
  eapply I_ext; [| |simpl; rewrite insert_id by done; exact HI].
  - intros c' w' _ Hw'. rewrite <- tk_of_insert. unfold upd2. rewrite decide_False; [done|]. intros [-> ->]. done.
  - rewrite HR', HR. by rewrite decide_False.
Qed.

Lemma move_inv s s' : system_inv s → flight s' ≡ₚ flight s → nodes s' = nodes s →
  (∀ cw, tasks <$> workers s' !! cw = tasks <$> workers s !! cw) → system_inv s'.
Proof using I_ext.
  intros HI HF Hn Ht. unfold system_inv. rewrite Hn. eapply I_ext; [| |exact HI].
  - intros c w _ _. unfold tk_of. by rewrite Ht.
  - unfold exec_flight. by rewrite HF.
Qed.

(** The invariant holds all through the phase, and no step of an executor stops
    the process. *)
Lemma phase_inv s evs s' : system_inv s → run_phase s evs = Done s' →
  system_inv s' ∧ ∀ c w b, (w < W)%nat → step s' (Run c w b) ≠ Crash.
Proof using All.
  revert s. induction evs as [|ev evs IH]; intros s HI; simpl.
  { intros [= <-]. split; [done|]. intros c w b Hw Hcr. pose proof (run_executor_inv s c w b HI Hw) as Hx.
    simpl in Hcr. by rewrite Hcr in Hx. }
  destruct (calm s ev) eqn:Hcalm; [|done]. destruct (step s ev) as [s1| |] eqn:Hs; [|done..].
  cbn [mbind blocking_bind]. apply IH. clear IH. destruct ev as [c w b|c w|c src g].
  - simpl in Hs. destruct (decide (w < W)%nat) as [Hw|Hw].
    + pose proof (run_executor_inv s c w b HI Hw) as Hx. by rewrite Hs in Hx.
    + by eapply run_manager_inv.
  - destruct (dispatch_flight _ _ _ _ _ _ _ Hs) as (? & ? & ?). by eapply move_inv.
  - destruct (receive_flight _ _ _ _ _ _ _ _ Hs) as (? & ? & ?). by eapply move_inv.
Qed.

End invariant.

End phase.
