(* ===== verification/AriaExec.v ===== *)
(** * Aria: what a transaction does in each pass

    The two passes of [execute] and the loops over the read and write sets, in
    terms of the query of the transaction. *)

From S2P Require Import Prelude Bits AriaHelper AriaTxn AriaSystem AriaFlight.

Section exec.
Context {K V : Type} `{Countable K} `{Inhabited V} (context : AriaContext) (master_coordinator : Z → nat).
Notation packet := (nat * nat * nat * piece K V)%type.
Notation Txn := (AriaTransaction K V).
Implicit Types (q : Query K V) (k : AriaRWKey K) (t : Txn) (wk : Worker K V) (st : storage V) (r : row_id K).

Definition master (r : row_id K) : nat := master_coordinator (partition_of r).

(** The keys a query makes. *)
Definition search_keys q : list (AriaRWKey K) := (λ s, search_key s.1.1 s.1.2 s.2) <$> q_searches q.
Definition read_keys q : list (AriaRWKey K) := clear_read_request_bit <$> search_keys q.
Definition write_keys q : list (AriaRWKey K) := (λ u, new_rwkey u.1 u.2) <$> q_updates q.

(** What the theorems ask of a query: tables and partitions fit their fields,
    the searches go to different fields, a row is updated once, the sets are not
    huge, and the first pass computes nothing. *)
Record query_ok q : Prop := {
  qo_searches : Forall (λ s, row_ok s.1.2) (q_searches q);
  qo_updates : Forall (λ u, row_ok u.1) (q_updates q);
  qo_fields : NoDup (q_searches q).*2;
  qo_rows : NoDup (q_updates q).*1;
  qo_size : Z.of_nat (length (q_searches q)) + Z.of_nat (length (q_updates q)) < 2 ^ 32;
  qo_compute : ∀ st, q_compute q false st = st
}.

Lemma search_keys_says q j k : query_ok q → search_keys q !! j = Some k →
  ∃ li r v, q_searches q !! j = Some (li, r, v) ∧ says k r v li true.
Proof.
  intros Hq. unfold search_keys. rewrite list_lookup_fmap_Some. intros ([[li r] v] & -> & Hj). exists li, r, v. split; [done|].
  apply search_key_says. by apply (Forall_lookup_1 _ _ _ _ (qo_searches _ Hq)) in Hj.
Qed.

Lemma read_keys_says q j li r v : query_ok q → q_searches q !! j = Some (li, r, v) →
  ∃ k, read_keys q !! j = Some k ∧ says k r v li false.
Proof.
  intros Hq Hj. unfold read_keys, search_keys. rewrite !list_lookup_fmap, Hj. simpl. eexists. split; [done|].
  eapply clear_request_says, search_key_says. by apply (Forall_lookup_1 _ _ _ _ (qo_searches _ Hq)) in Hj.
Qed.

Lemma write_keys_says q j r v : query_ok q → q_updates q !! j = Some (r, v) →
  ∃ k, write_keys q !! j = Some k ∧ says k r v false false.
Proof.
  intros Hq Hj. unfold write_keys. rewrite list_lookup_fmap, Hj. simpl. eexists. split; [done|].
  apply new_rwkey_says. by apply (Forall_lookup_1 _ _ _ _ (qo_updates _ Hq)) in Hj.
Qed.

Lemma says_local k r v li b : says k r v li b → negb (get_local_index_read_bit k =? 0)%Z = li.
Proof. intros [_ _ _ -> _]. by destruct li. Qed.

Lemma says_partition k r v li b : says k r v li b → get_partition_id k = partition_of r.
Proof. intros [_ <- _ _ _]. done. Qed.

(** ** The first pass *)

Lemma searches_spec t l : execution_phase t = false →
  foldl (λ t s, search t s.1.1 s.1.2 s.2) t l =
  set_sets t (readSet t ++ ((λ s, search_key s.1.1 s.1.2 s.2) <$> l)) (writeSet t).
Proof.
  revert t. induction l as [|s l IH]; intros t Ht; simpl; [rewrite app_nil_r; by destruct t|].
  unfold search at 2. rewrite Ht. rewrite IH by done. simpl. by rewrite <- app_assoc.
Qed.

Lemma searches_done t l : execution_phase t = true → foldl (λ t s, search t s.1.1 s.1.2 s.2) t l = t.
Proof. intros Ht. induction l as [|s l IH]; [done|]. simpl. unfold search at 2. by rewrite Ht. Qed.

Lemma updates_spec t l : execution_phase t = false →
  foldl (λ t u, update t u.1 u.2) t l = set_sets t (readSet t) (writeSet t ++ ((λ u, new_rwkey u.1 u.2) <$> l)).
Proof.
  revert t. induction l as [|s l IH]; intros t Ht; simpl; [rewrite app_nil_r; by destruct t|].
  unfold update at 2. rewrite Ht. rewrite IH by done. simpl. by rewrite <- app_assoc.
Qed.

Lemma updates_done t l : execution_phase t = true → foldl (λ t u, update t u.1 u.2) t l = t.
Proof. intros Ht. induction l as [|s l IH]; [done|]. simpl. unfold update at 2. by rewrite Ht. Qed.

(** The read of a key stays on node [c]. *)
Definition local_read (c : nat) k : bool :=
  has_master_partition master_coordinator c (get_partition_id k) || negb (get_local_index_read_bit k =? 0)%Z.

(** The requests for the keys [ks] of transaction [off] with id [tid]. *)
Definition search_packets (c w : nat) (tid : Z) (off : nat) (ks : list (AriaRWKey K)) : list packet :=
  mjoin (imap (λ j k, if local_read c k then []
                      else [(c, master_coordinator (get_partition_id k), w, SearchRequest (row_of k) (uint 32 tid) off j)]) ks).

Lemma search_packets_snoc c w tid off ks k :
  search_packets c w tid off (ks ++ [k]) = search_packets c w tid off ks ++
    (if local_read c k then []
     else [(c, master_coordinator (get_partition_id k), w, SearchRequest (row_of k) (uint 32 tid) off (length ks))]).
Proof. unfold search_packets. rewrite imap_app, join_app. simpl. by rewrite app_nil_r, Nat.add_0_r. Qed.

Lemma search_packets_length c w tid off ks : (length (search_packets c w tid off ks) ≤ length ks)%nat.
Proof.
  induction ks as [|k ks IH] using rev_ind; [done|]. rewrite search_packets_snoc, !length_app.
  destruct (local_read c k); simpl; lia.
Qed.

Lemma process_requests_spec (c w n : nat) (m : gmap (row_id K) (Row V)) t st wk t' st' wk' :
  process_requests master_coordinator c m n (t, st, wk) = (t', st', wk') →
  (n ≤ length (readSet t))%nat → NoDup (value <$> readSet t) →
  (∀ j k, (j < n)%nat → readSet t !! j = Some k → get_read_request_bit k ≠ 0) →
  let ps := search_packets c w (id t) (tid_offset t) (take n (readSet t)) in
  t' = set_sets (set_pending t (pendingResponses t + Z.of_nat (length ps)))
         ((clear_read_request_bit <$> take n (readSet t)) ++ drop n (readSet t)) (writeSet t) ∧
  (∀ j k, (j < n)%nat → readSet t !! j = Some k → local_read c k = true →
     st' !! value k = Some (r_value (search_row m (row_of k)))) ∧
  (∀ f, (∀ j k, (j < n)%nat → readSet t !! j = Some k → local_read c k = true → value k ≠ f) → st' !! f = st !! f) ∧
  packets_of (c, w) wk' ≡ₚ ps ++ packets_of (c, w) wk ∧ tasks wk' = tasks wk ∧ count wk' = count wk.
Proof.
  revert t st wk. induction n as [|i IH]; intros t st wk Hp Hn Hnd Hreq; cbn [process_requests fst] in Hp.
  { injection Hp as <- <- <-. unfold search_packets. simpl. rewrite Z.add_0_r. split_and!; try done; [by destruct t|].
    intros j k Hj. lia. }
  destruct (readSet t !! i) as [k|] eqn:Hk; [|apply lookup_ge_None in Hk; lia].
  destruct (Z.eqb_spec (get_read_request_bit k) 0) as [Hb|_]; [by apply (Hreq i k) in Hb; [|lia|done]|].
  set (k' := clear_read_request_bit k) in *.
  assert (∃ t1 st1 wk1, readRequestHandler master_coordinator c m (t, st, wk) k (id t) i = (t1, st1, wk1) ∧
    t1 = set_pending t (pendingResponses t + if local_read c k then 0 else 1) ∧
    st1 = (if local_read c k then <[value k := r_value (search_row m (row_of k))]> st else st) ∧
    packets_of (c, w) wk1 ≡ₚ (if local_read c k then []
      else [(c, master_coordinator (get_partition_id k), w, SearchRequest (row_of k) (uint 32 (id t)) (tid_offset t) i)])
      ++ packets_of (c, w) wk ∧ tasks wk1 = tasks wk ∧ count wk1 = count wk)
    as (t1 & st1 & wk1 & Hh & -> & -> & Hpk & Htk & Hct).
  { unfold readRequestHandler. fold (local_read c k). destruct (local_read c k); do 3 eexists; split; [done| |done|].
    - split; [rewrite Z.add_0_r; by destruct t|]. done.
    - split; [done|]. split; [done|]. split; [|done]. simpl. apply packets_add. }
  rewrite Hh in Hp. cbn [fst snd] in Hp.
  assert (take i (<[i := k']> (readSet t)) = take i (readSet t)) as Htk1 by (apply take_insert_ge; lia).
  apply IH in Hp as (Ht' & Hst & Hst0 & Hpk' & Htk' & Hct'); simpl in *;
    [|rewrite length_insert; lia| | ]; cycle 1.
  { replace (value <$> <[i := k']> (readSet t)) with (value <$> readSet t); [done|].
    rewrite list_fmap_insert. symmetry. apply list_insert_id. by rewrite list_lookup_fmap, Hk. }
  { intros j kj Hj Hkj. rewrite list_lookup_insert_ne in Hkj by lia. apply (Hreq j kj); [lia|done]. }
  rewrite Htk1 in *. pose proof (take_S_r _ _ _ Hk) as Htake.
  rewrite Htake, search_packets_snoc. rewrite length_take_le by lia.
  split; [|split; [|split; [|split; [|by rewrite Htk', Hct']]]].
  - rewrite Ht'. unfold set_sets, set_pending. simpl. f_equal.
    + rewrite length_app. destruct (local_read c k); simpl; lia.
    + rewrite fmap_app. simpl. rewrite <- app_assoc. simpl. f_equal. rewrite drop_insert_ge by lia.
      rewrite Nat.sub_diag. rewrite (drop_S _ _ _ Hk). done.
  - intros j kj Hj Hkj Hl. destruct (decide (j = i)) as [->|Hne].
    + rewrite Hk in Hkj. injection Hkj as <-. rewrite Hst0; [rewrite Hl; by rewrite lookup_insert_eq|].
      intros j' kj' Hj' Hkj' _ Hv. rewrite list_lookup_insert_ne in Hkj' by lia.
      assert (j' = i); [|lia]. apply (NoDup_lookup _ _ _ (value k) Hnd); rewrite list_lookup_fmap; [by rewrite Hkj', <- Hv|by rewrite Hk].
    + apply (Hst j kj); [lia| |done]. by rewrite list_lookup_insert_ne by lia.
  - intros f Hf. rewrite Hst0.
    + destruct (local_read c k) eqn:Hl; [|done]. rewrite lookup_insert_ne; [done|]. by apply (Hf i k); [lia| |].
    + intros j kj Hj Hkj. rewrite list_lookup_insert_ne in Hkj by lia. apply (Hf j kj); [lia|done].
  - rewrite Hpk', Hpk. by rewrite <- app_assoc.
Qed.

Lemma search_packets_elem c w tid off q x : query_ok q →
  x ∈ search_packets c w tid off (search_keys q) ↔
  ∃ j r v, q_searches q !! j = Some (false, r, v) ∧ master r ≠ c ∧
    x = (c, master r, w, SearchRequest r (uint 32 tid) off j).
Proof.
  intros Hq. unfold search_packets. rewrite list_elem_of_join. split.
  - intros (l & Hx & Hl). apply elem_of_lookup_imap in Hl as (j & k & -> & Hk).
    destruct (search_keys_says q j k Hq Hk) as (li & r & v & Hj & Hs).
    unfold local_read, has_master_partition in Hx. rewrite (says_local _ _ _ _ _ Hs), (says_partition _ _ _ _ _ Hs), (sy_row _ _ _ _ _ Hs) in Hx.
    fold (master r) in Hx. case_bool_decide as Hm; simpl in Hx; [by apply not_elem_of_nil in Hx|].
    destruct li; [by apply not_elem_of_nil in Hx|]. apply list_elem_of_singleton in Hx as ->. by exists j, r, v.
  - intros (j & r & v & Hj & Hm & ->).
    assert (search_keys q !! j = Some (search_key false r v)) as Hk by (unfold search_keys; by rewrite list_lookup_fmap, Hj).
    destruct (search_keys_says q j _ Hq Hk) as (li & r' & v' & Hj' & Hs). rewrite Hj in Hj'. injection Hj' as <- <- <-.
    eexists. split; [|by apply elem_of_lookup_imap; exists j, (search_key false r v)].
    unfold local_read, has_master_partition. rewrite (says_local _ _ _ _ _ Hs), (says_partition _ _ _ _ _ Hs), (sy_row _ _ _ _ _ Hs).
    fold (master r). rewrite bool_decide_false by done. simpl. by apply list_elem_of_singleton.
Qed.

(** ** Transactions of a batch *)

Definition txn_id (c i : nat) : Z := Z.of_nat i * Z.of_nat (coordinator_num context) + Z.of_nat c + 1.

(** After the first pass, with [k] requests outstanding, if it did not give up. *)
Definition first_txn (c i : nat) (e k : Z) q : Txn :=
  mkTxn (txn_id c i) i e k false false false false false false (read_keys q) (write_keys q) q i.

(** After the first pass, if it gave up. *)
Definition aborted_txn (c i : nat) (e : Z) q : Txn :=
  mkTxn (txn_id c i) i e 0 false true false false false false (search_keys q) [] q i.

(** After the second pass, with the flags of the checks and [k] outstanding. *)
Definition second_txn (c i : nat) (e k : Z) q (fwaw fwar fraw : bool) : Txn :=
  mkTxn (txn_id c i) i e k false false true fwaw fwar fraw (read_keys q) (write_keys q) q i.

(** A field of the storage has the value of the row that was searched into it,
    unless the row is on another node ([remote]) and not here yet. *)
Definition fields_read (c : nat) (remote : bool) q (db : row_id K → V) (st0 st : storage V) : Prop :=
  (∀ j li r v, q_searches q !! j = Some (li, r, v) → (remote = false → li = true ∨ master r = c) → st !! v = Some (db r)) ∧
  (∀ f, f ∉ (q_searches q).*2 → st !! f = st0 !! f).

Lemma search_keys_fields q : query_ok q → (value <$> search_keys q) = (q_searches q).*2.
Proof.
  intros Hq. unfold search_keys. rewrite <- list_fmap_compose. apply list_fmap_ext. intros j [[li r] v] Hj. simpl.
  apply (search_key_says li r v). by apply (Forall_lookup_1 _ _ _ _ (qo_searches _ Hq)) in Hj.
Qed.

Lemma query_set_sets t rs ws : query (set_sets t rs ws) = query t.
Proof. done. Qed.

Lemma execute_first (c w : nat) (m : gmap (row_id K) (Row V)) i e q st wk :
  query_ok q → q_abort q = false →
  let t := set_execution_phase (set_ids (new_transaction q i) (txn_id c i) i e) false in
  let ps := search_packets c w (txn_id c i) i (search_keys q) in
  ∃ st' wk', execute master_coordinator c m (t, st, wk) =
    (READY_TO_COMMIT, (first_txn c i e (Z.of_nat (length ps)) q, st', wk')) ∧
    fields_read c false q (λ r, r_value (search_row m r)) st st' ∧
    packets_of (c, w) wk' ≡ₚ ps ++ packets_of (c, w) wk ∧ tasks wk' = tasks wk ∧ count wk' = count wk.
Proof.
  intros Hq Hab t ps. unfold execute. rewrite searches_spec by done. rewrite query_set_sets.
  change (query t) with q. rewrite Hab. set (t1 := set_sets t _ _).
  assert (readSet t1 = search_keys q) as Hrs by done.
  destruct (process_requests master_coordinator c m (length (readSet t1)) (t1, st, wk)) as [[t2 st2] wk2] eqn:Hp.
  apply (process_requests_spec c w) in Hp; [| |by rewrite Hrs, search_keys_fields by done; apply Hq|]; cycle 1.
  { done. }
  { intros j k _ Hk. rewrite Hrs in Hk. destruct (search_keys_says q j k Hq Hk) as (li & r & v & _ & Hs).
    rewrite (sy_request _ _ _ _ _ Hs). done. }
  rewrite firstn_all, drop_all, Hrs in Hp. destruct Hp as (-> & Hst & Hst0 & Hpk & Htk & Hct).
  cbn [query set_sets set_pending execution_phase]. rewrite (qo_compute _ Hq).
  rewrite updates_spec by done. exists st2, wk2. split; [|split; [|by split_and!]].
  - do 3 f_equal. unfold first_txn, set_sets, set_pending. simpl. by rewrite app_nil_r.
  - split.
    + intros j li r v Hj Hloc.
      assert (search_keys q !! j = Some (search_key li r v)) as Hk by (unfold search_keys; by rewrite list_lookup_fmap, Hj).
      destruct (search_keys_says q j _ Hq Hk) as (li' & r' & v' & Hj' & Hs). rewrite Hj in Hj'. injection Hj' as <- <- <-.
      rewrite <- (sy_value _ _ _ _ _ Hs). rewrite (Hst j (search_key li r v)).
      * by rewrite (sy_row _ _ _ _ _ Hs).
      * eapply lookup_lt_Some, Hk.
      * exact Hk.
      * unfold local_read, has_master_partition. rewrite (says_local _ _ _ _ _ Hs), (says_partition _ _ _ _ _ Hs).
        fold (master r). destruct (Hloc eq_refl) as [-> | ->]; [apply orb_true_r|by rewrite bool_decide_true].
    + intros f Hf. apply Hst0. intros j k _ Hk _ <-. apply Hf. rewrite <- search_keys_fields by done.
      apply list_elem_of_fmap. exists k. split; [done|]. by eapply list_elem_of_lookup_2.
Qed.

Lemma execute_gives_up (c : nat) (m : gmap (row_id K) (Row V)) i e q st wk : q_abort q = true →
  let t := set_execution_phase (set_ids (new_transaction q i) (txn_id c i) i e) false in
  ∃ t', execute master_coordinator c m (t, st, wk) = (ABORT_NORETRY, (t', st, wk)) ∧ set_no_retry t' true = aborted_txn c i e q ∧
    storage_ref t' = i.
Proof.
  intros Hab t. unfold execute. rewrite searches_spec by done. rewrite query_set_sets.
  change (query t) with q. rewrite Hab. eexists. split; [done|]. done.
Qed.

Lemma execute_second (c : nat) (m : gmap (row_id K) (Row V)) i e q st wk : query_ok q → q_abort q = false →
  execute master_coordinator c m (set_execution_phase (first_txn c i e 0 q) true, st, wk) =
  (READY_TO_COMMIT, (second_txn c i e 0 q false false false, q_compute q true st, wk)).
Proof.
  intros Hq Hab. unfold execute. rewrite searches_done by done.
  change (query (set_execution_phase (first_txn c i e 0 q) true)) with q. rewrite Hab.
  replace (process_requests master_coordinator c m _ _) with (set_execution_phase (first_txn c i e 0 q) true, st, wk).
  - cbn [query execution_phase set_execution_phase first_txn]. rewrite updates_done by done. done.
  - change (readSet (set_execution_phase (first_txn c i e 0 q) true)) with (read_keys q).
    destruct (length (read_keys q)) as [|n] eqn:Hn; [done|]. cbn [process_requests fst].
    change (readSet (set_execution_phase (first_txn c i e 0 q) true)) with (read_keys q).
    destruct (read_keys q !! n) as [k|] eqn:Hk; [|done].
    unfold read_keys in Hk. rewrite list_lookup_fmap in Hk. apply fmap_Some in Hk as (k0 & Hk0 & ->).
    destruct (search_keys_says q n k0 Hq Hk0) as (li & r & v & _ & Hs).
    by rewrite (sy_request _ _ _ _ _ (clear_request_says _ _ _ _ _ Hs)).
Qed.

Lemma execute_transaction_spec nt (c w i : nat) (n : Node K V) wk :
  let e := n_epoch n in
  let q := nt c e i in
  let ps := if q_abort q then [] else search_packets c w (txn_id c i) i (search_keys q) in
  total_abort n = 0%nat → query_ok q →
  ∃ st' wk', execute_transaction context master_coordinator nt c i n wk =
    (set_storage (set_transaction n i (if q_abort q then aborted_txn c i e q else first_txn c i e (Z.of_nat (length ps)) q)) i st', wk') ∧
    (if q_abort q then st' = storage_of n i
     else fields_read c false q (λ r, r_value (search_row (rows n) r)) (storage_of n i) st') ∧
    packets_of (c, w) wk' ≡ₚ ps ++ packets_of (c, w) wk ∧ tasks wk' = tasks wk.
Proof.
  intros e q ps Hta Hq. unfold execute_transaction. rewrite Hta.
  replace (match transactions n !! i with
           | Some t => if decide (0 ≤ i)%nat then new_transaction (nt c (n_epoch n) i) i else reset t
           | None => new_transaction (nt c (n_epoch n) i) i end) with (new_transaction q i)
    by (destruct (transactions n !! i); [rewrite decide_True by lia|]; done).
  fold (txn_id c i). cbv zeta. set (t := set_execution_phase _ false). change (storage_ref t) with i.
  destruct (q_abort q) eqn:Hab.
  - destruct (execute_gives_up c (rows n) i e q (storage_of n i) (set_count wk (count wk + 1)) Hab) as (t' & Hex & Ht' & Hr).
    change (set_execution_phase _ false) with t in Hex. rewrite Hex. exists (storage_of n i), (set_count wk (count wk + 1)). split_and!; try done.
    by rewrite <- Ht'; change (storage_ref (set_no_retry t' true)) with (storage_ref t'); rewrite Hr.
  - destruct (execute_first c w (rows n) i e q (storage_of n i) (set_count wk (count wk + 1)) Hq Hab)
      as (st' & wk' & Hex & Hf & Hpk & Htk & _).
    change (set_execution_phase _ false) with t in Hex. rewrite Hex. exists st', wk'. done.
Qed.

(** ** Reservations *)

(** The rows a query reserves, and whether for writing. *)
Definition reservations q : list (row_id K * bool) :=
  if aria_read_only_optmization context && bool_decide (q_updates q = []) then []
  else (q_searches q ≫= λ s : bool * row_id K * nat, if s.1.1 then [] else [(s.1.2, false)]) ++ ((λ u, (u.1, true)) <$> q_updates q).

Lemma reservations_read q r :
  (r, false) ∈ reservations q ↔
  aria_read_only_optmization context && bool_decide (q_updates q = []) = false ∧ ∃ j v, q_searches q !! j = Some (false, r, v).
Proof.
  unfold reservations. destruct (_ && _); [split; [by intros ?%not_elem_of_nil|by intros []]|].
  rewrite elem_of_app, list_elem_of_bind, list_elem_of_fmap. split.
  - intros [(x & Hx & Hin)|(u & [=] & _)]. destruct x as [[[] r'] v]; simpl in Hx; [by apply not_elem_of_nil in Hx|].
    apply list_elem_of_singleton in Hx as [= <-]. apply list_elem_of_lookup in Hin as [j Hj]. split; [done|]. by exists j, v.
  - intros (_ & j & v & Hj). left. exists (false, r, v). split; [by apply list_elem_of_singleton|by eapply list_elem_of_lookup_2].
Qed.

Lemma reservations_write q r : (r, true) ∈ reservations q ↔ ∃ j v, q_updates q !! j = Some (r, v).
Proof.
  unfold reservations. destruct (_ && _) eqn:Hro.
  - split; [by intros ?%not_elem_of_nil|]. intros (j & v & Hj).
    apply andb_prop in Hro as [_ Hn%bool_decide_eq_true]. by rewrite Hn in Hj.
  - rewrite elem_of_app, list_elem_of_bind, list_elem_of_fmap. split.
    + intros [(x & Hx & Hin)|([r' v] & [= ->] & Hu)].
      * destruct x as [[[] r'] v]; simpl in Hx; [by apply not_elem_of_nil in Hx|]. by apply list_elem_of_singleton in Hx.
      * apply list_elem_of_lookup in Hu as [j Hj]. by exists j, v.
    + intros (j & v & Hj). right. exists (r, v). split; [done|by eapply list_elem_of_lookup_2].
Qed.

(** The tasks and the packets for reserving [l]. *)
Definition reserve_tasks (c : nat) (e tid : Z) (l : list (row_id K * bool)) : list (task K) :=
  l ≫= λ x : row_id K * bool, if bool_decide (master x.1 = c) then [TReserveRow x.1 x.2 e tid] else [].
Definition reserve_packets (c w : nat) (e tid : Z) (l : list (row_id K * bool)) : list packet :=
  l ≫= λ x : row_id K * bool, if bool_decide (master x.1 = c) then [] else [(c, master x.1, w, ReserveRequest x.1 tid e x.2)].

Lemma reserve_key_spec (c w : nat) t wr k r v li ts wk : says k r v li false → (wr = true → li = false) →
  let l := if li then [] else [(r, wr)] in
  ∃ wk', reserve_key master_coordinator c t wr (ts, wk) k = (ts ++ reserve_tasks c (epoch t) (uint 32 (id t)) l, wk') ∧
    packets_of (c, w) wk' ≡ₚ reserve_packets c w (epoch t) (uint 32 (id t)) l ++ packets_of (c, w) wk ∧
    tasks wk' = tasks wk ∧ count wk' = count wk.
Proof.
  intros Hs Hwr l. unfold reserve_key. rewrite (says_local _ _ _ _ _ Hs), (says_partition _ _ _ _ _ Hs), (sy_row _ _ _ _ _ Hs).
  unfold has_master_partition. fold (master r). unfold l, reserve_tasks, reserve_packets. destruct li; simpl.
  { rewrite app_nil_r. destruct wr; [by specialize (Hwr eq_refl)|]. simpl. by exists wk. }
  rewrite andb_false_r. case_bool_decide as Hm; simpl; [by exists wk; rewrite ?app_nil_r|].
  eexists. split; [by rewrite app_nil_r|]. split; [apply packets_add|done].
Qed.

Lemma reserve_keys_spec (c w : nat) t wr (ks : list (AriaRWKey K)) (ss : list (bool * row_id K * nat)) ts wk :
  Forall2 (λ k s, says k s.1.2 s.2 s.1.1 false ∧ (wr = true → s.1.1 = false)) ks ss →
  let l := ss ≫= λ s : bool * row_id K * nat, if s.1.1 then [] else [(s.1.2, wr)] in
  ∃ wk', foldl (reserve_key master_coordinator c t wr) (ts, wk) ks =
      (ts ++ reserve_tasks c (epoch t) (uint 32 (id t)) l, wk') ∧
    packets_of (c, w) wk' ≡ₚ reserve_packets c w (epoch t) (uint 32 (id t)) l ++ packets_of (c, w) wk ∧
    tasks wk' = tasks wk ∧ count wk' = count wk.
Proof.
  intros HF. revert ts wk. induction HF as [|k [[li r] v] ks ss [Hs Hwr] _ IH]; intros ts wk; simpl in *.
  { exists wk. unfold reserve_tasks, reserve_packets. simpl. by rewrite app_nil_r. }
  destruct (reserve_key_spec c w t wr k r v li ts wk Hs Hwr) as (wk1 & -> & Hp1 & Ht1 & Hc1).
  destruct (IH (ts ++ reserve_tasks c (epoch t) (uint 32 (id t)) (if li then [] else [(r, wr)])) wk1)
    as (wk' & -> & Hp' & Ht' & Hc'). exists wk'.
  unfold reserve_tasks, reserve_packets in *. rewrite !bind_app, <- !app_assoc. split; [done|]. split; [|by rewrite Ht', Hc'].
  rewrite Hp', Hp1. apply Permutation_app_swap_app.
Qed.

Lemma read_keys_says_all q : query_ok q →
  Forall2 (λ k s, says k s.1.2 s.2 s.1.1 false ∧ (false = true → s.1.1 = false)) (read_keys q) (q_searches q).
Proof.
  intros Hq. apply Forall2_same_length_lookup. unfold read_keys, search_keys. rewrite !length_fmap. split; [done|].
  intros j k [[li r] v] Hk Hj. destruct (read_keys_says q j li r v Hq Hj) as (k' & Hk' & Hs).
  unfold read_keys, search_keys in Hk'. rewrite Hk in Hk'. injection Hk' as <-. done.
Qed.

Lemma write_keys_says_all q : query_ok q →
  Forall2 (λ k s, says k s.1.2 s.2 s.1.1 false ∧ (true = true → s.1.1 = false)) (write_keys q)
    ((λ u, (false, u.1, u.2)) <$> q_updates q).
Proof.
  intros Hq. apply Forall2_same_length_lookup. unfold write_keys. rewrite !length_fmap. split; [done|].
  intros j k s Hk Hj. rewrite list_lookup_fmap in Hj. apply fmap_Some in Hj as ([r v] & Hj & ->).
  destruct (write_keys_says q j r v Hq Hj) as (k' & Hk' & Hs). unfold write_keys in Hk'. rewrite Hk in Hk'.
  injection Hk' as <-. done.
Qed.

Lemma write_keys_nil q : bool_decide (write_keys q = []) = bool_decide (q_updates q = []).
Proof. unfold write_keys. by destruct (q_updates q). Qed.

Lemma reserve_transaction_spec (c w i : nat) e q wk : query_ok q →
  let t := second_txn c i e 0 q false false false in
  ∃ wk', reserve_transaction context master_coordinator c t wk =
      (reserve_tasks c e (uint 32 (txn_id c i)) (reservations q), wk') ∧
    packets_of (c, w) wk' ≡ₚ reserve_packets c w e (uint 32 (txn_id c i)) (reservations q) ++ packets_of (c, w) wk ∧
    tasks wk' = tasks wk ∧ count wk' = count wk.
Proof.
  intros Hq t. unfold reserve_transaction, reservations, is_read_only. change (writeSet t) with (write_keys q).
  rewrite write_keys_nil. destruct (_ && _); [by exists wk|]. cbv zeta. change (writeSet t) with (write_keys q).
  destruct (reserve_keys_spec c w t false (read_keys q) (q_searches q) [] wk (read_keys_says_all q Hq)) as (wk1 & Hr1 & Hp1 & Ht1 & Hc1).
  change (readSet t) with (read_keys q). rewrite Hr1. simpl app.
  destruct (reserve_keys_spec c w t true (write_keys q) _ (reserve_tasks c (epoch t) (uint 32 (id t))
    (q_searches q ≫= λ s : bool * row_id K * nat, if s.1.1 then [] else [(s.1.2, false)])) wk1 (write_keys_says_all q Hq)) as (wk2 & Hr2 & Hp2 & Ht2 & Hc2).
  exists wk2.
  assert (((λ u : row_id K * nat, (false, u.1, u.2)) <$> q_updates q) ≫= (λ s : bool * row_id K * nat, if s.1.1 then [] else [(s.1.2, true)])
    = (λ u, (u.1, true)) <$> q_updates q) as Hl.
  { clear. induction (q_updates q) as [|u l IH]; [done|]. simpl. f_equal. exact IH. }
  rewrite Hl in *. change (epoch t) with e in *. change (id t) with (txn_id c i) in *.
  split; [etrans; [exact Hr2|]; unfold reserve_tasks; by rewrite bind_app|].
  unfold reserve_packets in *. rewrite !bind_app, <- app_assoc.
  split; [rewrite Hp2, Hp1; apply Permutation_app_swap_app|]. by rewrite Ht2, Ht1, Hc2, Hc1.
Qed.

End exec.
