(* ===== verification/AriaCheck.v ===== *)
(** * Aria: the analysis of a transaction

    What [analyze_dependency] finds in the words of the node itself, and the
    checks it asks other nodes for. *)

From S2P Require Import Prelude Bits AriaHelper AriaTxn AriaSystem AriaFlight AriaExec.

(** The three conflicts. *)
Inductive conflict := Waw | War | Raw.

Definition flag {K V} (k : conflict) (t : AriaTransaction K V) : bool :=
  match k with Waw => waw t | War => war t | Raw => raw t end.

Section check.
Context {K V : Type} `{Countable K} `{Inhabited V} (context : AriaContext) (master_coordinator : Z → nat).
Notation packet := (nat * nat * nat * piece K V)%type.
Notation Txn := (AriaTransaction K V).
Notation master := (master master_coordinator).
Implicit Types (q : Query K V) (k : AriaRWKey K) (t : Txn) (wk : Worker K V) (r : row_id K) (m : gmap (row_id K) (Row V)).

(** The requests for the rows [rs] of transaction [off] with id [tid]. *)
Definition check_packets (c w : nat) (tid : Z) (off : nat) (e : Z) (wr : bool) (rs : list (row_id K)) : list packet :=
  (λ r, (c, master r, w, CheckRequest r tid off e wr)) <$> rs.

(** An access finds a conflict in the row's word. *)
Definition conflicts m (e tid : Z) (k : conflict) r : bool :=
  let a := r_tid (search_row m r) in
  match k with Waw | Raw => found a e (get_wts a) tid | War => found a e (get_rts a) tid end.

Lemma analyze_reads_spec (c w : nat) m t wk ks (ss : list (bool * row_id K * nat)) :
  Forall2 (λ k s, says k s.1.2 s.2 s.1.1 false) ks ss → uint 32 (id t) = id t →
  ∃ rs d wk',
    let ps := check_packets c w (id t) (tid_offset t) (epoch t) false rs in
    analyze_reads master_coordinator c m t wk ks =
      (add_flags (set_pending t (pendingResponses t + Z.of_nat (length ps))) false false d, wk') ∧
    packets_of (c, w) wk' ≡ₚ ps ++ packets_of (c, w) wk ∧ tasks wk' = tasks wk ∧ count wk' = count wk ∧
    (length rs ≤ length ss)%nat ∧
    (∀ r, r ∈ rs → master r ≠ c ∧ ∃ v, (false, r, v) ∈ ss) ∧
    (d = true → ∃ r v, (false, r, v) ∈ ss ∧ master r = c ∧ conflicts m (epoch t) (id t) Raw r = true) ∧
    (d = false → ∀ r v, (false, r, v) ∈ ss → if decide (master r = c) then conflicts m (epoch t) (id t) Raw r = false else r ∈ rs).
Proof.
  intros HF Hid. revert t wk Hid. induction HF as [|k [[li r] v] ks ss Hs _ IH]; intros t wk Hid; cbn [analyze_reads].
  { exists [], false, wk. cbn [check_packets fmap list_fmap length app]. split_and!; try done.
    - unfold add_flags, set_pending. cbn. rewrite !orb_false_r, Z.add_0_r. by destruct t.
    - by intros ? ?%not_elem_of_nil.
    - by intros _ ? ? ?%not_elem_of_nil. }
  cbn [fst snd] in Hs. rewrite (says_local _ _ _ _ _ Hs), (says_partition _ _ _ _ _ Hs), (sy_row _ _ _ _ _ Hs).
  unfold has_master_partition. fold (master r). destruct li.
  { destruct (IH t wk Hid) as (rs & d & wk' & -> & Hpk & Htk & Hct & Hlen & Hrs & Hd1 & Hd0). exists rs, d, wk'.
    split_and!; try done; [cbn [length]; lia|..].
    - intros r' Hr'. destruct (Hrs r' Hr') as (? & v' & ?). split; [done|]. exists v'. by right.
    - intros Hd. destruct (Hd1 Hd) as (r' & v' & ? & ?). exists r', v'. split; [by right|done].
    - intros Hd r' v' [|Hin]%elem_of_cons; [done|]. by eapply Hd0. }
  case_bool_decide as Hm.
  - fold (conflicts m (epoch t) (id t) Raw r). unfold conflicts at 1. destruct (found _ _ _ _) eqn:Hfound.
    { exists [], true, wk. cbn [check_packets fmap list_fmap length app]. split_and!; try done.
      - unfold add_flags, set_pending. cbn. by rewrite Z.add_0_r.
      - cbn [length]. lia.
      - by intros ? ?%not_elem_of_nil.
      - intros _. exists r, v. split; [by left|done]. }
    destruct (IH t wk Hid) as (rs & d & wk' & -> & Hpk & Htk & Hct & Hlen & Hrs & Hd1 & Hd0). exists rs, d, wk'.
    split_and!; try done; [cbn [length]; lia|..].
    + intros r' Hr'. destruct (Hrs r' Hr') as (? & v' & ?). split; [done|]. exists v'. by right.
    + intros Hd. destruct (Hd1 Hd) as (r' & v' & ? & ?). exists r', v'. split; [by right|done].
    + intros Hd r' v' [[= -> ->]|Hin]%elem_of_cons; [by rewrite decide_True|]. by eapply Hd0.
  - rewrite Hid. set (t1 := set_pending t _). set (wk1 := add_piece wk _ _).
    destruct (IH t1 wk1 Hid) as (rs & d & wk' & -> & Hpk & Htk & Hct & Hlen & Hrs & Hd1 & Hd0). exists (r :: rs), d, wk'.
    unfold check_packets in *. cbn [fmap list_fmap]. split_and!; try done; [|..].
    + unfold t1, add_flags, set_pending. cbn -[Z.of_nat]. do 2 f_equal. rewrite !length_fmap. lia.
    + rewrite Hpk. unfold wk1. rewrite packets_add. cbn [fst snd app]. symmetry. apply Permutation_middle.
    + cbn [length]. lia.
    + intros r' [->|Hr']%elem_of_cons; [split; [done|]; exists v; by left|].
      destruct (Hrs r' Hr') as (? & v' & ?). split; [done|]. exists v'. by right.
    + intros Hd. destruct (Hd1 Hd) as (r' & v' & ? & ?). exists r', v'. split; [by right|done].
    + intros Hd r' v' [[= -> ->]|Hin]%elem_of_cons; [rewrite decide_False by done; by left|].
      pose proof (Hd0 Hd r' v' Hin) as Hx. case_decide; [done|by right].
Qed.

(** A row of the node itself with a conflict. *)
Definition local_conflict (c : nat) m (e tid : Z) (k : conflict) (us : list (row_id K * nat)) : bool :=
  existsb (λ u, bool_decide (master u.1 = c) && conflicts m e tid k u.1) us.

Lemma add_flags_twice t a b d a' b' d' : add_flags (add_flags t a b d) a' b' d' = add_flags t (a || a') (b || b') (d || d').
Proof. unfold add_flags. cbn. by rewrite !orb_assoc. Qed.

Lemma analyze_writes_spec (c w : nat) m t wk ks (us : list (row_id K * nat)) :
  Forall2 (λ k u, says k u.1 u.2 false false) ks us → uint 32 (id t) = id t →
  let rs := filter (λ r, master r ≠ c) us.*1 in
  let ps := check_packets c w (id t) (tid_offset t) (epoch t) true rs in
  ∃ wk',
    analyze_writes master_coordinator c m t wk ks =
      (add_flags (set_pending t (pendingResponses t + Z.of_nat (length ps)))
         (local_conflict c m (epoch t) (id t) Waw us) (local_conflict c m (epoch t) (id t) War us) false, wk') ∧
    packets_of (c, w) wk' ≡ₚ ps ++ packets_of (c, w) wk ∧ tasks wk' = tasks wk ∧ count wk' = count wk.
Proof.
  intros HF Hid. revert t wk Hid. induction HF as [|k [r v] ks us Hs _ IH]; intros t wk Hid rs ps; cbn [analyze_writes].
  { exists wk. split_and!; try done. unfold add_flags, set_pending. cbn. rewrite !orb_false_r, Z.add_0_r. by destruct t. }
  cbn [fst snd] in Hs. rewrite (says_partition _ _ _ _ _ Hs), (sy_row _ _ _ _ _ Hs).
  unfold has_master_partition. fold (master r). unfold local_conflict. cbn [existsb fst snd].
  case_bool_decide as Hm.
  - set (t1 := add_flags t _ _ _). destruct (IH t1 wk Hid) as (wk' & -> & Hpk & Htk & Hct). exists wk'.
    assert (rs = filter (λ r, master r ≠ c) us.*1) as -> by (unfold rs; cbn [fmap list_fmap fst]; by rewrite filter_cons_False by tauto).
    split_and!; try done. unfold t1. set (x := Z.of_nat _). cbn [andb].
    change (set_pending (add_flags t ?a ?b ?d) ?y) with (add_flags (set_pending t y) a b d). rewrite add_flags_twice. done.
  - rewrite Hid. set (t1 := set_pending t _). set (wk1 := add_piece wk _ _).
    destruct (IH t1 wk1 Hid) as (wk' & -> & Hpk & Htk & Hct). exists wk'.
    assert (rs = r :: filter (λ r, master r ≠ c) us.*1) as Hrs by (unfold rs; cbn [fmap list_fmap fst]; by rewrite filter_cons_True).
    unfold ps. rewrite Hrs. unfold check_packets in *. cbn [fmap list_fmap andb orb]. split_and!; try done.
    + unfold t1, add_flags, set_pending. cbn -[Z.of_nat]. do 2 f_equal. rewrite !length_fmap. lia.
    + rewrite Hpk. unfold wk1. rewrite packets_add. cbn [fst snd app]. symmetry. apply Permutation_middle.
Qed.

(** The kind of access a conflict is checked for. *)
Definition of_write (k : conflict) : bool := match k with Waw | War => true | Raw => false end.

Notation txn_id := (txn_id context).
Notation reservations := (reservations context).

Lemma check_packets_elem c w tid off e wr rs x :
  x ∈ check_packets c w tid off e wr rs ↔ ∃ r, r ∈ rs ∧ x = (c, master r, w, CheckRequest r tid off e wr).
Proof. unfold check_packets. rewrite list_elem_of_fmap. naive_solver. Qed.

Lemma remote_updates (c : nat) q r : r ∈ filter (λ r, master r ≠ c) (q_updates q).*1 ↔ master r ≠ c ∧ (r, true) ∈ reservations q.
Proof.
  rewrite list_elem_of_filter, list_elem_of_fmap, reservations_write. split.
  - intros [Hm ([r' v] & -> & Hin)]. split; [done|]. apply list_elem_of_lookup in Hin as [j Hj]. by exists j, v.
  - intros [Hm (j & v & Hj)]. split; [done|]. exists (r, v). split; [done|by eapply list_elem_of_lookup_2].
Qed.

Lemma local_conflict_spec (c : nat) m (e tid : Z) (k : conflict) q (P : row_id K → Prop) :
  (∀ r, master r = c → P r ↔ conflicts m e tid k r = true) →
  local_conflict c m e tid k (q_updates q) = true ↔ ∃ r, (r, true) ∈ reservations q ∧ master r = c ∧ P r.
Proof.
  intros HP. unfold local_conflict. rewrite existsb_exists. setoid_rewrite reservations_write. split.
  - intros ([r v] & Hin%list_elem_of_In & [Hm%bool_decide_eq_true Hc]%andb_prop). exists r. split; [|split; [done|by apply HP]].
    apply list_elem_of_lookup in Hin as [j Hj]. by exists j, v.
  - intros (r & (j & v & Hj) & Hm & Hc). exists (r, v). split; [apply list_elem_of_In; by eapply list_elem_of_lookup_2|].
    apply andb_true_intro. split; [by apply bool_decide_eq_true|by apply HP].
Qed.

(** Every conflict is either a flag already or will be found by a request.
    [C] says which rows have one, wherever they are. *)
Lemma analyze_dependency_spec (c w i : nat) (e : Z) m q wk (C : conflict → row_id K → Prop) :
  query_ok q → uint 32 (txn_id c i) = txn_id c i →
  (∀ (k : conflict) r, master r = c → C k r ↔ conflicts m e (txn_id c i) k r = true) →
  let request r wr := (c, master r, w, CheckRequest r (txn_id c i) i e wr) : packet in
  ∃ ps a b d wk',
    let t' := second_txn context c i e (Z.of_nat (length ps)) q a b d in
    analyze_dependency context master_coordinator c m (second_txn context c i e 0 q false false false) wk = (t', wk') ∧
    packets_of (c, w) wk' ≡ₚ ps ++ packets_of (c, w) wk ∧ tasks wk' = tasks wk ∧ count wk' = count wk ∧
    (length ps ≤ length (q_searches q) + length (q_updates q))%nat ∧
    (∀ x, x ∈ ps → ∃ r wr, (r, wr) ∈ reservations q ∧ x = request r wr) ∧
    (∀ k : conflict, (∃ r, (r, of_write k) ∈ reservations q ∧ C k r) ↔ flag k t' = true ∨ ∃ r, request r (of_write k) ∈ ps ∧ C k r).
Proof.
  intros Hq Hid HC request. set (t := second_txn _ _ _ _ 0 _ _ _ _). unfold analyze_dependency, is_read_only.
  change (writeSet t) with (write_keys q).
  rewrite write_keys_nil. destruct (_ && _) eqn:Hro.
  { exists [], false, false, false, wk. cbn [length]. split_and!; try done; [lia|by intros ? ?%not_elem_of_nil|].
    intros k. unfold AriaExec.reservations. rewrite Hro. split; [by intros (? & ?%not_elem_of_nil & _)|].
    intros [Hf|(? & ?%not_elem_of_nil & _)]; by destruct k. }
  change (readSet t) with (read_keys q).
  destruct (analyze_reads_spec c w m t wk (read_keys q) (q_searches q)) as (rs1 & d & wk1 & -> & Hpk1 & Htk1 & Hct1 & Hl1 & Hrs1 & Hd1 & Hd0);
    [|done|]. { eapply Forall2_impl; [by apply read_keys_says_all|]. by intros ? ? [? _]. }
  set (t1 := add_flags _ _ _ _). change (writeSet t1) with (write_keys q).
  destruct (analyze_writes_spec c w m t1 wk1 (write_keys q) (q_updates q)) as (wk' & -> & Hpk & Htk & Hct); [|done|].
  { pose proof (write_keys_says_all q Hq) as Hw. apply Forall2_fmap_r in Hw. eapply Forall2_impl; [exact Hw|]. by intros ? ? [? _]. }
  set (rs2 := filter _ _) in *. set (ps1 := check_packets _ _ _ _ _ _ rs1) in *. set (ps2 := check_packets _ _ _ _ _ _ rs2) in *.
  exists (ps2 ++ ps1), (local_conflict c m e (txn_id c i) Waw (q_updates q)), (local_conflict c m e (txn_id c i) War (q_updates q)), d, wk'.
  assert (∀ x, x ∈ ps1 ↔ ∃ r, r ∈ rs1 ∧ x = request r false) as Hps1 by apply check_packets_elem.
  assert (∀ x, x ∈ ps2 ↔ ∃ r, r ∈ rs2 ∧ x = request r true) as Hps2 by apply check_packets_elem.
  assert (∀ r, r ∈ rs2 ↔ master r ≠ c ∧ (r, true) ∈ reservations q) as Hrs2 by apply remote_updates.
  assert (∀ r v, (false, r, v) ∈ q_searches q → (r, false) ∈ reservations q) as Hsr.
  { intros r v [j Hj]%list_elem_of_lookup. apply reservations_read. split; [done|]. by exists j, v. }
  split_and!.
  - unfold t1, t, add_flags, set_pending, second_txn. cbn -[Z.of_nat local_conflict]. rewrite length_app, orb_false_r. do 2 f_equal. lia.
  - by rewrite Hpk, Hpk1, app_assoc.
  - congruence.
  - congruence.
  - unfold ps1, ps2, check_packets. rewrite length_app, !length_fmap. unfold rs2.
    pose proof (length_filter (λ r, master r ≠ c) (q_updates q).*1) as Hlen. rewrite length_fmap in Hlen. lia.
  - intros x [Hx|Hx]%elem_of_app; [apply Hps2 in Hx as (r & [_ Hr]%Hrs2 & ->); by exists r, true|].
    apply Hps1 in Hx as (r & Hr & ->). destruct (Hrs1 r Hr) as (_ & v & Hv). exists r, false. by split; [eapply Hsr|].
  - assert (∀ r wr, request r wr ∈ ps2 ++ ps1 ↔ if wr then r ∈ rs2 else r ∈ rs1) as Hreq.
    { intros r wr. rewrite elem_of_app, Hps1, Hps2. unfold request. destruct wr; naive_solver. }
    setoid_rewrite Hreq. intros k. destruct (of_write k) eqn:Hk.
    + replace (flag k _) with (local_conflict c m e (txn_id c i) k (q_updates q)) by (by destruct k). rewrite (local_conflict_spec c m e _ k q (C k)) by auto.
      setoid_rewrite Hrs2. split; [|naive_solver]. intros (r & Hr & Hc). destruct (decide (master r = c)); naive_solver.
    + destruct k; [done..|]. change (flag Raw _) with d. split.
      * intros (r & Hr & Hc). apply reservations_read in Hr as (_ & j & v & Hj). apply list_elem_of_lookup_2 in Hj.
        destruct d; [by left|right]. pose proof (Hd0 eq_refl r v Hj) as Hx. case_decide as Hm; [|by exists r].
        apply HC in Hc; [|done]. change (conflicts m (epoch t) (id t) Raw r) with (conflicts m e (txn_id c i) Raw r) in Hx. congruence.
      * intros [->|(r & Hr & Hc)].
        -- destruct (Hd1 eq_refl) as (r & v & Hin & Hm & Hc). exists r. split; [by eapply Hsr|by apply HC].
        -- destruct (Hrs1 r Hr) as (_ & v & Hv). exists r. split; [by eapply Hsr|done].
Qed.

End check.
