(* ===== verification/AriaRead.v ===== *)
(** * Aria: the read phase

    All workers of all nodes run [read_snapshot] and serve each other's requests,
    in any interleaving and with any delay of messages.  When all have finished
    and no message is left, every transaction of the batch has been executed on
    the state at the start of the batch, and every reservation word has the
    smallest ids of the readers and writers of its row. *)

From S2P Require Import Prelude Bits AriaHelper AriaTxn AriaSystem AriaFlight AriaPhase AriaExec.

Section read.
Context {K V : Type} `{Countable K} `{Inhabited V} (context : AriaContext) (master_coordinator : Z → nat).
Context (next_transaction : nat → Z → nat → Query K V) (e : Z).
Notation packet := (nat * nat * nat * piece K V)%type.
Notation Txn := (AriaTransaction K V).
Notation N := (coordinator_num context).
Notation W := (worker_num context).
Notation B := (batch_size context).
Notation master := (master master_coordinator).
Notation txn_id := (txn_id context).
Notation owned := (owned context).
Notation reservations := (reservations context).
Notation first_txn := (first_txn context).
Notation aborted_txn := (aborted_txn context).
Notation second_txn := (second_txn context).

(** The transactions of the batch. *)
Notation Q c i := (next_transaction c e i).

Record batch_ok : Prop := {
  bo_workers : (0 < W)%nat;
  bo_master : ∀ p, (master_coordinator p < N)%nat;
  bo_epoch : epoch_ok e;
  bo_ids : Z.of_nat B * Z.of_nat N < 2 ^ 20;
  bo_queries : ∀ c i, (c < N)%nat → (i < B)%nat → query_ok (Q c i)
}.

(** What the batch starts from: at each node the values of its copies of rows
    and their words, and the storages; [db] is the database, the copies at the
    masters.  An index has the same rows at every node. *)
Context (val0 : nat → row_id K → V) (word0 : nat → row_id K → Z) (st0 : nat → nat → storage V) (db : row_id K → V).

Record start_ok : Prop := {
  so_db : ∀ r, val0 (master r) r = db r;
  so_words : ∀ c r, (c < N)%nat → is_u64 (word0 c r) ∧ get_epoch (word0 c r) < e;
  so_index : ∀ c i j r v, (c < N)%nat → (i < B)%nat → q_searches (Q c i) !! j = Some (true, r, v) → val0 c r = db r
}.

(** A reservation of the batch. *)
Definition real (x : call (nat * row_id K)) : Prop :=
  ∃ c i r wr, (c < N)%nat ∧ (i < B)%nat ∧ q_abort (Q c i) = false ∧ (r, wr) ∈ reservations (Q c i) ∧
    x = mkCall (master r, r) wr (txn_id c i).

(** ** Packets *)

(** Search [j] of transaction [i] of node [c] is on its way. *)
Definition searching (c i j : nat) (F : list packet) : Prop :=
  ∃ x, x ∈ F ∧ concerns c i x = true ∧
    match x.2 with SearchRequest _ _ _ j' | SearchResponse _ _ _ j' => j' = j | _ => False end.

Definition packet_ok (σ : nat → nat → stage) (x : packet) : Prop :=
  let '(src, dst, w, p) := x in
  match p with
  | SearchRequest r tid off j =>
      (src < N)%nat ∧ (off < B)%nat ∧ w = (off `mod` W)%nat ∧ σ src off = Mid ∧ q_abort (Q src off) = false ∧
      tid = txn_id src off ∧ dst = master r ∧ ∃ v, q_searches (Q src off) !! j = Some (false, r, v)
  | SearchResponse v tid off j =>
      (dst < N)%nat ∧ (off < B)%nat ∧ w = (off `mod` W)%nat ∧ σ dst off = Mid ∧ q_abort (Q dst off) = false ∧
      tid = txn_id dst off ∧ ∃ li r f, q_searches (Q dst off) !! j = Some (li, r, f) ∧ v = db r
  | ReserveRequest r tid e' wr => e' = e ∧ (w < W)%nat ∧ dst = master r ∧ real (mkCall (dst, r) wr tid)
  | _ => False
  end.

(** ** Tasks *)

(** The tasks take every transaction of the worker from its stage to the end. *)
Fixpoint plan (c w : nat) (σ : nat → stage) (ts : list (task K)) : Prop :=
  match ts with
  | TExecute i :: ts => owned w i ∧ σ i = Pre ∧ plan c w (upd σ i Mid) ts
  | TReserve i :: ts => owned w i ∧ σ i = Mid ∧ plan c w (upd σ i Post) ts
  | TReserveTxn i :: ts => owned w i ∧ σ i = Mid ∧ q_abort (Q c i) = false ∧ plan c w (upd σ i Post) ts
  | TWaitResponses i :: ts => owned w i ∧ σ i = Mid ∧ plan c w σ ts
  | (TAwait Aria_READ | TStarted | TCompleted | TProcess | TFlush | TFlushIf | TCount0 | TReserveRow _ _ _ _
     | TSwapRow _ _ _ _ _ _) :: ts => plan c w σ ts
  | TServe Aria_READ :: _ => ∀ i, owned w i → σ i = Post
  | _ => False
  end.

(** A task that is left of a reservation. *)
Definition reserving (r : row_id K) (wr : bool) (tid : Z) (t : task K) : Prop :=
  t = TReserveRow r wr e tid ∨ ∃ o n, t = TSwapRow r wr e tid o n.

Definition task_ok (c : nat) (t : task K) : Prop :=
  match t with
  | TReserveRow r wr e' tid => e' = e ∧ c = master r ∧ real (mkCall (c, r) wr tid)
  | TSwapRow r wr e' tid o n =>
      e' = e ∧ c = master r ∧ real (mkCall (c, r) wr tid) ∧ reserve_round wr e tid o = Ret (Some n)
  | _ => True
  end.

(** ** The invariant *)

Definition txn_inv (n : Node K V) (F : list packet) (c i : nat) (s : stage) : Prop :=
  let q := Q c i in
  match s with
  | Pre => pending_for c i F = 0%nat ∧ storage_of n i = st0 c i
  | Mid =>
      if q_abort q then
        transactions n !! i = Some (aborted_txn c i e q) ∧ pending_for c i F = 0%nat ∧ storage_of n i = st0 c i
      else
        transactions n !! i = Some (first_txn c i e (Z.of_nat (pending_for c i F)) q) ∧
        (pending_for c i F ≤ length (q_searches q))%nat ∧
        (∀ j li r f, q_searches q !! j = Some (li, r, f) → storage_of n i !! f = Some (db r) ∨ searching c i j F) ∧
        (∀ f, f ∉ (q_searches q).*2 → storage_of n i !! f = st0 c i !! f)
  | Post =>
      if q_abort q then
        transactions n !! i = Some (aborted_txn c i e q) ∧ pending_for c i F = 0%nat ∧ storage_of n i = st0 c i
      else
        transactions n !! i = Some (second_txn c i e 0 q false false false) ∧ pending_for c i F = 0%nat ∧
        ∃ st, fields_read master_coordinator c true q db (st0 c i) st ∧ storage_of n i = q_compute q true st
  end.

(** A reservation is still to be made. *)
Definition to_reserve (tk : nat → nat → list (task K)) (F : list packet) (r : row_id K) (wr : bool) (tid : Z) : Prop :=
  (∃ w t, (w < W)%nat ∧ t ∈ tk (master r) w ∧ reserving r wr tid t) ∨
  (∃ src w, (src, master r, w, ReserveRequest r tid e wr) ∈ F).

Record read_inv (ns : gmap nat (Node K V)) (tk : nat → nat → list (task K)) (F : list packet)
    (σ : nat → nat → stage) (D : list (call (nat * row_id K))) : Prop := {
  ri_dom : ∀ c, is_Some (ns !! c) → (c < N)%nat;
  ri_nodes : ∀ c, (c < N)%nat → ∃ n, ns !! c = Some n ∧ n_epoch n = e ∧ total_abort n = 0%nat ∧ worker_status n = Aria_READ;
  ri_plan : ∀ c w, (c < N)%nat → (w < W)%nat → plan c w (σ c) (tk c w);
  ri_order : ∀ c w, (c < N)%nat → (w < W)%nat → ordered (tk c w);
  ri_task : ∀ c w t, (c < N)%nat → (w < W)%nat → t ∈ tk c w → task_ok c t;
  ri_head : ∀ c w i ts, (c < N)%nat → (w < W)%nat → tk c w = TReserveTxn i :: ts → pending_for c i F = 0%nat;
  ri_txn : ∀ c n i, ns !! c = Some n → (c < N)%nat → (i < B)%nat → txn_inv n F c i (σ c i);
  ri_flight : Forall (packet_ok σ) F;
  ri_values : ∀ c n r, ns !! c = Some n → (c < N)%nat → r_value (search_row (rows n) r) = val0 c r;
  ri_words : ∀ c n r, ns !! c = Some n → (c < N)%nat →
    word_after e (word0 c r) (calls_at (c, r) D) (r_tid (search_row (rows n) r));
  ri_done : Forall real D;
  ri_cover : ∀ c i r wr, (c < N)%nat → (i < B)%nat → σ c i = Post → q_abort (Q c i) = false →
    (r, wr) ∈ reservations (Q c i) → mkCall (master r, r) wr (txn_id c i) ∈ D ∨ to_reserve tk F r wr (txn_id c i)
}.

(** ** Frames *)

Implicit Types (F R : list packet) (σ : nat → nat → stage) (n : Node K V) (ts : list (task K)).

Lemma plan_ext c w (s s' : nat → stage) ts : (∀ i, owned w i → s i = s' i) → plan c w s ts → plan c w s' ts.
Proof.
  revert s s'. induction ts as [|t ts IH]; intros s s' Hs; [done|].
  assert (∀ i x j, owned w j → upd s i x j = upd s' i x j) as Hu.
  { intros i x j Hj. unfold upd. case_decide; [done|by apply Hs]. }
  destruct t; simpl; try done; try by apply IH.
  - case_match; try done. by apply IH.
  - case_match; try done. intros Hp i Hi. rewrite <- Hs by done. by apply Hp.
  - intros (Ho & Hi & Hp). split; [done|]. rewrite <- Hs by done. split; [done|]. eapply IH; [|done]. by apply Hu.
  - intros (Ho & Hi & Hp). split; [done|]. rewrite <- Hs by done. split; [done|]. eapply IH; [|done]. by apply Hu.
  - intros (Ho & Hi & Ha & Hp). split; [done|]. rewrite <- Hs by done. split; [done|]. split; [done|].
    eapply IH; [|done]. by apply Hu.
  - intros (Ho & Hi & Hp). split; [done|]. rewrite <- Hs by done. split; [done|]. by eapply IH.
Qed.

Lemma searching_mono c i j F R : (∀ x, x ∈ F → concerns c i x = true → x ∈ R) → searching c i j F → searching c i j R.
Proof. intros HF (x & Hx & Hc & Hj). exists x. split; [by apply HF|done]. Qed.

#[local] Instance searching_perm c i j : Proper ((≡ₚ) ==> iff) (searching c i j).
Proof. intros F R HF. unfold searching. by setoid_rewrite HF. Qed.

Lemma searching_pending c i j F : searching c i j F → pending_for c i F ≠ 0%nat.
Proof. intros (x & Hx & Hc & _) Hz. by rewrite pending_for_0 in Hz; rewrite (Hz x Hx) in Hc. Qed.

(** A transaction's part of the state is its slot, its storage and its packets. *)
Lemma txn_inv_frame n n' F R c i s :
  transactions n' !! i = transactions n !! i → storage_of n' i = storage_of n i →
  pending_for c i R = pending_for c i F → (∀ j, searching c i j F → searching c i j R) →
  txn_inv n F c i s → txn_inv n' R c i s.
Proof.
  intros Ht Hs Hp Hj. unfold txn_inv. destruct s; [by rewrite Hp, Hs|..]; rewrite Ht, Hs, Hp; [|done].
  destruct (q_abort _); [done|]. intros (Hfirst & Hlen & Hf & Hrest). split; [done|]. split; [done|]. split; [|done].
  intros j li r f Hq. destruct (Hf j li r f Hq); [by left|right; by apply Hj].
Qed.

(** Packets of other transactions do not depend on the stage of this one. *)
Lemma packet_ok_upd σ c i s x : concerns c i x = false → packet_ok σ x → packet_ok (upd2 σ c i s) x.
Proof.
  destruct x as [[[src dst] w] p]. unfold concerns. simpl. destruct p; try done; intros Hc%bool_decide_eq_false;
    intros (? & ? & ? & Hm & ?); (split; [done|]); (split; [done|]); (split; [done|]); (split; [by rewrite upd2_ne|done]).
Qed.

Lemma flight_ok_upd σ c i s F : pending_for c i F = 0%nat → Forall (packet_ok σ) F → Forall (packet_ok (upd2 σ c i s)) F.
Proof.
  rewrite pending_for_0, !Forall_forall. intros Hz HF x Hx. apply packet_ok_upd; [by apply Hz|by apply HF].
Qed.

Lemma to_reserve_mono tk tk' F R r wr tid :
  (∀ w t, (w < W)%nat → t ∈ tk (master r) w → reserving r wr tid t → ∃ t', t' ∈ tk' (master r) w ∧ reserving r wr tid t') →
  (∀ src w, (src, master r, w, ReserveRequest r tid e wr) ∈ F → (src, master r, w, ReserveRequest r tid e wr) ∈ R) →
  to_reserve tk F r wr tid → to_reserve tk' R r wr tid.
Proof.
  intros Ht HF [(w & t & Hw & Hin & Hr)|(src & w & Hin)]; [left|right; by eauto].
  destruct (Ht w t Hw Hin Hr) as (t' & ? & ?). by exists w, t'.
Qed.

Lemma read_inv_perm ns tk F R σ D : F ≡ₚ R → read_inv ns tk F σ D → read_inv ns tk R σ D.
Proof.
  intros HF []. split; try done.
  - intros c w i ts. rewrite <- HF. by eauto.
  - intros c n i Hn Hc Hi. apply (txn_inv_frame n n F R); [done|done|by rewrite HF|by intros j; rewrite HF|by apply ri_txn0].
  - by rewrite <- HF.
  - intros c i r wr Hc Hi Hs Ha Hr. destruct (ri_cover0 c i r wr Hc Hi Hs Ha Hr) as [|Ht]; [by left|right].
    eapply to_reserve_mono; [by eauto| |done]. intros src w. by rewrite HF.
Qed.

(** ** A step of worker [w] of node [c]

    It concerns the transactions of the worker and the words of the node. *)

Definition concerned (c w c' i : nat) : Prop := c' = c ∧ owned w i.

Lemma read_update ns tk F σ D c w n n' ts' F' σ' D' :
  read_inv ns tk F σ D → (c < N)%nat → (w < W)%nat → ns !! c = Some n →
  n_epoch n' = n_epoch n → total_abort n' = total_abort n → worker_status n' = worker_status n →
  (∀ r, r_value (search_row (rows n') r) = r_value (search_row (rows n) r)) →
  (∀ c' i, ¬ concerned c w c' i → σ' c' i = σ c' i ∧ pending_for c' i F' = pending_for c' i F ∧
     ∀ j, searching c' i j F → searching c' i j F') →
  (∀ i, (i < B)%nat → ¬ owned w i → transactions n' !! i = transactions n !! i ∧ storage_of n' i = storage_of n i) →
  (∀ i, owned w i → txn_inv n' F' c i (σ' c i)) →
  plan c w (σ' c) ts' → ordered ts' → (∀ t, t ∈ ts' → task_ok c t) →
  (∀ i ts, ts' = TReserveTxn i :: ts → pending_for c i F' = 0%nat) →
  Forall (packet_ok σ') F' →
  (∀ r, word_after e (word0 c r) (calls_at (c, r) D') (r_tid (search_row (rows n') r))) →
  (∀ c' r, c' ≠ c → calls_at (c', r) D' = calls_at (c', r) D) → Forall real D' → D ⊆ D' →
  (∀ r wr tid, to_reserve tk F r wr tid → mkCall (master r, r) wr tid ∈ D' ∨ to_reserve (upd2 tk c w ts') F' r wr tid) →
  (∀ i r wr, owned w i → σ' c i = Post → σ c i ≠ Post → q_abort (Q c i) = false → (r, wr) ∈ reservations (Q c i) →
     to_reserve (upd2 tk c w ts') F' r wr (txn_id c i)) →
  read_inv (<[c := n']> ns) (upd2 tk c w ts') F' σ' D'.
Proof.
  intros I Hc Hw Hn He Hta Hst Hval Hother Hdata Htxn Hplan Hord Htask Hhead Hflight Hword Hword' Hreal Hsub Hto Hnew.
  assert (∀ w' i, w' ≠ w → owned w' i → ¬ owned w i) as Hown by (intros w' i Hne [_ <-] [_ ?]; done).
  split.
  - intros c' Hs. destruct (decide (c' = c)) as [->|Hne]; [done|]. rewrite lookup_insert_ne in Hs by done. by apply I.
  - intros c' Hc'. destruct (decide (c' = c)) as [->|Hne].
    + rewrite lookup_insert_eq. exists n'. destruct (ri_nodes _ _ _ _ _ I c Hc) as (n0 & Hn0 & ?). rewrite Hn in Hn0.
      injection Hn0 as <-. by rewrite He, Hta, Hst.
    + rewrite lookup_insert_ne by done. by apply I.
  - intros c' w' Hc' Hw'. destruct (decide (c' = c ∧ w' = w)) as [[-> ->]|Hne]; [by rewrite upd2_eq|].
    rewrite upd2_ne by done. eapply plan_ext; [|by apply I]. intros i Hi. symmetry. apply Hother.
    intros [-> Hi']. destruct (decide (w' = w)) as [->|Hww]; [by destruct Hne|]. by apply (Hown w' i).
  - intros c' w' Hc' Hw'. destruct (decide (c' = c ∧ w' = w)) as [[-> ->]|Hne]; [by rewrite upd2_eq|].
    rewrite upd2_ne by done. by apply I.
  - intros c' w' t Hc' Hw'. destruct (decide (c' = c ∧ w' = w)) as [[-> ->]|Hne]; [rewrite upd2_eq; by apply Htask|].
    rewrite upd2_ne by done. by apply I.
  - intros c' w' i ts Hc' Hw'. destruct (decide (c' = c ∧ w' = w)) as [[-> ->]|Hne]; [rewrite upd2_eq; by apply Hhead|].
    rewrite upd2_ne by done. intros Ht. pose proof (ri_plan _ _ _ _ _ I c' w' Hc' Hw') as Hp. rewrite Ht in Hp.
    destruct Hp as (Ho & _). destruct (Hother c' i) as (_ & -> & _).
    { intros [-> Hi']. destruct (decide (w' = w)) as [->|Hww]; [by destruct Hne|]. by apply (Hown w' i). }
    by apply (ri_head _ _ _ _ _ I c' w' i ts).
  - intros c' n1 i Hn1 Hc' Hi. destruct (decide (c' = c)) as [->|Hne].
    + rewrite lookup_insert_eq in Hn1. injection Hn1 as <-.
      destruct (decide (i `mod` W = w)%nat) as [Hm|Hm]; [by apply Htxn|].
      assert (¬ owned w i) as Ho by (by intros [_ ?]). destruct (Hother c i) as (-> & Hp & Hs); [by intros [_ ?]|].
      destruct (Hdata i Hi Ho) as [Ht Hsto]. apply (txn_inv_frame n n' F F'); try done. by apply I.
    + rewrite lookup_insert_ne in Hn1 by done. destruct (Hother c' i) as (-> & Hp & Hs); [by intros [? _]|].
      apply (txn_inv_frame n1 n1 F F'); try done. by apply I.
  - done.
  - intros c' n1 r Hn1 Hc'. destruct (decide (c' = c)) as [->|Hne].
    + rewrite lookup_insert_eq in Hn1. injection Hn1 as <-. rewrite Hval. by apply (ri_values _ _ _ _ _ I).
    + rewrite lookup_insert_ne in Hn1 by done. by apply (ri_values _ _ _ _ _ I).
  - intros c' n1 r Hn1 Hc'. destruct (decide (c' = c)) as [->|Hne].
    + rewrite lookup_insert_eq in Hn1. by injection Hn1 as <-.
    + rewrite lookup_insert_ne in Hn1 by done. rewrite Hword' by done. by apply I.
  - done.
  - intros c' i r wr Hc' Hi Hpost Ha Hr. destruct (decide (σ c' i = Post)) as [Hold|Hold].
    + destruct (ri_cover _ _ _ _ _ I c' i r wr) as [HD|HT]; [done..|left; by apply Hsub|by apply Hto].
    + right. destruct (decide (c' = c)) as [->|Hne]; [|by rewrite (proj1 (Hother c' i ltac:(by intros [? _]))) in Hpost].
      apply Hnew; try done. split; [done|]. destruct (decide (i `mod` W = w)%nat) as [|Hm]; [done|].
      by rewrite (proj1 (Hother c i ltac:(by intros [_ [_ ?]]))) in Hpost.
Qed.

(** What is left of a reservation is still there. *)
Definition keeps ts ts' : Prop :=
  ∀ r wr tid t, t ∈ ts → reserving r wr tid t → ∃ t', t' ∈ ts' ∧ reserving r wr tid t'.

Lemma to_reserve_keeps tk F F' c w ts' r wr tid :
  keeps (tk c w) ts' →
  (∀ src w', (src, master r, w', ReserveRequest r tid e wr) ∈ F → (src, master r, w', ReserveRequest r tid e wr) ∈ F') →
  to_reserve tk F r wr tid → to_reserve (upd2 tk c w ts') F' r wr tid.
Proof.
  intros Hk HF. apply to_reserve_mono; [|done]. intros w' t Hw' Ht Hr.
  destruct (decide (master r = c ∧ w' = w)) as [[Hm ->]|Hne].
  - rewrite Hm in Ht |- *. rewrite upd2_eq. by eapply Hk.
  - rewrite upd2_ne by done. by exists t.
Qed.

(** The step moves nothing but tasks. *)
Lemma read_quiet ns tk F σ D c w n n' ts' :
  read_inv ns tk F σ D → (c < N)%nat → (w < W)%nat → ns !! c = Some n → same_data n n' →
  plan c w (σ c) ts' → ordered ts' → (∀ t, t ∈ ts' → task_ok c t) → keeps (tk c w) ts' →
  (∀ i ts, ts' = TReserveTxn i :: ts → pending_for c i F = 0%nat) →
  read_inv (<[c := n']> ns) (upd2 tk c w ts') F σ D.
Proof.
  intros I Hc Hw Hn (Hr & Ht & Hs & He & Ha & Hst) Hp Hord Htask Hk Hhead.
  assert (∀ i, storage_of n' i = storage_of n i) as Hso by (intros i; unfold storage_of; by rewrite Hs).
  apply (read_update ns tk F σ D c w n); try done.
  - intros r. by rewrite Hr.
  - intros i _ _. by rewrite Ht, Hso.
  - intros i [Hi Hm]. apply (txn_inv_frame n n' F F); [by rewrite Ht|done..|]. by apply (ri_txn _ _ _ _ _ I).
  - by apply (ri_flight _ _ _ _ _ I).
  - intros r. rewrite Hr. by apply (ri_words _ _ _ _ _ I).
  - by apply (ri_done _ _ _ _ _ I).
  - intros r wr tid Hto. right. by apply (to_reserve_keeps _ F).
Qed.

Lemma keeps_tail t ts : (∀ r wr tid, ¬ reserving r wr tid t) → keeps (t :: ts) ts.
Proof. intros Ht r wr tid t' [->|Hin]%elem_of_cons Hr; [by apply Ht in Hr|by exists t']. Qed.

Lemma keeps_app t ts ts' : (∀ r wr tid, ¬ reserving r wr tid t) → keeps (t :: ts) (ts' ++ ts).
Proof. intros Ht r wr tid t' [->|Hin]%elem_of_cons Hr; [by apply Ht in Hr|exists t'; set_solver]. Qed.

Lemma reserving_other r wr tid t :
  match t with TReserveRow _ _ _ _ | TSwapRow _ _ _ _ _ _ => False | _ => True end → ¬ reserving r wr tid t.
Proof. intros Ht [->|(o & n & ->)]; done. Qed.

(** ** Ids *)

Hypothesis Hbatch : batch_ok.

Lemma txn_id_ok c i : (c < N)%nat → (i < B)%nat → tid_ok (txn_id c i).
Proof.
  intros Hc Hi. unfold tid_ok, AriaExec.txn_id. pose proof (bo_ids Hbatch). assert ((i + 1) * N ≤ B * N)%nat by nia. nia.
Qed.

Lemma read_inv_tasks ns tk tk' F σ D : (∀ c w, (c < N)%nat → (w < W)%nat → tk c w = tk' c w) →
  read_inv ns tk F σ D → read_inv ns tk' F σ D.
Proof.
  intros Htk []. split; try done.
  - intros c w Hc Hw. rewrite <- Htk by done. by apply ri_plan0.
  - intros c w Hc Hw. rewrite <- Htk by done. by apply ri_order0.
  - intros c w t Hc Hw. rewrite <- Htk by done. by apply ri_task0.
  - intros c w i ts Hc Hw. rewrite <- Htk by done. by apply ri_head0.
  - intros c i r wr Hc Hi Hs Ha Hr. destruct (ri_cover0 c i r wr Hc Hi Hs Ha Hr) as [|Ht]; [by left|right].
    eapply to_reserve_mono; [| |exact Ht]; [|done]. intros w t Hw Hin Hre. rewrite Htk in Hin; [by exists t| |done]. apply Hbatch.
Qed.

Lemma txn_id_uint c i : (c < N)%nat → (i < B)%nat → uint 32 (txn_id c i) = txn_id c i.
Proof. intros Hc Hi. pose proof (txn_id_ok c i Hc Hi) as Hok. unfold tid_ok in Hok. apply uint_id. lia. Qed.

Lemma real_ok x : real x → call_ok x.
Proof. intros (c & i & r & wr & Hc & Hi & _ & _ & ->). unfold call_ok. simpl. by apply txn_id_ok. Qed.

(** ** The first pass *)

Hypothesis Hstart : start_ok.

Lemma search_packets_concern c w i (q : Query K V) (x : packet) c' i' : (c < N)%nat → (i < B)%nat → query_ok q →
  x ∈ search_packets master_coordinator c w (txn_id c i) i (search_keys q) → concerns c' i' x = bool_decide (c = c' ∧ i = i').
Proof.
  intros Hc Hi Hq Hx. apply search_packets_elem in Hx as (j & r & v & _ & _ & ->); [|done]. done.
Qed.

Lemma search_packets_pending c w i (q : Query K V) : (c < N)%nat → (i < B)%nat → query_ok q →
  let ps : list packet := search_packets master_coordinator c w (txn_id c i) i (search_keys q) in
  pending_for c i ps = length ps ∧ ∀ c' i', ¬ (c' = c ∧ i' = i) → pending_for c' i' ps = 0%nat.
Proof.
  intros Hc Hi Hq ps. split.
  - unfold pending_for. f_equal. apply filter_all, Forall_forall. intros x Hx.
    rewrite (search_packets_concern c w i q x) by done. by apply bool_decide_eq_true.
  - intros c' i' Hne. apply pending_for_0. intros x Hx. rewrite (search_packets_concern c w i q x) by done.
    apply bool_decide_eq_false. naive_solver.
Qed.

Lemma search_packets_ok c w i x σ : (c < N)%nat → owned w i → q_abort (Q c i) = false →
  x ∈ search_packets master_coordinator c w (txn_id c i) i (search_keys (Q c i)) → packet_ok (upd2 σ c i Mid) x.
Proof.
  intros Hc [Hi Hm] Ha Hx. apply search_packets_elem in Hx as (j & r & v & Hj & Hr & ->); [|by apply Hbatch].
  simpl. rewrite upd2_eq, txn_id_uint by done. split_and!; try done. by exists v.
Qed.

(** The transaction after its first pass. *)
Lemma read_executed ns tk F σ D c w n i st' : read_inv ns tk F σ D → (c < N)%nat → (i < B)%nat → ns !! c = Some n →
  pending_for c i F = 0%nat → storage_of n i = st0 c i →
  let ps : list packet := if q_abort (Q c i) then [] else search_packets master_coordinator c w (txn_id c i) i (search_keys (Q c i)) in
  (if q_abort (Q c i) then st' = storage_of n i
   else fields_read master_coordinator c false (Q c i) (λ r, r_value (search_row (rows n) r)) (storage_of n i) st') →
  txn_inv (set_storage (set_transaction n i
    (if q_abort (Q c i) then aborted_txn c i e (Q c i) else first_txn c i e (Z.of_nat (length ps)) (Q c i))) i st') (ps ++ F) c i Mid.
Proof.
  intros I Hc Hi Hn Hp0 Hst0 ps Hf. assert (query_ok (Q c i)) as Hq by (by apply Hbatch).
  unfold txn_inv. simpl. rewrite lookup_insert_eq, storage_of_set, pending_for_app, Hp0, Nat.add_0_r. unfold ps.
  destruct (q_abort (Q c i)) eqn:Hab; [by subst st'|]. destruct (search_packets_pending c w i (Q c i) Hc Hi Hq) as [-> _]. split; [done|].
  destruct Hf as [Hf Hf0]. rewrite Hst0 in Hf0.
  split; [rewrite <- (length_fmap (λ s, search_key s.1.1 s.1.2 s.2)); apply search_packets_length|]. split; [|done]. intros j li r f Hj'.
  destruct (decide (li = true ∨ master r = c)) as [Hloc|Hrem].
  - left. rewrite (Hf j li r f Hj' (λ _, Hloc)). f_equal. rewrite (ri_values _ _ _ _ _ I c n r Hn Hc).
    destruct Hloc as [-> | <-]; [by apply (so_index Hstart c i j r f)|by apply (so_db Hstart)].
  - right. destruct li; [by destruct Hrem; left|]. unfold searching.
    eexists. split; [apply elem_of_app; left; apply search_packets_elem; [done|]|].
    { exists j, r, f. split; [done|]. split; [|done]. by intros ?; destruct Hrem; right. }
    split; [|done]. unfold concerns. simpl. by apply bool_decide_eq_true.
Qed.

Lemma read_execute ns tk F R σ D c w n wk i ts n' wk' :
  read_inv ns tk F σ D → (c < N)%nat → (w < W)%nat → ns !! c = Some n → tk c w = TExecute i :: ts →
  F ≡ₚ packets_of (c, w) wk ++ R →
  execute_transaction context master_coordinator next_transaction c i n wk = (n', wk') →
  read_inv (<[c := n']> ns) (upd2 tk c w ts) (packets_of (c, w) wk' ++ R) (upd2 σ c i Mid) D ∧ tasks wk' = tasks wk.
Proof.
  intros I Hc Hw Hn Ht HF Hex.
  destruct (ri_nodes _ _ _ _ _ I c Hc) as (n0 & Hn0 & He & Hta & Hst). rewrite Hn in Hn0. injection Hn0 as <-.
  pose proof (ri_plan _ _ _ _ _ I c w Hc Hw) as Hplan. rewrite Ht in Hplan. destruct Hplan as ((Hi & Hm) & Hpre & Hplan).
  pose proof (ri_txn _ _ _ _ _ I c n i Hn Hc Hi) as Htx. rewrite Hpre in Htx. destruct Htx as [Hp0 Hst0].
  assert (query_ok (Q c i)) as Hq by (by apply Hbatch).
  destruct (execute_transaction_spec context master_coordinator next_transaction c w i n wk) as (st' & wk1 & Hex' & Hf & Hpk & Htk);
    [done|by rewrite He|]. rewrite He in *. rewrite Hex' in Hex. injection Hex as <- <-. split; [|done].
  set (ps := if q_abort _ then [] else _) in *.
  assert (packets_of (c, w) wk1 ++ R ≡ₚ ps ++ F) as HF' by (by rewrite Hpk, HF, app_assoc).
  assert (pending_for c i ps = length ps ∧ ∀ c' i', ¬ (c' = c ∧ i' = i) → pending_for c' i' ps = 0%nat) as [Hps Hps'].
  { unfold ps. destruct (q_abort _); [done|]. by apply search_packets_pending. }
  eapply read_inv_perm; [symmetry; exact HF'|].
  apply (read_update ns tk F σ D c w n); try done.
  - intros c' i' Hne. assert (¬ (c' = c ∧ i' = i)) as Hne' by (intros [-> ->]; apply Hne; done).
    rewrite upd2_ne, pending_for_app, Hps' by done. split_and!; [done|done|].
    intros j. apply searching_mono. intros x Hx _. apply elem_of_app. by right.
  - intros j _ Hj. assert (j ≠ i) by (intros ->; by apply Hj). simpl. rewrite lookup_insert_ne by done. split; [done|].
    by rewrite storage_of_set_ne.
  - intros j [Hj Hmj]. destruct (decide (j = i)) as [->|Hne].
    + rewrite upd2_eq. by apply (read_executed ns tk F σ D).
    + rewrite upd2_ne by naive_solver.
      apply (txn_inv_frame n _ F).
      * simpl. by rewrite lookup_insert_ne.
      * by rewrite storage_of_set_ne.
      * rewrite pending_for_app, Hps' by naive_solver. done.
      * intros j'. apply searching_mono. intros x Hx _. apply elem_of_app. by right.
      * by apply (ri_txn _ _ _ _ _ I).
  - eapply plan_ext; [|done]. intros j _. by rewrite upd2_row.
  - pose proof (ri_order _ _ _ _ _ I c w Hc Hw) as Ho. rewrite Ht in Ho. apply Ho.
  - intros t Hin. apply (ri_task _ _ _ _ _ I c w t Hc Hw). rewrite Ht. by constructor.
  - intros j ts' Hts. pose proof (ri_order _ _ _ _ _ I c w Hc Hw) as Ho. rewrite Ht in Ho. by destruct (ordered_head _ _ j ts' Ho).
  - apply Forall_app. split; [|by apply flight_ok_upd; [|apply (ri_flight _ _ _ _ _ I)]].
    apply Forall_forall. intros x Hx. unfold ps in Hx. destruct (q_abort _) eqn:Hab; [by apply not_elem_of_nil in Hx|].
    by eapply search_packets_ok.
  - intros r. exact (ri_words _ _ _ _ _ I c n r Hn Hc).
  - by apply (ri_done _ _ _ _ _ I).
  - intros r wr tid Hto. right. apply (to_reserve_keeps _ F); [|set_solver|done]. rewrite Ht.
    by apply keeps_tail; intros ???; apply reserving_other.
  - intros j r wr _ Hpost Hnp. destruct (decide (j = i)) as [->|Hne]; [by rewrite upd2_eq in Hpost|].
    by rewrite upd2_ne in Hpost by naive_solver.
Qed.

(** ** Messages *)

(** The packets change, but not for the transactions. *)
Lemma read_packets ns tk F F' σ D :
  read_inv ns tk F σ D → Forall (packet_ok σ) F' →
  (∀ c i, pending_for c i F' = pending_for c i F ∧ ∀ j, searching c i j F → searching c i j F') →
  (∀ r wr tid src dst w, (src, dst, w, ReserveRequest r tid e wr) ∈ F → (src, dst, w, ReserveRequest r tid e wr) ∈ F') →
  read_inv ns tk F' σ D.
Proof.
  intros [] Hok Hp Hr. split; try done.
  - intros c w i ts. rewrite (proj1 (Hp c i)). by eauto.
  - intros c n i Hn Hc Hi. destruct (Hp c i) as [Hpi Hsi]. apply (txn_inv_frame n n F F'); try done. by apply ri_txn0.
  - intros c i r wr Hc Hi Hs Ha Hre. destruct (ri_cover0 c i r wr Hc Hi Hs Ha Hre) as [|Ht]; [by left|right].
    eapply to_reserve_mono; [by eauto| |done]. by eauto.
Qed.

Lemma read_search_request ns tk R σ D c w n src r tid off j :
  read_inv ns tk ((src, c, w, SearchRequest r tid off j) :: R) σ D → (c < N)%nat → ns !! c = Some n →
  read_inv ns tk ((c, src, w, SearchResponse (r_value (search_row (rows n) r)) tid off j) :: R) σ D.
Proof.
  intros I Hc Hn. pose proof (ri_flight _ _ _ _ _ I) as [Hreq HR]%Forall_cons.
  destruct Hreq as (Hs & Hoff & Hw & Hmid & Hab & Htid & Hm & v & Hj).
  eapply read_packets; [done|..].
  - constructor; [|done]. split_and!; try done. exists false, r, v. split; [done|].
    rewrite (ri_values _ _ _ _ _ I c n r Hn Hc), Hm. by apply (so_db Hstart).
  - intros c' i. rewrite !pending_for_cons. split; [done|]. intros j' (x & [->|Hx]%elem_of_cons & Hcn & Hj').
    + eexists. split; [by left|]. done.
    + exists x. split; [by right|done].
  - intros r' wr tid' src' dst w'. rewrite !elem_of_cons. intros [|]; [done|by right].
Qed.

Lemma search_response_spec ns tk R σ D c w n wk src v tid off j :
  read_inv ns tk ((src, c, w, SearchResponse v tid off j) :: R) σ D → ns !! c = Some n →
  ∃ f li r, q_searches (Q c off) !! j = Some (li, r, f) ∧ v = db r ∧ owned w off ∧ σ c off = Mid ∧ q_abort (Q c off) = false ∧
  search_response_handler context v tid off j n wk =
    Done (set_storage (set_transaction n off (first_txn c off e (Z.of_nat (pending_for c off R)) (Q c off))) off
            (<[f := v]> (storage_of n off)), wk, []).
Proof.
  intros I Hn. pose proof (ri_flight _ _ _ _ _ I) as [Hres HR]%Forall_cons.
  destruct Hres as (Hc & Hoff & Hw & Hmid & Hab & -> & li & r & f & Hj & Hv). exists f, li, r.
  pose proof (ri_txn _ _ _ _ _ I c n off Hn Hc Hoff) as Htx. rewrite Hmid in Htx. unfold txn_inv in Htx. rewrite Hab in Htx.
  destruct Htx as (Ht & Hlen & _). assert (query_ok (Q c off)) as Hq by (by apply Hbatch).
  split_and!; try done. unfold search_response_handler, response_txn. rewrite decide_True by done. rewrite Ht.
  cbn [id first_txn]. rewrite Z.eqb_refl. cbn [mbind blocking_bind].
  destruct (read_keys_says (Q c off) j li r f Hq Hj) as (k & Hk & Hs).
  unfold AriaExec.first_txn at 1. cbn [readSet]. rewrite Hk, (sy_value _ _ _ _ _ Hs).
  rewrite pending_for_cons in *.
  assert (concerns c off (src, c, w, SearchResponse v (txn_id c off) off j : piece K V) = true) as Hcn.
  { unfold concerns. simpl. by apply bool_decide_eq_true. }
  rewrite Hcn in *. pose proof (qo_size _ Hq).
  assert (u64 (Z.of_nat (1 + pending_for c off R) - 1) = Z.of_nat (pending_for c off R)) as Hu.
  { rewrite u64_id; [lia|]. unfold is_u64. lia. }
  unfold AriaExec.first_txn, set_pending. cbn [pendingResponses storage_ref]. by rewrite Hu.
Qed.

Lemma read_search_response ns tk R σ D c w n src tid off j f li r :
  read_inv ns tk ((src, c, w, SearchResponse (db r) tid off j) :: R) σ D → (c < N)%nat → (w < W)%nat → ns !! c = Some n →
  q_searches (Q c off) !! j = Some (li, r, f) → owned w off → σ c off = Mid → q_abort (Q c off) = false →
  read_inv (<[c := set_storage (set_transaction n off (first_txn c off e (Z.of_nat (pending_for c off R)) (Q c off))) off
                    (<[f := db r]> (storage_of n off))]> ns) (upd2 tk c w (tk c w)) R σ D.
Proof.
  intros I Hc Hw Hn Hj [Hoff Hm] Hmid Hab.
  assert (∀ c' i, concerns c' i (src, c, w, SearchResponse (db r) tid off j : piece K V) = bool_decide (c = c' ∧ off = i)) as Hcn by done.
  assert (∀ c' i, ¬ (c' = c ∧ i = off) →
    pending_for c' i R = pending_for c' i ((src, c, w, SearchResponse (db r) tid off j) :: R) ∧
    ∀ j', searching c' i j' ((src, c, w, SearchResponse (db r) tid off j) :: R) → searching c' i j' R) as Hother.
  { intros c' i Hne. rewrite pending_for_cons, Hcn, bool_decide_false by naive_solver. split; [done|].
    intros j'. apply searching_mono. intros x [->|Hx]%elem_of_cons Hcx; [|done].
    rewrite Hcn, bool_decide_false in Hcx by naive_solver. done. }
  pose proof (ri_flight _ _ _ _ _ I) as [_ HR]%Forall_cons.
  apply (read_update ns tk ((src, c, w, SearchResponse (db r) tid off j) :: R) σ D c w n); try done.
  - intros c' i Hne. split; [done|]. apply Hother. intros [-> ->]. by apply Hne.
  - intros i _ Hi. assert (i ≠ off) by (intros ->; by apply Hi). simpl. rewrite lookup_insert_ne by done. split; [done|].
    by rewrite storage_of_set_ne.
  - intros i [Hi Hmi]. pose proof (ri_txn _ _ _ _ _ I c n i Hn Hc Hi) as Htx. destruct (decide (i = off)) as [->|Hne].
    + rewrite Hmid in *. unfold txn_inv in *. rewrite Hab in *. destruct Htx as (_ & Hlen & Hf & Hf0). simpl.
      rewrite lookup_insert_eq, storage_of_set. rewrite pending_for_cons in Hlen. split_and!; [done|lia|..].
      * intros j' li' r' f' Hj'. destruct (decide (f' = f)) as [->|Hff].
        { left. rewrite lookup_insert_eq. assert (j' = j) as ->; [|by rewrite Hj in Hj'; injection Hj' as <- <-].
          apply (NoDup_lookup (q_searches (Q c off)).*2 _ _ f); [by apply (bo_queries Hbatch)|..]; rewrite list_lookup_fmap;
            [by rewrite Hj'|by rewrite Hj]. }
        rewrite lookup_insert_ne by done. destruct (Hf j' li' r' f' Hj') as [|Hs]; [by left|right].
        destruct Hs as (x & [->|Hx]%elem_of_cons & Hxc & Hxj); [|by exists x].
        simpl in Hxj. subst j'. rewrite Hj in Hj'. by injection Hj' as <- <- <-.
      * intros f' Hf'. rewrite lookup_insert_ne; [by apply Hf0|]. intros ->. apply Hf'. apply list_elem_of_fmap.
        exists (li, r, f'). split; [done|by eapply list_elem_of_lookup_2].
    + destruct (Hother c i) as [Hp Hs]; [naive_solver|].
      eapply (txn_inv_frame n); [| | | |exact Htx]; [simpl; by rewrite lookup_insert_ne|by rewrite storage_of_set_ne|done|done].
  - by apply (ri_plan _ _ _ _ _ I).
  - by apply (ri_order _ _ _ _ _ I).
  - intros t. by apply (ri_task _ _ _ _ _ I).
  - intros i ts Hts. pose proof (ri_head _ _ _ _ _ I c w i ts Hc Hw Hts) as Hz. rewrite pending_for_cons in Hz. lia.
  - intros r'. exact (ri_words _ _ _ _ _ I c n r' Hn Hc).
  - by apply (ri_done _ _ _ _ _ I).
  - intros r' wr tid' Hto. right. eapply to_reserve_keeps; [..|exact Hto]; [by intros ????; eauto|].
    intros src' w' [|]%elem_of_cons; done.
Qed.

Lemma read_reserve_request ns tk R σ D c w n src r tid e' wr ts :
  read_inv ns tk ((src, c, w, ReserveRequest r tid e' wr) :: R) σ D → (c < N)%nat → (w < W)%nat → ns !! c = Some n →
  tk c w = TProcess :: ts →
  read_inv (<[c := n]> ns) (upd2 tk c w (TReserveRow r wr e' tid :: TProcess :: ts)) R σ D.
Proof.
  intros I Hc Hw Hn Ht. pose proof (ri_flight _ _ _ _ _ I) as [(-> & _ & Hm & Hreal) HR]%Forall_cons.
  assert (∀ c' i, pending_for c' i R = pending_for c' i ((src, c, w, ReserveRequest r tid e wr) :: R) ∧
    ∀ j', searching c' i j' ((src, c, w, ReserveRequest r tid e wr) :: R) → searching c' i j' R) as Hother.
  { intros c' i. rewrite pending_for_cons. split; [done|].
    intros j'. apply searching_mono. by intros x [->|Hx]%elem_of_cons Hcx. }
  pose proof (ri_plan _ _ _ _ _ I c w Hc Hw) as Hp. rewrite Ht in Hp.
  pose proof (ri_order _ _ _ _ _ I c w Hc Hw) as Ho. rewrite Ht in Ho.
  apply (read_update ns tk ((src, c, w, ReserveRequest r tid e wr) :: R) σ D c w n); try done.
  - intros i [Hi Hmi]. destruct (Hother c i). eapply (txn_inv_frame n); [done..|]. by apply (ri_txn _ _ _ _ _ I).
  - intros t [->|Hin]%elem_of_cons; [done|]. apply (ri_task _ _ _ _ _ I c w t Hc Hw). by rewrite Ht.
  - intros r'. exact (ri_words _ _ _ _ _ I c n r' Hn Hc).
  - by apply (ri_done _ _ _ _ _ I).
  - intros r' wr' tid' Hto. right. destruct (decide ((r', wr', tid') = (r, wr, tid))) as [[= -> -> ->]|Hne].
    { left. exists w, (TReserveRow r wr e tid). rewrite <- Hm, upd2_eq. split; [done|]. split; [by left|by left]. }
    eapply to_reserve_keeps; [..|exact Hto].
    + rewrite Ht. intros r1 wr1 tid1 t Hin Hr. exists t. split; [by right|done].
    + intros src' w' [Heq|]%elem_of_cons; [|done]. exfalso. apply Hne. by simplify_eq.
Qed.

(** ** The second pass *)

Lemma reserve_tasks_elem c e' tid (l : list (row_id K * bool)) t :
  t ∈ reserve_tasks master_coordinator c e' tid l ↔ ∃ r wr, (r, wr) ∈ l ∧ master r = c ∧ t = TReserveRow r wr e' tid.
Proof.
  unfold reserve_tasks. rewrite list_elem_of_bind. split.
  - intros ([r wr] & Ht & Hl). simpl in Ht. case_bool_decide; [|by apply not_elem_of_nil in Ht].
    apply list_elem_of_singleton in Ht as ->. by exists r, wr.
  - intros (r & wr & Hl & Hm & ->). exists (r, wr). split; [|done]. simpl. rewrite bool_decide_true by done.
    by apply list_elem_of_singleton.
Qed.

Lemma reserve_packets_elem c w e' tid (l : list (row_id K * bool)) (x : packet) :
  x ∈ reserve_packets master_coordinator c w e' tid l ↔
  ∃ r wr, (r, wr) ∈ l ∧ master r ≠ c ∧ x = (c, master r, w, ReserveRequest r tid e' wr).
Proof.
  unfold reserve_packets. rewrite list_elem_of_bind. split.
  - intros ([r wr] & Ht & Hl). simpl in Ht. case_bool_decide; [by apply not_elem_of_nil in Ht|].
    apply list_elem_of_singleton in Ht as ->. by exists r, wr.
  - intros (r & wr & Hl & Hm & ->). exists (r, wr). split; [|done]. simpl. rewrite bool_decide_false by done.
    by apply list_elem_of_singleton.
Qed.

(** Reservations are answered to nobody, and each is a task here or a packet. *)
Lemma reserve_packets_quiet c w e' tid (l : list (row_id K * bool)) F c' i' : let ps : list packet := reserve_packets master_coordinator c w e' tid l in
  pending_for c' i' (ps ++ F) = pending_for c' i' F ∧ ∀ j, searching c' i' j F → searching c' i' j (ps ++ F).
Proof.
  intros ps. rewrite pending_for_app. replace (pending_for c' i' ps) with 0%nat.
  - split; [done|]. intros j. apply searching_mono. set_solver.
  - symmetry. apply pending_for_0. intros x (r & wr & _ & _ & ->)%reserve_packets_elem. done.
Qed.

Lemma reserve_issued tk c w tid (l : list (row_id K * bool)) F ts r wr : (r, wr) ∈ l → (w < W)%nat →
  to_reserve (upd2 tk c w (reserve_tasks master_coordinator c e tid l ++ ts)) (reserve_packets master_coordinator c w e tid l ++ F) r wr tid.
Proof.
  intros Hr Hw. destruct (decide (master r = c)) as [Hmr|Hmr].
  - left. exists w, (TReserveRow r wr e tid). rewrite Hmr, upd2_eq. split_and!; [done| |by left].
    apply elem_of_app. left. apply reserve_tasks_elem. by exists r, wr.
  - right. exists c, w. apply elem_of_app. left. apply reserve_packets_elem. by exists r, wr.
Qed.

Lemma plan_reserve c w s (rs : list (task K)) ts : Forall (λ t, ∃ r wr e' tid, t = TReserveRow r wr e' tid) rs →
  plan c w s ts → ordered ts → (∀ i ts', ts ≠ TReserveTxn i :: ts') → plan c w s (rs ++ ts) ∧ ordered (rs ++ ts).
Proof.
  intros Hrs Hp Ho Hh. induction Hrs as [|t rs (r & wr & e' & tid & ->) Hrs [IHp IHo]]; [done|].
  split; [done|]. split; [|done]. destruct Hrs as [|? ? (? & ? & ? & ? & ->) _]; simpl; [|done].
  destruct ts as [|[] ts]; try done. by destruct (Hh i ts).
Qed.

Lemma read_reserve_txn ns tk F R σ D c w b n wk i ts :
  read_inv ns tk F σ D → (c < N)%nat → (w < W)%nat → ns !! c = Some n → tk c w = TReserveTxn i :: ts →
  F ≡ₚ packets_of (c, w) wk ++ R →
  ∃ n' wk' ts', executor_step context master_coordinator next_transaction c w b n wk ts (TReserveTxn i) =
      Done (n', set_tasks wk' ts') ∧
    read_inv (<[c := n']> ns) (upd2 tk c w ts') (packets_of (c, w) wk' ++ R) (upd2 σ c i Post) D.
Proof.
  intros I Hc Hw Hn Ht HF.
  pose proof (ri_plan _ _ _ _ _ I c w Hc Hw) as Hp. rewrite Ht in Hp. destruct Hp as ((Hi & Hm) & Hmid & Hab & Hp).
  pose proof (ri_order _ _ _ _ _ I c w Hc Hw) as Ho. rewrite Ht in Ho.
  pose proof (ri_head _ _ _ _ _ I c w i ts Hc Hw Ht) as Hz.
  pose proof (ri_txn _ _ _ _ _ I c n i Hn Hc Hi) as Htx. rewrite Hmid in Htx. unfold txn_inv in Htx. rewrite Hab, Hz in Htx.
  destruct Htx as (Htx & _ & Hf & Hf0). assert (query_ok (Q c i)) as Hq by (by apply Hbatch).
  unfold executor_step. rewrite Htx. cbv zeta. change (Z.of_nat 0) with 0. rewrite execute_second by done.
  change (storage_ref (set_execution_phase _ _)) with i.
  destruct (reserve_transaction_spec context master_coordinator c w i e (Q c i) wk Hq) as (wk' & -> & Hpk & _ & _).
  rewrite txn_id_uint in Hpk |- * by done. change (storage_ref (second_txn _ _ _ _ _ _ _ _)) with i.
  eexists _, wk', _. split; [done|]. set (ps := reserve_packets _ _ _ _ _ _) in *. set (rs := reserve_tasks _ _ _ _ _).
  assert (packets_of (c, w) wk' ++ R ≡ₚ ps ++ F) as HF' by (by rewrite Hpk, HF, app_assoc).
  eapply read_inv_perm; [symmetry; exact HF'|].
  assert (∀ c' i', pending_for c' i' (ps ++ F) = pending_for c' i' F ∧ ∀ j, searching c' i' j F → searching c' i' j (ps ++ F)) as Hother
    by (intros; apply reserve_packets_quiet).
  destruct (plan_reserve c w (upd2 σ c i Post c) rs ts) as [Hplan Hord].
  { apply Forall_forall. intros t (r & wr & _ & _ & ->)%reserve_tasks_elem. by eauto. }
  { eapply plan_ext; [|done]. intros j _. by rewrite upd2_row. }
  { apply Ho. }
  { intros j ts'. by apply (ordered_head (TReserveTxn i)). }
  assert (∀ r wr, (r, wr) ∈ reservations (Q c i) → real (mkCall (master r, r) wr (txn_id c i))) as Hreal.
  { intros r wr Hr. by exists c, i, r, wr. }
  apply (read_update ns tk F σ D c w n); try done.
  - intros c' i' Hne. rewrite upd2_ne; [by split|]. intros [-> ->]. by apply Hne.
  - intros j _ Hj. assert (j ≠ i) by (intros ->; by apply Hj). simpl. rewrite lookup_insert_ne by done. split; [done|].
    by rewrite storage_of_set_ne.
  - intros j [Hj Hmj]. destruct (Hother c j) as [Hpj Hsj]. destruct (decide (j = i)) as [->|Hne].
    + rewrite upd2_eq. unfold txn_inv. rewrite Hab. simpl. rewrite lookup_insert_eq, storage_of_set. split; [done|].
      split; [by rewrite Hpj|]. exists (storage_of n i). split; [|done]. split; [|done]. intros j li r f Hj' _.
      destruct (Hf j li r f Hj') as [|Hs]; [done|]. by apply searching_pending in Hs.
    + rewrite upd2_ne by naive_solver. eapply (txn_inv_frame n); [| |done|done|by apply (ri_txn _ _ _ _ _ I)].
      * simpl. by rewrite lookup_insert_ne.
      * by rewrite storage_of_set_ne.
  - intros t [Hin|Hin]%elem_of_app.
    + apply reserve_tasks_elem in Hin as (r & wr & Hr & Hmr & ->). split_and!; [done|done|]. pose proof (Hreal r wr Hr) as Hx. by rewrite Hmr in Hx.
    + apply (ri_task _ _ _ _ _ I c w t Hc Hw). rewrite Ht. by constructor.
  - intros j ts' Hts. exfalso. destruct rs as [|t rs'] eqn:Hrs; [by apply (ordered_head _ _ j ts' Ho)|].
    assert (t ∈ rs) as (r & wr & _ & _ & ->)%reserve_tasks_elem by (rewrite Hrs; by left). done.
  - apply Forall_app. split; [|by apply flight_ok_upd; [|apply (ri_flight _ _ _ _ _ I)]].
    apply Forall_forall. intros x (r & wr & Hr & Hmr & ->)%reserve_packets_elem. split_and!; [done|done|done|by apply Hreal].
  - intros r. exact (ri_words _ _ _ _ _ I c n r Hn Hc).
  - by apply (ri_done _ _ _ _ _ I).
  - intros r wr tid Hto. right. eapply to_reserve_keeps; [..|exact Hto]; [|set_solver]. rewrite Ht.
    by apply keeps_app; intros ???; apply reserving_other.
  - intros j r wr _ Hpost Hnp _ Hr. destruct (decide (j = i)) as [->|Hne]; [|by rewrite upd2_ne in Hpost by naive_solver].
    by apply reserve_issued.
Qed.

(** ** The reservations *)

Lemma word0_ok c r : (c < N)%nat → word_ok e (word0 c r).
Proof. intros Hc. destruct (so_words Hstart c r Hc) as [Hu He]. split; [done|lia]. Qed.

Lemma calls_ok D a : Forall real D → Forall call_ok (calls_at a D).
Proof. intros HD. apply Forall_filter. eapply Forall_impl; [done|]. by apply real_ok. Qed.

(** The loop of a reservation does not stop the process. *)
Lemma reserve_returns ns tk F σ D c n r wr tid :
  read_inv ns tk F σ D → (c < N)%nat → ns !! c = Some n → real (mkCall (c, r) wr tid) →
  ∃ b a', reserve wr (r_tid (search_row (rows n) r)) e tid = Ret (b, a') ∧
    word_after e (word0 c r) (mkCall (c, r) wr tid :: calls_at (c, r) D) a'.
Proof.
  intros I Hc Hn Hreal. apply (word_after_step e (bo_epoch Hbatch) (word0 c r) _ (mkCall (c, r) wr tid)).
  - by apply word0_ok.
  - apply calls_ok, I.
  - by apply real_ok.
  - by apply (ri_words _ _ _ _ _ I).
Qed.

Lemma read_reserved ns tk F σ D c w n n' r wr tid t ts b :
  read_inv ns tk F σ D → (c < N)%nat → (w < W)%nat → ns !! c = Some n → tk c w = t :: ts →
  reserving r wr tid t → c = master r → real (mkCall (c, r) wr tid) →
  reserve wr (r_tid (search_row (rows n) r)) e tid = Ret (b, r_tid (search_row (rows n') r)) →
  (∀ r', r' ≠ r → r_tid (search_row (rows n') r') = r_tid (search_row (rows n) r')) →
  (∀ r', r_value (search_row (rows n') r') = r_value (search_row (rows n) r')) →
  transactions n' = transactions n → storages n' = storages n → n_epoch n' = n_epoch n →
  total_abort n' = total_abort n → worker_status n' = worker_status n →
  read_inv (<[c := n']> ns) (upd2 tk c w ts) F σ (mkCall (c, r) wr tid :: D).
Proof.
  intros I Hc Hw Hn Ht Hrt Hm Hreal Hres Hword Hval Htx Hsto He Hta Hst.
  pose proof (ri_plan _ _ _ _ _ I c w Hc Hw) as Hp. rewrite Ht in Hp.
  pose proof (ri_order _ _ _ _ _ I c w Hc Hw) as Ho. rewrite Ht in Ho.
  destruct (reserve_returns ns tk F σ D c n r wr tid I Hc Hn Hreal) as (b1 & a1 & Hres1 & Hw1).
  rewrite Hres in Hres1. injection Hres1 as <- <-.
  assert (∀ i, storage_of n' i = storage_of n i) as Hso by (intros i; unfold storage_of; by rewrite Hsto).
  assert (∀ a, calls_at a (mkCall (c, r) wr tid :: D) = if decide ((c, r) = a) then mkCall (c, r) wr tid :: calls_at a D else calls_at a D)
    as Hat by done.
  apply (read_update ns tk F σ D c w n); try done.
  - intros i _ _. by rewrite Htx, Hso.
  - intros i [Hi Hmi]. eapply (txn_inv_frame n); [by rewrite Htx|done..|]. by apply (ri_txn _ _ _ _ _ I).
  - by destruct Hrt as [->|(? & ? & ->)].
  - apply Ho.
  - intros t' Hin. apply (ri_task _ _ _ _ _ I c w t' Hc Hw). rewrite Ht. by constructor.
  - intros i ts' Hts. exfalso. apply (ordered_head _ _ i ts' Ho); [|done]. by destruct Hrt as [->|(? & ? & ->)].
  - apply I.
  - intros r'. rewrite Hat. destruct (decide ((c, r) = (c, r'))) as [[= <-]|Hne]; [done|].
    rewrite Hword by congruence. by apply (ri_words _ _ _ _ _ I).
  - intros c' r' Hne. rewrite Hat, decide_False by congruence. done.
  - constructor; [done|apply I].
  - by apply list_subseteq_cons_r || set_solver.
  - intros r' wr' tid' Hto. destruct (decide ((r', wr', tid') = (r, wr, tid))) as [[= -> -> ->]|Hne].
    { left. rewrite <- Hm. by left. }
    right. eapply to_reserve_mono; [| |exact Hto]; [|done]. intros w' t' Hw' Hin Hr'.
    destruct (decide (master r' = c ∧ w' = w)) as [[Hm' ->]|Hne']; [|by rewrite upd2_ne by done; exists t'].
    rewrite Hm' in Hin |- *. rewrite upd2_eq. exists t'. split; [|done]. rewrite Ht in Hin.
    apply elem_of_cons in Hin as [->|]; [|done]. exfalso. apply Hne.
    destruct Hrt as [->|(? & ? & ->)], Hr' as [[=]|(? & ? & [=])]; by simplify_eq.
Qed.

(** ** Any step of an executor *)

(** The step is done with its task. *)
Lemma read_tail ns tk F σ D c w n n' t ts :
  read_inv ns tk F σ D → (c < N)%nat → (w < W)%nat → ns !! c = Some n → same_data n n' → tk c w = t :: ts →
  plan c w (σ c) ts → match t with TWaitResponses _ | TReserveRow _ _ _ _ | TSwapRow _ _ _ _ _ _ => False | _ => True end →
  read_inv (<[c := n']> ns) (upd2 tk c w ts) F σ D.
Proof.
  intros I Hc Hw Hn Hd Ht Hp Hok. pose proof (ri_order _ _ _ _ _ I c w Hc Hw) as Ho. rewrite Ht in Ho.
  apply (read_quiet ns tk F σ D c w n); try done.
  - apply Ho.
  - intros t' Hin. apply (ri_task _ _ _ _ _ I c w t' Hc Hw). rewrite Ht. by constructor.
  - rewrite Ht. apply keeps_tail. intros ???. apply reserving_other. by destruct t.
  - intros i ts' Hts. exfalso. apply (ordered_head _ _ i ts' Ho); [|done]. by intros ->.
Qed.

(** The step leaves more to do. *)
Lemma read_more ns tk F σ D c w n t l ts :
  read_inv ns tk F σ D → (c < N)%nat → (w < W)%nat → ns !! c = Some n → tk c w = t :: ts →
  plan c w (σ c) (l ++ ts) → ordered (l ++ ts) → (∀ t', t' ∈ l → task_ok c t') → keeps (t :: ts) (l ++ ts) →
  (∀ i ts', l ++ ts ≠ TReserveTxn i :: ts') →
  read_inv (<[c := n]> ns) (upd2 tk c w (l ++ ts)) F σ D.
Proof.
  intros I Hc Hw Hn Ht Hp Ho Hok Hk Hh. apply (read_quiet ns tk F σ D c w n); try done.
  - intros t' [Hin|Hin]%elem_of_app; [by apply Hok|]. apply (ri_task _ _ _ _ _ I c w t' Hc Hw). rewrite Ht. by constructor.
  - by rewrite Ht.
  - intros i ts' Hts. by destruct (Hh i ts').
Qed.

Lemma read_skip ns tk F σ D c w n i ts :
  read_inv ns tk F σ D → (c < N)%nat → (w < W)%nat → ns !! c = Some n → tk c w = TReserve i :: ts →
  q_abort (Q c i) = true → read_inv (<[c := n]> ns) (upd2 tk c w ts) F (upd2 σ c i Post) D.
Proof.
  intros I Hc Hw Hn Ht Hab.
  pose proof (ri_plan _ _ _ _ _ I c w Hc Hw) as Hp. rewrite Ht in Hp. destruct Hp as ((Hi & Hm) & Hmid & Hp).
  pose proof (ri_order _ _ _ _ _ I c w Hc Hw) as Ho. rewrite Ht in Ho.
  pose proof (ri_txn _ _ _ _ _ I c n i Hn Hc Hi) as Htx. rewrite Hmid in Htx. unfold txn_inv in Htx. rewrite Hab in Htx.
  apply (read_update ns tk F σ D c w n); try done.
  - intros c' i' Hne. rewrite upd2_ne; [by split|]. intros [-> ->]. by apply Hne.
  - intros j [Hj Hmj]. destruct (decide (j = i)) as [->|Hne]; [rewrite upd2_eq; unfold txn_inv; by rewrite Hab|].
    rewrite upd2_ne by naive_solver. by apply (ri_txn _ _ _ _ _ I).
  - eapply plan_ext; [|done]. intros j _. by rewrite upd2_row.
  - apply Ho.
  - intros t' Hin. apply (ri_task _ _ _ _ _ I c w t' Hc Hw). rewrite Ht. by constructor.
  - intros j ts' Hts. exfalso. by apply (ordered_head _ _ j ts' Ho).
  - apply flight_ok_upd; [apply Htx|apply I].
  - intros r. exact (ri_words _ _ _ _ _ I c n r Hn Hc).
  - apply I.
  - intros r wr tid Hto. right. eapply to_reserve_keeps; [..|exact Hto]; [|done]. rewrite Ht.
    by apply keeps_tail; intros ???; apply reserving_other.
  - intros j r wr _ Hpost Hnp Haj. destruct (decide (j = i)) as [->|Hne]; [by rewrite Hab in Haj|].
    by rewrite upd2_ne in Hpost by naive_solver.
Qed.

(** The result of a step and what holds after it. *)
Definition steps_to ns tk R c w (x : blocking (Node K V * Worker K V)) : Prop :=
  ∃ n' wk' σ' D', x = Done (n', wk') ∧ read_inv (<[c := n']> ns) (upd2 tk c w (tasks wk')) (packets_of (c, w) wk' ++ R) σ' D'.

Lemma steps_to_intro ns tk F R σ D c w n' wk' :
  read_inv (<[c := n']> ns) (upd2 tk c w (tasks wk')) F σ D → F ≡ₚ packets_of (c, w) wk' ++ R →
  steps_to ns tk R c w (Done (n', wk')).
Proof. intros I HF. exists n', wk', σ, D. split; [done|]. by eapply read_inv_perm. Qed.

Lemma read_same ns tk F σ D c w n : read_inv ns tk F σ D → (c < N)%nat → (w < W)%nat → ns !! c = Some n →
  read_inv (<[c := n]> ns) (upd2 tk c w (tk c w)) F σ D.
Proof.
  intros I Hc Hw Hn. apply (read_quiet ns tk F σ D c w n n (tk c w)); try done;
    [by apply (ri_plan _ _ _ _ _ I)|by apply (ri_order _ _ _ _ _ I)|by intros t; apply (ri_task _ _ _ _ _ I)|by intros ????; eauto
    |by intros i ts' ?; apply (ri_head _ _ _ _ _ I c w i ts')].
Qed.

Lemma read_process ns tk F R σ D c w n wk ts :
  read_inv ns tk F σ D → (c < N)%nat → (w < W)%nat → ns !! c = Some n → tk c w = TProcess :: ts →
  F ≡ₚ packets_of (c, w) wk ++ R →
  steps_to ns tk R c w (process_request context c n wk ts).
Proof.
  intros I Hc Hw Hn Ht HF. unfold process_request. destruct (in_queue wk) as [|[src [|p ps]] q] eqn:Hq.
  - eapply steps_to_intro; [|exact HF].
    pose proof (ri_plan _ _ _ _ _ I c w Hc Hw) as Hp. rewrite Ht in Hp. by apply (read_tail ns tk F σ D c w n n TProcess).
  - eapply (steps_to_intro _ _ F); [rewrite <- Ht; by eapply read_same|]. rewrite packets_tasks, HF. apply Permutation_app_tail.
    rewrite (packets_in_nil (c, w) wk src q Hq). symmetry. apply flush_messages_spec.
  - rewrite (packets_in_cons (c, w) wk src p ps q Hq) in HF. set (wk0 := set_in wk _) in *.
    apply (read_inv_perm _ _ _ _ _ _ HF) in I. simpl in I. clear HF.
    pose proof (ri_flight _ _ _ _ _ I) as [Hpok _]%Forall_cons. destruct p; simpl handle_piece.
    + unfold search_request_handler. cbn [mbind blocking_bind fst snd].
      apply (read_search_request ns tk _ σ D c w n src r tid tid_offset key_offset) in I; [|done..].
      eapply steps_to_intro; [eapply read_same in I; [rewrite Ht in I; exact I|done..]|].
      by rewrite packets_tasks, packets_add.
    + destruct (search_response_spec ns tk _ σ D c w n wk0 src v tid tid_offset key_offset I Hn)
        as (f & li & r & Hj & -> & Hown & Hmid & Hab & ->). cbn [mbind blocking_bind fst snd].
      eapply steps_to_intro; [eapply read_search_response in I; [simpl app; rewrite <- Ht; exact I|done..]|done].
    + unfold reserve_request_handler. cbn [mbind blocking_bind fst snd].
      eapply steps_to_intro; [eapply read_reserve_request in I; [exact I|done..]|done].
    + by destruct Hpok.
    + by destruct Hpok.
    + by destruct Hpok.
    + by destruct Hpok.
    + by destruct Hpok.
    + by destruct Hpok.
Qed.

(** The counter of a transaction that has searched. *)
Lemma read_pending ns tk F σ D c n i : read_inv ns tk F σ D → (c < N)%nat → ns !! c = Some n → (i < B)%nat → σ c i = Mid →
  ∃ t, transactions n !! i = Some t ∧ abort_no_retry t = q_abort (Q c i) ∧ pendingResponses t = Z.of_nat (pending_for c i F).
Proof.
  intros I Hc Hn Hi Hmid. pose proof (ri_txn _ _ _ _ _ I c n i Hn Hc Hi) as Htx. rewrite Hmid in Htx. unfold txn_inv in Htx.
  destruct (q_abort (Q c i)); [destruct Htx as (Ht & Hp & _)|destruct Htx as (Ht & _)]; eexists; (split; [exact Ht|]); [|done].
  by rewrite Hp.
Qed.

(** The accesses to a word. *)
Lemma store_tid_word (m : gmap (row_id K) (Row V)) (r r' : row_id K) a : r_tid (search_row (store_tid m r a) r') = if decide (r = r') then a else r_tid (search_row m r').
Proof. unfold store_tid, search_row. rewrite lookup_insert. by case_decide. Qed.
Lemma store_tid_value (m : gmap (row_id K) (Row V)) (r r' : row_id K) a : r_value (search_row (store_tid m r a) r') = r_value (search_row m r').
Proof. unfold store_tid, search_row. rewrite lookup_insert. case_decide; [by subst|done]. Qed.

(** A task is replaced by others that reserve nothing. *)
Lemma read_expand ns tk F R σ D c w n wk t l ts :
  read_inv ns tk F σ D → (c < N)%nat → (w < W)%nat → ns !! c = Some n → tk c w = t :: ts → F ≡ₚ packets_of (c, w) wk ++ R →
  Forall (λ t, match t with TReserveRow _ _ _ _ | TSwapRow _ _ _ _ _ _ => False | _ => True end) (t :: l) →
  plan c w (σ c) (l ++ ts) → ordered (l ++ ts) → (∀ i ts', l ++ ts ≠ TReserveTxn i :: ts') →
  steps_to ns tk R c w (Done (n, set_tasks wk (l ++ ts))).
Proof.
  intros I Hc Hw Hn Ht HF [Hno Hl]%Forall_cons Hp Ho Hh. eapply (steps_to_intro _ _ F); [|exact HF].
  apply (read_more ns tk F σ D c w n t l ts I Hc Hw Hn Ht); try done.
  - intros t' Hin. pose proof (proj1 (Forall_forall _ _) Hl t' Hin) as Ht'. by destruct t'.
  - apply keeps_app. intros ???. by apply reserving_other.
Qed.

(** A task of a reservation is replaced by the other one. *)
Lemma read_retry ns tk F R σ D c w n wk r wr tid t t' ts :
  read_inv ns tk F σ D → (c < N)%nat → (w < W)%nat → ns !! c = Some n → tk c w = t :: ts → F ≡ₚ packets_of (c, w) wk ++ R →
  reserving r wr tid t → reserving r wr tid t' → task_ok c t' →
  steps_to ns tk R c w (Done (n, set_tasks wk (t' :: ts))).
Proof.
  intros I Hc Hw Hn Ht HF Hr Hr' Hok.
  pose proof (ri_plan _ _ _ _ _ I c w Hc Hw) as Hp. rewrite Ht in Hp.
  pose proof (ri_order _ _ _ _ _ I c w Hc Hw) as Ho. rewrite Ht in Ho.
  eapply (steps_to_intro _ _ F); [|exact HF]. simpl.
  apply (read_more ns tk F σ D c w n _ [t'] ts I Hc Hw Hn Ht); simpl app.
  - by destruct Hr as [->|(? & ? & ->)], Hr' as [->|(? & ? & ->)].
  - destruct Hr as [->|(? & ? & ->)], Hr' as [->|(? & ? & ->)]; (split; [|apply Ho]);
      destruct Ho as [Ho _]; by destruct ts as [|[] ?].
  - by intros t1 ->%list_elem_of_singleton.
  - intros r1 wr1 tid1 t1 [->|Hin]%elem_of_cons Hr1; [|exists t1; by split; [right|]].
    exists t'. split; [by left|]. by destruct Hr as [->|(? & ? & ->)], Hr1 as [[=]|(? & ? & [=])]; simplify_eq.
  - intros i ts'. by destruct Hr' as [->|(? & ? & ->)].
Qed.

Lemma read_load ns tk F R σ D c w b n wk r wr e0 tid ts :
  read_inv ns tk F σ D → (c < N)%nat → (w < W)%nat → ns !! c = Some n → tk c w = TReserveRow r wr e0 tid :: ts →
  F ≡ₚ packets_of (c, w) wk ++ R →
  steps_to ns tk R c w (executor_step context master_coordinator next_transaction c w b n wk ts (TReserveRow r wr e0 tid)).
Proof.
  intros I Hc Hw Hn Ht HF. assert (task_ok c (TReserveRow r wr e0 tid)) as (-> & Hm & Hreal).
  { apply (ri_task _ _ _ _ _ I c w _ Hc Hw). rewrite Ht. by left. }
  destruct (reserve_returns ns tk F σ D c n r wr tid I Hc Hn Hreal) as (b1 & a1 & Hres & _).
  simpl. pose proof (reserve_round_reserve wr (r_tid (search_row (rows n) r)) e tid) as Hround.
  destruct (reserve_round wr e tid _) as [[nv|]|] eqn:Hrd.
  - eapply (read_retry _ _ _ _ _ _ _ _ _ _ r wr tid); try done; [by left|by right; eauto].
  - eapply (steps_to_intro _ _ F); [|exact HF]. simpl. eapply (read_reserved _ _ _ _ _ _ _ n n r wr tid); try done; by left.
  - by rewrite Hres in Hround.
Qed.

Lemma read_swap ns tk F R σ D c w b n wk r wr e0 tid o nv ts :
  read_inv ns tk F σ D → (c < N)%nat → (w < W)%nat → ns !! c = Some n → tk c w = TSwapRow r wr e0 tid o nv :: ts →
  F ≡ₚ packets_of (c, w) wk ++ R →
  steps_to ns tk R c w (executor_step context master_coordinator next_transaction c w b n wk ts (TSwapRow r wr e0 tid o nv)).
Proof.
  intros I Hc Hw Hn Ht HF. assert (task_ok c (TSwapRow r wr e0 tid o nv)) as (-> & Hm & Hreal & Hrd).
  { apply (ri_task _ _ _ _ _ I c w _ Hc Hw). rewrite Ht. by left. }
  simpl. destruct (_ && _) eqn:Hb.
  - apply andb_prop in Hb as [Ho%Z.eqb_eq _]. pose proof (reserve_round_reserve wr o e tid) as Hround. rewrite Hrd in Hround.
    eapply (steps_to_intro _ _ F); [|exact HF]. simpl.
    eapply (read_reserved _ _ _ _ _ _ _ n _ r wr tid _ _ true); try done; simpl.
    + by right; eauto.
    + by rewrite store_tid_word, decide_True, Ho.
    + intros r' Hne. by rewrite store_tid_word, decide_False.
    + intros r'. apply store_tid_value.
  - eapply (read_retry _ _ _ _ _ _ _ _ _ _ r wr tid); try done; [by right; eauto|by left].
Qed.

Lemma read_step ns tk F R σ D c w b n wk t ts :
  read_inv ns tk F σ D → (c < N)%nat → (w < W)%nat → ns !! c = Some n → tk c w = t :: ts →
  F ≡ₚ packets_of (c, w) wk ++ R →
  steps_to ns tk R c w (executor_step context master_coordinator next_transaction c w b n wk ts t).
Proof.
  intros I Hc Hw Hn Ht HF.
  pose proof (ri_plan _ _ _ _ _ I c w Hc Hw) as Hp. rewrite Ht in Hp.
  pose proof (ri_order _ _ _ _ _ I c w Hc Hw) as Ho. rewrite Ht in Ho.
  destruct (ri_nodes _ _ _ _ _ I c Hc) as (n0 & Hn0 & He & Hta & Hst). rewrite Hn in Hn0. injection Hn0 as <-.
  assert (∀ n', same_data n n' → plan c w (σ c) ts →
    match t with TWaitResponses _ | TReserveRow _ _ _ _ | TSwapRow _ _ _ _ _ _ => False | _ => True end →
    ∀ wk', tasks wk' = ts → packets_of (c, w) wk' ≡ₚ packets_of (c, w) wk → steps_to ns tk R c w (Done (n', wk'))) as Htail.
  { intros n' Hd Hp' Hok wk' Htk Hpk. eapply (steps_to_intro _ _ F); [|by rewrite HF, Hpk].
    rewrite Htk. by apply (read_tail ns tk F σ D c w n n' t). }
  destruct t; try done; simpl executor_step.
  - simpl in Hp. case_match; try done. rewrite decide_False by (rewrite Hst; naive_solver). rewrite decide_True by done.
    by apply Htail.
  - by apply Htail.
  - by apply Htail.
  - simpl in Hp. case_match; try done. rewrite decide_True by done.
    apply (read_expand ns tk F R σ D c w n wk _ [TProcess; TServe Aria_READ] ts I Hc Hw Hn Ht HF); [by repeat constructor|done|by split|done].
  - by apply (read_process ns tk F R σ D c w n wk ts).
  - apply Htail; try done. rewrite packets_tasks. apply flush_messages_spec.
  - apply Htail; try done. rewrite packets_tasks. case_decide; [apply flush_messages_spec|done].
  - by apply Htail.
  - destruct (execute_transaction _ _ _ _ _ _ _) as [n' wk'] eqn:Hex.
    destruct (read_execute ns tk F R σ D c w n wk i ts n' wk' I Hc Hw Hn Ht HF Hex) as [I' Htk].
    exists n', (set_tasks wk' ts), (upd2 σ c i Mid), D. done.
  - destruct Hp as ((Hi & Hm) & Hmid & Hp). destruct (read_pending ns tk F σ D c n i I Hc Hn Hi Hmid) as (t & -> & Hab & _).
    destruct (abort_no_retry t).
    + eapply (steps_to_intro _ _ F); [|exact HF]. by apply read_skip.
    + apply (read_expand ns tk F R σ D c w n (set_count wk _) _ [TWaitResponses i; TReserveTxn i; TFlushIf] ts I Hc Hw Hn Ht HF); [by repeat constructor|by split_and!| |done].
      split; [done|]. split; [done|]. split; [|apply Ho]. destruct Ho as [Ho1 _]. by destruct ts as [|[] ?].
  - destruct (read_reserve_txn ns tk F R σ D c w b n wk i ts I Hc Hw Hn Ht HF) as (n' & wk' & ts' & Hex & I').
    simpl in Hex. rewrite Hex. by exists n', (set_tasks wk' ts'), (upd2 σ c i Post), D.
  - destruct Hp as ((Hi & Hm) & Hmid & Hp). destruct (read_pending ns tk F σ D c n i I Hc Hn Hi Hmid) as (t & -> & _ & ->).
    destruct (Z.ltb_spec 0 (Z.of_nat (pending_for c i F))).
    + apply (read_expand ns tk F R σ D c w n wk _ [TProcess; TWaitResponses i] ts I Hc Hw Hn Ht HF); [by repeat constructor|by split_and!|by split|done].
    + eapply (steps_to_intro _ _ F); [|exact HF]. simpl. apply (read_quiet ns tk F σ D c w n); try done; [apply Ho|..].
      * intros t' Hin. apply (ri_task _ _ _ _ _ I c w t' Hc Hw). rewrite Ht. by constructor.
      * rewrite Ht. apply keeps_tail. intros ???. by apply reserving_other.
      * intros j ts' ->. destruct Ho as [[= ->] _]. lia.
  - by apply (read_load ns tk F R σ D c w b).
  - by apply (read_swap ns tk F R σ D c w b).
Qed.

End read.
