(* ===== verification/AriaReadPhase.v ===== *)
(** * Aria: the outcome of the read phase

    From the start of the phase to the point where all executors serve and no
    message is left. *)

From S2P Require Import Prelude Bits AriaHelper AriaTxn AriaSystem AriaFlight AriaPhase AriaExec AriaRead.

(** ** Reservations found in a word *)

Section found.
Context {A : Type} `{Countable A} (e : Z).
Implicit Types (cs : list (call A)).

Lemma min_tid_found w cs tid : Forall call_ok cs →
  ((min_tid w cs <? tid) && negb (min_tid w cs =? 0) = true)%Z ↔ ∃ x, x ∈ cs ∧ c_write x = w ∧ c_tid x < tid.
Proof.
  intros Hcs. rewrite andb_true_iff, Z.ltb_lt, negb_true_iff, Z.eqb_neq.
  induction Hcs as [|x cs Hx Hcs IH]; simpl; [split; [by intros []|by intros (? & ?%not_elem_of_nil & _)]|].
  unfold call_ok, tid_ok in Hx. pose proof (min_tid_nonneg w cs Hcs) as Hm.
  assert ((∃ y, y ∈ x :: cs ∧ c_write y = w ∧ c_tid y < tid) ↔
    (c_write x = w ∧ c_tid x < tid) ∨ ∃ y, y ∈ cs ∧ c_write y = w ∧ c_tid y < tid) as ->.
  { setoid_rewrite elem_of_cons. naive_solver. }
  rewrite <- IH. destruct (eqb (c_write x) w) eqn:Hw.
  - apply eqb_prop in Hw. unfold min0. destruct (Z.eqb_spec (c_tid x) 0); [lia|]. destruct (Z.eqb_spec (min_tid w cs) 0) as [->|].
    + split; [intros [? _]; by left|]. intros [[_ ?]|[_ ?]]; lia.
    + split; [|intros [[_ ?]|[? ?]]; lia]. intros [? _]. destruct (Z.min_spec (c_tid x) (min_tid w cs)) as [[_ ?]|[_ ?]]; [left; split; [done|lia]|right; lia].
  - apply eqb_false_iff in Hw. split; [by right|]. by intros [[? _]|].
Qed.

Lemma found_write a0 cs a tid : get_epoch a0 < e → Forall call_ok cs → word_after e a0 cs a →
  found a e (get_wts a) tid = true ↔ ∃ x, x ∈ cs ∧ c_write x = true ∧ c_tid x < tid.
Proof.
  intros Ha Hcs (_ & Hnil & Hcons). rewrite <- min_tid_found by done. unfold found. destruct cs as [|x cs].
  - rewrite Hnil by done. destruct (Z.eqb_spec (get_epoch a0) e); [lia|]. simpl. by rewrite andb_false_r.
  - destruct Hcons as (-> & _ & ->); [done|]. rewrite Z.eqb_refl. unfold wts_in. destruct (Z.eqb_spec (get_epoch a0) e); [lia|done].
Qed.

Lemma found_read a0 cs a tid : get_epoch a0 < e → Forall call_ok cs → word_after e a0 cs a →
  found a e (get_rts a) tid = true ↔ ∃ x, x ∈ cs ∧ c_write x = false ∧ c_tid x < tid.
Proof.
  intros Ha Hcs (_ & Hnil & Hcons). rewrite <- min_tid_found by done. unfold found. destruct cs as [|x cs].
  - rewrite Hnil by done. destruct (Z.eqb_spec (get_epoch a0) e); [lia|]. simpl. by rewrite andb_false_r.
  - destruct Hcons as (-> & -> & _); [done|]. rewrite Z.eqb_refl. unfold rts_in. destruct (Z.eqb_spec (get_epoch a0) e); [lia|done].
Qed.

End found.

(** ** The program of an executor in the read phase *)

Section read_phase.
Context {K V : Type} `{Countable K} `{Inhabited V} (context : AriaContext) (master_coordinator : Z → nat).
Context (next_transaction : nat → Z → nat → Query K V) (e : Z).
Notation N := (coordinator_num context).
Notation W := (worker_num context).
Notation B := (batch_size context).
Notation master := (master master_coordinator).
Notation Q c i := (next_transaction c e i).
Notation plan := (plan context next_transaction e).
Implicit Types (s : System K V).

(** What is left when an executor serves the others. *)
Definition read_done (w : nat) : list (task K) :=
  [TServe Aria_READ; TProcess; TCompleted] ++
  [TAwait Aria_COMMIT; TStarted] ++ commit_transactions context w ++ [TCompleted; TServe Aria_COMMIT; TProcess; TCompleted; TLoop].

Lemma executor_start_eq w :
  executor_start context w = [TAwait Aria_READ; TStarted] ++ read_snapshot context w ++ [TCompleted] ++ read_done w.
Proof. done. Qed.

Lemma stripe_elem w i : (w < W)%nat → i ∈ stripe context w ↔ owned context w i.
Proof.
  intros Hw. unfold stripe, owned. rewrite list_elem_of_filter, (Nat.mod_small w) by done.
  assert (i ∈ drop w (seq 0 B) ↔ (w ≤ i < B)%nat) as ->.
  { rewrite drop_seq, elem_of_seq. lia. }
  split; [lia|]. intros [Hi Hm]. split; [done|]. split; [|done]. rewrite <- Hm. apply Nat.Div0.mod_le.
Qed.

Lemma stripe_NoDup w : NoDup (stripe context w).
Proof. unfold stripe. apply NoDup_filter. rewrite drop_seq. apply NoDup_seq. Qed.

Lemma plan_executes c w l : ∀ (s : nat → stage) rest, NoDup l → (∀ i, i ∈ l → owned context w i ∧ s i = Pre) → plan c w (all_at l Mid s) rest →
  plan c w s ((l ≫= λ i, [TProcess; TExecute i; TFlushIf]) ++ rest).
Proof.
  induction l as [|i l IH]; intros s rest Hnd Hl Hp; simpl.
  - eapply plan_ext; [|exact Hp]. intros j _. unfold all_at. by rewrite decide_False by apply not_elem_of_nil.
  - apply NoDup_cons in Hnd as [Hi Hnd]. split_and!; [apply Hl; by left..|]. apply IH; [done| |].
    + intros j Hj. rewrite upd_ne by (intros ->; done). apply Hl. by right.
    + eapply plan_ext; [|exact Hp]. intros j _. by apply all_at_cons.
Qed.

Lemma plan_reserves c w l : ∀ (s : nat → stage) rest, NoDup l → (∀ i, i ∈ l → owned context w i ∧ s i = Mid) → plan c w (all_at l Post s) rest →
  plan c w s ((TReserve <$> l) ++ rest).
Proof.
  induction l as [|i l IH]; intros s rest Hnd Hl Hp; simpl.
  - eapply plan_ext; [|exact Hp]. intros j _. unfold all_at. by rewrite decide_False by apply not_elem_of_nil.
  - apply NoDup_cons in Hnd as [Hi Hnd]. split_and!; [apply Hl; by left..|]. apply IH; [done| |].
    + intros j Hj. rewrite upd_ne by (intros ->; done). apply Hl. by right.
    + eapply plan_ext; [|exact Hp]. intros j _. by apply all_at_cons.
Qed.

Lemma plan_start c w : (w < W)%nat → plan c w (λ _, Pre) (executor_start context w).
Proof.
  intros Hw. rewrite executor_start_eq. unfold read_snapshot. simpl. rewrite <- app_assoc. simpl.
  apply plan_executes; [apply stripe_NoDup|intros i Hi; split; [by apply stripe_elem|done]|]. simpl. rewrite <- app_assoc.
  apply plan_reserves; [apply stripe_NoDup| |].
  - intros i Hi. split; [by apply stripe_elem|]. unfold all_at. by rewrite decide_True.
  - simpl. intros i Hi%stripe_elem; [|done]. unfold all_at. by rewrite decide_True.
Qed.

(** Tasks that no step makes are not in the program. *)
Lemma executor_start_tasks w (t : task K) : t ∈ executor_start context w →
  match t with TReserveTxn _ | TDecide _ | TWrite _ _ | TWaitResponses _ | TReserveRow _ _ _ _ | TSwapRow _ _ _ _ _ _ => False | _ => True end.
Proof.
  revert t. apply Forall_forall. unfold executor_start, read_snapshot, commit_transactions.
  rewrite !Forall_app. split_and!; try (by repeat constructor).
  - apply Forall_bind, Forall_forall. intros i _. by repeat constructor.
  - apply Forall_fmap, Forall_forall. by intros i _.
  - apply Forall_fmap, Forall_forall. by intros i _.
  - apply Forall_fmap, Forall_forall. by intros i _.
Qed.

(** ** The start of the phase *)

Definition node_of s (c : nat) : Node K V := default (new_node ∅) (nodes s !! c).
Definition value_at s (c : nat) (r : row_id K) : V := r_value (search_row (rows (node_of s c)) r).
Definition word_at s (c : nat) (r : row_id K) : Z := r_tid (search_row (rows (node_of s c)) r).

(** The database: the rows at their masters. *)
Definition db_of s (r : row_id K) : V := value_at s (master r) r.

Record read_start s : Prop := {
  rs_nodes : ∀ c, is_Some (nodes s !! c) ↔ (c < N)%nat;
  rs_node : ∀ c, (c < N)%nat →
    n_epoch (node_of s c) = e ∧ total_abort (node_of s c) = 0%nat ∧ worker_status (node_of s c) = Aria_READ;
  rs_words : ∀ c r, (c < N)%nat → is_u64 (word_at s c r) ∧ get_epoch (word_at s c r) < e;
  rs_index : ∀ c i j r v, (c < N)%nat → (i < B)%nat → q_searches (Q c i) !! j = Some (true, r, v) → value_at s c r = db_of s r;
  rs_tasks : ∀ c w, (c < N)%nat → (w < W)%nat → tk_of s c w = executor_start context w;
  rs_packets : exec_flight context s = []
}.

Notation read_inv s := (read_inv context master_coordinator next_transaction e (value_at s) (word_at s)
  (λ c i, storage_of (node_of s c) i) (db_of s)).
Notation batch_ok := (batch_ok context master_coordinator next_transaction e).

Lemma node_of_eq s c n : nodes s !! c = Some n → node_of s c = n.
Proof. intros Hn. unfold node_of. by rewrite Hn. Qed.

Lemma read_start_ok s : read_start s → start_ok context master_coordinator next_transaction e (value_at s) (word_at s) (db_of s).
Proof. intros []. by split. Qed.

Lemma read_start_inv s : read_start s →
  read_inv s (nodes s) (tk_of s) (exec_flight context s) (λ _ _, Pre) [].
Proof.
  intros Hs. rewrite (rs_packets _ Hs). split; try done.
  - intros c. by apply (rs_nodes _ Hs).
  - intros c Hc. destruct (proj2 (rs_nodes _ Hs c) Hc) as [n Hn]. exists n. split; [done|].
    pose proof (rs_node _ Hs c Hc) as Hok. by rewrite (node_of_eq _ _ _ Hn) in Hok.
  - intros c w Hc Hw. rewrite (rs_tasks _ Hs) by done. by apply plan_start.
  - intros c w Hc Hw. rewrite (rs_tasks _ Hs) by done. apply ordered_none. by intros i; split; intros Hi%executor_start_tasks.
  - intros c w t Hc Hw. rewrite (rs_tasks _ Hs) by done. intros Ht%executor_start_tasks. by destruct t.
  - intros c n i Hn Hc Hi. split; [done|]. by rewrite (node_of_eq _ _ _ Hn).
  - intros c n r Hn Hc. unfold value_at. by rewrite (node_of_eq _ _ _ Hn).
  - intros c n r Hn Hc. pose proof (rs_words _ Hs c r Hc) as [Hu _]. unfold word_at in *. rewrite (node_of_eq _ _ _ Hn) in *.
    by split.
Qed.

(** ** Its end *)

(** All executors serve, and their packets are delivered and handled. *)
Definition read_finished s : Prop :=
  (∀ c w, (c < N)%nat → (w < W)%nat → tk_of s c w = read_done w) ∧ exec_flight context s = [].

(** What a transaction has in its storage when it has searched. *)
Definition read_fields (q : Query K V) (db : row_id K → V) (st : storage V) : storage V :=
  foldr (λ x st, <[x.2 := db x.1.2]> st) st (q_searches q).

Lemma fields_read_eq c q db st0 st : query_ok q → fields_read master_coordinator c true q db st0 st → st = read_fields q db st0.
Proof.
  intros Hq [Hf Hf0]. pose proof (qo_fields _ Hq) as Hnd. unfold read_fields. apply map_eq. intros f.
  assert (∀ l, NoDup l.*2 → foldr (λ (x : bool * row_id K * nat) st, <[x.2 := db x.1.2]> st) st0 l !! f =
    match list_find (λ x, x.2 = f) l with Some (_, x) => Some (db x.1.2) | None => st0 !! f end) as Hfold.
  { clear. induction l as [|x l IH]; [done|]. simpl. rewrite NoDup_cons. intros [_ Hnd]. destruct (decide (x.2 = f)) as [->|Hne].
    - by rewrite lookup_insert_eq.
    - rewrite lookup_insert_ne, IH by done. by destruct (list_find _ l) as [[]|]. }
  rewrite Hfold by done. destruct (list_find _ _) as [[j [[li r] v]]|] eqn:Hfind.
  - apply list_find_Some in Hfind as (Hj & <- & _). simpl. by apply (Hf j li r v Hj).
  - apply list_find_None in Hfind. apply Hf0. intros (x & Hx & Hin)%list_elem_of_fmap.
    rewrite Forall_forall in Hfind. by apply (Hfind x Hin).
Qed.

Notation txn_id := (txn_id context).
Notation reservations := (reservations context).

(** Some transaction with a smaller id reserves a read or a write of the row. *)
Definition reserved_before (r : row_id K) (wr : bool) (tid : Z) : Prop :=
  ∃ c i, (c < N)%nat ∧ (i < B)%nat ∧ q_abort (Q c i) = false ∧ (r, wr) ∈ reservations (Q c i) ∧ txn_id c i < tid.

(** The batch has been executed on the state of [s]: the values are unchanged,
    the transactions are ready, and the words tell who reserved first. *)
Record executed s s' : Prop := {
  ex_nodes : ∀ c, is_Some (nodes s' !! c) ↔ (c < N)%nat;
  ex_node : ∀ c, (c < N)%nat → n_epoch (node_of s' c) = e ∧ total_abort (node_of s' c) = 0%nat;
  ex_values : ∀ c r, (c < N)%nat → value_at s' c r = value_at s c r;
  ex_aborted : ∀ c i, (c < N)%nat → (i < B)%nat → q_abort (Q c i) = true →
    transactions (node_of s' c) !! i = Some (aborted_txn context c i e (Q c i));
  ex_ready : ∀ c i, (c < N)%nat → (i < B)%nat → q_abort (Q c i) = false →
    transactions (node_of s' c) !! i = Some (second_txn context c i e 0 (Q c i) false false false) ∧
    storage_of (node_of s' c) i = q_compute (Q c i) true (read_fields (Q c i) (db_of s) (storage_of (node_of s c) i));
  ex_writes : ∀ r tid, let a := word_at s' (master r) r in found a e (get_wts a) tid = true ↔ reserved_before r true tid;
  ex_reads : ∀ r tid, let a := word_at s' (master r) r in found a e (get_rts a) tid = true ↔ reserved_before r false tid
}.

Lemma read_done_tasks w t : t ∈ read_done w →
  match t with TReserveTxn _ | TDecide _ | TWrite _ _ | TWaitResponses _ | TReserveRow _ _ _ _ | TSwapRow _ _ _ _ _ _ => False | _ => True end.
Proof. intros Ht. apply (executor_start_tasks w). rewrite executor_start_eq. set_solver. Qed.

(** Every reservation was made. *)
Lemma finished_calls s s' σ D r wr tid : batch_ok → read_finished s' →
  read_inv s (nodes s') (tk_of s') (exec_flight context s') σ D →
  (∃ x, x ∈ calls_at (master r, r) D ∧ c_write x = wr ∧ c_tid x < tid) ↔ reserved_before r wr tid.
Proof.
  intros Hb [Ht HF] I. split.
  - intros (x & [Hr Hx]%list_elem_of_filter & Hw & Htid). pose proof (ri_done _ _ _ _ _ _ _ _ _ _ _ _ _ I) as HD.
    rewrite Forall_forall in HD. destruct (HD x Hx) as (c & i & r' & wr' & Hc & Hi & Ha & Hres & ->). simpl in *.
    injection Hr as _ ->. subst wr'. by exists c, i.
  - intros (c & i & Hc & Hi & Ha & Hres & Htid). exists (mkCall (master r, r) wr (txn_id c i)). split_and!; try done.
    apply list_elem_of_filter. split; [done|].
    assert (σ c i = Post) as Hpost.
    { pose proof (bo_workers _ _ _ _ Hb) as HW. assert (i `mod` W < W)%nat as Hm by (apply Nat.mod_upper_bound; lia).
      pose proof (ri_plan _ _ _ _ _ _ _ _ _ _ _ _ _ I c (i `mod` W) Hc Hm) as Hp. rewrite Ht in Hp by done. by apply Hp. }
    destruct (ri_cover _ _ _ _ _ _ _ _ _ _ _ _ _ I c i r wr Hc Hi Hpost Ha Hres) as [|[(w & t & Hw & Hin & Hr)|(src & w & Hin)]]; [done|..].
    + rewrite Ht in Hin by (done || apply Hb). apply read_done_tasks in Hin. by destruct Hr as [->|(? & ? & ->)].
    + rewrite HF in Hin. by apply not_elem_of_nil in Hin.
Qed.

Lemma finished_executed s s' σ D : batch_ok → read_start s → read_finished s' →
  read_inv s (nodes s') (tk_of s') (exec_flight context s') σ D → executed s s'.
Proof.
  intros Hb Hs Hfin I. pose proof (bo_workers _ _ _ _ Hb) as HW. destruct Hfin as [Ht HF] eqn:Hfe. clear Hfe.
  assert (∀ c i, (c < N)%nat → (i < B)%nat → txn_inv context master_coordinator next_transaction e
    (λ c i, storage_of (node_of s c) i) (db_of s) (node_of s' c) [] c i Post) as Htx.
  { intros c i Hc Hi. assert (i `mod` W < W)%nat as Hm by (apply Nat.mod_upper_bound; lia).
    pose proof (ri_plan _ _ _ _ _ _ _ _ _ _ _ _ _ I c (i `mod` W) Hc Hm) as Hp. rewrite Ht in Hp by done.
    destruct (ri_nodes _ _ _ _ _ _ _ _ _ _ _ _ _ I c Hc) as (n & Hn & _). rewrite (node_of_eq _ _ _ Hn).
    pose proof (ri_txn _ _ _ _ _ _ _ _ _ _ _ _ _ I c n i Hn Hc Hi) as Hx. rewrite HF in Hx. simpl in Hp. by rewrite Hp in Hx. }
  assert (∀ r : row_id K, (master r < N)%nat) as Hmr by (intros r; apply Hb).
  assert (∀ r, word_after e (word_at s (master r) r) (calls_at (master r, r) D) (word_at s' (master r) r)) as Hwa.
  { intros r. destruct (ri_nodes _ _ _ _ _ _ _ _ _ _ _ _ _ I (master r) (Hmr r)) as (n & Hn & _).
    unfold word_at at 2. rewrite (node_of_eq _ _ _ Hn). by apply (ri_words _ _ _ _ _ _ _ _ _ _ _ _ _ I). }
  assert (∀ r, Forall call_ok (calls_at (master r, r) D)) as Hcs.
  { intros r. eapply calls_ok; [done|]. apply I. }
  split.
  - intros c. split; [apply I|]. intros Hc. destruct (ri_nodes _ _ _ _ _ _ _ _ _ _ _ _ _ I c Hc) as (n & Hn & _). by eexists.
  - intros c Hc. destruct (ri_nodes _ _ _ _ _ _ _ _ _ _ _ _ _ I c Hc) as (n & Hn & He & Hta & _). by rewrite (node_of_eq _ _ _ Hn).
  - intros c r Hc. destruct (ri_nodes _ _ _ _ _ _ _ _ _ _ _ _ _ I c Hc) as (n & Hn & _). unfold value_at at 1.
    rewrite (node_of_eq _ _ _ Hn). by apply (ri_values _ _ _ _ _ _ _ _ _ _ _ _ _ I).
  - intros c i Hc Hi Ha. pose proof (Htx c i Hc Hi) as Hx. unfold txn_inv in Hx. rewrite Ha in Hx. apply Hx.
  - intros c i Hc Hi Ha. pose proof (Htx c i Hc Hi) as Hx. unfold txn_inv in Hx. rewrite Ha in Hx.
    destruct Hx as (Hx & _ & st & Hst & ->). split; [done|]. f_equal. eapply fields_read_eq; [by apply Hb|done].
  - intros r tid a. rewrite (found_write e (word_at s (master r) r) (calls_at (master r, r) D)); [|by apply Hs|done|done].
    by apply (finished_calls s s' σ D).
  - intros r tid a. rewrite (found_read e (word_at s (master r) r) (calls_at (master r, r) D)); [|by apply Hs|done|done].
    by apply (finished_calls s s' σ D).
Qed.

Notation run_phase := (run_phase context master_coordinator next_transaction).
Notation step := (step context master_coordinator next_transaction).

(** The read phase: no executor stops the process, and when the phase is over
    the batch has been executed on the state at its start. *)
Lemma read_phase s evs s' : batch_ok → read_start s → run_phase s evs = Done s' →
  (∀ c w b, (w < W)%nat → step s' (Run c w b) ≠ Crash) ∧ (read_finished s' → executed s s').
Proof.
  intros Hb Hs Hrun. pose proof (read_start_ok s Hs) as Hso.
  destruct (phase_inv context master_coordinator next_transaction
    (λ ns tk F, ∃ σ D, read_inv s ns tk F σ D)) with (s := s) (evs := evs) (s' := s') as [(σ & D & I) Hcrash]; [..|done|].
  - intros ns tk tk' F F' Htk HF (σ & D & I). exists σ, D. eapply read_inv_perm; [exact HF|]. by eapply read_inv_tasks.
  - intros ns tk F c (σ & D & I). apply I.
  - intros ns tk F R c w b n wk t ts (σ & D & I) Hc Hw Hn Ht HF.
    destruct (read_step _ _ _ _ _ _ _ _ Hb Hso ns tk F R σ D c w b n wk t ts I Hc Hw Hn Ht HF) as (n' & wk' & σ' & D' & ? & ?).
    exists n', wk'. split; [done|]. by exists σ', D'.
  - exists (λ _ _, Pre), []. by apply read_start_inv.
  - split; [done|]. intros Hfin. by eapply finished_executed.
Qed.

End read_phase.
