(* ===== verification/AriaCommit.v ===== *)
(** * Aria: the commit phase

    All workers of all nodes run [commit_transactions] and serve each other's
    requests, in any interleaving and with any delay of messages.  When all have
    finished and no message is left, every row has the value of the transaction
    that committed a write of it, if there is one. *)

From S2P Require Import Prelude Bits AriaHelper AriaTxn AriaSystem AriaFlight AriaPhase AriaExec AriaCheck.

Section commit.
Context {K V : Type} `{Countable K} `{Inhabited V} (context : AriaContext) (master_coordinator : Z → nat).
Context (next_transaction : nat → Z → nat → Query K V) (e : Z).
Notation packet := (nat * nat * nat * piece K V)%type.
Notation N := (coordinator_num context).
Notation W := (worker_num context).
Notation B := (batch_size context).
Notation master := (master master_coordinator).
Notation owned := (owned context).
Notation txn_id := (txn_id context).
Notation reservations := (reservations context).
Notation aborted_txn := (aborted_txn context).
Notation second_txn := (second_txn context).
Notation Q c i := (next_transaction c e i).

(** What the phase starts from: the values and the words of the rows at each
    node, and the storages of the transactions. *)
Context (val1 : nat → row_id K → V) (word1 : nat → row_id K → Z) (st1 : nat → nat → storage V).

(** ** The outcome of the analysis *)

Definition conflict_at (k : conflict) (r : row_id K) (tid : Z) : bool :=
  let a := word1 (master r) r in
  match k with Waw | Raw => found a e (get_wts a) tid | War => found a e (get_rts a) tid end.

Definition expected (k : conflict) (c i : nat) : bool :=
  existsb (λ x, eqb x.2 (of_write k) && conflict_at k x.1 (txn_id c i)) (reservations (Q c i)).

Definition decided_txn (c i : nat) : AriaTransaction K V :=
  second_txn c i e 0 (Q c i) (expected Waw c i) (expected War c i) (expected Raw c i).

Definition commits (c i : nat) : bool := negb (q_abort (Q c i)) && (decision context (decided_txn c i)).1.

(** A committed transaction writes [v] to the row. *)
Definition due (r : row_id K) (v : V) : Prop :=
  ∃ c i j f, (c < N)%nat ∧ (i < B)%nat ∧ commits c i = true ∧ q_updates (Q c i) !! j = Some (r, f) ∧ v = field (st1 c i) f.

Record commit_ok : Prop := {
  co_workers : (0 < W)%nat;
  co_master : ∀ p, (master_coordinator p < N)%nat;
  co_ids : ∀ c i, (c < N)%nat → (i < B)%nat → uint 32 (txn_id c i) = txn_id c i;
  co_queries : ∀ c i, (c < N)%nat → (i < B)%nat → query_ok (Q c i);
  co_unique : ∀ r v v', due r v → due r v' → v = v'
}.

(** ** Packets *)

(** The check in a packet finds, or has found, a conflict. *)
Definition carries (k : conflict) (x : packet) : bool :=
  match x.2 with
  | CheckRequest r tid _ _ wr => eqb wr (of_write k) && conflict_at k r tid
  | CheckResponse _ _ wr a b d => eqb wr (of_write k) && match k with Waw => a | War => b | Raw => d end
  | _ => false
  end.

Definition carried (k : conflict) (c i : nat) (F : list packet) : Prop :=
  ∃ x, x ∈ F ∧ concerns c i x = true ∧ carries k x = true.

Definition packet_ok (σ : nat → nat → stage) (x : packet) : Prop :=
  let '(src, dst, w, p) := x in
  match p with
  | CheckRequest r tid off e' wr =>
      (src < N)%nat ∧ (off < B)%nat ∧ w = (off `mod` W)%nat ∧ σ src off = Mid ∧ q_abort (Q src off) = false ∧
      tid = txn_id src off ∧ e' = e ∧ dst = master r
  | CheckResponse tid off wr _ _ _ =>
      (dst < N)%nat ∧ (off < B)%nat ∧ w = (off `mod` W)%nat ∧ σ dst off = Mid ∧ q_abort (Q dst off) = false ∧
      tid = txn_id dst off
  | WriteRequest r v => (w < W)%nat ∧ dst = master r ∧ due r v
  | _ => False
  end.

(** ** Tasks *)

Fixpoint plan (c w : nat) (σ : nat → stage) (ts : list (task K)) : Prop :=
  match ts with
  | TAnalyze i :: ts => owned w i ∧ σ i = Pre ∧ plan c w (upd σ i Mid) ts
  | TCommit i :: ts => owned w i ∧ σ i = Mid ∧ plan c w (upd σ i Post) ts
  | TDecide i :: ts => owned w i ∧ σ i = Mid ∧ q_abort (Q c i) = false ∧ plan c w (upd σ i Post) ts
  | TWaitResponses i :: ts => owned w i ∧ σ i = Mid ∧ q_abort (Q c i) = false ∧ plan c w σ ts
  | (TAwait Aria_COMMIT | TStarted | TCompleted | TProcess | TFlush | TFlushIf | TCount0 | TWrite _ _) :: ts => plan c w σ ts
  | TServe Aria_COMMIT :: _ => ∀ i, owned w i → σ i = Post
  | _ => False
  end.

(** ** The invariant *)

Definition txn_inv (n : Node K V) (F : list packet) (c i : nat) (s : stage) : Prop :=
  let q := Q c i in
  let p := pending_for c i F in
  if q_abort q then transactions n !! i = Some (aborted_txn c i e q) ∧ p = 0%nat
  else
    storage_of n i = st1 c i ∧
    ∃ a b d, let t := second_txn c i e (Z.of_nat p) q a b d in
      transactions n !! i = Some t ∧ (p ≤ length (q_searches q) + length (q_updates q))%nat ∧
      match s with
      | Pre => p = 0%nat ∧ ∀ k, flag k t = false
      | Mid => ∀ k, expected k c i = true ↔ flag k t = true ∨ carried k c i F
      | Post => p = 0%nat ∧ ∀ k, flag k t = expected k c i
      end.

(** A write of a committed transaction is still to be done. *)
Definition to_write (tk : nat → nat → list (task K)) (F : list packet) (c i j : nat) (r : row_id K) (v : V) : Prop :=
  TWrite i j ∈ tk c (i `mod` W)%nat ∨ ∃ src w, (src, master r, w, WriteRequest r v) ∈ F.

Record commit_inv (ns : gmap nat (Node K V)) (tk : nat → nat → list (task K)) (F : list packet) (σ : nat → nat → stage) : Prop := {
  ci_dom : ∀ c, is_Some (ns !! c) → (c < N)%nat;
  ci_nodes : ∀ c, (c < N)%nat → ∃ n, ns !! c = Some n ∧ worker_status n = Aria_COMMIT;
  ci_plan : ∀ c w, (c < N)%nat → (w < W)%nat → plan c w (σ c) (tk c w);
  ci_order : ∀ c w, (c < N)%nat → (w < W)%nat → ordered (tk c w);
  ci_task : ∀ c w i j, (c < N)%nat → (w < W)%nat → TWrite i j ∈ tk c w → owned w i ∧ σ c i = Post ∧ commits c i = true;
  ci_head : ∀ c w i ts, (c < N)%nat → (w < W)%nat → tk c w = TDecide i :: ts → pending_for c i F = 0%nat;
  ci_txn : ∀ c n i, ns !! c = Some n → (c < N)%nat → (i < B)%nat → txn_inv n F c i (σ c i);
  ci_flight : Forall (packet_ok σ) F;
  ci_words : ∀ c n r, ns !! c = Some n → (c < N)%nat → r_tid (search_row (rows n) r) = word1 c r;
  ci_values : ∀ c n r, ns !! c = Some n → (c < N)%nat →
    r_value (search_row (rows n) r) = val1 c r ∨ master r = c ∧ due r (r_value (search_row (rows n) r));
  ci_cover : ∀ c i j r f, (c < N)%nat → (i < B)%nat → σ c i = Post → commits c i = true →
    q_updates (Q c i) !! j = Some (r, f) →
    (∃ n, ns !! master r = Some n ∧ r_value (search_row (rows n) r) = field (st1 c i) f) ∨
    to_write tk F c i j r (field (st1 c i) f)
}.

Hypothesis Hok : commit_ok.
Implicit Types (F R : list packet) (σ : nat → nat → stage) (n : Node K V) (ts : list (task K)).

(** ** Frames *)

Lemma commit_plan_ext c w (s s' : nat → stage) ts : (∀ i, owned w i → s i = s' i) → plan c w s ts → plan c w s' ts.
Proof.
  revert s s'. induction ts as [|t ts IH]; intros s s' Hs; [done|].
  assert (∀ i x j, owned w j → upd s i x j = upd s' i x j) as Hu.
  { intros i x j Hj. unfold upd. case_decide; [done|by apply Hs]. }
  destruct t; simpl; try done; try by apply IH.
  - case_match; try done. by apply IH.
  - case_match; try done. intros Hp i Hi. rewrite <- Hs by done. by apply Hp.
  - intros (Ho & Hi & Ha & Hp). rewrite <- Hs by done. split_and!; try done. by eapply IH.
  - intros (Ho & Hi & Hp). rewrite <- Hs by done. split_and!; try done. eapply IH; [|done]. by apply Hu.
  - intros (Ho & Hi & Hp). rewrite <- Hs by done. split_and!; try done. eapply IH; [|done]. by apply Hu.
  - intros (Ho & Hi & Ha & Hp). rewrite <- Hs by done. split_and!; try done. eapply IH; [|done]. by apply Hu.
Qed.

Lemma expected_true k c i :
  expected k c i = true ↔ ∃ r, (r, of_write k) ∈ reservations (Q c i) ∧ conflict_at k r (txn_id c i) = true.
Proof.
  unfold expected. rewrite existsb_exists. split.
  - intros ([r wr] & Hin%list_elem_of_In & [Hwr%eqb_prop Hc]%andb_prop). simpl in *. subst wr. by exists r.
  - intros (r & Hr & Hc). exists (r, of_write k). split; [by apply list_elem_of_In|]. simpl. by rewrite eqb_reflx.
Qed.

Lemma carried_mono k c i F R : (∀ x, x ∈ F → concerns c i x = true → x ∈ R) → carried k c i F → carried k c i R.
Proof. intros HF (x & Hx & Hc & Hk). exists x. split; [by apply HF|done]. Qed.

Lemma carried_pending k c i F : carried k c i F → pending_for c i F ≠ 0%nat.
Proof. intros (x & Hx & Hc & _) Hz. by rewrite pending_for_0 in Hz; rewrite (Hz x Hx) in Hc. Qed.

#[local] Instance carried_perm k c i : Proper ((≡ₚ) ==> iff) (carried k c i).
Proof. intros F R HF. unfold carried. by setoid_rewrite HF. Qed.

Lemma commit_txn_frame n n' F R c i s :
  transactions n' !! i = transactions n !! i → storage_of n' i = storage_of n i →
  pending_for c i R = pending_for c i F → (∀ k, carried k c i R ↔ carried k c i F) →
  txn_inv n F c i s → txn_inv n' R c i s.
Proof.
  intros Ht Hs Hp Hk. unfold txn_inv. rewrite Ht, Hs, Hp. destruct (q_abort _); [done|].
  intros (Hst & a & b & d & Htx & Hl & Hm). split; [done|]. exists a, b, d. split; [done|]. split; [done|].
  destruct s; try done. intros k. by rewrite Hk.
Qed.

Lemma commit_packet_upd σ c i s x : concerns c i x = false → packet_ok σ x → packet_ok (upd2 σ c i s) x.
Proof.
  destruct x as [[[src dst] w] p]. unfold concerns. simpl. destruct p; try done; intros Hc%bool_decide_eq_false;
    intros (? & ? & ? & Hm & ?); (split; [done|]); (split; [done|]); (split; [done|]); (split; [by rewrite upd2_ne|done]).
Qed.

Lemma commit_flight_upd σ c i s F : pending_for c i F = 0%nat → Forall (packet_ok σ) F → Forall (packet_ok (upd2 σ c i s)) F.
Proof.
  rewrite pending_for_0, !Forall_forall. intros Hz HF x Hx. apply commit_packet_upd; [by apply Hz|by apply HF].
Qed.

Lemma commit_inv_perm ns tk F R σ : F ≡ₚ R → commit_inv ns tk F σ → commit_inv ns tk R σ.
Proof.
  intros HF []. split; try done.
  - intros c w i ts. rewrite <- HF. by eauto.
  - intros c n i Hn Hc Hi. apply (commit_txn_frame n n F R); [done|done|by rewrite HF|by intros k; rewrite HF|by apply ci_txn0].
  - by rewrite <- HF.
  - intros c i j r f Hc Hi Hs Hcm Hj. destruct (ci_cover0 c i j r f Hc Hi Hs Hcm Hj) as [|[|(src & w & Hin)]]; [by left|by right; left|].
    right. right. exists src, w. by rewrite <- HF.
Qed.

Lemma commit_inv_tasks ns tk tk' F σ : (∀ c w, (c < N)%nat → (w < W)%nat → tk c w = tk' c w) →
  commit_inv ns tk F σ → commit_inv ns tk' F σ.
Proof.
  intros Htk []. split; try done.
  - intros c w Hc Hw. rewrite <- Htk by done. by apply ci_plan0.
  - intros c w Hc Hw. rewrite <- Htk by done. by apply ci_order0.
  - intros c w i j Hc Hw. rewrite <- Htk by done. by apply ci_task0.
  - intros c w i ts Hc Hw. rewrite <- Htk by done. by apply ci_head0.
  - intros c i j r f Hc Hi Hs Hcm Hj. destruct (ci_cover0 c i j r f Hc Hi Hs Hcm Hj) as [|[Ht|]]; [by left| |by right; right].
    right. left. rewrite <- Htk; [done|done|]. apply Nat.mod_upper_bound. pose proof (co_workers Hok). lia.
Qed.

(** ** A step of worker [w] of node [c] *)

Definition concerned (c w c' i : nat) : Prop := c' = c ∧ owned w i.

Lemma commit_update ns tk F σ c w n n' ts' F' σ' :
  commit_inv ns tk F σ → (c < N)%nat → (w < W)%nat → ns !! c = Some n → worker_status n' = worker_status n →
  (∀ r, r_tid (search_row (rows n') r) = r_tid (search_row (rows n) r)) →
  (∀ r, r_value (search_row (rows n') r) = r_value (search_row (rows n) r) ∨ master r = c ∧ due r (r_value (search_row (rows n') r))) →
  (∀ c' i, ¬ concerned c w c' i → σ' c' i = σ c' i ∧ pending_for c' i F' = pending_for c' i F ∧
     ∀ k, carried k c' i F' ↔ carried k c' i F) →
  (∀ i, (i < B)%nat → ¬ owned w i → transactions n' !! i = transactions n !! i ∧ storage_of n' i = storage_of n i) →
  (∀ i, owned w i → txn_inv n' F' c i (σ' c i)) →
  plan c w (σ' c) ts' → ordered ts' →
  (∀ i j, TWrite i j ∈ ts' → owned w i ∧ σ' c i = Post ∧ commits c i = true) →
  (∀ i ts, ts' = TDecide i :: ts → pending_for c i F' = 0%nat) →
  Forall (packet_ok σ') F' →
  (∀ c' i j r f, (c' < N)%nat → (i < B)%nat → commits c' i = true → q_updates (Q c' i) !! j = Some (r, f) →
     to_write tk F c' i j r (field (st1 c' i) f) →
     master r = c ∧ r_value (search_row (rows n') r) = field (st1 c' i) f ∨
     to_write (upd2 tk c w ts') F' c' i j r (field (st1 c' i) f)) →
  (∀ i j r f, owned w i → σ' c i = Post → σ c i ≠ Post → commits c i = true → q_updates (Q c i) !! j = Some (r, f) →
     to_write (upd2 tk c w ts') F' c i j r (field (st1 c i) f)) →
  commit_inv (<[c := n']> ns) (upd2 tk c w ts') F' σ'.
Proof.
  intros I Hc Hw Hn Hst Hword Hval Hother Hdata Htxn Hplan Hord Htask Hhead Hflight Hto Hnew.
  assert (∀ c' w' i, ¬ (c' = c ∧ w' = w) → owned w' i → ¬ concerned c w c' i) as Hfar.
  { intros c' w' i Hne [_ <-] [-> [_ ?]]. by apply Hne. }
  split.
  - intros c' Hs. destruct (decide (c' = c)) as [->|Hne]; [done|]. rewrite lookup_insert_ne in Hs by done. by apply I.
  - intros c' Hc'. destruct (decide (c' = c)) as [->|Hne].
    + rewrite lookup_insert_eq. exists n'. destruct (ci_nodes _ _ _ _ I c Hc) as (n0 & Hn0 & ?). rewrite Hn in Hn0.
      injection Hn0 as <-. by rewrite Hst.
    + rewrite lookup_insert_ne by done. by apply I.
  - intros c' w' Hc' Hw'. destruct (decide (c' = c ∧ w' = w)) as [[-> ->]|Hne]; [by rewrite upd2_eq|].
    rewrite upd2_ne by done. eapply commit_plan_ext; [|by apply I]. intros i Hi. symmetry. by eapply Hother, Hfar.
  - intros c' w' Hc' Hw'. destruct (decide (c' = c ∧ w' = w)) as [[-> ->]|Hne]; [by rewrite upd2_eq|].
    rewrite upd2_ne by done. by apply I.
  - intros c' w' i j Hc' Hw'. destruct (decide (c' = c ∧ w' = w)) as [[-> ->]|Hne]; [rewrite upd2_eq; by apply Htask|].
    rewrite upd2_ne by done. intros Hin. destruct (ci_task _ _ _ _ I c' w' i j Hc' Hw' Hin) as (Ho & Hp & Hcm).
    split_and!; try done. by rewrite (proj1 (Hother c' i (Hfar c' w' i Hne Ho))).
  - intros c' w' i ts Hc' Hw'. destruct (decide (c' = c ∧ w' = w)) as [[-> ->]|Hne]; [rewrite upd2_eq; by apply Hhead|].
    rewrite upd2_ne by done. intros Ht. pose proof (ci_plan _ _ _ _ I c' w' Hc' Hw') as Hp. rewrite Ht in Hp.
    destruct Hp as (Ho & _). destruct (Hother c' i (Hfar c' w' i Hne Ho)) as (_ & -> & _).
    by apply (ci_head _ _ _ _ I c' w' i ts).
  - intros c' n1 i Hn1 Hc' Hi. destruct (decide (c' = c)) as [->|Hne].
    + rewrite lookup_insert_eq in Hn1. injection Hn1 as <-.
      destruct (decide (i `mod` W = w)%nat) as [Hm|Hm]; [by apply Htxn|].
      assert (¬ owned w i) as Ho by (by intros [_ ?]). destruct (Hother c i) as (-> & Hp & Hs); [by intros [_ ?]|].
      destruct (Hdata i Hi Ho) as [Ht Hsto]. apply (commit_txn_frame n n' F F'); try done. by apply I.
    + rewrite lookup_insert_ne in Hn1 by done. destruct (Hother c' i) as (-> & Hp & Hs); [by intros [? _]|].
      apply (commit_txn_frame n1 n1 F F'); try done. by apply I.
  - done.
  - intros c' n1 r Hn1 Hc'. destruct (decide (c' = c)) as [->|Hne].
    + rewrite lookup_insert_eq in Hn1. injection Hn1 as <-. rewrite Hword. by apply (ci_words _ _ _ _ I).
    + rewrite lookup_insert_ne in Hn1 by done. by apply (ci_words _ _ _ _ I).
  - intros c' n1 r Hn1 Hc'. destruct (decide (c' = c)) as [->|Hne].
    + rewrite lookup_insert_eq in Hn1. injection Hn1 as <-. destruct (Hval r) as [->|]; [|by right]. by apply (ci_values _ _ _ _ I).
    + rewrite lookup_insert_ne in Hn1 by done. by apply (ci_values _ _ _ _ I).
  - intros c' i j r f Hc' Hi Hpost Hcm Hj. destruct (decide (σ c' i = Post)) as [Hold|Hold].
    + destruct (ci_cover _ _ _ _ I c' i j r f) as [(n1 & Hn1 & Hv)|Hw1]; [done..| |].
      * left. destruct (decide (master r = c)) as [Hm|Hm]; [|exists n1; by rewrite lookup_insert_ne].
        rewrite Hm in *. rewrite Hn in Hn1. injection Hn1 as <-. exists n'. rewrite lookup_insert_eq. split; [done|].
        destruct (Hval r) as [->|[_ Hd]]; [done|]. apply (co_unique Hok r); [done|]. by exists c', i, j, f.
      * destruct (Hto c' i j r f Hc' Hi Hcm Hj Hw1) as [[Hm Hv]|]; [|by right]. left. exists n'. by rewrite Hm, lookup_insert_eq.
    + right. destruct (decide (c' = c)) as [->|Hne]; [|by rewrite (proj1 (Hother c' i ltac:(by intros [? _]))) in Hpost].
      eapply Hnew; try done. split; [done|]. destruct (decide (i `mod` W = w)%nat) as [|Hm]; [done|].
      by rewrite (proj1 (Hother c i ltac:(by intros [_ [_ ?]]))) in Hpost.
Qed.

(** The writes to do are still there. *)
Lemma to_write_keeps tk F F' c w ts' c' i j r v :
  (∀ i j, TWrite i j ∈ tk c w → TWrite i j ∈ ts') →
  (∀ src w', (src, master r, w', WriteRequest r v) ∈ F → (src, master r, w', WriteRequest r v) ∈ F') →
  to_write tk F c' i j r v → to_write (upd2 tk c w ts') F' c' i j r v.
Proof.
  intros Ht HF [Hin|(src & w' & Hin)]; [left|right; exists src, w'; by apply HF].
  unfold upd2. case_decide as Hd; [destruct Hd as [-> <-]; by apply Ht|done].
Qed.

(** The step moves nothing but tasks. *)
Lemma commit_quiet ns tk F σ c w n n' ts' :
  commit_inv ns tk F σ → (c < N)%nat → (w < W)%nat → ns !! c = Some n → same_data n n' →
  plan c w (σ c) ts' → ordered ts' → (∀ i j, TWrite i j ∈ ts' ↔ TWrite i j ∈ tk c w) →
  (∀ i ts, ts' = TDecide i :: ts → pending_for c i F = 0%nat) →
  commit_inv (<[c := n']> ns) (upd2 tk c w ts') F σ.
Proof.
  intros I Hc Hw Hn (Hr & Ht & Hs & He & Ha & Hst) Hp Hord Htask Hhead.
  assert (∀ i, storage_of n' i = storage_of n i) as Hso by (intros i; unfold storage_of; by rewrite Hs).
  apply (commit_update ns tk F σ c w n); try done.
  - intros r. by rewrite Hr.
  - intros r. left. by rewrite Hr.
  - intros i _ _. by rewrite Ht, Hso.
  - intros i [Hi Hm]. apply (commit_txn_frame n n' F F); [by rewrite Ht|done..|]. by apply (ci_txn _ _ _ _ I).
  - intros i j Hin. apply (ci_task _ _ _ _ I c w i j Hc Hw). by apply Htask.
  - by apply (ci_flight _ _ _ _ I).
  - intros c' i j r f _ _ _ _ Hto. right. eapply to_write_keeps; [..|exact Hto]; [|done]. intros i' j' Hin. by apply Htask.
Qed.

(** The step is done with its task. *)
Lemma commit_tail ns tk F σ c w n n' t ts :
  commit_inv ns tk F σ → (c < N)%nat → (w < W)%nat → ns !! c = Some n → same_data n n' → tk c w = t :: ts →
  plan c w (σ c) ts → match t with TWaitResponses _ | TWrite _ _ => False | _ => True end →
  commit_inv (<[c := n']> ns) (upd2 tk c w ts) F σ.
Proof.
  intros I Hc Hw Hn Hd Ht Hp Hok'. pose proof (ci_order _ _ _ _ I c w Hc Hw) as Ho. rewrite Ht in Ho.
  apply (commit_quiet ns tk F σ c w n); try done.
  - apply Ho.
  - intros i j. rewrite Ht, elem_of_cons. split; [by right|]. intros [Heq|]; [|done]. by rewrite <- Heq in Hok'.
  - intros i ts' ->. exfalso. destruct Ho as [-> _]. done.
Qed.

Lemma commit_same ns tk F σ c w n : commit_inv ns tk F σ → (c < N)%nat → (w < W)%nat → ns !! c = Some n →
  commit_inv (<[c := n]> ns) (upd2 tk c w (tk c w)) F σ.
Proof.
  intros I Hc Hw Hn. apply (commit_quiet ns tk F σ c w n n (tk c w)); try done;
    [by apply (ci_plan _ _ _ _ I)|by apply (ci_order _ _ _ _ I)|by intros i ts' ?; apply (ci_head _ _ _ _ I c w i ts')].
Qed.

(** The result of a step and what holds after it. *)
Definition steps_to ns tk R c w (x : blocking (Node K V * Worker K V)) : Prop :=
  ∃ n' wk' σ', x = Done (n', wk') ∧ commit_inv (<[c := n']> ns) (upd2 tk c w (tasks wk')) (packets_of (c, w) wk' ++ R) σ'.

Lemma commit_steps_intro ns tk F R σ c w n' wk' :
  commit_inv (<[c := n']> ns) (upd2 tk c w (tasks wk')) F σ → F ≡ₚ packets_of (c, w) wk' ++ R →
  steps_to ns tk R c w (Done (n', wk')).
Proof. intros I HF. exists n', wk', σ. split; [done|]. by eapply commit_inv_perm. Qed.

(** ** The analysis *)

Lemma aborted_not_commits c i : q_abort (Q c i) = true → commits c i = false.
Proof. intros Ha. unfold commits. by rewrite Ha. Qed.

(** A transaction that gave up is passed over. *)
Lemma commit_skip ns tk F σ c w n i s t ts :
  commit_inv ns tk F σ → (c < N)%nat → (w < W)%nat → ns !! c = Some n → tk c w = t :: ts → t = TAnalyze i ∨ t = TCommit i →
  q_abort (Q c i) = true → owned w i → plan c w (upd (σ c) i s) ts →
  commit_inv (<[c := n]> ns) (upd2 tk c w ts) F (upd2 σ c i s).
Proof.
  intros I Hc Hw Hn Ht Htt Hab Ho Hp. pose proof (ci_order _ _ _ _ I c w Hc Hw) as Hord. rewrite Ht in Hord.
  pose proof (ci_txn _ _ _ _ I c n i Hn Hc (proj1 Ho)) as Htx. unfold txn_inv in Htx. rewrite Hab in Htx.
  assert (∀ i' j, TWrite i' j ∈ tk c w ↔ TWrite i' j ∈ ts) as Hwr.
  { intros i' j. rewrite Ht, elem_of_cons. by destruct Htt as [->| ->]; split; [intros []|by right|intros []|by right]. }
  apply (commit_update ns tk F σ c w n); try done.
  - intros r. by left.
  - intros c' i' Hne. rewrite upd2_ne; [by split|]. intros [-> ->]. by apply Hne.
  - intros j [Hj Hmj]. destruct (decide (j = i)) as [->|Hne]; [unfold txn_inv; by rewrite Hab|].
    rewrite upd2_ne by naive_solver. by apply (ci_txn _ _ _ _ I).
  - eapply commit_plan_ext; [|exact Hp]. intros j _. by rewrite upd2_row.
  - apply Hord.
  - intros i' j Hin. apply Hwr in Hin. destruct (ci_task _ _ _ _ I c w i' j Hc Hw Hin) as (? & ? & Hcm). split_and!; try done.
    rewrite upd2_ne; [done|]. intros [_ ->]. by rewrite aborted_not_commits in Hcm.
  - intros i' ts' ->. exfalso. destruct Hord as [-> _]. by destruct Htt.
  - apply commit_flight_upd; [apply Htx|apply I].
  - intros c' i' j r f _ _ _ _ Hto. right. eapply to_write_keeps; [..|exact Hto]; [|done]. intros i1 j1. apply Hwr.
  - intros i' j r f _ Hpost Hnp Hcm. destruct (decide (i' = i)) as [->|Hne]; [by rewrite aborted_not_commits in Hcm|].
    by rewrite upd2_ne in Hpost by naive_solver.
Qed.

(** Packets of one transaction that join the flight. *)
Lemma own_packets c i ps F : (∀ x c' i', x ∈ ps → concerns c' i' x = bool_decide (c = c' ∧ i = i')) →
  pending_for c i ps = length ps ∧
  ∀ c' i', ¬ (c' = c ∧ i' = i) → pending_for c' i' (ps ++ F) = pending_for c' i' F ∧ ∀ k, carried k c' i' (ps ++ F) ↔ carried k c' i' F.
Proof.
  intros Hcon. split.
  - unfold pending_for. f_equal. apply filter_all, Forall_forall. intros x Hx. rewrite Hcon by done. by apply bool_decide_eq_true.
  - intros c' i' Hne. assert (∀ x, x ∈ ps → concerns c' i' x = false) as Hno.
    { intros x Hx. rewrite Hcon by done. apply bool_decide_eq_false. naive_solver. }
    rewrite pending_for_app, (proj2 (pending_for_0 c' i' ps)) by done. split; [done|]. intros k.
    split; apply carried_mono; intros x Hx Hcx; [|set_solver]. apply elem_of_app in Hx as [Hx|]; [|done]. by rewrite Hno in Hcx.
Qed.

Lemma commit_analyze ns tk F R σ c w b n wk i ts :
  commit_inv ns tk F σ → (c < N)%nat → (w < W)%nat → ns !! c = Some n → tk c w = TAnalyze i :: ts →
  F ≡ₚ packets_of (c, w) wk ++ R →
  steps_to ns tk R c w (executor_step context master_coordinator next_transaction c w b n wk ts (TAnalyze i)).
Proof.
  intros I Hc Hw Hn Ht HF.
  pose proof (ci_plan _ _ _ _ I c w Hc Hw) as Hp. rewrite Ht in Hp. destruct Hp as (Ho & Hpre & Hp).
  pose proof (ci_order _ _ _ _ I c w Hc Hw) as Hord. rewrite Ht in Hord.
  pose proof (ci_txn _ _ _ _ I c n i Hn Hc (proj1 Ho)) as Htx. unfold txn_inv in Htx. rewrite Hpre in Htx.
  unfold executor_step. destruct (q_abort (Q c i)) eqn:Hab.
  { destruct Htx as [Htx _]. rewrite Htx. change (abort_no_retry _) with true.
    eapply (commit_steps_intro _ _ F); [|exact HF]. by apply (commit_skip ns tk F σ c w n i Mid (TAnalyze i) ts I); try done; left. }
  destruct Htx as (Hst & fa & fb & fd & Htx & _ & Hz & Hfl). rewrite Hz in Htx.
  assert (fa = false ∧ fb = false ∧ fd = false) as (-> & -> & ->) by (split_and!; [apply (Hfl Waw)|apply (Hfl War)|apply (Hfl Raw)]).
  rewrite Htx. change (abort_no_retry _) with false. change (Z.of_nat 0) with 0.
  destruct (analyze_dependency_spec context master_coordinator c w i e (rows n) (Q c i) (set_count wk (count wk + 1))
    (λ k r, conflict_at k r (txn_id c i) = true)) as (ps & a & a1 & a2 & wk' & Han & Hpk & Htk & _ & Hl & Hps & Hk);
    [by apply Hok; [|apply Ho]|by apply Hok; [|apply Ho]| |].
  { intros k r Hm. unfold conflict_at, conflicts. rewrite (ci_words _ _ _ _ I c n r Hn Hc), Hm. done. }
  rewrite Han. rewrite packets_count in Hpk.
  assert (packets_of (c, w) wk' ++ R ≡ₚ ps ++ F) as HF' by (by rewrite Hpk, HF, app_assoc).
  assert (∀ x c' i', x ∈ ps → concerns c' i' x = bool_decide (c = c' ∧ i = i')) as Hcon.
  { intros x c' i' Hx. by destruct (Hps x Hx) as (r & wr & _ & ->). }
  destruct (own_packets c i ps F Hcon) as [Hpi Hother].
  eapply (commit_steps_intro _ _ (ps ++ F) _ (upd2 σ c i Mid)); [|by rewrite packets_tasks, <- HF'].
  apply (commit_update ns tk F σ c w n); try done.
  - intros r. by left.
  - intros c' i' Hne. rewrite upd2_ne; [split; [done|]; apply Hother|]; intros [-> ->]; by apply Hne.
  - intros j _ Hj. simpl. rewrite lookup_insert_ne; [done|]. by intros ->.
  - intros j [Hj Hmj]. destruct (decide (j = i)) as [->|Hne].
    + rewrite upd2_eq. unfold txn_inv. rewrite Hab. split; [done|]. exists a, a1, a2. simpl. rewrite lookup_insert_eq, pending_for_app, Hpi, Hz, Nat.add_0_r.
      split; [done|]. split; [done|]. intros k. rewrite expected_true, (Hk k). apply or_iff_compat_l. unfold carried. split.
      * intros (r & Hr & Hc'). eexists. split; [apply elem_of_app; left; exact Hr|]. split; [rewrite Hcon by done; by apply bool_decide_eq_true|].
        unfold carries. simpl. by rewrite eqb_reflx.
      * intros (x & [Hx|Hx]%elem_of_app & Hcx & Hkx); [|rewrite pending_for_0 in Hz; by rewrite Hz in Hcx].
        destruct (Hps x Hx) as (r & wr & _ & ->). unfold carries in Hkx. simpl in Hkx. apply andb_prop in Hkx as [<-%eqb_prop Hkx].
        by exists r.
    + destruct (Hother c j) as [Hpj Hkj]; [naive_solver|]. rewrite upd2_ne by naive_solver.
      apply (commit_txn_frame n _ F); try done; [simpl; by rewrite lookup_insert_ne|]. by apply (ci_txn _ _ _ _ I).
  - simpl. eapply commit_plan_ext; [|exact Hp]. intros j _. by rewrite upd2_row.
  - simpl. split; [|apply Hord]. destruct Hord as [Hh _]. by destruct ts as [|[] ?].
  - intros i' j [|Hin]%elem_of_cons; [done|]. destruct (ci_task _ _ _ _ I c w i' j Hc Hw) as (Ho' & Hpost & ?); [rewrite Ht; by right|].
    split_and!; try done. rewrite upd2_ne; [done|]. intros [_ ->]. by rewrite Hpre in Hpost.
  - apply Forall_app. split; [|by apply commit_flight_upd; [|apply I]]. apply Forall_forall. intros x Hx.
    destruct (Hps x Hx) as (r & wr & _ & ->). simpl. rewrite upd2_eq. by destruct Ho.
  - intros c' i' j r f _ _ _ _ Hto. right. eapply to_write_keeps; [..|exact Hto]; [|set_solver]. intros i1 j1. rewrite Ht.
    intros [|]%elem_of_cons; [done|by right].
  - intros i' j r f _ Hpost Hnp Hcm. destruct (decide (i' = i)) as [->|Hne]; [by rewrite upd2_eq in Hpost|].
    by rewrite upd2_ne in Hpost by naive_solver.
Qed.

(** ** Messages *)

(** The packets change, but not for the transactions or the writes. *)
Lemma commit_packets ns tk F F' σ :
  commit_inv ns tk F σ → Forall (packet_ok σ) F' →
  (∀ c i, pending_for c i F' = pending_for c i F ∧ ∀ k, carried k c i F' ↔ carried k c i F) →
  (∀ r v src dst w, (src, dst, w, WriteRequest r v) ∈ F → (src, dst, w, WriteRequest r v) ∈ F') →
  commit_inv ns tk F' σ.
Proof.
  intros [] Hf Hp Hr. split; try done.
  - intros c w i ts. rewrite (proj1 (Hp c i)). by eauto.
  - intros c n i Hn Hc Hi. destruct (Hp c i) as [Hpi Hki]. apply (commit_txn_frame n n F F'); try done. by apply ci_txn0.
  - intros c i j r f Hc Hi Hs Hcm Hj. destruct (ci_cover0 c i j r f Hc Hi Hs Hcm Hj) as [|[|(src & w & Hin)]]; [by left|by right; left|].
    right. right. exists src, w. by apply Hr.
Qed.

Lemma carried_cons k c i x F : carried k c i (x :: F) ↔ (concerns c i x = true ∧ carries k x = true) ∨ carried k c i F.
Proof. unfold carried. setoid_rewrite elem_of_cons. naive_solver. Qed.

Lemma commit_check_request ns tk R σ c w n wk src r tid off e' wr :
  commit_inv ns tk ((src, c, w, CheckRequest r tid off e' wr) :: R) σ → (c < N)%nat → ns !! c = Some n →
  ∃ p, check_request_handler src r tid off e' wr n wk = Done (n, add_piece wk src p, []) ∧
    commit_inv ns tk ((c, src, w, p) :: R) σ.
Proof.
  intros I Hc Hn. pose proof (ci_flight _ _ _ _ I) as [Hreq HR]%Forall_cons.
  destruct Hreq as (Hs & Hoff & Hw & Hmid & Hab & Htid & -> & Hm).
  assert (∀ k, match k with Waw | Raw => found (r_tid (search_row (rows n) r)) e (get_wts (r_tid (search_row (rows n) r))) tid
    | War => found (r_tid (search_row (rows n) r)) e (get_rts (r_tid (search_row (rows n) r))) tid end = conflict_at k r tid) as Hk.
  { intros k. unfold conflict_at. by rewrite (ci_words _ _ _ _ I c n r Hn Hc), <- Hm. }
  exists (CheckResponse tid off wr (wr && conflict_at Waw r tid) (wr && conflict_at War r tid) (negb wr && conflict_at Raw r tid)).
  split; [unfold check_request_handler; rewrite <- (Hk Waw), <- (Hk War), <- (Hk Raw); by destruct wr|].
  eapply commit_packets; [exact I|..].
  - constructor; [|done]. by destruct wr.
  - intros c' i. rewrite !pending_for_cons. split; [by destruct wr|]. intros k. rewrite !carried_cons. apply or_iff_compat_r.
    apply and_iff_compat_l. unfold carries. cbn [snd]. by destruct wr, k.
  - intros r' v src' dst w'. rewrite !elem_of_cons. intros [|]; [done|by right].
Qed.

Lemma commit_check_response ns tk R σ c w n wk src tid off wr a b d :
  commit_inv ns tk ((src, c, w, CheckResponse tid off wr a b d) :: R) σ → (c < N)%nat → (w < W)%nat → ns !! c = Some n →
  ∃ n', check_response_handler context tid off wr a b d n wk = Done (n', wk, []) ∧
    commit_inv (<[c := n']> ns) (upd2 tk c w (tk c w)) R σ.
Proof.
  intros I Hc Hw Hn. pose proof (ci_flight _ _ _ _ I) as [Hres HR]%Forall_cons.
  destruct Hres as (_ & Hoff & Hwo & Hmid & Hab & ->). set (x := (src, c, w, CheckResponse (txn_id c off) off wr a b d)) in *.
  assert (∀ c' i, concerns c' i x = bool_decide (c = c' ∧ off = i)) as Hcn by done.
  assert (∀ c' i, ¬ (c' = c ∧ i = off) → pending_for c' i R = pending_for c' i (x :: R) ∧ ∀ k, carried k c' i R ↔ carried k c' i (x :: R)) as Hother.
  { intros c' i Hne. rewrite pending_for_cons, Hcn, bool_decide_false by naive_solver. split; [done|].
    intros k. rewrite carried_cons, Hcn, bool_decide_false by naive_solver. naive_solver. }
  pose proof (ci_txn _ _ _ _ I c n off Hn Hc Hoff) as Htx. unfold txn_inv in Htx. rewrite Hmid, Hab in Htx.
  destruct Htx as (Hst & fa & fb & fd & Htx & Hl & Hk). assert (query_ok (Q c off)) as Hq by (by apply Hok).
  assert (pending_for c off (x :: R) = S (pending_for c off R)) as Hpx.
  { rewrite pending_for_cons, Hcn, bool_decide_true by done. done. }
  rewrite Hpx in Htx, Hl. pose proof (qo_size _ Hq) as Hsz.
  assert (u64 (Z.of_nat (S (pending_for c off R)) - 1) = Z.of_nat (pending_for c off R)) as Hu.
  { rewrite u64_id; [lia|]. unfold is_u64. lia. }
  unfold check_response_handler, response_txn. rewrite decide_True by done. rewrite Htx. cbn [id AriaExec.second_txn].
  rewrite Z.eqb_refl. cbn [mbind blocking_bind]. eexists. split; [done|].
  set (t' := set_pending _ _).
  assert (∃ a' b' d', t' = second_txn c off e (Z.of_nat (pending_for c off R)) (Q c off) a' b' d' ∧
    ∀ k, flag k t' = flag k (second_txn c off e 0 (Q c off) fa fb fd) || carries k x) as (a' & b' & d' & -> & Hflag).
  { unfold t', carries. rewrite <- Hu. destruct wr; do 3 eexists; (split; [reflexivity|]); intros []; simpl; by rewrite ?orb_false_r. }
  apply (commit_update ns tk (x :: R) σ c w n); try done.
  - intros r. by left.
  - intros c' i Hne. split; [done|]. apply Hother. intros [-> ->]. by apply Hne.
  - intros i _ Hi. simpl. rewrite lookup_insert_ne; [done|]. intros ->. by apply Hi.
  - intros i [Hi Hmi]. destruct (decide (i = off)) as [->|Hne].
    + rewrite Hmid. unfold txn_inv. rewrite Hab. split; [done|]. exists a', b', d'. simpl. rewrite lookup_insert_eq.
      split; [done|]. split; [lia|]. intros k. rewrite (Hk k), carried_cons, Hcn, bool_decide_true by done.
      change (flag k (second_txn c off e ?z (Q c off) a' b' d')) with (flag k (second_txn c off e (Z.of_nat (pending_for c off R)) (Q c off) a' b' d')).
      rewrite Hflag, orb_true_iff. change (flag k (second_txn c off e 0 (Q c off) fa fb fd)) with
        (flag k (second_txn c off e (Z.of_nat (pending_for c off (x :: R))) (Q c off) fa fb fd)). naive_solver.
    + destruct (Hother c i) as [Hp Hs]; [naive_solver|].
      apply (commit_txn_frame n _ (x :: R)); try done; [simpl; by rewrite lookup_insert_ne|]. by apply (ci_txn _ _ _ _ I).
  - by apply (ci_plan _ _ _ _ I).
  - by apply (ci_order _ _ _ _ I).
  - intros i j. by apply (ci_task _ _ _ _ I).
  - intros i ts Hts. pose proof (ci_head _ _ _ _ I c w i ts Hc Hw Hts) as Hz. rewrite pending_for_cons in Hz. lia.
  - intros c' i j r f _ _ _ _ Hto. right. eapply to_write_keeps; [..|exact Hto]; [done|]. by intros src' w' [|]%elem_of_cons.
Qed.

(** ** Writes *)

Lemma update_row_word (m : gmap (row_id K) (Row V)) (r r' : row_id K) v : r_tid (search_row (update_row m r v) r') = r_tid (search_row m r').
Proof. unfold update_row, search_row. rewrite lookup_insert. by case_decide; subst. Qed.
Lemma update_row_value (m : gmap (row_id K) (Row V)) (r r' : row_id K) v :
  r_value (search_row (update_row m r v) r') = if decide (r = r') then v else r_value (search_row m r').
Proof. unfold update_row, search_row. rewrite lookup_insert. by case_decide. Qed.

(** A due value is written, and what was to do about it may be dropped. *)
Lemma commit_row ns tk F F' σ c w n r v ts' :
  commit_inv ns tk F σ → (c < N)%nat → (w < W)%nat → ns !! c = Some n → master r = c → due r v →
  plan c w (σ c) ts' → ordered ts' → (∀ i j, TWrite i j ∈ ts' → TWrite i j ∈ tk c w) →
  (∀ i ts, ts' = TDecide i :: ts → pending_for c i F' = 0%nat) → Forall (packet_ok σ) F' →
  (∀ c' i, pending_for c' i F' = pending_for c' i F ∧ ∀ k, carried k c' i F' ↔ carried k c' i F) →
  (∀ c' i j r' f, (c' < N)%nat → (i < B)%nat → q_updates (Q c' i) !! j = Some (r', f) → r' ≠ r →
     to_write tk F c' i j r' (field (st1 c' i) f) → to_write (upd2 tk c w ts') F' c' i j r' (field (st1 c' i) f)) →
  commit_inv (<[c := set_rows n (update_row (rows n) r v)]> ns) (upd2 tk c w ts') F' σ.
Proof.
  intros I Hc Hw Hn Hm Hd Hp Hord Htask Hhead Hf Hpk Hto.
  apply (commit_update ns tk F σ c w n); try done.
  - intros r'. simpl. apply update_row_word.
  - intros r'. simpl. rewrite update_row_value. case_decide; [subst r'; by right|by left].
  - intros i [Hi Hmi]. destruct (Hpk c i) as [Hpi Hki]. apply (commit_txn_frame n _ F); try done. by apply (ci_txn _ _ _ _ I).
  - intros i j Hin. apply (ci_task _ _ _ _ I c w i j Hc Hw). by apply Htask.
  - intros c' i j r' f Hc' Hi Hcm Hj Hto'. destruct (decide (r' = r)) as [->|Hne]; [|right; by apply Hto].
    left. split; [done|]. simpl. rewrite update_row_value, decide_True by done. apply (co_unique Hok r); [done|]. by exists c', i, j, f.
Qed.

Lemma commit_write_request ns tk R σ c w n src r v :
  commit_inv ns tk ((src, c, w, WriteRequest r v) :: R) σ → (c < N)%nat → (w < W)%nat → ns !! c = Some n →
  commit_inv (<[c := set_rows n (update_row (rows n) r v)]> ns) (upd2 tk c w (tk c w)) R σ.
Proof.
  intros I Hc Hw Hn. pose proof (ci_flight _ _ _ _ I) as [(_ & Hm & Hd) HR]%Forall_cons.
  apply (commit_row ns tk ((src, c, w, WriteRequest r v) :: R)); try done.
  - by apply (ci_plan _ _ _ _ I).
  - by apply (ci_order _ _ _ _ I).
  - intros i ts Hts. pose proof (ci_head _ _ _ _ I c w i ts Hc Hw Hts) as Hz. rewrite pending_for_cons in Hz. lia.
  - intros c' i. rewrite pending_for_cons. split; [done|]. intros k. rewrite carried_cons. naive_solver.
  - intros c' i j r' f _ _ _ Hne Hto. eapply to_write_keeps; [..|exact Hto]; [done|].
    intros src' w' [Heq|]%elem_of_cons; [|done]. by simplify_eq.
Qed.

(** The transaction of a worker that is past its wait. *)
Lemma decided ns tk F σ c n i : commit_inv ns tk F σ → (c < N)%nat → ns !! c = Some n → (i < B)%nat → q_abort (Q c i) = false →
  (σ c i = Mid ∧ pending_for c i F = 0%nat ∨ σ c i = Post) →
  transactions n !! i = Some (decided_txn c i) ∧ storage_of n i = st1 c i ∧ pending_for c i F = 0%nat.
Proof.
  intros I Hc Hn Hi Hab Hs. pose proof (ci_txn _ _ _ _ I c n i Hn Hc Hi) as Htx. unfold txn_inv in Htx. rewrite Hab in Htx.
  destruct Htx as (Hst & a & b & d & Htx & _ & Hfl).
  assert (pending_for c i F = 0%nat ∧ ∀ k, flag k (second_txn c i e (Z.of_nat (pending_for c i F)) (Q c i) a b d) = expected k c i) as [Hz Hk].
  { destruct Hs as [[Hs Hz]|Hs]; rewrite Hs in Hfl; [|done]. split; [done|]. intros k. apply eq_true_iff_eq. rewrite (Hfl k).
    split; [by left|]. intros [|Hca]; [done|]. by apply carried_pending in Hca. }
  split_and!; try done. rewrite Htx, Hz. unfold decided_txn. by rewrite <- (Hk Waw), <- (Hk War), <- (Hk Raw).
Qed.

(** Writes of a transaction that are put in front of the tasks. *)
Lemma plan_writes c w s i (ws : list (task K)) ts : (∀ t, t ∈ ws → ∃ j, t = TWrite i j) → plan c w s ts → plan c w s (ws ++ ts).
Proof.
  intros Hws Hp. induction ws as [|t ws IH]; [done|]. destruct (Hws t) as [j ->]; [by left|]. apply IH. intros t Ht. apply Hws. by right.
Qed.

Lemma ordered_writes i (ws : list (task K)) ts : (∀ t, t ∈ ws → ∃ j, t = TWrite i j) → ordered ts → (∀ j ts', ts ≠ TDecide j :: ts') →
  (∀ j ts', ts ≠ TReserveTxn j :: ts') → ordered (ws ++ ts) ∧ ∀ j ts', ws ++ ts ≠ TDecide j :: ts'.
Proof.
  intros Hws Ho Hd Hr. induction ws as [|t ws IH]; [done|]. destruct (Hws t) as [j ->]; [by left|].
  destruct IH as [IHo IHh]; [intros t Ht; apply Hws; by right|]. split; [|done]. split; [|done].
  destruct ws as [|t ws]; simpl; [|by destruct (Hws t) as [? ->]; [by right; left|]].
  destruct ts as [|[] ts]; try done; [by destruct (Hr i0 ts)|by destruct (Hd i0 ts)].
Qed.

Lemma commit_decide ns tk F R σ c w b n wk i ts :
  commit_inv ns tk F σ → (c < N)%nat → (w < W)%nat → ns !! c = Some n → tk c w = TDecide i :: ts →
  F ≡ₚ packets_of (c, w) wk ++ R →
  steps_to ns tk R c w (executor_step context master_coordinator next_transaction c w b n wk ts (TDecide i)).
Proof.
  intros I Hc Hw Hn Ht HF.
  pose proof (ci_plan _ _ _ _ I c w Hc Hw) as Hp. rewrite Ht in Hp. destruct Hp as (Ho & Hmid & Hab & Hp).
  pose proof (ci_order _ _ _ _ I c w Hc Hw) as Hord. rewrite Ht in Hord. destruct Ho as [Hi Hm].
  pose proof (ci_head _ _ _ _ I c w i ts Hc Hw Ht) as Hz.
  destruct (decided ns tk F σ c n i I Hc Hn Hi Hab) as (Htx & Hst & _); [by left|].
  assert (commits c i = (decision context (decided_txn c i)).1) as Hcm by (unfold commits; by rewrite Hab).
  unfold executor_step. rewrite Htx. destruct (decision context (decided_txn c i)) as [cm go] eqn:Hd. simpl in Hcm.
  change (length (writeSet (decided_txn c i))) with (length (write_keys (Q c i))). unfold write_keys. rewrite length_fmap.
  set (l1 := if cm then _ else _). set (l2 := if go then _ else _).
  eapply (commit_steps_intro _ _ F _ (upd2 σ c i Post)); [|exact HF]. simpl.
  assert (∀ t, t ∈ l1 ↔ commits c i = true ∧ ∃ j, (j < length (q_updates (Q c i)))%nat ∧ t = TWrite i j) as Hl1.
  { intros t. unfold l1. rewrite Hcm. destruct cm; [|split; [by intros ?%not_elem_of_nil|by intros []]].
    rewrite list_elem_of_fmap. setoid_rewrite elem_of_seq. split; [intros (j & -> & ?); split; [done|]; exists j; split; [lia|done]|].
    intros (_ & j & ? & ->). exists j. split; [done|lia]. }
  assert (∀ t, t ∈ l1 → ∃ j, t = TWrite i j) as Hws by (intros t (_ & j & _ & ->)%Hl1; by exists j).
  assert (ordered (l1 ++ l2 ++ ts) ∧ ∀ j ts', l1 ++ l2 ++ ts ≠ TDecide j :: ts') as [Hord' Hhd].
  { destruct Hord as [Hh Ho]. apply (ordered_writes i); [done|..]; unfold l2; destruct go; simpl; try split_and?; try done; destruct ts as [|[] ?]; done. }
  assert (∀ i' j, TWrite i' j ∈ l1 ++ l2 ++ ts ↔ TWrite i' j ∈ l1 ∨ TWrite i' j ∈ tk c w) as Hin.
  { intros i' j. rewrite !elem_of_app, Ht, elem_of_cons. unfold l2. destruct go; set_solver. }
  apply (commit_update ns tk F σ c w n); try done.
  - intros r. by left.
  - intros c' i' Hne. rewrite upd2_ne; [by split|]. intros [-> ->]. by apply Hne.
  - intros j [Hj Hmj]. destruct (decide (j = i)) as [->|Hne].
    + rewrite upd2_eq. unfold txn_inv. rewrite Hab. split; [done|]. do 3 eexists. rewrite Hz. split; [exact Htx|]. split; [lia|].
      split; [done|]. by intros [].
    + rewrite upd2_ne by naive_solver. by apply (ci_txn _ _ _ _ I).
  - apply (plan_writes _ _ _ i); [done|]. assert (plan c w (upd2 σ c i Post c) ts) by (eapply commit_plan_ext; [|exact Hp]; intros j _; by rewrite upd2_row).
    unfold l2. by destruct go.
  - intros i' j [Hin'|Hin']%Hin.
    + apply Hl1 in Hin' as (? & j' & _ & [= -> ->]). rewrite upd2_eq. done.
    + destruct (ci_task _ _ _ _ I c w i' j Hc Hw Hin') as (? & ? & ?). split_and!; try done.
      unfold upd2. by case_decide.
  - intros j ts' Hts. by destruct (Hhd j ts').
  - by apply commit_flight_upd; [|apply I].
  - intros c' i' j r f _ _ _ _ Hto. right. eapply to_write_keeps; [..|exact Hto]; [|done]. intros i1 j1 ?. apply Hin. by right.
  - intros i' j r f Ho Hpost Hnp Hcm' Hj. destruct (decide (i' = i)) as [->|Hne]; [|by rewrite upd2_ne in Hpost by naive_solver].
    left. destruct Ho as [_ Ho]. rewrite Ho, upd2_eq. apply Hin. left. apply Hl1. split; [done|]. exists j. split; [by eapply lookup_lt_Some|done].
Qed.

(** The write at the head of the tasks is done; the others are still to be done. *)
Lemma to_write_pop tk F c w i j ts c' i' j' r v : tk c w = TWrite i j :: ts → to_write tk F c' i' j' r v →
  to_write (upd2 tk c w ts) F c' i' j' r v ∨ c' = c ∧ i' = i ∧ j' = j.
Proof.
  intros Ht [Hin|]; [|by left; right]. destruct (decide (c = c' ∧ w = i' `mod` W)%nat) as [[-> Hw]|Hne].
  - rewrite <- Hw, Ht in Hin. apply elem_of_cons in Hin as [[= -> ->]|]; [by right|]. left. left. by rewrite <- Hw, upd2_eq.
  - left. left. rewrite upd2_ne; [done|]. intros [-> ?]. by apply Hne.
Qed.

Lemma commit_twrite ns tk F R σ c w b n wk i j ts :
  commit_inv ns tk F σ → (c < N)%nat → (w < W)%nat → ns !! c = Some n → tk c w = TWrite i j :: ts →
  F ≡ₚ packets_of (c, w) wk ++ R →
  steps_to ns tk R c w (executor_step context master_coordinator next_transaction c w b n wk ts (TWrite i j)).
Proof.
  intros I Hc Hw Hn Ht HF.
  pose proof (ci_plan _ _ _ _ I c w Hc Hw) as Hp. rewrite Ht in Hp. simpl in Hp.
  pose proof (ci_order _ _ _ _ I c w Hc Hw) as Hord. rewrite Ht in Hord.
  destruct (ci_task _ _ _ _ I c w i j Hc Hw) as (Ho & Hpost & Hcm); [rewrite Ht; by left|].
  assert (q_abort (Q c i) = false) as Hab by (unfold commits in Hcm; by destruct (q_abort (Q c i))).
  destruct (decided ns tk F σ c n i I Hc Hn (proj1 Ho) Hab) as (Htx & Hst & _); [by right|].
  assert (query_ok (Q c i)) as Hq by (by apply Hok; [|apply Ho]).
  assert (∀ i' ts', ts ≠ TDecide i' :: ts') as Hhd by (intros i' ts' ->; by destruct Hord).
  unfold executor_step, commit_write. rewrite Htx. change (writeSet (decided_txn c i)) with (write_keys (Q c i)).
  change (storage_ref (decided_txn c i)) with i. destruct (write_keys (Q c i) !! j) as [k|] eqn:Hk.
  - pose proof Hk as Hk'. unfold write_keys in Hk'. rewrite list_lookup_fmap in Hk'. apply fmap_Some in Hk' as ([r f] & Hj & _).
    destruct (write_keys_says (Q c i) j r f Hq Hj) as (k' & Hk' & Hs). rewrite Hk in Hk'. injection Hk' as <-.
    rewrite (says_partition _ _ _ _ _ Hs), (sy_row _ _ _ _ _ Hs), (sy_value _ _ _ _ _ Hs), Hst.
    unfold has_master_partition. fold (master r).
    assert (due r (field (st1 c i) f)) as Hd by (exists c, i, j, f; by destruct Ho).
    case_bool_decide as Hm; cbn [mbind blocking_bind fst snd].
    + eapply (commit_steps_intro _ _ F); [|exact HF]. simpl. apply (commit_row ns tk F); try done.
      * apply Hord.
      * intros i' j'. rewrite Ht. by right.
      * intros i' ts' Hts. by destruct (Hhd i' ts').
      * apply I.
      * intros c' i' j' r' f' _ _ Hj' Hne Hto. destruct (to_write_pop _ _ _ _ _ _ _ _ _ _ _ _ Ht Hto) as [|(-> & -> & ->)]; [done|].
        rewrite Hj in Hj'. by simplify_eq.
    + set (x := (c, master r, w, WriteRequest r (field (st1 c i) f) : piece K V)).
      assert (∀ c' i', pending_for c' i' (x :: F) = pending_for c' i' F ∧ ∀ k0, carried k0 c' i' (x :: F) ↔ carried k0 c' i' F) as Hpk.
      { intros c' i'. rewrite pending_for_cons. split; [done|]. intros k0. rewrite carried_cons. naive_solver. }
      eapply (commit_steps_intro _ _ (x :: F)); [|rewrite packets_tasks, packets_add, HF; done]. simpl.
      apply (commit_update ns tk F σ c w n); try done.
      * intros r'. by left.
      * intros i' [Hi' _]. apply (commit_txn_frame n _ F); try done; [apply Hpk..|]. by apply (ci_txn _ _ _ _ I).
      * apply Hord.
      * intros i' j' Hin. apply (ci_task _ _ _ _ I c w i' j' Hc Hw). rewrite Ht. by right.
      * intros i' ts' Hts. by destruct (Hhd i' ts').
      * constructor; [done|apply I].
      * intros c' i' j' r' f' _ _ _ Hj' Hto. right. destruct (to_write_pop _ _ _ _ _ _ _ _ _ _ _ _ Ht Hto) as [[|(src & w' & Hin)]|(-> & -> & ->)];
          [by left|right; exists src, w'; by right|]. rewrite Hj in Hj'. injection Hj' as <- <-. right. exists c, w. by left.
  - cbn [mbind blocking_bind fst snd]. eapply (commit_steps_intro _ _ F); [|exact HF]. simpl.
    apply (commit_update ns tk F σ c w n); try done.
    + intros r. by left.
    + intros i' [Hi' _]. by apply (ci_txn _ _ _ _ I).
    + apply Hord.
    + intros i' j' Hin. apply (ci_task _ _ _ _ I c w i' j' Hc Hw). rewrite Ht. by right.
    + intros i' ts' Hts. by destruct (Hhd i' ts').
    + apply I.
    + intros c' i' j' r' f' _ _ _ Hj' Hto. right. destruct (to_write_pop _ _ _ _ _ _ _ _ _ _ _ _ Ht Hto) as [|(-> & -> & ->)]; [done|].
      unfold write_keys in Hk. by rewrite list_lookup_fmap, Hj' in Hk.
Qed.

(** ** Any step of an executor *)

Lemma commit_process ns tk F R σ c w n wk ts :
  commit_inv ns tk F σ → (c < N)%nat → (w < W)%nat → ns !! c = Some n → tk c w = TProcess :: ts →
  F ≡ₚ packets_of (c, w) wk ++ R →
  steps_to ns tk R c w (process_request context c n wk ts).
Proof.
  intros I Hc Hw Hn Ht HF. unfold process_request. destruct (in_queue wk) as [|[src [|p ps]] q] eqn:Hq.
  - eapply commit_steps_intro; [|exact HF].
    pose proof (ci_plan _ _ _ _ I c w Hc Hw) as Hp. rewrite Ht in Hp. by apply (commit_tail ns tk F σ c w n n TProcess).
  - eapply (commit_steps_intro _ _ F); [rewrite <- Ht; by eapply commit_same|]. rewrite packets_tasks, HF. apply Permutation_app_tail.
    rewrite (packets_in_nil (c, w) wk src q Hq). symmetry. apply flush_messages_spec.
  - rewrite (packets_in_cons (c, w) wk src p ps q Hq) in HF. set (wk0 := set_in wk _) in *.
    apply (commit_inv_perm _ _ _ _ _ HF) in I. simpl in I. clear HF.
    pose proof (ci_flight _ _ _ _ I) as [Hpok _]%Forall_cons. destruct p; try by destruct Hpok.
    + destruct (commit_check_request ns tk _ σ c w n wk0 src r tid tid_offset epoch is_write I Hc Hn) as (p & Hh & I').
      unfold handle_piece. rewrite Hh. cbn [mbind blocking_bind fst snd].
      eapply commit_steps_intro; [eapply commit_same in I'; [rewrite Ht in I'; exact I'|done..]|]. by rewrite packets_tasks, packets_add.
    + destruct (commit_check_response ns tk _ σ c w n wk0 src tid tid_offset is_write waw war raw I Hc Hw Hn) as (n' & Hh & I').
      unfold handle_piece. rewrite Hh. cbn [mbind blocking_bind fst snd]. eapply commit_steps_intro; [simpl; rewrite <- Ht; exact I'|done].
    + apply (commit_write_request ns tk _ σ c w n) in I; [|done..]. cbn [handle_piece write_request_handler mbind blocking_bind fst snd].
      eapply commit_steps_intro; [simpl; rewrite <- Ht; exact I|done].
Qed.

(** The step leaves more to do. *)
Lemma commit_more ns tk F R σ c w n wk t l ts :
  commit_inv ns tk F σ → (c < N)%nat → (w < W)%nat → ns !! c = Some n → tk c w = t :: ts → F ≡ₚ packets_of (c, w) wk ++ R →
  plan c w (σ c) (l ++ ts) → ordered (l ++ ts) → (∀ i j, TWrite i j ∉ t :: l) →
  (∀ i ts', l ++ ts = TDecide i :: ts' → pending_for c i F = 0%nat) →
  ∀ wk', tasks wk' = l ++ ts → packets_of (c, w) wk' ≡ₚ packets_of (c, w) wk → steps_to ns tk R c w (Done (n, wk')).
Proof.
  intros I Hc Hw Hn Ht HF Hp Ho Hk Hh wk' Htk Hpk. eapply (commit_steps_intro _ _ F); [|by rewrite HF, Hpk].
  rewrite Htk. apply (commit_quiet ns tk F σ c w n); try done.
  intros i j. rewrite Ht, elem_of_app, elem_of_cons. specialize (Hk i j). rewrite not_elem_of_cons in Hk. naive_solver.
Qed.

Lemma commit_step ns tk F R σ c w b n wk t ts :
  commit_inv ns tk F σ → (c < N)%nat → (w < W)%nat → ns !! c = Some n → tk c w = t :: ts →
  F ≡ₚ packets_of (c, w) wk ++ R →
  steps_to ns tk R c w (executor_step context master_coordinator next_transaction c w b n wk ts t).
Proof.
  intros I Hc Hw Hn Ht HF.
  pose proof (ci_plan _ _ _ _ I c w Hc Hw) as Hp. rewrite Ht in Hp.
  pose proof (ci_order _ _ _ _ I c w Hc Hw) as Ho. rewrite Ht in Ho.
  destruct (ci_nodes _ _ _ _ I c Hc) as (n0 & Hn0 & Hst). rewrite Hn in Hn0. injection Hn0 as <-.
  assert (∀ n', same_data n n' → plan c w (σ c) ts →
    match t with TWaitResponses _ | TWrite _ _ => False | _ => True end →
    ∀ wk', tasks wk' = ts → packets_of (c, w) wk' ≡ₚ packets_of (c, w) wk → steps_to ns tk R c w (Done (n', wk'))) as Htail.
  { intros n' Hd Hp' Hok' wk' Htk Hpk. eapply (commit_steps_intro _ _ F); [|by rewrite HF, Hpk].
    rewrite Htk. by apply (commit_tail ns tk F σ c w n n' t). }
  destruct t; try done.
  - simpl in Hp. case_match; try done. simpl. rewrite decide_False by (rewrite Hst; naive_solver). rewrite decide_True by done.
    by apply Htail.
  - by apply Htail.
  - by apply Htail.
  - simpl in Hp. case_match; try done. simpl. rewrite decide_True by done.
    by apply (commit_more ns tk F R σ c w n wk _ [TProcess; TServe Aria_COMMIT] ts I Hc Hw Hn Ht HF); [..|set_solver| | |].
  - by apply (commit_process ns tk F R σ c w n wk ts).
  - apply Htail; try done. rewrite packets_tasks. apply flush_messages_spec.
  - apply Htail; try done. rewrite packets_tasks. case_decide; [apply flush_messages_spec|done].
  - by apply Htail.
  - destruct Hp as (Hown & Hmid & Hab & Hp). pose proof (ci_txn _ _ _ _ I c n i Hn Hc (proj1 Hown)) as Htx.
    unfold txn_inv in Htx. rewrite Hab in Htx. destruct Htx as (_ & fa & fb & fd & Htx & _). simpl. rewrite Htx.
    change (pendingResponses _) with (Z.of_nat (pending_for c i F)). destruct (Z.ltb_spec 0 (Z.of_nat (pending_for c i F))).
    + apply (commit_more ns tk F R σ c w n wk _ [TProcess; TWaitResponses i] ts I Hc Hw Hn Ht HF); try done; set_solver.
    + apply (commit_more ns tk F R σ c w n wk _ [] ts I Hc Hw Hn Ht HF); try done; [apply Ho|set_solver|].
      intros j ts' Hts. simpl in Hts. subst ts. destruct Ho as [[= ->] _]. lia.
  - by apply (commit_analyze ns tk F R σ c w b).
  - destruct Hp as (Hown & Hmid & Hp). pose proof (ci_txn _ _ _ _ I c n i Hn Hc (proj1 Hown)) as Htx. unfold txn_inv in Htx. simpl.
    destruct (q_abort (Q c i)) eqn:Hab.
    + destruct Htx as [Htx _]. rewrite Htx. change (abort_no_retry _) with true.
      eapply (commit_steps_intro _ _ F); [|exact HF]. by apply (commit_skip ns tk F σ c w n i Post (TCommit i) ts I); try done; right.
    + destruct Htx as (_ & fa & fb & fd & Htx & _). rewrite Htx. change (abort_no_retry _) with false.
      apply (commit_more ns tk F R σ c w n wk _ [TWaitResponses i; TDecide i] ts I Hc Hw Hn Ht HF); try done; [|set_solver].
      split; [done|]. split; [|apply Ho]. destruct Ho as [Ho _]. by destruct ts as [|[] ?].
  - by apply (commit_decide ns tk F R σ c w b).
  - by apply (commit_twrite ns tk F R σ c w b).
Qed.

End commit.
