(* ===== verification/AriaCommitPhase.v ===== *)
(** * Aria: the outcome of the commit phase

    From the point where the managers have let the workers commit to the one
    where all of them serve and no message is left. *)

From S2P Require Import Prelude Bits AriaHelper AriaTxn AriaSystem AriaFlight AriaPhase AriaExec AriaCheck AriaRead AriaReadPhase AriaCommit.

Section commit_phase.
Context {K V : Type} `{Countable K} `{Inhabited V} (context : AriaContext) (master_coordinator : Z → nat).
Context (next_transaction : nat → Z → nat → Query K V) (e : Z).
Notation N := (coordinator_num context).
Notation W := (worker_num context).
Notation B := (batch_size context).
Notation master := (master master_coordinator).
Notation Q c i := (next_transaction c e i).
Notation plan := (AriaCommit.plan context next_transaction e).
Notation txn_id := (txn_id context).
Notation reservations := (reservations context).
Notation batch_ok := (batch_ok context master_coordinator next_transaction e).
Notation executed := (executed context master_coordinator next_transaction e).
Notation db_of := (db_of master_coordinator).
Notation reserved_before := (reserved_before context next_transaction e).
Notation commits s := (commits context master_coordinator next_transaction e (word_at s)).
Notation expected s := (expected context master_coordinator next_transaction e (word_at s)).
Notation st_of s := (λ c i, storage_of (node_of s c) i).
Implicit Types (s : System K V).

(** ** The program of an executor in the commit phase *)

Definition commit_done (w : nat) : list (task K) := [TServe Aria_COMMIT; TProcess; TCompleted; TLoop].
Definition commit_tasks (w : nat) : list (task K) :=
  [TAwait Aria_COMMIT; TStarted] ++ commit_transactions context w ++ [TCompleted] ++ commit_done w.

Lemma read_done_eq w : read_done context w = [TServe Aria_READ; TProcess; TCompleted] ++ commit_tasks w.
Proof. done. Qed.

Lemma plan_each (f : nat → task K) (x y : stage) c w l :
  (∀ (s : nat → stage) i rest, owned context w i → s i = x → plan c w (upd s i y) rest → plan c w s (f i :: rest)) →
  ∀ (s : nat → stage) rest, NoDup l → (∀ i, i ∈ l → owned context w i ∧ s i = x) →
  plan c w (all_at l y s) rest → plan c w s ((f <$> l) ++ rest).
Proof.
  intros Hf. induction l as [|i l IH]; intros s rest Hnd Hl Hp; simpl.
  - eapply commit_plan_ext; [|exact Hp]. intros j _. unfold all_at. by rewrite decide_False by apply not_elem_of_nil.
  - apply NoDup_cons in Hnd as [Hi Hnd]. apply Hf; [apply Hl; by left..|]. apply IH; [done| |].
    + intros j Hj. rewrite upd_ne by (intros ->; done). apply Hl. by right.
    + eapply commit_plan_ext; [|exact Hp]. intros j _. by apply all_at_cons.
Qed.

Lemma plan_commit_start c w : (w < W)%nat → plan c w (λ _, Pre) (commit_tasks w).
Proof.
  intros Hw. unfold commit_tasks, commit_transactions. simpl. rewrite <- app_assoc. simpl.
  apply (plan_each TAnalyze Pre Mid); [done|apply stripe_NoDup|intros i Hi; split; [by apply stripe_elem|done]|]. simpl. rewrite <- app_assoc.
  apply (plan_each TCommit Mid Post); [done|apply stripe_NoDup| |].
  - intros i Hi. split; [by apply stripe_elem|]. unfold all_at. by rewrite decide_True.
  - simpl. intros i Hi%stripe_elem; [|done]. unfold all_at. by rewrite decide_True.
Qed.

Lemma commit_tasks_start w t : t ∈ commit_tasks w → t ∈ executor_start context w.
Proof. rewrite executor_start_eq, read_done_eq. set_solver. Qed.

(** ** The start of the phase *)

(** The managers have taken the nodes from the end of the read phase to the
    commit phase: the data is the same, and the executors are about to commit. *)
Record handover s s' : Prop := {
  ho_nodes : ∀ c, is_Some (nodes s' !! c) ↔ (c < N)%nat;
  ho_data : ∀ c, (c < N)%nat → rows (node_of s' c) = rows (node_of s c) ∧
    transactions (node_of s' c) = transactions (node_of s c) ∧ storages (node_of s' c) = storages (node_of s c) ∧
    n_epoch (node_of s' c) = n_epoch (node_of s c) ∧ total_abort (node_of s' c) = total_abort (node_of s c);
  ho_status : ∀ c, (c < N)%nat → worker_status (node_of s' c) = Aria_COMMIT;
  ho_tasks : ∀ c w, (c < N)%nat → (w < W)%nat → tk_of s' c w = commit_tasks w;
  ho_packets : exec_flight context s' = []
}.

Lemma handover_executed s0 s s' : batch_ok → executed s0 s → handover s s' → executed s0 s'.
Proof.
  intros Hb Hex Hh. pose proof (ho_data _ _ Hh) as Hd.
  assert (∀ c r, (c < N)%nat → value_at s' c r = value_at s c r ∧ word_at s' c r = word_at s c r) as Hrow.
  { intros c r Hc. unfold value_at, word_at. destruct (Hd c Hc) as (-> & _). done. }
  assert (∀ r : row_id K, (master r < N)%nat) as Hm by (intros r; apply Hb).
  split.
  - apply Hh.
  - intros c Hc. destruct (Hd c Hc) as (_ & _ & _ & -> & ->). by apply Hex.
  - intros c r Hc. destruct (Hrow c r Hc) as [-> _]. by apply Hex.
  - intros c i Hc Hi Ha. destruct (Hd c Hc) as (_ & -> & _). by apply Hex.
  - intros c i Hc Hi Ha. unfold storage_of at 1. destruct (Hd c Hc) as (_ & -> & -> & _). by apply Hex.
  - intros r tid. destruct (Hrow (master r) r (Hm r)) as [_ ->]. by apply Hex.
  - intros r tid. destruct (Hrow (master r) r (Hm r)) as [_ ->]. by apply Hex.
Qed.

(** ** Committed writes *)

Lemma txn_id_inj c i c' i' : (c < N)%nat → (c' < N)%nat → txn_id c i = txn_id c' i' → c = c' ∧ i = i'.
Proof.
  unfold AriaExec.txn_id. intros Hc Hc' Heq. assert (i * N + c = i' * N + c')%nat as Hn by lia.
  assert (i = i') as -> by nia. split; [lia|done].
Qed.

Lemma commits_no_waw s c i r f j : commits s c i = true → q_updates (Q c i) !! j = Some (r, f) → expected s Waw c i = false.
Proof.
  unfold AriaCommit.commits. intros [_ Hd]%andb_prop Hj. unfold decision, is_read_only in Hd.
  change (writeSet _) with (write_keys (Q c i)) in Hd. rewrite write_keys_nil, bool_decide_false, andb_false_r in Hd by (by intros Hnil; rewrite Hnil in Hj).
  change (waw _) with (expected s Waw c i) in Hd. by destruct (expected s Waw c i).
Qed.

Lemma conflict_waw s0 s r tid : executed s0 s →
  conflict_at master_coordinator e (word_at s) Waw r tid = true ↔ reserved_before r true tid.
Proof. intros Hex. apply (ex_writes _ _ _ _ _ _ Hex). Qed.

(** One committed transaction writes a row. *)
Lemma committed_writer_unique s0 s r c i j f c' i' j' f' : executed s0 s →
  (c < N)%nat → (i < B)%nat → commits s c i = true → q_updates (Q c i) !! j = Some (r, f) →
  (c' < N)%nat → (i' < B)%nat → commits s c' i' = true → q_updates (Q c' i') !! j' = Some (r, f') → c = c' ∧ i = i'.
Proof.
  intros Hex Hc Hi Hcm Hj Hc' Hi' Hcm' Hj'. apply txn_id_inj; [done..|].
  assert (∀ c i j f c' i' j' f', (c < N)%nat → (i < B)%nat → commits s c i = true → q_updates (Q c i) !! j = Some (r, f) →
    commits s c' i' = true → q_updates (Q c' i') !! j' = Some (r, f') → ¬ txn_id c i < txn_id c' i') as Hlt.
  { clear -Hex. intros c i j f c' i' j' f' Hc Hi Hcm Hj Hcm' Hj' Hlt. pose proof (commits_no_waw s c' i' r f' j' Hcm' Hj') as Hw.
    assert (expected s Waw c' i' = true); [|congruence]. apply expected_true. exists r.
    split; [apply reservations_write; by exists j', f'|]. apply (conflict_waw s0 s r _ Hex). exists c, i. split_and!; try done.
    - apply andb_prop in Hcm as [Hab _]. by destruct (q_abort (Q c i)).
    - apply reservations_write. by exists j, f. }
  pose proof (Hlt c i j f c' i' j' f' Hc Hi Hcm Hj Hcm' Hj'). pose proof (Hlt c' i' j' f' c i j f Hc' Hi' Hcm' Hj' Hcm Hj). lia.
Qed.

Lemma commit_start_ok s0 s : batch_ok → executed s0 s →
  commit_ok context master_coordinator next_transaction e (word_at s) (st_of s).
Proof.
  intros Hb Hex. split.
  - apply Hb.
  - apply Hb.
  - intros c i Hc Hi. eapply txn_id_uint; done.
  - intros c i Hc Hi. by apply Hb.
  - intros r v v' (c & i & j & f & Hc & Hi & Hcm & Hj & ->) (c' & i' & j' & f' & Hc' & Hi' & Hcm' & Hj' & ->).
    destruct (committed_writer_unique s0 s r c i j f c' i' j' f') as [-> ->]; try done. f_equal.
    assert (j = j') as ->; [|by rewrite Hj in Hj'; injection Hj' as ->].
    apply (NoDup_lookup (q_updates (Q c' i')).*1 _ _ r); [by apply (bo_queries _ _ _ _ Hb)|..]; rewrite list_lookup_fmap; [by rewrite Hj|by rewrite Hj'].
Qed.

Notation commit_inv s := (commit_inv context master_coordinator next_transaction e (value_at s) (word_at s) (st_of s)).

Lemma commit_start_inv s0 s s' : batch_ok → executed s0 s' → handover s s' →
  commit_inv s' (nodes s') (tk_of s') (exec_flight context s') (λ _ _, Pre).
Proof.
  intros Hb Hex Hh. rewrite (ho_packets _ _ Hh).
  assert (∀ c w t, (c < N)%nat → (w < W)%nat → t ∈ tk_of s' c w →
    match t with TReserveTxn _ | TDecide _ | TWrite _ _ | TWaitResponses _ | TReserveRow _ _ _ _ | TSwapRow _ _ _ _ _ _ => False | _ => True end) as Htask.
  { intros c w t Hc Hw Hin. rewrite (ho_tasks _ _ Hh) in Hin by done. by apply (executor_start_tasks context w), commit_tasks_start. }
  split; try done.
  - intros c. by apply (ho_nodes _ _ Hh).
  - intros c Hc. destruct (proj2 (ho_nodes _ _ Hh c) Hc) as [n Hn]. exists n. split; [done|].
    rewrite <- (node_of_eq s' c n Hn). by apply Hh.
  - intros c w Hc Hw. rewrite (ho_tasks _ _ Hh) by done. by apply plan_commit_start.
  - intros c w Hc Hw. apply ordered_none. intros i. split; intros Hin; by apply (Htask c w _ Hc Hw) in Hin.
  - intros c w i j Hc Hw Hin. by apply (Htask c w _ Hc Hw) in Hin.
  - intros c n i Hn Hc Hi. unfold AriaCommit.txn_inv. rewrite <- (node_of_eq s' c n Hn). destruct (q_abort (Q c i)) eqn:Hab.
    + split; [|done]. by apply Hex.
    + split; [done|]. exists false, false, false. split; [by apply Hex|]. split; [apply Nat.le_0_l|]. split; [done|]. by intros [].
  - intros c n r Hn Hc. unfold word_at. by rewrite (node_of_eq s' c n Hn).
  - intros c n r Hn Hc. left. unfold value_at. by rewrite (node_of_eq s' c n Hn).
Qed.

(** ** Its end *)

Definition commit_finished s : Prop :=
  (∀ c w, (c < N)%nat → (w < W)%nat → tk_of s c w = commit_done w) ∧ exec_flight context s = [].

Notation run_phase := (run_phase context master_coordinator next_transaction).
Notation step := (step context master_coordinator next_transaction).

(** The commit phase: no executor stops the process, and when the phase is over
    each row has the value of its committed writer, or its old one. *)
Lemma commit_phase s0 s s' evs s'' : batch_ok → executed s0 s' → handover s s' → run_phase s' evs = Done s'' →
  (∀ c w b, (w < W)%nat → step s'' (Run c w b) ≠ Crash) ∧
  (commit_finished s'' →
     (∀ c i j r f, (c < N)%nat → (i < B)%nat → commits s' c i = true → q_updates (Q c i) !! j = Some (r, f) →
        db_of s'' r = field (storage_of (node_of s' c) i) f) ∧
     (∀ r, (∀ c i j f, (c < N)%nat → (i < B)%nat → commits s' c i = true → q_updates (Q c i) !! j ≠ Some (r, f)) →
        db_of s'' r = db_of s0 r)).
Proof.
  intros Hb Hex Hh Hrun. pose proof (commit_start_ok s0 s' Hb Hex) as Hok.
  destruct (phase_inv context master_coordinator next_transaction
    (λ ns tk F, ∃ σ, commit_inv s' ns tk F σ)) with (s := s') (evs := evs) (s' := s'') as [(σ & I) Hcrash]; [..|done|].
  - intros ns tk tk' F F' Htk HF (σ & I). exists σ. eapply commit_inv_perm; [exact HF|]. by eapply commit_inv_tasks.
  - intros ns tk F c (σ & I). apply I.
  - intros ns tk F R c w b n wk t ts (σ & I) Hc Hw Hn Ht HF.
    destruct (commit_step _ _ _ _ _ _ _ Hok ns tk F R σ c w b n wk t ts I Hc Hw Hn Ht HF) as (n' & wk' & σ' & ? & ?).
    exists n', wk'. split; [done|]. by exists σ'.
  - exists (λ _ _, Pre). by eapply commit_start_inv.
  - split; [done|]. intros [Ht HF].
    assert (∀ r : row_id K, (master r < N)%nat) as Hm by (intros r; apply Hb).
    assert (∀ c i, (c < N)%nat → (i < B)%nat → σ c i = Post) as Hpost.
    { intros c i Hc Hi. pose proof (co_workers _ _ _ _ _ _ Hok) as HW. assert (i `mod` W < W)%nat as Hmi by (apply Nat.mod_upper_bound; lia).
      pose proof (ci_plan _ _ _ _ _ _ _ _ _ _ _ I c (i `mod` W) Hc Hmi) as Hp. rewrite Ht in Hp by done. by apply Hp. }
    split.
    + intros c i j r f Hc Hi Hcm Hj.
      destruct (ci_cover _ _ _ _ _ _ _ _ _ _ _ I c i j r f Hc Hi (Hpost c i Hc Hi) Hcm Hj) as [(n & Hn & Hv)|[Hin|(src & w & Hin)]].
      * unfold AriaReadPhase.db_of, value_at. by rewrite (node_of_eq _ _ _ Hn).
      * pose proof (co_workers _ _ _ _ _ _ Hok) as HW. rewrite Ht in Hin; [|done|apply Nat.mod_upper_bound; lia].
        unfold commit_done in Hin. set_solver.
      * rewrite HF in Hin. by apply not_elem_of_nil in Hin.
    + intros r Hno. destruct (ci_nodes _ _ _ _ _ _ _ _ _ _ _ I (master r) (Hm r)) as (n & Hn & _).
      unfold AriaReadPhase.db_of at 1. unfold value_at at 1. rewrite (node_of_eq _ _ _ Hn).
      destruct (ci_values _ _ _ _ _ _ _ _ _ _ _ I (master r) n r Hn (Hm r)) as [->|[_ (c & i & j & f & Hc & Hi & Hcm & Hj & _)]].
      * unfold AriaReadPhase.db_of. by apply Hex.
      * by destruct (Hno c i j f Hc Hi Hcm).
Qed.

End commit_phase.
