(* ===== verification/AriaSerial.v ===== *)
(** * Aria is serializable

    A reference for a batch: which transactions commit, and the serial order in
    which they can be run instead.  The two phases of the executors, in any
    interleaving, leave the database as the serial run does. *)

From stdpp Require Import sorting.
From S2P Require Import Prelude Bits AriaHelper AriaTxn AriaSystem AriaFlight AriaPhase AriaExec AriaCheck AriaRead AriaReadPhase AriaCommit AriaCommitPhase.

(** ** Sorted lists *)

Lemma StronglySorted_weaken {A} (R S : A → A → Prop) (l : list A) :
  StronglySorted R l → (∀ x y, x ∈ l → y ∈ l → R x y → S x y) → StronglySorted S l.
Proof.
  induction 1 as [|x l Hl IH Hx]; intros HRS; constructor.
  - apply IH. intros y z Hy Hz. apply HRS; by right.
  - rewrite Forall_forall in Hx |- *. intros y Hy. apply HRS; [by left|by right|by apply Hx].
Qed.

Lemma StronglySorted_sublist {A} (R : A → A → Prop) (P : A → Prop) `{∀ x, Decision (P x)} (l : list A) :
  StronglySorted R l → StronglySorted R (filter P l).
Proof.
  induction 1 as [|x l Hl IH Hx]; [constructor|]. rewrite filter_cons. case_decide; [|done].
  constructor; [done|]. by apply Forall_filter.
Qed.

Lemma StronglySorted_reverse {A} (R : A → A → Prop) (l : list A) :
  StronglySorted R l → StronglySorted (λ x y, R y x) (reverse l).
Proof.
  induction 1 as [|x l Hl IH Hx]; [constructor|]. rewrite reverse_cons. apply StronglySorted_app.
  split; [|split; [exact IH|repeat constructor]]. intros y z Hy ->%list_elem_of_singleton. rewrite elem_of_reverse in Hy. rewrite Forall_forall in Hx. exact (Hx y Hy).
Qed.

Section serial.
Context {K V : Type} `{Countable K} `{Inhabited V} (context : AriaContext) (master_coordinator : Z → nat).
Context (next_transaction : nat → Z → nat → Query K V) (e : Z).
Notation N := (coordinator_num context).
Notation W := (worker_num context).
Notation B := (batch_size context).
Notation Q x := (next_transaction x.1 e x.2).
Notation txn_id x := (txn_id context x.1 x.2).
Notation reservations := (reservations context).
Implicit Types (x y : nat * nat) (r : row_id K) (q : Query K V).

(** ** The reference *)

(** The transactions of the batch by node and index, in the order of their ids. *)
Definition batch : list (nat * nat) := i ← seq 0 B; c ← seq 0 N; [(c, i)].

(** A transaction with a smaller id reserves the row. *)
Definition before r (wr : bool) (tid : Z) : bool :=
  existsb (λ x, negb (q_abort (Q x)) && bool_decide ((r, wr) ∈ reservations (Q x)) && (txn_id x <? tid)%Z) batch.

Definition has_conflict (k : conflict) x : bool :=
  existsb (λ y : row_id K * bool, eqb y.2 (of_write k) && before y.1 (match k with War => false | _ => true end) (txn_id x)) (reservations (Q x)).

Definition committed x : bool :=
  negb (q_abort (Q x)) &&
  (decision context (second_txn context x.1 x.2 e 0 (Q x) (has_conflict Waw x) (has_conflict War x) (has_conflict Raw x))).1.

Definition read_only x : bool := aria_read_only_optmization context && bool_decide (q_updates (Q x) = []).

(** Read-only transactions that were not checked; then those that read a row an
    earlier one writes, the latest first; then the others, the earliest first. *)
Definition serial_order : list (nat * nat) :=
  filter (λ x, committed x && read_only x = true) batch ++
  reverse (filter (λ x, committed x && negb (read_only x) && has_conflict Raw x = true) batch) ++
  filter (λ x, committed x && negb (read_only x) && negb (has_conflict Raw x) = true) batch.

(** A transaction run alone: it reads the database and writes its fields. *)
Definition run_query q (st : storage V) (db : row_id K → V) : row_id K → V :=
  let st := q_compute q true (read_fields q db st) in
  foldl (λ db u r, if decide (r = u.1) then field st u.2 else db r) db (q_updates q).

Definition serial_run (st : nat → nat → storage V) (db : row_id K → V) (l : list (nat * nat)) : row_id K → V :=
  foldl (λ db x, run_query (Q x) (st x.1 x.2) db) db l.

(** ** Transactions that do not disturb each other *)

Definition writes x r : Prop := ∃ j f, q_updates (Q x) !! j = Some (r, f).
Definition reads x r : Prop := ∃ j li f, q_searches (Q x) !! j = Some (li, r, f).

(** What [x] writes is neither read nor written by [y]. *)
Definition undisturbed x y : Prop := ∀ r, writes x r → ¬ reads y r ∧ ¬ writes y r.

Lemma run_query_spec q st db : NoDup (q_updates q).*1 →
  (∀ r, (∀ j f, q_updates q !! j ≠ Some (r, f)) → run_query q st db r = db r) ∧
  (∀ j r f, q_updates q !! j = Some (r, f) → run_query q st db r = field (q_compute q true (read_fields q db st)) f).
Proof.
  unfold run_query. cbv zeta. generalize (q_compute q true (read_fields q db st)). intros st' Hnd. revert db.
  induction (q_updates q) as [|[r0 f0] l IH]; intros db; [done|]. simpl in Hnd. apply NoDup_cons in Hnd as [Hr0 Hnd].
  destruct (IH Hnd (λ r, if decide (r = r0) then field st' f0 else db r)) as [IH0 IH1]. cbn [foldl fst snd]. split.
  - intros r Hr. rewrite IH0; [|intros j f; apply (Hr (S j) f)]. rewrite decide_False; [done|]. intros ->. by apply (Hr 0%nat f0).
  - intros [|j] r f Hj; simpl in Hj.
    + injection Hj as <- <-. rewrite IH0; [by rewrite decide_True|]. intros j f Hj. apply Hr0, list_elem_of_fmap.
      exists (r0, f). split; [done|by eapply list_elem_of_lookup_2].
    + by eapply IH1.
Qed.

Lemma read_fields_ext q (db db' : row_id K → V) st : (∀ j li r f, q_searches q !! j = Some (li, r, f) → db r = db' r) →
  read_fields q db st = read_fields q db' st.
Proof.
  unfold read_fields. intros Hdb. induction (q_searches q) as [|[[li r] f] l IH]; [done|]. simpl.
  rewrite IH by (intros j; apply (Hdb (S j))). by rewrite (Hdb 0%nat li r f).
Qed.

(** Such transactions have the same effect as all of them on the first state. *)
Lemma serial_run_spec st db l : (∀ x, x ∈ l → query_ok (Q x)) → StronglySorted undisturbed l →
  (∀ r, (∀ x, x ∈ l → ¬ writes x r) → serial_run st db l r = db r) ∧
  (∀ x j r f, x ∈ l → q_updates (Q x) !! j = Some (r, f) →
     serial_run st db l r = field (q_compute (Q x) true (read_fields (Q x) db (st x.1 x.2))) f).
Proof.
  induction l as [|y l IH] using rev_ind; intros Hq Hs; [split; [done|]; by intros ? ? ? ? ?%not_elem_of_nil|].
  apply StronglySorted_app in Hs as (Hy & Hs & _). destruct IH as [IH0 IH1]; [intros x Hx; apply Hq; set_solver|done|].
  assert (query_ok (Q y)) as Hqy by (apply Hq; set_solver).
  destruct (run_query_spec (Q y) (st y.1 y.2) (serial_run st db l) (qo_rows _ Hqy)) as [R0 R1].
  unfold serial_run in *. rewrite foldl_app. cbn [foldl]. split.
  - intros r Hr. rewrite R0; [apply IH0; set_solver|]. intros j f Hj. apply (Hr y); [set_solver|by exists j, f].
  - intros x j r f [Hx| ->%list_elem_of_singleton]%elem_of_app Hj.
    + rewrite R0; [by eapply IH1|]. intros j' f' Hj'. destruct (Hy x y Hx ltac:(set_solver) r) as [_ Hw]; [by exists j, f|].
      apply Hw. by exists j', f'.
    + rewrite (R1 j r f Hj). do 2 f_equal. apply read_fields_ext. intros j' li r' f' Hj'. apply IH0. intros x Hx Hw.
      destruct (Hy x y Hx ltac:(set_solver) r' Hw) as [Hr _]. apply Hr. by exists j', li, f'.
Qed.

(** ** The order *)

Lemma batch_elem x : x ∈ batch ↔ (x.1 < N)%nat ∧ (x.2 < B)%nat.
Proof.
  unfold batch. rewrite list_elem_of_bind. split.
  - intros (i & Hc & Hi%elem_of_seq). apply list_elem_of_bind in Hc as (c & ->%list_elem_of_singleton & Hc%elem_of_seq). simpl. lia.
  - destruct x as [c i]. simpl. intros [Hc Hi]. exists i. split; [|apply elem_of_seq; lia]. apply list_elem_of_bind.
    exists c. split; [by apply list_elem_of_singleton|apply elem_of_seq; lia].
Qed.

Lemma batch_sorted : StronglySorted (λ x y, txn_id x < txn_id y) batch.
Proof.
  unfold batch. assert (∀ n k, StronglySorted (λ x y, txn_id x < txn_id y) (seq k n ≫= λ i, seq 0 N ≫= λ c, [(c, i)])) as Hall; [|apply Hall].
  induction n as [|n IH]; intros k; [constructor|]. simpl. apply StronglySorted_app_2; [| |apply IH].
  - intros x y Hx Hy. apply list_elem_of_bind in Hx as (c & ->%list_elem_of_singleton & Hc%elem_of_seq).
    apply list_elem_of_bind in Hy as (i & Hy & Hi%elem_of_seq). apply list_elem_of_bind in Hy as (c' & ->%list_elem_of_singleton & Hc'%elem_of_seq).
    unfold AriaExec.txn_id. simpl. nia.
  - assert (∀ m c0, StronglySorted (λ x y, txn_id x < txn_id y) (seq c0 m ≫= λ c, [(c, k)])) as Hrow; [|apply Hrow].
    induction m as [|m IHm]; intros c0; [constructor|]. simpl. constructor; [apply IHm|]. apply Forall_forall.
    intros y Hy. apply list_elem_of_bind in Hy as (c & ->%list_elem_of_singleton & Hc%elem_of_seq). unfold AriaExec.txn_id. simpl. lia.
Qed.

Lemma before_iff r wr tid : before r wr tid = true ↔ reserved_before context next_transaction e r wr tid.
Proof.
  unfold before. rewrite existsb_exists. split.
  - intros ([c i] & Hin%list_elem_of_In & [[Ha Hr%bool_decide_eq_true]%andb_prop Ht%Z.ltb_lt]%andb_prop). apply batch_elem in Hin as [Hc Hi].
    exists c, i. split_and!; try done. by destruct (q_abort _).
  - intros (c & i & Hc & Hi & Ha & Hr & Ht). exists (c, i). split; [by apply list_elem_of_In, batch_elem|]. simpl. rewrite Ha. simpl.
    rewrite bool_decide_true by done. by apply Z.ltb_lt.
Qed.

Lemma has_conflict_iff k x : has_conflict k x = true ↔
  ∃ r, (r, of_write k) ∈ reservations (Q x) ∧ before r (match k with War => false | _ => true end) (txn_id x) = true.
Proof.
  unfold has_conflict. rewrite existsb_exists. split.
  - intros ([r wr] & Hin%list_elem_of_In & [Hwr%eqb_prop Hb]%andb_prop). simpl in *. subst wr. by exists r.
  - intros (r & Hr & Hb). exists (r, of_write k). split; [by apply list_elem_of_In|]. simpl. by rewrite eqb_reflx.
Qed.

(** ** No transaction disturbs a later one in the order *)

Lemma committed_alive x : committed x = true → q_abort (Q x) = false.
Proof. unfold committed. intros [Ha _]%andb_prop. by destruct (q_abort (Q x)). Qed.

Lemma writes_not_read_only x r : writes x r → read_only x = false.
Proof. intros (j & f & Hj). unfold read_only. rewrite bool_decide_false; [apply andb_false_r|]. intros Hnil. by rewrite Hnil in Hj. Qed.

Lemma writes_reserved x r : writes x r → (r, true) ∈ reservations (Q x).
Proof. by rewrite reservations_write. Qed.

Lemma conflict_found k x y r wr : x ∈ batch → q_abort (Q x) = false → (r, wr) ∈ reservations (Q x) →
  (r, of_write k) ∈ reservations (Q y) → txn_id x < txn_id y → wr = match k with War => false | _ => true end → has_conflict k y = true.
Proof.
  intros [Hc Hi]%batch_elem Ha Hx Hy Hlt ->. apply has_conflict_iff. exists r. split; [done|]. apply before_iff. by exists x.1, x.2.
Qed.

Lemma committed_waw x r : committed x = true → writes x r → has_conflict Waw x = false.
Proof.
  intros Hc Hro%writes_not_read_only. unfold committed, read_only, decision, is_read_only in *. apply andb_prop in Hc as [_ Hd].
  change (writeSet _) with (write_keys (Q x)) in Hd. rewrite write_keys_nil, Hro in Hd. cbn [waw second_txn] in Hd.
  by destruct (has_conflict Waw x).
Qed.

Section order.
Hypothesis Hserial : aria_snapshot_isolation context = false.
(** The rows of local indexes are not written. *)
Hypothesis Hindex : ∀ x y j r f, x ∈ batch → y ∈ batch → q_searches (Q x) !! j = Some (true, r, f) → ¬ writes y r.

Lemma committed_flags x : committed x = true → read_only x = false →
  has_conflict Waw x = false ∧ (has_conflict War x = false ∨ has_conflict Raw x = false).
Proof using Hserial.
  unfold committed, read_only, decision, is_read_only. intros [_ Hd]%andb_prop Hro. change (writeSet _) with (write_keys (Q x)) in Hd.
  rewrite write_keys_nil, Hro, Hserial in Hd. cbn [waw war raw second_txn] in Hd.
  destruct (has_conflict Waw x), (has_conflict War x), (has_conflict Raw x), (aria_reordering_optmization context); simpl in Hd; auto.
Qed.

Lemma undisturbed_ids x y : x ∈ batch → y ∈ batch → committed x = true → committed y = true → read_only y = false →
  txn_id x ≠ txn_id y → (txn_id x < txn_id y → has_conflict Raw y = false) → (txn_id y < txn_id x → has_conflict War x = false) →
  undisturbed x y.
Proof using Hserial Hindex.
  intros Hx Hy Hcx Hcy Hroy Hne Hraw Hwar r Hw. pose proof (writes_reserved x r Hw) as Hrw. pose proof (writes_not_read_only x r Hw) as Hrox.
  destruct (committed_flags x Hcx Hrox) as [Hwx _]. destruct (committed_flags y Hcy Hroy) as [Hwy _].
  apply committed_alive in Hcx, Hcy. split.
  - intros (j & [] & f & Hj); [by apply (Hindex y x j r f)|].
    assert ((r, false) ∈ reservations (Q y)) as Hr by (apply reservations_read; split; [exact Hroy|by exists j, f]).
    destruct (Z.lt_total (txn_id x) (txn_id y)) as [Hlt|[|Hlt]]; [|done|].
    + pose proof (conflict_found Raw x y r true Hx Hcx Hrw Hr Hlt eq_refl). by rewrite Hraw in *.
    + pose proof (conflict_found War y x r false Hy Hcy Hr Hrw Hlt eq_refl). by rewrite Hwar in *.
  - intros Hw'%writes_reserved. destruct (Z.lt_total (txn_id x) (txn_id y)) as [Hlt|[|Hlt]]; [|done|].
    + by rewrite (conflict_found Waw x y r true) in Hwy.
    + by rewrite (conflict_found Waw y x r true) in Hwx.
Qed.

Lemma serial_order_elem x : x ∈ serial_order ↔ x ∈ batch ∧ committed x = true.
Proof using master_coordinator.
  unfold serial_order. rewrite !elem_of_app, elem_of_reverse, !list_elem_of_filter.
  destruct (committed x), (read_only x), (has_conflict Raw x); simpl; intuition congruence.
Qed.

Lemma serial_order_sorted : StronglySorted undisturbed serial_order.
Proof using Hserial Hindex.
  unfold serial_order. pose proof batch_sorted as Hb.
  assert (∀ x y, read_only x = true → undisturbed x y) as Hro.
  { intros x y Hx r Hw%writes_not_read_only. congruence. }
  set (P2 := λ x, committed x && negb (read_only x) && has_conflict Raw x = true).
  set (P3 := λ x, committed x && negb (read_only x) && negb (has_conflict Raw x) = true).
  assert (∀ x, P2 x → committed x = true ∧ read_only x = false ∧ has_conflict Raw x = true ∧ has_conflict War x = false) as H2.
  { intros x [[Hc Hr%negb_true_iff]%andb_prop Hraw]%andb_prop. destruct (committed_flags x Hc Hr) as [_ [|]]; [done|congruence]. }
  assert (∀ x, P3 x → committed x = true ∧ read_only x = false ∧ has_conflict Raw x = false) as H3.
  { intros x [[Hc Hr%negb_true_iff]%andb_prop Hraw%negb_true_iff]%andb_prop. done. }
  apply StronglySorted_app. split; [|split].
  - intros x y [[_ Hx]%andb_prop _]%list_elem_of_filter _. by apply Hro.
  - eapply StronglySorted_weaken; [by apply StronglySorted_sublist, Hb|].
    intros x y [[_ Hx]%andb_prop _]%list_elem_of_filter _ _. by apply Hro.
  - apply StronglySorted_app. split; [|split].
    + intros x y Hx [Hy%H3 Hyb]%list_elem_of_filter. rewrite elem_of_reverse, list_elem_of_filter in Hx. destruct Hx as [Hx%H2 Hxb].
      destruct Hx as (? & ? & Hx & ?), Hy as (? & ? & Hy). apply undisturbed_ids; try done. intros Hid. apply txn_id_inj in Hid as [Hc Hi].
      * assert (x = y) as -> by (by destruct x, y; simpl in *; subst). congruence.
      * by apply batch_elem in Hxb as [? ?].
      * by apply batch_elem in Hyb as [? ?].
    + eapply StronglySorted_weaken; [by apply StronglySorted_reverse, StronglySorted_sublist, Hb|].
      intros x y Hx Hy Hlt. rewrite elem_of_reverse, list_elem_of_filter in Hx, Hy. simpl in Hlt.
      destruct Hx as [(? & ? & ? & ?)%H2 ?], Hy as [(? & ? & ? & ?)%H2 ?]. apply undisturbed_ids; try done; lia.
    + eapply StronglySorted_weaken; [by apply StronglySorted_sublist, Hb|].
      intros x y [Hx%H3 ?]%list_elem_of_filter [Hy%H3 ?]%list_elem_of_filter Hlt.
      destruct Hx as (? & ? & ?), Hy as (? & ? & ?). apply undisturbed_ids; try done; lia.
Qed.

End order.

(** ** The batch *)

Notation db_of := (db_of master_coordinator).
Notation run_phase := (run_phase context master_coordinator next_transaction).

(** The analysis of the words is that of the reference. *)
Lemma expected_conflict s0 s k x : executed context master_coordinator next_transaction e s0 s →
  expected context master_coordinator next_transaction e (word_at s) k x.1 x.2 = has_conflict k x.
Proof.
  intros Hex. apply eq_true_iff_eq. rewrite expected_true, has_conflict_iff. setoid_rewrite before_iff.
  apply exist_proper. intros r. apply and_iff_compat_l. unfold conflict_at.
  destruct k; [apply (ex_writes _ _ _ _ _ _ Hex)|apply (ex_reads _ _ _ _ _ _ Hex)|apply (ex_writes _ _ _ _ _ _ Hex)].
Qed.

Lemma commits_committed s0 s x : executed context master_coordinator next_transaction e s0 s →
  commits context master_coordinator next_transaction e (word_at s) x.1 x.2 = committed x.
Proof. intros Hex. unfold commits, decided_txn, committed. by rewrite !(expected_conflict s0 s _ x Hex). Qed.

Notation batch_ok := (batch_ok context master_coordinator next_transaction e).
Notation storages_of s := (λ c i, storage_of (node_of s c) i).

(** A row has the value of the committed transaction that writes it. *)
Lemma batch_outcome s evs s1 s2 evs' s3 :
  batch_ok → read_start context master_coordinator next_transaction e s →
  run_phase s evs = Done s1 → read_finished context s1 →
  handover context s1 s2 → run_phase s2 evs' = Done s3 → commit_finished context s3 →
  (∀ x j r f, x ∈ batch → committed x = true → q_updates (Q x) !! j = Some (r, f) →
     db_of s3 r = field (q_compute (Q x) true (read_fields (Q x) (db_of s) (storage_of (node_of s x.1) x.2))) f) ∧
  (∀ r, (∀ x, x ∈ batch → committed x = true → ¬ writes x r) → db_of s3 r = db_of s r).
Proof.
  intros Hb Hs Hrun Hfin Hh Hrun' Hfin'.
  destruct (read_phase _ _ _ _ s evs s1 Hb Hs Hrun) as [_ Hex]. specialize (Hex Hfin).
  apply (handover_executed _ _ _ _ _ _ _ Hb Hex) in Hh as Hex'.
  destruct (commit_phase _ _ _ _ s s1 s2 evs' s3 Hb Hex' Hh Hrun') as [_ Hout]. destruct (Hout Hfin') as [Hw Hn]. split.
  - intros x j r f [Hc Hi]%batch_elem Hcm Hj. pose proof (commits_committed s s2 x Hex') as Heq.
    rewrite (Hw x.1 x.2 j r f Hc Hi); [|by rewrite Heq|done]. f_equal. apply (ex_ready _ _ _ _ _ _ Hex'); [done..|].
    by apply committed_alive.
  - intros r Hr. apply Hn. intros c i j f Hc Hi Hcm Hj. pose proof (commits_committed s s2 (c, i) Hex') as Heq. simpl in Heq.
    rewrite Heq in Hcm. apply (Hr (c, i)); [by apply batch_elem|done|by exists j, f].
Qed.


(** No step of an executor stops the process. *)
Definition no_crash (s : System K V) : Prop :=
  ∀ c w b, (w < worker_num context)%nat → step context master_coordinator next_transaction s (Run c w b) ≠ Crash.



End serial.

(** ** A batch of two nodes

    Node 0 reads its own row and writes a row of node 1; node 1 reads that row
    before it is written, and writes another one. *)
Definition demo_context : AriaContext := mkContext 2 1 1 1 1 true true false.
Definition demo_master (p : Z) : nat := if decide (p = 1) then 1%nat else 0%nat.
Definition demo_query (c : nat) (e : Z) (i : nat) : Query Z Z :=
  mkQuery [(false, (0, Z.of_nat c, 0), 0%nat)] false
    (λ phase st, if phase then <[1%nat := field st 0 + 10]> st else st)
    [((0, 1, Z.of_nat c), 1%nat)].

Definition runs (c w n : nat) : list event := replicate n (Run c w false).
Definition demo_new : System Z Z := new_system demo_context (λ _, ∅).
Definition demo_after (x : blocking (System Z Z)) : System Z Z := match x with Done s => s | _ => demo_new end.
Notation demo_steps := (steps demo_context demo_master demo_query).
Notation demo_phase := (run_phase demo_context demo_master demo_query).

Definition demo_start : System Z Z := demo_after (demo_steps demo_new
  (runs 0 1 6 ++ [Dispatch 0 1; Receive 1 0 0] ++ runs 1 1 6 ++ runs 0 0 1 ++ runs 1 0 1)).
Definition demo_read : list event := runs 0 0 16 ++ runs 1 0 18 ++ [Dispatch 0 0; Receive 1 0 0] ++ runs 1 0 6.
Definition demo_barrier : list event :=
  runs 0 1 3 ++ runs 1 1 3 ++ [Dispatch 0 1; Dispatch 1 1; Receive 0 1 0; Receive 1 0 0] ++ runs 0 1 4 ++ runs 1 1 4 ++
  runs 0 0 3 ++ runs 1 0 3 ++ runs 0 1 1 ++ runs 1 1 2 ++ [Dispatch 1 1; Receive 0 1 0] ++ runs 0 1 5 ++
  [Dispatch 0 1; Receive 1 0 0] ++ runs 1 1 4.
Definition demo_commit : list event :=
  runs 0 0 8 ++ runs 1 0 8 ++ [Dispatch 0 0; Receive 1 0 0] ++ runs 1 0 10 ++ [Dispatch 1 0; Receive 0 1 0] ++ runs 0 0 10 ++
  [Dispatch 0 0; Receive 1 0 0] ++ runs 1 0 6.
Definition demo_executed : System Z Z := demo_after (demo_phase demo_start demo_read).
Definition demo_handed : System Z Z := demo_after (demo_steps demo_executed demo_barrier).
Definition demo_end : System Z Z := demo_after (demo_phase demo_handed demo_commit).

Lemma demo_batch_ok : batch_ok demo_context demo_master demo_query 1.
Proof.
  split; simpl; try lia.
  - intros p. unfold demo_master. case_decide; lia.
  - unfold epoch_ok. lia.
  - intros c i Hc Hi. split; simpl; try (by repeat constructor; simpl; lia); try done.
    all: apply NoDup_singleton.
Qed.

Lemma demo_two (P : nat → Prop) : P 0%nat → P 1%nat → ∀ c, (c < coordinator_num demo_context)%nat → P c.
Proof. intros H1 H2 c Hc. simpl in Hc. destruct c as [|[|c]]; [done..|lia]. Qed.

Lemma demo_workers (P : nat → nat → Prop) : P 0%nat 0%nat → P 1%nat 0%nat →
  ∀ c w, (c < coordinator_num demo_context)%nat → (w < worker_num demo_context)%nat → P c w.
Proof. intros H1 H2 c w Hc Hw. simpl in Hc, Hw. replace w with 0%nat by lia. by apply demo_two with (P := λ c, P c 0%nat). Qed.

Lemma demo_nodes (ns : gmap nat (Node Z Z)) : bool_decide (dom ns = {[0; 1]}%nat) = true →
  ∀ c, is_Some (ns !! c) ↔ (c < coordinator_num demo_context)%nat.
Proof. intros Hd%bool_decide_eq_true c. rewrite <- elem_of_dom, Hd. simpl. rewrite elem_of_union, !elem_of_singleton. lia. Qed.

Lemma demo_read_start : read_start demo_context demo_master demo_query 1 demo_start.
Proof.
  split.
  - apply demo_nodes. by vm_compute.
  - apply demo_two; by vm_compute.
  - intros c r Hc. unfold word_at. replace (rows (node_of demo_start c)) with (∅ : gmap (row_id Z) (Row Z)).
    + unfold search_row. by rewrite lookup_empty.
    + revert c Hc. apply demo_two; by vm_compute.
  - by intros c i [|j] r v Hc Hi.
  - apply demo_workers; by vm_compute.
  - by vm_compute.
Qed.

Lemma demo_read_finished : read_finished demo_context demo_executed.
Proof. split; [|by vm_compute]. apply demo_workers; by vm_compute. Qed.

Lemma demo_handover : handover demo_context demo_executed demo_handed.
Proof.
  split.
  - apply demo_nodes. by vm_compute.
  - apply demo_two; split_and!; by vm_compute.
  - apply demo_two; by vm_compute.
  - apply demo_workers; by vm_compute.
  - by vm_compute.
Qed.

Lemma demo_commit_finished : commit_finished demo_context demo_end.
Proof. split; [|by vm_compute]. apply demo_workers; by vm_compute. Qed.

Lemma demo_reads : demo_phase demo_start demo_read = Done demo_executed.
Proof. by vm_compute. Qed.
Lemma demo_commits : demo_phase demo_handed demo_commit = Done demo_end.
Proof. by vm_compute. Qed.



