(* ===== verification/AriaBarrier.v ===== *)
(** * Aria: the barrier between the phases

    A run of the whole system, managers and dispatchers included, in which the
    barrier lets a node commit before a reservation has reached it.  The
    dispatcher of a node takes one message of each thread in turn, so the STOP of
    the manager passes the second message of an executor. *)

From S2P Require Import Prelude Bits AriaHelper AriaTxn AriaSystem AriaFlight AriaPhase AriaExec AriaCheck AriaRead AriaReadPhase AriaCommit AriaCommitPhase AriaSerial.

(** Two nodes with one executor, batches of two, and messages flushed after each
    transaction; transaction [i] of each node increments row [i] of node 1. *)
Definition race_context : AriaContext := mkContext 2 1 1 2 1 true true false.
Definition race_query (c : nat) (e : Z) (i : nat) : Query Z Z :=
  mkQuery [(false, (0, 1, Z.of_nat i), 0%nat)] false
    (λ phase st, if phase then <[1%nat := field st 0 + 1]> st else st)
    [((0, 1, Z.of_nat i), 1%nat)].
Definition race_new : System Z Z := new_system race_context (λ _, ∅).
Notation race_steps := (steps race_context demo_master race_query).

(** The read phase; at its end node 0 has two messages with reservations. *)
Definition race_read : list event :=
  runs 0 1 6 ++ [Dispatch 0 1; Receive 1 0 0] ++ runs 1 1 6 ++ runs 0 0 13 ++ runs 1 0 30 ++
  [Dispatch 0 0; Dispatch 0 0; Receive 1 0 0; Receive 1 0 0] ++ runs 1 0 6 ++
  [Dispatch 1 0; Dispatch 1 0; Receive 0 1 0; Receive 0 1 0] ++ runs 0 0 15.

(** A turn of the dispatcher sends the first one and STOP; the nodes stop and
    acknowledge; the next turn sends the second one and the signal to commit. *)
Definition race_barrier : list event :=
  runs 0 1 3 ++ [Dispatch 0 0; Dispatch 0 1; Receive 1 0 0; Receive 1 0 0] ++ runs 1 0 9 ++ runs 1 1 7 ++ runs 1 0 3 ++ runs 1 1 2 ++
  [Dispatch 1 0; Dispatch 1 1; Dispatch 1 0; Dispatch 1 1; Receive 0 1 0; Receive 0 1 0] ++ runs 0 1 4 ++ runs 0 0 3 ++ runs 0 1 6 ++
  [Dispatch 0 0; Dispatch 0 1; Receive 1 0 0; Receive 1 0 0] ++ runs 1 1 4.

Definition race_commit : list event :=
  runs 1 0 28 ++ runs 0 0 10 ++ [Dispatch 0 0; Dispatch 0 0; Receive 1 0 0; Receive 1 0 0] ++ runs 1 0 8 ++
  [Dispatch 1 0; Dispatch 1 0; Receive 0 1 0; Receive 0 1 0] ++ runs 0 0 19 ++ [Dispatch 0 0; Dispatch 0 0; Receive 1 0 0; Receive 1 0 0] ++ runs 1 0 6.

Definition race_end : System Z Z := demo_after (race_steps race_new (race_read ++ race_barrier ++ race_commit)).

(** What the executors decided: the transactions that were committed. *)
Definition decided (s : System Z Z) (x : nat * nat) : bool :=
  match transactions (node_of s x.1) !! x.2 with
  | Some t => negb (abort_no_retry t) && (decision race_context t).1
  | None => false
  end.
Definition decided_commits (s : System Z Z) : list (nat * nat) := filter (λ x, decided s x = true) (batch race_context).

(** C27. The barrier does not wait for messages that are still queued: there is a
    run of the system from its start in which every message is delivered and both
    nodes finish the commit phase, and the database is not that of any serial
    order of the committed transactions; two of them increment the same row once. *)
Theorem barrier_overtaken : ∃ evs s,
  race_steps race_new evs = Done s ∧ commit_finished race_context s ∧ decided_commits s = [(0, 0); (0, 1); (1, 1)]%nat ∧
  ∀ l, l ≡ₚ decided_commits s → serial_run race_query 1 (λ _ _, ∅) (db_of demo_master race_new) l (0, 1, 1) ≠ db_of demo_master s (0, 1, 1).
Proof.
  exists (race_read ++ race_barrier ++ race_commit), race_end. split_and!.
  - by vm_compute.
  - split; [|by vm_compute]. apply demo_workers; by vm_compute.
  - by vm_compute.
  - assert (decided_commits race_end = [(0, 0); (0, 1); (1, 1)]%nat) as -> by (by vm_compute).
    assert (db_of demo_master race_end (0, 1, 1) = 2) as -> by (by vm_compute).
    intros l Hl%symmetry%permutations_Permutation. pattern l. eapply (proj1 (Forall_forall _ _)); [|exact Hl].
    apply (bool_decide_unpack _). by vm_compute.
Qed.
