(* ===== verification/AriaTyped.v ===== *)
(** * Aria: the types of the running system

    An invariant of the whole system, with its managers and dispatchers and for
    any schedule: the values of fields fit their widths, transactions are where
    their ids say, messages are for threads that understand them, and no thread
    uses a transaction that was not made. *)

From S2P Require Import Prelude Bits AriaHelper AriaTxn AriaSystem AriaFlight AriaExec AriaSerial AriaBarrier.

Section typed.
Context {K V : Type} `{Countable K} `{Inhabited V} (context : AriaContext) (master_coordinator : Z → nat).
Notation packet := (nat * nat * nat * piece K V)%type.
Notation Txn := (AriaTransaction K V).
Notation N := (coordinator_num context).
Notation B := (batch_size context).
Notation W := (worker_num context).
Notation txn_id := (txn_id context).
Implicit Types (t : Txn) (wk : Worker K V) (n : Node K V) (ts : list (task K)) (P : nat → Prop) (R : nat → nat → Prop).

(** ** Types *)

Definition is_u32 (z : Z) : Prop := 0 ≤ z < 2 ^ 32.

(** Transaction [i] of node [c]. *)
Record txn_typed (c i : nat) t : Prop := {
  tt_id : id t = txn_id c i;
  tt_offset : tid_offset t = i;
  tt_storage : storage_ref t = i;
  tt_lock : abort_lock t = false;
  tt_pending : 0 ≤ pendingResponses t;
  tt_reads : Forall (λ k, is_u32 (bitvec k)) (readSet t);
  tt_writes : Forall (λ k, is_u32 (bitvec k)) (writeSet t)
}.

(** Aborted transactions are not kept for the next batch. *)
Record node_typed (c : nat) n : Prop := {
  nt_words : map_Forall (λ _ r, is_u64 (r_tid r)) (rows n);
  nt_txns : ∀ i t, transactions n !! i = Some t → (i < B)%nat ∧ txn_typed c i t;
  nt_epoch : is_u32 (n_epoch n);
  nt_abort : total_abort n = 0%nat
}.

Definition present n (i : nat) : Prop := is_Some (transactions n !! i).

(** What an executor has to do, where [P] are the transactions there are. *)
Fixpoint tasks_ok P ts : Prop :=
  match ts with
  | [] => True
  | u :: ts =>
      match u with
      | TExecute i => (i < B)%nat ∧ tasks_ok (λ j, P j ∨ j = i) ts
      | TReserve i | TReserveTxn i | TWaitResponses i | TAnalyze i | TCommit i | TDecide i | TWrite i _ => P i ∧ tasks_ok P ts
      | TSwapRow _ _ _ _ _ new_value => is_u64 new_value ∧ tasks_ok P ts
      | TLoop | TAwait _ | TStarted | TCompleted | TServe _ | TProcess | TFlush | TFlushIf | TCount0 | TReserveRow _ _ _ _ => tasks_ok P ts
      | _ => False
      end
  end.

(** What the manager of node [c] has to do: node 0 does not acknowledge. *)
Definition is_manager (c : nat) (u : task K) : bool :=
  match u with
  | MLoop | MEpoch | MCleanup | MStarted0 | MCompleted0 | MSignal _ | MStatus _ | MAwaitStarted | MAwaitCompleted
  | MBroadcastStop | MWaitStop _ | MWaitAck _ | MWaitSignal => true
  | MSendAck => negb (bool_decide (c = 0)%nat)
  | _ => false
  end.

(** A piece from [src] to [dst]: requests and responses are about transactions
    that there are; control messages are between managers. *)
Definition piece_ok R (src dst w : nat) (p : piece K V) : Prop :=
  match p with
  | SearchRequest _ tid off _ | CheckRequest _ tid off _ _ => (w < W)%nat ∧ R src off ∧ tid = txn_id src off
  | SearchResponse _ tid off _ | CheckResponse tid off _ _ _ _ => (w < W)%nat ∧ R dst off ∧ tid = txn_id dst off
  | ReserveRequest _ _ _ _ | WriteRequest _ _ => (w < W)%nat
  | SignalMessage _ | AckMessage | StopMessage => w = W
  end.

Definition packet_ok R (x : packet) : Prop :=
  let '(src, dst, w, p) := x in (src < N)%nat ∧ (dst < N)%nat ∧ src ≠ dst ∧ (w ≤ W)%nat ∧ piece_ok R src dst w p.

Definition present_in (s : System K V) (c i : nat) : Prop := ∃ n, nodes s !! c = Some n ∧ present n i.

Record typed (s : System K V) : Prop := {
  ty_nodes : ∀ c, is_Some (nodes s !! c) ↔ (c < N)%nat;
  ty_node : ∀ c n, nodes s !! c = Some n → node_typed c n;
  ty_threads : ∀ c w, is_Some (workers s !! (c, w)) ↔ (c < N)%nat ∧ (w ≤ W)%nat;
  ty_executors : ∀ c w wk, workers s !! (c, w) = Some wk → (w < W)%nat → tasks_ok (present_in s c) (tasks wk);
  ty_managers : ∀ c wk, workers s !! (c, W) = Some wk → Forall (λ u, is_manager c u = true) (tasks wk);
  ty_packets : Forall (packet_ok (present_in s)) (flight s);
  ty_queued : ∀ cw wk, workers s !! cw = Some wk → Forall (λ x, x.2 ≠ []) (out_queue wk);
  ty_sockets : Forall (λ m, m.2 ≠ []) (sockets s)
}.

(** ** Tasks *)

Lemma tasks_ok_mono P (P' : nat → Prop) ts : (∀ i, P i → P' i) → tasks_ok P ts → tasks_ok P' ts.
Proof.
  revert P P'. induction ts as [|u ts IH]; intros P P' HP; [done|]. destruct u; simpl; try (by apply IH); try done.
  1: { intros [? Hts]. split; [done|]. eapply IH; [|exact Hts]. naive_solver. }
  all: intros [? Hts]; eauto.
Qed.

Lemma tasks_ok_executes P l ts : (∀ i, i ∈ l → (i < B)%nat) → tasks_ok (λ i, P i ∨ i ∈ l) ts →
  tasks_ok P ((l ≫= λ i, [TProcess; TExecute i; TFlushIf]) ++ ts).
Proof.
  revert P. induction l as [|i l IH]; intros P Hl Hts; simpl.
  - eapply tasks_ok_mono; [|exact Hts]. intros j [|[]%not_elem_of_nil]. done.
  - split; [apply Hl; by left|]. apply IH; [intros j Hj; apply Hl; by right|]. eapply tasks_ok_mono; [|exact Hts].
    intros j [|[->|]%elem_of_cons]; auto.
Qed.

Lemma tasks_ok_each (f : nat → task K) P l ts :
  (∀ i ts', P i → tasks_ok P ts' → tasks_ok P (f i :: ts')) → (∀ i, i ∈ l → P i) → tasks_ok P ts → tasks_ok P ((f <$> l) ++ ts).
Proof.
  intros Hf. induction l as [|i l IH]; intros Hl Hts; [done|]. apply (Hf i); [apply Hl; by left|]. apply IH; [|done].
  intros j Hj. apply Hl. by right.
Qed.

Lemma stripe_bound w i : i ∈ stripe context w → (i < B)%nat.
Proof. unfold stripe. rewrite list_elem_of_filter, drop_seq, elem_of_seq. lia. Qed.

Lemma executor_start_ok P w : tasks_ok P (executor_start context w).
Proof.
  unfold executor_start, read_snapshot, commit_transactions. simpl. rewrite <- !app_assoc.
  apply tasks_ok_executes; [apply stripe_bound|]. simpl. rewrite <- app_assoc.
  apply tasks_ok_each; [done|auto|]. simpl. apply tasks_ok_each; [done|auto|]. simpl. rewrite <- app_assoc. apply tasks_ok_each; [done|auto|]. done.
Qed.

(** ** Values *)

Lemma reserve_round_u64 wr e tid a v : is_u64 a → reserve_round wr e tid a = Ret (Some v) → is_u64 v.
Proof.
  unfold is_u64. intros Ha. unfold reserve_round, reserve_read_round, reserve_write_round.
  assert (∀ z, 0 ≤ z < 2 ^ 64 → 0 ≤ set_rts z tid < 2 ^ 64 ∧ 0 ≤ set_wts z tid < 2 ^ 64) as Hs.
  { intros z Hz. rewrite set_rts_eq, set_wts_eq. split; by apply field_set_range. }
  assert (0 ≤ set_epoch 0 e < 2 ^ 64) as He0 by (rewrite set_epoch_eq; by apply field_set_range).
  destruct wr; cbv zeta; destruct (get_epoch a <=? e)%Z; cbn [ASSERT mbind outcome_bind]; try done;
    destruct (get_epoch a <? e)%Z; [|destruct (_ && _)| |destruct (_ && _)]; intros [= <-]; by apply Hs.
Qed.

Lemma new_rwkey_u32 (r : row_id K) v : is_u32 (bitvec (new_rwkey r v)).
Proof. unfold is_u32. rewrite new_rwkey_eq. apply field_set_range; [lia..|]. by apply field_set_range. Qed.

Lemma search_key_u32 b (r : row_id K) v : is_u32 (bitvec (search_key b r v)).
Proof.
  pose proof (new_rwkey_u32 r v) as Hk. unfold is_u32, search_key in *. rewrite set_request_eq. apply field_set_range; [lia..|].
  destruct b; [|done]. rewrite set_local_index_eq. apply field_set_range; [lia..|done].
Qed.

Lemma clear_request_u32 (k : AriaRWKey K) : is_u32 (bitvec k) → is_u32 (bitvec (clear_read_request_bit k)).
Proof. unfold is_u32. rewrite clear_request_eq. intros Hk. apply field_set_range; [lia..|done]. Qed.

(** ** Messages being filled *)

(** A thread's messages: the pieces, and that no empty message is queued. *)
Definition sent R (c w : nat) wk : Prop :=
  Forall (packet_ok R) (packets_of (c, w) wk) ∧ Forall (λ x, x.2 ≠ []) (out_queue wk).

Lemma sent_tasks R c w wk ts : sent R c w wk → sent R c w (set_tasks wk ts).
Proof. done. Qed.

Lemma sent_add R c w wk d p : packet_ok R (c, d, w, p) → sent R c w wk → sent R c w (add_piece wk d p).
Proof. intros Hp [Hwk Ho]. split; [|done]. rewrite packets_add. by constructor. Qed.

Lemma flush_nonempty c wk : Forall (λ x, x.2 ≠ []) (out_queue wk) → Forall (λ x, x.2 ≠ []) (out_queue (flush_messages context c wk)).
Proof.
  unfold flush_messages. generalize (seq 0 N). intros l. revert wk. induction l as [|i l IH]; intros wk Ho; [done|]. simpl. apply IH.
  unfold flush_message. case_decide; [done|]. destruct (default [] (messages wk !! i)) as [|p ps]; [done|]. simpl.
  apply Forall_app. split; [done|]. by constructor.
Qed.

Lemma sent_flush R c w wk : sent R c w wk → sent R c w (flush_messages context c wk).
Proof. intros [Hs Ho]. split; [by destruct (flush_messages_spec context c w wk) as [-> _]|by apply flush_nonempty]. Qed.

Lemma packet_ok_mono R (R' : nat → nat → Prop) x : (∀ c i, R c i → R' c i) → packet_ok R x → packet_ok R' x.
Proof. destruct x as [[[src dst] w] p]. intros HR. simpl. destruct p; simpl; naive_solver. Qed.

Hypothesis Hmaster : ∀ p, (master_coordinator p < N)%nat.
Hypothesis Hids : Z.of_nat B * Z.of_nat N < 2 ^ 32.

Notation has_master_partition := (has_master_partition master_coordinator).

Lemma txn_id_u32 c i : (c < N)%nat → (i < B)%nat → uint 32 (txn_id c i) = txn_id c i.
Proof. intros Hc Hi. apply uint_id. unfold AriaExec.txn_id. nia. Qed.

(** A piece for the master of a row of another node. *)
Lemma sent_remote R c w wk partition_id p : (c < N)%nat → (w < W)%nat → has_master_partition c partition_id = false →
  piece_ok R c (master_coordinator partition_id) w p → sent R c w wk → sent R c w (add_piece wk (master_coordinator partition_id) p).
Proof.
  intros Hc Hw Hm Hp. apply sent_add. unfold AriaSystem.has_master_partition in Hm. apply bool_decide_eq_false in Hm.
  split_and!; [done|apply Hmaster|done|lia|done].
Qed.

(** ** Execution *)

Section execution.
Context (R : nat → nat → Prop) (c w i : nat).
Hypothesis (Hc : (c < N)%nat) (Hw : (w < W)%nat) (Hi : (i < B)%nat) (HR : R c i).

Lemma txn_typed_search t b r v : txn_typed c i t → txn_typed c i (search t b r v).
Proof.
  unfold search. destruct (execution_phase t); [done|]. intros []. split; try done. simpl. apply Forall_app. split; [done|].
  constructor; [apply search_key_u32|done].
Qed.

Lemma txn_typed_update t r v : txn_typed c i t → txn_typed c i (update t r v).
Proof.
  unfold update. destruct (execution_phase t); [done|]. intros []. split; try done. simpl. apply Forall_app. split; [done|].
  constructor; [apply new_rwkey_u32|done].
Qed.

Lemma txn_typed_pending t x : 0 ≤ x → txn_typed c i t → txn_typed c i (set_pending t x).
Proof. intros Hx []. by split. Qed.

Lemma txn_typed_flags t f1 f2 f3 : txn_typed c i t → txn_typed c i (add_flags t f1 f2 f3).
Proof. intros []. by split. Qed.

Notation thread_ok x := (txn_typed c i x.1.1 ∧ sent R c w x.2).

Lemma process_requests_typed (m : gmap (row_id K) (Row V)) k (x : Txn * storage V * Worker K V) :
  thread_ok x → thread_ok (process_requests master_coordinator c m k x).
Proof.
  revert x. induction k as [|k IH]; intros [[t st] wk] [Ht Hs]; [done|]. simpl in *.
  destruct (readSet t !! k) as [key|] eqn:Hk; [|done]. destruct (get_read_request_bit key =? 0)%Z; [done|].
  pose proof (Forall_lookup_1 _ _ _ _ (tt_reads _ _ _ Ht) Hk) as Hkey. simpl in Hkey.
  destruct (has_master_partition c (get_partition_id key)) eqn:Hm; simpl;
    [|destruct (negb (get_local_index_read_bit key =? 0)%Z); simpl]; apply IH; simpl.
  - split; [|done]. destruct Ht. split; try done. simpl. apply Forall_insert; [done|by apply clear_request_u32].
  - split; [|done]. destruct Ht. split; try done. simpl. apply Forall_insert; [done|by apply clear_request_u32].
  - rewrite (tt_id _ _ _ Ht), (tt_offset _ _ _ Ht), txn_id_u32 by done. split; [|by apply sent_remote].
    destruct Ht. split; try done; simpl; [lia|]. apply Forall_insert; [done|by apply clear_request_u32].
Qed.

Lemma foldl_inv {X Y} (I : X → Prop) (f : X → Y → X) l x : (∀ x y, I x → I (f x y)) → I x → I (foldl f x l).
Proof. intros Hf. revert x. induction l as [|y l IH]; intros x Hx; [done|]. by apply IH, Hf. Qed.

Lemma execute_typed (m : gmap (row_id K) (Row V)) t st wk : txn_typed c i t → sent R c w wk →
  thread_ok (execute master_coordinator c m (t, st, wk)).2.
Proof.
  intros Ht Hs. unfold execute. cbv zeta.
  assert (txn_typed c i (foldl (λ t s, search t s.1.1 s.1.2 s.2) t (q_searches (query t)))) as Ht1.
  { apply foldl_inv; [|done]. intros. by apply txn_typed_search. }
  destruct (q_abort _); [done|].
  match goal with |- context [process_requests _ _ ?m ?k ?x] => pose proof (process_requests_typed m k x (conj Ht1 Hs)) as [H1 H2] end.
  destruct (process_requests _ _ _ _ _) as [[t2 st2] wk2]. simpl in *. split; [|done].
  apply foldl_inv; [|done]. intros. by apply txn_typed_update.
Qed.

(** Reservations of rows of this node are left to do. *)
Lemma tasks_ok_rows P l ts : Forall (λ u, ∃ r wr e tid, u = TReserveRow r wr e tid) l → tasks_ok P ts → tasks_ok P (l ++ ts).
Proof using. induction 1 as [|u l (r & wr & e & tid & ->) _ IH]; [done|]. intros Hts. by apply IH. Qed.

Lemma reserve_transaction_typed t wk : sent R c w wk →
  Forall (λ u, ∃ r wr e tid, u = TReserveRow r wr e tid) (reserve_transaction context master_coordinator c t wk).1 ∧
  sent R c w (reserve_transaction context master_coordinator c t wk).2.
Proof.
  intros Hs. unfold reserve_transaction. destruct (_ && _); [done|].
  set (I := λ x : list (task K) * Worker K V, Forall (λ u, ∃ r wr e tid, u = TReserveRow r wr e tid) x.1 ∧ sent R c w x.2).
  assert (∀ wr x k, I x → I (reserve_key master_coordinator c t wr x k)) as Hk.
  { intros wr x k [H1 H2]. unfold reserve_key. destruct (_ && _); [done|].
    destruct (has_master_partition c (get_partition_id k)) eqn:Hm; split; simpl; try done.
    - apply Forall_app. split; [done|]. constructor; [by repeat eexists|done].
    - by apply sent_remote. }
  apply (foldl_inv I); [by apply Hk|]. apply (foldl_inv I); [by apply Hk|]. done.
Qed.

Lemma analyze_typed (m : gmap (row_id K) (Row V)) t wk : txn_typed c i t → sent R c w wk →
  txn_typed c i (analyze_dependency context master_coordinator c m t wk).1 ∧
  sent R c w (analyze_dependency context master_coordinator c m t wk).2.
Proof.
  intros Ht Hs. unfold analyze_dependency. destruct (_ && _); [done|].
  assert (∀ l t wk, txn_typed c i t → sent R c w wk → txn_typed c i (analyze_reads master_coordinator c m t wk l).1 ∧
    sent R c w (analyze_reads master_coordinator c m t wk l).2) as Hreads.
  { clear t wk Ht Hs. induction l as [|k l IH]; intros t wk Ht Hs; [done|]. cbn [analyze_reads].
    destruct (negb _); [by apply IH|]. destruct (has_master_partition c (get_partition_id k)) eqn:Hm.
    - destruct (found _ _ _ _); [|by apply IH]. split; [by apply txn_typed_flags|done].
    - apply IH; [apply txn_typed_pending; [|done]; pose proof (tt_pending _ _ _ Ht); lia|].
      rewrite (tt_id _ _ _ Ht), (tt_offset _ _ _ Ht), txn_id_u32 by done. by apply sent_remote. }
  assert (∀ l t wk, txn_typed c i t → sent R c w wk → txn_typed c i (analyze_writes master_coordinator c m t wk l).1 ∧
    sent R c w (analyze_writes master_coordinator c m t wk l).2) as Hwrites.
  { clear t wk Ht Hs. induction l as [|k l IH]; intros t wk Ht Hs; [done|]. cbn [analyze_writes].
    destruct (has_master_partition c (get_partition_id k)) eqn:Hm.
    - apply IH; [by apply txn_typed_flags|done].
    - apply IH; [apply txn_typed_pending; [|done]; pose proof (tt_pending _ _ _ Ht); lia|].
      rewrite (tt_id _ _ _ Ht), (tt_offset _ _ _ Ht), txn_id_u32 by done. by apply sent_remote. }
  destruct (Hreads (readSet t) t wk Ht Hs) as [H1 H2]. destruct (analyze_reads _ _ _ _ _ _) as [t1 wk1]. by apply Hwrites.
Qed.

End execution.

(** ** A step of an executor *)

Definition step_ok R (c w : nat) n (x : Node K V * Worker K V) : Prop :=
  node_typed c x.1 ∧ (∀ i, present n i → present x.1 i) ∧ tasks_ok (present x.1) (tasks x.2) ∧
  (∀ R', (∀ d i, R d i → R' d i) → (∀ i, present x.1 i → R' c i) → sent R' c w x.2).

Lemma sent_mono R R' c w wk : (∀ d i, R d i → R' d i) → sent R c w wk → sent R' c w wk.
Proof. intros HR [Hs Ho]. split; [|done]. eapply Forall_impl; [exact Hs|]. intros x. by apply packet_ok_mono. Qed.

(** The transactions there are stay the same. *)
Lemma step_ok_same R c w n n' wk : node_typed c n' → transactions n' = transactions n → tasks_ok (present n) (tasks wk) →
  sent R c w wk → step_ok R c w n (n', wk).
Proof.
  intros Hn Htx Hts Hs. unfold step_ok, present in *. cbn [fst snd]. rewrite Htx. split_and!; try done. intros R' HR _. by eapply sent_mono.
Qed.

Lemma set_transaction_present n i t j : present (set_transaction n i t) j ↔ present n j ∨ j = i.
Proof.
  unfold present. simpl. destruct (decide (j = i)) as [->|Hne].
  - rewrite lookup_insert_eq. split; [by right|done].
  - rewrite lookup_insert_ne by done. naive_solver.
Qed.

Lemma set_transaction_typed c n i t : node_typed c n → (i < B)%nat → txn_typed c i t → node_typed c (set_transaction n i t).
Proof.
  intros [] Hi Ht. split; try done. intros j t'. simpl. destruct (decide (j = i)) as [->|Hne].
  - rewrite lookup_insert_eq. by intros [= <-].
  - rewrite lookup_insert_ne by done. auto.
Qed.

Lemma set_storage_typed c n i st : node_typed c n → node_typed c (set_storage n i st).
Proof. by intros []. Qed.

Lemma word_u64 c n r : node_typed c n → is_u64 (r_tid (search_row (rows n) r)).
Proof.
  intros Hn. unfold search_row. destruct (rows n !! r) as [x|] eqn:Hr; [|done]. by apply (nt_words _ _ Hn r x).
Qed.

Lemma set_rows_typed c n r x : node_typed c n → is_u64 (r_tid x) → node_typed c (set_rows n (<[r := x]> (rows n))).
Proof. intros [] Hx. split; try done. simpl. by apply map_Forall_insert_2. Qed.

(** What may stop a process: a response to a search of an earlier batch, or a
    reservation of an earlier epoch. *)
Definition late n wk (u : task K) : Prop :=
  (∃ src v tid off ko ps q t, u = TProcess ∧ in_queue wk = (src, SearchResponse v tid off ko :: ps) :: q ∧
     transactions n !! off = Some t ∧ readSet t !! ko = None) ∨
  (∃ r wr e tid, u = TReserveRow r wr e tid ∧ e < get_epoch (r_tid (search_row (rows n) r))).

Definition result_ok R (c w : nat) n wk u (x : blocking (Node K V * Worker K V)) : Prop :=
  match x with Done y => step_ok R c w n y | Blocks => True | Crash => late n wk u end.

Lemma response_txn_typed c n off : node_typed c n → (c < N)%nat → present n off →
  ∃ t, response_txn context n (txn_id c off) off = Done t ∧ transactions n !! off = Some t ∧ (off < B)%nat ∧ txn_typed c off t.
Proof.
  intros Hn Hc [t Ht]. destruct (nt_txns _ _ Hn off t Ht) as [Hoff Hty]. exists t. split; [|done].
  unfold response_txn. rewrite decide_True, Ht, (tt_id _ _ _ Hty), Z.eqb_refl by done. done.
Qed.

(** An update of a transaction there is. *)
Lemma step_ok_txn R c w n n' i t wk : node_typed c n → present n i → txn_typed c i t → rows n' = rows n →
  transactions n' = <[i := t]> (transactions n) → n_epoch n' = n_epoch n → total_abort n' = total_abort n →
  tasks_ok (present n) (tasks wk) → sent R c w wk → step_ok R c w n (n', wk).
Proof.
  intros Hn [t0 Hi] Ht Hr Htx He Ha Hts Hs. pose proof (nt_txns _ _ Hn i t0 Hi) as [HiB _].
  assert (node_typed c n') as Hn'.
  { destruct (set_transaction_typed c n i t Hn HiB Ht) as [Hw Htxn Hep Hab]. split.
    - by rewrite Hr.
    - by rewrite Htx.
    - by rewrite He.
    - by rewrite Ha. }
  assert (∀ j, present n j → present n' j) as Hp.
  { intros j Hj. unfold present. rewrite Htx. by apply (set_transaction_present n i t j); left. }
  split_and!; [done..| |].
  - by eapply tasks_ok_mono.
  - intros R' HR _. by eapply sent_mono.
Qed.

Lemma process_request_typed R c w n wk ts : (c < N)%nat → (w < W)%nat → node_typed c n → (∀ i, R c i → present n i) →
  tasks_ok (present n) ts → sent R c w wk → result_ok R c w n wk TProcess (process_request context c n wk ts).
Proof.
  intros Hc Hw Hn HR Hts Hs. unfold process_request. destruct (in_queue wk) as [|[src [|p ps]] q] eqn:Hq.
  - by apply step_ok_same.
  - apply step_ok_same; [done..|]. apply sent_tasks, sent_flush. destruct Hs as [Hs Ho]. split; [|done].
    by rewrite <- (packets_in_nil _ _ _ _ Hq).
  - destruct Hs as [Hs Ho]. rewrite (packets_in_cons _ _ _ _ _ _ Hq) in Hs. apply Forall_cons in Hs as [Hp Hs].
    assert (sent R c w (set_in wk ((src, ps) :: q))) as Hs' by done. clear Hs. rename Hs' into Hs. set (wk1 := set_in wk ((src, ps) :: q)) in *.
    destruct Hp as (Hsrc & Hdst & Hne & Hw' & Hp). simpl in Hsrc, Hdst, Hne, Hw', Hp.
    destruct p as [r tid off ko|v tid off ko|r tid e wr|r tid off e wr|tid off wr f1 f2 f3|r v|st| |]; simpl in Hp;
      cbn [handle_piece]; try lia.
    + destruct Hp as (_ & HRs & ->). unfold search_request_handler. cbn. apply step_ok_same; [done..|].
      apply (sent_add R c w wk1); [|done]. repeat split; try done; lia.
    + destruct Hp as (_ & HRd & ->). unfold search_response_handler.
      destruct (response_txn_typed c n off Hn Hc (HR _ HRd)) as (t & -> & Ht & Hoff & Hty). cbn [mbind blocking_bind].
      destruct (readSet t !! ko) as [k|] eqn:Hk; cbn [mbind blocking_bind].
      * apply (step_ok_txn _ _ _ _ _ off (set_pending t (u64 (pendingResponses t - 1)))); try done; [by apply HR|].
        apply txn_typed_pending; [|done]. rewrite u64_uint. by apply uint_range.
      * left. by exists src, v, (txn_id c off), off, ko, ps, q, t.
    + unfold reserve_request_handler. cbn. by apply step_ok_same.
    + destruct Hp as (_ & HRs & ->). unfold check_request_handler.
      destruct (if wr then _ else _) as [[b1 b2] b3]. cbn. apply step_ok_same; [done..|].
      apply (sent_add R c w wk1); [|done]. repeat split; try done; lia.
    + destruct Hp as (_ & HRd & ->). unfold check_response_handler.
      destruct (response_txn_typed c n off Hn Hc (HR _ HRd)) as (t & -> & Ht & Hoff & Hty). cbn [mbind blocking_bind].
      apply (step_ok_txn _ _ _ _ _ off (set_pending (if wr then add_flags t f1 f2 false else add_flags t false false f3)
        (u64 (pendingResponses (if wr then add_flags t f1 f2 false else add_flags t false false f3) - 1)))); try done; [by apply HR|].
      apply txn_typed_pending; [rewrite u64_uint; by apply uint_range|]. destruct wr; by apply txn_typed_flags.
    + unfold write_request_handler. cbn. apply step_ok_same; try done. apply set_rows_typed; [done|]. by apply (word_u64 c).
Qed.

Context (next_transaction : nat → Z → nat → Query K V).

Lemma set_ids_typed c i t e : storage_ref t = i → abort_lock t = false → 0 ≤ pendingResponses t → readSet t = [] → writeSet t = [] →
  txn_typed c i (set_execution_phase (set_ids t (txn_id c i) i e) false).
Proof. intros ? ? ? Hr Hw. split; simpl; rewrite ?Hr, ?Hw; done. Qed.

Lemma execute_transaction_typed R c w n wk i ts : (c < N)%nat → (w < W)%nat → (i < B)%nat → node_typed c n →
  tasks_ok (λ j, present n j ∨ j = i) ts → sent R c w wk →
  let x := execute_transaction context master_coordinator next_transaction c i n wk in step_ok R c w n (x.1, set_tasks x.2 ts).
Proof.
  intros Hc Hw Hi Hn Hts Hs. unfold execute_transaction. cbv zeta.
  match goal with |- context [set_ids ?t _ _ _] => set (t0 := t) end.
  assert (storage_ref t0 = i ∧ abort_lock t0 = false ∧ 0 ≤ pendingResponses t0 ∧ readSet t0 = [] ∧ writeSet t0 = []) as (H1 & H2 & H3 & H4 & H5).
  { subst t0. destruct (transactions n !! i) as [t|] eqn:Ht; [case_decide|]; try done.
    split; [|done]. exact (tt_storage _ _ _ (proj2 (nt_txns _ _ Hn i t Ht))). }
  pose proof (set_ids_typed c i t0 (n_epoch n) H1 H2 H3 H4 H5) as Hty. fold (txn_id c i) in *.
  set (t1 := set_execution_phase _ false) in *. clearbody t1. clear t0 H1 H2 H3 H4 H5.
  set (R0 := λ d j, R d j ∨ d = c ∧ j = i). assert (sent R0 c w (set_count wk (count wk + 1))) as Hs0.
  { eapply sent_mono; [|exact Hs]. unfold R0. auto. }
  pose proof (execute_typed R0 c w i Hc Hw Hi ltac:(unfold R0; auto) (rows n) t1 (storage_of n (storage_ref t1)) _ Hty Hs0) as [Ht' Hs'].
  destruct (execute _ _ _ _) as [res [[t2 st2] wk2]]. cbn [fst snd] in *.
  assert (txn_typed c i (match res with ABORT_NORETRY => set_no_retry t2 true | _ => t2 end)) as Ht2.
  { destruct res; [done..|]. by destruct Ht'. }
  split_and!; cbn [fst snd].
  - by apply set_storage_typed, set_transaction_typed.
  - intros j Hj. by apply set_transaction_present; left.
  - eapply tasks_ok_mono; [|exact Hts]. intros j Hj. by apply set_transaction_present.
  - intros R' HR HR'. apply sent_tasks. eapply sent_mono; [|exact Hs']. intros d j [?|[-> ->]]; [auto|].
    apply HR', set_transaction_present. by right.
Qed.

Lemma reserve_round_panic wr e tid a : reserve_round wr e tid a = Panic → e < get_epoch a.
Proof.
  unfold reserve_round, reserve_read_round, reserve_write_round.
  destruct wr; cbv zeta; destruct (Z.leb_spec (get_epoch a) e); cbn [ASSERT mbind outcome_bind]; try done;
    destruct (get_epoch a <? e)%Z; try done; by destruct (_ && _).
Qed.

Lemma commit_write_typed R c w n wk i j ts : (c < N)%nat → (w < W)%nat → node_typed c n → present n i →
  tasks_ok (present n) ts → sent R c w wk →
  ∃ x, commit_write master_coordinator c i j n wk = Done x ∧ step_ok R c w n (x.1, set_tasks x.2 ts).
Proof.
  intros Hc Hw Hn [t Ht] Hts Hs. unfold commit_write. rewrite Ht. destruct (writeSet t !! j) as [k|].
  - destruct (has_master_partition c (get_partition_id k)) eqn:Hm; eexists; (split; [reflexivity|]); apply step_ok_same; try done; cbn [fst snd].
    + apply set_rows_typed; [done|]. by apply (word_u64 c).
    + apply sent_tasks. by apply (sent_remote R c w wk).
  - eexists. split; [reflexivity|]. by apply step_ok_same.
Qed.

Lemma tasks_ok_writes P i l ts : P i → tasks_ok P ts → tasks_ok P ((TWrite i <$> l) ++ ts).
Proof. intros Hi Hts. induction l as [|j l IH]; [done|]. by split. Qed.

Lemma executor_step_typed R c w b n wk u ts : (c < N)%nat → (w < W)%nat → node_typed c n → (∀ i, R c i ↔ present n i) →
  tasks_ok (present n) (u :: ts) → sent R c w wk →
  result_ok R c w n wk u (executor_step context master_coordinator next_transaction c w b n wk ts u).
Proof.
  intros Hc Hw Hn HR Hts Hs.
  assert (∀ i, present n i → ∃ t, transactions n !! i = Some t ∧ (i < B)%nat ∧ txn_typed c i t) as Htx.
  { intros i [t Ht]. exists t. split; [done|]. by apply (nt_txns _ _ Hn). }
  destruct u; cbn [executor_step]; simpl in Hts; try done.
  - (* TLoop *) apply step_ok_same; [done..| |done]. apply executor_start_ok.
  - (* TAwait *) repeat case_decide; try done; by apply step_ok_same.
  - (* TStarted *) by apply step_ok_same; [destruct Hn|..].
  - (* TCompleted *) by apply step_ok_same; [destruct Hn|..].
  - (* TServe *) case_decide; by apply step_ok_same.
  - (* TProcess *) apply process_request_typed; try done. intros i. apply HR.
  - (* TFlush *) apply step_ok_same; try done. apply sent_tasks. by apply sent_flush.
  - (* TFlushIf *) apply step_ok_same; try done. apply sent_tasks. case_decide; [by apply sent_flush|done].
  - (* TCount0 *) by apply step_ok_same.
  - (* TExecute *) destruct Hts as [Hi Hts]. pose proof (execute_transaction_typed R c w n wk i ts Hc Hw Hi Hn Hts Hs) as Hx.
    cbv zeta in Hx. by destruct (execute_transaction _ _ _ _ _ _ _).
  - (* TReserve *) destruct Hts as [Hi Hts]. destruct (Htx i Hi) as (t & -> & _). destruct (abort_no_retry t); by apply step_ok_same.
  - (* TReserveTxn *) destruct Hts as [Hi Hts]. destruct (Htx i Hi) as (t & -> & HiB & Ht).
    assert (txn_typed c i (set_execution_phase t true)) as Ht1 by (by destruct Ht). cbv zeta.
    pose proof (execute_typed R c w i Hc Hw HiB (proj2 (HR i) Hi) (rows n) _ (storage_of n (storage_ref (set_execution_phase t true))) _ Ht1 Hs) as [Ht2 Hs2].
    destruct (execute _ _ _ _) as [res [[t2 st2] wk2]]. cbn [fst snd] in Ht2, Hs2.
    pose proof (reserve_transaction_typed R c w Hc Hw t2 wk2 Hs2) as [Hrs Hs3].
    destruct (reserve_transaction _ _ _ _ _) as [rs wk3]. cbn [fst snd] in Hrs, Hs3.
    apply (step_ok_txn _ _ _ _ _ i t2); try done. by apply tasks_ok_rows.
  - (* TWaitResponses *) destruct Hts as [Hi Hts]. destruct (Htx i Hi) as (t & -> & _). destruct (0 <? _)%Z; by apply step_ok_same.
  - (* TReserveRow *) cbv zeta. destruct (reserve_round _ _ _ _) as [[v|]|] eqn:Hr.
    + apply step_ok_same; try done. split; [|done]. eapply reserve_round_u64; [|exact Hr]. by apply (word_u64 c).
    + by apply step_ok_same.
    + right. exists r, is_write, e, t. split; [done|]. by eapply reserve_round_panic.
  - (* TSwapRow *) destruct Hts as [Hv Hts]. destruct (_ && _); apply step_ok_same; try done. by apply set_rows_typed.
  - (* TAnalyze *) destruct Hts as [Hi Hts]. destruct (Htx i Hi) as (t & -> & HiB & Ht). destruct (abort_no_retry t); [by apply step_ok_same|].
    pose proof (analyze_typed R c w i Hc Hw HiB (proj2 (HR i) Hi) (rows n) t (set_count wk (count wk + 1)) Ht Hs) as [Ht2 Hs2].
    destruct (analyze_dependency _ _ _ _ _ _) as [t2 wk2]. by apply (step_ok_txn _ _ _ _ _ i t2).
  - (* TCommit *) destruct Hts as [Hi Hts]. destruct (Htx i Hi) as (t & -> & _). destruct (abort_no_retry t); by apply step_ok_same.
  - (* TDecide *) destruct Hts as [Hi Hts]. destruct (Htx i Hi) as (t & -> & _). destruct (decision _ _) as [cm go].
    apply step_ok_same; try done. simpl. destruct cm, go; simpl; try done; by apply tasks_ok_writes.
  - (* TWrite *) destruct Hts as [Hi Hts]. destruct (commit_write_typed R c w n wk i j ts Hc Hw Hn Hi Hts Hs) as (x & -> & Hx). done.
Qed.

(** ** A step of a manager *)

Lemma take_message_sub f (q q' : list (nat * list (piece K V))) st : take_message f q = Some (st, q') → ∀ x, x ∈ q' → x ∈ q.
Proof.
  revert q'. induction q as [|[src ps] q IH]; intros q'; [done|]. cbn [take_message].
  destruct (ps ≫= _) as [|st' l].
  - destruct (take_message f q) as [[st0 q0]|] eqn:Hq; [|done]. cbn [mbind option_bind fst snd]. intros [= -> <-] x.
    rewrite !elem_of_cons. intros [?|Hx]; [by left|right]. by apply (IH q0).
  - intros [= _ <-] x Hx. by right.
Qed.

Lemma sent_taken R c w wk q' : (∀ x, x ∈ q' → x ∈ in_queue wk) → sent R c w wk → sent R c w (set_in wk q').
Proof.
  unfold sent, packets_of. simpl. rewrite !Forall_app. intros Hq ((H1 & H2 & H3) & Ho). split_and!; [done..| |done].
  apply Forall_forall. intros x Hx. rewrite Forall_forall in H3. apply H3. unfold queued_in in *. apply list_elem_of_bind in Hx as (y & Hx & Hy).
  apply list_elem_of_bind. eauto.
Qed.

Lemma broadcast_sent R c wk p : (c < N)%nat → (∀ d, piece_ok R c d W p) → sent R c W wk →
  sent R c W (broadcast context c p wk).
Proof.
  intros Hc Hp Hs. unfold broadcast. apply sent_flush.
  assert (∀ l wk, (∀ i, i ∈ l → (i < N)%nat) → sent R c W wk →
    sent R c W (foldl (λ w i, if decide (i = c) then w else add_piece w i p) wk l)) as Hl.
  { clear wk Hs. induction l as [|i l IH]; intros wk Hl Hs; [done|]. simpl. apply IH; [intros j Hj; apply Hl; by right|].
    case_decide; [done|]. apply sent_add; [|done]. split_and!; [done|apply Hl; by left|congruence|done|apply Hp]. }
  apply Hl; [|done]. intros i Hi%elem_of_seq. lia.
Qed.

Lemma cleanup_loop_id fuel i it (l : gmap nat Txn) : (∀ j t, l !! j = Some t → abort_lock t = false) →
  cleanup_loop fuel i it l = (l, it).
Proof.
  intros Hl. revert i. induction fuel as [|fuel IH]; intros i; [done|]. simpl. destruct (l !! i) as [t|] eqn:Ht; [|done].
  by rewrite (Hl i t Ht).
Qed.

(** No transaction has [abort_lock], so none is kept. *)
Lemma cleanup_batch_id c n : node_typed c n → cleanup_batch context n = n.
Proof.
  intros Hn. unfold cleanup_batch. rewrite cleanup_loop_id.
  - pose proof (nt_abort _ _ Hn) as Ha. destruct n. simpl in *. by subst.
  - intros j t Hj. apply (nt_txns _ _ Hn j t Hj).
Qed.

Definition manager_ok R (c : nat) n (x : blocking (Node K V * Worker K V)) : Prop :=
  match x with
  | Done (n', wk') => node_typed c n' ∧ transactions n' = transactions n ∧ Forall (λ u, is_manager c u = true) (tasks wk') ∧ sent R c W wk'
  | Blocks => True
  | Crash => False
  end.

Lemma wait4_signal_typed R c wk : sent R c W wk →
  match wait4_signal wk with Done x => tasks x.2 = tasks wk ∧ sent R c W x.2 | Blocks => True | Crash => False end.
Proof.
  intros Hs. unfold wait4_signal. destruct (take_message _ _) as [[st q]|] eqn:Hq; [|done]. split; [done|].
  eapply sent_taken; [|exact Hs]. by eapply take_message_sub.
Qed.

Lemma wait4_typed R c wk f st q : sent R c W wk → take_message f (in_queue wk) = Some (st, q) → sent R c W (set_in wk q).
Proof. intros Hs Hq. eapply sent_taken; [|exact Hs]. by eapply take_message_sub. Qed.

Lemma coordinator_start_ok : Forall (λ u, is_manager 0 u = true) (coordinator_start (K := K) context).
Proof. by repeat constructor. Qed.

Lemma non_coordinator_start_ok c : c ≠ 0%nat → Forall (λ u, is_manager c u = true) (non_coordinator_start (K := K) context).
Proof. intros Hc. repeat constructor; simpl; by rewrite bool_decide_false. Qed.

Lemma manager_step_typed R c b n wk u ts : (c < N)%nat → node_typed c n → Forall (λ u, is_manager c u = true) (u :: ts) → sent R c W wk →
  manager_ok R c n (manager_step context c b n wk ts u).
Proof.
  intros Hc Hn [Hu Hts]%Forall_cons Hs. destruct u; simpl in Hu; try done; cbn [manager_step].
  - (* MLoop *) case_decide as Hz.
    + subst c. destruct b; split_and!; try done; [by repeat constructor|apply coordinator_start_ok].
    + pose proof (wait4_signal_typed R c wk Hs) as Hx. destruct (wait4_signal wk) as [[st wk1]| |]; [|done..]. destruct Hx as [_ Hs1].
      cbn [mbind blocking_bind fst snd] in *. case_decide; split_and!; try done; [by destruct Hn|by apply non_coordinator_start_ok].
  - (* MEpoch *) split_and!; try done. destruct Hn. split; try done. by apply uint_range.
  - (* MCleanup *) by rewrite (cleanup_batch_id c n Hn).
  - (* MStarted0 *) split_and!; try done. by destruct Hn.
  - (* MCompleted0 *) split_and!; try done. by destruct Hn.
  - (* MSignal *) unfold signal_worker. split_and!; try done; [by destruct Hn|]. by apply (broadcast_sent R c wk).
  - (* MStatus *) split_and!; try done. by destruct Hn.
  - (* MAwaitStarted *) unfold wait_all_workers_start. by case_decide.
  - (* MAwaitCompleted *) unfold wait_all_workers_finish. by case_decide.
  - (* MBroadcastStop *) split_and!; try done. by apply (broadcast_sent R c wk).
  - (* MWaitStop *) destruct n0 as [|k]; [done|]. unfold wait4_stop. destruct (take_message _ _) as [[st q]|] eqn:Hq; [|done].
    cbn [mbind blocking_bind]. split_and!; try done; [by constructor|]. by eapply (wait4_typed R c wk).
  - (* MWaitAck *) destruct n0 as [|k]; [done|]. unfold wait4_ack. destruct (take_message _ _) as [[st q]|] eqn:Hq; [|done].
    cbn [mbind blocking_bind]. split_and!; try done; [by constructor|]. by eapply (wait4_typed R c wk).
  - (* MSendAck *) apply negb_true_iff, bool_decide_eq_false in Hu. split_and!; try done. apply sent_tasks.
    apply sent_flush, sent_add; [|done]. split_and!; [done|lia|lia|done|done].
  - (* MWaitSignal *) pose proof (wait4_signal_typed R c wk Hs) as Hx. destruct (wait4_signal wk) as [[st wk1]| |]; [|done..]. by destruct Hx.
Qed.

(** ** A step of the system *)

Notation step := (step context master_coordinator next_transaction).
Notation steps := (steps context master_coordinator next_transaction).

Lemma present_in_insert s c n n' cw wk' l : nodes s !! c = Some n → (∀ i, present n i → present n' i) →
  let s' := mkSystem (<[c := n']> (nodes s)) (<[cw := wk']> (workers s)) l in
  (∀ d i, present_in s d i → present_in s' d i) ∧ (∀ i, present n' i → present_in s' c i).
Proof.
  intros Hn Hp s'. split.
  - intros d i (m & Hm & Hi). destruct (decide (d = c)) as [->|Hne].
    + exists n'. simpl. rewrite lookup_insert_eq. rewrite Hn in Hm. injection Hm as <-. auto.
    + exists m. simpl. by rewrite lookup_insert_ne.
  - intros i Hi. exists n'. simpl. by rewrite lookup_insert_eq.
Qed.

(** A thread's step, as [typed] sees it. *)
Lemma typed_run s (c w : nat) n wk n' wk' : typed s → nodes s !! c = Some n → workers s !! (c, w) = Some wk →
  node_typed c n' → (∀ i, present n i → present n' i) →
  ((w < W)%nat → tasks_ok (present n') (tasks wk')) → (w = W → Forall (λ u, is_manager c u = true) (tasks wk')) →
  (∀ R', (∀ d i, present_in s d i → R' d i) → (∀ i, present n' i → R' c i) → sent R' c w wk') →
  typed (mkSystem (<[c := n']> (nodes s)) (<[(c, w) := wk']> (workers s)) (sockets s)).
Proof.
  intros Hty Hn Hw Hn' Hp Hts Hms Hs. destruct (present_in_insert s c n n' (c, w) wk' (sockets s) Hn Hp) as [Hmono Hc'].
  set (s' := mkSystem _ _ _) in *. split.
  - intros d. simpl. destruct (decide (d = c)) as [->|Hne].
    + rewrite lookup_insert_eq, <- (ty_nodes _ Hty), Hn. naive_solver.
    + rewrite lookup_insert_ne by done. apply Hty.
  - intros d m. simpl. destruct (decide (d = c)) as [->|Hne].
    + rewrite lookup_insert_eq. by intros [= <-].
    + rewrite lookup_insert_ne by done. apply Hty.
  - intros d v. simpl. destruct (decide ((d, v) = (c, w))) as [[= -> ->]|Hne].
    + rewrite lookup_insert_eq, <- (ty_threads _ Hty), Hw. naive_solver.
    + rewrite lookup_insert_ne by done. apply Hty.
  - intros d v wk1. simpl. destruct (decide ((d, v) = (c, w))) as [[= -> ->]|Hne].
    + rewrite lookup_insert_eq. intros [= <-] Hv. eapply tasks_ok_mono; [|by apply Hts]. apply Hc'.
    + rewrite lookup_insert_ne by done. intros Hwk1 Hv. eapply tasks_ok_mono; [|by eapply ty_executors]. apply Hmono.
  - intros d wk1. simpl. destruct (decide ((d, W) = (c, w))) as [[= -> <-]|Hne].
    + rewrite lookup_insert_eq. intros [= <-]. by apply Hms.
    + rewrite lookup_insert_ne by done. apply Hty.
  - destruct (flight_worker s _ _ Hw) as (rest & Hf & Hf'). subst s'. rewrite Hf'. apply Forall_app. split; [by apply Hs|].
    pose proof (ty_packets _ Hty) as Hall. rewrite Hf in Hall. apply Forall_app in Hall as [_ Hall].
    eapply Forall_impl; [exact Hall|]. intros x. by apply packet_ok_mono.
  - intros cw wk1. simpl. destruct (decide (cw = (c, w))) as [->|Hne].
    + rewrite lookup_insert_eq. intros [= <-]. by apply (Hs (present_in s')).
    + rewrite lookup_insert_ne by done. apply Hty.
  - apply Hty.
Qed.

Lemma typed_sent s c w wk : typed s → workers s !! (c, w) = Some wk → sent (present_in s) c w wk.
Proof.
  intros Hty Hw. split; [|by eapply ty_queued]. pose proof (ty_packets _ Hty) as Hall.
  destruct (flight_worker s _ _ Hw) as (rest & Hf & _). rewrite Hf in Hall. by apply Forall_app in Hall as [Hall _].
Qed.

(** The dispatchers move messages between threads there are. *)
Lemma typed_move s s' : typed s → flight s' ≡ₚ flight s → nodes s' = nodes s →
  (∀ cw, tasks <$> workers s' !! cw = tasks <$> workers s !! cw) →
  (∀ cw wk, workers s' !! cw = Some wk → Forall (λ x, x.2 ≠ []) (out_queue wk)) → Forall (λ m, m.2 ≠ []) (sockets s') → typed s'.
Proof.
  intros Hty Hf Hn Ht Ho Hso.
  assert (∀ cw wk, workers s' !! cw = Some wk → ∃ wk0, workers s !! cw = Some wk0 ∧ tasks wk0 = tasks wk) as Hwk.
  { intros cw wk Hwk. pose proof (Ht cw) as Heq. rewrite Hwk in Heq. simpl in Heq. symmetry in Heq.
    by apply fmap_Some in Heq as (wk0 & ? & ?); exists wk0. }
  assert (∀ c i, present_in s c i ↔ present_in s' c i) as Hp by (intros; unfold present_in; by rewrite Hn).
  split; rewrite ?Hn; try apply Hty; try done.
  - intros c w. rewrite <- (ty_threads _ Hty). pose proof (Ht (c, w)) as Heq.
    destruct (workers s' !! (c, w)), (workers s !! (c, w)); naive_solver.
  - intros c w wk (wk0 & Hwk0 & <-)%Hwk Hw. eapply tasks_ok_mono; [|by eapply ty_executors]. intros i. apply Hp.
  - intros c wk (wk0 & Hwk0 & <-)%Hwk. by eapply ty_managers.
  - rewrite Hf. eapply Forall_impl; [apply Hty|]. intros x. apply packet_ok_mono. intros. by apply Hp.
Qed.

(** What a step of a thread does; executors stop only on late messages. *)
Lemma run_typed s c w b : typed s →
  match run_worker context master_coordinator next_transaction s c w b with
  | Done s' => typed s'
  | Blocks => True
  | Crash => ∃ n wk u ts, nodes s !! c = Some n ∧ workers s !! (c, w) = Some wk ∧ tasks wk = u :: ts ∧ (w < W)%nat ∧ late n wk u
  end.
Proof.
  intros Hty. unfold run_worker. destruct (nodes s !! c) as [n|] eqn:Hn; [|done].
  destruct (workers s !! (c, w)) as [wk|] eqn:Hw; [|done]. destruct (tasks wk) as [|u ts] eqn:Ht; [done|].
  destruct (proj1 (ty_threads _ Hty c w) ltac:(by eexists)) as [Hc HwW]. pose proof (ty_node _ Hty c n Hn) as Hnt.
  pose proof (typed_sent s c w wk Hty Hw) as Hs. case_decide as HwE.
  - assert (∀ i, present_in s c i ↔ present n i) as HR.
    { intros i. unfold present_in. rewrite Hn. naive_solver. }
    pose proof (ty_executors _ Hty c w wk Hw HwE) as Hts. rewrite Ht in Hts.
    apply (tasks_ok_mono _ (present n)) in Hts; [|intros i; apply HR].
    pose proof (executor_step_typed (present_in s) c w b n wk u ts Hc HwE Hnt HR Hts Hs) as Hx.
    destruct (executor_step _ _ _ _ _ _ _ _ _ _) as [[n' wk']| |]; cbn [mbind blocking_bind fst snd]; [|done|by exists n, wk, u, ts].
    destruct Hx as (H1 & H2 & H3 & H4). simpl in *. eapply (typed_run s c w n wk); try done. lia.
  - assert (w = W) as -> by lia. pose proof (ty_managers _ Hty c wk Hw) as Hms. rewrite Ht in Hms.
    pose proof (manager_step_typed (present_in s) c b n wk u ts Hc Hnt Hms Hs) as Hx.
    destruct (manager_step _ _ _ _ _ _ _) as [[n' wk']| |]; cbn [mbind blocking_bind fst snd]; [|done|done].
    destruct Hx as (H1 & H2 & H3 & H4). eapply (typed_run s c W n wk); try done; [unfold present; by rewrite H2|].
    intros R' HR _. by eapply sent_mono.
Qed.

Lemma step_typed s ev s' : typed s → step s ev = Done s' → typed s'.
Proof.
  intros Hty. destruct ev as [c w b|c w|c src g]; intros Hs.
  - simpl in Hs. pose proof (run_typed s c w b Hty) as Hx. by rewrite Hs in Hx.
  - pose proof (dispatch_flight context master_coordinator next_transaction s c w s' Hs) as (Hf & Hn & Ht).
    eapply typed_move; [done..| |]; simpl in Hs; unfold dispatchMessage in Hs;
      destruct (workers s !! (c, w)) as [wk|] eqn:Hw; try done; destruct (out_queue wk) as [|[dest ps] q] eqn:Hq;
      injection Hs as <-; try apply Hty; pose proof (ty_queued _ Hty _ _ Hw) as Ho; rewrite Hq in Ho; apply Forall_cons in Ho as [Hps Ho].
    + intros cw wk1. simpl. destruct (decide (cw = (c, w))) as [->|Hne].
      * rewrite lookup_insert_eq. by intros [= <-].
      * rewrite lookup_insert_ne by done. apply Hty.
    + simpl. apply Forall_app. split; [apply Hty|]. by constructor.
  - pose proof (receive_flight context master_coordinator next_transaction s c src g s' Hs) as (Hf & Hn & Ht).
    eapply typed_move; [done..| |]; simpl in Hs; unfold receive_message in Hs;
      destruct (take_socket _ _) as [[[[[src' dst] w] ps] l]|] eqn:Htk; try done;
      destruct (workers s !! (c, w)) as [wk|] eqn:Hw; try done; injection Hs as <-.
    + intros cw wk1. simpl. destruct (decide (cw = (c, w))) as [->|Hne].
      * rewrite lookup_insert_eq. intros [= <-]. simpl. by eapply ty_queued.
      * rewrite lookup_insert_ne by done. apply Hty.
    + simpl. apply take_socket_spec in Htk as [_ Hl]. pose proof (ty_sockets _ Hty) as Hso. rewrite Hl in Hso.
      by apply Forall_cons in Hso as [_ Hso].
Qed.

(** A message is for a thread there is. *)
Lemma receive_no_crash s c src g : typed s → receive_message context s c src g ≠ Crash.
Proof.
  intros Hty. unfold receive_message. destruct (take_socket _ _) as [[[[[src' dst] w] ps] l]|] eqn:Htk; [|done].
  apply take_socket_spec in Htk as [HP%bool_decide_eq_true Hl]. simpl in HP. destruct HP as (-> & -> & _).
  pose proof (ty_sockets _ Hty) as Hso. rewrite Hl in Hso. apply Forall_cons in Hso as [Hps _]. simpl in Hps.
  destruct ps as [|p ps]; [done|]. pose proof (ty_packets _ Hty) as Hall. rewrite Forall_forall in Hall.
  destruct (Hall (src, c, w, p)) as (_ & Hc & _ & Hw & _).
  { unfold flight. apply elem_of_app. right. rewrite Hl. simpl. by left. }
  destruct (proj2 (ty_threads _ Hty c w) (conj Hc Hw)) as [wk ->]. done.
Qed.

(** ** The system at its start *)

Lemma new_system_nodes (m : nat → gmap (row_id K) (Row V)) c n : nodes (new_system context m) !! c = Some n → (c < N)%nat ∧ n = new_node (m c).
Proof.
  simpl. intros Hn%elem_of_list_to_map_2. apply list_elem_of_fmap in Hn as (c' & [= -> ->] & Hc%elem_of_seq). split; [lia|done].
Qed.

Lemma new_system_workers (m : nat → gmap (row_id K) (Row V)) c w wk : workers (new_system context m) !! (c, w) = Some wk →
  (c < N)%nat ∧ (w ≤ W)%nat ∧ wk = new_worker context w.
Proof.
  simpl. intros Hwk%elem_of_list_to_map_2. apply list_elem_of_bind in Hwk as (c' & Hwk & Hc%elem_of_seq).
  apply list_elem_of_bind in Hwk as (w' & [= -> -> ->]%list_elem_of_singleton & Hw%elem_of_seq). split_and!; [lia..|done].
Qed.

Lemma new_system_typed (m : nat → gmap (row_id K) (Row V)) : (∀ c, map_Forall (λ _ r, is_u64 (r_tid r)) (m c)) → typed (new_system context m).
Proof.
  intros Hm. split.
  - intros c. split; [intros [n Hn]; by apply new_system_nodes in Hn as [? _]|]. intros Hc.
    destruct (nodes (new_system context m) !! c) eqn:Hn; [done|]. simpl in Hn. apply not_elem_of_list_to_map_2 in Hn. destruct Hn.
    rewrite <- list_fmap_compose. apply list_elem_of_fmap. exists c. split; [done|]. apply elem_of_seq. lia.
  - intros c n [_ ->]%new_system_nodes. split; simpl; [apply Hm|done|done|done].
  - intros c w. split; [intros [wk Hwk]; by apply new_system_workers in Hwk as (? & ? & _)|]. intros [Hc Hw].
    destruct (workers (new_system context m) !! (c, w)) eqn:Hwk; [done|]. simpl in Hwk. apply not_elem_of_list_to_map_2 in Hwk. destruct Hwk.
    apply list_elem_of_fmap. exists ((c, w), new_worker context w). split; [done|]. apply list_elem_of_bind. exists c. split; [|apply elem_of_seq; lia].
    apply list_elem_of_bind. exists w. split; [by apply list_elem_of_singleton|apply elem_of_seq; lia].
  - intros c w wk (_ & _ & ->)%new_system_workers Hw. unfold new_worker. by rewrite decide_True.
  - intros c wk (_ & _ & ->)%new_system_workers. unfold new_worker. rewrite decide_False by lia. by repeat constructor.
  - apply Forall_forall. intros x Hx. unfold flight in Hx. rewrite app_nil_r in Hx. apply list_elem_of_bind in Hx as ([[c w] wk] & Hx & Hwk).
    apply elem_of_map_to_list, new_system_workers in Hwk as (_ & _ & ->). by apply not_elem_of_nil in Hx.
  - intros [c w] wk (_ & _ & ->)%new_system_workers. constructor.
  - constructor.
Qed.

Lemma steps_typed s evs s' : typed s → steps s evs = Done s' → typed s'.
Proof.
  revert s' . induction evs as [|ev evs IH] using rev_ind; intros s' Hty; [by intros [= <-]|].
  unfold AriaSystem.steps. rewrite foldl_app. simpl. fold (steps s evs). destruct (steps s evs) as [s1| |] eqn:Hs1; [|done..].
  apply step_typed. by apply IH.
Qed.


End typed.

