(* ===== verification/AriaPartition.v ===== *)
(** * Aria: partitioners

    src/aria/core/Partitioner.h.  A partitioner says which coordinator is the
    master of a partition and which ones have a replica of it. *)

From S2P Require Import Prelude Bits.

(** The virtual methods. *)
Record Partitioner := mkPartitioner {
  coordinator_id : Z;
  coordinator_num : Z;
  replica_num : Z;
  is_replicated : bool;
  has_master_partition : Z → bool;
  master_coordinator : Z → Z;
  is_partition_replicated_on : Z → Z → bool;
  is_backup : bool
}.

Definition is_partition_replicated_on_me (p : Partitioner) (partition_id : Z) : bool :=
  is_partition_replicated_on p partition_id (coordinator_id p).

(** The constructors check the number of coordinators. *)
Definition HashReplicatedPartitioner (N coordinator_id coordinator_num : Z) : outcome Partitioner :=
  ASSERT! (0 <? N)%Z && (N <=? coordinator_num)%Z;
  let master_coordinator := λ partition_id, partition_id mod coordinator_num in
  Ret (mkPartitioner coordinator_id coordinator_num N (1 <? N)%Z
    (λ partition_id, (master_coordinator partition_id =? coordinator_id)%Z)
    master_coordinator
    (λ partition_id coordinator_id,
       let first_replica := master_coordinator partition_id in
       let last_replica := u64 (first_replica + N - 1) mod coordinator_num in
       if (first_replica <=? last_replica)%Z
       then (first_replica <=? coordinator_id)%Z && (coordinator_id <=? last_replica)%Z
       else (first_replica <=? coordinator_id)%Z || (coordinator_id <=? last_replica)%Z)
    false).

Definition PrimaryBackupPartitioner (coordinator_id coordinator_num : Z) : outcome Partitioner :=
  ASSERT! (coordinator_num =? 2)%Z;
  Ret (mkPartitioner coordinator_id coordinator_num 2 true (λ _, coordinator_id =? 0)%Z (λ _, 0) (λ _ _, true)
    (coordinator_id =? 1)%Z).

(** The id of the second replica is an [unsigned int]. *)
Definition StarSPartitioner (coordinator_id coordinator_num : Z) : outcome Partitioner :=
  ASSERT! (2 <=? coordinator_num)%Z;
  let master_coordinator := λ partition_id, partition_id mod coordinator_num in
  Ret (mkPartitioner coordinator_id coordinator_num 2 true
    (λ partition_id, (master_coordinator partition_id =? coordinator_id)%Z)
    master_coordinator
    (λ partition_id coordinator_id,
       let master_id := master_coordinator partition_id in
       let secondary_id := if (master_id =? 0)%Z then uint 32 (partition_id mod (coordinator_num - 1) + 1) else 0 in
       (coordinator_id =? master_id)%Z || (coordinator_id =? secondary_id)%Z)
    false).

Definition StarCPartitioner (coordinator_id coordinator_num : Z) : outcome Partitioner :=
  ASSERT! (2 <=? coordinator_num)%Z;
  Ret (mkPartitioner coordinator_id coordinator_num 2 true (λ _, coordinator_id =? 0)%Z (λ _, 0)
    (λ partition_id coordinator_id,
       (coordinator_id =? 0)%Z || (coordinator_id =? partition_id mod (coordinator_num - 1) + 1)%Z)
    (negb (coordinator_id =? 0)%Z)).

Definition create_partitioner (part : string) (coordinator_id coordinator_num : Z) : outcome Partitioner :=
  if bool_decide (part = "hash") then HashReplicatedPartitioner 1 coordinator_id coordinator_num
  else if bool_decide (part = "hash2") then HashReplicatedPartitioner 2 coordinator_id coordinator_num
  else if bool_decide (part = "hash3") then HashReplicatedPartitioner 3 coordinator_id coordinator_num
  else if bool_decide (part = "hash4") then HashReplicatedPartitioner 4 coordinator_id coordinator_num
  else if bool_decide (part = "hash5") then HashReplicatedPartitioner 5 coordinator_id coordinator_num
  else if bool_decide (part = "hash6") then HashReplicatedPartitioner 6 coordinator_id coordinator_num
  else if bool_decide (part = "hash7") then HashReplicatedPartitioner 7 coordinator_id coordinator_num
  else if bool_decide (part = "hash8") then HashReplicatedPartitioner 8 coordinator_id coordinator_num
  else if bool_decide (part = "pb") then PrimaryBackupPartitioner coordinator_id coordinator_num
  else if bool_decide (part = "StarS") then StarSPartitioner coordinator_id coordinator_num
  else if bool_decide (part = "StarC") then StarCPartitioner coordinator_id coordinator_num
  else Panic.

(** ** Replicas *)

(** The coordinators that have a replica of the partition. *)
Definition replicas (p : Partitioner) (partition_id : Z) : list Z :=
  filter (λ c, is_partition_replicated_on p partition_id c = true) (seqZ 0 (coordinator_num p)).

Lemma filter_interval (P : Z → Prop) `{∀ x, Decision (P x)} a b n : 0 ≤ a → a ≤ b + 1 → b < n →
  (∀ x, 0 ≤ x < n → P x ↔ a ≤ x ≤ b) → filter P (seqZ 0 n) = seqZ a (b - a + 1).
Proof.
  intros Ha Hab Hb HP. replace n with (a + ((b - a + 1) + (n - b - 1))) by lia.
  rewrite !seqZ_app, !filter_app by lia.
  rewrite filter_none, filter_all, filter_none, app_nil_r; [done|..]; apply Forall_forall; intros x Hx%elem_of_seqZ; rewrite HP by lia; lia.
Qed.

Lemma filter_outside (P : Z → Prop) `{∀ x, Decision (P x)} a b n : -1 ≤ b → b < a → a ≤ n →
  (∀ x, 0 ≤ x < n → P x ↔ x ≤ b ∨ a ≤ x) → filter P (seqZ 0 n) = seqZ 0 (b + 1) ++ seqZ a (n - a).
Proof.
  intros Hb Hab Ha HP. replace n with ((b + 1) + ((a - b - 1) + (n - a))) at 1 by lia.
  rewrite (seqZ_app _ (b + 1)), (seqZ_app _ (a - b - 1)), !filter_app by lia.
  rewrite filter_all, filter_none, filter_all; [by replace (0 + (b + 1) + (a - b - 1)) with a by lia|..]; apply Forall_forall; intros x Hx%elem_of_seqZ; rewrite HP by lia; lia.
Qed.

Lemma filter_two (P : Z → Prop) `{∀ x, Decision (P x)} a b n : 0 ≤ a < n → 0 ≤ b < n → a ≠ b →
  (∀ x, P x ↔ x = a ∨ x = b) → filter P (seqZ 0 n) ≡ₚ [a; b].
Proof.
  intros Ha Hb Hab HP. apply NoDup_Permutation.
  - apply NoDup_filter, NoDup_seqZ.
  - apply NoDup_cons. split; [by rewrite list_elem_of_singleton|apply NoDup_singleton].
  - intros x. rewrite list_elem_of_filter, elem_of_seqZ, HP. set_solver by lia.
Qed.

(** What a partitioner promises to the protocols. *)
Record partitioner_ok (p : Partitioner) : Prop := {
  po_master : ∀ i, 0 ≤ i → 0 ≤ master_coordinator p i < coordinator_num p;
  po_has_master : ∀ i, has_master_partition p i = bool_decide (master_coordinator p i = coordinator_id p);
  po_replica : ∀ i, 0 ≤ i → master_coordinator p i ∈ replicas p i;
  po_replicas : ∀ i, 0 ≤ i → Z.of_nat (length (replicas p i)) = replica_num p;
  po_replicated : is_replicated p = bool_decide (1 < replica_num p);
  po_backup : is_backup p = true → ∀ i, has_master_partition p i = false
}.

Lemma replica_elem p i c : 0 ≤ c < coordinator_num p → is_partition_replicated_on p i c = true → c ∈ replicas p i.
Proof. intros Hm Hr. apply list_elem_of_filter. split; [done|]. apply elem_of_seqZ. lia. Qed.

Lemma eqb_decide a b : (a =? b)%Z = bool_decide (a = b).
Proof. apply eq_true_iff_eq. by rewrite Z.eqb_eq, bool_decide_eq_true. Qed.

(** Half the numbers, so that the sum in [is_partition_replicated_on] is exact. *)
Lemma hash_ok N c n p : n < 2 ^ 63 → HashReplicatedPartitioner N c n = Ret p → partitioner_ok p.
Proof.
  intros Hn. unfold HashReplicatedPartitioner. destruct (Z.ltb_spec 0 N), (Z.leb_spec N n); try done. intros [= <-].
  assert (∀ i, 0 ≤ i mod n < n) as Hm by (intros i; apply Z.mod_pos_bound; lia).
  assert (∀ i, u64 (i mod n + N - 1) = i mod n + N - 1) as Hu.
  { intros i. apply u64_id. unfold is_u64. specialize (Hm i). lia. }
  assert (∀ i, (i mod n + N - 1) mod n = if decide (i mod n + N - 1 < n) then i mod n + N - 1 else i mod n + N - 1 - n) as Hl.
  { intros i. specialize (Hm i). case_decide; [apply Z.mod_small; lia|]. symmetry. apply (Z.mod_unique _ _ 1); lia. }
  split; simpl.
  - intros i _. apply Hm.
  - intros i. apply eqb_decide.
  - intros i _. apply replica_elem; simpl; [apply Hm|]. specialize (Hm i). rewrite Hu, Hl.
    case_decide; destruct (Z.leb_spec (i mod n) (i mod n + N - 1)), (Z.leb_spec (i mod n) (i mod n + N - 1 - n)); lia.
  - intros i _. unfold replicas. simpl. specialize (Hm i). rewrite Hu, Hl. case_decide.
    + rewrite (filter_interval _ (i mod n) (i mod n + N - 1)); [rewrite length_seqZ; lia|lia..|].
      intros x Hx. destruct (Z.leb_spec (i mod n) (i mod n + N - 1)); lia.
    + rewrite (filter_outside _ (i mod n) (i mod n + N - 1 - n)); [rewrite length_app, !length_seqZ; lia|lia..|].
      intros x Hx. destruct (Z.leb_spec (i mod n) (i mod n + N - 1 - n)); lia.
  - apply eq_true_iff_eq. rewrite Z.ltb_lt, bool_decide_eq_true. done.
  - done.
Qed.

Lemma primary_backup_ok c n p : PrimaryBackupPartitioner c n = Ret p → partitioner_ok p.
Proof.
  unfold PrimaryBackupPartitioner. destruct (Z.eqb_spec n 2) as [->|]; [|done]. intros [= <-]. split; simpl.
  - lia.
  - intros _. rewrite Z.eqb_sym. apply eqb_decide.
  - intros i _. by apply replica_elem.
  - done.
  - done.
  - intros Hc%Z.eqb_eq _. by rewrite Hc.
Qed.

Lemma star_s_ok c n p : n < 2 ^ 32 → StarSPartitioner c n = Ret p → partitioner_ok p.
Proof.
  intros Hn. unfold StarSPartitioner. destruct (Z.leb_spec 2 n); [|done]. intros [= <-].
  assert (∀ i, 0 ≤ i mod n < n ∧ 0 ≤ i mod (n - 1) < n - 1) as Hm by (intros i; split; apply Z.mod_pos_bound; lia).
  split; simpl.
  - intros i _. apply Hm.
  - intros i. apply eqb_decide.
  - intros i _. apply replica_elem; simpl; [apply Hm|]. by rewrite Z.eqb_refl.
  - intros i _. unfold replicas. simpl. destruct (Hm i) as [Hi Hi1]. rewrite uint_id by lia.
    rewrite (filter_two _ (i mod n) (if (i mod n =? 0)%Z then i mod (n - 1) + 1 else 0)); [done|lia|..].
    + destruct (i mod n =? 0)%Z; lia.
    + destruct (Z.eqb_spec (i mod n) 0); lia.
    + intros x. by rewrite orb_true_iff, !Z.eqb_eq.
  - done.
  - done.
Qed.

Lemma star_c_ok c n p : StarCPartitioner c n = Ret p → partitioner_ok p.
Proof.
  unfold StarCPartitioner. destruct (Z.leb_spec 2 n); [|done]. intros [= <-].
  assert (∀ i, 0 ≤ i mod (n - 1) < n - 1) as Hm by (intros i; apply Z.mod_pos_bound; lia).
  split; simpl.
  - lia.
  - intros _. rewrite Z.eqb_sym. apply eqb_decide.
  - intros i _. apply replica_elem; simpl; [lia|done].
  - intros i _. unfold replicas. simpl. specialize (Hm i).
    rewrite (filter_two _ 0 (i mod (n - 1) + 1)); [done|lia..|]. intros x. by rewrite orb_true_iff, !Z.eqb_eq.
  - done.
  - intros Hc%negb_true_iff _. by rewrite Hc.
Qed.

Lemma constructors_num N c n p :
  HashReplicatedPartitioner N c n = Ret p ∨ PrimaryBackupPartitioner c n = Ret p ∨ StarSPartitioner c n = Ret p ∨ StarCPartitioner c n = Ret p →
  coordinator_num p = n.
Proof.
  unfold HashReplicatedPartitioner, PrimaryBackupPartitioner, StarSPartitioner, StarCPartitioner.
  destruct (_ && _), (n =? 2)%Z, (2 <=? n)%Z; simpl; naive_solver.
Qed.

Lemma create_partitioner_ok part c n p : n < 2 ^ 32 → create_partitioner part c n = Ret p → partitioner_ok p ∧ coordinator_num p = n.
Proof.
  intros Hn. assert (n < 2 ^ 63) as Hn' by lia. unfold create_partitioner. intros Hp.
  assert ((∃ N, HashReplicatedPartitioner N c n = Ret p) ∨ PrimaryBackupPartitioner c n = Ret p ∨ StarSPartitioner c n = Ret p ∨ StarCPartitioner c n = Ret p)
    as [[N Hc]|Hc] by (repeat case_match; eauto; done).
  - eauto using hash_ok, constructors_num.
  - split; [|apply (constructors_num 1 c n); auto]. destruct Hc as [?|[?|?]]; eauto using primary_backup_ok, star_s_ok, star_c_ok.
Qed.

(** What every partitioner that the factory makes promises: each partition has
    one master, which is a coordinator; the master has a replica; as many
    coordinators have one as [replica_num] says; the master knows that it is the
    master, and a backup is never one. *)
Theorem partitioner_replicas part c n p : n < 2 ^ 32 → create_partitioner part c n = Ret p → partitioner_ok p.
Proof.
  intros Hn Hp. by apply (create_partitioner_ok part c n p Hn Hp).
Qed.

(** Partition 3 of 4 coordinators with 3 replicas. *)
Lemma partitioner_replicas_witness : ∃ p, create_partitioner "hash3" 1 4 = Ret p ∧ Z.of_nat (length (replicas p 3)) = 3.
Proof.
  eexists. split; [reflexivity|]. refine (po_replicas _ (partitioner_replicas "hash3" 1 4 _ _ _) 3 _); [lia|reflexivity|lia].
Defined.
