(* ===== verification/AriaYCSB.v ===== *)
(** * Aria: the YCSB benchmark

    src/aria/benchmark/ycsb and src/aria/common/Random.h: how transactions are
    generated, and what they do.  [Blocks] says that a loop has not ended within
    [fuel] rounds, [Crash] that a division by zero stops the process. *)

From S2P Require Import Prelude Bits AriaHelper AriaTxn AriaSystem AriaExec AriaRead AriaPartition.

(** ** Random *)

Definition init_seed (seed : Z) : Z := Z.land (Z.lxor seed 0x5DEECE66D) (2 ^ 48 - 1).

Definition next_bits (bits seed : Z) : Z * Z :=
  let seed := Z.land (u64 (seed * 0x5DEECE66D + 0xB)) (2 ^ 48 - 1) in
  (Z.shiftr seed (48 - bits), seed).

(** The two draws are operands of one sum, whose order is not specified. *)
Definition next (left_first : bool) (seed : Z) : Z * Z :=
  let '(x, seed) := next_bits 32 seed in
  let '(y, seed) := next_bits 32 seed in
  (if left_first then u64 (u64 (Z.shiftl x 32) + y) else u64 (u64 (Z.shiftl y 32) + x), seed).

Definition uniform_dist (left_first : bool) (a b seed : Z) : blocking (Z * Z) :=
  if (a =? b)%Z then Done (a, seed)
  else
    let n := u64 (b - a + 1) in
    if (n =? 0)%Z then Crash
    else let '(x, seed) := next left_first seed in Done (u64 (x mod n + a), seed).

Notation alpha := "0123456789abcdefghijklmnopqrstuvwxyzABCDEFGHIJKLMNOPQRSTUVWXYZ" (only parsing).

Fixpoint rand_str (left_first : bool) (length : nat) (str : string) (seed : Z) : blocking (string * Z) :=
  match length with
  | O => Done (EmptyString, seed)
  | S length =>
      '(k, seed) ← uniform_dist left_first 0 (u64 (Z.of_nat (String.length str) - 1)) seed;
      '(result, seed) ← rand_str left_first length str seed;
      match String.get (Z.to_nat k) str with Some c => Done (String c result, seed) | None => Crash end
  end.

Definition a_string (left_first : bool) (min_len max_len seed : Z) : blocking (string * Z) :=
  '(len, seed) ← uniform_dist left_first min_len max_len seed;
  rand_str left_first (Z.to_nat len) alpha seed.

(** ** Context *)

Inductive PartitionStrategy := RANGE | ROUND_ROBIN.
Inductive YCSBSkewPattern := BOTH | READ | WRITE.

Record YContext := mkYContext {
  partition_num : Z;
  skewPattern : YCSBSkewPattern;
  readWriteRatio : Z;
  readOnlyTransaction : Z;
  crossPartitionProbability : Z;
  keysPerPartition : Z;
  isUniform : bool;
  two_partitions : bool;
  global_key_space : bool;
  strategy : PartitionStrategy
}.

Definition getPartitionID (c : YContext) (key : Z) : Z :=
  match strategy c with
  | ROUND_ROBIN => key mod partition_num c
  | RANGE => key / keysPerPartition c
  end.

Definition getGlobalKeyID (c : YContext) (key partitionID : Z) : Z :=
  match strategy c with
  | ROUND_ROBIN => u64 (key * partition_num c + partitionID)
  | RANGE => u64 (partitionID * keysPerPartition c + key)
  end.

(** ** Queries *)

Record YCSBQuery := mkYCSBQuery { Y_KEY : list Z; UPDATE : list bool }.

Section generate.
(** The order of the draws, and [Zipf::value] as a function of what [next_double]
    divides by 2^53. *)
Context (left_first : bool) (zipf : Z → Z) (context : YContext) (fuel : nat).

Definition next_double (seed : Z) : Z * Z :=
  if left_first then
    let '(x, seed) := next_bits 26 seed in
    let '(y, seed) := next_bits 27 seed in
    (u64 (u64 (Z.shiftl x 27) + y), seed)
  else
    let '(y, seed) := next_bits 27 seed in
    let '(x, seed) := next_bits 26 seed in
    (u64 (u64 (Z.shiftl x 27) + y), seed).

(** A key below [n], uniform or skewed. *)
Definition draw_key (uniform : bool) (n seed : Z) : blocking (Z * Z) :=
  if uniform then
    '(k, seed) ← uniform_dist left_first 0 (u64 (i32 n - 1)) seed;
    Done (i32 k, seed)
  else let '(u, seed) := next_double seed in Done (zipf u, seed).

(** while (newPartitionID == partitionID) *)
Fixpoint other_partition (fuel : nat) (newPartitionID partitionID seed : Z) : blocking (Z * Z) :=
  if (newPartitionID =? partitionID)%Z then
    match fuel with
    | O => Blocks
    | S fuel =>
        '(p, seed) ← uniform_dist left_first 0 (u64 (partition_num context - 1)) seed;
        other_partition fuel (uint 32 p) partitionID seed
    end
  else Done (newPartitionID, seed).

(** do ... while (retry): till the key is none of [keys]. *)
Fixpoint fresh_key (fuel : nat) (draw : Z → blocking (Z * Z)) (keys : list Z) (seed : Z) : blocking (Z * Z) :=
  match fuel with
  | O => Blocks
  | S fuel =>
      '(key, seed) ← draw seed;
      if decide (key ∈ keys) then fresh_key fuel draw keys seed else Done (key, seed)
  end.

(** Read or write. *)
Definition draw_update (readOnly seed : Z) : blocking (bool * Z) :=
  if (readOnly <=? readOnlyTransaction context)%Z then Done (false, seed)
  else
    '(readOrWrite, seed) ← uniform_dist left_first 1 100 seed;
    Done (negb (readOrWrite <=? readWriteRatio context)%Z, seed).

(** The loops over the keys: [draw] makes key [i]. *)
Fixpoint fill (readOnly : Z) (draw : nat → bool → Z → blocking (Z * Z)) (n : nat) (query : YCSBQuery) (seed : Z) :
    blocking (YCSBQuery * Z) :=
  match n with
  | O => Done (query, seed)
  | S n =>
      '(update, seed) ← draw_update readOnly seed;
      '(key, seed) ← fresh_key fuel (draw (length (Y_KEY query)) update) (Y_KEY query) seed;
      fill readOnly draw n (mkYCSBQuery (Y_KEY query ++ [key]) (UPDATE query ++ [update])) seed
  end.

Notation is_read_pattern := (match skewPattern context with READ => true | _ => false end) (only parsing).
Notation is_write_pattern := (match skewPattern context with WRITE => true | _ => false end) (only parsing).

Definition make_multi_partitions (N : nat) (partitionID seed : Z) : blocking (YCSBQuery * Z) :=
  '(readOnly, seed) ← uniform_dist left_first 1 100 seed;
  '(crossPartition, seed) ← uniform_dist left_first 1 100 seed;
  fill readOnly (λ _ update seed,
    '(key, seed) ← draw_key (isUniform context || (is_read_pattern && update) || (is_write_pattern && negb update))
                     (keysPerPartition context) seed;
    if (crossPartition <=? crossPartitionProbability context)%Z && (1 <? partition_num context)%Z then
      '(newPartitionID, seed) ← other_partition fuel partitionID partitionID seed;
      Done (i32 (getGlobalKeyID context (u64 key) newPartitionID), seed)
    else Done (i32 (getGlobalKeyID context (u64 key) partitionID), seed)) N (mkYCSBQuery [] []) seed.

Definition make_two_partitions (N : nat) (partitionID seed : Z) : blocking (YCSBQuery * Z) :=
  '(readOnly, seed) ← uniform_dist left_first 1 100 seed;
  '(crossPartition, seed) ← uniform_dist left_first 1 100 seed;
  '(newPartitionID, seed) ←
    (if (crossPartition <=? crossPartitionProbability context)%Z && (1 <? partition_num context)%Z
     then other_partition fuel partitionID partitionID seed else Done (partitionID, seed));
  fill readOnly (λ i _ seed,
    '(key, seed) ← draw_key (isUniform context) (keysPerPartition context) seed;
    if decide (N ≤ 2 * i)%nat then Done (i32 (getGlobalKeyID context (u64 key) newPartitionID), seed)
    else Done (i32 (getGlobalKeyID context (u64 key) partitionID), seed)) N (mkYCSBQuery [] []) seed.

Definition make_global_key_space_query (N : nat) (seed : Z) : blocking (YCSBQuery * Z) :=
  '(readOnly, seed) ← uniform_dist left_first 1 100 seed;
  fill readOnly (λ _ _ seed,
    draw_key (isUniform context) (u64 (keysPerPartition context * partition_num context)) seed) N (mkYCSBQuery [] []) seed.

Definition makeYCSBQuery (N : nat) (partitionID seed : Z) : blocking (YCSBQuery * Z) :=
  if global_key_space context then make_global_key_space_query N seed
  else if two_partitions context then make_two_partitions N partitionID seed
  else make_multi_partitions N partitionID seed.

End generate.

(** ** Transactions *)

(** The ten fields of a value. *)
Notation ycsb_value := (list string) (only parsing).

(** What an update writes: [local_random] starts with the default seed. *)
Fixpoint new_fields (left_first : bool) (n : nat) (seed : Z) : blocking (list string * Z) :=
  match n with
  | O => Done ([], seed)
  | S n =>
      '(f, seed) ← a_string left_first 10 10 seed;
      '(fs, seed) ← new_fields left_first n seed;
      Done (f :: fs, seed)
  end.

Definition new_value (left_first : bool) : ycsb_value :=
  match new_fields left_first 10 (init_seed 0) with Done (v, _) => v | _ => [] end.

Section transaction.
Context (left_first : bool) (context : YContext).

(** The row of a key in the only table. *)
Definition row_of_key (key : Z) : row_id Z := (0, getPartitionID context (u64 key), key).

(** [ReadModifyWrite::execute]: its searches, what it writes into the values it
    read, and its updates. *)
Definition ReadModifyWrite (query : YCSBQuery) : Query Z ycsb_value :=
  let updates := filter (λ x, x.2.2 = true) (zip (seq 0 (length (Y_KEY query))) (zip (Y_KEY query) (UPDATE query))) in
  mkQuery
    (imap (λ i key, (false, row_of_key key, i)) (Y_KEY query))
    false
    (λ execution_phase st, if execution_phase then foldl (λ st x, <[x.1 := new_value left_first]> st) st updates else st)
    ((λ x, (row_of_key x.2.1, x.1)) <$> updates).

End transaction.

(** ** Keys and partitions *)

Record ycsb_ok (c : YContext) : Prop := {
  yo_keys : 0 < keysPerPartition c;
  yo_partitions : 0 < partition_num c ≤ 2 ^ 16;
  yo_total : keysPerPartition c * partition_num c < 2 ^ 31
}.

Definition total_keys (c : YContext) : Z := keysPerPartition c * partition_num c.

Lemma getGlobalKeyID_spec c key p : ycsb_ok c → 0 ≤ key < keysPerPartition c → 0 ≤ p < partition_num c →
  0 ≤ getGlobalKeyID c key p < total_keys c ∧ getPartitionID c (getGlobalKeyID c key p) = p.
Proof.
  intros [Hk Hp Ht] Hkey Hpid. unfold getGlobalKeyID, getPartitionID, total_keys. destruct (strategy c).
  - rewrite u64_id by (unfold is_u64; nia). split; [nia|]. rewrite Z.div_add_l by lia. rewrite Z.div_small by lia. lia.
  - rewrite u64_id by (unfold is_u64; nia). split; [nia|]. rewrite Z.add_comm, Z.mod_add by lia. by apply Z.mod_small.
Qed.

Lemma getPartitionID_range c key : ycsb_ok c → 0 ≤ key < total_keys c → 0 ≤ getPartitionID c key < partition_num c.
Proof.
  intros [Hk Hp Ht] Hkey. unfold getPartitionID, total_keys in *. destruct (strategy c).
  - split; [apply Z.div_pos; lia|]. apply Z.div_lt_upper_bound; lia.
  - apply Z.mod_pos_bound. lia.
Qed.

Lemma next_range lf seed : is_u64 (next lf seed).1.
Proof. unfold next. destruct (next_bits 32 seed) as [x s1]. destruct (next_bits 32 s1) as [y s2]. destruct lf; apply u64_range. Qed.

(** A draw is in the range, and only the full range divides by zero. *)
Lemma uniform_dist_spec lf a b seed : 0 ≤ a ≤ b → b < 2 ^ 64 →
  match uniform_dist lf a b seed with Done (x, _) => a ≤ x ≤ b | Blocks => False | Crash => a = 0 ∧ b = 2 ^ 64 - 1 end.
Proof.
  intros Hab Hb. unfold uniform_dist. destruct (Z.eqb_spec a b); [lia|]. cbv zeta.
  destruct (decide (b - a + 1 = 2 ^ 64)) as [Hfull|Hfull].
  - rewrite Hfull. change (u64 (2 ^ 64)) with 0. simpl. lia.
  - rewrite u64_id by (unfold is_u64; lia). destruct (Z.eqb_spec (b - a + 1) 0); [lia|].
    pose proof (next_range lf seed) as Hx. destruct (next lf seed) as [x s]. simpl in Hx.
    pose proof (Z.mod_pos_bound x (b - a + 1)). rewrite u64_id by (unfold is_u64; lia). lia.
Qed.

Lemma uniform_dist_range lf a b seed x s : 0 ≤ a ≤ b → b < 2 ^ 64 → uniform_dist lf a b seed = Done (x, s) → a ≤ x ≤ b.
Proof. intros Hab Hb Hu. pose proof (uniform_dist_spec lf a b seed Hab Hb) as Hs. by rewrite Hu in Hs. Qed.

(** ** What the generator makes *)

Section generated.
Context (left_first : bool) (zipf : Z → Z) (context : YContext).
Hypothesis Hctx : ycsb_ok context.
(** The skewed keys are those of a partition, or of the key space. *)
Hypothesis Hzipf : ∀ u, 0 ≤ zipf u < (if global_key_space context then total_keys context else keysPerPartition context).

Lemma draw_key_range uniform n seed k s : 0 < n < 2 ^ 31 → (∀ u, 0 ≤ zipf u < n) →
  draw_key left_first zipf uniform n seed = Done (k, s) → 0 ≤ k < n.
Proof.
  intros Hn Hz. unfold draw_key. destruct uniform.
  - rewrite i32_id, u64_id by (unfold is_u64; lia). destruct (uniform_dist _ _ _ _) as [[x s1]| |] eqn:Hu; cbn [mbind blocking_bind]; [|done..].
    apply uniform_dist_range in Hu; [|lia..]. intros [= <- _]. rewrite i32_id by lia. lia.
  - destruct (next_double left_first seed) as [u s1]. intros [= <- _]. apply Hz.
Qed.

Lemma other_partition_range fuel np p seed q s : 1 < partition_num context → 0 ≤ np < partition_num context →
  other_partition left_first context fuel np p seed = Done (q, s) → 0 ≤ q < partition_num context.
Proof.
  intros Hpn. destruct Hctx as [_ Hp _]. revert np seed. induction fuel as [|fuel IH]; intros np seed Hnp; simpl.
  - destruct (np =? p)%Z; [done|]. by intros [= <- _].
  - destruct (np =? p)%Z; [|by intros [= <- _]]. rewrite u64_id by (unfold is_u64; lia).
    destruct (uniform_dist _ _ _ _) as [[x s1]| |] eqn:Hu; cbn [mbind blocking_bind]; [|done..].
    apply uniform_dist_range in Hu; [|lia..]. apply IH. rewrite uint_id; lia.
Qed.

Lemma fresh_key_spec fuel draw keys seed k s : fresh_key fuel draw keys seed = Done (k, s) →
  k ∉ keys ∧ ∃ s0 s1, draw s0 = Done (k, s1).
Proof.
  revert seed. induction fuel as [|fuel IH]; intros seed; [done|]. simpl. destruct (draw seed) as [[k1 s1]| |] eqn:Hd; [|done..].
  cbn [mbind blocking_bind]. case_decide; [apply IH|]. intros [= <- _]. eauto.
Qed.

Lemma fill_spec (P : Z → Prop) fuel ro draw n : (∀ i u s k s', draw i u s = Done (k, s') → P k) → ∀ q seed q' seed',
  fill left_first context fuel ro draw n q seed = Done (q', seed') →
  NoDup (Y_KEY q) → length (UPDATE q) = length (Y_KEY q) → Forall P (Y_KEY q) →
  NoDup (Y_KEY q') ∧ length (UPDATE q') = length (Y_KEY q') ∧ Forall P (Y_KEY q') ∧ length (Y_KEY q') = (length (Y_KEY q) + n)%nat.
Proof.
  intros Hdraw. induction n as [|n IH]; intros q seed q' seed'; simpl.
  - intros [= <- _] ? ? ?. split_and!; done || lia.
  - destruct (draw_update _ _ _ _) as [[u s1]| |]; cbn [mbind blocking_bind]; [|done..].
    destruct (fresh_key _ _ _ _) as [[k s2]| |] eqn:Hk; cbn [mbind blocking_bind]; [|done..].
    apply fresh_key_spec in Hk as [Hk (s3 & s4 & Hd)]. intros Hf Hnd Hlen HP. apply IH in Hf as (H1 & H2 & H3 & H4); simpl in *.
    + rewrite length_app in H4. simpl in H4. split_and!; done || lia.
    + apply NoDup_app. split_and!; [done| |apply NoDup_singleton]. intros x Hx ->%list_elem_of_singleton. done.
    + rewrite !length_app. simpl. lia.
    + apply Forall_app. split; [done|]. constructor; [by eapply Hdraw|done].
Qed.

Lemma fill_empty (P : Z → Prop) fuel ro draw n seed q s : (∀ i u s k s', draw i u s = Done (k, s') → P k) →
  fill left_first context fuel ro draw n (mkYCSBQuery [] []) seed = Done (q, s) →
  NoDup (Y_KEY q) ∧ length (UPDATE q) = length (Y_KEY q) ∧ Forall P (Y_KEY q) ∧ length (Y_KEY q) = n.
Proof. intros Hd Hf. eapply fill_spec in Hf; [exact Hf|exact Hd|constructor|done|constructor]. Qed.

(** The keys of a query: all of the key space, and of the transaction's own
    partition where no transaction crosses partitions. *)
Definition key_ok (partitionID key : Z) : Prop :=
  0 ≤ key < total_keys context ∧
  (global_key_space context = false → crossPartitionProbability context ≤ 0 →
     ∃ k, 0 ≤ k < keysPerPartition context ∧ key = getGlobalKeyID context k partitionID).

Lemma global_key_ok key p partitionID : global_key_space context = false → 0 ≤ key < keysPerPartition context → 0 ≤ p < partition_num context →
  (crossPartitionProbability context ≤ 0 → p = partitionID) → key_ok partitionID (i32 (getGlobalKeyID context (u64 key) p)).
Proof.
  intros Hg Hkey Hp Hown. destruct (getGlobalKeyID_spec context key p Hctx Hkey Hp) as [Hr _]. destruct Hctx as [Hk Hpn Ht].
  unfold total_keys in *. assert (0 ≤ key < 2 ^ 64) by nia. rewrite u64_id by done. rewrite i32_id by lia. split; [done|].
  intros _ Hc. exists key. split; [done|]. by rewrite <- (Hown Hc).
Qed.

Lemma makeYCSBQuery_spec fuel N partitionID seed q s : 0 ≤ partitionID < partition_num context →
  makeYCSBQuery left_first zipf context fuel N partitionID seed = Done (q, s) →
  NoDup (Y_KEY q) ∧ length (UPDATE q) = length (Y_KEY q) ∧ Forall (key_ok partitionID) (Y_KEY q) ∧ length (Y_KEY q) = N.
Proof.
  intros Hp. unfold makeYCSBQuery. destruct (global_key_space context) eqn:Hg; [|destruct (two_partitions context)].
  - unfold make_global_key_space_query. destruct (uniform_dist _ _ _ _) as [[ro s1]| |]; cbn [mbind blocking_bind]; [|done..].
    apply fill_empty. intros _ u s2 k s3 Hd.
    assert (0 < total_keys context < 2 ^ 31) as Ht by (unfold total_keys; destruct Hctx; nia).
    fold (total_keys context) in Hd. rewrite u64_id in Hd by (unfold is_u64; lia). apply draw_key_range in Hd; [|done..]. split; [done|congruence].
  - unfold make_two_partitions. destruct (uniform_dist _ _ _ seed) as [[ro s1]| |]; cbn [mbind blocking_bind]; [|done..].
    destruct (uniform_dist _ _ _ s1) as [[cp s2]| |] eqn:Hcp; cbn [mbind blocking_bind]; [|done..]. apply uniform_dist_range in Hcp; [|lia..].
    destruct (if _ && _ then _ else _) as [[np s3]| |] eqn:Hnp; cbn [mbind blocking_bind]; [|done..].
    assert (0 ≤ np < partition_num context ∧ (crossPartitionProbability context ≤ 0 → np = partitionID)) as [Hnp1 Hnp2].
    { destruct (Z.leb_spec cp (crossPartitionProbability context)), (Z.ltb_spec 1 (partition_num context)); simpl in Hnp;
        try (by injection Hnp as <- _). split; [by eapply other_partition_range|lia]. }
    apply fill_empty. intros i u s4 k s5.
    destruct (draw_key _ _ _ _ _) as [[key s6]| |] eqn:Hd; cbn [mbind blocking_bind]; [|done..].
    apply draw_key_range in Hd; [|destruct Hctx; nia|done]. case_decide; intros [= <- _]; by apply global_key_ok.
  - unfold make_multi_partitions. destruct (uniform_dist _ _ _ seed) as [[ro s1]| |]; cbn [mbind blocking_bind]; [|done..].
    destruct (uniform_dist _ _ _ s1) as [[cp s2]| |] eqn:Hcp; cbn [mbind blocking_bind]; [|done..]. apply uniform_dist_range in Hcp; [|lia..].
    apply fill_empty. intros i u s4 k s5.
    destruct (draw_key _ _ _ _ _) as [[key s6]| |] eqn:Hd; cbn [mbind blocking_bind]; [|done..].
    apply draw_key_range in Hd; [|destruct Hctx; nia|done].
    destruct (Z.leb_spec cp (crossPartitionProbability context)), (Z.ltb_spec 1 (partition_num context)); simpl;
      try (intros [= <- _]; by apply global_key_ok).
    destruct (other_partition _ _ _ _ _ _) as [[np s7]| |] eqn:Hnp; cbn [mbind blocking_bind]; [|done..]. intros [= <- _].
    apply other_partition_range in Hnp; [|done..]. apply global_key_ok; [done..|lia].
Qed.

(** ** Its transactions *)

Lemma row_of_key_ok key : 0 ≤ key < total_keys context → row_ok (row_of_key context key).
Proof.
  intros Hk. assert (total_keys context < 2 ^ 31) as Ht by apply Hctx. pose proof (yo_partitions _ Hctx) as Hpn.
  unfold row_ok, row_of_key. simpl. rewrite u64_id by (unfold is_u64; lia).
  pose proof (getPartitionID_range context key Hctx Hk). lia.
Qed.

Lemma imap_snd {A B} (f : nat → A → B) (l : list A) : (imap (λ i x, (f i x, i)) l).*2 = seq 0 (length l).
Proof.
  rewrite fmap_imap. apply list_eq. intros i. rewrite list_lookup_imap. destruct (l !! i) as [x|] eqn:Hx.
  - simpl. symmetry. apply lookup_seq. split; [done|]. by eapply lookup_lt_Some.
  - simpl. symmetry. apply lookup_ge_None. rewrite length_seq. by apply lookup_ge_None.
Qed.

(** A query with such keys is one that the protocol can run. *)
Lemma ReadModifyWrite_ok q : NoDup (Y_KEY q) → length (UPDATE q) = length (Y_KEY q) → Z.of_nat (length (Y_KEY q)) < 2 ^ 31 →
  Forall (λ k, 0 ≤ k < total_keys context) (Y_KEY q) → query_ok (ReadModifyWrite left_first context q).
Proof.
  intros Hnd Hlen Hsz Hks. set (us := zip (seq 0 (length (Y_KEY q))) (zip (Y_KEY q) (UPDATE q))).
  assert (us.*2.*1 = Y_KEY q) as Hus.
  { subst us. rewrite snd_zip, fst_zip; [done|lia|]. rewrite length_zip_with, length_seq. lia. }
  assert (length us = length (Y_KEY q)) as Hul by (subst us; rewrite !length_zip_with, length_seq; lia).
  split; simpl.
  - apply Forall_lookup. intros i x Hx. rewrite list_lookup_imap in Hx. apply fmap_Some in Hx as (k & Hk & ->). simpl.
    apply row_of_key_ok. by apply (Forall_lookup_1 _ _ _ _ Hks Hk).
  - apply Forall_fmap, Forall_filter, Forall_forall. intros x Hx. simpl. apply row_of_key_ok. rewrite Forall_forall in Hks. apply Hks.
    rewrite <- Hus. by apply list_elem_of_fmap_2, list_elem_of_fmap_2.
  - rewrite (imap_snd (λ _ key, (false, row_of_key context key))). apply NoDup_seq.
  - rewrite <- list_fmap_compose. fold us. rewrite <- Hus in Hnd. clear -Hnd. revert Hnd. generalize us. clear us. intros us.
    induction us as [|x us IH]; simpl; [constructor|]. rewrite NoDup_cons. intros [Hx Hnd]. rewrite filter_cons. case_decide; [|by apply IH].
    simpl. apply NoDup_cons. split; [|by apply IH]. intros (y & Heq & [_ Hy]%list_elem_of_filter)%list_elem_of_fmap. apply Hx.
    injection Heq as _ Heq. rewrite Heq. by apply list_elem_of_fmap_2, list_elem_of_fmap_2.
  - rewrite length_imap, length_fmap. fold us. pose proof (length_filter (λ x : nat * (Z * bool), x.2.2 = true) us). lia.
  - done.
Qed.

End generated.

(** A partition with fewer keys than a transaction has: where transactions do
    not cross partitions, the generator never returns, whatever the seed. *)
Theorem ycsb_few_keys_hang left_first zipf yc N partitionID :
  ycsb_ok yc → (∀ u, 0 ≤ zipf u < (if global_key_space yc then total_keys yc else keysPerPartition yc)) →
  global_key_space yc = false → crossPartitionProbability yc ≤ 0 → 0 ≤ partitionID < partition_num yc →
  keysPerPartition yc < Z.of_nat N → ∀ fuel seed q s, makeYCSBQuery left_first zipf yc fuel N partitionID seed ≠ Done (q, s).
Proof.
  intros Hyc Hz Hg Hc Hp HN fuel seed q s Hq.
  apply (makeYCSBQuery_spec left_first zipf yc Hyc Hz) in Hq as (Hnd & _ & Hok & Hlen); [|done].
  assert (Y_KEY q ⊆+ ((λ k, getGlobalKeyID yc k partitionID) <$> seqZ 0 (keysPerPartition yc))) as Hsub.
  { apply NoDup_submseteq; [done|]. intros k Hk. rewrite Forall_forall in Hok. destruct (Hok k Hk) as [_ Hown].
    destruct (Hown Hg Hc) as (k' & Hk' & ->). apply list_elem_of_fmap. exists k'. split; [done|]. apply elem_of_seqZ. lia. }
  apply submseteq_length in Hsub. rewrite length_fmap, length_seqZ, Hlen in Hsub. pose proof (yo_keys _ Hyc). lia.
Qed.

Definition few_keys : YContext := mkYContext 2 BOTH 80 0 0 9 true false false ROUND_ROBIN.

Lemma ycsb_few_keys_hang_witness : ∀ fuel seed q s, makeYCSBQuery true (λ _, 0) few_keys fuel 10 1 seed ≠ Done (q, s).
Proof. apply ycsb_few_keys_hang; unfold few_keys; [split; simpl; lia|intros u; simpl; lia|reflexivity|simpl; lia|simpl; lia|simpl; lia]. Defined.


(** Two nodes with batches of two, each transaction from its own seed. *)
Definition demo_ycsb : YContext := mkYContext 4 BOTH 50 0 20 1000 true false false ROUND_ROBIN.
Definition demo_generated (c i : nat) : YCSBQuery :=
  match makeYCSBQuery true (λ _, 0) demo_ycsb 20 10 (Z.of_nat c) (init_seed (Z.of_nat (2 * c + i))) with
  | Done (q, _) => q
  | _ => mkYCSBQuery [] []
  end.
Definition demo_ycsb_context : AriaContext := mkContext 2 1 1 2 1 true true false.

